(* ===== verification/_CoqProject ===== *)
-Q . S2P
Prelude.v
Slices.v
MerkleSpec.v
BinaryCounter.v
ProofWalk.v
Unbalanced.v
Mmr.v
Balanced.v
Sparse.v
Blake3.v
Blake3Tree.v
Blake3Short.v
AlignedBuffer.v
IoTypes.v
Shards.v
Address.v
SystemContracts.v
Slots.v
NativeExecutor.v
WalletPayload.v
WalletRoundtrip.v
SimpleWallet.v
TransactionPool.v
IoMetadata.v
ContractMetadata.v
RvInt.v
RvRegisters.v
RvMemory.v
Rv64Decode.v
Rv64Encoding.v
Rv64Exec.v
RvInterp.v
Rv64Bits.v
RvZca.v
RvZcaEncoding.v
RvZcaExpansion.v
RvZcmp.v
Rv64Zkn.v
RvContract.v
ContractFile.v
Segments.v
Solutions.v
