(* ===== verification/Prelude.v ===== *)
(** * Verification of the Abundance blockchain

    Abundance is a sharded blockchain.  Farmers store pieces of its archived history and
    answer challenges with them, the execution environment runs contracts, native ones and
    ones compiled to RISC-V, over storage slots, and wallets are contracts that authorize
    and execute transactions.  This development models the parts on which the rest of the
    node relies for integrity, and proves them correct.

    ** Parts and files

    Every file states in its header which source files it models.

    - [Prelude], [Slices]: outcomes, arrays, bit operations, bytes, slices and little-endian
      integers, and the shapes of loops that the crates share.
    - Merkle trees, [crates/shared/ab-merkle-tree]: [MerkleSpec] (the class [NodeHasher], the
      reference tree built level by level, and the lists of pairs that a tree or a verifier
      hashes, with which soundness is stated), [BinaryCounter] (the stack of peaks), [ProofWalk]
      (collection of a proof while leaves are pushed), and the trees [Unbalanced], [Mmr],
      [Balanced] and [Sparse].  The witnesses use the free hasher [sym].
    - BLAKE3, [crates/shared/ab-blake3]: [Blake3] (compression), [Blake3Tree] (the tree hash as
      const functions), [Blake3Short] (inputs of one block or chunk over the platforms of the
      [blake3] crate, a class with laws, and the hasher of the Merkle trees).
    - Data of contracts: [AlignedBuffer] ([crates/shared/ab-aligned-buffer]: contents, and the
      heap of allocations with reference counts), [IoTypes] and [IoMetadata]
      ([crates/shared/ab-io-type]: containers, and types described by bytes).
    - Primitives, [crates/shared/ab-core-primitives]: [Shards] ([shard.rs], [nano_u256.rs]),
      [Address] ([address.rs] and the address allocator contract), [Segments] ([segments.rs],
      [pieces.rs]: super segments and validity of pieces) and [Solutions] ([solutions.rs],
      [sectors.rs]: solution ranges, sectors, and verification of the solutions of farmers).
      [Segments] and [Solutions] call the BLAKE3 and tree files as the source does.
    - Execution: [Slots] ([crates/execution/ab-executor-slots]: storage slots with nested
      instances; a session is a sequence of operations on a stack of them), [SystemContracts]
      ([crates/contracts/system]: token, state, code and block contracts), [NativeExecutor]
      ([crates/execution/ab-executor-native]: calls of contract methods over [Slots]),
      [TransactionPool] ([crates/execution/ab-transaction-pool]).
    - Wallets, [crates/contracts/system/ab-system-contract-simple-wallet-base]: [WalletPayload]
      (builder and decoder of the calls in a transaction), [WalletRoundtrip] (the decoder
      reads what the builder writes), [SimpleWallet] (seals and execution of the payload).
    - Metadata, [crates/contracts/core/ab-contracts-common]: [ContractMetadata] (decoders,
      compact form and fingerprints of methods, over [IoMetadata]).
    - RISC-V, [crates/execution/ab-riscv-primitives] and [ab-riscv-interpreter]: [RvInt]
      (integers and immediates), [RvRegisters] and [RvMemory] (the traits [Register],
      [RegisterFile] and [VirtualMemory] as classes with laws, and their instances),
      [Rv64Decode], [Rv64Encoding] and [Rv64Exec] (RV64I and M), [RvInterp] (fetcher, handler of
      environment calls and the loop), [Rv64Bits] (Zba, Zbb, Zbs, Zbc, Zicond), [RvZca],
      [RvZcaEncoding] and [RvZcaExpansion] (Zca, Zcb), [RvZcmp] and [Rv64Zkn].
    - Contract code, [crates/contracts/core/ab-contract-file]: [RvContract] (the instruction set
      of contracts, put together from the extensions) and [ContractFile] (the file format: its
      parser, which runs the decoders of [ContractMetadata] and [RvContract], and the memory and
      methods of a parsed file).

    ** Conventions

    Rust code is translated function by function; the names are those of the source where
    they are free.  A function that can panic, or that performs an access without a bounds
    check, returns an [outcome]: [Fault] is a panic or undefined behaviour, overflow of
    arithmetic operators included, and theorems that say a function returns exclude all of
    these.  [Option] is [option] and [Result] is [result].  State is passed explicitly, and is
    part of the result also where a call fails.  Unsigned integers are [N], and [Z] in the
    RISC-V files; wrap-around and saturation are written out.  Arrays and vectors are lists
    accessed with [arr_get] and [arr_set], which fault out of range; hash maps and sets are
    finite maps and sets.  Traits are type classes; what an implementation promises is a
    second class with laws, which the instances discharge.  Third-party code, such as the
    vectorised BLAKE3 of the [blake3] crate, signatures and the verifier of proofs of space, is
    a class as well, with its documented behaviour as laws, and has a concrete instance where a
    witness needs one.

    ** What is proved

    - Merkle trees: the streaming, batched and in-memory root computations equal the
      reference root and each other; generated proofs are the reference siblings and are
      accepted; verifiers are total and sound up to an explicit collision of node hashes; the
      mountain range refines the unbalanced tree over any history of additions.  No array
      access is out of bounds, for [MAX_N] up to [2 ^ 63] and sparse trees of up to 128 bits.
    - BLAKE3: the const tree hash and the routines for short inputs compute the function of the
      BLAKE3 paper, for every input below [2 ^ 64] bytes; soundness of Merkle proofs in terms of it.
    - Buffers and containers: contents of all operations on every branch, memory safety of the
      reference counts over any sequence of operations with fewer than [2 ^ 32 - 1] handles at a
      time, exit codes.
    - Metadata: a byte sequence decodes if and only if it is in the documented format, and to
      what it describes, which is the layout of the Rust type with two exceptions; two methods
      have the same compact form exactly when they agree up to names, in the arguments that
      callers see and in the number of those they do not see.
    - Shards, addresses, segments and solutions: ranges of derived indices, uniqueness of
      allocated addresses; a valid segment or piece is the archived one, and an accepted
      solution answers the challenge with a chunk of the archived history, at the position that
      the sector determines in a segment that the solution chooses, up to an explicit
      collision; honest solutions are accepted; verification never panics for consensus
      parameters whose products fit 64 bits; retargeting, sector contents and expiration.
    - Slots and executor: in every session the invariant holds, and every operation returns
      unless an instance was reset while those above it had accesses in progress; a slot being
      written is exclusive; drop commits and reset undoes the accesses of the instance itself;
      view calls change nothing, transactions without nested calls whose method fails restore
      the slots; contexts are not forged.
    - Transaction pool: limits, sizes and indices stay consistent whatever blocks are added, and
      every transaction stays listed under its block if no root is added twice; transactions
      expire with the block they refer to.
    - Wallets: payloads round trip, also where arguments refer to what earlier methods of the
      payload wrote, execution of a payload runs the calls it was built from and terminates, a
      seal authorizes one transaction.
    - RISC-V: decoders accept exactly the words that the specification's encodings produce, for
      RV64I, M, the bit manipulation, compressed and frame instructions; execution is that of
      the specification; compressed instructions execute as what they abbreviate; stack frames
      are restored; AES rounds are inverse and their tables standard; no program of RV64I or
      of a contract makes the loop panic.
    - Contract files: what the parser accepts satisfies what the unchecked accesses rely on; it
      accepts exactly the valid files and those whose last jump is cut off; memory and methods are
      those of the file; execution does not run off the checked code without a jump.

    Where the code falls short of its documentation or of the rest of the code, a theorem or
    example describes what it does, such as [sparse_verify_rejects_empty_tree],
    [mmr_peaks_single_leaf_out_of_bounds], [iter_leaf_shards_kinds], [first_leaf_shards_rejected],
    [eq_ref_conflates_shards], [missing_slot_access], [reset_then_drop_releases_parents],
    [nested_calls_not_atomic], [append_does_not_append], [decoder_slots_out_of_bounds],
    [seal_does_not_separate_slots], [remove_forgets_block], [compact_struct_unreadable],
    [environment_changes_fingerprint], [missing_argument_dropped], [memory_size_overflows],
    [truncated_jump_accepted], [short_memory_accepted], [bad_output_commits],
    [elements_alignment_unknown], [odd_capacity_padded], [antipodal_distance] and
    [saturated_retarget].

    ** Fuel

    Loops that are not structural carry fuel; running out of it is [Fault], so every theorem
    that states a result also states termination.  Loops over the bits of a [u64] get 65
    turns, one more than there are bits; so does the verifier, since 64 halvings bring any
    [u64] to one.  The loop that skips runs of empty leaves gets 257: its chunks grow with the
    alignment of the leaf counter and then shrink with the rest, at most 128 turns each.
    Levels of the balanced tree are bounded by its number of leaves, and the recursion of the
    BLAKE3 tree by the length of the input.  The decoders of metadata, the parser of contract
    files, its scan of the code and the execution of a payload get one turn more than there
    are bytes, each of which consumes at least one.  Nested calls of the native executor have a
    maximal depth, and its theorems hold for any; the fuel of the interpreter is the number of
    turns of its loop, and its theorems hold for any number.

    ** Not modelled

    - Atomic memory orderings: reference counts are updated in one thread.
    - Code chosen by the target processor: intrinsics for BLAKE3, AES and bit manipulation,
      where the portable variant is modelled.
    - Procedural macros, which generate source text; what they generate is modelled where
      other code relies on it (instruction sets, layouts, the calls of contracts).
    - Text: formatting and parsing of addresses through the [bech32] crate, display of
      instructions, log messages; serialization with SCALE and serde.
    - RV32 and the vector and control register extensions, which need a machine with another
      width and further state.
    - Blocks and their bodies, keys and checksums of [ab-core-primitives]; the archiver, over a
      third-party erasure code; proofs of space and of time and ChaCha8, numeric kernels that
      are mostly vectorised or wrap third-party crates.
    - The services of node and farmer, among them the client database, networking, plotting and
      block production, which are asynchronous input and output around the parts above; and the
      legacy Substrate runtime under [subspace], which depends on that framework. *)

From stdpp Require Import prelude.
From Stdlib Require Import NArith ZArith Lia.

(** ** Outcomes of Rust code

    [Fault] stands for a panic (failed index, [expect], [unreachable!],
    arithmetic overflow in a checked context) or for an unchecked access outside
    of an array, which is undefined behaviour.  Code that is free of both
    evaluates to [Ret]. *)

Inductive outcome (A : Type) : Type :=
| Ret (a : A)
| Fault.
Arguments Ret {A} a.
Arguments Fault {A}.

Definition obind {A B} (m : outcome A) (k : A -> outcome B) : outcome B :=
  match m with Ret a => k a | Fault => Fault end.

Declare Scope rust_scope.
Delimit Scope rust_scope with rust.
Notation "'let!' x := m 'in' k" := (obind m (fun x => k))
  (at level 10, x pattern, m at level 100, k at level 200)
  : rust_scope.
Open Scope rust_scope.

(** [Result<A, E>] *)
Inductive result (A E : Type) : Type :=
| Ok (a : A)
| Err (e : E).
Arguments Ok {A E} a.
Arguments Err {A E} e.

(** Indexing an array or a vector: [a[i]] and [a[i] = x]; also the unchecked
    forms [get_unchecked]/[get_unchecked_mut]. *)
Definition arr_get {A} (l : list A) (i : nat) : outcome A :=
  match l !! i with Some a => Ret a | None => Fault end.

Definition arr_set {A} (l : list A) (i : nat) (x : A) : outcome (list A) :=
  if decide (i < length l) then Ret (<[i := x]> l) else Fault.

Lemma arr_get_Some {A} (l : list A) i x : l !! i = Some x -> arr_get l i = Ret x.
Proof. unfold arr_get. by intros ->. Qed.

Lemma arr_set_lt {A} (l : list A) i x :
  i < length l -> arr_set l i x = Ret (<[i := x]> l).
Proof. intros. unfold arr_set. by rewrite decide_True. Qed.

Lemma arr_set_ge {A} (l : list A) i x :
  length l <= i -> arr_set l i x = Fault.
Proof. intros. unfold arr_set. rewrite decide_False; [done | lia]. Qed.

Create HintDb rust.
Create Rewrite HintDb rust.
#[export] Hint Rewrite @arr_set_lt using (lia || (simpl; lia)) : rust.

(** ** Bit tricks on unsigned machine integers

    Unsigned integers are [N]; the operations below are Rust's
    [trailing_ones], [trailing_zeros], [count_ones], [ilog2] and
    [next_power_of_two]. *)

Fixpoint pos_trailing_ones (p : positive) : nat :=
  match p with
  | xH => 1
  | xO _ => 0
  | xI p => S (pos_trailing_ones p)
  end.

Definition trailing_ones (n : N) : nat :=
  match n with N0 => 0 | Npos p => pos_trailing_ones p end.

Fixpoint pos_trailing_zeros (p : positive) : nat :=
  match p with
  | xO p => S (pos_trailing_zeros p)
  | _ => 0
  end.

(** The width is the value for zero, as in Rust. *)
Definition trailing_zeros (width : nat) (n : N) : nat :=
  match n with N0 => width | Npos p => pos_trailing_zeros p end.

Fixpoint pos_count_ones (p : positive) : nat :=
  match p with
  | xH => 1
  | xO p => pos_count_ones p
  | xI p => S (pos_count_ones p)
  end.

Definition count_ones (n : N) : nat :=
  match n with N0 => 0 | Npos p => pos_count_ones p end.

Definition ilog2 (n : N) : nat := N.to_nat (N.log2 n).

Definition next_power_of_two (n : N) : N := (2 ^ N.log2_up n)%N.

(** [bits & !(1 << level)] *)
Definition clear_bit (bits : N) (level : nat) : N :=
  N.ldiff bits (N.shiftl 1 (N.of_nat level)).

Arguments clear_bit : simpl never.

(** The positions of the set bits, lowest first. *)
Fixpoint pos_set_bits (p : positive) (level : nat) : list nat :=
  match p with
  | xH => [level]
  | xO p => pos_set_bits p (S level)
  | xI p => level :: pos_set_bits p (S level)
  end.

Definition set_bits_from (level : nat) (n : N) : list nat :=
  match n with N0 => [] | Npos p => pos_set_bits p level end.

Abbreviation set_bits := (set_bits_from 0).

Lemma trailing_ones_step n :
  trailing_ones n = if N.odd n then S (trailing_ones (N.div2 n)) else 0.
Proof. by destruct n as [|[| |]]. Qed.

Lemma set_bits_step level n :
  set_bits_from level n =
    (if N.odd n then [level] else []) ++ set_bits_from (S level) (N.div2 n).
Proof. by destruct n as [|[| |]]. Qed.

Lemma trailing_zeros_step w n :
  n <> 0%N ->
  trailing_zeros w n = if N.odd n then 0 else S (trailing_zeros w (N.div2 n)).
Proof. by destruct n as [|[| |]]. Qed.

Lemma length_set_bits level n : length (set_bits_from level n) = count_ones n.
Proof.
  destruct n as [|p]; [done|]. simpl. revert level.
  induction p; intros; simpl; auto.
Qed.

Lemma clear_bit_even n k : clear_bit (N.double n) (S k) = N.double (clear_bit n k).
Proof.
  unfold clear_bit. rewrite !N.shiftl_1_l, Nat2N.inj_succ, N.pow_succ_r'.
  destruct n as [|p]; [done|]. by destruct (2 ^ N.of_nat k)%N.
Qed.

Lemma clear_bit_odd n : clear_bit (N.succ_double n) 0 = N.double n.
Proof. by destruct n. Qed.

Lemma set_bits_double level n :
  set_bits_from level (N.double n) = set_bits_from (S level) n.
Proof. by destruct n. Qed.

Lemma set_bits_lowest level p :
  set_bits_from level (Npos p) =
    (level + pos_trailing_zeros p) ::
      set_bits_from level (clear_bit (Npos p) (pos_trailing_zeros p)).
Proof.
  revert level. induction p as [p IH|p IH|]; intros level.
  - change (N.pos p~1) with (N.succ_double (Npos p)). simpl pos_trailing_zeros.
    rewrite clear_bit_odd, set_bits_double. simpl. f_equal. lia.
  - simpl pos_trailing_zeros. change (N.pos p~0) with (N.double (Npos p)).
    rewrite clear_bit_even, !set_bits_double, IH. f_equal. lia.
  - simpl. f_equal. lia.
Qed.

Lemma count_ones_clear p :
  count_ones (Npos p) = S (count_ones (clear_bit (Npos p) (pos_trailing_zeros p))).
Proof. by rewrite <- !(length_set_bits 0), set_bits_lowest. Qed.

(** ** Loops over the set bits of a word

    [ofold] is a Rust [for] loop whose body may fault.  [loop_bits] is the loop

    [loop { let level = bits.trailing_zeros(); if level == 64 { break; }
            bits &= !(1 << level); body }]

    and [while_bits] the same walk written [while bits != 0]. *)

Fixpoint ofold {A B} (body : B -> A -> outcome A) (l : list B) (acc : A) : outcome A :=
  match l with
  | [] => Ret acc
  | b :: l => let! acc := body b acc in ofold body l acc
  end.

Fixpoint loop_bits {A} (fuel : nat) (bits : N) (body : nat -> A -> outcome A)
    (acc : A) : outcome A :=
  match fuel with
  | O => Fault
  | S fuel =>
      let level := trailing_zeros 64 bits in
      if decide (level = 64) then Ret acc
      else let! acc := body level acc in loop_bits fuel (clear_bit bits level) body acc
  end.

Fixpoint while_bits {A} (fuel : nat) (bits : N) (body : nat -> A -> outcome A)
    (acc : A) : outcome A :=
  match fuel with
  | O => Fault
  | S fuel =>
      if decide (bits = 0%N) then Ret acc
      else
        let level := trailing_zeros 64 bits in
        let! acc := body level acc in while_bits fuel (clear_bit bits level) body acc
  end.

Lemma pos_trailing_zeros_lt p w : (Npos p < 2 ^ N.of_nat w)%N -> pos_trailing_zeros p < w.
Proof.
  revert w. induction p as [p IH|p IH|]; intros w Hp; simpl.
  - destruct w; [simpl in Hp|]; lia.
  - destruct w as [|w]; [simpl in Hp; lia|]. rewrite Nat2N.inj_succ, N.pow_succ_r' in Hp.
    specialize (IH w). lia.
  - destruct w; [simpl in Hp|]; lia.
Qed.

Lemma clear_bit_le n k : (clear_bit n k <= n)%N.
Proof. apply N.ldiff_le. apply N.bits_inj. intros i. unfold clear_bit.
  rewrite !N.ldiff_spec, N.bits_0. by destruct (N.testbit n i), (N.testbit _ i). Qed.

Lemma loop_bits_fold {A} fuel bits (body : nat -> A -> outcome A) acc :
  (bits < 2 ^ 64)%N -> count_ones bits < fuel ->
  loop_bits fuel bits body acc = ofold body (set_bits bits) acc.
Proof.
  revert bits acc. induction fuel as [|fuel IH]; intros bits acc Hlt Hf; [lia|].
  destruct bits as [|p]; simpl loop_bits; [done|].
  pose proof (pos_trailing_zeros_lt p 64 Hlt). rewrite decide_False by lia.
  rewrite set_bits_lowest. simpl. destruct (body _ acc) as [acc'|]; [|done]. simpl.
  apply IH.
  - by eapply N.le_lt_trans; [apply clear_bit_le|].
  - rewrite count_ones_clear in Hf. lia.
Qed.

Lemma while_bits_fold {A} fuel bits (body : nat -> A -> outcome A) acc :
  count_ones bits < fuel ->
  while_bits fuel bits body acc = ofold body (set_bits bits) acc.
Proof.
  revert bits acc. induction fuel as [|fuel IH]; intros bits acc Hf; [lia|].
  destruct bits as [|p]; simpl while_bits; [done|].
  rewrite set_bits_lowest. simpl. destruct (body _ acc) as [acc'|]; [|done]. simpl.
  apply IH. rewrite count_ones_clear in Hf. lia.
Qed.

Lemma count_ones_le n w : (n < 2 ^ N.of_nat w)%N -> count_ones n <= w.
Proof.
  destruct n as [|p]; [simpl; lia|]. revert w.
  induction p as [p IH|p IH|]; intros w Hp; simpl;
    (destruct w as [|w]; [simpl in Hp; lia|]);
    try (rewrite Nat2N.inj_succ, N.pow_succ_r' in Hp); specialize (IH w) || idtac; simpl in *; lia.
Qed.

Lemma set_bits_ge level n : Forall (fun k => level <= k) (set_bits_from level n).
Proof.
  destruct n as [|p]; simpl; [constructor|]. revert level.
  induction p as [p IH|p IH|]; intros level; simpl; [|..|by repeat constructor].
  - constructor; [done|]. eapply Forall_impl; [apply IH|]. simpl. lia.
  - eapply Forall_impl; [apply IH|]. simpl. lia.
Qed.

(** The bits left after the lowest one has been cleared are above level 0. *)
Lemma set_bits_cleared_pos level p :
  Forall (fun k => level < k) (set_bits_from level (clear_bit (Npos p) (pos_trailing_zeros p))).
Proof.
  revert level. induction p as [p IH|p IH|]; intros level; [..|constructor]; simpl pos_trailing_zeros.
  - change (N.pos p~1) with (N.succ_double (Npos p)). rewrite clear_bit_odd, set_bits_double.
    apply (set_bits_ge (S level)).
  - change (N.pos p~0) with (N.double (Npos p)). rewrite clear_bit_even, set_bits_double.
    eapply Forall_impl; [apply IH|]. simpl. lia.
Qed.

Lemma elem_of_set_bits level n k :
  k ∈ set_bits_from level n <-> level <= k /\ N.testbit n (N.of_nat (k - level)) = true.
Proof.
  revert level. induction n as [n IH] using (well_founded_ind N.lt_wf_0); intros level.
  destruct (decide (n = 0%N)) as [->|Hn].
  { simpl. split; [by intros ?%not_elem_of_nil|by intros [_ ?]]. }
  rewrite set_bits_step, elem_of_app, IH.
  2:{ destruct n as [|[p|p|]]; simpl; lia. }
  destruct (decide (k = level)) as [->|Hne].
  - rewrite Nat.sub_diag, N.bit0_odd. destruct (N.odd n); set_solver by lia.
  - transitivity (S level <= k /\ N.testbit (N.div2 n) (N.of_nat (k - S level)) = true).
    { destruct (N.odd n); set_solver. }
    rewrite <- N.testbit_succ_r_div2, <- Nat2N.inj_succ by lia.
    split; intros [Hk Hb]; (split; [lia|]); rewrite <- Hb; do 2 f_equal; lia.
Qed.

Lemma set_bits_lt n w : Forall (fun k => k < w) (set_bits n) <-> (n < 2 ^ N.of_nat w)%N.
Proof.
  split.
  - intros Hall. destruct (decide (n = 0%N)) as [->|Hn].
    { pose proof (N.pow_nonzero 2 (N.of_nat w) ltac:(lia)). lia. }
    apply N.log2_lt_pow2; [lia|]. rewrite Forall_forall in Hall.
    specialize (Hall (N.to_nat (N.log2 n))). rewrite elem_of_set_bits, Nat.sub_0_r, N2Nat.id in Hall.
    pose proof (N.bit_log2 n Hn). specialize (Hall ltac:(split; [lia|done])). lia.
  - intros Hn. apply Forall_forall. intros k [_ Hk]%elem_of_set_bits. rewrite Nat.sub_0_r in Hk.
    destruct (decide (k < w)) as [|Hge]; [done|]. exfalso.
    rewrite <- (N.mod_small n (2 ^ N.of_nat w)), N.mod_pow2_bits_high in Hk by (done || lia). done.
Qed.

Lemma loop_bits_ext {A} fuel bits (f g : nat -> A -> outcome A) acc :
  (forall k a, k ∈ set_bits bits -> f k a = g k a) ->
  loop_bits fuel bits f acc = loop_bits fuel bits g acc.
Proof.
  revert bits acc. induction fuel as [|fuel IH]; intros bits acc Hfg; [done|].
  destruct bits as [|p]; [done|]. simpl. rewrite set_bits_lowest in Hfg. simpl in Hfg.
  case_decide; [done|]. rewrite Hfg by (by left).
  destruct (g _ acc); [|done]. apply IH. intros. apply Hfg. by right.
Qed.

Lemma pos_trailing_zeros_decomp p :
  exists q, Npos p = (2 ^ N.of_nat (pos_trailing_zeros p) * (2 * q + 1))%N.
Proof.
  induction p as [p IH|p [q IH]|]; simpl pos_trailing_zeros.
  - exists (Npos p). simpl. lia.
  - exists q. rewrite Nat2N.inj_succ, N.pow_succ_r', <- N.mul_assoc, <- IH. done.
  - by exists 0%N.
Qed.

(** A divisor [2 ^ k] shows in the trailing zeros. *)
Lemma trailing_zeros_divide w n k :
  n <> 0%N -> (exists q, n = 2 ^ N.of_nat k * q)%N <-> k <= trailing_zeros w n.
Proof.
  intros Hn. destruct n as [|p]; [done|]. simpl. destruct (pos_trailing_zeros_decomp p) as [r Hr].
  set (t := pos_trailing_zeros p) in *. split.
  - intros [q Hq]. destruct (decide (k <= t)) as [|Hgt]; [done|]. exfalso.
    rewrite Hr in Hq. replace k with (t + S (k - S t)) in Hq by lia.
    rewrite Nat2N.inj_add, N.pow_add_r, <- N.mul_assoc, Nat2N.inj_succ, N.pow_succ_r' in Hq.
    apply N.mul_cancel_l in Hq; [|apply N.pow_nonzero; lia]. lia.
  - intros Hk. exists (2 ^ N.of_nat (t - k) * (2 * r + 1))%N. rewrite Hr, N.mul_assoc, <- N.pow_add_r.
    do 2 f_equal. lia.
Qed.

(** Adding the lowest set bit clears it. *)
Lemma trailing_zeros_add_lowest w n :
  n <> 0%N -> S (trailing_zeros w n) <= trailing_zeros w (n + 2 ^ N.of_nat (trailing_zeros w n)).
Proof.
  intros Hn. destruct n as [|p]; [done|]. apply trailing_zeros_divide.
  - pose proof (N.pow_nonzero 2 (N.of_nat (trailing_zeros w (Npos p)))). lia.
  - simpl trailing_zeros. destruct (pos_trailing_zeros_decomp p) as [r Hr]. exists (r + 1)%N.
    rewrite Hr at 1. rewrite Nat2N.inj_succ, N.pow_succ_r'. lia.
Qed.

Lemma next_power_of_two_ge n : (n <= next_power_of_two n)%N.
Proof.
  unfold next_power_of_two. destruct (N.le_gt_cases n 1) as [Hn|Hn].
  - pose proof (N.pow_nonzero 2 (N.log2_up n) ltac:(lia)). lia.
  - pose proof (N.log2_up_spec n Hn). lia.
Qed.

Lemma ilog2_next_power_of_two n :
  next_power_of_two n = (2 ^ N.of_nat (ilog2 (next_power_of_two n)))%N.
Proof.
  unfold ilog2, next_power_of_two. rewrite N2Nat.id, N.log2_pow2 by lia. done.
Qed.

Lemma of_nat_pow2 k : N.of_nat (2 ^ k) = (2 ^ N.of_nat k)%N.
Proof. by rewrite Nat2N.inj_pow. Qed.

(** A list within a bound of [max_n] elements fits [2 ^ ilog2 (np2 max_n)]. *)
Lemma le_pow2_ilog2 (n : nat) max_n :
  (N.of_nat n <= max_n)%N -> n <= 2 ^ ilog2 (next_power_of_two max_n).
Proof.
  intros Hn. pose proof (next_power_of_two_ge max_n) as Hg.
  rewrite ilog2_next_power_of_two, <- of_nat_pow2 in Hg. lia.
Qed.

Arguments loop_bits : simpl never.
Arguments while_bits : simpl never.
