(* ===== verification/Slices.v ===== *)
(** * Bytes and slices

    What the crates use of Rust's bytes, byte order conversions and slices: bytes are
    [Byte.byte], a [u32] or [u64] is read from and written to bytes in little-endian
    order, and slices are lists.  Splitting or copying out of range is [Fault]. *)

From S2P Require Import Prelude.
From stdpp Require Import prelude.
From Stdlib Require Import NArith Lia.
From Stdlib Require Import Strings.Byte.

#[export] Instance byte_eq_decision : EqDecision byte := Byte.byte_eq_dec.
#[export] Instance byte_inhabited : Inhabited byte := populate x00.

(** ** Bytes as integers *)

(** [n as u8] *)
Definition byte_of (n : N) : byte := default x00 (Byte.of_N (n mod 256)).

Lemma to_N_lt b : (Byte.to_N b < 256)%N.
Proof. by destruct b. Qed.

Lemma byte_of_to_N b : byte_of (Byte.to_N b) = b.
Proof. by destruct b. Qed.

Lemma to_N_byte_of n : Byte.to_N (byte_of n) = (n mod 256)%N.
Proof.
  unfold byte_of. pose proof (N.mod_lt n 256 ltac:(lia)) as Hlt.
  destruct (Byte.of_N (n mod 256)) as [b|] eqn:E; [by apply Byte.to_of_N|].
  apply Byte.of_N_None_iff in E. lia.
Qed.

Lemma to_N_inj a b : Byte.to_N a = Byte.to_N b -> a = b.
Proof. intros E. by rewrite <- (byte_of_to_N a), E, byte_of_to_N. Qed.

(** [uN::from_le_bytes] and [uN::to_le_bytes] *)
Fixpoint le_value (l : list byte) : N :=
  match l with
  | [] => 0
  | b :: l => Byte.to_N b + 256 * le_value l
  end.

Fixpoint le_split (k : nat) (n : N) : list byte :=
  match k with
  | O => []
  | S k => byte_of n :: le_split k (n / 256)
  end.

Lemma length_le_split k n : length (le_split k n) = k.
Proof. revert n. induction k; intros; simpl; auto. Qed.

Lemma pow256_succ k : (256 ^ N.of_nat (S k) = 256 * 256 ^ N.of_nat k)%N.
Proof. by rewrite Nat2N.inj_succ, N.pow_succ_r'. Qed.

Lemma le_value_lt l : (le_value l < 256 ^ N.of_nat (length l))%N.
Proof.
  induction l as [|b l IH]; [done|]. simpl length. rewrite pow256_succ. simpl le_value.
  pose proof (to_N_lt b). nia.
Qed.

Lemma le_value_split k n : le_value (le_split k n) = (n mod 256 ^ N.of_nat k)%N.
Proof.
  revert n. induction k as [|k IH]; intros n; [by rewrite N.mod_1_r|].
  simpl le_split. simpl le_value. rewrite IH, to_N_byte_of, pow256_succ.
  rewrite N.Div0.mod_mul_r. done.
Qed.

Lemma le_split_value l : le_split (length l) (le_value l) = l.
Proof.
  induction l as [|b l IH]; [done|]. simpl. pose proof (to_N_lt b). f_equal.
  - rewrite <- (byte_of_to_N b) at 2. apply to_N_inj. rewrite !to_N_byte_of.
    rewrite N.mul_comm, N.Div0.mod_add. done.
  - rewrite N.mul_comm, N.div_add, N.div_small by lia. done.
Qed.

Lemma le_split_inj w n n' l l' :
  (n < 256 ^ N.of_nat w)%N -> (n' < 256 ^ N.of_nat w)%N -> le_split w n ++ l = le_split w n' ++ l' -> n = n' /\ l = l'.
Proof.
  intros Hn Hn' E. apply app_inj_1 in E as [E ->]; [|by rewrite !length_le_split].
  apply (f_equal le_value) in E. rewrite !le_value_split, !N.mod_small in E by done. done.
Qed.

(** ** Slices *)

(** [dst[off..off + src.len()].copy_from_slice(src)] *)
Definition copy_at {A} (dst : list A) (off : nat) (src : list A) : outcome (list A) :=
  if decide (off + length src <= length dst) then
    Ret (take off dst ++ src ++ drop (off + length src) dst)
  else Fault.

(** [slice.split_at(mid)] *)
Definition split_at {A} (l : list A) (mid : nat) : outcome (list A * list A) :=
  if decide (mid <= length l) then Ret (take mid l, drop mid l) else Fault.

Lemma copy_at_start {A} (dst src : list A) :
  length src <= length dst -> copy_at dst 0 src = Ret (src ++ drop (length src) dst).
Proof. intros. unfold copy_at. by rewrite decide_True. Qed.

Lemma copy_at_app {A} (pre mid src : list A) off :
  off = length pre -> length src <= length mid ->
  copy_at (pre ++ mid) off src = Ret (pre ++ src ++ drop (length src) mid).
Proof.
  intros -> Hs. unfold copy_at. rewrite length_app, decide_True by lia.
  rewrite take_app_length, drop_app_ge, Nat.add_sub' by lia. done.
Qed.

Lemma split_at_ok {A} (l : list A) mid :
  mid <= length l -> split_at l mid = Ret (take mid l, drop mid l).
Proof. intros. unfold split_at. by rewrite decide_True. Qed.

Lemma split_at_app {A} (a b : list A) mid :
  mid = length a -> split_at (a ++ b) mid = Ret (a, b).
Proof.
  intros ->. rewrite split_at_ok by (rewrite length_app; lia).
  by rewrite take_app_length, drop_app_length.
Qed.

(** [as_chunks::<K>().0]: the complete chunks of a slice. *)
Fixpoint chunks_at {A} (fuel k : nat) (l : list A) : list (list A) :=
  match fuel with
  | O => []
  | S fuel =>
      if decide (length l < k) then [] else take k l :: chunks_at fuel k (drop k l)
  end.

Definition as_chunks {A} (k : nat) (l : list A) : list (list A) := chunks_at (length l) k l.

(** Evaluate a faulting function on every element, in order. *)
Fixpoint omapM {A B} (f : A -> outcome B) (l : list A) : outcome (list B) :=
  match l with
  | [] => Ret []
  | x :: l => let! y := f x in let! ys := omapM f l in Ret (y :: ys)
  end.

Lemma omapM_Ret {A B} (f : A -> outcome B) (g : A -> B) l :
  Forall (fun x => f x = Ret (g x)) l -> omapM f l = Ret (g <$> l).
Proof. induction 1 as [|x l Hx _ IH]; [done|]. simpl. by rewrite Hx, IH. Qed.

Lemma as_chunks_spec {A} k m (l : list A) :
  0 < k -> length l = k * m ->
  concat (as_chunks k l) = l /\ length (as_chunks k l) = m /\
  Forall (fun c => length c = k) (as_chunks k l).
Proof.
  intros Hk Hl. unfold as_chunks.
  enough (Hall : forall fuel, m <= fuel ->
    concat (chunks_at fuel k l) = l /\ length (chunks_at fuel k l) = m /\
    Forall (fun c => length c = k) (chunks_at fuel k l)) by (apply Hall; nia).
  revert l Hl. induction m as [|m IH]; intros l Hl fuel Hf.
  - destruct l; [|simpl in Hl; lia]. destruct fuel; simpl; [done|].
    by rewrite decide_True by done.
  - destruct fuel as [|fuel]; [lia|]. simpl. rewrite decide_False by nia.
    destruct (IH (drop k l) ltac:(rewrite length_drop; nia) fuel ltac:(lia)) as (Hc & Hn & Hlen).
    simpl. rewrite Hc, take_drop, Hn. split_and!; [done..|].
    constructor; [rewrite length_take; nia|done].
Qed.

Lemma chunks_at_split {A} fuel k (l : list A) :
  0 < k -> length l <= k * fuel ->
  exists r, l = concat (chunks_at fuel k l) ++ r /\ length r < k /\
    Forall (fun c => length c = k) (chunks_at fuel k l).
Proof.
  intros Hk. revert l. induction fuel as [|fuel IH]; intros l Hl; cbn [chunks_at].
  - exists l. split; [done|]. split; [lia|constructor].
  - destruct (decide (length l < k)) as [Hlk|Hlk].
    + exists l. split; [done|]. split; [done|constructor].
    + destruct (IH (drop k l)) as (r & Hr & Hrk & HF); [rewrite length_drop; nia|].
      exists r. cbn [concat]. rewrite <- app_assoc, <- Hr, take_drop. split; [done|].
      split; [done|]. constructor; [rewrite length_take; lia|done].
Qed.

(** The chunks of a slice and its remainder. *)
Lemma as_chunks_split {A} k (l : list A) :
  0 < k ->
  exists r, l = concat (as_chunks k l) ++ r /\ length r < k /\
    drop (k * length (as_chunks k l)) l = r /\
    Forall (fun c => length c = k) (as_chunks k l).
Proof.
  intros Hk. destruct (chunks_at_split (length l) k l Hk) as (r & Hr & Hrk & HF); [nia|].
  fold (as_chunks k l) in *. exists r. split_and!; [done..| |done].
  assert (E : length (concat (as_chunks k l)) = k * length (as_chunks k l)).
  { clear Hr. induction HF as [|c cs Hc _ IH]; cbn [concat length]; [lia|].
    rewrite length_app, IH, Hc. lia. }
  pose proof (drop_app_length (concat (as_chunks k l)) r) as D. rewrite <- Hr in D. by rewrite <- E.
Qed.
