(* ===== verification/MerkleSpec.v ===== *)
(** * Reference Merkle trees and the binary counter

    The reference definitions against which the four tree implementations of
    [ab-merkle-tree] are checked: the root and the inclusion proof of a list of
    leaves, level by level, and the invariant of the stack of peaks ("binary
    counter") on which the streaming implementations are built.  Everything is
    generic in the node combiner, so that the batched balanced tree can use it
    with vectors of hashes. *)

From S2P Require Import Prelude.
From stdpp Require Import prelude.
From Stdlib Require Import NArith Lia.

(** What the trees use of BLAKE3: [hash_pair] of the crate root, the all-zero
    hash that marks empty nodes, and byte-array equality. *)
Class NodeHasher (H : Type) : Type := {
  hash_pair : H -> H -> H;
  zero_hash : H;
  node_eq_dec :: EqDecision H
}.

(** Symbolic nodes: the free hasher, used to evaluate the models on concrete
    inputs.  Leaf 0 plays the all-zero hash. *)
Inductive sym : Type :=
| SymLeaf (n : nat)
| SymNode (a b : sym).

#[export] Instance sym_eq_dec : EqDecision sym.
Proof. solve_decision. Defined.

#[export] Instance sym_hasher : NodeHasher sym :=
  { hash_pair := SymNode; zero_hash := SymLeaf 0 }.

Section Levels.
Context {A : Type} (op : A -> A -> A).
Implicit Types l r : list A.
Implicit Types x s a b : A.

(** Parents of the complete pairs of a level. *)
Fixpoint pairs (l : list A) : list A :=
  match l with
  | a :: b :: r => op a b :: pairs r
  | _ => []
  end.

(** The next level of an unbalanced tree: an unpaired last node moves up as it
    is. *)
Fixpoint next_level (l : list A) : list A :=
  match l with
  | a :: b :: r => op a b :: next_level r
  | _ => l
  end.

Fixpoint root_at (fuel : nat) (l : list A) : option A :=
  match l with
  | [] => None
  | [x] => Some x
  | _ => match fuel with O => None | S fuel => root_at fuel (next_level l) end
  end.

Definition merkle_root (l : list A) : option A := root_at (length l) l.

Definition sibling (l : list A) (i : nat) : option A :=
  if Nat.even i then l !! S i else l !! pred i.

Fixpoint path_at (fuel : nat) (l : list A) (i : nat) : list A :=
  match fuel with
  | O => []
  | S fuel =>
      if decide (length l <= 1) then []
      else option_list (sibling l i) ++ path_at fuel (next_level l) (Nat.div2 i)
  end.

(** The siblings of leaf [i] on its way to the root, bottom up. *)
Definition merkle_path (l : list A) (i : nat) : list A := path_at (length l) l i.

Lemma list_pair_ind (P : list A -> Prop) :
  P [] -> (forall x, P [x]) -> (forall a b r, P r -> P (a :: b :: r)) ->
  forall l, P l.
Proof.
  intros H0 H1 H2. enough (forall l, P l /\ forall a, P (a :: l)) as Hall by (intros l; apply Hall).
  induction l as [|b l [IH1 IH2]]; split; auto.
Qed.

Lemma length_pairs l : length (pairs l) = Nat.div2 (length l).
Proof. induction l as [| |a b r IH] using list_pair_ind; simpl; auto. Qed.

Lemma length_next_level l : length (next_level l) = Nat.div2 (S (length l)).
Proof. induction l as [| |a b r IH] using list_pair_ind; simpl in *; auto. Qed.

Lemma pairs_app_even (l1 l2 : list A) :
  Nat.even (length l1) = true -> pairs (l1 ++ l2) = pairs l1 ++ pairs l2.
Proof.
  induction l1 as [| |a b r IH] using list_pair_ind; simpl; intros; try done.
  by rewrite IH.
Qed.

Lemma next_level_app_even (l1 l2 : list A) :
  Nat.even (length l1) = true -> next_level (l1 ++ l2) = pairs l1 ++ next_level l2.
Proof.
  induction l1 as [| |a b r IH] using list_pair_ind; simpl; intros; try done.
  by rewrite IH.
Qed.

Lemma odd_snoc l s :
  Nat.odd (length l) = true -> last l = Some s ->
  exists l0, l = l0 ++ [s] /\ Nat.even (length l0) = true.
Proof.
  intros Hodd Hl. apply last_Some in Hl as [l0 ->]. exists l0. split; [done|].
  rewrite length_app in Hodd. simpl in Hodd.
  rewrite Nat.add_1_r, Nat.odd_succ in Hodd. done.
Qed.

Lemma pairs_snoc_odd l s x :
  Nat.odd (length l) = true -> last l = Some s ->
  pairs (l ++ [x]) = pairs l ++ [op s x].
Proof.
  intros Hodd Hl. destruct (odd_snoc l s Hodd Hl) as (l0 & -> & He).
  rewrite <- app_assoc. rewrite (pairs_app_even l0), (pairs_app_even l0) by done. simpl. by rewrite ?app_nil_r, <- ?app_assoc.
Qed.

Lemma pairs_snoc_even l x :
  Nat.even (length l) = true -> pairs (l ++ [x]) = pairs l.
Proof. intros He. rewrite pairs_app_even by done. simpl. by rewrite ?app_nil_r, <- ?app_assoc. Qed.

Lemma next_level_snoc_odd l s x :
  Nat.odd (length l) = true -> last l = Some s ->
  next_level (l ++ [x]) = pairs l ++ [op s x].
Proof.
  intros Hodd Hl. destruct (odd_snoc l s Hodd Hl) as (l0 & -> & He).
  rewrite <- app_assoc. rewrite next_level_app_even, pairs_app_even by done.
  simpl. by rewrite ?app_nil_r, <- ?app_assoc.
Qed.

Lemma next_level_odd l s :
  Nat.odd (length l) = true -> last l = Some s -> next_level l = pairs l ++ [s].
Proof.
  intros Hodd Hl. destruct (odd_snoc l s Hodd Hl) as (l0 & -> & He).
  rewrite next_level_app_even, pairs_app_even by done. simpl. by rewrite ?app_nil_r, <- ?app_assoc.
Qed.

Lemma next_level_even l : Nat.even (length l) = true -> next_level l = pairs l.
Proof.
  intros He. rewrite <- (app_nil_r l) at 1. rewrite next_level_app_even by done.
  apply app_nil_r.
Qed.

Lemma length_next_level_lt l : 2 <= length l -> length (next_level l) < length l.
Proof. rewrite length_next_level, Nat.div2_div. intros.
  apply Nat.Div0.div_lt_upper_bound; lia. Qed.

Lemma root_at_fuel f1 f2 l :
  length l <= S f1 -> length l <= S f2 -> root_at f1 l = root_at f2 l.
Proof.
  revert f2 l. induction f1 as [|f1 IH]; intros f2 [|a [|b l]] H1 H2; simpl in H1, H2;
    destruct f2 as [|f2]; simpl; auto; try lia.
  pose proof (length_next_level_lt (a :: b :: l) ltac:(simpl; lia)) as Hl.
  apply IH; simpl in *; lia.
Qed.

Lemma merkle_root_next l : merkle_root l = merkle_root (next_level l).
Proof.
  destruct l as [|a [|b l]]; [done|done|]. unfold merkle_root.
  pose proof (length_next_level_lt (a :: b :: l) ltac:(simpl; lia)) as Hl.
  transitivity (root_at (S (length l)) (next_level (a :: b :: l))); [done|].
  apply root_at_fuel; simpl in *; lia.
Qed.

Lemma merkle_root_None l : merkle_root l = None -> l = [].
Proof.
  enough (Hf : forall f l, length l <= S f -> root_at f l = None -> l = []) by
    (intros Hr; by apply (Hf (length l)); [lia|]).
  clear l. induction f as [|f IH]; intros [|a [|b l]] Hl Hr; simpl in Hl; try done; [lia|].
  pose proof (length_next_level_lt (a :: b :: l) ltac:(simpl; lia)) as Hlt.
  change (root_at f (next_level (a :: b :: l)) = None) in Hr.
  apply IH in Hr; [done|simpl in *; lia].
Qed.

Lemma path_at_fuel f1 f2 l i :
  length l <= S f1 -> length l <= S f2 -> path_at f1 l i = path_at f2 l i.
Proof.
  revert f2 l i. induction f1 as [|f1 IH]; intros f2 l i H1 H2.
  - destruct f2; simpl; [done|]. by rewrite decide_True by lia.
  - destruct f2; simpl; [by rewrite decide_True by lia|].
    case_decide; [done|]. f_equal.
    pose proof (length_next_level_lt l). apply IH; lia.
Qed.

Lemma merkle_path_short l i : length l <= 1 -> merkle_path l i = [].
Proof. intros. unfold merkle_path. destruct (length l) eqn:E; [done|].
  simpl. rewrite decide_True by lia. done. Qed.

Lemma merkle_path_next l i :
  i < length l ->
  merkle_path l i =
    option_list (sibling l i) ++ merkle_path (next_level l) (Nat.div2 i).
Proof.
  intros Hi. destruct (decide (length l <= 1)) as [Hs|Hs].
  - rewrite (merkle_path_short l) by done. rewrite merkle_path_short.
    + destruct l as [|x [|]]; simpl in Hi; try lia; [|simpl in Hs; lia].
      by replace i with 0 by lia.
    + rewrite length_next_level. by destruct (length l) as [|[|]]; simpl; lia.
  - unfold merkle_path at 1. destruct (length l) as [|n] eqn:E; [lia|].
    simpl path_at. rewrite decide_False by lia. f_equal.
    pose proof (length_next_level_lt l). apply path_at_fuel; lia.
Qed.

(** The parent of node [i], by whether it is a left child, a right child or an
    unpaired last node. *)
Lemma next_level_lookup l i x :
  l !! i = Some x ->
  next_level l !! Nat.div2 i =
    Some (match sibling l i with
          | None => x
          | Some b => if Nat.even i then op x b else op b x
          end).
Proof.
  revert i. induction l as [|y|a b r IH] using list_pair_ind; intros i Hi; [done|..].
  - destruct i as [|i]; [by simplify_eq/=|done].
  - destruct i as [|[|i]]; [by simplify_eq/=..|]. simpl in Hi |- *.
    rewrite (IH i Hi). unfold sibling. simpl. destruct (Nat.even i) eqn:He; [done|].
    destruct i; [done|]. done.
Qed.

Lemma sibling_None l i :
  i < length l -> sibling l i = None <-> Nat.even i = true /\ S i = length l.
Proof.
  intros Hi. unfold sibling. destruct (Nat.even i) eqn:He.
  - rewrite lookup_ge_None. split; [intros; split; [done|lia]|intros [_ ?]; lia].
  - split; [|by intros [? _]]. intros Hn%lookup_ge_None. lia.
Qed.
End Levels.

(** ** Hash transcripts

    Soundness of a verifier is stated without assuming that the hash has no
    collisions: either the accepted data is the right one, or one of the pairs
    hashed by the verifier collides with one of the pairs hashed while building the
    tree.  Both lists of pairs are computable. *)

Section Transcripts.
Context {H : Type} {hasher : NodeHasher H}.

Fixpoint pair_inputs (l : list H) : list (H * H) :=
  match l with
  | a :: b :: r => (a, b) :: pair_inputs r
  | _ => []
  end.

Fixpoint tree_inputs_at (op : H -> H -> H) (fuel : nat) (l : list H) : list (H * H) :=
  match fuel with
  | O => []
  | S fuel => pair_inputs l ++ tree_inputs_at op fuel (next_level op l)
  end.

(** Every pair combined in the reference tree over [l]. *)
Definition tree_inputs (op : H -> H -> H) (l : list H) : list (H * H) :=
  tree_inputs_at op (length l) l.

(** The pairs hashed on the way from a claimed leaf at position [i] of a level of
    [n] nodes to the root, taking siblings from [proof]. *)
Fixpoint path_inputs_at (fuel n i : nat) (current : H) (proof : list H) : list (H * H) :=
  match fuel with
  | O => []
  | S fuel =>
      if Nat.even i && (n <=? S i) then
        path_inputs_at fuel (Nat.div2 (S n)) (Nat.div2 i) current proof
      else
        match proof with
        | [] => []
        | h :: proof =>
            let p := if Nat.even i then (current, h) else (h, current) in
            p :: path_inputs_at fuel (Nat.div2 (S n)) (Nat.div2 i) (hash_pair p.1 p.2) proof
        end
  end.

Definition path_inputs (n i : nat) (leaf : H) (proof : list H) : list (H * H) :=
  path_inputs_at n n i leaf proof.

Definition collision_between (ps qs : list (H * H)) : Prop :=
  exists p q, p ∈ ps /\ q ∈ qs /\ p <> q /\ hash_pair p.1 p.2 = hash_pair q.1 q.2.

Lemma collision_between_mono ps qs ps' qs' :
  ps ⊆ ps' -> qs ⊆ qs' -> collision_between ps qs -> collision_between ps' qs'.
Proof. intros Hp Hq (p & q & ? & ? & ?). exists p, q. auto. Qed.

Lemma hash_pair_inj_or (p q : H * H) ps qs :
  p ∈ ps -> q ∈ qs -> hash_pair p.1 p.2 = hash_pair q.1 q.2 ->
  p = q \/ collision_between ps qs.
Proof.
  intros Hp Hq He. destruct (decide (p = q)) as [->|Hne]; [by left|].
  right. by exists p, q.
Qed.

Lemma sibling_pair_input l i x b :
  l !! i = Some x -> sibling l i = Some b ->
  (if Nat.even i then (x, b) else (b, x)) ∈ pair_inputs l.
Proof.
  revert i. induction l as [|y|a c r IH] using list_pair_ind; intros i Hi Hs; [done|..].
  - destruct i as [|i]; [|done]. done.
  - unfold sibling in Hs. destruct i as [|[|i]]; simpl in Hs; [simplify_eq/=; by left..|].
    right. apply (IH i); [done|].
    unfold sibling in *. simpl in Hs. destruct (Nat.even i) eqn:He; [done|].
    by destruct i.
Qed.

Lemma tree_inputs_at_mono op f1 f2 l :
  f1 <= f2 -> tree_inputs_at op f1 l ⊆ tree_inputs_at op f2 l.
Proof.
  revert f2 l. induction f1 as [|f1 IH]; intros f2 l Hf; [set_solver|].
  destruct f2 as [|f2]; [lia|]. simpl.
  pose proof (IH f2 (next_level op l) ltac:(lia)). set_solver.
Qed.

Lemma tree_inputs_next op l :
  2 <= length l ->
  pair_inputs l ⊆ tree_inputs op l /\ tree_inputs op (next_level op l) ⊆ tree_inputs op l.
Proof.
  intros Hl. unfold tree_inputs at 1 3. destruct (length l) as [|n] eqn:E; [lia|]. simpl.
  pose proof (length_next_level_lt op l ltac:(lia)).
  pose proof (tree_inputs_at_mono op _ n (next_level op l)
                (ltac:(lia) : length (next_level op l) <= n)).
  unfold tree_inputs. set_solver.
Qed.

Lemma path_inputs_at_mono f1 f2 n i x proof :
  f1 <= f2 -> path_inputs_at f1 n i x proof ⊆ path_inputs_at f2 n i x proof.
Proof.
  revert f2 n i x proof. induction f1 as [|f1 IH]; intros f2 n i x proof Hf; [set_solver|].
  destruct f2 as [|f2]; [lia|]. simpl.
  destruct (Nat.even i && (n <=? S i)); [apply IH; lia|].
  destruct proof as [|h proof]; [done|].
  match goal with |- _ :: path_inputs_at _ ?n' ?i' ?x' ?p' ⊆ _ =>
    pose proof (IH f2 n' i' x' p' ltac:(lia)) end. set_solver.
Qed.
End Transcripts.
