(* ===== verification/BinaryCounter.v ===== *)
(** * The stack of peaks

    All streaming trees keep one node per level and treat the number of leaves as
    a binary counter: a set bit [k] of the count marks level [k] as active.
    [push_leaf] and [bag_peaks] are the two loops they share; [counter_repr]
    says which stacks represent which lists of leaves. *)

From S2P Require Import Prelude MerkleSpec.
From stdpp Require Import prelude.
From Stdlib Require Import NArith Lia.

Section Counter.
Context {A : Type} (op : A -> A -> A).
Implicit Types l st full : list A.
Implicit Types x s c : A.

(** [current = hash_pair(item, &current)] over the lowest active levels. *)
Definition carry (items : list A) (x : A) : A :=
  foldl (fun current item => op item current) x items.

(** Merge a new leaf into the active levels and store it at the first inactive
    one. *)
Definition push_leaf (st : list A) (num_leaves : N) (x : A) : outcome (list A) :=
  let lowest_active_levels := trailing_ones num_leaves in
  arr_set st lowest_active_levels (carry (take lowest_active_levels st) x).

(** One iteration of the loop that hashes the remaining peaks together, the
    accumulator being the root so far. *)
Definition bag_step (st : list A) (level : nat) (root : A) : outcome A :=
  let! item := arr_get st level in Ret (op item root).

(** Collect the peaks of the stack into the root, from the lowest active level
    up. *)
Definition bag_peaks (st : list A) (num_leaves : N) : outcome A :=
  let lowest := trailing_zeros 64 num_leaves in
  let! root := arr_get st lowest in
  loop_bits 65 (clear_bit num_leaves lowest) (bag_step st) root.

(** A stack represents a list of leaves when at every level the odd node out is
    in the stack. *)
Fixpoint counter_repr (l st : list A) : Prop :=
  match st with
  | [] => l = []
  | s :: st =>
      (Nat.odd (length l) = true -> last l = Some s) /\ counter_repr (pairs op l) st
  end.

Lemma odd_of_nat n : N.odd (N.of_nat n) = Nat.odd n.
Proof.
  destruct (Nat.Even_or_Odd n) as [He|Ho].
  - rewrite <- Nat.negb_even, (proj2 (Nat.even_spec n) He), <- N.negb_even.
    destruct He as [k ->]. by rewrite (proj2 (N.even_spec _)); [|exists (N.of_nat k); lia].
  - rewrite (proj2 (Nat.odd_spec n) Ho). destruct Ho as [k ->].
    apply N.odd_spec. exists (N.of_nat k). lia.
Qed.

Lemma div2_of_nat n : N.div2 (N.of_nat n) = N.of_nat (Nat.div2 n).
Proof. by rewrite Nat2N.inj_div2. Qed.

Lemma div2_odd_lt n m :
  Nat.odd n = true -> S n < 2 ^ S m -> S (Nat.div2 n) < 2 ^ m.
Proof.
  intros Ho Hn. apply Nat.odd_spec in Ho as [k ->].
  replace (2 * k + 1) with (S (2 * k)) in * by lia.
  rewrite Nat.div2_succ_double. simpl in Hn. lia.
Qed.

Lemma div2_S_odd n : Nat.odd n = true -> Nat.div2 (S n) = S (Nat.div2 n).
Proof.
  intros [k ->]%Nat.odd_spec. replace (2 * k + 1) with (S (2 * k)) by lia.
  rewrite Nat.div2_succ_double.
  change (Nat.div2 (S (S (2 * k)))) with (S (Nat.div2 (2 * k))).
  by rewrite Nat.div2_double.
Qed.

Lemma div2_S_even n : Nat.even n = true -> Nat.div2 (S n) = Nat.div2 n.
Proof.
  intros [k ->]%Nat.even_spec. by rewrite Nat.div2_succ_double, Nat.div2_double.
Qed.

Lemma even_of_not_odd n : Nat.odd n = false -> Nat.even n = true.
Proof. rewrite <- Nat.negb_even. by destruct (Nat.even n). Qed.

(** Adding a leaf keeps the stack representing the leaves, and never leaves the
    array. *)
Lemma push_leaf_repr l st x :
  counter_repr l st -> S (length l) < 2 ^ length st ->
  exists st', push_leaf st (N.of_nat (length l)) x = Ret st' /\
    counter_repr (l ++ [x]) st' /\ length st' = length st.
Proof.
  unfold push_leaf. revert l x. induction st as [|s st IH]; intros l x Hr Hlen.
  { simpl in Hlen. lia. }
  destruct Hr as [Hs Hr]. rewrite trailing_ones_step, odd_of_nat, div2_of_nat.
  destruct (Nat.odd (length l)) eqn:Ho.
  - specialize (Hs eq_refl).
    destruct (IH (pairs op l) (op s x) Hr) as (st' & Hp & Hr' & Hlen').
    { rewrite length_pairs. by apply div2_odd_lt. }
    rewrite length_pairs in Hp. revert Hp. unfold arr_set.
    simpl. case_decide as H1; [|done]. intros [= <-]. rewrite decide_True by lia.
    eexists. split; [done|]. split; [|simpl in *; lia]. split.
    + rewrite length_app, Nat.add_1_r, Nat.odd_succ, <- Nat.negb_odd, Ho. done.
    + by rewrite (pairs_snoc_odd op l s).
  - eexists. split; [by rewrite arr_set_lt by (simpl; lia)|]. split; [|done]. split.
    + intros _. by rewrite last_snoc.
    + simpl. rewrite pairs_snoc_even; [done|]. by apply even_of_not_odd.
Qed.

Lemma counter_repr_replicate z n : counter_repr [] (replicate n z).
Proof. by induction n as [|n IH]; simpl. Qed.

(** The bagging loop with an optional accumulator, over an arbitrary suffix of
    levels. *)
Definition bag_opt (full : list A) (level : nat) (acc : option A) : outcome (option A) :=
  let! item := arr_get full level in
  Ret (Some (match acc with None => item | Some c => op item c end)).

Lemma bag_opt_spec full l st lvl acc :
  drop lvl full = st -> counter_repr l st ->
  ofold (bag_opt full) (set_bits_from lvl (N.of_nat (length l))) acc =
    Ret (merkle_root op (l ++ option_list acc)).
Proof.
  revert l lvl acc. induction st as [|s st IH]; intros l lvl acc Hd Hr.
  { simpl in Hr. subst l. by destruct acc. }
  destruct Hr as [Hs Hr]. rewrite set_bits_step, odd_of_nat, div2_of_nat.
  assert (Hd' : drop (S lvl) full = st).
  { by rewrite <- Nat.add_1_r, <- drop_drop, Hd. }
  assert (Hget : arr_get full lvl = Ret s).
  { apply arr_get_Some. rewrite <- (Nat.add_0_r lvl), <- lookup_drop, Hd. done. }
  rewrite merkle_root_next. specialize (IH (pairs op l) (S lvl)).
  rewrite length_pairs in IH. destruct (Nat.odd (length l)) eqn:Ho.
  - specialize (Hs eq_refl). simpl. unfold bag_opt at 1. rewrite Hget. simpl.
    rewrite IH by done. do 2 f_equal. destruct acc as [c|]; simpl.
    + by rewrite (next_level_snoc_odd op l s).
    + rewrite app_nil_r. by rewrite (next_level_odd op l s).
  - simpl. rewrite IH by done. do 2 f_equal.
    rewrite next_level_app_even by (by apply even_of_not_odd). by destruct acc.
Qed.

Lemma bag_opt_Some full levels c :
  ofold (bag_opt full) levels (Some c) =
    let! r := ofold (bag_step full) levels c in Ret (Some r).
Proof.
  revert c. induction levels as [|level levels IH]; intros c; [done|].
  simpl. unfold bag_opt at 1, bag_step at 1. destruct (arr_get full level); [|done].
  simpl. apply IH.
Qed.

(** The peaks of a stack that represents [l] hash to the reference root. *)
Lemma bag_peaks_spec l st :
  counter_repr l st -> l <> [] -> (N.of_nat (length l) < 2 ^ 64)%N ->
  exists r, bag_peaks st (N.of_nat (length l)) = Ret r /\ merkle_root op l = Some r.
Proof.
  intros Hr Hne Hlt. unfold bag_peaks.
  destruct (N.of_nat (length l)) as [|p] eqn:Hp; [by destruct l|]. simpl.
  pose proof (bag_opt_spec st l st 0 None eq_refl Hr) as Hb.
  rewrite Hp, set_bits_lowest, app_nil_r in Hb. simpl in Hb. unfold bag_opt at 1 in Hb.
  destruct (arr_get st (pos_trailing_zeros p)) as [root|]; [|done]. simpl in *.
  rewrite bag_opt_Some in Hb.
  rewrite loop_bits_fold.
  - destruct (ofold (bag_step st) _ root) as [r|]; [|done]. exists r. by simplify_eq/=.
  - pose proof (clear_bit_le (Npos p) (pos_trailing_zeros p)). lia.
  - pose proof (count_ones_clear p). pose proof (count_ones_le (Npos p) 64 Hlt). lia.
Qed.

(** With a power of two leaves the root is the only peak. *)
Lemma counter_repr_top j l st :
  counter_repr l st -> length l = 2 ^ j -> j < length st -> st !! j = merkle_root op l.
Proof.
  revert l st. induction j as [|j IH]; intros l [|s st] Hr Hl Hj; simpl in Hj; try lia.
  - destruct Hr as [Hs _]. destruct l as [|x [|]]; simpl in Hl; try lia. simpl. symmetry. by apply Hs.
  - destruct Hr as [_ Hr]. rewrite merkle_root_next, next_level_even.
    + apply (IH _ _ Hr); [|lia]. by rewrite length_pairs, Hl, Nat.pow_succ_r', Nat.div2_double.
    + rewrite Hl, Nat.pow_succ_r'. apply Nat.even_spec. by exists (2 ^ j).
Qed.
End Counter.
