(* ===== verification/ProofWalk.v ===== *)
(** * Collecting an inclusion proof while streaming leaves

    The loops of [compute_root_and_proof_inner] (unbalanced tree) and
    [add_leaf_and_compute_proof_inner] (Merkle Mountain Range) that record the
    siblings of a target leaf, and the lemmas that relate what they record to
    the reference [merkle_path]. *)

From S2P Require Import Prelude MerkleSpec BinaryCounter.
From stdpp Require Import prelude.
From Stdlib Require Import NArith Lia.

Section Walk.
Context {A : Type} (op : A -> A -> A).
Implicit Types l st full proof : list A.
Implicit Types x s c : A.

(** [proof.get_unchecked_mut(proof_length).write(x); proof_length += 1] on an
    array of [cap] uninitialised elements of which the first [proof_length] have
    been written. *)
Definition proof_write (cap : nat) (proof : list A) (x : A) : outcome (list A) :=
  if decide (length proof < cap) then Ret (proof ++ [x]) else Fault.

(** The loop over the active levels at the target leaf. *)
Fixpoint target_merge (cap : nat) (items : list A) (current : A) (proof : list A)
    (position : N) : outcome (A * list A * N) :=
  match items with
  | [] => Ret (current, proof, position)
  | item :: items =>
      let! proof := proof_write cap proof item in
      target_merge cap items (op item current) proof (N.div2 position)
  end.

(** The loop over the active levels at any other leaf; [level] is the index of
    the first of [items]. *)
Fixpoint other_merge (cap : nat) (level : nat) (items : list A) (current : A)
    (proof : list A) (target_level : option nat) (position : N)
    : outcome (A * list A * option nat * N) :=
  match items with
  | [] => Ret (current, proof, target_level, position)
  | item :: items =>
      let! (proof, target_level, position) :=
        if decide (target_level = Some level) then
          let! proof :=
            proof_write cap proof (if N.even position then current else item) in
          Ret (proof, Some (S level), N.div2 position)
        else Ret (proof, target_level, position) in
      other_merge cap (S level) items (op item current) proof target_level position
  end.

(** State of the loop that merges the peaks. *)
Record peak_walk : Type := {
  pw_root : A;
  pw_proof : list A;
  pw_merged : bool;
  pw_position : N
}.

(** What one iteration appends to the proof and the new [merged_peaks]. *)
Definition collect_peak (cap target_level level : nat) (item : A) (w : peak_walk)
    : outcome (list A * bool) :=
  if decide (target_level < level \/
             (level = target_level /\ N.odd (pw_position w) = true /\
              pw_merged w = false)) then
    let! proof := proof_write cap (pw_proof w) item in Ret (proof, false)
  else if decide (level = target_level) then
    let! proof := proof_write cap (pw_proof w) (pw_root w) in Ret (proof, false)
  else Ret (pw_proof w, true).

Definition walk_step (cap target_level : nat) (st : list A) (level : nat)
    (w : peak_walk) : outcome peak_walk :=
  let! item := arr_get st level in
  let! (proof, merged) := collect_peak cap target_level level item w in
  Ret {| pw_root := op item (pw_root w); pw_proof := proof; pw_merged := merged;
         pw_position := N.div2 (pw_position w) |}.

(** ** What has been recorded so far

    [climb] is the part of the path of leaf [t] that lies inside the peak that
    contains it, [climb_pos] the index of that peak in its level. *)
Fixpoint climb (st : list A) (l : list A) (t : nat) : list A :=
  match st with
  | [] => []
  | _ :: st =>
      if decide (Nat.div2 t < length (pairs op l)) then
        option_list (sibling l t) ++ climb st (pairs op l) (Nat.div2 t)
      else []
  end.

Fixpoint climb_pos (st : list A) (l : list A) (t : nat) : nat :=
  match st with
  | [] => t
  | _ :: st =>
      if decide (Nat.div2 t < length (pairs op l)) then
        climb_pos st (pairs op l) (Nat.div2 t)
      else t
  end.

Lemma proof_write_lt cap proof x :
  length proof < cap -> proof_write cap proof x = Ret (proof ++ [x]).
Proof. intros. unfold proof_write. by rewrite decide_True. Qed.

Lemma div2_cases t : t = 2 * Nat.div2 t + (if Nat.even t then 0 else 1).
Proof.
  rewrite (Nat.div2_odd t) at 1. rewrite <- Nat.negb_even. by destruct (Nat.even t).
Qed.

Lemma sibling_inside l t :
  Nat.div2 t < Nat.div2 (length l) -> exists s, sibling l t = Some s.
Proof.
  intros Ht. unfold sibling. pose proof (div2_cases t). pose proof (div2_cases (length l)).
  destruct (Nat.even t); apply lookup_lt_is_Some; destruct (Nat.even (length l)); lia.
Qed.

Lemma sibling_app_l l l' t :
  Nat.div2 t < Nat.div2 (length l) -> sibling (l ++ l') t = sibling l t.
Proof.
  intros Ht. unfold sibling. pose proof (div2_cases t). pose proof (div2_cases (length l)).
  destruct (Nat.even t); apply lookup_app_l; destruct (Nat.even (length l)); lia.
Qed.

(** A node without a complete pair is the last one of a level of odd length. *)
Lemma last_unpaired l t :
  t < length l -> ~ Nat.div2 t < Nat.div2 (length l) ->
  Nat.odd (length l) = true /\ Nat.even t = true /\ S t = length l /\
  Nat.div2 t = length (pairs op l).
Proof.
  intros Ht Hout. pose proof (div2_cases t). pose proof (div2_cases (length l)).
  rewrite <- Nat.negb_even, length_pairs.
  destruct (Nat.even t), (Nat.even (length l)); simpl;
    first [exfalso; lia|split_and!; done || lia].
Qed.

Lemma climb_cons s st l t :
  Nat.div2 t < Nat.div2 (length l) ->
  exists b, sibling l t = Some b /\
    climb (s :: st) l t = b :: climb st (pairs op l) (Nat.div2 t) /\
    climb_pos (s :: st) l t = climb_pos st (pairs op l) (Nat.div2 t).
Proof.
  intros Ht. destruct (sibling_inside l t Ht) as [b Hb]. exists b. split; [done|].
  simpl. rewrite !length_pairs. do 2 rewrite decide_True by done. by rewrite Hb.
Qed.

Lemma climb_stop st l t :
  ~ Nat.div2 t < Nat.div2 (length l) -> climb st l t = [] /\ climb_pos st l t = t.
Proof.
  intros Ht. destruct st; simpl; [done|]. rewrite !length_pairs. by do 2 rewrite decide_False by done.
Qed.

Lemma sibling_snoc_odd l s x :
  Nat.odd (length l) = true -> last l = Some s -> sibling (l ++ [x]) (length l) = Some s.
Proof.
  intros Ho Hl. unfold sibling. rewrite <- Nat.negb_odd, Ho. simpl.
  rewrite lookup_app_l by (destruct l; simpl in *; [done|lia]).
  by rewrite <- last_lookup.
Qed.

(** The stack only bounds the number of levels. *)
Lemma climb_stack st st' l t :
  length st = length st' ->
  climb st l t = climb st' l t /\ climb_pos st l t = climb_pos st' l t.
Proof.
  revert st' l t. induction st as [|s st IH]; intros [|s' st'] l t Hlen; try done.
  simpl in *. destruct (IH st' (pairs op l) (Nat.div2 t)) as [-> ->]; [lia|]. done.
Qed.

(** One level of [climb] at the new leaf [x] when the level has an odd node. *)
Lemma climb_new_odd s st l x :
  Nat.odd (length l) = true -> last l = Some s ->
  climb (s :: st) (l ++ [x]) (length l) =
    s :: climb st (pairs op l ++ [op s x]) (length (pairs op l)) /\
  climb_pos (s :: st) (l ++ [x]) (length l) =
    climb_pos st (pairs op l ++ [op s x]) (length (pairs op l)).
Proof.
  intros Ho Hs. destruct (climb_cons s st (l ++ [x]) (length l)) as (b & Hb & Hc & Hp).
  { rewrite length_app, Nat.add_1_r, div2_S_odd by done. lia. }
  rewrite (sibling_snoc_odd l s) in Hb by done. injection Hb as <-.
  rewrite Hc, Hp, (pairs_snoc_odd op l s), length_pairs by done. done.
Qed.

Lemma climb_new_even st l x :
  Nat.odd (length l) = false ->
  climb st (l ++ [x]) (length l) = [] /\ climb_pos st (l ++ [x]) (length l) = length l.
Proof.
  intros Ho. apply climb_stop.
  rewrite length_app, Nat.add_1_r, div2_S_even by (by apply even_of_not_odd). lia.
Qed.

(** The new leaf is the target (or contains it). *)
Lemma other_merge_current cap st l x lvl proof :
  counter_repr op l st -> S (length l) < 2 ^ length st ->
  length proof + length (climb st (l ++ [x]) (length l)) <= cap ->
  let k := trailing_ones (N.of_nat (length l)) in
  other_merge cap lvl (take k st) x proof (Some lvl) (N.of_nat (length l)) =
    Ret (carry op (take k st) x,
         proof ++ climb st (l ++ [x]) (length l),
         Some (lvl + length (climb st (l ++ [x]) (length l))),
         N.of_nat (climb_pos st (l ++ [x]) (length l))).
Proof.
  revert l x lvl proof. induction st as [|s st IH]; intros l x lvl proof Hr Hlen Hcap k.
  { simpl in Hlen. lia. }
  destruct Hr as [Hs Hr]. subst k. rewrite trailing_ones_step, odd_of_nat, div2_of_nat.
  destruct (Nat.odd (length l)) eqn:Ho.
  - specialize (Hs eq_refl). destruct (climb_new_odd s st l x Ho Hs) as [Hc Hp].
    rewrite Hc, Hp in *. rewrite <- (length_pairs op) in *. simpl in Hcap |- *.
    rewrite decide_True by done. rewrite <- N.negb_odd, odd_of_nat, Ho. simpl.
    rewrite proof_write_lt by lia. simpl. rewrite div2_of_nat, <- (length_pairs op l).
    rewrite IH.
    + rewrite <- app_assoc, Nat.add_succ_r. done.
    + done.
    + rewrite length_pairs. by apply div2_odd_lt.
    + rewrite length_app. simpl. lia.
  - destruct (climb_new_even (s :: st) l x Ho) as [-> ->].
    simpl. by rewrite app_nil_r, Nat.add_0_r.
Qed.

(** The same at the target leaf itself, where every active level is recorded. *)
Lemma target_merge_spec cap st l x proof :
  counter_repr op l st -> S (length l) < 2 ^ length st ->
  length proof + length (climb st (l ++ [x]) (length l)) <= cap ->
  let k := trailing_ones (N.of_nat (length l)) in
  target_merge cap (take k st) x proof (N.of_nat (length l)) =
    Ret (carry op (take k st) x, proof ++ climb st (l ++ [x]) (length l),
         N.of_nat (climb_pos st (l ++ [x]) (length l))) /\
  length (climb st (l ++ [x]) (length l)) = k.
Proof.
  revert l x proof. induction st as [|s st IH]; intros l x proof Hr Hlen Hcap k.
  { simpl in Hlen. lia. }
  destruct Hr as [Hs Hr]. subst k. rewrite trailing_ones_step, odd_of_nat, div2_of_nat.
  destruct (Nat.odd (length l)) eqn:Ho.
  - specialize (Hs eq_refl). destruct (climb_new_odd s st l x Ho Hs) as [Hc Hp].
    rewrite Hc, Hp in *. rewrite <- (length_pairs op) in *. simpl in Hcap |- *.
    rewrite proof_write_lt by lia. simpl. rewrite div2_of_nat, <- (length_pairs op l).
    destruct (IH (pairs op l) (op s x) (proof ++ [s]) Hr) as [-> Hk].
    + rewrite length_pairs. by apply div2_odd_lt.
    + rewrite length_app. simpl. lia.
    + rewrite <- app_assoc. simpl. by rewrite Hk.
  - destruct (climb_new_even (s :: st) l x Ho) as [-> ->].
    simpl. by rewrite app_nil_r.
Qed.

(** A leaf that arrives after the target. *)
Lemma other_merge_spec cap st l x t lvl proof :
  counter_repr op l st -> S (length l) < 2 ^ length st -> t < length l ->
  length proof + (length (climb st (l ++ [x]) t) - length (climb st l t)) <= cap ->
  let k := trailing_ones (N.of_nat (length l)) in
  other_merge cap lvl (take k st) x proof
      (Some (lvl + length (climb st l t))) (N.of_nat (climb_pos st l t)) =
    Ret (carry op (take k st) x,
         proof ++ drop (length (climb st l t)) (climb st (l ++ [x]) t),
         Some (lvl + length (climb st (l ++ [x]) t)),
         N.of_nat (climb_pos st (l ++ [x]) t)) /\
  take (length (climb st l t)) (climb st (l ++ [x]) t) = climb st l t.
Proof.
  revert l x t lvl proof.
  induction st as [|s st IH]; intros l x t lvl proof Hr Hlen Ht Hcap k.
  { simpl in Hlen. lia. }
  destruct Hr as [Hs Hr]. subst k. rewrite trailing_ones_step, odd_of_nat, div2_of_nat.
  assert (Hle : Nat.div2 (length l) <= Nat.div2 (length (l ++ [x]))).
  { rewrite length_app, Nat.add_1_r, !Nat.div2_div. apply Nat.Div0.div_le_mono. lia. }
  destruct (decide (Nat.div2 t < Nat.div2 (length l))) as [Hin|Hout].
  - destruct (climb_cons s st l t Hin) as (b & Hb & Hc & Hp).
    destruct (climb_cons s st (l ++ [x]) t ltac:(lia)) as (b' & Hb' & Hc' & Hp').
    rewrite sibling_app_l, Hb in Hb' by done. injection Hb' as <-.
    rewrite Hc, Hc', Hp, Hp' in *. simpl in Hcap |- *.
    destruct (Nat.odd (length l)) eqn:Ho.
    + specialize (Hs eq_refl). rewrite (pairs_snoc_odd op l s) in * by done. simpl.
      rewrite decide_False by (intros [=]; lia). simpl.
      rewrite <- (length_pairs op) in Hin |- *.
      destruct (IH (pairs op l) (op s x) (Nat.div2 t) (S lvl) proof Hr) as [IH1 IH2].
      * rewrite length_pairs. by apply div2_odd_lt.
      * done.
      * lia.
      * rewrite !Nat.add_succ_r. simpl in IH1. by rewrite IH1, IH2.
    + rewrite (pairs_snoc_even op l) in * by (by apply even_of_not_odd). simpl.
      rewrite drop_all, take_ge, app_nil_r by done. done.
  - destruct (climb_stop (s :: st) l t Hout) as [Hc0 Hp0]. rewrite Hc0, Hp0 in *.
    destruct (last_unpaired l t Ht Hout) as (Ho & Het & HSt & Hdt).
    specialize (Hs Ho). rewrite Ho.
    destruct (climb_cons s st (l ++ [x]) t) as (b & Hb & Hc & Hp).
    { rewrite length_app, Nat.add_1_r, div2_S_odd by done. rewrite <- HSt.
      rewrite div2_S_even by done. lia. }
    assert (Hbx : b = x).
    { unfold sibling in Hb. rewrite Het, HSt, lookup_app_r, Nat.sub_diag in Hb by lia.
      by injection Hb. }
    subst b. rewrite Hc, Hp in *. rewrite (pairs_snoc_odd op l s) in * by done.
    rewrite Hdt in *. simpl in Hcap |- *. rewrite decide_True by (f_equal; lia).
    rewrite <- N.negb_odd, odd_of_nat, <- Nat.negb_even, Het. simpl.
    rewrite proof_write_lt by lia. simpl. rewrite div2_of_nat, Hdt.
    rewrite <- (length_pairs op l). rewrite other_merge_current.
    + rewrite <- app_assoc, Nat.add_succ_r. done.
    + done.
    + rewrite length_pairs. by apply div2_odd_lt.
    + rewrite length_app. simpl. lia.
Qed.

(** ** Merging the peaks *)

Lemma target_merge_carry cap items x proof pos c proof' pos' :
  target_merge cap items x proof pos = Ret (c, proof', pos') -> c = carry op items x.
Proof.
  revert x proof pos. induction items as [|i items IH]; intros x proof pos Ht; [by simplify_eq/=|].
  simpl in Ht. destruct (proof_write cap proof i); [|done]. by apply IH in Ht.
Qed.

Lemma drop_cons_inv full st s lvl :
  drop lvl full = s :: st -> drop (S lvl) full = st /\ arr_get full lvl = Ret s.
Proof.
  intros Hd. split.
  - by rewrite <- Nat.add_1_r, <- drop_drop, Hd.
  - apply arr_get_Some. rewrite <- (Nat.add_0_r lvl), <- lookup_drop, Hd. done.
Qed.

(** The target is below the root collected so far: every further peak is one of
    its siblings. *)
Lemma walk_in_root cap target full l st lvl w :
  drop lvl full = st -> counter_repr op l st -> target < lvl ->
  length (pw_proof w) + length (merkle_path op (l ++ [pw_root w]) (length l)) <= cap ->
  exists w',
    ofold (walk_step cap target full) (set_bits_from lvl (N.of_nat (length l))) w = Ret w' /\
    merkle_root op (l ++ [pw_root w]) = Some (pw_root w') /\
    pw_proof w' = pw_proof w ++ merkle_path op (l ++ [pw_root w]) (length l).
Proof.
  revert l lvl w. induction st as [|s st IH]; intros l lvl w Hd Hr Htl Hcap.
  { simpl in Hr. subst l. exists w. rewrite merkle_path_short, app_nil_r by done. done. }
  destruct Hr as [Hs Hr]. destruct (drop_cons_inv full st s lvl Hd) as [Hd' Hget].
  rewrite set_bits_step, odd_of_nat, div2_of_nat, <- (length_pairs op l).
  rewrite merkle_path_next in Hcap |- * by (rewrite length_app; simpl; lia).
  rewrite merkle_root_next, <- (length_pairs op l) in *.
  destruct (Nat.odd (length l)) eqn:Ho; simpl.
  - specialize (Hs eq_refl). rewrite (sibling_snoc_odd l s) in * by done.
    rewrite (next_level_snoc_odd op l s) in * by done. simpl in Hcap.
    unfold walk_step at 1. rewrite Hget. simpl. unfold collect_peak.
    rewrite decide_True by lia. rewrite proof_write_lt by lia. simpl.
    edestruct (IH (pairs op l) (S lvl)) as (w' & Hw & Hroot & Hproof); [done|done|lia| |].
    2:{ exists w'. split; [exact Hw|]. split; [exact Hroot|].
        rewrite Hproof. simpl. by rewrite <- app_assoc. }
    simpl. rewrite length_app. simpl. lia.
  - assert (He : Nat.even (length l) = true) by by apply even_of_not_odd.
    rewrite next_level_app_even in * by done. simpl in *.
    replace (sibling (l ++ [pw_root w]) (length l)) with (@None A) in *.
    2:{ unfold sibling. rewrite He, lookup_ge_None_2; [done|]. rewrite length_app. simpl. lia. }
    simpl in *. destruct (IH (pairs op l) (S lvl) w) as (w' & Hw & Hroot & Hproof); eauto.
Qed.

(** The target is in a peak that has not been merged yet. *)
Lemma walk_below cap target full l st lvl t w :
  drop lvl full = st -> counter_repr op l st -> t < length l ->
  target = lvl + length (climb st l t) ->
  (pw_merged w = false -> pw_position w = N.of_nat (climb_pos st l t)) ->
  length (pw_proof w) +
    length (drop (length (climb st l t)) (merkle_path op (l ++ [pw_root w]) t)) <= cap ->
  exists w',
    ofold (walk_step cap target full) (set_bits_from lvl (N.of_nat (length l))) w = Ret w' /\
    merkle_root op (l ++ [pw_root w]) = Some (pw_root w') /\
    pw_proof w' = pw_proof w ++
      drop (length (climb st l t)) (merkle_path op (l ++ [pw_root w]) t).
Proof.
  revert l lvl t w. induction st as [|s st IH]; intros l lvl t w Hd Hr Ht Htl Hpos Hcap.
  { simpl in Hr. subst l. simpl in Ht. lia. }
  destruct Hr as [Hs Hr]. destruct (drop_cons_inv full st s lvl Hd) as [Hd' Hget].
  rewrite set_bits_step, odd_of_nat, div2_of_nat, <- (length_pairs op l).
  rewrite merkle_path_next in Hcap |- * by (rewrite length_app; simpl; lia).
  rewrite merkle_root_next.
  destruct (decide (Nat.div2 t < Nat.div2 (length l))) as [Hin|Hout].
  - destruct (climb_cons s st l t Hin) as (b & Hb & Hc & Hp).
    rewrite Hc, Hp in *. rewrite sibling_app_l, Hb in * by done. simpl in Hcap |- *.
    assert (Htl' : target = S lvl + length (climb st (pairs op l) (Nat.div2 t)))
      by (simpl in Htl; lia).
    rewrite <- (length_pairs op) in Hin.
    destruct (Nat.odd (length l)) eqn:Ho; simpl.
    + specialize (Hs eq_refl). rewrite (next_level_snoc_odd op l s) in * by done.
      unfold walk_step at 1. rewrite Hget. simpl. unfold collect_peak.
      rewrite !decide_False by lia. simpl.
      match goal with |- context [ofold _ _ ?w0] =>
        by apply (IH (pairs op l) (S lvl) (Nat.div2 t) w0) end.
    + rewrite next_level_app_even in * by (by apply even_of_not_odd). by apply IH.
  - destruct (climb_stop (s :: st) l t Hout) as [Hc0 Hp0]. rewrite Hc0, Hp0 in *.
    destruct (last_unpaired l t Ht Hout) as (Ho & Het & HSt & Hdt).
    specialize (Hs Ho). rewrite Ho.
    replace (sibling (l ++ [pw_root w]) t) with (Some (pw_root w)) in *.
    2:{ unfold sibling. by rewrite Het, HSt, lookup_app_r, Nat.sub_diag by lia. }
    rewrite Hdt, (next_level_snoc_odd op l s) in * by done. simpl in *.
    unfold walk_step at 1. rewrite Hget. simpl. unfold collect_peak.
    rewrite decide_False.
    2:{ intros [|(_ & Hpo & Hm)]; [lia|]. rewrite Hpos, odd_of_nat in Hpo by done.
        by rewrite <- Nat.negb_even, Het in Hpo. }
    rewrite decide_True by lia. rewrite proof_write_lt by lia. simpl.
    edestruct (walk_in_root cap target full (pairs op l) st (S lvl))
      as (w' & Hw & Hroot & Hproof); [done|done|lia| |].
    2:{ exists w'. split; [exact Hw|]. split; [exact Hroot|].
        rewrite Hproof. simpl. by rewrite <- app_assoc. }
    simpl. rewrite length_app. simpl. lia.
Qed.

(** The whole tail of proof generation: start from the lowest peak, then merge
    the others. *)
Definition walk_peaks (cap target_level : nat) (st : list A) (num_leaves : N)
    (proof : list A) (position : N) : outcome peak_walk :=
  let lowest := trailing_zeros 64 num_leaves in
  let! root := arr_get st lowest in
  loop_bits 65 (clear_bit num_leaves lowest) (walk_step cap target_level st)
    {| pw_root := root; pw_proof := proof; pw_merged := false; pw_position := position |}.

Lemma walk_first cap target full l st lvl t proof level levels :
  drop lvl full = st -> counter_repr op l st -> t < length l ->
  target = lvl + length (climb st l t) ->
  length proof + length (drop (length (climb st l t)) (merkle_path op l t)) <= cap ->
  set_bits_from lvl (N.of_nat (length l)) = level :: levels ->
  exists root w', arr_get full level = Ret root /\
    ofold (walk_step cap target full) levels
      {| pw_root := root; pw_proof := proof; pw_merged := false;
         pw_position := N.of_nat (climb_pos st l t) |} = Ret w' /\
    merkle_root op l = Some (pw_root w') /\
    pw_proof w' = proof ++ drop (length (climb st l t)) (merkle_path op l t).
Proof.
  revert l lvl t. induction st as [|s st IH]; intros l lvl t Hd Hr Ht Htl Hcap Hbits.
  { simpl in Hr. subst l. simpl in Ht. lia. }
  destruct Hr as [Hs Hr]. destruct (drop_cons_inv full st s lvl Hd) as [Hd' Hget].
  rewrite set_bits_step, odd_of_nat, div2_of_nat, <- (length_pairs op l) in Hbits.
  rewrite merkle_path_next in Hcap |- * by done. rewrite merkle_root_next.
  destruct (Nat.odd (length l)) eqn:Ho; simpl in Hbits.
  - specialize (Hs eq_refl). injection Hbits as <- <-. exists s.
    rewrite (next_level_odd op l s) in * by done.
    destruct (decide (Nat.div2 t < Nat.div2 (length l))) as [Hin|Hout].
    + destruct (climb_cons s st l t Hin) as (b & Hb & Hc & Hp).
      rewrite Hc, Hp, Hb in *. simpl in Hcap |- *. rewrite <- (length_pairs op) in Hin.
      edestruct (walk_below cap target full (pairs op l) st (S lvl) (Nat.div2 t)
        {| pw_root := s; pw_proof := proof; pw_merged := false;
           pw_position := N.of_nat (climb_pos st (pairs op l) (Nat.div2 t)) |})
        as (w' & Hw & Hroot & Hproof); [done..|simpl in Htl; lia|done|done|].
      by exists w'.
    + destruct (climb_stop (s :: st) l t Hout) as [Hc0 Hp0]. rewrite Hc0, Hp0 in *.
      destruct (last_unpaired l t Ht Hout) as (_ & Het & HSt & Hdt).
      replace (sibling l t) with (@None A) in *.
      2:{ unfold sibling. by rewrite Het, HSt, lookup_ge_None_2 by lia. }
      rewrite Hdt in *. simpl in Hcap, Htl |- *.
      edestruct (walk_in_root cap target full (pairs op l) st (S lvl)
        {| pw_root := s; pw_proof := proof; pw_merged := false;
           pw_position := N.of_nat t |}) as (w' & Hw & Hroot & Hproof);
        [done|done|lia|done|]. by exists w'.
  - assert (He : Nat.even (length l) = true) by by apply even_of_not_odd.
    rewrite next_level_even in * by done.
    destruct (decide (Nat.div2 t < Nat.div2 (length l))) as [Hin|Hout].
    2:{ destruct (last_unpaired l t Ht Hout) as (Hc & _). congruence. }
    destruct (climb_cons s st l t Hin) as (b & Hb & Hc & Hp).
    rewrite Hc, Hp, Hb in *. simpl in Hcap, Htl |- *. rewrite <- (length_pairs op) in Hin.
    apply (IH (pairs op l) (S lvl)); try done. simpl. lia.
Qed.

(** What has been recorded is the beginning of the reference path. *)
Lemma climb_prefix st l t acc :
  counter_repr op l st -> t < length l ->
  take (length (climb st l t)) (merkle_path op (l ++ option_list acc) t) = climb st l t.
Proof.
  revert l t acc. induction st as [|s st IH]; intros l t acc Hr Ht.
  { simpl in Hr. subst l. simpl in Ht. lia. }
  destruct Hr as [Hs Hr].
  destruct (decide (Nat.div2 t < Nat.div2 (length l))) as [Hin|Hout].
  2:{ by destruct (climb_stop (s :: st) l t Hout) as [-> _]. }
  destruct (climb_cons s st l t Hin) as (b & Hb & Hc & _). rewrite Hc.
  rewrite merkle_path_next by (rewrite length_app; lia).
  rewrite sibling_app_l, Hb by done. simpl. f_equal.
  rewrite <- (length_pairs op) in Hin.
  destruct (Nat.odd (length l)) eqn:Ho.
  - specialize (Hs eq_refl). destruct acc as [c|]; simpl.
    + rewrite (next_level_snoc_odd op l s) by done.
      by apply (IH (pairs op l) (Nat.div2 t) (Some (op s c))).
    + rewrite app_nil_r, (next_level_odd op l s) by done.
      by apply (IH (pairs op l) (Nat.div2 t) (Some s)).
  - rewrite next_level_app_even by (by apply even_of_not_odd).
    replace (next_level op (option_list acc)) with (option_list acc) by by destruct acc.
    by apply IH.
Qed.

Lemma climb_path st l t :
  counter_repr op l st -> t < length l ->
  climb st l t ++ drop (length (climb st l t)) (merkle_path op l t) = merkle_path op l t.
Proof.
  intros Hr Ht. rewrite <- (climb_prefix st l t None Hr Ht) at 1. simpl.
  by rewrite app_nil_r, take_drop.
Qed.

Lemma merkle_path_length l t k :
  t < length l -> length l <= 2 ^ k -> length (merkle_path op l t) <= k.
Proof.
  revert l t. induction k as [|k IH]; intros l t Ht Hk.
  { rewrite merkle_path_short by (simpl in Hk; lia). simpl. lia. }
  rewrite merkle_path_next, length_app by done.
  assert (Hle : length (merkle_path op (next_level op l) (Nat.div2 t)) <= k).
  { pose proof (div2_cases t). pose proof (div2_cases (S (length l))).
    apply IH; rewrite length_next_level.
    - destruct (Nat.even t), (Nat.even (S (length l))); lia.
    - simpl in Hk. destruct (Nat.even (S (length l))); lia. }
  destruct (sibling l t); simpl; lia.
Qed.

Lemma climb_length st l t k :
  counter_repr op l st -> t < length l -> length l <= 2 ^ k -> length (climb st l t) <= k.
Proof.
  intros Hr Ht Hk. rewrite <- (climb_prefix st l t None Hr Ht), length_take. simpl.
  rewrite app_nil_r. pose proof (merkle_path_length l t k Ht Hk). lia.
Qed.

(** Proof generation ends with the reference root and the reference path. *)
Lemma walk_peaks_spec cap st l t :
  counter_repr op l st -> t < length l -> (N.of_nat (length l) < 2 ^ 64)%N ->
  length l <= 2 ^ cap ->
  exists w, walk_peaks cap (length (climb st l t)) st (N.of_nat (length l)) (climb st l t)
      (N.of_nat (climb_pos st l t)) = Ret w /\
    merkle_root op l = Some (pw_root w) /\ pw_proof w = merkle_path op l t.
Proof.
  intros Hr Ht Hlt Hcap. unfold walk_peaks.
  destruct (N.of_nat (length l)) as [|p] eqn:Hp; [lia|]. simpl.
  edestruct (walk_first cap (length (climb st l t)) st l st 0 t (climb st l t))
    as (root & w & Hget & Hw & Hroot & Hproof).
  1-4: done.
  - rewrite <- length_app, climb_path by done. by apply merkle_path_length.
  - rewrite Hp. apply set_bits_lowest.
  - simpl in Hget. rewrite Hget. simpl. rewrite loop_bits_fold.
    + rewrite Hw. exists w. split; [done|]. split; [done|]. by rewrite Hproof, climb_path.
    + pose proof (clear_bit_le (Npos p) (pos_trailing_zeros p)). lia.
    + pose proof (count_ones_clear p). pose proof (count_ones_le (Npos p) 64 Hlt). lia.
Qed.
End Walk.
