(* ===== verification/Unbalanced.v ===== *)
(** * The unbalanced Merkle tree

    Model of [crates/shared/ab-merkle-tree/src/unbalanced.rs].  [MAX_N] is the
    argument [max_n]; arrays are lists whose length is the declared one; an
    out-of-range access, checked or not, is [Fault]. *)

From S2P Require Import Prelude MerkleSpec BinaryCounter ProofWalk.
From stdpp Require Import prelude.
From Stdlib Require Import NArith Lia.

Module Unbalanced.
Section Tree.
Context {H : Type} {hasher : NodeHasher H}.

(** [MAX_N.next_power_of_two().ilog2() as usize + 1] *)
Definition stack_size (max_n : N) : nat := S (ilog2 (next_power_of_two max_n)).

(** [MAX_N.next_power_of_two().ilog2() as usize], the size of a proof array. *)
Definition proof_capacity (max_n : N) : nat := ilog2 (next_power_of_two max_n).

(** The [for hash in leaves] loop of [compute_root_only]; [None] is the early
    return on too many leaves. *)
Fixpoint absorb_leaves (max_n : N) (leaves : list H) (num_leaves : N) (stack : list H)
    : outcome (option (N * list H)) :=
  match leaves with
  | [] => Ret (Some (num_leaves, stack))
  | hash :: leaves =>
      if decide (max_n <= num_leaves)%N then Ret None
      else
        let! stack := push_leaf hash_pair stack num_leaves hash in
        absorb_leaves max_n leaves (num_leaves + 1) stack
  end.

(** One iteration of the peak loop, with the root so far in [stack[0]]. *)
Definition bag_in_place (level : nat) (stack : list H) : outcome (list H) :=
  let! item := arr_get stack level in
  let! root := arr_get stack 0 in
  arr_set stack 0 (hash_pair item root).

Definition compute_root_only (max_n : N) (leaves : list H) : outcome (option H) :=
  let! filled := absorb_leaves max_n leaves 0 (replicate (stack_size max_n) zero_hash) in
  match filled with
  | None => Ret None
  | Some (num_leaves, stack) =>
      if decide (num_leaves = 0%N) then Ret None
      else
        let lowest_active_level := trailing_zeros 64 num_leaves in
        let! peak := arr_get stack lowest_active_level in
        let! stack := arr_set stack 0 peak in
        let! stack :=
          loop_bits 65 (clear_bit num_leaves lowest_active_level) bag_in_place stack in
        let! root := arr_get stack 0 in
        Ret (Some root)
  end.

(** Variables of [compute_root_and_proof_inner] that live across leaves. *)
Record proof_state : Type := {
  ps_num_leaves : N;
  ps_stack : list H;
  ps_proof : list H;
  ps_target_level : option nat;
  ps_position : N
}.

(** The body of the loop over leaves, after the capacity check. *)
Definition absorb_one_with_proof (max_n target_index current_index : N) (hash : H)
    (ps : proof_state) : outcome proof_state :=
  let lowest_active_levels := trailing_ones (ps_num_leaves ps) in
  let items := take lowest_active_levels (ps_stack ps) in
  let! (current, proof, target_level, position) :=
    if decide (current_index = target_index) then
      let! (current, proof, position) :=
        target_merge hash_pair (proof_capacity max_n) items hash (ps_proof ps)
          (ps_position ps) in
      Ret (current, proof, Some lowest_active_levels, position)
    else
      other_merge hash_pair (proof_capacity max_n) 0 items hash (ps_proof ps)
        (ps_target_level ps) (ps_position ps) in
  let! stack := arr_set (ps_stack ps) lowest_active_levels current in
  Ret {| ps_num_leaves := ps_num_leaves ps + 1; ps_stack := stack; ps_proof := proof;
         ps_target_level := target_level; ps_position := position |}.

Fixpoint absorb_with_proof (max_n target_index current_index : N) (leaves : list H)
    (ps : proof_state) : outcome (option proof_state) :=
  match leaves with
  | [] => Ret (Some ps)
  | hash :: leaves =>
      if decide (max_n <= ps_num_leaves ps)%N then Ret None
      else
        let! ps := absorb_one_with_proof max_n target_index current_index hash ps in
        absorb_with_proof max_n target_index (current_index + 1) leaves ps
  end.

(** Variables of the peak loop: the stack with the root so far in [stack[0]], the
    proof, [merged_peaks] and [position]. *)
Definition walk_in_place (cap target_level level : nat)
    (s : list H * list H * bool * N) : outcome (list H * list H * bool * N) :=
  let '(stack, proof, merged, position) := s in
  let! item := arr_get stack level in
  let! root := arr_get stack 0 in
  let! (proof, merged) :=
    collect_peak cap target_level level item
      {| pw_root := root; pw_proof := proof; pw_merged := merged;
         pw_position := position |} in
  let! stack := arr_set stack 0 (hash_pair item root) in
  Ret (stack, proof, merged, N.div2 position).

Definition compute_root_and_proof_inner (max_n : N) (leaves : list H) (target_index : N)
    : outcome (option (H * list H)) :=
  let! filled :=
    absorb_with_proof max_n target_index 0 leaves
      {| ps_num_leaves := 0; ps_stack := replicate (stack_size max_n) zero_hash;
         ps_proof := []; ps_target_level := None; ps_position := target_index |} in
  match filled with
  | None => Ret None
  | Some ps =>
      if decide (ps_num_leaves ps <= target_index)%N then Ret None
      else
        match ps_target_level ps with
        | None => Ret None
        | Some target_level =>
            let lowest_active_level := trailing_zeros 64 (ps_num_leaves ps) in
            let! peak := arr_get (ps_stack ps) lowest_active_level in
            let! stack := arr_set (ps_stack ps) 0 peak in
            let! (stack, proof, _, _) :=
              loop_bits 65 (clear_bit (ps_num_leaves ps) lowest_active_level)
                (walk_in_place (proof_capacity max_n) target_level)
                (stack, ps_proof ps, false, ps_position ps) in
            let! root := arr_get stack 0 in
            Ret (Some (root, proof))
        end
  end.

(** The allocating and the in-place entry points hand the arrays to the inner
    function and return the initialised part of the proof. *)
Definition compute_root_and_proof (max_n : N) (leaves : list H) (target_index : N)
    : outcome (option (H * list H)) :=
  compute_root_and_proof_inner max_n leaves target_index.

Definition compute_root_and_proof_in (max_n : N) (leaves : list H) (target_index : N)
    : outcome (option (H * list H)) :=
  compute_root_and_proof_inner max_n leaves target_index.

(** [n.div_ceil(2)] *)
Definition div_ceil_2 (n : N) : N := (N.div2 n + if N.odd n then 1 else 0)%N.

(** The [while level_size > 1] loop; [None] is [return false].  64 halvings bring
    any [u64] down to 1. *)
Fixpoint verify_loop (fuel : nat) (proof : list H) (current : H) (position : N)
    (proof_pos : nat) (level_size : N) : outcome (option (H * nat)) :=
  match fuel with
  | O => Fault
  | S fuel =>
      if decide (level_size <= 1)%N then Ret (Some (current, proof_pos))
      else
        let is_left := N.even position in
        let is_last := bool_decide (position = level_size - 1)%N in
        let continue current proof_pos :=
          verify_loop fuel proof current (N.div2 position) proof_pos
            (div_ceil_2 level_size) in
        if is_left && negb is_last then
          if decide (length proof <= proof_pos) then Ret None
          else let! hash := arr_get proof proof_pos in
               continue (hash_pair current hash) (S proof_pos)
        else if negb is_left then
          if decide (length proof <= proof_pos) then Ret None
          else let! hash := arr_get proof proof_pos in
               continue (hash_pair hash current) (S proof_pos)
        else continue current proof_pos
  end.

Definition verify (root : H) (proof : list H) (leaf_index : N) (leaf : H)
    (num_leaves : N) : outcome bool :=
  if decide (num_leaves <= leaf_index)%N then Ret false
  else
    let! result := verify_loop 65 proof leaf leaf_index 0 num_leaves in
    match result with
    | None => Ret false
    | Some (current, proof_pos) =>
        Ret (bool_decide (proof_pos = length proof) && bool_decide (current = root))
    end.

(** ** Correctness *)

Lemma push_fits max_n n : (n < max_n)%N -> S (N.to_nat n) < 2 ^ stack_size max_n.
Proof.
  intros Hn. unfold stack_size. pose proof (le_pow2_ilog2 (S (N.to_nat n)) max_n ltac:(lia)).
  simpl. lia.
Qed.

Lemma absorb_leaves_spec max_n leaves l stack :
  counter_repr hash_pair l stack -> length stack = stack_size max_n ->
  (N.of_nat (length l) <= max_n)%N ->
  if decide (N.of_nat (length (l ++ leaves)) <= max_n)%N then
    exists stack', absorb_leaves max_n leaves (N.of_nat (length l)) stack =
        Ret (Some (N.of_nat (length (l ++ leaves)), stack')) /\
      counter_repr hash_pair (l ++ leaves) stack' /\ length stack' = stack_size max_n
  else absorb_leaves max_n leaves (N.of_nat (length l)) stack = Ret None.
Proof.
  revert l stack. induction leaves as [|x leaves IH]; intros l stack Hr Hlen Hmax.
  { rewrite app_nil_r, decide_True by done. by exists stack. }
  simpl absorb_leaves. destruct (decide (max_n <= N.of_nat (length l))%N) as [Hfull|Hroom].
  - rewrite decide_False; [done|]. rewrite length_app. simpl. lia.
  - destruct (push_leaf_repr hash_pair l stack x Hr) as (stack' & Hp & Hr' & Hlen').
    { rewrite Hlen. rewrite <- (Nat2N.id (length l)). apply push_fits. lia. }
    rewrite Hp. simpl. specialize (IH (l ++ [x]) stack').
    replace (N.of_nat (length (l ++ [x]))) with (N.of_nat (length l) + 1)%N in IH
      by (rewrite length_app; simpl; lia).
    rewrite <- app_assoc in IH. apply IH; [done|congruence|lia].
Qed.

Lemma bag_in_place_fold levels st r :
  Forall (fun k => 0 < k) levels -> st <> [] ->
  ofold bag_in_place levels (<[0 := r]> st) =
    let! r' := ofold (bag_step hash_pair st) levels r in Ret (<[0 := r']> st).
Proof.
  intros Hlv Hne. revert r. induction Hlv as [|k levels Hk _ IH]; intros r; [done|].
  simpl. unfold bag_in_place at 1, bag_step at 1, arr_get at 1 3.
  rewrite list_lookup_insert_ne by lia. destruct (st !! k); [|done]. simpl.
  destruct st as [|s0 st]; [done|]. simpl. apply IH.
Qed.

Lemma stack_head (st : list H) r : st <> [] -> arr_get (<[0 := r]> st) 0 = Ret r.
Proof. by destruct st. Qed.

Lemma cleared_bound p :
  (Npos p < 2 ^ 64)%N ->
  (clear_bit (Npos p) (pos_trailing_zeros p) < 2 ^ 64)%N /\
  count_ones (clear_bit (Npos p) (pos_trailing_zeros p)) < 65.
Proof.
  intros Hlt. pose proof (clear_bit_le (Npos p) (pos_trailing_zeros p)).
  pose proof (count_ones_clear p). pose proof (count_ones_le (Npos p) 64 Hlt).
  split; lia.
Qed.

(** The peak loop of [compute_root_only] computes what [bag_peaks] does. *)
Lemma bag_in_place_spec n st :
  n <> 0%N -> (n < 2 ^ 64)%N -> st <> [] ->
  (let! peak := arr_get st (trailing_zeros 64 n) in
   let! st := arr_set st 0 peak in
   let! st := loop_bits 65 (clear_bit n (trailing_zeros 64 n)) bag_in_place st in
   let! root := arr_get st 0 in Ret (Some root)) =
  let! root := bag_peaks hash_pair st n in Ret (Some root).
Proof.
  intros Hn Hlt Hne. destruct n as [|p]; [done|]. unfold bag_peaks. simpl.
  destruct (arr_get st (pos_trailing_zeros p)) as [peak|]; [|done]. simpl.
  rewrite arr_set_lt by (destruct st; [done|simpl; lia]). simpl.
  destruct (cleared_bound p Hlt) as [Hc1 Hc2]. rewrite !loop_bits_fold by done.
  rewrite bag_in_place_fold by (done || apply set_bits_cleared_pos).
  destruct (ofold (bag_step hash_pair st) _ peak); [|done]. simpl.
  by rewrite stack_head.
Qed.

Lemma compute_root_only_spec max_n leaves :
  (max_n <= 2 ^ 63)%N ->
  compute_root_only max_n leaves =
    Ret (if decide (N.of_nat (length leaves) <= max_n)%N
         then merkle_root hash_pair leaves else None).
Proof.
  intros Hmax. unfold compute_root_only.
  pose proof (absorb_leaves_spec max_n leaves [] (replicate (stack_size max_n) zero_hash)
    (counter_repr_replicate hash_pair _ _) (length_replicate _ _) ltac:(simpl; lia)) as Ha.
  rewrite app_nil_l in Ha. change (N.of_nat (length [])) with 0%N in Ha.
  case_decide as Hfit; [|by rewrite Ha].
  destruct Ha as (stack & -> & Hr & Hlen). cbn [obind].
  destruct (decide (N.of_nat (length leaves) = 0%N)) as [Hz|Hz].
  { by destruct leaves. }
  rewrite bag_in_place_spec; [|done|lia|by destruct stack].
  destruct (bag_peaks_spec hash_pair leaves stack Hr) as (r & -> & ->);
    [by destruct leaves|lia|done].
Qed.

(** Invariant of the streaming phase of proof generation: what is known about the
    target at leaf index [t] once the leaves [l] have been processed. *)
Definition proof_inv (max_n : N) (t : nat) (l : list H) (ps : proof_state) : Prop :=
  ps_num_leaves ps = N.of_nat (length l) /\
  counter_repr hash_pair l (ps_stack ps) /\
  length (ps_stack ps) = stack_size max_n /\
  if decide (t < length l) then
    ps_target_level ps = Some (length (climb hash_pair (ps_stack ps) l t)) /\
    ps_proof ps = climb hash_pair (ps_stack ps) l t /\
    ps_position ps = N.of_nat (climb_pos hash_pair (ps_stack ps) l t)
  else
    ps_target_level ps = None /\ ps_proof ps = [] /\ ps_position ps = N.of_nat t.

Lemma other_merge_no_target cap lvl items x (proof : list H) pos :
  other_merge hash_pair cap lvl items x proof None pos =
    Ret (carry hash_pair items x, proof, None, pos).
Proof. revert lvl x. induction items as [|i items IH]; intros; [done|]. simpl. apply IH. Qed.

(** The merge loop of one leaf, whichever of its two forms runs. *)
Lemma merge_leaf_spec max_n t l x ps :
  proof_inv max_n t l ps -> (N.of_nat (length l) < max_n)%N ->
  let k := trailing_ones (ps_num_leaves ps) in
  let st := ps_stack ps in
  (if decide (N.of_nat (length l) = N.of_nat t) then
     let! (current, proof, position) :=
       target_merge hash_pair (proof_capacity max_n) (take k st) x (ps_proof ps)
         (ps_position ps) in
     Ret (current, proof, Some k, position)
   else
     other_merge hash_pair (proof_capacity max_n) 0 (take k st) x (ps_proof ps)
       (ps_target_level ps) (ps_position ps)) =
  Ret (carry hash_pair (take k st) x,
       if decide (t < length (l ++ [x])) then climb hash_pair st (l ++ [x]) t else [],
       if decide (t < length (l ++ [x]))
       then Some (length (climb hash_pair st (l ++ [x]) t)) else None,
       N.of_nat (if decide (t < length (l ++ [x]))
                 then climb_pos hash_pair st (l ++ [x]) t else t)).
Proof.
  intros (Hnum & Hr & Hlen & Ht) Hlt k st. subst k st. rewrite Hnum.
  assert (Hfit : S (length l) < 2 ^ length (ps_stack ps)).
  { rewrite Hlen, <- (Nat2N.id (length l)). by apply push_fits. }
  assert (Hcap : forall u, u < length (l ++ [x]) ->
            length (climb hash_pair (ps_stack ps) (l ++ [x]) u) <= proof_capacity max_n).
  { intros u Hu. destruct (push_leaf_repr hash_pair l (ps_stack ps) x Hr Hfit)
      as (st' & _ & Hr' & Hlen').
    destruct (climb_stack hash_pair (ps_stack ps) st' (l ++ [x]) u) as [-> _]; [done|].
    apply climb_length; [done..|]. apply le_pow2_ilog2. rewrite length_app. simpl. lia. }
  rewrite length_app in *. simpl in *.
  destruct (decide (t < length l)) as [Hin|Hout].
  - destruct Ht as (Htl & Hpr & Hpos). rewrite !decide_False by lia.
    rewrite Htl, Hpr, Hpos. rewrite !(decide_True (P := t < length l + 1)) by lia.
    destruct (other_merge_spec hash_pair (proof_capacity max_n) (ps_stack ps) l x t 0
      (climb hash_pair (ps_stack ps) l t)) as [Hm Htake]; [done..| |].
    { pose proof (Hcap t ltac:(lia)) as Hc.
      destruct (other_merge_spec hash_pair (length (climb hash_pair (ps_stack ps) l t) +
        length (climb hash_pair (ps_stack ps) (l ++ [x]) t)) (ps_stack ps) l x t 0
        (climb hash_pair (ps_stack ps) l t)) as [_ Htake]; [done..|lia|].
      apply (f_equal length) in Htake. rewrite length_take in Htake. lia. }
    simpl in Hm. rewrite Hm. do 4 f_equal.
    rewrite <- Htake at 1. by rewrite take_drop.
  - destruct Ht as (Htl & Hpr & Hpos). rewrite Htl, Hpr, Hpos.
    destruct (decide (t = length l)) as [->|Hne].
    + rewrite decide_True by done. rewrite !(decide_True (P := length l < length l + 1)) by lia.
      destruct (target_merge_spec hash_pair (proof_capacity max_n) (ps_stack ps) l x [])
        as [-> Hk]; [done..|simpl; apply Hcap; lia|]. simpl. by rewrite Hk.
    + rewrite !decide_False by lia. apply other_merge_no_target.
Qed.

Lemma absorb_one_inv max_n t l x ps :
  proof_inv max_n t l ps -> (N.of_nat (length l) < max_n)%N ->
  exists ps', absorb_one_with_proof max_n (N.of_nat t) (N.of_nat (length l)) x ps = Ret ps' /\
    proof_inv max_n t (l ++ [x]) ps'.
Proof.
  intros Hinv Hlt. pose proof (merge_leaf_spec max_n t l x ps Hinv Hlt) as Hm.
  destruct Hinv as (Hnum & Hr & Hlen & _).
  destruct (push_leaf_repr hash_pair l (ps_stack ps) x Hr) as (st' & Hp & Hr' & Hlen').
  { rewrite Hlen, <- (Nat2N.id (length l)). by apply push_fits. }
  unfold absorb_one_with_proof. cbv zeta in Hm. rewrite Hm. cbn [obind].
  unfold push_leaf in Hp. rewrite <- Hnum in Hp. rewrite Hp. cbn [obind].
  eexists. split; [done|]. split_and!; cbn.
  - rewrite Hnum, length_app. simpl. lia.
  - done.
  - congruence.
  - destruct (climb_stack hash_pair (ps_stack ps) st' (l ++ [x]) t) as [<- <-]; [done|].
    by destruct (decide (t < length (l ++ [x]))).
Qed.

Lemma absorb_with_proof_spec max_n t leaves l ps :
  proof_inv max_n t l ps -> (N.of_nat (length l) <= max_n)%N ->
  if decide (N.of_nat (length (l ++ leaves)) <= max_n)%N then
    exists ps', absorb_with_proof max_n (N.of_nat t) (N.of_nat (length l)) leaves ps =
        Ret (Some ps') /\ proof_inv max_n t (l ++ leaves) ps'
  else absorb_with_proof max_n (N.of_nat t) (N.of_nat (length l)) leaves ps = Ret None.
Proof.
  revert l ps. induction leaves as [|x leaves IH]; intros l ps Hinv Hmax.
  { rewrite app_nil_r, decide_True by done. by exists ps. }
  simpl absorb_with_proof. rewrite (proj1 Hinv).
  destruct (decide (max_n <= N.of_nat (length l))%N) as [Hfull|Hroom].
  - rewrite decide_False; [done|]. rewrite length_app. simpl. lia.
  - destruct (absorb_one_inv max_n t l x ps Hinv) as (ps' & -> & Hinv'); [lia|]. cbn [obind].
    specialize (IH (l ++ [x]) ps').
    replace (N.of_nat (length (l ++ [x]))) with (N.of_nat (length l) + 1)%N in IH
      by (rewrite length_app; simpl; lia).
    rewrite <- app_assoc in IH. apply IH; [done|lia].
Qed.

Lemma walk_in_place_step cap tl k st w :
  0 < k -> st <> [] ->
  walk_in_place cap tl k (<[0 := pw_root w]> st, pw_proof w, pw_merged w, pw_position w) =
    let! w' := walk_step hash_pair cap tl st k w in
    Ret (<[0 := pw_root w']> st, pw_proof w', pw_merged w', pw_position w').
Proof.
  intros Hk Hne. unfold walk_in_place, walk_step. rewrite stack_head by done.
  unfold arr_get. rewrite list_lookup_insert_ne by lia.
  destruct (st !! k) as [item|]; [|done]. destruct w as [root proof merged position]. simpl.
  destruct (collect_peak _ _ _ _ _) as [[proof' merged']|]; [|done]. simpl.
  rewrite arr_set_lt by (rewrite length_insert; destruct st; [done|simpl; lia]). simpl.
  by rewrite list_insert_insert_eq.
Qed.

Lemma walk_in_place_fold cap tl levels st w :
  Forall (fun k => 0 < k) levels -> st <> [] ->
  ofold (walk_in_place cap tl) levels
      (<[0 := pw_root w]> st, pw_proof w, pw_merged w, pw_position w) =
    let! w' := ofold (walk_step hash_pair cap tl st) levels w in
    Ret (<[0 := pw_root w']> st, pw_proof w', pw_merged w', pw_position w').
Proof.
  intros Hlv Hne. revert w. induction Hlv as [|k levels Hk _ IH]; intros w; [done|].
  cbn [ofold]. rewrite walk_in_place_step by done.
  destruct (walk_step hash_pair cap tl st k w) as [w'|]; [|done]. apply IH.
Qed.

(** The peak loop of [compute_root_and_proof_inner] is [walk_peaks]. *)
Lemma walk_in_place_spec cap tl n st proof position :
  n <> 0%N -> (n < 2 ^ 64)%N -> st <> [] ->
  (let! peak := arr_get st (trailing_zeros 64 n) in
   let! st := arr_set st 0 peak in
   let! (st, proof, _, _) :=
     loop_bits 65 (clear_bit n (trailing_zeros 64 n)) (walk_in_place cap tl)
       (st, proof, false, position) in
   let! root := arr_get st 0 in Ret (Some (root, proof))) =
  let! w := walk_peaks hash_pair cap tl st n proof position in
  Ret (Some (pw_root w, pw_proof w)).
Proof.
  intros Hn Hlt Hne. destruct n as [|p]; [done|]. unfold walk_peaks. simpl.
  destruct (arr_get st (pos_trailing_zeros p)) as [peak|]; [|done]. simpl.
  rewrite arr_set_lt by (destruct st; [done|simpl; lia]). simpl.
  destruct (cleared_bound p Hlt) as [Hc1 Hc2]. rewrite !loop_bits_fold by done.
  pose proof (walk_in_place_fold cap tl _ st {| pw_root := peak; pw_proof := proof;
    pw_merged := false; pw_position := position |} (set_bits_cleared_pos 0 p) Hne) as Hf.
  cbn [pw_root pw_proof pw_merged pw_position] in Hf. rewrite Hf.
  destruct (ofold (walk_step hash_pair cap tl st) _ _) as [w|]; [|done]. simpl.
  by rewrite stack_head.
Qed.

Lemma compute_root_and_proof_inner_spec max_n leaves target_index :
  (max_n <= 2 ^ 63)%N ->
  compute_root_and_proof_inner max_n leaves target_index =
    Ret (if decide (N.of_nat (length leaves) <= max_n /\
                    target_index < N.of_nat (length leaves))%N
         then root ← merkle_root hash_pair leaves;
              Some (root, merkle_path hash_pair leaves (N.to_nat target_index))
         else None).
Proof.
  intros Hmax. set (t := N.to_nat target_index).
  assert (Ht : target_index = N.of_nat t) by (subst t; lia). rewrite Ht.
  unfold compute_root_and_proof_inner.
  match goal with |- context [absorb_with_proof _ _ _ _ ?ps0] =>
    assert (Hinv : proof_inv max_n t [] ps0);
      [|pose proof (absorb_with_proof_spec max_n t leaves [] ps0 Hinv ltac:(simpl; lia)) as Ha]
  end.
  { split_and!; [done|apply counter_repr_replicate|apply length_replicate|done]. }
  rewrite app_nil_l in Ha. change (N.of_nat (length [])) with 0%N in Ha.
  destruct (decide (N.of_nat (length leaves) <= max_n)%N) as [Hfit|Hfit].
  2:{ rewrite Ha, decide_False by lia. done. }
  destruct Ha as (ps & -> & Hnum & Hr & Hlen & Htgt). cbn [obind]. rewrite Hnum.
  destruct (decide (t < length leaves)) as [Hin|Hout].
  2:{ rewrite decide_True, decide_False by lia. done. }
  destruct Htgt as (-> & -> & ->). rewrite decide_False, decide_True by lia.
  rewrite walk_in_place_spec; [|lia..|by destruct (ps_stack ps)].
  destruct (walk_peaks_spec hash_pair (proof_capacity max_n) (ps_stack ps) leaves t)
    as (w & -> & -> & Hw); [done..|lia|by apply le_pow2_ilog2|].
  simpl. by rewrite Hw.
Qed.

(** ** Verification *)

Lemma div_ceil_2_of_nat n : div_ceil_2 (N.of_nat n) = N.of_nat (Nat.div2 (S n)).
Proof.
  unfold div_ceil_2. rewrite div2_of_nat, odd_of_nat. destruct (Nat.odd n) eqn:Ho.
  - rewrite div2_S_odd by done. lia.
  - rewrite div2_S_even by (by apply even_of_not_odd). lia.
Qed.

Lemma even_of_nat n : N.even (N.of_nat n) = Nat.even n.
Proof. by rewrite <- N.negb_odd, odd_of_nat, Nat.negb_odd. Qed.

(** One iteration of the loop against a level of the reference tree. *)
Lemma verify_loop_step fuel proof current i pos (l : list H) :
  i < length l -> 2 <= length l ->
  verify_loop (S fuel) proof current (N.of_nat i) pos (N.of_nat (length l)) =
    match sibling l i with
    | None =>
        verify_loop fuel proof current (N.of_nat (Nat.div2 i)) pos
          (N.of_nat (length (next_level hash_pair l)))
    | Some _ =>
        match proof !! pos with
        | None => Ret None
        | Some h =>
            verify_loop fuel proof
              (if Nat.even i then hash_pair current h else hash_pair h current)
              (N.of_nat (Nat.div2 i)) (S pos)
              (N.of_nat (length (next_level hash_pair l)))
        end
    end.
Proof.
  intros Hi Hl. simpl verify_loop. rewrite decide_False by lia.
  rewrite even_of_nat, div_ceil_2_of_nat, div2_of_nat, <- (length_next_level hash_pair).
  assert (Hlast : bool_decide (N.of_nat i = N.of_nat (length l) - 1)%N =
                  bool_decide (S i = length l)) by (apply bool_decide_ext; lia).
  rewrite Hlast. clear Hlast. unfold arr_get.
  destruct (sibling l i) as [b|] eqn:Hs.
  - assert (Hns : ~ (Nat.even i = true /\ S i = length l)).
    { rewrite <- sibling_None by done. congruence. }
    destruct (Nat.even i) eqn:He; simpl.
    + rewrite bool_decide_eq_false_2 by naive_solver. simpl. case_decide.
      * by rewrite lookup_ge_None_2.
      * destruct (lookup_lt_is_Some_2 proof pos) as [h Hh]; [lia|]. by rewrite Hh.
    + case_decide.
      * by rewrite lookup_ge_None_2.
      * destruct (lookup_lt_is_Some_2 proof pos) as [h Hh]; [lia|]. by rewrite Hh.
  - apply sibling_None in Hs as [He HS]; [|done].
    by rewrite He, bool_decide_eq_true_2.
Qed.

Lemma verify_loop_short fuel proof current i pos (l : list H) :
  i < length l -> length l <= 1 ->
  verify_loop (S fuel) proof current (N.of_nat i) pos (N.of_nat (length l)) =
    Ret (Some (current, pos)).
Proof. intros Hi Hl. simpl. by rewrite decide_True by lia. Qed.

Lemma length_next_level_pow2 (l : list H) k :
  2 <= length l -> length l <= 2 ^ S k -> length (next_level hash_pair l) <= 2 ^ k.
Proof.
  intros H2 Hk. rewrite length_next_level. pose proof (div2_cases (S (length l))).
  simpl in Hk. destruct (Nat.even (S (length l))); lia.
Qed.

Lemma next_level_index (l : list H) i :
  i < length l -> Nat.div2 i < length (next_level hash_pair l).
Proof.
  intros Hi. rewrite length_next_level. pose proof (div2_cases i).
  pose proof (div2_cases (S (length l))).
  destruct (Nat.even i), (Nat.even (S (length l))); lia.
Qed.

(** Verification terminates within the bits of the level size. *)
Lemma verify_loop_total k fuel proof current i pos (l : list H) :
  i < length l -> length l <= 2 ^ k -> k < fuel ->
  exists r, verify_loop fuel proof current (N.of_nat i) pos (N.of_nat (length l)) = Ret r.
Proof.
  revert k current i pos l. induction fuel as [|fuel IH]; intros k current i pos l Hi Hk Hf.
  { lia. }
  destruct (decide (length l <= 1)) as [Hs|Hs].
  { rewrite verify_loop_short by done. eauto. }
  destruct k as [|k]; [simpl in Hk; lia|].
  rewrite verify_loop_step by lia.
  pose proof (next_level_index l i Hi). pose proof (length_next_level_pow2 l k ltac:(lia) Hk).
  destruct (sibling l i); [destruct (proof !! pos)|]; eauto; apply (IH k); lia.
Qed.

(** The reference path of a leaf is accepted and used up. *)
Lemma verify_loop_complete k fuel pre x i (l : list H) :
  l !! i = Some x -> length l <= 2 ^ k -> k < fuel ->
  exists root, merkle_root hash_pair l = Some root /\
    verify_loop fuel (pre ++ merkle_path hash_pair l i) x (N.of_nat i) (length pre)
        (N.of_nat (length l)) =
      Ret (Some (root, length pre + length (merkle_path hash_pair l i))).
Proof.
  revert k pre x i l. induction fuel as [|fuel IH]; intros k pre x i l Hx Hk Hf; [lia|].
  pose proof (lookup_lt_Some _ _ _ Hx) as Hi.
  destruct (decide (length l <= 1)) as [Hs|Hs].
  { rewrite verify_loop_short, merkle_path_short, Nat.add_0_r by done.
    destruct l as [|y [|]]; simpl in *; try lia. destruct i; [|done]. simplify_eq/=. eauto. }
  destruct k as [|k]; [simpl in Hk; lia|]. rewrite verify_loop_step by lia.
  pose proof (next_level_lookup hash_pair l i x Hx) as Hnext.
  pose proof (length_next_level_pow2 l k ltac:(lia) Hk) as Hk'.
  rewrite merkle_root_next, merkle_path_next by done.
  destruct (sibling l i) as [b|] eqn:Hsib; simpl.
  - rewrite list_lookup_middle by done.
    destruct (IH k (pre ++ [b]) _ _ _ Hnext Hk' ltac:(lia)) as (root & -> & Hv).
    exists root. split; [done|]. rewrite <- app_assoc, length_app, Nat.add_1_r in Hv.
    rewrite Nat.add_succ_r. exact Hv.
  - apply (IH k pre _ _ _ Hnext Hk'). lia.
Qed.

Lemma path_inputs_skip (l : list H) i x proof :
  i < length l -> 2 <= length l -> sibling l i = None ->
  path_inputs (length (next_level hash_pair l)) (Nat.div2 i) x proof
    ⊆ path_inputs (length l) i x proof.
Proof.
  intros Hi Hl [He Hlast]%sibling_None; [|done].
  pose proof (length_next_level_lt hash_pair l Hl) as Hlt. rewrite length_next_level in *.
  unfold path_inputs at 2. destruct (length l) as [|n] eqn:E; [lia|]. simpl path_inputs_at.
  rewrite He. replace (n <=? i) with true by (symmetry; apply Nat.leb_le; lia).
  apply path_inputs_at_mono. lia.
Qed.

Lemma path_inputs_take (l : list H) i b x h proof :
  i < length l -> 2 <= length l -> sibling l i = Some b ->
  let p := if Nat.even i then (x, h) else (h, x) in
  p ∈ path_inputs (length l) i x (h :: proof) /\
  path_inputs (length (next_level hash_pair l)) (Nat.div2 i) (hash_pair p.1 p.2) proof
    ⊆ path_inputs (length l) i x (h :: proof).
Proof.
  intros Hi Hl Hs p.
  assert (Hns : Nat.even i && (length l <=? S i) = false).
  { apply not_true_iff_false. intros [He Hle%Nat.leb_le]%andb_true_iff.
    assert (sibling l i = None) by (apply sibling_None; [done|split; [done|lia]]).
    congruence. }
  pose proof (length_next_level_lt hash_pair l Hl) as Hlt. rewrite length_next_level in *.
  unfold path_inputs at 1 3. destruct (length l) as [|n] eqn:E; [lia|].
  cbn [path_inputs_at]. rewrite Hns. fold p. split; [by left|].
  unfold path_inputs. etrans; [apply (path_inputs_at_mono _ n); lia|]. by apply list_subseteq_cons.
Qed.

(** Whatever is accepted for the reference root is the leaf and its path, or
    exhibits a collision. *)
Lemma verify_loop_sound k fuel proof current i pos (l : list H) root fin :
  i < length l -> length l <= 2 ^ k -> k < fuel ->
  verify_loop fuel proof current (N.of_nat i) pos (N.of_nat (length l)) =
    Ret (Some (root, fin)) ->
  merkle_root hash_pair l = Some root ->
  (l !! i = Some current /\ drop pos proof = merkle_path hash_pair l i ++ drop fin proof)
  \/ collision_between (tree_inputs hash_pair l) (path_inputs (length l) i current (drop pos proof)).
Proof.
  revert k current i pos l. induction fuel as [|fuel IH]; intros k current i pos l Hi Hk Hf Hv Hroot.
  { lia. }
  destruct (decide (length l <= 1)) as [Hs|Hs].
  { rewrite verify_loop_short in Hv by done. injection Hv as -> ->. left.
    rewrite merkle_path_short by done.
    destruct l as [|y [|]]; simpl in *; try lia. destruct i; [|lia]. by simplify_eq/=. }
  destruct k as [|k]; [simpl in Hk; lia|]. rewrite verify_loop_step in Hv by lia.
  destruct (lookup_lt_is_Some_2 l i Hi) as [x Hx].
  pose proof (next_level_lookup hash_pair l i x Hx) as Hnext.
  pose proof (length_next_level_pow2 l k ltac:(lia) Hk) as Hk'.
  pose proof (next_level_index l i Hi) as Hi'.
  destruct (tree_inputs_next hash_pair l ltac:(lia)) as [Hpi Hti].
  rewrite merkle_root_next in Hroot. rewrite merkle_path_next by done.
  destruct (sibling l i) as [b|] eqn:Hsib; simpl.
  - destruct (proof !! pos) as [h|] eqn:Hh; [|done]. rewrite (drop_S _ h) by done.
    pose proof (path_inputs_take l i b current h (drop (S pos) proof) Hi ltac:(lia) Hsib) as [Hq Hqs].
    destruct (IH k _ _ _ _ Hi' Hk' ltac:(lia) Hv Hroot) as [[Hc Hd]|Hcol].
    + pose proof (sibling_pair_input l i x b Hx Hsib) as Hp%Hpi.
      rewrite Hnext in Hc. destruct (Nat.even i); injection Hc as Hc;
        (edestruct hash_pair_inj_or as [Heq|Hcol]; [exact Hp|exact Hq|exact Hc|..];
          [left; rewrite Hx, Hd; split; congruence|by right]).
    + right. eapply collision_between_mono; [exact Hti|exact Hqs|].
      by destruct (Nat.even i).
  - destruct (IH k _ _ _ _ Hi' Hk' ltac:(lia) Hv Hroot) as [[Hc Hd]|Hcol].
    + left. rewrite Hx, Hd. split; [congruence|done].
    + right. eapply collision_between_mono; [exact Hti|apply path_inputs_skip; auto; lia|exact Hcol].
Qed.

Lemma pow2_64_bound n : (N.of_nat n <= 2 ^ 64)%N -> n <= 2 ^ 64.
Proof. intros Hn. pose proof (of_nat_pow2 64) as He. change (N.of_nat 64) with 64%N in He. lia. Qed.

Lemma verify_returns root proof leaf_index leaf num_leaves :
  (num_leaves <= 2 ^ 64)%N ->
  exists b, verify root proof leaf_index leaf num_leaves = Ret b.
Proof.
  intros Hn. unfold verify. case_decide as Hlt; [eauto|].
  pose proof (verify_loop_total 64 65 proof leaf (N.to_nat leaf_index) 0
    (replicate (N.to_nat num_leaves) leaf)) as Ht.
  rewrite length_replicate, !N2Nat.id in Ht.
  destruct Ht as [r ->]; [lia|apply pow2_64_bound; lia|lia|].
  simpl. destruct r as [[c p]|]; eauto.
Qed.

Lemma verify_accepts_path (l : list H) root i leaf :
  (N.of_nat (length l) <= 2 ^ 64)%N ->
  merkle_root hash_pair l = Some root -> l !! i = Some leaf ->
  verify root (merkle_path hash_pair l i) (N.of_nat i) leaf (N.of_nat (length l)) = Ret true.
Proof.
  intros Hn Hroot Hl. pose proof (lookup_lt_Some _ _ _ Hl). unfold verify.
  rewrite decide_False by lia.
  destruct (verify_loop_complete 64 65 [] leaf i l Hl) as (r & Hr & Hv);
    [by apply pow2_64_bound|lia|].
  simpl app in Hv. simpl length in Hv at 1. rewrite Hv. simpl.
  rewrite !bool_decide_eq_true_2 by congruence. done.
Qed.

Lemma verify_accepts_only_path (l : list H) root i leaf proof :
  (N.of_nat (length l) <= 2 ^ 64)%N ->
  merkle_root hash_pair l = Some root ->
  verify root proof i leaf (N.of_nat (length l)) = Ret true ->
  (l !! N.to_nat i = Some leaf /\ proof = merkle_path hash_pair l (N.to_nat i)) \/
  collision_between (tree_inputs hash_pair l) (path_inputs (length l) (N.to_nat i) leaf proof).
Proof.
  intros Hn Hroot Hv. unfold verify in Hv. case_decide as Hi; [done|].
  destruct (verify_loop 65 proof leaf i 0 (N.of_nat (length l))) as [[[c p]|]|] eqn:Hl; try done.
  simpl in Hv. injection Hv as [Hp Hc]%andb_true_iff.
  apply bool_decide_eq_true in Hp, Hc. subst.
  rewrite <- (N2Nat.id i) in Hl.
  destruct (verify_loop_sound 64 65 proof leaf (N.to_nat i) 0 l root (length proof))
    as [[Hx Hd]|]; [lia|by apply pow2_64_bound|lia|done|done| |by right].
  left. split; [done|]. by rewrite drop_all, app_nil_r in Hd.
Qed.

(** ** Properties *)

(** The stack-based root computation agrees with the tree built level by
    level: the root is [merkle_root] of the leaves, [None] exactly when there are
    no leaves or more than [MAX_N], and no array access is out of bounds. *)
Theorem compute_root_only_correct max_n leaves :
  (max_n <= 2 ^ 63)%N ->
  compute_root_only max_n leaves =
    Ret (if decide (N.of_nat (length leaves) <= max_n)%N
         then merkle_root hash_pair leaves else None).
Proof. apply compute_root_only_spec. Qed.

(** C2. The single-pass root and proof computation yields the reference root and
    exactly the siblings of the target leaf, bottom up, for every target index in
    range, [None] for every other input, and stays within its arrays. *)
Theorem compute_root_and_proof_correct max_n leaves target_index :
  (max_n <= 2 ^ 63)%N ->
  compute_root_and_proof max_n leaves target_index =
    Ret (if decide (N.of_nat (length leaves) <= max_n /\
                    target_index < N.of_nat (length leaves))%N
         then root ← merkle_root hash_pair leaves;
              Some (root, merkle_path hash_pair leaves (N.to_nat target_index))
         else None).
Proof. apply compute_root_and_proof_inner_spec. Qed.

(** Every proof that [compute_root_and_proof] produces is accepted by [verify]
    for the same root, index, leaf and number of leaves. *)
Theorem verify_generated_proof max_n leaves i leaf root proof :
  (max_n <= 2 ^ 63)%N -> leaves !! N.to_nat i = Some leaf ->
  compute_root_and_proof max_n leaves i = Ret (Some (root, proof)) ->
  verify root proof i leaf (N.of_nat (length leaves)) = Ret true.
Proof.
  intros Hmax Hl. unfold compute_root_and_proof.
  rewrite compute_root_and_proof_inner_spec by done. case_decide as Hd; [|done].
  destruct (merkle_root hash_pair leaves) as [r|] eqn:Hr; [|done].
  simpl. intros [= <- <-]. rewrite <- (N2Nat.id i) at 2.
  apply verify_accepts_path; [lia|done|done].
Qed.

(** C1. Against the root of a non-empty list of less than 2^64 leaves, proof verification gives
    a verdict for every index, leaf and proof, and accepts only the leaf at that index with
    exactly its siblings, unless a pair hashed by the verifier collides with a pair hashed in
    the tree. *)
Theorem verify_sound (leaves : list H) root i leaf proof :
  (N.of_nat (length leaves) < 2 ^ 64)%N -> merkle_root hash_pair leaves = Some root ->
  exists b, verify root proof i leaf (N.of_nat (length leaves)) = Ret b /\
    (b = true ->
     (leaves !! N.to_nat i = Some leaf /\ proof = merkle_path hash_pair leaves (N.to_nat i)) \/
     collision_between (tree_inputs hash_pair leaves)
       (path_inputs (length leaves) (N.to_nat i) leaf proof)).
Proof.
  intros Hn Hr. destruct (verify_returns root proof i leaf (N.of_nat (length leaves))) as [b Hb]; [lia|].
  exists b. split; [done|]. intros ->. by apply (verify_accepts_only_path leaves root); [lia| |].
Qed.
End Tree.

(** ** Witnesses *)

Definition sample_leaves : list sym := SymLeaf <$> [1; 2; 3; 4; 5].

Definition sample_root : sym :=
  SymNode (SymNode (SymNode (SymLeaf 1) (SymLeaf 2)) (SymNode (SymLeaf 3) (SymLeaf 4)))
    (SymLeaf 5).

Definition sample_proof : list sym :=
  [SymLeaf 4; SymNode (SymLeaf 1) (SymLeaf 2); SymLeaf 5].

Lemma compute_root_only_correct_witness :
  compute_root_only 6 sample_leaves = Ret (Some sample_root).
Proof. rewrite (compute_root_only_correct 6 sample_leaves); [reflexivity|lia]. Defined.

Lemma compute_root_and_proof_correct_witness :
  compute_root_and_proof 6 sample_leaves 2 = Ret (Some (sample_root, sample_proof)).
Proof. rewrite (compute_root_and_proof_correct 6 sample_leaves 2); [reflexivity|lia]. Defined.

Lemma verify_generated_proof_witness :
  verify sample_root sample_proof 2 (SymLeaf 3) 5 = Ret true.
Proof.
  apply (verify_generated_proof 6 sample_leaves 2 (SymLeaf 3) sample_root sample_proof);
    [lia|reflexivity|vm_compute; reflexivity].
Defined.

Lemma verify_sound_witness :
  exists b, verify sample_root sample_proof 2 (SymLeaf 3) 5 = Ret b /\
    (b = true ->
     (sample_leaves !! 2 = Some (SymLeaf 3) /\
      sample_proof = merkle_path hash_pair sample_leaves 2) \/
     collision_between (tree_inputs hash_pair sample_leaves)
       (path_inputs 5 2 (SymLeaf 3) sample_proof)).
Proof.
  apply (verify_sound sample_leaves sample_root 2 (SymLeaf 3) sample_proof); [simpl; lia|reflexivity].
Defined.
End Unbalanced.
