(* ===== verification/Mmr.v ===== *)
(** * The Merkle Mountain Range

    Model of [crates/shared/ab-merkle-tree/src/mmr.rs].  [MAX_N] is the argument
    [max_n]; a value of [MerkleMountainRange] is the record [mmr], its abstraction
    the list of leaves added so far ([mmr_repr]).  Two states that differ only in
    inactive levels of the stack are equivalent ([mmr_equiv]); the operations
    respect the equivalence. *)

From S2P Require Import Prelude MerkleSpec BinaryCounter ProofWalk Unbalanced.
From stdpp Require Import prelude.
From Stdlib Require Import NArith Lia.

Module Mmr.
Section Range.
Context {H : Type} {hasher : NodeHasher H}.

Record mmr : Type := Mmr {
  num_leaves : N;
  stack : list H
}.

Record mmr_peaks : Type := MmrPeaks {
  peaks_num_leaves : N;
  peaks_hashes : list H
}.

Definition num_peaks (p : mmr_peaks) : nat := count_ones (peaks_num_leaves p).

(** [size_of::<u64>() + OUT_LEN * (max_n.ilog2() as usize + 1)] *)
Definition merkle_mountain_range_bytes_size (max_n : N) : nat := 8 + 32 * (ilog2 max_n + 1).

(** Size of the [repr(C)] struct itself: the counter and the stack. *)
Definition struct_size (max_n : N) : nat := 8 + 32 * Unbalanced.stack_size max_n.

Definition new (max_n : N) : mmr :=
  {| num_leaves := 0; stack := replicate (Unbalanced.stack_size max_n) zero_hash |}.

(** The loop of [from_peaks]; [None] is the early return of [?]. *)
Fixpoint from_peaks_loop (fuel : nat) (stack_bits : N) (peaks : list H) (peaks_offset : nat)
    (stack : list H) : outcome (option (list H)) :=
  match fuel with
  | O => Fault
  | S fuel =>
      if decide (stack_bits = 0%N) then Ret (Some stack)
      else
        let stack_offset := trailing_zeros 64 stack_bits in
        match peaks !! peaks_offset with
        | None => Ret None
        | Some peak =>
            if decide (stack_offset < length stack) then
              from_peaks_loop fuel (clear_bit stack_bits stack_offset) peaks
                (S peaks_offset) (<[stack_offset := peak]> stack)
            else Ret None
        end
  end.

Definition from_peaks (max_n : N) (p : mmr_peaks) : outcome (option mmr) :=
  let! stack :=
    from_peaks_loop 65 (peaks_num_leaves p) (peaks_hashes p) 0
      (replicate (Unbalanced.stack_size max_n) zero_hash) in
  match stack with
  | None => Ret None
  | Some stack => Ret (Some {| num_leaves := peaks_num_leaves p; stack := stack |})
  end.

Definition root (m : mmr) : outcome (option H) :=
  if decide (num_leaves m = 0%N) then Ret None
  else let! root := bag_peaks hash_pair (stack m) (num_leaves m) in Ret (Some root).

(** One iteration of the loop of [peaks]. *)
Definition store_peak (st : list H) (stack_offset : nat) (s : list H * nat)
    : outcome (list H * nat) :=
  let '(peaks, peaks_offset) := s in
  let! item := arr_get st stack_offset in
  let! peaks := arr_set peaks peaks_offset item in
  Ret (peaks, S peaks_offset).

Definition peaks (max_n : N) (m : mmr) : outcome mmr_peaks :=
  let! (hashes, _) :=
    while_bits 65 (num_leaves m) (store_peak (stack m))
      (replicate (Unbalanced.proof_capacity max_n) zero_hash, 0) in
  Ret {| peaks_num_leaves := num_leaves m; peaks_hashes := hashes |}.

Definition add_leaf (max_n : N) (m : mmr) (leaf : H) : outcome (bool * mmr) :=
  if decide (max_n <= num_leaves m)%N then Ret (false, m)
  else
    let! stack := push_leaf hash_pair (stack m) (num_leaves m) leaf in
    Ret (true, {| num_leaves := num_leaves m + 1; stack := stack |}).

(** Leaves added before the capacity is exceeded stay in the range. *)
Fixpoint add_leaves (max_n : N) (m : mmr) (leaves : list H) : outcome (bool * mmr) :=
  match leaves with
  | [] => Ret (true, m)
  | leaf :: leaves =>
      if decide (max_n <= num_leaves m)%N then Ret (false, m)
      else
        let! stack := push_leaf hash_pair (stack m) (num_leaves m) leaf in
        add_leaves max_n {| num_leaves := num_leaves m + 1; stack := stack |} leaves
  end.

Definition add_leaf_and_compute_proof_inner (max_n : N) (m : mmr) (leaf : H)
    : outcome (option (H * list H) * mmr) :=
  if decide (max_n <= num_leaves m)%N then Ret (None, m)
  else
    let cap := Unbalanced.proof_capacity max_n in
    let lowest_active_levels := trailing_ones (num_leaves m) in
    let! (current, proof, position) :=
      target_merge hash_pair cap (take lowest_active_levels (stack m)) leaf []
        (num_leaves m) in
    let! stack := arr_set (stack m) lowest_active_levels current in
    let m := {| num_leaves := num_leaves m + 1; stack := stack |} in
    let! w := walk_peaks hash_pair cap lowest_active_levels stack (num_leaves m) proof position in
    Ret (Some (pw_root w, pw_proof w), m).

(** The allocating and the in-place entry points return the initialised part of
    the proof. *)
Definition add_leaf_and_compute_proof (max_n : N) (m : mmr) (leaf : H)
    : outcome (option (H * list H) * mmr) :=
  add_leaf_and_compute_proof_inner max_n m leaf.

Definition add_leaf_and_compute_proof_in (max_n : N) (m : mmr) (leaf : H)
    : outcome (option (H * list H) * mmr) :=
  add_leaf_and_compute_proof_inner max_n m leaf.

Definition verify (root : H) (proof : list H) (leaf_index : N) (leaf : H)
    (num_leaves : N) : outcome bool :=
  Unbalanced.verify root proof leaf_index leaf num_leaves.

(** ** Representation *)

(** The state represents the leaves added so far. *)
Definition mmr_repr (max_n : N) (l : list H) (m : mmr) : Prop :=
  num_leaves m = N.of_nat (length l) /\
  counter_repr hash_pair l (stack m) /\
  length (stack m) = Unbalanced.stack_size max_n /\
  (N.of_nat (length l) <= max_n)%N.

(** Equality of everything but the inactive levels. *)
#[export] Instance mmr_equiv : Equiv mmr := fun m1 m2 =>
  num_leaves m1 = num_leaves m2 /\ length (stack m1) = length (stack m2) /\
  forall k, k ∈ set_bits (num_leaves m1) -> stack m1 !! k = stack m2 !! k.

#[export] Instance mmr_equivalence : Equivalence (≡@{mmr}).
Proof.
  split.
  - intros m. by split_and!.
  - intros m1 m2 (Hn & Hl & Hk). split_and!; [done..|]. intros k Hin. symmetry. apply Hk.
    by rewrite Hn.
  - intros m1 m2 m3 (Hn & Hl & Hk) (Hn' & Hl' & Hk'). split_and!; [congruence..|].
    intros k Hin. rewrite Hk by done. apply Hk'. by rewrite <- Hn.
Qed.

Lemma new_repr max_n : mmr_repr max_n [] (new max_n).
Proof.
  split_and!; [done|apply counter_repr_replicate|apply length_replicate|simpl; lia].
Qed.

Lemma push_repr max_n l m leaf :
  mmr_repr max_n l m -> (num_leaves m < max_n)%N ->
  exists st, push_leaf hash_pair (stack m) (num_leaves m) leaf = Ret st /\
    mmr_repr max_n (l ++ [leaf]) {| num_leaves := num_leaves m + 1; stack := st |}.
Proof.
  intros (Hn & Hr & Hlen & Hmax) Hlt. rewrite Hn in *.
  destruct (push_leaf_repr hash_pair l (stack m) leaf Hr) as (st & Hp & Hr' & Hlen').
  { rewrite Hlen, <- (Nat2N.id (length l)). by apply Unbalanced.push_fits. }
  exists st. split; [done|]. split_and!; cbn; rewrite ?length_app; simpl; [lia|done|congruence|lia].
Qed.

Lemma add_leaf_spec max_n l m leaf :
  mmr_repr max_n l m ->
  exists m', add_leaf max_n m leaf =
      Ret (bool_decide (N.of_nat (length l) < max_n)%N, m') /\
    mmr_repr max_n (if decide (N.of_nat (length l) < max_n)%N then l ++ [leaf] else l) m'.
Proof.
  intros Hm. pose proof (proj1 Hm) as Hn. unfold add_leaf.
  destruct (decide (N.of_nat (length l) < max_n)%N) as [Hlt|Hge].
  - rewrite decide_False, bool_decide_eq_true_2 by lia.
    destruct (push_repr max_n l m leaf Hm ltac:(lia)) as (st & -> & Hr). eauto.
  - rewrite decide_True, bool_decide_eq_false_2 by lia. eauto.
Qed.

Lemma add_leaves_spec max_n l m leaves :
  mmr_repr max_n l m ->
  exists m', add_leaves max_n m leaves =
      Ret (bool_decide (N.of_nat (length (l ++ leaves)) <= max_n)%N, m') /\
    mmr_repr max_n (take (N.to_nat max_n) (l ++ leaves)) m'.
Proof.
  revert l m. induction leaves as [|leaf leaves IH]; intros l m Hm.
  - pose proof Hm as (_ & _ & _ & Hmax). rewrite app_nil_r, take_ge by lia.
    rewrite bool_decide_eq_true_2 by done. by exists m.
  - simpl add_leaves. pose proof Hm as (Hn & _ & _ & Hmax). case_decide as Hfull.
    + exists m. rewrite bool_decide_eq_false_2 by (rewrite length_app; simpl; lia).
      split; [done|]. rewrite Hn in Hfull.
      by rewrite take_app_le, take_ge by lia.
    + destruct (push_repr max_n l m leaf Hm ltac:(lia)) as (st & -> & Hr). cbn [obind].
      destruct (IH _ _ Hr) as (m' & -> & Hm'). exists m'.
      by rewrite <- app_assoc in Hm' |- *.
Qed.

Lemma mmr_root_spec max_n l m :
  (max_n <= 2 ^ 63)%N -> mmr_repr max_n l m -> root m = Ret (merkle_root hash_pair l).
Proof.
  intros Hmax (Hn & Hr & Hlen & Hfit). unfold root. rewrite Hn.
  case_decide as Hz; [by destruct l|].
  destruct (bag_peaks_spec hash_pair l (stack m) Hr) as (r & -> & ->);
    [by destruct l|lia|done].
Qed.

(** Adding with a proof is adding, and the proof is the path of the new leaf. *)
Lemma add_leaf_and_compute_proof_spec max_n l m leaf :
  (max_n <= 2 ^ 63)%N -> mmr_repr max_n l m ->
  exists m', add_leaf_and_compute_proof_inner max_n m leaf =
      Ret (if decide (N.of_nat (length l) < max_n)%N
           then r ← merkle_root hash_pair (l ++ [leaf]);
                Some (r, merkle_path hash_pair (l ++ [leaf]) (length l))
           else None, m') /\
    mmr_repr max_n (if decide (N.of_nat (length l) < max_n)%N then l ++ [leaf] else l) m'.
Proof.
  intros Hmax Hm. pose proof Hm as (Hn & Hr & Hlen & Hfit).
  unfold add_leaf_and_compute_proof_inner. rewrite Hn.
  destruct (decide (N.of_nat (length l) < max_n)%N) as [Hlt|Hge].
  2:{ rewrite decide_True by lia. eauto. }
  rewrite decide_False by lia.
  destruct (push_repr max_n l m leaf Hm ltac:(lia)) as (st & Hp & Hm').
  pose proof Hm' as (_ & Hr' & Hlen' & Hfit'). simpl in Hr', Hlen'.
  rewrite Hn in Hm', Hp. unfold push_leaf in Hp.
  destruct (climb_stack hash_pair (stack m) st (l ++ [leaf]) (length l)) as [Hcl Hcp];
    [congruence|].
  assert (Hin : length l < length (l ++ [leaf])) by (rewrite length_app; simpl; lia).
  destruct (target_merge_spec hash_pair (Unbalanced.proof_capacity max_n) (stack m) l leaf [])
    as [-> Hk]; [done|..].
  { rewrite Hlen, <- (Nat2N.id (length l)). by apply Unbalanced.push_fits. }
  { simpl. rewrite Hcl. apply climb_length; [done..|]. by apply le_pow2_ilog2. }
  cbn [obind]. rewrite Hp. cbn [obind num_leaves]. simpl app.
  replace (N.of_nat (length l) + 1)%N with (N.of_nat (length (l ++ [leaf]))) in *
    by (rewrite length_app; simpl; lia).
  rewrite <- Hk, Hcl, Hcp.
  destruct (walk_peaks_spec hash_pair (Unbalanced.proof_capacity max_n) st (l ++ [leaf])
    (length l)) as (w & -> & -> & Hw); [done..|lia|by apply le_pow2_ilog2|].
  cbn [obind]. eexists. split; [by rewrite Hw|done].
Qed.

(** ** Peaks *)

(** The walk of [from_peaks_loop] over the active levels. *)
Fixpoint place_peaks (levels : list nat) (hashes : list H) (offset : nat) (st : list H)
    : option (list H) :=
  match levels with
  | [] => Some st
  | k :: levels =>
      peak ← hashes !! offset;
      if decide (k < length st) then place_peaks levels hashes (S offset) (<[k := peak]> st)
      else None
  end.

Lemma from_peaks_loop_fold fuel bits hashes offset st :
  count_ones bits < fuel ->
  from_peaks_loop fuel bits hashes offset st = Ret (place_peaks (set_bits bits) hashes offset st).
Proof.
  revert bits offset st. induction fuel as [|fuel IH]; intros bits offset st Hf; [lia|].
  destruct bits as [|p]; simpl from_peaks_loop; [done|]. rewrite set_bits_lowest. simpl.
  destruct (hashes !! offset) as [peak|]; [|done]. simpl. case_decide; [|done].
  apply IH. rewrite count_ones_clear in Hf. lia.
Qed.

Lemma place_peaks_accepts levels hashes offset st :
  offset <= length hashes ->
  is_Some (place_peaks levels hashes offset st) <->
  Forall (fun k => k < length st) levels /\ offset + length levels <= length hashes.
Proof.
  revert offset st. induction levels as [|k levels IH]; intros offset st Ho; simpl.
  - split; [by intros _; split; [constructor|lia]|eauto].
  - destruct (hashes !! offset) as [peak|] eqn:Hp; simpl.
    + apply lookup_lt_Some in Hp. case_decide as Hk.
      * rewrite IH, length_insert, Forall_cons by lia. intuition lia.
      * rewrite Forall_cons. split; [by intros []|tauto].
    + apply lookup_ge_None in Hp. split; [by intros []|lia].
Qed.

(** Peaks read from the levels of a stack restore those levels. *)
Lemma place_peaks_restores levels hashes offset st st0 :
  Forall (fun k => k < length st) levels -> length st0 = length st ->
  (forall j k, levels !! j = Some k -> hashes !! (offset + j) = st0 !! k) ->
  exists st', place_peaks levels hashes offset st = Some st' /\ length st' = length st /\
    forall k, st' !! k = if decide (k ∈ levels) then st0 !! k else st !! k.
Proof.
  intros Hlv Hlen. revert offset st Hlv Hlen.
  induction levels as [|k levels IH]; intros offset st Hlv Hlen Hh.
  { exists st. split_and!; [done..|]. intros k. rewrite decide_False; [done|].
    apply not_elem_of_nil. }
  apply Forall_cons in Hlv as [Hk Hlv]. simpl.
  pose proof (Hh 0 k eq_refl) as Hpk. rewrite Nat.add_0_r in Hpk.
  destruct (lookup_lt_is_Some_2 st0 k) as [x Hx]; [lia|]. rewrite Hpk, Hx. simpl.
  rewrite decide_True by done.
  destruct (IH (S offset) (<[k := x]> st)) as (st' & -> & Hlen' & Hst').
  { by rewrite length_insert. }
  { by rewrite length_insert. }
  { intros j k' Hj. rewrite <- (Hh (S j) k') by done. f_equal. lia. }
  exists st'. rewrite length_insert in Hlen'. split_and!; [done..|]. intros i. rewrite Hst'.
  destruct (decide (i ∈ levels)) as [Hin|Hout]; [by rewrite decide_True by (by right)|].
  destruct (decide (i = k)) as [->|Hne].
  - rewrite list_lookup_insert_eq, decide_True by (done || by left). done.
  - rewrite list_lookup_insert_ne by done. rewrite decide_False; [done|].
    rewrite elem_of_cons. tauto.
Qed.

Lemma store_peaks_spec st levels hashes offset :
  Forall (fun k => k < length st) levels -> offset + length levels <= length hashes ->
  exists hashes', ofold (store_peak st) levels (hashes, offset) =
      Ret (hashes', offset + length levels) /\ length hashes' = length hashes /\
    (forall j, j < offset -> hashes' !! j = hashes !! j) /\
    (forall j k, levels !! j = Some k -> hashes' !! (offset + j) = st !! k).
Proof.
  intros Hlv. revert hashes offset. induction Hlv as [|k levels Hk _ IH]; intros hashes offset Hfit.
  { exists hashes. simpl. rewrite Nat.add_0_r. by split_and!. }
  simpl in Hfit |- *. destruct (lookup_lt_is_Some_2 st k Hk) as [x Hx].
  rewrite (arr_get_Some _ _ x) by done. simpl. rewrite arr_set_lt by lia. simpl.
  destruct (IH (<[offset := x]> hashes) (S offset)) as (hs & -> & Hlen & Hlow & Hhigh).
  { rewrite length_insert. lia. }
  rewrite length_insert in Hlen. exists hs. rewrite Nat.add_succ_r. split_and!; [done..| |].
  - intros j Hj. rewrite Hlow by lia. apply list_lookup_insert_ne. lia.
  - intros [|j] k' Hj; simpl in Hj.
    + simplify_eq. rewrite Nat.add_0_r, Hlow, list_lookup_insert_eq by lia. done.
    + rewrite <- (Hhigh j k') by done. f_equal. lia.
Qed.

Lemma peaks_num_leaves_eq max_n m p :
  peaks max_n m = Ret p -> peaks_num_leaves p = num_leaves m.
Proof.
  unfold peaks. destruct (while_bits _ _ _ _) as [[hs o]|]; cbn [obind]; [|done].
  intros Hp. by injection Hp as <-.
Qed.

(** What [peaks] and [from_peaks] need of a state. *)
Definition peaks_fit (max_n : N) (m : mmr) : Prop :=
  length (stack m) = Unbalanced.stack_size max_n /\
  (num_leaves m < 2 ^ N.of_nat (Unbalanced.stack_size max_n))%N /\
  count_ones (num_leaves m) <= Unbalanced.proof_capacity max_n.

Lemma peaks_roundtrip_fit max_n m :
  count_ones (num_leaves m) < 65 -> peaks_fit max_n m ->
  exists p m', peaks max_n m = Ret p /\ from_peaks max_n p = Ret (Some m') /\ m' ≡ m.
Proof.
  intros Hc (Hlen & Hlt & Hcap). unfold peaks, from_peaks.
  rewrite while_bits_fold by done. rewrite <- Hlen, <- set_bits_lt in Hlt.
  destruct (store_peaks_spec (stack m) (set_bits (num_leaves m))
    (replicate (Unbalanced.proof_capacity max_n) zero_hash) 0) as (hs & -> & Hl & _ & Hhs).
  { done. }
  { by rewrite length_replicate, length_set_bits. }
  cbn [obind]. exists {| peaks_num_leaves := num_leaves m; peaks_hashes := hs |}.
  cbn [peaks_num_leaves peaks_hashes]. rewrite from_peaks_loop_fold by done.
  destruct (place_peaks_restores (set_bits (num_leaves m)) hs 0
    (replicate (Unbalanced.stack_size max_n) zero_hash) (stack m)) as (st & -> & Hlst & Hst).
  { by rewrite length_replicate, <- Hlen. }
  { by rewrite length_replicate. }
  { done. }
  cbn [obind]. eexists. split; [reflexivity|]. split; [reflexivity|].
  split_and!; cbn [num_leaves stack].
  - done.
  - by rewrite Hlst, length_replicate.
  - intros k Hk. by rewrite Hst, decide_True.
Qed.

Lemma pow2_count_ones k : count_ones (2 ^ N.of_nat k) = 1.
Proof.
  induction k as [|k IH]; [done|]. rewrite Nat2N.inj_succ, N.pow_succ_r'.
  by destruct (2 ^ N.of_nat k)%N.
Qed.

(** Every range with room for two leaves or more can list its peaks. *)
Lemma repr_peaks_fit max_n l m : (2 <= max_n)%N -> mmr_repr max_n l m -> peaks_fit max_n m.
Proof.
  intros H2 (Hn & _ & Hlen & Hmax). unfold peaks_fit, Unbalanced.stack_size, Unbalanced.proof_capacity.
  split; [done|]. rewrite Hn. set (c := ilog2 (next_power_of_two max_n)).
  pose proof (le_pow2_ilog2 (length l) max_n Hmax) as Hle. fold c in Hle.
  assert (Hle' : (N.of_nat (length l) <= 2 ^ N.of_nat c)%N) by (rewrite <- of_nat_pow2; lia).
  split.
  - rewrite Nat2N.inj_succ, N.pow_succ_r'.
    pose proof (N.pow_nonzero 2 (N.of_nat c) ltac:(lia)). lia.
  - destruct (decide (N.of_nat (length l) = 2 ^ N.of_nat c)%N) as [->|Hne].
    + rewrite pow2_count_ones. pose proof (le_pow2_ilog2 2 max_n H2) as H2c. fold c in H2c.
      destruct c; [simpl in H2c; lia|lia].
    + apply count_ones_le. lia.
Qed.

Lemma counter_repr_ext l st st' lvl :
  counter_repr hash_pair l st -> length st = length st' ->
  (forall k, k ∈ set_bits_from lvl (N.of_nat (length l)) -> st !! (k - lvl) = st' !! (k - lvl)) ->
  counter_repr hash_pair l st'.
Proof.
  revert l st' lvl. induction st as [|s st IH]; intros l [|s' st'] lvl Hr Hlen Hk; try done.
  destruct Hr as [Hs Hr]. rewrite set_bits_step, odd_of_nat, div2_of_nat in Hk. split.
  - intros Ho. rewrite Hs by done. rewrite Ho in Hk. specialize (Hk lvl ltac:(by left)).
    by rewrite Nat.sub_diag in Hk.
  - apply (IH _ _ (S lvl)); [done|by injection Hlen|]. rewrite length_pairs. intros k Hin.
    assert (Hlk : k - lvl = S (k - S lvl)).
    { apply elem_of_set_bits in Hin. lia. }
    specialize (Hk k ltac:(apply elem_of_app; by right)). by rewrite Hlk in Hk.
Qed.

(** Equivalent states represent the same leaves, so no operation tells them
    apart. *)
#[export] Instance mmr_repr_proper max_n l : Proper ((≡) ==> iff) (mmr_repr max_n l).
Proof.
  assert (Hdir : forall m1 m2 : mmr, m1 ≡ m2 -> mmr_repr max_n l m1 -> mmr_repr max_n l m2).
  { intros m1 m2 (Hn & Hl & Hk) (Hn1 & Hr & Hlen & Hmax). split_and!; [congruence| |congruence|done].
    eapply (counter_repr_ext l _ _ 0); [done..|]. intros k Hin. rewrite Nat.sub_0_r.
    apply Hk. by rewrite Hn1. }
  intros m1 m2 Heq. split; apply Hdir; by rewrite Heq.
Qed.

#[export] Instance root_proper : Proper ((≡) ==> (=)) root.
Proof.
  intros m1 m2 (Hn & Hl & Hk). unfold root. rewrite <- Hn. case_decide as Hz; [done|].
  unfold bag_peaks. destruct (num_leaves m1) as [|p]; [done|]. rewrite set_bits_lowest in Hk.
  simpl in Hk |- *. unfold arr_get at 1 2. rewrite <- Hk by (by left).
  destruct (stack m1 !! pos_trailing_zeros p) as [x|]; cbn [obind]; [|reflexivity].
  erewrite loop_bits_ext; [reflexivity|].
  intros k a Hin. unfold bag_step, arr_get. by rewrite Hk by (by right).
Qed.

(** ** Histories

    Any sequence of calls, results of the calls dropped; [abstract_op] is the
    effect of a call on the list of leaves. *)
Inductive mmr_op : Type :=
| AddLeaf (leaf : H)
| AddLeaves (leaves : list H)
| AddLeafWithProof (leaf : H).

Definition run_op (max_n : N) (m : mmr) (op : mmr_op) : outcome mmr :=
  match op with
  | AddLeaf leaf => let! (_, m) := add_leaf max_n m leaf in Ret m
  | AddLeaves leaves => let! (_, m) := add_leaves max_n m leaves in Ret m
  | AddLeafWithProof leaf => let! (_, m) := add_leaf_and_compute_proof max_n m leaf in Ret m
  end.

Fixpoint run_ops (max_n : N) (m : mmr) (ops : list mmr_op) : outcome mmr :=
  match ops with
  | [] => Ret m
  | op :: ops => let! m := run_op max_n m op in run_ops max_n m ops
  end.

Definition op_leaves (op : mmr_op) : list H :=
  match op with
  | AddLeaf leaf | AddLeafWithProof leaf => [leaf]
  | AddLeaves leaves => leaves
  end.

Lemma append_bounded max_n (l : list H) x :
  (N.of_nat (length l) <= max_n)%N ->
  (if decide (N.of_nat (length l) < max_n)%N then l ++ [x] else l) =
  take (N.to_nat max_n) (l ++ [x]).
Proof.
  intros Hle. case_decide.
  - by rewrite take_ge by (rewrite length_app; simpl; lia).
  - by rewrite take_app_le, take_ge by lia.
Qed.

Lemma run_op_spec max_n l m op :
  (max_n <= 2 ^ 63)%N -> mmr_repr max_n l m ->
  exists m', run_op max_n m op = Ret m' /\
    mmr_repr max_n (take (N.to_nat max_n) (l ++ op_leaves op)) m'.
Proof.
  intros Hmax Hm. pose proof Hm as (_ & _ & _ & Hle). destruct op as [x|xs|x]; simpl.
  - rewrite <- append_bounded by done.
    destruct (add_leaf_spec max_n l m x Hm) as (m' & -> & Hm'). eauto.
  - destruct (add_leaves_spec max_n l m xs Hm) as (m' & -> & Hm'). eauto.
  - rewrite <- append_bounded by done. unfold add_leaf_and_compute_proof.
    destruct (add_leaf_and_compute_proof_spec max_n l m x Hmax Hm) as (m' & -> & Hm'). eauto.
Qed.

Lemma run_ops_spec max_n l m ops :
  (max_n <= 2 ^ 63)%N -> mmr_repr max_n l m ->
  exists m', run_ops max_n m ops = Ret m' /\
    mmr_repr max_n (take (N.to_nat max_n) (l ++ (ops ≫= op_leaves))) m'.
Proof.
  intros Hmax. revert l m. induction ops as [|op ops IH]; intros l m Hm; simpl.
  { exists m. pose proof Hm as (_ & _ & _ & Hle). rewrite app_nil_r, take_ge by lia. done. }
  destruct (run_op_spec max_n l m op Hmax Hm) as (m' & -> & Hm'). cbn [obind].
  destruct (IH _ _ Hm') as (m'' & -> & Hm''). exists m''. split; [done|].
  rewrite app_assoc. destruct (decide (length (l ++ op_leaves op) <= N.to_nat max_n)) as [Hs|Hs].
  - by rewrite (take_ge (l ++ _)) in Hm''.
  - rewrite (take_app_le (l ++ _)) by lia.
    by rewrite take_app_le, take_take, Nat.min_id in Hm'' by (rewrite length_take; lia).
Qed.

(** ** Properties *)

(** C28. Whatever sequence of [add_leaf], [add_leaves] and
    [add_leaf_and_compute_proof] calls an empty range goes through, no call
    faults, the range holds the first [MAX_N] leaves that were offered, and its
    root is the one [UnbalancedMerkleTree::compute_root_only] computes for them. *)
Theorem mmr_history_refines_unbalanced max_n ops :
  (max_n <= 2 ^ 63)%N ->
  let l := take (N.to_nat max_n) (ops ≫= op_leaves) in
  exists m, run_ops max_n (new max_n) ops = Ret m /\
    num_leaves m = N.of_nat (length l) /\
    root m = Unbalanced.compute_root_only max_n l.
Proof.
  intros Hmax l. destruct (run_ops_spec max_n [] (new max_n) ops Hmax (new_repr max_n))
    as (m & Hrun & Hm). fold l in Hm. pose proof Hm as (Hn & _ & _ & Hle).
  exists m. split_and!; [done..|].
  by rewrite (mmr_root_spec max_n l), Unbalanced.compute_root_only_spec, decide_True by done.
Qed.

(** Adding a leaf with a proof leaves the range in the same state as
    [add_leaf], returns the root and the proof that
    [UnbalancedMerkleTree::compute_root_and_proof] computes for the extended list of
    leaves, and [verify] accepts that proof; it returns nothing exactly when the
    range is full. *)
Theorem mmr_add_leaf_and_compute_proof_correct max_n l m leaf :
  (max_n <= 2 ^ 63)%N -> mmr_repr max_n l m ->
  exists added m', add_leaf max_n m leaf = Ret (added, m') /\
    (if added then
       exists r proof,
         add_leaf_and_compute_proof max_n m leaf = Ret (Some (r, proof), m') /\
         Unbalanced.compute_root_and_proof max_n (l ++ [leaf]) (N.of_nat (length l)) =
           Ret (Some (r, proof)) /\
         root m' = Ret (Some r) /\
         verify r proof (N.of_nat (length l)) leaf (num_leaves m') = Ret true
     else num_leaves m = max_n /\ m' = m /\
          add_leaf_and_compute_proof max_n m leaf = Ret (None, m)).
Proof.
  intros Hmax Hm. pose proof Hm as (Hn & _ & _ & Hle).
  destruct (decide (max_n <= num_leaves m)%N) as [Hfull|Hroom].
  { exists false, m. unfold add_leaf, add_leaf_and_compute_proof, add_leaf_and_compute_proof_inner.
    rewrite !decide_True by done. split_and!; [done|lia|done..]. }
  destruct (push_repr max_n l m leaf Hm ltac:(lia)) as (st & Hp & Hm').
  exists true, {| num_leaves := num_leaves m + 1; stack := st |}.
  unfold add_leaf. rewrite decide_False, Hp by done. split; [done|].
  destruct (add_leaf_and_compute_proof_spec max_n l m leaf Hmax Hm) as (m' & Hadd & _).
  assert (m' = {| num_leaves := num_leaves m + 1; stack := st |}) as ->.
  { revert Hadd. unfold add_leaf_and_compute_proof_inner. rewrite decide_False by done.
    destruct (target_merge _ _ _ _ _ _) as [[[c pr] pos]|] eqn:Ht; [|done]. cbn [obind].
    apply target_merge_carry in Ht as ->. unfold push_leaf in Hp. rewrite Hp. cbn [obind].
    destruct (walk_peaks _ _ _ _ _ _ _); [|done]. by intros [= _ <-]. }
  rewrite decide_True in Hadd by lia.
  destruct (merkle_root hash_pair (l ++ [leaf])) as [r|] eqn:Hr.
  2:{ by apply merkle_root_None in Hr; destruct l. }
  pose proof Hm' as (Hn' & _ & _ & Hle'). simpl in Hn'.
  exists r, (merkle_path hash_pair (l ++ [leaf]) (length l)). split_and!.
  - exact Hadd.
  - unfold Unbalanced.compute_root_and_proof.
    rewrite Unbalanced.compute_root_and_proof_inner_spec, decide_True, Hr, Nat2N.id
      by (done || lia). done.
  - by rewrite (mmr_root_spec max_n (l ++ [leaf])), Hr.
  - cbn [num_leaves]. rewrite Hn'. apply Unbalanced.verify_accepts_path; [lia|done|].
    by rewrite list_lookup_middle.
Qed.

(** For [MAX_N >= 2], the peaks of a range rebuild it: [from_peaks] accepts
    what [peaks] returns and yields a state with the same leaves, equal up to
    inactive levels. *)
Theorem mmr_peaks_roundtrip max_n l m :
  (2 <= max_n <= 2 ^ 63)%N -> mmr_repr max_n l m ->
  exists p m', peaks max_n m = Ret p /\ num_peaks p = count_ones (num_leaves m) /\
    from_peaks max_n p = Ret (Some m') /\ m' ≡ m /\
    mmr_repr max_n l m' /\ root m' = root m.
Proof.
  intros [H2 Hmax] Hm. pose proof Hm as (Hn & _ & _ & Hle).
  destruct (peaks_roundtrip_fit max_n m) as (p & m' & Hp & Hfp & Heq).
  { pose proof (count_ones_le (num_leaves m) 64 ltac:(change (N.of_nat 64) with 64%N; lia)). lia. }
  { by eapply repr_peaks_fit. }
  exists p, m'. split_and!; [done| |done..|by rewrite Heq|by rewrite Heq].
  unfold num_peaks. by rewrite (peaks_num_leaves_eq _ _ _ Hp).
Qed.

(** [from_peaks] never faults and accepts exactly the inputs whose number of
    leaves fits the levels of the stack and has no more peaks than were given; in
    particular it does not compare the number of leaves with [MAX_N]. *)
Theorem mmr_from_peaks_accepts max_n p :
  (peaks_num_leaves p < 2 ^ 64)%N ->
  exists r, from_peaks max_n p = Ret r /\
    (is_Some r <->
      (peaks_num_leaves p < 2 ^ N.of_nat (Unbalanced.stack_size max_n))%N /\
      num_peaks p <= length (peaks_hashes p)).
Proof.
  intros Hlt. unfold from_peaks. rewrite from_peaks_loop_fold.
  2:{ pose proof (count_ones_le _ 64 Hlt). lia. }
  cbn [obind].
  pose proof (place_peaks_accepts (set_bits (peaks_num_leaves p)) (peaks_hashes p) 0
    (replicate (Unbalanced.stack_size max_n) zero_hash) ltac:(lia)) as Hacc.
  rewrite length_replicate, set_bits_lt, length_set_bits in Hacc. unfold num_peaks.
  destruct (place_peaks _ _ _ _) as [st|]; eexists; (split; [reflexivity|]); rewrite <- Hacc;
    split; intros [? ?]; (done || eauto).
Qed.

(** With [MAX_N = 1] the array of peaks is empty, so [peaks] of a range that
    holds its only leaf writes outside of it. *)
Theorem mmr_peaks_single_leaf_out_of_bounds leaf :
  (let! (_, m) := add_leaf 1 (new 1) leaf in peaks 1 m) = Fault.
Proof. done. Qed.
End Range.

Arguments mmr : clear implicits.
Arguments mmr_peaks : clear implicits.

(** The byte image declared for a range has the size of the struct exactly
    when [MAX_N] is a power of two; otherwise it is one hash short, so [as_bytes]
    cuts off the highest level and [from_bytes] reads past its argument. *)
Theorem mmr_bytes_size_exact max_n :
  (0 < max_n)%N ->
  struct_size max_n =
    merkle_mountain_range_bytes_size max_n +
      if decide (max_n = next_power_of_two max_n) then 0 else 32.
Proof.
  intros Hpos. unfold struct_size, merkle_mountain_range_bytes_size, Unbalanced.stack_size,
    ilog2, next_power_of_two. rewrite N.log2_pow2 by lia.
  pose proof (N.log2_log2_up_exact max_n Hpos) as Hex. case_decide as Hd.
  - assert (N.log2 max_n = N.log2_up max_n); [|lia].
    apply Hex. by exists (N.log2_up max_n).
  - pose proof (N.le_log2_log2_up max_n). pose proof (N.le_log2_up_succ_log2 max_n).
    assert (N.log2 max_n <> N.log2_up max_n); [|lia].
    intros He. apply Hd. destruct (proj1 Hex He) as [b ->].
    by rewrite N.log2_up_pow2 by lia.
Qed.

(** ** Witnesses *)

Definition sample_leaf (n : nat) : sym := SymLeaf n.

Definition sample_mmr : mmr sym :=
  {| num_leaves := 3;
     stack := [sample_leaf 3; SymNode (sample_leaf 1) (sample_leaf 2); SymLeaf 0; SymLeaf 0] |}.

Lemma sample_mmr_repr : mmr_repr 5 (SymLeaf <$> [1; 2; 3]) sample_mmr.
Proof. split_and!; vm_compute; (done || by intros). Defined.

Lemma mmr_history_refines_unbalanced_witness :
  exists m, run_ops 4 (new 4) [AddLeaf (SymLeaf 1); AddLeaves [SymLeaf 2; SymLeaf 3];
      AddLeafWithProof (SymLeaf 4); AddLeaf (SymLeaf 5)] = Ret m /\
    num_leaves m = 4%N /\
    root m = Unbalanced.compute_root_only 4 (SymLeaf <$> [1; 2; 3; 4]).
Proof.
  apply (mmr_history_refines_unbalanced 4 [AddLeaf (SymLeaf 1); AddLeaves [SymLeaf 2; SymLeaf 3];
      AddLeafWithProof (SymLeaf 4); AddLeaf (SymLeaf 5)]). lia.
Defined.

Lemma mmr_add_leaf_and_compute_proof_correct_witness :
  exists added m', add_leaf 5 sample_mmr (SymLeaf 4) = Ret (added, m') /\
    (if added then
       exists r proof,
         add_leaf_and_compute_proof 5 sample_mmr (SymLeaf 4) = Ret (Some (r, proof), m') /\
         Unbalanced.compute_root_and_proof 5 ((SymLeaf <$> [1; 2; 3]) ++ [SymLeaf 4]) 3 =
           Ret (Some (r, proof)) /\
         root m' = Ret (Some r) /\
         verify r proof 3 (SymLeaf 4) (num_leaves m') = Ret true
     else num_leaves sample_mmr = 5%N /\ m' = sample_mmr /\
          add_leaf_and_compute_proof 5 sample_mmr (SymLeaf 4) = Ret (None, sample_mmr)).
Proof.
  exact (mmr_add_leaf_and_compute_proof_correct 5 (SymLeaf <$> [1; 2; 3]) sample_mmr (SymLeaf 4)
    ltac:(lia) sample_mmr_repr).
Defined.

Lemma mmr_peaks_roundtrip_witness :
  exists p m', peaks 5 sample_mmr = Ret p /\ num_peaks p = 2 /\
    from_peaks 5 p = Ret (Some m') /\ m' ≡ sample_mmr /\
    mmr_repr 5 (SymLeaf <$> [1; 2; 3]) m' /\ root m' = root sample_mmr.
Proof.
  apply (mmr_peaks_roundtrip 5 (SymLeaf <$> [1; 2; 3]) sample_mmr); [lia|apply sample_mmr_repr].
Defined.

Lemma mmr_from_peaks_accepts_witness :
  let p := {| peaks_num_leaves := 12; peaks_hashes := SymLeaf <$> [1; 2; 3] |} in
  exists r, from_peaks 5 p = Ret r /\
    (is_Some r <-> (12 < 2 ^ 4)%N /\ num_peaks p <= 3).
Proof.
  exact (mmr_from_peaks_accepts 5
    {| peaks_num_leaves := 12; peaks_hashes := SymLeaf <$> [1; 2; 3] |} eq_refl).
Defined.

Lemma mmr_bytes_size_exact_witness :
  struct_size 3 = merkle_mountain_range_bytes_size 3 + 32.
Proof. apply (mmr_bytes_size_exact 3). lia. Defined.
End Mmr.
