(* ===== verification/Balanced.v ===== *)
(** * The balanced Merkle tree

    Model of [crates/shared/ab-merkle-tree/src/balanced.rs] and of [hash_pairs] of
    the crate root.  The constant [N] is the argument [n]; the array of inner nodes
    is a list; reading an uninitialised or out-of-range element is [Fault].

    The batched root computation keeps a stack of vectors of 16 hashes, an instance
    of the binary counter of [BinaryCounter] with concatenate-and-hash as its
    combiner. *)

From S2P Require Import Prelude Slices MerkleSpec BinaryCounter ProofWalk Unbalanced.
From stdpp Require Import prelude.
From Stdlib Require Import NArith Lia.

Lemma concat_pairs {A} (op : A -> A -> A) cs :
  Forall (fun c => Nat.even (length c) = true) cs -> concat (pairs op <$> cs) = pairs op (concat cs).
Proof.
  induction 1 as [|c cs Hc _ IH]; [done|]. csimpl. by rewrite pairs_app_even, IH.
Qed.

(** ** Levels of a tree with a power of two leaves *)

Lemma even_double n : Nat.even (2 * n) = true.
Proof. apply Nat.even_spec. by exists n. Qed.

Lemma half_double n : 2 * n / 2 = n.
Proof. rewrite Nat.mul_comm. by apply Nat.div_mul. Qed.

Lemma length_pairs_pow2 {A} (op : A -> A -> A) l k :
  length l = 2 ^ S k -> length (pairs op l) = 2 ^ k.
Proof. intros Hl. by rewrite length_pairs, Hl, Nat.pow_succ_r', Nat.div2_double. Qed.

Lemma next_level_pow2 {A} (op : A -> A -> A) l k :
  length l = 2 ^ S k -> next_level op l = pairs op l.
Proof. intros Hl. apply next_level_even. by rewrite Hl, Nat.pow_succ_r', even_double. Qed.

Lemma merkle_root_pow2 {A} (op : A -> A -> A) l k :
  length l = 2 ^ S k -> merkle_root op l = merkle_root op (pairs op l).
Proof. intros Hl. by rewrite merkle_root_next, (next_level_pow2 op l k). Qed.

(** The inner nodes of a tree, level by level from the leaves up. *)
Fixpoint inner_nodes {A} (op : A -> A -> A) (k : nat) (l : list A) : list A :=
  match k with
  | O => []
  | S k => pairs op l ++ inner_nodes op k (pairs op l)
  end.

Lemma length_inner_nodes {A} (op : A -> A -> A) k l :
  length l = 2 ^ k -> S (length (inner_nodes op k l)) = 2 ^ k.
Proof.
  revert l. induction k as [|k IH]; intros l Hl; [done|]. simpl inner_nodes.
  pose proof (length_pairs_pow2 op l k Hl) as Hp. rewrite length_app.
  specialize (IH _ Hp). simpl. lia.
Qed.

Lemma last_inner_nodes {A} (op : A -> A -> A) k l :
  length l = 2 ^ k ->
  merkle_root op l = match last (inner_nodes op k l) with Some r => Some r | None => last l end.
Proof.
  revert l. induction k as [|k IH]; intros l Hl.
  - destruct l as [|x [|]]; simpl in *; try done; lia.
  - rewrite (merkle_root_pow2 op l k) by done. pose proof (length_pairs_pow2 op l k Hl) as Hp.
    rewrite (IH _ Hp). simpl. rewrite last_app.
    destruct (last (inner_nodes op k (pairs op l))); [done|].
    destruct (last (pairs op l)) eqn:E; [done|]. apply last_None in E. rewrite E in Hp.
    simpl in Hp. pose proof (Nat.pow_nonzero 2 k). lia.
Qed.

Module Balanced.
Section Tree.
Context {H : Type} {hasher : NodeHasher H}.

Definition BATCH_HASH_NUM_BLOCKS : nat := 16.
Definition BATCH_HASH_NUM_LEAVES : nat := 32.

Definition compute_root_only_large_stack_size (n : nat) : nat :=
  if decide (n < BATCH_HASH_NUM_LEAVES) then 1
  else Nat.log2 (n / BATCH_HASH_NUM_LEAVES) + 1.

(** [hash_pairs::<NUM_BLOCKS, NUM_LEAVES>], with its [assert_eq!]. *)
Definition hash_pairs (num_blocks : nat) (nodes : list H) : outcome (list H) :=
  if decide (length nodes = 2 * num_blocks) then Ret (pairs hash_pair nodes) else Fault.

(** The inner nodes of one level: in batches when the level allows it. *)
Definition hash_level (num_pairs : nat) (level_hashes : list H) : outcome (list H) :=
  let! parent_hashes :=
    if decide (num_pairs mod BATCH_HASH_NUM_BLOCKS = 0) then
      let! hashes :=
        omapM (hash_pairs BATCH_HASH_NUM_BLOCKS) (as_chunks BATCH_HASH_NUM_LEAVES level_hashes) in
      Ret (take num_pairs (concat hashes))
    else Ret (take num_pairs (pairs hash_pair level_hashes)) in
  if decide (length parent_hashes = num_pairs) then Ret parent_hashes else Fault.

(** The [while level_hashes.len() > 1] loop; [remaining] is the length of the part
    of the array that is not assigned to a level yet, the result what has been
    written. *)
Fixpoint init_levels (fuel remaining : nat) (level_hashes : list H) : outcome (list H) :=
  match fuel with
  | O => Fault
  | S fuel =>
      if decide (length level_hashes <= 1) then Ret []
      else
        let num_pairs := length level_hashes / 2 in
        if decide (remaining < num_pairs) then Fault
        else
          let! parent_hashes := hash_level num_pairs level_hashes in
          let! rest := init_levels fuel (remaining - num_pairs) parent_hashes in
          Ret (parent_hashes ++ rest)
  end.

Record tree : Type := Tree {
  tree_leaves : list H;
  tree_nodes : list H
}.

(** [init_internal] fills the array, which [new] then takes as initialised. *)
Definition init_internal (n : nat) (leaves : list H) : outcome (list H) :=
  let! nodes := init_levels (S n) (n - 1) leaves in
  if decide (length nodes = n - 1) then Ret nodes else Fault.

Definition new (n : nat) (leaves : list H) : outcome tree :=
  let! nodes := init_internal n leaves in
  Ret {| tree_leaves := leaves; tree_nodes := nodes |}.

Definition root (t : tree) : outcome H :=
  match last (tree_nodes t) with
  | Some r => Ret r
  | None => match last (tree_leaves t) with Some r => Ret r | None => Fault end
  end.

(** [hash_pairs::<16, _>] of a stack level followed by the current hashes. *)
Definition combine_batches (parent current : list H) : outcome (list H) :=
  hash_pairs BATCH_HASH_NUM_BLOCKS (parent ++ current).

Fixpoint merge_batches (parents : list (list H)) (current : list H) : outcome (list H) :=
  match parents with
  | [] => Ret current
  | parent :: parents =>
      let! current := combine_batches parent current in merge_batches parents current
  end.

Fixpoint absorb_chunks (num_chunks : N) (chunks : list (list H)) (stack : list (list H))
    : outcome (list (list H)) :=
  match chunks with
  | [] => Ret stack
  | chunk_leaves :: chunks =>
      let! current := hash_pairs BATCH_HASH_NUM_BLOCKS chunk_leaves in
      let lowest_active_levels := trailing_ones num_chunks in
      if decide (length stack < lowest_active_levels) then Fault
      else
        let! current := merge_batches (take lowest_active_levels stack) current in
        let! stack := arr_set stack lowest_active_levels current in
        absorb_chunks (num_chunks + 1) chunks stack
  end.

(** [let [root] = ...] *)
Definition single (l : list H) : outcome H :=
  match l with [x] => Ret x | _ => Fault end.

(** Repeated halving with [hash_pairs], from [num_blocks] pairs down to the root. *)
Fixpoint collapse (sizes : list nat) (hashes : list H) : outcome H :=
  match sizes with
  | [] => single hashes
  | num_blocks :: sizes =>
      let! hashes := hash_pairs num_blocks hashes in collapse sizes hashes
  end.

Definition compute_root_only (n : nat) (leaves : list H) : outcome H :=
  match n with
  | 2 => collapse [1] leaves
  | 4 => collapse [2; 1] leaves
  | 8 => collapse [4; 2; 1] leaves
  | 16 => collapse [8; 4; 2; 1] leaves
  | _ =>
      if decide (BATCH_HASH_NUM_LEAVES <= n) then
        let size := compute_root_only_large_stack_size n in
        let! stack :=
          absorb_chunks 0 (as_chunks BATCH_HASH_NUM_LEAVES leaves)
            (replicate size (replicate BATCH_HASH_NUM_BLOCKS zero_hash)) in
        let! hashes := arr_get stack (size - 1) in
        collapse [8; 4; 2; 1] hashes
      else Fault
  end.

(** [x ^ 1] *)
Definition flip (x : nat) : nat := Nat.lxor x 1.

Record proofs_iterator : Type := ProofsIterator {
  it_leaves : list H;
  it_tree : list H;
  it_leaf_index : nat;
  it_len : nat
}.

Definition all_proofs (n : nat) (t : tree) : proofs_iterator :=
  {| it_leaves := tree_leaves t; it_tree := tree_nodes t; it_leaf_index := 0; it_len := n |}.

(** The loop over the [count] elements of [shared_proof]. *)
Fixpoint shared_proof (count : nat) (tree_hashes : list H)
    (parent_position parent_level_size : nat) : outcome (list H) :=
  match count with
  | O => Ret []
  | S count =>
      let! other_hash := arr_get tree_hashes (flip parent_position) in
      if decide (length tree_hashes < parent_level_size) then Fault
      else
        let! rest :=
          shared_proof count (drop parent_level_size tree_hashes) (parent_position / 2)
            (parent_level_size / 2) in
        Ret (other_hash :: rest)
  end.

Definition next (n : nat) (it : proofs_iterator)
    : outcome (option (list H) * proofs_iterator) :=
  if decide (it_len it = 0) then Ret (None, it)
  else
    let index := it_leaf_index it in
    let it := {| it_leaves := it_leaves it; it_tree := it_tree it;
                 it_leaf_index := S index; it_len := it_len it - 1 |} in
    let! sibling_hash := arr_get (it_leaves it) (flip index) in
    if decide (Nat.log2 n = 0) then Fault
    else
      let! shared := shared_proof (Nat.log2 n - 1) (it_tree it) (index / 2) (n / 2) in
      Ret (Some (sibling_hash :: shared), it).

Definition count (it : proofs_iterator) : nat := it_len it.

Definition it_last (n : nat) (it : proofs_iterator) : outcome (option (list H)) :=
  if decide (it_len it = 0) then Ret None
  else
    let! (item, _) :=
      next n {| it_leaves := it_leaves it; it_tree := it_tree it;
                it_leaf_index := n - 1; it_len := 1 |} in
    Ret item.

(** [Ok(())] is [None], [Err(rest)] is [Some rest]. *)
Definition advance_by (it : proofs_iterator) (k : nat) : option nat * proofs_iterator :=
  let advance := Nat.min k (it_len it) in
  (if decide (k - advance = 0) then None else Some (k - advance),
   {| it_leaves := it_leaves it; it_tree := it_tree it;
      it_leaf_index := it_leaf_index it + advance; it_len := it_len it - advance |}).

Definition nth (n : nat) (it : proofs_iterator) (k : nat)
    : outcome (option (list H) * proofs_iterator) :=
  let (res, it) := advance_by it k in
  match res with
  | None => next n it
  | Some _ => Ret (None, it)
  end.

(** Driving the iterator to its end. *)
Fixpoint collect (fuel n : nat) (it : proofs_iterator) : outcome (list (list H)) :=
  match fuel with
  | O => Fault
  | S fuel =>
      let! (item, it) := next n it in
      match item with
      | None => Ret []
      | Some proof => let! rest := collect fuel n it in Ret (proof :: rest)
      end
  end.

Definition verify (n : nat) (root : H) (proof : list H) (leaf_index : nat) (leaf : H) : bool :=
  if decide (n <= leaf_index) then false
  else
    let '(computed_root, _) :=
      foldl (fun '(current, position) hash =>
               (if Nat.even position then hash_pair current hash else hash_pair hash current,
                position / 2)) (leaf, leaf_index) proof in
    bool_decide (root = computed_root).

(** ** Building the tree *)

Lemma hash_pairs_Ret num_blocks (l : list H) :
  length l = 2 * num_blocks -> hash_pairs num_blocks l = Ret (pairs hash_pair l).
Proof. intros. unfold hash_pairs. by rewrite decide_True. Qed.

Lemma hash_chunks m (l : list H) :
  length l = 32 * m ->
  omapM (hash_pairs 16) (as_chunks 32 l) = Ret (pairs hash_pair <$> as_chunks 32 l) /\
  concat (pairs hash_pair <$> as_chunks 32 l) = pairs hash_pair l.
Proof.
  intros Hl. destruct (as_chunks_spec 32 m l ltac:(lia) Hl) as (Hc & _ & Hlen). split.
  - apply omapM_Ret. eapply Forall_impl; [exact Hlen|]. intros c Hcl. by apply hash_pairs_Ret.
  - rewrite concat_pairs; [by rewrite Hc|]. eapply Forall_impl; [exact Hlen|].
    intros c Hcl. by rewrite Hcl.
Qed.

Lemma hash_level_spec num_pairs (l : list H) :
  length l = 2 * num_pairs -> hash_level num_pairs l = Ret (pairs hash_pair l).
Proof.
  intros Hl. assert (Hp : length (pairs hash_pair l) = num_pairs).
  { by rewrite length_pairs, Hl, Nat.div2_double. }
  unfold hash_level. case_decide as Hm.
  - apply Nat.Div0.div_exact in Hm. unfold BATCH_HASH_NUM_BLOCKS, BATCH_HASH_NUM_LEAVES in *.
    destruct (hash_chunks (num_pairs / 16) l ltac:(lia)) as [-> Hc]. simpl.
    rewrite Hc, take_ge by lia. by rewrite decide_True.
  - simpl. rewrite take_ge by lia. by rewrite decide_True.
Qed.

Lemma init_levels_spec k fuel remaining (l : list H) :
  length l = 2 ^ k -> k < fuel -> 2 ^ k - 1 <= remaining ->
  init_levels fuel remaining l = Ret (inner_nodes hash_pair k l).
Proof.
  revert fuel remaining l. induction k as [|k IH]; intros [|fuel] remaining l Hl Hf Hr; try lia.
  - simpl. simpl in Hl. by rewrite decide_True by lia.
  - pose proof (Nat.pow_nonzero 2 k ltac:(lia)). rewrite Nat.pow_succ_r' in *.
    cbn [init_levels]. rewrite decide_False by lia.
    rewrite Hl, half_double. rewrite decide_False by lia.
    rewrite hash_level_spec by done. simpl.
    rewrite IH; [done| |lia..]. by apply length_pairs_pow2; rewrite Nat.pow_succ_r'.
Qed.

Lemma pow2_gt k : k < 2 ^ k.
Proof. apply Nat.pow_gt_lin_r. lia. Qed.

Lemma new_spec k (leaves : list H) :
  length leaves = 2 ^ k ->
  new (2 ^ k) leaves =
    Ret {| tree_leaves := leaves; tree_nodes := inner_nodes hash_pair k leaves |}.
Proof.
  intros Hl. unfold new, init_internal. pose proof (pow2_gt k).
  rewrite (init_levels_spec k) by lia. simpl.
  pose proof (length_inner_nodes hash_pair k leaves Hl). by rewrite decide_True by lia.
Qed.

Lemma tree_root_spec k (leaves : list H) :
  length leaves = 2 ^ k ->
  (let! t := new (2 ^ k) leaves in let! r := root t in Ret (Some r)) =
    Ret (merkle_root hash_pair leaves).
Proof.
  intros Hl. rewrite new_spec by done. unfold root. simpl.
  rewrite (last_inner_nodes hash_pair k leaves Hl).
  destruct (last (inner_nodes hash_pair k leaves)); [done|].
  destruct (last leaves) eqn:E; [done|]. apply last_None in E. subst.
  simpl in Hl. pose proof (Nat.pow_nonzero 2 k). lia.
Qed.

(** ** Proofs *)

Lemma lxor_double_1 j : Nat.lxor (2 * j) 1 = S (2 * j).
Proof. rewrite <- Nat.add_nocarry_lxor; [lia|]. by rewrite Nat.land_even_l, Nat.land_0_r. Qed.

Lemma flip_sibling (l : list H) i : sibling l i = l !! flip i.
Proof.
  unfold sibling, flip. destruct (Nat.even i) eqn:He.
  - apply Nat.even_spec in He as [j ->]. by rewrite lxor_double_1.
  - assert (Ho : Nat.odd i = true) by (by rewrite <- Nat.negb_even, He).
    apply Nat.odd_spec in Ho as [j ->]. rewrite Nat.add_1_r, <- lxor_double_1 at 1.
    rewrite Nat.add_1_r, <- (lxor_double_1 j), Nat.lxor_assoc, Nat.lxor_nilpotent, Nat.lxor_0_r.
    by rewrite lxor_double_1.
Qed.

Lemma sibling_pow2 (l : list H) k i :
  length l = 2 ^ S k -> i < length l -> exists s, l !! flip i = Some s /\ sibling l i = Some s.
Proof.
  intros Hl Hi. rewrite <- flip_sibling.
  destruct (sibling l i) as [s|] eqn:Hs; [by exists s|].
  apply sibling_None in Hs as [He Hlast]; [|done].
  rewrite Hl, Nat.pow_succ_r' in Hlast. apply Nat.even_spec in He as [j ->]. lia.
Qed.

Lemma path_pow2 (l : list H) k i :
  length l = 2 ^ S k -> i < length l ->
  exists s, l !! flip i = Some s /\
    merkle_path hash_pair l i = s :: merkle_path hash_pair (pairs hash_pair l) (i / 2).
Proof.
  intros Hl Hi. destruct (sibling_pow2 l k i Hl Hi) as (s & Hf & Hs). exists s. split; [done|].
  by rewrite merkle_path_next, Hs, (next_level_pow2 hash_pair l k), Nat.div2_div.
Qed.

Lemma half_lt_pow2 i k : i < 2 ^ S k -> i / 2 < 2 ^ k.
Proof. intros Hi. apply Nat.Div0.div_lt_upper_bound. by rewrite <- Nat.pow_succ_r'. Qed.

Lemma shared_proof_spec k (l : list H) i :
  length l = 2 ^ k -> i < length l ->
  shared_proof k (l ++ inner_nodes hash_pair k l) i (2 ^ k) = Ret (merkle_path hash_pair l i).
Proof.
  revert l i. induction k as [|k IH]; intros l i Hl Hi.
  { simpl. by rewrite merkle_path_short by (rewrite Hl; simpl; lia). }
  destruct (path_pow2 l k i Hl Hi) as (s & Hf & ->).
  cbn [shared_proof]. unfold arr_get. rewrite (lookup_app_l_Some _ _ _ s) by done. cbn [obind].
  rewrite length_app, decide_False by lia. rewrite drop_app_length' by done.
  pose proof (length_pairs_pow2 hash_pair l k Hl) as Hp.
  rewrite Nat.pow_succ_r', half_double. simpl inner_nodes. rewrite IH; [done|done|].
  rewrite Hp. apply half_lt_pow2. by rewrite <- Hl.
Qed.

(** What an iterator over the proofs of a given tree looks like. *)
Definition it_repr (k : nat) (leaves : list H) (it : proofs_iterator) : Prop :=
  it_leaves it = leaves /\ it_tree it = inner_nodes hash_pair k leaves /\
  it_leaf_index it + it_len it = 2 ^ k.

Definition it_at (k : nat) (leaves : list H) (i : nat) : proofs_iterator :=
  {| it_leaves := leaves; it_tree := inner_nodes hash_pair k leaves;
     it_leaf_index := i; it_len := 2 ^ k - i |}.

Lemma it_repr_at k leaves it :
  it_repr k leaves it <-> it_leaf_index it <= 2 ^ k /\ it = it_at k leaves (it_leaf_index it).
Proof.
  destruct it as [ls tr i len]. unfold it_repr, it_at. simpl. split.
  - intros (-> & -> & Hi). split; [lia|]. f_equal. lia.
  - intros [Hi [= -> -> Hlen]]. split_and!; [done..|lia].
Qed.

Lemma next_at k leaves i :
  length leaves = 2 ^ S k -> i < 2 ^ S k ->
  next (2 ^ S k) (it_at (S k) leaves i) =
    Ret (Some (merkle_path hash_pair leaves i), it_at (S k) leaves (S i)).
Proof.
  intros Hl Hi. unfold next. cbn [it_at it_len it_leaf_index it_leaves it_tree].
  rewrite decide_False by lia. rewrite <- Hl in Hi.
  destruct (path_pow2 leaves k i Hl Hi) as (s & Hf & ->).
  unfold arr_get. rewrite Hf. cbn [obind]. rewrite Nat.log2_pow2 by lia.
  rewrite decide_False by lia. replace (S k - 1) with k by lia. rewrite Nat.pow_succ_r', half_double.
  cbn [inner_nodes]. rewrite shared_proof_spec.
  - cbn [obind]. unfold it_at. cbn [inner_nodes]. do 3 f_equal. rewrite Nat.pow_succ_r'. lia.
  - by apply length_pairs_pow2.
  - rewrite (length_pairs_pow2 hash_pair leaves k Hl). apply half_lt_pow2. by rewrite <- Hl.
Qed.

Lemma next_end k leaves :
  next (2 ^ k) (it_at k leaves (2 ^ k)) = Ret (None, it_at k leaves (2 ^ k)).
Proof. unfold next. cbn [it_at it_len]. by rewrite decide_True by lia. Qed.

Lemma collect_at k leaves i fuel :
  length leaves = 2 ^ S k -> i <= 2 ^ S k -> 2 ^ S k - i < fuel ->
  collect fuel (2 ^ S k) (it_at (S k) leaves i) =
    Ret (merkle_path hash_pair leaves <$> seq i (2 ^ S k - i)).
Proof.
  intros Hl. revert i. induction fuel as [|fuel IH]; intros i Hi Hf; [lia|].
  cbn [collect]. destruct (decide (i = 2 ^ S k)) as [->|Hne].
  - rewrite next_end, Nat.sub_diag. done.
  - rewrite next_at by (done || lia). cbn [obind]. rewrite IH by lia. cbn [obind].
    replace (2 ^ S k - i) with (S (2 ^ S k - S i)) by lia. done.
Qed.

Lemma advance_by_at k leaves i j :
  i <= 2 ^ k ->
  advance_by (it_at k leaves i) j =
    (if decide (i + j <= 2 ^ k) then None else Some (i + j - 2 ^ k),
     it_at k leaves (Nat.min (i + j) (2 ^ k))).
Proof.
  intros Hi. unfold advance_by, it_at. cbn [it_len it_leaves it_tree it_leaf_index].
  f_equal; [|f_equal; lia].
  destruct (decide (i + j <= 2 ^ k)); [by rewrite decide_True by lia|].
  rewrite decide_False by lia. f_equal. lia.
Qed.

Lemma nth_at k leaves i j :
  length leaves = 2 ^ S k -> i <= 2 ^ S k ->
  nth (2 ^ S k) (it_at (S k) leaves i) j =
    if decide (i + j < 2 ^ S k)
    then Ret (Some (merkle_path hash_pair leaves (i + j)), it_at (S k) leaves (S (i + j)))
    else Ret (None, it_at (S k) leaves (2 ^ S k)).
Proof.
  intros Hl Hi. unfold nth. rewrite advance_by_at by done.
  destruct (decide (i + j < 2 ^ S k)) as [Hlt|Hge].
  - rewrite decide_True, Nat.min_l by lia. by rewrite next_at.
  - rewrite Nat.min_r by lia. case_decide; [|done]. apply next_end.
Qed.

Lemma it_last_at k leaves i :
  length leaves = 2 ^ S k -> i <= 2 ^ S k ->
  it_last (2 ^ S k) (it_at (S k) leaves i) =
    Ret (if decide (i < 2 ^ S k) then Some (merkle_path hash_pair leaves (2 ^ S k - 1)) else None).
Proof.
  intros Hl Hi. unfold it_last. cbn [it_at it_len it_leaves it_tree].
  destruct (decide (i < 2 ^ S k)) as [Hlt|Hge]; [|by rewrite decide_True by lia].
  rewrite decide_False by lia.
  pose proof (next_at k leaves (2 ^ S k - 1) Hl ltac:(lia)) as Hn. unfold it_at at 1 in Hn.
  replace (2 ^ S k - (2 ^ S k - 1)) with 1 in Hn by lia. by rewrite Hn.
Qed.

(** ** The batched root *)

(** The combiner of the stack of batches. *)
Definition batch_op (a b : list H) : list H := pairs hash_pair (a ++ b).

Definition batch (v : list H) : Prop := length v = 16.

Lemma batch_op_batch a b : batch a -> batch b -> batch (batch_op a b).
Proof. unfold batch, batch_op. intros Ha Hb. by rewrite length_pairs, length_app, Ha, Hb. Qed.

Lemma merge_batches_spec parents current :
  Forall batch parents -> batch current ->
  merge_batches parents current = Ret (carry batch_op parents current) /\
  batch (carry batch_op parents current).
Proof.
  intros Hps. revert current. induction Hps as [|p parents Hp _ IH]; intros c Hc; [done|].
  simpl. unfold combine_batches. rewrite hash_pairs_Ret.
  - apply IH. by apply batch_op_batch.
  - rewrite length_app. unfold batch in *. unfold BATCH_HASH_NUM_BLOCKS. lia.
Qed.

Lemma absorb_chunks_spec chunks L st :
  Forall (fun c => length c = 32) chunks -> Forall batch st ->
  counter_repr batch_op L st -> length L + length chunks < 2 ^ length st ->
  exists st', absorb_chunks (N.of_nat (length L)) chunks st = Ret st' /\
    counter_repr batch_op (L ++ (pairs hash_pair <$> chunks)) st' /\
    length st' = length st.
Proof.
  intros Hch. revert L st. induction Hch as [|c chunks Hc _ IH]; intros L st Hst Hr Hlen.
  { exists st. by rewrite app_nil_r. }
  assert (Hb : batch (pairs hash_pair c)) by (unfold batch; by rewrite length_pairs, Hc).
  cbn [absorb_chunks]. rewrite hash_pairs_Ret by done. cbn [obind].
  simpl in Hlen.
  destruct (push_leaf_repr batch_op L st (pairs hash_pair c) Hr ltac:(lia)) as (st' & Hp & Hr' & Hl').
  unfold push_leaf in Hp. set (k := trailing_ones _) in *.
  assert (Hk : k < length st).
  { destruct (decide (k < length st)); [done|]. by rewrite arr_set_ge in Hp by lia. }
  rewrite decide_False by lia.
  destruct (merge_batches_spec (take k st) (pairs hash_pair c)) as [-> Hb']; [by apply Forall_take|done|].
  cbn [obind]. rewrite Hp. cbn [obind]. rewrite arr_set_lt in Hp by done. injection Hp as <-.
  destruct (IH (L ++ [pairs hash_pair c]) (<[k := carry batch_op (take k st) (pairs hash_pair c)]> st))
    as (st'' & Habs & Hr'' & Hl''); [by apply Forall_insert|done| |].
  { rewrite length_app, Hl'. simpl. lia. }
  exists st''. rewrite length_app in Habs. simpl in Habs.
  replace (N.of_nat (length L) + 1)%N with (N.of_nat (length L + 1)) by lia.
  rewrite <- app_assoc in Hr''. split_and!; [done..|congruence].
Qed.

Lemma concat_batches L :
  Forall batch L -> Nat.even (length L) = true ->
  concat (pairs batch_op L) = pairs hash_pair (concat L).
Proof.
  induction L as [|a|a b L IH] using list_pair_ind; intros HL He; [done|done|].
  apply Forall_cons in HL as [Ha HL]. apply Forall_cons in HL as [Hb HL]. cbn [pairs concat].
  rewrite IH by done. unfold batch_op, batch in *. rewrite app_assoc, (pairs_app_even _ (a ++ b)); [done|].
  by rewrite length_app, Ha, Hb.
Qed.

Lemma length_concat_batches L : Forall batch L -> length (concat L) = 16 * length L.
Proof. induction 1 as [|a L Ha _ IH]; [done|]. simpl. rewrite length_app, IH, Ha. lia. Qed.

Lemma pairs_batches L : Forall batch L -> Forall batch (pairs batch_op L).
Proof.
  induction L as [|a|a b L IH] using list_pair_ind; intros HL; [done|done|].
  apply Forall_cons in HL as [Ha HL]. apply Forall_cons in HL as [Hb HL].
  constructor; [by apply batch_op_batch|by apply IH].
Qed.

(** The root over the batches is a batch with the same root as all the hashes. *)
Lemma root_batches j L :
  Forall batch L -> length L = 2 ^ j ->
  exists v, merkle_root batch_op L = Some v /\ batch v /\
    merkle_root hash_pair (concat L) = merkle_root hash_pair v.
Proof.
  revert L. induction j as [|j IH]; intros L HL Hl.
  - destruct L as [|v [|]]; simpl in Hl; try lia. exists v. apply Forall_cons in HL as [HL _].
    cbn [concat]. rewrite app_nil_r. by split_and!.
  - destruct (IH (pairs batch_op L)) as (v & Hv & Hb & Hroot).
    { by apply pairs_batches. }
    { by apply length_pairs_pow2. }
    exists v. rewrite (merkle_root_pow2 batch_op L j) by done. split_and!; [done..|].
    rewrite <- Hroot, concat_batches.
    + rewrite merkle_root_next, next_level_even; [done|].
      rewrite length_concat_batches by done. replace (16 * length L) with (2 * (8 * length L)) by lia.
      apply even_double.
    + done.
    + rewrite Hl, Nat.pow_succ_r'. apply even_double.
Qed.

(** The sizes of the calls that collapse [2 ^ k] hashes. *)
Fixpoint halvings (k : nat) : list nat :=
  match k with O => [] | S k => 2 ^ k :: halvings k end.

Lemma collapse_spec k (l : list H) :
  length l = 2 ^ k ->
  exists r, collapse (halvings k) l = Ret r /\ merkle_root hash_pair l = Some r.
Proof.
  revert l. induction k as [|k IH]; intros l Hl.
  - destruct l as [|x [|]]; simpl in Hl; try lia. by exists x.
  - cbn [halvings collapse]. rewrite hash_pairs_Ret by (by rewrite <- Nat.pow_succ_r').
    cbn [obind]. rewrite (merkle_root_pow2 hash_pair l k) by done.
    apply IH. by apply length_pairs_pow2.
Qed.

Lemma compute_root_only_large n (leaves : list H) :
  32 <= n ->
  compute_root_only n leaves =
    let size := compute_root_only_large_stack_size n in
    let! stack := absorb_chunks 0 (as_chunks 32 leaves)
                    (replicate size (replicate 16 zero_hash)) in
    let! hashes := arr_get stack (size - 1) in
    collapse (halvings 4) hashes.
Proof.
  intros Hn. unfold compute_root_only. do 17 (destruct n as [|n]; [lia|]).
  by rewrite decide_True.
Qed.

Lemma balanced_root_only_spec k (leaves : list H) :
  0 < k -> length leaves = 2 ^ k ->
  exists r, compute_root_only (2 ^ k) leaves = Ret r /\ merkle_root hash_pair leaves = Some r.
Proof.
  intros Hk Hl. destruct (decide (k <= 4)) as [Hs|Hs].
  { pose proof (collapse_spec k leaves Hl).
    destruct k as [|[|[|[|[|k]]]]]; [lia|done..|lia]. }
  remember (k - 5) as j eqn:Hj. replace k with (5 + j) in * by lia. clear k Hj Hk Hs.
  assert (Hpow : 2 ^ (5 + j) = 32 * 2 ^ j) by (rewrite Nat.pow_add_r; done).
  pose proof (Nat.pow_nonzero 2 j ltac:(lia)) as Hnz. rewrite Hpow in *.
  rewrite compute_root_only_large by lia.
  assert (Hsize : compute_root_only_large_stack_size (32 * 2 ^ j) = S j).
  { unfold compute_root_only_large_stack_size, BATCH_HASH_NUM_LEAVES.
    rewrite decide_False, Nat.mul_comm, Nat.div_mul, Nat.log2_pow2 by lia. lia. }
  rewrite Hsize. cbv zeta.
  destruct (as_chunks_spec 32 (2 ^ j) leaves ltac:(lia) Hl) as (Hcat & Hnum & Hlen).
  destruct (absorb_chunks_spec (as_chunks 32 leaves) [] (replicate (S j) (replicate 16 zero_hash)))
    as (st & Habs & Hr & Hst); [done|..].
  { apply Forall_replicate. unfold batch. by rewrite length_replicate. }
  { apply counter_repr_replicate. }
  { rewrite length_replicate, Hnum. simpl. lia. }
  rewrite app_nil_l in Hr. change (N.of_nat (length [])) with 0%N in Habs. rewrite Habs. cbn [obind].
  rewrite length_replicate in Hst.
  destruct (root_batches j (pairs hash_pair <$> as_chunks 32 leaves)) as (v & Hv & Hb & Hroot).
  { apply Forall_fmap. eapply Forall_impl; [exact Hlen|]. intros c Hc. simpl.
    unfold batch. by rewrite length_pairs, Hc. }
  { by rewrite length_fmap. }
  replace (S j - 1) with j by lia. unfold arr_get.
  rewrite (counter_repr_top batch_op j _ st Hr), Hv; [|by rewrite length_fmap|lia]. cbn [obind].
  destruct (collapse_spec 4 v Hb) as (r & Hc & Hrv). exists r. split; [done|].
  destruct (hash_chunks (2 ^ j) leaves Hl) as [_ Hcp]. rewrite Hcp in Hroot.
  rewrite merkle_root_next, next_level_even, Hroot; [done|].
  rewrite Hl. replace (32 * 2 ^ j) with (2 * (16 * 2 ^ j)) by lia. apply even_double.
Qed.

(** ** Verification *)

(** The loop of [verify]. *)
Definition fold_path (proof : list H) (s : H * nat) : H * nat :=
  foldl (fun '(current, position) hash =>
           (if Nat.even position then hash_pair current hash else hash_pair hash current,
            position / 2)) s proof.

Lemma replicate_sibling k i (x : H) :
  i < 2 ^ S k -> sibling (replicate (2 ^ S k) x) i = Some x.
Proof.
  intros Hi. destruct (sibling_pow2 (replicate (2 ^ S k) x) k i) as (s & Hf & ->);
    rewrite ?length_replicate; [done..|].
  by apply lookup_replicate in Hf as [-> _].
Qed.

(** On a level of [2 ^ k] nodes the unbalanced verifier walks [k] elements of the
    proof. *)
Lemma verify_loop_pow2 k fuel pre rest current i :
  length rest = k -> i < 2 ^ k -> k < fuel ->
  Unbalanced.verify_loop fuel (pre ++ rest) current (N.of_nat i) (length pre) (N.of_nat (2 ^ k)) =
    Ret (Some ((fold_path rest (current, i)).1, length (pre ++ rest))).
Proof.
  revert fuel pre rest current i. induction k as [|k IH]; intros [|fuel] pre rest current i Hr Hi Hf;
    try lia.
  - destruct rest; [|done]. by rewrite app_nil_r.
  - destruct rest as [|h rest]; [done|]. injection Hr as Hr.
    pose proof (Unbalanced.verify_loop_step fuel (pre ++ h :: rest) current i (length pre)
      (replicate (2 ^ S k) current)) as Hstep.
    rewrite length_next_level, length_replicate, replicate_sibling, list_lookup_middle in Hstep by done.
    rewrite Hstep; [|done|pose proof (Nat.pow_nonzero 2 k); simpl; lia].
    replace (Nat.div2 (S (2 ^ S k))) with (2 ^ k)
      by (by rewrite Nat.pow_succ_r', Nat.div2_succ_double).
    specialize (IH fuel (pre ++ [h]) rest
      (if Nat.even i then hash_pair current h else hash_pair h current) (Nat.div2 i) Hr).
    rewrite <- app_assoc, (length_app pre), Nat.add_1_r in IH. simpl app in IH.
    rewrite IH; [|rewrite Nat.div2_div; by apply half_lt_pow2|lia].
    cbn [fold_path foldl]. by rewrite Nat.div2_div.
Qed.

Lemma verify_unbalanced k root proof i leaf :
  k < 65 -> length proof = k ->
  Unbalanced.verify root proof (N.of_nat i) leaf (N.of_nat (2 ^ k)) =
    Ret (verify (2 ^ k) root proof i leaf).
Proof.
  intros Hk Hp. unfold Unbalanced.verify, verify. case_decide as Hn.
  { by rewrite decide_True by lia. }
  rewrite decide_False by lia.
  pose proof (verify_loop_pow2 k 65 [] proof leaf i Hp ltac:(lia) Hk) as Hv.
  simpl app in Hv. simpl length in Hv at 1. rewrite Hv. cbn [obind].
  change (foldl _ (leaf, i) proof) with (fold_path proof (leaf, i)).
  destruct (fold_path proof (leaf, i)) as [r pos]. cbn [fst]. f_equal.
  rewrite bool_decide_eq_true_2 by done. simpl. by apply bool_decide_ext.
Qed.

Lemma path_length_pow2 k (l : list H) i :
  length l = 2 ^ k -> i < length l -> length (merkle_path hash_pair l i) = k.
Proof.
  revert l i. induction k as [|k IH]; intros l i Hl Hi.
  { by rewrite merkle_path_short by (rewrite Hl; simpl; lia). }
  destruct (path_pow2 l k i Hl Hi) as (s & _ & ->). simpl. f_equal.
  pose proof (length_pairs_pow2 hash_pair l k Hl) as Hp.
  apply IH; [done|]. rewrite Hp. apply half_lt_pow2. by rewrite <- Hl.
Qed.

(** ** Properties *)

(** C29. For every supported size the batched, SIMD-width root computation, the
    root of the tree built in memory and the root of the unbalanced tree are the
    same hash, the reference root. *)
Theorem balanced_roots_agree k (leaves : list H) :
  0 < k <= 63 -> length leaves = 2 ^ k ->
  exists r, compute_root_only (2 ^ k) leaves = Ret r /\
    (let! t := new (2 ^ k) leaves in root t) = Ret r /\
    Unbalanced.compute_root_only (2 ^ N.of_nat k) leaves = Ret (Some r) /\
    merkle_root hash_pair leaves = Some r.
Proof.
  intros [Hk Hk63] Hl. destruct (balanced_root_only_spec k leaves Hk Hl) as (r & Hc & Hr).
  exists r. split_and!; [done| | |done].
  - pose proof (tree_root_spec k leaves Hl) as Hroot. rewrite Hr in Hroot.
    destruct (new (2 ^ k) leaves) as [t|]; [|done]. simpl in *.
    destruct (root t); [|done]. by simplify_eq/=.
  - rewrite Unbalanced.compute_root_only_spec.
    + rewrite Hl, <- of_nat_pow2, decide_True, Hr by lia. done.
    + apply N.pow_le_mono_r; lia.
Qed.

(** Iterating over [all_proofs] yields, in the order of the leaves, exactly the
    list of siblings of each leaf; [verify] accepts each of them with the root of
    the tree. *)
Theorem balanced_all_proofs_correct k (leaves : list H) :
  0 < k < 64 -> length leaves = 2 ^ k ->
  exists t r proofs, new (2 ^ k) leaves = Ret t /\ root t = Ret r /\
    collect (S (2 ^ k)) (2 ^ k) (all_proofs (2 ^ k) t) = Ret proofs /\
    length proofs = 2 ^ k /\
    forall i leaf, leaves !! i = Some leaf ->
      exists proof, proofs !! i = Some proof /\ proof = merkle_path hash_pair leaves i /\
        verify (2 ^ k) r proof i leaf = true.
Proof.
  intros [Hk Hk64] Hl. destruct k as [|k]; [lia|]. rewrite new_spec by done.
  pose proof (tree_root_spec (S k) leaves Hl) as Hroot. rewrite new_spec in Hroot by done.
  cbn [obind] in Hroot. destruct (root _) as [r|] eqn:Hr; [|done]. cbn [obind] in Hroot.
  eexists _, r, _. split; [done|]. split; [exact Hr|]. unfold all_proofs. cbn [tree_leaves tree_nodes].
  pose proof (collect_at k leaves 0 (S (2 ^ S k)) Hl ltac:(lia) ltac:(lia)) as Hc.
  unfold it_at in Hc. rewrite Nat.sub_0_r in Hc. split; [exact Hc|].
  split; [by rewrite length_fmap, length_seq|]. intros i leaf Hleaf.
  pose proof (lookup_lt_Some _ _ _ Hleaf) as Hi. eexists. split_and!.
  - rewrite list_lookup_fmap, lookup_seq_lt by congruence. done.
  - done.
  - injection Hroot as Hroot.
    pose proof (verify_unbalanced (S k) r (merkle_path hash_pair leaves i) i leaf ltac:(lia)
      (path_length_pow2 (S k) leaves i Hl Hi)) as Hv.
    rewrite <- Hl in Hv at 1. rewrite Unbalanced.verify_accepts_path in Hv; [by injection Hv| |done..].
    rewrite Hl, of_nat_pow2. apply N.pow_le_mono_r; lia.
Qed.

(** The random-access methods of the proof iterator agree with stepping:
    [nth(j)] at position [i] skips to proof [i + j] or exhausts the iterator, and
    [last] gives the proof of the last leaf unless the iterator is exhausted. *)
Theorem balanced_iterator_random_access k (leaves : list H) it j :
  0 < k -> length leaves = 2 ^ k -> it_repr k leaves it ->
  (exists it', it_repr k leaves it' /\ count it' = count it - S j /\
    nth (2 ^ k) it j =
      Ret (if decide (j < count it)
           then Some (merkle_path hash_pair leaves (it_leaf_index it + j)) else None, it')) /\
  it_last (2 ^ k) it =
    Ret (if decide (0 < count it) then Some (merkle_path hash_pair leaves (2 ^ k - 1)) else None).
Proof.
  intros Hk Hl Hit. destruct k as [|k]; [lia|].
  apply it_repr_at in Hit as [Hle Heq]. remember (it_leaf_index it) as i eqn:Hi. subst it.
  clear Hi. change (count (it_at (S k) leaves i)) with (2 ^ S k - i).
  rewrite nth_at, it_last_at by done. split.
  - destruct (decide (i + j < 2 ^ S k)) as [Hlt|Hge].
    + exists (it_at (S k) leaves (S (i + j))).
      rewrite decide_True by lia. split_and!; [|unfold count; cbn [it_at it_len]; lia|done].
      apply it_repr_at. cbn [it_at it_leaf_index]. split; [lia|done].
    + exists (it_at (S k) leaves (2 ^ S k)). rewrite decide_False by lia.
      split_and!; [|unfold count; cbn [it_at it_len]; lia|done]. apply it_repr_at. cbn [it_at it_leaf_index]. split; [lia|done].
  - destruct (decide (i < 2 ^ S k)).
    + by rewrite decide_True by lia.
    + by rewrite decide_False by lia.
Qed.

(** [verify] of the balanced tree gives the verdict of the unbalanced verifier
    for [N] leaves on every input whose proof has the length its type demands, and
    is sound in the same sense. *)
Theorem balanced_verify_sound k (leaves : list H) root proof i leaf :
  k < 64 -> length leaves = 2 ^ k -> length proof = k ->
  merkle_root hash_pair leaves = Some root ->
  Unbalanced.verify root proof (N.of_nat i) leaf (N.of_nat (2 ^ k)) =
    Ret (verify (2 ^ k) root proof i leaf) /\
  (verify (2 ^ k) root proof i leaf = true ->
   (leaves !! i = Some leaf /\ proof = merkle_path hash_pair leaves i) \/
   collision_between (tree_inputs hash_pair leaves) (path_inputs (length leaves) i leaf proof)).
Proof.
  intros Hk Hl Hp Hroot. pose proof (verify_unbalanced k root proof i leaf ltac:(lia) Hp) as Hv.
  split; [done|]. intros Ht. rewrite Ht, <- Hl in Hv.
  apply Unbalanced.verify_accepts_only_path in Hv; [by rewrite Nat2N.id in Hv| |done].
  rewrite Hl, of_nat_pow2. apply N.pow_le_mono_r; lia.
Qed.
End Tree.

(** ** Witnesses *)

Definition sample_leaves : list sym := SymLeaf <$> seq 1 4.

Lemma balanced_roots_agree_witness :
  exists r, compute_root_only 32 (SymLeaf <$> seq 1 32) = Ret r /\
    (let! t := new 32 (SymLeaf <$> seq 1 32) in root t) = Ret r /\
    Unbalanced.compute_root_only 32 (SymLeaf <$> seq 1 32) = Ret (Some r) /\
    merkle_root hash_pair (SymLeaf <$> seq 1 32) = Some r.
Proof. apply (balanced_roots_agree 5 (SymLeaf <$> seq 1 32)); [lia|reflexivity]. Defined.

Lemma balanced_all_proofs_correct_witness :
  exists t r proofs, new 4 sample_leaves = Ret t /\ root t = Ret r /\
    collect 5 4 (all_proofs 4 t) = Ret proofs /\ length proofs = 4 /\
    forall i leaf, sample_leaves !! i = Some leaf ->
      exists proof, proofs !! i = Some proof /\ proof = merkle_path hash_pair sample_leaves i /\
        verify 4 r proof i leaf = true.
Proof. apply (balanced_all_proofs_correct 2 sample_leaves); [lia|reflexivity]. Defined.

Lemma balanced_iterator_random_access_witness :
  (exists it', it_repr 2 sample_leaves it' /\ count it' = 1 /\
    nth 4 (it_at 2 sample_leaves 1) 1 =
      Ret (Some (merkle_path hash_pair sample_leaves 2), it')) /\
  it_last 4 (it_at 2 sample_leaves 1) = Ret (Some (merkle_path hash_pair sample_leaves 3)).
Proof.
  apply (balanced_iterator_random_access 2 sample_leaves (it_at 2 sample_leaves 1) 1);
    [lia|reflexivity|split_and!; reflexivity].
Defined.

Lemma balanced_verify_sound_witness :
  let root := SymNode (SymNode (SymLeaf 1) (SymLeaf 2)) (SymNode (SymLeaf 3) (SymLeaf 4)) in
  let proof := [SymLeaf 3; SymNode (SymLeaf 1) (SymLeaf 2)] in
  Unbalanced.verify root proof (N.of_nat 3) (SymLeaf 4) (N.of_nat (2 ^ 2)) =
    Ret (verify (2 ^ 2) root proof 3 (SymLeaf 4)) /\
  (verify (2 ^ 2) root proof 3 (SymLeaf 4) = true ->
   (sample_leaves !! 3 = Some (SymLeaf 4) /\ proof = merkle_path hash_pair sample_leaves 3) \/
   collision_between (tree_inputs hash_pair sample_leaves)
     (path_inputs (length sample_leaves) 3 (SymLeaf 4) proof)).
Proof.
  intros root proof.
  apply (balanced_verify_sound 2 sample_leaves root proof 3 (SymLeaf 4)); [lia|reflexivity..].
Defined.
End Balanced.
