(* ===== verification/Sparse.v ===== *)
(** * The sparse Merkle tree

    Model of [crates/shared/ab-merkle-tree/src/sparse.rs].  [BITS] is the argument
    [bits]; [u128] counters are [N] with the wrap-around of the source.  The
    reference is the tree over all [2 ^ bits] leaves whose combiner maps two empty
    nodes to the empty node ([zop]).  A pair that hashes to the empty hash makes the
    computation take its node for an empty one; [zero_hashed] says that the tree has
    such a pair. *)

From S2P Require Import Prelude MerkleSpec BinaryCounter Unbalanced Balanced.
From stdpp Require Import prelude.
From Stdlib Require Import NArith Lia.

Module Sparse.
Section Tree.
Context {H : Type} {hasher : NodeHasher H}.

Inductive sparse_leaf : Type :=
| Occupied (leaf : H)
| OccupiedOwned (leaf : H)
| Empty (skip_count : N).

(** [false] is a failed [assert!]. *)
Definition ensure_supported_bits (bits : nat) : bool :=
  bool_decide (bits <= 128) && bool_decide (bits <> 0).

Definition wrap128 (x : N) : N := x mod 2 ^ 128.

(** The [for item in stack.iter().skip(max_levels_to_skip)] loop: the level reached
    and the node to store there. *)
Fixpoint merge_empty (bits : nat) (num_leaves : N) (items : list H) (level : nat) (current : H)
    : nat * H :=
  match items with
  | [] => (level, current)
  | item :: items =>
      if (bool_decide (bits = 128) && bool_decide (level = 128))
         || negb (N.testbit num_leaves (N.of_nat level)) then (level, current)
      else
        merge_empty bits num_leaves items (S level)
          (if bool_decide (item = zero_hash) && bool_decide (current = zero_hash)
           then current else hash_pair item current)
  end.

(** The [while skip_count > 0] loop. *)
Fixpoint skip_loop (fuel bits : nat) (stack : list H) (num_leaves skip_count : N)
    : outcome (list H * N) :=
  match fuel with
  | O => Fault
  | S fuel =>
      if decide (skip_count = 0%N) then Ret (stack, num_leaves)
      else
        let max_levels_to_skip := Nat.min (ilog2 skip_count) (trailing_zeros 128 num_leaves) in
        let chunk_size := (2 ^ N.of_nat max_levels_to_skip)%N in
        let '(level, current) :=
          merge_empty bits num_leaves (drop max_levels_to_skip stack) max_levels_to_skip
            zero_hash in
        let! stack := arr_set stack level current in
        skip_loop fuel bits stack (wrap128 (num_leaves + chunk_size)) (skip_count - chunk_size)
  end.

(** Returns the new stack, [processed_some] and the updated number of leaves.  The
    loop runs at most once per level on the way up and once on the way down. *)
Definition skip_leaves (bits : nat) (stack : list H) (processed_some : bool)
    (num_leaves skip_count : N) : outcome (option (list H * bool * N)) :=
  let run processed_some :=
    let! (stack, num_leaves) := skip_loop 257 bits stack num_leaves skip_count in
    Ret (Some (stack, processed_some, num_leaves)) in
  if decide (bits < 128) then
    if decide (2 ^ 128 <= num_leaves + skip_count)%N then Ret None
    else if decide (2 ^ N.of_nat bits < num_leaves + skip_count)%N then Ret None
    else run processed_some
  else
    let overflow_amount := wrap128 (num_leaves + skip_count) in
    let overflowed := bool_decide (2 ^ 128 <= num_leaves + skip_count)%N in
    if processed_some && overflowed && bool_decide (0 < overflow_amount)%N then Ret None
    else run true.

(** The loop over the leaves. *)
Fixpoint absorb_leaves (bits : nat) (leaves : list sparse_leaf) (stack : list H)
    (processed_some : bool) (num_leaves : N) : outcome (option (list H * bool * N)) :=
  match leaves with
  | [] => Ret (Some (stack, processed_some, num_leaves))
  | leaf :: leaves =>
      if (if decide (bits < 128) then bool_decide (num_leaves = 2 ^ N.of_nat bits)%N
          else processed_some && bool_decide (num_leaves = 0%N)) then Ret None
      else
        let processed_some := if decide (bits < 128) then processed_some else true in
        match leaf with
        | Occupied leaf | OccupiedOwned leaf =>
            let! stack := push_leaf hash_pair stack num_leaves leaf in
            absorb_leaves bits leaves stack processed_some (wrap128 (num_leaves + 1))
        | Empty skip_count =>
            let! skipped := skip_leaves bits stack processed_some num_leaves skip_count in
            match skipped with
            | None => Ret None
            | Some (stack, processed_some, num_leaves) =>
                absorb_leaves bits leaves stack processed_some num_leaves
            end
        end
  end.

Definition compute_root_only (bits : nat) (leaves : list sparse_leaf) : outcome (option H) :=
  let! absorbed := absorb_leaves bits leaves (replicate (bits + 1) zero_hash) false 0 in
  match absorbed with
  | None => Ret None
  | Some (stack, processed_some, num_leaves) =>
      let! filled :=
        if decide (bits < 128) then
          skip_leaves bits stack processed_some num_leaves (2 ^ N.of_nat bits - num_leaves)
        else if processed_some && bool_decide (num_leaves <> 0%N) then
          skip_leaves bits stack processed_some num_leaves (wrap128 (2 ^ 128 - num_leaves))
        else Ret (Some (stack, processed_some, num_leaves)) in
      match filled with
      | None => Ret None
      | Some (stack, _, _) => let! root := arr_get stack bits in Ret (Some root)
      end
  end.

Definition verify (bits : nat) (root : H) (proof : list H) (leaf_index : N) (leaf : H) : bool :=
  if decide (bits < 128 /\ (2 ^ N.of_nat bits <= leaf_index)%N) then false
  else
    let '(computed_root, _) :=
      foldl (fun '(current, position) hash =>
               (if N.even position then hash_pair current hash else hash_pair hash current,
                N.div2 position)) (leaf, leaf_index) proof in
    bool_decide (root = computed_root).

(** ** Reference *)

(** Hashing "customized" to map two empty nodes to the empty node. *)
Definition zop (a b : H) : H :=
  if decide (a = zero_hash /\ b = zero_hash) then zero_hash else hash_pair a b.

Definition expand_leaf (leaf : sparse_leaf) : list H :=
  match leaf with
  | Occupied leaf | OccupiedOwned leaf => [leaf]
  | Empty skip_count => replicate (N.to_nat skip_count) zero_hash
  end.

(** All the leaves of the tree, the missing ones empty. *)
Definition all_leaves (bits : nat) (leaves : list sparse_leaf) : list H :=
  let l := leaves ≫= expand_leaf in l ++ replicate (2 ^ bits - length l) zero_hash.

(** What the documentation and the types ask of the leaves: occupied leaves are not
    the empty hash, skip counts are nonzero [u128]s. *)
Definition leaf_ok (leaf : sparse_leaf) : Prop :=
  match leaf with
  | Occupied leaf | OccupiedOwned leaf => leaf <> zero_hash
  | Empty skip_count => (0 < skip_count < 2 ^ 128)%N
  end.

(** ** Skipping empty leaves *)

Lemma zop_zero : zop zero_hash zero_hash = zero_hash.
Proof. unfold zop. by rewrite decide_True. Qed.

Lemma merge_empty_spec bits n items level current :
  (n < 2 ^ 128)%N ->
  let t := trailing_ones (N.shiftr n (N.of_nat level)) in
  t <= length items ->
  merge_empty bits n items level current = (level + t, carry zop (take t items) current).
Proof.
  intros Hn t Ht. subst t. revert level current Ht.
  induction items as [|item items IH]; intros level current.
  { simpl length. rewrite Nat.le_0_r. intros ->. by rewrite Nat.add_0_r. }
  rewrite trailing_ones_step. change (N.div2 ?x) with (N.shiftr x 1).
  rewrite N.shiftr_shiftr, <- N.bit0_odd, N.shiftr_spec', N.add_0_l.
  replace (N.of_nat level + 1)%N with (N.of_nat (S level)) by lia.
  cbn [merge_empty]. destruct (N.testbit n (N.of_nat level)) eqn:Hb; intros Ht.
  - assert (Hl : level <> 128).
    { intros ->. rewrite <- (N.mod_small n (2 ^ 128)), N.mod_pow2_bits_high in Hb by (done || lia).
      done. }
    rewrite (bool_decide_eq_false_2 (level = 128)), andb_false_r by done. cbn [orb negb].
    simpl in Ht. rewrite IH by lia. rewrite Nat.add_succ_r. cbn [take carry foldl]. do 2 f_equal.
    unfold zop. case_decide as Hz.
    + destruct Hz as [-> ->]. by rewrite !bool_decide_eq_true_2.
    + destruct (bool_decide (item = _)) eqn:E1; [|done]. apply bool_decide_eq_true in E1.
      rewrite bool_decide_eq_false_2; [done|tauto].
  - rewrite orb_true_r. by rewrite Nat.add_0_r.
Qed.

Lemma pairs_replicate_zero m :
  pairs zop (replicate (2 ^ S m) zero_hash) = replicate (2 ^ m) zero_hash.
Proof.
  rewrite Nat.pow_succ_r'. generalize (2 ^ m) as n. intros n. induction n as [|n IH]; [done|].
  replace (2 * S n) with (S (S (2 * n))) by lia. cbn [replicate pairs]. by rewrite zop_zero, IH.
Qed.

(** A block of [2 ^ m] empty leaves at an aligned position is one empty node pushed
    at level [m]. *)
Lemma push_block m l st q :
  counter_repr zop l st -> length l = 2 ^ m * q -> length l + 2 ^ m < 2 ^ length st ->
  exists st', push_leaf zop (drop m st) (N.shiftr (N.of_nat (length l)) (N.of_nat m)) zero_hash = Ret st' /\
    counter_repr zop (l ++ replicate (2 ^ m) zero_hash) (take m st ++ st') /\
    length (take m st ++ st') = length st.
Proof.
  revert l st. induction m as [|m IH]; intros l st Hr Hq Hfit.
  { rewrite N.shiftr_0_r, drop_0. simpl in Hfit.
    destruct (push_leaf_repr zop l st zero_hash Hr ltac:(lia)) as (st' & Hp & Hr' & Hl).
    by exists st'. }
  rewrite Nat.pow_succ_r' in Hq, Hfit. rewrite <- Nat.mul_assoc in Hq.
  pose proof (Nat.pow_nonzero 2 m ltac:(lia)) as Hnz.
  destruct st as [|s st]; [simpl in Hfit; lia|]. destruct Hr as [Hs Hr]. cbn [length] in Hfit.
  rewrite Nat.pow_succ_r' in Hfit.
  assert (Hlp : length (pairs zop l) = 2 ^ m * q) by (by rewrite length_pairs, Hq, Nat.div2_double).
  destruct (IH (pairs zop l) st Hr Hlp) as (st' & Hp & Hr' & Hlen); [lia|].
  exists st'. cbn [drop take app]. split_and!.
  - rewrite <- Hp. f_equal. rewrite Nat2N.inj_succ, <- N.add_1_l, <- N.shiftr_shiftr, <- N.div2_spec.
    f_equal. by rewrite div2_of_nat, length_pairs.
  - assert (He : Nat.even (length l) = true) by (rewrite Hq; apply even_double). split.
    + rewrite length_app, length_replicate, Nat.pow_succ_r', <- Nat.negb_even.
      by rewrite Nat.even_add, He, even_double.
    + by rewrite pairs_app_even, pairs_replicate_zero.
  - simpl. by rewrite Hlen.
Qed.

Lemma push_leaf_offset m (st st' : list H) n x :
  m <= length st -> push_leaf zop (drop m st) n x = Ret st' ->
  let t := trailing_ones n in
  t <= length (drop m st) /\
  arr_set st (m + t) (carry zop (take t (drop m st)) x) = Ret (take m st ++ st').
Proof.
  intros Hm Hp t. unfold push_leaf in Hp. fold t in Hp. unfold arr_set in Hp.
  case_decide as Ht; [|done]. injection Hp as <-. rewrite length_drop in Ht |- *. split; [lia|].
  rewrite arr_set_lt by lia. f_equal.
  generalize (carry zop (take t (drop m st)) x) as c. intros c.
  pose proof (insert_app_r (take m st) (drop m st) t c) as Hi.
  by rewrite take_drop, length_take_le in Hi.
Qed.

(** The number of iterations still needed: up the levels of [num_leaves], then down
    those of [skip_count]. *)
Definition skip_measure (n s : N) : nat :=
  (ilog2 s - trailing_zeros 128 n) + ilog2 s + (if decide (s = 0%N) then 0 else 1).

Definition skip_chunk (n s : N) : nat := Nat.min (ilog2 s) (trailing_zeros 128 n).

Lemma skip_chunk_le n s : s <> 0%N -> (2 ^ N.of_nat (skip_chunk n s) <= s)%N.
Proof.
  intros Hs. transitivity (2 ^ N.log2 s)%N.
  - apply N.pow_le_mono_r; [lia|]. unfold skip_chunk, ilog2. lia.
  - by apply N.log2_spec, N.neq_0_lt_0.
Qed.

Lemma skip_measure_step n s :
  s <> 0%N -> (n + s <= 2 ^ 128)%N ->
  let c := (2 ^ N.of_nat (skip_chunk n s))%N in
  skip_measure (wrap128 (n + c)) (s - c) < skip_measure n s.
Proof.
  intros Hs Hfit c. pose proof (skip_chunk_le n s Hs) as Hle. fold c in Hle.
  unfold skip_measure. rewrite (decide_False (P := s = 0%N)) by done.
  destruct (decide (s - c = 0)%N) as [->|Hs']; [simpl; lia|].
  unfold wrap128. rewrite N.mod_small by lia.
  assert (Hlog : ilog2 (s - c) <= ilog2 s).
  { unfold ilog2. pose proof (N.log2_le_mono (s - c) s ltac:(lia)). lia. }
  assert (Hc0 : c <> 0%N) by (by apply N.pow_nonzero).
  destruct (decide (trailing_zeros 128 n < ilog2 s)) as [Hup|Hdown].
  - assert (Hc : c = (2 ^ N.of_nat (trailing_zeros 128 n))%N) by (unfold c, skip_chunk; do 2 f_equal; lia).
    assert (Hn : n <> 0%N).
    { intros ->. simpl in Hup. assert (Hlt : (N.log2 s < 129)%N); [|unfold ilog2 in Hup; lia].
      apply N.log2_lt_pow2; lia. }
    pose proof (trailing_zeros_add_lowest 128 n Hn) as Htz. rewrite <- Hc in Htz. lia.
  - assert (Hc : c = (2 ^ N.log2 s)%N).
    { unfold c, skip_chunk. f_equal. unfold ilog2 in *. lia. }
    assert (Hsmall : (N.log2 (s - c) < N.log2 s)%N).
    { apply N.log2_lt_pow2; [lia|]. pose proof (N.log2_spec s ltac:(lia)) as [_ Hup].
      rewrite N.pow_succ_r' in Hup. lia. }
    assert (Htz : ilog2 s <= trailing_zeros 128 (n + c)).
    { apply trailing_zeros_divide; [lia|].
      assert (Hdiv : exists q, n = (2 ^ N.of_nat (ilog2 s) * q)%N).
      { destruct (decide (n = 0%N)) as [->|Hn]; [exists 0%N; lia|].
        apply (trailing_zeros_divide 128); [done|lia]. }
      destruct Hdiv as [q Hq]. exists (q + 1)%N. rewrite Hq at 1. rewrite Hc.
      unfold ilog2. rewrite N2Nat.id. lia. }
    unfold ilog2 in *. lia.
Qed.

Lemma to_nat_pow2 k : N.to_nat (2 ^ N.of_nat k) = 2 ^ k.
Proof. rewrite <- of_nat_pow2. apply Nat2N.id. Qed.

Lemma pow2_le_128 bits : bits <= 128 -> (2 ^ N.of_nat bits <= 2 ^ 128)%N.
Proof. intros. apply N.pow_le_mono_r; lia. Qed.

(** One iteration of the skip loop appends a block of empty leaves. *)
Lemma skip_step bits l st s :
  bits <= 128 -> counter_repr zop l st -> length st = S bits ->
  s <> 0%N -> (N.of_nat (length l) + s <= 2 ^ N.of_nat bits)%N ->
  let n := N.of_nat (length l) in
  let m := skip_chunk n s in
  let '(level, current) := merge_empty bits n (drop m st) m zero_hash in
  exists st', arr_set st level current = Ret st' /\
    counter_repr zop (l ++ replicate (2 ^ m) zero_hash) st' /\ length st' = S bits.
Proof.
  intros Hbits Hr Hlen Hs Hfit n m. pose proof (pow2_le_128 bits Hbits) as H128.
  pose proof (skip_chunk_le n s Hs) as Hle. fold m in Hle.
  assert (Hq : exists q, length l = 2 ^ m * q).
  { destruct (decide (n = 0%N)) as [Hz|Hn]; [exists 0; unfold n in Hz; lia|].
    destruct (proj2 (trailing_zeros_divide 128 n m Hn)) as [q Hq]; [unfold m, skip_chunk; lia|].
    exists (N.to_nat q). unfold n in Hq. rewrite <- (Nat2N.id (length l)), Hq, N2Nat.inj_mul.
    by rewrite to_nat_pow2. }
  assert (Hnat : length l + 2 ^ m <= 2 ^ bits).
  { rewrite <- of_nat_pow2 in Hle, Hfit. unfold n in *. lia. }
  destruct Hq as [q Hq]. destruct (push_block m l st q Hr Hq) as (st' & Hp & Hr' & Hl').
  { rewrite Hlen, Nat.pow_succ_r'. pose proof (Nat.pow_nonzero 2 m). lia. }
  assert (Hm : m <= length st).
  { assert (m <= bits); [|lia]. apply (Nat.pow_le_mono_r_iff 2); lia. }
  destruct (push_leaf_offset m st st' _ _ Hm Hp) as [Ht Hset].
  rewrite merge_empty_spec; [|unfold n; lia|exact Ht]. exists (take m st ++ st').
  split_and!; [exact Hset|done|congruence].
Qed.

Lemma skip_loop_spec bits fuel l st s :
  bits <= 128 -> counter_repr zop l st -> length st = S bits ->
  (N.of_nat (length l) + s <= 2 ^ N.of_nat bits)%N ->
  skip_measure (wrap128 (N.of_nat (length l))) s < fuel ->
  exists st', skip_loop fuel bits st (wrap128 (N.of_nat (length l))) s =
      Ret (st', wrap128 (N.of_nat (length l) + s)) /\
    counter_repr zop (l ++ replicate (N.to_nat s) zero_hash) st' /\ length st' = S bits.
Proof.
  intros Hbits. pose proof (pow2_le_128 bits Hbits) as H128. revert l st s.
  induction fuel as [|fuel IH]; intros l st s Hr Hlen Hfit Hf; [lia|].
  cbn [skip_loop]. case_decide as Hs.
  { subst s. exists st. rewrite N.add_0_r, app_nil_r. done. }
  assert (Hw : wrap128 (N.of_nat (length l)) = N.of_nat (length l)) by (apply N.mod_small; lia).
  rewrite Hw in Hf |- *. pose proof (skip_chunk_le (N.of_nat (length l)) s Hs) as Hle.
  pose proof (skip_measure_step (N.of_nat (length l)) s Hs ltac:(lia)) as Hmeas. cbv zeta in Hmeas.
  pose proof (skip_step bits l st s Hbits Hr Hlen Hs Hfit) as Hstep. cbv zeta in Hstep.
  fold (skip_chunk (N.of_nat (length l)) s) in *.
  set (m := skip_chunk (N.of_nat (length l)) s) in *.
  destruct (merge_empty bits _ (drop m st) m zero_hash) as [level current].
  destruct Hstep as (st' & -> & Hr' & Hl'). cbn [obind].
  set (c := (2 ^ N.of_nat m)%N) in *.
  assert (Hc : c = N.of_nat (2 ^ m)) by (unfold c; by rewrite of_nat_pow2).
  replace (N.of_nat (length l) + c)%N with
    (N.of_nat (length (l ++ replicate (2 ^ m) zero_hash))) in *
    by (rewrite length_app, length_replicate; lia).
  destruct (IH _ st' (s - c)%N Hr' Hl') as (st'' & -> & Hr'' & Hl'').
  { rewrite length_app, length_replicate. lia. }
  { lia. }
  exists st''. rewrite <- app_assoc, <- replicate_add in Hr''.
  replace (2 ^ m + N.to_nat (s - c)) with (N.to_nat s) in Hr'' by lia.
  split_and!; [|done..]. do 3 f_equal. rewrite length_app, length_replicate. lia.
Qed.

Lemma skip_measure_bound n s : (s < 2 ^ 128)%N -> skip_measure n s < 257.
Proof.
  intros Hs. unfold skip_measure. assert (ilog2 s <= 127); [|case_decide; lia].
  unfold ilog2. destruct (decide (s = 0%N)) as [->|Hz]; [simpl; lia|].
  pose proof (proj1 (N.log2_lt_pow2 s 128 ltac:(lia)) Hs). lia.
Qed.

Lemma skip_leaves_spec bits l st processed s :
  bits <= 128 -> counter_repr zop l st -> length st = S bits ->
  (N.of_nat (length l) <= 2 ^ N.of_nat bits)%N -> (s < 2 ^ 128)%N ->
  (bits = 128 -> processed = true /\ (N.of_nat (length l) < 2 ^ 128)%N) ->
  let total := (N.of_nat (length l) + s)%N in
  if decide (total <= 2 ^ N.of_nat bits)%N then
    exists st', skip_leaves bits st processed (wrap128 (N.of_nat (length l))) s =
        Ret (Some (st', processed, wrap128 total)) /\
      counter_repr zop (l ++ replicate (N.to_nat s) zero_hash) st' /\ length st' = S bits
  else skip_leaves bits st processed (wrap128 (N.of_nat (length l))) s = Ret None.
Proof.
  intros Hbits Hr Hlen Hle Hs H128 total. pose proof (pow2_le_128 bits Hbits) as Hp.
  assert (Hw : wrap128 (N.of_nat (length l)) = N.of_nat (length l)).
  { apply N.mod_small. destruct (decide (bits = 128)) as [Hb|Hb]; [by apply H128|].
    assert (2 ^ N.of_nat bits < 2 ^ 128)%N; [apply N.pow_lt_mono_r; lia|lia]. }
  assert (Hloop : (total <= 2 ^ N.of_nat bits)%N ->
    exists st', skip_loop 257 bits st (wrap128 (N.of_nat (length l))) s = Ret (st', wrap128 total) /\
      counter_repr zop (l ++ replicate (N.to_nat s) zero_hash) st' /\ length st' = S bits).
  { intros Hfit. apply skip_loop_spec; [done..|]. by apply skip_measure_bound. }
  unfold skip_leaves. destruct (decide (bits < 128)) as [Hb|Hb].
  - assert (Hlt : (2 ^ N.of_nat bits < 2 ^ 128)%N) by (apply N.pow_lt_mono_r; lia).
    rewrite Hw in *. fold total. destruct (decide (total <= 2 ^ N.of_nat bits)%N) as [Hfit|Hover].
    + do 2 rewrite decide_False by lia. destruct (Hloop Hfit) as (st' & -> & ? & ?). by exists st'.
    + case_decide; [done|]. by rewrite decide_True by lia.
  - replace bits with 128 in * by lia. destruct H128 as [-> Hlt]; [done|]. rewrite Hw in *.
    fold total. change (N.of_nat 128) with 128%N in *. cbn [andb].
    destruct (decide (total <= 2 ^ 128)%N) as [Hfit|Hover].
    + assert (Hno : bool_decide (2 ^ 128 <= total)%N && bool_decide (0 < wrap128 total)%N = false).
      { apply andb_false_iff. destruct (decide (total = 2 ^ 128)%N) as [->|]; [by right|].
        left. apply bool_decide_eq_false. lia. }
      rewrite Hno. destruct (Hloop Hfit) as (st' & -> & ? & ?). by exists st'.
    + rewrite !bool_decide_eq_true_2; [done| |lia]. unfold wrap128.
      replace total with ((total - 2 ^ 128) + 1 * 2 ^ 128)%N by lia.
      rewrite N.Div0.mod_add, N.mod_small; unfold total; lia.
Qed.

(** ** The root

    Occupied leaves are merged without the test for empty nodes, which is right as
    long as no pair of nodes of the tree, other than two empty ones, hashes to the empty
    hash. *)

Definition zero_hashed (l : list H) : Prop :=
  exists a b, (a, b) ∈ tree_inputs zop l /\ (a <> zero_hash \/ b <> zero_hash) /\
    hash_pair a b = zero_hash.

Lemma zop_nonzero_r a b : b <> zero_hash -> zop a b = hash_pair a b.
Proof. intros Hb. unfold zop. rewrite decide_False; [done|tauto]. Qed.

Lemma zop_nonzero_l a b : a <> zero_hash -> zop a b = hash_pair a b.
Proof. intros Hb. unfold zop. rewrite decide_False; [done|tauto]. Qed.

Lemma not_zero_hashed l a b :
  ~ zero_hashed l -> (a, b) ∈ tree_inputs zop l -> a <> zero_hash \/ b <> zero_hash ->
  hash_pair a b <> zero_hash.
Proof. intros Hl Hin Hab Hz. apply Hl. by exists a, b. Qed.

(** The pair of the last leaf before [x], and [x], is one of the tree. *)
Lemma pair_inputs_middle (l : list H) s x rest :
  Nat.odd (length l) = true -> last l = Some s -> (s, x) ∈ pair_inputs (l ++ x :: rest).
Proof.
  induction l as [|y|a b r IH] using list_pair_ind; intros Ho Hs; [done| |].
  - injection Hs as ->. cbn. by left.
  - cbn [app pair_inputs]. right. apply IH; [done|]. by destruct r.
Qed.

(** Leaves that are merged as in the tree *)
Definition pushes_ok (bits : nat) (l : list H) : Prop :=
  forall l1 x l2 st, l = l1 ++ x :: l2 -> x <> zero_hash ->
    (N.of_nat (length l1) < 2 ^ N.of_nat bits)%N ->
    counter_repr zop l1 st -> length st = S bits ->
    push_leaf hash_pair st (N.of_nat (length l1)) x = push_leaf zop st (N.of_nat (length l1)) x.

Lemma carry_in_tree k l1 x l2 st :
  length (l1 ++ x :: l2) = 2 ^ k -> ~ zero_hashed (l1 ++ x :: l2) -> x <> zero_hash ->
  counter_repr zop l1 st ->
  let t := trailing_ones (N.of_nat (length l1)) in
  carry hash_pair (take t st) x = carry zop (take t st) x.
Proof.
  cbv zeta. revert l1 x l2 st. induction k as [|k IH]; intros l1 x l2 st Hl Hz Hx Hr.
  { rewrite length_app in Hl. cbn in Hl. destruct l1; [done|cbn in Hl; lia]. }
  destruct st as [|s st]; [by rewrite !take_nil|]. destruct Hr as [Hs Hr].
  rewrite trailing_ones_step, odd_of_nat, div2_of_nat.
  destruct (Nat.odd (length l1)) eqn:Ho; [|done]. specialize (Hs eq_refl).
  cbn [take carry foldl]. rewrite zop_nonzero_r by done.
  fold (carry hash_pair (take (trailing_ones (N.of_nat (Nat.div2 (length l1)))) st) (hash_pair s x)).
  fold (carry zop (take (trailing_ones (N.of_nat (Nat.div2 (length l1)))) st) (hash_pair s x)).
  set (L := l1 ++ x :: l2) in *.
  assert (H2 : 2 <= length L) by (rewrite Hl; pose proof (Nat.pow_nonzero 2 k); cbn; lia).
  destruct (tree_inputs_next zop L H2) as [Hp Hn]. rewrite (next_level_pow2 zop L k Hl) in Hn.
  assert (Hin : (s, x) ∈ tree_inputs zop L) by (apply Hp; by apply pair_inputs_middle).
  assert (HL : pairs zop L = pairs zop l1 ++ hash_pair s x :: pairs zop l2).
  { unfold L. change (x :: l2) with ([x] ++ l2). rewrite app_assoc, pairs_app_even.
    - rewrite (pairs_snoc_odd zop l1 s), zop_nonzero_r, <- app_assoc by done. done.
    - rewrite length_app, Nat.add_1_r, Nat.even_succ. done. }
  rewrite <- (length_pairs zop l1). apply (IH _ _ (pairs zop l2)); [| | |done].
  - rewrite <- HL. by apply length_pairs_pow2.
  - rewrite <- HL. intros (a & b & Hab & H'). apply Hz. exists a, b. split; [by apply Hn|done].
  - eapply not_zero_hashed; [exact Hz|exact Hin|by right].
Qed.

(** What is known after the leaves [l]. *)
Definition absorbed (bits : nat) (l : list H) (st : list H) (processed : bool) : Prop :=
  counter_repr zop l st /\ length st = S bits /\
  (N.of_nat (length l) <= 2 ^ N.of_nat bits)%N /\
  (bits = 128 -> processed = bool_decide (l <> [])).

Lemma wrap128_small bits (l : list H) :
  bits <= 128 -> (N.of_nat (length l) < 2 ^ N.of_nat bits)%N ->
  wrap128 (N.of_nat (length l)) = N.of_nat (length l).
Proof. intros Hb Hl. pose proof (pow2_le_128 bits Hb). apply N.mod_small. lia. Qed.

(** The guard at the head of the loop detects exactly a full tree. *)
Lemma full_check bits l st processed :
  bits <= 128 -> absorbed bits l st processed ->
  (if decide (bits < 128)
   then bool_decide (wrap128 (N.of_nat (length l)) = 2 ^ N.of_nat bits)%N
   else processed && bool_decide (wrap128 (N.of_nat (length l)) = 0%N)) =
  bool_decide (N.of_nat (length l) = 2 ^ N.of_nat bits)%N.
Proof.
  intros Hbits (_ & _ & Hle & Hproc). destruct (decide (bits < 128)) as [Hb|Hb].
  - assert (2 ^ N.of_nat bits < 2 ^ 128)%N by (apply N.pow_lt_mono_r; lia).
    unfold wrap128. by rewrite N.mod_small by lia.
  - replace bits with 128 in * by lia. rewrite Hproc by done.
    change (N.of_nat 128) with 128%N in *.
    destruct (decide (N.of_nat (length l) = 2 ^ 128)%N) as [He|Hne].
    + rewrite He. rewrite (bool_decide_eq_true_2 (l <> [])); [done|]. by intros ->.
    + unfold wrap128. rewrite N.mod_small by lia. rewrite (bool_decide_eq_false_2 (_ = 2 ^ 128)%N) by done.
      destruct l as [|x l]; [by rewrite bool_decide_eq_false_2 by (by intros [])|].
      rewrite andb_comm. rewrite bool_decide_eq_false_2; [done|]. simpl. lia.
Qed.

Lemma absorb_occupied bits l st processed x :
  bits <= 128 -> absorbed bits l st processed ->
  push_leaf hash_pair st (N.of_nat (length l)) x = push_leaf zop st (N.of_nat (length l)) x ->
  (N.of_nat (length l) < 2 ^ N.of_nat bits)%N ->
  exists st', push_leaf hash_pair st (wrap128 (N.of_nat (length l))) x = Ret st' /\
    absorbed bits (l ++ [x]) st' (if decide (bits < 128) then processed else true).
Proof.
  intros Hbits (Hr & Hlen & Hle & Hproc) Hx Hlt. rewrite (wrap128_small bits) by done.
  rewrite Hx.
  destruct (push_leaf_repr zop l st x Hr) as (st' & Hp & Hr' & Hl').
  { rewrite Hlen, Nat.pow_succ_r'. rewrite <- of_nat_pow2 in Hlt. lia. }
  exists st'. split; [done|]. split_and!; [done|congruence| |].
  - rewrite length_app. simpl. lia.
  - intros ->. simpl. symmetry. apply bool_decide_eq_true. by destruct l.
Qed.

(** The state after all of [l], or the early return when [l] does not fit. *)
Definition absorbs (bits : nat) (l : list H) (run : outcome (option (list H * bool * N))) : Prop :=
  if decide (N.of_nat (length l) <= 2 ^ N.of_nat bits)%N then
    exists st processed, run = Ret (Some (st, processed, wrap128 (N.of_nat (length l)))) /\
      absorbed bits l st processed
  else run = Ret None.

Lemma absorbs_occupied bits l st processed x rest k :
  bits <= 128 -> absorbed bits l st processed -> x <> zero_hash -> pushes_ok bits (l ++ x :: rest) ->
  (N.of_nat (length l) < 2 ^ N.of_nat bits)%N ->
  (forall st' processed', absorbed bits (l ++ [x]) st' processed' ->
     absorbs bits ((l ++ [x]) ++ rest) (k st' processed' (wrap128 (N.of_nat (length (l ++ [x])))))) ->
  absorbs bits ((l ++ [x]) ++ rest)
    (let! stack := push_leaf hash_pair st (wrap128 (N.of_nat (length l))) x in
     k stack (if decide (bits < 128) then processed else true)
       (wrap128 (wrap128 (N.of_nat (length l)) + 1))).
Proof.
  intros Hbits Habs Hx Hpush Hlt Hk. pose proof Habs as (Hr & Hlen & _ & _).
  destruct (absorb_occupied bits l st processed x) as (st' & -> & Habs'); [done|done| |done|].
  { by apply (Hpush l x rest st). }
  cbn [obind]. rewrite (wrap128_small bits l) by done.
  replace (N.of_nat (length l) + 1)%N with (N.of_nat (length (l ++ [x])))
    by (rewrite length_app; simpl; lia). by apply Hk.
Qed.

Lemma absorbs_empty bits l st processed skip rest k :
  bits <= 128 -> absorbed bits l st processed -> (0 < skip < 2 ^ 128)%N ->
  (N.of_nat (length l) < 2 ^ N.of_nat bits)%N ->
  let l' := l ++ replicate (N.to_nat skip) zero_hash in
  (forall st' processed', absorbed bits l' st' processed' ->
     absorbs bits (l' ++ rest) (k st' processed' (wrap128 (N.of_nat (length l'))))) ->
  absorbs bits (l' ++ rest)
    (let! skipped := skip_leaves bits st (if decide (bits < 128) then processed else true)
                       (wrap128 (N.of_nat (length l))) skip in
     match skipped with
     | None => Ret None
     | Some (stack, processed, num_leaves) => k stack processed num_leaves
     end).
Proof.
  intros Hbits (Hr & Hlen & Hle & Hproc) Hskip Hlt l' Hk.
  set (processed1 := if decide (bits < 128) then processed else true).
  pose proof (skip_leaves_spec bits l st processed1 skip Hbits Hr Hlen Hle ltac:(lia)) as Hs.
  cbv zeta in Hs. replace (N.of_nat (length l) + skip)%N with (N.of_nat (length l')) in Hs
    by (unfold l'; rewrite length_app, length_replicate; lia).
  specialize (Hs ltac:(intros ->; change (N.of_nat 128) with 128%N in *; split; [done|lia])).
  case_decide as Hfit.
  - destruct Hs as (st' & -> & Hr' & Hl'). cbn [obind]. apply Hk.
    split_and!; [done|congruence|done|]. intros ->. symmetry. apply bool_decide_eq_true.
    unfold l'. destruct l; [|done]. destruct (N.to_nat skip) eqn:E; [lia|done].
  - rewrite Hs. unfold absorbs. rewrite decide_False; [done|]. rewrite length_app. lia.
Qed.

Lemma absorb_sparse_spec bits leaves l st processed :
  bits <= 128 -> absorbed bits l st processed -> Forall leaf_ok leaves ->
  pushes_ok bits (l ++ (leaves ≫= expand_leaf)) ->
  absorbs bits (l ++ (leaves ≫= expand_leaf))
    (absorb_leaves bits leaves st processed (wrap128 (N.of_nat (length l)))).
Proof.
  intros Hbits Habs Hok. revert l st processed Habs.
  induction Hok as [|leaf leaves Hleaf _ IH]; intros l st processed Habs Hpush.
  { unfold absorbs. simpl. rewrite app_nil_r. rewrite decide_True by apply Habs. eauto. }
  cbn [absorb_leaves]. rewrite (full_check bits l st processed) by done.
  rewrite bind_cons, app_assoc in *.
  destruct (decide (N.of_nat (length l) = 2 ^ N.of_nat bits)%N) as [Hfull|Hroom].
  - rewrite bool_decide_eq_true_2 by done. unfold absorbs. rewrite decide_False; [done|].
    assert (Hpos : 1 <= length (expand_leaf leaf)).
    { destruct leaf; simpl in *; [lia..|]. rewrite length_replicate. lia. }
    rewrite !length_app. lia.
  - rewrite bool_decide_eq_false_2 by done.
    assert (Hlt : (N.of_nat (length l) < 2 ^ N.of_nat bits)%N) by (pose proof Habs as (_ & _ & ? & _); lia).
    destruct leaf as [x|x|skip]; cbn [expand_leaf].
    + apply (absorbs_occupied bits l st processed x _ (absorb_leaves bits leaves)); auto.
      by rewrite <- app_assoc in Hpush.
    + apply (absorbs_occupied bits l st processed x _ (absorb_leaves bits leaves)); auto.
      by rewrite <- app_assoc in Hpush.
    + apply (absorbs_empty bits l st processed skip _ (absorb_leaves bits leaves)); auto.
Qed.

(** The end of [compute_root_only], once the leaves are in. *)
Definition finish (bits : nat) (st : list H) (processed : bool) (num_leaves : N)
    : outcome (option H) :=
  let! filled :=
    if decide (bits < 128) then
      skip_leaves bits st processed num_leaves (2 ^ N.of_nat bits - num_leaves)
    else if processed && bool_decide (num_leaves <> 0%N) then
      skip_leaves bits st processed num_leaves (wrap128 (2 ^ 128 - num_leaves))
    else Ret (Some (st, processed, num_leaves)) in
  match filled with
  | None => Ret None
  | Some (stack, _, _) => let! root := arr_get stack bits in Ret (Some root)
  end.

Definition fill (bits : nat) (l : list H) : list H :=
  l ++ replicate (2 ^ bits - length l) zero_hash.

Lemma length_fill bits l :
  (N.of_nat (length l) <= 2 ^ N.of_nat bits)%N -> length (fill bits l) = 2 ^ bits.
Proof.
  intros Hle. rewrite <- of_nat_pow2 in Hle. unfold fill. rewrite length_app, length_replicate. lia.
Qed.

Lemma top_root bits l st :
  (N.of_nat (length l) <= 2 ^ N.of_nat bits)%N ->
  counter_repr zop (fill bits l) st -> length st = S bits ->
  (let! root := arr_get st bits in Ret (Some root)) = Ret (merkle_root zop (fill bits l)).
Proof.
  intros Hle Hr Hl. pose proof (length_fill bits l Hle) as Hlen. unfold arr_get.
  rewrite (counter_repr_top zop bits (fill bits l) st Hr) by (done || lia).
  destruct (merkle_root zop _) eqn:Hroot; [done|]. apply merkle_root_None in Hroot.
  rewrite Hroot in Hlen. simpl in Hlen. pose proof (Nat.pow_nonzero 2 bits). lia.
Qed.

Lemma fill_skip bits l st processed :
  bits <= 128 -> absorbed bits l st processed ->
  (2 ^ N.of_nat bits - N.of_nat (length l) < 2 ^ 128)%N ->
  (bits = 128 -> processed = true /\ (N.of_nat (length l) < 2 ^ 128)%N) ->
  exists st' n', skip_leaves bits st processed (wrap128 (N.of_nat (length l)))
      (2 ^ N.of_nat bits - N.of_nat (length l)) = Ret (Some (st', processed, n')) /\
    counter_repr zop (fill bits l) st' /\ length st' = S bits.
Proof.
  intros Hbits (Hr & Hlen & Hle & _) Hlt Hp.
  pose proof (skip_leaves_spec bits l st processed _ Hbits Hr Hlen Hle Hlt Hp) as Hs.
  cbv zeta in Hs. rewrite decide_True in Hs by lia. destruct Hs as (st' & Hs & Hr' & Hl').
  eexists st', _. split_and!; [exact Hs| |done]. unfold fill.
  replace (2 ^ bits - length l) with (N.to_nat (2 ^ N.of_nat bits - N.of_nat (length l)))
    by (rewrite <- of_nat_pow2; lia). done.
Qed.

Lemma finish_small bits l st processed :
  bits < 128 -> absorbed bits l st processed ->
  finish bits st processed (wrap128 (N.of_nat (length l))) = Ret (merkle_root zop (fill bits l)).
Proof.
  intros Hb Habs. pose proof Habs as (_ & _ & Hle & _).
  assert (Hlt : (2 ^ N.of_nat bits < 2 ^ 128)%N) by (apply N.pow_lt_mono_r; lia).
  destruct (fill_skip bits l st processed) as (st' & n' & Hs & Hr' & Hl'); [lia|done|lia|lia|].
  unfold finish. rewrite decide_True by done.
  replace (wrap128 (N.of_nat (length l))) with (N.of_nat (length l)) in * by
    (symmetry; apply N.mod_small; lia).
  rewrite Hs. cbn [obind]. by apply top_root.
Qed.

Lemma finish_large l st processed :
  absorbed 128 l st processed -> l <> [] ->
  finish 128 st processed (wrap128 (N.of_nat (length l))) = Ret (merkle_root zop (fill 128 l)).
Proof.
  intros Habs Hne. pose proof Habs as (Hr & Hlen & Hle & Hproc).
  rewrite (bool_decide_eq_true_2 (l <> [])) in Hproc by done. rewrite Hproc in Habs |- * by done.
  assert (Hpos : (0 < N.of_nat (length l))%N) by (destruct l; [done|simpl; lia]).
  unfold finish. rewrite decide_False by lia. cbn [andb].
  destruct (decide (N.of_nat (length l) = 2 ^ 128)%N) as [Hfull|Hlt].
  - rewrite bool_decide_eq_false_2; [|rewrite Hfull; vm_compute; by intros []].
    cbn [obind]. apply top_root; [done| |done]. unfold fill.
    replace (2 ^ 128 - length l) with 0; [by rewrite app_nil_r|].
    pose proof (of_nat_pow2 128) as Hp. change (N.of_nat 128) with 128%N in Hp. lia.
  - assert (Hw : wrap128 (N.of_nat (length l)) = N.of_nat (length l)).
    { apply N.mod_small. change (N.of_nat 128) with 128%N in Hle. lia. }
    destruct (fill_skip 128 l st true) as (st' & n' & Hs & Hr' & Hl');
      [lia|done|change (N.of_nat 128) with 128%N in *; lia..|].
    change (N.of_nat 128) with 128%N in *.
    rewrite Hw in *. rewrite bool_decide_eq_true_2 by lia.
    unfold wrap128. rewrite (N.mod_small (2 ^ 128 - _)) by lia.
    rewrite Hs. cbn [obind]. by apply top_root.
Qed.

Lemma merkle_root_empty k : merkle_root zop (replicate (2 ^ k) zero_hash) = Some zero_hash.
Proof.
  induction k as [|k IH]; [done|].
  rewrite (merkle_root_pow2 zop _ k) by apply length_replicate. by rewrite pairs_replicate_zero.
Qed.

Lemma sparse_root_only_spec bits leaves :
  bits <= 128 -> Forall leaf_ok leaves -> pushes_ok bits (leaves ≫= expand_leaf) ->
  compute_root_only bits leaves =
    Ret (if decide (N.of_nat (length (leaves ≫= expand_leaf)) <= 2 ^ N.of_nat bits)%N
         then merkle_root zop (all_leaves bits leaves) else None).
Proof.
  intros Hbits Hok Hpush. set (l := leaves ≫= expand_leaf) in *. change (all_leaves bits leaves) with (fill bits l).
  assert (H0 : absorbed bits [] (replicate (bits + 1) zero_hash) false).
  { split_and!; [apply counter_repr_replicate|rewrite length_replicate; lia|simpl; lia|done]. }
  pose proof (absorb_sparse_spec bits leaves [] _ _ Hbits H0 Hok Hpush) as Ha.
  rewrite app_nil_l in Ha. fold l in Ha. change (wrap128 (N.of_nat (length []))) with 0%N in Ha.
  unfold compute_root_only. unfold absorbs in Ha. case_decide as Hfit; [|by rewrite Ha].
  destruct (Nat.lt_ge_cases bits 128) as [Hb|Hb].
  { destruct Ha as (st & processed & -> & Habs). exact (finish_small bits l st processed Hb Habs). }
  destruct Hok as [|leaf leaves Hleaf _].
  - unfold fill. cbn [absorb_leaves obind andb]. rewrite decide_False by lia. cbn [obind].
    rewrite app_nil_l. cbn [length]. rewrite Nat.sub_0_r, merkle_root_empty.
    unfold arr_get. by rewrite lookup_replicate_2 by lia.
  - destruct Ha as (st & processed & -> & Habs).
    assert (bits = 128) as -> by lia. refine (finish_large _ st processed Habs _).
    subst l. rewrite bind_cons. destruct leaf as [x|x|n]; simpl in *; [done..|].
    destruct (N.to_nat n) eqn:E; [lia|done].
Qed.

Lemma pushes_ok_tree bits l :
  (N.of_nat (length l) <= 2 ^ N.of_nat bits)%N -> ~ zero_hashed (fill bits l) -> pushes_ok bits l.
Proof.
  intros Hle Hz l1 x l2 st -> Hx Hlt Hr Hlen. pose proof (length_fill bits _ Hle) as Hl.
  unfold fill in Hz, Hl. set (n := 2 ^ bits - _) in *. rewrite <- app_assoc in Hz, Hl. cbn [app] in Hz, Hl.
  unfold push_leaf. by rewrite (carry_in_tree bits l1 x (l2 ++ replicate n zero_hash) st).
Qed.

(** A hash that is never empty, as that of the symbolic trees *)
Lemma pushes_ok_nonzero bits l : (forall a b : H, hash_pair a b <> zero_hash) -> pushes_ok bits l.
Proof.
  intros Hnz l1 x l2 st _ Hx _ _ _. unfold push_leaf. f_equal. generalize (take (trailing_ones (N.of_nat (length l1))) st) as items.
  revert x Hx. unfold carry. intros x Hx items. revert x Hx. induction items as [|item items IH]; intros x Hx; [done|]. cbn.
  rewrite zop_nonzero_r by done. by apply IH.
Qed.

Lemma zero_hashed_next (l : list H) k :
  length l = 2 ^ S k -> zero_hashed (pairs zop l) -> zero_hashed l.
Proof.
  intros Hl (a & b & Hab & H'). exists a, b. split; [|done].
  assert (H2 : 2 <= length l) by (rewrite Hl; pose proof (Nat.pow_nonzero 2 k); cbn; lia).
  destruct (tree_inputs_next zop l H2) as [_ Hn]. rewrite (next_level_pow2 zop l k Hl) in Hn. by apply Hn.
Qed.

(** ** Verification *)

(** The loop of [verify]. *)
Definition fold_proof (proof : list H) (s : H * N) : H * N :=
  foldl (fun '(current, position) hash =>
           (if N.even position then hash_pair current hash else hash_pair hash current,
            N.div2 position)) s proof.

Lemma verify_in_range bits root proof i leaf :
  i < 2 ^ bits ->
  verify bits root proof (N.of_nat i) leaf =
    bool_decide (root = (fold_proof proof (leaf, N.of_nat i)).1).
Proof.
  intros Hi. unfold verify. rewrite decide_False by (rewrite <- of_nat_pow2; lia).
  change (foldl _ (leaf, N.of_nat i) proof) with (fold_proof proof (leaf, N.of_nat i)).
  by destruct (fold_proof proof (leaf, N.of_nat i)).
Qed.

Lemma fold_proof_cons h proof x i :
  fold_proof (h :: proof) (x, N.of_nat i) =
    fold_proof proof (if Nat.even i then hash_pair x h else hash_pair h x, N.of_nat (Nat.div2 i)).
Proof. unfold fold_proof. simpl foldl. by rewrite Unbalanced.even_of_nat, div2_of_nat. Qed.

(** The parent of a nonempty node. *)
Lemma parent_nonzero (l : list H) k i x :
  length l = 2 ^ S k -> l !! i = Some x -> x <> zero_hash ->
  exists s, sibling l i = Some s /\
    pairs zop l !! Nat.div2 i =
      Some (if Nat.even i then hash_pair x s else hash_pair s x).
Proof.
  intros Hl Hx Hnz. pose proof (lookup_lt_Some _ _ _ Hx) as Hi.
  destruct (Balanced.sibling_pow2 l k i Hl Hi) as (s & _ & Hs). exists s. split; [done|].
  pose proof (next_level_lookup zop l i x Hx) as Hn. rewrite Hs, (next_level_pow2 zop l k Hl) in Hn.
  rewrite Hn. destruct (Nat.even i); [by rewrite zop_nonzero_l|by rewrite zop_nonzero_r].
Qed.

Lemma path_zop (l : list H) k i s :
  length l = 2 ^ S k -> i < length l -> sibling l i = Some s ->
  merkle_path zop l i = s :: merkle_path zop (pairs zop l) (Nat.div2 i).
Proof. intros Hl Hi Hs. by rewrite merkle_path_next, Hs, (next_level_pow2 zop l k). Qed.

Lemma fold_proof_complete k (l : list H) i x :
  length l = 2 ^ k -> ~ zero_hashed l -> l !! i = Some x -> x <> zero_hash ->
  merkle_root zop l = Some (fold_proof (merkle_path zop l i) (x, N.of_nat i)).1.
Proof.
  revert l i x. induction k as [|k IH]; intros l i x Hl Hz Hx Hnz.
  - destruct l as [|y [|]]; simpl in Hl; try lia. destruct i; [|done]. by simplify_eq/=.
  - destruct (parent_nonzero l k i x Hl Hx Hnz) as (s & Hs & Hp).
    assert (H2 : 2 <= length l) by (rewrite Hl; pose proof (Nat.pow_nonzero 2 k); cbn; lia).
    pose proof (sibling_pair_input l i x s Hx Hs) as Hin.
    apply (proj1 (tree_inputs_next zop l H2)) in Hin.
    rewrite (path_zop l k i s) by eauto using lookup_lt_Some.
    rewrite fold_proof_cons, (merkle_root_pow2 zop l k) by done.
    apply IH; [by apply length_pairs_pow2| |done|].
    + intros Hz'. apply Hz. by apply (zero_hashed_next l k).
    + destruct (Nat.even i); (eapply not_zero_hashed; [exact Hz|exact Hin|auto]).
Qed.

Definition zero_among (qs : list (H * H)) : Prop :=
  exists c d, (c, d) ∈ qs /\ hash_pair c d = zero_hash.

Lemma zop_hash_inj a b c d ps qs :
  (a, b) ∈ ps -> (c, d) ∈ qs -> zop a b = hash_pair c d ->
  (a = c /\ b = d) \/ collision_between ps qs \/ zero_among qs.
Proof.
  intros Hp Hq. unfold zop. case_decide; intros He.
  - right; right. by exists c, d.
  - destruct (hash_pair_inj_or (a, b) (c, d) ps qs Hp Hq He) as [[= -> ->]|]; [by left|by right; left].
Qed.

Lemma fold_proof_sound k (l : list H) i leaf proof :
  length l = 2 ^ k -> length proof = k -> i < length l ->
  merkle_root zop l = Some (fold_proof proof (leaf, N.of_nat i)).1 ->
  (l !! i = Some leaf /\ proof = merkle_path zop l i) \/
  collision_between (tree_inputs zop l) (path_inputs (length l) i leaf proof) \/
  zero_among (path_inputs (length l) i leaf proof).
Proof.
  revert l i leaf proof. induction k as [|k IH]; intros l i leaf proof Hl Hp Hi Hr.
  - destruct l as [|y [|]], proof; simpl in Hl, Hp; try lia. destruct i; [|simpl in Hi; lia].
    left. rewrite merkle_path_short by done. by simplify_eq/=.
  - destruct proof as [|h proof]; [done|]. injection Hp as Hp.
    destruct (Balanced.sibling_pow2 l k i Hl Hi) as (b & _ & Hs).
    destruct (lookup_lt_is_Some_2 l i Hi) as [x Hx].
    assert (H2 : 2 <= length l) by (rewrite Hl; pose proof (Nat.pow_nonzero 2 k); simpl; lia).
    rewrite fold_proof_cons, (merkle_root_pow2 zop l k) in Hr by done.
    pose proof (Unbalanced.path_inputs_take l i b leaf h proof Hi H2 Hs) as [Hq Hqs].
    destruct (tree_inputs_next zop l H2) as [Hpi Hti].
    pose proof (next_level_lookup zop l i x Hx) as Hn.
    rewrite (next_level_pow2 zop l k), Hs in * by done.
    pose proof (length_pairs_pow2 zop l k Hl) as Hlp.
    replace (length (next_level hash_pair l)) with (length (pairs zop l)) in Hqs
      by (by rewrite Hlp, length_next_level, Hl, Nat.pow_succ_r', Nat.div2_succ_double).
    rewrite (path_zop l k i b) by done.
    assert (Hi' : Nat.div2 i < length (pairs zop l)).
    { rewrite Hlp, Nat.div2_div. apply Balanced.half_lt_pow2. by rewrite <- Hl. }
    destruct (IH (pairs zop l) (Nat.div2 i) _ proof Hlp Hp Hi' Hr) as [[Hc Hd]|[Hcol|(c & d & Hcd & Hz)]].
    + rewrite Hn in Hc. rewrite Hx, Hd. pose proof (sibling_pair_input l i x b Hx Hs) as Hin%Hpi.
      destruct (Nat.even i); injection Hc as Hc;
        (edestruct zop_hash_inj as [[Ha Hb]|Hcol]; [exact Hin|exact Hq|exact Hc|..];
          [left; split; congruence|by right; rewrite <- Hd]).
    + right; left. eapply collision_between_mono; [exact Hti|exact Hqs|]. by destruct (Nat.even i).
    + right; right. exists c, d. split; [|done]. apply Hqs. by destruct (Nat.even i).
Qed.

Lemma pairs_no_empty (l : list H) k :
  length l = 2 ^ S k -> ~ zero_hashed l -> Forall (fun x => x <> zero_hash) l ->
  pairs zop l = pairs hash_pair l /\ Forall (fun x => x <> zero_hash) (pairs hash_pair l).
Proof.
  intros Hl Hz Hall.
  assert (H2 : 2 <= length l) by (rewrite Hl; pose proof (Nat.pow_nonzero 2 k); cbn; lia).
  assert (Hin : pair_inputs l ⊆ tree_inputs zop l) by apply (tree_inputs_next zop l H2).
  assert (Ht : forall a b, (a, b) ∈ tree_inputs zop l -> a <> zero_hash \/ b <> zero_hash ->
    hash_pair a b <> zero_hash) by (intros; by eapply not_zero_hashed).
  clear H2 Hl Hz. revert Hin Ht Hall. generalize (tree_inputs zop l) as t. intros t Hin Ht.
  revert Hin. induction l as [|y|a b r IH] using list_pair_ind; intros Hin Hall; [done|by split; constructor|].
  apply Forall_cons in Hall as [Ha [_ Hr]%Forall_cons]. cbn [pair_inputs] in Hin.
  destruct IH as [IH1 IH2]; [set_solver|done|]. cbn [pairs]. rewrite zop_nonzero_l, IH1 by done.
  split; [done|]. constructor; [|done]. apply Ht; [set_solver|by left].
Qed.

Lemma merkle_root_no_empty (l : list H) k :
  length l = 2 ^ k -> ~ zero_hashed l -> Forall (fun x => x <> zero_hash) l ->
  merkle_root zop l = merkle_root hash_pair l.
Proof.
  revert l. induction k as [|k IH]; intros l Hl Hz Hall.
  - by destruct l as [|y [|]]; simpl in Hl; try lia.
  - destruct (pairs_no_empty l k Hl Hz Hall) as [He Hall'].
    rewrite (merkle_root_pow2 zop l k), (merkle_root_pow2 hash_pair l k), He by done.
    apply IH; [by apply length_pairs_pow2| |done].
    rewrite <- He. intros Hz'. apply Hz. by apply (zero_hashed_next l k).
Qed.

Lemma expand_occupied (l : list H) : (Occupied <$> l) ≫= expand_leaf = l.
Proof. induction l as [|x l IH]; [done|]. csimpl. by rewrite IH. Qed.

(** The root of leaves that fit, when no pair of their tree hashes to the empty hash *)
Lemma sparse_root_in_tree bits leaves :
  bits <= 128 -> Forall leaf_ok leaves ->
  (N.of_nat (length (leaves ≫= expand_leaf)) <= 2 ^ N.of_nat bits)%N ->
  ~ zero_hashed (all_leaves bits leaves) ->
  compute_root_only bits leaves = Ret (merkle_root zop (all_leaves bits leaves)).
Proof.
  intros Hb Hok Hfit Hz. rewrite sparse_root_only_spec; [by rewrite decide_True|done|done|].
  by apply pushes_ok_tree.
Qed.
End Tree.

Arguments sparse_leaf : clear implicits.

(** ** Termination and bounds

    What the loops do with their stacks depends on the lengths of the stacks only, so that
    every run has the shape of one on symbolic nodes. *)
Section Shapes.
Context {A B : Type} {hasher_A : NodeHasher A} {hasher_B : NodeHasher B}.

Definition same_leaf (x : sparse_leaf A) (y : sparse_leaf B) : Prop :=
  match x, y with
  | Empty n, Empty n' => n = n'
  | Empty _, _ | _, Empty _ => False
  | _, _ => True
  end.

Definition same_stack (r1 : outcome (list A)) (r2 : outcome (list B)) : Prop :=
  match r1, r2 with
  | Ret s1, Ret s2 => length s1 = length s2
  | Fault, Fault => True
  | _, _ => False
  end.

Definition same_state (r1 : outcome (option (list A * bool * N))) (r2 : outcome (option (list B * bool * N)))
    : Prop :=
  match r1, r2 with
  | Ret (Some (s1, p1, n1)), Ret (Some (s2, p2, n2)) => length s1 = length s2 /\ p1 = p2 /\ n1 = n2
  | Ret None, Ret None => True
  | Fault, Fault => True
  | _, _ => False
  end.

Lemma merge_empty_shape bits n (i1 : list A) (i2 : list B) level x y :
  length i1 = length i2 -> (merge_empty bits n i1 level x).1 = (merge_empty bits n i2 level y).1.
Proof.
  revert i2 level x y. induction i1 as [|a i1 IH]; intros [|b i2] level x y Hl; try done.
  cbn [merge_empty]. destruct (_ || _); [done|]. apply IH. by injection Hl.
Qed.

Lemma arr_set_shape (s1 : list A) (s2 : list B) i x y :
  length s1 = length s2 -> same_stack (arr_set s1 i x) (arr_set s2 i y).
Proof. intros Hl. unfold arr_set. rewrite Hl. destruct (decide _); [|done]. cbn. by rewrite !length_insert. Qed.

Lemma push_leaf_shape (s1 : list A) (s2 : list B) n x y :
  length s1 = length s2 -> same_stack (push_leaf hash_pair s1 n x) (push_leaf hash_pair s2 n y).
Proof. intros Hl. by apply arr_set_shape. Qed.

Lemma skip_loop_shape fuel bits (s1 : list A) (s2 : list B) n skip :
  length s1 = length s2 ->
  match skip_loop fuel bits s1 n skip, skip_loop fuel bits s2 n skip with
  | Ret (r1, n1), Ret (r2, n2) => length r1 = length r2 /\ n1 = n2
  | Fault, Fault => True
  | _, _ => False
  end.
Proof.
  revert s1 s2 n skip. induction fuel as [|fuel IH]; intros s1 s2 n skip Hl; [done|].
  cbn [skip_loop]. destruct (decide (skip = 0%N)); [done|].
  set (m := Nat.min _ _).
  pose proof (merge_empty_shape bits n (drop m s1) (drop m s2) m zero_hash zero_hash
    ltac:(by rewrite !length_drop, Hl)) as Hm.
  destruct (merge_empty bits n (drop m s1) m zero_hash) as [level c1].
  destruct (merge_empty bits n (drop m s2) m zero_hash) as [level' c2]. cbn in Hm. subst level'.
  pose proof (arr_set_shape s1 s2 level c1 c2 Hl) as Ha. unfold same_stack in Ha.
  destruct (arr_set s1 level c1), (arr_set s2 level c2); try done. by apply IH.
Qed.

Lemma skip_leaves_shape bits (s1 : list A) (s2 : list B) p n skip :
  length s1 = length s2 -> same_state (skip_leaves bits s1 p n skip) (skip_leaves bits s2 p n skip).
Proof.
  intros Hl. unfold skip_leaves. pose proof (skip_loop_shape 257 bits s1 s2 n skip Hl) as Hs.
  destruct (decide (bits < 128)).
  - destruct (decide _); [done|]. destruct (decide _); [done|].
    by destruct (skip_loop 257 bits s1 n skip) as [[]|], (skip_loop 257 bits s2 n skip) as [[]|];
      try done; destruct Hs as [? ->].
  - destruct (_ && _); [done|].
    by destruct (skip_loop 257 bits s1 n skip) as [[]|], (skip_loop 257 bits s2 n skip) as [[]|];
      try done; destruct Hs as [? ->].
Qed.

Lemma absorb_leaves_shape bits l1 l2 (s1 : list A) (s2 : list B) p n :
  Forall2 same_leaf l1 l2 -> length s1 = length s2 ->
  same_state (absorb_leaves bits l1 s1 p n) (absorb_leaves bits l2 s2 p n).
Proof.
  intros Hs. revert s1 s2 p n. induction Hs as [|x y l1 l2 Hxy _ IH]; intros s1 s2 p n Hl; [done|].
  cbn [absorb_leaves]. destruct (if decide (bits < 128) then _ else _); [done|].
  set (p' := if decide (bits < 128) then p else true).
  assert (Hpush : forall a b, same_state
    (let! stack := push_leaf hash_pair s1 n a in absorb_leaves bits l1 stack p' (wrap128 (n + 1)))
    (let! stack := push_leaf hash_pair s2 n b in absorb_leaves bits l2 stack p' (wrap128 (n + 1)))).
  { intros a b. pose proof (push_leaf_shape s1 s2 n a b Hl) as Hp. unfold same_stack in Hp.
    destruct (push_leaf _ s1 n a), (push_leaf _ s2 n b); try done. by apply IH. }
  destruct x, y; try done; try apply Hpush. cbn in Hxy. subst.
  pose proof (skip_leaves_shape bits s1 s2 p' n skip_count0 Hl) as Hk. unfold same_state in Hk |- *.
  destruct (skip_leaves bits s1 p' n skip_count0) as [[[[]]|]|],
    (skip_leaves bits s2 p' n skip_count0) as [[[[]]|]|]; try done.
  destruct Hk as (? & -> & ->). by apply IH.
Qed.

Lemma compute_root_only_shape bits l1 l2 :
  Forall2 same_leaf l1 l2 ->
  match compute_root_only bits l1, compute_root_only bits l2 with
  | Ret (Some _), Ret (Some _) => True
  | Ret None, Ret None => True
  | Fault, Fault => True
  | _, _ => False
  end.
Proof.
  intros Hs. unfold compute_root_only.
  pose proof (absorb_leaves_shape bits l1 l2 (replicate (bits + 1) zero_hash) (replicate (bits + 1) zero_hash)
    false 0 Hs ltac:(by rewrite !length_replicate)) as Ha. unfold same_state in Ha.
  destruct (absorb_leaves bits l1 _ _ _) as [[[[s1 p1] n1]|]|],
    (absorb_leaves bits l2 _ _ _) as [[[[s2 p2] n2]|]|]; try done.
  destruct Ha as (Hl & -> & ->). cbn [obind].
  assert (Hf : forall (r1 : outcome (option (list A * bool * N))) (r2 : outcome (option (list B * bool * N))),
    same_state r1 r2 ->
    match
      (let! filled := r1 in
       match filled with None => Ret None | Some (st, _, _) => let! root := arr_get st bits in Ret (Some root) end),
      (let! filled := r2 in
       match filled with None => Ret None | Some (st, _, _) => let! root := arr_get st bits in Ret (Some root) end)
    with
    | Ret (Some _), Ret (Some _) => True
    | Ret None, Ret None => True
    | Fault, Fault => True
    | _, _ => False
    end).
  { intros [[[[t1 q1] m1]|]|] [[[[t2 q2] m2]|]|]; try done. intros (Hl' & _). cbn [obind]. unfold arr_get.
    destruct (t1 !! bits) eqn:E1, (t2 !! bits) eqn:E2; try done; exfalso.
    - apply lookup_lt_Some in E1. apply lookup_ge_None in E2. lia.
    - apply lookup_lt_Some in E2. apply lookup_ge_None in E1. lia. }
  apply Hf. destruct (decide (bits < 128)); [by apply skip_leaves_shape|].
  destruct (_ && _); [by apply skip_leaves_shape|done].
Qed.
End Shapes.

Lemma sym_nonzero (a b : sym) : hash_pair a b <> zero_hash.
Proof. done. Qed.

(** Symbolic leaves in the place of the given ones *)
Definition symbolic {H} (leaf : sparse_leaf H) : sparse_leaf sym :=
  match leaf with
  | Occupied _ => Occupied (SymLeaf 1)
  | OccupiedOwned _ => OccupiedOwned (SymLeaf 1)
  | Empty n => Empty n
  end.

Lemma symbolic_shape {H} (leaves : list (sparse_leaf H)) : Forall2 same_leaf leaves (symbolic <$> leaves).
Proof. induction leaves as [|[] leaves IH]; constructor; done. Qed.

Lemma symbolic_ok {H} {hasher : NodeHasher H} (leaves : list (sparse_leaf H)) :
  Forall leaf_ok leaves -> Forall leaf_ok (symbolic <$> leaves).
Proof. intros Hok. apply Forall_fmap. eapply Forall_impl; [exact Hok|]. by intros []. Qed.

Lemma symbolic_length {H} {hasher : NodeHasher H} (leaves : list (sparse_leaf H)) :
  length ((symbolic <$> leaves) ≫= expand_leaf) = length (leaves ≫= expand_leaf).
Proof.
  induction leaves as [|leaf leaves IH]; [done|]. rewrite fmap_cons, !bind_cons, !length_app, IH. f_equal.
  destruct leaf; cbn; [done..|]. by rewrite !length_replicate.
Qed.

(** The computation returns, with a root exactly if the leaves fit. *)
Lemma sparse_root_returns {H} {hasher : NodeHasher H} bits (leaves : list (sparse_leaf H)) :
  bits <= 128 -> Forall leaf_ok leaves ->
  if decide (N.of_nat (length (leaves ≫= expand_leaf)) <= 2 ^ N.of_nat bits)%N
  then exists root, compute_root_only bits leaves = Ret (Some root)
  else compute_root_only bits leaves = Ret None.
Proof.
  intros Hb Hok. pose proof (compute_root_only_shape bits leaves _ (symbolic_shape leaves)) as Hs.
  rewrite (sparse_root_only_spec bits (symbolic <$> leaves) Hb (symbolic_ok leaves Hok)
    (pushes_ok_nonzero _ _ sym_nonzero)), symbolic_length in Hs.
  destruct (decide _) as [Hfit|].
  - assert (Hl : merkle_root zop (all_leaves bits (symbolic <$> leaves)) <> None).
    { intros Hn%merkle_root_None. apply (f_equal length) in Hn. rewrite <- (symbolic_length leaves) in Hfit.
      pose proof (length_fill bits _ Hfit) as Hf. unfold fill in Hf. unfold all_leaves in Hn. rewrite Hn in Hf.
      pose proof (Nat.pow_nonzero 2 bits). cbn in Hf. lia. }
    destruct (merkle_root zop _); [|done].
    destruct (compute_root_only bits leaves) as [[root|]|]; try done. by exists root.
  - by destruct (compute_root_only bits leaves) as [[root|]|].
Qed.

Section Properties.
Context {H : Type} {hasher : NodeHasher H}.

(** ** Properties *)

(** C30. For every number of bits up to 128 and every list of occupied leaves, none of
    them the empty hash, and nonempty runs of empty ones, the computation ends within its
    bounds and returns [None] exactly when there are more than [2 ^ BITS] leaves, also at
    128 bits, where the leaf counter wraps around; otherwise it returns the root of the
    complete tree of [2 ^ BITS] leaves in which two empty nodes combine to the empty node,
    unless a pair of nodes of this tree, not both empty, hashes to the empty hash. *)
Theorem sparse_compute_root_only_correct bits (leaves : list (sparse_leaf H)) :
  bits <= 128 -> Forall leaf_ok leaves ->
  if decide (N.of_nat (length (leaves ≫= expand_leaf)) <= 2 ^ N.of_nat bits)%N then
    exists root, compute_root_only bits leaves = Ret (Some root) /\
      (~ zero_hashed (all_leaves bits leaves) -> merkle_root zop (all_leaves bits leaves) = Some root)
  else compute_root_only bits leaves = Ret None.
Proof.
  intros Hb Hok. pose proof (sparse_root_returns bits leaves Hb Hok) as Hr.
  destruct (decide _) as [Hfit|]; [|done]. destruct Hr as [root Hroot]. exists root. split; [done|].
  intros Hz. rewrite (sparse_root_in_tree bits leaves Hb Hok Hfit Hz) in Hroot. by injection Hroot.
Qed.

(** A sparse tree without empty leaves has the root of the unbalanced tree, unless one of
    its pairs hashes to the empty hash. *)
Theorem sparse_full_tree_agrees bits (l : list H) :
  bits <= 63 -> length l = 2 ^ bits -> Forall (fun x => x <> zero_hash) l -> ~ zero_hashed l ->
  compute_root_only bits (Occupied <$> l) =
    Unbalanced.compute_root_only (2 ^ N.of_nat bits) l.
Proof.
  intros Hb Hl Hall Hz. assert (Hb63 : (2 ^ N.of_nat bits <= 2 ^ 63)%N) by (apply N.pow_le_mono_r; lia).
  assert (He : all_leaves bits (Occupied <$> l) = l).
  { unfold all_leaves. by rewrite expand_occupied, Hl, Nat.sub_diag, app_nil_r. }
  rewrite sparse_root_in_tree, Unbalanced.compute_root_only_spec; [|lia|lia| | |by rewrite He].
  - rewrite He, (merkle_root_no_empty l bits) by done. rewrite <- of_nat_pow2, decide_True by lia. done.
  - by apply Forall_fmap.
  - rewrite expand_occupied, Hl, of_nat_pow2. done.
Qed.

(** An occupied leaf is proved by the siblings on its way up the tree: [verify]
    accepts them with the root that [compute_root_only] returns, unless a pair of the tree
    hashes to the empty hash. *)
Theorem sparse_verify_occupied bits leaves i leaf root :
  bits <= 128 -> Forall leaf_ok leaves -> leaf <> zero_hash -> ~ zero_hashed (all_leaves bits leaves) ->
  all_leaves bits leaves !! i = Some leaf ->
  compute_root_only bits leaves = Ret (Some root) ->
  verify bits root (merkle_path zop (all_leaves bits leaves) i) (N.of_nat i) leaf = true.
Proof.
  intros Hb Hok Hnz Hz Hi Hroot. pose proof (sparse_root_returns bits leaves Hb Hok) as Hr.
  destruct (decide _) as [Hfit|]; [|congruence]. rewrite sparse_root_in_tree in Hroot by done.
  injection Hroot as Hroot.
  pose proof (length_fill bits _ Hfit) as Hlen. change (fill bits _) with (all_leaves bits leaves) in Hlen.
  pose proof (lookup_lt_Some _ _ _ Hi) as Hlt. rewrite Hlen in Hlt.
  rewrite verify_in_range by done. apply bool_decide_eq_true.
  pose proof (fold_proof_complete bits _ i leaf Hlen Hz Hi Hnz). congruence.
Qed.

(** [verify] is sound: what it accepts for the root of a tree is the leaf at
    that index, empty or not, with the siblings on its way up, unless a pair hashed
    by the verifier collides with one of the tree, or a pair of the tree or of the
    verifier hashes to the empty hash. *)
Theorem sparse_verify_sound bits leaves i leaf root proof :
  bits <= 128 -> Forall leaf_ok leaves -> length proof = bits -> i < 2 ^ bits ->
  ~ zero_hashed (all_leaves bits leaves) ->
  compute_root_only bits leaves = Ret (Some root) ->
  verify bits root proof (N.of_nat i) leaf = true ->
  let l := all_leaves bits leaves in
  (l !! i = Some leaf /\ proof = merkle_path zop l i) \/
  collision_between (tree_inputs zop l) (path_inputs (length l) i leaf proof) \/
  zero_among (path_inputs (length l) i leaf proof).
Proof.
  intros Hb Hok Hp Hi Hz Hroot Hv l. pose proof (sparse_root_returns bits leaves Hb Hok) as Hr.
  destruct (decide _) as [Hfit|]; [|congruence]. rewrite sparse_root_in_tree in Hroot by done.
  injection Hroot as Hroot.
  pose proof (length_fill bits _ Hfit) as Hlen. change (fill bits _) with l in Hlen.
  rewrite verify_in_range in Hv by done. apply bool_decide_eq_true in Hv.
  apply (fold_proof_sound bits); [done|done|by rewrite Hlen|].
  fold l in Hroot. congruence.
Qed.

(** The tree with no occupied leaf has the empty hash as its root, but the
    proof that any of its leaves is empty (all siblings empty) is rejected: [verify]
    hashes two empty nodes instead of collapsing them, and only accepts if the hashes on
    the way up end in the empty hash. *)
Theorem sparse_verify_rejects_empty_tree bits i :
  0 < bits <= 128 -> (i < 2 ^ N.of_nat bits)%N ->
  compute_root_only bits ([] : list (sparse_leaf H)) = Ret (Some zero_hash) /\
  verify bits zero_hash (replicate bits zero_hash) i zero_hash =
    bool_decide (zero_hash = (fold_proof (replicate bits zero_hash) (zero_hash, i)).1).
Proof.
  intros [Hpos Hb] Hi. split.
  - rewrite sparse_root_only_spec; [|done|constructor|by intros [] ? ? ? ?].
    rewrite decide_True by (simpl; lia).
    unfold all_leaves. cbn [mbind list_bind length app]. by rewrite Nat.sub_0_r, merkle_root_empty.
  - rewrite <- (N2Nat.id i). apply verify_in_range. rewrite <- of_nat_pow2 in Hi. lia.
Qed.
End Properties.

(** ** Witnesses *)

Lemma sym_not_zero_hashed l : ~ zero_hashed (H := sym) l.
Proof. by intros (a & b & _ & _ & H). Qed.

(** Leaf 1, five empty leaves, leaf 7; one more is missing. *)
Definition sample_leaves : list (sparse_leaf sym) :=
  [Occupied (SymLeaf 1); Empty 5; OccupiedOwned (SymLeaf 7)].

Definition sample_root : sym :=
  SymNode (SymNode (SymNode (SymLeaf 1) (SymLeaf 0)) (SymLeaf 0))
    (SymNode (SymLeaf 0) (SymNode (SymLeaf 7) (SymLeaf 0))).

Lemma sample_leaves_ok : Forall leaf_ok sample_leaves.
Proof. repeat constructor; done. Qed.

Lemma sparse_compute_root_only_correct_witness :
  compute_root_only 3 sample_leaves = Ret (Some sample_root) /\
  compute_root_only 3 [Empty 7; Occupied (SymLeaf 1); Empty 1] = Ret None.
Proof.
  split.
  - destruct (sparse_compute_root_only_correct 3 sample_leaves) as (root & -> & Hr);
      [lia|apply sample_leaves_ok|]. specialize (Hr (sym_not_zero_hashed _)). vm_compute in Hr.
    injection Hr as <-. done.
  - apply (sparse_compute_root_only_correct 3 [Empty 7; Occupied (SymLeaf 1); Empty 1]);
      [lia|repeat constructor; done].
Defined.

Lemma sparse_full_tree_agrees_witness :
  compute_root_only 1 (Occupied <$> (SymLeaf <$> [1; 2])) =
    Unbalanced.compute_root_only 2 (SymLeaf <$> [1; 2]).
Proof.
  apply (sparse_full_tree_agrees 1 (SymLeaf <$> [1; 2]));
    [lia|reflexivity|repeat constructor; done|apply sym_not_zero_hashed].
Defined.

Lemma sparse_verify_occupied_witness :
  verify 3 sample_root (merkle_path zop (all_leaves 3 sample_leaves) 6) (N.of_nat 6)
    (SymLeaf 7) = true.
Proof.
  apply (sparse_verify_occupied 3 sample_leaves 6 (SymLeaf 7) sample_root);
    [lia|apply sample_leaves_ok|done|apply sym_not_zero_hashed|reflexivity|vm_compute; reflexivity].
Defined.

Lemma sparse_verify_sound_witness :
  let l := all_leaves 3 sample_leaves in
  let proof := [SymLeaf 7; SymLeaf 0; SymNode (SymNode (SymLeaf 1) (SymLeaf 0)) (SymLeaf 0)] in
  (l !! 7 = Some (SymLeaf 0) /\ proof = merkle_path zop l 7) \/
  collision_between (tree_inputs zop l) (path_inputs (length l) 7 (SymLeaf 0) proof) \/
  zero_among (path_inputs (length l) 7 (SymLeaf 0) proof).
Proof.
  apply (sparse_verify_sound 3 sample_leaves 7 (SymLeaf 0) sample_root);
    [lia|apply sample_leaves_ok|reflexivity|simpl; lia|apply sym_not_zero_hashed|vm_compute; reflexivity
    |vm_compute; reflexivity].
Defined.

Lemma sparse_verify_rejects_empty_tree_witness :
  compute_root_only 2 ([] : list (sparse_leaf sym)) = Ret (Some zero_hash) /\
  verify 2 zero_hash (replicate 2 zero_hash) 1 (zero_hash : sym) = false.
Proof. destruct (sparse_verify_rejects_empty_tree (H := sym) 2 1 ltac:(lia) eq_refl) as [-> ->]. done. Defined.
End Sparse.
