(* ===== verification/Blake3.v ===== *)
(** * BLAKE3: the compression function and its portable drivers

    Model of [crates/shared/ab-blake3/src/portable.rs] and [platform.rs] and of the
    constants of [lib.rs]: 32-bit words are [N], arrays of words are lists.  All array
    indices in the compression function are constants below the length of the array,
    so total lookup stands for them.

    The reference is the compression function of the BLAKE3 paper, which permutes the
    message words between rounds; the implementation reads them through a table of
    schedules instead. *)

From S2P Require Import Prelude Slices.
From stdpp Require Import prelude.
From Stdlib Require Import NArith Lia.
From Stdlib Require Import Strings.Byte.

Module Blake3.

Definition OUT_LEN : nat := 32.
Definition KEY_LEN : nat := 32.
Definition BLOCK_LEN : nat := 64.
Definition CHUNK_LEN : nat := 1024.

Definition IV : list N :=
  [0x6A09E667; 0xBB67AE85; 0x3C6EF372; 0xA54FF53A;
   0x510E527F; 0x9B05688C; 0x1F83D9AB; 0x5BE0CD19]%N.

Definition MSG_SCHEDULE : list (list nat) :=
  [[0; 1; 2; 3; 4; 5; 6; 7; 8; 9; 10; 11; 12; 13; 14; 15];
   [2; 6; 3; 10; 7; 0; 4; 13; 1; 11; 12; 5; 9; 14; 15; 8];
   [3; 4; 10; 12; 13; 2; 7; 14; 6; 5; 9; 0; 11; 15; 8; 1];
   [10; 7; 12; 9; 14; 3; 13; 15; 4; 0; 11; 2; 5; 8; 1; 6];
   [12; 13; 9; 11; 15; 10; 14; 8; 7; 2; 5; 3; 0; 1; 6; 4];
   [9; 14; 11; 5; 8; 12; 15; 1; 13; 3; 0; 10; 2; 6; 4; 7];
   [11; 15; 5; 0; 1; 9; 8; 6; 14; 10; 2; 12; 3; 4; 7; 13]].

Definition CHUNK_START : N := N.shiftl 1 0.
Definition CHUNK_END : N := N.shiftl 1 1.
Definition PARENT : N := N.shiftl 1 2.
Definition ROOT : N := N.shiftl 1 3.
Definition KEYED_HASH : N := N.shiftl 1 4.
Definition DERIVE_KEY_CONTEXT : N := N.shiftl 1 5.
Definition DERIVE_KEY_MATERIAL : N := N.shiftl 1 6.

(** ** Words *)

Definition wrapping_add (a b : N) : N := ((a + b) mod 2 ^ 32)%N.

Definition rotate_right (x n : N) : N :=
  N.lor (N.shiftr x n) (N.shiftl x (32 - n) mod 2 ^ 32).

(** [u32::from_le_bytes] of the bytes [4 i .. 4 i + 3]. *)
Definition extract_u32 (src : list byte) (i : nat) : N :=
  le_value [src !!! (i * 4 + 0); src !!! (i * 4 + 1); src !!! (i * 4 + 2); src !!! (i * 4 + 3)].

Definition words_from_le_bytes_32 (bytes : list byte) : list N := extract_u32 bytes <$> seq 0 8.
Definition words_from_le_bytes_64 (bytes : list byte) : list N := extract_u32 bytes <$> seq 0 16.

(** A transmutation, on a little-endian machine. *)
Definition le_bytes_from_words_32 (words : list N) : list byte := concat (le_split 4 <$> words).

(** ** The compression function *)

Definition g (state : list N) (a b c d : nat) (x y : N) : list N :=
  let state := <[a := wrapping_add (wrapping_add (state !!! a) (state !!! b)) x]> state in
  let state := <[d := rotate_right (N.lxor (state !!! d) (state !!! a)) 16]> state in
  let state := <[c := wrapping_add (state !!! c) (state !!! d)]> state in
  let state := <[b := rotate_right (N.lxor (state !!! b) (state !!! c)) 12]> state in
  let state := <[a := wrapping_add (wrapping_add (state !!! a) (state !!! b)) y]> state in
  let state := <[d := rotate_right (N.lxor (state !!! d) (state !!! a)) 8]> state in
  let state := <[c := wrapping_add (state !!! c) (state !!! d)]> state in
  <[b := rotate_right (N.lxor (state !!! b) (state !!! c)) 7]> state.

Definition round (state msg : list N) (round : nat) : list N :=
  let schedule := MSG_SCHEDULE !!! round in
  let m i := msg !!! (schedule !!! i) in
  let state := g state 0 4 8 12 (m 0) (m 1) in
  let state := g state 1 5 9 13 (m 2) (m 3) in
  let state := g state 2 6 10 14 (m 4) (m 5) in
  let state := g state 3 7 11 15 (m 6) (m 7) in
  let state := g state 0 5 10 15 (m 8) (m 9) in
  let state := g state 1 6 11 12 (m 10) (m 11) in
  let state := g state 2 7 8 13 (m 12) (m 13) in
  g state 3 4 9 14 (m 14) (m 15).

Definition counter_low (counter : N) : N := (counter mod 2 ^ 32)%N.
Definition counter_high (counter : N) : N := (N.shiftr counter 32 mod 2 ^ 32)%N.

Definition rounds (state block_words : list N) : list N :=
  let state := round state block_words 0 in
  let state := round state block_words 1 in
  let state := round state block_words 2 in
  let state := round state block_words 3 in
  let state := round state block_words 4 in
  let state := round state block_words 5 in
  round state block_words 6.

Definition initial_state (cv : list N) (counter_lo counter_hi block_len flags : N) : list N :=
  [cv !!! 0; cv !!! 1; cv !!! 2; cv !!! 3; cv !!! 4; cv !!! 5; cv !!! 6; cv !!! 7;
   IV !!! 0; IV !!! 1; IV !!! 2; IV !!! 3; counter_lo; counter_hi; block_len; flags].

Definition compress_pre (cv block_words : list N) (block_len counter flags : N) : list N :=
  rounds (initial_state cv (counter_low counter) (counter_high counter) block_len flags)
    block_words.

(** The second half of the state is folded into the chaining value. *)
Definition feed_forward (state : list N) : list N :=
  (fun i => N.lxor (state !!! i) (state !!! (i + 8))) <$> seq 0 8.

Definition compress_in_place (cv block_words : list N) (block_len counter flags : N) : list N :=
  feed_forward (compress_pre cv block_words block_len counter flags).

(** The variants for a 32-bit counter. *)
Definition compress_pre_u32 (cv block_words : list N) (block_len counter flags : N) : list N :=
  rounds (initial_state cv counter 0 block_len flags) block_words.

Definition compress_in_place_u32 (cv block_words : list N) (block_len counter flags : N) : list N :=
  feed_forward (compress_pre_u32 cv block_words block_len counter flags).

(** ** Hashing of whole blocks *)

(** The loop of [hash1] over the blocks of [slice]. *)
Fixpoint hash1_loop (fuel : nat) (slice : list byte) (cv : list N)
    (counter flags block_flags flags_end : N) : outcome (list N) :=
  match fuel with
  | O => Fault
  | S fuel =>
      if decide (length slice < BLOCK_LEN) then Ret cv
      else
        let! (block, slice) := split_at slice BLOCK_LEN in
        let block_flags :=
          if decide (slice = []) then N.lor block_flags flags_end else block_flags in
        let cv :=
          compress_in_place cv (words_from_le_bytes_64 block) (N.of_nat BLOCK_LEN) counter
            block_flags in
        hash1_loop fuel slice cv counter flags flags flags_end
  end.

Definition hash1 (input : list byte) (key : list N) (counter flags flags_start flags_end : N)
    : outcome (list byte) :=
  if decide (length input mod BLOCK_LEN = 0) then
    let! cv :=
      hash1_loop (S (length input)) input key counter flags (N.lor flags flags_start) flags_end in
    Ret (le_bytes_from_words_32 cv)
  else Fault.

(** [blake3::IncrementCounter] *)
Inductive increment_counter : Type := Yes | No.

(** Addition on [u64] that panics on overflow. *)
Definition add_u64 (a b : N) : outcome N :=
  if decide (a + b < 2 ^ 64)%N then Ret (a + b)%N else Fault.

(** [out] is the slice written to; the result is its content afterwards. *)
Fixpoint hash_many_loop (inputs : list (list byte)) (key : list N) (counter : N)
    (incr : increment_counter) (flags flags_start flags_end : N) (out : list byte)
    : outcome (list byte) :=
  match inputs with
  | [] => Ret out
  | input :: inputs =>
      let! (_, out) := split_at out OUT_LEN in
      let! o := hash1 input key counter flags flags_start flags_end in
      let! counter := match incr with Yes => add_u64 counter 1 | No => Ret counter end in
      let! out := hash_many_loop inputs key counter incr flags flags_start flags_end out in
      Ret (o ++ out)
  end.

Definition hash_many (inputs : list (list byte)) (key : list N) (counter : N)
    (incr : increment_counter) (flags flags_start flags_end : N) (out : list byte)
    : outcome (list byte) :=
  if decide (length inputs * OUT_LEN <= length out) then
    hash_many_loop inputs key counter incr flags flags_start flags_end out
  else Fault.

(** ** The compression function of the paper *)

(** The message permutation of the paper, table 2. *)
Definition permutation : list nat := [2; 6; 3; 10; 7; 0; 4; 13; 1; 11; 12; 5; 9; 14; 15; 8].

Definition permute (m : list N) : list N := (fun i => m !!! i) <$> permutation.

Definition spec_round (v m : list N) : list N :=
  let v := g v 0 4 8 12 (m !!! 0) (m !!! 1) in
  let v := g v 1 5 9 13 (m !!! 2) (m !!! 3) in
  let v := g v 2 6 10 14 (m !!! 4) (m !!! 5) in
  let v := g v 3 7 11 15 (m !!! 6) (m !!! 7) in
  let v := g v 0 5 10 15 (m !!! 8) (m !!! 9) in
  let v := g v 1 6 11 12 (m !!! 10) (m !!! 11) in
  let v := g v 2 7 8 13 (m !!! 12) (m !!! 13) in
  g v 3 4 9 14 (m !!! 14) (m !!! 15).

Fixpoint spec_rounds (n : nat) (v m : list N) : list N :=
  match n with
  | O => v
  | S n => spec_rounds n (spec_round v m) (permute m)
  end.

(** The chaining value: the first eight words of the output of the compression. *)
Definition spec_compress (h m : list N) (t b d : N) : list N :=
  let v :=
    spec_rounds 7 (take 8 h ++ take 4 IV ++ [(t mod 2 ^ 32)%N; (t / 2 ^ 32)%N; b; d]) m in
  zip_with N.lxor (take 8 v) (drop 8 v).

(** ** Correctness *)

Definition is_u32 (x : N) : Prop := (x < 2 ^ 32)%N.

(** A chaining value: eight words. *)
Definition cv_ok (cv : list N) : Prop := length cv = 8 /\ Forall is_u32 cv.

Lemma list_length_S {A} (l : list A) n :
  length l = S n -> exists x l', l = x :: l' /\ length l' = n.
Proof. destruct l as [|x l]; [done|]. intros [= H]. eauto. Qed.

(** Name the elements of a list of known length. *)
Ltac split_list H :=
  repeat (let x := fresh "x" in let l := fresh "l" in let E := fresh "E" in
          apply list_length_S in H as (x & l & -> & H));
  apply nil_length_inv in H; subst.

Lemma schedule_permuted r m i :
  length m = 16 -> r < 7 -> i < 16 ->
  m !!! ((MSG_SCHEDULE !!! r) !!! i) = Nat.iter r permute m !!! i.
Proof.
  intros Hm Hr Hi. split_list Hm.
  do 7 (destruct r as [|r]; [do 16 (destruct i as [|i]; [reflexivity|]); lia|]). lia.
Qed.

Lemma round_permuted r state m :
  length m = 16 -> r < 7 -> round state m r = spec_round state (Nat.iter r permute m).
Proof.
  intros Hm Hr. unfold round, spec_round. cbv beta zeta.
  by rewrite !schedule_permuted by (done || lia).
Qed.

Lemma rounds_spec state m : length m = 16 -> rounds state m = spec_rounds 7 state m.
Proof. intros Hm. unfold rounds. cbv zeta. rewrite !round_permuted by (done || lia). cbn [spec_rounds Nat.iter nat_rect]. reflexivity. Qed.

(** *** Words stay within 32 bits *)

Lemma lt_pow2_bits x k : (x < 2 ^ k)%N <-> forall i, (k <= i)%N -> N.testbit x i = false.
Proof.
  split.
  - intros Hx i Hi. rewrite <- (N.mod_small x (2 ^ k)) by done. by apply N.mod_pow2_bits_high.
  - intros Hb. replace x with (x mod 2 ^ k)%N; [apply N.mod_lt; by apply N.pow_nonzero|].
    apply N.bits_inj. intros i. destruct (N.lt_ge_cases i k).
    + by rewrite N.mod_pow2_bits_low.
    + by rewrite N.mod_pow2_bits_high, Hb.
Qed.

Lemma lor_lt a b k : (a < 2 ^ k -> b < 2 ^ k -> N.lor a b < 2 ^ k)%N.
Proof.
  rewrite !lt_pow2_bits. intros Ha Hb i Hi. by rewrite N.lor_spec, Ha, Hb.
Qed.

Lemma lxor_lt a b k : (a < 2 ^ k -> b < 2 ^ k -> N.lxor a b < 2 ^ k)%N.
Proof.
  rewrite !lt_pow2_bits. intros Ha Hb i Hi. by rewrite N.lxor_spec, Ha, Hb.
Qed.

Lemma lxor_u32 a b : is_u32 a -> is_u32 b -> is_u32 (N.lxor a b).
Proof. apply lxor_lt. Qed.

Lemma wrapping_add_u32 a b : is_u32 (wrapping_add a b).
Proof. by apply N.mod_lt. Qed.

Lemma rotate_right_u32 x n : is_u32 x -> is_u32 (rotate_right x n).
Proof.
  intros Hx. apply lor_lt; [|by apply N.mod_lt]. rewrite N.shiftr_div_pow2.
  apply N.le_lt_trans with x; [|done]. apply N.Div0.div_le_upper_bound.
  pose proof (N.pow_nonzero 2 n). nia.
Qed.

Lemma lookup_total_u32 l i : Forall is_u32 l -> is_u32 (l !!! i).
Proof.
  intros Hl. rewrite list_lookup_total_alt. destruct (l !! i) as [x|] eqn:E; [|done].
  by apply (Forall_lookup_1 _ _ _ _ Hl E).
Qed.

#[local] Hint Resolve wrapping_add_u32 rotate_right_u32 lookup_total_u32 lxor_u32 Forall_insert : core.

(** Walk through the states of a sequence of updates. *)
Ltac each_state :=
  repeat match goal with
    | |- Forall is_u32 (let s := ?e in @?f s) =>
        let H := fresh "Hs" in let s := fresh "s" in
        assert (H : Forall is_u32 e) by auto; change (Forall is_u32 (f e));
        revert H; generalize e; intros s H; cbv beta
    end.

Lemma g_u32 state a b c d x y : Forall is_u32 state -> Forall is_u32 (g state a b c d x y).
Proof. intros Hs. cbv beta delta [g]. each_state. auto. Qed.

Lemma g_length state a b c d x y : length (g state a b c d x y) = length state.
Proof. unfold g. cbv zeta. by rewrite !length_insert. Qed.

Lemma spec_round_u32 v m : Forall is_u32 v -> Forall is_u32 (spec_round v m).
Proof. intros Hv. unfold spec_round. cbv zeta. auto 10 using g_u32. Qed.

Lemma spec_round_length v m : length (spec_round v m) = length v.
Proof. unfold spec_round. cbv zeta. by rewrite !g_length. Qed.

Lemma spec_rounds_u32 n v m : Forall is_u32 v -> Forall is_u32 (spec_rounds n v m).
Proof. revert v m. induction n; intros; simpl; auto using spec_round_u32. Qed.

Lemma spec_rounds_length n v m : length (spec_rounds n v m) = length v.
Proof. revert v m. induction n as [|n IH]; intros; simpl; [done|]. by rewrite IH, spec_round_length. Qed.

Lemma feed_forward_spec v :
  length v = 16 -> feed_forward v = zip_with N.lxor (take 8 v) (drop 8 v).
Proof. intros Hv. split_list Hv. reflexivity. Qed.

(** The implementation computes the compression function of the paper. *)
Lemma compress_in_place_spec cv m b t d :
  length cv = 8 -> length m = 16 -> (t < 2 ^ 64)%N ->
  compress_in_place cv m b t d = spec_compress cv m t b d.
Proof.
  intros Hcv Hm Ht. unfold compress_in_place, compress_pre, spec_compress. rewrite rounds_spec by done.
  rewrite feed_forward_spec by by rewrite spec_rounds_length. cbv zeta. do 2 f_equal.
  all: unfold initial_state, counter_low, counter_high; rewrite N.shiftr_div_pow2;
    rewrite (N.mod_small (t / 2 ^ 32)) by (apply N.Div0.div_lt_upper_bound; lia);
    split_list Hcv; reflexivity.
Qed.

Lemma compress_in_place_u32_spec cv m b t d :
  (t < 2 ^ 32)%N -> compress_in_place_u32 cv m b t d = compress_in_place cv m b t d.
Proof.
  intros Ht. unfold compress_in_place_u32, compress_pre_u32, compress_in_place, compress_pre.
  unfold counter_low, counter_high. rewrite N.mod_small by done.
  by rewrite N.shiftr_div_pow2, N.div_small.
Qed.

Lemma spec_compress_length h m t b d : length h = 8 -> length (spec_compress h m t b d) = 8.
Proof.
  intros Hl. unfold spec_compress. cbv zeta.
  rewrite length_zip_with, length_take, length_drop, spec_rounds_length, !length_app, !length_take, Hl.
  done.
Qed.

Lemma spec_compress_ok h m t b d :
  cv_ok h -> (t < 2 ^ 64)%N -> is_u32 b -> is_u32 d -> cv_ok (spec_compress h m t b d).
Proof.
  intros [Hl Hh] Ht Hb Hd. unfold spec_compress. cbv zeta. set (v := spec_rounds _ _ _).
  assert (Hv : length v = 16).
  { unfold v. rewrite spec_rounds_length, !length_app, !length_take, Hl. done. }
  assert (Hu : Forall is_u32 v).
  { apply spec_rounds_u32, Forall_app. split; [by apply Forall_take|]. apply Forall_app.
    split; [by repeat constructor|]. repeat constructor; [by apply N.mod_lt| |done..].
    apply N.Div0.div_lt_upper_bound. lia. }
  clearbody v. split.
  - rewrite length_zip_with, length_take, length_drop. lia.
  - apply Forall_lookup. intros i x. rewrite lookup_zip_with_Some. intros (y & z & -> & Hy & Hz).
    apply lxor_u32; [apply (Forall_lookup_1 _ (take 8 v) i)|apply (Forall_lookup_1 _ (drop 8 v) i)];
      auto using Forall_take, Forall_drop.
Qed.

(** *** Words and bytes *)

Lemma length_words_32 l : length (words_from_le_bytes_32 l) = 8.
Proof. unfold words_from_le_bytes_32. by rewrite length_fmap, length_seq. Qed.

Lemma length_words_64 l : length (words_from_le_bytes_64 l) = 16.
Proof. unfold words_from_le_bytes_64. by rewrite length_fmap, length_seq. Qed.

Lemma words_32_ok l : cv_ok (words_from_le_bytes_32 l).
Proof.
  split; [apply length_words_32|]. apply Forall_fmap, Forall_forall. intros i _. apply le_value_lt.
Qed.

Lemma word_split_value w : is_u32 w -> le_value (le_split 4 w) = w.
Proof. intros Hw. rewrite le_value_split. by apply N.mod_small. Qed.

Ltac word :=
  match goal with |- _ = ?w =>
    transitivity (le_value (le_split 4 w)); [reflexivity|by apply word_split_value] end.

Lemma length_le_bytes cv : length cv = 8 -> length (le_bytes_from_words_32 cv) = OUT_LEN.
Proof. intros Hcv. split_list Hcv. reflexivity. Qed.

Lemma words_32_le_bytes cv : cv_ok cv -> words_from_le_bytes_32 (le_bytes_from_words_32 cv) = cv.
Proof.
  intros [Hl Hcv]. split_list Hl. repeat (apply Forall_cons in Hcv as [? Hcv]).
  unfold words_from_le_bytes_32, extract_u32. cbn [seq fmap list_fmap].
  repeat (apply (f_equal2 cons); [word|]). done.
Qed.

Lemma words_64_le_bytes a b :
  cv_ok a -> cv_ok b ->
  words_from_le_bytes_64 (le_bytes_from_words_32 a ++ le_bytes_from_words_32 b) = a ++ b.
Proof.
  intros [Hla Ha] [Hlb Hb]. split_list Hla. split_list Hlb.
  repeat (apply Forall_cons in Ha as [? Ha]). repeat (apply Forall_cons in Hb as [? Hb]).
  unfold words_from_le_bytes_64, extract_u32. cbn [seq fmap list_fmap app].
  repeat (apply (f_equal2 cons); [word|]). done.
Qed.

Lemma le_bytes_words_32 l :
  length l = 32 -> le_bytes_from_words_32 (words_from_le_bytes_32 l) = l.
Proof.
  intros Hl. split_list Hl. unfold words_from_le_bytes_32, le_bytes_from_words_32, extract_u32.
  cbn [seq fmap list_fmap]. cbv [lookup_total list_lookup_total Nat.mul Nat.add].
  rewrite !(le_split_value [_; _; _; _] : le_split 4 _ = _). reflexivity.
Qed.
End Blake3.
