(* ===== verification/Blake3Tree.v ===== *)
(** * BLAKE3: chunks and the tree

    Model of [crates/shared/ab-blake3/src/const_fn.rs] and [const_fn/hazmat.rs], the
    [const fn] hash function of arbitrary inputs, and the proof that it computes the
    hash function of the BLAKE3 paper.  An output slice is passed as its content and
    returned as its content after the writes.  Debug assertions, splits and copies out
    of range and overflows of the counters are [Fault]. *)

From S2P Require Import Prelude Slices Blake3.
From stdpp Require Import prelude.
From Stdlib Require Import NArith Lia.
From Stdlib Require Import Strings.Byte.

Module Blake3Tree.
Import Blake3.

Definition MAX_SIMD_DEGREE : nat := 1.
Definition MAX_SIMD_DEGREE_OR_2 : nat := 2.

(** [debug_assert!] *)
Definition assert (P : Prop) `{Decision P} : outcome unit := if decide P then Ret tt else Fault.

(** ** [ConstOutput] *)

Record const_output : Type := ConstOutput {
  input_chaining_value : list N;
  block : list byte;
  block_len : N;
  counter : N;
  flags : N
}.

Definition chaining_value (o : const_output) : list byte :=
  le_bytes_from_words_32
    (compress_in_place (input_chaining_value o) (words_from_le_bytes_64 (block o))
      (block_len o) (counter o) (flags o)).

Definition root_hash (o : const_output) : outcome (list byte) :=
  let! _ := assert (counter o = 0%N) in
  Ret (le_bytes_from_words_32
    (compress_in_place (input_chaining_value o) (words_from_le_bytes_64 (block o))
      (block_len o) 0 (N.lor (flags o) ROOT))).

(** ** [ConstChunkState] *)

Record const_chunk_state : Type := ConstChunkState {
  cs_cv : list N;
  cs_chunk_counter : N;
  cs_buf : list byte;
  cs_buf_len : nat;
  cs_blocks_compressed : nat;
  cs_flags : N
}.

Definition cs_new (key : list N) (chunk_counter flags : N) : const_chunk_state :=
  {| cs_cv := key; cs_chunk_counter := chunk_counter; cs_buf := replicate BLOCK_LEN x00;
     cs_buf_len := 0; cs_blocks_compressed := 0; cs_flags := flags |}.

Definition cs_count (s : const_chunk_state) : nat :=
  BLOCK_LEN * cs_blocks_compressed s + cs_buf_len s.

(** Addition on [u8] that panics on overflow. *)
Definition add_u8 (a b : nat) : outcome nat := if decide (a + b < 256) then Ret (a + b) else Fault.

(** Also returns the input that is left. *)
Definition fill_buf (s : const_chunk_state) (input : list byte)
    : outcome (const_chunk_state * list byte) :=
  let want := BLOCK_LEN - cs_buf_len s in
  let take := if decide (want < length input) then want else length input in
  let! (head, input) := split_at input take in
  let! buf := copy_at (cs_buf s) (cs_buf_len s) head in
  let! buf_len := add_u8 (cs_buf_len s) take in
  Ret ({| cs_cv := cs_cv s; cs_chunk_counter := cs_chunk_counter s; cs_buf := buf;
          cs_buf_len := buf_len; cs_blocks_compressed := cs_blocks_compressed s;
          cs_flags := cs_flags s |}, input).

Definition start_flag (s : const_chunk_state) : N :=
  if decide (cs_blocks_compressed s = 0) then CHUNK_START else 0.

(** Compress one full block into the chaining value of the chunk. *)
Definition compress_block (s : const_chunk_state) (b buf : list byte) (buf_len : nat)
    : outcome const_chunk_state :=
  let block_flags := N.lor (cs_flags s) (start_flag s) in
  let cv :=
    compress_in_place (cs_cv s) (words_from_le_bytes_64 b) (N.of_nat BLOCK_LEN)
      (cs_chunk_counter s) block_flags in
  let! blocks_compressed := add_u8 (cs_blocks_compressed s) 1 in
  Ret {| cs_cv := cv; cs_chunk_counter := cs_chunk_counter s; cs_buf := buf; cs_buf_len := buf_len;
         cs_blocks_compressed := blocks_compressed; cs_flags := cs_flags s |}.

(** The buffered block, when it is full and there is more input. *)
Definition flush_buf (s : const_chunk_state) (input : list byte)
    : outcome (const_chunk_state * list byte) :=
  if decide (0 < cs_buf_len s) then
    let! (s, input) := fill_buf s input in
    if decide (input = []) then Ret (s, input)
    else
      let! _ := assert (cs_buf_len s = BLOCK_LEN) in
      let! s := compress_block s (cs_buf s) (replicate BLOCK_LEN x00) 0 in
      Ret (s, input)
  else Ret (s, input).

(** The [while input.len() > BLOCK_LEN] loop. *)
Fixpoint update_loop (fuel : nat) (s : const_chunk_state) (input : list byte)
    : outcome (const_chunk_state * list byte) :=
  match fuel with
  | O => Fault
  | S fuel =>
      if decide (length input <= BLOCK_LEN) then Ret (s, input)
      else
        let! _ := assert (cs_buf_len s = 0) in
        let! (b, rest) := split_at input BLOCK_LEN in
        let! s := compress_block s b (cs_buf s) (cs_buf_len s) in
        update_loop fuel s rest
  end.

Definition update (s : const_chunk_state) (input : list byte) : outcome const_chunk_state :=
  let! (s, input) := flush_buf s input in
  let! (s, input) := update_loop (S (length input)) s input in
  let! (s, input) := fill_buf s input in
  let! _ := assert (input = []) in
  let! _ := assert (cs_count s <= CHUNK_LEN) in
  Ret s.

Definition output (s : const_chunk_state) : const_output :=
  {| input_chaining_value := cs_cv s; block := cs_buf s; block_len := N.of_nat (cs_buf_len s);
     counter := cs_chunk_counter s;
     flags := N.lor (N.lor (cs_flags s) (start_flag s)) CHUNK_END |}.

(** ** The tree *)

(** The complete pieces of [size] bytes of the input, collected into an array of
    [max] elements, and what is left. *)
Fixpoint collect_pieces (fuel max size : nat) (input : list byte)
    : outcome (list (list byte) * list byte) :=
  match fuel with
  | O => Fault
  | S fuel =>
      if decide (length input < size) then Ret ([], input)
      else
        match max with
        | O => Fault
        | S max =>
            let! (piece, input) := split_at input size in
            let! (pieces, input) := collect_pieces fuel max size input in
            Ret (piece :: pieces, input)
        end
  end.

Definition const_compress_chunks_parallel (input : list byte) (key : list N)
    (chunk_counter flags : N) (out : list byte) : outcome (list byte * nat) :=
  let! _ := assert (input <> []) in
  let! _ := assert (length input <= MAX_SIMD_DEGREE * CHUNK_LEN) in
  let! (chunks, rest) := collect_pieces (S (length input)) MAX_SIMD_DEGREE CHUNK_LEN input in
  let chunks_so_far := length chunks in
  let! out := hash_many chunks key chunk_counter Yes flags CHUNK_START CHUNK_END out in
  if decide (rest = []) then Ret (out, chunks_so_far)
  else
    let! counter := add_u64 chunk_counter (N.of_nat chunks_so_far) in
    let! s := update (cs_new key counter flags) rest in
    let! out := copy_at out (chunks_so_far * OUT_LEN) (chaining_value (output s)) in
    Ret (out, chunks_so_far + 1).

Definition const_compress_parents_parallel (child_chaining_values : list byte) (key : list N)
    (flags : N) (out : list byte) : outcome (list byte * nat) :=
  let! _ := assert (length child_chaining_values mod OUT_LEN = 0) in
  let num_children := length child_chaining_values / OUT_LEN in
  let! _ := assert (2 <= num_children) in
  let! _ := assert (num_children <= 2 * MAX_SIMD_DEGREE_OR_2) in
  let! (parents, rest) :=
    collect_pieces (S (length child_chaining_values)) MAX_SIMD_DEGREE_OR_2 BLOCK_LEN
      child_chaining_values in
  let parents_so_far := length parents in
  let! out := hash_many parents key 0 No (N.lor flags PARENT) 0 0 out in
  if decide (rest = []) then Ret (out, parents_so_far)
  else
    let! out := copy_at out (parents_so_far * OUT_LEN) rest in
    Ret (out, parents_so_far + 1).

Definition left_subtree_len (input_len : N) : outcome N :=
  let! _ := assert (N.of_nat CHUNK_LEN < input_len)%N in
  Ret (next_power_of_two ((input_len + 1) / 2)).

(** Every call is on a shorter input. *)
Fixpoint const_compress_subtree_wide (fuel : nat) (input : list byte) (key : list N)
    (chunk_counter flags : N) (out : list byte) : outcome (list byte * nat) :=
  match fuel with
  | O => Fault
  | S fuel =>
      if decide (length input <= CHUNK_LEN) then
        const_compress_chunks_parallel input key chunk_counter flags out
      else
        let! left_len := left_subtree_len (N.of_nat (length input)) in
        let! (lhs, rhs) := split_at input (N.to_nat left_len) in
        let! right_chunk_counter :=
          add_u64 chunk_counter (N.of_nat (length lhs / CHUNK_LEN)) in
        let cv_array := replicate (2 * MAX_SIMD_DEGREE_OR_2 * OUT_LEN) x00 in
        let degree := if decide (length lhs = CHUNK_LEN) then 1 else 2 in
        let! (left_out, right_out) := split_at cv_array (degree * OUT_LEN) in
        let! (left_out, left_n) :=
          const_compress_subtree_wide fuel lhs key chunk_counter flags left_out in
        let! (right_out, right_n) :=
          const_compress_subtree_wide fuel rhs key right_chunk_counter flags right_out in
        let cv_array := left_out ++ right_out in
        let! _ := assert (left_n = degree) in
        let! _ := assert (1 <= right_n /\ right_n <= left_n) in
        if decide (left_n = 1) then
          let! (cvs, _) := split_at cv_array (2 * OUT_LEN) in
          let! out := copy_at out 0 cvs in
          Ret (out, 2)
        else
          let num_children := left_n + right_n in
          let! (cvs, _) := split_at cv_array (num_children * OUT_LEN) in
          const_compress_parents_parallel cvs key flags out
  end.

(** The [while num_cvs > 2] loop. *)
Fixpoint condense (fuel : nat) (cv_array out_array : list byte) (num_cvs : nat) (key : list N)
    (flags : N) : outcome (list byte) :=
  match fuel with
  | O => Fault
  | S fuel =>
      if decide (num_cvs <= 2) then Ret cv_array
      else
        let! (cv_slice, _) := split_at cv_array (num_cvs * OUT_LEN) in
        let! (out_array, num_cvs) := const_compress_parents_parallel cv_slice key flags out_array in
        let! (cvs, _) := split_at out_array (num_cvs * OUT_LEN) in
        let! cv_array := copy_at cv_array 0 cvs in
        condense fuel cv_array out_array num_cvs key flags
  end.

Definition const_compress_subtree_to_parent_node (input : list byte) (key : list N)
    (chunk_counter flags : N) : outcome (list byte) :=
  let! _ := assert (CHUNK_LEN < length input) in
  let cv_array := replicate (MAX_SIMD_DEGREE_OR_2 * OUT_LEN) x00 in
  let! (cv_array, num_cvs) :=
    const_compress_subtree_wide (S (length input)) input key chunk_counter flags cv_array in
  let! _ := assert (2 <= num_cvs) in
  let out_array := replicate (MAX_SIMD_DEGREE_OR_2 * OUT_LEN / 2) x00 in
  let! cv_array := condense (S num_cvs) cv_array out_array num_cvs key flags in
  let! (parent, _) := split_at cv_array BLOCK_LEN in
  Ret parent.

Definition const_hash_all_at_once (input : list byte) (key : list N) (flags : N)
    : outcome const_output :=
  if decide (length input <= CHUNK_LEN) then
    let! s := update (cs_new key 0 flags) input in
    Ret (output s)
  else
    let! parent := const_compress_subtree_to_parent_node input key 0 flags in
    Ret {| input_chaining_value := key; block := parent; block_len := N.of_nat BLOCK_LEN;
           counter := 0; flags := N.lor flags PARENT |}.

Definition const_hash (input : list byte) : outcome (list byte) :=
  let! o := const_hash_all_at_once input IV 0 in root_hash o.

Definition const_keyed_hash (key input : list byte) : outcome (list byte) :=
  let! o := const_hash_all_at_once input (words_from_le_bytes_32 key) KEYED_HASH in root_hash o.

Definition const_derive_key (context key_material : list byte) : outcome (list byte) :=
  let! o := const_hash_all_at_once context IV DERIVE_KEY_CONTEXT in
  let! context_key := root_hash o in
  let! o :=
    const_hash_all_at_once key_material (words_from_le_bytes_32 context_key) DERIVE_KEY_MATERIAL in
  root_hash o.

(** ** The hash function of the paper *)

(** A node of the tree before its compression (section 2.4). *)
Record node : Type := Node {
  n_cv : list N;
  n_words : list N;
  n_counter : N;
  n_len : N;
  n_flags : N
}.

Definition node_cv (n : node) : list N :=
  spec_compress (n_cv n) (n_words n) (n_counter n) (n_len n) (n_flags n).

Definition pad (b : list byte) : list byte := b ++ replicate (BLOCK_LEN - length b) x00.

(** The blocks of a chunk: of 64 bytes, except the last, which is not empty unless the
    chunk is. *)
Fixpoint blocks_at (fuel : nat) (l : list byte) : list (list byte) :=
  match fuel with
  | O => [l]
  | S fuel =>
      if decide (length l <= BLOCK_LEN) then [l]
      else take BLOCK_LEN l :: blocks_at fuel (drop BLOCK_LEN l)
  end.

(** The last block of a chunk, with the chaining value of those before. *)
Fixpoint chunk_blocks (cv : list N) (t flags start : N) (bs : list (list byte)) {struct bs}
    : node :=
  match bs with
  | [] => Node cv [] t 0 flags
  | b :: rest =>
      match rest with
      | [] =>
          Node cv (words_from_le_bytes_64 (pad b)) t (N.of_nat (length b))
            (N.lor (N.lor flags start) CHUNK_END)
      | _ :: _ =>
          chunk_blocks (spec_compress cv (words_from_le_bytes_64 b) t 64 (N.lor flags start))
            t flags 0 rest
      end
  end.

Definition chunk_node (key : list N) (t flags : N) (l : list byte) : node :=
  chunk_blocks key t flags CHUNK_START (blocks_at (length l) l).

(** Left subtrees are complete, with as many chunks as possible (section 2.1). *)
Definition left_len (n : nat) : nat := CHUNK_LEN * 2 ^ Nat.log2 ((n - 1) / CHUNK_LEN).

Fixpoint tree_node (fuel : nat) (key : list N) (flags t : N) (l : list byte) : node :=
  match fuel with
  | O => chunk_node key t flags l
  | S fuel =>
      if decide (length l <= CHUNK_LEN) then chunk_node key t flags l
      else
        let k := left_len (length l) in
        let lhs := tree_node fuel key flags t (take k l) in
        let rhs := tree_node fuel key flags (t + N.of_nat (k / CHUNK_LEN)) (drop k l) in
        Node key (node_cv lhs ++ node_cv rhs) 0 64 (N.lor flags PARENT)
  end.

(** The root node is compressed with the [ROOT] flag. *)
Definition spec_mode (key : list N) (flags : N) (l : list byte) : list byte :=
  let n := tree_node (length l) key flags 0 l in
  le_bytes_from_words_32
    (spec_compress (n_cv n) (n_words n) 0 (n_len n) (N.lor (n_flags n) ROOT)).

Definition blake3 (l : list byte) : list byte := spec_mode IV 0 l.

Definition blake3_keyed (key l : list byte) : list byte :=
  spec_mode (words_from_le_bytes_32 key) KEYED_HASH l.

Definition blake3_derive_key (context key_material : list byte) : list byte :=
  spec_mode (words_from_le_bytes_32 (spec_mode IV DERIVE_KEY_CONTEXT context))
    DERIVE_KEY_MATERIAL key_material.

(** Known answers of the official test vectors. *)
Definition test_input (n : nat) : list byte := (fun i => byte_of (N.of_nat (i mod 251))) <$> seq 0 n.

Definition hex (n : N) : list byte := rev (le_split 32 n).

(** ** Chunks *)

#[local] Opaque compress_in_place spec_compress words_from_le_bytes_64 le_bytes_from_words_32.
#[local] Arguments BLOCK_LEN : simpl never.
#[local] Arguments CHUNK_LEN : simpl never.
#[local] Arguments OUT_LEN : simpl never.

(** The chaining value after a list of full blocks. *)
Fixpoint chain (cv : list N) (t flags start : N) (bs : list (list byte)) {struct bs} : list N :=
  match bs with
  | [] => cv
  | b :: bs =>
      chain (spec_compress cv (words_from_le_bytes_64 b) t 64 (N.lor flags start)) t flags 0 bs
  end.

Definition start_of (start : N) (bs : list (list byte)) : N := if decide (bs = []) then start else 0.

Definition full (bs : list (list byte)) : Prop := Forall (fun b => length b = BLOCK_LEN) bs.

Lemma chain_snoc cv t flags start bs b :
  chain cv t flags start (bs ++ [b]) =
    spec_compress (chain cv t flags start bs) (words_from_le_bytes_64 b) t 64
      (N.lor flags (start_of start bs)).
Proof.
  revert cv start. induction bs as [|b' bs IH]; intros cv start; [done|]. cbn [app chain].
  rewrite IH. unfold start_of. destruct bs; done.
Qed.

Lemma chunk_blocks_snoc cv t flags start bs r :
  chunk_blocks cv t flags start (bs ++ [r]) =
    Node (chain cv t flags start bs) (words_from_le_bytes_64 (pad r)) t (N.of_nat (length r))
      (N.lor (N.lor flags (start_of start bs)) CHUNK_END).
Proof.
  revert cv start. induction bs as [|b bs IH]; intros cv start; [done|].
  cbn [app chunk_blocks chain]. rewrite IH. unfold start_of. destruct bs; done.
Qed.

Lemma blocks_at_full fuel bs r :
  full bs -> 0 < length r <= BLOCK_LEN -> length bs <= fuel ->
  blocks_at fuel (concat bs ++ r) = bs ++ [r].
Proof.
  revert fuel. induction bs as [|b bs IH]; intros fuel Hf Hr Hfuel; cbn [concat app].
  - destruct fuel; cbn [blocks_at]; [done|]. by rewrite decide_True by lia.
  - apply Forall_cons in Hf as [Hb Hf]. destruct fuel as [|fuel]; cbn [length] in Hfuel; [lia|].
    cbn [blocks_at]. rewrite decide_False by (rewrite !length_app; lia).
    rewrite <- !app_assoc, take_app_length', drop_app_length' by done. by rewrite IH by (done || lia).
Qed.

Lemma length_concat_full bs : full bs -> length (concat bs) = BLOCK_LEN * length bs.
Proof.
  induction 1 as [|b bs Hb _ IH]; cbn [concat length]; [lia|]. rewrite length_app, IH, Hb. lia.
Qed.

(** A chunk given as its full blocks and the last block. *)
Lemma chunk_node_blocks key t flags bs r :
  full bs -> length r <= BLOCK_LEN -> (r = [] -> bs = []) ->
  chunk_node key t flags (concat bs ++ r) =
    Node (chain key t flags CHUNK_START bs) (words_from_le_bytes_64 (pad r)) t (N.of_nat (length r))
      (N.lor (N.lor flags (start_of CHUNK_START bs)) CHUNK_END).
Proof.
  intros Hf Hr Hne. unfold chunk_node. rewrite <- chunk_blocks_snoc. f_equal.
  destruct r as [|x r]; [by rewrite Hne by done|].
  apply blocks_at_full; [done|cbn [length] in *; lia|].
  rewrite length_app, length_concat_full by done. unfold BLOCK_LEN. lia.
Qed.

(** *** The chunk state *)

(** [p] has been absorbed: full blocks [bs] into the chaining value, [r] into the
    buffer. *)
Record holds (key : list N) (t flags : N) (bs : list (list byte)) (r : list byte)
    (s : const_chunk_state) : Prop := {
  h_full : full bs;
  h_cv : cs_cv s = chain key t flags CHUNK_START bs;
  h_counter : cs_chunk_counter s = t;
  h_buf : cs_buf s = pad r;
  h_len : cs_buf_len s = length r;
  h_bound : length r <= BLOCK_LEN;
  h_blocks : cs_blocks_compressed s = length bs;
  h_flags : cs_flags s = flags
}.

Lemma assert_true (P : Prop) `{Decision P} : P -> assert P = Ret tt.
Proof. intros HP. unfold assert. by rewrite decide_True. Qed.

Lemma cs_new_holds key t flags : holds key t flags [] [] (cs_new key t flags).
Proof. split; try done; [by constructor|cbn; lia]. Qed.

Lemma start_flag_holds key t flags bs r s :
  holds key t flags bs r s -> start_flag s = start_of CHUNK_START bs.
Proof.
  intros Hs. unfold start_flag, start_of. rewrite (h_blocks _ _ _ _ _ _ Hs).
  by destruct bs.
Qed.

Lemma fill_buf_holds key t flags bs r s input :
  holds key t flags bs r s ->
  let k := Nat.min (BLOCK_LEN - length r) (length input) in
  exists s', fill_buf s input = Ret (s', drop k input) /\ holds key t flags bs (r ++ take k input) s'.
Proof.
  intros Hs k. unfold fill_buf. rewrite (h_len _ _ _ _ _ _ Hs), (h_buf _ _ _ _ _ _ Hs).
  pose proof (h_bound _ _ _ _ _ _ Hs) as Hr. cbv zeta.
  assert (k <= BLOCK_LEN - length r /\ k <= length input) as [Hk1 Hk2] by (unfold k; lia).
  replace (if decide (BLOCK_LEN - length r < length input) then BLOCK_LEN - length r else length input)
    with k by (unfold k; case_decide; lia). clearbody k.
  rewrite split_at_ok by lia. cbn [obind]. unfold pad.
  assert (Hk : length (take k input) = k) by (rewrite length_take; lia).
  rewrite copy_at_app by (rewrite ?length_replicate, ?Hk; lia). cbn [obind]. unfold add_u8.
  rewrite decide_True by (unfold BLOCK_LEN in *; lia). cbn [obind].
  eexists. split; [reflexivity|]. destruct Hs as [Hf Hcv Ht _ _ _ Hb Hfl].
  split; cbn; rewrite ?length_app, ?Hk; try done; [|lia].
  unfold pad. rewrite length_app, !Hk, <- app_assoc. do 2 f_equal. rewrite drop_replicate. f_equal. lia.
Qed.

Lemma chain_length cv t flags start bs : length cv = 8 -> length (chain cv t flags start bs) = 8.
Proof.
  revert cv start. induction bs as [|b bs IH]; intros cv start Hl; [done|]. cbn [chain].
  by apply IH, spec_compress_length.
Qed.

Lemma compress_block_holds key t flags bs r s b n :
  length key = 8 -> (t < 2 ^ 64)%N -> length bs < 255 ->
  holds key t flags bs r s -> length b = BLOCK_LEN -> n = 0 ->
  exists s', compress_block s b (pad []) n = Ret s' /\ holds key t flags (bs ++ [b]) [] s'.
Proof.
  intros Hkey Ht Hbs Hs Hb ->. unfold compress_block, add_u8.
  rewrite (start_flag_holds _ _ _ _ _ _ Hs). destruct Hs as [Hf Hcv Hct _ _ _ Hbl Hfl].
  rewrite Hbl, decide_True by lia. cbn [obind]. eexists. split; [reflexivity|].
  split; cbn; rewrite ?length_app; try done; [| |lia..].
  - apply Forall_app. by split; [|constructor].
  - rewrite compress_in_place_spec; [by rewrite Hcv, Hct, Hfl, chain_snoc|..].
    + rewrite Hcv. by apply chain_length.
    + apply length_words_64.
    + by rewrite Hct.
Qed.

Lemma flush_buf_holds key t flags bs r s input :
  length key = 8 -> (t < 2 ^ 64)%N -> length bs < 255 -> (r = [] -> bs = []) ->
  holds key t flags bs r s ->
  exists bs' r' input' s', flush_buf s input = Ret (s', input') /\ holds key t flags bs' r' s' /\
    concat bs' ++ r' ++ input' = concat bs ++ r ++ input /\
    (input' = [] \/ r' = []) /\ (input' = [] -> r' = [] -> bs' = []).
Proof.
  intros Hkey Ht Hbs Hne Hs. unfold flush_buf. rewrite (h_len _ _ _ _ _ _ Hs).
  pose proof (h_bound _ _ _ _ _ _ Hs) as Hb.
  destruct (decide (0 < length r)) as [Hr|Hr].
  2: { destruct r; [|cbn in Hr; lia]. exists bs, [], input, s. split_and!; auto. }
  destruct (fill_buf_holds _ _ _ _ _ _ input Hs) as (s1 & -> & Hs1). cbn [obind].
  set (k := Nat.min _ _) in *. destruct (decide (drop k input = [])) as [Hd|Hd].
  { eexists bs, _, _, s1. split; [reflexivity|]. split; [done|]. rewrite Hd, app_nil_r.
    assert (Hin : take k input = input).
    { apply take_ge. apply (f_equal length) in Hd. rewrite length_drop in Hd. cbn in Hd. lia. }
    rewrite Hin. split; [done|]. split; [by left|]. intros _ He. destruct r; [cbn in Hr; lia|done]. }
  assert (Hfull : length (r ++ take k input) = BLOCK_LEN).
  { rewrite length_app, length_take. unfold k in *.
    destruct (Nat.le_gt_cases (BLOCK_LEN - length r) (length input)); [lia|].
    rewrite Nat.min_r in Hd by lia. by rewrite drop_all in Hd. }
  rewrite assert_true by (rewrite (h_len _ _ _ _ _ _ Hs1); done). cbn [obind].
  rewrite (h_buf _ _ _ _ _ _ Hs1). unfold pad at 1. rewrite Hfull, Nat.sub_diag, app_nil_r.
  destruct (compress_block_holds _ _ _ _ _ _ _ 0 Hkey Ht Hbs Hs1 Hfull eq_refl) as (s2 & Hc & Hs2).
  change (replicate BLOCK_LEN x00) with (pad []). rewrite Hc. cbn [obind].
  eexists _, _, _, s2. split; [reflexivity|]. split; [done|]. split; [|split; [by right|done]].
  rewrite concat_app. cbn [concat app]. by rewrite app_nil_r, <- !app_assoc, take_drop.
Qed.

Lemma update_loop_holds fuel key t flags bs s input :
  length key = 8 -> (t < 2 ^ 64)%N -> BLOCK_LEN * length bs + length input <= CHUNK_LEN ->
  length input < fuel -> holds key t flags bs [] s ->
  exists bs' input' s', update_loop fuel s input = Ret (s', input') /\ holds key t flags bs' [] s' /\
    concat bs' ++ input' = concat bs ++ input /\ length input' <= BLOCK_LEN /\
    (input' = [] -> input = [] /\ bs' = bs).
Proof.
  intros Hkey Ht. revert bs s input. induction fuel as [|fuel IH]; intros bs s input Hlen Hf Hs; [lia|].
  cbn [update_loop]. destruct (decide (length input <= BLOCK_LEN)) as [Hi|Hi].
  { exists bs, input, s. split_and!; auto. }
  rewrite assert_true by (by rewrite (h_len _ _ _ _ _ _ Hs)). cbn [obind].
  rewrite split_at_ok by lia. cbn [obind].
  rewrite (h_buf _ _ _ _ _ _ Hs), (h_len _ _ _ _ _ _ Hs).
  assert (Hb : length (take BLOCK_LEN input) = BLOCK_LEN) by (rewrite length_take; lia).
  assert (Hbs : length bs < 255) by (unfold BLOCK_LEN, CHUNK_LEN in *; lia).
  destruct (compress_block_holds _ _ _ _ _ _ _ 0 Hkey Ht Hbs Hs Hb eq_refl) as (s2 & Hc & Hs2).
  cbn [length]. rewrite Hc. cbn [obind].
  destruct (IH (bs ++ [take BLOCK_LEN input]) s2 (drop BLOCK_LEN input) ltac:(rewrite length_app, length_drop; cbn [length]; lia)
    ltac:(rewrite length_drop; unfold BLOCK_LEN in *; lia) Hs2) as (bs' & input' & s' & Hu & Hs' & Hc' & Hl & He).
  exists bs', input', s'. split; [done|]. split; [done|]. split; [|split; [done|]].
  - rewrite Hc', concat_app. cbn [concat]. by rewrite app_nil_r, <- app_assoc, take_drop.
  - intros E. destruct (He E) as [Hn _]. apply (f_equal length) in Hn. rewrite length_drop in Hn. cbn in Hn. lia.
Qed.

(** Absorbing input in any number of pieces. *)
Lemma update_holds key t flags bs r s input :
  length key = 8 -> (t < 2 ^ 64)%N -> holds key t flags bs r s -> (r = [] -> bs = []) ->
  length (concat bs ++ r ++ input) <= CHUNK_LEN ->
  exists bs' r' s', update s input = Ret s' /\ holds key t flags bs' r' s' /\
    concat bs' ++ r' = concat bs ++ r ++ input /\ (r' = [] -> bs' = []).
Proof.
  intros Hkey Ht Hs Hne Hlen. unfold update.
  pose proof (length_concat_full bs (h_full _ _ _ _ _ _ Hs)) as Hcl.
  assert (Hbs : length bs < 255)
    by (rewrite !length_app in Hlen; unfold BLOCK_LEN, CHUNK_LEN in *; lia).
  destruct (flush_buf_holds _ _ _ _ _ _ input Hkey Ht Hbs Hne Hs)
    as (bs1 & r1 & in1 & s1 & -> & Hs1 & Hc1 & Hor & Hne1). cbn [obind].
  rewrite <- Hc1 in Hlen |- *. clear Hc1 Hcl Hne Hs Hbs bs r s input.
  pose proof (length_concat_full bs1 (h_full _ _ _ _ _ _ Hs1)) as Hcl.
  rewrite !length_app in Hlen.
  assert (exists bs2 r2 in2 s2, update_loop (S (length in1)) s1 in1 = Ret (s2, in2) /\
    holds key t flags bs2 r2 s2 /\ concat bs2 ++ r2 ++ in2 = concat bs1 ++ r1 ++ in1 /\
    length r2 + length in2 <= BLOCK_LEN /\ (r2 ++ in2 = [] -> bs2 = []))
    as (bs2 & r2 & in2 & s2 & -> & Hs2 & Hc2 & Hl2 & Hne2).
  { destruct Hor as [->| ->].
    - exists bs1, r1, [], s1. cbn [update_loop length]. rewrite decide_True by lia.
      split_and!; [done..| |]; [pose proof (h_bound _ _ _ _ _ _ Hs1); lia|].
      rewrite app_nil_r. auto.
    - cbn [length] in Hlen.
      destruct (update_loop_holds (S (length in1)) key t flags bs1 s1 in1 Hkey Ht
        ltac:(lia) ltac:(lia) Hs1) as (bs2 & in2 & s2 & Hu & Hs2 & Hc2 & Hl2 & He2).
      exists bs2, [], in2, s2. split_and!; [done..|]. cbn [app]. intros ->.
      destruct He2 as [-> ->]; [done|]. auto. }
  cbn [obind]. destruct (fill_buf_holds _ _ _ _ _ _ in2 Hs2) as (s3 & Hf3 & Hs3).
  rewrite Nat.min_r in Hf3, Hs3 by lia. rewrite drop_all in Hf3. rewrite take_ge in Hs3 by lia.
  rewrite Hf3. cbn [obind]. rewrite assert_true by done. cbn [obind].
  rewrite assert_true; [|]; cbn [obind].
  - exists bs2, (r2 ++ in2), s3. split_and!; [done..|]. auto.
  - unfold cs_count. rewrite (h_blocks _ _ _ _ _ _ Hs3), (h_len _ _ _ _ _ _ Hs3).
    pose proof (length_concat_full bs2 (h_full _ _ _ _ _ _ Hs2)) as Hcl2.
    apply (f_equal length) in Hc2. rewrite !length_app in Hc2. rewrite length_app. lia.
Qed.

(** The node of the paper behind a [ConstOutput]. *)
Definition to_node (o : const_output) : node :=
  Node (input_chaining_value o) (words_from_le_bytes_64 (block o)) (counter o) (block_len o) (flags o).

Lemma output_holds key t flags bs r s :
  holds key t flags bs r s -> (r = [] -> bs = []) ->
  to_node (output s) = chunk_node key t flags (concat bs ++ r) /\
  length (block (output s)) = BLOCK_LEN.
Proof.
  intros Hs Hne. pose proof (start_flag_holds _ _ _ _ _ _ Hs) as Hst.
  destruct Hs as [Hf Hcv Ht Hb Hl Hr Hbl Hfl]. rewrite chunk_node_blocks by done.
  unfold to_node, output. cbn. rewrite Hst, Hcv, Ht, Hb, Hl, Hfl. split; [done|].
  unfold pad. rewrite length_app, length_replicate. lia.
Qed.

Lemma update_output key t flags input :
  length key = 8 -> (t < 2 ^ 64)%N -> length input <= CHUNK_LEN ->
  exists s, update (cs_new key t flags) input = Ret s /\
    to_node (output s) = chunk_node key t flags input.
Proof.
  intros Hkey Ht Hlen.
  destruct (update_holds _ _ _ _ _ _ input Hkey Ht (cs_new_holds key t flags) ltac:(done) Hlen)
    as (bs & r & s & Hu & Hs & Hc & Hne).
  exists s. split; [done|]. cbn [concat app] in Hc. rewrite <- Hc. by apply output_holds.
Qed.

(** *** Whole blocks *)

Lemma split_blocks m l :
  length l = BLOCK_LEN * S m ->
  exists bs b, l = concat bs ++ b /\ full bs /\ length bs = m /\ length b = BLOCK_LEN.
Proof.
  revert l. induction m as [|m IH]; intros l Hl.
  - exists [], l. rewrite Nat.mul_1_r in Hl. split_and!; try done. by constructor.
  - destruct (IH (drop BLOCK_LEN l)) as (bs & b & Hd & Hf & Hm & Hb); [rewrite length_drop; lia|].
    exists (take BLOCK_LEN l :: bs), b. cbn [concat length]. rewrite <- app_assoc, <- Hd, take_drop, Hm.
    split_and!; try done. constructor; [rewrite length_take; lia|done].
Qed.

Lemma hash1_loop_spec fuel bs b cv t flags start fe :
  length cv = 8 -> (t < 2 ^ 64)%N -> full bs -> length b = BLOCK_LEN ->
  S (length bs) < fuel ->
  hash1_loop fuel (concat bs ++ b) cv t flags (N.lor flags start) fe =
    Ret (spec_compress (chain cv t flags start bs) (words_from_le_bytes_64 b) t 64
           (N.lor (N.lor flags (start_of start bs)) fe)).
Proof.
  intros Hcv Ht Hf Hb. revert fuel cv start Hcv. induction Hf as [|b0 bs Hb0 Hf IH];
    intros fuel cv start Hcv Hfuel; (destruct fuel as [|fuel]; [lia|]); cbn [hash1_loop concat app].
  - rewrite decide_False by lia. rewrite (split_at_ok b) by lia. cbn [obind].
    rewrite take_ge, drop_ge by lia. rewrite decide_True by done.
    destruct fuel as [|fuel]; [cbn in Hfuel; lia|]. cbn [hash1_loop].
    rewrite decide_True by (cbn [length]; unfold BLOCK_LEN; lia).
    by rewrite compress_in_place_spec by (done || apply length_words_64).
  - cbn [length] in Hfuel. rewrite <- app_assoc.
    rewrite decide_False by (rewrite length_app; lia). rewrite split_at_app by done. cbn [obind].
    rewrite decide_False by (intros E; apply (f_equal length) in E;
      rewrite length_app, Hb in E; cbn in E; unfold BLOCK_LEN in E; lia).
    rewrite compress_in_place_spec by (done || apply length_words_64).
    rewrite <- (N.lor_0_r flags) at 3. rewrite IH by (lia || by apply spec_compress_length).
    cbn [chain]. unfold start_of. destruct bs; done.
Qed.

Lemma pad_full b : length b = BLOCK_LEN -> pad b = b.
Proof. intros Hb. unfold pad. by rewrite Hb, Nat.sub_diag, app_nil_r. Qed.

Lemma hash1_chunk input key t flags :
  length key = 8 -> (t < 2 ^ 64)%N -> length input = CHUNK_LEN ->
  hash1 input key t flags CHUNK_START CHUNK_END =
    Ret (le_bytes_from_words_32 (node_cv (chunk_node key t flags input))).
Proof.
  intros Hkey Ht Hl. destruct (split_blocks 15 input) as (bs & b & -> & Hf & Hm & Hb); [by rewrite Hl|].
  unfold hash1. rewrite decide_True by (by rewrite Hl).
  rewrite hash1_loop_spec by (done || (rewrite Hl, Hm; unfold CHUNK_LEN; lia)). cbn [obind].
  rewrite chunk_node_blocks; [|done|lia|intros ->; by cbn in Hb].
  by rewrite pad_full, Hb.
Qed.

(** A parent node with the given children. *)
Definition parent (key : list N) (flags : N) (a b : list N) : node :=
  Node key (a ++ b) 0 64 (N.lor flags PARENT).

Lemma hash1_parent key flags a b :
  length key = 8 -> cv_ok a -> cv_ok b ->
  hash1 (le_bytes_from_words_32 a ++ le_bytes_from_words_32 b) key 0 (N.lor flags PARENT) 0 0 =
    Ret (le_bytes_from_words_32 (node_cv (parent key flags a b))).
Proof.
  intros Hkey Ha Hb. set (input := _ ++ _).
  assert (Hl : length input = BLOCK_LEN).
  { unfold input. rewrite length_app, !length_le_bytes by apply Ha || apply Hb. done. }
  unfold hash1. rewrite decide_True by (by rewrite Hl).
  pose proof (hash1_loop_spec (S (length input)) [] input key 0 (N.lor flags PARENT) 0 0 Hkey
    ltac:(lia) ltac:(constructor) Hl ltac:(rewrite Hl; unfold BLOCK_LEN; cbn; lia)) as E.
  cbn [concat app] in E. rewrite E. cbn [obind]. unfold start_of. rewrite decide_True by done.
  rewrite !N.lor_0_r. cbn [chain]. unfold input. by rewrite words_64_le_bytes.
Qed.

Lemma left_len_bounds n :
  CHUNK_LEN < n ->
  exists j, left_len n = CHUNK_LEN * 2 ^ j /\ CHUNK_LEN * 2 ^ j < n <= 2 * (CHUNK_LEN * 2 ^ j).
Proof.
  intros Hn. unfold left_len. set (q := (n - 1) / CHUNK_LEN). exists (Nat.log2 q).
  assert (Hq : 0 < q) by (apply Nat.div_str_pos; unfold CHUNK_LEN in *; lia).
  destruct (Nat.log2_spec q Hq) as [H1 H2]. rewrite Nat.pow_succ_r' in H2.
  assert (Hc : CHUNK_LEN <> 0) by (unfold CHUNK_LEN; lia).
  pose proof (Nat.Div0.mul_div_le (n - 1) CHUNK_LEN) as H3.
  pose proof (Nat.mul_succ_div_gt (n - 1) CHUNK_LEN Hc) as H4. fold q in H3, H4.
  split; [done|]. nia.
Qed.

Lemma left_subtree_len_spec n :
  CHUNK_LEN < n -> left_subtree_len (N.of_nat n) = Ret (N.of_nat (left_len n)).
Proof.
  intros Hn. destruct (left_len_bounds n Hn) as (j & -> & H1 & H2).
  unfold left_subtree_len. rewrite assert_true by lia. cbn [obind]. f_equal.
  assert (E : N.of_nat (CHUNK_LEN * 2 ^ j) = (2 ^ (N.of_nat j + 10))%N).
  { rewrite N.pow_add_r, Nat2N.inj_mul, Nat2N.inj_pow. change (N.of_nat CHUNK_LEN) with 1024%N.
    change (2 ^ 10)%N with 1024%N. change (N.of_nat 2) with 2%N. lia. }
  assert (H1' : (2 ^ (N.of_nat j + 10) < N.of_nat n)%N) by lia.
  assert (H2' : (N.of_nat n <= 2 * 2 ^ (N.of_nat j + 10))%N) by lia. clear H1 H2.
  rewrite E. unfold next_power_of_two. 
  f_equal. apply N.log2_up_unique; [lia|].
  assert (H9 : N.pred (N.of_nat j + 10) = (N.of_nat j + 9)%N) by lia. rewrite H9.
  assert (E9 : (2 ^ (N.of_nat j + 10) = 2 * 2 ^ (N.of_nat j + 9))%N).
  { rewrite <- N.pow_succ_r'. f_equal. lia. }
  clear E. pose proof (N.div_mod (N.of_nat n + 1) 2 ltac:(lia)).
  pose proof (N.mod_lt (N.of_nat n + 1) 2 ltac:(lia)).
  set (q := ((N.of_nat n + 1) / 2)%N) in *. set (r := ((N.of_nat n + 1) mod 2)%N) in *. clearbody q r.
  rewrite E9 in *. set (p := (2 ^ (N.of_nat j + 9))%N) in *. clearbody p. clear E9. 
  lia.
Qed.

(** *** The tree of the specification *)

Lemma tree_node_fuel f1 f2 key flags t l :
  length l <= f1 -> length l <= f2 -> tree_node f1 key flags t l = tree_node f2 key flags t l.
Proof.
  revert f2 t l. induction f1 as [|f1 IH]; intros [|f2] t l H1 H2; try done;
    cbn [tree_node]; [rewrite decide_True by lia; done..|].
  destruct (decide (length l <= CHUNK_LEN)) as [|Hl]; [done|].
  destruct (left_len_bounds (length l)) as (j & Hk & Hb); [lia|].
  assert (CHUNK_LEN <> 0) by (unfold CHUNK_LEN; lia).
  assert (0 < left_len (length l)) by (rewrite Hk; apply Nat.mul_pos_pos; [lia|];
    apply Nat.neq_0_lt_0, Nat.pow_nonzero; lia).
  rewrite (IH f2 t (take _ l)), (IH f2 _ (drop _ l)) by
    (rewrite ?length_take, ?length_drop; lia). done.
Qed.

(** The tree of [l], the first chunk of which is chunk [t]. *)
Definition tree (key : list N) (flags t : N) (l : list byte) : node :=
  tree_node (length l) key flags t l.

Lemma tree_chunk key flags t l :
  length l <= CHUNK_LEN -> tree key flags t l = chunk_node key t flags l.
Proof. intros Hl. unfold tree. destruct (length l) eqn:E; [done|]. cbn. by rewrite E, decide_True. Qed.

Lemma tree_parent key flags t l :
  CHUNK_LEN < length l ->
  let k := left_len (length l) in
  tree key flags t l =
    parent key flags (node_cv (tree key flags t (take k l)))
      (node_cv (tree key flags (t + N.of_nat (k / CHUNK_LEN)) (drop k l))).
Proof.
  intros Hl. unfold tree, parent.
  destruct (left_len_bounds (length l) Hl) as (j & Hk & Hb).
  assert (CHUNK_LEN <> 0) by (unfold CHUNK_LEN; lia).
  rewrite (tree_node_fuel (length l) (S (length l))) by lia. cbn [tree_node].
  rewrite decide_False by lia. cbv zeta.
  rewrite (tree_node_fuel (length l) (length (take (left_len (length l)) l))),
    (tree_node_fuel (length l) (length (drop (left_len (length l)) l)))
    by (rewrite ?length_take, ?length_drop; lia). done.
Qed.

Lemma lor_u8 a b : (a < 256)%N -> (b < 256)%N -> (N.lor a b < 256)%N.
Proof. intros. change 256%N with (2 ^ 8)%N. by apply lor_lt. Qed.

Lemma u8_u32 a : (a < 256)%N -> is_u32 a.
Proof. unfold is_u32. lia. Qed.

Lemma chunk_blocks_ok bs cv t flags start :
  bs <> [] -> cv_ok cv -> (t < 2 ^ 64)%N -> (flags < 256)%N -> (start < 256)%N ->
  Forall (fun b => length b <= BLOCK_LEN) bs ->
  let n := chunk_blocks cv t flags start bs in
  cv_ok (n_cv n) /\ cv_ok (node_cv n) /\ length (n_words n) = 16 /\ n_counter n = t /\ (n_flags n < 256)%N.
Proof.
  intros Hne Hcv Ht Hf Hs HF. revert cv start Hcv Hs.
  induction HF as [|b bs Hb HF IH]; intros cv start Hcv Hs; [done|]. cbn [chunk_blocks].
  destruct bs as [|b' bs].
  - unfold node_cv. cbn. split_and!; try done.
    + apply spec_compress_ok; try done; [unfold is_u32, BLOCK_LEN in *; lia|].
      apply u8_u32. repeat apply lor_u8; done.
    + repeat apply lor_u8; done.
  - apply IH; try done. apply spec_compress_ok; try done; apply u8_u32, lor_u8; done.
Qed.

Lemma blocks_at_ok fuel l :
  length l <= BLOCK_LEN * S fuel ->
  blocks_at fuel l <> [] /\ Forall (fun b => length b <= BLOCK_LEN) (blocks_at fuel l).
Proof.
  revert l. induction fuel as [|fuel IH]; intros l Hl; cbn [blocks_at].
  - split; [done|]. constructor; [lia|constructor].
  - destruct (decide _); [by split; [|constructor; [|constructor]]|].
    split; [done|]. constructor; [rewrite length_take; lia|].
    apply IH. rewrite length_drop. lia.
Qed.
Lemma chunk_node_ok key t flags l :
  cv_ok key -> (t < 2 ^ 64)%N -> (flags < 256)%N ->
  let n := chunk_node key t flags l in
  cv_ok (n_cv n) /\ cv_ok (node_cv n) /\ length (n_words n) = 16 /\ n_counter n = t /\ (n_flags n < 256)%N.
Proof.
  intros. destruct (blocks_at_ok (length l) l) as [Hne HF]; [unfold BLOCK_LEN; lia|].
  by apply chunk_blocks_ok.
Qed.

Lemma parent_ok key flags a b :
  cv_ok key -> cv_ok a -> cv_ok b -> (flags < 256)%N -> cv_ok (node_cv (parent key flags a b)).
Proof.
  intros Hk Ha Hb Hf. unfold node_cv, parent. cbn.
  apply spec_compress_ok; try done. apply u8_u32, lor_u8; done.
Qed.

(** The chunks of [l], from chunk [t] on, have 64-bit numbers, and so does the one after. *)
Definition counters_ok (t : N) (l : list byte) : Prop :=
  (t + N.of_nat (length l / CHUNK_LEN) + 1 < 2 ^ 64)%N.

Lemma counters_ok_split t l :
  counters_ok t l -> CHUNK_LEN < length l ->
  let k := left_len (length l) in
  counters_ok t (take k l) /\ counters_ok (t + N.of_nat (k / CHUNK_LEN)) (drop k l).
Proof.
  unfold counters_ok. intros Ht Hl. destruct (left_len_bounds (length l) Hl) as (j & Hk & Hb).
  cbv zeta. rewrite length_take, length_drop, Hk in *.
  assert (Hc : CHUNK_LEN <> 0) by (unfold CHUNK_LEN; lia).
  rewrite Nat.min_l by lia. rewrite (Nat.mul_comm CHUNK_LEN), Nat.div_mul in * by done.
  assert (E : length l = 2 ^ j * CHUNK_LEN + (length l - 2 ^ j * CHUNK_LEN)) by lia.
  rewrite E, Nat.div_add_l in Ht by done. lia.
Qed.

Lemma tree_ok key flags :
  cv_ok key -> (flags < 256)%N ->
  forall n t l, length l <= n -> counters_ok t l -> cv_ok (node_cv (tree key flags t l)).
Proof.
  intros Hk Hf n. induction n as [|n IH]; intros t l Hl Ht.
  - rewrite tree_chunk by lia. apply chunk_node_ok; try done. unfold counters_ok in Ht. lia.
  - destruct (decide (length l <= CHUNK_LEN)).
    { rewrite tree_chunk by done. apply chunk_node_ok; try done. unfold counters_ok in Ht. lia. }
    rewrite tree_parent by lia.
    destruct (counters_ok_split t l Ht) as [H1 H2]; [lia|].
    destruct (left_len_bounds (length l)) as (j & Hj & Hb); [lia|].
    assert (0 < CHUNK_LEN * 2 ^ j) by (unfold CHUNK_LEN; pose proof (Nat.pow_nonzero 2 j); lia).
    apply parent_ok; try done; apply IH; try done; rewrite ?length_take, ?length_drop; lia.
Qed.

(** *** Chunks and parents compressed together *)

Lemma collect_pieces_spec ps rest fuel max size :
  Forall (fun p => length p = size) ps -> length rest < size -> length ps <= max ->
  length ps < fuel ->
  collect_pieces fuel max size (concat ps ++ rest) = Ret (ps, rest).
Proof.
  intros HF Hr. revert fuel max. induction HF as [|p ps Hp HF IH]; intros fuel max Hm Hfuel;
    (destruct fuel as [|fuel]; [lia|]); cbn [collect_pieces concat app].
  - by rewrite decide_True by lia.
  - cbn [length] in *. destruct max as [|max]; [lia|]. rewrite <- app_assoc.
    rewrite decide_False by (rewrite length_app; lia).
    rewrite split_at_app by done. cbn [obind]. by rewrite IH by lia.
Qed.

Lemma hash_many_one input key t incr flags fs fe out w :
  hash1 input key t flags fs fe = Ret w -> (t + 1 < 2 ^ 64)%N -> OUT_LEN <= length out ->
  hash_many [input] key t incr flags fs fe out = Ret (w ++ drop OUT_LEN out).
Proof.
  intros Hh Ht Ho. unfold hash_many. rewrite decide_True by (cbn [length]; lia).
  cbn [hash_many_loop]. rewrite split_at_ok by done. cbn [obind]. rewrite Hh. cbn [obind].
  destruct incr; [|done]. unfold add_u64. by rewrite decide_True.
Qed.

Lemma hash_many_two a b key flags fs fe out wa wb :
  hash1 a key 0 flags fs fe = Ret wa -> hash1 b key 0 flags fs fe = Ret wb ->
  2 * OUT_LEN <= length out ->
  hash_many [a; b] key 0 No flags fs fe out = Ret (wa ++ wb ++ drop (2 * OUT_LEN) out).
Proof.
  intros Ha Hb Ho. unfold hash_many. rewrite decide_True by (cbn [length]; lia).
  cbn [hash_many_loop]. rewrite split_at_ok by lia. cbn [obind]. rewrite Ha. cbn [obind].
  rewrite split_at_ok by (rewrite length_drop; lia). cbn [obind]. rewrite Hb. cbn [obind].
  by rewrite drop_drop.
Qed.

Lemma chaining_value_spec o :
  length (input_chaining_value o) = 8 -> (counter o < 2 ^ 64)%N ->
  chaining_value o = le_bytes_from_words_32 (node_cv (to_node o)).
Proof.
  intros Hc Ht. unfold chaining_value, node_cv, to_node. cbn.
  by rewrite compress_in_place_spec by (done || apply length_words_64).
Qed.

Lemma const_compress_chunks_parallel_spec input key t flags out :
  cv_ok key -> (flags < 256)%N -> (t + 1 < 2 ^ 64)%N -> input <> [] ->
  length input <= CHUNK_LEN -> OUT_LEN <= length out ->
  const_compress_chunks_parallel input key t flags out =
    Ret (le_bytes_from_words_32 (node_cv (chunk_node key t flags input)) ++ drop OUT_LEN out, 1).
Proof.
  intros Hk Hf Ht Hne Hl Ho. unfold const_compress_chunks_parallel.
  rewrite !assert_true by (done || (unfold MAX_SIMD_DEGREE; lia)). cbn [obind].
  assert (Ht' : (t < 2 ^ 64)%N) by lia.
  destruct (chunk_node_ok key t flags input Hk Ht' Hf) as (Hcv & Hw & _ & Hct & _).
  destruct (decide (length input = CHUNK_LEN)) as [E|E].
  - pose proof (collect_pieces_spec [input] [] (S (length input)) MAX_SIMD_DEGREE CHUNK_LEN) as Hp.
    cbn [concat app] in Hp. rewrite !app_nil_r in Hp.
    rewrite Hp; [|constructor; [done|constructor]|cbn; unfold CHUNK_LEN; lia|done|
      rewrite E; unfold CHUNK_LEN; cbn; lia].
    cbn [obind length].
    rewrite (hash_many_one _ _ _ _ _ _ _ _ _ (hash1_chunk input key t flags (proj1 Hk) Ht' E)) by done.
    cbn [obind]. by rewrite decide_True.
  - pose proof (collect_pieces_spec [] input (S (length input)) MAX_SIMD_DEGREE CHUNK_LEN) as Hp.
    cbn [concat app] in Hp. rewrite Hp; [|constructor|lia|cbn; lia|cbn; lia].
    cbn [obind length]. unfold hash_many. rewrite decide_True by (cbn; lia). cbn [hash_many_loop obind].
    rewrite decide_False by done. unfold add_u64. rewrite N.add_0_r, decide_True by lia. cbn [obind].
    destruct (update_output key t flags input (proj1 Hk) Ht' Hl) as (s & -> & Hs). cbn [obind].
    assert (Hi : input_chaining_value (output s) = n_cv (chunk_node key t flags input)) by (by rewrite <- Hs).
    assert (Hc : counter (output s) = n_counter (chunk_node key t flags input)) by (by rewrite <- Hs).
    rewrite chaining_value_spec, Hs by (rewrite ?Hi, ?Hc, ?Hct; apply Hcv || lia).
    rewrite Nat.mul_0_l, copy_at_start by (rewrite length_le_bytes by apply Hw; done).
    cbn [obind]. by rewrite length_le_bytes by apply Hw.
Qed.

Ltac forall_done := repeat (apply Forall_cons_2; [done|]); apply Forall_nil_2.

Definition cv_bytes (cs : list (list N)) : list byte := concat (le_bytes_from_words_32 <$> cs).

Lemma length_cv_bytes cs : Forall cv_ok cs -> length (cv_bytes cs) = length cs * OUT_LEN.
Proof.
  unfold cv_bytes. induction 1 as [|c cs Hc _ IH]; [done|]. cbn [fmap list_fmap concat length].
  rewrite length_app, IH, length_le_bytes by apply Hc. done.
Qed.

Lemma cv_bytes_cons c cs : cv_bytes (c :: cs) = le_bytes_from_words_32 c ++ cv_bytes cs.
Proof. done. Qed.

Lemma cv_bytes_app cs cs' : cv_bytes (cs ++ cs') = cv_bytes cs ++ cv_bytes cs'.
Proof. unfold cv_bytes. by rewrite fmap_app, concat_app. Qed.

Lemma collect_parents pairs rest n :
  Forall (fun p => cv_ok p.1 /\ cv_ok p.2) pairs -> length pairs <= MAX_SIMD_DEGREE_OR_2 ->
  length rest < BLOCK_LEN -> length pairs <= n ->
  collect_pieces (S n) MAX_SIMD_DEGREE_OR_2 BLOCK_LEN
    (concat ((fun p => cv_bytes [p.1; p.2]) <$> pairs) ++ rest) =
    Ret ((fun p => cv_bytes [p.1; p.2]) <$> pairs, rest).
Proof.
  intros HF Hm Hr Hn. apply collect_pieces_spec; rewrite ?length_fmap; try lia.
  apply Forall_fmap. eapply Forall_impl; [exact HF|]. intros [a b] [Ha Hb]. cbn -[cv_bytes] in *.
  by rewrite length_cv_bytes by forall_done.
Qed.

Lemma parents_three a b c key flags out :
  cv_ok key -> Forall cv_ok [a; b; c] -> 2 * OUT_LEN <= length out ->
  const_compress_parents_parallel (cv_bytes [a; b; c]) key flags out =
    Ret (cv_bytes [node_cv (parent key flags a b); c] ++ drop (2 * OUT_LEN) out, 2).
Proof.
  intros Hk Hcs Ho. unfold const_compress_parents_parallel.
  rewrite length_cv_bytes by done. rewrite Nat.Div0.mod_mul, Nat.div_mul by done.
  rewrite !assert_true by (done || (unfold MAX_SIMD_DEGREE_OR_2; cbn; lia)). cbn [obind].
  apply Forall_cons in Hcs as [Ha Hcs]. apply Forall_cons in Hcs as [Hb Hcs].
  apply Forall_cons in Hcs as [Hc _].
  pose proof (length_cv_bytes [c] ltac:(forall_done)) as Hlc.
  pose proof (collect_parents [(a, b)] (cv_bytes [c]) (length [a; b; c] * OUT_LEN)) as Hp.
  rewrite Hlc in Hp. cbn [fmap list_fmap concat fst snd] in Hp. rewrite app_nil_r in Hp.
  change (cv_bytes [a; b; c]) with (cv_bytes ([a; b] ++ [c])). rewrite cv_bytes_app.
  rewrite Hp; [|forall_done|cbn; unfold MAX_SIMD_DEGREE_OR_2; lia
    |cbn; unfold OUT_LEN, BLOCK_LEN; lia|cbn [length]; unfold OUT_LEN; lia].
  cbn [obind]. rewrite (cv_bytes_cons a), (cv_bytes_cons b), app_nil_r.
  rewrite (hash_many_one _ _ _ _ _ _ _ _ _ (hash1_parent key flags a b (proj1 Hk) Ha Hb)) by (done || lia).
  cbn [obind]. rewrite decide_False by (intros E; by rewrite E in Hlc).
  assert (Hlp : length (le_bytes_from_words_32 (node_cv (parent key flags a b))) = OUT_LEN).
  { apply length_le_bytes, spec_compress_length, Hk. }
  rewrite copy_at_app; [|by rewrite Hlp, Nat.mul_1_l|rewrite length_drop, Hlc; cbn [length]; lia].
  cbn [obind]. rewrite drop_drop, Hlc, (cv_bytes_cons (node_cv _)), <- app_assoc. repeat f_equal.
Qed.

Lemma parents_four a b c d key flags out :
  cv_ok key -> Forall cv_ok [a; b; c; d] -> 2 * OUT_LEN <= length out ->
  const_compress_parents_parallel (cv_bytes [a; b; c; d]) key flags out =
    Ret (cv_bytes [node_cv (parent key flags a b); node_cv (parent key flags c d)] ++
           drop (2 * OUT_LEN) out, 2).
Proof.
  intros Hk Hcs Ho. unfold const_compress_parents_parallel.
  rewrite length_cv_bytes by done. rewrite Nat.Div0.mod_mul, Nat.div_mul by done.
  rewrite !assert_true by (done || (unfold MAX_SIMD_DEGREE_OR_2; cbn; lia)). cbn [obind].
  apply Forall_cons in Hcs as [Ha Hcs]. apply Forall_cons in Hcs as [Hb Hcs].
  apply Forall_cons in Hcs as [Hc Hcs]. apply Forall_cons in Hcs as [Hd _].
  pose proof (collect_parents [(a, b); (c, d)] [] (length [a; b; c; d] * OUT_LEN)) as Hp.
  cbn [fmap list_fmap concat fst snd] in Hp. rewrite !app_nil_r in Hp.
  change (cv_bytes [a; b; c; d]) with (cv_bytes ([a; b] ++ [c; d])). rewrite cv_bytes_app.
  rewrite Hp; [|forall_done|done
    |cbn; unfold BLOCK_LEN; lia|cbn [length]; unfold OUT_LEN; lia].
  cbn [obind]. rewrite (cv_bytes_cons a), (cv_bytes_cons b), (cv_bytes_cons c), (cv_bytes_cons d),
    !app_nil_r.
  rewrite (hash_many_two _ _ _ _ _ _ _ _ _ (hash1_parent key flags a b (proj1 Hk) Ha Hb)
    (hash1_parent key flags c d (proj1 Hk) Hc Hd)) by done.
  cbn [obind]. rewrite decide_True by done. unfold cv_bytes. cbn [fmap list_fmap concat].
  by rewrite app_nil_r, <- app_assoc.
Qed.

(** *** The subtrees *)

(** The chaining values a subtree is compressed to: its own when it is one chunk, those
    of its two children otherwise. *)
Definition children (key : list N) (flags t : N) (l : list byte) : list (list N) :=
  if decide (length l <= CHUNK_LEN) then [node_cv (tree key flags t l)]
  else
    let k := left_len (length l) in
    [node_cv (tree key flags t (take k l));
     node_cv (tree key flags (t + N.of_nat (k / CHUNK_LEN)) (drop k l))].

Lemma children_large key flags t l :
  CHUNK_LEN < length l ->
  exists a b, children key flags t l = [a; b] /\ tree key flags t l = parent key flags a b.
Proof.
  intros Hl. unfold children. rewrite decide_False by lia. do 2 eexists. split; [done|].
  by apply tree_parent.
Qed.

Lemma children_small key flags t l :
  length l <= CHUNK_LEN -> children key flags t l = [node_cv (tree key flags t l)].
Proof. intros Hl. unfold children. by rewrite decide_True. Qed.

Lemma length_children key flags t l : length (children key flags t l) = if decide (length l <= CHUNK_LEN) then 1 else 2.
Proof. unfold children. by destruct (decide _). Qed.

Section wide.
Context (key : list N) (flags : N) (Hk : cv_ok key) (Hf : (flags < 256)%N).

Lemma children_ok t l : counters_ok t l -> Forall cv_ok (children key flags t l).
Proof.
  intros Ht. unfold children. destruct (decide _).
  - apply Forall_singleton. by eapply tree_ok.
  - destruct (counters_ok_split t l Ht) as [H1 H2]; [lia|].
    repeat apply Forall_cons_2; [by eapply tree_ok..|apply Forall_nil_2].
Qed.

(** What the two halves of an input of more than one chunk are. *)
Record halves (t : N) (l lhs rhs : list byte) (t' : N) : Prop := {
  ha_children : children key flags t l = [node_cv (tree key flags t lhs); node_cv (tree key flags t' rhs)];
  ha_left : counters_ok t lhs;
  ha_right : counters_ok t' rhs;
  ha_left_ne : lhs <> [];
  ha_right_ne : rhs <> [];
  ha_left_len : CHUNK_LEN <= length lhs < length l;
  ha_right_len : length rhs < length l /\ length rhs <= length lhs;
  ha_multiple : length lhs = CHUNK_LEN \/ CHUNK_LEN < length lhs
}.

Lemma halves_split t l :
  counters_ok t l -> CHUNK_LEN < length l ->
  let k := left_len (length l) in
  halves t l (take k l) (drop k l) (t + N.of_nat (length (take k l) / CHUNK_LEN)).
Proof.
  intros Ht Hl. cbv zeta. destruct (counters_ok_split t l Ht Hl) as [H1 H2].
  destruct (left_len_bounds (length l) Hl) as (j & Hj & Hb).
  assert (Hp : 1 <= 2 ^ j) by (pose proof (Nat.pow_nonzero 2 j); lia).
  assert (Hc : 0 < CHUNK_LEN) by (unfold CHUNK_LEN; lia).
  assert (Hk' : CHUNK_LEN <= left_len (length l) < length l) by nia.
  assert (Ha : length (take (left_len (length l)) l) = left_len (length l)).
  { rewrite length_take. lia. }
  pose proof (length_drop l (left_len (length l))) as Hd.
  rewrite Ha. constructor; try done; rewrite ?Ha, ?Hd; try lia.
  - unfold children. by rewrite decide_False by lia.
  - intros E. apply (f_equal length) in E. rewrite Ha in E. cbn in E. lia.
  - intros E. apply (f_equal length) in E. rewrite Hd in E. cbn in E. lia.
Qed.

(** The last step of [const_compress_subtree_wide], from the chaining values of both
    halves. *)
Lemma join_subtrees t l lhs rhs t' out rest :
  halves t l lhs rhs t' -> 2 * OUT_LEN <= length out ->
  let cl := children key flags t lhs in
  let cr := children key flags t' rhs in
  (if decide (length cl = 1) then
     let! (cvs, _) := split_at (cv_bytes (cl ++ cr) ++ rest) (2 * OUT_LEN) in
     let! out := copy_at out 0 cvs in
     Ret (out, 2)
   else
     let! (cvs, _) := split_at (cv_bytes (cl ++ cr) ++ rest) ((length cl + length cr) * OUT_LEN) in
     const_compress_parents_parallel cvs key flags out) =
    Ret (cv_bytes (children key flags t l) ++ drop (2 * OUT_LEN) out, 2).
Proof.
  intros Hh Ho cl cr. rewrite (ha_children _ _ _ _ _ Hh).
  pose proof (children_ok _ _ (ha_left _ _ _ _ _ Hh)) as Hcl. fold cl in Hcl.
  pose proof (children_ok _ _ (ha_right _ _ _ _ _ Hh)) as Hcr. fold cr in Hcr.
  assert (Hlr : length (cv_bytes (cl ++ cr)) = (length cl + length cr) * OUT_LEN).
  { rewrite length_cv_bytes, length_app; [done|]. by apply Forall_app. }
  destruct (ha_right_len _ _ _ _ _ Hh) as [_ Hrl].
  destruct (ha_multiple _ _ _ _ _ Hh) as [E|E].
  - subst cl cr. rewrite (children_small key flags t lhs), (children_small key flags t' rhs) in * by lia.
    rewrite decide_True by done. rewrite split_at_app by done. cbn [obind].
    rewrite copy_at_start by (rewrite Hlr; cbn [length]; lia). cbn [obind]. by rewrite Hlr.
  - destruct (children_large key flags t lhs E) as (a & b & Ea & ->). subst cl. rewrite Ea in *.
    rewrite decide_False by done. rewrite split_at_app by done. cbn [obind].
    destruct (decide (length rhs <= CHUNK_LEN)) as [Hr|Hr].
    + subst cr. rewrite (children_small key flags t' rhs) in * by done. cbn [app].
      apply parents_three; [done|exact (Forall_app_2 _ _ _ Hcl Hcr)|done].
    + destruct (children_large key flags t' rhs) as (c & d & Ec & ->); [lia|]. subst cr. rewrite Ec in *.
      apply parents_four; [done|exact (Forall_app_2 _ _ _ Hcl Hcr)|done].
Qed.

Lemma wide_spec fuel t l out :
  length l < fuel -> l <> [] -> counters_ok t l ->
  length (children key flags t l) * OUT_LEN <= length out ->
  const_compress_subtree_wide fuel l key t flags out =
    Ret (cv_bytes (children key flags t l) ++
           drop (length (children key flags t l) * OUT_LEN) out,
         length (children key flags t l)).
Proof.
  revert t l out. induction fuel as [|fuel IH]; intros t l out Hfuel Hne Ht Ho; [lia|].
  cbn [const_compress_subtree_wide]. destruct (decide (length l <= CHUNK_LEN)) as [Hl|Hl].
  - rewrite children_small, tree_chunk in * by done. cbn [length] in *. rewrite Nat.mul_1_l in *.
    rewrite const_compress_chunks_parallel_spec by (done || (unfold counters_ok in Ht; lia)).
    unfold cv_bytes. cbn [fmap list_fmap concat]. by rewrite app_nil_r.
  - rewrite left_subtree_len_spec by lia. cbn [obind].
    pose proof (halves_split t l Ht ltac:(lia)) as Hh. cbv zeta in Hh.
    assert (Hs : left_len (length l) <= length l).
    { destruct (left_len_bounds (length l)) as (j & -> & ?); lia. }
    rewrite Nat2N.id, split_at_ok by done. cbn [obind].
    set (lhs := take _ l) in *. set (rhs := drop _ l) in *.
    set (t' := (t + _)%N) in *. clearbody lhs rhs.
    assert (Ha : add_u64 t (N.of_nat (length lhs / CHUNK_LEN)) = Ret t').
    { unfold add_u64. rewrite decide_True; [done|].
      pose proof (ha_right _ _ _ _ _ Hh) as Hr. unfold counters_ok in Hr. fold t'. lia. }
    rewrite Ha. cbn [obind]. clearbody t'. clear Ha.
    pose proof (ha_left_len _ _ _ _ _ Hh) as Hll. pose proof (ha_right_len _ _ _ _ _ Hh) as Hrl.
    assert (Hd : (if decide (length lhs = CHUNK_LEN) then 1 else 2) = length (children key flags t lhs)).
    { rewrite length_children. destruct (decide (_ = _)), (decide (_ <= _)); lia. }
    rewrite Hd. set (nl := length (children key flags t lhs)).
    set (nr := length (children key flags t' rhs)).
    assert (Hn : 1 <= nr <= nl /\ nl <= 2).
    { unfold nl, nr. rewrite !length_children.
      destruct (decide (length rhs <= _)), (decide (length lhs <= _)); lia. }
    assert (Hol : nl * OUT_LEN <= 2 * OUT_LEN) by (apply Nat.mul_le_mono_r; lia).
    assert (Hor : nr * OUT_LEN <= 2 * OUT_LEN) by (apply Nat.mul_le_mono_r; lia).
    set (cva := replicate _ _).
    assert (Hcva : length cva = 4 * OUT_LEN) by apply length_replicate. clearbody cva.
    rewrite split_at_ok by lia. cbn [obind].
    rewrite (IH t lhs) by
      (lia || apply Hh || (rewrite length_take, Hcva; fold nl; lia)).
    cbn [obind]. rewrite (IH t' rhs) by
      (lia || apply Hh || (rewrite length_drop, Hcva; fold nl nr; lia)).
    cbn [obind]. fold nl nr. rewrite (assert_true (nl = nl)) by done. cbn [obind].
    rewrite (assert_true (1 <= nr <= nl)) by apply Hn. cbn [obind].
    rewrite drop_ge by (rewrite length_take; lia). rewrite app_nil_r, app_assoc, <- cv_bytes_app.
    assert (H2 : length (children key flags t l) = 2) by (by rewrite (ha_children _ _ _ _ _ Hh)).
    rewrite H2 in *. by apply (join_subtrees _ _ _ _ _ _ _ Hh).
Qed.
End wide.

(** *** The root *)

Lemma counters_ok_start l : (N.of_nat (length l) < 2 ^ 64)%N -> counters_ok 0 l.
Proof.
  intros Hl. unfold counters_ok. rewrite Nat2N.inj_div. change (N.of_nat CHUNK_LEN) with 1024%N.
  pose proof (N.Div0.div_lt_upper_bound (N.of_nat (length l)) 1024 (2 ^ 54)) as H.
  change (1024 * 2 ^ 54)%N with (2 ^ 64)%N in H. specialize (H Hl). lia.
Qed.

Lemma const_compress_subtree_to_parent_node_spec input key flags :
  cv_ok key -> (flags < 256)%N -> (N.of_nat (length input) < 2 ^ 64)%N ->
  CHUNK_LEN < length input ->
  const_compress_subtree_to_parent_node input key 0 flags =
    Ret (cv_bytes (children key flags 0 input)).
Proof.
  intros Hk Hf Hn Hl. unfold const_compress_subtree_to_parent_node.
  rewrite assert_true by done. cbn [obind].
  destruct (children_large key flags 0 input Hl) as (a & b & E & _).
  pose proof (children_ok key flags Hk Hf 0 input (counters_ok_start input Hn)) as Hc.
  pose proof (length_cv_bytes _ Hc) as Hlen.
  assert (Hne : input <> []) by (intros ->; cbn in Hl; lia).
  rewrite wide_spec; [|done..|lia|done|by apply counters_ok_start|by rewrite E]. cbn [obind].
  rewrite E in *. cbn [length] in *. rewrite assert_true by lia. cbn [obind condense].
  rewrite decide_True by lia. cbn [obind]. by rewrite split_at_app by (by rewrite Hlen).
Qed.

Lemma root_hash_spec o n :
  to_node o = n -> length (n_cv n) = 8 -> n_counter n = 0%N ->
  root_hash o =
    Ret (le_bytes_from_words_32
      (spec_compress (n_cv n) (n_words n) 0 (n_len n) (N.lor (n_flags n) ROOT))).
Proof.
  intros <- Hl Hc. unfold root_hash. cbn in *. rewrite assert_true by done. cbn [obind].
  by rewrite compress_in_place_spec by (done || apply length_words_64).
Qed.

Lemma const_hash_all_at_once_spec input key flags :
  cv_ok key -> (flags < 256)%N -> (N.of_nat (length input) < 2 ^ 64)%N ->
  (let! o := const_hash_all_at_once input key flags in root_hash o) =
    Ret (spec_mode key flags input).
Proof.
  intros Hk Hf Hn. unfold const_hash_all_at_once, spec_mode.
  change (tree_node (length input) key flags 0 input) with (tree key flags 0 input). cbv zeta.
  destruct (decide (length input <= CHUNK_LEN)) as [Hl|Hl].
  - destruct (update_output key 0 flags input (proj1 Hk) ltac:(lia) Hl) as (s & -> & Hs).
    cbn [obind]. rewrite tree_chunk by done.
    destruct (chunk_node_ok key 0 flags input Hk ltac:(lia) Hf) as ([Hcv _] & _ & _ & Hct & _).
    by apply root_hash_spec.
  - rewrite const_compress_subtree_to_parent_node_spec by (done || lia). cbn [obind].
    destruct (children_large key flags 0 input) as (a & b & E & ->); [lia|].
    pose proof (children_ok key flags Hk Hf 0 input (counters_ok_start input Hn)) as Hc.
    rewrite E in *. apply Forall_cons in Hc as [Ha Hc]. apply Forall_cons in Hc as [Hb _].
    apply root_hash_spec; [|apply Hk|done]. unfold to_node, parent, cv_bytes.
    cbn [fmap list_fmap concat input_chaining_value block counter block_len Blake3Tree.flags].
    by rewrite app_nil_r, words_64_le_bytes.
Qed.

Lemma IV_ok : cv_ok IV.
Proof. split; [done|]. unfold IV. forall_done. Qed.

(** C3. The [const fn] hash functions return the BLAKE3 hash, keyed hash and derived key of
    the paper for every input whose length fits [u64]: no assertion, index or counter
    fails, and the splits, buffers and counters of the wide traversal give the tree of
    the specification. *)
Theorem const_hash_correct input key context :
  (N.of_nat (length input) < 2 ^ 64)%N -> (N.of_nat (length context) < 2 ^ 64)%N ->
  const_hash input = Ret (blake3 input) /\
  const_keyed_hash key input = Ret (blake3_keyed key input) /\
  const_derive_key context input = Ret (blake3_derive_key context input).
Proof.
  intros Hi Hc. split_and!.
  - unfold const_hash, blake3. by rewrite const_hash_all_at_once_spec by (done || apply IV_ok).
  - unfold const_keyed_hash, blake3_keyed. apply const_hash_all_at_once_spec; [apply words_32_ok|done..].
  - unfold const_derive_key, blake3_derive_key.
    pose proof (const_hash_all_at_once_spec context IV DERIVE_KEY_CONTEXT IV_ok ltac:(done) Hc) as E.
    destruct (const_hash_all_at_once context IV DERIVE_KEY_CONTEXT) as [o|]; [|done].
    cbn [obind] in *. rewrite E. cbn [obind].
    apply const_hash_all_at_once_spec; [|done..]. apply words_32_ok.
Qed.

Lemma const_hash_correct_witness :
  const_hash [x01; x02; x03] = Ret (blake3 [x01; x02; x03]).
Proof. apply (const_hash_correct [x01; x02; x03] (replicate KEY_LEN x00) []); reflexivity. Defined.

(** The official test vectors for the empty input and for 1025 bytes, hashed by
    evaluation. *)
Lemma known_answers :
  const_hash [] =
    Ret (hex 0xaf1349b9f5f9a1a6a0404dea36dcc9499bcb25c9adc112b7cc9a93cae41f3262) /\
  const_hash (test_input 1025) =
    Ret (hex 0xd00278ae47eb27b34faecf67b4fe263f82d5412916c1ffd97c8cb7fb814b8444).
Proof. split; vm_compute; reflexivity. Qed.

End Blake3Tree.
