(* ===== verification/Blake3Short.v ===== *)
(** * BLAKE3 of short inputs and the nodes of Merkle trees

    Model of [crates/shared/ab-blake3/src/single_block.rs] and [single_chunk.rs], which
    hash at most one block or chunk with the vectorised code of the [blake3] crate, and
    of the node functions of [crates/shared/ab-merkle-tree/src/lib.rs] built on them.
    The [blake3] crate's [Platform] is a parameter: the class [Platform] has the two
    functions used, [PlatformSpec] what is documented of them, that every vectorised
    implementation computes what the portable one does.  The file ends with the hasher
    the Merkle trees are used with, and soundness of their proofs in terms of it. *)

From S2P Require Import Prelude Slices MerkleSpec Unbalanced Balanced Blake3 Blake3Tree.
From stdpp Require Import prelude.
From Stdlib Require Import NArith Lia Btauto.
From Stdlib Require Import Strings.Byte.

Module Blake3Short.
Import Blake3 Blake3Tree.

(** ** The platform of the [blake3] crate *)

Class Platform : Type := {
  platform_compress_in_place : list N -> list byte -> N -> N -> N -> list N;
  platform_hash_many : list (list byte) -> list N -> N -> increment_counter -> N -> N -> N ->
    list byte -> outcome (list byte)
}.

Class PlatformSpec (P : Platform) : Prop := {
  platform_compress_spec : forall cv block block_len counter flags,
    length cv = 8 -> length block = BLOCK_LEN -> (counter < 2 ^ 64)%N ->
    platform_compress_in_place cv block block_len counter flags =
      compress_in_place cv (words_from_le_bytes_64 block) block_len counter flags;
  platform_hash_many_spec : forall inputs key counter incr flags flags_start flags_end out,
    length key = 8 -> Forall (fun i => length i mod BLOCK_LEN = 0) inputs ->
    platform_hash_many inputs key counter incr flags flags_start flags_end out =
      hash_many inputs key counter incr flags flags_start flags_end out
}.

(** [Platform::Portable] *)
Definition portable_platform : Platform :=
  {| platform_compress_in_place := fun cv block =>
       compress_in_place cv (words_from_le_bytes_64 block);
     platform_hash_many := hash_many |}.

#[export] Instance portable_platform_spec : PlatformSpec portable_platform.
Proof. constructor; done. Qed.

Section Functions.
Context `{P : Platform}.

(** ** [single_block.rs] *)

Definition hash_block (input : list byte) (key : list N) (flags : N) : option (list byte) :=
  if decide (BLOCK_LEN < length input) then None
  else
    let block := input ++ replicate (BLOCK_LEN - length input) x00 in
    let cv :=
      platform_compress_in_place key block (N.of_nat (length input)) 0
        (N.lor (N.lor (N.lor flags CHUNK_START) CHUNK_END) ROOT) in
    Some (le_bytes_from_words_32 cv).

(** [outputs] has as many elements as [inputs]; the result is its content afterwards. *)
Definition hash_block_many_exact (inputs outputs : list (list byte)) (key : list N) (flags : N)
    : outcome (list (list byte)) :=
  let flags := N.lor (N.lor (N.lor flags CHUNK_START) CHUNK_END) ROOT in
  let input_chunks := as_chunks 16 inputs in
  let remaining_inputs := drop (16 * length input_chunks) inputs in
  let output_chunks := as_chunks 16 outputs in
  let remaining_output_chunks := drop (16 * length output_chunks) outputs in
  let! chunks :=
    omapM (fun '(inputs, outputs) =>
      let! out := platform_hash_many inputs key 0 No flags 0 0 (concat outputs) in
      Ret (as_chunks OUT_LEN out)) (zip input_chunks output_chunks) in
  let remaining :=
    (fun '(input, _) =>
      le_bytes_from_words_32
        (platform_compress_in_place key input (N.of_nat BLOCK_LEN) 0 flags)) <$>
      zip remaining_inputs remaining_output_chunks in
  Ret (concat chunks ++ remaining).

Definition single_block_hash (input : list byte) : option (list byte) := hash_block input IV 0.

Definition single_block_hash_many_exact (inputs outputs : list (list byte))
    : outcome (list (list byte)) :=
  hash_block_many_exact inputs outputs IV 0.

Definition single_block_keyed_hash (key input : list byte) : option (list byte) :=
  hash_block input (words_from_le_bytes_32 key) KEYED_HASH.

Definition single_block_keyed_hash_many_exact (key : list byte) (inputs outputs : list (list byte))
    : outcome (list (list byte)) :=
  hash_block_many_exact inputs outputs (words_from_le_bytes_32 key) KEYED_HASH.

Definition single_block_derive_key (context key_material : list byte) : option (list byte) :=
  context_key ← hash_block context IV DERIVE_KEY_CONTEXT;
  hash_block key_material (words_from_le_bytes_32 context_key) DERIVE_KEY_MATERIAL.

Definition single_block_hash_portable_words (input : list N) (num_bytes : N) : list N :=
  compress_in_place_u32 IV input num_bytes 0 (N.lor (N.lor CHUNK_START CHUNK_END) ROOT).

(** ** [single_chunk.rs] *)

Fixpoint hash_chunk_blocks (block_index num_blocks : nat) (blocks : list (list byte)) (cv : list N)
    (flags : N) {struct blocks} : list N :=
  match blocks with
  | [] => cv
  | block :: blocks =>
      let block_flags := flags in
      let block_flags :=
        if decide (block_index = 0) then N.lor block_flags CHUNK_START else block_flags in
      let block_flags :=
        if decide (block_index + 1 = num_blocks) then N.lor block_flags (N.lor CHUNK_END ROOT)
        else block_flags in
      let cv := platform_compress_in_place cv block (N.of_nat BLOCK_LEN) 0 block_flags in
      hash_chunk_blocks (block_index + 1) num_blocks blocks cv flags
  end.

Definition hash_chunk (input : list byte) (key : list N) (flags : N) : option (list byte) :=
  if decide (CHUNK_LEN < length input) then None
  else
    let blocks := as_chunks BLOCK_LEN input in
    let remainder := drop (BLOCK_LEN * length blocks) input in
    let num_blocks := length blocks + (if decide (remainder = []) then 0 else 1) in
    let cv := hash_chunk_blocks 0 num_blocks blocks key flags in
    let cv :=
      if decide (remainder <> [] \/ num_blocks = 0) then
        let block_flags := N.lor (N.lor flags CHUNK_END) ROOT in
        let block_flags :=
          if decide (num_blocks <= 1) then N.lor block_flags CHUNK_START else block_flags in
        let buf := remainder ++ replicate (BLOCK_LEN - length remainder) x00 in
        platform_compress_in_place cv buf (N.of_nat (length remainder)) 0 block_flags
      else cv in
    Some (le_bytes_from_words_32 cv).

Definition single_chunk_hash (input : list byte) : option (list byte) := hash_chunk input IV 0.

Definition single_chunk_keyed_hash (key input : list byte) : option (list byte) :=
  hash_chunk input (words_from_le_bytes_32 key) KEYED_HASH.

Definition single_chunk_derive_key (context key_material : list byte) : option (list byte) :=
  context_key ← hash_chunk context IV DERIVE_KEY_CONTEXT;
  hash_chunk key_material (words_from_le_bytes_32 context_key) DERIVE_KEY_MATERIAL.

(** ** Nodes of Merkle trees ([ab-merkle-tree/src/lib.rs]) *)

(** The bytes of [merkle-tree-inner-node]. *)
Definition inner_node_string : list byte :=
  [x6d; x65; x72; x6b; x6c; x65; x2d; x74; x72; x65; x65; x2d; x69; x6e; x6e; x65; x72; x2d;
   x6e; x6f; x64; x65].

(** Evaluated at compile time, where a fault is a compilation error. *)
Definition INNER_NODE_DOMAIN_SEPARATOR : list byte :=
  match const_hash inner_node_string with Ret h => h | Fault => [] end.

(** [Option::expect] *)
Definition expect {A} (o : option A) : outcome A :=
  match o with Some x => Ret x | None => Fault end.

Definition hash_pair_bytes (l r : list byte) : outcome (list byte) :=
  let! buf := copy_at (replicate (OUT_LEN * 2) x00) 0 l in
  let! buf := copy_at buf OUT_LEN r in
  expect (single_block_keyed_hash INNER_NODE_DOMAIN_SEPARATOR buf).

Definition hash_pair_block (block : list byte) : outcome (list byte) :=
  expect (single_block_keyed_hash INNER_NODE_DOMAIN_SEPARATOR block).

Definition hash_pairs_bytes (num_blocks : nat) (pairs : list (list byte))
    : outcome (list (list byte)) :=
  let! _ := assert (length pairs = num_blocks * BLOCK_LEN / OUT_LEN) in
  let blocks := as_chunks BLOCK_LEN (concat pairs) in
  single_block_keyed_hash_many_exact INNER_NODE_DOMAIN_SEPARATOR blocks
    (replicate num_blocks (replicate OUT_LEN x00)).
End Functions.

(** ** Correctness *)

#[local] Opaque compress_in_place spec_compress words_from_le_bytes_64 le_bytes_from_words_32.
#[local] Arguments BLOCK_LEN : simpl never.
#[local] Arguments CHUNK_LEN : simpl never.
#[local] Arguments OUT_LEN : simpl never.

Section Spec.
Context {P : Platform} {PS : PlatformSpec P}.

Lemma platform_compress cv block block_len flags :
  length cv = 8 -> length block = BLOCK_LEN ->
  platform_compress_in_place cv block block_len 0 flags =
    spec_compress cv (words_from_le_bytes_64 block) 0 block_len flags.
Proof.
  intros Hc Hb. rewrite platform_compress_spec by done.
  by rewrite compress_in_place_spec by (done || apply length_words_64).
Qed.

Lemma length_pad b : length b <= BLOCK_LEN -> length (pad b) = BLOCK_LEN.
Proof. intros Hb. unfold pad. rewrite length_app, length_replicate. lia. Qed.

(** The root of an input of one chunk, as its blocks but the last and the last. *)
Lemma spec_mode_blocks key flags bs r :
  full bs -> length r <= BLOCK_LEN -> (r = [] -> bs = []) ->
  length (concat bs ++ r) <= CHUNK_LEN ->
  spec_mode key flags (concat bs ++ r) =
    le_bytes_from_words_32
      (spec_compress (chain key 0 flags CHUNK_START bs) (words_from_le_bytes_64 (pad r)) 0
        (N.of_nat (length r))
        (N.lor (N.lor (N.lor flags (start_of CHUNK_START bs)) CHUNK_END) ROOT)).
Proof.
  intros Hf Hr Hne Hl. unfold spec_mode.
  change (tree_node (length (concat bs ++ r)) key flags 0 (concat bs ++ r))
    with (tree key flags 0 (concat bs ++ r)).
  rewrite tree_chunk, chunk_node_blocks by done. done.
Qed.

Lemma hash_block_spec input key flags :
  length key = 8 ->
  hash_block input key flags =
    if decide (length input <= BLOCK_LEN) then Some (spec_mode key flags input) else None.
Proof.
  intros Hk. unfold hash_block. destruct (decide (BLOCK_LEN < length input)) as [Hl|Hl].
  - by rewrite decide_False by lia.
  - rewrite decide_True by lia. f_equal.
    pose proof (spec_mode_blocks key flags [] input) as E. cbn [concat app] in E.
    rewrite E; [|constructor|lia|done|unfold CHUNK_LEN, BLOCK_LEN in *; lia].
    change (input ++ replicate (BLOCK_LEN - length input) x00) with (pad input).
    by rewrite platform_compress by (done || apply length_pad; lia).
Qed.

Lemma chain_spec_length bs cv t flags start : length cv = 8 -> length (chain cv t flags start bs) = 8.
Proof.
  revert cv start. induction bs as [|b bs IH]; intros cv start Hc; [done|]. cbn [chain].
  by apply IH, spec_compress_length.
Qed.

Lemma hash_chunk_blocks_app i n bs bs' cv flags :
  full bs -> i + length bs < n -> length cv = 8 ->
  hash_chunk_blocks i n (bs ++ bs') cv flags =
    hash_chunk_blocks (i + length bs) n bs'
      (chain cv 0 flags (if decide (i = 0) then CHUNK_START else 0%N) bs) flags.
Proof.
  intros Hf. revert i cv. induction Hf as [|b bs Hb Hf IH]; intros i cv Hn Hc; cbn [app length].
  - by rewrite Nat.add_0_r.
  - cbn [length] in Hn. cbn [hash_chunk_blocks chain]. rewrite (decide_False (P := i + 1 = n)) by lia.
    assert (E : (if decide (i = 0) then N.lor flags CHUNK_START else flags) =
      N.lor flags (if decide (i = 0) then CHUNK_START else 0%N)).
    { destruct (decide (i = 0)); [done|]. by rewrite N.lor_0_r. }
    rewrite E, platform_compress by done.
    rewrite IH by (lia || by apply spec_compress_length).
    by rewrite (decide_False (P := i + 1 = 0)), <- Nat.add_assoc by lia.
Qed.

Lemma lor_start flags start e r :
  N.lor (N.lor (N.lor flags e) r) start = N.lor (N.lor (N.lor flags start) e) r.
Proof. apply N.bits_inj. intros i. rewrite !N.lor_spec. btauto. Qed.

(** The full blocks and the remainder of a chunk are hashed in turn. *)
Lemma hash_chunk_remainder bs r key flags n :
  full bs -> length r < BLOCK_LEN -> (r = [] -> bs = []) -> length (concat bs ++ r) <= CHUNK_LEN ->
  length key = 8 -> length bs <= n -> (bs = [] <-> n <= 1) -> (bs <> [] -> length bs < n) ->
  le_bytes_from_words_32
    (platform_compress_in_place (hash_chunk_blocks 0 n bs key flags)
      (r ++ replicate (BLOCK_LEN - length r) x00) (N.of_nat (length r)) 0
      (if decide (n <= 1) then N.lor (N.lor (N.lor flags CHUNK_END) ROOT) CHUNK_START
       else N.lor (N.lor flags CHUNK_END) ROOT)) =
    spec_mode key flags (concat bs ++ r).
Proof.
  intros Hf Hr Hne Hl Hk Hn H1 Hlt. rewrite spec_mode_blocks by (done || lia). f_equal.
  assert (E : hash_chunk_blocks 0 n bs key flags = chain key 0 flags CHUNK_START bs).
  { destruct (decide (bs = [])) as [->|Hbs]; [done|].
    pose proof (hash_chunk_blocks_app 0 n bs [] key flags Hf (Hlt Hbs) Hk) as E.
    by rewrite app_nil_r, decide_True in E by done. }
  rewrite E. change (r ++ replicate (BLOCK_LEN - length r) x00) with (pad r).
  rewrite platform_compress by (by apply chain_spec_length || apply length_pad; lia).
  apply (f_equal (spec_compress _ _ _ _)). unfold start_of.
  destruct (decide (n <= 1)) as [Hle|Hgt], (decide (bs = [])) as [Hb|Hb].
  - apply lor_start.
  - by apply H1 in Hle.
  - by apply H1 in Hb.
  - by rewrite N.lor_0_r.
Qed.

Lemma hash_chunk_full bs b key flags :
  full bs -> length b = BLOCK_LEN -> length (concat bs ++ b) <= CHUNK_LEN -> length key = 8 ->
  le_bytes_from_words_32 (hash_chunk_blocks 0 (S (length bs)) (bs ++ [b]) key flags) =
    spec_mode key flags (concat bs ++ b).
Proof.
  intros Hf Hb Hl Hk. rewrite spec_mode_blocks; [|done|lia|by intros ->|done].
  rewrite (hash_chunk_blocks_app 0) by (done || lia). cbn [hash_chunk_blocks Nat.add].
  rewrite (decide_True (P := length bs + 1 = S (length bs))) by lia.
  rewrite platform_compress by (done || by apply chain_spec_length).
  rewrite (decide_True (P := 0 = 0)), pad_full, Hb by done.
  apply (f_equal le_bytes_from_words_32), (f_equal (spec_compress _ _ _ _)). rewrite N.lor_assoc.
  unfold start_of. destruct bs; [done|]. cbn [length]. rewrite decide_False by lia.
  by rewrite (decide_False (P := _ :: _ = [])), N.lor_0_r by done.
Qed.

Lemma hash_chunk_spec input key flags :
  length key = 8 ->
  hash_chunk input key flags =
    if decide (length input <= CHUNK_LEN) then Some (spec_mode key flags input) else None.
Proof.
  intros Hk. unfold hash_chunk. destruct (decide (CHUNK_LEN < length input)) as [Hl|Hl].
  { by rewrite decide_False by lia. }
  rewrite (decide_True (P := length input <= CHUNK_LEN)) by lia. f_equal.
  destruct (as_chunks_split BLOCK_LEN input) as (r & Hi & Hr & -> & Hf); [unfold BLOCK_LEN; lia|].
  set (bs := as_chunks BLOCK_LEN input) in *. clearbody bs. subst input.
  destruct (decide (r = [])) as [->|Hne].
  - rewrite Nat.add_0_r. destruct bs as [|b bs' _] using rev_ind.
    + rewrite decide_True by auto. apply hash_chunk_remainder; try done; [cbn; lia|].
      split; cbn; auto with lia.
    + rewrite decide_False by (rewrite length_app; cbn; intros [?|?]; [done|lia]).
      apply Forall_app in Hf as [Hf Hb]. rewrite Forall_singleton in Hb.
      rewrite concat_app in *. cbn [concat] in *. rewrite !app_nil_r in *.
      rewrite length_app, Nat.add_1_r. apply hash_chunk_full; done || lia.
  - rewrite decide_True by auto. apply hash_chunk_remainder; try done; try lia.
    destruct bs; cbn [length]; split; intros; done || lia.
Qed.

(** *** Many blocks at once *)

Lemma hash1_block key flags b :
  length key = 8 -> length b = BLOCK_LEN ->
  hash1 b key 0 flags 0 0 =
    Ret (le_bytes_from_words_32 (spec_compress key (words_from_le_bytes_64 b) 0 64 flags)).
Proof.
  intros Hk Hb. unfold hash1. rewrite decide_True by (by rewrite Hb).
  pose proof (hash1_loop_spec (S (length b)) [] b key 0 flags 0 0 Hk ltac:(lia) ltac:(constructor)
    Hb ltac:(rewrite Hb; unfold BLOCK_LEN; cbn; lia)) as E.
  cbn [concat app] in E. rewrite E. cbn [obind]. unfold start_of. rewrite decide_True by done.
  by rewrite !N.lor_0_r.
Qed.

Lemma length_out cv m t b d :
  length cv = 8 -> length (le_bytes_from_words_32 (spec_compress cv m t b d)) = OUT_LEN.
Proof. intros Hc. by apply length_le_bytes, spec_compress_length. Qed.

Lemma hash_many_blocks key flags bs out :
  length key = 8 -> full bs -> length out = length bs * OUT_LEN ->
  hash_many bs key 0 No flags 0 0 out =
    Ret (concat ((fun b => le_bytes_from_words_32
      (spec_compress key (words_from_le_bytes_64 b) 0 64 flags)) <$> bs)).
Proof.
  intros Hk Hf Ho. unfold hash_many. rewrite decide_True by lia. revert out Ho.
  induction Hf as [|b bs Hb Hf IH]; intros out Ho; cbn [hash_many_loop fmap list_fmap concat].
  - apply length_zero_iff_nil in Ho. by subst.
  - cbn [length] in Ho. rewrite split_at_ok by lia. cbn [obind]. rewrite hash1_block by done.
    cbn [obind]. by rewrite IH by (rewrite length_drop; lia).
Qed.

Lemma chunks_at_concat {A} fuel k (ls : list (list A)) :
  0 < k -> Forall (fun l => length l = k) ls -> length ls <= fuel -> chunks_at fuel k (concat ls) = ls.
Proof.
  intros Hk HF. revert fuel. induction HF as [|l ls Hl HF IH]; intros [|fuel] Hn; try done;
    cbn [chunks_at concat length] in *; [|lia|].
  - by rewrite decide_True by done.
  - rewrite decide_False by (rewrite length_app; lia).
    by rewrite take_app_length', drop_app_length', IH by (done || lia).
Qed.

Lemma length_concat_all {A} k (ls : list (list A)) :
  Forall (fun l => length l = k) ls -> length (concat ls) = k * length ls.
Proof. induction 1 as [|l ls Hl _ IH]; cbn [concat length]; [lia|]. rewrite length_app, IH, Hl. lia. Qed.

Lemma as_chunks_concat {A} k (ls : list (list A)) :
  0 < k -> Forall (fun l => length l = k) ls -> as_chunks k (concat ls) = ls.
Proof.
  intros Hk HF. apply chunks_at_concat; [done..|]. rewrite (length_concat_all k) by done. nia.
Qed.

Lemma spec_mode_block key flags b :
  length key = 8 -> length b = BLOCK_LEN ->
  spec_mode key flags b =
    le_bytes_from_words_32
      (spec_compress key (words_from_le_bytes_64 b) 0 64
        (N.lor (N.lor (N.lor flags CHUNK_START) CHUNK_END) ROOT)).
Proof.
  intros Hk Hb. pose proof (spec_mode_blocks key flags [] b) as E. cbn [concat app] in E.
  rewrite E; [|constructor|lia|done|rewrite Hb; unfold BLOCK_LEN, CHUNK_LEN; lia].
  by rewrite pad_full, Hb.
Qed.

Lemma length_as_chunks {A B} k (l : list A) (l' : list B) :
  0 < k -> length l = length l' -> length (as_chunks k l) = length (as_chunks k l').
Proof.
  intros Hk Hl. unfold as_chunks. rewrite Hl. generalize (length l') at 1 2 as fuel. intros fuel.
  revert l l' Hl. induction fuel as [|fuel IH]; intros l l' Hl; [done|]. cbn [chunks_at].
  rewrite Hl. destruct (decide _); [done|]. cbn [length]. f_equal. apply IH.
  rewrite !length_drop. lia.
Qed.

Lemma omapM_hash_many key flags (ics ocs : list (list (list byte))) :
  length key = 8 -> length ics = length ocs ->
  Forall (fun c => length c = 16 /\ full c) ics ->
  Forall (fun c => length c = 16 /\ Forall (fun o => length o = OUT_LEN) c) ocs ->
  let flags' := N.lor (N.lor (N.lor flags CHUNK_START) CHUNK_END) ROOT in
  omapM (fun '(inputs, outputs) =>
      let! out := platform_hash_many inputs key 0 No flags' 0 0 (concat outputs) in
      Ret (as_chunks OUT_LEN out)) (zip ics ocs) =
    Ret (fmap (M := list) (fmap (M := list) (spec_mode key flags)) ics).
Proof.
  intros Hk Hl Hi Ho flags'. revert ocs Hl Ho.
  induction Hi as [|ic ics [Hic Hf] Hi IH]; intros [|oc ocs] Hl Ho; try done.
  cbn [length] in Hl. injection Hl as Hl. apply Forall_cons in Ho as [[Hoc Hout] Ho].
  cbn [zip zip_with omapM fmap list_fmap].
  rewrite platform_hash_many_spec; [|done|].
  2: { eapply Forall_impl; [exact Hf|]. intros b Hb. cbv beta in Hb. by rewrite Hb. }
  rewrite hash_many_blocks; [|done|done|rewrite (length_concat_all OUT_LEN) by done; lia].
  cbn [obind]. rewrite IH by done. cbn [obind].
  rewrite as_chunks_concat; [|unfold OUT_LEN; lia|].
  - do 2 f_equal.
    apply list_fmap_ext. intros i b Hb. unfold full in Hf. rewrite Forall_lookup in Hf.
    by rewrite spec_mode_block by eauto.
  - apply Forall_fmap, Forall_true. intros b. by apply length_out.
Qed.

Lemma hash_block_many_exact_spec inputs outputs key flags :
  length key = 8 -> full inputs -> length inputs = length outputs ->
  Forall (fun o => length o = OUT_LEN) outputs ->
  hash_block_many_exact inputs outputs key flags = Ret (spec_mode key flags <$> inputs).
Proof.
  intros Hk Hf Hl Ho. unfold hash_block_many_exact.
  destruct (as_chunks_split 16 inputs) as (ri & Hi & _ & -> & Hci); [lia|].
  destruct (as_chunks_split 16 outputs) as (ro & Hro & _ & -> & Hco); [lia|].
  pose proof (length_as_chunks 16 inputs outputs ltac:(lia) Hl) as Hn.
  set (ics := as_chunks 16 inputs) in *. set (ocs := as_chunks 16 outputs) in *.
  clearbody ics ocs. subst inputs outputs. unfold full in Hf.
  apply Forall_app in Hf as [Hf1 Hf2]. apply Forall_app in Ho as [Ho1 Ho2].
  rewrite Forall_concat in Hf1, Ho1.
  rewrite (omapM_hash_many key flags) by (done || by apply Forall_and). cbn [obind].
  f_equal. rewrite fmap_app.
  change (spec_mode key flags <$> concat ics) with (map (spec_mode key flags) (concat ics)).
  rewrite concat_map. apply (f_equal2 app); [done|].
  assert (Hr : length ri = length ro).
  { rewrite !length_app, !(length_concat_all 16) in Hl by done. lia. }
  clear -Hf2 Hr Hk PS. revert ro Hr.
  induction Hf2 as [|b bs Hb Hf IH]; intros [|o os] Hr; try done. cbn in Hr. injection Hr as Hr.
  cbn [zip zip_with fmap list_fmap]. apply (f_equal2 cons); [|by apply IH].
  by rewrite spec_mode_block, platform_compress by done.
Qed.

(** *** Nodes *)

Lemma IV_length : length IV = 8.
Proof. done. Qed.

Lemma separator_spec : INNER_NODE_DOMAIN_SEPARATOR = blake3 inner_node_string.
Proof.
  unfold INNER_NODE_DOMAIN_SEPARATOR, const_hash.
  by rewrite (const_hash_all_at_once_spec inner_node_string IV 0 IV_ok).
Qed.

(** The parent of two nodes. *)
Definition node_hash (l r : list byte) : list byte := blake3_keyed (blake3 inner_node_string) (l ++ r).

Lemma keyed_block b :
  length b = BLOCK_LEN ->
  single_block_keyed_hash INNER_NODE_DOMAIN_SEPARATOR b =
    Some (blake3_keyed (blake3 inner_node_string) b).
Proof.
  intros Hb. unfold single_block_keyed_hash. rewrite hash_block_spec by apply length_words_32.
  by rewrite decide_True, separator_spec by lia.
Qed.

Lemma length_node_hash l r : length (l ++ r) = BLOCK_LEN -> length (node_hash l r) = OUT_LEN.
Proof.
  intros Hl. unfold node_hash, blake3_keyed. rewrite spec_mode_block by (done || apply length_words_32).
  apply length_out, length_words_32.
Qed.

Lemma hash_pair_bytes_spec l r :
  length l = OUT_LEN -> length r = OUT_LEN -> hash_pair_bytes l r = Ret (node_hash l r).
Proof.
  intros Hl Hr. unfold hash_pair_bytes.
  assert (Hz : length (replicate (OUT_LEN * 2) x00) = OUT_LEN * 2) by apply length_replicate.
  rewrite copy_at_start by lia. cbn [obind].
  rewrite copy_at_app by (done || (rewrite length_drop, Hz; lia)). cbn [obind].
  rewrite (drop_ge (drop _ _)) by (rewrite length_drop, Hz; lia). rewrite app_nil_r.
  by rewrite keyed_block by (by rewrite length_app, Hl, Hr).
Qed.

Lemma as_chunks_pairs (nodes : list (list byte)) n :
  length nodes = 2 * n -> Forall (fun h => length h = OUT_LEN) nodes ->
  let blocks := as_chunks BLOCK_LEN (concat nodes) in
  full blocks /\ length blocks = n /\
  (blake3_keyed (blake3 inner_node_string) <$> blocks) = pairs node_hash nodes.
Proof.
  intros Hn HF. cbv zeta.
  enough (H : forall n (nodes : list (list byte)), length nodes = 2 * n ->
    Forall (fun h => length h = OUT_LEN) nodes ->
    exists blocks, concat nodes = concat blocks /\ full blocks /\ length blocks = n /\
      (blake3_keyed (blake3 inner_node_string) <$> blocks) = pairs node_hash nodes).
  { destruct (H n nodes Hn HF) as (blocks & -> & Hf & Hlen & E).
    by rewrite as_chunks_concat by (done || (unfold BLOCK_LEN; lia)). }
  clear n nodes Hn HF. induction n as [|n IH]; intros nodes Hn HF.
  - destruct nodes; [|cbn in Hn; lia]. exists []. split_and!; try done. constructor.
  - destruct nodes as [|a [|b nodes]]; try (cbn in Hn; lia).
    apply Forall_cons in HF as [Ha HF]. apply Forall_cons in HF as [Hb HF].
    destruct (IH nodes) as (blocks & E & Hf & Hlen & Hp); [cbn in Hn; lia|done|].
    exists ((a ++ b) :: blocks). cbn [concat length fmap list_fmap pairs].
    rewrite E, <- app_assoc. split_and!; [done| |by rewrite Hlen|by rewrite <- Hp].
    constructor; [by rewrite length_app, Ha, Hb|done].
Qed.

Lemma hash_pairs_bytes_spec n nodes :
  length nodes = 2 * n -> Forall (fun h => length h = OUT_LEN) nodes ->
  hash_pairs_bytes n nodes = Ret (pairs node_hash nodes).
Proof.
  intros Hn HF. unfold hash_pairs_bytes. rewrite assert_true.
  2: { rewrite Hn. change BLOCK_LEN with (2 * OUT_LEN). rewrite Nat.mul_assoc, Nat.div_mul by done. lia. }
  cbn [obind]. destruct (as_chunks_pairs nodes n Hn HF) as (Hf & Hlen & E).
  unfold single_block_keyed_hash_many_exact. rewrite separator_spec.
  rewrite hash_block_many_exact_spec.
  - unfold blake3_keyed in E. by rewrite <- E.
  - apply length_words_32.
  - done.
  - by rewrite length_replicate.
  - apply Forall_replicate, length_replicate.
Qed.
End Spec.

(** ** The hasher of the Merkle trees *)

(** [[u8; OUT_LEN]] *)
Definition hash32 : Type := {h : list byte | length h = OUT_LEN}.

#[export] Instance hash32_eq_dec : EqDecision hash32.
Proof. unfold hash32. solve_decision. Defined.

Definition val32 (h : hash32) : list byte := proj1_sig h.

Definition zero32 : hash32 := exist _ (replicate OUT_LEN x00) eq_refl.

(** The array a call returns; [hash_pair_bytes] returns one for all arrays, see
    [hash32_pair_bytes]. *)
Definition to_hash32 (o : outcome (list byte)) : hash32 :=
  match o with
  | Ret h => match decide (length h = OUT_LEN) with left Hl => exist _ h Hl | right _ => zero32 end
  | Fault => zero32
  end.

Definition blake3_hasher (P : Platform) : NodeHasher hash32 :=
  {| hash_pair := fun a b => to_hash32 (hash_pair_bytes (P := P) (val32 a) (val32 b));
     zero_hash := zero32 |}.

Section Hasher.
Context {P : Platform} {PS : PlatformSpec P}.
#[local] Existing Instance blake3_hasher.

Lemma hash32_pair_bytes (a b : hash32) :
  hash_pair_bytes (P := P) (val32 a) (val32 b) = Ret (val32 (hash_pair a b)) /\ val32 (hash_pair a b) = node_hash (val32 a) (val32 b).
Proof.
  destruct a as [a Ha], b as [b Hb]. cbn. rewrite hash_pair_bytes_spec by done.
  assert (Hl : length (node_hash a b) = OUT_LEN) by (apply length_node_hash; by rewrite length_app, Ha, Hb).
  cbn. by destruct (decide (length (node_hash a b) = OUT_LEN)).
Qed.

Lemma hash32_ne (a b c d : hash32) : (a, b) <> (c, d) -> val32 a ++ val32 b <> val32 c ++ val32 d.
Proof.
  intros Hne E. apply Hne. destruct a as [a Ha], b as [b Hb], c as [c Hc], d as [d Hd]. cbn in *.
  apply app_inj_1 in E as [-> ->]; [|by rewrite Ha, Hc]. f_equal; by apply sig_eq_pi; [apply _|].
Qed.

(** Hashing of at most one block or chunk with the platform's vectorised code is
    BLAKE3: [None] exactly for inputs that are too long, otherwise the hash, keyed hash
    or derived key; the portable function on words computes the same hash. *)
Theorem short_hash_correct (input key context : list byte) :
  single_block_hash (P := P) input =
    (if decide (length input <= BLOCK_LEN) then Some (blake3 input) else None) /\
  single_block_keyed_hash (P := P) key input =
    (if decide (length input <= BLOCK_LEN) then Some (blake3_keyed key input) else None) /\
  single_block_derive_key (P := P) context input =
    (if decide (length context <= BLOCK_LEN /\ length input <= BLOCK_LEN)
     then Some (blake3_derive_key context input) else None) /\
  single_chunk_hash (P := P) input =
    (if decide (length input <= CHUNK_LEN) then Some (blake3 input) else None) /\
  single_chunk_keyed_hash (P := P) key input =
    (if decide (length input <= CHUNK_LEN) then Some (blake3_keyed key input) else None) /\
  single_chunk_derive_key (P := P) context input =
    (if decide (length context <= CHUNK_LEN /\ length input <= CHUNK_LEN)
     then Some (blake3_derive_key context input) else None) /\
  (length input <= BLOCK_LEN ->
   le_bytes_from_words_32
     (single_block_hash_portable_words
       (words_from_le_bytes_64 (input ++ replicate (BLOCK_LEN - length input) x00))
       (N.of_nat (length input))) = blake3 input).
Proof.
  pose proof length_words_32 as Hw. split_and!.
  - apply hash_block_spec, IV_length.
  - apply hash_block_spec, Hw.
  - unfold single_block_derive_key. rewrite hash_block_spec by apply IV_length.
    destruct (decide (length context <= BLOCK_LEN)) as [H1|H1]; cbn [mbind option_bind].
    + rewrite hash_block_spec by apply Hw.
      destruct (decide (length input <= BLOCK_LEN)); [by rewrite decide_True|].
      by rewrite decide_False by tauto.
    + by rewrite decide_False by tauto.
  - apply hash_chunk_spec, IV_length.
  - apply hash_chunk_spec, Hw.
  - unfold single_chunk_derive_key. rewrite hash_chunk_spec by apply IV_length.
    destruct (decide (length context <= CHUNK_LEN)) as [H1|H1]; cbn [mbind option_bind].
    + rewrite hash_chunk_spec by apply Hw.
      destruct (decide (length input <= CHUNK_LEN)); [by rewrite decide_True|].
      by rewrite decide_False by tauto.
    + by rewrite decide_False by tauto.
  - intros Hl. pose proof (hash_block_spec input IV 0 IV_length) as E. unfold hash_block in E.
    rewrite (decide_False (P := BLOCK_LEN < _)), (decide_True (P := _ <= BLOCK_LEN)) in E by lia.
    injection E as E. unfold blake3. rewrite <- E.
    rewrite platform_compress by (done || apply length_pad; lia).
    unfold single_block_hash_portable_words.
    by rewrite compress_in_place_u32_spec, compress_in_place_spec by (done || apply length_words_64).
Qed.

Lemma Forall_hash32 (l : list hash32) : Forall (fun h => length h = OUT_LEN) (val32 <$> l).
Proof. apply Forall_fmap, Forall_true. intros [h Hh]. done. Qed.

Lemma pairs_val32 (l : list hash32) : pairs node_hash (val32 <$> l) = val32 <$> pairs hash_pair l.
Proof.
  induction l as [| |a b r IH] using list_pair_ind; [done..|]. cbn [fmap list_fmap pairs].
  apply (f_equal2 cons); [|done]. symmetry. apply hash32_pair_bytes.
Qed.

(** The batched node hashing [hash_pairs], which runs the vectorised code on groups
    of 16 blocks, refines the [hash_pairs] the balanced tree is built from: for every
    number of nodes it returns the parents of the pairs, or fails its assertion. *)
Theorem hash_pairs_refines n (nodes : list hash32) :
  hash_pairs_bytes (P := P) n (val32 <$> nodes) =
    (let! parents := Balanced.hash_pairs n nodes in Ret (val32 <$> parents)).
Proof.
  unfold Balanced.hash_pairs. destruct (decide (length nodes = 2 * n)) as [Hn|Hn]; cbn [obind].
  - rewrite hash_pairs_bytes_spec by (apply Forall_hash32 || by rewrite length_fmap).
    by rewrite pairs_val32.
  - unfold hash_pairs_bytes, assert. rewrite length_fmap, decide_False; [done|].
    change BLOCK_LEN with (2 * OUT_LEN). rewrite Nat.mul_assoc, Nat.div_mul by done. lia.
Qed.

(** C23. Soundness of Merkle proofs in terms of BLAKE3: when [verify] of the unbalanced
    tree accepts a proof against the root of a list of leaves, the leaf is at that index
    and the proof is its path, or two different blocks, one hashed in the tree and one
    hashed by the verifier, have the same keyed BLAKE3 hash. *)
Theorem merkle_verify_blake3_sound (leaves : list hash32) root i leaf proof :
  (N.of_nat (length leaves) < 2 ^ 64)%N -> merkle_root hash_pair leaves = Some root ->
  Unbalanced.verify root proof i leaf (N.of_nat (length leaves)) = Ret true ->
  (leaves !! N.to_nat i = Some leaf /\ proof = merkle_path hash_pair leaves (N.to_nat i)) \/
  exists p q,
    p ∈ tree_inputs hash_pair leaves /\
    q ∈ path_inputs (length leaves) (N.to_nat i) leaf proof /\
    val32 p.1 ++ val32 p.2 <> val32 q.1 ++ val32 q.2 /\
    blake3_keyed (blake3 inner_node_string) (val32 p.1 ++ val32 p.2) =
      blake3_keyed (blake3 inner_node_string) (val32 q.1 ++ val32 q.2).
Proof.
  intros Hn Hroot Hv.
  destruct (Unbalanced.verify_accepts_only_path leaves root i leaf proof) as [|Hc];
    [lia|done..|by left|right].
  destruct Hc as ([a b] & [c d] & Hp & Hq & Hne & He). exists (a, b), (c, d).
  split; [done|]. split; [done|]. split; [by apply hash32_ne|]. cbn [fst snd] in *.
  apply (f_equal val32) in He. rewrite !(proj2 (hash32_pair_bytes _ _)) in He. exact He.
Qed.
End Hasher.

(** ** Witnesses *)

Lemma short_hash_correct_witness :
  single_block_hash (P := portable_platform) [x01; x02] = Some (blake3 [x01; x02]) /\
  single_block_hash (P := portable_platform) (replicate 65 x00) = None.
Proof.
  split; [exact (proj1 (short_hash_correct (P := portable_platform) [x01; x02] [] []))|].
  exact (proj1 (short_hash_correct (P := portable_platform) (replicate 65 x00) [] [])).
Defined.

Definition sample32 (b : byte) : hash32 := exist _ (replicate OUT_LEN b) eq_refl.

Lemma hash_pairs_refines_witness :
  hash_pairs_bytes (P := portable_platform) 1 (val32 <$> [sample32 x01; sample32 x02]) =
    (let! parents :=
       Balanced.hash_pairs (hasher := blake3_hasher portable_platform) 1 [sample32 x01; sample32 x02] in
     Ret (val32 <$> parents)).
Proof. apply (hash_pairs_refines (P := portable_platform)). Defined.

Lemma merkle_verify_blake3_sound_witness :
  let hasher := blake3_hasher portable_platform in
  let leaves := [sample32 x01; sample32 x02; sample32 x03] in
  let proof := merkle_path hash_pair leaves 1 in
  (leaves !! 1 = Some (sample32 x02) /\ proof = merkle_path hash_pair leaves 1) \/
  exists p q,
    p ∈ tree_inputs hash_pair leaves /\ q ∈ path_inputs 3 1 (sample32 x02) proof /\
    val32 p.1 ++ val32 p.2 <> val32 q.1 ++ val32 q.2 /\
    blake3_keyed (blake3 inner_node_string) (val32 p.1 ++ val32 p.2) =
      blake3_keyed (blake3 inner_node_string) (val32 q.1 ++ val32 q.2).
Proof.
  intros hasher leaves proof.
  destruct (merkle_root hash_pair leaves) as [root|] eqn:Hr; [|vm_compute in Hr; discriminate].
  apply (merkle_verify_blake3_sound (P := portable_platform) leaves root 1 (sample32 x02) proof).
  - reflexivity.
  - exact Hr.
  - assert (E : merkle_root hash_pair leaves =
      Some (hash_pair (hash_pair (sample32 x01) (sample32 x02)) (sample32 x03))) by reflexivity.
    rewrite E in Hr. injection Hr as <-. vm_compute. reflexivity.
Defined.

End Blake3Short.
