(* ===== verification/AlignedBuffer.v ===== *)
(** * Aligned buffers

    Model of [crates/shared/ab-aligned-buffer/src/lib.rs].  [InnerBuffer], which both
    the owned and the shared buffer wrap, is the record [buffer]: the bytes behind
    the reference counter ([None] is uninitialised memory), the capacity and the
    length.  The second half is the reference counting of the shared buffer on a
    heap of allocations.  A failed allocation is not modelled. *)

From S2P Require Import Prelude Slices.
From stdpp Require Import prelude gmap.
From Stdlib Require Import NArith Lia.
From Stdlib Require Import Strings.Byte.

Module AlignedBuffer.

Record buffer : Type := Buffer {
  buf_mem : list (option byte);
  buf_capacity : N;
  buf_len : N
}.

#[export] Instance buffer_eq_dec : EqDecision buffer.
Proof. solve_decision. Defined.

(** Bytes behind the counter for a given capacity: whole [u128]s. *)
Definition data_size (capacity : N) : nat := N.to_nat (16 * ((capacity + 15) / 16)).

Definition allocate (capacity : N) : buffer :=
  {| buf_mem := replicate (data_size capacity) None; buf_capacity := capacity; buf_len := 0 |}.

(** [SharedAlignedBuffer::default()] and [empty_ref()]. *)
Definition empty : buffer := allocate 0.

(** [realloc] keeps the common prefix. *)
Definition resize_to (b : buffer) (capacity : N) : buffer :=
  {| buf_mem := resize (data_size capacity) None (buf_mem b);
     buf_capacity := capacity; buf_len := buf_len b |}.

(** [slice::from_raw_parts(self.as_ptr(), len)] *)
Definition as_slice (b : buffer) : outcome (list byte) :=
  match mapM id (take (N.to_nat (buf_len b)) (buf_mem b)) with
  | Some bytes => if decide (length bytes = N.to_nat (buf_len b)) then Ret bytes else Fault
  | None => Fault
  end.

(** [copy_from_nonoverlapping] to offset [off]. *)
Definition write_at (b : buffer) (off : nat) (bytes : list byte) : outcome buffer :=
  if decide (off + length bytes <= length (buf_mem b)) then
    Ret {| buf_mem := take off (buf_mem b) ++ (Some <$> bytes) ++
                      drop (off + length bytes) (buf_mem b);
           buf_capacity := buf_capacity b; buf_len := buf_len b |}
  else Fault.

Definition set_len (b : buffer) (len : N) : buffer :=
  {| buf_mem := buf_mem b; buf_capacity := buf_capacity b; buf_len := len |}.

Definition u32_max : N := 2 ^ 32 - 1.

(** [self.capacity().saturating_mul(2)] *)
Definition saturating_double (capacity : N) : N := N.min (2 * capacity) u32_max.

Definition with_capacity (capacity : N) : buffer := allocate capacity.

Definition ensure_capacity (b : buffer) (capacity : N) : buffer :=
  if decide (buf_capacity b < capacity)%N then resize_to b capacity else b.

Definition copy_from_slice (b : buffer) (bytes : list byte) : outcome buffer :=
  let len := N.of_nat (length bytes) in
  if decide (u32_max < len)%N then Fault
  else
    let b := if decide (buf_capacity b < len)%N
             then resize_to b (N.max len (saturating_double (buf_capacity b))) else b in
    let! b := write_at b 0 bytes in
    Ret (set_len b len).

Definition from_bytes (bytes : list byte) : outcome buffer :=
  copy_from_slice (with_capacity 0) bytes.

Definition append (b : buffer) (bytes : list byte) : outcome (bool * buffer) :=
  let len := N.of_nat (length bytes) in
  if decide (u32_max < len)%N then Ret (false, b)
  else if decide (u32_max < buf_len b + len)%N then Ret (false, b)
  else
    let new_len := (buf_len b + len)%N in
    let b := if decide (buf_capacity b < new_len)%N
             then resize_to b (N.max new_len (saturating_double (buf_capacity b))) else b in
    let! b := write_at b (N.to_nat (buf_len b)) bytes in
    Ret (true, set_len b new_len).

(** ** Well-formed buffers *)

(** [holds b bytes]: the memory has the size the capacity asks for, and its first
    [len] bytes are initialised to the content [bytes]. *)
Definition holds (b : buffer) (bytes : list byte) : Prop :=
  length (buf_mem b) = data_size (buf_capacity b) /\
  (buf_len b <= buf_capacity b <= u32_max)%N /\
  take (N.to_nat (buf_len b)) (buf_mem b) = Some <$> bytes.

Lemma data_size_ge capacity : N.to_nat capacity <= data_size capacity.
Proof.
  unfold data_size. pose proof (N.Div0.div_mod (capacity + 15) 16).
  pose proof (N.mod_lt (capacity + 15) 16 ltac:(lia)). lia.
Qed.

Lemma data_size_mono c1 c2 : (c1 <= c2)%N -> data_size c1 <= data_size c2.
Proof.
  intros Hc. unfold data_size.
  pose proof (N.Div0.div_le_mono (c1 + 15) (c2 + 15) 16 ltac:(lia)). lia.
Qed.

Lemma holds_length b bytes : holds b bytes -> N.of_nat (length bytes) = buf_len b.
Proof.
  intros (Hl & [Hc _] & Ht). apply (f_equal length) in Ht. rewrite length_fmap, length_take in Ht.
  pose proof (data_size_ge (buf_capacity b)). lia.
Qed.

Lemma mapM_id_Some {A} (l : list A) : mapM id (Some <$> l) = Some l.
Proof. apply mapM_fmap_Some. by intros. Qed.

Lemma as_slice_holds b bytes : holds b bytes -> as_slice b = Ret bytes.
Proof.
  intros Hb. pose proof (holds_length b bytes Hb) as Hn. destruct Hb as (_ & _ & Ht).
  unfold as_slice. rewrite Ht, mapM_id_Some. by rewrite decide_True by lia.
Qed.

Lemma allocate_holds capacity : (capacity <= u32_max)%N -> holds (allocate capacity) [].
Proof. intros Hc. split_and!; [apply length_replicate|simpl; lia|simpl; lia|done]. Qed.

Lemma resize_holds b bytes capacity :
  holds b bytes -> (buf_len b <= capacity <= u32_max)%N -> holds (resize_to b capacity) bytes.
Proof.
  intros (Hl & Hc & Ht) Hcap. split_and!; cbn; [apply length_resize|lia|lia|].
  pose proof (data_size_ge capacity). pose proof (data_size_ge (buf_capacity b)).
  rewrite take_resize_le, resize_le by lia. done.
Qed.

Lemma take_write (mem : list (option byte)) off bytes n :
  off + length bytes = n -> n <= length mem ->
  take n (take off mem ++ (Some <$> bytes) ++ drop n mem) = take off mem ++ (Some <$> bytes).
Proof.
  intros Hn Hm. rewrite app_assoc. apply take_app_length'.
  rewrite length_app, length_fmap, length_take. lia.
Qed.

Lemma write_holds b old bytes :
  holds b old -> (buf_len b + N.of_nat (length bytes) <= buf_capacity b)%N ->
  exists b', write_at b (N.to_nat (buf_len b)) bytes = Ret b' /\
    holds (set_len b' (buf_len b + N.of_nat (length bytes))) (old ++ bytes).
Proof.
  intros (Hl & Hc & Ht) Hfit. pose proof (data_size_ge (buf_capacity b)).
  unfold write_at. rewrite decide_True by lia. eexists. split; [done|].
  split_and!; cbn.
  - rewrite <- Hl, !length_app, length_fmap, length_take, length_drop. lia.
  - lia.
  - lia.
  - rewrite N2Nat.inj_add, Nat2N.id, take_write by lia. by rewrite Ht, fmap_app.
Qed.

Lemma grow_holds b old new_len :
  holds b old -> (buf_len b <= new_len <= u32_max)%N ->
  let b' := if decide (buf_capacity b < new_len)%N
            then resize_to b (N.max new_len (saturating_double (buf_capacity b))) else b in
  holds b' old /\ (new_len <= buf_capacity b')%N /\ (buf_capacity b <= buf_capacity b')%N /\
  buf_len b' = buf_len b.
Proof.
  intros Hb Hn b'. unfold b', saturating_double. pose proof Hb as (_ & Hc & _).
  case_decide as Hd; [|split_and!; [done|lia|lia|done]].
  split_and!; cbn; [|lia|lia|done]. apply resize_holds; [done|lia].
Qed.

Lemma set_len_holds b bytes len :
  holds b bytes -> (len <= buf_len b)%N -> holds (set_len b len) (take (N.to_nat len) bytes).
Proof.
  intros (Hl & Hc & Ht) Hlen. split_and!; cbn; [done|lia|lia|].
  rewrite fmap_take, <- Ht, take_take. f_equal. lia.
Qed.

Lemma copy_from_slice_holds b old bytes :
  holds b old -> (N.of_nat (length bytes) <= u32_max)%N ->
  exists b', copy_from_slice b bytes = Ret b' /\ holds b' bytes /\
    (buf_capacity b <= buf_capacity b')%N.
Proof.
  intros Hb Hlen. unfold copy_from_slice. rewrite decide_False by lia.
  pose proof (set_len_holds b old 0 Hb ltac:(lia)) as H0. simpl in H0.
  pose proof (grow_holds (set_len b 0) [] (N.of_nat (length bytes)) H0) as Hg.
  cbn [set_len buf_len buf_capacity] in Hg. destruct Hg as (Hg & Hfit & Hmono & Hz); [lia|].
  set (b' := if decide _ then _ else set_len b 0) in *.
  assert (Hmem : (if decide (buf_capacity b < N.of_nat (length bytes))%N
     then resize_to b (N.max (N.of_nat (length bytes)) (saturating_double (buf_capacity b)))
     else b) = set_len b' (buf_len b)).
  { unfold b'. case_decide; [done|]. by destruct b. }
  rewrite Hmem. destruct (write_holds b' [] bytes Hg) as (b'' & Hw & Hh); [lia|].
  rewrite Hz in Hw, Hh. unfold write_at in *. cbn [set_len buf_mem buf_capacity buf_len] in *.
  change (N.to_nat 0) with 0 in Hw.
  destruct (decide (0 + length bytes <= length (buf_mem b'))); [|done].
  injection Hw as <-. cbn [obind set_len buf_mem buf_capacity] in *.
  eexists. split; [done|]. split; [exact Hh|exact Hmono].
Qed.

Lemma append_holds b old bytes :
  holds b old ->
  (buf_len b + N.of_nat (length bytes) <= u32_max)%N ->
  exists b', append b bytes = Ret (true, b') /\ holds b' (old ++ bytes).
Proof.
  intros Hb Hlen. unfold append. do 2 rewrite decide_False by lia.
  destruct (grow_holds b old (buf_len b + N.of_nat (length bytes)) Hb) as (Hg & Hfit & _ & Hl); [lia|].
  cbv zeta. set (b' := if decide _ then _ else b) in *. rewrite <- Hl in Hfit.
  destruct (write_holds b' old bytes Hg Hfit) as (b'' & Hw & Hh). rewrite Hw. cbn [obind].
  eexists. split; [done|]. by rewrite <- Hl.
Qed.

(** ** Reference counting

    A heap of allocations with their [strong_count]; the handles alive are the
    owned and the shared buffers of the program. *)

Record world : Type := World {
  w_heap : gmap nat (N * buffer);
  w_owned : list nat;
  w_shared : list nat
}.

Definition wrap32 (x : N) : N := x mod 2 ^ 32.

(** [Clone for InnerBuffer]: [fetch_add(1)]. *)
Definition clone_ref (h : gmap nat (N * buffer)) (l : nat) : outcome (gmap nat (N * buffer)) :=
  match h !! l with
  | Some (c, b) => Ret (<[l := (wrap32 (c + 1), b)]> h)
  | None => Fault
  end.

(** [Drop for InnerBuffer]: [fetch_sub(1)], free when it was 1. *)
Definition drop_ref (h : gmap nat (N * buffer)) (l : nat) : outcome (gmap nat (N * buffer)) :=
  match h !! l with
  | Some (c, b) =>
      Ret (if decide (c = 1%N) then delete l h
           else <[l := (wrap32 (c + (2 ^ 32 - 1)), b)]> h)
  | None => Fault
  end.

(** What a program can do with the handles it has. *)
Inductive buffer_op : Type :=
| NewOwned (b : buffer)
| Mutate (l : nat) (b : buffer)
| IntoShared (l : nat)
| CloneShared (l : nat)
| DropOwned (l : nat)
| DropShared (l : nat)
| IntoOwned (l : nat).

(** Remove one handle. *)
Definition remove_handle (l : nat) (hs : list nat) : list nat :=
  match list_find (fun x => x = l) hs with
  | Some (i, _) => delete i hs
  | None => hs
  end.

Definition fresh_loc (h : gmap nat (N * buffer)) : nat := fresh (dom h : gset nat).

(** Operations on handles the program does not have do not type-check; they leave
    the world as it is. *)
Definition run_buffer_op (w : world) (op : buffer_op) : outcome world :=
  match op with
  | NewOwned b =>
      let l := fresh_loc (w_heap w) in
      Ret {| w_heap := <[l := (1%N, b)]> (w_heap w); w_owned := l :: w_owned w;
             w_shared := w_shared w |}
  | Mutate l b =>
      if decide (l ∈ w_owned w) then
        match w_heap w !! l with
        | Some (c, _) => Ret {| w_heap := <[l := (c, b)]> (w_heap w); w_owned := w_owned w;
                                w_shared := w_shared w |}
        | None => Fault
        end
      else Ret w
  | IntoShared l =>
      if decide (l ∈ w_owned w) then
        Ret {| w_heap := w_heap w; w_owned := remove_handle l (w_owned w);
               w_shared := l :: w_shared w |}
      else Ret w
  | CloneShared l =>
      if decide (l ∈ w_shared w) then
        let! h := clone_ref (w_heap w) l in
        Ret {| w_heap := h; w_owned := w_owned w; w_shared := l :: w_shared w |}
      else Ret w
  | DropOwned l =>
      if decide (l ∈ w_owned w) then
        let! h := drop_ref (w_heap w) l in
        Ret {| w_heap := h; w_owned := remove_handle l (w_owned w); w_shared := w_shared w |}
      else Ret w
  | DropShared l =>
      if decide (l ∈ w_shared w) then
        let! h := drop_ref (w_heap w) l in
        Ret {| w_heap := h; w_owned := w_owned w; w_shared := remove_handle l (w_shared w) |}
      else Ret w
  | IntoOwned l =>
      if decide (l ∈ w_shared w) then
        match w_heap w !! l with
        | Some (c, b) =>
            if decide (c = 1%N) then
              Ret {| w_heap := w_heap w; w_owned := l :: w_owned w;
                     w_shared := remove_handle l (w_shared w) |}
            else
              let! bytes := as_slice b in
              let! copy := from_bytes bytes in
              let l' := fresh_loc (w_heap w) in
              let! h := drop_ref (<[l' := (1%N, copy)]> (w_heap w)) l in
              Ret {| w_heap := h; w_owned := l' :: w_owned w;
                     w_shared := remove_handle l (w_shared w) |}
        | None => Fault
        end
      else Ret w
  end.

(** Number of handles to an allocation. *)
Definition handles (w : world) (l : nat) : nat :=
  length (filter (fun x => x = l) (w_owned w)) + length (filter (fun x => x = l) (w_shared w)).

(** The counter of every allocation is its number of handles, every handle points to
    an allocation, and an owned allocation has no other handle. *)
Definition world_ok (w : world) : Prop :=
  (forall l, match w_heap w !! l with
             | Some (c, b) => c = N.of_nat (handles w l) /\ 0 < handles w l /\
                              exists bytes, holds b bytes
             | None => handles w l = 0
             end) /\
  (forall l, l ∈ w_owned w -> handles w l = 1).

(** A buffer as safe code can have it. *)
Definition op_ok (op : buffer_op) : Prop :=
  match op with
  | NewOwned b | Mutate _ b => exists bytes, holds b bytes
  | _ => True
  end.

Lemma count_remove (l x : nat) hs :
  l ∈ hs ->
  length (filter (fun y => y = x) (remove_handle l hs)) + (if decide (l = x) then 1 else 0) =
    length (filter (fun y => y = x) hs).
Proof.
  intros Hin. unfold remove_handle.
  destruct (list_find (fun y => y = l) hs) as [[i y]|] eqn:Hf.
  2:{ apply list_find_None in Hf. rewrite Forall_forall in Hf. by destruct (Hf l Hin). }
  apply list_find_Some in Hf as (Hi & -> & _). rewrite delete_take_drop.
  rewrite <- (take_drop_middle hs i l Hi) at 3. rewrite !filter_app, !length_app, filter_cons.
  destruct (decide (l = x)); simpl; lia.
Qed.

Lemma count_elem (l : nat) hs : l ∈ hs <-> 0 < length (filter (fun y => y = l) hs).
Proof.
  split.
  - intros Hin. destruct (filter (fun y => y = l) hs) as [|z zs] eqn:E; [|simpl; lia].
    assert (Hz : l ∈ filter (fun y => y = l) hs) by (by apply list_elem_of_filter).
    rewrite E in Hz. by apply not_elem_of_nil in Hz.
  - intros Hpos. destruct (filter (fun y => y = l) hs) as [|z zs] eqn:E; [simpl in Hpos; lia|].
    assert (Hz : z ∈ filter (fun y => y = l) hs) by (rewrite E; by left).
    apply list_elem_of_filter in Hz as [-> ?]. done.
Qed.

Lemma count_cons (l x : nat) hs :
  length (filter (fun y => y = x) (l :: hs)) =
    (if decide (l = x) then 1 else 0) + length (filter (fun y => y = x) hs).
Proof. rewrite filter_cons. by destruct (decide (l = x)). Qed.

Lemma handles_bound w l : handles w l <= length (w_owned w) + length (w_shared w).
Proof.
  unfold handles. pose proof (length_filter (fun x => x = l) (w_owned w)).
  pose proof (length_filter (fun x => x = l) (w_shared w)). lia.
Qed.

Lemma wrap32_pred c : (0 < c < 2 ^ 32)%N -> wrap32 (c + (2 ^ 32 - 1)) = (c - 1)%N.
Proof.
  intros Hc. unfold wrap32. replace (c + (2 ^ 32 - 1))%N with ((c - 1) + 1 * 2 ^ 32)%N by lia.
  rewrite N.Div0.mod_add. apply N.mod_small. lia.
Qed.

Lemma world_ok_lookup w l :
  world_ok w -> 0 < handles w l ->
  exists b bytes, w_heap w !! l = Some (N.of_nat (handles w l), b) /\ holds b bytes.
Proof.
  intros [Hw _] Hl. specialize (Hw l). destruct (w_heap w !! l) as [[c b]|]; [|lia].
  destruct Hw as (-> & _ & bytes & Hb). eauto.
Qed.

(** Changing the counter of one allocation along with its handles. *)
Lemma world_ok_change w w' l b' :
  world_ok w -> (exists bytes, holds b' bytes) ->
  (forall x, x <> l -> w_heap w' !! x = w_heap w !! x /\ handles w' x = handles w x) ->
  w_heap w' !! l = (if decide (handles w' l = 0) then None
                    else Some (N.of_nat (handles w' l), b')) ->
  (forall x, x ∈ w_owned w' -> x <> l -> x ∈ w_owned w) ->
  (l ∈ w_owned w' -> handles w' l = 1) ->
  world_ok w'.
Proof.
  intros [Hw Ho] Hb' Hother Hl Hown Hownl. split.
  - intros x. destruct (decide (x = l)) as [->|Hne].
    + rewrite Hl. case_decide; [done|]. split_and!; [done|lia|done].
    + destruct (Hother x Hne) as [-> ->]. apply Hw.
  - intros x Hx. destruct (decide (x = l)) as [->|Hne]; [by apply Hownl|].
    destruct (Hother x Hne) as [_ ->]. apply Ho. by apply Hown.
Qed.

Lemma drop_ref_spec (h : gmap nat (N * buffer)) l n b :
  h !! l = Some (N.of_nat (S n), b) -> (N.of_nat (S n) < 2 ^ 32)%N ->
  exists h', drop_ref h l = Ret h' /\
    h' !! l = (if decide (n = 0) then None else Some (N.of_nat n, b)) /\
    forall x, x <> l -> h' !! x = h !! x.
Proof.
  intros Hl Hn. unfold drop_ref. rewrite Hl. eexists. split; [done|].
  destruct (decide (n = 0)) as [->|Hne].
  - rewrite decide_True by done. split; [apply lookup_delete_eq|].
    intros x Hx. by rewrite lookup_delete_ne.
  - rewrite decide_False by lia. rewrite wrap32_pred by lia.
    replace (N.of_nat (S n) - 1)%N with (N.of_nat n) by lia.
    split; [apply lookup_insert_eq|]. intros x Hx. by rewrite lookup_insert_ne.
Qed.

Lemma elem_remove l x hs : x ∈ remove_handle l hs -> x ∈ hs.
Proof.
  destruct (decide (l ∈ hs)) as [Hin|Hout].
  - rewrite !count_elem. pose proof (count_remove l x hs Hin). lia.
  - unfold remove_handle. destruct (list_find _ hs) as [[i y]|] eqn:Hf; [|done].
    apply list_find_Some in Hf as (Hi & -> & _). by apply list_elem_of_lookup_2 in Hi.
Qed.

Lemma fresh_loc_None h : h !! fresh_loc h = None.
Proof. unfold fresh_loc. apply not_elem_of_dom, is_fresh. Qed.

Lemma new_owned_ok w b :
  world_ok w -> (exists bytes, holds b bytes) ->
  exists w', run_buffer_op w (NewOwned b) = Ret w' /\ world_ok w'.
Proof.
  intros Hw Hb. eexists. split; [done|]. set (l := fresh_loc (w_heap w)).
  assert (Hl : w_heap w !! l = None) by apply fresh_loc_None.
  assert (Hz : handles w l = 0) by (pose proof (proj1 Hw l) as Hx; by rewrite Hl in Hx).
  apply (world_ok_change w _ l b); [done|done|..]; cbn [w_heap w_owned w_shared].
  - intros x Hx. rewrite lookup_insert_ne by done. split; [done|].
    unfold handles. cbn [w_owned w_shared]. by rewrite count_cons, decide_False by congruence.
  - unfold handles in *. cbn [w_owned w_shared]. rewrite count_cons, (decide_True (P := l = l)) by done.
    rewrite lookup_insert_eq, decide_False by lia. do 3 f_equal. lia.
  - intros x [->|Hx]%elem_of_cons Hne; [done|done].
  - intros _. unfold handles in *. cbn [w_owned w_shared]. rewrite count_cons, (decide_True (P := l = l)) by done. lia.
Qed.

Lemma mutate_ok w l b :
  world_ok w -> (exists bytes, holds b bytes) ->
  exists w', run_buffer_op w (Mutate l b) = Ret w' /\ world_ok w'.
Proof.
  intros Hw Hb. cbn [run_buffer_op]. case_decide as Hin; [|eauto].
  pose proof (proj2 Hw l Hin) as H1.
  destruct (world_ok_lookup w l Hw ltac:(lia)) as (b0 & bs & -> & _). eexists. split; [done|].
  apply (world_ok_change w _ l b); [done|done|..]; cbn [w_heap w_owned w_shared].
  - intros x Hx. by rewrite lookup_insert_ne.
  - change (handles _ l) with (handles w l). rewrite lookup_insert_eq, decide_False by lia. done.
  - done.
  - by intros _.
Qed.

Lemma into_shared_ok w l :
  world_ok w -> exists w', run_buffer_op w (IntoShared l) = Ret w' /\ world_ok w'.
Proof.
  intros Hw. cbn [run_buffer_op]. case_decide as Hin; [|eauto].
  pose proof (proj2 Hw l Hin) as H1. destruct (world_ok_lookup w l Hw ltac:(lia)) as (b & bs & Hl & Hb).
  eexists. split; [done|].
  assert (Hsame : forall x, handles {| w_heap := w_heap w; w_owned := remove_handle l (w_owned w);
    w_shared := l :: w_shared w |} x = handles w x).
  { intros x. unfold handles. cbn [w_owned w_shared]. rewrite count_cons.
    pose proof (count_remove l x (w_owned w) Hin). lia. }
  apply (world_ok_change w _ l b); [done|eauto|..]; cbn [w_heap w_owned w_shared].
  - intros x _. by rewrite Hsame.
  - by rewrite Hsame, decide_False, Hl by lia.
  - intros x Hx _. by eapply elem_remove.
  - intros _. by rewrite Hsame.
Qed.

Lemma clone_shared_ok w l :
  world_ok w -> (N.of_nat (S (length (w_owned w) + length (w_shared w))) < 2 ^ 32)%N ->
  exists w', run_buffer_op w (CloneShared l) = Ret w' /\ world_ok w'.
Proof.
  intros Hw Hbound. cbn [run_buffer_op]. case_decide as Hin; [|eauto].
  assert (Hpos : 0 < length (filter (fun y => y = l) (w_shared w))) by (by apply count_elem).
  assert (Hno : l ∉ w_owned w).
  { intros Ho. pose proof (proj2 Hw l Ho) as H1. apply count_elem in Ho. unfold handles in H1. lia. }
  destruct (world_ok_lookup w l Hw ltac:(unfold handles; lia)) as (b & bs & Hl & Hb).
  pose proof (handles_bound w l). unfold clone_ref. rewrite Hl. cbn [obind].
  eexists. split; [done|]. unfold wrap32. rewrite N.mod_small by lia.
  apply (world_ok_change w _ l b); [done|eauto|..]; cbn [w_heap w_owned w_shared].
  - intros x Hx. rewrite lookup_insert_ne by done. split; [done|].
    unfold handles. cbn [w_owned w_shared]. by rewrite count_cons, decide_False by congruence.
  - rewrite lookup_insert_eq. unfold handles in *. cbn [w_owned w_shared].
    rewrite count_cons, (decide_True (P := l = l)) by done. rewrite decide_False by lia. do 3 f_equal. lia.
  - done.
  - done.
Qed.

(** Dropping a handle, owned or shared. *)
Lemma drop_handle_ok w w' l h' :
  world_ok w -> drop_ref (w_heap w) l = Ret h' -> w_heap w' = h' ->
  (forall x, handles w' x + (if decide (l = x) then 1 else 0) = handles w x) ->
  (forall x, x ∈ w_owned w' -> x ∈ w_owned w) ->
  (N.of_nat (length (w_owned w) + length (w_shared w)) < 2 ^ 32)%N ->
  world_ok w'.
Proof.
  intros Hw Hd Hh Hcnt Hown Hbound. pose proof (Hcnt l) as Hl. rewrite decide_True in Hl by done.
  destruct (world_ok_lookup w l Hw ltac:(lia)) as (b & bs & Hlk & Hb). pose proof (handles_bound w l).
  rewrite <- Hl, Nat.add_1_r in Hlk.
  destruct (drop_ref_spec _ l _ b Hlk ltac:(lia)) as (h & Hd' & Hdl & Hdx).
  rewrite Hd in Hd'. injection Hd' as <-.
  apply (world_ok_change w _ l b); [done|eauto|..]; rewrite ?Hh.
  - intros x Hx. split; [by apply Hdx|]. pose proof (Hcnt x) as Hcx. rewrite decide_False in Hcx by congruence. lia.
  - done.
  - intros x Hx _. by apply Hown.
  - intros Hin. pose proof (proj2 Hw l (Hown l Hin)). apply count_elem in Hin.
    unfold handles in *. lia.
Qed.

Definition few_handles (w : world) : Prop :=
  (N.of_nat (S (length (w_owned w) + length (w_shared w))) < 2 ^ 32)%N.

Lemma drop_owned_ok w l :
  world_ok w -> few_handles w -> exists w', run_buffer_op w (DropOwned l) = Ret w' /\ world_ok w'.
Proof.
  intros Hw Hf. cbn [run_buffer_op]. case_decide as Hin; [|eauto].
  pose proof (proj2 Hw l Hin) as H1. destruct (world_ok_lookup w l Hw ltac:(lia)) as (b & bs & Hl & Hb).
  unfold drop_ref at 1. rewrite Hl. cbn [obind]. eexists. split; [done|].
  eapply (drop_handle_ok w _ l); [done|by unfold drop_ref; rewrite Hl|done|..|unfold few_handles in Hf; lia].
  - intros x. unfold handles. cbn [w_owned w_shared]. pose proof (count_remove l x (w_owned w) Hin). lia.
  - intros x. apply elem_remove.
Qed.

Lemma shared_lookup w l :
  world_ok w -> l ∈ w_shared w ->
  exists b bytes, w_heap w !! l = Some (N.of_nat (handles w l), b) /\ holds b bytes.
Proof.
  intros Hw Hin. apply world_ok_lookup; [done|]. unfold handles. apply count_elem in Hin. lia.
Qed.

Lemma drop_shared_ok w l :
  world_ok w -> few_handles w -> exists w', run_buffer_op w (DropShared l) = Ret w' /\ world_ok w'.
Proof.
  intros Hw Hf. cbn [run_buffer_op]. case_decide as Hin; [|eauto].
  destruct (shared_lookup w l Hw Hin) as (b & bs & Hl & Hb).
  unfold drop_ref at 1. rewrite Hl. cbn [obind]. eexists. split; [done|].
  eapply (drop_handle_ok w _ l); [done|by unfold drop_ref; rewrite Hl|done|..|unfold few_handles in Hf; lia].
  - intros x. unfold handles. cbn [w_owned w_shared]. pose proof (count_remove l x (w_shared w) Hin). lia.
  - done.
Qed.

Lemma from_bytes_holds b bytes :
  holds b bytes -> exists copy, from_bytes bytes = Ret copy /\ holds copy bytes.
Proof.
  intros Hb. pose proof (holds_length b bytes Hb) as Hn. destruct Hb as (_ & Hc & _).
  destruct (copy_from_slice_holds (with_capacity 0) [] bytes) as (copy & Hcp & Hh & _);
    [by apply allocate_holds|lia|eauto].
Qed.

(** Taking an unshared buffer back: the handle moves from shared to owned. *)
Lemma into_owned_unique w l b :
  world_ok w -> l ∈ w_shared w -> w_heap w !! l = Some (1%N, b) ->
  world_ok {| w_heap := w_heap w; w_owned := l :: w_owned w;
              w_shared := remove_handle l (w_shared w) |}.
Proof.
  intros Hw Hin Hl. destruct (shared_lookup w l Hw Hin) as (b' & bs & Hl' & Hb).
  rewrite Hl in Hl'. injection Hl' as H1 <-.
  assert (Hsame : forall x, handles {| w_heap := w_heap w; w_owned := l :: w_owned w;
    w_shared := remove_handle l (w_shared w) |} x = handles w x).
  { intros x. unfold handles. cbn [w_owned w_shared]. rewrite count_cons.
    pose proof (count_remove l x (w_shared w) Hin). lia. }
  apply (world_ok_change w _ l b); [done|eauto|..]; cbn [w_heap w_owned w_shared].
  - intros x _. by rewrite Hsame.
  - rewrite Hsame, decide_False, Hl by lia. by rewrite H1.
  - intros x [->|Hx]%elem_of_cons Hne; done.
  - intros _. rewrite Hsame. lia.
Qed.

Lemma into_owned_ok w l :
  world_ok w -> few_handles w -> exists w', run_buffer_op w (IntoOwned l) = Ret w' /\ world_ok w'.
Proof.
  intros Hw Hf. cbn [run_buffer_op]. case_decide as Hin; [|eauto].
  destruct (shared_lookup w l Hw Hin) as (b & bs & Hl & Hb). rewrite Hl.
  case_decide as Hone; [rewrite Hone in Hl; eauto using into_owned_unique|].
  rewrite (as_slice_holds b bs Hb). cbn [obind].
  destruct (from_bytes_holds b bs Hb) as (copy & -> & Hcopy). cbn [obind].
  (* a new owned allocation, then the shared handle is dropped *)
  destruct (new_owned_ok w copy Hw (ex_intro _ bs Hcopy)) as (w1 & Hn & Hw1).
  injection Hn as Hw1eq. set (l' := fresh_loc (w_heap w)) in *.
  assert (Hne : l <> l') by
    (intros He; pose proof (fresh_loc_None (w_heap w)) as Hfr; fold l' in Hfr; congruence).
  assert (Hl1 : w_heap w1 !! l = Some (N.of_nat (handles w l), b))
    by (subst w1; cbn [w_heap]; by rewrite lookup_insert_ne).
  unfold drop_ref at 1. replace (<[l' := (1%N, copy)]> (w_heap w)) with (w_heap w1) by (by subst w1).
  rewrite Hl1. cbn [obind]. eexists. split; [done|].
  eapply (drop_handle_ok w1 _ l); [done|by unfold drop_ref; rewrite Hl1|done|..].
  - intros x. subst w1. unfold handles. cbn [w_owned w_shared]. rewrite !count_cons.
    pose proof (count_remove l x (w_shared w) Hin). lia.
  - subst w1. done.
  - subst w1. unfold few_handles in Hf. cbn [w_owned w_shared length]. lia.
Qed.

Lemma run_buffer_op_ok w op :
  world_ok w -> few_handles w -> op_ok op ->
  exists w', run_buffer_op w op = Ret w' /\ world_ok w'.
Proof.
  intros Hw Hf Hop.
  destruct op; eauto using new_owned_ok, mutate_ok, into_shared_ok, clone_shared_ok,
    drop_owned_ok, drop_shared_ok, into_owned_ok.
Qed.

(** Only an owned handle gives write access, so shared content stays. *)
Lemma shared_content_kept w op w' l :
  world_ok w -> run_buffer_op w op = Ret w' -> l ∈ w_shared w -> l ∈ w_shared w' ->
  snd <$> w_heap w' !! l = snd <$> w_heap w !! l.
Proof.
  intros Hw Hr Hin Hin'. destruct (shared_lookup w l Hw Hin) as (b & bs & Hl & _).
  assert (Hno : l ∉ w_owned w).
  { intros Ho. pose proof (proj2 Hw l Ho) as H1. apply count_elem in Ho. apply count_elem in Hin.
    unfold handles in H1. lia. }
  assert (Hfr : l <> fresh_loc (w_heap w)).
  { intros He. rewrite He, fresh_loc_None in Hl. done. }
  assert (Hdrop : forall h h' x, drop_ref h x = Ret h' -> h !! l = w_heap w !! l ->
    (x = l -> handles w l <> 1) -> snd <$> h' !! l = snd <$> w_heap w !! l).
  { intros h h' x Hd Hh Hx. unfold drop_ref in Hd. destruct (h !! x) as [[c b']|] eqn:Hhx; [|done].
    injection Hd as <-. rewrite Hl in Hh |- *. destruct (decide (x = l)) as [->|Hne].
    - rewrite Hh in Hhx. injection Hhx as <- <-. rewrite decide_False by (specialize (Hx eq_refl); lia).
      by rewrite lookup_insert_eq.
    - case_decide; [rewrite lookup_delete_ne by done|rewrite lookup_insert_ne by done]; by rewrite Hh. }
  destruct op as [b1|x b1|x|x|x|x|x]; cbn [run_buffer_op] in Hr.
  - injection Hr as <-. cbn. by rewrite lookup_insert_ne.
  - case_decide as Hx; [|by injection Hr as <-]. destruct (w_heap w !! x) as [[c b']|]; [|done].
    injection Hr as <-. cbn. by rewrite lookup_insert_ne by congruence.
  - case_decide as Hx; by injection Hr as <-.
  - case_decide as Hx; [|by injection Hr as <-]. unfold clone_ref in Hr.
    destruct (w_heap w !! x) as [[c b']|] eqn:Hhx; [|done]. injection Hr as <-. cbn.
    destruct (decide (x = l)) as [->|Hne]; [|by rewrite lookup_insert_ne].
    by rewrite lookup_insert_eq, Hhx.
  - case_decide as Hx; [|by injection Hr as <-]. destruct (drop_ref (w_heap w) x) as [h|] eqn:Hd; [|done].
    injection Hr as <-. by apply (Hdrop _ _ _ Hd); [|congruence].
  - case_decide as Hx; [|by injection Hr as <-]. destruct (drop_ref (w_heap w) x) as [h|] eqn:Hd; [|done].
    injection Hr as <-. apply (Hdrop _ _ _ Hd); [done|]. intros -> H1. cbn in Hin'.
    apply count_elem in Hin'. pose proof (count_remove l l (w_shared w) Hin) as Hc.
    rewrite decide_True in Hc by done. unfold handles in H1. lia.
  - case_decide as Hx; [|by injection Hr as <-]. destruct (w_heap w !! x) as [[c b']|] eqn:Hhx; [|done].
    case_decide as Hone; [by injection Hr as <-|].
    destruct (as_slice b') as [bytes|]; [|done]. cbn [obind] in Hr.
    destruct (from_bytes bytes) as [copy|]; [|done]. cbn [obind] in Hr.
    destruct (drop_ref _ x) as [h|] eqn:Hd; [|done]. injection Hr as <-. cbn.
    apply (Hdrop _ _ _ Hd); [by rewrite lookup_insert_ne|].
    intros ->. rewrite Hl in Hhx. injection Hhx as <- <-. lia.
Qed.

(** ** Properties *)

(** Appending bytes to a buffer extends its content when the total length fits
    [u32] and otherwise reports failure and leaves the buffer alone; replacing the
    content never shrinks the capacity; growing the capacity keeps the content; all
    writes stay within the allocation. *)
Theorem buffer_content_correct b old bytes capacity :
  holds b old -> (capacity <= u32_max)%N ->
  (if decide (N.of_nat (length (old ++ bytes)) <= u32_max)%N then
     exists b', append b bytes = Ret (true, b') /\ as_slice b' = Ret (old ++ bytes)
   else append b bytes = Ret (false, b)) /\
  (if decide (N.of_nat (length bytes) <= u32_max)%N then
     exists b', copy_from_slice b bytes = Ret b' /\ as_slice b' = Ret bytes /\
       (buf_capacity b <= buf_capacity b')%N
   else copy_from_slice b bytes = Fault) /\
  as_slice (ensure_capacity b capacity) = Ret old /\
  (capacity <= buf_capacity (ensure_capacity b capacity))%N.
Proof.
  intros Hb Hcap. pose proof (holds_length b old Hb) as Hlen. pose proof Hb as (_ & Hc & _).
  rewrite length_app. split_and!.
  - case_decide as Hfit.
    + destruct (append_holds b old bytes Hb) as (b' & Ha & Hb'); [lia|].
      eauto using as_slice_holds.
    + unfold append. case_decide; [done|]. by rewrite decide_True by lia.
  - case_decide as Hfit.
    + destruct (copy_from_slice_holds b old bytes Hb Hfit) as (b' & Hcp & Hb' & Hmono).
      eauto using as_slice_holds.
    + unfold copy_from_slice. by rewrite decide_True by lia.
  - unfold ensure_capacity. apply as_slice_holds. case_decide; [|done].
    apply resize_holds; [done|lia].
  - unfold ensure_capacity. case_decide; cbn; lia.
Qed.

(** The states of a program that never has too many handles at a time *)
Inductive buffers_reachable : world -> Prop :=
| buffers_start : buffers_reachable (World ∅ [] [])
| buffers_step w op w' :
    buffers_reachable w -> few_handles w -> op_ok op -> run_buffer_op w op = Ret w' -> buffers_reachable w'.

Lemma buffers_reachable_ok w : buffers_reachable w -> world_ok w.
Proof.
  induction 1 as [|w op w' _ IH Hf Hop Hrun].
  - split; [intros l; cbn [w_heap]; by rewrite lookup_empty|intros l Hl; by apply not_elem_of_nil in Hl].
  - destruct (run_buffer_op_ok w op IH Hf Hop) as (w'' & Hr & Hw). congruence.
Qed.

(** C31. Whatever a program does with buffer handles, in any number of operations, as long as it
    has less than 2^32 - 1 handles at a time: no handle is used after its memory was freed,
    every allocation is freed with its last handle, an owned buffer is never aliased, and the
    content under a shared handle does not change. Beyond this number the 32-bit counter wraps
    around, as the documentation of the code says. *)
Theorem buffer_refcounts_safe w op :
  buffers_reachable w -> few_handles w -> op_ok op ->
  world_ok w /\ exists w', run_buffer_op w op = Ret w' /\ world_ok w' /\
    forall l, l ∈ w_shared w -> l ∈ w_shared w' ->
      snd <$> w_heap w' !! l = snd <$> w_heap w !! l.
Proof.
  intros Hw%buffers_reachable_ok Hf Hop. split; [done|].
  destruct (run_buffer_op_ok w op Hw Hf Hop) as (w' & Hr & Hw').
  exists w'. split_and!; try done. intros l. by eapply shared_content_kept.
Qed.

(** ** Witnesses *)

Definition sample_buffer : buffer :=
  {| buf_mem := [Some x01; Some x02] ++ replicate 14 None; buf_capacity := 2; buf_len := 2 |}.

Lemma sample_buffer_holds : holds sample_buffer [x01; x02].
Proof. split_and!; vm_compute; done. Qed.

Lemma buffer_content_correct_witness :
  (exists b', append sample_buffer [x03] = Ret (true, b') /\ as_slice b' = Ret [x01; x02; x03]) /\
  (exists b', copy_from_slice sample_buffer [x03] = Ret b' /\ as_slice b' = Ret [x03] /\
     (2 <= buf_capacity b')%N) /\
  as_slice (ensure_capacity sample_buffer 20) = Ret [x01; x02] /\
  (20 <= buf_capacity (ensure_capacity sample_buffer 20))%N.
Proof.
  apply (buffer_content_correct sample_buffer [x01; x02] [x03] 20);
    [apply sample_buffer_holds|vm_compute; done].
Defined.

(** A buffer with two shared handles *)
Definition sample_world : world := World {[0 := (2%N, sample_buffer)]} [] [0; 0].

Lemma sample_world_reachable : buffers_reachable sample_world.
Proof.
  apply (buffers_step (World {[0 := (1%N, sample_buffer)]} [] [0]) (CloneShared 0)); [|done|done|vm_compute; reflexivity].
  apply (buffers_step (World {[0 := (1%N, sample_buffer)]} [0] []) (IntoShared 0)); [|done|done|vm_compute; reflexivity].
  apply (buffers_step (World ∅ [] []) (NewOwned sample_buffer)); [apply buffers_start|done| |vm_compute; reflexivity].
  exists [x01; x02]. apply sample_buffer_holds.
Qed.

Lemma buffer_refcounts_safe_witness :
  world_ok sample_world /\ exists w', run_buffer_op sample_world (IntoOwned 0) = Ret w' /\ world_ok w' /\
    forall l, l ∈ w_shared sample_world -> l ∈ w_shared w' ->
      snd <$> w_heap w' !! l = snd <$> w_heap sample_world !! l.
Proof. apply buffer_refcounts_safe; [apply sample_world_reachable|reflexivity|exact I]. Defined.
End AlignedBuffer.
