(* ===== verification/IoTypes.v ===== *)
(** * Types of method arguments

    Model of the containers of [crates/shared/ab-io-type/src] through which contracts
    and the execution environment exchange data, and of the exit codes of
    [crates/contracts/core/ab-contracts-common/src/error.rs].  An instance points to an
    allocation, modelled as the list of its bytes; accesses outside of it are [Fault]. *)

From S2P Require Import Prelude Slices.
From stdpp Require Import prelude.
From Stdlib Require Import NArith Lia.
From Stdlib Require Import Strings.Byte.

Module IoTypes.

(** The first bytes of an allocation; beyond it the read is out of bounds. *)
Definition read_bytes (memory : list byte) (n : nat) : outcome (list byte) :=
  if decide (n <= length memory) then Ret (take n memory) else Fault.

(** [copy_nonoverlapping] of all of [src] to offset [off]. *)
Definition write_bytes (memory : list byte) (off : nat) (src : list byte) : outcome (list byte) :=
  copy_at memory off src.

(** ** [VariableBytes] *)
Module VariableBytes.
Record t : Type := { bytes : list byte; size : nat; capacity : nat }.

(** [from_buffer], [from_uninit] *)
Definition from_buffer (buffer : list byte) (sz : nat) : outcome t :=
  if decide (length buffer = sz) then Ret {| bytes := buffer; size := sz; capacity := sz |} else Fault.

Definition from_uninit (uninit : list byte) (sz : nat) : outcome t :=
  if decide (sz <= length uninit) then
    Ret {| bytes := uninit; size := sz; capacity := length uninit |}
  else Fault.

Definition get_initialized (v : t) : outcome (list byte) := read_bytes (bytes v) (size v).

Definition with_size (v : t) (sz : nat) : t :=
  {| bytes := bytes v; size := sz; capacity := capacity v |}.

Definition append (v : t) (src : list byte) : outcome (t * bool) :=
  if decide (capacity v < length src + size v) then Ret (v, false)
  else
    let! memory := write_bytes (bytes v) (size v) src in
    Ret ({| bytes := memory; size := size v; capacity := capacity v |}, true).

Definition truncate (v : t) (new_size : nat) : t * bool :=
  if decide (size v < new_size) then (v, false) else (with_size v new_size, true).

Definition copy_from (v src : t) : outcome (t * bool) :=
  if decide (capacity v < size src) then Ret (v, false)
  else
    let! data := read_bytes (bytes src) (size src) in
    let! memory := write_bytes (bytes v) 0 data in
    Ret ({| bytes := memory; size := size src; capacity := capacity v |}, true).

(** The bytes of a [TrivialType] of [n] bytes. *)
Definition read_trivial_type (v : t) (n : nat) : outcome (option (list byte)) :=
  if decide (size v < n) then Ret None
  else let! data := read_bytes (bytes v) n in Ret (Some data).

Definition assume_init (v : t) (sz : nat) : t * bool :=
  if decide (capacity v < sz) then (v, false) else (with_size v sz, true).

(** The invariant of the constructors. *)
Definition ok (v : t) : Prop := size v <= capacity v /\ capacity v = length (bytes v).

Lemma get_initialized_ok v : ok v -> get_initialized v = Ret (take (size v) (bytes v)).
Proof. intros [Hs Hc]. unfold get_initialized, read_bytes. by rewrite decide_True by lia. Qed.

Lemma copy_from_spec v src :
  ok v -> ok src ->
  exists v', copy_from v src = Ret (v', bool_decide (size src <= capacity v)) /\ ok v' /\
    capacity v' = capacity v /\
    get_initialized v' = get_initialized (if decide (size src <= capacity v) then src else v).
Proof.
  intros Hv Hs. pose proof Hv as [Hvs Hvc]. pose proof Hs as [Hss Hsc]. unfold copy_from.
  destruct (decide (capacity v < size src)) as [Hlt|Hge].
  - exists v. rewrite bool_decide_eq_false_2, decide_False by lia. done.
  - rewrite bool_decide_eq_true_2, decide_True by lia.
    unfold read_bytes at 1. rewrite decide_True by lia. cbn [obind]. unfold write_bytes.
    assert (Hl : length (take (size src) (bytes src)) = size src) by (rewrite length_take; lia).
    rewrite copy_at_start by lia. cbn [obind]. eexists. split; [done|].
    assert (Hok : ok {| bytes := take (size src) (bytes src) ++
        drop (length (take (size src) (bytes src))) (bytes v);
      size := size src; capacity := capacity v |}).
    { split; cbn; [lia|]. rewrite length_app, length_drop, Hl. lia. }
    split; [done|]. split; [done|]. rewrite !get_initialized_ok by done. cbn [bytes size].
    by rewrite take_app_length' by done.
Qed.
End VariableBytes.

(** ** [VariableElements] *)
Module VariableElements.
Section Elements.
(** [Element::SIZE] *)
Variable element_size : nat.

(** [size] and [capacity] are in bytes. *)
Record t : Type := { elements : list byte; size : nat; capacity : nat }.

(** [buffer] has [n] elements. *)
Definition from_buffer (n : nat) (buffer : list byte) (sz : nat) : outcome t :=
  if decide (n * element_size = sz) then Ret {| elements := buffer; size := sz; capacity := sz |}
  else Fault.

(** The capacity is the number of elements of [uninit]. *)
Definition from_uninit (n : nat) (uninit : list byte) (sz : nat) : outcome t :=
  if decide (sz <= n /\ sz mod element_size = 0) then
    Ret {| elements := uninit; size := sz; capacity := n |}
  else Fault.

Definition count (v : t) : nat := size v.

Definition get_initialized (v : t) : outcome (list (list byte)) :=
  let! data := read_bytes (elements v) (size v / element_size * element_size) in
  Ret (as_chunks element_size data).

(** [src] is the list of the elements' bytes, [n] elements. *)
Definition append (v : t) (n : nat) (src : list byte) : outcome (t * bool) :=
  if decide (capacity v < n * element_size + size v) then Ret (v, false)
  else
    let! memory := write_bytes (elements v) (size v / element_size * element_size) src in
    Ret ({| elements := memory; size := size v; capacity := capacity v |}, true).

Definition truncate (v : t) (new_size : nat) : t * bool :=
  if decide (size v < new_size \/ new_size mod element_size <> 0) then (v, false)
  else ({| elements := elements v; size := new_size; capacity := capacity v |}, true).

(** [copy_from_nonoverlapping] on pointers to elements counts elements. *)
Definition copy_from (v src : t) : outcome (t * bool) :=
  if decide (capacity v < size src) then Ret (v, false)
  else
    let! data := read_bytes (elements src) (size src * element_size) in
    let! memory := write_bytes (elements v) 0 data in
    Ret ({| elements := memory; size := size src; capacity := capacity v |}, true).

Definition assume_init (v : t) (sz : nat) : t * bool :=
  if decide (capacity v < sz \/ sz mod element_size <> 0) then (v, false)
  else ({| elements := elements v; size := sz; capacity := capacity v |}, true).

Definition ok (v : t) : Prop :=
  size v <= capacity v /\ capacity v <= length (elements v) /\ size v mod element_size = 0.
End Elements.
End VariableElements.

(** ** [FixedCapacityBytesU8] and [FixedCapacityBytesU16] *)
Module FixedCapacityBytes.
(** [CAPACITY] is the length of [bytes]; the two types differ in the width of [len], which
    their metadata bounds by [CAPACITY]. *)
Record t : Type := { len : nat; bytes : list byte }.

Definition try_from_bytes (CAPACITY : nat) (src : list byte) : option t :=
  if decide (CAPACITY < length src) then None
  else Some {| len := length src; bytes := src ++ replicate (CAPACITY - length src) x00 |}.

(** Slicing panics when [len] is larger than the array. *)
Definition get_bytes (v : t) : outcome (list byte) := read_bytes (bytes v) (len v).

Definition append (v : t) (src : list byte) : outcome (t * bool) :=
  if decide (length (bytes v) < length src + len v) then Ret (v, false)
  else
    let! memory := write_bytes (bytes v) 0 src in
    Ret ({| len := len v; bytes := memory |}, true).

Definition truncate (v : t) (new_len : nat) : t * bool :=
  if decide (len v < new_len) then (v, false) else ({| len := new_len; bytes := bytes v |}, true).

Definition copy_from (v : t) (src : list byte) : outcome (t * bool) :=
  if decide (length (bytes v) < length src) then Ret (v, false)
  else
    let! memory := write_bytes (bytes v) 0 src in
    Ret ({| len := length src; bytes := memory |}, true).
End FixedCapacityBytes.

(** ** [MaybeData] *)
Module MaybeData.
Section Data.
(** [Data] and [Data::SIZE]. *)
Context {Data : Type} (SIZE : nat).

Record t : Type := { data : Data; size : nat }.

Definition get (v : t) : option Data := if decide (size v = SIZE) then Some (data v) else None.

Definition replace (v : t) (d : Data) : t := {| data := d; size := SIZE |}.

Definition remove (v : t) : t := {| data := data v; size := 0 |}.

(** Also the effect of [get_mut_or_default]; the result is what the reference points to. *)
Definition get_mut_or_init_with (v : t) (init : Data) : t * Data :=
  if decide (size v = SIZE) then (v, data v) else ({| data := init; size := SIZE |}, init).

(** Writing through the reference [get_mut] returns. *)
Definition set (v : t) (d : Data) : t := {| data := d; size := size v |}.

(** The container as an optional value. *)
Lemma maybe_data_laws v d :
  SIZE <> 0 ->
  get (replace v d) = Some d /\ get (remove v) = None /\
  get (fst (get_mut_or_init_with v d)) = Some (snd (get_mut_or_init_with v d)) /\
  snd (get_mut_or_init_with v d) = default d (get v) /\
  get (set v d) = (fun _ => d) <$> get v.
Proof.
  intros Hs. unfold get, replace, remove, get_mut_or_init_with, set. cbn.
  rewrite decide_True by done. rewrite (decide_False (P := 0 = SIZE)) by done.
  destruct (decide (size v = SIZE)) as [E|E]; cbn; rewrite ?E, ?decide_True by done; done.
Qed.
End Data.
End MaybeData.

(** ** Errors and exit codes *)
Module ContractError.
Inductive t : Type :=
| BadInput
| BadOutput
| Forbidden
| NotFound
| Conflict
| InternalError
| NotImplemented
| Unknown (code : N)
| Custom (code : N).

#[export] Instance eq_dec : EqDecision t.
Proof. solve_decision. Defined.

Definition new_custom_code (code : N) : option t :=
  if decide (255 < code)%N then Some (Custom code) else None.

Definition exit_code (e : t) : N :=
  match e with
  | BadInput => 1
  | BadOutput => 2
  | Forbidden => 3
  | NotFound => 4
  | Conflict => 5
  | InternalError => 6
  | NotImplemented => 7
  | Unknown code => code
  | Custom code => code
  end.

(** [From<Result<(), ContractError>> for ExitCode] and back. *)
Definition to_exit_code (r : result unit t) : N :=
  match r with Ok _ => 0 | Err e => exit_code e end.

Definition from_exit_code (value : N) : result unit t :=
  match value with
  | 0 => Ok tt
  | 1 => Err BadInput
  | 2 => Err BadOutput
  | 3 => Err Forbidden
  | 4 => Err NotFound
  | 5 => Err Conflict
  | 6 => Err InternalError
  | 7 => Err NotImplemented
  | code => if decide (code <= 255)%N then Err (Unknown code) else Err (Custom code)
  end%N.

(** The errors that the constructors of the crate produce. *)
Definition canonical (e : t) : Prop :=
  match e with
  | Unknown code => (8 <= code <= 255)%N
  | Custom code => (255 < code < 2 ^ 64)%N
  | _ => True
  end.

Lemma from_exit_code_large code :
  (8 <= code)%N ->
  from_exit_code code = if decide (code <= 255)%N then Err (Unknown code) else Err (Custom code).
Proof.
  intros Hc. unfold from_exit_code. destruct code as [|p]; [lia|].
  do 3 (destruct p as [p|p|]; try lia; try reflexivity).
Qed.

Lemma from_exit_code_canonical code :
  (code < 2 ^ 64)%N -> match from_exit_code code with Ok _ => True | Err e => canonical e end.
Proof.
  intros Hc. destruct (decide (8 <= code)%N) as [H8|H8].
  - rewrite from_exit_code_large by done. destruct (decide _); cbn; lia.
  - assert (code ∈ [0; 1; 2; 3; 4; 5; 6; 7]%N) as Hin.
    { rewrite !elem_of_cons. lia. }
    repeat (apply elem_of_cons in Hin as [->|Hin]; [done|]). by apply not_elem_of_nil in Hin.
Qed.
End ContractError.

(** ** Properties *)

(** [VariableBytes::copy_from] succeeds exactly when the source fits the capacity;
    the destination then reads as the source did, otherwise it is unchanged, and in
    both cases it stays within its allocation. *)
Theorem variable_bytes_copy_from v src :
  VariableBytes.ok v -> VariableBytes.ok src ->
  exists v', VariableBytes.copy_from v src =
      Ret (v', bool_decide (VariableBytes.size src <= VariableBytes.capacity v)) /\
    VariableBytes.ok v' /\ VariableBytes.capacity v' = VariableBytes.capacity v /\
    VariableBytes.get_initialized v' =
      VariableBytes.get_initialized
        (if decide (VariableBytes.size src <= VariableBytes.capacity v) then src else v).
Proof. apply VariableBytes.copy_from_spec. Qed.

(** The [append] functions report success without appending: [VariableBytes] and
    [VariableElements] write behind the initialized part and never extend it, so that it
    reads as before; [FixedCapacityBytesU8] and [FixedCapacityBytesU16] keep their length
    and overwrite the bytes from the start. *)
Theorem append_does_not_append :
  (forall v src, VariableBytes.ok v -> length src + VariableBytes.size v <= VariableBytes.capacity v ->
    exists v', VariableBytes.append v src = Ret (v', true) /\
      VariableBytes.get_initialized v' = VariableBytes.get_initialized v) /\
  (forall es v n src, 0 < es -> VariableElements.ok es v -> length src = n * es ->
    length src + VariableElements.size v <= VariableElements.capacity v ->
    exists v', VariableElements.append es v n src = Ret (v', true) /\
      VariableElements.get_initialized es v' = VariableElements.get_initialized es v) /\
  (forall v src, length src + FixedCapacityBytes.len v <= length (FixedCapacityBytes.bytes v) ->
    exists v', FixedCapacityBytes.append v src = Ret (v', true) /\
      FixedCapacityBytes.get_bytes v' =
        Ret (take (FixedCapacityBytes.len v)
               (src ++ drop (length src) (FixedCapacityBytes.bytes v)))).
Proof.
  split_and!.
  - intros v src [Hs Hc] Hfit. unfold VariableBytes.append. rewrite decide_False by lia.
    unfold write_bytes, copy_at. rewrite decide_True by lia. cbn [obind]. eexists. split; [done|].
    unfold VariableBytes.get_initialized, read_bytes. cbn.
    rewrite !length_app, length_take, length_drop, !decide_True by lia.
    rewrite take_app_length' by (rewrite length_take; lia). done.
  - intros es v n src He (Hs & Hc & Hm) Hl Hfit.
    assert (Hd : VariableElements.size v / es * es = VariableElements.size v).
    { pose proof (Nat.div_mod_eq (VariableElements.size v) es). lia. }
    unfold VariableElements.append. rewrite decide_False by lia. rewrite Hd.
    unfold write_bytes, copy_at. rewrite decide_True by lia. cbn [obind]. eexists. split; [done|].
    unfold VariableElements.get_initialized, read_bytes. cbn. rewrite Hd.
    rewrite !length_app, length_take, length_drop, !decide_True by lia.
    rewrite take_app_length' by (rewrite length_take; lia). done.
  - intros v src Hfit. unfold FixedCapacityBytes.append. rewrite decide_False by lia.
    unfold write_bytes. rewrite copy_at_start by lia. cbn [obind]. eexists. split; [done|].
    unfold FixedCapacityBytes.get_bytes, read_bytes. cbn.
    by rewrite length_app, length_drop, decide_True by lia.
Qed.

(** [VariableElements::copy_from] treats the size in bytes as a number of elements:
    for elements of more than one byte, copying any non-empty source that fills its
    allocation reads beyond it, even when the destination is large enough. *)
Theorem elements_copy_from_out_of_bounds es (v src : VariableElements.t) :
  1 < es -> 0 < VariableElements.size src ->
  VariableElements.size src = length (VariableElements.elements src) ->
  VariableElements.size src <= VariableElements.capacity v ->
  VariableElements.copy_from es v src = Fault.
Proof.
  intros He Hpos Hfull Hfit. unfold VariableElements.copy_from, read_bytes.
  rewrite decide_False by lia. by rewrite decide_False by nia.
Qed.

(** Exit codes and results convert back and forth without loss: every result with a
    canonical error is recovered from its exit code, every 64-bit exit code from its
    result, which is canonical. *)
Theorem exit_code_roundtrip :
  (forall r, match r with Ok _ => True | Err e => ContractError.canonical e end ->
    ContractError.from_exit_code (ContractError.to_exit_code r) = r) /\
  (forall code, (code < 2 ^ 64)%N ->
    ContractError.to_exit_code (ContractError.from_exit_code code) = code /\
    match ContractError.from_exit_code code with
    | Ok _ => True | Err e => ContractError.canonical e
    end).
Proof.
  split.
  - intros [[]|e] Hr; [done|]. destruct e as [| | | | | | |code|code]; try done; cbn in *;
      rewrite ContractError.from_exit_code_large by lia.
    + by rewrite decide_True by lia.
    + by rewrite decide_False by lia.
  - intros code Hc. split; [|by apply ContractError.from_exit_code_canonical].
    destruct (decide (8 <= code)%N) as [H8|H8].
    + rewrite ContractError.from_exit_code_large by done. by destruct (decide _).
    + assert (code ∈ [0; 1; 2; 3; 4; 5; 6; 7]%N) as Hin.
      { rewrite !elem_of_cons. lia. }
      repeat (apply elem_of_cons in Hin as [->|Hin]; [done|]). by apply not_elem_of_nil in Hin.
Qed.

(** ** Witnesses *)

Lemma variable_bytes_copy_from_witness :
  exists v', VariableBytes.copy_from
      {| VariableBytes.bytes := replicate 8 x00; VariableBytes.size := 0; VariableBytes.capacity := 8 |}
      {| VariableBytes.bytes := [x01; x02; x03]; VariableBytes.size := 3; VariableBytes.capacity := 3 |} =
      Ret (v', true) /\ VariableBytes.get_initialized v' = Ret [x01; x02; x03].
Proof.
  destruct (variable_bytes_copy_from
    {| VariableBytes.bytes := replicate 8 x00; VariableBytes.size := 0; VariableBytes.capacity := 8 |}
    {| VariableBytes.bytes := [x01; x02; x03]; VariableBytes.size := 3; VariableBytes.capacity := 3 |})
    as (v' & E & _ & _ & G); [split; cbn; lia|split; cbn; lia|].
  exists v'. split; [exact E|exact G].
Defined.

Lemma append_does_not_append_witness :
  exists v', VariableBytes.append
      {| VariableBytes.bytes := replicate 8 x00; VariableBytes.size := 0; VariableBytes.capacity := 8 |}
      [x01] = Ret (v', true) /\ VariableBytes.get_initialized v' = Ret [].
Proof.
  apply (proj1 append_does_not_append
    {| VariableBytes.bytes := replicate 8 x00; VariableBytes.size := 0; VariableBytes.capacity := 8 |}
    [x01]); [split; cbn; lia|cbn; lia].
Defined.

Lemma elements_copy_from_out_of_bounds_witness :
  VariableElements.copy_from 2
    {| VariableElements.elements := replicate 8 x00; VariableElements.size := 0;
       VariableElements.capacity := 8 |}
    {| VariableElements.elements := [x01; x02]; VariableElements.size := 2;
       VariableElements.capacity := 2 |} = Fault.
Proof.
  apply (elements_copy_from_out_of_bounds 2
    {| VariableElements.elements := replicate 8 x00; VariableElements.size := 0;
       VariableElements.capacity := 8 |}
    {| VariableElements.elements := [x01; x02]; VariableElements.size := 2;
       VariableElements.capacity := 2 |}); cbn; lia.
Defined.

Lemma exit_code_roundtrip_witness :
  ContractError.from_exit_code (ContractError.to_exit_code (Err (ContractError.Custom 300))) =
    Err (ContractError.Custom 300).
Proof. apply (proj1 exit_code_roundtrip (Err (ContractError.Custom 300))). cbn. lia. Defined.
End IoTypes.
