(* ===== verification/Shards.v ===== *)
(** * Shards

    Model of [crates/shared/ab-core-primitives/src/shard.rs] (shard indices, the
    number of shards and the derivation of the shard of a solution) and of
    [nano_u256.rs].  The keyed hash of which the derivation takes a remainder is an
    argument, a list of 32 bytes; [Solutions] computes it. *)

From S2P Require Import Prelude.
From stdpp Require Import prelude.
From Stdlib Require Import NArith Lia.

(** [from_le_bytes] on any number of bytes. *)
Fixpoint le_bytes (bytes : list N) : N :=
  match bytes with
  | [] => 0
  | b :: bytes => b + 256 * le_bytes bytes
  end%N.

Definition is_byte (b : N) : Prop := (b < 256)%N.

Lemma le_bytes_app l1 l2 :
  le_bytes (l1 ++ l2) = (le_bytes l1 + 256 ^ N.of_nat (length l1) * le_bytes l2)%N.
Proof.
  induction l1 as [|b l1 IH]; [simpl; lia|]. cbn [le_bytes app length].
  rewrite IH, Nat2N.inj_succ, N.pow_succ_r'. lia.
Qed.

Lemma le_bytes_bound l :
  Forall is_byte l -> (le_bytes l < 256 ^ N.of_nat (length l))%N.
Proof.
  induction 1 as [|b l Hb _ IH]; [simpl; lia|]. cbn [le_bytes length].
  rewrite Nat2N.inj_succ, N.pow_succ_r'. unfold is_byte in Hb. lia.
Qed.

(** Joining disjoint bit ranges is addition. *)
Lemma lor_shiftl_add a b k : (b < 2 ^ k)%N -> N.lor (N.shiftl a k) b = (a * 2 ^ k + b)%N.
Proof.
  intros Hb. assert (Hd : N.land (N.shiftl a k) b = 0%N).
  { apply N.bits_inj. intros i. rewrite N.land_spec, N.bits_0.
    destruct (N.lt_ge_cases i k) as [Hi|Hi]; [by rewrite N.shiftl_spec_low|].
    rewrite <- (N.mod_small b (2 ^ k)), N.mod_pow2_bits_high by done. apply andb_false_r. }
  by rewrite <- N.shiftl_mul_pow2, N.add_nocarry_lxor, N.lxor_lor.
Qed.

Module NanoU256.
Record u256 : Type := U256 { lo : N; hi : N }.

Definition from_le_bytes (bytes : list N) : u256 :=
  {| lo := le_bytes (take 16 bytes); hi := le_bytes (take 16 (drop 16 bytes)) |}.

(** [Fault] is the division by zero. *)
Definition rem (x : u256) (rhs : N) : outcome N :=
  if decide (rhs = 0%N) then Fault
  else if decide (hi x = 0%N) then Ret (lo x mod rhs)%N
  else
    let hi_rem := (hi x mod rhs)%N in
    let combined := N.lor (N.shiftl hi_rem 64) (N.shiftr (lo x) 64) in
    let combined_rem := (combined mod rhs)%N in
    let low := N.land (lo x) (2 ^ 64 - 1) in
    Ret (N.lor (N.shiftl combined_rem 64) low mod rhs)%N.

Definition value (x : u256) : N := (hi x * 2 ^ 128 + lo x)%N.

Lemma mod_step u v r : ((u mod r * 2 ^ 64 + v) mod r = (u * 2 ^ 64 + v) mod r)%N.
Proof.
  by rewrite <- N.Div0.add_mod_idemp_l, N.Div0.mul_mod_idemp_l, N.Div0.add_mod_idemp_l.
Qed.

Lemma rem_spec x rhs :
  (lo x < 2 ^ 128)%N -> (0 < rhs < 2 ^ 64)%N -> rem x rhs = Ret (value x mod rhs)%N.
Proof.
  intros Hlo Hrhs. unfold rem, value. rewrite decide_False by lia.
  case_decide as Hhi; [by rewrite Hhi, N.mul_0_l, N.add_0_l|].
  replace (2 ^ 64 - 1)%N with (N.ones 64) by done. rewrite N.land_ones, N.shiftr_div_pow2.
  rewrite (lor_shiftl_add _ (lo x / 2 ^ 64)) by (apply N.Div0.div_lt_upper_bound; lia).
  rewrite (lor_shiftl_add _ (lo x mod 2 ^ 64)) by (apply N.mod_lt; lia). f_equal.
  set (h := hi x). set (a := (lo x / 2 ^ 64)%N). set (b := (lo x mod 2 ^ 64)%N).
  assert (Hx : lo x = (a * 2 ^ 64 + b)%N) by (pose proof (N.Div0.div_mod (lo x) (2 ^ 64)); unfold a, b; lia).
  rewrite Hx. replace (h * 2 ^ 128 + (a * 2 ^ 64 + b))%N with ((h * 2 ^ 64 + a) * 2 ^ 64 + b)%N by lia.
  by rewrite (mod_step h a), mod_step.
Qed.
End NanoU256.

Module Shard.

Definition INTERMEDIATE_SHARDS_START : N := 1.
Definition INTERMEDIATE_SHARDS_END : N := 1023.
Definition INTERMEDIATE_SHARD_BITS : N := 10.
(** [u32::MAX >> (u32::BITS - INTERMEDIATE_SHARD_BITS)] *)
Definition INTERMEDIATE_SHARD_MASK : N := N.shiftr (2 ^ 32 - 1) (32 - INTERMEDIATE_SHARD_BITS).

Inductive shard_kind : Type :=
| BeaconChain
| IntermediateShard
| LeafShard
| Phantom.

Inductive real_shard_kind : Type :=
| RealBeaconChain
| RealIntermediateShard
| RealLeafShard.

#[export] Instance shard_kind_eq_dec : EqDecision shard_kind.
Proof. solve_decision. Defined.

Definition to_real (k : shard_kind) : option real_shard_kind :=
  match k with
  | BeaconChain => Some RealBeaconChain
  | IntermediateShard => Some RealIntermediateShard
  | LeafShard => Some RealLeafShard
  | Phantom => None
  end.

Definition from_real (k : real_shard_kind) : shard_kind :=
  match k with
  | RealBeaconChain => BeaconChain
  | RealIntermediateShard => IntermediateShard
  | RealLeafShard => LeafShard
  end.

(** [ShardIndex] is its [u32]. *)
Definition BEACON_CHAIN : N := 0.
Definition MAX_SHARDS : N := 2 ^ 20.
Definition MAX_SHARD_INDEX : N := MAX_SHARDS - 1.
Definition MAX_ADDRESSES_PER_SHARD : N := 2 ^ 108.

Definition new_shard_index (shard_index : N) : option N :=
  if decide (MAX_SHARD_INDEX < shard_index)%N then None else Some shard_index.

Definition is_beacon_chain (i : N) : bool := (i =? BEACON_CHAIN)%N.

Definition is_intermediate_shard (i : N) : bool :=
  ((INTERMEDIATE_SHARDS_START <=? i) && (i <=? INTERMEDIATE_SHARDS_END))%N.

Definition is_leaf_shard (i : N) : bool :=
  if ((i <=? INTERMEDIATE_SHARDS_END) || (MAX_SHARD_INDEX <? i))%N then false
  else negb (N.land i INTERMEDIATE_SHARD_MASK =? 0)%N.

Definition is_phantom_shard (i : N) : bool :=
  if ((i <=? INTERMEDIATE_SHARDS_END) || (MAX_SHARD_INDEX <? i))%N then false
  else (N.land i INTERMEDIATE_SHARD_MASK =? 0)%N.

Definition is_real (i : N) : bool := negb (is_phantom_shard i).

Definition get_shard_kind (i : N) : option shard_kind :=
  if (i =? BEACON_CHAIN)%N then Some BeaconChain
  else if ((INTERMEDIATE_SHARDS_START <=? i) && (i <=? INTERMEDIATE_SHARDS_END))%N
  then Some IntermediateShard
  else if (MAX_SHARD_INDEX <? i)%N then None
  else if (N.land i INTERMEDIATE_SHARD_MASK =? 0)%N then Some Phantom
  else Some LeafShard.

Definition is_child_of (i parent : N) : bool :=
  match get_shard_kind i with
  | Some BeaconChain => false
  | Some (IntermediateShard | Phantom) => is_beacon_chain parent
  | Some LeafShard => (N.land i INTERMEDIATE_SHARD_MASK =? parent)%N
  | None => false
  end.

Definition parent_shard (i : N) : option N :=
  match get_shard_kind i with
  | None => None
  | Some BeaconChain => None
  | Some (IntermediateShard | Phantom) => Some BEACON_CHAIN
  | Some LeafShard => Some (N.land i INTERMEDIATE_SHARD_MASK)
  end.

(** [NumShards]; both fields are [NonZeroU16]. *)
Record num_shards : Type := NumShards {
  intermediate_shards : N;
  leaf_shards_per_intermediate_shard : N
}.

Definition leaf_shards (n : num_shards) : N :=
  (intermediate_shards n * leaf_shards_per_intermediate_shard n)%N.

Definition new_num_shards (intermediate leaf_per_intermediate : N) : option num_shards :=
  if decide (INTERMEDIATE_SHARDS_END - INTERMEDIATE_SHARDS_START + 1 < intermediate)%N then None
  else
    let n := {| intermediate_shards := intermediate;
                leaf_shards_per_intermediate_shard := leaf_per_intermediate |} in
    if decide (MAX_SHARDS < leaf_shards n)%N then None else Some n.

(** [TryFrom<NumShardsUnchecked>] on two [u16]s. *)
Definition num_shards_try_from (intermediate leaf_per_intermediate : N) : option num_shards :=
  if decide (intermediate = 0%N) then None
  else if decide (leaf_per_intermediate = 0%N) then None
  else new_num_shards intermediate leaf_per_intermediate.

(** The first [n] indices of [1..=1023]. *)
Definition iter_intermediate_shards (n : num_shards) : list N :=
  take (N.to_nat (intermediate_shards n)) (N.of_nat <$> seq 1 1023).

Definition iter_leaf_shards (n : num_shards) : list N :=
  intermediate_shard ← iter_intermediate_shards n;
  (fun leaf_shard_index =>
     N.lor (N.shiftl (N.of_nat leaf_shard_index) INTERMEDIATE_SHARD_BITS) intermediate_shard)
    <$> seq 0 (N.to_nat (leaf_shards_per_intermediate_shard n)).

(** [SolutionShardCommitment::NUM_LEAVES] *)
Definition NUM_LEAVES : N := 2 ^ 20.

(** The shard of the solution with this hash. *)
Definition derive_shard_index (n : num_shards) (hash : list N) : outcome N :=
  let! offset := NanoU256.rem (NanoU256.from_le_bytes hash) (leaf_shards n) in
  Ret (default BEACON_CHAIN (iter_leaf_shards n !! N.to_nat offset)).

Definition derive_shard_commitment_index (hash : list N) : N :=
  (le_bytes (take 4 hash) mod NUM_LEAVES)%N.

Definition derive_shard_index_and_shard_commitment_index (n : num_shards) (hash : list N)
    : outcome (N * N) :=
  let! shard_index := derive_shard_index n hash in
  Ret (shard_index, derive_shard_commitment_index hash).

(** ** Correctness *)

Lemma mask_mod i : N.land i INTERMEDIATE_SHARD_MASK = (i mod 2 ^ 10)%N.
Proof. change INTERMEDIATE_SHARD_MASK with (N.ones 10). apply N.land_ones. Qed.

(** A leaf position: leaf number [j] below intermediate shard [m]. *)
Definition leaf_index (m j : N) : N := (j * 2 ^ 10 + m)%N.

Lemma leaf_index_mod m j : (m < 2 ^ 10)%N -> (leaf_index m j mod 2 ^ 10 = m)%N.
Proof.
  intros Hm. unfold leaf_index. rewrite N.add_comm, N.Div0.mod_add. by apply N.mod_small.
Qed.

Lemma leaf_index_kind m j :
  (1 <= m <= 1023)%N ->
  get_shard_kind (leaf_index m j) =
    if decide (j = 0%N) then Some IntermediateShard
    else if decide (j < 2 ^ 10)%N then Some LeafShard else None.
Proof.
  intros Hm. unfold get_shard_kind. rewrite mask_mod, leaf_index_mod by lia.
  unfold BEACON_CHAIN, INTERMEDIATE_SHARDS_START, INTERMEDIATE_SHARDS_END, MAX_SHARD_INDEX, MAX_SHARDS,
    leaf_index in *.
  repeat case_decide; repeat (case_match; try done);
    rewrite ?N.eqb_eq, ?N.eqb_neq, ?andb_true_iff, ?andb_false_iff, ?N.leb_le, ?N.leb_gt, ?N.ltb_lt,
      ?N.ltb_ge in *; lia.
Qed.

Lemma elem_of_iter_intermediate n m :
  m ∈ iter_intermediate_shards n <-> (1 <= m <= N.min (intermediate_shards n) 1023)%N.
Proof.
  unfold iter_intermediate_shards. rewrite <- fmap_take, list_elem_of_fmap. split.
  - intros (k & -> & Hk). apply list_elem_of_lookup in Hk as [i Hi].
    apply lookup_take_Some in Hi as [Hi Hlt]. apply lookup_seq in Hi as [-> Hi2]. lia.
  - intros Hm. exists (N.to_nat m). split; [lia|]. apply list_elem_of_lookup. exists (N.to_nat m - 1).
    apply lookup_take_Some. split; [|lia]. apply lookup_seq. lia.
Qed.

Lemma elem_of_iter_leaf n i :
  i ∈ iter_leaf_shards n <->
  exists m j, (1 <= m <= N.min (intermediate_shards n) 1023)%N /\
    (j < leaf_shards_per_intermediate_shard n)%N /\ i = leaf_index m j.
Proof.
  unfold iter_leaf_shards. rewrite list_elem_of_bind. unfold leaf_index. split.
  - intros (m & Hi & Hm). apply list_elem_of_fmap in Hi as (j & -> & Hj).
    apply elem_of_iter_intermediate in Hm. apply elem_of_seq in Hj.
    exists m, (N.of_nat j). split_and!; [lia..|]. change INTERMEDIATE_SHARD_BITS with 10%N.
    by rewrite lor_shiftl_add by lia.
  - intros (m & j & Hm & Hj & ->). exists m. rewrite elem_of_iter_intermediate. split; [|lia].
    apply list_elem_of_fmap. exists (N.to_nat j). rewrite elem_of_seq. split; [|lia].
    change INTERMEDIATE_SHARD_BITS with 10%N. by rewrite N2Nat.id, lor_shiftl_add by lia.
Qed.

Lemma length_iter_leaf n :
  (intermediate_shards n <= 1023)%N -> length (iter_leaf_shards n) = N.to_nat (leaf_shards n).
Proof.
  intros Hn. unfold iter_leaf_shards, leaf_shards.
  assert (Hl : length (iter_intermediate_shards n) = N.to_nat (intermediate_shards n)).
  { unfold iter_intermediate_shards. rewrite length_take, length_fmap, length_seq. lia. }
  rewrite N2Nat.inj_mul, <- Hl. clear Hl. generalize (iter_intermediate_shards n) as ms.
  intros ms. induction ms as [|m ms IH]; [done|].
  rewrite bind_cons, length_app, IH, length_fmap, length_seq. simpl. lia.
Qed.

(** The predicates and the kind, case by case. *)
Lemma kind_cases i :
  (i <= MAX_SHARD_INDEX)%N ->
  (is_beacon_chain i, is_intermediate_shard i, is_leaf_shard i, is_phantom_shard i,
   get_shard_kind i) =
    if decide (i = 0%N) then (true, false, false, false, Some BeaconChain)
    else if decide (i <= 1023)%N then (false, true, false, false, Some IntermediateShard)
    else if decide (i mod 2 ^ 10 = 0)%N then (false, false, false, true, Some Phantom)
    else (false, false, true, false, Some LeafShard).
Proof.
  intros Hi. unfold is_beacon_chain, is_intermediate_shard, is_leaf_shard, is_phantom_shard,
    get_shard_kind. rewrite mask_mod. unfold MAX_SHARD_INDEX, MAX_SHARDS, BEACON_CHAIN,
    INTERMEDIATE_SHARDS_START, INTERMEDIATE_SHARDS_END in *.
  rewrite (proj2 (N.ltb_ge _ _) Hi).
  destruct (N.eqb_spec i 0), (N.leb_spec 1 i), (N.leb_spec i 1023), (N.eqb_spec (i mod 2 ^ 10) 0);
    simpl; repeat (case_decide; try lia); done.
Qed.

Lemma leaf_parent_kind i :
  (i mod 2 ^ 10 <> 0)%N -> get_shard_kind (i mod 2 ^ 10) = Some IntermediateShard.
Proof.
  intros Hm. pose proof (N.mod_lt i (2 ^ 10)) as Hlt. specialize (Hlt ltac:(done)).
  revert Hm Hlt. generalize (i mod 2 ^ 10)%N as m. intros m Hm Hlt.
  assert (Hr : (1 <= m <= 1023)%N) by lia. pose proof (leaf_index_kind m 0 Hr) as Hk.
  unfold leaf_index in Hk. by rewrite N.mul_0_l, N.add_0_l in Hk.
Qed.

(** ** Properties *)

(** Every shard index in range is of exactly one kind, the predicates on
    indices agree with [shard_kind], a child's parent is the one [parent_shard]
    names, and the parent of a shard is the beacon chain or, for leaf shards, an
    intermediate shard. *)
Theorem shard_kinds_consistent i parent :
  (i <= MAX_SHARD_INDEX)%N ->
  is_beacon_chain i = bool_decide (get_shard_kind i = Some BeaconChain) /\
  is_intermediate_shard i = bool_decide (get_shard_kind i = Some IntermediateShard) /\
  is_leaf_shard i = bool_decide (get_shard_kind i = Some LeafShard) /\
  is_phantom_shard i = bool_decide (get_shard_kind i = Some Phantom) /\
  is_real i = bool_decide (is_Some (get_shard_kind i ≫= to_real)) /\
  is_child_of i parent = bool_decide (parent_shard i = Some parent) /\
  (parent_shard i = Some parent ->
   get_shard_kind parent =
     Some (if decide (get_shard_kind i = Some LeafShard) then IntermediateShard else BeaconChain)).
Proof.
  intros Hi. pose proof (kind_cases i Hi) as Hc. unfold is_real, is_child_of, parent_shard.
  assert (Hbc : forall p, is_beacon_chain p = bool_decide (Some BEACON_CHAIN = Some p)).
  { intros p. unfold is_beacon_chain. destruct (N.eqb_spec p BEACON_CHAIN); symmetry;
      [apply bool_decide_eq_true|apply bool_decide_eq_false]; congruence. }
  destruct (decide (i = 0%N)); [|destruct (decide (i <= 1023)%N);
    [|destruct (decide (i mod 2 ^ 10 = 0)%N)]];
    injection Hc as -> -> -> -> ->; split_and!; try done.
  - by intros [= <-].
  - by intros [= <-].
  - rewrite mask_mod. destruct (N.eqb_spec (i mod 2 ^ 10) parent); symmetry;
      [apply bool_decide_eq_true|apply bool_decide_eq_false]; congruence.
  - rewrite mask_mod. intros [= <-]. by apply leaf_parent_kind.
Qed.

(** The list of leaf shards of a network is not a list of leaf shards: its
    members are the indices with one of the intermediate shards in the low ten bits,
    but leaf number 0 of every intermediate shard is the intermediate shard itself,
    and numbers from 1024 on, which [NumShards::new] admits, are out of range. *)
Theorem iter_leaf_shards_kinds a b n i :
  num_shards_try_from a b = Some n ->
  i ∈ iter_leaf_shards n <->
  exists m j, (1 <= m <= a)%N /\ (j < b)%N /\ i = leaf_index m j /\
    get_shard_kind i =
      if decide (j = 0%N) then Some IntermediateShard
      else if decide (j < 2 ^ 10)%N then Some LeafShard else None.
Proof.
  unfold num_shards_try_from, new_num_shards, INTERMEDIATE_SHARDS_END, INTERMEDIATE_SHARDS_START.
  intros Hn. repeat case_decide; try done. injection Hn as <-. rewrite elem_of_iter_leaf.
  cbn [intermediate_shards leaf_shards_per_intermediate_shard]. split.
  - intros (m & j & Hm & Hj & ->). exists m, j. split_and!; [lia|lia|done|done|].
    apply leaf_index_kind. lia.
  - intros (m & j & Hm & Hj & -> & _). exists m, j. split_and!; [lia|lia|done|done].
Qed.

(** The derivation of the shard of a solution never falls back to the beacon
    chain: the remainder it takes of the 256-bit hash is the mathematical one and
    indexes the list of leaf shards; the commitment index is in range. *)
Theorem derive_shard_index_in_range a b n hash :
  num_shards_try_from a b = Some n -> (a < 2 ^ 16)%N -> (b < 2 ^ 16)%N ->
  length hash = 32 -> Forall is_byte hash ->
  exists i c, derive_shard_index_and_shard_commitment_index n hash = Ret (i, c) /\
    iter_leaf_shards n !! N.to_nat (le_bytes hash mod leaf_shards n) = Some i /\
    (c < NUM_LEAVES)%N.
Proof.
  unfold num_shards_try_from, new_num_shards, INTERMEDIATE_SHARDS_END, INTERMEDIATE_SHARDS_START.
  intros Hn Ha Hb Hlen Hbytes. repeat case_decide; try done. injection Hn as <-.
  set (n := {| intermediate_shards := a; leaf_shards_per_intermediate_shard := b |}) in *.
  unfold derive_shard_index_and_shard_commitment_index, derive_shard_index.
  assert (Hpos : (0 < leaf_shards n)%N) by (unfold leaf_shards, n; simpl; nia).
  assert (Hval : NanoU256.value (NanoU256.from_le_bytes hash) = le_bytes hash).
  { unfold NanoU256.value, NanoU256.from_le_bytes. simpl.
    rewrite <- (take_drop 16 hash) at 3. rewrite le_bytes_app, length_take, Hlen.
    rewrite (take_ge (drop 16 hash)) by (rewrite length_drop; lia).
    change (256 ^ N.of_nat (Nat.min 16 32))%N with (2 ^ 128)%N. lia. }
  rewrite NanoU256.rem_spec.
  - rewrite Hval. cbn [obind].
    destruct (lookup_lt_is_Some_2 (iter_leaf_shards n)
      (N.to_nat (le_bytes hash mod leaf_shards n))) as [i Hi].
    { rewrite length_iter_leaf by (simpl; lia). pose proof (N.mod_lt (le_bytes hash) (leaf_shards n)). lia. }
    rewrite Hi. simpl. eexists _, _. split_and!; [done|done|]. apply N.mod_lt. done.
  - pose proof (le_bytes_bound (take 16 hash) ltac:(by apply Forall_take)) as Hlo.
    rewrite length_take, Hlen in Hlo. exact Hlo.
  - split; [done|]. unfold MAX_SHARDS in *. lia.
Qed.

(** ** Witnesses *)

Lemma shard_kinds_consistent_witness :
  is_beacon_chain 2049 = bool_decide (get_shard_kind 2049 = Some BeaconChain) /\
  is_intermediate_shard 2049 = bool_decide (get_shard_kind 2049 = Some IntermediateShard) /\
  is_leaf_shard 2049 = bool_decide (get_shard_kind 2049 = Some LeafShard) /\
  is_phantom_shard 2049 = bool_decide (get_shard_kind 2049 = Some Phantom) /\
  is_real 2049 = bool_decide (is_Some (get_shard_kind 2049 ≫= to_real)) /\
  is_child_of 2049 1 = bool_decide (parent_shard 2049 = Some 1%N) /\
  (parent_shard 2049 = Some 1%N ->
   get_shard_kind 1 =
     Some (if decide (get_shard_kind 2049 = Some LeafShard) then IntermediateShard else BeaconChain)).
Proof. apply (shard_kinds_consistent 2049 1). vm_compute. done. Defined.

Lemma iter_leaf_shards_kinds_witness :
  1%N ∈ iter_leaf_shards {| intermediate_shards := 2; leaf_shards_per_intermediate_shard := 3 |} <->
  exists m j, (1 <= m <= 2)%N /\ (j < 3)%N /\ 1%N = leaf_index m j /\
    get_shard_kind 1 =
      if decide (j = 0%N) then Some IntermediateShard
      else if decide (j < 2 ^ 10)%N then Some LeafShard else None.
Proof. apply (iter_leaf_shards_kinds 2 3). vm_compute. done. Defined.

Lemma derive_shard_index_in_range_witness :
  let n := {| intermediate_shards := 2; leaf_shards_per_intermediate_shard := 3 |} in
  let hash := replicate 32 7%N in
  exists i c, derive_shard_index_and_shard_commitment_index n hash = Ret (i, c) /\
    iter_leaf_shards n !! N.to_nat (le_bytes hash mod leaf_shards n) = Some i /\
    (c < NUM_LEAVES)%N.
Proof.
  apply (derive_shard_index_in_range 2 3); [reflexivity|lia|lia|reflexivity|].
  by apply Forall_replicate.
Defined.
End Shard.
