(* ===== verification/Address.v ===== *)
(** * Addresses and their allocation

    Model of [crates/shared/ab-core-primitives/src/address.rs] (the address type, its
    comparisons and the allocator address of a shard) and of the address allocator
    contract, [crates/contracts/system/ab-system-contract-address-allocator/src/lib.rs].
    Text formatting of addresses, which goes through the [bech32] crate, is not
    modelled. *)

From S2P Require Import Prelude Shards.
From stdpp Require Import prelude.
From Stdlib Require Import NArith Lia.

(** [reverse_bits] of a [width]-bit integer. *)
Fixpoint reverse_bits_acc (width : nat) (n acc : N) : N :=
  match width with
  | O => acc
  | S width => reverse_bits_acc width (N.div2 n) (2 * acc + n mod 2)
  end.

Definition reverse_bits (width : nat) (n : N) : N := reverse_bits_acc width n 0.

Module Address.

(** [struct Address(u64, u64)], with the byte layout of a little-endian [u128]. *)
Record address : Type := Addr { addr_0 : N; addr_1 : N }.

#[export] Instance address_eq_dec : EqDecision address.
Proof. solve_decision. Defined.

Definition from_u128 (value : N) : address :=
  {| addr_0 := value mod 2 ^ 64; addr_1 := value / 2 ^ 64 |}.

Definition to_u128 (a : address) : N := (addr_0 a + 2 ^ 64 * addr_1 a)%N.

(** The derived [PartialEq]. *)
Definition eqb (a b : address) : bool := bool_decide (a = b).

(** [PartialEq<&Address> for Address] and [PartialEq<Address> for &Address]. *)
Definition eq_ref (a b : address) : bool := (addr_0 a =? addr_0 b)%N.

(** [Ord], and [PartialOrd] through it. *)
Definition cmp (a b : address) : comparison := N.compare (to_u128 a) (to_u128 b).

Definition NULL : address := from_u128 0.
Definition SYSTEM_CODE : address := from_u128 1.

Definition system_address_allocator (shard_index : N) : address :=
  from_u128 (reverse_bits 128 shard_index).

(** ** The allocator contract *)

Inductive contract_error : Type := Forbidden.

Record allocator : Type := Allocator { next_address : N; max_address : N }.

(** [u128] addition, checked for overflow. *)
Definition checked_add128 (a b : N) : outcome N :=
  if decide (a + b < 2 ^ 128)%N then Ret (a + b)%N else Fault.

(** [AddressAllocator::new] with the two fields of the environment it reads; a debug
    build asserts that the contract runs at the address of its shard. *)
Definition new_allocator (own_address : address) (shard_index : N) : outcome allocator :=
  let expected_self_address := to_u128 (system_address_allocator shard_index) in
  if negb (eqb own_address (from_u128 expected_self_address)) then Fault
  else
  let! next := checked_add128 expected_self_address 1 in
  let! max := checked_add128 expected_self_address (Shard.MAX_ADDRESSES_PER_SHARD - 1) in
  Ret {| next_address := next; max_address := max |}.

Definition allocate_address (s : allocator) (caller : address)
    : outcome ((address + contract_error) * allocator) :=
  if negb (eqb caller SYSTEM_CODE) then Ret (inr Forbidden, s)
  else
    let next := next_address s in
    if decide (max_address s <= next)%N then Ret (inr Forbidden, s)
    else
      let! next' := checked_add128 next 1 in
      Ret (inl (from_u128 next), {| next_address := next'; max_address := max_address s |}).

(** Up to [k] allocations in a row, until one is refused. *)
Fixpoint allocate_many (k : nat) (s : allocator) : outcome (list address * allocator) :=
  match k with
  | O => Ret ([], s)
  | S k =>
      let! (r, s) := allocate_address s SYSTEM_CODE in
      match r with
      | inr _ => Ret ([], s)
      | inl a => let! (rest, s) := allocate_many k s in Ret (a :: rest, s)
      end
  end.

(** The allocator of a shard, deployed at its address, serving up to [k] requests. *)
Definition shard_allocations (shard_index : N) (k : nat) : outcome (list address * allocator) :=
  let! al := new_allocator (system_address_allocator shard_index) shard_index in
  allocate_many k al.

(** ** Correctness *)

Definition valid (a : address) : Prop := (addr_0 a < 2 ^ 64 /\ addr_1 a < 2 ^ 64)%N.

Lemma from_to_u128 a : valid a -> from_u128 (to_u128 a) = a.
Proof.
  destruct a as [l h]. unfold valid, from_u128, to_u128. cbn. intros [Hl Hh].
  rewrite N.mul_comm, N.Div0.mod_add, N.mod_small, N.div_add, N.div_small by lia. done.
Qed.

Lemma to_from_u128 v : to_u128 (from_u128 v) = v.
Proof. unfold to_u128, from_u128. cbn. pose proof (N.Div0.div_mod v (2 ^ 64)). lia. Qed.

Lemma from_u128_valid v : (v < 2 ^ 128)%N -> valid (from_u128 v).
Proof.
  intros Hv. split; cbn; [by apply N.mod_lt|]. apply N.Div0.div_lt_upper_bound. lia.
Qed.

Lemma reverse_bits_acc_zero w acc : reverse_bits_acc w 0 acc = (acc * 2 ^ N.of_nat w)%N.
Proof.
  revert acc. induction w as [|w IH]; intros acc; [simpl; lia|]. cbn [reverse_bits_acc].
  change (N.div2 0) with 0%N. rewrite IH. change (0 mod 2)%N with 0%N.
  rewrite Nat2N.inj_succ, N.pow_succ_r'. lia.
Qed.

(** The low [k] bits are reversed first. *)
Lemma reverse_bits_acc_split k w n acc :
  (n < 2 ^ N.of_nat k)%N ->
  reverse_bits_acc (k + w) n acc = (reverse_bits_acc k n acc * 2 ^ N.of_nat w)%N.
Proof.
  revert n acc. induction k as [|k IH]; intros n acc Hn.
  - simpl in Hn. replace n with 0%N by lia. apply reverse_bits_acc_zero.
  - cbn [Nat.add reverse_bits_acc]. apply IH. rewrite N.div2_div.
    apply N.Div0.div_lt_upper_bound. by rewrite <- N.pow_succ_r', <- Nat2N.inj_succ.
Qed.

Lemma reverse_bits_acc_bound k n acc :
  (reverse_bits_acc k n acc < (acc + 1) * 2 ^ N.of_nat k)%N.
Proof.
  revert n acc. induction k as [|k IH]; intros n acc; [simpl; lia|]. cbn [reverse_bits_acc].
  specialize (IH (N.div2 n) (2 * acc + n mod 2)%N). pose proof (N.mod_lt n 2 ltac:(lia)) as Hm.
  rewrite Nat2N.inj_succ, N.pow_succ_r'.
  assert ((2 * acc + n mod 2 + 1) * 2 ^ N.of_nat k <= (acc + 1) * (2 * 2 ^ N.of_nat k))%N; [|lia].
  transitivity ((2 * acc + 2) * 2 ^ N.of_nat k)%N; [|lia]. apply N.mul_le_mono_r.
  generalize dependent (n mod 2)%N. intros m Hb Hm. lia.
Qed.

Lemma reverse_bits_acc_inj k n n' acc acc' :
  (n < 2 ^ N.of_nat k)%N -> (n' < 2 ^ N.of_nat k)%N ->
  reverse_bits_acc k n acc = reverse_bits_acc k n' acc' -> n = n' /\ acc = acc'.
Proof.
  revert n n' acc acc'. induction k as [|k IH]; intros n n' acc acc' Hn Hn' He.
  - simpl in *. lia.
  - cbn [reverse_bits_acc] in He. rewrite Nat2N.inj_succ, N.pow_succ_r' in Hn, Hn'.
    apply IH in He as [Hd Ha]; [|rewrite N.div2_div; apply N.Div0.div_lt_upper_bound; lia..].
    rewrite !N.div2_div in Hd. pose proof (N.Div0.div_mod n 2). pose proof (N.Div0.div_mod n' 2).
    pose proof (N.mod_lt n 2 ltac:(lia)). pose proof (N.mod_lt n' 2 ltac:(lia)).
    generalize dependent (n mod 2)%N. generalize dependent (n' mod 2)%N.
    generalize dependent (n / 2)%N. generalize dependent (n' / 2)%N. intros. lia.
Qed.

(** The allocator address of a shard: its index, reversed, in the top 20 bits. *)
Lemma allocator_base s :
  (s <= Shard.MAX_SHARD_INDEX)%N ->
  to_u128 (system_address_allocator s) = (reverse_bits_acc 20 s 0 * 2 ^ 108)%N /\
  (reverse_bits_acc 20 s 0 < 2 ^ 20)%N.
Proof.
  intros Hs. unfold system_address_allocator, reverse_bits. rewrite to_from_u128.
  split; [|apply (reverse_bits_acc_bound 20 s 0)].
  apply (reverse_bits_acc_split 20 108). unfold Shard.MAX_SHARD_INDEX, Shard.MAX_SHARDS in Hs.
  change (N.of_nat 20) with 20%N. lia.
Qed.

Lemma new_allocator_spec s :
  (s <= Shard.MAX_SHARD_INDEX)%N ->
  let base := to_u128 (system_address_allocator s) in
  new_allocator (system_address_allocator s) s =
    Ret {| next_address := base + 1; max_address := base + (2 ^ 108 - 1) |}%N.
Proof.
  intros Hs base. destruct (allocator_base s Hs) as [Hb Hlt]. fold base in Hb.
  assert (Hself : eqb (system_address_allocator s) (from_u128 base) = true).
  { apply bool_decide_eq_true. unfold base, system_address_allocator. by rewrite to_from_u128. }
  unfold new_allocator, checked_add128, Shard.MAX_ADDRESSES_PER_SHARD. fold base.
  rewrite Hself. cbn [negb].
  rewrite decide_True by (rewrite Hb; lia). cbn [obind]. by rewrite decide_True by (rewrite Hb; lia).
Qed.

Lemma allocate_address_step s base n :
  (s <= Shard.MAX_SHARD_INDEX)%N -> base = to_u128 (system_address_allocator s) ->
  allocate_address {| next_address := base + n; max_address := base + (2 ^ 108 - 1) |} SYSTEM_CODE =
    Ret (if decide (n < 2 ^ 108 - 1)%N
         then (inl (from_u128 (base + n)),
               {| next_address := base + (n + 1); max_address := base + (2 ^ 108 - 1) |})
         else (inr Forbidden, {| next_address := base + n; max_address := base + (2 ^ 108 - 1) |}))%N.
Proof.
  intros Hs Hbase. destruct (allocator_base s Hs) as [Hb Hlt]. rewrite <- Hbase in Hb.
  unfold allocate_address, checked_add128. cbn [next_address max_address].
  change (negb (eqb SYSTEM_CODE SYSTEM_CODE)) with false. cbn match.
  destruct (decide (n < 2 ^ 108 - 1)%N) as [Hn|Hn].
  - rewrite decide_False, decide_True by lia. cbn [obind]. by rewrite N.add_assoc.
  - by rewrite decide_True by lia.
Qed.

Lemma allocate_many_spec s base k n :
  (s <= Shard.MAX_SHARD_INDEX)%N -> base = to_u128 (system_address_allocator s) ->
  exists l st,
    allocate_many k {| next_address := base + n; max_address := base + (2 ^ 108 - 1) |} = Ret (l, st) /\
    N.of_nat (length l) = N.min (N.of_nat k) (2 ^ 108 - 1 - n) /\
    forall i a, l !! i = Some a -> a = from_u128 (base + n + N.of_nat i).
Proof.
  intros Hs Hbase. revert n. induction k as [|k IH]; intros n.
  { eexists [], _. split; [done|]. split; [cbn [length]; lia|done]. }
  cbn [allocate_many]. rewrite (allocate_address_step s base n Hs Hbase). cbn [obind].
  case_decide as Hn; [|eexists [], _; split; [done|]; split; [cbn [length]; lia|done]].
  destruct (IH (n + 1)%N) as (l & st & -> & Hlen & Hl). cbn [obind].
  exists (from_u128 (base + n) :: l), st. split; [done|]. split; [cbn [length]; lia|].
  intros [|i] a Hi; simpl in Hi.
  - simplify_eq. by rewrite N.add_0_r.
  - rewrite (Hl i a Hi). f_equal. lia.
Qed.

Lemma shard_allocations_spec s k :
  (s <= Shard.MAX_SHARD_INDEX)%N ->
  exists l st, shard_allocations s k = Ret (l, st) /\
    N.of_nat (length l) = N.min (N.of_nat k) (2 ^ 108 - 2) /\
    forall i a, l !! i = Some a ->
      a = from_u128 (reverse_bits_acc 20 s 0 * 2 ^ 108 + (1 + N.of_nat i)) /\
      (1 + N.of_nat i < 2 ^ 108 - 1)%N.
Proof.
  intros Hs. unfold shard_allocations. rewrite new_allocator_spec by done. cbn [obind].
  destruct (allocate_many_spec s _ k 1 Hs eq_refl) as (l & st & Hr & Hlen & Hl).
  exists l, st. split; [done|]. split; [lia|]. intros i a Hi. split.
  - rewrite (Hl i a Hi). destruct (allocator_base s Hs) as [-> _]. f_equal. lia.
  - apply lookup_lt_Some in Hi. lia.
Qed.

(** The address determines the shard and the number of the allocation. *)
Lemma allocated_address_inj s1 s2 i j :
  (s1 <= Shard.MAX_SHARD_INDEX)%N -> (s2 <= Shard.MAX_SHARD_INDEX)%N ->
  (1 + N.of_nat i < 2 ^ 108 - 1)%N -> (1 + N.of_nat j < 2 ^ 108 - 1)%N ->
  from_u128 (reverse_bits_acc 20 s1 0 * 2 ^ 108 + (1 + N.of_nat i)) =
    from_u128 (reverse_bits_acc 20 s2 0 * 2 ^ 108 + (1 + N.of_nat j)) ->
  s1 = s2 /\ i = j.
Proof.
  intros Hs1 Hs2 Hi Hj He. apply (f_equal to_u128) in He. rewrite !to_from_u128 in He.
  unfold Shard.MAX_SHARD_INDEX, Shard.MAX_SHARDS in *.
  assert (Hr : reverse_bits_acc 20 s1 0 = reverse_bits_acc 20 s2 0) by lia.
  apply reverse_bits_acc_inj in Hr as [-> _]; [|change (N.of_nat 20) with 20%N; lia..].
  split; [done|]. lia.
Qed.

(** ** Properties *)

(** The allocator of a shard serves the requests it gets until its [2 ^ 108 - 2]
    addresses are used up, without overflow; no allocator hands out an address twice,
    and the allocators of different shards never hand out the same address. *)
Theorem allocated_addresses_unique s1 s2 k1 k2 :
  (s1 <= Shard.MAX_SHARD_INDEX)%N -> (s2 <= Shard.MAX_SHARD_INDEX)%N ->
  exists l1 st1 l2 st2,
    shard_allocations s1 k1 = Ret (l1, st1) /\ shard_allocations s2 k2 = Ret (l2, st2) /\
    N.of_nat (length l1) = N.min (N.of_nat k1) (2 ^ 108 - 2) /\
    N.of_nat (length l2) = N.min (N.of_nat k2) (2 ^ 108 - 2) /\
    forall i j a, l1 !! i = Some a -> l2 !! j = Some a -> s1 = s2 /\ i = j.
Proof.
  intros Hs1 Hs2.
  destruct (shard_allocations_spec s1 k1 Hs1) as (l1 & st1 & Hr1 & Hn1 & Hl1).
  destruct (shard_allocations_spec s2 k2 Hs2) as (l2 & st2 & Hr2 & Hn2 & Hl2).
  exists l1, st1, l2, st2. split_and!; [done..|]. intros i j a Hi Hj.
  destruct (Hl1 i a Hi) as [Ha1 Hb1], (Hl2 j a Hj) as [Ha2 Hb2].
  apply allocated_address_inj; congruence.
Qed.

(** Comparing an address with a reference to one looks at the low 64 bits
    only: the n-th contracts of any two shards compare equal although they are
    different addresses. *)
Theorem eq_ref_conflates_shards s1 s2 k1 k2 l1 l2 st1 st2 i a b :
  (s1 <= Shard.MAX_SHARD_INDEX)%N -> (s2 <= Shard.MAX_SHARD_INDEX)%N -> s1 <> s2 ->
  shard_allocations s1 k1 = Ret (l1, st1) -> shard_allocations s2 k2 = Ret (l2, st2) ->
  l1 !! i = Some a -> l2 !! i = Some b ->
  eq_ref a b = true /\ eqb a b = false.
Proof.
  intros Hs1 Hs2 Hne Hr1 Hr2 Hi Hj.
  destruct (shard_allocations_spec s1 k1 Hs1) as (? & ? & Hr1' & _ & Hl1).
  destruct (shard_allocations_spec s2 k2 Hs2) as (? & ? & Hr2' & _ & Hl2).
  rewrite Hr1 in Hr1'. rewrite Hr2 in Hr2'. simplify_eq.
  destruct (Hl1 i a Hi) as [-> Hb1], (Hl2 i b Hj) as [-> Hb2]. split.
  - unfold eq_ref, from_u128. cbn [addr_0]. apply N.eqb_eq.
    replace (2 ^ 108)%N with (2 ^ 44 * 2 ^ 64)%N by done. rewrite !N.mul_assoc.
    by rewrite !(N.add_comm (_ * 2 ^ 64)), !N.Div0.mod_add.
  - apply bool_decide_eq_false. intros He. by apply allocated_address_inj in He as [-> _].
Qed.

(** ** Witnesses *)

Definition sample_allocated (s : N) : list address :=
  (fun j => from_u128 (to_u128 (system_address_allocator s) + j)) <$> [1; 2]%N.

Definition sample_state (s : N) : allocator :=
  let base := to_u128 (system_address_allocator s) in
  {| next_address := base + 3; max_address := base + (2 ^ 108 - 1) |}.

Lemma allocated_addresses_unique_witness :
  exists l1 st1 l2 st2,
    shard_allocations 5 2 = Ret (l1, st1) /\ shard_allocations 6 3 = Ret (l2, st2) /\
    N.of_nat (length l1) = 2%N /\ N.of_nat (length l2) = 3%N /\
    forall i j a, l1 !! i = Some a -> l2 !! j = Some a -> 5%N = 6%N /\ i = j.
Proof. apply (allocated_addresses_unique 5 6 2 3); vm_compute; done. Defined.

Lemma eq_ref_conflates_shards_witness :
  let a := from_u128 (to_u128 (system_address_allocator 5) + 2) in
  let b := from_u128 (to_u128 (system_address_allocator 6) + 2) in
  eq_ref a b = true /\ eqb a b = false.
Proof.
  intros a b.
  apply (eq_ref_conflates_shards 5 6 2 2 (sample_allocated 5) (sample_allocated 6)
    (sample_state 5) (sample_state 6) 1 a b); vm_compute; done.
Defined.
End Address.
