(* ===== verification/SystemContracts.v ===== *)
(** * System contracts

    Model of the native token, state, code and block contracts
    ([crates/contracts/system/ab-system-contract-*/src/lib.rs]), of balances
    ([crates/shared/ab-core-primitives/src/balance.rs]) and of the environment a method
    call runs in, as [NativeExecutorContext::call] sets it up
    ([crates/execution/ab-executor-native/src/context.rs]).  Methods are functions of
    the environment, the contents of their slots and their inputs; a result [Err] stands
    for an unsuccessful call, whose slots the executor restores.  [u128] arithmetic
    that overflows is [Fault]. *)

From S2P Require Import Prelude Slices IoTypes Shards Address.
From stdpp Require Import prelude gmap.
From Stdlib Require Import NArith Lia.
From Stdlib Require Import Strings.Byte.

Module SystemContracts.
Import Address IoTypes ContractError.

#[export] Instance address_countable : Countable address.
Proof.
  refine (inj_countable' (fun a => (addr_0 a, addr_1 a)) (fun p => Addr p.1 p.2) _). by intros [].
Defined.

Definition SYSTEM_BLOCK : address := from_u128 2.
Definition SYSTEM_STATE : address := from_u128 3.
Definition SYSTEM_NATIVE_TOKEN : address := from_u128 4.

(** ** The environment of a call *)

Record env_state : Type := EnvState {
  shard_index : N;
  own_address : address;
  context : address;
  caller : address
}.

Inductive method_context : Type := Keep | Reset | Replace.

(** The environment of a method of [contract] called from [previous]. *)
Definition nested_env (shard : N) (previous : env_state) (contract : address)
    (mc : method_context) : env_state :=
  {| shard_index := shard;
     own_address := contract;
     context :=
       match mc with
       | Keep => context previous
       | Reset => NULL
       | Replace => own_address previous
       end;
     caller := own_address previous |}.

(** The environment a transaction starts with. *)
Definition transaction_env (shard : N) : env_state :=
  {| shard_index := shard; own_address := NULL; context := NULL; caller := NULL |}.

(** ** Balances *)

Definition balance_add (a b : N) : outcome N :=
  if decide (a + b < 2 ^ 128)%N then Ret (a + b)%N else Fault.

Definition balance_sub (a b : N) : outcome N :=
  if decide (b <= a)%N then Ret (a - b)%N else Fault.

(** ** The native token *)
Module NativeToken.
(** [MaybeData<Slot>]: a balance of 16 bytes or nothing. *)
Definition SLOT_SIZE : nat := 16.
Definition slot : Type := MaybeData.t (Data := N).

Definition initialize (env : env_state) (own : address) (own_balance : slot) (max_issuance : N)
    : result slot ContractError.t :=
  if negb (eqb (caller env) NULL) then Err Forbidden
  else if negb (eq_ref own (own_address env)) then Err BadInput
  else
    match MaybeData.get SLOT_SIZE own_balance with
    | Some _ => Err Conflict
    | None => Ok (MaybeData.replace SLOT_SIZE own_balance max_issuance)
    end.

Definition balance (target : slot) : N :=
  match MaybeData.get SLOT_SIZE target with Some b => b | None => 0 end.

(** Who may move the balance of [from]. *)
Definition may_transfer (env : env_state) (from : address) : bool :=
  eq_ref (context env) from || eq_ref (caller env) from ||
  eqb (caller env) (own_address env) || eqb (caller env) NULL.

(** The contents of both slots after a successful call. *)
Definition transfer (env : env_state) (from_address : address) (from to : slot) (amount : N)
    : outcome (result (slot * slot) ContractError.t) :=
  if negb (may_transfer env from_address) then Ret (Err Forbidden)
  else
    match MaybeData.get SLOT_SIZE from with
    | None => Ret (Err BadInput)
    | Some contents =>
        let! from' :=
          match N.compare contents amount with
          | Lt => Ret None
          | Eq => Ret (Some (MaybeData.remove from))
          | Gt => let! rest := balance_sub contents amount in Ret (Some (MaybeData.set from rest))
          end in
        match from' with
        | None => Ret (Err BadInput)
        | Some from' =>
            let (to, to_balance) := MaybeData.get_mut_or_init_with SLOT_SIZE to 0%N in
            let! to_balance := balance_add to_balance amount in
            Ret (Ok (from', MaybeData.set to to_balance))
        end
    end.

(** The slots of the contract, by owner; an owner without an entry has an empty slot. *)
Abbreviation ledger := (gmap address N).

Definition slot_of (l : ledger) (a : address) : slot :=
  match l !! a with
  | Some b => {| MaybeData.data := b; MaybeData.size := SLOT_SIZE |}
  | None => {| MaybeData.data := 0%N; MaybeData.size := 0 |}
  end.

Definition store (l : ledger) (a : address) (s : slot) : ledger :=
  match MaybeData.get SLOT_SIZE s with Some b => <[a := b]> l | None => delete a l end.

(** A call of [transfer]: a slot can not be used for writing twice, so that [from] and
    [to] must differ; the slots are written back when the call succeeds. *)
Definition call_transfer (env : env_state) (l : ledger) (from to : address) (amount : N)
    : outcome (ledger * result unit ContractError.t) :=
  if decide (from = to) then Ret (l, Err Forbidden)
  else
    let! r := transfer env from (slot_of l from) (slot_of l to) amount in
    Ret match r with
        | Err e => (l, Err e)
        | Ok (s_from, s_to) => (store (store l from s_from) to s_to, Ok tt)
        end.

Definition call_initialize (env : env_state) (l : ledger) (own : address) (max_issuance : N)
    : ledger * result unit ContractError.t :=
  match initialize env own (slot_of l own) max_issuance with
  | Err e => (l, Err e)
  | Ok s => (store l own s, Ok tt)
  end.

(** [Fungible::transfer], which calls the contract's own [transfer]. *)
Definition fungible_transfer (env : env_state) (l : ledger) (from to : address) (amount : N)
    : outcome (ledger * result unit ContractError.t) :=
  if negb (may_transfer env from) then Ret (l, Err Forbidden)
  else
    call_transfer (nested_env (shard_index env) env (own_address env) Replace) l from to amount.

(** [Fungible::balance] *)
Definition fungible_balance (l : ledger) (a : address) : N := balance (slot_of l a).
End NativeToken.

(** ** Contract state *)
Module State.
Import VariableBytes.

Definition is_empty (contract_state : VariableBytes.t) : bool :=
  bool_decide (size contract_state = 0).

Definition write (env : env_state) (a : address) (state new_state : VariableBytes.t)
    : outcome (result VariableBytes.t ContractError.t) :=
  if negb (eq_ref (caller env) a) then Ret (Err Forbidden)
  else
    let! (state, copied) := copy_from state new_state in
    Ret (if copied then Ok state else Err BadInput).

Definition initialize (env : env_state) (a : address) (contract_state state : VariableBytes.t)
    : outcome (result VariableBytes.t ContractError.t) :=
  if negb (is_empty contract_state) then Ret (Err Conflict)
  else write env a contract_state state.

Definition compare_and_write (env : env_state) (a : address)
    (state old_state new_state : VariableBytes.t)
    : outcome (result (VariableBytes.t * bool) ContractError.t) :=
  if negb (eq_ref (caller env) a) then Ret (Err Forbidden)
  else
    let! current := get_initialized state in
    let! expected := get_initialized old_state in
    if decide (current <> expected) then Ret (Ok (state, false))
    else
      let! (state, copied) := copy_from state new_state in
      Ret (if copied then Ok (state, true) else Err BadInput).

Definition read (contract_state state : VariableBytes.t)
    : outcome (result VariableBytes.t ContractError.t) :=
  let! (state, copied) := copy_from state contract_state in
  Ret (if copied then Ok state else Err BadInput).
End State.

(** ** Contract code *)
Module Code.
Import VariableBytes.

Definition store (env : env_state) (a : address) (contract_code new_code : VariableBytes.t)
    : outcome (result VariableBytes.t ContractError.t) :=
  if negb (eqb (caller env) NULL || eqb (caller env) (own_address env) || eq_ref (caller env) a)
  then Ret (Err Forbidden)
  else
    let! (code, copied) := copy_from contract_code new_code in
    Ret (if copied then Ok code else Err BadInput).

Definition read (contract_code code : VariableBytes.t)
    : outcome (result VariableBytes.t ContractError.t) :=
  let! (code, copied) := copy_from code contract_code in
  Ret (if copied then Ok code else Err BadInput).

(** [deploy]: allocate an address, then store the code in the empty slot [code_slot] of
    the new contract.  Returns the state of the allocator and the new slot. *)
Definition deploy (env : env_state) (al : allocator) (code_slot code : VariableBytes.t)
    : outcome (result (address * VariableBytes.t) ContractError.t * allocator) :=
  let env_allocator :=
    nested_env (shard_index env) env (system_address_allocator (shard_index env)) Replace in
  let! (allocated, al') := allocate_address al (caller env_allocator) in
  match allocated with
  | inr Address.Forbidden => Ret (Err Forbidden, al')
  | inl new_address =>
      let env_store := nested_env (shard_index env) env (own_address env) Replace in
      let! stored := store env_store new_address code_slot code in
      match stored with
      | Ok slot => Ret (Ok (new_address, slot), al')
      | Err e => Ret (Err e, al')
      end
  end.
End Code.

(** ** The block contract *)
Module Block.
Section Root.
Context {BlockRoot : Type} (default_root : BlockRoot).

Record t : Type := { number : N; parent_root : BlockRoot }.

Definition genesis : t := {| number := 0; parent_root := default_root |}.

Definition initialize (self : t) (env : env_state) (root : BlockRoot)
    : outcome (result t ContractError.t) :=
  if negb (eqb (caller env) NULL) then Ret (Err Forbidden)
  else if decide (number self + 1 < 2 ^ 64)%N then
    Ret (Ok {| number := number self + 1; parent_root := root |})
  else Fault.
End Root.
End Block.

(** ** Transfers *)

Import NativeToken.

Definition total (l : ledger) : N := map_fold (fun _ b acc => b + acc)%N 0%N l.

Lemma total_insert l a b : l !! a = None -> total (<[a := b]> l) = (b + total l)%N.
Proof. intros Ha. unfold total. rewrite map_fold_insert_L; [done|intros; lia|done]. Qed.

Lemma total_delete l a : (fungible_balance l a + total (delete a l) = total l)%N.
Proof.
  unfold fungible_balance, balance, slot_of. destruct (l !! a) as [b|] eqn:E; cbn.
  - rewrite <- (total_insert _ a) by apply lookup_delete_eq. by rewrite insert_delete_id.
  - by rewrite delete_id.
Qed.

Lemma get_slot_of l a : MaybeData.get SLOT_SIZE (slot_of l a) = l !! a.
Proof. unfold slot_of. by destruct (l !! a). Qed.

(** The ledger after [amount] moved. *)
Definition moved (l : ledger) (from to : address) (amount : N) : ledger :=
  <[to := (fungible_balance l to + amount)%N]>
    (if decide (fungible_balance l from = amount) then delete from l
     else <[from := (fungible_balance l from - amount)%N]> l).

Lemma fungible_balance_lookup l a : fungible_balance l a = default 0%N (l !! a).
Proof. unfold fungible_balance, balance. rewrite get_slot_of. by destruct (l !! a). Qed.

Lemma total_moved l from to amount :
  from <> to -> (amount <= fungible_balance l from)%N -> total (moved l from to amount) = total l.
Proof.
  intros Hne Hle. unfold moved. set (l1 := if decide _ then _ else _).
  assert (Hto : fungible_balance l1 to = fungible_balance l to).
  { rewrite !fungible_balance_lookup. unfold l1. destruct (decide _);
      [by rewrite lookup_delete_ne|by rewrite lookup_insert_ne]. }
  assert (Hl1 : (amount + total l1 = total l)%N).
  { unfold l1. rewrite <- (total_delete l from). destruct (decide _) as [E|E]; [lia|].
    rewrite <- insert_delete_eq, total_insert by apply lookup_delete_eq. lia. }
  rewrite <- insert_delete_eq, total_insert by apply lookup_delete_eq.
  pose proof (total_delete l1 to). lia.
Qed.

Lemma balance_le_total l a : (fungible_balance l a <= total l)%N.
Proof. pose proof (total_delete l a). lia. Qed.

Lemma two_balances_le_total l a b :
  a <> b -> (fungible_balance l a + fungible_balance l b <= total l)%N.
Proof.
  intros Hne. pose proof (total_delete l a). pose proof (balance_le_total (delete a l) b) as Hb.
  rewrite fungible_balance_lookup, lookup_delete_ne, <- fungible_balance_lookup in Hb by done. lia.
Qed.

Lemma transfer_spec env l from to amount :
  (total l < 2 ^ 128)%N -> from <> to ->
  call_transfer env l from to amount =
    Ret (if may_transfer env from then
           match l !! from with
           | Some b => if decide (amount <= b)%N then (moved l from to amount, Ok tt)
                       else (l, Err BadInput)
           | None => (l, Err BadInput)
           end
         else (l, Err Forbidden)).
Proof.
  intros Ht Hne. unfold call_transfer, transfer. rewrite decide_False by done.
  destruct (may_transfer env from); cbn [negb]; [|done].
  rewrite get_slot_of. destruct (l !! from) as [b|] eqn:Hf; [|done].
  assert (Hb : fungible_balance l from = b) by (by rewrite fungible_balance_lookup, Hf).
  pose proof (two_balances_le_total l from to Hne) as H2.
  destruct (decide (amount <= b)%N) as [Hle|Hgt].
  2: { rewrite (proj2 (N.compare_lt_iff b amount)) by lia. done. }
  assert (Hto : MaybeData.get_mut_or_init_with SLOT_SIZE (slot_of l to) 0%N =
    ({| MaybeData.data := fungible_balance l to; MaybeData.size := SLOT_SIZE |}, fungible_balance l to)).
  { rewrite fungible_balance_lookup. unfold MaybeData.get_mut_or_init_with, slot_of.
    by destruct (l !! to). }
  unfold moved. rewrite Hb.
  destruct (N.compare_spec b amount) as [->|Hlt|Hgt]; [|lia|].
  - cbn [obind]. rewrite Hto. unfold balance_add. rewrite decide_True by lia. cbn [obind].
    by rewrite decide_True by done.
  - unfold balance_sub. rewrite decide_True by lia. cbn [obind]. rewrite Hto.
    unfold balance_add. rewrite decide_True by lia. cbn [obind].
    rewrite (decide_False (P := b = amount)) by lia. unfold store, slot_of. rewrite Hf. cbn. done.
Qed.

(** The addresses handed out on a shard other than the first have the low half of the
    number of the allocation. *)
Lemma allocated_low s k l st i a :
  (s <= Shard.MAX_SHARD_INDEX)%N -> s <> 0%N -> shard_allocations s k = Ret (l, st) ->
  l !! i = Some a -> (1 + N.of_nat i < 2 ^ 64)%N ->
  eq_ref a (from_u128 (1 + N.of_nat i)) = true /\ eqb a (from_u128 (1 + N.of_nat i)) = false.
Proof.
  intros Hs Hs0 Hr Hi Hlt. destruct (shard_allocations_spec s k Hs) as (l' & st' & Hr' & _ & Hl).
  rewrite Hr in Hr'. injection Hr' as <- <-. destruct (Hl i a Hi) as [-> Hb]. split.
  - unfold eq_ref, from_u128. cbn [addr_0]. apply N.eqb_eq.
    replace (2 ^ 108)%N with (2 ^ 44 * 2 ^ 64)%N by done. rewrite N.mul_assoc.
    by rewrite (N.add_comm (_ * 2 ^ 64)), N.Div0.mod_add.
  - apply bool_decide_eq_false. intros He. apply (f_equal to_u128) in He. rewrite !to_from_u128 in He.
    assert (Hz : reverse_bits_acc 20 s 0 = 0%N) by nia.
    assert (Hz' : reverse_bits_acc 20 s 0 = reverse_bits_acc 20 0 0) by (by rewrite Hz).
    unfold Shard.MAX_SHARD_INDEX, Shard.MAX_SHARDS in *.
    apply reverse_bits_acc_inj in Hz' as [? _]; [done| |]; change (N.of_nat 20) with 20%N; lia.
Qed.

(** ** Properties *)

(** A call of the token's [transfer] never overflows and never changes the total
    supply; it succeeds exactly when the caller is authorized, the owners differ and the
    balance suffices, and then moves exactly the amount; in every other case the ledger
    is unchanged and the error is the one the code gives for the case. *)
Theorem token_transfer_correct env l from to amount :
  (total l < 2 ^ 128)%N ->
  exists l' r, call_transfer env l from to amount = Ret (l', r) /\ total l' = total l /\
  match r with
  | Ok _ =>
      may_transfer env from = true /\ from <> to /\ (amount <= fungible_balance l from)%N /\
      fungible_balance l' from = (fungible_balance l from - amount)%N /\
      fungible_balance l' to = (fungible_balance l to + amount)%N /\
      (forall a, a <> from -> a <> to -> l' !! a = l !! a)
  | Err e =>
      l' = l /\
      (e = Forbidden /\ (from = to \/ may_transfer env from = false) \/
       e = BadInput /\ (l !! from = None \/ (fungible_balance l from < amount)%N))
  end.
Proof.
  intros Ht. destruct (decide (from = to)) as [->|Hne].
  { exists l, (Err Forbidden). unfold call_transfer. rewrite decide_True by done. naive_solver. }
  rewrite (transfer_spec env l from to amount Ht Hne).
  destruct (may_transfer env from); [|do 2 eexists; split; [done|]; naive_solver].
  destruct (l !! from) as [b|] eqn:Hf; [|do 2 eexists; split; [done|]; naive_solver].
  assert (Hb : fungible_balance l from = b) by (by rewrite fungible_balance_lookup, Hf).
  destruct (decide (amount <= b)%N) as [Hle|Hgt].
  2: { do 2 eexists. split; [done|]. split; [done|]. split; [done|]. right. split; [done|]. right. lia. }
  do 2 eexists. split; [done|]. split; [apply total_moved; [done|lia]|].
  split_and!; [done|done|lia|..].
  - rewrite !fungible_balance_lookup. unfold moved. rewrite lookup_insert_ne by done. rewrite Hb, Hf. cbn.
    destruct (decide _) as [E|E]; [rewrite lookup_delete_eq; cbn; lia|by rewrite lookup_insert_eq].
  - rewrite (fungible_balance_lookup (moved _ _ _ _)). unfold moved. by rewrite lookup_insert_eq.
  - intros a H1 H2. unfold moved. rewrite lookup_insert_ne by done.
    destruct (decide _); [by rewrite lookup_delete_ne|by rewrite lookup_insert_ne].
Qed.

(** [Fungible::transfer], which checks authorization and calls the contract's own
    [transfer] with its own address as caller, is equivalent to calling [transfer]
    directly. *)
Theorem fungible_transfer_equivalent env l from to amount :
  fungible_transfer env l from to amount = call_transfer env l from to amount.
Proof.
  unfold fungible_transfer. unfold call_transfer at 1 2, transfer.
  destruct (decide (from = to)) as [|Hne]; [by destruct (may_transfer env from)|].
  destruct (may_transfer env from); cbn [negb obind]; [|done].
  assert (Hn : may_transfer (nested_env (shard_index env) env (own_address env) Replace) from = true).
  { unfold may_transfer, nested_env, eqb. cbn. rewrite (bool_decide_true (own_address env = own_address env))
      by done. by rewrite !orb_true_r. }
  by rewrite Hn.
Qed.

(** Because the contracts compare the caller with a reference to an address, which
    looks at the low half only, the contract that is allocated [n]-th on a shard is taken
    for the system contract with address [n]: it may spend its tokens, replace its code
    and overwrite its state.  The fourth contract of a shard can so move the balance of
    the native token contract, which initially is the whole supply, to itself. *)
Theorem allocated_contract_acts_as_system s k l st i a env :
  (s <= Shard.MAX_SHARD_INDEX)%N -> s <> 0%N -> shard_allocations s k = Ret (l, st) ->
  l !! i = Some a -> (1 + N.of_nat i < 2 ^ 64)%N -> caller env = a ->
  let victim := from_u128 (1 + N.of_nat i) in
  a <> victim /\
  (forall balances amount, (total balances < 2 ^ 128)%N -> balances !! victim = Some amount ->
    exists balances', call_transfer env balances victim a amount = Ret (balances', Ok tt) /\
      fungible_balance balances' victim = 0%N) /\
  (forall slot code, VariableBytes.ok slot -> VariableBytes.ok code ->
    VariableBytes.size code <= VariableBytes.capacity slot ->
    exists slot', Code.store env victim slot code = Ret (Ok slot') /\
      State.write env victim slot code = Ret (Ok slot') /\
      VariableBytes.get_initialized slot' = VariableBytes.get_initialized code).
Proof.
  intros Hs Hs0 Hr Hi Hlt Hcaller victim.
  destruct (allocated_low s k l st i a Hs Hs0 Hr Hi Hlt) as [Href Hne]. fold victim in Href, Hne.
  apply bool_decide_eq_false in Hne. split; [done|]. split.
  - intros balances amount Ht Hv. eexists. rewrite transfer_spec by done.
    unfold may_transfer. rewrite Hcaller, Href, orb_true_r. cbn [orb]. rewrite Hv, decide_True by lia.
    split; [done|]. rewrite fungible_balance_lookup. unfold moved. rewrite lookup_insert_ne by done.
    rewrite decide_True by (by rewrite fungible_balance_lookup, Hv). by rewrite lookup_delete_eq.
  - intros slot code Hslot Hcode Hfit.
    destruct (VariableBytes.copy_from_spec slot code Hslot Hcode) as (slot' & E & _ & _ & G).
    rewrite bool_decide_eq_true_2 in E by done. rewrite decide_True in G by done.
    exists slot'. unfold Code.store, State.write.
    rewrite Hcaller, Href, !orb_true_r. cbn [negb]. rewrite E. done.
Qed.

(** The state contract: only a caller whose address matches may write; the write
    replaces the contents or, when they do not fit, fails; [initialize] requires an empty
    state; [compare_and_write] writes exactly when the present contents are the expected
    ones, and reports whether it did. *)
Theorem state_contract_correct env a state old new_state :
  VariableBytes.ok state -> VariableBytes.ok old -> VariableBytes.ok new_state ->
  let fits := VariableBytes.size new_state <= VariableBytes.capacity state in
  (eq_ref (caller env) a = false ->
    State.write env a state new_state = Ret (Err Forbidden) /\
    State.compare_and_write env a state old new_state = Ret (Err Forbidden)) /\
  (State.is_empty state = false -> State.initialize env a state new_state = Ret (Err Conflict)) /\
  (State.is_empty state = true ->
    State.initialize env a state new_state = State.write env a state new_state) /\
  (eq_ref (caller env) a = true -> ~ fits ->
    State.write env a state new_state = Ret (Err BadInput)) /\
  (eq_ref (caller env) a = true -> fits ->
    exists state', State.write env a state new_state = Ret (Ok state') /\ VariableBytes.ok state' /\
      VariableBytes.get_initialized state' = VariableBytes.get_initialized new_state /\
      (VariableBytes.get_initialized state = VariableBytes.get_initialized old ->
        State.compare_and_write env a state old new_state = Ret (Ok (state', true)))) /\
  (eq_ref (caller env) a = true ->
    VariableBytes.get_initialized state <> VariableBytes.get_initialized old ->
    State.compare_and_write env a state old new_state = Ret (Ok (state, false))).
Proof.
  intros Hs Ho Hn fits.
  destruct (VariableBytes.copy_from_spec state new_state Hs Hn) as (state' & E & Hok & _ & G).
  pose proof (VariableBytes.get_initialized_ok _ Hs) as Gs.
  pose proof (VariableBytes.get_initialized_ok _ Ho) as Go.
  unfold State.initialize, State.compare_and_write, State.write. rewrite E, Gs, Go. cbn [obind].
  split_and!.
  - intros ->. done.
  - intros ->. done.
  - intros ->. done.
  - intros -> Hf. cbn. by rewrite bool_decide_eq_false_2.
  - intros -> Hf. cbn. rewrite bool_decide_eq_true_2 by done. exists state'. split; [done|].
    split; [done|]. split; [by rewrite G, decide_True by done|]. intros Heq. injection Heq as Heq.
    by rewrite decide_False by (intros Hne; by apply Hne).
  - intros -> Hne. cbn. rewrite decide_True; [done|]. congruence.
Qed.

(** ** Witnesses *)

Definition sample_contract : address := from_u128 (to_u128 (system_address_allocator 1) + 4).

(** The environment of a direct call by [sample_contract] to the token. *)
Definition sample_env : env_state :=
  nested_env 1
    {| shard_index := 1; own_address := sample_contract; context := NULL; caller := NULL |}
    SYSTEM_NATIVE_TOKEN Reset.

Definition sample_ledger : ledger := {[ SYSTEM_NATIVE_TOKEN := 1000%N ]}.

Lemma token_transfer_correct_witness :
  exists l' r, call_transfer sample_env sample_ledger SYSTEM_NATIVE_TOKEN SYSTEM_BLOCK 7 = Ret (l', r) /\
    total l' = 1000%N.
Proof.
  destruct (token_transfer_correct sample_env sample_ledger SYSTEM_NATIVE_TOKEN SYSTEM_BLOCK 7)
    as (l' & r & Hc & Ht & _); [vm_compute; reflexivity|].
  exists l', r. split; [exact Hc|]. rewrite Ht. vm_compute. reflexivity.
Defined.

Lemma allocated_contract_acts_as_system_witness :
  exists balances', call_transfer sample_env sample_ledger SYSTEM_NATIVE_TOKEN sample_contract 1000 =
      Ret (balances', Ok tt) /\ fungible_balance balances' SYSTEM_NATIVE_TOKEN = 0%N.
Proof.
  destruct (shard_allocations 1 4) as [[l st]|] eqn:Hr; [|vm_compute in Hr; discriminate].
  assert (Hi : l !! 3 = Some sample_contract).
  { vm_compute in Hr. injection Hr as <- _. vm_compute. reflexivity. }
  destruct (allocated_contract_acts_as_system 1 4 l st 3 sample_contract sample_env) as (_ & Ht & _);
    [vm_compute; discriminate|discriminate|exact Hr|exact Hi|vm_compute; reflexivity|reflexivity|].
  apply (Ht sample_ledger 1000%N); vm_compute; reflexivity.
Defined.

Definition sample_bytes (l : list byte) (cap : nat) : VariableBytes.t :=
  {| VariableBytes.bytes := l ++ replicate (cap - length l) x00; VariableBytes.size := length l;
     VariableBytes.capacity := cap |}.

Lemma state_contract_correct_witness :
  exists state', State.write sample_env sample_contract (sample_bytes [x01] 4) (sample_bytes [x02; x03] 2) =
      Ret (Ok state') /\ VariableBytes.get_initialized state' = Ret [x02; x03].
Proof.
  destruct (state_contract_correct sample_env sample_contract (sample_bytes [x01] 4) (sample_bytes [x01] 1)
    (sample_bytes [x02; x03] 2)) as (_ & _ & _ & _ & Hw & _); [split; cbn; lia..|].
  destruct Hw as (state' & Hw & _ & Hg & _); [vm_compute; reflexivity|cbn; lia|].
  exists state'. split; [exact Hw|exact Hg].
Defined.
End SystemContracts.
