(* ===== verification/Slots.v ===== *)
(** * Storage slots of the execution environment

    Model of [crates/execution/ab-executor-slots/src/lib.rs].  [Inner] is the record
    [inner]; a [NestedSlots] is the data it holds besides the borrowed [Inner]
    ([nested]); operations take and return the [Inner].  Because a nested instance
    borrows its parent, the live instances form a stack, with read-only ones on top,
    modelled as a [session]. *)

From S2P Require Import Prelude AlignedBuffer Address.
From stdpp Require Import prelude.
From Stdlib Require Import NArith Lia.
From Stdlib Require Import Strings.Byte.

Module Slots.
Import AlignedBuffer Address.

Record slot_key : Type := SlotKey { owner : address; contract : address }.

#[export] Instance slot_key_eq_dec : EqDecision slot_key.
Proof. solve_decision. Defined.

(** [Slot], the input of [Slots::new]. *)
Inductive slot : Type :=
| ReadOnlySlot (key : slot_key) (b : buffer)
| ReadWriteSlot (key : slot_key) (b : buffer).

Inductive slot_state : Type :=
| Original (b : buffer)
| OriginalReadOnly (b : buffer)
| Modified (b : buffer)
| ModifiedReadOnly (b : buffer)
| OriginalReadWrite (b previous : buffer)
| ModifiedReadWrite (b previous : buffer).

Record slot_access : Type := SlotAccess { slot_index : nat; read_write : bool }.

Record inner : Type := Inner {
  slots : list (slot_key * slot_state);
  accesses : list slot_access;
  new_contracts : list address
}.

Definition with_slots (i : inner) (s : list (slot_key * slot_state)) : inner :=
  {| slots := s; accesses := accesses i; new_contracts := new_contracts i |}.

Definition with_accesses (i : inner) (a : list slot_access) : inner :=
  {| slots := slots i; accesses := a; new_contracts := new_contracts i |}.

Definition slot_contract (s : slot) : address :=
  match s with ReadOnlySlot key _ | ReadWriteSlot key _ => contract key end.

Definition is_null_contract (s : slot) : bool := eqb (slot_contract s) NULL.

Definition initial_state (s : slot) : slot_key * slot_state :=
  match s with
  | ReadOnlySlot key b => (key, OriginalReadOnly b)
  | ReadWriteSlot key b => (key, Original b)
  end.

(** [Slots::new] *)
Definition new (input : list slot) : inner :=
  {| slots := initial_state <$> filter (fun s => is_null_contract s = false) input;
     accesses := []; new_contracts := [] |}.

(** [NestedSlotsInner] without the borrow. *)
Inductive nested : Type :=
| ReadWrite (parent_slot_access_len : nat) (original_parent : bool)
| ReadOnly.

(** [Slots::new_nested_rw] and [Slots::new_nested_ro] *)
Definition root_nested_rw : nested := ReadWrite 0 true.
Definition root_nested_ro : nested := ReadOnly.

(** [NestedSlots::new_nested_rw] and [NestedSlots::new_nested_ro] *)
Definition new_nested_rw (n : nested) (i : inner) : option nested :=
  match n with
  | ReadWrite _ _ => Some (ReadWrite (length (accesses i)) false)
  | ReadOnly => None
  end.

Definition new_nested_ro (n : nested) : nested := ReadOnly.

(** [Slots::add_new_contract] *)
Definition push_new_contract (i : inner) (a : address) : bool * inner :=
  if bool_decide (a ∈ new_contracts i) then (false, i)
  else (true, {| slots := slots i; accesses := accesses i;
                 new_contracts := new_contracts i ++ [a] |}).

(** [NestedSlots::add_new_contract] *)
Definition add_new_contract (n : nested) (i : inner) (a : address) : bool * inner :=
  match n with
  | ReadWrite _ _ => push_new_contract i a
  | ReadOnly => (false, i)
  end.

(** [slots.iter().position(|(candidate, _)| candidate == &slot_key)] *)
Definition find_slot (key : slot_key) (s : list (slot_key * slot_state)) : option nat :=
  fst <$> list_find (fun p => p.1 = key) s.

(** [slot_access.iter().find_map(...)]: how the slot is being accessed. *)
Definition find_access (idx : nat) (a : list slot_access) : option bool :=
  (read_write ∘ snd) <$> list_find (fun x => slot_index x = idx) a.

(** Keys that are not there may still be used: ephemeral ones, and those related to
    a contract created in this transaction. *)
Definition may_create (key : slot_key) (contracts : list address) : bool :=
  eqb (contract key) NULL ||
  existsb (fun candidate => eq_ref candidate (owner key) || eq_ref candidate (contract key))
    contracts.

Definition get_code (i : inner) (a : address) : outcome (option buffer) :=
  match find_slot {| owner := a; contract := SYSTEM_CODE |} (slots i) with
  | None => Ret None
  | Some idx =>
      if existsb (fun x => bool_decide (slot_index x = idx) && read_write x) (accesses i)
      then Ret None
      else
        let! (_, st) := arr_get (slots i) idx in
        match st with
        | Original b | OriginalReadOnly b | Modified b | ModifiedReadOnly b => Ret (Some b)
        | OriginalReadWrite _ _ | ModifiedReadWrite _ _ => Ret None
        end
  end.

(** The state change of a read access: the new state and what is read. *)
Definition read_state (st : slot_state) : slot_state * option buffer :=
  match st with
  | Original b => (OriginalReadOnly b, Some b)
  | OriginalReadOnly b | ModifiedReadOnly b => (st, Some b)
  | Modified b => (ModifiedReadOnly b, Some b)
  | OriginalReadWrite _ _ | ModifiedReadWrite _ _ => (st, None)
  end.

Definition use_ro_internal (i : inner) (key : slot_key) : outcome (option buffer * inner) :=
  match find_slot key (slots i) with
  | Some idx =>
      match find_access idx (accesses i) with
      | Some true => Ret (None, i)
      | found =>
          let i :=
            match found with
            | Some _ => i
            | None => with_accesses i (accesses i ++ [SlotAccess idx false])
            end in
          let! (k, st) := arr_get (slots i) idx in
          let (st', result) := read_state st in
          let! s := arr_set (slots i) idx (k, st') in
          Ret (result, with_slots i s)
      end
  | None =>
      if may_create key (new_contracts i) then
        Ret (Some empty,
             {| slots := slots i ++ [(key, OriginalReadOnly empty)];
                accesses := accesses i ++ [SlotAccess (length (slots i)) false];
                new_contracts := new_contracts i |})
      else Ret (None, i)
  end.

Definition use_ro_internal_read_only (i : inner) (key : slot_key) : outcome (option buffer) :=
  match find_slot key (slots i) with
  | Some idx =>
      match find_access idx (accesses i) with
      | Some true => Ret None
      | _ => let! (_, st) := arr_get (slots i) idx in Ret (snd (read_state st))
      end
  | None => Ret (if may_create key (new_contracts i) then Some empty else None)
  end.

Definition use_ro (n : nested) (i : inner) (key : slot_key) : outcome (option buffer * inner) :=
  match n with
  | ReadWrite _ _ => use_ro_internal i key
  | ReadOnly => let! r := use_ro_internal_read_only i key in Ret (r, i)
  end.

(** A copy to write to, with at least [capacity] bytes. *)
Definition writable_copy (b : buffer) (capacity : N) : outcome buffer :=
  let! bytes := as_slice b in
  copy_from_slice (with_capacity (N.max capacity (buf_len b))) bytes.

(** The state change of a write access; [None] when a reader holds the slot. *)
Definition write_state (st : slot_state) (capacity : N)
    : outcome (option (slot_state * buffer)) :=
  match st with
  | OriginalReadOnly _ | ModifiedReadOnly _ => Ret None
  | Original b =>
      let! copy := writable_copy b capacity in Ret (Some (OriginalReadWrite copy b, copy))
  | Modified b =>
      let! copy := writable_copy b capacity in Ret (Some (ModifiedReadWrite copy b, copy))
  | OriginalReadWrite b previous =>
      let b := ensure_capacity b capacity in Ret (Some (OriginalReadWrite b previous, b))
  | ModifiedReadWrite b previous =>
      let b := ensure_capacity b capacity in Ret (Some (ModifiedReadWrite b previous, b))
  end.

(** The access is recorded before the state is looked at. *)
Definition use_rw_internal (i : inner) (key : slot_key) (capacity : N)
    : outcome (option (nat * buffer) * inner) :=
  match find_slot key (slots i) with
  | Some idx =>
      if existsb (fun x => bool_decide (slot_index x = idx)) (accesses i) then Ret (None, i)
      else
        let i := with_accesses i (accesses i ++ [SlotAccess idx true]) in
        let! (k, st) := arr_get (slots i) idx in
        let! written := write_state st capacity in
        match written with
        | None => Ret (None, i)
        | Some (st', b) =>
            let! s := arr_set (slots i) idx (k, st') in
            Ret (Some (idx, b), with_slots i s)
        end
  | None =>
      if may_create key (new_contracts i) then
        let idx := length (slots i) in
        let b := with_capacity capacity in
        Ret (Some (idx, b),
             {| slots := slots i ++ [(key, OriginalReadWrite b empty)];
                accesses := accesses i ++ [SlotAccess idx true];
                new_contracts := new_contracts i |})
      else Ret (None, i)
  end.

Definition use_rw (n : nested) (i : inner) (key : slot_key) (capacity : N)
    : outcome (option (nat * buffer) * inner) :=
  match n with
  | ReadWrite _ _ => use_rw_internal i key capacity
  | ReadOnly => Ret (None, i)
  end.

Definition access_used_rw (n : nested) (i : inner) (idx : nat) : option buffer :=
  match n with
  | ReadOnly => None
  | ReadWrite _ _ =>
      match slots i !! idx with
      | Some (_, (OriginalReadWrite b _ | ModifiedReadWrite b _)) => Some b
      | _ => None
      end
  end.

(** Writing through the reference that [use_rw] or [access_used_rw] returned. *)
Definition write_used (n : nested) (i : inner) (idx : nat) (b : buffer) : bool * inner :=
  match access_used_rw n i idx with
  | None => (false, i)
  | Some _ =>
      let update (p : slot_key * slot_state) :=
        match p with
        | (k, OriginalReadWrite _ previous) => (k, OriginalReadWrite b previous)
        | (k, ModifiedReadWrite _ previous) => (k, ModifiedReadWrite b previous)
        | _ => p
        end in
      (true, with_slots i (alter update idx (slots i)))
  end.

(** What a finished access leaves behind, on [drop] and on [reset]. *)
Definition commit_state (st : slot_state) : outcome slot_state :=
  match st with
  | Original _ => Fault
  | OriginalReadOnly b => Ret (Original b)
  | Modified b => Ret (Modified b)
  | ModifiedReadOnly b => Ret (Modified b)
  | OriginalReadWrite b _ | ModifiedReadWrite b _ => Ret (Modified b)
  end.

Definition reset_state (st : slot_state) : outcome slot_state :=
  match st with
  | Original _ => Fault
  | OriginalReadOnly b => Ret (Original b)
  | Modified b => Ret (Modified b)
  | ModifiedReadOnly b => Ret (Modified b)
  | OriginalReadWrite _ previous => Ret (Original previous)
  | ModifiedReadWrite _ previous => Ret (Modified previous)
  end.

Fixpoint settle (f : slot_state -> outcome slot_state) (drained : list slot_access)
    (s : list (slot_key * slot_state)) : outcome (list (slot_key * slot_state)) :=
  match drained with
  | [] => Ret s
  | a :: drained =>
      let! (k, st) := arr_get s (slot_index a) in
      let! st := f st in
      let! s := arr_set s (slot_index a) (k, st) in
      settle f drained s
  end.

(** [slot_access.drain(len..)] panics when there are fewer than [len]. *)
Definition drain (len : nat) (a : list slot_access)
    : outcome (list slot_access * list slot_access) :=
  if decide (len <= length a) then Ret (take len a, drop len a) else Fault.

Definition is_ephemeral (p : slot_key * slot_state) : bool := eqb (contract p.1) NULL.

(** [Drop for NestedSlots] *)
Definition drop_nested (n : nested) (i : inner) : outcome inner :=
  match n with
  | ReadOnly => Ret i
  | ReadWrite len original_parent =>
      let! (kept, drained) := drain len (accesses i) in
      let! s := settle commit_state drained (slots i) in
      let s := if original_parent then filter (fun p => is_ephemeral p = false) s else s in
      Ret {| slots := s; accesses := kept; new_contracts := new_contracts i |}
  end.

Definition reset (n : nested) (i : inner) : outcome (nested * inner) :=
  match n with
  | ReadOnly => Ret (n, i)
  | ReadWrite len original_parent =>
      let! (kept, drained) := drain len (accesses i) in
      let! s := settle reset_state drained (slots i) in
      Ret (ReadWrite 0 original_parent,
           {| slots := s; accesses := kept; new_contracts := new_contracts i |})
  end.

(** [Slots::iter] and [Slots::into_slots]; [Fault] is [unreachable!]. *)
Fixpoint iter (s : list (slot_key * slot_state)) : outcome (list (slot_key * buffer)) :=
  match s with
  | [] => Ret []
  | (k, (Original b | Modified b)) :: s => let! rest := iter s in Ret ((k, b) :: rest)
  | _ => Fault
  end.

Definition into_slots (i : inner) : outcome (list (slot_key * buffer)) := iter (slots i).

Fixpoint iter_modified (s : list (slot_key * slot_state)) : outcome (list (slot_key * buffer)) :=
  match s with
  | [] => Ret []
  | (_, Original _) :: s => iter_modified s
  | (k, Modified b) :: s => let! rest := iter_modified s in Ret ((k, b) :: rest)
  | _ => Fault
  end.

(** ** Sessions *)

(** The live instances, innermost first. *)
Record session : Type := Session { s_inner : inner; s_frames : list nested }.

Inductive slots_op : Type :=
| OpUseRo (key : slot_key)
| OpUseRw (key : slot_key) (capacity : N)
| OpWrite (idx : nat) (b : buffer)
| OpAddContract (a : address)
| OpGetCode (a : address)
| OpOpen
| OpOpenRo
| OpReset
| OpDrop.

(** One call on the innermost instance, or on [Slots] itself when there is none. *)
Definition run_op (s : session) (op : slots_op) : outcome session :=
  match s_frames s with
  | [] =>
      match op with
      | OpOpen => Ret (Session (s_inner s) [root_nested_rw])
      | OpOpenRo => Ret (Session (s_inner s) [root_nested_ro])
      | OpAddContract a => Ret (Session (snd (push_new_contract (s_inner s) a)) [])
      | OpGetCode a => let! _ := get_code (s_inner s) a in Ret s
      | _ => Ret s
      end
  | n :: rest =>
      let i := s_inner s in
      match op with
      | OpUseRo key => let! (_, i) := use_ro n i key in Ret (Session i (n :: rest))
      | OpUseRw key capacity =>
          let! (_, i) := use_rw n i key capacity in Ret (Session i (n :: rest))
      | OpWrite idx b => Ret (Session (snd (write_used n i idx b)) (n :: rest))
      | OpAddContract a => Ret (Session (snd (add_new_contract n i a)) (n :: rest))
      | OpGetCode a => let! _ := get_code i a in Ret s
      | OpOpen =>
          match new_nested_rw n i with
          | Some child => Ret (Session i (child :: n :: rest))
          | None => Ret s
          end
      | OpOpenRo => Ret (Session i (new_nested_ro n :: n :: rest))
      | OpReset => let! (n, i) := reset n i in Ret (Session i (n :: rest))
      | OpDrop => let! i := drop_nested n i in Ret (Session i rest)
      end
  end.

Fixpoint run_ops (s : session) (ops : list slots_op) : outcome session :=
  match ops with
  | [] => Ret s
  | op :: ops => let! s := run_op s op in run_ops s ops
  end.

Definition open_session (input : list slot) : session := Session (new input) [root_nested_rw].

(** ** The invariant *)

(** The bytes a slot has if the access in progress is abandoned, and those it has if
    it is completed. *)
Definition committed (st : slot_state) : buffer :=
  match st with
  | Original b | OriginalReadOnly b | Modified b | ModifiedReadOnly b => b
  | OriginalReadWrite _ previous | ModifiedReadWrite _ previous => previous
  end.

Definition current (st : slot_state) : buffer :=
  match st with
  | Original b | OriginalReadOnly b | Modified b | ModifiedReadOnly b => b
  | OriginalReadWrite b _ | ModifiedReadWrite b _ => b
  end.

Definition being_written (st : slot_state) : bool :=
  match st with OriginalReadWrite _ _ | ModifiedReadWrite _ _ => true | _ => false end.

(** States that only exist while an access is recorded. *)
Definition in_use (st : slot_state) : bool :=
  match st with
  | OriginalReadWrite _ _ | ModifiedReadWrite _ _ | ModifiedReadOnly _ => true
  | _ => false
  end.

(** The states an access of this kind can find. *)
Definition access_matches (rw : bool) (st : slot_state) : bool :=
  match st with
  | OriginalReadOnly _ => true
  | ModifiedReadOnly _ => negb rw
  | OriginalReadWrite _ _ | ModifiedReadWrite _ _ => rw
  | Original _ | Modified _ => false
  end.

Definition is_buffer (b : buffer) : Prop := exists bytes, holds b bytes.

Definition state_ok (st : slot_state) : Prop := is_buffer (committed st) /\ is_buffer (current st).

Record inner_ok (i : inner) : Prop := {
  ok_keys : NoDup (slots i).*1;
  ok_indices : NoDup (slot_index <$> accesses i);
  ok_accesses : forall a, a ∈ accesses i ->
    exists k st, slots i !! slot_index a = Some (k, st) /\ access_matches (read_write a) st = true;
  ok_in_use : forall idx k st, slots i !! idx = Some (k, st) -> in_use st = true ->
    idx ∈ slot_index <$> accesses i;
  ok_buffers : forall idx k st, slots i !! idx = Some (k, st) -> state_ok st
}.

(** Each instance started with at most as many accesses as the ones above it see. *)
Fixpoint frames_ok (bound : nat) (frames : list nested) : Prop :=
  match frames with
  | [] => bound = 0
  | ReadWrite len original_parent :: rest =>
      len <= bound /\ original_parent = bool_decide (rest = []) /\ frames_ok len rest
  | ReadOnly :: rest => frames_ok bound rest
  end.

Definition session_ok (s : session) : Prop :=
  inner_ok (s_inner s) /\
  match s_frames s with
  | [] => accesses (s_inner s) = []
  | frames => frames_ok (length (accesses (s_inner s))) frames
  end.

(** Arguments within the types *)
Definition args_ok (op : slots_op) : Prop :=
  match op with
  | OpUseRw _ capacity => (capacity <= u32_max)%N
  | OpWrite _ b => is_buffer b
  | _ => True
  end.

(** Arguments within the types, and no [reset] of an instance whose parents have
    accesses in progress. *)
Definition op_allowed (s : session) (op : slots_op) : Prop :=
  args_ok op /\
  match op, s_frames s with
  | OpReset, ReadWrite len _ :: _ => len = 0
  | _, _ => True
  end.

Definition input_key (s : slot) : slot_key :=
  match s with ReadOnlySlot k _ | ReadWriteSlot k _ => k end.

Definition input_buffer (s : slot) : buffer :=
  match s with ReadOnlySlot _ b | ReadWriteSlot _ b => b end.

Definition is_read_only (s : slot) : bool :=
  match s with ReadOnlySlot _ _ => true | ReadWriteSlot _ _ => false end.

Definition input_ok (input : list slot) : Prop :=
  NoDup (input_key <$> input) /\ Forall (fun s => is_buffer (input_buffer s)) input.

Inductive reachable (input : list slot) : session -> Prop :=
| reach_open : reachable input (open_session input)
| reach_step s op s' :
    reachable input s -> op_allowed s op -> run_op s op = Ret s' -> reachable input s'.

(** With any resets *)
Inductive reachable_any (input : list slot) : session -> Prop :=
| reach_any_open : reachable_any input (open_session input)
| reach_any_step s op s' :
    reachable_any input s -> args_ok op -> run_op s op = Ret s' -> reachable_any input s'.

(** An instance is finished that was opened with more accesses than are left. *)
Definition drains_missing (s : session) (op : slots_op) : Prop :=
  (op = OpReset \/ op = OpDrop) /\
  exists len o rest, s_frames s = ReadWrite len o :: rest /\ length (accesses (s_inner s)) < len.

(** What all sessions keep *)
Definition frame_root_ok (n : nested) : Prop :=
  match n with ReadWrite len true => len = 0 | _ => True end.

Definition weak_ok (s : session) : Prop := inner_ok (s_inner s) /\ Forall frame_root_ok (s_frames s).

(** ** Lookup lemmas *)

Lemma find_slot_Some key s idx :
  find_slot key s = Some idx -> exists st, s !! idx = Some (key, st).
Proof.
  unfold find_slot. destruct (list_find _ s) as [[j [k st]]|] eqn:Hf; [|done].
  intros [= <-]. apply list_find_Some in Hf as (Hj & Hk & _). simpl in *. subst. eauto.
Qed.

Lemma find_slot_None key s : find_slot key s = None -> key ∉ s.*1.
Proof.
  unfold find_slot. destruct (list_find _ s) as [[j p]|] eqn:Hf; [done|]. intros _ Hin.
  apply list_find_None in Hf. rewrite Forall_forall in Hf.
  apply list_elem_of_fmap in Hin as (p & -> & Hp). by apply (Hf p).
Qed.

Lemma find_access_Some idx a rw :
  find_access idx a = Some rw -> exists x, x ∈ a /\ slot_index x = idx /\ read_write x = rw.
Proof.
  unfold find_access. destruct (list_find _ a) as [[j x]|] eqn:Hf; [|done].
  intros [= <-]. apply list_find_Some in Hf as (Hj & Hx & _). exists x.
  split_and!; [by eapply list_elem_of_lookup_2|done|done].
Qed.

Lemma find_access_None idx a : find_access idx a = None -> idx ∉ slot_index <$> a.
Proof.
  unfold find_access. destruct (list_find _ a) as [[j x]|] eqn:Hf; [done|]. intros _ Hin.
  apply list_find_None in Hf. rewrite Forall_forall in Hf.
  apply list_elem_of_fmap in Hin as (x & -> & Hx). by apply (Hf x).
Qed.

Lemma existsb_access idx a :
  existsb (fun x => bool_decide (slot_index x = idx)) a = bool_decide (idx ∈ slot_index <$> a).
Proof.
  symmetry. destruct (existsb _ a) eqn:He.
  - apply bool_decide_eq_true. apply existsb_exists in He as (x & Hx & Hi%bool_decide_eq_true).
    apply list_elem_of_fmap. exists x. split; [done|]. by apply list_elem_of_In.
  - apply bool_decide_eq_false. intros (x & -> & Hx)%list_elem_of_fmap.
    apply not_true_iff_false in He. apply He, existsb_exists. exists x.
    split; [by apply list_elem_of_In|by apply bool_decide_eq_true].
Qed.

(** ** Preservation *)

(** Recording an access appends at most one entry. *)
Definition extends (i i' : inner) : Prop :=
  exists more, accesses i' = accesses i ++ more.

Lemma extends_refl i : extends i i.
Proof. exists []. by rewrite app_nil_r. Qed.

Lemma fmap_insert_same {A B} (f : A -> B) (l : list A) idx x :
  f <$> l !! idx = Some (f x) -> f <$> <[idx := x]> l = f <$> l.
Proof.
  intros Hx. rewrite list_fmap_insert. apply list_insert_id. by rewrite list_lookup_fmap.
Qed.

Lemma alter_insert {A} (f : A -> A) (l : list A) idx x :
  l !! idx = Some x -> alter f idx l = <[idx := f x]> l.
Proof.
  intros Hx. rewrite list_insert_alter. apply list_alter_ext; [|done]. intros y Hy. by simplify_eq.
Qed.

(** The state of one slot changes, with or without a new access to it. *)
Lemma inner_ok_touch i idx k st st' acc :
  inner_ok i -> slots i !! idx = Some (k, st) -> state_ok st' ->
  acc = accesses i \/ (exists rw, acc = accesses i ++ [SlotAccess idx rw] /\
                        idx ∉ slot_index <$> accesses i) ->
  (forall a, a ∈ acc -> slot_index a = idx -> access_matches (read_write a) st' = true) ->
  (in_use st' = true -> idx ∈ slot_index <$> acc) ->
  inner_ok {| slots := <[idx := (k, st')]> (slots i); accesses := acc;
              new_contracts := new_contracts i |}.
Proof.
  intros Hok Hst Hst' Hacc Hmatch Huse. split; cbn [slots accesses].
  - rewrite fmap_insert_same by (by rewrite Hst). apply Hok.
  - destruct Hacc as [->|(rw & -> & Hnot)]; [apply Hok|]. rewrite fmap_app.
    apply NoDup_app. split_and!; [apply Hok| |apply NoDup_singleton].
    intros x Hx. simpl. rewrite list_elem_of_singleton. congruence.
  - intros a Ha. destruct (decide (slot_index a = idx)) as [He|Hne].
    + rewrite He, list_lookup_insert_eq by (by eapply lookup_lt_Some). eauto.
    + rewrite list_lookup_insert_ne by congruence. apply Hok.
      destruct Hacc as [->|(rw & -> & _)]; [done|].
      apply elem_of_app in Ha as [Ha|Ha%list_elem_of_singleton]; [done|]. by subst a.
  - intros j k' st'' Hj Hu. destruct (decide (j = idx)) as [->|Hne].
    + rewrite list_lookup_insert_eq in Hj by (by eapply lookup_lt_Some). simplify_eq. by apply Huse.
    + rewrite list_lookup_insert_ne in Hj by congruence. pose proof (ok_in_use i Hok j k' st'' Hj Hu) as Hin.
      destruct Hacc as [->|(rw & -> & _)]; [done|]. rewrite fmap_app. apply elem_of_app. by left.
  - intros j k' st'' Hj. destruct (decide (j = idx)) as [->|Hne].
    + rewrite list_lookup_insert_eq in Hj by (by eapply lookup_lt_Some). by simplify_eq.
    + rewrite list_lookup_insert_ne in Hj by congruence. by eapply ok_buffers.
Qed.

Lemma lookup_snoc {A} (l : list A) x j y :
  (l ++ [x]) !! j = Some y -> (j < length l /\ l !! j = Some y) \/ (j = length l /\ y = x).
Proof.
  intros Hj. apply lookup_app_Some in Hj as [Hj|[Hle Hj]].
  - left. split; [by eapply lookup_lt_Some|done].
  - right. apply list_lookup_singleton_Some in Hj as [Hz ->]. split; [lia|done].
Qed.

(** A slot is created by its first access. *)
Lemma inner_ok_push i key st rw :
  inner_ok i -> key ∉ (slots i).*1 -> state_ok st -> access_matches rw st = true ->
  inner_ok {| slots := slots i ++ [(key, st)];
              accesses := accesses i ++ [SlotAccess (length (slots i)) rw];
              new_contracts := new_contracts i |}.
Proof.
  intros Hok Hkey Hst Hm.
  assert (Hbound : forall a, a ∈ accesses i -> slot_index a < length (slots i)).
  { intros a Ha. destruct (ok_accesses i Hok a Ha) as (k & st0 & Hl & _). by eapply lookup_lt_Some. }
  split; cbn [slots accesses].
  - rewrite fmap_app. apply NoDup_app. split_and!; [apply Hok| |apply NoDup_singleton].
    intros x Hx. simpl. rewrite list_elem_of_singleton. congruence.
  - rewrite fmap_app. apply NoDup_app. split_and!; [apply Hok| |apply NoDup_singleton].
    intros x (a & -> & Ha)%list_elem_of_fmap. simpl. rewrite list_elem_of_singleton.
    specialize (Hbound a Ha). lia.
  - intros a [Ha|Ha%list_elem_of_singleton]%elem_of_app.
    + rewrite lookup_app_l by auto. by apply Hok.
    + subst a. cbn. rewrite lookup_app_r, Nat.sub_diag by lia. eauto.
  - intros j k st' Hj Hu. rewrite fmap_app, elem_of_app. apply lookup_snoc in Hj as [[_ Hj]|[-> Hj]].
    + left. by eapply ok_in_use.
    + right. by left.
  - intros j k st' Hj. apply lookup_snoc in Hj as [[_ Hj]|[-> Hj]]; [by eapply ok_buffers|by simplify_eq].
Qed.

Lemma empty_buffer : is_buffer empty.
Proof. exists []. by apply allocate_holds. Qed.

Lemma read_state_ok st : state_ok st -> state_ok (fst (read_state st)).
Proof. by destruct st. Qed.

Lemma read_state_matches st : being_written st = false -> access_matches false (fst (read_state st)) = true.
Proof. by destruct st. Qed.

Lemma use_ro_ok i key :
  inner_ok i ->
  exists r i', use_ro_internal i key = Ret (r, i') /\ inner_ok i' /\ extends i i'.
Proof.
  intros Hok. unfold use_ro_internal. destruct (find_slot key (slots i)) as [idx|] eqn:Hf.
  - destruct (find_slot_Some _ _ _ Hf) as [st Hst].
    destruct (find_access idx (accesses i)) as [[]|] eqn:Ha.
    + eexists _, _. split_and!; [done|done|apply extends_refl].
    + destruct (find_access_Some _ _ _ Ha) as (x & Hx & Hix & Hrw).
      destruct (ok_accesses i Hok x Hx) as (k' & st' & Hst' & Hm). rewrite Hix, Hrw in *. simplify_eq.
      rewrite (arr_get_Some _ _ _ Hst). cbn [obind].
      assert (Hsame : fst (read_state st) = st) by (by destruct st).
      destruct (read_state st) as [st'' r]. simpl in Hsame. subst st''.
      rewrite arr_set_lt by (by eapply lookup_lt_Some). cbn [obind].
      rewrite list_insert_id by done. eexists _, _. split_and!; [done|by destruct i|].
      exists []. by rewrite app_nil_r.
    + apply find_access_None in Ha. cbn [slots with_accesses]. rewrite (arr_get_Some _ _ _ Hst). cbn [obind].
      assert (Hnw : being_written st = false).
      { destruct (being_written st) eqn:E; [|done]. exfalso. apply Ha. eapply (ok_in_use i Hok); [done|].
        by destruct st. }
      pose proof (read_state_ok st (ok_buffers i Hok _ _ _ Hst)) as Hok'.
      pose proof (read_state_matches st Hnw) as Hm. destruct (read_state st) as [st' r]. simpl in Hok', Hm.
      rewrite arr_set_lt by (by eapply lookup_lt_Some). cbn [obind]. eexists _, _. split_and!; [done| |].
      * unfold with_slots, with_accesses. cbn [slots accesses new_contracts].
        eapply (inner_ok_touch i idx key st st'); [done|done|done|eauto| |].
        -- intros a [Hin|Hin%list_elem_of_singleton]%elem_of_app Hidx; [|by subst a].
           exfalso. apply Ha. apply list_elem_of_fmap. eauto.
        -- intros _. rewrite fmap_app, elem_of_app. right. by left.
      * by exists [SlotAccess idx false].
  - destruct (may_create key (new_contracts i)).
    + eexists _, _. split_and!; [done| |by eexists].
      apply inner_ok_push; [done|by apply find_slot_None| |done]. split; apply empty_buffer.
    + eexists _, _. split_and!; [done|done|apply extends_refl].
Qed.

Lemma writable_copy_ok b bytes capacity :
  holds b bytes -> (capacity <= u32_max)%N ->
  exists copy, writable_copy b capacity = Ret copy /\ holds copy bytes /\
    (capacity <= buf_capacity copy)%N.
Proof.
  intros Hb Hc. unfold writable_copy. rewrite (as_slice_holds b bytes Hb). cbn [obind].
  pose proof (holds_length b bytes Hb) as Hl. pose proof Hb as (_ & Hcap & _).
  destruct (copy_from_slice_holds (with_capacity (N.max capacity (buf_len b))) [] bytes)
    as (copy & -> & Hh & Hmono); [apply allocate_holds; lia|lia|].
  exists copy. split_and!; [done|done|]. cbn in Hmono. lia.
Qed.

Lemma write_state_ok st capacity :
  state_ok st -> being_written st = false -> (capacity <= u32_max)%N ->
  exists r, write_state st capacity = Ret r /\
    match r with
    | None => exists b, st = OriginalReadOnly b \/ st = ModifiedReadOnly b
    | Some (st', b) => state_ok st' /\ being_written st' = true /\ current st' = b /\
                       committed st' = committed st
    end.
Proof.
  intros [[bs Hb] Hcur] Hnw Hc. destruct st as [b|b|b|b|b p|b p]; try done; simpl in Hb |- *.
  - destruct (writable_copy_ok b bs capacity Hb Hc) as (copy & -> & Hh & _). cbn [obind].
    eexists. split; [done|]. split_and!; try done. split; eexists; done.
  - eexists. split; [done|]. simpl. eauto.
  - destruct (writable_copy_ok b bs capacity Hb Hc) as (copy & -> & Hh & _). cbn [obind].
    eexists. split; [done|]. split_and!; try done. split; eexists; done.
  - eexists. split; [done|]. simpl. eauto.
Qed.

Lemma written_matches st : being_written st = true -> access_matches true st = true.
Proof. by destruct st. Qed.

Lemma unaccessed_state i idx k st :
  inner_ok i -> slots i !! idx = Some (k, st) -> idx ∉ slot_index <$> accesses i ->
  in_use st = false.
Proof. intros Hok Hst Hn. destruct (in_use st) eqn:E; [|done]. by apply (ok_in_use i Hok) in Hst. Qed.

Lemma in_use_written st : in_use st = false -> being_written st = false.
Proof. by destruct st. Qed.

Lemma use_rw_ok i key capacity :
  inner_ok i -> (capacity <= u32_max)%N ->
  exists r i', use_rw_internal i key capacity = Ret (r, i') /\ inner_ok i' /\ extends i i'.
Proof.
  intros Hok Hcap. unfold use_rw_internal. destruct (find_slot key (slots i)) as [idx|] eqn:Hf.
  - destruct (find_slot_Some _ _ _ Hf) as [st Hst]. rewrite existsb_access.
    case_bool_decide as Hacc; [eexists _, _; split_and!; [done|done|apply extends_refl]|].
    pose proof (unaccessed_state i idx key st Hok Hst Hacc) as Hun.
    cbn [slots with_accesses]. rewrite (arr_get_Some _ _ _ Hst). cbn [obind].
    pose proof (ok_buffers i Hok _ _ _ Hst) as Hbuf.
    assert (Hnew : forall st', state_ok st' -> access_matches true st' = true -> inner_ok
      {| slots := <[idx := (key, st')]> (slots i);
         accesses := accesses i ++ [SlotAccess idx true]; new_contracts := new_contracts i |}).
    { intros st' Hok' Hm. eapply (inner_ok_touch i idx key st st'); [done|done|done|eauto| |].
      - intros a [Hin|Hin%list_elem_of_singleton]%elem_of_app Hidx; [|by subst a].
        exfalso. apply Hacc. apply list_elem_of_fmap. eauto.
      - intros _. rewrite fmap_app, elem_of_app. right. by left. }
    destruct (write_state_ok st capacity Hbuf (in_use_written st Hun) Hcap) as (r & -> & Hr). cbn [obind].
    destruct r as [[st' b]|].
    + destruct Hr as (Hok' & Hw & _ & _). rewrite arr_set_lt by (by eapply lookup_lt_Some). cbn [obind].
      eexists _, _. split_and!; [done| |by eexists]. by apply Hnew, written_matches.
    + eexists _, _. split_and!; [done| |by eexists]. unfold with_accesses.
      rewrite <- (list_insert_id (slots i) idx (key, st)) by done. apply Hnew; [done|].
      destruct Hr as [b [->| ->]]; done.
  - destruct (may_create key (new_contracts i)).
    + eexists _, _. split_and!; [done| |by eexists].
      apply inner_ok_push; [done|by apply find_slot_None| |done].
      split; [apply empty_buffer|]. exists []. by apply allocate_holds.
    + eexists _, _. split_and!; [done|done|apply extends_refl].
Qed.

Lemma write_used_ok n i idx b :
  inner_ok i -> is_buffer b ->
  inner_ok (snd (write_used n i idx b)) /\ accesses (snd (write_used n i idx b)) = accesses i.
Proof.
  intros Hok Hb. unfold write_used, access_used_rw. destruct n as [len o|]; [|done].
  destruct (slots i !! idx) as [[k st]|] eqn:Hst; [|done].
  assert (Hgo : being_written st = true -> forall st', being_written st' = true ->
    committed st' = committed st -> current st' = b ->
    inner_ok {| slots := <[idx := (k, st')]> (slots i); accesses := accesses i;
                new_contracts := new_contracts i |}).
  { intros Hw st' Hw' Hcm Hcu.
    assert (Hin : idx ∈ slot_index <$> accesses i) by (eapply (ok_in_use i Hok); [done|by destruct st]).
    eapply (inner_ok_touch i idx k st st'); [done|done| |by left| |done].
    - split; [rewrite Hcm; by eapply (ok_buffers i Hok)|by rewrite Hcu].
    - intros a Ha Hidx. destruct (ok_accesses i Hok a Ha) as (k' & st0 & Hl & Hm).
      rewrite Hidx, Hst in Hl. simplify_eq. apply written_matches in Hw'.
      destruct (read_write a); [done|by destruct st0]. }
  destruct st as [b0|b0|b0|b0|b0 p|b0 p]; try done; cbn [snd]; unfold with_slots;
    (split; [|done]); erewrite alter_insert by done; by apply Hgo.
Qed.

Lemma add_new_contract_ok n i a :
  inner_ok i ->
  inner_ok (snd (add_new_contract n i a)) /\ accesses (snd (add_new_contract n i a)) = accesses i.
Proof.
  intros Hok. unfold add_new_contract, push_new_contract. destruct n; [|done].
  case_bool_decide; [done|]. split; [|done]. destruct Hok. by constructor.
Qed.

(** Settling changes the state of exactly the drained slots. *)
Lemma settle_spec f drained s :
  NoDup (slot_index <$> drained) ->
  (forall a, a ∈ drained -> exists k st st', s !! slot_index a = Some (k, st) /\ f st = Ret st') ->
  exists s', settle f drained s = Ret s' /\ s'.*1 = s.*1 /\
    (forall idx, idx ∉ slot_index <$> drained -> s' !! idx = s !! idx) /\
    (forall idx k st, idx ∈ slot_index <$> drained -> s !! idx = Some (k, st) ->
       exists st', f st = Ret st' /\ s' !! idx = Some (k, st')).
Proof.
  revert s. induction drained as [|a drained IH]; intros s Hnd Hall.
  { exists s. split_and!; [done..|]. intros idx k st Hin. by apply not_elem_of_nil in Hin. }
  rewrite fmap_cons in Hnd. apply NoDup_cons in Hnd as [Hnot Hnd].
  destruct (Hall a ltac:(by left)) as (k & st & st' & Hst & Hf).
  cbn [settle]. rewrite (arr_get_Some _ _ _ Hst). cbn [obind]. rewrite Hf. cbn [obind].
  pose proof (lookup_lt_Some _ _ _ Hst) as Hlt. rewrite arr_set_lt by done. cbn [obind].
  destruct (IH (<[slot_index a := (k, st')]> s)) as (s' & Hs & Hkeys & Hother & Hin); [done|..].
  { intros b Hb. rewrite list_lookup_insert_ne; [apply Hall; by right|].
    intros He. apply Hnot. rewrite He. apply list_elem_of_fmap. eauto. }
  exists s'. split_and!; [done| | |].
  - rewrite Hkeys. apply fmap_insert_same. by rewrite Hst.
  - intros idx Hidx. rewrite fmap_cons, not_elem_of_cons in Hidx. destruct Hidx as [Hne Hidx].
    rewrite Hother by done. by rewrite list_lookup_insert_ne.
  - intros idx k' st0 Hidx Hl. destruct (decide (idx = slot_index a)) as [->|Hne].
    + simplify_eq. rewrite Hother by done. rewrite list_lookup_insert_eq by done. eauto.
    + apply Hin; [|by rewrite list_lookup_insert_ne].
      rewrite fmap_cons, elem_of_cons in Hidx. by destruct Hidx.
Qed.

(** Both ways of finishing an access leave a settled state. *)
Definition settles (f : slot_state -> outcome slot_state) : Prop :=
  forall st rw, access_matches rw st = true -> state_ok st ->
    exists st', f st = Ret st' /\ state_ok st' /\ in_use st' = false.

Lemma commit_settles : settles commit_state.
Proof. intros [b|b|b|b|b p|b p] rw Hm [Hc Hcur]; try done; eexists; (split; [done|]); by repeat split. Qed.

Lemma reset_settles : settles reset_state.
Proof. intros [b|b|b|b|b p|b p] rw Hm [Hc Hcur]; try done; eexists; (split; [done|]); by repeat split. Qed.

Lemma drop_take_disjoint {A} (l : list A) n x : NoDup l -> x ∈ take n l -> x ∉ drop n l.
Proof.
  intros Hnd Hin Hdr. rewrite <- (take_drop n l) in Hnd. apply NoDup_app in Hnd as (_ & Hd & _).
  by apply (Hd x).
Qed.

(** Finishing the accesses from number [len] on. *)
Lemma finish_ok f i len :
  settles f -> inner_ok i -> len <= length (accesses i) ->
  exists s', settle f (drop len (accesses i)) (slots i) = Ret s' /\
    inner_ok {| slots := s'; accesses := take len (accesses i); new_contracts := new_contracts i |}.
Proof.
  intros Hf Hok Hlen. pose proof (ok_indices i Hok) as Hnd.
  assert (Hsub : forall a, a ∈ drop len (accesses i) -> a ∈ accesses i).
  { intros a Ha. rewrite <- (take_drop len (accesses i)), elem_of_app. by right. }
  destruct (settle_spec f (drop len (accesses i)) (slots i)) as (s' & Hs & Hkeys & Hother & Hin).
  { rewrite fmap_drop. eapply sublist_NoDup; [done|apply sublist_drop]. }
  { intros a Ha. destruct (ok_accesses i Hok a (Hsub a Ha)) as (k & st & Hl & Hm).
    destruct (Hf st _ Hm (ok_buffers i Hok _ _ _ Hl)) as (st' & Hst' & _). eauto 10. }
  exists s'. split; [done|]. rewrite fmap_drop in Hother, Hin.
  assert (Hcase : forall idx k st, s' !! idx = Some (k, st) ->
    ((idx ∉ drop len (slot_index <$> accesses i)) /\ slots i !! idx = Some (k, st)) \/
    (state_ok st /\ in_use st = false)).
  { intros idx k st Hl. destruct (decide (idx ∈ drop len (slot_index <$> accesses i))) as [Hd|Hd];
      [right|left; split; [done|by rewrite <- Hother]].
    rewrite <- fmap_drop in Hd. apply list_elem_of_fmap in Hd as (a & -> & Ha).
    destruct (ok_accesses i Hok a (Hsub a Ha)) as (k0 & st0 & Hl0 & Hm).
    destruct (Hin (slot_index a) k0 st0) as (st1 & Hf1 & Hl1); [|done|].
    { rewrite <- fmap_drop. apply list_elem_of_fmap. eauto. }
    destruct (Hf st0 _ Hm (ok_buffers i Hok _ _ _ Hl0)) as (st2 & Hf2 & Hok2 & Hu2). simplify_eq.
    rewrite Hf1 in Hf2. injection Hf2 as <-. by split. }
  split; cbn [slots accesses].
  - rewrite Hkeys. apply Hok.
  - rewrite fmap_take. eapply sublist_NoDup; [done|apply sublist_take].
  - intros a Ha. rewrite Hother.
    + apply Hok. rewrite <- (take_drop len (accesses i)), elem_of_app. by left.
    + apply drop_take_disjoint; [done|]. rewrite <- fmap_take. apply list_elem_of_fmap. eauto.
  - intros idx k st Hl Hu. destruct (Hcase idx k st Hl) as [[Hd Hl0]|[_ Hn]]; [|congruence].
    pose proof (ok_in_use i Hok idx k st Hl0 Hu) as Hin0.
    rewrite <- (take_drop len (slot_index <$> accesses i)), elem_of_app in Hin0.
    rewrite fmap_take. tauto.
  - intros idx k st Hl. destruct (Hcase idx k st Hl) as [[_ Hl0]|[Hn _]]; [by eapply ok_buffers|done].
Qed.

Lemma sublist_fmap_filter {A B} (f : A -> B) (l : list A) (P : A -> Prop) `{!forall x, Decision (P x)} :
  f <$> filter P l `sublist_of` f <$> l.
Proof.
  induction l as [|x l IH]; [done|]. rewrite filter_cons.
  destruct (decide (P x)); rewrite !fmap_cons; by constructor.
Qed.

Lemma NoDup_fst_filter {A B} (l : list (A * B)) (P : A * B -> Prop) `{!forall p, Decision (P p)} :
  NoDup l.*1 -> NoDup (filter P l).*1.
Proof.
  intros Hnd. eapply sublist_NoDup; [done|apply sublist_fmap_filter].
Qed.

Lemma filter_ok i (P : slot_key * slot_state -> Prop) `{!forall p, Decision (P p)} :
  inner_ok i -> accesses i = [] -> inner_ok (with_slots i (filter P (slots i))).
Proof.
  intros Hok Hacc. assert (Hsub : forall idx p, filter P (slots i) !! idx = Some p -> p ∈ slots i).
  { intros idx p Hl%list_elem_of_lookup_2. by apply list_elem_of_filter in Hl as [_ ?]. }
  split; cbn [slots accesses with_slots]; rewrite ?Hacc.
  - apply NoDup_fst_filter, Hok.
  - constructor.
  - intros a Ha. by apply not_elem_of_nil in Ha.
  - intros idx k st Hl Hu. apply Hsub, list_elem_of_lookup in Hl as [j Hj].
    pose proof (ok_in_use i Hok j k st Hj Hu) as Hin. rewrite Hacc in Hin. by apply not_elem_of_nil in Hin.
  - intros idx k st Hl. apply Hsub, list_elem_of_lookup in Hl as [j Hj]. by eapply ok_buffers.
Qed.

Lemma drop_ok i len original_parent :
  inner_ok i -> len <= length (accesses i) -> (original_parent = true -> len = 0) ->
  exists i', drop_nested (ReadWrite len original_parent) i = Ret i' /\ inner_ok i' /\
    accesses i' = take len (accesses i).
Proof.
  intros Hok Hlen Hroot. unfold drop_nested, drain. rewrite decide_True by done. cbn [obind].
  destruct (finish_ok commit_state i len commit_settles Hok Hlen) as (s' & -> & Hok'). cbn [obind].
  eexists. split; [done|]. split; [|done]. destruct original_parent; [|done].
  rewrite Hroot in * by done. by apply (filter_ok _ _ Hok').
Qed.

Lemma reset_ok i len original_parent :
  inner_ok i -> len <= length (accesses i) ->
  exists i', reset (ReadWrite len original_parent) i = Ret (ReadWrite 0 original_parent, i') /\
    inner_ok i' /\ accesses i' = take len (accesses i).
Proof.
  intros Hok Hlen. unfold reset, drain. rewrite decide_True by done. cbn [obind].
  destruct (finish_ok reset_state i len reset_settles Hok Hlen) as (s' & -> & Hok'). cbn [obind]. eauto.
Qed.
(** ** Sessions keep the invariant *)

Lemma extends_length i i' : extends i i' -> length (accesses i) <= length (accesses i').
Proof. intros [more ->]. rewrite length_app. lia. Qed.

Lemma session_grow i i' len o rest :
  session_ok (Session i (ReadWrite len o :: rest)) -> inner_ok i' ->
  length (accesses i) <= length (accesses i') -> session_ok (Session i' (ReadWrite len o :: rest)).
Proof.
  intros [_ (Hlen & Ho & Hfr)] Hok Hle. split; [done|]. cbn in *. split_and!; [lia|done|done].
Qed.

(** Changes that leave the accesses alone *)
Lemma session_same i i' frames :
  session_ok (Session i frames) -> inner_ok i' -> accesses i' = accesses i -> session_ok (Session i' frames).
Proof. intros [_ Hfr] Hok Hacc. split; [done|]. cbn [s_frames s_inner] in *. by rewrite Hacc. Qed.

Lemma session_frame s len o rest :
  session_ok s -> s_frames s = ReadWrite len o :: rest ->
  o = bool_decide (rest = []) /\ len <= length (accesses (s_inner s)) /\ frames_ok len rest.
Proof. intros [_ Hfr] Hs. rewrite Hs in Hfr. destruct Hfr as (Hle & -> & Hrest). done. Qed.

Lemma frames_ok_nil n rest : frames_ok n rest -> rest = [] -> n = 0.
Proof. by intros H ->. Qed.

Lemma session_drop i len rest :
  session_ok (Session i (ReadWrite len (bool_decide (rest = [])) :: rest)) ->
  exists i', drop_nested (ReadWrite len (bool_decide (rest = []))) i = Ret i' /\
    session_ok (Session i' rest).
Proof.
  intros Hs. pose proof Hs as [Hok (Hle & _ & Hrest)].
  destruct (drop_ok i len (bool_decide (rest = []))) as (i' & Hd & Hok' & Hacc); [done|done| |].
  { intros ->%bool_decide_eq_true. done. }
  exists i'. split; [done|]. split; [done|]. cbn.
  assert (Hlen : length (accesses i') = len) by (rewrite Hacc, length_take; cbn in Hle; lia).
  destruct rest; [|by rewrite Hlen]. apply nil_length_inv. by rewrite Hlen.
Qed.

Lemma session_drop_ro i rest : session_ok (Session i (ReadOnly :: rest)) -> session_ok (Session i rest).
Proof.
  intros [Hok Hfr]. split; [done|]. cbn in *. destruct rest; [|done]. by apply nil_length_inv.
Qed.

Lemma get_code_ok i a : inner_ok i -> exists r, get_code i a = Ret r.
Proof.
  intros Hok. unfold get_code. destruct (find_slot _ (slots i)) as [idx|] eqn:Hf; [|eauto].
  destruct (existsb _ _); [eauto|]. destruct (find_slot_Some _ _ _ Hf) as [st Hst].
  rewrite (arr_get_Some _ _ _ Hst). cbn [obind]. destruct st; eauto.
Qed.

Lemma use_ro_read_only_ok i key : inner_ok i -> exists r, use_ro_internal_read_only i key = Ret r.
Proof.
  intros Hok. unfold use_ro_internal_read_only. destruct (find_slot key (slots i)) as [idx|] eqn:Hf; [|eauto].
  destruct (find_slot_Some _ _ _ Hf) as [st Hst].
  destruct (find_access idx (accesses i)) as [[]|]; [eauto|..]; rewrite (arr_get_Some _ _ _ Hst); cbn [obind]; eauto.
Qed.

(** A call changes the slots of its instance, or opens or finishes one. *)
Inductive op_effect (op : slots_op) (s : session) : session -> Prop :=
| effect_inner i' :
    inner_ok i' ->
    (accesses i' = accesses (s_inner s) \/
     (exists len o rest, s_frames s = ReadWrite len o :: rest) /\
     length (accesses (s_inner s)) <= length (accesses i')) ->
    op_effect op s (Session i' (s_frames s))
| effect_open_rw len o rest :
    s_frames s = ReadWrite len o :: rest ->
    op_effect op s (Session (s_inner s) (ReadWrite (length (accesses (s_inner s))) false :: s_frames s))
| effect_open_ro : op_effect op s (Session (s_inner s) (ReadOnly :: s_frames s))
| effect_open_root : s_frames s = [] -> op_effect op s (Session (s_inner s) [root_nested_rw])
| effect_drop_ro rest : s_frames s = ReadOnly :: rest -> op_effect op s (Session (s_inner s) rest)
| effect_drop_rw len o rest i' :
    s_frames s = ReadWrite len o :: rest -> len <= length (accesses (s_inner s)) ->
    drop_nested (ReadWrite len o) (s_inner s) = Ret i' -> op_effect op s (Session i' rest)
| effect_reset len o rest i' :
    op = OpReset -> s_frames s = ReadWrite len o :: rest -> len <= length (accesses (s_inner s)) -> inner_ok i' ->
    accesses i' = take len (accesses (s_inner s)) ->
    op_effect op s (Session i' (ReadWrite 0 o :: rest)).

Lemma inner_step s op :
  weak_ok s -> args_ok op ->
  match op, s_frames s with (OpReset | OpDrop), ReadWrite _ _ :: _ => False | _, _ => True end ->
  exists s', run_op s op = Ret s' /\ op_effect op s s'.
Proof.
  intros [Hok _] Hop Hnot. destruct s as [i frames]. cbn [s_inner s_frames] in *.
  assert (Hsame : forall i', inner_ok i' -> accesses i' = accesses i ->
    op_effect op (Session i frames) (Session i' frames)) by (intros; apply effect_inner; [done|by left]).
  assert (Hcode : forall a, exists s', (let! _ := get_code i a in Ret (Session i frames)) = Ret s' /\
    op_effect op (Session i frames) s').
  { intros a. destruct (get_code_ok i a Hok) as [r ->]. eexists. split; [done|]. by apply Hsame. }
  unfold run_op. cbn [s_frames s_inner]. destruct frames as [|n rest].
  { destruct op; try apply Hcode; eexists; (split; [done|]); try (by apply Hsame);
      [|by apply effect_open_root|apply effect_open_ro].
    destruct (add_new_contract_ok root_nested_rw i a Hok). by apply Hsame. }
  assert (Hgrow : forall i' len o, n = ReadWrite len o -> inner_ok i' -> length (accesses i) <= length (accesses i') ->
    op_effect op (Session i (n :: rest)) (Session i' (n :: rest))).
  { intros i' len o -> Hi Hle. apply effect_inner; [done|]. right. split; [eauto|done]. }
  destruct op as [key|key cap|idx b|a|a| | | |]; [| | | |apply Hcode| | | |].
  - destruct n as [len o|]; cbn [use_ro].
    + destruct (use_ro_ok i key Hok) as (r & i' & -> & Hok' & Hext). eexists. split; [done|].
      eapply Hgrow; [done|done|by apply extends_length].
    + destruct (use_ro_read_only_ok i key Hok) as [r ->]. eexists. split; [done|]. by apply Hsame.
  - destruct n as [len o|]; cbn [use_rw].
    + destruct (use_rw_ok i key cap Hok Hop) as (r & i' & -> & Hok' & Hext). eexists. split; [done|].
      eapply Hgrow; [done|done|by apply extends_length].
    + eexists. split; [done|]. by apply Hsame.
  - eexists. split; [done|]. destruct (write_used_ok n i idx b Hok Hop). by apply Hsame.
  - eexists. split; [done|]. destruct (add_new_contract_ok n i a Hok). by apply Hsame.
  - destruct n as [len o|]; cbn [new_nested_rw]; eexists; (split; [done|]); [by eapply effect_open_rw|by apply Hsame].
  - eexists. split; [done|]. apply effect_open_ro.
  - destruct n as [len o|]; [done|]. eexists. split; [done|]. by apply Hsame.
  - destruct n as [len o|]; [done|]. eexists. split; [done|]. by eapply effect_drop_ro.
Qed.

Lemma op_step s op :
  weak_ok s -> args_ok op ->
  (exists s', run_op s op = Ret s' /\ op_effect op s s') \/ run_op s op = Fault /\ drains_missing s op.
Proof.
  intros Hw Hop. destruct s as [i frames]. pose proof Hw as [Hok Hroots]. cbn [s_inner s_frames] in Hok, Hroots.
  assert (Hstep := inner_step (Session i frames) op Hw Hop). cbn [s_frames] in Hstep.
  destruct op; try (left; by apply Hstep); (destruct frames as [|[len o|] rest]; [by left; apply Hstep| |by left; apply Hstep]);
    clear Hstep; apply Forall_cons in Hroots as [Hroot _]; cbn [frame_root_ok] in Hroot;
    (destruct (decide (len <= length (accesses i))) as [Hle|Hlt];
      [left|right; split; [unfold run_op; cbn; unfold drain; by rewrite decide_False|];
        split; [auto|]; exists len, o, rest; split; [done|cbn; lia]]); unfold run_op; cbn [s_frames s_inner].
  - destruct (reset_ok i len o Hok Hle) as (i' & -> & Hok' & Hacc). eexists. split; [done|]. by eapply effect_reset.
  - destruct (drop_ok i len o Hok Hle) as (i' & Hd & Hok' & Hacc); [by intros ->|]. rewrite Hd. cbn [obind].
    eexists. split; [done|]. by eapply effect_drop_rw.
Qed.

Lemma weak_step op s s' : weak_ok s -> op_effect op s s' -> weak_ok s'.
Proof.
  intros [Hok Hroots]. destruct s as [i frames]. cbn [s_inner s_frames] in *.
  destruct 1 as [i' Hi _|len o rest Hfr| |Hfr|rest Hfr|len o rest i' Hfr Hle Hd|len o rest i' Hreset Hfr Hle Hi Hacc];
    cbn [s_inner s_frames] in *; (try subst frames); split; cbn [s_inner s_frames]; try done.
  - by constructor.
  - by constructor.
  - by constructor.
  - by apply Forall_cons in Hroots as [_ ?].
  - apply Forall_cons in Hroots as [Hroot _]. cbn [frame_root_ok] in Hroot.
    destruct (drop_ok i len o Hok Hle) as (i2 & Hd2 & Hok' & _); [by intros ->|]. congruence.
  - by apply Forall_cons in Hroots as [_ ?].
  - apply Forall_cons in Hroots as [_ ?]. constructor; [by destruct o|done].
Qed.

Lemma session_weak s : session_ok s -> weak_ok s.
Proof.
  intros [Hok Hfr]. split; [done|]. destruct s as [i frames]. cbn [s_inner s_frames] in *.
  assert (Hall : forall n, frames_ok n frames -> Forall frame_root_ok frames).
  { clear Hfr. induction frames as [|[len o|] rest IH]; intros n Hn; [done|..].
    - destruct Hn as (_ & -> & Hr). constructor; [|by eapply IH]. cbn. case_bool_decide as E; [|done].
      by eapply frames_ok_nil.
    - constructor; [done|by eapply IH]. }
  destruct frames; [done|by eapply Hall].
Qed.

Lemma session_step s op :
  session_ok s -> args_ok op ->
  exists s', run_op s op = Ret s' /\ (op_allowed s op -> session_ok s').
Proof.
  intros Hs Hop. destruct (op_step s op (session_weak s Hs) Hop) as [(s' & Hrun & Heff)|[_ (_ & len & o & rest & Hfr & Hlt)]].
  2: { destruct (session_frame s len o rest Hs Hfr) as (_ & Hle & _). lia. }
  exists s'. split; [done|]. intros [_ Hallowed]. destruct s as [i frames].
  destruct Heff as [i' Hi Hacc|len o rest Hfr| |Hfr|rest Hfr|len o rest i' Hfr Hle Hd|len o rest i' Hreset Hfr Hle Hi Hacc];
    cbn [s_inner s_frames] in *.
  - destruct Hacc as [Hacc|[(len & o & rest & ->) Hle]]; [by eapply session_same|by eapply session_grow].
  - subst frames. pose proof Hs as [Hok Hf]. split; [done|]. cbn in *. split_and!; [lia|done|apply Hf..].
  - pose proof Hs as [Hok Hf]. split; [done|]. cbn in *. destruct frames; [|done]. by rewrite Hf.
  - subst frames. pose proof Hs as [Hok Hf]. split; [done|]. cbn in *. by rewrite Hf.
  - subst frames. by apply session_drop_ro.
  - subst frames. pose proof Hs as [Hok (_ & -> & _)]. destruct (session_drop i len rest Hs) as (i2 & Hd2 & Hs2). congruence.
  - subst frames. pose proof Hs as [Hok (_ & -> & Hr)]. split; [done|]. cbn.
    subst op. cbn in Hallowed. subst len. split_and!; [lia|done|done].
Qed.

Lemma initial_key s : (initial_state s).1 = input_key s.
Proof. by destruct s. Qed.

Lemma open_session_ok input : input_ok input -> session_ok (open_session input).
Proof.
  intros [Hnd Hbuf]. split; [|by cbn]. split; cbn [open_session s_inner new slots accesses].
  - rewrite <- list_fmap_compose. rewrite (list_fmap_ext _ input_key) by (intros; apply initial_key).
    eapply sublist_NoDup; [done|]. apply sublist_fmap_filter.
  - constructor.
  - intros a Ha. by apply not_elem_of_nil in Ha.
  - intros idx k st Hl Hu. rewrite list_lookup_fmap in Hl.
    destruct (_ !! idx) as [[]|]; cbn in Hl; by simplify_eq.
  - intros idx k st Hl. rewrite list_lookup_fmap in Hl.
    destruct (_ !! idx) as [sl|] eqn:Hsl; [|done]. apply list_elem_of_lookup_2 in Hsl.
    apply list_elem_of_filter in Hsl as [_ Hin]. rewrite Forall_forall in Hbuf.
    specialize (Hbuf sl Hin). destruct sl; cbn in Hl; simplify_eq; by split.
Qed.

Lemma reachable_ok input s : input_ok input -> reachable input s -> session_ok s.
Proof.
  intros Hin. induction 1 as [|s op s' Hr IH Hop Hrun]; [by apply open_session_ok|].
  destruct (session_step s op IH (proj1 Hop)) as (s'' & Hrun' & Hok).
  rewrite Hrun in Hrun'. injection Hrun' as <-. by apply Hok.
Qed.

Lemma reachable_any_ok input s : input_ok input -> reachable_any input s -> weak_ok s.
Proof.
  intros Hin. induction 1 as [|s op s' Hr IH Hop Hrun]; [by apply session_weak, open_session_ok|].
  destruct (op_step s op IH Hop) as [(s'' & Hrun' & Heff)|[Hrun' _]]; [|congruence].
  rewrite Hrun in Hrun'. injection Hrun' as <-. by eapply weak_step.
Qed.

(** ** What finishing an access leaves *)

Definition was_modified (st : slot_state) : bool :=
  match st with Modified _ | ModifiedReadOnly _ | ModifiedReadWrite _ _ => true | _ => false end.

Definition settled (changed : bool) (b : buffer) : slot_state :=
  if changed then Modified b else Original b.

Definition after_commit (st : slot_state) : slot_state :=
  settled (was_modified st || being_written st) (current st).

Definition after_reset (st : slot_state) : slot_state :=
  settled (was_modified st) (committed st).

(** Applied to the slots at the given positions. *)
Definition finish_at (f : slot_state -> slot_state) (indices : list nat)
    (s : list (slot_key * slot_state)) : list (slot_key * slot_state) :=
  imap (fun idx p => if bool_decide (idx ∈ indices) then (p.1, f p.2) else p) s.

Definition persistent (s : list (slot_key * slot_state)) : list (slot_key * slot_state) :=
  filter (fun p => is_ephemeral p = false) s.

Lemma commit_state_matches rw st :
  access_matches rw st = true -> commit_state st = Ret (after_commit st).
Proof. by destruct st. Qed.

Lemma reset_state_matches rw st :
  access_matches rw st = true -> reset_state st = Ret (after_reset st).
Proof. by destruct st. Qed.

Lemma settle_closed f g i len :
  inner_ok i ->
  (forall rw st, access_matches rw st = true -> f st = Ret (g st)) ->
  settle f (drop len (accesses i)) (slots i) =
    Ret (finish_at g (slot_index <$> drop len (accesses i)) (slots i)).
Proof.
  intros Hok Hfg.
  assert (Hall : forall a, a ∈ drop len (accesses i) ->
    exists k st, slots i !! slot_index a = Some (k, st) /\ f st = Ret (g st)).
  { intros a Ha. destruct (ok_accesses i Hok a) as (k & st & Hl & Hm); [|eauto].
    rewrite <- (take_drop len (accesses i)), elem_of_app. by right. }
  destruct (settle_spec f (drop len (accesses i)) (slots i)) as (s' & -> & _ & Hother & Hin).
  { rewrite fmap_drop. eapply sublist_NoDup; [apply Hok|apply sublist_drop]. }
  { intros a Ha. destruct (Hall a Ha) as (k & st & Hl & Hf). eauto. }
  f_equal. apply list_eq. intros idx. unfold finish_at. rewrite list_lookup_imap.
  case_bool_decide as Hd.
  - pose proof Hd as (a & Hidx & Ha)%list_elem_of_fmap. subst idx.
    destruct (Hall a Ha) as (k & st & Hl & Hf). destruct (Hin _ k st Hd Hl) as (st' & Hf' & ->).
    rewrite Hf in Hf'. injection Hf' as <-. by rewrite Hl.
  - rewrite Hother by done. by destruct (slots i !! idx).
Qed.

Lemma drop_closed i len original_parent :
  inner_ok i -> len <= length (accesses i) ->
  drop_nested (ReadWrite len original_parent) i =
    Ret {| slots := (if original_parent then persistent else id)
                      (finish_at after_commit (slot_index <$> drop len (accesses i)) (slots i));
           accesses := take len (accesses i); new_contracts := new_contracts i |}.
Proof.
  intros Hok Hle. unfold drop_nested, drain. rewrite decide_True by done. cbn [obind].
  rewrite (settle_closed commit_state after_commit) by (done || apply commit_state_matches).
  by destruct original_parent.
Qed.

Lemma reset_closed i len original_parent :
  inner_ok i -> len <= length (accesses i) ->
  reset (ReadWrite len original_parent) i =
    Ret (ReadWrite 0 original_parent,
         {| slots := finish_at after_reset (slot_index <$> drop len (accesses i)) (slots i);
            accesses := take len (accesses i); new_contracts := new_contracts i |}).
Proof.
  intros Hok Hle. unfold reset, drain. rewrite decide_True by done. cbn [obind].
  by rewrite (settle_closed reset_state after_reset) by (done || apply reset_state_matches).
Qed.

Lemma finish_at_lookup f indices s idx k st :
  s !! idx = Some (k, st) ->
  finish_at f indices s !! idx = Some (k, if bool_decide (idx ∈ indices) then f st else st).
Proof. intros Hl. unfold finish_at. rewrite list_lookup_imap, Hl. simpl. by case_bool_decide. Qed.

Lemma finish_at_length f indices s : length (finish_at f indices s) = length s.
Proof. apply length_imap. Qed.

Lemma find_slot_unique i idx k st :
  inner_ok i -> slots i !! idx = Some (k, st) -> find_slot k (slots i) = Some idx.
Proof.
  intros Hok Hl. destruct (find_slot k (slots i)) as [j|] eqn:Hf.
  - destruct (find_slot_Some _ _ _ Hf) as [st' Hj]. f_equal.
    eapply (NoDup_lookup (slots i).*1 j idx k); [apply Hok| |]; by rewrite list_lookup_fmap, ?Hl, ?Hj.
  - exfalso. apply find_slot_None in Hf. apply Hf. apply list_elem_of_fmap.
    exists (k, st). split; [done|by eapply list_elem_of_lookup_2].
Qed.

Lemma find_access_written i idx k st :
  inner_ok i -> slots i !! idx = Some (k, st) -> being_written st = true ->
  find_access idx (accesses i) = Some true.
Proof.
  intros Hok Hl Hw. pose proof (ok_in_use i Hok idx k st Hl ltac:(by destruct st)) as Hin.
  destruct (find_access idx (accesses i)) as [rw|] eqn:Hf.
  - destruct (find_access_Some _ _ _ Hf) as (x & Hx & Hidx & <-).
    destruct (ok_accesses i Hok x Hx) as (k' & st' & Hl' & Hm). rewrite Hidx, Hl in Hl'.
    injection Hl' as <- <-. destruct (read_write x); [done|by destruct st].
  - by apply find_access_None in Hf.
Qed.

(** ** Work within one instance *)

(** Calls that neither open nor finish an instance; the references written through
    are those this instance obtained. *)
Definition local_op (s : session) (op : slots_op) : Prop :=
  match op, s_frames s with
  | (OpUseRo _ | OpUseRw _ _ | OpAddContract _ | OpGetCode _), _ => True
  | OpWrite idx _, ReadWrite len _ :: _ => idx ∈ slot_index <$> drop len (accesses (s_inner s))
  | _, _ => False
  end.

Inductive within_frame (s : session) : session -> Prop :=
| within_start : within_frame s s
| within_step s1 op s2 :
    within_frame s s1 -> local_op s1 op -> op_allowed s1 op -> run_op s1 op = Ret s2 ->
    within_frame s s2.

(** What such a call does: nothing, a change of one slot accessed since access number
    [len] that a reset undoes, or a new slot. *)
Inductive changes (len : nat) (i i' : inner) : Prop :=
| changes_none : slots i' = slots i -> accesses i' = accesses i -> changes len i i'
| changes_touch idx k st st' more :
    slots i !! idx = Some (k, st) -> slots i' = <[idx := (k, st')]> (slots i) ->
    accesses i' = accesses i ++ more -> idx ∈ slot_index <$> drop len (accesses i') ->
    after_reset st' = after_reset st -> changes len i i'
| changes_push key st rw :
    slots i' = slots i ++ [(key, st)] ->
    accesses i' = accesses i ++ [SlotAccess (length (slots i)) rw] ->
    after_reset st = Original empty -> changes len i i'.

Lemma read_state_after_reset st : after_reset (fst (read_state st)) = after_reset st.
Proof. by destruct st. Qed.

Lemma write_state_after_reset st capacity st' b :
  write_state st capacity = Ret (Some (st', b)) -> after_reset st' = after_reset st.
Proof.
  unfold write_state, obind. intros H. repeat case_match; by simplify_eq.
Qed.

Lemma elem_of_drop_snoc len (a : list slot_access) x :
  len <= length a -> slot_index x ∈ slot_index <$> drop len (a ++ [x]).
Proof.
  intros Hle. rewrite drop_app_le, fmap_app, elem_of_app by done. right. by left.
Qed.

Lemma use_ro_changes len i key r i' :
  inner_ok i -> len <= length (accesses i) ->
  use_ro_internal i key = Ret (r, i') -> changes len i i'.
Proof.
  intros Hok Hle. unfold use_ro_internal. destruct (find_slot key (slots i)) as [idx|] eqn:Hf.
  - destruct (find_slot_Some _ _ _ Hf) as [st Hst].
    destruct (find_access idx (accesses i)) as [[]|] eqn:Ha.
    + intros [= _ <-]. by apply changes_none.
    + destruct (find_access_Some _ _ _ Ha) as (x & Hx & Hix & Hrw).
      destruct (ok_accesses i Hok x Hx) as (k' & st' & Hst' & Hm). rewrite Hix, Hrw in *. simplify_eq.
      rewrite (arr_get_Some _ _ _ Hst). cbn [obind].
      assert (Hsame : fst (read_state st) = st) by (by destruct st).
      destruct (read_state st) as [st'' res]. simpl in Hsame. subst st''.
      rewrite arr_set_lt by (by eapply lookup_lt_Some). cbn [obind]. intros [= _ <-].
      apply changes_none; cbn; [by rewrite list_insert_id|done].
    + cbn [slots with_accesses]. rewrite (arr_get_Some _ _ _ Hst). cbn [obind].
      pose proof (read_state_after_reset st) as Hr. destruct (read_state st) as [st' res]. simpl in Hr.
      rewrite arr_set_lt by (by eapply lookup_lt_Some). cbn [obind]. intros [= _ <-].
      apply (changes_touch len i _ idx key st st' [SlotAccess idx false]); try done.
      by apply (elem_of_drop_snoc len _ (SlotAccess idx false)).
  - destruct (may_create key (new_contracts i)); intros [= _ <-]; [by eapply changes_push|by apply changes_none].
Qed.

Lemma use_rw_changes len i key capacity r i' :
  len <= length (accesses i) ->
  use_rw_internal i key capacity = Ret (r, i') -> changes len i i'.
Proof.
  intros Hle. unfold use_rw_internal. destruct (find_slot key (slots i)) as [idx|] eqn:Hf.
  - destruct (find_slot_Some _ _ _ Hf) as [st Hst]. destruct (existsb _ _).
    { intros [= _ <-]. by apply changes_none. }
    cbn [slots with_accesses]. rewrite (arr_get_Some _ _ _ Hst). cbn [obind].
    pose proof (elem_of_drop_snoc len (accesses i) (SlotAccess idx true) Hle) as Hin.
    destruct (write_state st capacity) as [[[st' b]|]|] eqn:Hw; [| |done]; cbn [obind].
    + rewrite arr_set_lt by (by eapply lookup_lt_Some). cbn [obind]. intros [= _ <-].
      apply (changes_touch len i _ idx key st st' [SlotAccess idx true]); try done.
      by eapply write_state_after_reset.
    + intros [= _ <-]. apply (changes_touch len i _ idx key st st [SlotAccess idx true]); try done.
      symmetry. by apply list_insert_id.
  - destruct (may_create key (new_contracts i)); intros [= _ <-]; [by eapply changes_push|by apply changes_none].
Qed.

Lemma write_used_changes len o i idx b :
  idx ∈ slot_index <$> drop len (accesses i) ->
  changes len i (snd (write_used (ReadWrite len o) i idx b)).
Proof.
  intros Hin. unfold write_used, access_used_rw.
  destruct (slots i !! idx) as [[k st]|] eqn:Hst; [|by apply changes_none].
  destruct st as [b0|b0|b0|b0|b0 p|b0 p]; try (by apply changes_none); cbn [snd].
  - apply (changes_touch len i _ idx k (OriginalReadWrite b0 p) (OriginalReadWrite b p) []); try done.
    + cbn [slots with_slots]. by erewrite alter_insert by done.
    + by rewrite app_nil_r.
  - apply (changes_touch len i _ idx k (ModifiedReadWrite b0 p) (ModifiedReadWrite b p) []); try done.
    + cbn [slots with_slots]. by erewrite alter_insert by done.
    + by rewrite app_nil_r.
Qed.

Lemma add_new_contract_changes len n i a : changes len i (snd (add_new_contract n i a)).
Proof.
  apply changes_none; unfold add_new_contract, push_new_contract; destruct n; try done; by case_bool_decide.
Qed.

Definition accessed_since (len : nat) (i : inner) : list nat := slot_index <$> drop len (accesses i).

(** [i] differs from [i0] by changes that a reset undoes. *)
Record undoable (i0 i : inner) : Prop := {
  un_extends : extends i0 i;
  un_old : forall idx k st, slots i0 !! idx = Some (k, st) ->
    exists st', slots i !! idx = Some (k, st') /\ after_reset st' = after_reset st /\
      (idx ∉ accessed_since (length (accesses i0)) i -> st' = st);
  un_new : forall idx k st, length (slots i0) <= idx -> slots i !! idx = Some (k, st) ->
    idx ∈ accessed_since (length (accesses i0)) i /\ after_reset st = Original empty
}.

Lemma accessed_since_app len i i' more :
  accesses i' = accesses i ++ more ->
  forall idx, idx ∈ accessed_since len i -> idx ∈ accessed_since len i'.
Proof.
  intros Ha idx. unfold accessed_since. rewrite Ha, drop_app, fmap_app, elem_of_app. by left.
Qed.

Lemma undoable_refl i : undoable i i.
Proof.
  split; [apply extends_refl|eauto|]. intros idx k st Hle Hl. apply lookup_lt_Some in Hl. lia.
Qed.

Lemma undoable_slots_length i0 i : undoable i0 i -> length (slots i0) <= length (slots i).
Proof.
  intros Hun. destruct (decide (length (slots i0) <= length (slots i))) as [|Hgt]; [done|].
  destruct (slots i0 !! length (slots i)) as [[k st]|] eqn:Hl.
  - destruct (un_old _ _ Hun _ _ _ Hl) as (st' & Hl' & _). apply lookup_lt_Some in Hl'. lia.
  - apply lookup_ge_None in Hl. lia.
Qed.

Lemma undoable_changes i0 i i' :
  undoable i0 i -> changes (length (accesses i0)) i i' -> undoable i0 i'.
Proof.
  intros Hun Hch. pose proof (undoable_slots_length i0 i Hun) as Hlen.
  destruct Hun as [[more0 Hext] Hold Hnew].
  destruct Hch as [Hs Ha|idx k st st' more Hl Hs Ha Hin Hres|key st rw Hs Ha Hres].
  - assert (Heq : accessed_since (length (accesses i0)) i' = accessed_since (length (accesses i0)) i)
      by (unfold accessed_since; by rewrite Ha).
    split; rewrite ?Heq, ?Hs; [exists more0; by rewrite Ha|done|done].
  - pose proof (accessed_since_app (length (accesses i0)) i i' more Ha) as Hsub.
    pose proof (lookup_lt_Some _ _ _ Hl) as Hlt. split; rewrite ?Hs.
    + exists (more0 ++ more). by rewrite Ha, Hext, app_assoc.
    + intros j kj stj Hj. destruct (Hold j kj stj Hj) as (st0 & Hj0 & Hr0 & Hsame).
      destruct (decide (j = idx)) as [->|Hne].
      * rewrite Hl in Hj0. injection Hj0 as <- <-. exists st'. rewrite list_lookup_insert_eq by done.
        split_and!; [done|congruence|done].
      * exists st0. rewrite list_lookup_insert_ne by done. split_and!; [done|done|naive_solver].
    + intros j kj stj Hj Hlj. destruct (decide (j = idx)) as [->|Hne].
      * rewrite list_lookup_insert_eq in Hlj by done. injection Hlj as <- <-.
        split; [done|]. rewrite Hres. by eapply Hnew.
      * rewrite list_lookup_insert_ne in Hlj by done. destruct (Hnew j kj stj Hj Hlj). naive_solver.
  - pose proof (accessed_since_app (length (accesses i0)) i i' _ Ha) as Hsub. split; rewrite ?Hs.
    + exists (more0 ++ [SlotAccess (length (slots i)) rw]). by rewrite Ha, Hext, app_assoc.
    + intros j kj stj Hj. destruct (Hold j kj stj Hj) as (st0 & Hj0 & Hr0 & Hsame). exists st0.
      rewrite lookup_app_l by (by eapply lookup_lt_Some). naive_solver.
    + intros j kj stj Hj [[_ Hlj]|[-> Hlj]]%lookup_snoc.
      * destruct (Hnew j kj stj Hj Hlj). naive_solver.
      * injection Hlj as <- <-. split; [|done]. unfold accessed_since. rewrite Ha.
        apply (elem_of_drop_snoc _ _ (SlotAccess (length (slots i)) rw)).
        rewrite Hext, length_app. lia.
Qed.

Lemma local_op_changes i n rest op s' len o :
  session_ok (Session i (n :: rest)) -> n = ReadWrite len o ->
  local_op (Session i (n :: rest)) op -> run_op (Session i (n :: rest)) op = Ret s' ->
  s_frames s' = n :: rest /\ changes len i (s_inner s').
Proof.
  intros Hs -> Hlocal. destruct Hs as [Hok (Hle & _)]. cbn in Hle. unfold run_op. cbn [s_frames s_inner].
  destruct op as [key|key cap|idx b|a|a| | | |]; try done; cbn [use_ro use_rw obind].
  - destruct (use_ro_internal i key) as [[r i']|] eqn:Hu; [|done]. cbn [obind]. intros [= <-].
    split; [done|]. by eapply use_ro_changes.
  - destruct (use_rw_internal i key cap) as [[r i']|] eqn:Hu; [|done]. cbn [obind]. intros [= <-].
    split; [done|]. by eapply use_rw_changes.
  - intros [= <-]. split; [done|]. by apply write_used_changes.
  - intros [= <-]. split; [done|]. apply (add_new_contract_changes len (ReadWrite len o)).
  - destruct (get_code i a); [|done]. intros [= <-]. split; [done|]. by apply changes_none.
Qed.

Lemma within_frame_undoable i o rest s :
  session_ok (Session i (ReadWrite (length (accesses i)) o :: rest)) ->
  within_frame (Session i (ReadWrite (length (accesses i)) o :: rest)) s ->
  session_ok s /\ s_frames s = ReadWrite (length (accesses i)) o :: rest /\ undoable i (s_inner s).
Proof.
  intros Hs0. induction 1 as [|s1 op s2 Hw (Hs & Hfr & Hun) Hlocal Hop Hrun].
  - split_and!; [done|done|apply undoable_refl].
  - destruct (session_step s1 op Hs (proj1 Hop)) as (s' & Hrun' & Hs'). rewrite Hrun in Hrun'.
    injection Hrun' as <-. specialize (Hs' Hop). destruct s1 as [i1 fr1]. cbn in Hfr, Hun. subst fr1.
    destruct (local_op_changes i1 _ rest op s2 _ o Hs eq_refl Hlocal Hrun) as [Hfr2 Hch].
    split_and!; [done|done|]. by eapply undoable_changes.
Qed.

Lemma after_reset_unused st :
  in_use st = false -> after_reset st = st \/ exists b, st = OriginalReadOnly b /\ after_reset st = Original b.
Proof. destruct st; try done; cbn; eauto. Qed.

Lemma extends_prefix i i' : extends i i' -> take (length (accesses i)) (accesses i') = accesses i.
Proof. intros [more ->]. apply take_app_length. Qed.

(** Slots accessed since were not in use before. *)
Lemma undoable_unused i0 i idx k st :
  inner_ok i0 -> inner_ok i -> extends i0 i -> slots i0 !! idx = Some (k, st) ->
  idx ∈ accessed_since (length (accesses i0)) i -> in_use st = false.
Proof.
  intros Hok0 Hok Hext Hl Hin. destruct (in_use st) eqn:Hu; [|done]. exfalso.
  pose proof (ok_in_use i0 Hok0 idx k st Hl Hu) as Hin0. unfold accessed_since in Hin.
  rewrite <- (extends_prefix i0 i Hext), fmap_take in Hin0. rewrite fmap_drop in Hin.
  by apply (drop_take_disjoint _ _ _ (ok_indices i Hok) Hin0).
Qed.

(** ** Properties *)

(** C9. From any slots with distinct keys, whatever sequence of reads, writes, code
    lookups, new contracts, openings of read-write and read-only instances, resets and drops
    an execution makes through its stack of instances, the invariant that ties the states of
    the slots to the recorded accesses holds, and the next operation reaches no place that
    the code declares unreachable and no index out of bounds.  The only panic is that an
    instance is reset or dropped that was opened with more accesses than are left, and it
    needs a reset of an instance while the ones above it had accesses in progress: in a
    session without such a reset every operation returns, and the instances count their
    accesses correctly. *)
Theorem slots_sessions_safe input s op :
  input_ok input -> reachable_any input s -> args_ok op ->
  inner_ok (s_inner s) /\
  match run_op s op with
  | Ret s' => inner_ok (s_inner s')
  | Fault => drains_missing s op /\ ~ reachable input s
  end /\
  (reachable input s -> session_ok s /\
    exists s', run_op s op = Ret s' /\ (op_allowed s op -> session_ok s')).
Proof.
  intros Hin Hr Hop. pose proof (reachable_any_ok input s Hin Hr) as Hw.
  assert (Hdisc : reachable input s -> session_ok s /\
    exists s', run_op s op = Ret s' /\ (op_allowed s op -> session_ok s')).
  { intros Hr'. pose proof (reachable_ok input s Hin Hr') as Hs. split; [done|by apply session_step]. }
  split; [apply Hw|]. split; [|done].
  destruct (op_step s op Hw Hop) as [(s' & -> & Heff)|[Hf Hd]].
  - by eapply weak_step.
  - rewrite Hf. split; [done|]. intros Hr'. destruct (Hdisc Hr') as (_ & s' & Hs' & _). congruence.
Qed.

(** While a slot is being written, no instance can read it or write it again
    through its key, nor read it as code; only the reference handed out gives access to
    it, and it gives the bytes being written. *)
Theorem written_slot_exclusive input s n idx k st capacity :
  input_ok input -> reachable input s ->
  slots (s_inner s) !! idx = Some (k, st) -> being_written st = true ->
  use_ro n (s_inner s) k = Ret (None, s_inner s) /\
  use_rw n (s_inner s) k capacity = Ret (None, s_inner s) /\
  (contract k = SYSTEM_CODE -> get_code (s_inner s) (owner k) = Ret None) /\
  access_used_rw n (s_inner s) idx = match n with ReadWrite _ _ => Some (current st) | ReadOnly => None end.
Proof.
  intros Hin Hr Hl Hw. destruct (reachable_ok input s Hin Hr) as [Hok _].
  pose proof (find_slot_unique _ _ _ _ Hok Hl) as Hf.
  pose proof (find_access_written _ _ _ _ Hok Hl Hw) as Ha.
  assert (Hacc : idx ∈ slot_index <$> accesses (s_inner s)).
  { apply (ok_in_use _ Hok idx k st Hl). by destruct st. }
  split_and!.
  - destruct n; cbn [use_ro]; unfold use_ro_internal, use_ro_internal_read_only; by rewrite Hf, Ha.
  - destruct n; cbn [use_rw]; [|done]. unfold use_rw_internal.
    rewrite Hf, existsb_access. by rewrite bool_decide_true.
  - intros Hc. unfold get_code. replace (SlotKey (owner k) SYSTEM_CODE) with k by (by destruct k; cbn in *; subst).
    rewrite Hf. destruct (existsb _ _); [done|]. rewrite (arr_get_Some _ _ _ Hl). by destruct st.
  - unfold access_used_rw. rewrite Hl. by destruct n, st.
Qed.

(** Dropping an instance commits exactly its accesses: a slot it wrote becomes
    modified with the bytes written, a slot it read is released with its content, the
    accesses of the instances above stay in progress, and the outermost instance also
    removes the ephemeral slots of the null contract. *)
Theorem drop_commits input s len original_parent rest :
  input_ok input -> reachable input s -> s_frames s = ReadWrite len original_parent :: rest ->
  run_op s OpDrop = Ret (Session
    {| slots := (if bool_decide (rest = []) then persistent else id)
                  (finish_at after_commit (accessed_since len (s_inner s)) (slots (s_inner s)));
       accesses := take len (accesses (s_inner s));
       new_contracts := new_contracts (s_inner s) |} rest).
Proof.
  intros Hin Hr Hfr. pose proof (reachable_ok input s Hin Hr) as Hs.
  destruct (session_frame s _ _ _ Hs Hfr) as (-> & Hle & _).
  destruct Hs as [Hok _]. unfold run_op. rewrite Hfr. cbn [obind].
  by rewrite (drop_closed (s_inner s) len _ Hok Hle).
Qed.


Lemma after_commit_idle n i idx k st :
  slots i !! idx = Some (k, after_commit st) -> access_used_rw n i idx = None.
Proof.
  intros Hl. unfold access_used_rw, after_commit, settled in *. rewrite Hl.
  destruct n; [|done]. by destruct (_ || _).
Qed.

(** After [reset], dropping a nested instance finishes the accesses of the
    instances above it as well: everything they were reading or writing is committed
    and no longer accessible through the references they hold, and if the instance
    above had accesses above it, dropping that one panics. *)
Theorem reset_then_drop_releases_parents input s len o n rest :
  input_ok input -> reachable input s -> s_frames s = ReadWrite len o :: n :: rest ->
  exists s1 s2, run_op s OpReset = Ret s1 /\ run_op s1 OpDrop = Ret s2 /\
    accesses (s_inner s2) = [] /\
    (forall idx k st, idx ∈ slot_index <$> take len (accesses (s_inner s)) ->
       slots (s_inner s) !! idx = Some (k, st) ->
       slots (s_inner s2) !! idx = Some (k, after_commit st) /\
       access_used_rw n (s_inner s2) idx = None) /\
    (forall parent_len o', n = ReadWrite parent_len o' -> 0 < parent_len ->
       run_op s2 OpDrop = Fault).
Proof.
  intros Hin Hr Hfr. pose proof (reachable_ok input s Hin Hr) as Hs.
  destruct (session_frame s _ _ _ Hs Hfr) as (Ho & Hle & _). rewrite bool_decide_false in Ho by done. subst o.
  destruct s as [i fr]. cbn [s_frames s_inner] in *. subst fr. destruct Hs as [Hok _]. cbn in Hok.
  destruct (reset_ok i len false Hok Hle) as (i1 & Hr1 & Hok1 & Hacc1).
  exists (Session i1 (ReadWrite 0 false :: n :: rest)).
  pose proof (drop_closed i1 0 false Hok1 ltac:(lia)) as Hd. eexists. split_and!.
  - unfold run_op. cbn [s_frames s_inner]. by rewrite Hr1.
  - unfold run_op. cbn [s_frames s_inner]. rewrite Hd. cbn [obind]. done.
  - done.
  - intros idx k st Hidx Hl.
    assert (Hl2 : slots i1 !! idx = Some (k, st)).
    { rewrite (reset_closed i len false Hok Hle) in Hr1. injection Hr1 as <-. cbn [slots].
      rewrite (finish_at_lookup _ _ _ _ _ _ Hl), bool_decide_false; [done|].
      rewrite fmap_take in Hidx. rewrite fmap_drop. by apply drop_take_disjoint; [apply Hok|]. }
    cbn [s_inner slots]. rewrite drop_0, Hacc1.
    assert (Hfin : finish_at after_commit (slot_index <$> take len (accesses i)) (slots i1) !! idx =
      Some (k, after_commit st)).
    { by rewrite (finish_at_lookup _ _ _ _ _ _ Hl2), bool_decide_true. }
    split; [done|]. by eapply after_commit_idle.
  - intros parent_len o' -> Hp. unfold run_op. cbn [s_frames s_inner drop_nested accesses take].
    unfold drain.
    rewrite (decide_False (P := parent_len <= 0)) by lia. done.
Qed.

Lemma existsb_eq_ref contracts key :
  existsb (fun candidate => eq_ref candidate (owner key) || eq_ref candidate (contract key)) contracts = true <->
  exists a, a ∈ contracts /\ (addr_0 a = addr_0 (owner key) \/ addr_0 a = addr_0 (contract key)).
Proof.
  rewrite existsb_exists. split; intros (a & Ha & Heq); exists a.
  - apply orb_true_iff in Heq. rewrite list_elem_of_In. unfold eq_ref in Heq. by rewrite !N.eqb_eq in Heq.
  - rewrite list_elem_of_In in Ha. rewrite orb_true_iff. unfold eq_ref. by rewrite !N.eqb_eq.
Qed.

(** A slot that was not given to the execution can be written if and only if it is
    ephemeral or the first 64 bits of its owner or of its contract are those of a
    contract created in this transaction; the other 64 bits of these addresses are not
    looked at.  Otherwise nothing changes. *)
Theorem missing_slot_access len o i key capacity :
  find_slot key (slots i) = None ->
  exists r i', use_rw (ReadWrite len o) i key capacity = Ret (r, i') /\
    (is_Some r <-> contract key = NULL \/ exists a, a ∈ new_contracts i /\
       (addr_0 a = addr_0 (owner key) \/ addr_0 a = addr_0 (contract key))) /\
    (r = None -> i' = i).
Proof.
  intros Hf. cbn [use_rw]. unfold use_rw_internal. rewrite Hf.
  destruct (may_create key (new_contracts i)) eqn:Hm; eexists _, _; (split; [done|]);
    unfold may_create in Hm; rewrite <- existsb_eq_ref.
  - split; [|done]. split; [|by eexists]. intros _. apply orb_true_iff in Hm as [Hm|Hm]; [left|by right].
    by apply bool_decide_eq_true in Hm.
  - apply orb_false_iff in Hm as [Hn He]. apply bool_decide_eq_false in Hn.
    split; [|done]. rewrite He. split; [by intros []|]. by intros [|].
Qed.

(** A slot given as read-only refuses write access, until some nested instance
    has read it: afterwards it can be written. *)
Theorem read_only_slot_becomes_writable key b bytes capacity :
  contract key <> NULL -> holds b bytes -> (capacity <= u32_max)%N ->
  exists i1 s2 copy i3,
    use_rw root_nested_rw (new [ReadOnlySlot key b]) key capacity = Ret (None, i1) /\
    run_ops (open_session [ReadOnlySlot key b]) [OpOpen; OpUseRo key; OpDrop] = Ret s2 /\
    use_rw root_nested_rw (s_inner s2) key capacity = Ret (Some (0, copy), i3) /\
    holds copy bytes.
Proof.
  intros Hk Hb Hc. destruct (writable_copy_ok b bytes capacity Hb Hc) as (copy & Hcopy & Hh & _).
  assert (Hnew : new [ReadOnlySlot key b] =
    {| slots := [(key, OriginalReadOnly b)]; accesses := []; new_contracts := [] |}).
  { unfold new. rewrite filter_cons_True; [done|]. by apply bool_decide_eq_false. }
  assert (Hfind : forall st, find_slot key [(key, st)] = Some 0).
  { intros st. unfold find_slot. cbn. by rewrite decide_True. }
  assert (Hrw : forall st, use_rw root_nested_rw
      {| slots := [(key, st)]; accesses := []; new_contracts := [] |} key capacity =
    (let! written := write_state st capacity in
     Ret (match written with
          | None => (None, {| slots := [(key, st)]; accesses := [SlotAccess 0 true]; new_contracts := [] |})
          | Some (st', b') => (Some (0, b'), {| slots := [(key, st')];
                                accesses := [SlotAccess 0 true]; new_contracts := [] |})
          end))).
  { intros st. cbn [use_rw root_nested_rw]. unfold use_rw_internal. cbn [slots]. rewrite Hfind. cbn.
    by destruct (write_state st capacity) as [[[st' b']|]|]. }
  assert (Hro : run_ops (open_session [ReadOnlySlot key b]) [OpOpen; OpUseRo key; OpDrop] =
    Ret (Session {| slots := [(key, Original b)]; accesses := []; new_contracts := [] |} [root_nested_rw])).
  { unfold open_session. rewrite Hnew. cbn [run_ops run_op s_frames s_inner obind new_nested_rw root_nested_rw use_ro].
    unfold use_ro_internal. cbn [slots]. by rewrite Hfind. }
  rewrite Hnew, Hrw, Hro. eexists _, _, copy, _. split_and!; [done|done| |done].
  cbn [s_inner]. rewrite Hrw. cbn [write_state]. by rewrite Hcopy.
Qed.

(** Reading all slots back without having executed anything panics as soon as one
    of them was given as read-only; otherwise it gives the slots as they were given,
    without the ephemeral ones. *)
Theorem into_slots_untouched input :
  into_slots (new input) =
    if existsb (fun s => negb (is_null_contract s) && is_read_only s) input then Fault
    else Ret ((fun s => (input_key s, input_buffer s)) <$>
                filter (fun s => is_null_contract s = false) input).
Proof.
  unfold into_slots, new. cbn [slots]. induction input as [|s input IH]; [done|].
  rewrite filter_cons. cbn [existsb]. destruct (is_null_contract s) eqn:Hn; cbn [negb andb orb].
  - rewrite decide_False by congruence. apply IH.
  - rewrite decide_True by done. rewrite fmap_cons.
    destruct s as [k b|k b]; cbn; [done|]. rewrite IH. by destruct (existsb _ _).
Qed.

(** ** Witnesses *)

Definition sample_key : slot_key := SlotKey (Addr 100 0) (Addr 101 0).
Definition sample_input : list slot := [ReadWriteSlot sample_key sample_buffer].

Lemma sample_input_ok : input_ok sample_input.
Proof.
  split; [by apply NoDup_singleton|]. repeat constructor. exists [x01; x02]. apply sample_buffer_holds.
Qed.

Definition after_ops (ops : list slots_op) : session :=
  match run_ops (open_session sample_input) ops with Ret s => s | Fault => open_session [] end.

(** The outermost instance writes the slot and calls a nested one. *)
Definition writing_session : session := after_ops [OpUseRw sample_key 4].
Definition nested_session : session := after_ops [OpUseRw sample_key 4; OpOpen].

Lemma writing_reachable : reachable sample_input writing_session.
Proof.
  eapply (reach_step _ _ (OpUseRw sample_key 4)); [apply reach_open|by vm_compute|by vm_compute].
Qed.

Lemma nested_reachable : reachable sample_input nested_session.
Proof. eapply (reach_step _ _ OpOpen); [apply writing_reachable|done|by vm_compute]. Qed.

Lemma reachable_is_any input s : reachable input s -> reachable_any input s.
Proof. induction 1 as [|s op s' Hr IH [Hop _] Hrun]; [constructor|by eapply reach_any_step]. Qed.

(** Two nested instances, the inner one reset and dropped *)
Definition released_session : session :=
  after_ops [OpUseRw sample_key 4; OpOpen; OpOpen; OpReset; OpDrop].

Lemma released_reachable : reachable_any sample_input released_session.
Proof.
  apply (reach_any_step _ (after_ops [OpUseRw sample_key 4; OpOpen; OpOpen; OpReset]) OpDrop); [|done|by vm_compute].
  apply (reach_any_step _ (after_ops [OpUseRw sample_key 4; OpOpen; OpOpen]) OpReset); [|done|by vm_compute].
  apply (reach_any_step _ nested_session OpOpen); [|done|by vm_compute].
  apply reachable_is_any, nested_reachable.
Qed.

Definition writing_copy : buffer :=
  match writable_copy sample_buffer 4 with Ret b => b | Fault => empty end.

Lemma slots_sessions_safe_witness :
  (session_ok writing_session /\
   exists s', run_op writing_session OpDrop = Ret s' /\ (op_allowed writing_session OpDrop -> session_ok s')) /\
  run_op released_session OpDrop = Fault /\ drains_missing released_session OpDrop /\
  ~ reachable sample_input released_session.
Proof.
  split.
  - apply (slots_sessions_safe sample_input writing_session OpDrop sample_input_ok
      (reachable_is_any _ _ writing_reachable) I), writing_reachable.
  - split; [by vm_compute|].
    exact (proj1 (proj2 (slots_sessions_safe sample_input released_session OpDrop sample_input_ok
      released_reachable I))).
Defined.

Lemma written_slot_exclusive_witness :
  use_ro ReadOnly (s_inner writing_session) sample_key = Ret (None, s_inner writing_session) /\
  use_rw ReadOnly (s_inner writing_session) sample_key 4 = Ret (None, s_inner writing_session) /\
  (contract sample_key = SYSTEM_CODE ->
     get_code (s_inner writing_session) (owner sample_key) = Ret None) /\
  access_used_rw ReadOnly (s_inner writing_session) 0 = None.
Proof.
  exact (written_slot_exclusive sample_input writing_session ReadOnly 0 sample_key
    (OriginalReadWrite writing_copy sample_buffer) 4 sample_input_ok writing_reachable eq_refl eq_refl).
Defined.

Lemma drop_commits_witness :
  run_op writing_session OpDrop = Ret (Session
    {| slots := [(sample_key, Modified writing_copy)]; accesses := []; new_contracts := [] |} []).
Proof.
  exact (drop_commits sample_input writing_session 0 true [] sample_input_ok writing_reachable eq_refl).
Defined.


Lemma reset_then_drop_releases_parents_witness :
  exists s1 s2, run_op nested_session OpReset = Ret s1 /\ run_op s1 OpDrop = Ret s2 /\
    accesses (s_inner s2) = [] /\
    (forall idx k st, idx ∈ slot_index <$> take 1 (accesses (s_inner nested_session)) ->
       slots (s_inner nested_session) !! idx = Some (k, st) ->
       slots (s_inner s2) !! idx = Some (k, after_commit st) /\
       access_used_rw root_nested_rw (s_inner s2) idx = None) /\
    (forall parent_len o', root_nested_rw = ReadWrite parent_len o' -> 0 < parent_len ->
       run_op s2 OpDrop = Fault).
Proof.
  exact (reset_then_drop_releases_parents sample_input nested_session 1 false root_nested_rw []
    sample_input_ok nested_reachable eq_refl).
Defined.

Lemma missing_slot_access_witness :
  exists r i', use_rw (ReadWrite 0 true)
      {| slots := []; accesses := []; new_contracts := [Addr 100 5] |} sample_key 4 = Ret (r, i') /\
    (is_Some r <-> contract sample_key = NULL \/ exists a, a ∈ [Addr 100 5] /\
       (addr_0 a = addr_0 (owner sample_key) \/ addr_0 a = addr_0 (contract sample_key))) /\
    (r = None -> i' = {| slots := []; accesses := []; new_contracts := [Addr 100 5] |}).
Proof.
  exact (missing_slot_access 0 true
    {| slots := []; accesses := []; new_contracts := [Addr 100 5] |} sample_key 4 eq_refl).
Defined.

Lemma read_only_slot_becomes_writable_witness :
  exists i1 s2 copy i3,
    use_rw root_nested_rw (new [ReadOnlySlot sample_key sample_buffer]) sample_key 4 = Ret (None, i1) /\
    run_ops (open_session [ReadOnlySlot sample_key sample_buffer])
      [OpOpen; OpUseRo sample_key; OpDrop] = Ret s2 /\
    use_rw root_nested_rw (s_inner s2) sample_key 4 = Ret (Some (0, copy), i3) /\
    holds copy [x01; x02].
Proof.
  apply (read_only_slot_becomes_writable sample_key sample_buffer [x01; x02] 4);
    [done|apply sample_buffer_holds|by vm_compute].
Defined.

End Slots.
