(* ===== verification/NativeExecutor.v ===== *)
(** * The native executor

    Model of [crates/execution/ab-executor-native/src/context.rs] and
    [context/ffi_call.rs]: a method call is prepared from the metadata of the method and
    the arguments of the caller, the method runs, possibly calling other methods, and
    its results are applied to the slots.  Contract code is any [guest] program: it
    writes to the slots it was given, makes calls and returns.  Arguments are lists of
    values instead of structures of pointers; reading an argument of another kind than
    the caller provided is [Fault], as is a panic.  The metadata of a method is given
    decoded. *)

From S2P Require Import Prelude Slices AlignedBuffer IoTypes Shards Address SystemContracts Slots.
From stdpp Require Import prelude.
From Stdlib Require Import NArith Lia.
From Stdlib Require Import Strings.Byte.

Module NativeExecutor.
Import AlignedBuffer Address SystemContracts Slots.

Abbreviation error := IoTypes.ContractError.t.
Definition Forbidden : error := IoTypes.ContractError.Forbidden.
Definition InternalError : error := IoTypes.ContractError.InternalError.
Definition BadInput : error := IoTypes.ContractError.BadInput.
Definition BadOutput : error := IoTypes.ContractError.BadOutput.
Definition NotFound : error := IoTypes.ContractError.NotFound.
Definition NotImplemented : error := IoTypes.ContractError.NotImplemented.

(** ** Methods *)

Inductive method_kind : Type :=
| Init
| UpdateStateless
| UpdateStatefulRo
| UpdateStatefulRw
| ViewStateless
| ViewStateful.

Definition has_self (k : method_kind) : bool :=
  match k with
  | Init | UpdateStateless | ViewStateless => false
  | UpdateStatefulRo | UpdateStatefulRw | ViewStateful => true
  end.

Inductive argument_kind : Type :=
| EnvRo
| EnvRw
| TmpRo
| TmpRw
| SlotRo
| SlotRw
| Input
| Output
| Return.

Definition MAX_TOTAL_METHOD_ARGS : nat := 8.

(** What the caller passes for one argument. *)
Inductive external_arg : Type :=
| ExtAddress (a : address)
| ExtInput (bytes : list byte)
| ExtOutput (capacity : N)
| ExtReturn.

(** What the method receives for one argument. *)
Inductive internal_arg : Type :=
| IntAddress (a : address)
| IntRo (bytes : list byte)
| IntRw (b : buffer)
| IntEnv (env : env_state)
| IntInput (bytes : list byte)
| IntOutput (capacity : N)
| IntReturn.

Record prepared_method : Type := {
  pm_contract : address;
  pm_fingerprint : N;
  pm_external_args : list external_arg;
  pm_context : method_context
}.

(** Where the data of a writable slot is when the method returns: in the allocation of
    the slot, with the size the method claims, in another allocation, or nowhere. *)
Inductive slot_result : Type :=
| SameAllocation (size : N)
| OtherAllocation (bytes : list byte)
| NullPointer.

Record guest_return : Type := {
  gr_result : result unit error;
  gr_slots : list slot_result;
  (** the contents of the outputs, with the sizes the method claims, and the return value *)
  gr_outputs : list (list byte);
  gr_returned : list byte;
  (** what was written to the pointer of a new address *)
  gr_address : option address
}.

(** The outputs and the return value, or an error. *)
Definition call_result : Type := result (list (list byte) * list byte) error.

(** The behaviour of a method: [GWrite k bytes] writes to the start of the allocation of
    its [k]-th writable slot. *)
Inductive guest : Type :=
| GReturn (r : guest_return)
| GWrite (k : nat) (bytes : list byte) (next : guest)
| GCall (m : prepared_method) (next : call_result -> guest).

Record method_details : Type := {
  recommended_state_capacity : N;
  recommended_slot_capacity : N;
  recommended_tmp_capacity : N;
  (** kind, number of arguments and the arguments; [None] is a decoding error *)
  method_metadata : option (method_kind * nat * list (option argument_kind));
  ffi_fn : list internal_arg -> guest
}.

(** ** Preparing a call *)

Inductive post_processing : Type :=
| PostSlot (slot_index : nat) (must_be_not_empty : bool)
| PostOutput (capacity : N).

Inductive env_kind : Type := NoEnv | EnvReadOnly | EnvReadWrite.

Record preparation : Type := {
  p_inner : inner;
  p_external : list external_arg;
  p_internal : list internal_arg;
  p_post : list post_processing;
  (** the slots the method has a pointer for writing to *)
  p_writable : list nat;
  p_env : env_kind;
  p_new_address : bool
}.

(** An error also has the slots as they are then. *)
Definition prepared : Type := result preparation (error * inner).

Definition post_slots (post : list post_processing) : list nat :=
  omap (fun e => match e with PostSlot idx _ => Some idx | PostOutput _ => None end) post.

Definition with_use (p : preparation) (i : inner) (ext : list external_arg)
    (args : list internal_arg) (post : list post_processing) : preparation :=
  {| p_inner := i; p_external := ext; p_internal := p_internal p ++ args;
     p_post := p_post p ++ post; p_writable := p_writable p ++ post_slots post;
     p_env := p_env p; p_new_address := p_new_address p |}.

(** The return value of an [#[init]] method is written to the slot of the state. *)
Definition with_state_pointer (p : preparation) (i : inner) (idx : nat) : preparation :=
  {| p_inner := i; p_external := p_external p; p_internal := p_internal p ++ [IntReturn];
     p_post := p_post p; p_writable := p_writable p ++ [idx];
     p_env := p_env p; p_new_address := p_new_address p |}.

Definition read_address (ext : list external_arg) : outcome (address * list external_arg) :=
  match ext with ExtAddress a :: ext => Ret (a, ext) | _ => Fault end.

Section Call.
(** [true] when only [#[view]] methods are allowed, the slots and the contract called. *)
Context (view_only : bool) (n : nested) (contract : address) (kind : method_kind)
  (details : method_details).

Definition state_key : slot_key := SlotKey contract SYSTEM_STATE.

(** [&self] and [&mut self] *)
Definition prepare_self (p : preparation) : outcome prepared :=
  match kind with
  | Init | UpdateStateless | ViewStateless => Ret (Ok p)
  | UpdateStatefulRo | ViewStateful =>
      let! (used, i) := use_ro n (p_inner p) state_key in
      match used with
      | None => Ret (Err (Forbidden, i))
      | Some b =>
          if decide (buf_len b = 0)%N then Ret (Err (Forbidden, i))
          else
            let! bytes := as_slice b in
            Ret (Ok (with_use p i (p_external p) [IntRo bytes] []))
      end
  | UpdateStatefulRw =>
      if view_only then Ret (Err (Forbidden, p_inner p))
      else
        let! (used, i) := use_rw n (p_inner p) state_key (recommended_state_capacity details) in
        match used with
        | None => Ret (Err (Forbidden, i))
        | Some (idx, b) =>
            if decide (buf_len b = 0)%N then Ret (Err (Forbidden, i))
            else Ret (Ok (with_use p i (p_external p) [IntRw b] [PostSlot idx false]))
        end
  end.

Definition with_env (p : preparation) (e : env_kind) (env : env_state) : preparation :=
  {| p_inner := p_inner p; p_external := p_external p; p_internal := p_internal p ++ [IntEnv env];
     p_post := p_post p; p_writable := p_writable p; p_env := e; p_new_address := p_new_address p |}.

(** The result of an [#[init]] method, which is the state of the contract. *)
Definition prepare_new_state (p : preparation) (argument : argument_kind) : outcome prepared :=
  if view_only then Ret (Err (Forbidden, p_inner p))
  else
    let! (used, i) := use_rw n (p_inner p) state_key (recommended_state_capacity details) in
    match used with
    | None => Ret (Err (Forbidden, i))
    | Some (idx, b) =>
        if decide (buf_len b <> 0)%N then Ret (Err (Forbidden, i))
        else
          match argument with
          | Return =>
              let (_, i) := write_used n i idx (set_len b (buf_capacity b)) in
              Ret (Ok (with_state_pointer p i idx))
          | _ =>
              Ret (Ok (with_use p i (p_external p) [IntRw b] [PostSlot idx true]))
          end
    end.

Definition prepare_output (p : preparation) (argument : argument_kind)
    (last_argument is_allocate_new_address_method : bool) : outcome prepared :=
  if last_argument && is_allocate_new_address_method then
    match p_external p with
    | ExtReturn :: ext =>
        let p := with_use p (p_inner p) ext [IntReturn] [] in
        Ret (Ok {| p_inner := p_inner p; p_external := p_external p; p_internal := p_internal p;
                   p_post := p_post p; p_writable := p_writable p; p_env := p_env p;
                   p_new_address := true |})
    | _ => Fault
    end
  else
    match argument, p_external p with
    | Return, ExtReturn :: ext => Ret (Ok (with_use p (p_inner p) ext [IntReturn] []))
    | Output, ExtOutput capacity :: ext =>
        Ret (Ok (with_use p (p_inner p) ext [IntOutput capacity] [PostOutput capacity]))
    | _, _ => Fault
    end.

Definition prepare_argument (env : env_state) (is_allocate_new_address_method last_argument : bool)
    (p : preparation) (argument : argument_kind) : outcome prepared :=
  match argument with
  | EnvRo => Ret (Ok (with_env p EnvReadOnly env))
  | EnvRw =>
      if view_only then Ret (Err (Forbidden, p_inner p))
      else Ret (Ok (with_env p EnvReadWrite env))
  | TmpRo =>
      if view_only then Ret (Err (Forbidden, p_inner p))
      else
        let! (used, i) := use_ro n (p_inner p) (SlotKey contract NULL) in
        match used with
        | None => Ret (Err (Forbidden, i))
        | Some b => let! bytes := as_slice b in Ret (Ok (with_use p i (p_external p) [IntRo bytes] []))
        end
  | SlotRo =>
      let! (owner, ext) := read_address (p_external p) in
      let! (used, i) := use_ro n (p_inner p) (SlotKey owner contract) in
      match used with
      | None => Ret (Err (Forbidden, i))
      | Some b =>
          let! bytes := as_slice b in Ret (Ok (with_use p i ext [IntAddress owner; IntRo bytes] []))
      end
  | TmpRw =>
      if view_only then Ret (Err (Forbidden, p_inner p))
      else
        let! (used, i) :=
          use_rw n (p_inner p) (SlotKey contract NULL) (recommended_tmp_capacity details) in
        match used with
        | None => Ret (Err (Forbidden, i))
        | Some (idx, b) => Ret (Ok (with_use p i (p_external p) [IntRw b] [PostSlot idx false]))
        end
  | SlotRw =>
      if view_only then Ret (Err (Forbidden, p_inner p))
      else
        let! (owner, ext) := read_address (p_external p) in
        let! (used, i) :=
          use_rw n (p_inner p) (SlotKey owner contract) (recommended_slot_capacity details) in
        match used with
        | None => Ret (Err (Forbidden, i))
        | Some (idx, b) =>
            Ret (Ok (with_use p i ext [IntAddress owner; IntRw b] [PostSlot idx false]))
        end
  | Input =>
      match p_external p with
      | ExtInput bytes :: ext => Ret (Ok (with_use p (p_inner p) ext [IntInput bytes] []))
      | _ => Fault
      end
  | Output | Return =>
      match kind, last_argument with
      | Init, true => prepare_new_state p argument
      | _, _ => prepare_output p argument last_argument is_allocate_new_address_method
      end
  end.

(** The [count] arguments still to be handled; their metadata may end early. *)
Fixpoint prepare_arguments (env : env_state) (is_allocate : bool) (count : nat)
    (arguments : list (option argument_kind)) (p : preparation) : outcome prepared :=
  match count with
  | O => Ret (Ok p)
  | S count =>
      match arguments with
      | [] | None :: _ => Ret (Err (InternalError, p_inner p))
      | Some argument :: arguments =>
          let! r := prepare_argument env is_allocate (bool_decide (count = 0)) p argument in
          match r with
          | Err e => Ret (Err e)
          | Ok p => prepare_arguments env is_allocate count arguments p
          end
      end
  end.
End Call.

(** ** Running a method *)

Section Exec.
(** [ExecutorContext::call] of the nested context, with whether mutation is allowed. *)
Context (nested_call : bool -> nested -> inner -> env_state -> prepared_method ->
  outcome (call_result * inner)).

Fixpoint exec (e : env_kind) (n : nested) (env : env_state) (writable : list nat)
    (g : guest) (i : inner) : outcome (guest_return * inner) :=
  match g with
  | GReturn r => Ret (r, i)
  | GWrite k bytes next =>
      match writable !! k with
      | None => Fault
      | Some idx =>
          match access_used_rw n i idx with
          | None => Fault
          | Some b =>
              let! b := write_at b 0 bytes in
              exec e n env writable next (snd (write_used n i idx b))
          end
      end
  | GCall m next =>
      match e with
      | NoEnv => Fault
      | EnvReadOnly =>
          let! (r, i) := nested_call false n i env m in exec e n env writable (next r) i
      | EnvReadWrite =>
          let! (r, i) := nested_call true n i env m in exec e n env writable (next r) i
      end
  end.
End Exec.

(** One entry of the loop over [post_processing]; slots and outputs are matched with
    what the method returned for them. *)
Definition finish_slot (n : nested) (i : inner) (idx : nat) (must_be_not_empty : bool)
    (r : slot_result) : outcome (result inner error) :=
  let size :=
    match r with
    | SameAllocation size => size
    | OtherAllocation bytes => N.of_nat (length bytes)
    | NullPointer => 0%N
    end in
  if must_be_not_empty && bool_decide (size = 0%N) then Ret (Err BadOutput)
  else
    match access_used_rw n i idx with
    | None => Fault
    | Some b =>
        match r with
        | OtherAllocation bytes =>
            let! b := copy_from_slice b bytes in Ret (Ok (snd (write_used n i idx b)))
        | NullPointer => Ret (Err BadOutput)
        | SameAllocation size =>
            if decide (buf_capacity b < size)%N then Ret (Err BadOutput)
            else Ret (Ok (snd (write_used n i idx (set_len b size))))
        end
    end.

Fixpoint finish (n : nested) (post : list post_processing) (slots : list slot_result)
    (outputs : list (list byte)) (i : inner) : outcome (result unit error * inner) :=
  match post with
  | [] => Ret (Ok tt, i)
  | PostSlot idx must_be_not_empty :: post =>
      match slots with
      | [] => Fault
      | r :: slots =>
          let! done := finish_slot n i idx must_be_not_empty r in
          match done with
          | Err e => Ret (Err e, i)
          | Ok i => finish n post slots outputs i
          end
      end
  | PostOutput capacity :: post =>
      match outputs with
      | [] => Fault
      | o :: outputs =>
          if decide (capacity < N.of_nat (length o))%N then Ret (Err BadOutput, i)
          else finish n post slots outputs i
      end
  end.

(** The slots are dropped when the function returns, whatever the result. *)
Definition return_with (n : nested) (r : call_result) (i : inner)
    : outcome (call_result * inner) :=
  let! i := drop_nested n i in Ret (r, i).

(** Everything after the method returned. *)
Definition after_call (n : nested) (p : preparation) (r : guest_return) (i : inner)
    : outcome (call_result * inner) :=
  match gr_result r with
  | Err e => let! (n, i) := reset n i in return_with n (Err e) i
  | Ok _ =>
      let! (added, i) :=
        if p_new_address p then
          match gr_address r with
          | None => Fault
          | Some a => Ret (add_new_contract n i a)
          end
        else Ret (true, i) in
      if negb added then return_with n (Err InternalError) i
      else
        let! (done, i) := finish n (p_post p) (gr_slots r) (gr_outputs r) i in
        return_with n (match done with Ok _ => Ok (gr_outputs r, gr_returned r) | Err e => Err e end) i
  end.

Definition is_update (k : method_kind) : bool :=
  match k with
  | Init | UpdateStateless | UpdateStatefulRo | UpdateStatefulRw => true
  | ViewStateless | ViewStateful => false
  end.

Definition make_ffi_call
    (nested_call : bool -> nested -> inner -> env_state -> prepared_method ->
      outcome (call_result * inner))
    (allow_env_mutation is_allocate : bool) (parent : nested) (i : inner) (contract : address)
    (details : method_details) (external_args : list external_arg) (env : env_state)
    : outcome (call_result * inner) :=
  match method_metadata details with
  | None => Ret (Err InternalError, i)
  | Some (kind, num_arguments, arguments) =>
      if decide (MAX_TOTAL_METHOD_ARGS < num_arguments + (if has_self kind then 1 else 0)) then
        Ret (Err BadInput, i)
      else if is_update kind && negb allow_env_mutation then Ret (Err Forbidden, i)
      else
        match (if is_update kind then new_nested_rw parent i else Some (new_nested_ro parent)) with
        | None => Ret (Err InternalError, i)
        | Some n =>
            let view_only := negb (is_update kind) in
            let start :=
              {| p_inner := i; p_external := external_args; p_internal := []; p_post := [];
                 p_writable := []; p_env := NoEnv; p_new_address := false |} in
            let! self := prepare_self view_only n contract kind details start in
            let! r :=
              match self with
              | Err e => Ret (Err e)
              | Ok p =>
                  prepare_arguments view_only n contract kind details env is_allocate num_arguments
                    arguments p
              end in
            match r with
            | Err (e, i) => return_with n (Err e) i
            | Ok p =>
                let! (ret, i) :=
                  exec nested_call (p_env p) n env (p_writable p) (ffi_fn details (p_internal p))
                    (p_inner p) in
                after_call n p ret i
            end
        end
  end.

(** ** [NativeExecutorContext::call] *)

Section Context_.
(** The shard, the methods by code and fingerprint, and the fingerprint of
    [AddressAllocator::allocate_address]. *)
Context (shard : N) (methods_by_code : list byte -> N -> option method_details)
  (allocate_fingerprint : N).

(** [fuel] bounds the depth of nested calls. *)
Fixpoint call (fuel : nat) (allow_env_mutation : bool) (n : nested) (i : inner)
    (previous : env_state) (m : prepared_method) : outcome (call_result * inner) :=
  match fuel with
  | O => Fault
  | S fuel =>
      let contract := pm_contract m in
      let env := nested_env shard previous contract (pm_context m) in
      let! code := get_code i contract in
      match code with
      | None => Ret (Err NotFound, i)
      | Some b =>
          let! code := as_slice b in
          match methods_by_code code (pm_fingerprint m) with
          | None => Ret (Err NotImplemented, i)
          | Some details =>
              let is_allocate :=
                eqb contract (system_address_allocator shard) &&
                (pm_fingerprint m =? allocate_fingerprint)%N in
              make_ffi_call (call fuel) allow_env_mutation is_allocate n i contract details
                (pm_external_args m) env
          end
      end
  end.

(** What [transaction_verify] and [transaction_execute] do with the call of the handler,
    on the slots at the root. *)
Definition transaction_verify (fuel : nat) (i : inner) (m : prepared_method)
    : outcome (call_result * inner) :=
  let n := root_nested_ro in
  let! (r, i) := call fuel false n i (transaction_env shard) m in return_with n r i.

Definition transaction_execute (fuel : nat) (i : inner) (m : prepared_method)
    : outcome (call_result * inner) :=
  let n := root_nested_rw in
  let! (r, i) := call fuel true n i (transaction_env shard) m in return_with n r i.
End Context_.

(** ** Chains of calls *)

(** The environments of the methods that are running, innermost first. *)
Inductive active (shard : N) : list env_state -> Prop :=
| active_start : active shard [transaction_env shard]
| active_call env chain contract mc :
    active shard (env :: chain) ->
    active shard (nested_env shard env contract mc :: env :: chain).

Lemma active_context shard chain env :
  active shard (env :: chain) ->
  caller env = match chain with parent :: _ => own_address parent | [] => NULL end /\
  (context env = NULL \/ exists parent, parent ∈ chain /\ context env = own_address parent).
Proof.
  intros Ha. remember (env :: chain) as l eqn:Hl. revert env chain Hl.
  induction Ha as [|env0 chain0 contract mc Ha IH]; intros env chain [= <- <-].
  - split; [done|]. by left.
  - split; [done|]. destruct mc; cbn.
    + destruct (IH env0 chain0 eq_refl) as [_ [Hn|(parent & Hin & Hp)]]; [by left|right].
      exists parent. split; [by right|done].
    + by left.
    + right. exists env0. split; [by left|done].
Qed.

(** ** View calls *)

(** The slots are untouched and the method can not write. *)
Definition read_only (i : inner) (r : prepared) : Prop :=
  match r with
  | Ok p => p_inner p = i /\ post_slots (p_post p) = [] /\ p_writable p = [] /\ p_env p <> EnvReadWrite
  | Err (_, i') => i' = i
  end.

Lemma use_ro_read_only i key r : use_ro ReadOnly i key = Ret r -> snd r = i.
Proof.
  cbn [use_ro]. destruct (use_ro_internal_read_only i key); cbn [obind]; [|done]. by intros [= <-].
Qed.

Lemma post_slots_app a b : post_slots (a ++ b) = post_slots a ++ post_slots b.
Proof. apply omap_app. Qed.

Lemma read_only_with_use p i ext args post :
  read_only i (Ok p) -> post_slots post = [] -> read_only i (Ok (with_use p i ext args post)).
Proof.
  intros (Hi & Hp & Hw & He) Hpost. cbn. rewrite post_slots_app, Hp, Hw, Hpost. done.
Qed.

Ltac use_read_only :=
  match goal with
  | |- context [use_ro ReadOnly ?i ?k] =>
      let E := fresh "E" in
      destruct (use_ro ReadOnly i k) as [[[b|] i']|] eqn:E; cbn [obind]; [| |done];
      apply use_ro_read_only in E; cbn in E
  end.

Lemma prepare_self_read_only contract kind details p r :
  read_only (p_inner p) (Ok p) -> is_update kind = false ->
  prepare_self true ReadOnly contract kind details p = Ret r -> read_only (p_inner p) r.
Proof.
  intros Hp Hk. unfold prepare_self. destruct kind; try done; [by intros [= <-]|].
  use_read_only; [|by intros [= <-]]. destruct (decide _); [by intros [= <-]|].
  destruct (as_slice b); cbn [obind]; [|done]. intros [= <-]. rewrite E. by apply read_only_with_use.
Qed.

Lemma prepare_output_read_only p argument last is_allocate r :
  read_only (p_inner p) (Ok p) -> prepare_output p argument last is_allocate = Ret r ->
  read_only (p_inner p) r.
Proof.
  intros (H1 & H2 & H3 & H4). unfold prepare_output.
  destruct (last && is_allocate); [|destruct argument; try done];
    (destruct (p_external p) as [|[| | |] ext]; try done); intros [= <-];
    split_and!; cbn; rewrite ?post_slots_app, ?H2, ?H3; done.
Qed.

Lemma prepare_argument_read_only contract kind details env is_allocate last p argument r :
  read_only (p_inner p) (Ok p) -> is_update kind = false ->
  prepare_argument true ReadOnly contract kind details env is_allocate last p argument = Ret r ->
  read_only (p_inner p) r.
Proof.
  intros Hp Hk. destruct argument; cbn [prepare_argument]; try (by intros [= <-]).
  - intros [= <-]. by destruct Hp as (? & ? & ? & ?).
  - destruct (p_external p) as [|[a| | |] ext]; try done. cbn [read_address obind].
    use_read_only; [|by intros [= <-]]. destruct (as_slice b); cbn [obind]; [|done].
    intros [= <-]. rewrite E. by apply read_only_with_use.
  - destruct (p_external p) as [|[| | |] ext]; try done. intros [= <-]. by apply read_only_with_use.
  - intros Hr. apply (prepare_output_read_only p Output last is_allocate r Hp). by destruct kind.
  - intros Hr. apply (prepare_output_read_only p Return last is_allocate r Hp). by destruct kind.
Qed.

Lemma prepare_arguments_read_only contract kind details env is_allocate count arguments p r :
  read_only (p_inner p) (Ok p) -> is_update kind = false ->
  prepare_arguments true ReadOnly contract kind details env is_allocate count arguments p = Ret r ->
  read_only (p_inner p) r.
Proof.
  revert arguments p. induction count as [|count IH]; intros arguments p Hp Hk; cbn [prepare_arguments].
  { by intros [= <-]. }
  destruct arguments as [|[argument|] arguments]; [by intros [= <-]| |by intros [= <-]].
  destruct (prepare_argument _ _ _ _ _ _ _ _ _ _) as [r1|] eqn:E; cbn [obind]; [|done].
  apply prepare_argument_read_only in E; [|done..]. destruct r1 as [p1|e]; [|by intros [= <-]].
  destruct E as (Hi & Hpost & Hw & He). intros Hr. rewrite <- Hi in *. by apply (IH arguments p1).
Qed.

Lemma exec_read_only nested_call e env g i r i' :
  (forall n i env m r i', nested_call false n i env m = Ret (r, i') -> i' = i) ->
  e <> EnvReadWrite -> exec nested_call e ReadOnly env [] g i = Ret (r, i') -> i' = i.
Proof.
  intros Hcall He. revert i. induction g as [ret|k bytes next IH|m next IH]; intros i; cbn [exec].
  - by intros [= _ <-].
  - done.
  - destruct e; [done| |done].
    destruct (nested_call false ReadOnly i env m) as [[r1 i1]|] eqn:E; cbn [obind]; [|done].
    apply Hcall in E as ->. apply IH.
Qed.

Lemma finish_read_only n post slots outputs i r i' :
  post_slots post = [] -> finish n post slots outputs i = Ret (r, i') -> i' = i.
Proof.
  revert outputs. induction post as [|[idx must|capacity] post IH]; intros outputs Hpost; cbn [finish].
  - by intros [= _ <-].
  - done.
  - destruct outputs as [|o outputs]; [done|]. destruct (decide _); [by intros [= _ <-]|]. by apply IH.
Qed.

Lemma make_ffi_call_read_only nested_call allow is_allocate n i contract details ext env r i' :
  (forall n i env m r i', nested_call false n i env m = Ret (r, i') -> i' = i) ->
  (forall kind num arguments, method_metadata details = Some (kind, num, arguments) ->
    is_update kind && allow = false) ->
  make_ffi_call nested_call allow is_allocate n i contract details ext env = Ret (r, i') -> i' = i.
Proof.
  intros Hcall Hkind. unfold make_ffi_call.
  destruct (method_metadata details) as [[[kind num] arguments]|]; [|by intros [= _ <-]].
  destruct (decide _); [by intros [= _ <-]|]. specialize (Hkind kind num arguments eq_refl).
  destruct (is_update kind) eqn:Hk; cbn [negb andb] in *; [subst allow; by intros [= _ <-]|].
  unfold new_nested_ro. set (start := Build_preparation _ _ _ _ _ _ _).
  assert (Hstart : read_only (p_inner start) (Ok start)) by (split_and!; done).
  destruct (prepare_self _ _ _ _ _ _) as [self|] eqn:Es; cbn [obind]; [|done].
  apply prepare_self_read_only in Es; [|done..].
  assert (Hr : forall r, match self with
      | Err e => Ret (Err e)
      | Ok p => prepare_arguments true ReadOnly contract kind details env is_allocate num arguments p
      end = Ret r -> read_only i r).
  { destruct self as [p|e]; [|by intros ? [= <-]]. intros r1 Hr1.
    pose proof Es as (Hi & ? & ? & ?). change (p_inner start) with i in Hi. rewrite <- Hi in *.
    apply prepare_arguments_read_only in Hr1; done. }
  destruct (match self with Err e => _ | Ok p => _ end) as [r1|]; cbn [obind]; [|done].
  specialize (Hr r1 eq_refl) as Er. destruct r1 as [p|[e i1]].
  - destruct Er as (Hi & Hpost & Hw & He). rewrite Hi, Hw.
    destruct (exec _ _ _ _ _ _ _) as [[ret i2]|] eqn:Ee; cbn [obind]; [|done].
    apply exec_read_only in Ee as ->; [|done..]. unfold after_call, return_with.
    destruct (gr_result ret); [|by intros [= _ <-]].
    destruct (p_new_address p); [destruct (gr_address ret); [|done]|]; cbn [add_new_contract negb obind].
    + by intros [= _ <-].
    + destruct (finish _ _ _ _ _) as [[done_ i3]|] eqn:Ef; cbn [obind]; [|done].
      apply finish_read_only in Ef as ->; [|done]. by intros [= _ <-].
  - cbn in Er. subst i1. unfold return_with. by intros [= _ <-].
Qed.

Lemma call_read_only shard methods allocate fuel n i env m r i' :
  call shard methods allocate fuel false n i env m = Ret (r, i') -> i' = i.
Proof.
  revert n i env m r i'. induction fuel as [|fuel IH]; intros n i env m r i'; cbn [call]; [done|].
  destruct (get_code i (pm_contract m)) as [[b|]|]; cbn [obind]; [|by intros [= _ <-]|done].
  destruct (as_slice b) as [code|]; cbn [obind]; [|done].
  destruct (methods code (pm_fingerprint m)) as [details|]; [|by intros [= _ <-]].
  apply make_ffi_call_read_only; [apply IH|]. intros. by rewrite andb_false_r.
Qed.

(** ** Failed calls *)

(** The bytes a slot has, once all accesses are finished. *)
Definition buffer_bytes (b : buffer) : list byte := match as_slice b with Ret l => l | Fault => [] end.

Definition content (i : inner) (key : slot_key) : list byte :=
  match list_find (fun p => p.1 = key) (slots i) with
  | Some (_, (_, st)) => buffer_bytes (committed st)
  | None => []
  end.

Lemma content_in i key st :
  NoDup (slots i).*1 -> (key, st) ∈ slots i -> content i key = buffer_bytes (committed st).
Proof.
  intros Hnd Hin. unfold content.
  destruct (list_find (fun p => p.1 = key) (slots i)) as [[idx [k st']]|] eqn:Hf.
  - apply list_find_Some in Hf as (Hl & Hk & _). cbn in Hk. subst k.
    apply list_elem_of_lookup in Hin as [j Hj].
    assert (idx = j) as <-.
    { apply (NoDup_lookup (slots i).*1 idx j key Hnd); by rewrite list_lookup_fmap, ?Hl, ?Hj. }
    rewrite Hl in Hj. by injection Hj as ->.
  - apply list_find_None in Hf. rewrite Forall_forall in Hf. by apply Hf in Hin.
Qed.

Lemma content_not_in i key : key ∉ (slots i).*1 -> content i key = [].
Proof.
  intros Hn. unfold content.
  destruct (list_find (fun p => p.1 = key) (slots i)) as [[idx [k st']]|] eqn:Hf; [|done].
  apply list_find_Some in Hf as (Hl & Hk & _). cbn in Hk. subst k. exfalso. apply Hn.
  apply list_elem_of_fmap. exists (key, st'). split; [done|by eapply list_elem_of_lookup_2].
Qed.

(** No slot being written differs from its committed content yet. *)
Definition clean (i : inner) : Prop :=
  forall idx k st, slots i !! idx = Some (k, st) ->
    exists bytes, holds (committed st) bytes /\ holds (current st) bytes.

Lemma idle_clean i : inner_ok i -> accesses i = [] -> clean i.
Proof.
  intros Hok Ha idx k st Hl. destruct (ok_buffers i Hok idx k st Hl) as [[bytes Hb] _].
  exists bytes. split; [done|]. pose proof (unaccessed_state i idx k st Hok Hl) as Hu.
  rewrite Ha in Hu. specialize (Hu (not_elem_of_nil _)). by destruct st.
Qed.

Lemma clean_insert i idx k st st' acc :
  clean i -> slots i !! idx = Some (k, st) ->
  (exists bytes, holds (committed st') bytes /\ holds (current st') bytes) ->
  clean {| slots := <[idx := (k, st')]> (slots i); accesses := acc; new_contracts := new_contracts i |}.
Proof.
  intros Hc Hl Hst idx' k' st0. cbn. rewrite list_lookup_insert_Some.
  intros [(<- & [= <- <-] & _)|[_ Hl']]; [done|by eapply Hc].
Qed.

Lemma clean_push i key st acc :
  clean i -> (exists bytes, holds (committed st) bytes /\ holds (current st) bytes) ->
  clean {| slots := slots i ++ [(key, st)]; accesses := acc; new_contracts := new_contracts i |}.
Proof.
  intros Hc Hst idx k st0. cbn. intros [[_ Hl]|[-> [= <- <-]]]%lookup_snoc; [by eapply Hc|done].
Qed.

Lemma empty_holds : holds empty [].
Proof. apply allocate_holds. unfold u32_max. lia. Qed.

Lemma use_ro_clean i key r i' :
  clean i -> use_ro_internal i key = Ret (r, i') -> clean i'.
Proof.
  intros Hc. unfold use_ro_internal. destruct (find_slot key (slots i)) as [idx|] eqn:Hf.
  - destruct (find_slot_Some _ _ _ Hf) as [st Hst].
    assert (Hread : exists bytes, holds (committed (fst (read_state st))) bytes /\
      holds (current (fst (read_state st))) bytes).
    { destruct (Hc idx key st Hst) as (bytes & H1 & H2). exists bytes. by destruct st. }
    destruct (find_access idx (accesses i)) as [[]|]; cbn [with_accesses slots];
      [by intros [= _ <-]| |];
      rewrite (arr_get_Some _ _ _ Hst); cbn [obind]; destruct (read_state st) as [st' b];
      rewrite arr_set_lt by (by eapply lookup_lt_Some); cbn [obind]; intros [= _ <-];
      by apply (clean_insert i idx key st).
  - destruct (may_create key (new_contracts i)); intros [= _ <-]; [|done].
    apply clean_push; [done|]. exists []. split; apply empty_holds.
Qed.

Lemma use_rw_clean i key capacity r i' :
  inner_ok i -> (capacity <= u32_max)%N -> clean i ->
  use_rw_internal i key capacity = Ret (r, i') -> clean i'.
Proof.
  intros Hok Hcap Hc. unfold use_rw_internal. destruct (find_slot key (slots i)) as [idx|] eqn:Hf.
  - destruct (find_slot_Some _ _ _ Hf) as [st Hst]. rewrite existsb_access.
    case_bool_decide as Hacc; [by intros [= _ <-]|].
    pose proof (in_use_written st (unaccessed_state i idx key st Hok Hst Hacc)) as Hnw.
    cbn [slots with_accesses]. rewrite (arr_get_Some _ _ _ Hst). cbn [obind].
    destruct (Hc idx key st Hst) as (bytes & H1 & H2).
    destruct st as [b|b|b|b|b p|b p]; try done; cbn [write_state obind].
    + destruct (writable_copy_ok b bytes capacity H1 Hcap) as (copy & -> & Hcopy & _). cbn [obind].
      rewrite arr_set_lt by (by eapply lookup_lt_Some). cbn [obind]. intros [= _ <-].
      apply (clean_insert i idx key (Original b)); [done|done|]. by exists bytes.
    + intros [= _ <-]. intros j k st Hl. by eapply Hc.
    + destruct (writable_copy_ok b bytes capacity H1 Hcap) as (copy & -> & Hcopy & _). cbn [obind].
      rewrite arr_set_lt by (by eapply lookup_lt_Some). cbn [obind]. intros [= _ <-].
      apply (clean_insert i idx key (Modified b)); [done|done|]. by exists bytes.
    + intros [= _ <-]. intros j k st Hl. by eapply Hc.
  - destruct (may_create key (new_contracts i)); intros [= _ <-]; [|done].
    apply clean_push; [done|]. exists []. split; [apply empty_holds|by apply allocate_holds].
Qed.

(** A method that makes no calls. *)
Fixpoint leaf (g : guest) : Prop :=
  match g with
  | GReturn _ => True
  | GWrite _ _ next => leaf next
  | GCall _ _ => False
  end.

Lemma after_reset_committed st st' : after_reset st' = after_reset st -> committed st' = committed st.
Proof. unfold after_reset, settled. destruct (was_modified st), (was_modified st'); by intros [=]. Qed.

Lemma write_at_is_buffer b bytes b' : is_buffer b -> write_at b 0 bytes = Ret b' -> is_buffer b'.
Proof.
  intros [old (Hl & Hc & Ht)]. unfold write_at. destruct (decide _) as [Hfit|]; [|done].
  intros [= <-]. cbn [take app] in *. set (len := N.to_nat (buf_len b)) in *.
  assert (Hlen : length old = len).
  { apply (f_equal length) in Ht. rewrite length_fmap, length_take in Ht.
    pose proof (data_size_ge (buf_capacity b)). lia. }
  exists (take len bytes ++ drop (length bytes) old). split_and!; cbn.
  - rewrite <- Hl, length_app, length_fmap, length_drop. lia.
  - lia.
  - lia.
  - fold len. rewrite take_app, length_fmap, fmap_app, fmap_take. f_equal.
    by rewrite fmap_drop, <- Ht, skipn_firstn_comm.
Qed.

(** The loop over the results fails with [BadOutput] only. *)
Lemma finish_error n post slots outputs i e i' :
  finish n post slots outputs i = Ret (Err e, i') -> e = BadOutput.
Proof.
  revert slots outputs i. induction post as [|[idx must|capacity] post IH]; intros slots outputs i; cbn [finish].
  - done.
  - destruct slots as [|r slots]; [done|].
    destruct (finish_slot n i idx must r) as [[i1|e1]|] eqn:E; cbn [obind]; [apply IH| |done].
    intros [= -> _]. unfold finish_slot in E. destruct (must && _); [by injection E|].
    destruct (access_used_rw n i idx) as [b|]; [|done]. destruct r; [|destruct (copy_from_slice b bytes); done|by injection E].
    destruct (decide _); by injection E.
  - destruct outputs as [|o outputs]; [done|]. destruct (decide _); [by intros [= <- _]|apply IH].
Qed.

Section Leaf.
Context (i0 : inner) (Hok0 : inner_ok i0) (Hacc0 : accesses i0 = []).

(** The instance of a call at the root. *)
Definition leaf_nested : nested := ReadWrite 0 false.

Record good (i : inner) : Prop := { good_ok : inner_ok i; good_undo : undoable i0 i }.

Lemma good_changes i i' : good i -> inner_ok i' -> changes 0 i i' -> good i'.
Proof.
  intros [Hok Hun] Hok' Hch. split; [done|]. eapply undoable_changes; [done|]. by rewrite Hacc0.
Qed.

Lemma use_ro_good i key r i' :
  good i -> clean i -> use_ro leaf_nested i key = Ret (r, i') -> good i' /\ clean i'.
Proof.
  intros Hg Hc. cbn [use_ro leaf_nested]. intros Hu.
  destruct (use_ro_ok i key (good_ok i Hg)) as (r1 & i1 & E & Hok & _). rewrite Hu in E.
  injection E as <- <-. split; [|by eapply use_ro_clean].
  apply (good_changes i); [done|done|]. by apply (use_ro_changes 0 i key r); [apply Hg|lia|].
Qed.

Lemma use_rw_good i key capacity r i' :
  good i -> clean i -> (capacity <= u32_max)%N ->
  use_rw leaf_nested i key capacity = Ret (r, i') -> good i' /\ clean i'.
Proof.
  intros Hg Hc Hcap. cbn [use_rw leaf_nested]. intros Hu.
  destruct (use_rw_ok i key capacity (good_ok i Hg) Hcap) as (r1 & i1 & E & Hok & _). rewrite Hu in E.
  injection E as <- <-. split; [|by eapply use_rw_clean; [apply Hg|..]].
  apply (good_changes i); [done|done|]. by apply (use_rw_changes 0 i key capacity r); [lia|].
Qed.

(** After finishing all accesses with [f], every slot has the content it had before. *)
Lemma restores_finish f i acc contracts key :
  good i ->
  (forall idx k st, slots i !! idx = Some (k, st) ->
    buffer_bytes (committed (f st)) = buffer_bytes (committed st)) ->
  content {| slots := finish_at f (slot_index <$> accesses i) (slots i); accesses := acc;
             new_contracts := contracts |} key = content i0 key.
Proof.
  intros [Hok Hun] Hf. set (s' := finish_at _ _ _). set (i' := Inner s' acc contracts).
  assert (Hkeys : (slots i').*1 = (slots i).*1).
  { cbn. unfold s', finish_at. apply list_eq. intros j. rewrite !list_lookup_fmap, list_lookup_imap.
    destruct (slots i !! j) as [[k st]|]; [|done]. cbn. by case_bool_decide. }
  assert (Hnd : NoDup (slots i').*1) by (rewrite Hkeys; apply Hok).
  assert (Hin' : forall idx k st, slots i !! idx = Some (k, st) ->
    exists st', (k, st') ∈ slots i' /\ buffer_bytes (committed st') = buffer_bytes (committed st)).
  { intros idx k st Hl. pose proof (finish_at_lookup f (slot_index <$> accesses i) _ _ _ _ Hl) as Hl'.
    eexists. split; [by eapply list_elem_of_lookup_2|]. case_bool_decide; [by eapply Hf|done]. }
  destruct (decide (key ∈ (slots i0).*1)) as [Hin|Hnin].
  - apply list_elem_of_fmap in Hin as ([k st] & -> & Hin). cbn.
    rewrite (content_in i0 k st (ok_keys _ Hok0) Hin).
    apply list_elem_of_lookup in Hin as [idx Hl].
    destruct (un_old _ _ Hun idx k st Hl) as (st' & Hl' & Hr & _).
    destruct (Hin' idx k st' Hl') as (st'' & Hin'' & Hb).
    by rewrite (content_in i' k st'' Hnd Hin''), Hb, (after_reset_committed _ _ Hr).
  - rewrite (content_not_in i0 key Hnin). destruct (decide (key ∈ (slots i).*1)) as [Hin|Hn].
    2: { apply content_not_in. by rewrite Hkeys. }
    apply list_elem_of_fmap in Hin as ([k st] & -> & Hin). cbn in *.
    apply list_elem_of_lookup in Hin as [idx Hl].
    destruct (Hin' idx k st Hl) as (st'' & Hin'' & Hb). rewrite (content_in i' k st'' Hnd Hin''), Hb.
    destruct (decide (length (slots i0) <= idx)) as [Hge|Hlt].
    + destruct (un_new _ _ Hun idx k st Hge Hl) as [_ Hr].
      by rewrite (after_reset_committed (Original empty) st Hr).
    + exfalso. apply Hnin. destruct (slots i0 !! idx) as [[k0 st0]|] eqn:Hl0.
      2: { apply lookup_ge_None in Hl0. lia. }
      destruct (un_old _ _ Hun idx k0 st0 Hl0) as (st' & Hl' & _). rewrite Hl in Hl'.
      injection Hl' as -> ->. apply list_elem_of_fmap. exists (k0, st0). split; [done|].
      by eapply list_elem_of_lookup_2.
Qed.

Definition prepared_good (r : prepared) : Prop :=
  match r with
  | Ok p => good (p_inner p) /\ clean (p_inner p)
  | Err (_, i) => good i /\ clean i
  end.

Definition capacities_ok (details : method_details) : Prop :=
  (recommended_state_capacity details <= u32_max)%N /\
  (recommended_slot_capacity details <= u32_max)%N /\
  (recommended_tmp_capacity details <= u32_max)%N.

Ltac use_good :=
  match goal with
  | |- context [use_ro leaf_nested ?i ?k] =>
      let E := fresh "E" in
      destruct (use_ro leaf_nested i k) as [[[b|] i']|] eqn:E; cbn [obind]; [| |done];
      (apply use_ro_good in E as [? ?]; [|done..])
  | |- context [use_rw leaf_nested ?i ?k ?c] =>
      let E := fresh "E" in
      destruct (use_rw leaf_nested i k c) as [[[[idx b]|] i']|] eqn:E; cbn [obind]; [| |done];
      (apply use_rw_good in E as [? ?]; [|done..])
  end.

Lemma prepare_self_good contract kind details p r :
  capacities_ok details -> good (p_inner p) -> clean (p_inner p) ->
  prepare_self false leaf_nested contract kind details p = Ret r -> prepared_good r.
Proof.
  intros (H1 & H2 & H3) Hg Hc. unfold prepare_self. destruct kind; try (by intros [= <-]).
  - use_good; [|by intros [= <-]]. destruct (decide _); [by intros [= <-]|].
    destruct (as_slice b); cbn [obind]; [|done]. by intros [= <-].
  - use_good; [|by intros [= <-]]. destruct (decide _); by intros [= <-].
  - use_good; [|by intros [= <-]]. destruct (decide _); [by intros [= <-]|].
    destruct (as_slice b); cbn [obind]; [|done]. by intros [= <-].
Qed.

Lemma prepare_argument_good contract kind details env is_allocate last p argument r :
  kind <> Init -> capacities_ok details -> good (p_inner p) -> clean (p_inner p) ->
  prepare_argument false leaf_nested contract kind details env is_allocate last p argument = Ret r ->
  prepared_good r.
Proof.
  intros Hk (H1 & H2 & H3) Hg Hc.
  assert (Hout : forall a, prepare_output p a last is_allocate = Ret r -> prepared_good r).
  { intros a. unfold prepare_output. destruct (last && is_allocate); [|destruct a; try done];
      (destruct (p_external p) as [|[| | |] ext]; try done); by intros [= <-]. }
  destruct argument; cbn [prepare_argument]; try (by intros [= <-]);
    try (destruct kind; [done|apply Hout..]).
  - use_good; [|by intros [= <-]]. destruct (as_slice b); cbn [obind]; [|done]. by intros [= <-].
  - use_good; by intros [= <-].
  - destruct (read_address (p_external p)) as [[owner ext]|]; cbn [obind]; [|done].
    use_good; [|by intros [= <-]]. destruct (as_slice b); cbn [obind]; [|done]. by intros [= <-].
  - destruct (read_address (p_external p)) as [[owner ext]|]; cbn [obind]; [|done].
    use_good; by intros [= <-].
  - destruct (p_external p) as [|[| | |] ext]; try done. by intros [= <-].
Qed.

Lemma prepare_arguments_good contract kind details env is_allocate count arguments p r :
  kind <> Init -> capacities_ok details -> good (p_inner p) -> clean (p_inner p) ->
  prepare_arguments false leaf_nested contract kind details env is_allocate count arguments p = Ret r ->
  prepared_good r.
Proof.
  intros Hk Hd. revert arguments p.
  induction count as [|count IH]; intros arguments p Hg Hc; cbn [prepare_arguments].
  { by intros [= <-]. }
  destruct arguments as [|[argument|] arguments]; [by intros [= <-]| |by intros [= <-]].
  destruct (prepare_argument _ _ _ _ _ _ _ _ _ _) as [r1|] eqn:E; cbn [obind]; [|done].
  apply prepare_argument_good in E; [|done..]. destruct r1 as [p1|e]; [|by intros [= <-]].
  destruct E as [? ?]. by apply IH.
Qed.

Lemma exec_good nested_call e env writable g i r i' :
  leaf g -> good i -> exec nested_call e leaf_nested env writable g i = Ret (r, i') -> good i'.
Proof.
  revert i. induction g as [ret|k bytes next IH|m next IH]; intros i Hleaf Hg; cbn [exec].
  - by intros [= _ <-].
  - destruct (writable !! k) as [idx|]; [|done].
    destruct (access_used_rw leaf_nested i idx) as [b|] eqn:Ha; [|done].
    destruct (write_at b 0 bytes) as [b'|] eqn:Hw; cbn [obind]; [|done].
    apply (IH _ Hleaf).
    cbn [access_used_rw leaf_nested] in Ha.
    destruct (slots i !! idx) as [[k0 st]|] eqn:Hl; [|done].
    assert (Hb : is_buffer b).
    { destruct (ok_buffers i (good_ok i Hg) idx k0 st Hl) as [_ Hcur]. by destruct st; simplify_eq. }
    pose proof (write_at_is_buffer b bytes b' Hb Hw) as Hb'.
    destruct (write_used_ok leaf_nested i idx b' (good_ok i Hg) Hb') as [Hok _].
    apply (good_changes i); [done|done|]. apply write_used_changes.
    apply (ok_in_use i (good_ok i Hg) idx k0 st Hl). by destruct st.
  - done.
Qed.

(** What an unsuccessful call leaves behind. *)
Definition restored (i : inner) : Prop :=
  inner_ok i /\ accesses i = [] /\ forall key, content i key = content i0 key.

Lemma restored_drop i i' : good i -> clean i -> drop_nested leaf_nested i = Ret i' -> restored i'.
Proof.
  intros Hg Hc Hd. pose proof (good_ok i Hg) as Hok.
  destruct (drop_ok i 0 false Hok) as (i1 & E & Hok1 & Ha); [lia|done|].
  fold leaf_nested in E. rewrite Hd in E. injection E as <-. split; [done|]. split; [done|].
  intros key. unfold leaf_nested in Hd. rewrite drop_closed in Hd by (done || lia).
  injection Hd as <-. cbn [id]. rewrite drop_0. apply restores_finish; [done|].
  intros idx k st Hl. destruct (Hc idx k st Hl) as (bytes & H1 & H2). unfold buffer_bytes.
  rewrite (as_slice_holds _ _ H1). unfold after_commit, settled.
  destruct (was_modified st || being_written st); cbn; by rewrite (as_slice_holds _ _ H2).
Qed.

Lemma restored_reset i n i1 i2 :
  good i -> reset leaf_nested i = Ret (n, i1) -> drop_nested n i1 = Ret i2 -> restored i2.
Proof.
  intros Hg Hr Hd. pose proof (good_ok i Hg) as Hok.
  destruct (reset_ok i 0 false Hok) as (i1' & E & Hok1 & Ha1); [lia|].
  unfold leaf_nested in *. rewrite Hr in E. injection E as -> <-.
  destruct (drop_ok i1 0 false Hok1) as (i2' & E & Hok2 & Ha2); [lia|done|].
  rewrite Hd in E. injection E as <-. split; [done|]. split; [done|]. intros key.
  rewrite drop_closed in Hd by (done || lia). injection Hd as <-. cbn [id].
  assert (Hs : finish_at after_commit (slot_index <$> drop 0 (accesses i1)) (slots i1) = slots i1).
  { rewrite Ha1. cbn. unfold finish_at. apply list_eq. intros j. rewrite list_lookup_imap.
    destruct (slots i1 !! j) as [p|]; [|done]. cbn. by rewrite bool_decide_false by apply not_elem_of_nil. }
  rewrite Hs. rewrite reset_closed in Hr by (done || lia). injection Hr as <-.
  cbn [slots]. rewrite drop_0. apply restores_finish; [done|].
  intros idx k st _. unfold after_reset, settled. by destruct (was_modified st).
Qed.

Lemma make_ffi_call_restores nested_call is_allocate contract details ext env e i1 :
  (forall n i env m r i', nested_call false n i env m = Ret (r, i') -> i' = i) ->
  capacities_ok details -> (forall args, leaf (ffi_fn details args)) ->
  (forall kind num arguments, method_metadata details = Some (kind, num, arguments) -> kind <> Init) ->
  make_ffi_call nested_call true is_allocate root_nested_rw i0 contract details ext env =
    Ret (Err e, i1) ->
  e <> BadOutput -> e <> InternalError -> i1 = i0 \/ restored i1.
Proof.
  intros Hro Hcap Hleaf Hinit Hm He1 He2. pose proof Hm as Hm'. unfold make_ffi_call in Hm.
  destruct (method_metadata details) as [[[kind num] arguments]|] eqn:Hmd; [|left; by injection Hm].
  destruct (decide _); [left; by injection Hm|]. specialize (Hinit kind num arguments eq_refl).
  destruct (is_update kind) eqn:Hk; cbn [negb andb new_nested_rw root_nested_rw] in Hm.
  2: { left. apply (make_ffi_call_read_only _ _ _ _ _ _ _ _ _ _ _ Hro) in Hm'; [done|].
       rewrite Hmd. intros ??? [= <- <- <-]. by rewrite Hk. }
  right. rewrite Hacc0 in Hm. change (ReadWrite (length []) false) with leaf_nested in Hm.
  assert (Hg0 : good i0) by (split; [done|apply undoable_refl]).
  pose proof (idle_clean i0 Hok0 Hacc0) as Hc0.
  destruct (prepare_self _ _ _ _ _ _) as [self|] eqn:Es; cbn [obind] in Hm; [|done].
  apply prepare_self_good in Es; [|done..].
  destruct (match self with Err e => _ | Ok p => _ end) as [r1|] eqn:Er; cbn [obind] in Hm; [|done].
  assert (Hr : prepared_good r1).
  { destruct self as [p|e1]; [|by injection Er as <-]. destruct Es as [? ?].
    by apply prepare_arguments_good in Er. }
  destruct r1 as [p|[e1 i2]]; unfold return_with in Hm.
  - destruct Hr as [Hg Hc].
    destruct (exec _ _ _ _ _ _ _) as [[ret i2]|] eqn:Ee; cbn [obind] in Hm; [|done].
    apply exec_good in Ee; [|done..]. unfold after_call, return_with in Hm.
    destruct (gr_result ret) as [[]|e2].
    + destruct (match p_new_address p with true => _ | false => _ end) as [[added i3]|]; cbn [obind] in Hm; [|done].
      destruct added; cbn [negb] in Hm.
      * destruct (finish _ _ _ _ _) as [[[[]|e3] i4]|] eqn:Ef; cbn [obind] in Hm; [| |done];
          (destruct (drop_nested _ _); cbn [obind] in Hm; [|done]); [done|].
        injection Hm as -> _. exfalso. by apply finish_error in Ef.
      * destruct (drop_nested _ _); cbn [obind] in Hm; [|done]. by injection Hm as <- _.
    + destruct (reset _ _) as [[n1 i3]|] eqn:Hreset; cbn [obind] in Hm; [|done].
      destruct (drop_nested _ _) as [i4|] eqn:Hd; cbn [obind] in Hm; [|done].
      injection Hm as _ <-. by apply (restored_reset i2 n1 i3).
  - destruct Hr as [Hg Hc]. destruct (drop_nested _ _) as [i3|] eqn:Hd; cbn [obind] in Hm; [|done].
    injection Hm as _ <-. by apply (restored_drop i2).
Qed.
End Leaf.

(** Dropping the outermost instance only removes ephemeral slots. *)
Lemma root_drop_content i i' key :
  inner_ok i -> accesses i = [] -> Slots.contract key <> NULL ->
  drop_nested root_nested_rw i = Ret i' -> content i' key = content i key.
Proof.
  intros Hok Ha Hk Hd. unfold root_nested_rw in Hd. rewrite drop_closed in Hd by (done || lia).
  injection Hd as <-. rewrite drop_0, Ha. cbn.
  assert (Hs : finish_at after_commit [] (slots i) = slots i).
  { unfold finish_at. apply list_eq. intros j. rewrite list_lookup_imap.
    destruct (slots i !! j) as [p|]; [|done]. cbn. by rewrite bool_decide_false by apply not_elem_of_nil. }
  rewrite Hs. set (i' := Inner _ _ _).
  assert (Hnd : NoDup (slots i').*1) by (apply NoDup_fst_filter; apply Hok).
  destruct (decide (key ∈ (slots i).*1)) as [Hin|Hn].
  - apply list_elem_of_fmap in Hin as ([k st] & -> & Hin). cbn in *.
    rewrite (content_in i k st (ok_keys _ Hok) Hin). apply content_in; [done|]. cbn.
    apply list_elem_of_filter. split; [|done]. unfold is_ephemeral. cbn. by apply bool_decide_eq_false.
  - rewrite (content_not_in i key Hn). apply content_not_in. cbn. intros Hin. apply Hn.
    apply list_elem_of_fmap in Hin as (p & -> & [_ Hin]%list_elem_of_filter).
    apply list_elem_of_fmap. by exists p.
Qed.

(** ** Properties *)

(** C21. Verifying a transaction never changes the slots, whatever the contracts do: a
    call that does not allow mutation, with all calls nested in it, returns the slots
    exactly as they were, in success and in error. *)
Theorem view_calls_preserve_slots shard methods allocate fuel n i env m r i' :
  call shard methods allocate fuel false n i env m = Ret (r, i') -> i' = i.
Proof. apply call_read_only. Qed.

(** Contracts can not forge who they act for: in a chain of nested calls started by
    a transaction, the caller a method sees is the contract that called it, and the
    context it sees is null or the address of a contract that is active above it. *)
Theorem context_not_forged shard chain env :
  active shard (env :: chain) ->
  caller env = match chain with parent :: _ => own_address parent | [] => NULL end /\
  (context env = NULL \/ exists parent, parent ∈ chain /\ context env = own_address parent).
Proof. apply active_context. Qed.

(** C24. When no method makes further calls or is an initializer, a transaction that fails in
    the preparation of its arguments or because its method returns an error, after whatever it
    wrote to its slots, leaves every slot of a contract other than the null address with the
    content it had. This excludes the errors [BadOutput] and [InternalError], which can be
    reported after the method has succeeded, and then its writes are committed. Slots are
    assumed consistent and not being accessed, capacities in metadata to fit 32 bits. *)
Theorem failed_leaf_transaction_restores shard methods allocate fuel i m e i' key :
  inner_ok i -> accesses i = [] ->
  (forall code fingerprint details, methods code fingerprint = Some details ->
    capacities_ok details /\ (forall args, leaf (ffi_fn details args)) /\
    (forall kind num arguments, method_metadata details = Some (kind, num, arguments) -> kind <> Init)) ->
  transaction_execute shard methods allocate fuel i m = Ret (Err e, i') ->
  e <> BadOutput -> e <> InternalError -> Slots.contract key <> NULL ->
  content i' key = content i key.
Proof.
  intros Hok Ha Hmethods Hx He1 He2 Hk. unfold transaction_execute, return_with in Hx.
  destruct (call _ _ _ _ _ _ _ _ _) as [[r i1]|] eqn:Hc; cbn [obind] in Hx; [|done].
  destruct (drop_nested root_nested_rw i1) as [i2|] eqn:Hd; cbn [obind] in Hx; [|done].
  injection Hx as -> <-.
  assert (Hr : i1 = i \/ restored i i1).
  { destruct fuel as [|fuel]; [done|]. cbn [call] in Hc.
    destruct (get_code i (pm_contract m)) as [[b|]|]; cbn [obind] in Hc; [|left; by injection Hc|done].
    destruct (as_slice b) as [code|]; cbn [obind] in Hc; [|done].
    destruct (methods code (pm_fingerprint m)) as [details|] eqn:Hd'; [|left; by injection Hc].
    destruct (Hmethods _ _ _ Hd') as (Hcap & Hleaf & Hinit).
    apply make_ffi_call_restores in Hc; try done. intros. by eapply call_read_only. }
  destruct Hr as [->|(Hok1 & Ha1 & Hcontent)].
  - by apply (root_drop_content i).
  - rewrite <- Hcontent. by apply (root_drop_content i1).
Qed.

(** ** Sample contracts *)

Definition contract_a : address := Addr 100 5.
Definition contract_b : address := Addr 101 5.

Definition returning (r : result unit error) (slots : list slot_result) : guest :=
  GReturn {| gr_result := r; gr_slots := slots; gr_outputs := []; gr_returned := []; gr_address := None |}.

Definition method (kind : method_kind) (arguments : list argument_kind) (f : list internal_arg -> guest)
    : method_details :=
  {| recommended_state_capacity := 8; recommended_slot_capacity := 8; recommended_tmp_capacity := 8;
     method_metadata := Some (kind, length arguments, Some <$> arguments); ffi_fn := f |}.

Definition call_b (fingerprint : N) (args : list external_arg) : prepared_method :=
  {| pm_contract := contract_b; pm_fingerprint := fingerprint; pm_external_args := args;
     pm_context := Keep |}.

(** [b] has a method 1 that stores a byte in a slot and a method 2 that fails; [a] has a
    method 3 that calls method 1 of [b] and then fails, and a method 4 that calls method
    2 of [b] while it holds a slot, and ignores the failure. *)
Definition sample_methods (code : list byte) (fingerprint : N) : option method_details :=
  if decide (code = [x02]) then
    match fingerprint with
    | 1%N => Some (method UpdateStateless [SlotRw] (fun _ => returning (Ok tt) [OtherAllocation [x07]]))
    | 2%N => Some (method UpdateStateless [] (fun _ => returning (Err Forbidden) []))
    | _ => None
    end
  else if decide (code = [x01]) then
    match fingerprint with
    | 3%N =>
        Some (method UpdateStateless [EnvRw] (fun _ =>
          GCall (call_b 1 [ExtAddress contract_a]) (fun _ => returning (Err Forbidden) [])))
    | 4%N =>
        Some (method UpdateStateless [EnvRw; SlotRw] (fun _ =>
          GCall (call_b 2 []) (fun _ => returning (Ok tt) [SameAllocation 1])))
    | _ => None
    end
  else None.

Definition sample_buffer (bytes : list byte) : buffer :=
  match from_bytes bytes with Ret b => b | Fault => empty end.

Definition sample_slots : inner :=
  new [ReadWriteSlot (SlotKey contract_a SYSTEM_CODE) (sample_buffer [x01]);
       ReadWriteSlot (SlotKey contract_b SYSTEM_CODE) (sample_buffer [x02]);
       ReadWriteSlot (SlotKey contract_a contract_a) (sample_buffer [x05]);
       ReadWriteSlot (SlotKey contract_a contract_b) (sample_buffer [x06])].

Definition sample_transaction (fingerprint : N) (args : list external_arg) : outcome (call_result * inner) :=
  transaction_execute 1 sample_methods 0 10 sample_slots
    {| pm_contract := contract_a; pm_fingerprint := fingerprint; pm_external_args := args;
       pm_context := Reset |}.

(** Nested calls break atomicity in both directions.  A method that fails after a
    successful call keeps what the call changed: the transaction returns an error and
    the slot of the other contract has its new content.  A method that makes a call that
    fails while it holds a slot, and handles the failure, makes the executor panic when
    it returns, because the failed call has released the slots of its callers. *)
Theorem nested_calls_not_atomic :
  (exists i', sample_transaction 3 [] = Ret (Err Forbidden, i') /\
    content sample_slots (SlotKey contract_a contract_b) = [x06] /\
    content i' (SlotKey contract_a contract_b) = [x07]) /\
  sample_transaction 4 [ExtAddress contract_a] = Fault.
Proof.
  split; [|vm_compute; reflexivity].
  destruct (sample_transaction 3 []) as [[r i']|] eqn:E; [|vm_compute in E; discriminate].
  vm_compute in E. injection E as <- <-. eexists. split; [reflexivity|]. vm_compute. done.
Qed.

(** The errors that are reported after the method has succeeded do not undo anything: this
    one writes to its slot and then returns a null pointer for it. *)
Definition bad_output_methods (code : list byte) (fingerprint : N) : option method_details :=
  if decide (code = [x01]) then
    Some (method UpdateStateless [SlotRw] (fun _ => GWrite 0 [x09] (returning (Ok tt) [NullPointer])))
  else None.

Example bad_output_commits :
  exists i', transaction_execute 1 bad_output_methods 0 10 sample_slots
      {| pm_contract := contract_a; pm_fingerprint := 1; pm_external_args := [ExtAddress contract_a];
         pm_context := Reset |} = Ret (Err BadOutput, i') /\
    content sample_slots (SlotKey contract_a contract_a) = [x05] /\
    content i' (SlotKey contract_a contract_a) = [x09].
Proof. eexists. split; [vm_compute; reflexivity|]. by vm_compute. Qed.

(** ** Witnesses *)

(** A method that writes to its slot and fails. *)
Definition leaf_methods (code : list byte) (fingerprint : N) : option method_details :=
  if decide (code = [x01]) then
    Some (method UpdateStateless [SlotRw] (fun _ => GWrite 0 [x09] (returning (Err Forbidden) [])))
  else None.

Lemma sample_slots_ok : inner_ok sample_slots.
Proof.
  assert (Hb : forall b, is_buffer (sample_buffer [b])).
  { intros b. destruct (copy_from_slice_holds (with_capacity 0) [] [b]) as (b' & E & Hh & _).
    - apply allocate_holds. unfold u32_max. lia.
    - unfold u32_max. cbn. lia.
    - exists [b]. unfold sample_buffer, from_bytes. by rewrite E. }
  assert (Hi : input_ok
    [ReadWriteSlot (SlotKey contract_a SYSTEM_CODE) (sample_buffer [x01]);
     ReadWriteSlot (SlotKey contract_b SYSTEM_CODE) (sample_buffer [x02]);
     ReadWriteSlot (SlotKey contract_a contract_a) (sample_buffer [x05]);
     ReadWriteSlot (SlotKey contract_a contract_b) (sample_buffer [x06])]).
  { split; [|repeat constructor; apply Hb]. apply (bool_decide_unpack (NoDup _)). vm_compute. exact I. }
  apply open_session_ok in Hi as [Hok _]. exact Hok.
Qed.

(** A view that reads a slot through a view of another contract *)
Definition view_methods (code : list byte) (fingerprint : N) : option method_details :=
  if decide (code = [x02]) then Some (method ViewStateless [SlotRo] (fun _ => returning (Ok tt) []))
  else if decide (code = [x01]) then
    Some (method ViewStateless [EnvRo] (fun _ =>
      GCall (call_b 1 [ExtAddress contract_a]) (fun r => returning (match r with Ok _ => Ok tt | Err e => Err e end) [])))
  else None.

Lemma view_calls_preserve_slots_witness :
  let m := {| pm_contract := contract_a; pm_fingerprint := 3; pm_external_args := []; pm_context := Reset |} in
  (exists i', call 1 sample_methods 0 10 false root_nested_ro sample_slots (transaction_env 1) m =
     Ret (Err Forbidden, i') /\ i' = sample_slots) /\
  (exists r i', call 1 view_methods 0 10 false root_nested_ro sample_slots (transaction_env 1) m =
     Ret (Ok r, i') /\ i' = sample_slots).
Proof.
  intros m. split.
  - destruct (call 1 sample_methods 0 10 false root_nested_ro sample_slots (transaction_env 1) m)
      as [[r i']|] eqn:E; [|vm_compute in E; discriminate].
    pose proof (view_calls_preserve_slots _ _ _ _ _ _ _ _ _ _ E) as Hi.
    exists i'. split; [|exact Hi]. vm_compute in E. injection E as <- _. reflexivity.
  - destruct (call 1 view_methods 0 10 false root_nested_ro sample_slots (transaction_env 1) m)
      as [[r i']|] eqn:E; [|vm_compute in E; discriminate].
    pose proof (view_calls_preserve_slots _ _ _ _ _ _ _ _ _ _ E) as Hi.
    destruct r as [r|e]; [|vm_compute in E; discriminate]. exists r, i'. split; [reflexivity|exact Hi].
Defined.

Lemma context_not_forged_witness :
  let env1 := nested_env 1 (transaction_env 1) contract_a Reset in
  let env2 := nested_env 1 env1 contract_b Replace in
  active 1 [env2; env1; transaction_env 1] /\ caller env2 = contract_a /\
  (context env2 = NULL \/
   exists parent, parent ∈ [env1; transaction_env 1] /\ context env2 = own_address parent).
Proof.
  intros env1 env2. assert (Ha : active 1 [env2; env1; transaction_env 1]).
  { apply active_call, active_call, active_start. }
  split; [exact Ha|]. apply (context_not_forged 1 [env1; transaction_env 1] env2 Ha).
Defined.

Lemma failed_leaf_transaction_restores_witness :
  exists i', transaction_execute 1 leaf_methods 0 10 sample_slots
      {| pm_contract := contract_a; pm_fingerprint := 1; pm_external_args := [ExtAddress contract_a];
         pm_context := Reset |} = Ret (Err Forbidden, i') /\
    content i' (SlotKey contract_a contract_a) = content sample_slots (SlotKey contract_a contract_a).
Proof.
  destruct (transaction_execute 1 leaf_methods 0 10 sample_slots
      {| pm_contract := contract_a; pm_fingerprint := 1; pm_external_args := [ExtAddress contract_a];
         pm_context := Reset |}) as [[r i']|] eqn:E; [|vm_compute in E; discriminate].
  assert (r = Err Forbidden) as -> by (vm_compute in E; by injection E as <- _).
  exists i'. split; [reflexivity|].
  apply (failed_leaf_transaction_restores 1 leaf_methods 0 10 sample_slots
    {| pm_contract := contract_a; pm_fingerprint := 1; pm_external_args := [ExtAddress contract_a];
       pm_context := Reset |} Forbidden i'); try discriminate.
  - exact sample_slots_ok.
  - reflexivity.
  - intros code fingerprint details. unfold leaf_methods. destruct (decide _); [|discriminate].
    intros [= <-]. split; [split_and!; vm_compute; discriminate|]. split; [intros; exact I|].
    intros kind num arguments [= <- <- <-]. discriminate.
  - exact E.
Defined.
End NativeExecutor.
