(* ===== verification/WalletPayload.v ===== *)
(** * Payload of wallet transactions

    Model of [crates/contracts/system/ab-system-contract-simple-wallet-base/src/payload.rs]
    and [payload/builder.rs]: method calls are serialised into the payload of a
    transaction and decoded from it one by one, when the wallet executes them.

    The payload starts at an address that is a multiple of 16, so that its alignment is
    that of the offset.  The buffer for [ExternalArgs] is 16 cells of the size of a
    pointer; a cell holds a pointer into the payload or into the output buffer, or a size
    with a capacity.  An unchecked access out of bounds, the use of an uninitialised
    value, an invalid value of an enum and a failing [debug_assert!] are [Fault].  The
    metadata of methods is given decoded. *)

From S2P Require Import Prelude Slices Shards Address SystemContracts NativeExecutor.
From stdpp Require Import prelude.
From Stdlib Require Import NArith Lia.
From Stdlib Require Import Strings.Byte.

Module WalletPayload.
Import Address.

Abbreviation Reset := SystemContracts.Reset.
Abbreviation Keep := SystemContracts.Keep.

Definition MAX_ALIGNMENT : N := 16.
Definition MAX_TOTAL_METHOD_ARGS : N := 8.
(** in pointers *)
Definition EXTERNAL_ARGS_BUFFER_SIZE : nat := 16.
(** in bytes *)
Definition OUTPUT_BUFFER_SIZE : nat := N.to_nat (32 * 1024).
Definition OUTPUT_BUFFER_OFFSETS_SIZE : nat := 16.

(** ** Slots, inputs and contexts *)

Inductive TransactionMethodContext : Type := Null | Wallet.

(** [TryFrom<u8>], and the values of the enum *)
Definition method_context_try_from (value : N) : option TransactionMethodContext :=
  match value with
  | 0%N => Some Null
  | 1%N => Some Wallet
  | _ => None
  end.

Definition method_context_as_u8 (c : TransactionMethodContext) : N :=
  match c with Null => 0 | Wallet => 1 end.

Inductive TransactionSlotType : Type :=
| SlotAddress
| SlotOutputIndex (output_index : N).

Definition slot_new_output_index (output_index : N) : option TransactionSlotType :=
  if decide (127 < output_index)%N then None else Some (SlotOutputIndex output_index).

Definition slot_from_u8 (n : N) : TransactionSlotType :=
  if decide (N.land n 128 = 0)%N then SlotOutputIndex n else SlotAddress.

Definition slot_into_u8 (s : TransactionSlotType) : N :=
  match s with SlotAddress => 128 | SlotOutputIndex output_index => output_index end.

Inductive TransactionInputType : Type :=
| Value (alignment_power : N)
| InputOutputIndex (output_index : N).

Definition input_new_value (alignment : N) : option TransactionInputType :=
  if decide (alignment = 1 \/ alignment = 2 \/ alignment = 4 \/ alignment = 8 \/ alignment = 16)%N
  then Some (Value (N.log2 alignment)) else None.

Definition input_new_output_index (output_index : N) : option TransactionInputType :=
  if decide (127 < output_index)%N then None else Some (InputOutputIndex output_index).

Definition input_from_u8 (n : N) : TransactionInputType :=
  if decide (N.land n 128 = 0)%N then InputOutputIndex n else Value (N.land n 127).

Definition input_into_u8 (i : TransactionInputType) : N :=
  match i with
  | Value alignment_power => N.lor 128 alignment_power
  | InputOutputIndex output_index => output_index
  end.

(** [Address] as bytes and back *)
Definition address_bytes (a : address) : list byte := le_split 8 (addr_0 a) ++ le_split 8 (addr_1 a).

Definition address_of (bytes : list byte) : address :=
  Addr (le_value (take 8 bytes)) (le_value (drop 8 bytes)).

(** ** The decoder *)

Inductive TransactionPayloadDecoderError : Type :=
| PayloadTooSmall
| TooManyArguments (n : N)
| OutputIndexNotFound (output_index : N)
| InvalidSlotOutputIndexSize (output_index size : N)
| InvalidSlotOutputIndexAlign (output_index alignment : N)
| AlignmentPowerTooLarge (alignment_power : N)
| OutputBufferTooSmall
| OutputBufferOffsetsTooSmall.

Inductive pointer : Type :=
| NullPointer
| InPayload (offset : N)
| InOutput (offset : N).

(** Eight bytes of [external_args_buffer] *)
Inductive cell : Type :=
| Pointer (p : pointer)
| SizeCapacity (size capacity : N).

Record OutputBufferDetails : Type := {
  output_offset : N;
  size_or_external_args_offset : N
}.

(** [offset] is the address of the rest of the payload; [None] are uninitialised
    details. *)
Record decoder : Type := {
  payload : list byte;
  offset : N;
  external_args_buffer : list cell;
  output_buffer : list byte;
  output_buffer_cursor : N;
  output_buffer_details : list (option OutputBufferDetails);
  before_last : nat;
  current : nat
}.

Record prepared : Type := {
  contract : address;
  fingerprint : list byte;
  method_context : SystemContracts.method_context;
  external_args : list cell
}.

Definition new (payload : list byte) (output : list byte) : decoder :=
  {| payload := payload; offset := 0;
     external_args_buffer := replicate EXTERNAL_ARGS_BUFFER_SIZE (Pointer NullPointer);
     output_buffer := output; output_buffer_cursor := 0;
     output_buffer_details := replicate OUTPUT_BUFFER_OFFSETS_SIZE None;
     before_last := 0; current := 0 |}.

Definition with_payload (d : decoder) (p : list byte) (off : N) : decoder :=
  {| payload := p; offset := off; external_args_buffer := external_args_buffer d;
     output_buffer := output_buffer d; output_buffer_cursor := output_buffer_cursor d;
     output_buffer_details := output_buffer_details d; before_last := before_last d;
     current := current d |}.

Definition with_cells (d : decoder) (cells : list cell) : decoder :=
  {| payload := payload d; offset := offset d; external_args_buffer := cells;
     output_buffer := output_buffer d; output_buffer_cursor := output_buffer_cursor d;
     output_buffer_details := output_buffer_details d; before_last := before_last d;
     current := current d |}.

(** Decoding steps update the decoder also when they fail. *)
Definition M (A : Type) : Type :=
  decoder -> outcome (result A TransactionPayloadDecoderError * decoder).

Definition mret {A} (a : A) : M A := fun d => Ret (Ok a, d).
Definition mfail {A} (e : TransactionPayloadDecoderError) : M A := fun d => Ret (Err e, d).
Definition mfault {A} : M A := fun _ => Fault.

Definition mbind {A B} (m : M A) (k : A -> M B) : M B := fun d =>
  let! (r, d) := m d in
  match r with Ok a => k a d | Err e => Ret (Err e, d) end.

Notation "'do!' x := m 'in' k" := (mbind m (fun x => k))
  (at level 10, x pattern, m at level 100, k at level 200) : rust_scope.

Section Decoder.
Context (VERIFY : bool).

(** [self.payload.split_at_checked(n)]; the first part comes with its address. *)
Definition split_payload (n : N) : M (N * list byte) := fun d =>
  if decide (N.to_nat n <= length (payload d)) then
    Ret (Ok (offset d, take (N.to_nat n) (payload d)),
         with_payload d (drop (N.to_nat n) (payload d)) (offset d + n))
  else if VERIFY then Ret (Err PayloadTooSmall, d) else Fault.

Definition ensure_alignment (alignment : N) : M unit := fun d =>
  if decide (MAX_ALIGNMENT < alignment)%N then Fault
  else
    let unaligned_by := N.land (offset d) (alignment - 1) in
    if decide (0 < unaligned_by)%N then
      (do! _ := split_payload (alignment - unaligned_by) in mret tt) d
    else Ret (Ok tt, d).

Definition get_bytes (size alignment : N) : M (N * list byte) :=
  do! _ := ensure_alignment alignment in split_payload size.

(** A type of [size] bytes *)
Definition get_trivial_type (size alignment : N) : M (N * list byte) :=
  do! _ := ensure_alignment alignment in split_payload size.

Definition read_u8 : M N :=
  do! (_, value) := split_payload 1 in mret (le_value value).

Definition get_u32 : M N :=
  do! (_, value) := get_trivial_type 4 4 in mret (le_value value).

(** Read the [u32] at an offset into [external_args_buffer]. *)
Definition read_cell (cells : list cell) (off : N) : outcome N :=
  match cells !! N.to_nat (off / 8) with
  | Some (SizeCapacity size capacity) =>
      if decide (off mod 8 = 0)%N then Ret size
      else if decide (off mod 8 = 4)%N then Ret capacity
      else Fault
  | _ => Fault
  end.

Fixpoint update_details (cells : list cell) (details : list (option OutputBufferDetails))
    : outcome (list (option OutputBufferDetails)) :=
  match details with
  | [] => Ret []
  | None :: _ => Fault
  | Some o :: details =>
      let! size := read_cell cells (size_or_external_args_offset o) in
      let! details := update_details cells details in
      Ret (Some {| output_offset := output_offset o; size_or_external_args_offset := size |} :: details)
  end.

Definition update_output_buffer_details : M unit := fun d =>
  if decide (before_last d <= current d <= length (output_buffer_details d)) then
    let! updated :=
      update_details (external_args_buffer d)
        (drop (before_last d) (take (current d) (output_buffer_details d))) in
    Ret (Ok tt,
         {| payload := payload d; offset := offset d;
            external_args_buffer := external_args_buffer d;
            output_buffer := output_buffer d; output_buffer_cursor := output_buffer_cursor d;
            output_buffer_details :=
              take (before_last d) (output_buffer_details d) ++ updated ++
              drop (current d) (output_buffer_details d);
            before_last := current d; current := current d |})
  else Fault.

(** The offset of the output, its bytes and their number *)
Definition get_from_output_buffer (output_index : N) : M (N * list byte * N) := fun d =>
  if VERIFY && bool_decide (current d <= N.to_nat output_index) then
    Ret (Err (OutputIndexNotFound output_index), d)
  else
    match output_buffer_details d !! N.to_nat output_index with
    | Some (Some o) =>
        let size := size_or_external_args_offset o in
        if decide (N.to_nat (output_offset o) + N.to_nat size <= length (output_buffer d)) then
          Ret (Ok (output_offset o,
                   take (N.to_nat size) (drop (N.to_nat (output_offset o)) (output_buffer d)), size), d)
        else Fault
    | _ => Fault
    end.

Definition checked_add (a b : N) : option N :=
  if decide (a + b < 2 ^ 64)%N then Some (a + b)%N else None.

(** Memory beyond the buffer is [Fault] when it is handed out. *)
Definition allocate_output_buffer_ptr (alignment size : N) : M (option N) := fun d =>
  if decide (MAX_ALIGNMENT < alignment)%N then Fault
  else
    let cursor := output_buffer_cursor d in
    let unaligned_by := N.land cursor (alignment - 1) in
    let padding_bytes := (alignment - unaligned_by)%N in
    let length := N.of_nat (length (output_buffer d)) in
    match (match checked_add cursor padding_bytes with
           | Some n => checked_add n size
           | None => None
           end) with
    | Some new_cursor =>
        if decide (length < new_cursor)%N then
          if VERIFY then Ret (Ok None, d) else Fault
        else
          Ret (Ok (Some (cursor + padding_bytes)%N),
               {| payload := payload d; offset := offset d;
                  external_args_buffer := external_args_buffer d;
                  output_buffer := output_buffer d; output_buffer_cursor := new_cursor;
                  output_buffer_details := output_buffer_details d;
                  before_last := before_last d; current := current d |})
    | None => if VERIFY then Ret (Ok None, d) else Fault
    end.

Definition push_details (o : OutputBufferDetails) : M unit := fun d =>
  let! details := arr_set (output_buffer_details d) (current d) (Some o) in
  Ret (Ok tt,
       {| payload := payload d; offset := offset d;
          external_args_buffer := external_args_buffer d;
          output_buffer := output_buffer d; output_buffer_cursor := output_buffer_cursor d;
          output_buffer_details := details;
          before_last := before_last d; current := S (current d) |}).

Definition allocate_output_buffer (capacity output_alignment external_args_size_offset : N) : M N := fun d =>
  if VERIFY && bool_decide (length (output_buffer_details d) = current d) then
    Ret (Err OutputBufferOffsetsTooSmall, d)
  else
    (do! allocated := allocate_output_buffer_ptr output_alignment capacity in
     match allocated with
     | None => mfail OutputBufferTooSmall
     | Some output_offset =>
         do! _ := push_details
           {| output_offset := (output_offset mod 2 ^ 32)%N;
              size_or_external_args_offset := external_args_size_offset |} in
         mret output_offset
     end) d.

(** Write cells at the cursor and move it forward. *)
Definition write_external_args (cursor : nat) (cells : list cell) : M nat := fun d =>
  let! buffer := copy_at (external_args_buffer d) cursor cells in
  Ret (Ok (cursor + length cells), with_cells d buffer).

(** [1_usize.checked_shl(power)] *)
Definition alignment_of (alignment_power : N) : M N :=
  if decide (alignment_power < 64)%N then mret (2 ^ alignment_power)%N
  else if VERIFY then mfail (AlignmentPowerTooLarge alignment_power) else mfault.

(** [Address::from_bytes]: there must be 16 bytes at an aligned address. *)
Definition slot_pointer (transaction_slot : N) : M pointer :=
  match slot_from_u8 transaction_slot with
  | SlotAddress =>
      do! (address, _) := get_trivial_type 16 8 in mret (InPayload address)
  | SlotOutputIndex output_index =>
      do! (offset, bytes, size) := get_from_output_buffer output_index in
      if VERIFY && negb (bool_decide (size = 16%N)) then
        mfail (InvalidSlotOutputIndexSize output_index size)
      else if decide ((offset mod 8 = 0)%N /\ 16 <= length bytes) then mret (InOutput offset)
      else if VERIFY then mfail (InvalidSlotOutputIndexAlign output_index 1) else mfault
  end.

Fixpoint decode_slots (slots : list N) (cursor : nat) : M nat :=
  match slots with
  | [] => mret cursor
  | slot :: slots =>
      do! address := slot_pointer slot in
      do! cursor := write_external_args cursor [Pointer address] in
      decode_slots slots cursor
  end.

Definition input_pointer (transaction_input : N) : M (pointer * N) :=
  match input_from_u8 transaction_input with
  | Value alignment_power =>
      do! alignment := alignment_of alignment_power in
      do! size := get_u32 in
      do! (offset, _) := get_bytes size alignment in
      mret (InPayload offset, size)
  | InputOutputIndex output_index =>
      do! (offset, _, size) := get_from_output_buffer output_index in
      mret (InOutput offset, size)
  end.

Fixpoint decode_inputs (inputs : list N) (cursor : nat) : M nat :=
  match inputs with
  | [] => mret cursor
  | input :: inputs =>
      do! (data, size) := input_pointer input in
      do! cursor := write_external_args cursor [Pointer data; SizeCapacity size size] in
      decode_inputs inputs cursor
  end.

Fixpoint decode_outputs (count : nat) (cursor : nat) : M nat :=
  match count with
  | O => mret cursor
  | S count =>
      do! recommended_capacity := get_u32 in
      do! (_, power) := get_trivial_type 1 1 in
      do! alignment := alignment_of (le_value power) in
      do! data :=
        allocate_output_buffer recommended_capacity alignment (8 * (N.of_nat cursor + 1)) in
      do! cursor :=
        write_external_args cursor [Pointer (InOutput data); SizeCapacity 0 recommended_capacity] in
      decode_outputs count cursor
  end.

(** All arguments; returns the contents of the buffer. *)
Definition decode_arguments (slots inputs : list N) (num_outputs : nat) : M (list cell) :=
  do! cursor := decode_slots slots 0 in
  do! cursor := decode_inputs inputs cursor in
  do! _ := decode_outputs num_outputs cursor in
  fun d => Ret (Ok (external_args_buffer d), d).

Fixpoint read_bytes_u8 (count : nat) : M (list N) :=
  match count with
  | O => mret []
  | S count => do! b := read_u8 in do! bs := read_bytes_u8 count in mret (b :: bs)
  end.

Context (map_context : TransactionMethodContext -> SystemContracts.method_context).

Definition get_method_context : M SystemContracts.method_context :=
  do! (_, value) := get_trivial_type 1 1 in
  match method_context_try_from (le_value value) with
  | Some c => mret (map_context c)
  | None => mfault
  end.

(** Slots and inputs share an array of [MAX_TOTAL_METHOD_ARGS] elements. *)
Definition decode_method : M prepared :=
  do! _ := update_output_buffer_details in
  do! (_, contract) := get_trivial_type 16 8 in
  do! (_, fingerprint) := get_trivial_type 32 1 in
  do! context := get_method_context in
  do! num_slots := read_u8 in
  do! slots := read_bytes_u8 (N.to_nat (N.min num_slots MAX_TOTAL_METHOD_ARGS)) in
  do! num_inputs := read_u8 in
  do! inputs := read_bytes_u8 (N.to_nat (N.min num_inputs (MAX_TOTAL_METHOD_ARGS - num_slots))) in
  do! num_outputs := read_u8 in
  if decide (MAX_TOTAL_METHOD_ARGS < num_slots)%N then mfault
  else if decide (MAX_TOTAL_METHOD_ARGS - num_slots < num_inputs)%N then mfault
  else
    let number_of_arguments := N.min (N.min (num_slots + num_inputs) 255 + num_outputs) 255 in
    if VERIFY && bool_decide (MAX_TOTAL_METHOD_ARGS < number_of_arguments)%N then
      mfail (TooManyArguments number_of_arguments)
    else
      do! external_args := decode_arguments slots inputs (N.to_nat num_outputs) in
      mret {| contract := address_of contract; fingerprint := fingerprint;
              method_context := context; external_args := external_args |}.

Definition decode_next_method : M (option prepared) := fun d =>
  if decide (length (payload d) <= N.to_nat MAX_ALIGNMENT) then Ret (Ok None, d)
  else (do! m := decode_method in mret (Some m)) d.
End Decoder.

(** ** The builder *)
Module Builder.
Record IoTypeDetails : Type := { recommended_capacity : N; alignment : N }.

(** [IoTypeDetails::bytes] *)
Definition details_bytes (capacity : N) : IoTypeDetails :=
  {| recommended_capacity := capacity; alignment := 1 |}.

Inductive TransactionPayloadBuilderError : Type :=
| MetadataDecodingError
| TooManyArguments (n : N)
| InvalidAlignment (alignment : N)
| InvalidOutputIndex (output_index : N).

(** The kind of a method and its arguments, [None] where decoding fails *)
Definition metadata : Type :=
  option (NativeExecutor.method_kind *
    list (option (NativeExecutor.argument_kind * option IoTypeDetails))).

Definition ensure_alignment (payload : list byte) (alignment : N) : outcome (list byte) :=
  if decide (MAX_ALIGNMENT < alignment)%N then Fault
  else
    let unaligned_by := N.land (N.of_nat (length payload)) (alignment - 1) in
    Ret (if decide (0 < unaligned_by)%N
         then payload ++ replicate (N.to_nat (alignment - unaligned_by)) x00
         else payload).

Definition extend_payload_with_alignment (payload bytes : list byte) (alignment : N)
    : outcome (list byte) :=
  let! payload := ensure_alignment payload alignment in Ret (payload ++ bytes).

Definition push_payload_byte (payload : list byte) (n : N) : list byte := payload ++ [byte_of n].

(** The array with the details of inputs and then outputs, and the numbers of slots,
    inputs and outputs *)
Record collected : Type := {
  type_details : list (option IoTypeDetails);
  num_slots : nat;
  num_inputs : nat;
  num_outputs : nat
}.

Definition collect_one (c : collected) (kind : NativeExecutor.argument_kind)
    (details : option IoTypeDetails) : outcome collected :=
  let details := Some (default (details_bytes 0) details) in
  match kind with
  | NativeExecutor.EnvRo | NativeExecutor.EnvRw | NativeExecutor.TmpRo | NativeExecutor.TmpRw => Ret c
  | NativeExecutor.SlotRo | NativeExecutor.SlotRw =>
      Ret {| type_details := type_details c; num_slots := S (num_slots c);
             num_inputs := num_inputs c; num_outputs := num_outputs c |}
  | NativeExecutor.Input =>
      let! a := arr_set (type_details c) (num_inputs c) details in
      Ret {| type_details := a; num_slots := num_slots c;
             num_inputs := S (num_inputs c); num_outputs := num_outputs c |}
  | NativeExecutor.Output | NativeExecutor.Return =>
      let! a := arr_set (type_details c) (num_inputs c + num_outputs c) details in
      Ret {| type_details := a; num_slots := num_slots c;
             num_inputs := num_inputs c; num_outputs := S (num_outputs c) |}
  end.

Fixpoint collect (c : collected)
    (arguments : list (option (NativeExecutor.argument_kind * option IoTypeDetails)))
    : outcome (result collected TransactionPayloadBuilderError) :=
  match arguments with
  | [] => Ret (Ok c)
  | None :: _ => Ret (Err MetadataDecodingError)
  | Some (kind, details) :: arguments => let! c := collect_one c kind details in collect c arguments
  end.

(** [assume_init_ref] *)
Definition assume_init {A} (l : list (option A)) : outcome (list A) :=
  match mapM id l with Some l => Ret l | None => Fault end.

(** [slot_output_index.get(offset).copied().flatten()] *)
Definition output_index_at (indices : list (option N)) (i : nat) : option N :=
  match indices !! i with Some (Some n) => Some n | _ => None end.

Fixpoint push_slot_types (count i : nat) (slot_output_index : list (option N)) (payload : list byte)
    : result unit TransactionPayloadBuilderError * list byte :=
  match count with
  | O => (Ok tt, payload)
  | S count =>
      match (match output_index_at slot_output_index i with
             | Some n =>
                 match slot_new_output_index n with Some t => Ok t | None => Err (InvalidOutputIndex n) end
             | None => Ok SlotAddress
             end) with
      | Ok t =>
          push_slot_types count (S i) slot_output_index (push_payload_byte payload (slot_into_u8 t))
      | Err e => (Err e, payload)
      end
  end.

Fixpoint push_input_types (details : list IoTypeDetails) (i : nat) (input_output_index : list (option N))
    (payload : list byte) : result unit TransactionPayloadBuilderError * list byte :=
  match details with
  | [] => (Ok tt, payload)
  | t :: details =>
      match (match output_index_at input_output_index i with
             | Some n =>
                 match input_new_output_index n with Some t => Ok t | None => Err (InvalidOutputIndex n) end
             | None =>
                 match input_new_value (alignment t) with
                 | Some t => Ok t
                 | None => Err (InvalidAlignment (alignment t))
                 end
             end) with
      | Ok t =>
          push_input_types details (S i) input_output_index (push_payload_byte payload (input_into_u8 t))
      | Err e => (Err e, payload)
      end
  end.

(** [external_args] are the addresses of the slots followed by the inputs. *)
Fixpoint push_slots (count i : nat) (slot_output_index : list (option N))
    (external_args : list NativeExecutor.external_arg) (payload : list byte)
    : outcome (list NativeExecutor.external_arg * list byte) :=
  match count with
  | O => Ret (external_args, payload)
  | S count =>
      match external_args with
      | NativeExecutor.ExtAddress a :: external_args =>
          let! payload :=
            match output_index_at slot_output_index i with
            | None => extend_payload_with_alignment payload (address_bytes a) 8
            | Some _ => Ret payload
            end in
          push_slots count (S i) slot_output_index external_args payload
      | _ => Fault
      end
  end.

Fixpoint push_inputs (details : list IoTypeDetails) (i : nat) (input_output_index : list (option N))
    (external_args : list NativeExecutor.external_arg) (payload : list byte) : outcome (list byte) :=
  match details with
  | [] => Ret payload
  | t :: details =>
      match external_args with
      | NativeExecutor.ExtInput data :: external_args =>
          let! payload :=
            match output_index_at input_output_index i with
            | None =>
                let! payload :=
                  extend_payload_with_alignment payload (le_split 4 (N.of_nat (length data))) 4 in
                extend_payload_with_alignment payload data (alignment t)
            | Some _ => Ret payload
            end in
          push_inputs details (S i) input_output_index external_args payload
      | _ => Fault
      end
  end.

Fixpoint push_outputs (details : list IoTypeDetails) (payload : list byte) : outcome (list byte) :=
  match details with
  | [] => Ret payload
  | t :: details =>
      let! payload := extend_payload_with_alignment payload (le_split 4 (recommended_capacity t)) 4 in
      let! payload := extend_payload_with_alignment payload [byte_of (N.log2 (alignment t))] 1 in
      push_outputs details payload
  end.

(** A call to add: contract, fingerprint, metadata and arguments *)
Record call : Type := {
  call_contract : address;
  call_fingerprint : list byte;
  call_metadata : metadata;
  call_context : TransactionMethodContext;
  call_args : list NativeExecutor.external_arg;
  slot_output_index : list (option N);
  input_output_index : list (option N)
}.

Definition no_details : collected :=
  {| type_details := replicate (N.to_nat MAX_TOTAL_METHOD_ARGS) None;
     num_slots := 0; num_inputs := 0; num_outputs := 0 |}.

(** The types of all arguments, then their values *)
Definition push_arguments (c : call) (k : collected) (payload : list byte)
    : outcome (result unit TransactionPayloadBuilderError * list byte) :=
  let! inputs := assume_init (take (num_inputs k) (type_details k)) in
  let! outputs := assume_init (take (num_outputs k) (drop (num_inputs k) (type_details k))) in
  let payload := push_payload_byte payload (N.of_nat (num_slots k)) in
  let (r, payload) := push_slot_types (num_slots k) 0 (slot_output_index c) payload in
  match r with
  | Err e => Ret (Err e, payload)
  | Ok _ =>
      let payload := push_payload_byte payload (N.of_nat (num_inputs k)) in
      let (r, payload) := push_input_types inputs 0 (input_output_index c) payload in
      match r with
      | Err e => Ret (Err e, payload)
      | Ok _ =>
          let payload := push_payload_byte payload (N.of_nat (num_outputs k)) in
          let! (external_args, payload) :=
            push_slots (num_slots k) 0 (slot_output_index c) (call_args c) payload in
          let! payload := push_inputs inputs 0 (input_output_index c) external_args payload in
          let! payload := push_outputs outputs payload in
          Ret (Ok tt, payload)
      end
  end.

Definition with_method_call (payload : list byte) (c : call)
    : outcome (result unit TransactionPayloadBuilderError * list byte) :=
  match call_metadata c with
  | None => Ret (Err MetadataDecodingError, payload)
  | Some (kind, arguments) =>
      let number_of_arguments :=
        N.of_nat (length arguments + (if NativeExecutor.has_self kind then 1 else 0)) in
      if decide (MAX_TOTAL_METHOD_ARGS < number_of_arguments)%N then
        Ret (Err (TooManyArguments (N.min number_of_arguments 255)), payload)
      else
        let! payload := extend_payload_with_alignment payload (address_bytes (call_contract c)) 8 in
        let! payload := extend_payload_with_alignment payload (call_fingerprint c) 1 in
        let payload := push_payload_byte payload (method_context_as_u8 (call_context c)) in
        let! collected := collect no_details arguments in
        match collected with
        | Err e => Ret (Err e, payload)
        | Ok k => push_arguments c k payload
        end
  end.

Definition into_aligned_bytes (payload : list byte) : outcome (list byte) :=
  ensure_alignment payload MAX_ALIGNMENT.

Fixpoint build (payload : list byte) (calls : list call)
    : outcome (result unit TransactionPayloadBuilderError * list byte) :=
  match calls with
  | [] => Ret (Ok tt, payload)
  | c :: calls =>
      let! (r, payload) := with_method_call payload c in
      match r with Err e => Ret (Err e, payload) | Ok _ => build payload calls end
  end.
End Builder.

(** ** Steps of the decoder *)

Create HintDb wallet.

(** [f] with unchecked accesses does what the checked one does where that succeeds. *)
Definition agrees {A} (f : bool -> M A) : Prop :=
  forall d a d', f true d = Ret (Ok a, d') -> f false d = Ret (Ok a, d').

(** A successful step takes at least [n] bytes off the payload. *)
Definition consumes {A} (n : nat) (f : M A) : Prop :=
  forall d a d', f d = Ret (Ok a, d') -> length (payload d') + n <= length (payload d).

Lemma mbind_Ok {A B} (m : M A) (k : A -> M B) d b d' :
  mbind m k d = Ret (Ok b, d') ->
  exists a d1, m d = Ret (Ok a, d1) /\ k a d1 = Ret (Ok b, d').
Proof.
  unfold mbind. destruct (m d) as [[[a|e] d1]|]; cbn [obind]; try done. intros H. by exists a, d1.
Qed.

Lemma mbind_step {A B} (m : M A) (k : A -> M B) d a d1 :
  m d = Ret (Ok a, d1) -> mbind m k d = k a d1.
Proof. unfold mbind. by intros ->. Qed.

Lemma agrees_same {A} (m : M A) : agrees (fun _ => m).
Proof. by intros d a d' H. Qed.

Lemma agrees_bind {A B} (m : bool -> M A) (k : bool -> A -> M B) :
  agrees m -> (forall a, agrees (fun v => k v a)) -> agrees (fun v => mbind (m v) (k v)).
Proof.
  intros Hm Hk d b d' (a & d1 & H1 & H2)%mbind_Ok.
  rewrite (mbind_step _ _ _ _ _ (Hm _ _ _ H1)). by apply Hk.
Qed.

Lemma consumes_weaken {A} n n' (f : M A) : n' <= n -> consumes n f -> consumes n' f.
Proof. intros Hn Hf d a d' H%Hf. lia. Qed.

Lemma consumes_bind {A B} n n' (m : M A) (k : A -> M B) :
  consumes n m -> (forall a, consumes n' (k a)) -> consumes (n + n') (mbind m k).
Proof.
  intros Hm Hk d b d' (a & d1 & H1 & H2)%mbind_Ok. apply Hm in H1. apply Hk in H2. lia.
Qed.

Lemma consumes_ret {A} (a : A) : consumes 0 (mret a).
Proof. intros d b d' [= <- <-]. lia. Qed.

Lemma consumes_fail {A} e n : consumes n (mfail (A := A) e).
Proof. by intros d b d'. Qed.

Lemma consumes_fault {A} n : consumes n (mfault (A := A)).
Proof. by intros d b d'. Qed.

Lemma split_payload_agrees n : agrees (fun v => split_payload v n).
Proof. intros d a d'. unfold split_payload. by destruct (decide _). Qed.

Lemma ensure_alignment_agrees n : agrees (fun v => ensure_alignment v n).
Proof.
  intros d. unfold ensure_alignment. destruct (decide _); [done|].
  destruct (decide _); [|done].
  apply (agrees_bind (fun v => split_payload v _) (fun _ _ => mret tt));
    [apply split_payload_agrees|intros; apply agrees_same].
Qed.

Lemma get_trivial_type_agrees size alignment : agrees (fun v => get_trivial_type v size alignment).
Proof. apply agrees_bind; [apply ensure_alignment_agrees|intros; apply split_payload_agrees]. Qed.

Lemma get_bytes_agrees size alignment : agrees (fun v => get_bytes v size alignment).
Proof. apply agrees_bind; [apply ensure_alignment_agrees|intros; apply split_payload_agrees]. Qed.

Lemma get_from_output_buffer_agrees i : agrees (fun v => get_from_output_buffer v i).
Proof. intros d a d'. unfold get_from_output_buffer. by destruct (true && _). Qed.

Lemma alignment_of_agrees p : agrees (fun v => alignment_of v p).
Proof. intros d a d'. unfold alignment_of. by destruct (decide _). Qed.

Lemma allocate_output_buffer_ptr_agrees alignment size d o d' :
  allocate_output_buffer_ptr true alignment size d = Ret (Ok (Some o), d') ->
  allocate_output_buffer_ptr false alignment size d = Ret (Ok (Some o), d').
Proof.
  unfold allocate_output_buffer_ptr. destruct (decide _); [done|].
  destruct (checked_add _ _) as [n1|]; [|done]. destruct (checked_add n1 size); [|done].
  by destruct (decide _).
Qed.

Lemma allocate_output_buffer_agrees capacity alignment off :
  agrees (fun v => allocate_output_buffer v capacity alignment off).
Proof.
  intros d a d'. unfold allocate_output_buffer. destruct (true && _); [done|]. cbn [andb].
  intros (o & d1 & H1 & H2)%mbind_Ok. destruct o as [o|]; [|done].
  apply allocate_output_buffer_ptr_agrees in H1. by rewrite (mbind_step _ _ _ _ _ H1).
Qed.

#[local] Hint Resolve agrees_same split_payload_agrees get_trivial_type_agrees get_bytes_agrees
  get_from_output_buffer_agrees alignment_of_agrees allocate_output_buffer_agrees : wallet.

Lemma read_u8_agrees : agrees read_u8.
Proof. apply agrees_bind; [auto with wallet|]. intros [? ?]. auto with wallet. Qed.

Lemma get_u32_agrees : agrees get_u32.
Proof. apply agrees_bind; [auto with wallet|]. intros [? ?]. auto with wallet. Qed.

#[local] Hint Resolve read_u8_agrees get_u32_agrees : wallet.

Lemma slot_pointer_agrees s : agrees (fun v => slot_pointer v s).
Proof.
  unfold slot_pointer. destruct (slot_from_u8 s) as [|i].
  - apply agrees_bind; [auto with wallet|]. intros [? ?]. auto with wallet.
  - apply agrees_bind; [auto with wallet|]. intros [[off bytes] size] d a d'. cbn [andb].
    destruct (negb _); [done|]. by destruct (decide _).
Qed.

Lemma input_pointer_agrees s : agrees (fun v => input_pointer v s).
Proof.
  unfold input_pointer. destruct (input_from_u8 s) as [p|i].
  - apply agrees_bind; [auto with wallet|]. intros alignment.
    apply agrees_bind; [auto with wallet|]. intros size.
    apply agrees_bind; [auto with wallet|]. intros [? ?]. auto with wallet.
  - apply agrees_bind; [auto with wallet|]. intros [[? ?] ?]. auto with wallet.
Qed.

#[local] Hint Resolve slot_pointer_agrees input_pointer_agrees : wallet.

Lemma decode_slots_agrees slots cursor : agrees (fun v => decode_slots v slots cursor).
Proof.
  revert cursor. induction slots as [|s slots IH]; intros cursor; cbn [decode_slots]; [auto with wallet|].
  apply agrees_bind; [auto with wallet|]. intros p. by apply (agrees_bind (fun _ => _)); [auto with wallet|].
Qed.

Lemma decode_inputs_agrees inputs cursor : agrees (fun v => decode_inputs v inputs cursor).
Proof.
  revert cursor. induction inputs as [|s inputs IH]; intros cursor; cbn [decode_inputs]; [auto with wallet|].
  apply agrees_bind; [auto with wallet|]. intros [p size].
  by apply (agrees_bind (fun _ => _)); [auto with wallet|].
Qed.

Lemma decode_outputs_agrees count cursor : agrees (fun v => decode_outputs v count cursor).
Proof.
  revert cursor. induction count as [|count IH]; intros cursor; cbn [decode_outputs]; [auto with wallet|].
  apply agrees_bind; [auto with wallet|]. intros cap.
  apply agrees_bind; [auto with wallet|]. intros [? power].
  apply agrees_bind; [auto with wallet|]. intros alignment.
  apply agrees_bind; [auto with wallet|]. intros data.
  by apply (agrees_bind (fun _ => _)); [auto with wallet|].
Qed.

Lemma read_bytes_u8_agrees count : agrees (fun v => read_bytes_u8 v count).
Proof.
  induction count as [|count IH]; cbn [read_bytes_u8]; [auto with wallet|].
  apply agrees_bind; [auto with wallet|]. intros b.
  apply agrees_bind; [done|]. intros. auto with wallet.
Qed.

#[local] Hint Resolve decode_slots_agrees decode_inputs_agrees decode_outputs_agrees
  read_bytes_u8_agrees : wallet.

Lemma decode_arguments_agrees slots inputs no : agrees (fun v => decode_arguments v slots inputs no).
Proof.
  apply agrees_bind; [auto with wallet|]. intros cursor.
  apply agrees_bind; [auto with wallet|]. intros cursor'.
  apply agrees_bind; auto with wallet.
Qed.

Lemma decode_method_agrees mc : agrees (fun v => decode_method v mc).
Proof.
  unfold decode_method. apply (agrees_bind (fun _ => _)); [auto with wallet|]. intros _.
  apply agrees_bind; [auto with wallet|]. intros [? c].
  apply agrees_bind; [auto with wallet|]. intros [? fp].
  apply agrees_bind.
  { apply agrees_bind; [auto with wallet|]. intros [? value]. auto with wallet. }
  intros ctx. apply agrees_bind; [auto with wallet|]. intros ns.
  apply agrees_bind; [auto with wallet|]. intros slots.
  apply agrees_bind; [auto with wallet|]. intros ni.
  apply agrees_bind; [auto with wallet|]. intros inputs.
  apply agrees_bind; [auto with wallet|]. intros no.
  destruct (decide _); [auto with wallet|]. destruct (decide _); [auto with wallet|].
  cbn zeta. intros d m d'. cbn [andb]. destruct (bool_decide _); [done|]. revert d m d'.
  apply (agrees_bind (fun v => decode_arguments v slots inputs (N.to_nat no)) (fun _ cells => mret _));
    [apply decode_arguments_agrees|auto with wallet].
Qed.

(** What the steps take off the payload *)

Lemma split_payload_consumes v n : consumes (N.to_nat n) (split_payload v n).
Proof.
  intros d a d'. unfold split_payload. destruct (decide _) as [Hn|]; [|by destruct v].
  intros [= <- <-]. cbn. rewrite length_drop. lia.
Qed.

Lemma ensure_alignment_consumes v n : consumes 0 (ensure_alignment v n).
Proof.
  intros d a d'. unfold ensure_alignment. destruct (decide _); [done|].
  destruct (decide _); [|intros [= _ <-]; lia].
  intros ([off b] & d1 & H1 & H2)%mbind_Ok. apply split_payload_consumes in H1. injection H2 as _ <-. lia.
Qed.

Lemma get_bytes_consumes v size alignment : consumes (N.to_nat size) (get_bytes v size alignment).
Proof.
  apply (consumes_bind 0); [apply ensure_alignment_consumes|intros; apply split_payload_consumes].
Qed.

Lemma get_trivial_type_consumes v size alignment :
  consumes (N.to_nat size) (get_trivial_type v size alignment).
Proof. apply get_bytes_consumes. Qed.

Lemma read_u8_consumes v : consumes 1 (read_u8 v).
Proof. apply (consumes_bind 1 0); [apply (split_payload_consumes v 1)|]. intros [? ?]. apply consumes_ret. Qed.

Lemma consumes_0 {A} n (f : M A) : consumes n f -> consumes 0 f.
Proof. apply consumes_weaken. lia. Qed.

(** A step that leaves the payload alone *)
Lemma consumes_keeps {A} (f : M A) :
  (forall d a d', f d = Ret (Ok a, d') -> payload d' = payload d) -> consumes 0 f.
Proof. intros H d a d' ->%H. lia. Qed.

Lemma update_output_buffer_details_consumes : consumes 0 update_output_buffer_details.
Proof.
  apply consumes_keeps. intros d a d'. unfold update_output_buffer_details.
  destruct (decide _); [|done]. destruct (update_details _ _); cbn [obind]; [|done]. by intros [= _ <-].
Qed.

Lemma get_from_output_buffer_consumes v i : consumes 0 (get_from_output_buffer v i).
Proof.
  apply consumes_keeps. intros d a d'. unfold get_from_output_buffer.
  destruct (v && _); [done|]. destruct (output_buffer_details d !! _) as [[o|]|]; try done.
  destruct (decide _); [|done]. by intros [= _ <-].
Qed.

Lemma allocate_output_buffer_ptr_consumes v alignment size :
  consumes 0 (allocate_output_buffer_ptr v alignment size).
Proof.
  apply consumes_keeps. intros d a d'. unfold allocate_output_buffer_ptr. destruct (decide _); [done|].
  destruct (checked_add _ _) as [n1|]; [destruct (checked_add n1 size)|];
    repeat case_decide; destruct v; try done; by intros [= _ <-].
Qed.

Lemma push_details_consumes o : consumes 0 (push_details o).
Proof.
  apply consumes_keeps. intros d a d'. unfold push_details.
  destruct (arr_set _ _ _); cbn [obind]; [|done]. by intros [= _ <-].
Qed.

Lemma allocate_output_buffer_consumes v capacity alignment off :
  consumes 0 (allocate_output_buffer v capacity alignment off).
Proof.
  intros d. unfold allocate_output_buffer. destruct (v && _); [done|].
  apply (consumes_bind 0 0); [apply allocate_output_buffer_ptr_consumes|].
  intros [o|]; [|apply consumes_fail].
  apply (consumes_bind 0 0); [apply push_details_consumes|intros; apply consumes_ret].
Qed.

Lemma write_external_args_consumes cursor cells : consumes 0 (write_external_args cursor cells).
Proof.
  apply consumes_keeps. intros d a d'. unfold write_external_args.
  destruct (copy_at _ _ _); cbn [obind]; [|done]. by intros [= _ <-].
Qed.

Lemma alignment_of_consumes v p : consumes 0 (alignment_of v p).
Proof.
  unfold alignment_of. destruct (decide _); [apply consumes_ret|].
  destruct v; [apply consumes_fail|apply consumes_fault].
Qed.

#[local] Hint Resolve consumes_ret consumes_fail consumes_fault get_from_output_buffer_consumes
  allocate_output_buffer_consumes write_external_args_consumes alignment_of_consumes
  update_output_buffer_details_consumes : wallet.
#[local] Hint Extern 5 (consumes 0 (get_trivial_type _ _ _)) =>
  eapply consumes_0, get_trivial_type_consumes : wallet.
#[local] Hint Extern 5 (consumes 0 (get_bytes _ _ _)) => eapply consumes_0, get_bytes_consumes : wallet.
#[local] Hint Extern 5 (consumes 0 (read_u8 _)) => eapply consumes_0, read_u8_consumes : wallet.

Lemma get_u32_consumes v : consumes 0 (get_u32 v).
Proof. apply (consumes_bind 0 0); [auto with wallet|]. intros [? ?]. auto with wallet. Qed.

#[local] Hint Resolve get_u32_consumes : wallet.

Lemma slot_pointer_consumes v s : consumes 0 (slot_pointer v s).
Proof.
  unfold slot_pointer. destruct (slot_from_u8 s) as [|i].
  - apply (consumes_bind 0 0); [auto with wallet|]. intros [? ?]. auto with wallet.
  - apply (consumes_bind 0 0); [auto with wallet|]. intros [[off bytes] size].
    destruct (v && _); [auto with wallet|]. destruct (decide _); [auto with wallet|].
    destruct v; auto with wallet.
Qed.

Lemma input_pointer_consumes v s : consumes 0 (input_pointer v s).
Proof.
  unfold input_pointer. destruct (input_from_u8 s) as [p|i].
  - do 2 (apply (consumes_bind 0 0); [auto with wallet|]; intros ?).
    apply (consumes_bind 0 0); [auto with wallet|]. intros [? ?]. auto with wallet.
  - apply (consumes_bind 0 0); [auto with wallet|]. intros [[? ?] ?]. auto with wallet.
Qed.

#[local] Hint Resolve slot_pointer_consumes input_pointer_consumes : wallet.

Lemma decode_slots_consumes v slots cursor : consumes 0 (decode_slots v slots cursor).
Proof.
  revert cursor. induction slots as [|s slots IH]; intros cursor; cbn [decode_slots]; [auto with wallet|].
  do 2 (apply (consumes_bind 0 0); [auto with wallet|]; intros ?). apply IH.
Qed.

Lemma decode_inputs_consumes v inputs cursor : consumes 0 (decode_inputs v inputs cursor).
Proof.
  revert cursor. induction inputs as [|s inputs IH]; intros cursor; cbn [decode_inputs]; [auto with wallet|].
  apply (consumes_bind 0 0); [auto with wallet|]. intros [p size].
  apply (consumes_bind 0 0); [auto with wallet|]. intros ?. apply IH.
Qed.

Lemma decode_outputs_consumes v count cursor : consumes 0 (decode_outputs v count cursor).
Proof.
  revert cursor. induction count as [|count IH]; intros cursor; cbn [decode_outputs]; [auto with wallet|].
  apply (consumes_bind 0 0); [auto with wallet|]. intros cap.
  apply (consumes_bind 0 0); [auto with wallet|]. intros [? power].
  do 3 (apply (consumes_bind 0 0); [auto with wallet|]; intros ?). apply IH.
Qed.

Lemma read_bytes_u8_consumes v count : consumes 0 (read_bytes_u8 v count).
Proof.
  induction count as [|count IH]; cbn [read_bytes_u8]; [auto with wallet|].
  do 2 (apply (consumes_bind 0 0); [auto with wallet|]; intros ?). auto with wallet.
Qed.

#[local] Hint Resolve decode_slots_consumes decode_inputs_consumes decode_outputs_consumes
  read_bytes_u8_consumes : wallet.

Lemma decode_arguments_consumes v slots inputs no : consumes 0 (decode_arguments v slots inputs no).
Proof.
  do 3 (apply (consumes_bind 0 0); [auto with wallet|]; intros ?).
  apply consumes_keeps. by intros d cells d' [= _ <-].
Qed.

(** An address, a fingerprint, a context and three counts *)
Definition MIN_METHOD_SIZE : nat := 52.

Lemma decode_method_consumes v mc : consumes MIN_METHOD_SIZE (decode_method v mc).
Proof.
  apply (consumes_bind 0 52); [auto with wallet|]. intros _.
  apply (consumes_bind 16 36); [apply (get_trivial_type_consumes v 16)|]. intros [? c].
  apply (consumes_bind 32 4); [apply (get_trivial_type_consumes v 32)|]. intros [? fp].
  apply (consumes_bind 1 3).
  { apply (consumes_bind 1 0); [apply (get_trivial_type_consumes v 1)|]. intros [? value].
    destruct (method_context_try_from _); auto with wallet. }
  intros ctx. apply (consumes_bind 1 2); [apply read_u8_consumes|]. intros ns.
  apply (consumes_bind 0 2); [auto with wallet|]. intros slots.
  apply (consumes_bind 1 1); [apply read_u8_consumes|]. intros ni.
  apply (consumes_bind 0 1); [auto with wallet|]. intros inputs.
  apply (consumes_bind 1 0); [apply read_u8_consumes|]. intros no.
  repeat case_decide; auto with wallet. cbn zeta. destruct (v && _); [auto with wallet|].
  apply (consumes_bind 0 0); [apply decode_arguments_consumes|auto with wallet].
Qed.

Lemma decode_next_method_consumes v mc d m d' :
  decode_next_method v mc d = Ret (Ok (Some m), d') ->
  length (payload d') + MIN_METHOD_SIZE <= length (payload d).
Proof.
  unfold decode_next_method. destruct (decide _); [done|].
  intros (a & d1 & H1 & H2)%mbind_Ok. apply decode_method_consumes in H1. injection H2 as _ <-. lia.
Qed.
End WalletPayload.
