(* ===== verification/WalletRoundtrip.v ===== *)
(** * Round trip of wallet payloads

    What [TransactionPayloadBuilder] writes, [TransactionPayloadDecoder] reads
    ([WalletPayload]).  The decoder is followed through the payload by the prefix the
    builder had written: [goto P p d] is the decoder that has read the prefix [p] of the
    payload [P].  Each step of the builder is matched by the step of the decoder that
    reads its bytes; the invariant [ready] covers the outputs of earlier methods.
    Between two steps a method may write to its own outputs ([after_call]); [decodes] says
    what the decoder then returns for the calls that are left. *)

From S2P Require Import Prelude Slices Shards Address SystemContracts NativeExecutor WalletPayload.
From stdpp Require Import prelude.
From Stdlib Require Import NArith Lia.
From Stdlib Require Import Strings.Byte.

Module WalletRoundtrip.
Import Address WalletPayload.

(** ** Steps of the builder and the decoder *)

(** The decoder with the payload [P] read up to the end of its prefix [p] *)
Definition goto (P p : list byte) (d : decoder) : decoder :=
  with_payload d (drop (length p) P) (N.of_nat (length p)).

Lemma goto_goto P p p' d : goto P p' (goto P p d) = goto P p' d.
Proof. done. Qed.

Lemma split_payload_goto v P p b d :
  p ++ b `prefix_of` P ->
  split_payload v (N.of_nat (length b)) (goto P p d) =
    Ret (Ok (N.of_nat (length p), b), goto P (p ++ b) d).
Proof.
  intros [rest ->]. unfold split_payload. cbn [payload offset goto with_payload].
  rewrite Nat2N.id, <- app_assoc, drop_app_length, length_app, decide_True by lia.
  rewrite take_app_length, drop_app_length. unfold goto, with_payload. cbn.
  rewrite length_app, app_assoc, Nat2N.inj_add. do 2 f_equal.
  rewrite <- app_assoc. f_equal. by rewrite app_assoc, <- length_app, drop_app_length.
Qed.

Lemma ensure_alignment_goto v P p al p' d :
  Builder.ensure_alignment p al = Ret p' -> p' `prefix_of` P ->
  ensure_alignment v al (goto P p d) = Ret (Ok tt, goto P p' d).
Proof.
  unfold Builder.ensure_alignment, ensure_alignment. destruct (decide _); [done|].
  intros [= <-] Hp. cbn [offset goto with_payload]. destruct (decide _); [|done].
  set (k := (al - N.land (N.of_nat (length p)) (al - 1))%N) in *.
  pose proof (split_payload_goto v P p (replicate (N.to_nat k) x00) d Hp) as E.
  rewrite length_replicate, N2Nat.id in E. by rewrite (mbind_step _ _ _ _ _ E).
Qed.

Lemma prefix_app_inv {A} (a b c : list A) : a ++ b `prefix_of` c -> a `prefix_of` c.
Proof. intros [r ->]. exists (b ++ r). by rewrite app_assoc. Qed.

(** Where a value was put, it is read. *)
Lemma get_bytes_goto v P p b al p' d :
  Builder.extend_payload_with_alignment p b al = Ret p' -> p' `prefix_of` P ->
  exists p0, p' = p0 ++ b /\
    get_bytes v (N.of_nat (length b)) al (goto P p d) =
      Ret (Ok (N.of_nat (length p0), b), goto P p' d).
Proof.
  unfold Builder.extend_payload_with_alignment.
  destruct (Builder.ensure_alignment p al) as [p0|] eqn:E; cbn [obind]; [|done].
  intros [= <-] Hp. exists p0. split; [done|]. unfold get_bytes.
  rewrite (mbind_step _ _ _ _ _ (ensure_alignment_goto v P p al p0 d E (prefix_app_inv _ _ _ Hp))).
  by apply split_payload_goto.
Qed.

Lemma le_value_byte_of n : (n < 256)%N -> le_value [byte_of n] = n.
Proof. intros. cbn. rewrite to_N_byte_of, N.mod_small by lia. lia. Qed.

Lemma read_u8_goto v P p n d :
  (n < 256)%N -> Builder.push_payload_byte p n `prefix_of` P ->
  read_u8 v (goto P p d) = Ret (Ok n, goto P (Builder.push_payload_byte p n) d).
Proof.
  intros Hn Hp. unfold read_u8.
  rewrite (mbind_step _ _ _ _ _ (split_payload_goto v P p [byte_of n] d Hp)).
  unfold mret. by rewrite le_value_byte_of.
Qed.

Lemma get_u32_goto v P p n p' d :
  (n < 2 ^ 32)%N -> Builder.extend_payload_with_alignment p (le_split 4 n) 4 = Ret p' ->
  p' `prefix_of` P -> get_u32 v (goto P p d) = Ret (Ok n, goto P p' d).
Proof.
  intros Hn E Hp. destruct (get_bytes_goto v P p _ _ _ d E Hp) as (p0 & -> & H).
  rewrite length_le_split in H. unfold get_u32. change (get_trivial_type v 4 4) with (get_bytes v 4 4).
  rewrite (mbind_step _ _ _ _ _ H). unfold mret. rewrite le_value_split, N.mod_small by done. done.
Qed.

(** Building only adds to the payload. *)

Lemma ensure_alignment_prefix p al p' : Builder.ensure_alignment p al = Ret p' -> p `prefix_of` p'.
Proof.
  unfold Builder.ensure_alignment. destruct (decide _); [done|]. intros [= <-].
  destruct (decide _); [|done]. by apply prefix_app_r.
Qed.

Lemma extend_prefix p b al p' :
  Builder.extend_payload_with_alignment p b al = Ret p' -> p `prefix_of` p'.
Proof.
  unfold Builder.extend_payload_with_alignment.
  destruct (Builder.ensure_alignment p al) as [p0|] eqn:E; cbn [obind]; [|done].
  intros [= <-]. apply prefix_app_r. by eapply ensure_alignment_prefix.
Qed.

Lemma push_byte_prefix p n : p `prefix_of` Builder.push_payload_byte p n.
Proof. by apply prefix_app_r. Qed.

Lemma push_slot_types_prefix count i idx p r p' :
  Builder.push_slot_types count i idx p = (r, p') -> p `prefix_of` p'.
Proof.
  revert i p. induction count as [|count IH]; intros i p; cbn [Builder.push_slot_types].
  { by intros [= _ <-]. }
  destruct (match _ with Some _ => _ | None => _ end); [|by intros [= _ <-]].
  intros H%IH. etrans; [apply push_byte_prefix|done].
Qed.

Lemma push_input_types_prefix details i idx p r p' :
  Builder.push_input_types details i idx p = (r, p') -> p `prefix_of` p'.
Proof.
  revert i p. induction details as [|t details IH]; intros i p; cbn [Builder.push_input_types].
  { by intros [= _ <-]. }
  destruct (match Builder.output_index_at _ _ with Some _ => _ | None => _ end); [|by intros [= _ <-]].
  intros H%IH. etrans; [apply push_byte_prefix|done].
Qed.

Lemma push_slots_prefix count i idx args p args' p' :
  Builder.push_slots count i idx args p = Ret (args', p') -> p `prefix_of` p'.
Proof.
  revert i args p. induction count as [|count IH]; intros i args p; cbn [Builder.push_slots].
  { by intros [= _ <-]. }
  destruct args as [|[a| | |] args]; try done.
  destruct (Builder.output_index_at idx i); cbn [obind]; [apply IH|].
  destruct (Builder.extend_payload_with_alignment _ _ _) eqn:E; cbn [obind]; [|done].
  intros H%IH. etrans; [by eapply extend_prefix|done].
Qed.

Lemma push_inputs_prefix details i idx args p p' :
  Builder.push_inputs details i idx args p = Ret p' -> p `prefix_of` p'.
Proof.
  revert i args p. induction details as [|t details IH]; intros i args p; cbn [Builder.push_inputs].
  { by intros [= <-]. }
  destruct args as [|[|data| |] args]; try done.
  destruct (Builder.output_index_at idx i); cbn [obind]; [apply IH|].
  destruct (Builder.extend_payload_with_alignment p _ _) eqn:E; cbn [obind]; [|done].
  destruct (Builder.extend_payload_with_alignment _ data _) eqn:E'; cbn [obind]; [|done].
  intros H%IH. etrans; [by eapply extend_prefix|]. etrans; [by eapply extend_prefix|done].
Qed.

Lemma push_outputs_prefix details p p' : Builder.push_outputs details p = Ret p' -> p `prefix_of` p'.
Proof.
  revert p. induction details as [|t details IH]; intros p; cbn [Builder.push_outputs].
  { by intros [= <-]. }
  destruct (Builder.extend_payload_with_alignment p _ _) eqn:E; cbn [obind]; [|done].
  destruct (Builder.extend_payload_with_alignment _ _ 1) eqn:E'; cbn [obind]; [|done].
  intros H%IH. etrans; [by eapply extend_prefix|]. etrans; [by eapply extend_prefix|done].
Qed.

(** *** The types of slots and inputs *)

Definition slot_type_at (idx : list (option N)) (i : nat) : TransactionSlotType :=
  match Builder.output_index_at idx i with Some n => SlotOutputIndex n | None => SlotAddress end.

Definition input_type_at (idx : list (option N)) (i : nat) (t : Builder.IoTypeDetails)
    : TransactionInputType :=
  match Builder.output_index_at idx i with
  | Some n => InputOutputIndex n
  | None => Value (N.log2 (Builder.alignment t))
  end.

Fixpoint input_types (details : list Builder.IoTypeDetails) (i : nat) (idx : list (option N))
    : list TransactionInputType :=
  match details with
  | [] => []
  | t :: details => input_type_at idx i t :: input_types details (S i) idx
  end.

Definition alignment_ok (t : Builder.IoTypeDetails) : Prop :=
  exists k, (k <= 4)%N /\ Builder.alignment t = (2 ^ k)%N.

Lemma input_new_value_Some t p :
  input_new_value (Builder.alignment t) = Some p ->
  alignment_ok t /\ p = Value (N.log2 (Builder.alignment t)).
Proof.
  unfold input_new_value. destruct (decide _) as [H|]; [|done]. intros [= <-]. split; [|done].
  destruct H as [H|[H|[H|[H|H]]]];
    [exists 0%N|exists 1%N|exists 2%N|exists 3%N|exists 4%N]; rewrite H; done.
Qed.

Lemma alignment_log t : alignment_ok t ->
  (N.log2 (Builder.alignment t) <= 4)%N /\ (2 ^ N.log2 (Builder.alignment t))%N = Builder.alignment t.
Proof. intros (k & Hk & ->). by rewrite N.log2_pow2 by lia. Qed.

(** Inputs refer to outputs below 128 or have a valid alignment. *)
Fixpoint inputs_ok (details : list Builder.IoTypeDetails) (i : nat) (idx : list (option N)) : Prop :=
  match details with
  | [] => True
  | t :: details =>
      match Builder.output_index_at idx i with Some n => (n <= 127)%N | None => alignment_ok t end /\
      inputs_ok details (S i) idx
  end.

(** A byte below 128 has its highest bit clear. *)
Lemma land_128 n : (n <= 127)%N -> N.land n 128 = 0%N.
Proof.
  intros Hn. apply N.bits_inj_0. intros i. rewrite N.land_spec.
  destruct (N.eq_dec i 7) as [->|Hi].
  - rewrite (N.bits_above_log2 n 7); [done|].
    destruct (N.eq_dec n 0) as [->|]; [done|]. apply N.log2_lt_pow2; lia.
  - change 128%N with (2 ^ 7)%N. by rewrite N.pow2_bits_false, andb_false_r by congruence.
Qed.

Lemma slot_from_into t :
  match t with SlotAddress => True | SlotOutputIndex n => (n <= 127)%N end ->
  slot_from_u8 (slot_into_u8 t) = t /\ (slot_into_u8 t < 256)%N.
Proof.
  destruct t as [|n]; [done|]. intros Hn. unfold slot_from_u8. cbn. rewrite land_128 by done.
  split; [done|lia].
Qed.

Lemma input_from_into t :
  match t with Value p => p <= 4 | InputOutputIndex n => n <= 127 end%N ->
  input_from_u8 (input_into_u8 t) = t /\ (input_into_u8 t < 256)%N.
Proof.
  destruct t as [p|n]; intros Hn.
  - assert (p = 0 \/ p = 1 \/ p = 2 \/ p = 3 \/ p = 4)%N as [->|[->|[->|[->| ->]]]] by lia; done.
  - unfold input_from_u8. cbn. rewrite land_128 by done. split; [done|lia].
Qed.

Lemma push_slot_types_goto v P count i idx p p' d :
  Builder.push_slot_types count i idx p = (Ok tt, p') -> p' `prefix_of` P ->
  Forall (fun j => match slot_type_at idx j with SlotAddress => True | SlotOutputIndex n => n <= 127 end%N)
    (seq i count) /\
  read_bytes_u8 v count (goto P p d) =
    Ret (Ok ((fun j => slot_into_u8 (slot_type_at idx j)) <$> seq i count), goto P p' d).
Proof.
  revert i p. induction count as [|count IH]; intros i p; cbn [Builder.push_slot_types seq fmap list_fmap].
  { intros [= <-]. done. }
  intros H Hp.
  assert (Ht : match slot_type_at idx i with SlotAddress => True | SlotOutputIndex n => n <= 127 end%N /\
    Builder.push_slot_types count (S i) idx
      (Builder.push_payload_byte p (slot_into_u8 (slot_type_at idx i))) = (Ok tt, p')).
  { unfold slot_type_at. destruct (Builder.output_index_at idx i) as [n|]; [|done].
    unfold slot_new_output_index in H. destruct (decide _); [done|]. split; [lia|done]. }
  destruct Ht as [Ht H']. destruct (IH _ _ H' Hp) as [Hall Hread]. split; [by constructor|].
  cbn [read_bytes_u8].
  assert (Hb : Builder.push_payload_byte p (slot_into_u8 (slot_type_at idx i)) `prefix_of` P).
  { etrans; [by eapply push_slot_types_prefix|done]. }
  rewrite (mbind_step _ _ _ _ _ (read_u8_goto v P p _ d (proj2 (slot_from_into _ Ht)) Hb)).
  by rewrite (mbind_step _ _ _ _ _ Hread).
Qed.

Lemma input_type_ok idx i t :
  match Builder.output_index_at idx i with Some n => (n <= 127)%N | None => alignment_ok t end ->
  match input_type_at idx i t with Value p => p <= 4 | InputOutputIndex n => n <= 127 end%N.
Proof.
  unfold input_type_at. destruct (Builder.output_index_at idx i); [done|]. intros H. by apply alignment_log.
Qed.

Lemma push_input_types_goto v P details i idx p p' d :
  Builder.push_input_types details i idx p = (Ok tt, p') -> p' `prefix_of` P ->
  inputs_ok details i idx /\
  read_bytes_u8 v (length details) (goto P p d) =
    Ret (Ok (input_into_u8 <$> input_types details i idx), goto P p' d).
Proof.
  revert i p. induction details as [|t details IH]; intros i p; cbn [Builder.push_input_types].
  { intros [= <-]. done. }
  intros H Hp. cbn [input_types fmap list_fmap inputs_ok length read_bytes_u8].
  assert (Ht : match Builder.output_index_at idx i with Some n => (n <= 127)%N | None => alignment_ok t end /\
    Builder.push_input_types details (S i) idx
      (Builder.push_payload_byte p (input_into_u8 (input_type_at idx i t))) = (Ok tt, p')).
  { unfold input_type_at. destruct (Builder.output_index_at idx i) as [n|].
    - unfold input_new_output_index in H. destruct (decide _); [done|]. split; [lia|done].
    - destruct (input_new_value _) as [q|] eqn:E; [|done].
      by apply input_new_value_Some in E as [? ->]. }
  destruct Ht as [Ht H']. destruct (IH _ _ H' Hp) as [Hall Hread]. split; [done|].
  assert (Hb : Builder.push_payload_byte p (input_into_u8 (input_type_at idx i t)) `prefix_of` P).
  { etrans; [by eapply push_input_types_prefix|done]. }
  pose proof (proj2 (input_from_into _ (input_type_ok idx i t Ht))) as Hlt.
  rewrite (mbind_step _ _ _ _ _ (read_u8_goto v P p _ d Hlt Hb)).
  by rewrite (mbind_step _ _ _ _ _ Hread).
Qed.

(** *** What a method reads from its arguments *)

Definition slice (l : list byte) (off n : N) : option (list byte) :=
  if decide (off + n <= N.of_nat (length l))%N
  then Some (take (N.to_nat n) (drop (N.to_nat off) l)) else None.

Definition deref (P out : list byte) (p : pointer) (n : N) : option (list byte) :=
  match p with
  | NullPointer => None
  | InPayload off => slice P off n
  | InOutput off => slice out off n
  end.

Fixpoint read_slots (P out : list byte) (n : nat) (cells : list cell)
    : option (list address * list cell) :=
  match n with
  | O => Some ([], cells)
  | S n =>
      match cells with
      | Pointer p :: cells =>
          b ← deref P out p 16;
          '(l, cells) ← read_slots P out n cells;
          Some (address_of b :: l, cells)
      | _ => None
      end
  end.

Fixpoint read_inputs (P out : list byte) (n : nat) (cells : list cell)
    : option (list (list byte) * list cell) :=
  match n with
  | O => Some ([], cells)
  | S n =>
      match cells with
      | Pointer p :: SizeCapacity size _ :: cells =>
          b ← deref P out p size;
          '(l, cells) ← read_inputs P out n cells;
          Some (b :: l, cells)
      | _ => None
      end
  end.

(** The capacities of the outputs, all of them empty at first *)
Fixpoint read_outputs (out : list byte) (n : nat) (cells : list cell) : option (list N) :=
  match n with
  | O => Some []
  | S n =>
      match cells with
      | Pointer p :: SizeCapacity 0 capacity :: cells =>
          _ ← deref [] out p capacity;
          l ← read_outputs out n cells;
          Some (capacity :: l)
      | _ => None
      end
  end.

(** The contents of the outputs of earlier methods are [outs]: what a call passes for a
    slot, or the reference and size of an output that is not an address *)
Definition resolve_slot (outs : list (list byte)) (idx : list (option N)) (i : nat) (a : address)
    : result address (N * N) :=
  match Builder.output_index_at idx i with
  | None => Ok a
  | Some k =>
      let b := default [] (outs !! N.to_nat k) in
      if decide (length b = 16) then Ok (address_of b) else Err (k, N.of_nat (length b))
  end.

Fixpoint resolve_slots (outs : list (list byte)) (idx : list (option N)) (i : nat)
    (addresses : list address) : result (list address) (N * N) :=
  match addresses with
  | [] => Ok []
  | a :: addresses =>
      match resolve_slot outs idx i a with
      | Err e => Err e
      | Ok a =>
          match resolve_slots outs idx (S i) addresses with
          | Err e => Err e
          | Ok l => Ok (a :: l)
          end
      end
  end.

(** The inputs of a call: values, or outputs of earlier methods *)
Fixpoint resolve_inputs (outs : list (list byte)) (idx : list (option N)) (i : nat)
    (data : list (list byte)) : option (list (list byte)) :=
  match data with
  | [] => Some []
  | b :: data =>
      b ← match Builder.output_index_at idx i with
          | None => Some b
          | Some k => outs !! N.to_nat k
          end;
      l ← resolve_inputs outs idx (S i) data;
      Some (b :: l)
  end.

Lemma slice_prefix P p0 b :
  p0 ++ b `prefix_of` P -> slice P (N.of_nat (length p0)) (N.of_nat (length b)) = Some b.
Proof.
  intros [rest ->]. unfold slice. rewrite !length_app, decide_True by lia.
  rewrite !Nat2N.id, <- app_assoc, drop_app_length, take_app_length. done.
Qed.

Lemma slice_Some l off n b :
  slice l off n = Some b ->
  (off + n <= N.of_nat (length l))%N /\ length b = N.to_nat n /\
  b = take (N.to_nat n) (drop (N.to_nat off) l).
Proof.
  unfold slice. destruct (decide _); [|done]. intros [= <-].
  rewrite length_take, length_drop. split; [done|]. split; [lia|done].
Qed.

(** Slices of buffers that agree there *)
Lemma slice_agree l l' off n :
  length l' = length l ->
  (forall i, N.to_nat off <= i < N.to_nat off + N.to_nat n -> l' !! i = l !! i) ->
  slice l' off n = slice l off n.
Proof.
  intros Hl Hi. unfold slice. rewrite Hl. destruct (decide _); [|done]. f_equal.
  apply list_eq. intros i. destruct (decide (i < N.to_nat n)).
  - rewrite !lookup_take_lt, !lookup_drop by done. apply Hi. lia.
  - rewrite !lookup_take_ge by lia. done.
Qed.

Definition address_ok (a : address) : Prop := (addr_0 a < 2 ^ 64)%N /\ (addr_1 a < 2 ^ 64)%N.

Lemma length_address_bytes a : length (address_bytes a) = 16.
Proof. unfold address_bytes. by rewrite length_app, !length_le_split. Qed.

Lemma address_of_bytes a : address_ok a -> address_of (address_bytes a) = a.
Proof.
  intros [H0 H1]. unfold address_of, address_bytes.
  rewrite take_app_length', drop_app_length' by (by rewrite length_le_split).
  rewrite !le_value_split, !N.mod_small by done. by destruct a.
Qed.

Lemma goto_cells P p d cells : with_cells (goto P p d) cells = goto P p (with_cells d cells).
Proof. done. Qed.

Lemma with_cells_self d cells : external_args_buffer d = cells -> with_cells d cells = d.
Proof. intros <-. by destruct d. Qed.

Lemma write_external_args_app pre mid cells d :
  external_args_buffer d = pre ++ mid -> length cells <= length mid ->
  write_external_args (length pre) cells d =
    Ret (Ok (length pre + length cells), with_cells d (pre ++ cells ++ drop (length cells) mid)).
Proof.
  intros Hb Hl. unfold write_external_args. rewrite Hb, copy_at_app by done. done.
Qed.

(** The output [k] of an earlier method as the decoder has it: [o] is recorded and its
    contents are [b]. *)
Definition recorded (d : decoder) (k : N) (o : OutputBufferDetails) (b : list byte) : Prop :=
  N.to_nat k < current d /\ output_buffer_details d !! N.to_nat k = Some (Some o) /\
  slice (output_buffer d) (output_offset o) (size_or_external_args_offset o) = Some b.

Lemma get_from_output_buffer_recorded v k o b d :
  recorded d k o b ->
  get_from_output_buffer v k d = Ret (Ok (output_offset o, b, size_or_external_args_offset o), d).
Proof.
  intros (Hn & Hk & (Hle & _ & ->)%slice_Some). unfold get_from_output_buffer.
  rewrite bool_decide_eq_false_2, andb_false_r by lia. rewrite Hk. by rewrite decide_True by lia.
Qed.

(** The references of inputs, and those of slots, which need the alignment of addresses *)
Definition inputs_recorded (d : decoder) (outs : list (list byte)) (idx : list (option N)) : Prop :=
  forall i k, Builder.output_index_at idx i = Some k ->
    exists o b, outs !! N.to_nat k = Some b /\ recorded d k o b.

Definition slots_recorded (d : decoder) (outs : list (list byte)) (idx : list (option N)) : Prop :=
  forall i k, Builder.output_index_at idx i = Some k ->
    exists o b, outs !! N.to_nat k = Some b /\ recorded d k o b /\ (output_offset o mod 8 = 0)%N.

(** One slot: the pointer that is written and what is read through it *)
Lemma slot_pointer_goto v P outs idx i a p p' d :
  match slot_type_at idx i with SlotAddress => True | SlotOutputIndex n => n <= 127 end%N ->
  slots_recorded d outs idx -> address_ok a ->
  match Builder.output_index_at idx i with
  | None => Builder.extend_payload_with_alignment p (address_bytes a) 8
  | Some _ => Ret p
  end = Ret p' -> p' `prefix_of` P ->
  match resolve_slot outs idx i a with
  | Ok a' => exists ptr b,
      deref P (output_buffer d) ptr 16 = Some b /\ address_of b = a' /\
      slot_pointer v (slot_into_u8 (slot_type_at idx i)) (goto P p d) = Ret (Ok ptr, goto P p' d)
  | Err (k, size) => v = true ->
      slot_pointer v (slot_into_u8 (slot_type_at idx i)) (goto P p d) =
        Ret (Err (InvalidSlotOutputIndexSize k size), goto P p' d)
  end.
Proof.
  intros Ht Hrefs Ha E Hp. unfold slot_pointer. rewrite (proj1 (slot_from_into _ Ht)).
  unfold resolve_slot, slot_type_at. destruct (Builder.output_index_at idx i) as [k|] eqn:Hi.
  - injection E as <-. destruct (Hrefs i k Hi) as (o & b & Hb & Hrec & Hal). rewrite Hb. cbn [default].
    assert (Hrec' : recorded (goto P p d) k o b) by done.
    rewrite (mbind_step _ _ _ _ _ (get_from_output_buffer_recorded v k o b _ Hrec')).
    destruct Hrec as (_ & _ & Hs). pose proof (slice_Some _ _ _ _ Hs) as (_ & Hlen & _).
    cbn [default id]. destruct (decide (length b = 16)) as [H16|H16].
    + exists (InOutput (output_offset o)), b.
      replace (size_or_external_args_offset o) with 16%N in * by lia.
      split; [done|]. split; [done|]. rewrite andb_false_r.
      by rewrite decide_True by (split; [done|lia]).
    + intros ->. rewrite bool_decide_eq_false_2 by lia. cbn [andb negb].
      unfold mfail. do 4 f_equal. lia.
  - destruct (get_bytes_goto v P p _ _ _ d E Hp) as (p0 & -> & Hget).
    rewrite length_address_bytes in Hget. exists (InPayload (N.of_nat (length p0))), (address_bytes a).
    pose proof (slice_prefix P p0 (address_bytes a) Hp) as Hs. rewrite length_address_bytes in Hs.
    split; [done|]. split; [by apply address_of_bytes|].
    change (get_trivial_type v 16 8) with (get_bytes v 16 8). by rewrite (mbind_step _ _ _ _ _ Hget).
Qed.

Lemma mbind_fails {A B} (m : M A) (k : A -> M B) d e d1 :
  m d = Ret (Err e, d1) -> mbind m k d = Ret (Err e, d1).
Proof. unfold mbind. by intros ->. Qed.

(** The addresses and values among the arguments of a call *)
Definition address_arg (a : NativeExecutor.external_arg) : option address :=
  match a with NativeExecutor.ExtAddress a => Some a | _ => None end.

Definition input_arg (a : NativeExecutor.external_arg) : option (list byte) :=
  match a with NativeExecutor.ExtInput data => Some data | _ => None end.

Lemma push_slots_args count i idx args p args' p' :
  Builder.push_slots count i idx args p = Ret (args', p') ->
  args' = drop count args /\ count <= length args.
Proof.
  revert i args p. induction count as [|count IH]; intros i args p H; cbn [Builder.push_slots] in H.
  { injection H as <- <-. split; [done|lia]. }
  destruct args as [|[a| | |] args]; try done.
  destruct (match Builder.output_index_at idx i with Some _ => _ | None => _ end); cbn [obind] in H; [|done].
  apply IH in H as [-> Hl]. cbn. split; [done|lia].
Qed.

Lemma decode_slots_goto v P outs count i idx args p args' p' d pre mid :
  Builder.push_slots count i idx args p = Ret (args', p') -> p' `prefix_of` P ->
  Forall (fun j => match slot_type_at idx j with SlotAddress => True | SlotOutputIndex n => n <= 127 end%N)
    (seq i count) ->
  slots_recorded d outs idx ->
  (forall a, NativeExecutor.ExtAddress a ∈ args -> address_ok a) ->
  external_args_buffer d = pre ++ mid -> count <= length mid ->
  let slots := (fun j => slot_into_u8 (slot_type_at idx j)) <$> seq i count in
  match resolve_slots outs idx i (omap address_arg (take count args)) with
  | Ok addresses => exists cells,
      length cells = count /\
      (forall tail, read_slots P (output_buffer d) count (cells ++ tail) = Some (addresses, tail)) /\
      decode_slots v slots (length pre) (goto P p d) =
        Ret (Ok (length pre + count), goto P p' (with_cells d (pre ++ cells ++ drop count mid)))
  | Err (k, size) => v = true -> exists d',
      decode_slots v slots (length pre) (goto P p d) = Ret (Err (InvalidSlotOutputIndexSize k size), d')
  end.
Proof.
  cbv zeta. intros H Hp. revert i args p d pre mid H.
  induction count as [|count IH]; intros i args p d pre mid H Ht Hrefs Hargs Hb Hmid.
  { injection H as <- <-. exists []. cbn. rewrite Nat.add_0_r. split_and!; try done.
    by rewrite ?drop_0, with_cells_self. }
  cbn [Builder.push_slots] in H. destruct args as [|[a| | |] args]; try done.
  cbn [seq] in Ht. apply Forall_cons in Ht as [Ht Hts].
  destruct (match Builder.output_index_at idx i with Some _ => _ | None => _ end) as [p1|] eqn:E;
    cbn [obind] in H; [|done].
  assert (Hp1 : p1 `prefix_of` P) by (etrans; [by eapply push_slots_prefix|done]).
  assert (Ha : address_ok a) by (apply Hargs; by left).
  assert (E' : match Builder.output_index_at idx i with
    | None => Builder.extend_payload_with_alignment p (address_bytes a) 8 | Some _ => Ret p end = Ret p1).
  { by destruct (Builder.output_index_at idx i). }
  pose proof (slot_pointer_goto v P outs idx i a p p1 d Ht Hrefs Ha E' Hp1) as Hptr.
  destruct mid as [|c mid]; [cbn in Hmid; lia|].
  change (omap address_arg (take (S count) (NativeExecutor.ExtAddress a :: args))) with
    (a :: omap address_arg (take count args)). cbn [resolve_slots].
  cbn [seq fmap list_fmap decode_slots].
  destruct (resolve_slot outs idx i a) as [a'|[k size]].
  2: { intros Hv. eexists. by rewrite (mbind_fails _ _ _ _ _ (Hptr Hv)). }
  destruct Hptr as (ptr & b & Hd & Hab & Hptr). rewrite (mbind_step _ _ _ _ _ Hptr).
  rewrite (mbind_step _ _ _ _ _ (write_external_args_app pre (c :: mid) [Pointer ptr]
    (goto P p1 d) Hb ltac:(cbn; lia))).
  cbn [length app drop skipn]. rewrite drop_0, goto_cells.
  set (d1 := with_cells d (pre ++ Pointer ptr :: mid)).
  specialize (IH (S i) args p1 d1 (pre ++ [Pointer ptr]) mid H Hts Hrefs).
  rewrite length_app in IH. cbn [length] in IH.
  assert (Hargs' : forall a, NativeExecutor.ExtAddress a ∈ args -> address_ok a).
  { intros a1 Ha1. apply Hargs. by right. }
  specialize (IH Hargs' ltac:(by cbn; rewrite <- app_assoc) ltac:(cbn in Hmid; lia)).
  destruct (resolve_slots outs idx (S i) _) as [addresses|[k size]].
  - destruct IH as (cells & Hlc & Hread & Hdec). exists (Pointer ptr :: cells).
    split; [by cbn; rewrite Hlc|]. split.
    + intros tail. cbn [app read_slots]. rewrite Hd. cbn [base.mbind option_bind].
      change (output_buffer d) with (output_buffer d1). rewrite Hread. cbn [base.mbind option_bind].
      by rewrite Hab.
    + rewrite Hdec, <- app_assoc, Nat.add_succ_r. do 3 f_equal. lia.
  - intros Hv. by apply IH.
Qed.

Lemma alignment_of_log v t d :
  alignment_ok t -> alignment_of v (N.log2 (Builder.alignment t)) d = Ret (Ok (Builder.alignment t), d).
Proof.
  intros [H1 H2]%alignment_log. unfold alignment_of. rewrite decide_True by lia. unfold mret. by rewrite H2.
Qed.

(** One input: the pointer and size that are written, and what is read through them *)
Lemma input_pointer_goto v P outs t i idx data p p' d :
  match Builder.output_index_at idx i with Some n => (n <= 127)%N | None => alignment_ok t end ->
  inputs_recorded d outs idx -> (N.of_nat (length data) < 2 ^ 32)%N ->
  match Builder.output_index_at idx i with
  | None =>
      let! q := Builder.extend_payload_with_alignment p (le_split 4 (N.of_nat (length data))) 4 in
      Builder.extend_payload_with_alignment q data (Builder.alignment t)
  | Some _ => Ret p
  end = Ret p' -> p' `prefix_of` P ->
  exists ptr size b,
    match Builder.output_index_at idx i with None => Some data | Some k => outs !! N.to_nat k end = Some b /\
    deref P (output_buffer d) ptr size = Some b /\
    input_pointer v (input_into_u8 (input_type_at idx i t)) (goto P p d) = Ret (Ok (ptr, size), goto P p' d).
Proof.
  intros Ht Hrefs Hlen E Hp. unfold input_pointer.
  rewrite (proj1 (input_from_into _ (input_type_ok idx i t Ht))). unfold input_type_at.
  destruct (Builder.output_index_at idx i) as [n|] eqn:Hi; [|clear Hrefs].
  - injection E as <-. destruct (Hrefs i n Hi) as (o & b & Hb & Hrec).
    assert (Hrec' : recorded (goto P p d) n o b) by done.
    exists (InOutput (output_offset o)), (size_or_external_args_offset o), b.
    split; [done|]. split; [apply Hrec|].
    by rewrite (mbind_step _ _ _ _ _ (get_from_output_buffer_recorded v n o b _ Hrec')).
  - destruct (Builder.extend_payload_with_alignment p _ 4) as [q|] eqn:E4; cbn [obind] in E; [|done].
    assert (Hq : q `prefix_of` P) by (etrans; [by eapply extend_prefix|done]).
    pose proof (get_u32_goto v P p _ q d Hlen E4 Hq) as H32.
    destruct (get_bytes_goto v P q _ _ _ d E Hp) as (p0 & -> & Hget).
    exists (InPayload (N.of_nat (length p0))), (N.of_nat (length data)), data. split; [done|].
    split; [by apply slice_prefix|].
    rewrite (mbind_step _ _ _ _ _ (alignment_of_log v t _ Ht)), (mbind_step _ _ _ _ _ H32).
    by rewrite (mbind_step _ _ _ _ _ Hget).
Qed.

Lemma decode_inputs_goto v P outs details i idx args p p' d pre mid :
  Builder.push_inputs details i idx args p = Ret p' -> p' `prefix_of` P ->
  inputs_ok details i idx -> inputs_recorded d outs idx ->
  (forall data, NativeExecutor.ExtInput data ∈ args -> N.of_nat (length data) < 2 ^ 32)%N ->
  external_args_buffer d = pre ++ mid -> 2 * length details <= length mid ->
  exists inputs cells,
    resolve_inputs outs idx i (omap input_arg (take (length details) args)) = Some inputs /\
    length cells = 2 * length details /\
    (forall tail, read_inputs P (output_buffer d) (length details) (cells ++ tail) = Some (inputs, tail)) /\
    decode_inputs v (input_into_u8 <$> input_types details i idx) (length pre) (goto P p d) =
      Ret (Ok (length pre + 2 * length details),
           goto P p' (with_cells d (pre ++ cells ++ drop (2 * length details) mid))).
Proof.
  intros H Hp Hok Hrefs. revert i args p d pre mid H Hok Hrefs.
  induction details as [|t details IH]; intros i args p d pre mid H Hok Hrefs Hargs Hb Hmid.
  { injection H as <-. exists [], []. split_and!; [done|done|by intros|]. change (2 * length []) with 0.
    by rewrite Nat.add_0_r, drop_0, app_nil_l, with_cells_self. }
  cbn [Builder.push_inputs] in H. destruct args as [|[|data| |] args]; try done.
  destruct (match Builder.output_index_at idx i with Some _ => _ | None => _ end) as [p1|] eqn:E;
    cbn [obind] in H; [|done].
  assert (Hp1 : p1 `prefix_of` P) by (etrans; [by eapply push_inputs_prefix|done]).
  destruct Hok as [Ht Hok].
  destruct (input_pointer_goto v P outs t i idx data p p1 d Ht Hrefs (Hargs data ltac:(by left)) E Hp1) as
    (ptr & size & b & Hb1 & Hd & Hptr).
  destruct mid as [|c1 [|c2 mid]]; [cbn in Hmid; lia..|].
  set (cs := [Pointer ptr; SizeCapacity size size]).
  destruct (IH (S i) args p1 (with_cells d (pre ++ cs ++ mid)) (pre ++ cs) mid H Hok Hrefs) as
    (inputs & cells & Hin & Hlc & Hread & Hdec).
  { intros data' Hd'. apply Hargs. by right. }
  { by rewrite <- app_assoc. }
  { cbn in Hmid. lia. }
  exists (b :: inputs), (cs ++ cells). cbn [length]. split_and!.
  - change (omap input_arg (take (S (length details)) (NativeExecutor.ExtInput data :: args))) with
      (data :: omap input_arg (take (length details) args)).
    cbn [resolve_inputs]. rewrite Hb1. cbn [base.mbind option_bind]. by rewrite Hin.
  - rewrite length_app, Hlc. cbn. lia.
  - intros tail. cbn [app cs read_inputs]. unfold cs. cbn [app read_inputs].
    rewrite Hd. cbn [base.mbind option_bind].
    change (output_buffer d) with (output_buffer (with_cells d (pre ++ cs ++ mid))). by rewrite Hread.
  - cbn [input_types fmap list_fmap decode_inputs]. rewrite (mbind_step _ _ _ _ _ Hptr).
    rewrite (mbind_step _ _ _ _ _ (write_external_args_app pre (c1 :: c2 :: mid) cs
      (goto P p1 d) Hb ltac:(cbn; lia))).
    replace (drop (length cs) (c1 :: c2 :: mid)) with mid by (cbn; by rewrite drop_0).
    rewrite goto_cells. rewrite length_app in Hdec. rewrite Hdec.
    rewrite <- !app_assoc. replace (2 * S (length details)) with (2 + 2 * length details) by lia.
    cbn [length cs drop skipn]. do 2 f_equal. f_equal. cbn. lia.
Qed.

(** *** Outputs *)

Definition with_outputs (d : decoder) (cursor : N) (details : list (option OutputBufferDetails))
    (last cur : nat) : decoder :=
  {| payload := payload d; offset := offset d; external_args_buffer := external_args_buffer d;
     output_buffer := output_buffer d; output_buffer_cursor := cursor;
     output_buffer_details := details; before_last := last; current := cur |}.

Lemma goto_outputs P p d cursor details last cur :
  with_outputs (goto P p d) cursor details last cur = goto P p (with_outputs d cursor details last cur).
Proof. done. Qed.

(** What is recorded of an output: at least its alignment fits an address if that of its
    type does. *)
Definition aligned (t : Builder.IoTypeDetails) (e : option OutputBufferDetails) : Prop :=
  exists o, e = Some o /\ (8 <= Builder.alignment t -> output_offset o mod 8 = 0)%N.

(** Padding up to a multiple of a power of two *)
Lemma padded_mod c k : ((c + (2 ^ k - N.land c (2 ^ k - 1))) mod 2 ^ k = 0)%N.
Proof.
  replace (2 ^ k - 1)%N with (N.ones k) by (rewrite N.ones_equiv; lia). rewrite N.land_ones.
  assert (Hk : (2 ^ k <> 0)%N) by (by apply N.pow_nonzero).
  pose proof (N.mod_lt c (2 ^ k) Hk) as Hlt. pose proof (N.div_mod c (2 ^ k) Hk) as Hdiv.
  replace (c + (2 ^ k - c mod 2 ^ k))%N with ((c / 2 ^ k + 1) * 2 ^ k)%N by lia.
  by apply N.Div0.mod_mul.
Qed.

Lemma padded_mod_8 c k :
  (8 <= 2 ^ k)%N -> ((c + (2 ^ k - N.land c (2 ^ k - 1))) mod 8 = 0)%N.
Proof.
  intros Hk. assert (H3 : (3 <= k)%N).
  { destruct (N.le_gt_cases 3 k); [done|]. exfalso.
    assert (2 ^ k < 2 ^ 3)%N by (apply N.pow_lt_mono_r; lia). lia. }
  pose proof (padded_mod c k) as H. apply N.Lcm0.mod_divide in H. apply N.Lcm0.mod_divide.
  etrans; [|exact H]. exists (2 ^ (k - 3))%N. change 8%N with (2 ^ 3)%N.
  rewrite <- N.pow_add_r. f_equal. lia.
Qed.

Lemma allocate_output_buffer_ok v capacity t off d :
  alignment_ok t -> current d < length (output_buffer_details d) ->
  (output_buffer_cursor d + (16 + capacity) <= N.of_nat (length (output_buffer d)) < 2 ^ 32)%N ->
  exists o, (output_buffer_cursor d <= o)%N /\
    (o + capacity <= output_buffer_cursor d + (16 + capacity))%N /\
    (8 <= Builder.alignment t -> o mod 8 = 0)%N /\
    allocate_output_buffer v capacity (Builder.alignment t) off d =
      Ret (Ok o, with_outputs d (o + capacity)
        (<[current d := Some {| output_offset := o; size_or_external_args_offset := off |}]>
          (output_buffer_details d)) (before_last d) (S (current d))).
Proof.
  intros (k & Hk & Hal) Hcur Hroom. unfold allocate_output_buffer.
  rewrite bool_decide_eq_false_2, andb_false_r by lia.
  assert (Hpow : (1 <= Builder.alignment t <= 16)%N).
  { rewrite Hal. split; [by apply N.lt_pred_le, N.neq_0_lt_0, N.pow_nonzero|].
    change 16%N with (2 ^ 4)%N. by apply N.pow_le_mono_r. }
  set (pad := (Builder.alignment t - N.land (output_buffer_cursor d) (Builder.alignment t - 1))%N).
  assert (Hpad : (pad <= 16)%N) by lia. exists (output_buffer_cursor d + pad)%N. split; [lia|].
  split; [lia|]. split; [unfold pad; rewrite Hal; apply padded_mod_8|].
  assert (E : allocate_output_buffer_ptr v (Builder.alignment t) capacity d =
    Ret (Ok (Some (output_buffer_cursor d + pad)%N),
      with_outputs d (output_buffer_cursor d + pad + capacity) (output_buffer_details d)
        (before_last d) (current d))).
  { unfold allocate_output_buffer_ptr. rewrite decide_False by (unfold MAX_ALIGNMENT; lia).
    fold pad. unfold checked_add. rewrite !decide_True by lia. by rewrite decide_False by lia. }
  rewrite (mbind_step _ _ _ _ _ E). unfold push_details, mbind, mret. cbn [output_buffer_details current with_outputs].
  rewrite arr_set_lt by done. cbn [obind]. rewrite N.mod_small by lia. done.
Qed.

(** The room the outputs need at most *)
Definition outputs_size (details : list Builder.IoTypeDetails) : N :=
  foldr (fun t n => 16 + Builder.recommended_capacity t + n)%N 0%N details.

Definition output_type_ok (t : Builder.IoTypeDetails) : Prop :=
  alignment_ok t /\ (Builder.recommended_capacity t < 2 ^ 32)%N.

(** The cells of new outputs from position [base] on, and what is recorded of them: where
    they are and where their size will be.  They are apart from each other, between
    [from] and [to]. *)
Fixpoint allocated (from to : N) (base : nat) (cells : list cell)
    (entries : list (option OutputBufferDetails)) {struct entries} : Prop :=
  match entries with
  | [] => cells = [] /\ (from <= to)%N
  | e :: entries =>
      match cells with
      | Pointer (InOutput o) :: SizeCapacity 0 capacity :: cells =>
          e = Some {| output_offset := o; size_or_external_args_offset := 8 * (N.of_nat base + 1) |} /\
          (from <= o)%N /\ allocated (o + capacity) to (base + 2) cells entries
      | _ => False
      end
  end.

Lemma allocated_le from to base cells entries : allocated from to base cells entries -> (from <= to)%N.
Proof.
  revert from base cells. induction entries as [|e entries IH]; intros from base cells; cbn [allocated].
  { by intros [? ?]. }
  destruct cells as [|[[| |o]|] [|[|[|] capacity] cells]]; try done.
  intros (? & Hf & H%IH). lia.
Qed.

Lemma insert_take_drop {A} (l : list A) i x n :
  i < length l ->
  take (S i) (<[i := x]> l) = take i l ++ [x] /\ drop (S i + n) (<[i := x]> l) = drop (i + S n) l.
Proof.
  intros Hi. split.
  - rewrite (take_S_r _ _ x) by (by apply list_lookup_insert_eq). by rewrite take_insert_ge.
  - rewrite drop_insert_lt by lia. f_equal. lia.
Qed.

Lemma decode_outputs_goto v P details p p' d pre mid :
  Builder.push_outputs details p = Ret p' -> p' `prefix_of` P ->
  Forall output_type_ok details ->
  external_args_buffer d = pre ++ mid -> 2 * length details <= length mid ->
  current d + length details <= length (output_buffer_details d) ->
  (output_buffer_cursor d + outputs_size details <= N.of_nat (length (output_buffer d)) < 2 ^ 32)%N ->
  exists cells d' entries,
    decode_outputs v (length details) (length pre) (goto P p d) =
      Ret (Ok (length pre + 2 * length details), goto P p' d') /\
    length cells = 2 * length details /\
    d' = with_cells (with_outputs d (output_buffer_cursor d')
           (take (current d) (output_buffer_details d) ++ entries ++
            drop (current d + length details) (output_buffer_details d))
           (before_last d) (current d + length details))
         (pre ++ cells ++ drop (2 * length details) mid) /\
    (output_buffer_cursor d' <= output_buffer_cursor d + outputs_size details)%N /\
    allocated (output_buffer_cursor d) (output_buffer_cursor d') (length pre) cells entries /\
    Forall2 aligned details entries /\
    read_outputs (output_buffer d) (length details) cells = Some (Builder.recommended_capacity <$> details).
Proof.
  intros H Hp Hok. revert p d pre mid H.
  induction Hok as [|t details [Hal Hcap] Hok IH]; intros p d pre mid H Hb Hmid Hcur Hroom.
  { injection H as <-. exists [], d, []. change (length []) with 0. change (2 * 0) with 0.
    rewrite !Nat.add_0_r, drop_0, !app_nil_l, take_drop. split_and!; try done.
    - rewrite <- Hb. by destruct d.
    - cbn. lia. }
  cbn [Builder.push_outputs] in H. cbn [outputs_size foldr] in Hroom.
  fold (outputs_size details) in Hroom.
  destruct (Builder.extend_payload_with_alignment p _ 4) as [p1|] eqn:E1; cbn [obind] in H; [|done].
  destruct (Builder.extend_payload_with_alignment p1 _ 1) as [p2|] eqn:E2; cbn [obind] in H; [|done].
  assert (Hp2 : p2 `prefix_of` P) by (etrans; [by eapply push_outputs_prefix|done]).
  assert (Hp1 : p1 `prefix_of` P) by (etrans; [by eapply extend_prefix|done]).
  pose proof (get_u32_goto v P p _ p1 d Hcap E1 Hp1) as H32.
  destruct (get_bytes_goto v P p1 _ _ _ d E2 Hp2) as (p0 & -> & Hbyte).
  destruct mid as [|c1 [|c2 mid]]; [cbn in Hmid; lia..|]. cbn [length] in Hcur, Hmid.
  set (cap := Builder.recommended_capacity t) in *.
  set (p2 := p0 ++ [byte_of (N.log2 (Builder.alignment t))]) in *.
  destruct (allocate_output_buffer_ok v cap t (8 * (N.of_nat (length pre) + 1)) (goto P p2 d) Hal)
    as (o & Hfrom & Ho & Hmod & Halloc).
  { cbn. lia. }
  { cbn. lia. }
  rewrite goto_outputs in Halloc. cbn in Ho, Hfrom. cbn [output_buffer_details current before_last goto with_payload] in Halloc.
  set (cs := [Pointer (InOutput o); SizeCapacity 0 cap]).
  set (e := Some {| output_offset := o;
                    size_or_external_args_offset := 8 * (N.of_nat (length pre) + 1) |}) in *.
  set (d1 := with_cells (with_outputs d (o + cap) (<[current d := e]> (output_buffer_details d))
    (before_last d) (S (current d))) (pre ++ cs ++ mid)).
  destruct (IH p2 d1 (pre ++ cs) mid H) as
    (cells & d' & entries & Hdec & Hlc & Hd' & Hcursor & Hnew & Halign & Hread).
  { cbn. by rewrite <- app_assoc. }
  { lia. }
  { cbn [d1 current with_cells with_outputs output_buffer_details]. rewrite length_insert. lia. }
  { cbn [d1 output_buffer_cursor with_cells with_outputs output_buffer]. lia. }
  cbn [d1 output_buffer_cursor with_cells with_outputs] in Hcursor.
  change (output_buffer d1) with (output_buffer d) in Hread.
  exists (cs ++ cells), d', (e :: entries). split_and!.
  - cbn [length decode_outputs]. rewrite (mbind_step _ _ _ _ _ H32).
    change (get_trivial_type v 1 1) with (get_bytes v 1 1). rewrite (mbind_step _ _ _ _ _ Hbyte).
    pose proof (alignment_log t Hal) as [Hlog _]. rewrite le_value_byte_of by lia.
    rewrite (mbind_step _ _ _ _ _ (alignment_of_log v t _ Hal)), (mbind_step _ _ _ _ _ Halloc).
    rewrite (mbind_step _ _ _ _ _ (write_external_args_app pre (c1 :: c2 :: mid) cs
      (goto P p2 (with_outputs d (o + cap) (<[current d := e]> (output_buffer_details d))
        (before_last d) (S (current d)))) Hb ltac:(cbn; lia))).
    replace (drop (length cs) (c1 :: c2 :: mid)) with mid by (cbn; by rewrite drop_0).
    rewrite goto_cells. fold d1. rewrite length_app in Hdec. rewrite Hdec. do 3 f_equal. cbn. lia.
  - rewrite length_app, Hlc. cbn. lia.
  - rewrite Hd' at 1. destruct (insert_take_drop (output_buffer_details d) (current d) e (length details))
      as [Ht Hr]; [lia|].
    change (current d1) with (S (current d)). change (before_last d1) with (before_last d).
    change (output_buffer_details d1) with (<[current d := e]> (output_buffer_details d)).
    rewrite Ht, Hr. replace (S (current d) + length details) with (current d + S (length details)) by lia.
    rewrite <- !app_assoc. cbn [length].
    replace (2 * S (length details)) with (S (S (2 * length details))) by lia. done.
  - cbn [outputs_size foldr]. fold (outputs_size details). fold cap. lia.
  - cbn [app cs allocated]. unfold cs. cbn [app allocated]. split; [done|]. split; [done|].
    rewrite length_app in Hnew. done.
  - constructor; [|done]. eexists. split; [done|]. done.
  - cbn [length read_outputs app cs fmap list_fmap]. unfold cs. cbn [app read_outputs].
    unfold deref, slice. rewrite decide_True by lia. cbn [base.mbind option_bind]. by rewrite Hread.
Qed.

(** *** The arguments of a method *)

Definition arguments : Type := list (option (NativeExecutor.argument_kind * option Builder.IoTypeDetails)).

Definition details_of (details : option Builder.IoTypeDetails) : Builder.IoTypeDetails :=
  default (Builder.details_bytes 0) details.

Definition is_slot (e : option (NativeExecutor.argument_kind * option Builder.IoTypeDetails)) : bool :=
  match e with Some ((NativeExecutor.SlotRo | NativeExecutor.SlotRw), _) => true | _ => false end.

Definition slots_of (a : arguments) : nat := length (List.filter is_slot a).

Definition input_of (e : option (NativeExecutor.argument_kind * option Builder.IoTypeDetails)) :=
  match e with Some (NativeExecutor.Input, t) => Some (details_of t) | _ => None end.

Definition output_of (e : option (NativeExecutor.argument_kind * option Builder.IoTypeDetails)) :=
  match e with
  | Some ((NativeExecutor.Output | NativeExecutor.Return), t) => Some (details_of t)
  | _ => None
  end.

Definition inputs_of (a : arguments) : list Builder.IoTypeDetails := omap input_of a.
Definition outputs_of (a : arguments) : list Builder.IoTypeDetails := omap output_of a.

(** The order of arguments the contract macro asks for *)
Definition inputs_first (a : arguments) : Prop :=
  exists l l', a = l ++ l' /\ outputs_of l = [] /\ inputs_of l' = [].

Lemma arguments_bound a : slots_of a + length (inputs_of a) + length (outputs_of a) <= length a.
Proof.
  unfold slots_of, inputs_of, outputs_of. induction a as [|[[kind t]|] a IH]; [done| |cbn; lia].
  destruct kind; cbn; lia.
Qed.

Record represents (c : Builder.collected) (slots : nat) (ins outs : list Builder.IoTypeDetails) : Prop := {
  rep_details : Builder.type_details c =
    (Some <$> ins ++ outs) ++ replicate (8 - length (ins ++ outs)) None;
  rep_slots : Builder.num_slots c = slots;
  rep_inputs : Builder.num_inputs c = length ins;
  rep_outputs : Builder.num_outputs c = length outs
}.

Lemma arr_set_next {A} (l : list A) x n :
  length l < n ->
  arr_set ((Some <$> l) ++ replicate (n - length l) None) (length l) (Some x) =
    Ret ((Some <$> l ++ [x]) ++ replicate (n - length (l ++ [x])) None).
Proof.
  intros Hl. rewrite arr_set_lt by (rewrite length_app, length_fmap, length_replicate; lia).
  replace (n - length l) with (S (n - length (l ++ [x]))) by (rewrite length_app; cbn; lia).
  rewrite insert_app_r_alt by (rewrite length_fmap; lia). rewrite length_fmap, Nat.sub_diag.
  cbn [replicate]. rewrite fmap_app, <- app_assoc. done.
Qed.

Lemma collect_inputs a b c k slots ins :
  represents c slots ins [] -> outputs_of a = [] -> length ins + length a <= 8 ->
  Builder.collect c (a ++ b) = Ret (Ok k) ->
  exists c', represents c' (slots + slots_of a) (ins ++ inputs_of a) [] /\ Builder.collect c' b = Ret (Ok k).
Proof.
  unfold slots_of, inputs_of, outputs_of. revert c slots ins. induction a as [|[[kind t]|] a IH]; intros c slots ins Hc Ha Hl H.
  { exists c. cbn. rewrite app_nil_r, Nat.add_0_r. done. }
  2: done.
  cbn [app Builder.collect] in H. destruct Hc as [H1 H2 H3 H4]. rewrite app_nil_r in H1.
  destruct kind; cbn in Ha; try done;
    cbn [Builder.collect_one obind] in H; cbn [length] in Hl; cbn [List.filter is_slot length].
  1-4: apply (IH c); [constructor; [by rewrite app_nil_r|done..]|done|lia|done].
  1-2: specialize (fun Hc Hl => IH _ (S slots) ins Hc Ha Hl H) as IH'; destruct IH' as (c' & Hc' & Hk);
    [constructor; [by rewrite app_nil_r|cbn; by rewrite H2|done..]|lia|];
    exists c'; split; [|done]; by rewrite Nat.add_succ_r.
  rewrite H1, H3, arr_set_next in H by lia. cbn [obind] in H.
  specialize (fun Hc Hl => IH _ slots (ins ++ [details_of t]) Hc Ha Hl H) as IH'.
  destruct IH' as (c' & Hc' & Hk).
  { constructor; [by rewrite app_nil_r|done|cbn; rewrite length_app; cbn; lia|done]. }
  { rewrite length_app; cbn; lia. }
  exists c'. split; [|done]. by rewrite <- app_assoc in Hc'.
Qed.

Lemma collect_outputs a c k slots ins outs :
  represents c slots ins outs -> inputs_of a = [] -> length (ins ++ outs) + length a <= 8 ->
  Builder.collect c a = Ret (Ok k) ->
  represents k (slots + slots_of a) ins (outs ++ outputs_of a).
Proof.
  unfold slots_of, inputs_of, outputs_of. revert c slots outs. induction a as [|[[kind t]|] a IH]; intros c slots outs Hc Ha Hl H.
  { injection H as <-. cbn. by rewrite app_nil_r, Nat.add_0_r. }
  2: done.
  cbn [Builder.collect] in H. destruct Hc as [H1 H2 H3 H4].
  destruct kind; cbn in Ha; try done;
    cbn [Builder.collect_one obind] in H; cbn [length] in Hl; cbn [List.filter is_slot length].
  1-4: apply (IH c); [done|done|lia|done].
  1-2: rewrite Nat.add_succ_r; apply (IH _ (S slots) outs) in H; [done| |done|lia];
    constructor; [done|cbn; by rewrite H2|done..].
  all: rewrite H1, H3, H4, <- length_app, arr_set_next in H by lia; cbn [obind] in H;
    apply (IH _ slots (outs ++ [details_of t])) in H; [by rewrite <- app_assoc in H| |done|];
    [constructor; [by rewrite app_assoc|done|done|cbn; rewrite length_app; cbn; lia]
    |rewrite app_assoc, length_app; cbn; lia].
Qed.

Lemma collect_ok a k :
  inputs_first a -> length a <= 8 -> Builder.collect Builder.no_details a = Ret (Ok k) ->
  represents k (slots_of a) (inputs_of a) (outputs_of a).
Proof.
  intros (l & l' & -> & Hl & Hl') Hlen H. rewrite length_app in Hlen.
  destruct (collect_inputs l l' Builder.no_details k 0 [] ltac:(by constructor) Hl ltac:(cbn; lia) H)
    as (c & Hc & Hk).
  pose proof (arguments_bound l) as Hb.
  apply (collect_outputs _ _ _ _ _ _ Hc Hl') in Hk; [|rewrite app_nil_r; cbn; lia].
  unfold slots_of, inputs_of, outputs_of in *. rewrite List.filter_app, length_app, !omap_app.
  cbn in Hk. by rewrite Hl, Hl', app_nil_r in *.
Qed.

Lemma assume_init_Some {A} (l : list A) : Builder.assume_init (Some <$> l) = Ret l.
Proof.
  unfold Builder.assume_init. replace (mapM id (Some <$> l)) with (Some l); [done|]. symmetry.
  apply mapM_Some_2. induction l; constructor; done.
Qed.

Lemma assume_init_inputs k s ins outs :
  represents k s ins outs ->
  Builder.assume_init (take (Builder.num_inputs k) (Builder.type_details k)) = Ret ins /\
  Builder.assume_init (take (Builder.num_outputs k)
    (drop (Builder.num_inputs k) (Builder.type_details k))) = Ret outs.
Proof.
  intros [-> _ -> ->]. rewrite fmap_app, <- !app_assoc.
  rewrite take_app_length', drop_app_length', take_app_length' by (by rewrite length_fmap).
  by rewrite !assume_init_Some.
Qed.

(** *** What a call does *)

Definition call_arguments (c : Builder.call) : arguments :=
  match Builder.call_metadata c with Some (_, a) => a | None => [] end.

Definition call_slots (c : Builder.call) : nat := slots_of (call_arguments c).
Definition call_inputs (c : Builder.call) : list Builder.IoTypeDetails := inputs_of (call_arguments c).
Definition call_outputs (c : Builder.call) : list Builder.IoTypeDetails := outputs_of (call_arguments c).

(** The addresses and the values a call was built with *)
Definition call_addresses (c : Builder.call) : list address :=
  omap address_arg (take (call_slots c) (Builder.call_args c)).

Definition call_data (c : Builder.call) : list (list byte) :=
  omap input_arg (take (length (call_inputs c)) (drop (call_slots c) (Builder.call_args c))).

(** The cells of the outputs of a call, which follow those of slots and inputs *)
Definition output_cells (c : Builder.call) (cells : list cell) : list cell :=
  drop (call_slots c + 2 * length (call_inputs c)) cells.

(** Where outputs may be written *)
Fixpoint output_regions (n : nat) (cells : list cell) : list (N * N) :=
  match n, cells with
  | S n, Pointer (InOutput o) :: SizeCapacity _ capacity :: cells => (o, capacity) :: output_regions n cells
  | _, _ => []
  end.

Definition in_region (i : nat) (r : N * N) : Prop := N.to_nat r.1 <= i < N.to_nat r.1 + N.to_nat r.2.

(** Regions in order, none of which starts before the end of another *)
Fixpoint separate (from : N) (regions : list (N * N)) : Prop :=
  match regions with
  | [] => True
  | (o, capacity) :: regions => (from <= o)%N /\ separate (o + capacity) regions
  end.

Definition cell_after (c c' : cell) : Prop :=
  match c, c' with
  | Pointer p, Pointer p' => p = p'
  | SizeCapacity _ capacity, SizeCapacity size' capacity' => capacity = capacity' /\ (size' <= capacity)%N
  | _, _ => False
  end.

(** What the method called may do: write to its outputs and set sizes, up to the
    capacity *)
Definition after_call (c : Builder.call) (d d' : decoder) : Prop :=
  exists cells out, Forall2 cell_after (external_args_buffer d) cells /\
    length out = length (output_buffer d) /\
    (forall i, Forall (fun r => ~ in_region i r)
       (output_regions (length (call_outputs c)) (output_cells c (external_args_buffer d))) ->
     out !! i = output_buffer d !! i) /\
    d' = {| payload := payload d; offset := offset d; external_args_buffer := cells;
            output_buffer := out; output_buffer_cursor := output_buffer_cursor d;
            output_buffer_details := output_buffer_details d;
            before_last := before_last d; current := current d |}.

(** The outputs of a call after it was made, through the pointers and with the sizes in
    its arguments *)
Definition outputs_written (c : Builder.call) (d : decoder) : option (list (list byte)) :=
  fst <$> read_inputs [] (output_buffer d) (length (call_outputs c))
    (output_cells c (external_args_buffer d)).

(** *** Between two methods *)

(** The outputs of earlier methods, all of them below [bound] *)
Definition old_output (d : decoder) (bound : N) (b : list byte) (e : option OutputBufferDetails) : Prop :=
  exists o, e = Some o /\
    slice (output_buffer d) (output_offset o) (size_or_external_args_offset o) = Some b /\
    (output_offset o + size_or_external_args_offset o <= bound)%N.

(** The outputs of the last method, whose sizes are still to be read from its arguments *)
Definition new_output (d : decoder) (b : list byte) (e : option OutputBufferDetails) : Prop :=
  exists o k s c, e = Some o /\ size_or_external_args_offset o = (8 * N.of_nat k)%N /\
    external_args_buffer d !! k = Some (SizeCapacity s c) /\
    slice (output_buffer d) (output_offset o) s = Some b /\
    (output_offset o + s <= output_buffer_cursor d)%N.

(** The decoder before a method is decoded, when the methods before have left [outs] in
    outputs of the types [types] *)
Record ready (types : list Builder.IoTypeDetails) (outs : list (list byte)) (d : decoder) : Prop := {
  ready_cells : length (external_args_buffer d) = EXTERNAL_ARGS_BUFFER_SIZE;
  ready_details : length (output_buffer_details d) = OUTPUT_BUFFER_OFFSETS_SIZE;
  ready_last : before_last d <= current d;
  ready_current : current d <= OUTPUT_BUFFER_OFFSETS_SIZE;
  ready_outs : length outs = current d;
  ready_types : Forall2 aligned types (take (current d) (output_buffer_details d));
  ready_old : Forall2 (old_output d (output_buffer_cursor d)) (take (before_last d) outs)
    (take (before_last d) (output_buffer_details d));
  ready_new : Forall2 (new_output d) (drop (before_last d) outs)
    (drop (before_last d) (take (current d) (output_buffer_details d)))
}.

(** The decoder that has decoded the call [c] *)
Record decoded (c : Builder.call) (types : list Builder.IoTypeDetails) (outs : list (list byte))
    (d : decoder) : Prop := {
  decoded_cells : length (external_args_buffer d) = EXTERNAL_ARGS_BUFFER_SIZE;
  decoded_details : length (output_buffer_details d) = OUTPUT_BUFFER_OFFSETS_SIZE;
  decoded_current : current d = before_last d + length (call_outputs c);
  decoded_size : current d <= OUTPUT_BUFFER_OFFSETS_SIZE;
  decoded_outs : length outs = before_last d;
  decoded_types : Forall2 aligned types (take (current d) (output_buffer_details d));
  decoded_room : (output_buffer_cursor d <= N.of_nat (length (output_buffer d)))%N;
  decoded_new : exists from pre cells tail,
    external_args_buffer d = pre ++ cells ++ tail /\
    length pre = call_slots c + 2 * length (call_inputs c) /\
    Forall2 (old_output d from) outs (take (before_last d) (output_buffer_details d)) /\
    allocated from (output_buffer_cursor d) (length pre) cells
      (drop (before_last d) (take (current d) (output_buffer_details d)))
}.

Lemma read_cell_size cells k s c :
  cells !! k = Some (SizeCapacity s c) -> read_cell cells (8 * N.of_nat k) = Ret s.
Proof.
  intros H. unfold read_cell.
  replace (8 * N.of_nat k / 8)%N with (N.of_nat k) by (rewrite N.mul_comm, N.div_mul; lia).
  rewrite Nat2N.id, H. rewrite decide_True; [done|]. rewrite N.mul_comm. apply N.Div0.mod_mul.
Qed.

(** The recorded sizes are those the method has set. *)
Lemma update_details_ok d outs l :
  Forall2 (new_output d) outs l ->
  exists l', update_details (external_args_buffer d) l = Ret l' /\ length l' = length l /\
    Forall2 (old_output d (output_buffer_cursor d)) outs l' /\
    forall types, Forall2 aligned types l -> Forall2 aligned types l'.
Proof.
  induction 1 as [|b e outs l (o & k & s & c & -> & Hk & Hc & Hs & Ho) _ (l' & IH & Hl & Hall & Hal)].
  { by exists []. }
  cbn [update_details]. rewrite Hk, (read_cell_size _ _ _ _ Hc). cbn [obind]. rewrite IH. cbn [obind].
  eexists. split; [done|]. split; [by cbn; rewrite Hl|]. split.
  - constructor; [|done]. eexists. split; [done|]. done.
  - intros types Ht. apply Forall2_cons_inv_r in Ht as (t & ts & (o' & [= <-] & Ht) & Hts & ->).
    constructor; [|by apply Hal]. eexists. split; [done|]. done.
Qed.

Lemma update_output_buffer_details_ok types outs d :
  ready types outs d ->
  exists details, length details = OUTPUT_BUFFER_OFFSETS_SIZE /\
    Forall2 (old_output d (output_buffer_cursor d)) outs (take (current d) details) /\
    Forall2 aligned types (take (current d) details) /\
    update_output_buffer_details d =
      Ret (Ok tt, with_outputs d (output_buffer_cursor d) details (current d) (current d)).
Proof.
  intros [Hcells Hdet Hlast Hcur Houts Htypes Hold Hnew].
  destruct (update_details_ok _ _ _ Hnew) as (l' & Hl' & Hlen & Hall & Hal).
  rewrite length_drop, length_take, Hdet in Hlen.
  unfold update_output_buffer_details. rewrite decide_True by lia. rewrite Hl'. cbn [obind].
  eexists. split; [|split; [|split; [|done]]].
  - rewrite !length_app, length_take, length_drop, Hlen. lia.
  - rewrite app_assoc, take_app_length' by (rewrite length_app, length_take; lia).
    rewrite <- (take_drop (before_last d) outs). by apply Forall2_app.
  - rewrite app_assoc, take_app_length' by (rewrite length_app, length_take; lia).
    rewrite <- (take_drop (before_last d) (take (current d) _)), take_take, Nat.min_l in Htypes by lia.
    apply Forall2_app_inv_r in Htypes as (t1 & t2 & H1 & H2 & ->). apply Forall2_app; [done|by apply Hal].
Qed.

(** A call leaves alone what is not in its regions, and its outputs are what it says. *)
Lemma allocated_regions from to base cells entries tail :
  allocated from to base cells entries ->
  Forall (fun r => (from <= r.1)%N) (output_regions (length entries) (cells ++ tail)) /\
  separate from (output_regions (length entries) (cells ++ tail)).
Proof.
  revert from base cells. induction entries as [|e entries IH]; intros from base cells; [done|].
  cbn [allocated length]. destruct cells as [|[[| |o]|] [|[|[|] capacity] cells]]; try done.
  intros (_ & Hf & H%IH). destruct H as [H1 H2]. cbn [app output_regions separate]. split; [|done].
  constructor; [done|]. eapply Forall_impl; [exact H1|]. cbn. lia.
Qed.

Lemma allocated_written d from to pre cells cells' entries tail :
  allocated from to (length pre) cells entries -> Forall2 cell_after cells cells' ->
  external_args_buffer d = pre ++ cells' ++ tail -> to = output_buffer_cursor d ->
  (to <= N.of_nat (length (output_buffer d)))%N ->
  exists written, read_inputs [] (output_buffer d) (length entries) (cells' ++ tail) = Some (written, tail) /\
    Forall2 (new_output d) written entries.
Proof.
  revert from pre cells cells'. induction entries as [|e entries IH]; intros from pre cells cells'.
  { intros [-> _] ->%Forall2_nil_inv_l. by exists []. }
  cbn [allocated]. destruct cells as [|[[| |o]|] [|[|[|] capacity] cells]]; try done.
  intros (-> & Hf & Ha) Hc Hb Hto Hroom.
  apply Forall2_cons_inv_l in Hc as ([p|] & ? & Hp & Hc & ->); [|done]. cbn in Hp. subst p.
  apply Forall2_cons_inv_l in Hc as ([|s c] & cells1 & Hs & Hc & ->); [done|]. destruct Hs as [<- Hs].
  pose proof (allocated_le _ _ _ _ _ Ha) as Hle.
  destruct (IH (o + capacity)%N (pre ++ [Pointer (InOutput o); SizeCapacity s capacity]) cells cells1) as
    (written & Hw & Hn).
  { by rewrite length_app. }
  { done. }
  { by rewrite Hb, <- app_assoc. }
  { done. }
  { done. }
  set (b := take (N.to_nat s) (drop (N.to_nat o) (output_buffer d))).
  assert (Hslice : slice (output_buffer d) o s = Some b) by (unfold slice; by rewrite decide_True by lia).
  exists (b :: written). cbn [length app read_inputs deref]. rewrite Hslice. cbn [base.mbind option_bind].
  rewrite Hw. cbn [base.mbind option_bind]. split; [done|]. constructor; [|done].
  eexists _, (length pre + 1), s, capacity. split; [done|]. split; [cbn; lia|]. split; [|split; [done|cbn; lia]].
  rewrite Hb, lookup_app_r by lia. by rewrite Nat.add_sub'.
Qed.

Lemma ready_after_call c types outs d d' :
  decoded c types outs d -> after_call c d d' ->
  exists written, outputs_written c d' = Some written /\ ready types (outs ++ written) d'.
Proof.
  intros [Hcells Hdet Hcur Hsize Houts Htypes Hroom (from & pre & cs & tail & Hb & Hpre & Hold & Hnew)]
    (cells & out & Hc & Hout & Hkeep & ->).
  set (entries := drop (before_last d) (take (current d) (output_buffer_details d))) in *.
  assert (Hle : length entries = length (call_outputs c)).
  { unfold entries. rewrite length_drop, length_take, Hdet. lia. }
  rewrite Hb in Hc. apply Forall2_app_inv_l in Hc as (pre' & rest & Hpre' & Hrest & ->).
  apply Forall2_app_inv_l in Hrest as (cs' & tail' & Hcs & Htail & ->).
  pose proof (Forall2_length _ _ _ Hpre') as Hlp.
  set (d' := Build_decoder _ _ (pre' ++ cs' ++ tail') _ _ _ _ _).
  rewrite Hlp in Hnew.
  destruct (allocated_written d' _ _ _ _ _ _ tail' Hnew Hcs eq_refl eq_refl) as (written & Hw & Hn).
  { cbn. by rewrite Hout. }
  exists written. split.
  { unfold outputs_written, output_cells. rewrite <- Hpre, Hlp. cbn [external_args_buffer d'].
    rewrite drop_app_length, <- Hle, Hw. done. }
  pose proof (Forall2_length _ _ _ Hn) as Hlw.
  constructor; cbn [external_args_buffer output_buffer_details before_last current output_buffer_cursor d'].
  - rewrite <- Hcells, Hb, !length_app, Hlp. f_equal. by rewrite (Forall2_length _ _ _ Hcs), (Forall2_length _ _ _ Htail).
  - done.
  - lia.
  - done.
  - rewrite length_app. lia.
  - done.
  - rewrite take_app_length' by done. eapply Forall2_impl; [exact Hold|]. intros b e (o & -> & Ho & Hbound).
    exists o. split; [done|]. pose proof (allocated_le _ _ _ _ _ Hnew) as Hft. split; [|lia]. rewrite <- Ho.
    apply slice_agree; [done|]. intros i Hi. apply Hkeep. unfold output_cells. rewrite Hb, <- Hpre, drop_app_length.
    rewrite <- Hle. eapply Forall_impl; [apply (allocated_regions _ _ _ _ _ tail Hnew)|].
    intros r Hr [H1 H2]. cbn in Hr. lia.
  - by rewrite drop_app_length' by done.
Qed.

(** The decoder that has updated its records has the outputs. *)
Lemma old_outputs_recorded d bound outs k b :
  Forall2 (old_output d bound) outs (take (current d) (output_buffer_details d)) ->
  outs !! N.to_nat k = Some b -> exists o, recorded d k o b.
Proof.
  intros Hall Hk. destruct (Forall2_lookup_l _ _ _ _ _ Hall Hk) as (e & He & o & -> & Ho & _).
  apply lookup_take_Some in He as [He Hlt]. by exists o.
Qed.

(** *** One method *)

(** Calls whose values have the widths of their types, with the arguments of the method
    in the documented order *)
Record call_ok (c : Builder.call) : Prop := {
  ok_contract : address_ok (Builder.call_contract c);
  ok_fingerprint : length (Builder.call_fingerprint c) = 32;
  ok_order : inputs_first (call_arguments c);
  ok_addresses : forall a, NativeExecutor.ExtAddress a ∈ Builder.call_args c -> address_ok a;
  ok_inputs : forall data, NativeExecutor.ExtInput data ∈ Builder.call_args c ->
    (N.of_nat (length data) < 2 ^ 32)%N;
  ok_outputs : Forall output_type_ok (call_outputs c)
}.

(** What a method finds in its [ExternalArgs] *)
Definition read_arguments (P out : list byte) (slots inputs outputs : nat) (cells : list cell)
    : option (list address * list (list byte) * list N) :=
  '(addresses, cells) ← read_slots P out slots cells;
  '(values, cells) ← read_inputs P out inputs cells;
  capacities ← read_outputs out outputs cells;
  Some (addresses, values, capacities).

(** The arguments of the call [c] with [addresses] for its slots, when earlier methods
    have left [outs] *)
Definition has_arguments (P out : list byte) (outs : list (list byte)) (c : Builder.call)
    (addresses : list address) (cells : list cell) : Prop :=
  exists values,
    resolve_inputs outs (Builder.input_output_index c) 0 (call_data c) = Some values /\
    read_arguments P out (call_slots c) (length (call_inputs c)) (length (call_outputs c)) cells =
      Some (addresses, values, Builder.recommended_capacity <$> call_outputs c) /\
    separate 0 (output_regions (length (call_outputs c)) (output_cells c cells)).

(** The method [m] decoded into [d] is the call [c]. *)
Definition is_call (mc : TransactionMethodContext -> SystemContracts.method_context)
    (P : list byte) (outs : list (list byte)) (c : Builder.call) (addresses : list address)
    (m : prepared) (d : decoder) : Prop :=
  contract m = Builder.call_contract c /\ fingerprint m = Builder.call_fingerprint c /\
  method_context m = mc (Builder.call_context c) /\ external_args m = external_args_buffer d /\
  has_arguments P (output_buffer d) outs c addresses (external_args m).

Lemma read_outputs_app out n cells tail l :
  read_outputs out n cells = Some l -> read_outputs out n (cells ++ tail) = Some l.
Proof.
  revert cells l. induction n as [|n IH]; intros cells l; [done|]. cbn [read_outputs].
  destruct cells as [|[p|] [|[|[|s] capacity] cells]]; try done. cbn [app].
  destruct (deref [] out p capacity); cbn [base.mbind option_bind]; [|done].
  destruct (read_outputs out n cells) eqn:E; cbn [base.mbind option_bind]; [|done].
  by rewrite (IH _ _ E).
Qed.

Lemma separate_weaken from from' regions :
  (from' <= from)%N -> separate from regions -> separate from' regions.
Proof. destruct regions as [|[o capacity] regions]; [done|]. cbn. intros H [H1 H2]. split; [lia|done]. Qed.

(** The slot types of a call, as they are in the payload *)
Definition slot_bytes_of (c : Builder.call) : list N :=
  (fun j => slot_into_u8 (slot_type_at (Builder.slot_output_index c) j)) <$> seq 0 (call_slots c).

Definition input_bytes_of (c : Builder.call) : list N :=
  input_into_u8 <$> input_types (call_inputs c) 0 (Builder.input_output_index c).

(** What the arguments of a method are decoded to, once its counts are read *)
Definition arguments_decoded (P : list byte) (outs : list (list byte)) (c : Builder.call)
    (addresses : list address) (d d' : decoder) (cells : list cell) : Prop :=
  length cells = EXTERNAL_ARGS_BUFFER_SIZE /\
  (output_buffer_cursor d' <= output_buffer_cursor d + outputs_size (call_outputs c))%N /\
  has_arguments P (output_buffer d) outs c addresses cells /\
  exists entries pre co tail,
    d' = with_cells (with_outputs d (output_buffer_cursor d')
           (take (current d) (output_buffer_details d) ++ entries ++
            drop (current d + length (call_outputs c)) (output_buffer_details d))
           (before_last d) (current d + length (call_outputs c))) cells /\
    cells = pre ++ co ++ tail /\ length pre = call_slots c + 2 * length (call_inputs c) /\
    allocated (output_buffer_cursor d) (output_buffer_cursor d') (length pre) co entries /\
    Forall2 aligned (call_outputs c) entries.

Lemma decode_arguments_goto v P outs c p1 p2 p3 p4 args d :
  call_ok c -> length (call_arguments c) <= 8 ->
  Forall (fun j => match slot_type_at (Builder.slot_output_index c) j with
    | SlotAddress => True | SlotOutputIndex n => n <= 127 end%N) (seq 0 (call_slots c)) ->
  inputs_ok (call_inputs c) 0 (Builder.input_output_index c) ->
  Builder.push_slots (call_slots c) 0 (Builder.slot_output_index c) (Builder.call_args c) p1 = Ret (args, p2) ->
  Builder.push_inputs (call_inputs c) 0 (Builder.input_output_index c) args p2 = Ret p3 ->
  Builder.push_outputs (call_outputs c) p3 = Ret p4 -> p4 `prefix_of` P ->
  length (external_args_buffer d) = EXTERNAL_ARGS_BUFFER_SIZE ->
  length (output_buffer_details d) = OUTPUT_BUFFER_OFFSETS_SIZE ->
  slots_recorded d outs (Builder.slot_output_index c) ->
  inputs_recorded d outs (Builder.input_output_index c) ->
  current d + length (call_outputs c) <= OUTPUT_BUFFER_OFFSETS_SIZE ->
  (output_buffer_cursor d + outputs_size (call_outputs c) <= N.of_nat (length (output_buffer d)) < 2 ^ 32)%N ->
  let decode := decode_arguments v (slot_bytes_of c) (input_bytes_of c) (length (call_outputs c)) in
  match resolve_slots outs (Builder.slot_output_index c) 0 (call_addresses c) with
  | Ok addresses => exists cells d',
      decode (goto P p1 d) = Ret (Ok cells, goto P p4 d') /\
      arguments_decoded P outs c addresses d d' cells
  | Err (k, size) => v = true -> exists d',
      decode (goto P p1 d) = Ret (Err (InvalidSlotOutputIndexSize k size), d')
  end.
Proof.
  cbv zeta. intros Hok Hlen Hsok Hiok Es Ei Eo Hp Hcells Hdet Hslots Hrefs Hcur Hroom.
  pose proof (arguments_bound (call_arguments c)) as Hbound.
  fold (call_slots c) (call_inputs c) (call_outputs c) in Hbound.
  assert (Hp3 : p3 `prefix_of` P) by (etrans; [by eapply push_outputs_prefix|done]).
  assert (Hp2 : p2 `prefix_of` P) by (etrans; [by eapply push_inputs_prefix|done]).
  pose proof (decode_slots_goto v P outs _ _ _ _ _ _ _ d [] (external_args_buffer d) Es Hp2 Hsok Hslots
    (ok_addresses c Hok) eq_refl) as Hds.
  specialize (Hds ltac:(rewrite Hcells; unfold EXTERNAL_ARGS_BUFFER_SIZE; lia)). cbv zeta in Hds.
  fold (call_addresses c) in Hds. unfold decode_arguments.
  destruct (resolve_slots outs _ 0 (call_addresses c)) as [addresses|[k size]].
  2: { intros Hv. destruct (Hds Hv) as [d' Hd']. exists d'. by rewrite (mbind_fails _ _ _ _ _ Hd'). }
  destruct Hds as (cs & Hlcs & Hrs & Hds).
  destruct (push_slots_args _ _ _ _ _ _ _ Es) as [Hargs _].
  set (d1 := with_cells d ([] ++ cs ++ drop (call_slots c) (external_args_buffer d))) in *.
  destruct (decode_inputs_goto v P outs (call_inputs c) 0 _ args p2 p3 d1 cs
    (drop (call_slots c) (external_args_buffer d)) Ei Hp3 Hiok Hrefs) as (values & ci & Hin & Hlci & Hri & Hdi).
  { intros data Hd. apply (ok_inputs c Hok). rewrite <- (take_drop (call_slots c)), <- Hargs.
    apply elem_of_app. by right. }
  { done. }
  { rewrite length_drop, Hcells. unfold EXTERNAL_ARGS_BUFFER_SIZE. lia. }
  rewrite app_assoc in Hdi. set (mid := drop (2 * length (call_inputs c)) (drop (call_slots c) (external_args_buffer d))) in *.
  set (d2 := with_cells d1 ((cs ++ ci) ++ mid)) in *.
  destruct (decode_outputs_goto v P (call_outputs c) p3 p4 d2 (cs ++ ci) mid Eo Hp (ok_outputs c Hok)) as
    (co & d' & entries & Hdo & Hlco & Hd' & Hcursor & Hnew & Hal & Hro).
  { done. }
  { unfold mid. rewrite !length_drop, Hcells. unfold EXTERNAL_ARGS_BUFFER_SIZE. lia. }
  { cbn. rewrite Hdet. done. }
  { done. }
  exists ((cs ++ ci) ++ co ++ drop (2 * length (call_outputs c)) mid), d'.
  assert (Hbase : length (cs ++ ci) = call_slots c + 2 * length (call_inputs c)) by (rewrite length_app; lia).
  assert (Hle : length entries = length (call_outputs c)) by (symmetry; by eapply Forall2_length).
  split; [|split; [|split; [|split]]].
  - cbn [length] in Hds. unfold slot_bytes_of, input_bytes_of. rewrite (mbind_step _ _ _ _ _ Hds). cbn [Nat.add].
    rewrite <- Hlcs at 1. rewrite (mbind_step _ _ _ _ _ Hdi).
    rewrite length_app, Hlci in Hdo. rewrite (mbind_step _ _ _ _ _ Hdo).
    do 2 f_equal. rewrite Hd'. done.
  - unfold mid. rewrite !length_app, !length_drop, Hcells, Hlcs, Hlci, Hlco.
    unfold EXTERNAL_ARGS_BUFFER_SIZE. lia.
  - exact Hcursor.
  - exists values. split; [|split].
    + unfold call_data. by rewrite <- Hargs.
    + unfold read_arguments. rewrite <- !app_assoc, Hrs. cbn [base.mbind option_bind].
      change (output_buffer d) with (output_buffer d1). rewrite Hri. cbn [base.mbind option_bind].
      change (output_buffer d2) with (output_buffer d1) in Hro. by rewrite (read_outputs_app _ _ _ _ _ Hro).
    + unfold output_cells. rewrite <- Hbase, drop_app_length, <- Hle.
      eapply separate_weaken; [|eapply allocated_regions; exact Hnew]. lia.
  - exists entries, (cs ++ ci), co, (drop (2 * length (call_outputs c)) mid). by split_and!.
Qed.

(** The stages of adding a call *)
Record stages (c : Builder.call) (p q1 q2 q5 q7 q9 q10 p' : list byte)
    (args : list NativeExecutor.external_arg) : Prop := {
  st_length : length (call_arguments c) <= 8;
  st_contract :
    Builder.extend_payload_with_alignment p (address_bytes (Builder.call_contract c)) 8 = Ret q1;
  st_fingerprint : Builder.extend_payload_with_alignment q1 (Builder.call_fingerprint c) 1 = Ret q2;
  st_slot_types :
    Builder.push_slot_types (call_slots c) 0 (Builder.slot_output_index c)
      (Builder.push_payload_byte
        (Builder.push_payload_byte q2 (method_context_as_u8 (Builder.call_context c)))
        (N.of_nat (call_slots c))) = (Ok tt, q5);
  st_input_types :
    Builder.push_input_types (call_inputs c) 0 (Builder.input_output_index c)
      (Builder.push_payload_byte q5 (N.of_nat (length (call_inputs c)))) = (Ok tt, q7);
  st_slots :
    Builder.push_slots (call_slots c) 0 (Builder.slot_output_index c) (Builder.call_args c)
      (Builder.push_payload_byte q7 (N.of_nat (length (call_outputs c)))) = Ret (args, q9);
  st_inputs :
    Builder.push_inputs (call_inputs c) 0 (Builder.input_output_index c) args q9 = Ret q10;
  st_outputs : Builder.push_outputs (call_outputs c) q10 = Ret p'
}.

Lemma with_method_call_stages c p p' :
  call_ok c -> Builder.with_method_call p c = Ret (Ok tt, p') ->
  exists q1 q2 q5 q7 q9 q10 args, stages c p q1 q2 q5 q7 q9 q10 p' args.
Proof.
  intros Hok H. unfold Builder.with_method_call in H.
  destruct (Builder.call_metadata c) as [[kind a]|] eqn:Hm; [|done].
  assert (Ha : call_arguments c = a) by (unfold call_arguments; by rewrite Hm).
  destruct (decide _) as [|Hnum]; [done|].
  destruct (Builder.extend_payload_with_alignment p _ 8) as [q1|] eqn:E1; cbn [obind] in H; [|done].
  destruct (Builder.extend_payload_with_alignment q1 _ 1) as [q2|] eqn:E2; cbn [obind] in H; [|done].
  destruct (Builder.collect Builder.no_details a) as [[k|e]|] eqn:Ek; cbn [obind] in H; try done.
  assert (Hlen : length a <= 8) by (unfold MAX_TOTAL_METHOD_ARGS in Hnum; lia).
  pose proof (collect_ok a k ltac:(rewrite <- Ha; apply (ok_order c Hok)) Hlen Ek) as Hrep.
  destruct (assume_init_inputs _ _ _ _ Hrep) as [Hai Hao]. destruct Hrep as [_ Hks Hki Hko].
  unfold Builder.push_arguments in H. rewrite Hai, Hao in H. cbn [obind] in H. rewrite Hks, Hki, Hko in H.
  destruct (Builder.push_slot_types _ _ _ _) as [[[]|e] q5] eqn:E5; [|done].
  destruct (Builder.push_input_types _ _ _ _) as [[[]|e] q7] eqn:E7; [|done].
  destruct (Builder.push_slots _ _ _ _ _) as [[args q9]|] eqn:E9; cbn [obind] in H; [|done].
  destruct (Builder.push_inputs _ _ _ _ q9) as [q10|] eqn:E10; cbn [obind] in H; [|done].
  destruct (Builder.push_outputs _ q10) as [q11|] eqn:E11; cbn [obind] in H; [|done].
  injection H as ->. exists q1, q2, q5, q7, q9, q10, args. by constructor; unfold call_slots, call_inputs, call_outputs; rewrite ?Ha.
Qed.

Lemma method_context_goto v mc P p ctx d :
  Builder.push_payload_byte p (method_context_as_u8 ctx) `prefix_of` P ->
  get_method_context v mc (goto P p d) =
    Ret (Ok (mc ctx), goto P (Builder.push_payload_byte p (method_context_as_u8 ctx)) d).
Proof.
  intros Hp. unfold get_method_context, get_trivial_type.
  assert (Ha : ensure_alignment v 1 (goto P p d) = Ret (Ok tt, goto P p d)).
  { unfold ensure_alignment. cbn [offset goto with_payload]. rewrite N.land_0_r. done. }
  pose proof (split_payload_goto v P p [byte_of (method_context_as_u8 ctx)] d Hp) as Hs.
  change (N.of_nat (length [byte_of (method_context_as_u8 ctx)])) with 1%N in Hs.
  erewrite mbind_step; [|by rewrite (mbind_step _ _ _ _ _ Ha)]. by destruct ctx.
Qed.

(** Everything up to the values of the arguments *)
Lemma decode_method_goto v mc P c p q1 q2 q5 q7 q9 q10 p' args d d1 :
  call_ok c -> stages c p q1 q2 q5 q7 q9 q10 p' args -> p' `prefix_of` P ->
  update_output_buffer_details (goto P p d) = Ret (Ok tt, goto P p d1) ->
  Forall (fun j => match slot_type_at (Builder.slot_output_index c) j with
    | SlotAddress => True | SlotOutputIndex n => n <= 127 end%N) (seq 0 (call_slots c)) /\
  inputs_ok (call_inputs c) 0 (Builder.input_output_index c) /\
  forall r d2,
    decode_arguments v (slot_bytes_of c) (input_bytes_of c) (length (call_outputs c))
      (goto P (Builder.push_payload_byte q7 (N.of_nat (length (call_outputs c)))) d1) = Ret (r, d2) ->
    decode_method v mc (goto P p d) =
      Ret (match r with
           | Ok cells =>
               Ok {| contract := Builder.call_contract c; fingerprint := Builder.call_fingerprint c;
                     method_context := mc (Builder.call_context c); external_args := cells |}
           | Err e => Err e
           end, d2).
Proof.
  intros Hok [Hlen E1 E2 E5 E7 E9 E10 E11] Hp Hup.
  pose proof (arguments_bound (call_arguments c)) as Hbound.
  fold (call_slots c) (call_inputs c) (call_outputs c) in Hbound.
  set (q8 := Builder.push_payload_byte q7 _) in *.
  set (q3 := Builder.push_payload_byte q2 _) in *.
  set (q4 := Builder.push_payload_byte q3 _) in *.
  set (q6 := Builder.push_payload_byte q5 _) in *.
  assert (P8 : q8 `prefix_of` P).
  { etrans; [by eapply push_slots_prefix|]. etrans; [by eapply push_inputs_prefix|].
    etrans; [by eapply push_outputs_prefix|done]. }
  assert (P7 : q7 `prefix_of` P) by (etrans; [apply push_byte_prefix|done]).
  assert (P6 : q6 `prefix_of` P) by (etrans; [by eapply push_input_types_prefix|done]).
  assert (P5 : q5 `prefix_of` P) by (etrans; [apply push_byte_prefix|done]).
  assert (P4 : q4 `prefix_of` P) by (etrans; [by eapply push_slot_types_prefix|done]).
  assert (P3 : q3 `prefix_of` P) by (etrans; [apply push_byte_prefix|done]).
  assert (P2 : q2 `prefix_of` P) by (etrans; [apply push_byte_prefix|done]).
  assert (P1 : q1 `prefix_of` P) by (etrans; [by eapply extend_prefix|done]).
  destruct (get_bytes_goto v P p _ _ _ d1 E1 P1) as (p0 & _ & G1).
  destruct (get_bytes_goto v P q1 _ _ _ d1 E2 P2) as (p0' & _ & G2).
  rewrite length_address_bytes in G1. rewrite (ok_fingerprint c Hok) in G2.
  pose proof (method_context_goto v mc P q2 _ d1 P3) as G3.
  pose proof (read_u8_goto v P q3 (N.of_nat (call_slots c)) d1 ltac:(lia) P4) as G4.
  destruct (push_slot_types_goto v P _ _ _ _ _ d1 E5 P5) as [Hsok G5].
  pose proof (read_u8_goto v P q5 (N.of_nat (length (call_inputs c))) d1 ltac:(lia) P6) as G6.
  destruct (push_input_types_goto v P _ _ _ _ _ d1 E7 P7) as [Hiok G7].
  pose proof (read_u8_goto v P q7 (N.of_nat (length (call_outputs c))) d1 ltac:(lia) P8) as G8.
  fold (slot_bytes_of c) in G5. fold (input_bytes_of c) in G7.
  split; [done|]. split; [done|]. intros r d2 Hargs. unfold decode_method.
  rewrite (mbind_step _ _ _ _ _ Hup), (mbind_step _ _ _ _ _ G1), (mbind_step _ _ _ _ _ G2),
    (mbind_step _ _ _ _ _ G3), (mbind_step _ _ _ _ _ G4).
  unfold MAX_TOTAL_METHOD_ARGS. rewrite (N.min_l (N.of_nat (call_slots c)) 8), Nat2N.id by lia.
  rewrite (mbind_step _ _ _ _ _ G5), (mbind_step _ _ _ _ _ G6).
  rewrite (N.min_l (N.of_nat (length (call_inputs c))) (8 - _)), Nat2N.id by lia.
  rewrite (mbind_step _ _ _ _ _ G7), (mbind_step _ _ _ _ _ G8).
  rewrite !decide_False by lia. cbn zeta.
  rewrite bool_decide_eq_false_2, andb_false_r by lia.
  rewrite Nat2N.id. destruct r as [cells|e]; [|by rewrite (mbind_fails _ _ _ _ _ Hargs)].
  rewrite (mbind_step _ _ _ _ _ Hargs).
  unfold mret. by rewrite address_of_bytes by apply (ok_contract c Hok).
Qed.

Lemma ready_goto types outs P p d : ready types outs d -> ready types outs (goto P p d).
Proof. intros [? ? ? ? ? ? ? ?]. by constructor. Qed.

Lemma decoded_goto c types outs P p d : decoded c types outs d -> decoded c types outs (goto P p d).
Proof. intros [? ? ? ? ? ? ? ?]. by constructor. Qed.

Lemma stages_prefix c p q1 q2 q5 q7 q9 q10 p' args :
  stages c p q1 q2 q5 q7 q9 q10 p' args -> q2 `prefix_of` p'.
Proof.
  intros [_ _ _ E5 E7 E9 E10 E11].
  etrans; [apply push_byte_prefix|]. etrans; [apply push_byte_prefix|].
  etrans; [by eapply push_slot_types_prefix|]. etrans; [apply push_byte_prefix|].
  etrans; [by eapply push_input_types_prefix|]. etrans; [apply push_byte_prefix|].
  etrans; [by eapply push_slots_prefix|]. etrans; [by eapply push_inputs_prefix|].
  by eapply push_outputs_prefix.
Qed.

Lemma stages_length c p q1 q2 q5 q7 q9 q10 p' args :
  call_ok c -> stages c p q1 q2 q5 q7 q9 q10 p' args -> length p + 48 <= length p'.
Proof.
  intros Hok Hst. pose proof (st_contract _ _ _ _ _ _ _ _ _ _ Hst) as E1.
  pose proof (st_fingerprint _ _ _ _ _ _ _ _ _ _ Hst) as E2.
  assert (H1 : length p + 16 <= length q1).
  { destruct (get_bytes_goto true q1 p _ _ _ (new [] []) E1) as (p0 & -> & _); [done|].
    unfold Builder.extend_payload_with_alignment in E1.
    destruct (Builder.ensure_alignment p 8) as [r|] eqn:E; cbn [obind] in E1; [|done].
    injection E1 as E1. apply ensure_alignment_prefix, prefix_length in E.
    apply (f_equal length) in E1. rewrite !length_app, length_address_bytes in *. lia. }
  assert (H2 : length q1 + 32 <= length q2).
  { unfold Builder.extend_payload_with_alignment in E2.
    destruct (Builder.ensure_alignment q1 1) as [r|] eqn:E; cbn [obind] in E2; [|done].
    injection E2 as <-. apply ensure_alignment_prefix, prefix_length in E.
    rewrite length_app, (ok_fingerprint c Hok). lia. }
  apply stages_prefix, prefix_length in Hst. lia.
Qed.

(** References to outputs of earlier calls, whose types are [types]; those of slots are
    aligned as addresses are. *)
Definition call_references_ok (types : list Builder.IoTypeDetails) (c : Builder.call) : Prop :=
  (forall i k, Builder.output_index_at (Builder.input_output_index c) i = Some k ->
    is_Some (types !! N.to_nat k)) /\
  (forall i k, Builder.output_index_at (Builder.slot_output_index c) i = Some k ->
    exists t, types !! N.to_nat k = Some t /\ (8 <= Builder.alignment t)%N).

Lemma references_recorded types outs c d bound :
  call_references_ok types c ->
  Forall2 (old_output d bound) outs (take (current d) (output_buffer_details d)) ->
  Forall2 aligned types (take (current d) (output_buffer_details d)) ->
  slots_recorded d outs (Builder.slot_output_index c) /\
  inputs_recorded d outs (Builder.input_output_index c).
Proof.
  intros [Hin Hslot] Hold Htypes.
  assert (Houts : forall k t, types !! k = Some t -> exists b, outs !! k = Some b).
  { intros k t Ht. apply lookup_lt_is_Some. rewrite (Forall2_length _ _ _ Hold), <- (Forall2_length _ _ _ Htypes).
    by eapply lookup_lt_Some. }
  split.
  - intros i k Hk. destruct (Hslot i k Hk) as (t & Ht & H8). destruct (Houts _ _ Ht) as [b Hb].
    destruct (old_outputs_recorded d bound outs k b Hold Hb) as [o Ho]. exists o, b. split; [done|]. split; [done|].
    destruct (Forall2_lookup_l _ _ _ _ _ Htypes Ht) as (e & He & o' & -> & Hmod).
    apply lookup_take_Some in He as [He _]. destruct Ho as (_ & Ho & _). rewrite Ho in He.
    injection He as <-. by apply Hmod.
  - intros i k Hk. destruct (Hin i k Hk) as [t Ht]. destruct (Houts _ _ Ht) as [b Hb].
    destruct (old_outputs_recorded d bound outs k b Hold Hb) as [o Ho]. by exists o, b.
Qed.

(** The decoder after the arguments of a call *)
Lemma arguments_decoded_decoded P outs types c addresses d d' cells bound :
  arguments_decoded P outs c addresses d d' cells ->
  length (output_buffer_details d) = OUTPUT_BUFFER_OFFSETS_SIZE ->
  before_last d = current d -> length outs = current d ->
  Forall2 (old_output d bound) outs (take (current d) (output_buffer_details d)) ->
  bound = output_buffer_cursor d ->
  Forall2 aligned types (take (current d) (output_buffer_details d)) ->
  current d + length (call_outputs c) <= OUTPUT_BUFFER_OFFSETS_SIZE ->
  (output_buffer_cursor d + outputs_size (call_outputs c) <= N.of_nat (length (output_buffer d)))%N ->
  decoded c (types ++ call_outputs c) outs d'.
Proof.
  intros (Hlc & Hcursor & _ & entries & pre & co & tail & Hd' & Hcells & Hpre & Hnew & Hal)
    Hdet Hlast Houts Hold -> Htypes Hcur Hroom.
  assert (Hle : length entries = length (call_outputs c)) by (symmetry; by eapply Forall2_length).
  assert (Hcur' : current d' = current d + length (call_outputs c)) by (rewrite Hd'; done).
  assert (Hlast' : before_last d' = current d) by (rewrite Hd'; done).
  assert (Hdet' : output_buffer_details d' = take (current d) (output_buffer_details d) ++ entries ++
    drop (current d + length (call_outputs c)) (output_buffer_details d)) by (rewrite Hd'; done).
  assert (Hcells' : external_args_buffer d' = cells) by (rewrite Hd'; done).
  assert (Hbuf : output_buffer d' = output_buffer d) by (rewrite Hd'; done).
  assert (Htake : take (current d') (output_buffer_details d') =
    take (current d) (output_buffer_details d) ++ entries).
  { rewrite Hcur', Hdet', app_assoc. apply take_app_length'. rewrite length_app, length_take, Hdet, Hle. lia. }
  constructor; rewrite ?Hcells', ?Hlast', ?Hbuf; [done| |lia|lia|done| |lia|].
  - rewrite Hdet', !length_app, length_take, length_drop, Hle, Hdet. lia.
  - rewrite Htake. by apply Forall2_app.
  - exists (output_buffer_cursor d), pre, co, tail. split; [done|]. split; [done|]. split.
    + rewrite Hdet', take_app_length' by (rewrite length_take, Hdet; lia).
      eapply Forall2_impl; [exact Hold|]. intros b e (o & -> & Ho). exists o. by rewrite Hbuf.
    + rewrite Htake, drop_app_length' by (rewrite length_take, Hdet; lia). done.
Qed.

Lemma decode_next_method_goto v mc P types outs c p p' d :
  call_ok c -> Builder.with_method_call p c = Ret (Ok tt, p') -> p' `prefix_of` P -> ready types outs d ->
  call_references_ok types c ->
  current d + length (call_outputs c) <= OUTPUT_BUFFER_OFFSETS_SIZE ->
  (output_buffer_cursor d + outputs_size (call_outputs c) <= N.of_nat (length (output_buffer d)) < 2 ^ 32)%N ->
  match resolve_slots outs (Builder.slot_output_index c) 0 (call_addresses c) with
  | Ok addresses => exists m d',
      decode_next_method v mc (goto P p d) = Ret (Ok (Some m), goto P p' d') /\
      decoded c (types ++ call_outputs c) outs d' /\
      current d' = current d + length (call_outputs c) /\
      (output_buffer_cursor d' <= output_buffer_cursor d + outputs_size (call_outputs c))%N /\
      output_buffer d' = output_buffer d /\ is_call mc P outs c addresses m (goto P p' d')
  | Err (k, size) => v = true -> exists d',
      decode_next_method v mc (goto P p d) = Ret (Err (InvalidSlotOutputIndexSize k size), d')
  end.
Proof.
  intros Hok H Hp Hready Href Hcur Hroom.
  destruct (with_method_call_stages c p p' Hok H) as (q1 & q2 & q5 & q7 & q9 & q10 & args & Hst).
  destruct (update_output_buffer_details_ok _ _ _ (ready_goto types outs P p d Hready)) as
    (details & Hld & Hold & Htypes & Hup).
  rewrite goto_outputs in Hup. set (d1 := with_outputs d _ details _ _) in Hup.
  destruct (decode_method_goto v mc P c p q1 q2 q5 q7 q9 q10 p' args d d1 Hok Hst Hp Hup) as (Hsok & Hiok & Hdec).
  pose proof (stages_length _ _ _ _ _ _ _ _ _ _ Hok Hst) as Hlong.
  destruct (references_recorded types outs c d1 (output_buffer_cursor d) Href Hold Htypes) as [Hsr Hir].
  destruct Hst as [Hlen _ _ _ _ E9 E10 E11].
  pose proof (decode_arguments_goto v P outs c _ _ _ _ args d1 Hok Hlen Hsok Hiok E9 E10 E11 Hp
    (ready_cells _ _ d Hready) Hld Hsr Hir Hcur Hroom) as Hargs.
  cbv zeta in Hargs. unfold decode_next_method. rewrite decide_False.
  2: { cbn [payload goto with_payload]. rewrite length_drop. apply prefix_length in Hp. unfold MAX_ALIGNMENT. lia. }
  destruct (resolve_slots outs _ 0 (call_addresses c)) as [addresses|[k size]].
  2: { intros Hv. destruct (Hargs Hv) as [d' Hd']. exists d'. apply Hdec in Hd'.
       by rewrite (mbind_fails _ _ _ _ _ Hd'). }
  destruct Hargs as (cells & d' & Hargs & Had). apply Hdec in Hargs. clear Hdec.
  eexists _, d'. rewrite (mbind_step _ _ _ _ _ Hargs). split; [done|].
  pose proof Had as (Hlc & Hcursor & Hhas & entries & pre & co & tail & Hd' & _).
  split; [|split; [by rewrite Hd'|split; [done|split; [by rewrite Hd'|]]]].
  - apply (arguments_decoded_decoded P outs types c addresses d1 d' cells (output_buffer_cursor d));
      try done; [apply (ready_outs _ _ d Hready)|apply Hroom].
  - split; [done|]. split; [done|]. split; [done|]. cbn [external_args external_args_buffer goto with_payload].
    split; [by rewrite Hd'|]. cbn [output_buffer goto with_payload].
    replace (output_buffer d') with (output_buffer d1) by (rewrite Hd'; done). done.
Qed.

(** *** A whole payload *)

Section Roundtrip.
Context (v : bool) (mc : TransactionMethodContext -> SystemContracts.method_context) (P : list byte).

(** Decoding gives the calls one after the other, whatever the methods called in between
    write to their outputs, and then nothing; [outs] is what they have written so far.  A
    slot that refers to an output without the size of an address is an error. *)
Fixpoint decodes (outs : list (list byte)) (calls : list Builder.call) (d : decoder) : Prop :=
  match calls with
  | [] => decode_next_method v mc d = Ret (Ok None, d)
  | c :: calls =>
      match resolve_slots outs (Builder.slot_output_index c) 0 (call_addresses c) with
      | Ok addresses =>
          exists m d', decode_next_method v mc d = Ret (Ok (Some m), d') /\
            is_call mc P outs c addresses m d' /\
            forall d'', after_call c d' d'' ->
              exists written, outputs_written c d'' = Some written /\ decodes (outs ++ written) calls d''
      | Err (k, size) =>
          v = true ->
          exists d', decode_next_method v mc d = Ret (Err (InvalidSlotOutputIndexSize k size), d')
      end
  end.

Definition all_outputs (calls : list Builder.call) : list Builder.IoTypeDetails :=
  mjoin (call_outputs <$> calls).

(** References are to outputs of earlier calls, whose types are [types]. *)
Fixpoint references_earlier (types : list Builder.IoTypeDetails) (calls : list Builder.call) : Prop :=
  match calls with
  | [] => True
  | c :: calls => call_references_ok types c /\ references_earlier (types ++ call_outputs c) calls
  end.

Lemma build_prefix calls p p' :
  Forall call_ok calls -> Builder.build p calls = Ret (Ok tt, p') -> p `prefix_of` p'.
Proof.
  intros Hok. revert p. induction Hok as [|c calls Hc _ IH]; intros p H; cbn [Builder.build] in H.
  { by injection H as <-. }
  destruct (Builder.with_method_call p c) as [[[[]|e] p1]|] eqn:E; cbn [obind] in H; try done.
  destruct (with_method_call_stages c p p1 Hc E) as (q1 & q2 & q5 & q7 & q9 & q10 & args & Hst).
  etrans; [|by apply IH]. etrans; [|by eapply stages_prefix].
  etrans; [eapply extend_prefix, Hst|eapply extend_prefix, Hst].
Qed.

Lemma outputs_size_app a b : outputs_size (a ++ b) = (outputs_size a + outputs_size b)%N.
Proof.
  induction a as [|t a IH]; [done|]. cbn [app outputs_size foldr].
  fold (outputs_size (a ++ b)) (outputs_size a). lia.
Qed.

Lemma decodes_build types outs calls p p' d :
  Forall call_ok calls -> Builder.build p calls = Ret (Ok tt, p') -> p' `prefix_of` P ->
  length P <= length p' + 16 -> ready types outs d -> references_earlier types calls ->
  current d + length (all_outputs calls) <= OUTPUT_BUFFER_OFFSETS_SIZE ->
  (output_buffer_cursor d + outputs_size (all_outputs calls) <=
    N.of_nat (length (output_buffer d)) < 2 ^ 32)%N ->
  decodes outs calls (goto P p d).
Proof.
  intros Hok. revert types outs p d.
  induction Hok as [|c calls Hc Hcalls IH]; intros types outs p d H Hp Hpad Hready Href Hcur Hroom;
    cbn [Builder.build] in H.
  { injection H as <-. cbn [decodes]. unfold decode_next_method. rewrite decide_True; [done|].
    cbn [payload goto with_payload]. rewrite length_drop. unfold MAX_ALIGNMENT. lia. }
  destruct (Builder.with_method_call p c) as [[[[]|e] p1]|] eqn:E; cbn [obind] in H; try done.
  change (all_outputs (c :: calls)) with (call_outputs c ++ all_outputs calls) in *.
  rewrite length_app in Hcur. rewrite outputs_size_app in Hroom. destruct Href as [Href Hrefs].
  assert (Hp1 : p1 `prefix_of` P) by (etrans; [by eapply build_prefix|done]).
  pose proof (decode_next_method_goto v mc P types outs c p p1 d Hc E Hp1 Hready Href ltac:(lia) ltac:(lia)) as Hnext.
  cbn [decodes]. destruct (resolve_slots outs _ 0 (call_addresses c)) as [addresses|[k size]]; [|done].
  destruct Hnext as (m & d' & Hdec & Hdecoded & Hcur' & Hcursor & Hout & Hcall).
  exists m, (goto P p1 d'). split; [done|]. split; [done|]. intros d'' Hafter.
  destruct (ready_after_call _ _ _ _ _ (decoded_goto _ _ _ P p1 d' Hdecoded) Hafter) as (written & Hw & Hready').
  exists written. split; [done|].
  destruct Hafter as (cells & out & _ & Hlen & _ & Hd''). cbn in Hlen.
  replace d'' with (goto P p1 d'') by (by rewrite Hd'').
  apply (IH (types ++ call_outputs c)); try done; rewrite Hd'';
    cbn [current output_buffer_cursor output_buffer goto with_payload].
  - rewrite Hcur'. lia.
  - rewrite Hlen, Hout. lia.
Qed.
End Roundtrip.

Lemma new_is_ready P out : ready [] [] (new P out).
Proof. constructor; cbn; try done; unfold OUTPUT_BUFFER_OFFSETS_SIZE; lia || apply Forall2_nil_2. Qed.

Lemma into_aligned_bytes_padding p P :
  Builder.into_aligned_bytes p = Ret P -> p `prefix_of` P /\ length P <= length p + 16.
Proof.
  intros H. split; [by eapply ensure_alignment_prefix|]. revert H.
  unfold Builder.into_aligned_bytes, Builder.ensure_alignment. rewrite decide_False by done.
  intros [= <-]. destruct (decide _); [|lia]. rewrite length_app, length_replicate. unfold MAX_ALIGNMENT. lia.
Qed.

(** C7. A payload made of valid calls decodes, checked or unchecked, to exactly these
    calls in order and then to nothing, whatever the methods called in between write to
    their outputs: contract, fingerprint and context are those of the call; its slots
    are its addresses or the addresses in the outputs they refer to, its inputs its
    values or the outputs they refer to, with the bytes and the size the earlier method
    left through its own arguments; its outputs have room for their capacity, apart from
    each other.  A slot that refers to an output that was not given the 16 bytes of an
    address is refused by the checked decoder with [InvalidSlotOutputIndexSize]; of the
    unchecked one nothing is said then.  Valid calls have their arguments in the order of
    the contract macro, refer to outputs of earlier calls only, and in slots to outputs
    aligned as addresses are; there are at most 16 outputs, which fit the output buffer
    with 16 bytes of padding each; methods write nothing but their own outputs, up to the
    capacity. *)
Theorem payload_roundtrip v mc calls p P out :
  Forall call_ok calls -> Builder.build [] calls = Ret (Ok tt, p) -> Builder.into_aligned_bytes p = Ret P ->
  references_earlier [] calls -> length (all_outputs calls) <= OUTPUT_BUFFER_OFFSETS_SIZE ->
  (outputs_size (all_outputs calls) <= N.of_nat (length out) < 2 ^ 32)%N ->
  decodes v mc P [] calls (new P out).
Proof.
  intros Hok Hb HP Href Hn Hs. destruct (into_aligned_bytes_padding p P HP) as [Hp Hpad].
  change (new P out) with (goto P [] (new P out)).
  by apply (decodes_build v mc P [] [] calls [] p); [..|apply new_is_ready| | |].
Qed.

(** The unchecked decoder does what the checked one does on every payload the latter
    decodes without an error. *)
Theorem unchecked_decoder_agrees mc d m d' :
  decode_next_method true mc d = Ret (Ok m, d') -> decode_next_method false mc d = Ret (Ok m, d').
Proof.
  unfold decode_next_method. destruct (decide _); [done|].
  apply (agrees_bind (fun v => decode_method v mc) (fun _ m => mret (Some m)));
    [apply decode_method_agrees|intros; apply agrees_same].
Qed.

(** ** Untrusted payloads *)

Lemma read_bytes_u8_goto v P p bs d :
  p ++ bs `prefix_of` P ->
  read_bytes_u8 v (length bs) (goto P p d) = Ret (Ok (Byte.to_N <$> bs), goto P (p ++ bs) d).
Proof.
  revert p. induction bs as [|b bs IH]; intros p Hp; cbn [length read_bytes_u8].
  { by rewrite app_nil_r. }
  rewrite (mbind_step _ _ _ _ _ (read_u8_goto v P p (Byte.to_N b) d (to_N_lt b)
    ltac:(unfold Builder.push_payload_byte; rewrite byte_of_to_N; apply (prefix_app_inv _ bs); by rewrite <- app_assoc))).
  unfold Builder.push_payload_byte. rewrite byte_of_to_N.
  rewrite (mbind_step _ _ _ _ _ (IH (p ++ [b]) ltac:(by rewrite <- app_assoc))). by rewrite <- app_assoc.
Qed.

Lemma get_bytes_start v al P p b d :
  N.land (N.of_nat (length p)) (al - 1) = 0%N -> (al <= 16)%N -> p ++ b `prefix_of` P ->
  get_bytes v (N.of_nat (length b)) al (goto P p d) = Ret (Ok (N.of_nat (length p), b), goto P (p ++ b) d).
Proof.
  intros Hal Hle Hp. destruct (get_bytes_goto v P p b al (p ++ b) d) as (p0 & E & H).
  - unfold Builder.extend_payload_with_alignment, Builder.ensure_alignment.
    rewrite decide_False by (unfold MAX_ALIGNMENT; lia). by rewrite Hal.
  - done.
  - apply app_inj_2 in E as [-> _]; done.
Qed.

(** The payload of one method with the numbers and slot types given, followed by [rest]. *)
Definition announced (c fp : list byte) (context num_slots : N) (slots : list byte)
    (num_inputs num_outputs : N) (rest : list byte) : list byte :=
  c ++ fp ++ [byte_of context; byte_of num_slots] ++ slots ++
    [byte_of num_inputs; byte_of num_outputs] ++ rest.

(** The decoder that is meant for untrusted payloads reads out of bounds of the array
    of slots and inputs when a method announces more than eight slots: this happens
    before the number of arguments is checked. *)
Theorem decoder_slots_out_of_bounds mc c fp context num_slots slots num_inputs num_outputs rest out :
  length c = 16 -> length fp = 32 -> (context <= 1)%N -> (8 < num_slots < 256)%N -> length slots = 8 ->
  (num_inputs < 256)%N -> (num_outputs < 256)%N ->
  decode_next_method true mc
    (new (announced c fp context num_slots slots num_inputs num_outputs rest) out) = Fault.
Proof.
  intros Hc Hfp Hctx Hns Hs Hni Hno. unfold announced.
  set (P := c ++ fp ++ [byte_of context; byte_of num_slots] ++ slots ++
    [byte_of num_inputs; byte_of num_outputs] ++ rest).
  assert (E : P = (((((c ++ fp) ++ [byte_of context]) ++ [byte_of num_slots]) ++ slots) ++
    [byte_of num_inputs]) ++ [byte_of num_outputs] ++ rest) by (unfold P; by rewrite <- !app_assoc).
  set (q1 := c ++ fp) in *. set (q2 := q1 ++ [byte_of context]) in *.
  set (q3 := q2 ++ [byte_of num_slots]) in *. set (q4 := q3 ++ slots) in *.
  set (q5 := q4 ++ [byte_of num_inputs]) in *. set (q6 := q5 ++ [byte_of num_outputs]) in *.
  assert (P6 : q6 `prefix_of` P) by (exists rest; rewrite E; unfold q6; by rewrite <- app_assoc).
  assert (P5 : q5 `prefix_of` P) by (by eapply prefix_app_inv).
  assert (P4 : q4 `prefix_of` P) by (by eapply prefix_app_inv).
  assert (P3 : q3 `prefix_of` P) by (by eapply prefix_app_inv).
  assert (P2 : q2 `prefix_of` P) by (by eapply prefix_app_inv).
  assert (P1 : q1 `prefix_of` P) by (by eapply prefix_app_inv).
  assert (P0 : [] ++ c `prefix_of` P) by (by eapply prefix_app_inv).
  pose proof (get_bytes_start true 8 P [] c (new P out) eq_refl ltac:(lia) P0) as G0.
  pose proof (get_bytes_start true 1 P c fp (new P out) ltac:(by rewrite N.land_0_r) ltac:(lia) P1) as G1.
  rewrite Hc in G0. rewrite Hfp in G1. cbn [app] in G0. fold q1 in G1.
  assert (exists ctx, context = method_context_as_u8 ctx) as [ctx Hctx'].
  { destruct (N.eq_dec context 0) as [->|]; [by exists Null|]. exists Wallet. cbn. lia. }
  assert (G2 : get_method_context true mc (goto P q1 (new P out)) = Ret (Ok (mc ctx), goto P q2 (new P out))).
  { unfold q2 in *. rewrite Hctx' in *. by apply method_context_goto. }
  pose proof (read_u8_goto true P q2 num_slots (new P out) ltac:(lia) P3) as G3. fold q3 in G3.
  pose proof (read_bytes_u8_goto true P q3 slots (new P out) P4) as G4. rewrite Hs in G4.
  pose proof (read_u8_goto true P q4 num_inputs (new P out) ltac:(lia) P5) as G5. fold q5 in G5.
  pose proof (read_u8_goto true P q5 num_outputs (new P out) ltac:(lia) P6) as G6. fold q6 in G6.
  unfold decode_next_method. rewrite decide_False.
  2: { apply prefix_length in P6. unfold q6, q5, q4, q3, q2, q1 in P6. rewrite !length_app, Hc in P6.
       change (payload (new P out)) with P. change (N.to_nat MAX_ALIGNMENT) with 16. cbn [length] in P6. lia. }
  unfold mbind at 1. change (new P out) with (goto P [] (new P out)). unfold decode_method.
  rewrite (mbind_step _ _ (goto P [] (new P out)) tt (goto P [] (new P out)) eq_refl).
  rewrite (mbind_step _ _ _ _ _ G0), (mbind_step _ _ _ _ _ G1), (mbind_step _ _ _ _ _ G2),
    (mbind_step _ _ _ _ _ G3).
  unfold MAX_TOTAL_METHOD_ARGS. rewrite (N.min_r num_slots 8) by lia. change (N.to_nat 8) with 8.
  rewrite (mbind_step _ _ _ _ _ G4), (mbind_step _ _ _ _ _ G5).
  replace (8 - num_slots)%N with 0%N by lia. rewrite N.min_0_r. cbn [N.to_nat read_bytes_u8].
  erewrite mbind_step; [|done]. rewrite (mbind_step _ _ _ _ _ G6). by rewrite decide_True by lia.
Qed.

(** ** Examples *)

Definition sample_details (size alignment : N) : option Builder.IoTypeDetails :=
  Some {| Builder.recommended_capacity := size; Builder.alignment := alignment |}.

(** A call with a slot, an input and an output; a call that takes this output as its
    input and returns an address; and a call with this address for its slot *)
Definition sample_calls : list Builder.call :=
  [{| Builder.call_contract := Addr 100 5; Builder.call_fingerprint := replicate 32 x07;
      Builder.call_metadata := Some (NativeExecutor.UpdateStateless,
        [Some (NativeExecutor.EnvRw, None); Some (NativeExecutor.SlotRw, None);
         Some (NativeExecutor.Input, sample_details 2 2);
         Some (NativeExecutor.Output, sample_details 8 8)]);
      Builder.call_context := Wallet;
      Builder.call_args := [NativeExecutor.ExtAddress (Addr 101 5); NativeExecutor.ExtInput [x01; x02]];
      Builder.slot_output_index := []; Builder.input_output_index := [] |};
   {| Builder.call_contract := Addr 101 5; Builder.call_fingerprint := replicate 32 x08;
      Builder.call_metadata := Some (NativeExecutor.ViewStateless,
        [Some (NativeExecutor.Input, sample_details 8 8); Some (NativeExecutor.Return, sample_details 16 8)]);
      Builder.call_context := Null; Builder.call_args := [NativeExecutor.ExtInput []];
      Builder.slot_output_index := []; Builder.input_output_index := [Some 0%N] |};
   {| Builder.call_contract := Addr 102 5; Builder.call_fingerprint := replicate 32 x09;
      Builder.call_metadata := Some (NativeExecutor.UpdateStateless, [Some (NativeExecutor.SlotRo, None)]);
      Builder.call_context := Null; Builder.call_args := [NativeExecutor.ExtAddress (Addr 0 0)];
      Builder.slot_output_index := [Some 1%N]; Builder.input_output_index := [] |}].

Definition sample_built : list byte :=
  match Builder.build [] sample_calls with Ret (_, p) => p | Fault => [] end.

Definition sample_payload : list byte :=
  match Builder.into_aligned_bytes sample_built with Ret P => P | Fault => [] end.

Definition sample_context (c : TransactionMethodContext) : SystemContracts.method_context :=
  match c with Null => Reset | Wallet => Keep end.


Lemma sample_calls_ok : Forall call_ok sample_calls.
Proof.
  repeat apply Forall_cons_2; [..|apply Forall_nil_2]; constructor; try done;
    try (intros ? Ha; cbn in Ha; rewrite ?elem_of_cons, ?elem_of_nil in Ha; destruct_or? Ha; simplify_eq; done);
    try (apply Forall_cons_2; [|apply Forall_nil_2]; split; [by exists 3%N|done]).
  - eexists [_; _; _], [_]. split; [reflexivity|done].
  - eexists [_], [_]. split; [reflexivity|done].
  - eexists [_], []. split; [reflexivity|done].
Qed.

Lemma sample_references : references_earlier [] sample_calls.
Proof.
  split; [done|]. split; [split; [|done]|split; [split; [done|]|done]].
  - intros [|i] k; cbn; [|done]. intros [= <-]. by eexists.
  - intros [|i] k; cbn; [|done]. intros [= <-]. by eexists.
Qed.

Lemma payload_roundtrip_witness :
  length sample_payload = 208 /\
  decodes true sample_context sample_payload [] sample_calls (new sample_payload (replicate 100 x00)).
Proof.
  split; [by vm_compute|].
  apply (payload_roundtrip true sample_context sample_calls sample_built sample_payload (replicate 100 x00)).
  - apply sample_calls_ok.
  - by vm_compute.
  - by vm_compute.
  - apply sample_references.
  - cbn. unfold OUTPUT_BUFFER_OFFSETS_SIZE. lia.
  - vm_compute. done.
Defined.

Lemma unchecked_decoder_agrees_witness :
  exists m d', decode_next_method false sample_context (new sample_payload (replicate 100 x00)) =
    Ret (Ok (Some m), d').
Proof.
  destruct (decode_next_method true sample_context (new sample_payload (replicate 100 x00)))
    as [[[[m|]|e] d']|] eqn:E; try (by vm_compute in E).
  exists m, d'. by apply unchecked_decoder_agrees.
Defined.

Lemma decoder_slots_out_of_bounds_witness :
  decode_next_method true sample_context
    (new (announced (replicate 16 x00) (replicate 32 x00) 0 9 (replicate 8 x80) 0 0 (replicate 4 x00)) [])
  = Fault.
Proof.
  apply (decoder_slots_out_of_bounds sample_context (replicate 16 x00) (replicate 32 x00) 0 9
    (replicate 8 x80) 0 0 (replicate 4 x00) []); done || lia.
Defined.
End WalletRoundtrip.
