(* ===== verification/SimpleWallet.v ===== *)
(** * The simple wallet

    Model of the wallet contract
    ([crates/contracts/system/ab-system-contract-simple-wallet-base/src/lib.rs] and
    [seal.rs]): sealing and authorizing transactions, and executing the calls of a payload
    ([WalletPayload]) one after the other.  The signature scheme is that of the
    [schnorrkel] crate and the hash that of the [blake3] crate: the class
    [SignatureScheme] has their operations and what the wallet relies on. *)

From S2P Require Import Prelude Slices IoTypes Shards Address SystemContracts NativeExecutor.
From S2P Require Import WalletPayload WalletRoundtrip.
From stdpp Require Import prelude.
From Stdlib Require Import NArith Lia.
From Stdlib Require Import Strings.Byte.

Module SimpleWallet.
Import Address SystemContracts WalletPayload WalletRoundtrip.

Abbreviation error := IoTypes.ContractError.t.
Definition Forbidden : error := IoTypes.ContractError.Forbidden.
Definition BadInput : error := IoTypes.ContractError.BadInput.

(** ** Transactions *)

Record TransactionHeader : Type := {
  version : N;
  block_root : list byte;
  gas_limit : N;
  header_contract : address
}.

Definition header_bytes (h : TransactionHeader) : list byte :=
  le_split 8 (version h) ++ block_root h ++ le_split 8 (gas_limit h) ++ address_bytes (header_contract h).

Record TransactionSlot : Type := { slot_owner : address; slot_contract : address }.

Definition slot_bytes (s : TransactionSlot) : list byte :=
  address_bytes (slot_owner s) ++ address_bytes (slot_contract s).

Record Seal : Type := { signature : list byte; seal_nonce : N }.
Record WalletState : Type := { public_key : list byte; nonce : N }.

Definition SEAL_SIZE : nat := 72.

(** The bytes of a seal and back *)
Definition seal_bytes (s : Seal) : list byte := signature s ++ le_split 8 (seal_nonce s).
Definition seal_of (bytes : list byte) : Seal :=
  {| signature := take 64 bytes; seal_nonce := le_value (drop 64 bytes) |}.

(** ** Signatures and hashes *)

Class SignatureScheme : Type := {
  Keypair : Type;
  keypair_public : Keypair -> list byte;
  public_key_valid : list byte -> bool;
  signature_valid : list byte -> bool;
  (** [SigningContext::new(SIGNING_CONTEXT).bytes(message)] signed and verified *)
  keypair_sign : Keypair -> list byte -> list byte;
  signature_verify : list byte -> list byte -> list byte -> bool;
  (** [Hasher]: the hash of everything it was updated with *)
  hasher : list byte -> list byte
}.

Class SignatureSpec (S : SignatureScheme) : Prop := {
  keypair_public_valid k : public_key_valid (keypair_public k) = true;
  keypair_sign_valid k m : signature_valid (keypair_sign k m) = true;
  keypair_sign_length k m : length (keypair_sign k m) = 64;
  keypair_sign_verify k m : signature_verify (keypair_public k) m (keypair_sign k m) = true
}.

Section Seal.
Context {S : SignatureScheme}.

Definition hash_transaction (header : TransactionHeader) (read_slots write_slots : list TransactionSlot)
    (payload : list byte) (nonce : N) : list byte :=
  hasher (header_bytes header ++ concat (slot_bytes <$> read_slots) ++
    concat (slot_bytes <$> write_slots) ++ payload ++ le_split 8 nonce).

Definition sign (keypair : Keypair) (tx_hash : list byte) : list byte := keypair_sign keypair tx_hash.

Definition hash_and_sign (keypair : Keypair) (header : TransactionHeader)
    (read_slots write_slots : list TransactionSlot) (payload : list byte) (nonce : N) : Seal :=
  {| signature := sign keypair (hash_transaction header read_slots write_slots payload nonce);
     seal_nonce := nonce |}.

Definition verify (public_key : list byte) (expected_nonce : N) (tx_hash signature : list byte) (nonce : N)
    : result unit error :=
  if negb (nonce =? expected_nonce)%N then Err BadInput
  else if signature_verify public_key tx_hash signature then Ok tt else Err Forbidden.

Definition hash_and_verify (public_key : list byte) (expected_nonce : N) (header : TransactionHeader)
    (read_slots write_slots : list TransactionSlot) (payload : list byte) (seal : Seal)
    : result unit error :=
  if negb (seal_nonce seal =? expected_nonce)%N then Err BadInput
  else
    let tx_hash := hash_transaction header read_slots write_slots payload (seal_nonce seal) in
    if negb (signature_valid (signature seal)) then Err BadInput
    else if signature_verify public_key tx_hash (signature seal) then Ok tt else Err Forbidden.

(** ** The contract *)

Definition checked_add_u64 (a b : N) : option N := if decide (a + b < 2 ^ 64)%N then Some (a + b)%N else None.

Definition initialize (public_key : list byte) : result WalletState error :=
  if public_key_valid public_key then Ok {| public_key := public_key; nonce := 0 |} else Err BadInput.

Definition authorize (state : WalletState) (header : TransactionHeader)
    (read_slots write_slots : list TransactionSlot) (payload : list byte)
    (seal : IoTypes.VariableBytes.t) : outcome (result unit error) :=
  let! bytes := IoTypes.VariableBytes.read_trivial_type seal SEAL_SIZE in
  match bytes with
  | None => Ret (Err BadInput)
  | Some bytes =>
      match checked_add_u64 (nonce state) 1 with
      | None => Ret (Err Forbidden)
      | Some _ =>
          if public_key_valid (public_key state) then
            Ret (hash_and_verify (public_key state) (nonce state) header read_slots write_slots payload
              (seal_of bytes))
          else Fault
      end
  end.

Definition increase_nonce (state : WalletState) : result WalletState error :=
  match checked_add_u64 (nonce state) 1 with
  | Some nonce => Ok {| public_key := public_key state; nonce := nonce |}
  | None => Err Forbidden
  end.

Definition change_public_key (state : WalletState) (public_key : list byte) : result WalletState error :=
  if public_key_valid public_key then Ok {| public_key := public_key; nonce := nonce state |}
  else Err BadInput.
End Seal.

Section Execute.
(** [Env::call_prepared] on the buffers of the decoder and the rest of the world *)
Context {W : Type} (call_prepared : prepared -> list cell -> list byte -> W ->
  outcome (result unit error * list cell * list byte * W)).

Definition map_context (c : TransactionMethodContext) : SystemContracts.method_context :=
  match c with Null => Reset | Wallet => Keep end.

Definition with_buffers (d : decoder) (cells : list cell) (out : list byte) : decoder :=
  {| payload := payload d; offset := offset d; external_args_buffer := cells; output_buffer := out;
     output_buffer_cursor := output_buffer_cursor d; output_buffer_details := output_buffer_details d;
     before_last := before_last d; current := current d |}.

(** The [while] loop; [None] when the fuel runs out *)
Fixpoint execute_loop (fuel : nat) (d : decoder) (w : W) : outcome (option (result unit error * W)) :=
  match fuel with
  | O => Ret None
  | S fuel =>
      let! (r, d) := decode_next_method true map_context d in
      match r with
      | Err _ => Ret (Some (Err BadInput, w))
      | Ok None => Ret (Some (Ok tt, w))
      | Ok (Some m) =>
          let! (called, w) := call_prepared m (external_args_buffer d) (output_buffer d) w in
          let '(r, cells, out) := called in
          match r with
          | Err e => Ret (Some (Err e, w))
          | Ok _ => execute_loop fuel (with_buffers d cells out) w
          end
      end
  end.

(** [output] is the memory of the output buffer, which is not initialised. *)
Definition execute (env : env_state) (payload output : list byte) (w : W)
    : outcome (option (result unit error * W)) :=
  if negb (eqb (caller env) (context env)) then Ret (Some (Err Forbidden, w))
  else execute_loop (S (length payload)) (new payload output) w.
End Execute.

(** ** Executing a payload *)

Section Executed.
Context {W : Type} (call_prepared : prepared -> list cell -> list byte -> W ->
  outcome (result unit error * list cell * list byte * W)).

Lemma execute_loop_fuel fuel d w : length (payload d) < fuel -> execute_loop call_prepared fuel d w <> Ret None.
Proof.
  revert d w. induction fuel as [|fuel IH]; intros d w Hf; [lia|]. cbn [execute_loop].
  destruct (decode_next_method true map_context d) as [[[[m|]|e] d1]|] eqn:E; cbn [obind]; try done.
  apply decode_next_method_consumes in E. unfold MIN_METHOD_SIZE in E.
  destruct (call_prepared m _ _ w) as [[[[[u|e] cells] out] w1]|]; cbn [obind]; try done.
  apply IH. cbn. lia.
Qed.

(** More fuel changes nothing. *)
Lemma execute_loop_more fuel more d w :
  length (payload d) < fuel ->
  execute_loop call_prepared (fuel + more) d w = execute_loop call_prepared fuel d w.
Proof.
  revert d w. induction fuel as [|fuel IH]; intros d w Hf; [lia|]. cbn [execute_loop Nat.add].
  destruct (decode_next_method true map_context d) as [[[[m|]|e] d1]|] eqn:E; cbn [obind]; try done.
  apply decode_next_method_consumes in E. unfold MIN_METHOD_SIZE in E.
  destruct (call_prepared m _ _ w) as [[[[[u|e] cells] out] w1]|]; cbn [obind]; try done.
  apply IH. cbn. lia.
Qed.

(** What the environment promises about the calls of a payload: they return, and one that
    succeeds has changed of the buffers only its outputs and their sizes, up to the
    capacity. *)
Definition environment_ok (P : list byte) (calls : list Builder.call) : Prop :=
  forall outs c addresses m d w, c ∈ calls -> is_call map_context P outs c addresses m d ->
    exists r cells out w',
      call_prepared m (external_args_buffer d) (output_buffer d) w = Ret (r, cells, out, w') /\
      match r with Ok _ => after_call c d (with_buffers d cells out) | Err _ => True end.

(** The calls are made in order, each with its arguments, up to the first that fails or
    that has a slot without an address; [outs] is what earlier calls have written to their
    outputs. *)
Inductive executed (P : list byte)
    : list (list byte) -> list Builder.call -> decoder -> W -> result unit error -> W -> Prop :=
| executed_done outs d w : executed P outs [] d w (Ok tt) w
| executed_refused outs c calls d w k size :
    resolve_slots outs (Builder.slot_output_index c) 0 (call_addresses c) = Err (k, size) ->
    executed P outs (c :: calls) d w (Err BadInput) w
| executed_failed outs c calls d w addresses m d' e cells out w' :
    resolve_slots outs (Builder.slot_output_index c) 0 (call_addresses c) = Ok addresses ->
    decode_next_method true map_context d = Ret (Ok (Some m), d') ->
    is_call map_context P outs c addresses m d' ->
    call_prepared m (external_args_buffer d') (output_buffer d') w = Ret (Err e, cells, out, w') ->
    executed P outs (c :: calls) d w (Err e) w'
| executed_called outs c calls d w addresses m d' cells out w' written r w'' :
    resolve_slots outs (Builder.slot_output_index c) 0 (call_addresses c) = Ok addresses ->
    decode_next_method true map_context d = Ret (Ok (Some m), d') ->
    is_call map_context P outs c addresses m d' ->
    call_prepared m (external_args_buffer d') (output_buffer d') w = Ret (Ok tt, cells, out, w') ->
    outputs_written c (with_buffers d' cells out) = Some written ->
    executed P (outs ++ written) calls (with_buffers d' cells out) w' r w'' ->
    executed P outs (c :: calls) d w r w''.

Lemma execute_loop_decodes P outs calls fuel d w :
  environment_ok P calls -> decodes true map_context P outs calls d -> length (payload d) < fuel ->
  exists r w', execute_loop call_prepared fuel d w = Ret (Some (r, w')) /\ executed P outs calls d w r w'.
Proof.
  revert outs fuel d w. induction calls as [|c calls IH]; intros outs fuel d w Henv Hd Hf;
    (destruct fuel as [|fuel]; [lia|]); cbn [execute_loop].
  { rewrite Hd. cbn [obind]. eexists _, _. split; [done|]. constructor. }
  cbn [decodes] in Hd. destruct (resolve_slots outs _ 0 (call_addresses c)) as [addresses|[k size]] eqn:Hs.
  2: { destruct (Hd eq_refl) as [d' Hdec]. rewrite Hdec. cbn [obind]. eexists _, _. split; [done|].
       by eapply executed_refused. }
  destruct Hd as (m & d' & Hdec & Hcall & Hafter). rewrite Hdec. cbn [obind].
  destruct (Henv outs c addresses m d' w ltac:(by left) Hcall) as (r & cells & out & w1 & Hc & Hr).
  rewrite Hc. cbn [obind]. destruct r as [[]|e].
  - apply decode_next_method_consumes in Hdec as Hlen. unfold MIN_METHOD_SIZE in Hlen.
    destruct (Hafter _ Hr) as (written & Hw & Hd').
    destruct (IH (outs ++ written) fuel (with_buffers d' cells out) w1) as (r & w2 & Hr' & He).
    { intros outs' c' addresses' m' d1 w' Hin. apply Henv. by right. }
    { done. }
    { cbn. lia. }
    exists r, w2. split; [done|]. by eapply executed_called.
  - eexists _, _. split; [done|]. by eapply executed_failed.
Qed.
End Executed.

(** C26. Executing a payload terminates: whatever its bytes are and whatever the methods
    called do, the loop ends within as many turns as the payload has bytes (a method
    takes at least 52 of them), and more fuel does not change the result. *)
Theorem execute_terminates {W} (call_prepared : prepared -> list cell -> list byte -> W ->
    outcome (result unit error * list cell * list byte * W)) env P out w fuel :
  length P < fuel ->
  execute call_prepared env P out w <> Ret None /\
  (eqb (caller env) (context env) = true ->
   execute_loop call_prepared fuel (new P out) w = execute call_prepared env P out w).
Proof.
  intros Hf. unfold execute. split.
  - destruct (negb _); [done|]. apply execute_loop_fuel. cbn. lia.
  - intros ->. cbn [negb]. replace fuel with (S (length P) + (fuel - S (length P))) by lia.
    apply execute_loop_more. cbn. lia.
Qed.

(** C22. The wallet, called by the owner of the context, executes a payload built from
    valid calls by making exactly these calls in order, with the context and the
    arguments they were built with, where what slots and inputs refer to is what the
    earlier call has written; it stops at the first call that fails, whose error it
    returns, or at one with a slot that refers to an output without the 16 bytes of an
    address, with [BadInput]; called by anyone else it makes no call.  Valid calls have
    their arguments in the order of the contract macro, refer to outputs of earlier calls
    only, and in slots to outputs aligned as addresses are; there are at most 16 outputs,
    which fit the output buffer with 16 bytes of padding each; the environment returns
    from the calls and writes nothing but their outputs, up to the capacity. *)
Theorem execute_runs_built_calls {W} (call_prepared : prepared -> list cell -> list byte -> W ->
    outcome (result unit error * list cell * list byte * W)) env calls p P out w :
  environment_ok call_prepared P calls ->
  Forall call_ok calls -> Builder.build [] calls = Ret (Ok tt, p) -> Builder.into_aligned_bytes p = Ret P ->
  references_earlier [] calls -> length (all_outputs calls) <= OUTPUT_BUFFER_OFFSETS_SIZE ->
  (outputs_size (all_outputs calls) <= N.of_nat (length out) < 2 ^ 32)%N ->
  exists r w', execute call_prepared env P out w = Ret (Some (r, w')) /\
    if decide (caller env = context env) then executed call_prepared P [] calls (new P out) w r w'
    else r = Err Forbidden /\ w' = w.
Proof.
  intros Henv Hok Hb HP Href Hn Hs. unfold execute, eqb. case_bool_decide as Hc; cbn [negb].
  - destruct (into_aligned_bytes_padding p P HP) as [Hp Hpad].
    destruct (execute_loop_decodes call_prepared P [] calls (S (length P)) (new P out) w Henv) as (r & w' & Hr & He).
    { change (new P out) with (goto P [] (new P out)).
      by apply (decodes_build true map_context P [] [] calls [] p); [..|apply new_is_ready| | |]. }
    { cbn. lia. }
    exists r, w'. split; [done|]. by rewrite decide_True.
  - exists (Err Forbidden), w. split; [done|]. by rewrite decide_False.
Qed.

(** ** Authorization *)

Section Authorization.
Context {S : SignatureScheme} {HS : SignatureSpec S}.

Lemma seal_of_bytes s rest :
  length (signature s) = 64 -> (seal_nonce s < 2 ^ 64)%N ->
  seal_of (take SEAL_SIZE (seal_bytes s ++ rest)) = s.
Proof.
  intros Hl Hn. unfold seal_bytes. rewrite take_app_length' by (rewrite length_app, length_le_split, Hl; done).
  unfold seal_of. rewrite take_app_length', drop_app_length' by done.
  rewrite le_value_split, N.mod_small by done. by destruct s.
Qed.

(** The seal in a buffer of its size *)
Definition sealed (s : Seal) : IoTypes.VariableBytes.t :=
  {| IoTypes.VariableBytes.bytes := seal_bytes s; IoTypes.VariableBytes.size := SEAL_SIZE;
     IoTypes.VariableBytes.capacity := SEAL_SIZE |}.

Lemma read_sealed s :
  length (signature s) = 64 -> (seal_nonce s < 2 ^ 64)%N ->
  exists bytes, IoTypes.VariableBytes.read_trivial_type (sealed s) SEAL_SIZE = Ret (Some bytes) /\ seal_of bytes = s.
Proof.
  intros Hl Hn. assert (Hlen : length (seal_bytes s) = SEAL_SIZE).
  { unfold seal_bytes. rewrite length_app, length_le_split, Hl. done. }
  exists (take SEAL_SIZE (seal_bytes s)). split.
  - unfold IoTypes.VariableBytes.read_trivial_type, IoTypes.read_bytes. cbn [sealed IoTypes.VariableBytes.size IoTypes.VariableBytes.bytes].
    rewrite decide_False, decide_True by lia. done.
  - rewrite <- (app_nil_r (seal_bytes s)). by apply seal_of_bytes.
Qed.

(** States of a wallet after transactions were executed or the key was changed *)
Inductive later : WalletState -> WalletState -> Prop :=
| later_start s : later s s
| later_nonce s s1 s2 : later s s1 -> increase_nonce s1 = Ok s2 -> later s s2
| later_key s s1 s2 key : later s s1 -> change_public_key s1 key = Ok s2 -> later s s2.

Lemma later_nonce_le s s' : later s s' -> (nonce s <= nonce s')%N.
Proof.
  induction 1 as [|s s1 s2 _ IH H|s s1 s2 key _ IH H]; [done| |].
  - unfold increase_nonce, checked_add_u64 in H. destruct (decide _); [|done]. injection H as <-. cbn. lia.
  - unfold change_public_key in H. destruct (public_key_valid key); [|done]. by injection H as <-.
Qed.
End Authorization.

(** C27. A transaction sealed by the owner of the wallet with its nonce is authorized, and
    once the nonce is increased its seal is refused for good, whatever transactions and
    changes of the key follow; a wallet whose nonce is used up authorizes nothing. *)
Theorem seal_authorizes_once {S : SignatureScheme} {HS : SignatureSpec S} k state header rs ws P :
  public_key state = keypair_public k -> (nonce state < 2 ^ 64)%N ->
  let seal := sealed (hash_and_sign k header rs ws P (nonce state)) in
  authorize state header rs ws P seal =
    Ret (if decide (nonce state = 2 ^ 64 - 1)%N then Err Forbidden else Ok tt) /\
  forall next state' header' rs' ws' P',
    increase_nonce state = Ok next -> later next state' -> public_key_valid (public_key state') = true ->
    exists e, authorize state' header' rs' ws' P' seal = Ret (Err e).
Proof.
  intros Hk Hn seal.
  destruct (read_sealed (hash_and_sign k header rs ws P (nonce state)) (keypair_sign_length _ _) Hn)
    as (bytes & Hread & Hseal).
  split.
  - unfold authorize. fold seal in Hread. rewrite Hread. cbn [obind]. unfold checked_add_u64.
    destruct (decide (nonce state = 2 ^ 64 - 1)%N) as [E|E].
    { rewrite decide_False by lia. done. }
    rewrite decide_True by lia. rewrite Hk, keypair_public_valid, Hseal. unfold hash_and_verify.
    cbn [hash_and_sign seal_nonce signature]. rewrite N.eqb_refl. cbn [negb].
    unfold sign. by rewrite keypair_sign_valid, keypair_sign_verify.
  - intros next state' header' rs' ws' P' Hinc Hl%later_nonce_le Hvalid.
    assert (Hlt : (nonce state < nonce state')%N).
    { unfold increase_nonce, checked_add_u64 in Hinc. destruct (decide _); [|done]. injection Hinc as <-.
      cbn in Hl. lia. }
    unfold authorize. fold seal in Hread. rewrite Hread. cbn [obind].
    destruct (checked_add_u64 _ _); [|by eexists]. rewrite Hvalid, Hseal. unfold hash_and_verify.
    cbn [hash_and_sign seal_nonce]. destruct (N.eqb_spec (nonce state) (nonce state')); [lia|]. by eexists.
Qed.

(** The seal does not tell read from write slots: it covers the concatenation of both
    lists, so that slots sealed for reading can be moved to the slots that may be
    written, and back. *)
Theorem seal_does_not_separate_slots {S : SignatureScheme} state header rs moved ws P seal :
  authorize state header (rs ++ moved) ws P seal = authorize state header rs (moved ++ ws) P seal.
Proof.
  assert (E : forall n, hash_transaction header (rs ++ moved) ws P n = hash_transaction header rs (moved ++ ws) P n).
  { intros n. unfold hash_transaction. by rewrite !fmap_app, !concat_app, <- !app_assoc. }
  unfold authorize. destruct (IoTypes.VariableBytes.read_trivial_type seal SEAL_SIZE) as [[bytes|]|]; try done.
  cbn [obind]. unfold hash_and_verify. by rewrite E.
Qed.

(** ** Examples *)

(** An environment that fills outputs with the zeros that are there and records the
    contracts called *)
Definition sample_call (m : prepared) (cells : list cell) (out : list byte) (w : list address)
    : outcome (result unit error * list cell * list byte * list address) :=
  Ret (Ok tt,
       (fun c => match c with SizeCapacity _ capacity => SizeCapacity capacity capacity | Pointer p => Pointer p end) <$> cells,
       out, w ++ [contract m]).

Lemma sample_call_ok P calls : environment_ok sample_call P calls.
Proof.
  intros outs c addresses m d w _ _. eexists _, _, _, _. split; [done|]. eexists _, _. split; [|done].
  induction (external_args_buffer d) as [|x cells IH]; constructor; [|done]. destruct x; cbn; [done|]. split; [done|lia].
Qed.

Definition sample_env : env_state :=
  {| shard_index := 5; own_address := SYSTEM_NATIVE_TOKEN; context := Addr 7 5; caller := Addr 7 5 |}.

Lemma execute_terminates_witness :
  execute sample_call sample_env [x00; x01] [] [] <> Ret None /\
  execute_loop sample_call 10 (new [x00; x01] []) [] = execute sample_call sample_env [x00; x01] [] [].
Proof.
  destruct (execute_terminates sample_call sample_env [x00; x01] [] [] 10 ltac:(cbn; lia)) as [H1 H2].
  split; [done|]. by apply H2.
Defined.

Lemma execute_runs_built_calls_witness :
  execute sample_call sample_env sample_payload (replicate 100 x00) [] =
    Ret (Some (Ok tt, [Addr 100 5; Addr 101 5; Addr 102 5])) /\
  exists r w', execute sample_call sample_env sample_payload (replicate 100 x00) [] = Ret (Some (r, w')) /\
    executed sample_call sample_payload [] sample_calls (new sample_payload (replicate 100 x00)) [] r w'.
Proof.
  split; [by vm_compute|].
  apply (execute_runs_built_calls sample_call sample_env sample_calls sample_built sample_payload (replicate 100 x00) []).
  - apply sample_call_ok.
  - apply sample_calls_ok.
  - by vm_compute.
  - by vm_compute.
  - apply sample_references.
  - cbn. unfold OUTPUT_BUFFER_OFFSETS_SIZE. lia.
  - vm_compute. done.
Defined.

(** A scheme whose keys are public: the signature repeats key and message. *)
Definition sample_sign (k m : list byte) : list byte := take 64 (k ++ m ++ replicate 64 x00).

#[local] Instance sample_scheme : SignatureScheme := {|
  Keypair := list byte;
  keypair_public k := k;
  public_key_valid _ := true;
  signature_valid _ := true;
  keypair_sign := sample_sign;
  signature_verify pk m s := bool_decide (s = sample_sign pk m);
  hasher l := l
|}.

#[local] Instance sample_scheme_spec : SignatureSpec sample_scheme.
Proof.
  constructor; try done.
  - intros k m. cbn. unfold sample_sign. rewrite length_take, !length_app, length_replicate. lia.
  - intros k m. cbn. by apply bool_decide_eq_true_2.
Qed.

Definition sample_header : TransactionHeader :=
  {| version := 0; block_root := replicate 32 x01; gas_limit := 100; header_contract := Addr 7 5 |}.

Definition sample_state : WalletState := {| public_key := replicate 32 x05; nonce := 3 |}.

Lemma seal_authorizes_once_witness :
  let seal := sealed (hash_and_sign (S := sample_scheme) (replicate 32 x05) sample_header [] [] sample_payload 3) in
  authorize sample_state sample_header [] [] sample_payload seal = Ret (Ok tt) /\
  exists e, authorize {| public_key := replicate 32 x05; nonce := 4 |} sample_header [] [] sample_payload seal =
    Ret (Err e).
Proof.
  destruct (seal_authorizes_once (S := sample_scheme) (replicate 32 x05) sample_state sample_header [] []
    sample_payload eq_refl ltac:(done)) as [H1 H2].
  split; [exact H1|]. by apply (H2 _ _ sample_header [] [] sample_payload eq_refl (later_start _)).
Defined.

End SimpleWallet.
