(* ===== verification/TransactionPool.v ===== *)
(** * The transaction pool

    Model of [crates/execution/ab-transaction-pool/src/lib.rs].  Hash maps and sets are
    finite maps and sets; [HashMap::retain] and the loops over sets visit the elements
    in the order [map_to_list] and [elements] list them in, and
    [add_best_block_spec] gives the result in a form that does not depend on the order.
    Transaction hashes and block roots are any countable types.  Sizes are [usize] and
    block numbers [u64]; a subtraction below zero is [Fault].  The invariant [inv_any] holds
    whatever blocks are added, [inv] as long as no root is added twice ([admissible]). *)

From S2P Require Import Prelude.
From stdpp Require Import prelude gmap.
From Stdlib Require Import NArith Lia.

Module TransactionPool.

Section Pool.
Context {TransactionHash : Type} `{Countable TransactionHash}.
Context {BlockRoot : Type} `{Countable BlockRoot}.
Local Open Scope N_scope.

(** What the pool uses of [OwnedTransaction]: [tx.transaction().header.block_root] and
    [tx.buffer()]. *)
Record OwnedTransaction : Type := {
  header_block_root : BlockRoot;
  buffer : list Byte.byte
}.

Definition tx_size (tx : OwnedTransaction) : N := N.of_nat (length (buffer tx)).

Record TransactionAuthorizedDetails : Type := {
  block_number : N;
  block_root : BlockRoot
}.

(** [at] is the deque, front first. *)
Inductive TransactionState : Type :=
| New
| Authorized (at_ : list TransactionAuthorizedDetails).

Record PoolTransaction : Type := {
  tx : OwnedTransaction;
  state : TransactionState
}.

Inductive TransactionAddError : Type :=
| AlreadyExists
| BlockNotFound
| TooManyTransactions
| TotalSizeTooLarge.

Record pool : Type := {
  transactions : gmap TransactionHash PoolTransaction;
  total_size : N;
  by_block_root : gmap BlockRoot (gset TransactionHash);
  by_block_number : gmap N BlockRoot;
  pruning_depth : N;
  authorization_history_depth : nat;
  limits_count : N;
  limits_size : N
}.

Definition new (depth : N) (history : nat) (count size : N) : pool :=
  {| transactions := ∅; total_size := 0; by_block_root := ∅; by_block_number := ∅;
     pruning_depth := depth; authorization_history_depth := history; limits_count := count;
     limits_size := size |}.

(** The pool with other contents. *)
Definition with_contents (p : pool) (txs : gmap TransactionHash PoolTransaction) (size : N)
    (by_root : gmap BlockRoot (gset TransactionHash)) (by_number : gmap N BlockRoot) : pool :=
  {| transactions := txs; total_size := size; by_block_root := by_root;
     by_block_number := by_number; pruning_depth := pruning_depth p;
     authorization_history_depth := authorization_history_depth p; limits_count := limits_count p;
     limits_size := limits_size p |}.

(** Subtraction on [usize] that panics below zero. *)
Definition sub_usize (a b : N) : outcome N := if decide (b <= a) then Ret (a - b) else Fault.

Definition contains (p : pool) (h : TransactionHash) : bool :=
  bool_decide (is_Some (transactions p !! h)).

Definition add (p : pool) (h : TransactionHash) (t : OwnedTransaction)
    : outcome (result pool TransactionAddError) :=
  if contains p h then Ret (Err AlreadyExists)
  else
    match by_block_root p !! header_block_root t with
    | None => Ret (Err BlockNotFound)
    | Some block_txs =>
        if decide (N.of_nat (size (transactions p)) = limits_count p) then
          Ret (Err TooManyTransactions)
        else
          let! left_size := sub_usize (limits_size p) (total_size p) in
          if decide (left_size < tx_size t) then Ret (Err TotalSizeTooLarge)
          else
            Ret (Ok (with_contents p
              (<[h := {| tx := t; state := New |}]> (transactions p))
              (total_size p + tx_size t)
              (<[header_block_root t := {[h]} ∪ block_txs]> (by_block_root p))
              (by_block_number p)))
    end.

(** [pop_back] when the deque is full, then [push_front]. *)
Definition authorize (p : pool) (details : TransactionAuthorizedDetails) (s : TransactionState)
    : TransactionState :=
  match s with
  | New => Authorized [details]
  | Authorized at_ =>
      let at_ :=
        if decide (length at_ = authorization_history_depth p) then removelast at_ else at_ in
      Authorized (details :: at_)
  end.

Definition mark_authorized (p : pool) (h : TransactionHash) (number : N) (root : BlockRoot)
    : pool * bool :=
  match transactions p !! h with
  | None => (p, false)
  | Some t =>
      let details := {| block_number := number; block_root := root |} in
      (with_contents p
         (<[h := {| tx := tx t; state := authorize p details (state t) |}]> (transactions p))
         (total_size p) (by_block_root p) (by_block_number p), true)
  end.

(** [transactions.remove], with [total_size] reduced when the transaction was there. *)
Definition remove_tx (txs : gmap TransactionHash PoolTransaction) (size : N) (h : TransactionHash)
    : outcome (gmap TransactionHash PoolTransaction * N) :=
  match txs !! h with
  | None => Ret (txs, size)
  | Some t => let! size := sub_usize size (tx_size (tx t)) in Ret (delete h txs, size)
  end.

Definition remove_single_tx (p : pool) (h : TransactionHash) : outcome pool :=
  match transactions p !! h with
  | None => Ret p
  | Some t =>
      let! (txs, size) := remove_tx (transactions p) (total_size p) h in
      let root := header_block_root (tx t) in
      let by_root :=
        match by_block_root p !! root with
        | None => by_block_root p
        | Some set =>
            let set := set ∖ {[h]} in
            if decide (set = ∅) then delete root (by_block_root p)
            else <[root := set]> (by_block_root p)
        end in
      Ret (with_contents p txs size by_root (by_block_number p))
  end.

Fixpoint remove (p : pool) (hs : list TransactionHash) : outcome pool :=
  match hs with
  | [] => Ret p
  | h :: hs => let! p := remove_single_tx p h in remove p hs
  end.

Fixpoint remove_txs (txs : gmap TransactionHash PoolTransaction) (size : N)
    (hs : list TransactionHash) : outcome (gmap TransactionHash PoolTransaction * N) :=
  match hs with
  | [] => Ret (txs, size)
  | h :: hs => let! (txs, size) := remove_tx txs size h in remove_txs txs size hs
  end.

(** The closure of [retain] on the blocks, in order; the entries it rejects are dropped
    from [by_block_number] by the caller. *)
Fixpoint retain (allowed : N -> bool) (blocks : list (N * BlockRoot))
    (txs : gmap TransactionHash PoolTransaction) (size : N)
    (by_root : gmap BlockRoot (gset TransactionHash))
    : outcome (gmap TransactionHash PoolTransaction * N * gmap BlockRoot (gset TransactionHash)) :=
  match blocks with
  | [] => Ret (txs, size, by_root)
  | (n, r) :: blocks =>
      if allowed n then retain allowed blocks txs size by_root
      else
        match by_root !! r with
        | None => retain allowed blocks txs size by_root
        | Some hs =>
            let! (txs, size) := remove_txs txs size (elements hs) in
            retain allowed blocks txs size (delete r by_root)
        end
  end.

(** The [while at.pop_front_if(..).is_some()] loop. *)
Fixpoint pop_front_while (number : N) (at_ : list TransactionAuthorizedDetails)
    : list TransactionAuthorizedDetails :=
  match at_ with
  | [] => []
  | d :: at' => if decide (number <= block_number d) then pop_front_while number at' else at_
  end.

Definition unauthorize (number : N) (t : PoolTransaction) : PoolTransaction :=
  match state t with
  | New => t
  | Authorized at_ => {| tx := tx t; state := Authorized (pop_front_while number at_) |}
  end.

Definition allowed_block (p : pool) (number n : N) : bool :=
  bool_decide (number - pruning_depth p <= n /\ n < number).

Definition add_best_block (p : pool) (number : N) (root : BlockRoot) : outcome pool :=
  let allowed := allowed_block p number in
  let! (txs, size, by_root) :=
    retain allowed (map_to_list (by_block_number p)) (transactions p) (total_size p)
      (by_block_root p) in
  let by_number := filter (fun '(n, _) => allowed n = true) (by_block_number p) in
  let txs := unauthorize number <$> txs in
  Ret (with_contents p txs size (<[root := ∅]> by_root) (<[number := root]> by_number)).

(** ** Sizes *)

Definition pool_size (txs : gmap TransactionHash PoolTransaction) : N :=
  map_fold (fun _ t acc => tx_size (tx t) + acc) 0 txs.

Lemma pool_size_empty : pool_size ∅ = 0.
Proof. apply map_fold_empty. Qed.

Lemma pool_size_insert h t txs :
  txs !! h = None -> pool_size (<[h := t]> txs) = tx_size (tx t) + pool_size txs.
Proof. intros Hh. unfold pool_size. rewrite map_fold_insert_L; [done|intros; lia|done]. Qed.

Lemma pool_size_delete h t txs :
  txs !! h = Some t -> pool_size txs = tx_size (tx t) + pool_size (delete h txs).
Proof.
  intros Hh. rewrite <- (pool_size_insert h) by apply lookup_delete_eq.
  by rewrite insert_delete_id.
Qed.

Lemma pool_size_fmap (f : PoolTransaction -> PoolTransaction) txs :
  (forall t, tx (f t) = tx t) -> pool_size (f <$> txs) = pool_size txs.
Proof.
  intros Hf. induction txs as [|h t txs Hh IH] using map_ind.
  - by rewrite fmap_empty.
  - rewrite fmap_insert, !pool_size_insert, IH, Hf by (done || by rewrite lookup_fmap, Hh). done.
Qed.

Lemma pool_size_update h t t' txs :
  txs !! h = Some t -> tx t' = tx t -> pool_size (<[h := t']> txs) = pool_size txs.
Proof.
  intros Hh Ht. rewrite <- insert_delete_eq, pool_size_insert by apply lookup_delete_eq.
  by rewrite Ht, <- (pool_size_delete h t txs).
Qed.

Lemma remove_tx_spec txs h :
  remove_tx txs (pool_size txs) h = Ret (delete h txs, pool_size (delete h txs)).
Proof.
  unfold remove_tx. destruct (txs !! h) as [t|] eqn:E; [|by rewrite delete_id].
  rewrite (pool_size_delete h t txs E). unfold sub_usize. rewrite decide_True by lia. cbn [obind].
  do 2 f_equal. lia.
Qed.

Lemma filter_delete_cons {K A} `{Countable K} (h : K) hs (txs : gmap K A) :
  filter (fun '(h', _) => h' ∉ hs) (delete h txs) = filter (fun '(h', _) => h' ∉ h :: hs) txs.
Proof.
  apply map_eq. intros h'. apply option_eq. intros t.
  rewrite !map_lookup_filter_Some, lookup_delete_Some, not_elem_of_cons.
  split; [intros ([? ?] & ?)|intros (? & [? ?])]; auto.
Qed.

Lemma remove_txs_spec hs txs :
  let txs' := filter (fun '(h, _) => h ∉ hs) txs in
  remove_txs txs (pool_size txs) hs = Ret (txs', pool_size txs').
Proof.
  cbv zeta. revert txs. induction hs as [|h hs IH]; intros txs; cbn [remove_txs].
  - rewrite map_filter_id; [done|]. intros h t _. apply not_elem_of_nil.
  - rewrite remove_tx_spec. cbn [obind]. by rewrite IH, filter_delete_cons.
Qed.

(** ** The invariant *)

(** The two indices agree: the sets of [by_block_root] list the transactions of each
    root, all of them. *)
Record indexed (txs : gmap TransactionHash PoolTransaction)
    (by_root : gmap BlockRoot (gset TransactionHash)) : Prop := {
  ix_sound : forall r hs h, by_root !! r = Some hs -> h ∈ hs ->
    exists t, txs !! h = Some t /\ header_block_root (tx t) = r;
  ix_complete : forall h t, txs !! h = Some t ->
    exists hs, by_root !! header_block_root (tx t) = Some hs /\ h ∈ hs
}.

Definition history_ok (depth : nat) (t : PoolTransaction) : Prop :=
  match state t with New => True | Authorized at_ => (length at_ <= depth)%nat end.

Record inv (p : pool) : Prop := {
  inv_size : total_size p = pool_size (transactions p);
  inv_size_limit : total_size p <= limits_size p;
  inv_count_limit : N.of_nat (size (transactions p)) <= limits_count p;
  inv_index : indexed (transactions p) (by_block_root p);
  inv_roots : forall r, is_Some (by_block_root p !! r) -> exists n, by_block_number p !! n = Some r;
  inv_range : forall n m r r', by_block_number p !! n = Some r -> by_block_number p !! m = Some r' ->
    n <= m + pruning_depth p;
  inv_unique : forall n m r, by_block_number p !! n = Some r -> by_block_number p !! m = Some r -> n = m;
  inv_depth : (0 < authorization_history_depth p)%nat;
  inv_history : forall h t, transactions p !! h = Some t -> history_ok (authorization_history_depth p) t
}.

Lemma new_inv depth history count limit : (0 < history)%nat -> inv (new depth history count limit).
Proof.
  intros Hh. constructor; cbn; try done; try lia; try (intros; by rewrite ?lookup_empty in *).
  rewrite map_size_empty. lia.
Qed.

(** ** Operations *)

Lemma add_spec p h t :
  inv p ->
  add p h t =
    if contains p h then Ret (Err AlreadyExists)
    else
      match by_block_root p !! header_block_root t with
      | None => Ret (Err BlockNotFound)
      | Some block_txs =>
          if decide (N.of_nat (size (transactions p)) = limits_count p) then
            Ret (Err TooManyTransactions)
          else if decide (total_size p + tx_size t <= limits_size p) then
            Ret (Ok (with_contents p (<[h := {| tx := t; state := New |}]> (transactions p))
              (total_size p + tx_size t)
              (<[header_block_root t := {[h]} ∪ block_txs]> (by_block_root p)) (by_block_number p)))
          else Ret (Err TotalSizeTooLarge)
      end.
Proof.
  intros Hp. unfold add. destruct (contains p h); [done|].
  destruct (by_block_root p !! header_block_root t); [|done].
  destruct (decide _) as [|Hc]; [done|].
  unfold sub_usize. pose proof (inv_size_limit p Hp). rewrite decide_True by done. cbn [obind].
  destruct (decide (limits_size p - total_size p < tx_size t)).
  - by rewrite decide_False by lia.
  - by rewrite decide_True by lia.
Qed.

Lemma add_inv p h t p' : inv p -> add p h t = Ret (Ok p') -> inv p'.
Proof.
  intros Hp. rewrite add_spec by done. unfold contains. case_bool_decide as Hh; [done|].
  apply eq_None_not_Some in Hh.
  destruct (by_block_root p !! header_block_root t) as [hs|] eqn:Hr; [|done].
  destruct (decide _) as [|Hc]; [done|]. destruct (decide _) as [Hs|]; [|done].
  intros [= <-]. destruct (inv_index p Hp) as [Hsound Hcomplete]. constructor; cbn.
  - rewrite pool_size_insert, <- (inv_size p Hp) by done. cbn. lia.
  - done.
  - rewrite map_size_insert_None by done. pose proof (inv_count_limit p Hp). lia.
  - constructor.
    + intros r hs' h'. rewrite lookup_insert_Some. intros [[<- <-]|[Hne Hb]] Hin.
      * apply elem_of_union in Hin as [->%elem_of_singleton|Hin].
        { eexists. split; [apply lookup_insert_eq|done]. }
        destruct (Hsound _ _ _ Hr Hin) as (t' & Ht' & Hrt). exists t'.
        rewrite lookup_insert_ne by congruence. done.
      * destruct (Hsound _ _ _ Hb Hin) as (t' & Ht' & Hrt). exists t'.
        rewrite lookup_insert_ne by congruence. done.
    + intros h' t'. rewrite lookup_insert_Some. intros [[<- <-]|[Hne Ht']]; cbn.
      { eexists. split; [apply lookup_insert_eq|set_solver]. }
      destruct (Hcomplete _ _ Ht') as (hs' & Hb & Hin).
      destruct (decide (header_block_root t = header_block_root (tx t'))) as [E|E].
      * rewrite <- E in *. eexists. split; [apply lookup_insert_eq|]. simplify_eq. set_solver.
      * exists hs'. by rewrite lookup_insert_ne.
  - intros r. rewrite lookup_insert_is_Some. intros [<-|[_ Hb]].
    + apply (inv_roots p Hp). by rewrite Hr.
    + by apply (inv_roots p Hp).
  - apply (inv_range p Hp).
  - apply (inv_unique p Hp).
  - apply (inv_depth p Hp).
  - intros h' t'. rewrite lookup_insert_Some. intros [[_ <-]|[_ Ht']]; [done|].
    by apply (inv_history p Hp h').
Qed.

Lemma authorize_history p d s :
  (0 < authorization_history_depth p)%nat ->
  match s with New => True | Authorized at_ => (length at_ <= authorization_history_depth p)%nat end ->
  match authorize p d s with
  | New => False
  | Authorized at_ => (length at_ <= authorization_history_depth p)%nat
  end.
Proof.
  intros Hd Hs. destruct s as [|at_]; cbn; [done|]. destruct (decide _) as [E|E]; [|lia].
  rewrite removelast_firstn_len, length_take. lia.
Qed.

(** An update of the state of a transaction. *)
Lemma with_state_inv p h t t' :
  inv p -> transactions p !! h = Some t -> tx t' = tx t ->
  history_ok (authorization_history_depth p) t' ->
  inv (with_contents p (<[h := t']> (transactions p)) (total_size p) (by_block_root p)
         (by_block_number p)).
Proof.
  intros Hp Ht Et Hh. destruct (inv_index p Hp) as [Hsound Hcomplete]. constructor; cbn.
  - by rewrite (pool_size_update h t), (inv_size p Hp).
  - apply (inv_size_limit p Hp).
  - rewrite map_size_insert_Some by done. apply (inv_count_limit p Hp).
  - constructor.
    + intros r hs h' Hb Hin. destruct (Hsound _ _ _ Hb Hin) as (t0 & Ht0 & E0).
      destruct (decide (h = h')) as [<-|Hne].
      * exists t'. rewrite lookup_insert_eq. split; [done|]. by simplify_eq; rewrite Et.
      * exists t0. by rewrite lookup_insert_ne.
    + intros h' t0. rewrite lookup_insert_Some. intros [[<- <-]|[_ Ht0]]; [rewrite Et|]; eauto.
  - apply (inv_roots p Hp).
  - apply (inv_range p Hp).
  - apply (inv_unique p Hp).
  - apply (inv_depth p Hp).
  - intros h' t0. rewrite lookup_insert_Some. intros [[_ <-]|[_ Ht0]]; [done|].
    by apply (inv_history p Hp h').
Qed.

Lemma mark_authorized_inv p h n r : inv p -> inv (mark_authorized p h n r).1.
Proof.
  intros Hp. unfold mark_authorized. destruct (transactions p !! h) as [t|] eqn:Ht; [|done].
  cbn [fst]. apply (with_state_inv p h t); [done..|].
  pose proof (authorize_history p {| block_number := n; block_root := r |} (state t)
    (inv_depth p Hp) (inv_history p Hp h t Ht)) as Hh.
  unfold history_ok. cbn [state]. by destruct (authorize _ _ _).
Qed.

(** *** Removal *)

Lemma indexed_remove txs br h t hs by_root :
  let r := header_block_root (tx t) in
  indexed txs br -> txs !! h = Some t -> br !! r = Some hs ->
  (by_root = delete r br /\ hs ∖ {[h]} = ∅) \/ by_root = <[r := hs ∖ {[h]}]> br ->
  indexed (delete h txs) by_root.
Proof.
  intros r [Hsound Hcomplete] Ht Hr Hby. constructor.
  - intros r' hs' m Hb Hm.
    assert (Hbr : br !! r' = Some hs' /\ r' <> r \/ r' = r /\ hs' = hs ∖ {[h]}).
    { destruct Hby as [[-> _]| ->];
        [apply lookup_delete_Some in Hb as [? ?]|apply lookup_insert_Some in Hb as [[? ?]|[? ?]]];
        auto. }
    destruct Hbr as [[Hb' Hne]|[-> ->]].
    + destruct (Hsound _ _ _ Hb' Hm) as (t' & Ht' & E). exists t'.
      rewrite lookup_delete_ne by (intros ->; simplify_eq). done.
    + apply elem_of_difference in Hm as [Hm Hmh]. rewrite not_elem_of_singleton in Hmh.
      destruct (Hsound _ _ _ Hr Hm) as (t' & Ht' & E). exists t'. by rewrite lookup_delete_ne.
  - intros m t' [Hne Ht']%lookup_delete_Some. destruct (Hcomplete _ _ Ht') as (hs' & Hb & Hm).
    destruct (decide (header_block_root (tx t') = r)) as [E|E].
    + rewrite E in *. simplify_eq. destruct Hby as [[_ Hemp]| ->]; [set_solver|].
      eexists. split; [apply lookup_insert_eq|set_solver].
    + exists hs'. destruct Hby as [[-> _]| ->]; [by rewrite lookup_delete_ne|by rewrite lookup_insert_ne].
Qed.

Lemma remove_single_tx_spec p h :
  inv p ->
  exists by_root,
    remove_single_tx p h =
      Ret (with_contents p (delete h (transactions p)) (pool_size (delete h (transactions p))) by_root
             (by_block_number p)) /\
    indexed (delete h (transactions p)) by_root /\
    (forall r, is_Some (by_root !! r) -> is_Some (by_block_root p !! r)).
Proof.
  intros Hp. unfold remove_single_tx. destruct (transactions p !! h) as [t|] eqn:Ht.
  2: { exists (by_block_root p). rewrite delete_id, <- (inv_size p Hp) by done.
       split_and!; [by destruct p|apply (inv_index p Hp)|done]. }
  rewrite (inv_size p Hp), remove_tx_spec. cbn [obind].
  destruct (ix_complete _ _ (inv_index p Hp) h t Ht) as (hs & Hr & Hin). rewrite Hr.
  eexists. split; [done|]. split.
  - apply (indexed_remove _ _ h t hs _ (inv_index p Hp) Ht Hr). destruct (decide _); auto.
  - intros r. destruct (decide _).
    + by rewrite lookup_delete_is_Some; intros [_ ?].
    + rewrite lookup_insert_is_Some. intros [<-|[_ ?]]; [by rewrite Hr|done].
Qed.

Lemma pool_size_delete_le h txs : pool_size (delete h txs) <= pool_size txs.
Proof.
  destruct (txs !! h) as [t|] eqn:E; [rewrite (pool_size_delete h t txs E); lia|].
  by rewrite delete_id.
Qed.

Lemma remove_single_tx_inv p h :
  inv p -> exists p', remove_single_tx p h = Ret p' /\ inv p' /\
    transactions p' = delete h (transactions p).
Proof.
  intros Hp. destruct (remove_single_tx_spec p h Hp) as (by_root & -> & Hix & Hroots).
  eexists. split; [done|]. split; [|done]. constructor; cbn.
  - done.
  - pose proof (inv_size_limit p Hp). pose proof (inv_size p Hp).
    pose proof (pool_size_delete_le h (transactions p)). lia.
  - pose proof (inv_count_limit p Hp). pose proof (map_size_delete h (transactions p)).
    destruct (transactions p !! h); cbn in *; lia.
  - done.
  - intros r Hr. by apply (inv_roots p Hp), Hroots.
  - apply (inv_range p Hp).
  - apply (inv_unique p Hp).
  - apply (inv_depth p Hp).
  - intros h' t [_ Ht]%lookup_delete_Some. by apply (inv_history p Hp h').
Qed.

Lemma remove_inv hs p :
  inv p -> exists p', remove p hs = Ret p' /\ inv p' /\
    transactions p' = filter (fun '(h, _) => h ∉ hs) (transactions p).
Proof.
  revert p. induction hs as [|h hs IH]; intros p Hp; cbn [remove].
  - exists p. split_and!; [done..|]. symmetry. apply map_filter_id. intros ? ? _. apply not_elem_of_nil.
  - destruct (remove_single_tx_inv p h Hp) as (p1 & -> & Hp1 & E1). cbn [obind].
    destruct (IH p1 Hp1) as (p2 & -> & Hp2 & E2). exists p2. split_and!; [done..|].
    rewrite E2, E1. apply filter_delete_cons.
Qed.

(** *** New blocks *)

(** The transactions whose root is not among [rs]. *)
Definition without_roots (rs : list BlockRoot) (txs : gmap TransactionHash PoolTransaction)
    : gmap TransactionHash PoolTransaction :=
  filter (fun '(_, t) => header_block_root (tx t) ∉ rs) txs.

Lemma without_roots_Some rs txs h t :
  without_roots rs txs !! h = Some t <-> txs !! h = Some t /\ header_block_root (tx t) ∉ rs.
Proof. apply map_lookup_filter_Some. Qed.

Lemma indexed_hashes txs br r :
  indexed txs br ->
  without_roots [r] txs =
    match br !! r with
    | Some hs => filter (fun '(h, _) => h ∉ elements hs) txs
    | None => txs
    end.
Proof.
  intros [Hsound Hcomplete]. apply map_eq. intros h. apply option_eq. intros t.
  rewrite without_roots_Some, list_elem_of_singleton.
  destruct (br !! r) as [hs|] eqn:Hr.
  - rewrite map_lookup_filter_Some, elem_of_elements. split; intros [Ht Hn]; (split; [done|]).
    + intros Hin. destruct (Hsound _ _ _ Hr Hin) as (t' & Ht' & E). simplify_eq.
    + intros E. destruct (Hcomplete _ _ Ht) as (hs' & Hb & Hin). rewrite E in Hb. by simplify_eq.
  - split; [by intros [? ?]|]. intros Ht. split; [done|]. intros E.
    destruct (Hcomplete _ _ Ht) as (hs' & Hb & Hin). rewrite E in Hb. by simplify_eq.
Qed.

Lemma indexed_without txs br r : indexed txs br -> indexed (without_roots [r] txs) (delete r br).
Proof.
  intros [Hsound Hcomplete]. constructor.
  - intros r' hs h [Hne Hb]%lookup_delete_Some Hin. destruct (Hsound _ _ _ Hb Hin) as (t & Ht & E).
    exists t. rewrite without_roots_Some, list_elem_of_singleton. split; [|done]. split; [done|]. congruence.
  - intros h t. rewrite without_roots_Some, list_elem_of_singleton. intros [Ht Hne].
    destruct (Hcomplete _ _ Ht) as (hs & Hb & Hin). exists hs. by rewrite lookup_delete_ne.
Qed.

Fixpoint dropped_roots (allowed : N -> bool) (blocks : list (N * BlockRoot)) : list BlockRoot :=
  match blocks with
  | [] => []
  | (n, r) :: blocks =>
      if allowed n then dropped_roots allowed blocks else r :: dropped_roots allowed blocks
  end.

Lemma without_roots_cons r rs txs : without_roots rs (without_roots [r] txs) = without_roots (r :: rs) txs.
Proof.
  apply map_eq. intros h. apply option_eq. intros t.
  rewrite !without_roots_Some, !not_elem_of_cons. pose proof (not_elem_of_nil (header_block_root (tx t))).
  tauto.
Qed.

Lemma retain_spec allowed blocks txs br :
  indexed txs br ->
  let rs := dropped_roots allowed blocks in
  let txs' := without_roots rs txs in
  let br' := filter (fun '(r, _) => r ∉ rs) br in
  retain allowed blocks txs (pool_size txs) br = Ret (txs', pool_size txs', br') /\ indexed txs' br'.
Proof.
  cbv zeta. revert txs br. induction blocks as [|[n r] blocks IH]; intros txs br Hix;
    cbn [retain dropped_roots].
  - unfold without_roots. rewrite !map_filter_id by (intros; apply not_elem_of_nil). done.
  - destruct (allowed n); [by apply IH|].
    pose proof (indexed_hashes txs br r Hix) as Hh. pose proof (indexed_without txs br r Hix) as Hix'.
    specialize (IH _ _ Hix'). rewrite without_roots_cons, filter_delete_cons in IH.
    destruct (br !! r) as [hs|] eqn:Hr.
    + rewrite remove_txs_spec, <- Hh. cbn [obind]. exact IH.
    + rewrite Hh in IH. rewrite delete_id in IH by done. exact IH.
Qed.

Lemma elem_of_dropped_roots allowed m r :
  r ∈ dropped_roots allowed (map_to_list m) <-> exists n, m !! n = Some r /\ allowed n = false.
Proof.
  setoid_rewrite <- elem_of_map_to_list. induction (map_to_list m) as [|[n r'] l IH]; cbn.
  - split; [by intros ?%not_elem_of_nil|]. by intros (n & ?%not_elem_of_nil & _).
  - setoid_rewrite elem_of_cons. destruct (allowed n) eqn:E.
    + rewrite IH. split; [intros (k & ? & ?); eauto|]. intros (k & [[= -> ->]|?] & ?); [congruence|eauto].
    + rewrite elem_of_cons, IH. split.
      * intros [->|(k & ? & ?)]; eauto.
      * intros (k & [[= -> ->]|?] & ?); eauto.
Qed.

(** The root of the new block is not that of a block that stays. *)
Definition fresh_root (p : pool) (number : N) (root : BlockRoot) : Prop :=
  forall n, allowed_block p number n = true -> by_block_number p !! n <> Some root.

(** A transaction stays exactly when its block does. *)
Lemma stays_iff p number h t :
  inv p -> transactions p !! h = Some t ->
  header_block_root (tx t) ∉ dropped_roots (allowed_block p number) (map_to_list (by_block_number p)) <->
  exists n, by_block_number p !! n = Some (header_block_root (tx t)) /\ allowed_block p number n = true.
Proof.
  intros Hp Ht. rewrite elem_of_dropped_roots. split.
  - intros Hn. destruct (ix_complete _ _ (inv_index p Hp) h t Ht) as (hs & Hb & _).
    destruct (inv_roots p Hp (header_block_root (tx t))) as (n & Hbn); [by rewrite Hb|].
    exists n. split; [done|]. destruct (allowed_block p number n) eqn:E; [done|]. exfalso. eauto.
  - intros (n & Hbn & Ha) (n' & Hbn' & Ha'). pose proof (inv_unique p Hp _ _ _ Hbn Hbn'). congruence.
Qed.

Lemma tx_unauthorize n t : tx (unauthorize n t) = tx t.
Proof. unfold unauthorize. by destruct (state t). Qed.

Lemma pop_front_while_length n at_ : (length (pop_front_while n at_) <= length at_)%nat.
Proof. induction at_ as [|d at_ IH]; cbn; [lia|]. destruct (decide _); cbn; lia. Qed.

Lemma unauthorize_history depth n t : history_ok depth t -> history_ok depth (unauthorize n t).
Proof.
  unfold history_ok, unauthorize. destruct (state t) as [|at_] eqn:E; [by rewrite E|]. cbn.
  pose proof (pop_front_while_length n at_). lia.
Qed.

Lemma pool_size_subseteq txs txs' : txs ⊆ txs' -> pool_size txs <= pool_size txs'.
Proof.
  revert txs. induction txs' as [|h t txs' Hh IH] using map_ind; intros txs Hs.
  - by rewrite (anti_symm (⊆) txs ∅ Hs (map_empty_subseteq txs)).
  - rewrite pool_size_insert by done. destruct (txs !! h) as [t'|] eqn:E.
    + pose proof (lookup_weaken _ _ _ _ E Hs) as Ht. rewrite lookup_insert_eq in Ht. simplify_eq.
      rewrite (pool_size_delete h t' txs E). specialize (IH (delete h txs)).
      assert (delete h txs ⊆ txs').
      { rewrite <- (delete_insert_id txs' h t' Hh). by apply delete_mono. }
      specialize (IH ltac:(done)). lia.
    + specialize (IH txs). assert (txs ⊆ txs').
      { rewrite <- (delete_id txs h E), <- (delete_insert_id txs' h t Hh). by apply delete_mono. }
      specialize (IH ltac:(done)). lia.
Qed.

Lemma add_best_block_spec p number root :
  inv p ->
  let rs := dropped_roots (allowed_block p number) (map_to_list (by_block_number p)) in
  let txs := without_roots rs (transactions p) in
  let br := filter (fun '(r, _) => r ∉ rs) (by_block_root p) in
  add_best_block p number root =
    Ret (with_contents p (unauthorize number <$> txs) (pool_size txs) (<[root := ∅]> br)
      (<[number := root]> (filter (fun '(n, _) => allowed_block p number n = true) (by_block_number p)))) /\
  indexed txs br.
Proof.
  intros Hp. cbv zeta. unfold add_best_block. rewrite (inv_size p Hp).
  destruct (retain_spec (allowed_block p number) (map_to_list (by_block_number p))
    (transactions p) (by_block_root p) (inv_index p Hp)) as [-> Hix]. done.
Qed.

Lemma allowed_block_iff p number n :
  allowed_block p number n = true <-> number - pruning_depth p <= n /\ n < number.
Proof. unfold allowed_block. apply bool_decide_eq_true. Qed.

(** The blocks after [add_best_block]. *)
Lemma new_blocks_Some p number root n r :
  <[number := root]> (filter (fun '(n, _) => allowed_block p number n = true) (by_block_number p)) !! n =
    Some r <->
  (n = number /\ r = root) \/ (by_block_number p !! n = Some r /\ allowed_block p number n = true).
Proof.
  rewrite lookup_insert_Some, map_lookup_filter_Some. split.
  - intros [[<- <-]|[_ ?]]; auto.
  - intros [[-> ->]|[Hb Ha]]; [by left|]. right. split; [|done].
    apply allowed_block_iff in Ha. lia.
Qed.

Lemma indexed_new_block p number root txs br :
  inv p -> fresh_root p number root -> txs ⊆ transactions p -> indexed txs br ->
  (forall r, is_Some (br !! r) ->
    exists n, by_block_number p !! n = Some r /\ allowed_block p number n = true) ->
  indexed (unauthorize number <$> txs) (<[root := ∅]> br).
Proof.
  intros Hp Hfresh Hsub [Hsound Hcomplete] Hbr. constructor.
  - intros r hs h. rewrite lookup_insert_Some. intros [[_ <-]|[Hne Hb]] Hin; [set_solver|].
    destruct (Hsound _ _ _ Hb Hin) as (t & Ht & E). exists (unauthorize number t).
    rewrite lookup_fmap, Ht, tx_unauthorize. done.
  - intros h t'. rewrite lookup_fmap_Some. intros (t & <- & Ht). rewrite tx_unauthorize.
    destruct (Hcomplete _ _ Ht) as (hs & Hb & Hin). exists hs. split; [|done].
    rewrite lookup_insert_ne; [done|]. intros E. rewrite <- E in Hb.
    destruct (Hbr root) as (n & Hn & Ha); [by rewrite Hb|]. by apply (Hfresh n).
Qed.

Lemma add_best_block_inv p number root :
  inv p -> fresh_root p number root -> exists p', add_best_block p number root = Ret p' /\ inv p'.
Proof.
  intros Hp Hfresh. destruct (add_best_block_spec p number root Hp) as [-> Hix].
  set (rs := dropped_roots _ _) in *. set (txs := without_roots rs (transactions p)) in *.
  set (br := filter (fun '(r, _) => r ∉ rs) (by_block_root p)) in *.
  assert (Hsub : txs ⊆ transactions p) by apply map_filter_subseteq.
  assert (Hbr : forall r, is_Some (br !! r) ->
    exists n, by_block_number p !! n = Some r /\ allowed_block p number n = true).
  { intros r [hs [Hb Hrs]%map_lookup_filter_Some].
    destruct (inv_roots p Hp r) as (n & Hn); [by rewrite Hb|]. exists n. split; [done|].
    destruct (allowed_block p number n) eqn:E; [done|]. destruct Hrs. apply elem_of_dropped_roots. eauto. }
  eexists. split; [done|]. constructor; cbn.
  - rewrite pool_size_fmap; [done|]. apply tx_unauthorize.
  - pose proof (inv_size_limit p Hp). rewrite (inv_size p Hp) in *.
    pose proof (pool_size_subseteq _ _ Hsub). lia.
  - rewrite map_size_fmap. pose proof (map_subseteq_size _ _ Hsub). pose proof (inv_count_limit p Hp). lia.
  - by apply (indexed_new_block p).
  - intros r. rewrite lookup_insert_is_Some. setoid_rewrite new_blocks_Some.
    intros [<-|[_ Hr]]; [eauto|]. destruct (Hbr r Hr) as (n & ? & ?). eauto.
  - intros n m r r'. rewrite !new_blocks_Some, !allowed_block_iff. lia.
  - intros n m r. rewrite !new_blocks_Some.
    intros [[-> ->]|[Hn Ha]] [[-> Hr]|[Hm Ha']]; subst; try done.
    + by apply Hfresh in Ha'.
    + by apply Hfresh in Ha.
    + by apply (inv_unique p Hp n m r).
  - apply (inv_depth p Hp).
  - intros h t'. rewrite lookup_fmap_Some. intros (t & <- & [Ht _]%without_roots_Some).
    by apply unauthorize_history, (inv_history p Hp h).
Qed.

(** ** The state machine *)

Inductive operation : Type :=
| OpAdd (h : TransactionHash) (t : OwnedTransaction)
| OpMarkAuthorized (h : TransactionHash) (n : N) (r : BlockRoot)
| OpRemove (hs : list TransactionHash)
| OpAddBestBlock (n : N) (r : BlockRoot).

(** The pool after an operation; a failed [add] leaves it as it is. *)
Definition run (p : pool) (o : operation) : outcome pool :=
  match o with
  | OpAdd h t => let! r := add p h t in Ret (match r with Ok p' => p' | Err _ => p end)
  | OpMarkAuthorized h n r => Ret (mark_authorized p h n r).1
  | OpRemove hs => remove p hs
  | OpAddBestBlock n r => add_best_block p n r
  end.

(** Block roots identify blocks. *)
Definition admissible (p : pool) (o : operation) : Prop :=
  match o with OpAddBestBlock n r => fresh_root p n r | _ => True end.

Inductive reachable : pool -> Prop :=
| reachable_new depth history count limit :
    (0 < history)%nat -> reachable (new depth history count limit)
| reachable_run p o p' : reachable p -> admissible p o -> run p o = Ret p' -> reachable p'.

Lemma run_inv p o : inv p -> admissible p o -> exists p', run p o = Ret p' /\ inv p'.
Proof.
  intros Hp Ho. destruct o as [h t|h n r|hs|n r]; cbn.
  - pose proof (fun p' => add_inv p h t p' Hp) as Hadd.
    assert (exists r, add p h t = Ret r) as [r Hr].
    { rewrite add_spec by done. repeat (case_match; eauto). }
    rewrite Hr in *. cbn [obind]. destruct r as [p'|e]; eauto.
  - eexists. split; [done|]. by apply mark_authorized_inv.
  - destruct (remove_inv hs p Hp) as (p' & ? & ? & _). eauto.
  - by apply add_best_block_inv.
Qed.

Lemma reachable_inv p : reachable p -> inv p.
Proof.
  induction 1 as [depth history count limit Hh|p o p' _ IH Ho Hr]; [by apply new_inv|].
  destruct (run_inv p o IH Ho) as (p'' & Hr' & Hi). rewrite Hr in Hr'. by injection Hr' as <-.
Qed.

(** ** Any block roots

    What is left of the invariant when a best block has the root of a block that is known
    already: the transactions of that root stay in the pool and are no longer listed. *)

Definition listed_ok (txs : gmap TransactionHash PoolTransaction)
    (by_root : gmap BlockRoot (gset TransactionHash)) : Prop :=
  forall r hs h, by_root !! r = Some hs -> h ∈ hs ->
    exists t, txs !! h = Some t /\ header_block_root (tx t) = r.

Record inv_any (p : pool) : Prop := {
  any_size : total_size p = pool_size (transactions p);
  any_size_limit : total_size p <= limits_size p;
  any_count_limit : N.of_nat (size (transactions p)) <= limits_count p;
  any_listed : listed_ok (transactions p) (by_block_root p);
  any_roots : forall r, is_Some (by_block_root p !! r) -> exists n, by_block_number p !! n = Some r;
  any_range : forall n m r r', by_block_number p !! n = Some r -> by_block_number p !! m = Some r' ->
    n <= m + pruning_depth p;
  any_depth : (0 < authorization_history_depth p)%nat;
  any_history : forall h t, transactions p !! h = Some t -> history_ok (authorization_history_depth p) t
}.

Lemma inv_is_any p : inv p -> inv_any p.
Proof. intros [? ? ? [? ?] ? ? ? ? ?]. by constructor. Qed.

(** The history of each transaction, kept by all that is done with transactions *)
Lemma add_any p h t : inv_any p -> exists r, add p h t = Ret r /\
  match r with Ok p' => inv_any p' | Err _ => True end.
Proof.
  intros Hp. unfold add, contains. case_bool_decide as Hh; [by eexists|]. apply eq_None_not_Some in Hh.
  destruct (by_block_root p !! header_block_root t) as [hs|] eqn:Hr; [|by eexists].
  destruct (decide _) as [|Hc]; [by eexists|]. unfold sub_usize. pose proof (any_size_limit p Hp).
  rewrite decide_True by done. cbn [obind]. destruct (decide _); [by eexists|]. eexists. split; [done|].
  constructor; cbn.
  - rewrite pool_size_insert, <- (any_size p Hp) by done. cbn. lia.
  - lia.
  - rewrite map_size_insert_None by done. pose proof (any_count_limit p Hp). lia.
  - intros r hs' h'. rewrite lookup_insert_Some. intros [[<- <-]|[Hne Hb]] Hin.
    + apply elem_of_union in Hin as [->%elem_of_singleton|Hin].
      { eexists. split; [apply lookup_insert_eq|done]. }
      destruct (any_listed p Hp _ _ _ Hr Hin) as (t' & Ht' & Hrt). exists t'.
      rewrite lookup_insert_ne by congruence. done.
    + destruct (any_listed p Hp _ _ _ Hb Hin) as (t' & Ht' & Hrt). exists t'.
      rewrite lookup_insert_ne by congruence. done.
  - intros r. rewrite lookup_insert_is_Some. intros [<-|[_ Hb]]; apply (any_roots p Hp); [by rewrite Hr|done].
  - apply (any_range p Hp).
  - apply (any_depth p Hp).
  - intros h' t'. rewrite lookup_insert_Some. intros [[_ <-]|[_ Ht']]; [done|]. by apply (any_history p Hp h').
Qed.

Lemma mark_authorized_any p h n r : inv_any p -> inv_any (mark_authorized p h n r).1.
Proof.
  intros Hp. unfold mark_authorized. destruct (transactions p !! h) as [t|] eqn:Ht; [|done]. cbn [fst].
  set (t' := Build_PoolTransaction _ _).
  assert (Hh : history_ok (authorization_history_depth p) t').
  { pose proof (authorize_history p {| block_number := n; block_root := r |} (state t)
      (any_depth p Hp) (any_history p Hp h t Ht)) as Hh. unfold history_ok. cbn [state t']. by destruct (authorize _ _ _). }
  constructor; cbn.
  - by rewrite (pool_size_update h t), (any_size p Hp).
  - apply (any_size_limit p Hp).
  - rewrite map_size_insert_Some by done. apply (any_count_limit p Hp).
  - intros r' hs h' Hb Hin. destruct (any_listed p Hp _ _ _ Hb Hin) as (t0 & Ht0 & E0).
    destruct (decide (h = h')) as [<-|Hne].
    + exists t'. rewrite lookup_insert_eq. split; [done|]. cbn. by simplify_eq.
    + exists t0. by rewrite lookup_insert_ne.
  - apply (any_roots p Hp).
  - apply (any_range p Hp).
  - apply (any_depth p Hp).
  - intros h' t0. rewrite lookup_insert_Some. intros [[_ <-]|[_ Ht0]]; [done|]. by apply (any_history p Hp h').
Qed.

Lemma remove_single_tx_any p h : inv_any p -> exists p', remove_single_tx p h = Ret p' /\ inv_any p'.
Proof.
  intros Hp. unfold remove_single_tx. destruct (transactions p !! h) as [t|] eqn:Ht; [|eauto].
  rewrite (any_size p Hp), remove_tx_spec. cbn [obind]. eexists. split; [done|].
  set (root := header_block_root (tx t)). set (by_root := match _ with None => _ | Some _ => _ end).
  assert (Hby : forall r hs, by_root !! r = Some hs ->
    exists hs', by_block_root p !! r = Some hs' /\ hs ⊆ hs' /\ (r = root -> h ∉ hs)).
  { intros r hs. unfold by_root. destruct (by_block_root p !! root) as [set|] eqn:E.
    - destruct (decide _); [rewrite lookup_delete_Some|rewrite lookup_insert_Some]; intros Hb.
      + destruct Hb as [Hne Hb]. exists hs. split; [done|]. split; [done|]. congruence.
      + destruct Hb as [[<- <-]|[Hne Hb]]; [exists set; set_solver|]. exists hs. split; [done|]. split; [done|]. congruence.
    - intros Hb. exists hs. split; [done|]. split; [done|]. congruence. }
  constructor; cbn.
  - done.
  - pose proof (any_size_limit p Hp). pose proof (any_size p Hp).
    pose proof (pool_size_delete_le h (transactions p)). lia.
  - pose proof (any_count_limit p Hp). pose proof (map_size_delete h (transactions p)).
    destruct (transactions p !! h); cbn in *; lia.
  - intros r hs h' Hb Hin. destruct (Hby r hs Hb) as (hs' & Hb' & Hsub & Hh).
    destruct (any_listed p Hp r hs' h' Hb' ltac:(set_solver)) as (t' & Ht' & E). exists t'. split; [|done].
    rewrite lookup_delete_ne; [done|]. intros <-. simplify_eq. by apply Hh.
  - intros r [hs Hb]. destruct (Hby r hs Hb) as (hs' & Hb' & _). apply (any_roots p Hp). by rewrite Hb'.
  - apply (any_range p Hp).
  - apply (any_depth p Hp).
  - intros h' t' [_ Ht']%lookup_delete_Some. by apply (any_history p Hp h').
Qed.

Lemma remove_any hs p : inv_any p -> exists p', remove p hs = Ret p' /\ inv_any p'.
Proof.
  revert p. induction hs as [|h hs IH]; intros p Hp; cbn [remove]; [eauto|].
  destruct (remove_single_tx_any p h Hp) as (p1 & -> & Hp1). cbn [obind]. by apply IH.
Qed.

Lemma retain_any allowed blocks txs br :
  listed_ok txs br ->
  exists txs' br', retain allowed blocks txs (pool_size txs) br = Ret (txs', pool_size txs', br') /\
    txs' ⊆ txs /\ listed_ok txs' br' /\ br' ⊆ br /\
    forall r, is_Some (br' !! r) -> r ∉ dropped_roots allowed blocks.
Proof.
  revert txs br. induction blocks as [|[n r] blocks IH]; intros txs br Hl; cbn [retain dropped_roots].
  { exists txs, br. split_and!; try done. intros r _. apply not_elem_of_nil. }
  destruct (allowed n); [by apply IH|]. destruct (br !! r) as [hs|] eqn:Hr.
  - rewrite remove_txs_spec. cbn [obind]. set (txs1 := filter _ txs).
    destruct (IH txs1 (delete r br)) as (txs' & br' & -> & Hs & Hl' & Hb & Hd).
    { intros r' hs' h [Hne Hr']%lookup_delete_Some Hin. destruct (Hl r' hs' h Hr' Hin) as (t & Ht & E).
      exists t. split; [|done]. apply map_lookup_filter_Some. split; [done|]. rewrite elem_of_elements. intros Hh.
      destruct (Hl r hs h Hr Hh) as (t2 & Ht2 & E2). simplify_eq. }
    exists txs', br'. split; [done|]. split; [etrans; [exact Hs|apply map_filter_subseteq]|]. split; [done|].
    split; [etrans; [exact Hb|apply delete_subseteq]|]. intros r' Hr'. apply not_elem_of_cons. split; [|by apply Hd].
    intros ->. destruct Hr' as [hs' Hr']. apply (lookup_weaken _ _ _ _ Hr') in Hb. by rewrite lookup_delete_eq in Hb.
  - destruct (IH txs br Hl) as (txs' & br' & -> & Hs & Hl' & Hb & Hd).
    exists txs', br'. split_and!; try done. intros r' Hr'. apply not_elem_of_cons. split; [|by apply Hd].
    intros ->. destruct Hr' as [hs' Hr']. apply (lookup_weaken _ _ _ _ Hr') in Hb. congruence.
Qed.

Lemma add_best_block_any p number root : inv_any p -> exists p', add_best_block p number root = Ret p' /\ inv_any p'.
Proof.
  intros Hp. unfold add_best_block. rewrite (any_size p Hp).
  destruct (retain_any (allowed_block p number) (map_to_list (by_block_number p)) _ _ (any_listed p Hp))
    as (txs & br & -> & Hsub & Hl & Hb & Hd). cbn [obind]. eexists. split; [done|]. constructor; cbn.
  - rewrite pool_size_fmap; [done|]. apply tx_unauthorize.
  - pose proof (any_size_limit p Hp). rewrite (any_size p Hp) in *. pose proof (pool_size_subseteq _ _ Hsub). lia.
  - rewrite map_size_fmap. pose proof (map_subseteq_size _ _ Hsub). pose proof (any_count_limit p Hp). lia.
  - intros r hs h. rewrite lookup_insert_Some. intros [[_ <-]|[Hne Hr]] Hin; [set_solver|].
    destruct (Hl _ _ _ Hr Hin) as (t & Ht & E). exists (unauthorize number t).
    rewrite lookup_fmap, Ht, tx_unauthorize. done.
  - intros r. rewrite lookup_insert_is_Some. setoid_rewrite new_blocks_Some.
    intros [<-|[_ [hs Hr]]]; [eauto|]. destruct (any_roots p Hp r) as [n Hn].
    { by rewrite (lookup_weaken _ _ _ _ Hr Hb). }
    exists n. right. split; [done|]. destruct (allowed_block p number n) eqn:E; [done|]. exfalso.
    apply (Hd r); [by rewrite Hr|]. apply elem_of_dropped_roots. eauto.
  - intros n m r r'. rewrite !new_blocks_Some, !allowed_block_iff. lia.
  - apply (any_depth p Hp).
  - intros h t'. rewrite lookup_fmap_Some. intros (t & <- & Ht). apply unauthorize_history, (any_history p Hp h).
    by eapply lookup_weaken.
Qed.

Lemma run_any p o : inv_any p -> exists p', run p o = Ret p' /\ inv_any p'.
Proof.
  intros Hp. destruct o as [h t|h n r|hs|n r]; cbn.
  - destruct (add_any p h t Hp) as (r & -> & Hr). destruct r; eexists; (split; [done|]); done.
  - eexists. split; [done|]. by apply mark_authorized_any.
  - by apply remove_any.
  - by apply add_best_block_any.
Qed.

(** With blocks of any roots *)
Inductive reachable_any : pool -> Prop :=
| reachable_any_new depth history count limit :
    (0 < history)%nat -> reachable_any (new depth history count limit)
| reachable_any_run p o p' : reachable_any p -> run p o = Ret p' -> reachable_any p'.

Lemma reachable_any_inv p : reachable_any p -> inv_any p.
Proof.
  induction 1 as [depth history count limit Hh|p o p' _ IH Hr]; [by apply inv_is_any, new_inv|].
  destruct (run_any p o IH) as (p'' & Hr' & Hi). rewrite Hr in Hr'. by injection Hr' as <-.
Qed.

(** A sequence of operations. *)
Inductive runs : pool -> list operation -> pool -> Prop :=
| runs_nil p : runs p [] p
| runs_cons p o p1 os p2 : admissible p o -> run p o = Ret p1 -> runs p1 os p2 -> runs p (o :: os) p2.

Lemma run_depth p o p' : inv p -> run p o = Ret p' -> pruning_depth p' = pruning_depth p.
Proof.
  intros Hp. destruct o as [h t|h n r|hs|n r]; cbn.
  - rewrite add_spec by done. repeat (case_match; cbn; try (intros [= <-]; done)).
  - intros [= <-]. unfold mark_authorized. by destruct (transactions p !! h).
  - revert p Hp. induction hs as [|h hs IH]; intros p Hp; cbn; [by intros [= <-]|].
    destruct (remove_single_tx_inv p h Hp) as (p1 & E1 & Hp1 & _).
    destruct (remove_single_tx_spec p h Hp) as (br & E1' & _). rewrite E1 in *. injection E1' as ->.
    cbn [obind]. intros Hr. by rewrite (IH _ Hp1 Hr).
  - destruct (add_best_block_spec p n r Hp) as [-> _]. by intros [= <-].
Qed.

(** [h] is gone, or it is there and its root is that of block [n]. *)
Definition tracked (h : TransactionHash) (n : N) (r : BlockRoot) (p : pool) : Prop :=
  forall t, transactions p !! h = Some t ->
    header_block_root (tx t) = r /\ by_block_number p !! n = Some r.

Lemma run_add_best_block_tracked h n r p number root p' :
  inv p -> tracked h n r p -> add_best_block p number root = Ret p' ->
  tracked h n r p' /\ (n + pruning_depth p < number -> transactions p' !! h = None).
Proof.
  intros Hp Htr. destruct (add_best_block_spec p number root Hp) as [-> _]. intros [= <-]. cbn.
  assert (Hstay : forall t', (unauthorize number <$> without_roots
      (dropped_roots (allowed_block p number) (map_to_list (by_block_number p))) (transactions p)) !! h
      = Some t' ->
    header_block_root (tx t') = r /\ by_block_number p !! n = Some r /\ allowed_block p number n = true).
  { intros t'. rewrite lookup_fmap_Some. intros (t & <- & [Ht Hst]%without_roots_Some).
    apply (stays_iff p number h t Hp Ht) in Hst as (n' & Hn' & Ha). rewrite tx_unauthorize.
    destruct (Htr t Ht) as [E Hn]. rewrite E in Hn'.
    by rewrite (inv_unique p Hp n n' r Hn Hn'). }
  split.
  - intros t' Ht'. destruct (Hstay t' Ht') as (E & Hn & Ha). split; [done|]. cbn.
    rewrite new_blocks_Some. by right.
  - intros Hlt. destruct (_ !! h) as [t'|] eqn:Ht'; [|done].
    destruct (Hstay t' eq_refl) as (_ & _ & Ha%allowed_block_iff). lia.
Qed.

Lemma run_tracked h n r p o p' :
  inv p -> (forall t, o <> OpAdd h t) -> tracked h n r p -> run p o = Ret p' -> tracked h n r p'.
Proof.
  intros Hp Ho Htr. destruct o as [h' t'|h' m r'|hs|m r']; cbn.
  - rewrite add_spec by done. assert (h' <> h) by (intros ->; by eapply Ho).
    repeat (case_match; cbn; try (intros [= <-]; done)). intros [= <-] t. cbn.
    rewrite lookup_insert_ne by done. apply Htr.
  - intros [= <-] t. unfold mark_authorized. destruct (transactions p !! h') as [t1|] eqn:E; [|apply Htr].
    cbn. rewrite lookup_insert_Some. intros [[-> <-]|[_ Ht]]; [cbn; by apply Htr|by apply Htr].
  - revert p Hp Htr. clear Ho. induction hs as [|h1 hs IH]; intros p Hp Htr; cbn; [by intros [= <-]|].
    destruct (remove_single_tx_inv p h1 Hp) as (p1 & E1 & Hp1 & Ht1).
    destruct (remove_single_tx_spec p h1 Hp) as (br & E1' & _). rewrite E1 in *. injection E1' as ->.
    cbn [obind]. apply IH; [done|]. intros t. cbn. intros [_ Ht]%lookup_delete_Some. by apply Htr.
  - intros Hr. by apply (run_add_best_block_tracked h n r p m r' p').
Qed.

(** Once gone, a transaction that is not added again stays away. *)
Lemma run_absent h p o p' :
  inv p -> (forall t, o <> OpAdd h t) -> transactions p !! h = None -> run p o = Ret p' ->
  transactions p' !! h = None.
Proof.
  intros Hp Ho Hn. destruct o as [h' t'|h' m r'|hs|m r']; cbn.
  - rewrite add_spec by done. assert (h' <> h) by (intros ->; by eapply Ho).
    repeat (case_match; cbn; try (intros [= <-]; done)). intros [= <-]. cbn.
    by rewrite lookup_insert_ne.
  - intros [= <-]. unfold mark_authorized. destruct (transactions p !! h') as [t1|] eqn:E; [|done].
    cbn. rewrite lookup_insert_ne; [done|]. congruence.
  - intros Hr. destruct (remove_inv hs p Hp) as (p1 & E & _ & Et). rewrite E in Hr.
    injection Hr as <-. rewrite Et. by apply map_lookup_filter_None_2; left.
  - destruct (add_best_block_spec p m r' Hp) as [-> _]. intros [= <-]. cbn.
    rewrite lookup_fmap. destruct (without_roots _ _ !! h) as [t|] eqn:E; [|done].
    apply without_roots_Some in E as [E _]. congruence.
Qed.

Lemma runs_absent h p os p' :
  inv p -> (forall t, OpAdd h t ∉ os) -> transactions p !! h = None -> runs p os p' ->
  transactions p' !! h = None.
Proof.
  intros Hp Ho Hn Hr. revert Hp Ho Hn.
  induction Hr as [p|p o p1 os p2 Ha Hr1 _ IH]; intros Hp Ho Hn; [done|].
  destruct (run_inv p o Hp Ha) as (p1' & E & Hp1). rewrite Hr1 in E. injection E as <-.
  apply IH; [done|set_solver|]. apply (run_absent h p o); [done| |done|done].
  intros t ->. apply (Ho t). by left.
Qed.

(** ** Properties *)

(** C10. In every state the pool can reach, whatever blocks it is told about, every
    operation returns, with no subtraction below zero, [total_size] is the sum of the buffer
    lengths, the limits on count and size hold, every transaction listed under a block is in
    the pool and was created at that block, the listed blocks are known, all known blocks are
    within [pruning_depth] of each other and no authorization history is longer than
    configured.  If moreover no best block was added with the root of another block that
    stays, roots identify the known blocks, and every transaction in the pool is listed
    under its block. *)
Theorem pool_invariant p o :
  reachable_any p ->
  inv_any p /\ (exists p', run p o = Ret p' /\ inv_any p') /\
  (reachable p -> inv p /\ (admissible p o -> exists p', run p o = Ret p' /\ inv p')).
Proof.
  intros Hr. pose proof (reachable_any_inv p Hr) as Hp. split; [done|]. split; [by apply run_any|].
  intros Hr'. pose proof (reachable_inv p Hr') as Hi. split; [done|]. by apply run_inv.
Qed.

(** [add] reports, in this order, a known transaction, an unknown block, a full
    pool and a transaction that does not fit the size limit; in every other case the
    pool gains exactly this transaction, in state [New], under its block. *)
Theorem add_correct p h t :
  reachable p ->
  exists r, add p h t = Ret r /\
  match r with
  | Err AlreadyExists => contains p h = true
  | Err BlockNotFound => contains p h = false /\ by_block_root p !! header_block_root t = None
  | Err TooManyTransactions =>
      contains p h = false /\ is_Some (by_block_root p !! header_block_root t) /\
      N.of_nat (size (transactions p)) = limits_count p
  | Err TotalSizeTooLarge =>
      contains p h = false /\ is_Some (by_block_root p !! header_block_root t) /\
      N.of_nat (size (transactions p)) < limits_count p /\
      limits_size p < pool_size (transactions p) + tx_size t
  | Ok p' =>
      contains p h = false /\ is_Some (by_block_root p !! header_block_root t) /\
      transactions p' = <[h := {| tx := t; state := New |}]> (transactions p) /\
      (exists hs, by_block_root p !! header_block_root t = Some hs /\
        by_block_root p' = <[header_block_root t := {[h]} ∪ hs]> (by_block_root p)) /\
      by_block_number p' = by_block_number p /\
      N.of_nat (size (transactions p')) <= limits_count p /\
      pool_size (transactions p') <= limits_size p
  end.
Proof.
  intros Hr. pose proof (reachable_inv p Hr) as Hp. pose proof (fun p' => add_inv p h t p' Hp) as Hadd.
  rewrite add_spec in * by done.
  destruct (contains p h) eqn:Hc; [by eexists|].
  destruct (by_block_root p !! header_block_root t) as [hs|] eqn:Hb; [|by eexists].
  pose proof (inv_count_limit p Hp). destruct (decide _) as [E|E]; [by eexists|].
  rewrite (inv_size p Hp) in *. destruct (decide _) as [E'|E'].
  2: { eexists. split; [done|]. cbn. split_and!; [done|done|lia|lia]. }
  specialize (Hadd _ eq_refl). eexists. split; [done|]. cbn. split_and!; try done.
  - by exists hs.
  - apply (inv_count_limit _ Hadd).
  - pose proof (inv_size _ Hadd) as Hs. cbn in Hs. rewrite <- Hs. apply (inv_size_limit _ Hadd).
Qed.

(** After [add_best_block] the pool holds exactly the transactions created at a block
    less than or equal to [pruning_depth] below the new one, with the authorizations at
    the front of their history that are not below the new block removed; a transaction
    of an older block, or of a block at the same or a higher number, is gone; the new
    block is known and has no transactions. *)
Theorem add_best_block_correct p number root :
  reachable p -> fresh_root p number root ->
  exists p', add_best_block p number root = Ret p' /\
    (forall h t', transactions p' !! h = Some t' <->
      exists t n, transactions p !! h = Some t /\
        by_block_number p !! n = Some (header_block_root (tx t)) /\
        number <= n + pruning_depth p /\ n < number /\ t' = unauthorize number t) /\
    by_block_number p' !! number = Some root /\ by_block_root p' !! root = Some ∅.
Proof.
  intros Hr Hf. pose proof (reachable_inv p Hr) as Hp.
  destruct (add_best_block_spec p number root Hp) as [-> _]. eexists. split; [done|]. cbn.
  rewrite !lookup_insert_eq. split; [|done]. intros h t'. rewrite lookup_fmap_Some. split.
  - intros (t & <- & [Ht Hst]%without_roots_Some).
    apply (stays_iff p number h t Hp Ht) in Hst as (n & Hn & Ha). apply allowed_block_iff in Ha.
    exists t, n. split_and!; [done|done|lia|lia|done].
  - intros (t & n & Ht & Hn & Hlo & Hhi & ->). exists t. split; [done|].
    rewrite without_roots_Some, (stays_iff p number h t Hp Ht). split; [done|].
    exists n. rewrite allowed_block_iff. split; [done|]. lia.
Qed.

(** Removing the only transaction of a block makes the pool forget the block: it is
    still among [by_block_number], as it was right after [add_best_block] when it had no
    transactions either, but every further [add] of a new transaction created at it is
    refused with [BlockNotFound]. *)
Theorem remove_forgets_block p h t n :
  reachable p -> transactions p !! h = Some t ->
  by_block_root p !! header_block_root (tx t) = Some {[h]} ->
  by_block_number p !! n = Some (header_block_root (tx t)) ->
  exists p', remove p [h] = Ret p' /\
    by_block_number p' !! n = Some (header_block_root (tx t)) /\
    forall h' t', contains p' h' = false -> header_block_root t' = header_block_root (tx t) ->
      add p' h' t' = Ret (Err BlockNotFound).
Proof.
  intros Hr Ht Hb Hn. pose proof (reachable_inv p Hr) as Hp.
  cbn [remove]. unfold remove_single_tx. rewrite Ht, (inv_size p Hp), remove_tx_spec. cbn [obind].
  rewrite Hb, decide_True by set_solver. eexists. split; [done|]. split; [done|].
  intros h' t' Hc E. unfold add. by rewrite Hc, E; cbn; rewrite lookup_delete_eq.
Qed.

(** Every transaction expires: in any sequence of operations that does not add it
    again, once a best block more than [pruning_depth] above the block it was created at
    is added, the transaction is out of the pool at the end, whatever comes before and
    after. *)
Theorem transaction_expires p os p' h t n m r :
  reachable p -> transactions p !! h = Some t ->
  by_block_number p !! n = Some (header_block_root (tx t)) ->
  runs p os p' -> OpAddBestBlock m r ∈ os -> n + pruning_depth p < m ->
  (forall t', OpAdd h t' ∉ os) -> contains p' h = false.
Proof.
  intros Hre Ht Hn Hruns Hin Hm Hno. unfold contains. rewrite bool_decide_eq_false.
  rewrite <- eq_None_not_Some. apply reachable_inv in Hre as Hp. clear Hre.
  assert (Htr : tracked h n (header_block_root (tx t)) p) by (intros t1 ?; by simplify_eq).
  clear Ht Hn. induction Hruns as [p|p o p1 os p2 Ha Hr1 Hruns IH]; [by apply not_elem_of_nil in Hin|].
  destruct (run_inv p o Hp Ha) as (p1' & E & Hp1). rewrite Hr1 in E. injection E as <-.
  assert (Hno1 : forall t', OpAdd h t' ∉ os) by set_solver.
  apply elem_of_cons in Hin as [<-|Hin].
  - apply (runs_absent h p1 os); [done..| |done].
    by apply (run_add_best_block_tracked h n (header_block_root (tx t)) p m r p1).
  - apply IH; [done|by rewrite (run_depth p o p1)|done..|].
    apply (run_tracked h n _ p o); [done| |done|done]. intros t' ->. apply (Hno t'). by left.
Qed.
End Pool.

(** ** Witnesses *)

Definition sample_tx (root : N) (len : nat) : OwnedTransaction :=
  {| header_block_root := root; buffer := replicate len Byte.x00 |}.

(** A pool that has seen block 10, with root 100, and one transaction created at it. *)
Definition sample_pool : pool (TransactionHash := N) (BlockRoot := N) :=
  {| transactions := {[ 1%N := {| tx := sample_tx 100 7; state := New |} ]}; total_size := 7;
     by_block_root := {[ 100%N := {[1%N]} ]}; by_block_number := {[ 10%N := 100%N ]};
     pruning_depth := 5; authorization_history_depth := 2; limits_count := 3; limits_size := 100 |}.

Lemma sample_reachable : reachable sample_pool.
Proof.
  apply (reachable_run
    {| transactions := ∅; total_size := 0; by_block_root := {[ 100%N := ∅ ]};
       by_block_number := {[ 10%N := 100%N ]}; pruning_depth := 5;
       authorization_history_depth := 2; limits_count := 3; limits_size := 100 |}
    (OpAdd 1%N (sample_tx 100 7))); [|done|vm_compute; reflexivity].
  apply (reachable_run (new 5 2 3 100) (OpAddBestBlock 10 100%N)); [|done|vm_compute; reflexivity].
  apply reachable_new. lia.
Qed.

Lemma pool_reachable_is_any p : reachable (TransactionHash := N) (BlockRoot := N) p -> reachable_any p.
Proof. induction 1 as [|p o p' _ IH _ Hr]; [by constructor|by eapply reachable_any_run]. Qed.

(** A new block, and one with the root of the block that is known, whose transaction is
    then not listed any more *)
Lemma pool_invariant_witness :
  inv sample_pool /\ (exists p', run sample_pool (OpAddBestBlock 11 111%N) = Ret p' /\ inv p') /\
  (exists p', run sample_pool (OpAddBestBlock 11 100%N) = Ret p' /\ inv_any p').
Proof.
  destruct (pool_invariant sample_pool (OpAddBestBlock 11 111%N) (pool_reachable_is_any _ sample_reachable)) as (_ & _ & Hd).
  destruct (Hd sample_reachable) as [Hi Hrun]. split; [exact Hi|]. split.
  - apply Hrun. intros n _ E. cbn in E. apply lookup_singleton_Some in E as [_ E]. discriminate.
  - apply (pool_invariant sample_pool (OpAddBestBlock 11 100%N) (pool_reachable_is_any _ sample_reachable)).
Defined.

Lemma add_correct_witness :
  exists r, add sample_pool 2%N (sample_tx 100 8) = Ret r.
Proof.
  destruct (add_correct sample_pool 2%N (sample_tx 100 8) sample_reachable) as (r & Hr & _).
  exists r. exact Hr.
Defined.

Lemma add_best_block_correct_witness :
  exists p', add_best_block sample_pool 16 116%N = Ret p' /\ transactions p' !! 1%N = None.
Proof.
  assert (Hf : fresh_root sample_pool 16 116%N).
  { intros n _ E. cbn in E. apply lookup_singleton_Some in E as [_ E]. discriminate. }
  destruct (add_best_block_correct sample_pool 16 116%N sample_reachable Hf) as (p' & Hr & Hs & _).
  exists p'. split; [exact Hr|]. apply eq_None_not_Some. intros [t' Ht'].
  apply Hs in Ht' as (t & n & _ & Hn & Hlo & _). cbn in Hn, Hlo.
  apply lookup_singleton_Some in Hn as [Hn _]. lia.
Defined.

Lemma transaction_expires_witness :
  exists p', runs sample_pool [OpAddBestBlock 11 111%N; OpAddBestBlock 16 116%N] p' /\
    contains p' 1%N = false.
Proof.
  destruct (run sample_pool (OpAddBestBlock 11 111%N)) as [p1|] eqn:E1; [|vm_compute in E1; discriminate].
  destruct (run p1 (OpAddBestBlock 16 116%N)) as [p2|] eqn:E2;
    [|vm_compute in E1; injection E1 as <-; vm_compute in E2; discriminate].
  assert (Hr : runs sample_pool [OpAddBestBlock 11 111%N; OpAddBestBlock 16 116%N] p2).
  { apply (runs_cons _ _ p1); [|exact E1|].
    - intros n _ E. cbn in E. apply lookup_singleton_Some in E as [_ E]. discriminate.
    - apply (runs_cons _ _ p2); [|exact E2|apply runs_nil].
      intros n _ E. vm_compute in E1. injection E1 as <-. cbn in E.
      apply (elem_of_map_to_list (M := gmap N)) in E. vm_compute in E. set_solver. }
  exists p2. split; [exact Hr|].
  apply (transaction_expires sample_pool [OpAddBestBlock 11 111%N; OpAddBestBlock 16 116%N] p2 1%N
    {| tx := sample_tx 100 7; state := New |} 10 16 116%N); try reflexivity.
  - exact sample_reachable.
  - exact Hr.
  - set_solver.
  - intros t'. set_solver.
Defined.

Lemma remove_forgets_block_witness :
  exists p', remove sample_pool [1%N] = Ret p' /\
    add p' 2%N (sample_tx 100 8) = Ret (Err BlockNotFound).
Proof.
  destruct (remove_forgets_block sample_pool 1%N {| tx := sample_tx 100 7; state := New |} 10
    sample_reachable eq_refl eq_refl eq_refl) as (p' & Hr & _ & Ha).
  exists p'. split; [exact Hr|]. apply Ha; [|reflexivity].
  vm_compute in Hr. injection Hr as <-. reflexivity.
Defined.
End TransactionPool.
