(* ===== verification/IoMetadata.v ===== *)
(** * Metadata of types

    Model of [crates/shared/ab-io-type/src/metadata.rs], [metadata/type_details.rs],
    [metadata/type_name.rs] and [metadata/compact.rs]: the types of method arguments and of
    the state of contracts are described by bytes, from which the host learns how much memory
    a value needs, and of which a compact form without names identifies methods.

    A slice that is read is the list of its bytes.  A slice that is written from its front is
    its length; what is written is part of the result.  Types nest, so the decoders carry
    fuel; one more than the number of bytes is always enough.

    The theorems compare the decoders with the syntax that the documentation of
    [IoTypeMetadataKind] gives, as trees [io_type] with their printer, and what they return with
    the layout that Rust gives to the types ([layout_of]). *)
From S2P Require Import Prelude Slices NativeExecutor WalletPayload.
From stdpp Require Import prelude.
From Stdlib Require Import NArith Lia.
From stdpp Require Import strings.
From Stdlib Require Import Strings.Byte.

Module IoMetadata.
Import WalletPayload.Builder.
Local Open Scope rust_scope.

(** [IoTypeMetadataKind] *)
Inductive IoTypeMetadataKind : Type :=
| Unit | Bool | U8 | U16 | U32 | U64 | U128 | I8 | I16 | I32 | I64 | I128 | Struct | Struct0
  | Struct1 | Struct2 | Struct3 | Struct4 | Struct5 | Struct6 | Struct7 | Struct8 | Struct9
  | Struct10 | TupleStruct | TupleStruct1 | TupleStruct2 | TupleStruct3 | TupleStruct4
  | TupleStruct5 | TupleStruct6 | TupleStruct7 | TupleStruct8 | TupleStruct9 | TupleStruct10
  | Enum | Enum1 | Enum2 | Enum3 | Enum4 | Enum5 | Enum6 | Enum7 | Enum8 | Enum9 | Enum10
  | EnumNoFields | EnumNoFields1 | EnumNoFields2 | EnumNoFields3 | EnumNoFields4 | EnumNoFields5
  | EnumNoFields6 | EnumNoFields7 | EnumNoFields8 | EnumNoFields9 | EnumNoFields10 | Array8b
  | Array16b | Array32b | ArrayU8x8 | ArrayU8x16 | ArrayU8x32 | ArrayU8x64 | ArrayU8x128
  | ArrayU8x256 | ArrayU8x512 | ArrayU8x1024 | ArrayU8x2028 | ArrayU8x4096 | VariableBytes8b
  | VariableBytes16b | VariableBytes32b | VariableBytes0 | VariableBytes512 | VariableBytes1024
  | VariableBytes2028 | VariableBytes4096 | VariableBytes8192 | VariableBytes16384
  | VariableBytes32768 | VariableBytes65536 | VariableBytes131072 | VariableBytes262144
  | VariableBytes524288 | VariableBytes1048576 | VariableElements8b | VariableElements16b
  | VariableElements32b | VariableElements0 | FixedCapacityBytes8b | FixedCapacityBytes16b
  | FixedCapacityString8b | FixedCapacityString16b | Unaligned.

(** [IoTypeMetadataKind::try_from] *)
Definition try_from (byte : N) : option IoTypeMetadataKind :=
  match byte with
  | 0 => Some Unit | 1 => Some Bool | 2 => Some U8 | 3 => Some U16 | 4 => Some U32 | 5 => Some U64
  | 6 => Some U128 | 7 => Some I8 | 8 => Some I16 | 9 => Some I32 | 10 => Some I64
  | 11 => Some I128 | 12 => Some Struct | 13 => Some Struct0 | 14 => Some Struct1
  | 15 => Some Struct2 | 16 => Some Struct3 | 17 => Some Struct4 | 18 => Some Struct5
  | 19 => Some Struct6 | 20 => Some Struct7 | 21 => Some Struct8 | 22 => Some Struct9
  | 23 => Some Struct10 | 24 => Some TupleStruct | 25 => Some TupleStruct1
  | 26 => Some TupleStruct2 | 27 => Some TupleStruct3 | 28 => Some TupleStruct4
  | 29 => Some TupleStruct5 | 30 => Some TupleStruct6 | 31 => Some TupleStruct7
  | 32 => Some TupleStruct8 | 33 => Some TupleStruct9 | 34 => Some TupleStruct10 | 35 => Some Enum
  | 36 => Some Enum1 | 37 => Some Enum2 | 38 => Some Enum3 | 39 => Some Enum4 | 40 => Some Enum5
  | 41 => Some Enum6 | 42 => Some Enum7 | 43 => Some Enum8 | 44 => Some Enum9 | 45 => Some Enum10
  | 46 => Some EnumNoFields | 47 => Some EnumNoFields1 | 48 => Some EnumNoFields2
  | 49 => Some EnumNoFields3 | 50 => Some EnumNoFields4 | 51 => Some EnumNoFields5
  | 52 => Some EnumNoFields6 | 53 => Some EnumNoFields7 | 54 => Some EnumNoFields8
  | 55 => Some EnumNoFields9 | 56 => Some EnumNoFields10 | 57 => Some Array8b
  | 58 => Some Array16b | 59 => Some Array32b | 60 => Some ArrayU8x8 | 61 => Some ArrayU8x16
  | 62 => Some ArrayU8x32 | 63 => Some ArrayU8x64 | 64 => Some ArrayU8x128
  | 65 => Some ArrayU8x256 | 66 => Some ArrayU8x512 | 67 => Some ArrayU8x1024
  | 68 => Some ArrayU8x2028 | 69 => Some ArrayU8x4096 | 70 => Some VariableBytes8b
  | 71 => Some VariableBytes16b | 72 => Some VariableBytes32b | 73 => Some VariableBytes0
  | 74 => Some VariableBytes512 | 75 => Some VariableBytes1024 | 76 => Some VariableBytes2028
  | 77 => Some VariableBytes4096 | 78 => Some VariableBytes8192 | 79 => Some VariableBytes16384
  | 80 => Some VariableBytes32768 | 81 => Some VariableBytes65536 | 82 => Some VariableBytes131072
  | 83 => Some VariableBytes262144 | 84 => Some VariableBytes524288
  | 85 => Some VariableBytes1048576 | 86 => Some VariableElements8b
  | 87 => Some VariableElements16b | 88 => Some VariableElements32b | 89 => Some VariableElements0
  | 90 => Some FixedCapacityBytes8b | 91 => Some FixedCapacityBytes16b
  | 92 => Some FixedCapacityString8b | 93 => Some FixedCapacityString16b | 94 => Some Unaligned
  | _ => None
  end%N.

(** [kind as u8] *)
Definition as_u8 (kind : IoTypeMetadataKind) : N :=
  match kind with
  | Unit => 0 | Bool => 1 | U8 => 2 | U16 => 3 | U32 => 4 | U64 => 5 | U128 => 6 | I8 => 7
  | I16 => 8 | I32 => 9 | I64 => 10 | I128 => 11 | Struct => 12 | Struct0 => 13 | Struct1 => 14
  | Struct2 => 15 | Struct3 => 16 | Struct4 => 17 | Struct5 => 18 | Struct6 => 19 | Struct7 => 20
  | Struct8 => 21 | Struct9 => 22 | Struct10 => 23 | TupleStruct => 24 | TupleStruct1 => 25
  | TupleStruct2 => 26 | TupleStruct3 => 27 | TupleStruct4 => 28 | TupleStruct5 => 29
  | TupleStruct6 => 30 | TupleStruct7 => 31 | TupleStruct8 => 32 | TupleStruct9 => 33
  | TupleStruct10 => 34 | Enum => 35 | Enum1 => 36 | Enum2 => 37 | Enum3 => 38 | Enum4 => 39
  | Enum5 => 40 | Enum6 => 41 | Enum7 => 42 | Enum8 => 43 | Enum9 => 44 | Enum10 => 45
  | EnumNoFields => 46 | EnumNoFields1 => 47 | EnumNoFields2 => 48 | EnumNoFields3 => 49
  | EnumNoFields4 => 50 | EnumNoFields5 => 51 | EnumNoFields6 => 52 | EnumNoFields7 => 53
  | EnumNoFields8 => 54 | EnumNoFields9 => 55 | EnumNoFields10 => 56 | Array8b => 57
  | Array16b => 58 | Array32b => 59 | ArrayU8x8 => 60 | ArrayU8x16 => 61 | ArrayU8x32 => 62
  | ArrayU8x64 => 63 | ArrayU8x128 => 64 | ArrayU8x256 => 65 | ArrayU8x512 => 66
  | ArrayU8x1024 => 67 | ArrayU8x2028 => 68 | ArrayU8x4096 => 69 | VariableBytes8b => 70
  | VariableBytes16b => 71 | VariableBytes32b => 72 | VariableBytes0 => 73
  | VariableBytes512 => 74 | VariableBytes1024 => 75 | VariableBytes2028 => 76
  | VariableBytes4096 => 77 | VariableBytes8192 => 78 | VariableBytes16384 => 79
  | VariableBytes32768 => 80 | VariableBytes65536 => 81 | VariableBytes131072 => 82
  | VariableBytes262144 => 83 | VariableBytes524288 => 84 | VariableBytes1048576 => 85
  | VariableElements8b => 86 | VariableElements16b => 87 | VariableElements32b => 88
  | VariableElements0 => 89 | FixedCapacityBytes8b => 90 | FixedCapacityBytes16b => 91
  | FixedCapacityString8b => 92 | FixedCapacityString16b => 93 | Unaligned => 94
  end%N.

(** ** Reading slices *)

(** [m?] inside of a function that returns an [Option] *)
Definition otry {A B} (m : option A) (k : A -> outcome (option B)) : outcome (option B) :=
  match m with Some x => k x | None => Ret None end.

Notation "'try?' x := m 'in' k" := (otry m (fun x => k))
  (at level 10, x pattern, m at level 100, k at level 200) : rust_scope.
Notation "'try!' x := m 'in' k" := (obind m (fun r => otry r (fun x => k)))
  (at level 10, x pattern, m at level 100, k at level 200) : rust_scope.

(** [split_off_first], for a byte that is used as an integer *)
Definition read_u8 (input : list byte) : option (N * list byte) :=
  match input with [] => None | b :: input => Some (Byte.to_N b, input) end.

(** [get(n..)] *)
Definition get_from (n : nat) (input : list byte) : option (list byte) :=
  if decide (n <= length input) then Some (drop n input) else None.

(** [split_at_checked], [split_off(..n)] *)
Definition split_at_checked (n : nat) (input : list byte) : option (list byte * list byte) :=
  if decide (n <= length input) then Some (take n input, drop n input) else None.

(** A length and as many bytes, which are skipped *)
Definition skip_name (input : list byte) : option (list byte) :=
  match read_u8 input with
  | Some (length, input) => get_from (N.to_nat length) input
  | None => None
  end.

(** An integer of [n] bytes *)
Definition read_le (n : nat) (input : list byte) : option (N * list byte) :=
  match split_at_checked n input with
  | Some (source, input) => Some (le_value source, input)
  | None => None
  end.

(** A count that is either given by the kind or read *)
Definition read_count (count : option N) (input : list byte) : option (N * list byte) :=
  match count with Some n => Some (n, input) | None => read_u8 input end.

Definition checked_add_u32 (a b : N) : option N := if decide (a + b < 2 ^ 32)%N then Some (a + b)%N else None.
Definition checked_mul_u32 (a b : N) : option N := if decide (a * b < 2 ^ 32)%N then Some (a * b)%N else None.
Definition add_u32 (a b : N) : outcome N := if decide (a + b < 2 ^ 32)%N then Ret (a + b)%N else Fault.

Definition details (recommended_capacity alignment : N) : IoTypeDetails :=
  {| recommended_capacity := recommended_capacity; alignment := alignment |}.

(** [if d.alignment.get() > alignment { d.alignment.get() } else { alignment }] *)
Definition larger_alignment (a : N) (d : IoTypeDetails) : N := if decide (a < alignment d)%N then alignment d else a.

(** ** Size and alignment of types *)

Section type_details.
(** The decoder of nested types *)
Variable decode : list byte -> outcome (option (IoTypeDetails * list byte)).

(** The loop of [struct_type_details] *)
Fixpoint struct_fields (field_count : nat) (tuple : bool) (input : list byte) (capacity alignment : N)
    : outcome (option (IoTypeDetails * list byte)) :=
  match field_count with
  | O => Ret (Some (details capacity alignment, input))
  | S field_count =>
      try? input := (if tuple then Some input else skip_name input) in
      try! (d, input) := decode input in
      try? capacity := checked_add_u32 capacity (recommended_capacity d) in
      struct_fields field_count tuple input capacity
        (larger_alignment alignment d)
  end.

Definition struct_type_details (input : list byte) (field_count : option N) (tuple : bool)
    : outcome (option (IoTypeDetails * list byte)) :=
  try? input := skip_name input in
  try? (field_count, input) := read_count field_count input in
  struct_fields (N.to_nat field_count) tuple input 0 1.

(** The loop of [enum_capacity] *)
Fixpoint enum_variants (variant_count : nat) (has_fields : bool) (input : list byte)
    (enum_capacity : option N) (alignment : N) : outcome (option (IoTypeDetails * list byte)) :=
  match variant_count with
  | O => Ret (Some (details (default 0%N enum_capacity) alignment, input))
  | S variant_count =>
      try? _ := (match input with [] => None | _ => Some tt end) in
      try! (d, input) := struct_type_details input (if has_fields then None else Some 0%N) false in
      let! variant_capacity := add_u32 (recommended_capacity d) 1 in
      let alignment := larger_alignment alignment d in
      match enum_capacity with
      | Some capacity =>
          if decide (capacity <> variant_capacity) then Ret None
          else enum_variants variant_count has_fields input enum_capacity alignment
      | None => enum_variants variant_count has_fields input (Some variant_capacity) alignment
      end
  end.

Definition enum_capacity (input : list byte) (variant_count : option N) (has_fields : bool)
    : outcome (option (IoTypeDetails * list byte)) :=
  try? input := skip_name input in
  try? (variant_count, input) := read_count variant_count input in
  enum_variants (N.to_nat variant_count) has_fields input None 1.

(** The branches for arrays and variable elements, whose count has [n] bytes *)
Definition sequence_details (n : nat) (metadata : list byte) : outcome (option (IoTypeDetails * list byte)) :=
  try? (num_elements, metadata) := read_le n metadata in
  try! (d, metadata) := decode metadata in
  try? recommended_capacity := checked_mul_u32 (recommended_capacity d) num_elements in
  Ret (Some (details recommended_capacity (alignment d), metadata)).
End type_details.

(** The branches for bytes, whose number has [n] bytes *)
Definition bytes_details (n : nat) (overhead alignment : N) (metadata : list byte)
    : outcome (option (IoTypeDetails * list byte)) :=
  try? (num_bytes, metadata) := read_le n metadata in
  Ret (Some (details (num_bytes + overhead) alignment, metadata)).

(** [decode_type_details] *)
Fixpoint decode_type_details (fuel : nat) (metadata : list byte)
    : outcome (option (IoTypeDetails * list byte)) :=
  match fuel with
  | O => Fault
  | S fuel =>
      let decode := decode_type_details fuel in
      try? (byte, metadata) := read_u8 metadata in
      try? kind := try_from byte in
      match kind with
      | Unit => Ret (Some (details 0 1, metadata))
      | Bool | U8 | I8 => Ret (Some (details 1 1, metadata))
      | U16 | I16 => Ret (Some (details 2 2, metadata))
      | U32 | I32 => Ret (Some (details 4 4, metadata))
      | U64 | I64 => Ret (Some (details 8 8, metadata))
      | U128 | I128 => Ret (Some (details 16 16, metadata))
      | Struct => struct_type_details decode metadata None false
      | Struct0 => struct_type_details decode metadata (Some 0%N) false
      | Struct1 => struct_type_details decode metadata (Some 1%N) false
      | Struct2 => struct_type_details decode metadata (Some 2%N) false
      | Struct3 => struct_type_details decode metadata (Some 3%N) false
      | Struct4 => struct_type_details decode metadata (Some 4%N) false
      | Struct5 => struct_type_details decode metadata (Some 5%N) false
      | Struct6 => struct_type_details decode metadata (Some 6%N) false
      | Struct7 => struct_type_details decode metadata (Some 7%N) false
      | Struct8 => struct_type_details decode metadata (Some 8%N) false
      | Struct9 => struct_type_details decode metadata (Some 9%N) false
      | Struct10 => struct_type_details decode metadata (Some 10%N) false
      | TupleStruct => struct_type_details decode metadata None true
      | TupleStruct1 => struct_type_details decode metadata (Some 1%N) true
      | TupleStruct2 => struct_type_details decode metadata (Some 2%N) true
      | TupleStruct3 => struct_type_details decode metadata (Some 3%N) true
      | TupleStruct4 => struct_type_details decode metadata (Some 4%N) true
      | TupleStruct5 => struct_type_details decode metadata (Some 5%N) true
      | TupleStruct6 => struct_type_details decode metadata (Some 6%N) true
      | TupleStruct7 => struct_type_details decode metadata (Some 7%N) true
      | TupleStruct8 => struct_type_details decode metadata (Some 8%N) true
      | TupleStruct9 => struct_type_details decode metadata (Some 9%N) true
      | TupleStruct10 => struct_type_details decode metadata (Some 10%N) true
      | Enum => enum_capacity decode metadata None true
      | Enum1 => enum_capacity decode metadata (Some 1%N) true
      | Enum2 => enum_capacity decode metadata (Some 2%N) true
      | Enum3 => enum_capacity decode metadata (Some 3%N) true
      | Enum4 => enum_capacity decode metadata (Some 4%N) true
      | Enum5 => enum_capacity decode metadata (Some 5%N) true
      | Enum6 => enum_capacity decode metadata (Some 6%N) true
      | Enum7 => enum_capacity decode metadata (Some 7%N) true
      | Enum8 => enum_capacity decode metadata (Some 8%N) true
      | Enum9 => enum_capacity decode metadata (Some 9%N) true
      | Enum10 => enum_capacity decode metadata (Some 10%N) true
      | EnumNoFields => enum_capacity decode metadata None false
      | EnumNoFields1 => enum_capacity decode metadata (Some 1%N) false
      | EnumNoFields2 => enum_capacity decode metadata (Some 2%N) false
      | EnumNoFields3 => enum_capacity decode metadata (Some 3%N) false
      | EnumNoFields4 => enum_capacity decode metadata (Some 4%N) false
      | EnumNoFields5 => enum_capacity decode metadata (Some 5%N) false
      | EnumNoFields6 => enum_capacity decode metadata (Some 6%N) false
      | EnumNoFields7 => enum_capacity decode metadata (Some 7%N) false
      | EnumNoFields8 => enum_capacity decode metadata (Some 8%N) false
      | EnumNoFields9 => enum_capacity decode metadata (Some 9%N) false
      | EnumNoFields10 => enum_capacity decode metadata (Some 10%N) false
      | Array8b | VariableElements8b => sequence_details decode 1 metadata
      | Array16b | VariableElements16b => sequence_details decode 2 metadata
      | Array32b | VariableElements32b => sequence_details decode 4 metadata
      | ArrayU8x8 => Ret (Some (details_bytes 8, metadata))
      | ArrayU8x16 => Ret (Some (details_bytes 16, metadata))
      | ArrayU8x32 => Ret (Some (details_bytes 32, metadata))
      | ArrayU8x64 => Ret (Some (details_bytes 64, metadata))
      | ArrayU8x128 => Ret (Some (details_bytes 128, metadata))
      | ArrayU8x256 => Ret (Some (details_bytes 256, metadata))
      | ArrayU8x512 => Ret (Some (details_bytes 512, metadata))
      | ArrayU8x1024 => Ret (Some (details_bytes 1024, metadata))
      | ArrayU8x2028 => Ret (Some (details_bytes 2028, metadata))
      | ArrayU8x4096 => Ret (Some (details_bytes 4096, metadata))
      | VariableBytes8b => bytes_details 1 0 1 metadata
      | VariableBytes16b => bytes_details 2 0 1 metadata
      | VariableBytes32b => bytes_details 4 0 1 metadata
      | VariableBytes0 => Ret (Some (details_bytes 0, metadata))
      | VariableBytes512 => Ret (Some (details_bytes 512, metadata))
      | VariableBytes1024 => Ret (Some (details_bytes 1024, metadata))
      | VariableBytes2028 => Ret (Some (details_bytes 2028, metadata))
      | VariableBytes4096 => Ret (Some (details_bytes 4096, metadata))
      | VariableBytes8192 => Ret (Some (details_bytes 8192, metadata))
      | VariableBytes16384 => Ret (Some (details_bytes 16384, metadata))
      | VariableBytes32768 => Ret (Some (details_bytes 32768, metadata))
      | VariableBytes65536 => Ret (Some (details_bytes 65536, metadata))
      | VariableBytes131072 => Ret (Some (details_bytes 131072, metadata))
      | VariableBytes262144 => Ret (Some (details_bytes 262144, metadata))
      | VariableBytes524288 => Ret (Some (details_bytes 524288, metadata))
      | VariableBytes1048576 => Ret (Some (details_bytes 1048576, metadata))
      | VariableElements0 => try! (_, metadata) := decode metadata in Ret (Some (details 0 1, metadata))
      | FixedCapacityBytes8b | FixedCapacityString8b => bytes_details 1 1 1 metadata
      | FixedCapacityBytes16b | FixedCapacityString16b => bytes_details 2 2 2 metadata
      | Unaligned =>
          try! (d, metadata) := decode metadata in
          Ret (Some (details_bytes (recommended_capacity d), metadata))
      end
  end.

(** [IoTypeMetadataKind::type_details] *)
Definition type_details (metadata : list byte) : outcome (option (IoTypeDetails * list byte)) :=
  decode_type_details (S (length metadata)) metadata.

(** ** Names of types *)

Definition bytes_of (s : String.string) : list byte := String.list_byte_of_string s.

(** The match of [type_name] *)
Definition kind_name (kind : IoTypeMetadataKind) (metadata : list byte) : option (list byte) :=
  match kind with
  | Unit => Some (bytes_of "()")
  | Bool => Some (bytes_of "bool")
  | U8 => Some (bytes_of "u8")
  | U16 => Some (bytes_of "u16")
  | U32 => Some (bytes_of "u32")
  | U64 => Some (bytes_of "u64")
  | U128 => Some (bytes_of "u128")
  | I8 => Some (bytes_of "i8")
  | I16 => Some (bytes_of "i16")
  | I32 => Some (bytes_of "i32")
  | I64 => Some (bytes_of "i64")
  | I128 => Some (bytes_of "i128")
  | Struct | Struct0 | Struct1 | Struct2 | Struct3 | Struct4 | Struct5 | Struct6 | Struct7
  | Struct8 | Struct9 | Struct10 | TupleStruct | TupleStruct1 | TupleStruct2 | TupleStruct3
  | TupleStruct4 | TupleStruct5 | TupleStruct6 | TupleStruct7 | TupleStruct8 | TupleStruct9
  | TupleStruct10 | Enum | Enum1 | Enum2 | Enum3 | Enum4 | Enum5 | Enum6 | Enum7 | Enum8 | Enum9
  | Enum10 | EnumNoFields | EnumNoFields1 | EnumNoFields2 | EnumNoFields3 | EnumNoFields4
  | EnumNoFields5 | EnumNoFields6 | EnumNoFields7 | EnumNoFields8 | EnumNoFields9
  | EnumNoFields10 =>
      match read_u8 metadata with
      | Some (type_name_length, metadata) => fst <$> split_at_checked (N.to_nat type_name_length) metadata
      | None => None
      end
  | Array8b | Array16b | Array32b => Some (bytes_of "[T; N]")
  | ArrayU8x8 => Some (bytes_of "[u8; 8]")
  | ArrayU8x16 => Some (bytes_of "[u8; 16]")
  | ArrayU8x32 => Some (bytes_of "[u8; 32]")
  | ArrayU8x64 => Some (bytes_of "[u8; 64]")
  | ArrayU8x128 => Some (bytes_of "[u8; 128]")
  | ArrayU8x256 => Some (bytes_of "[u8; 256]")
  | ArrayU8x512 => Some (bytes_of "[u8; 512]")
  | ArrayU8x1024 => Some (bytes_of "[u8; 1024]")
  | ArrayU8x2028 => Some (bytes_of "[u8; 2028]")
  | ArrayU8x4096 => Some (bytes_of "[u8; 4096]")
  | VariableBytes8b | VariableBytes16b | VariableBytes32b | VariableBytes0 | VariableBytes512
  | VariableBytes1024 | VariableBytes2028 | VariableBytes4096 | VariableBytes8192
  | VariableBytes16384 | VariableBytes32768 | VariableBytes65536 | VariableBytes131072
  | VariableBytes262144 | VariableBytes524288 | VariableBytes1048576 =>
      Some (bytes_of "VariableBytes")
  | VariableElements8b | VariableElements16b | VariableElements32b | VariableElements0 =>
      Some (bytes_of "VariableElements")
  | FixedCapacityBytes8b | FixedCapacityBytes16b => Some (bytes_of "FixedCapacityBytes")
  | FixedCapacityString8b | FixedCapacityString16b => Some (bytes_of "FixedCapacityString")
  | Unaligned => Some (bytes_of "Unaligned")
  end.

(** [IoTypeMetadataKind::type_name] *)
Definition type_name (metadata : list byte) : option (list byte) :=
  match read_u8 metadata with
  | Some (byte, metadata) => match try_from byte with Some kind => kind_name kind metadata | None => None end
  | None => None
  end.

(** ** Compact metadata *)

(** A slice that is written from its front: what has been written, and the room left *)
Record output : Type := Output { written : list byte; room : nat }.

(** [*output.split_off_first_mut()? = byte] *)
Definition write_u8 (byte : N) (o : output) : option output :=
  match room o with O => None | S n => Some (Output (written o ++ [byte_of byte]) n) end.

Definition copy_n_bytes (input : list byte) (o : output) (n : nat) : option (list byte * output) :=
  match split_at_checked n input with
  | Some (source, input) =>
      if decide (n <= room o) then Some (input, Output (written o ++ source) (room o - n)) else None
  | None => None
  end.

(** A count that is given by the kind, or read and copied *)
Definition copy_count (count : option N) (input : list byte) (o : output) : option (N * list byte * output) :=
  match count with
  | Some n => Some (n, input, o)
  | None =>
      match read_u8 input with
      | Some (n, input) => (fun o => (n, input, o)) <$> write_u8 n o
      | None => None
      end
  end.

Section compact.
Variable compact : list byte -> output -> outcome (option (list byte * output)).

(** The loop of [compact_struct] *)
Fixpoint compact_fields (arguments_count : nat) (tuple : bool) (input : list byte) (o : output)
    : outcome (option (list byte * output)) :=
  match arguments_count with
  | O => Ret (Some (input, o))
  | S arguments_count =>
      try? input := (if tuple then Some input else skip_name input) in
      try! (input, o) := compact input o in
      compact_fields arguments_count tuple input o
  end.

Definition compact_struct (input : list byte) (o : output) (arguments_count : option N) (tuple : bool)
    : outcome (option (list byte * output)) :=
  try? (struct_name_length, input) := read_u8 input in
  try? o := write_u8 0 o in
  try? input := get_from (N.to_nat struct_name_length) input in
  try? (arguments_count, input, o) := copy_count arguments_count input o in
  compact_fields (N.to_nat arguments_count) tuple input o.

(** The loop of [compact_enum] *)
Fixpoint compact_variants (variant_count : nat) (has_fields : bool) (input : list byte) (o : output)
    : outcome (option (list byte * output)) :=
  match variant_count with
  | O => Ret (Some (input, o))
  | S variant_count =>
      try! (input, o) := compact_struct input o (if has_fields then None else Some 0%N) false in
      compact_variants variant_count has_fields input o
  end.

Definition compact_enum (input : list byte) (o : output) (variant_count : option N) (has_fields : bool)
    : outcome (option (list byte * output)) :=
  try? (enum_name_length, input) := read_u8 input in
  try? o := write_u8 0 o in
  try? input := get_from (N.to_nat enum_name_length) input in
  try? (variant_count, input, o) := copy_count variant_count input o in
  compact_variants (N.to_nat variant_count) has_fields input o.
End compact.

(** [compact_metadata] *)
Fixpoint compact_metadata (fuel : nat) (input : list byte) (o : output)
    : outcome (option (list byte * output)) :=
  match fuel with
  | O => Fault
  | S fuel =>
      let compact := compact_metadata fuel in
      try? (byte, input) := read_u8 input in
      let keep := write_u8 byte o in
      let turn kind := write_u8 (as_u8 kind) o in
      try? kind := try_from byte in
      match kind with
      | Unit | Bool | U8 | U16 | U32 | U64 | U128 | I8 | I16 | I32 | I64 | I128 =>
          try? o := keep in Ret (Some (input, o))
      | Struct => try? o := keep in compact_struct compact input o None false
      | Struct0 => try? o := keep in compact_struct compact input o (Some 0%N) false
      | Struct1 => try? o := turn TupleStruct1 in compact_struct compact input o (Some 1%N) false
      | Struct2 => try? o := turn TupleStruct2 in compact_struct compact input o (Some 2%N) false
      | Struct3 => try? o := turn TupleStruct3 in compact_struct compact input o (Some 3%N) false
      | Struct4 => try? o := turn TupleStruct4 in compact_struct compact input o (Some 4%N) false
      | Struct5 => try? o := turn TupleStruct5 in compact_struct compact input o (Some 5%N) false
      | Struct6 => try? o := turn TupleStruct6 in compact_struct compact input o (Some 6%N) false
      | Struct7 => try? o := turn TupleStruct7 in compact_struct compact input o (Some 7%N) false
      | Struct8 => try? o := turn TupleStruct8 in compact_struct compact input o (Some 8%N) false
      | Struct9 => try? o := turn TupleStruct9 in compact_struct compact input o (Some 9%N) false
      | Struct10 => try? o := turn TupleStruct10 in compact_struct compact input o (Some 10%N) false
      | TupleStruct => try? o := keep in compact_struct compact input o None true
      | TupleStruct1 => try? o := keep in compact_struct compact input o (Some 1%N) true
      | TupleStruct2 => try? o := keep in compact_struct compact input o (Some 2%N) true
      | TupleStruct3 => try? o := keep in compact_struct compact input o (Some 3%N) true
      | TupleStruct4 => try? o := keep in compact_struct compact input o (Some 4%N) true
      | TupleStruct5 => try? o := keep in compact_struct compact input o (Some 5%N) true
      | TupleStruct6 => try? o := keep in compact_struct compact input o (Some 6%N) true
      | TupleStruct7 => try? o := keep in compact_struct compact input o (Some 7%N) true
      | TupleStruct8 => try? o := keep in compact_struct compact input o (Some 8%N) true
      | TupleStruct9 => try? o := keep in compact_struct compact input o (Some 9%N) true
      | TupleStruct10 => try? o := keep in compact_struct compact input o (Some 10%N) true
      | Enum => try? o := keep in compact_enum compact input o None true
      | Enum1 => try? o := keep in compact_enum compact input o (Some 1%N) true
      | Enum2 => try? o := keep in compact_enum compact input o (Some 2%N) true
      | Enum3 => try? o := keep in compact_enum compact input o (Some 3%N) true
      | Enum4 => try? o := keep in compact_enum compact input o (Some 4%N) true
      | Enum5 => try? o := keep in compact_enum compact input o (Some 5%N) true
      | Enum6 => try? o := keep in compact_enum compact input o (Some 6%N) true
      | Enum7 => try? o := keep in compact_enum compact input o (Some 7%N) true
      | Enum8 => try? o := keep in compact_enum compact input o (Some 8%N) true
      | Enum9 => try? o := keep in compact_enum compact input o (Some 9%N) true
      | Enum10 => try? o := keep in compact_enum compact input o (Some 10%N) true
      | EnumNoFields => try? o := keep in compact_enum compact input o None false
      | EnumNoFields1 => try? o := keep in compact_enum compact input o (Some 1%N) false
      | EnumNoFields2 => try? o := keep in compact_enum compact input o (Some 2%N) false
      | EnumNoFields3 => try? o := keep in compact_enum compact input o (Some 3%N) false
      | EnumNoFields4 => try? o := keep in compact_enum compact input o (Some 4%N) false
      | EnumNoFields5 => try? o := keep in compact_enum compact input o (Some 5%N) false
      | EnumNoFields6 => try? o := keep in compact_enum compact input o (Some 6%N) false
      | EnumNoFields7 => try? o := keep in compact_enum compact input o (Some 7%N) false
      | EnumNoFields8 => try? o := keep in compact_enum compact input o (Some 8%N) false
      | EnumNoFields9 => try? o := keep in compact_enum compact input o (Some 9%N) false
      | EnumNoFields10 => try? o := keep in compact_enum compact input o (Some 10%N) false
      | Array8b | VariableElements8b =>
          try? o := keep in try? (input, o) := copy_n_bytes input o 1 in compact input o
      | Array16b | VariableElements16b =>
          try? o := keep in try? (input, o) := copy_n_bytes input o 2 in compact input o
      | Array32b | VariableElements32b =>
          try? o := keep in try? (input, o) := copy_n_bytes input o 4 in compact input o
      | ArrayU8x8 | ArrayU8x16 | ArrayU8x32 | ArrayU8x64 | ArrayU8x128 | ArrayU8x256 | ArrayU8x512
      | ArrayU8x1024 | ArrayU8x2028 | ArrayU8x4096 =>
          try? o := keep in Ret (Some (input, o))
      | VariableBytes8b | FixedCapacityBytes8b | FixedCapacityString8b =>
          try? o := keep in Ret (copy_n_bytes input o 1)
      | VariableBytes16b | FixedCapacityBytes16b | FixedCapacityString16b =>
          try? o := keep in Ret (copy_n_bytes input o 2)
      | VariableBytes32b => try? o := keep in Ret (copy_n_bytes input o 4)
      | VariableBytes0 | VariableBytes512 | VariableBytes1024 | VariableBytes2028
      | VariableBytes4096 | VariableBytes8192 | VariableBytes16384 | VariableBytes32768
      | VariableBytes65536 | VariableBytes131072 | VariableBytes262144 | VariableBytes524288
      | VariableBytes1048576 =>
          try? o := keep in Ret (Some (input, o))
      | VariableElements0 | Unaligned => try? o := keep in compact input o
      end
  end.

(** [IoTypeMetadataKind::compact] *)
Definition compact (input : list byte) (o : output) : outcome (option (list byte * output)) :=
  compact_metadata (S (length input)) input o.

(** ** Assembling metadata *)

Definition MAX_METADATA_CAPACITY : nat := N.to_nat 8192.

(** The loop of [concat_metadata_sources]; [remainder.split_at_mut] panics without room. *)
Fixpoint concat_sources (sources : list (list byte)) (o : output) : outcome output :=
  match sources with
  | [] => Ret o
  | source :: sources =>
      if decide (length source <= room o)
      then concat_sources sources (Output (written o ++ source) (room o - length source))
      else Fault
  end.

(** The scratch memory with the number of bytes that were written *)
Definition scratch_of (o : output) : list byte * nat :=
  (written o ++ replicate (room o) x00, MAX_METADATA_CAPACITY - room o).

Definition concat_metadata_sources (sources : list (list byte)) : outcome (list byte * nat) :=
  let! o := concat_sources sources (Output [] MAX_METADATA_CAPACITY) in Ret (scratch_of o).

(** ** The syntax of types *)

(** What follows a kind *)
Inductive form : Type :=
| Plain (capacity alignment : N)
| Structure (count : option N) (tuple : bool)
| Enumeration (count : option N) (has_fields : bool)
| Sequence (width : nat)
| Sized (width : nat) (overhead alignment : N)
| Elements
| Packed.

Definition form_of (kind : IoTypeMetadataKind) : form :=
  match kind with
  | Unit => Plain 0 1
  | Bool | U8 | I8 => Plain 1 1
  | U16 | I16 => Plain 2 2
  | U32 | I32 => Plain 4 4
  | U64 | I64 => Plain 8 8
  | U128 | I128 => Plain 16 16
  | Struct => Structure None false
  | Struct0 => Structure (Some 0%N) false
  | Struct1 => Structure (Some 1%N) false
  | Struct2 => Structure (Some 2%N) false
  | Struct3 => Structure (Some 3%N) false
  | Struct4 => Structure (Some 4%N) false
  | Struct5 => Structure (Some 5%N) false
  | Struct6 => Structure (Some 6%N) false
  | Struct7 => Structure (Some 7%N) false
  | Struct8 => Structure (Some 8%N) false
  | Struct9 => Structure (Some 9%N) false
  | Struct10 => Structure (Some 10%N) false
  | TupleStruct => Structure None true
  | TupleStruct1 => Structure (Some 1%N) true
  | TupleStruct2 => Structure (Some 2%N) true
  | TupleStruct3 => Structure (Some 3%N) true
  | TupleStruct4 => Structure (Some 4%N) true
  | TupleStruct5 => Structure (Some 5%N) true
  | TupleStruct6 => Structure (Some 6%N) true
  | TupleStruct7 => Structure (Some 7%N) true
  | TupleStruct8 => Structure (Some 8%N) true
  | TupleStruct9 => Structure (Some 9%N) true
  | TupleStruct10 => Structure (Some 10%N) true
  | Enum => Enumeration None true
  | Enum1 => Enumeration (Some 1%N) true
  | Enum2 => Enumeration (Some 2%N) true
  | Enum3 => Enumeration (Some 3%N) true
  | Enum4 => Enumeration (Some 4%N) true
  | Enum5 => Enumeration (Some 5%N) true
  | Enum6 => Enumeration (Some 6%N) true
  | Enum7 => Enumeration (Some 7%N) true
  | Enum8 => Enumeration (Some 8%N) true
  | Enum9 => Enumeration (Some 9%N) true
  | Enum10 => Enumeration (Some 10%N) true
  | EnumNoFields => Enumeration None false
  | EnumNoFields1 => Enumeration (Some 1%N) false
  | EnumNoFields2 => Enumeration (Some 2%N) false
  | EnumNoFields3 => Enumeration (Some 3%N) false
  | EnumNoFields4 => Enumeration (Some 4%N) false
  | EnumNoFields5 => Enumeration (Some 5%N) false
  | EnumNoFields6 => Enumeration (Some 6%N) false
  | EnumNoFields7 => Enumeration (Some 7%N) false
  | EnumNoFields8 => Enumeration (Some 8%N) false
  | EnumNoFields9 => Enumeration (Some 9%N) false
  | EnumNoFields10 => Enumeration (Some 10%N) false
  | Array8b | VariableElements8b => Sequence 1
  | Array16b | VariableElements16b => Sequence 2
  | Array32b | VariableElements32b => Sequence 4
  | ArrayU8x8 => Plain 8 1
  | ArrayU8x16 => Plain 16 1
  | ArrayU8x32 => Plain 32 1
  | ArrayU8x64 => Plain 64 1
  | ArrayU8x128 => Plain 128 1
  | ArrayU8x256 => Plain 256 1
  | ArrayU8x512 => Plain 512 1
  | ArrayU8x1024 => Plain 1024 1
  | ArrayU8x2028 => Plain 2028 1
  | ArrayU8x4096 => Plain 4096 1
  | VariableBytes8b => Sized 1 0 1
  | VariableBytes16b => Sized 2 0 1
  | VariableBytes32b => Sized 4 0 1
  | VariableBytes0 => Plain 0 1
  | VariableBytes512 => Plain 512 1
  | VariableBytes1024 => Plain 1024 1
  | VariableBytes2028 => Plain 2028 1
  | VariableBytes4096 => Plain 4096 1
  | VariableBytes8192 => Plain 8192 1
  | VariableBytes16384 => Plain 16384 1
  | VariableBytes32768 => Plain 32768 1
  | VariableBytes65536 => Plain 65536 1
  | VariableBytes131072 => Plain 131072 1
  | VariableBytes262144 => Plain 262144 1
  | VariableBytes524288 => Plain 524288 1
  | VariableBytes1048576 => Plain 1048576 1
  | VariableElements0 => Elements
  | FixedCapacityBytes8b | FixedCapacityString8b => Sized 1 1 1
  | FixedCapacityBytes16b | FixedCapacityString16b => Sized 2 2 2
  | Unaligned => Packed
  end.

(** The kind that stands for a kind in compact metadata *)
Definition compact_kind (kind : IoTypeMetadataKind) : IoTypeMetadataKind :=
  match kind with
  | Struct1 => TupleStruct1
  | Struct2 => TupleStruct2
  | Struct3 => TupleStruct3
  | Struct4 => TupleStruct4
  | Struct5 => TupleStruct5
  | Struct6 => TupleStruct6
  | Struct7 => TupleStruct7
  | Struct8 => TupleStruct8
  | Struct9 => TupleStruct9
  | Struct10 => TupleStruct10
  | kind => kind
  end.

(** Types as trees; the fields of a tuple have empty names. *)
Inductive io_type : Type :=
| TPlain (kind : IoTypeMetadataKind)
| TStruct (kind : IoTypeMetadataKind) (name : list byte) (fs : fields)
| TEnum (kind : IoTypeMetadataKind) (name : list byte) (vs : variants)
| TSequence (kind : IoTypeMetadataKind) (n : N) (t : io_type)
| TSized (kind : IoTypeMetadataKind) (n : N)
| TNested (kind : IoTypeMetadataKind) (t : io_type)
with fields : Type :=
| FNil
| FCons (name : list byte) (t : io_type) (fs : fields)
with variants : Type :=
| VNil
| VCons (name : list byte) (fs : fields) (vs : variants).

Scheme io_type_mut := Induction for io_type Sort Prop
with fields_mut := Induction for fields Sort Prop
with variants_mut := Induction for variants Sort Prop.
Combined Scheme io_type_mutind from io_type_mut, fields_mut, variants_mut.

Fixpoint num_fields (fs : fields) : nat := match fs with FNil => 0 | FCons _ _ fs => S (num_fields fs) end.
Fixpoint num_variants (vs : variants) : nat := match vs with VNil => 0 | VCons _ _ vs => S (num_variants vs) end.

Definition count_of (kind : IoTypeMetadataKind) : option N :=
  match form_of kind with Structure c _ | Enumeration c _ => c | _ => None end.
Definition flag_of (kind : IoTypeMetadataKind) : bool :=
  match form_of kind with Structure _ b | Enumeration _ b => b | _ => false end.
Definition width_of (kind : IoTypeMetadataKind) : nat :=
  match form_of kind with Sequence w | Sized w _ _ => w | _ => 0 end.

Definition kind_byte (kind : IoTypeMetadataKind) : byte := byte_of (as_u8 kind).
Definition print_name (name : list byte) : list byte := byte_of (N.of_nat (length name)) :: name.
Definition print_count (count : option N) (n : nat) : list byte :=
  match count with Some _ => [] | None => [byte_of (N.of_nat n)] end.

(** The encoding that the documentation of [IoTypeMetadataKind] gives *)
Fixpoint print (t : io_type) : list byte :=
  match t with
  | TPlain kind => [kind_byte kind]
  | TStruct kind name fs =>
      kind_byte kind :: print_name name ++ print_count (count_of kind) (num_fields fs) ++
        print_fields (flag_of kind) fs
  | TEnum kind name vs =>
      kind_byte kind :: print_name name ++ print_count (count_of kind) (num_variants vs) ++
        print_variants (flag_of kind) vs
  | TSequence kind n t => kind_byte kind :: le_split (width_of kind) n ++ print t
  | TSized kind n => kind_byte kind :: le_split (width_of kind) n
  | TNested kind t => kind_byte kind :: print t
  end
with print_fields (tuple : bool) (fs : fields) : list byte :=
  match fs with
  | FNil => []
  | FCons name t fs => (if tuple then [] else print_name name) ++ print t ++ print_fields tuple fs
  end
with print_variants (has_fields : bool) (vs : variants) : list byte :=
  match vs with
  | VNil => []
  | VCons name fs vs =>
      print_name name ++ print_count (if has_fields then None else Some 0%N) (num_fields fs) ++
        print_fields false fs ++ print_variants has_fields vs
  end.

Definition name_ok (name : list byte) : Prop := length name < 256.
Definition count_ok (count : option N) (n : nat) : Prop :=
  n < 256 /\ match count with Some c => c = N.of_nat n | None => True end.

(** Names and numbers fit their encoding, and the number of fields is that of the kind. *)
Fixpoint type_wf (t : io_type) : Prop :=
  match t with
  | TPlain kind => match form_of kind with Plain _ _ => True | _ => False end
  | TStruct kind name fs =>
      match form_of kind with
      | Structure count tuple => name_ok name /\ count_ok count (num_fields fs) /\ fields_wf tuple fs
      | _ => False
      end
  | TEnum kind name vs =>
      match form_of kind with
      | Enumeration count has_fields =>
          name_ok name /\ count_ok count (num_variants vs) /\ variants_wf has_fields vs
      | _ => False
      end
  | TSequence kind n t =>
      match form_of kind with Sequence w => (n < 256 ^ N.of_nat w)%N /\ type_wf t | _ => False end
  | TSized kind n => match form_of kind with Sized w _ _ => (n < 256 ^ N.of_nat w)%N | _ => False end
  | TNested kind t => match form_of kind with Elements | Packed => type_wf t | _ => False end
  end
with fields_wf (tuple : bool) (fs : fields) : Prop :=
  match fs with
  | FNil => True
  | FCons name t fs => (if tuple then name = [] else name_ok name) /\ type_wf t /\ fields_wf tuple fs
  end
with variants_wf (has_fields : bool) (vs : variants) : Prop :=
  match vs with
  | VNil => True
  | VCons name fs vs =>
      name_ok name /\ count_ok (if has_fields then None else Some 0%N) (num_fields fs) /\
      fields_wf false fs /\ variants_wf has_fields vs
  end.

(** Number of bytes of a value: fields one after the other, one byte for the variant *)
Fixpoint capacity_of (t : io_type) : N :=
  match t with
  | TPlain kind => match form_of kind with Plain c _ => c | _ => 0 end
  | TStruct _ _ fs => fields_capacity fs
  | TEnum _ _ vs => match vs with VNil => 0 | VCons _ fs _ => fields_capacity fs + 1 end
  | TSequence _ n t => capacity_of t * n
  | TSized kind n => match form_of kind with Sized _ overhead _ => n + overhead | _ => 0 end
  | TNested kind t => match form_of kind with Packed => capacity_of t | _ => 0 end
  end%N
with fields_capacity (fs : fields) : N :=
  match fs with FNil => 0 | FCons _ t fs => capacity_of t + fields_capacity fs end%N.

(** The largest alignment of what is contained *)
Fixpoint alignment_of (t : io_type) : N :=
  match t with
  | TPlain kind => match form_of kind with Plain _ a => a | _ => 1 end
  | TStruct _ _ fs => fields_alignment fs
  | TEnum _ _ vs => variants_alignment vs
  | TSequence _ _ t => alignment_of t
  | TSized kind _ => match form_of kind with Sized _ _ a => a | _ => 1 end
  | TNested kind _ => 1
  end%N
with fields_alignment (fs : fields) : N :=
  match fs with FNil => 1 | FCons _ t fs => N.max (alignment_of t) (fields_alignment fs) end%N
with variants_alignment (vs : variants) : N :=
  match vs with VNil => 1 | VCons _ fs vs => N.max (fields_alignment fs) (variants_alignment vs) end%N.

(** Sizes fit 32 bits, and the variants of an enum have the same size. *)
Fixpoint type_fits (t : io_type) : Prop :=
  match t with
  | TStruct _ _ fs => fields_fit fs
  | TEnum _ _ vs => variants_fit (capacity_of t) vs
  | TSequence _ n t => type_fits t /\ (capacity_of t * n < 2 ^ 32)%N
  | TNested _ t => type_fits t
  | TPlain _ | TSized _ _ => True
  end
with fields_fit (fs : fields) : Prop :=
  (fields_capacity fs < 2 ^ 32)%N /\
  match fs with FNil => True | FCons _ t fs => type_fits t /\ fields_fit fs end
with variants_fit (capacity : N) (vs : variants) : Prop :=
  match vs with
  | VNil => True
  | VCons _ fs vs =>
      (capacity < 2 ^ 32)%N /\ (fields_capacity fs + 1)%N = capacity /\ fields_fit fs /\
      variants_fit capacity vs
  end.

Definition type_details_of (t : io_type) : IoTypeDetails := details (capacity_of t) (alignment_of t).

(** ** Lemmas on reading *)

Lemma kind_of_byte kind : try_from (Byte.to_N (kind_byte kind)) = Some kind.
Proof. by destruct kind. Qed.

Lemma kind_byte_inv b kind : try_from (Byte.to_N b) = Some kind -> b = kind_byte kind.
Proof. destruct b; cbv [Byte.to_N try_from]; intros [= <-]; reflexivity. Qed.

Lemma kind_byte_inj k k' : kind_byte k = kind_byte k' -> k = k'.
Proof. intros E. pose proof (kind_of_byte k) as H. rewrite E, kind_of_byte in H. by injection H. Qed.

Lemma as_u8_kind_byte kind : Byte.to_N (kind_byte kind) = as_u8 kind.
Proof. by destruct kind. Qed.

Lemma split_at_checked_app n l rest : length l = n -> split_at_checked n (l ++ rest) = Some (l, rest).
Proof.
  intros <-. unfold split_at_checked. rewrite length_app, decide_True by lia.
  by rewrite take_app_length, drop_app_length.
Qed.

Lemma split_at_checked_inv n input l rest :
  split_at_checked n input = Some (l, rest) -> input = l ++ rest /\ length l = n.
Proof.
  unfold split_at_checked. case_decide; [|done]. intros [= <- <-].
  by rewrite take_drop, length_take_le.
Qed.

Lemma get_from_app l rest : get_from (length l) (l ++ rest) = Some rest.
Proof. unfold get_from. rewrite length_app, decide_True by lia. by rewrite drop_app_length. Qed.

Lemma get_from_inv n input rest :
  get_from n input = Some rest -> exists l, input = l ++ rest /\ length l = n.
Proof.
  unfold get_from. case_decide; [|done]. intros [= <-]. exists (take n input).
  by rewrite take_drop, length_take_le.
Qed.

Lemma small_byte n : n < 256 -> Byte.to_N (byte_of (N.of_nat n)) = N.of_nat n.
Proof. intros. rewrite to_N_byte_of, N.mod_small; lia. Qed.

Lemma byte_small b : N.to_nat (Byte.to_N b) < 256.
Proof. pose proof (to_N_lt b). lia. Qed.

Lemma byte_of_nat b : byte_of (N.of_nat (N.to_nat (Byte.to_N b))) = b.
Proof. by rewrite N2Nat.id, byte_of_to_N. Qed.

Lemma skip_name_print name rest : name_ok name -> skip_name (print_name name ++ rest) = Some rest.
Proof.
  intros Hn. unfold skip_name, print_name. cbn [app read_u8].
  rewrite small_byte, Nat2N.id by done. apply get_from_app.
Qed.

Lemma skip_name_inv input rest :
  skip_name input = Some rest -> exists name, input = print_name name ++ rest /\ name_ok name.
Proof.
  unfold skip_name. destruct input as [|b input]; [done|]. cbn [read_u8]. intros E.
  apply get_from_inv in E as (name & -> & Hl). exists name. unfold print_name, name_ok.
  rewrite Hl, byte_of_nat. split; [done|apply byte_small].
Qed.

Lemma read_count_print count n rest :
  count_ok count n -> read_count count (print_count count n ++ rest) = Some (N.of_nat n, rest).
Proof.
  intros [Hn Hc]. destruct count as [c|]; cbn [read_count print_count app read_u8]; [by rewrite Hc|].
  by rewrite small_byte.
Qed.

Definition small_count (count : option N) : Prop := match count with Some c => (c < 256)%N | None => True end.

Lemma read_count_inv count input n rest :
  small_count count -> read_count count input = Some (n, rest) ->
  input = print_count count (N.to_nat n) ++ rest /\ count_ok count (N.to_nat n).
Proof.
  intros Hs. unfold count_ok. destruct count as [c|]; cbn [read_count print_count small_count] in *.
  - intros [= <- <-]. split; [done|]. split; [lia|]. by rewrite N2Nat.id.
  - destruct input as [|b input]; [done|]. cbn [read_u8]. intros [= <- <-].
    rewrite byte_of_nat. split; [done|]. split; [apply byte_small|done].
Qed.

Lemma read_le_print w n rest :
  (n < 256 ^ N.of_nat w)%N -> read_le w (le_split w n ++ rest) = Some (n, rest).
Proof.
  intros Hn. unfold read_le. rewrite split_at_checked_app by apply length_le_split.
  by rewrite le_value_split, N.mod_small.
Qed.

Lemma read_le_inv w input n rest :
  read_le w input = Some (n, rest) -> input = le_split w n ++ rest /\ (n < 256 ^ N.of_nat w)%N.
Proof.
  unfold read_le. destruct (split_at_checked w input) as [[l r]|] eqn:E; [|done]. intros [= <- <-].
  apply split_at_checked_inv in E as [-> <-]. rewrite le_split_value. split; [done|apply le_value_lt].
Qed.

Lemma form_small kind : small_count (count_of kind).
Proof. by destruct kind. Qed.

(** ** Decoding is exact *)

Abbreviation parsed := (outcome (option (IoTypeDetails * list byte))).

(** [decode_type_details], by the form of the kind *)
Definition decode_form (decode : list byte -> parsed) (f : form) (metadata : list byte) : parsed :=
  match f with
  | Plain c a => Ret (Some (details c a, metadata))
  | Structure count tuple => struct_type_details decode metadata count tuple
  | Enumeration count has_fields => enum_capacity decode metadata count has_fields
  | Sequence w => sequence_details decode w metadata
  | Sized w overhead a => bytes_details w overhead a metadata
  | Elements => try! (_, metadata) := decode metadata in Ret (Some (details 0 1, metadata))
  | Packed =>
      try! (d, metadata) := decode metadata in Ret (Some (details_bytes (recommended_capacity d), metadata))
  end.

Lemma decode_by_form fuel kind metadata :
  decode_type_details (S fuel) (kind_byte kind :: metadata) =
  decode_form (decode_type_details fuel) (form_of kind) metadata.
Proof.
  cbn [decode_type_details read_u8 otry]. rewrite kind_of_byte. cbn [otry]. by destruct kind.
Qed.

Lemma larger_alignment_max a d : larger_alignment a d = N.max a (alignment d).
Proof. unfold larger_alignment. case_decide; lia. Qed.

Lemma fields_alignment_pos fs : (1 <= fields_alignment fs)%N.
Proof. induction fs; cbn [fields_alignment]; lia. Qed.

Lemma variants_alignment_pos vs : (1 <= variants_alignment vs)%N.
Proof. induction vs; cbn [variants_alignment]; lia. Qed.

(** ** The layout of the types

    Size and alignment that Rust gives to the types that the kinds stand for, on a 64-bit
    target; of types of variable size, those of the recommended allocation, whose number
    of elements the metadata has. *)

Definition round_up (n a : N) : N := ((n + a - 1) / a * a)%N.

(** [#[repr(C)]]: every field at the next offset of its alignment, and the size a multiple
    of the alignment *)
Definition c_offset (offset : N) (field : N * N) : N := (round_up offset field.2 + field.1)%N.

Definition c_alignment (members : list (N * N)) : N := foldr (fun field a => N.max field.2 a) 1%N members.

Definition c_struct (members : list (N * N)) : N * N :=
  (round_up (foldl c_offset 0%N members) (c_alignment members), c_alignment members).

(** A [#[repr(u8)]] enum is the union of one such structure for each variant, which starts
    with the tag. *)
Definition c_union (structs : list (N * N)) : N * N :=
  (round_up (foldr (fun s n => N.max s.1 n) 0%N structs) (c_alignment structs), c_alignment structs).

Definition plain_layout (kind : IoTypeMetadataKind) : N * N :=
  match kind with
  | Bool | U8 | I8 => (1, 1)
  | U16 | I16 => (2, 2)
  | U32 | I32 => (4, 4)
  | U64 | I64 => (8, 8)
  | U128 | I128 => (16, 16)
  | ArrayU8x8 => (8, 1) | ArrayU8x16 => (16, 1) | ArrayU8x32 => (32, 1) | ArrayU8x64 => (64, 1)
  | ArrayU8x128 => (128, 1) | ArrayU8x256 => (256, 1) | ArrayU8x512 => (512, 1) | ArrayU8x1024 => (1024, 1)
  | ArrayU8x2028 => (2028, 1) | ArrayU8x4096 => (4096, 1)
  | VariableBytes512 => (512, 1) | VariableBytes1024 => (1024, 1) | VariableBytes2028 => (2028, 1)
  | VariableBytes4096 => (4096, 1) | VariableBytes8192 => (8192, 1) | VariableBytes16384 => (16384, 1)
  | VariableBytes32768 => (32768, 1) | VariableBytes65536 => (65536, 1) | VariableBytes131072 => (131072, 1)
  | VariableBytes262144 => (262144, 1) | VariableBytes524288 => (524288, 1)
  | VariableBytes1048576 => (1048576, 1)
  | _ => (0, 1)
  end%N.

(** Bytes of fixed capacity have their length before them. *)
Definition sized_layout (kind : IoTypeMetadataKind) (n : N) : N * N :=
  match kind with
  | FixedCapacityBytes8b | FixedCapacityString8b => c_struct [(1, 1); (n, 1)]
  | FixedCapacityBytes16b | FixedCapacityString16b => c_struct [(2, 2); (n, 1)]
  | _ => (n, 1)
  end%N.

Fixpoint layout_of (t : io_type) : N * N :=
  match t with
  | TPlain kind => plain_layout kind
  | TStruct _ _ fs => c_struct (field_layouts fs)
  | TEnum _ _ vs => c_union (variant_layouts vs)
  | TSequence _ n t => let '(size, alignment) := layout_of t in (n * size, alignment)%N
  | TSized kind n => sized_layout kind n
  | TNested Unaligned t => ((layout_of t).1, 1%N)
  | TNested _ t => (0%N, (layout_of t).2)
  end
with field_layouts (fs : fields) : list (N * N) :=
  match fs with FNil => [] | FCons _ t fs => layout_of t :: field_layouts fs end
with variant_layouts (vs : variants) : list (N * N) :=
  match vs with VNil => [] | VCons _ fs vs => c_struct ((1, 1)%N :: field_layouts fs) :: variant_layouts vs end.

Definition members_size (members : list (N * N)) : N := foldr (fun field n => field.1 + n)%N 0%N members.

(** What the derive macro asserts of structs and enums, that they have no implicit padding,
    and the types of which the decoder knows the layout: bytes of fixed capacity with a
    length of two bytes have an even number of them, and elements of which none are
    recommended have the alignment of bytes. *)
Fixpoint unpadded (t : io_type) : Prop :=
  match t with
  | TPlain _ => True
  | TStruct _ _ fs => (layout_of t).1 = members_size (field_layouts fs) /\ fields_unpadded fs
  | TEnum _ _ vs => variants_unpadded (layout_of t).1 vs
  | TSequence _ _ t => unpadded t
  | TSized (FixedCapacityBytes16b | FixedCapacityString16b) n => (n mod 2 = 0)%N
  | TSized _ _ => True
  | TNested Unaligned t => unpadded t
  | TNested _ t => (layout_of t).2 = 1%N
  end
with fields_unpadded (fs : fields) : Prop :=
  match fs with FNil => True | FCons _ t fs => unpadded t /\ fields_unpadded fs end
with variants_unpadded (size : N) (vs : variants) : Prop :=
  match vs with
  | VNil => True
  | VCons _ fs vs =>
      size = (members_size (field_layouts fs) + 1)%N /\ fields_unpadded fs /\ variants_unpadded size vs
  end.

Lemma round_up_1 n : round_up n 1 = n.
Proof. unfold round_up. rewrite N.div_1_r. lia. Qed.

Lemma round_up_0 a : (1 <= a)%N -> round_up 0 a = 0%N.
Proof. intros Ha. unfold round_up. rewrite N.div_small; lia. Qed.

Lemma round_up_even n : (n mod 2 = 0)%N -> round_up n 2 = n.
Proof.
  intros Hn. unfold round_up. apply N.Lcm0.mod_divide in Hn as [k ->].
  replace (k * 2 + 2 - 1)%N with (1 + k * 2)%N by lia. rewrite N.div_add by lia. change (1 / 2)%N with 0%N. lia.
Qed.

Lemma sized_layout_spec kind n :
  type_wf (TSized kind n) -> unpadded (TSized kind n) ->
  sized_layout kind n = (capacity_of (TSized kind n), alignment_of (TSized kind n)).
Proof.
  intros Hw Hr. cbn [type_wf unpadded capacity_of alignment_of] in *.
  destruct kind; try done; cbn [form_of sized_layout]; [by rewrite N.add_0_r..| | | |];
    unfold c_struct, c_alignment, c_offset; cbn [foldl foldr fst snd].
  1,3: rewrite round_up_0, !round_up_1 by lia; f_equal; lia.
  all: rewrite round_up_0, (round_up_1 (0 + 2)) by lia; change (N.max 2 (N.max 1 1)) with 2%N;
    rewrite round_up_even; [f_equal; lia|]; replace (0 + 2 + n)%N with (n + 1 * 2)%N by lia;
    rewrite N.Div0.mod_add; done.
Qed.

(** The details are the layout, for all types but those. *)
Lemma layout_details :
  (forall t, type_wf t -> unpadded t -> layout_of t = (capacity_of t, alignment_of t)) /\
  (forall fs tuple, fields_wf tuple fs -> fields_unpadded fs ->
    members_size (field_layouts fs) = fields_capacity fs /\ c_alignment (field_layouts fs) = fields_alignment fs) /\
  (forall vs has_fields size, variants_wf has_fields vs -> variants_unpadded size vs ->
    c_alignment (variant_layouts vs) = variants_alignment vs /\
    match vs with VNil => True | VCons _ fs _ => size = (fields_capacity fs + 1)%N end).
Proof.
  apply io_type_mutind.
  - intros kind Hw _. cbn [type_wf] in Hw. by destruct kind.
  - intros kind name fs IH Hw [Hsize Hr]. cbn [type_wf] in Hw.
    destruct (form_of kind); try done. destruct Hw as (_ & _ & Hw). destruct (IH _ Hw Hr) as [H1 H2].
    cbn [capacity_of alignment_of]. rewrite <- H1, <- H2, <- Hsize. done.
  - intros kind name vs IH Hw Hr. cbn [type_wf unpadded] in Hw, Hr.
    destruct (form_of kind); try done. destruct Hw as (_ & _ & Hw). destruct (IH _ _ Hw Hr) as [H1 H2].
    cbn [capacity_of alignment_of]. rewrite <- H1.
    destruct vs as [|vname fs vs]; [done|]. rewrite <- H2. done.
  - intros kind n t IH Hw Hr. cbn [type_wf unpadded] in Hw, Hr. destruct (form_of kind); try done.
    destruct Hw as [_ Hw]. cbn [layout_of capacity_of alignment_of]. rewrite IH by done. f_equal. lia.
  - intros kind n Hw Hr. by apply sized_layout_spec.
  - intros kind t IH Hw Hr. cbn [type_wf] in Hw. destruct kind; try done; cbn [layout_of capacity_of alignment_of form_of unpadded] in *.
    + by rewrite Hr.
    + by rewrite IH.
  - done.
  - intros name t IHt fs IHfs tuple (_ & Hw & Hws) [Hr Hrs]. destruct (IHfs _ Hws Hrs) as [H1 H2].
    cbn [field_layouts members_size c_alignment foldr fields_capacity fields_alignment].
    fold (members_size (field_layouts fs)) (c_alignment (field_layouts fs)). by rewrite IHt, H1, H2.
  - done.
  - intros name fs IHfs vs IHvs has_fields size (_ & _ & Hw & Hws) (Hsize & Hr & Hrs).
    destruct (IHfs _ Hw Hr) as [H1 H2]. destruct (IHvs _ _ Hws Hrs) as [H3 _].
    cbn [variant_layouts c_alignment foldr variants_alignment]. fold (c_alignment (variant_layouts vs)).
    rewrite H3, Hsize, H1. split; [|done]. unfold c_struct. cbn [snd].
    change (c_alignment ((1, 1)%N :: field_layouts fs)) with (N.max 1 (c_alignment (field_layouts fs))).
    rewrite H2. pose proof (fields_alignment_pos fs). lia.
Qed.

Section complete.
Variable decode : list byte -> parsed.
Variable bound : nat.

(** Types that print to less than the bound are decoded. *)
Definition decodes (t : io_type) : Prop :=
  forall rest, length (print t ++ rest) < bound -> type_wf t -> type_fits t ->
  decode (print t ++ rest) = Ret (Some (type_details_of t, rest)).

Fixpoint fields_decode (fs : fields) : Prop :=
  match fs with FNil => True | FCons _ t fs => decodes t /\ fields_decode fs end.
Fixpoint variants_decode (vs : variants) : Prop :=
  match vs with VNil => True | VCons _ fs vs => fields_decode fs /\ variants_decode vs end.

Lemma struct_fields_print fs tuple rest capacity a :
  fields_decode fs -> fields_wf tuple fs -> fields_fit fs ->
  length (print_fields tuple fs ++ rest) < bound ->
  (capacity + fields_capacity fs < 2 ^ 32)%N -> (1 <= a)%N ->
  struct_fields decode (num_fields fs) tuple (print_fields tuple fs ++ rest) capacity a =
    Ret (Some (details (capacity + fields_capacity fs) (N.max a (fields_alignment fs)), rest)).
Proof.
  revert capacity a. induction fs as [|name t fs IH]; intros capacity a Hd Hwf Hf Hl Hc Ha.
  - cbn. by rewrite N.add_0_r, N.max_l.
  - destruct Hd as [Hd Hds], Hwf as (Hn & Hwf & Hwfs), Hf as (Hc' & Hf & Hfs).
    cbn [num_fields struct_fields print_fields fields_capacity fields_alignment] in *.
    rewrite !length_app in Hl. rewrite <- !app_assoc.
    replace (if tuple then Some _ else skip_name _) with (Some (print t ++ print_fields tuple fs ++ rest))
      by (destruct tuple; [done|by rewrite skip_name_print]).
    cbn [otry]. rewrite Hd by (done || rewrite ?length_app; lia). cbn [obind otry type_details_of recommended_capacity].
    unfold checked_add_u32. cbn [recommended_capacity type_details_of details]. rewrite decide_True by lia.
    cbn [otry]. rewrite larger_alignment_max. cbn [alignment type_details_of details].
    rewrite IH by (done || rewrite ?length_app; lia). do 2 f_equal. f_equal. f_equal; lia.
Qed.

Lemma struct_print name count tuple fs rest :
  fields_decode fs -> name_ok name -> count_ok count (num_fields fs) -> fields_wf tuple fs -> fields_fit fs ->
  length (print_fields tuple fs ++ rest) < bound ->
  struct_type_details decode
    (print_name name ++ print_count count (num_fields fs) ++ print_fields tuple fs ++ rest) count tuple =
    Ret (Some (details (fields_capacity fs) (fields_alignment fs), rest)).
Proof.
  intros Hd Hn Hc Hwf Hf Hl. unfold struct_type_details. rewrite skip_name_print by done. cbn [otry].
  rewrite read_count_print by done. cbn [otry]. rewrite Nat2N.id.
  assert (fields_capacity fs < 2 ^ 32)%N by (by destruct fs; destruct Hf).
  rewrite struct_fields_print by (done || lia). pose proof (fields_alignment_pos fs). do 2 f_equal. f_equal. f_equal; lia.
Qed.

Lemma enum_variants_print vs has_fields rest capacity current a :
  variants_decode vs -> variants_wf has_fields vs -> variants_fit capacity vs ->
  length (print_variants has_fields vs ++ rest) <= bound ->
  current = Some capacity \/ current = None /\ (vs = VNil -> capacity = 0%N) -> (1 <= a)%N ->
  enum_variants decode (num_variants vs) has_fields (print_variants has_fields vs ++ rest) current a =
    Ret (Some (details capacity (N.max a (variants_alignment vs)), rest)).
Proof.
  revert current a. induction vs as [|name fs vs IH]; intros current a Hd Hwf Hf Hl Hc Ha.
  - cbn. rewrite N.max_l by done. by destruct Hc as [-> |[-> ->]].
  - destruct Hd as [Hd Hds], Hwf as (Hn & Hcount & Hwf & Hwfs), Hf as (Hlt & Hcap & Hf & Hfs).
    cbn [num_variants enum_variants print_variants variants_alignment] in *.
    rewrite !length_app in Hl. rewrite <- !app_assoc. cbn [print_name app otry].
    change (byte_of (N.of_nat (length name)) :: name ++ ?x) with (print_name name ++ x).
    rewrite struct_print by (done || (rewrite !length_app; cbn [print_name length] in Hl; lia)).
    cbn [obind otry recommended_capacity details]. unfold add_u32. rewrite decide_True by lia. cbn [obind].
    rewrite Hcap, larger_alignment_max. cbn [alignment details].
    pose proof (fields_alignment_pos fs).
    assert (IH' := IH (Some capacity) (N.max a (fields_alignment fs)) Hds Hwfs Hfs).
    rewrite length_app in IH'. specialize (IH' ltac:(lia) (or_introl eq_refl) ltac:(lia)).
    destruct Hc as [-> |[-> _]]; [rewrite decide_False by (by intros [])|]; rewrite IH'; do 2 f_equal; f_equal; f_equal; lia.
Qed.
End complete.

Lemma decode_complete :
  (forall t fuel, decodes (decode_type_details fuel) fuel t) /\
  (forall fs fuel, fields_decode (decode_type_details fuel) fuel fs) /\
  (forall vs fuel, variants_decode (decode_type_details fuel) fuel vs).
Proof.
  apply io_type_mutind; try (intros; cbn; by auto).
  - intros kind fuel rest Hl Hwf _. destruct fuel; [lia|]. cbn [print app]. rewrite decode_by_form.
    unfold type_details_of. cbn [type_wf capacity_of alignment_of] in *. by destruct (form_of kind).
  - intros kind name fs IH fuel rest Hl Hwf Hf. destruct fuel as [|fuel]; [lia|]. cbn [print app] in *.
    rewrite decode_by_form. unfold type_details_of. cbn [type_wf type_fits capacity_of alignment_of length] in *.
    unfold count_of, flag_of in *. destruct (form_of kind); try done. destruct Hwf as (Hn & Hc & Hw).
    cbn [decode_form]. rewrite <- !app_assoc. apply (struct_print _ fuel); [done..|]. rewrite !length_app in *. lia.
  - intros kind name vs IH fuel rest Hl Hwf Hf. destruct fuel as [|fuel]; [lia|]. cbn [print app] in *.
    rewrite decode_by_form. unfold type_details_of. cbn [type_wf type_fits alignment_of length] in *.
    unfold count_of, flag_of in *. destruct (form_of kind); try done. destruct Hwf as (Hn & Hc & Hw).
    cbn [decode_form]. unfold enum_capacity. rewrite <- !app_assoc, skip_name_print by done. cbn [otry].
    rewrite read_count_print by done. cbn [otry]. rewrite Nat2N.id.
    rewrite (enum_variants_print _ fuel vs has_fields rest (capacity_of (TEnum kind name vs))); [|done..| |right|lia].
    + by rewrite N.max_r by (apply variants_alignment_pos).
    + rewrite !length_app in *. lia.
    + split; [done|]. by intros ->.
  - intros kind n t IH fuel rest Hl Hwf Hf. destruct fuel as [|fuel]; [lia|]. cbn [print app] in *.
    rewrite decode_by_form. unfold type_details_of. cbn [type_wf type_fits capacity_of alignment_of length] in *.
    unfold width_of in *. destruct (form_of kind); try done. destruct Hwf as [Hn Hw], Hf as [Hf Hc].
    cbn [decode_form]. unfold sequence_details. rewrite <- app_assoc, read_le_print by done. cbn [otry].
    rewrite IH by (done || rewrite ?length_app in *; lia). cbn [obind otry recommended_capacity type_details_of details].
    unfold checked_mul_u32. by rewrite decide_True.
  - intros kind n fuel rest Hl Hwf _. destruct fuel as [|fuel]; [lia|]. cbn [print app] in *. rewrite decode_by_form.
    unfold type_details_of. cbn [type_wf capacity_of alignment_of] in *. unfold width_of in *.
    destruct (form_of kind); try done. cbn [decode_form]. unfold bytes_details. by rewrite read_le_print.
  - intros kind t IH fuel rest Hl Hwf Hf. destruct fuel as [|fuel]; [lia|]. cbn [print app] in *.
    rewrite decode_by_form. unfold type_details_of. cbn [type_wf type_fits capacity_of alignment_of length] in *.
    destruct (form_of kind); try done; cbn [decode_form]; rewrite IH by (done || rewrite ?length_app in *; lia); done.
Qed.

(** Inversion of the error monad *)
Lemma try_inv {A B} (m : option A) (k : A -> outcome (option B)) b :
  otry m k = Ret (Some b) -> exists x, m = Some x /\ k x = Ret (Some b).
Proof. destruct m; [|done]. cbn. eauto. Qed.

Lemma bind_try_inv {A B} (m : outcome (option A)) (k : A -> outcome (option B)) b :
  obind m (fun r => otry r k) = Ret (Some b) -> exists x, m = Ret (Some x) /\ k x = Ret (Some b).
Proof. destruct m as [r|]; [|done]. cbn. intros H%try_inv. destruct H as (x & -> & H). eauto. Qed.

Section sound.
Variable decode : list byte -> parsed.

(** What is accepted is the encoding of a type that fits. *)
Definition decodes_only : Prop := forall metadata d rest,
  decode metadata = Ret (Some (d, rest)) ->
  exists t, metadata = print t ++ rest /\ type_wf t /\ type_fits t /\ d = type_details_of t.

Hypothesis Hdecode : decodes_only.

Lemma struct_fields_sound n tuple input capacity a d rest :
  (capacity < 2 ^ 32)%N -> (1 <= a)%N ->
  struct_fields decode n tuple input capacity a = Ret (Some (d, rest)) ->
  exists fs, num_fields fs = n /\ input = print_fields tuple fs ++ rest /\ fields_wf tuple fs /\ fields_fit fs /\
    (capacity + fields_capacity fs < 2 ^ 32)%N /\
    d = details (capacity + fields_capacity fs) (N.max a (fields_alignment fs)).
Proof.
  revert input capacity a. induction n as [|n IH]; intros input capacity a Hc Ha; cbn [struct_fields].
  - intros [= <- <-]. exists FNil. cbn. rewrite N.add_0_r, N.max_l by done. done.
  - intros (input' & Hi & H)%try_inv. apply bind_try_inv in H as ([d' input2] & Hd & H).
    apply try_inv in H as (capacity' & Hadd & H). unfold checked_add_u32 in Hadd. case_decide; [|done].
    injection Hadd as <-. apply Hdecode in Hd as (t & -> & Hw & Hf & ->). rewrite larger_alignment_max in H.
    apply IH in H as (fs & <- & -> & Hws & Hfs & Hlt & ->); cbn [recommended_capacity alignment type_details_of details] in *; [|lia..].
    assert (exists name, (if tuple then name = [] else name_ok name) /\
        input = (if tuple then [] else print_name name) ++ print t ++ print_fields tuple fs ++ rest) as (name & Hn & ->).
    { destruct tuple; [by exists []; injection Hi as <-|]. apply skip_name_inv in Hi as (name & -> & Hn). eauto. }
    exists (FCons name t fs). cbn [num_fields print_fields fields_wf fields_fit fields_capacity fields_alignment].
    rewrite <- !app_assoc. split_and!; try done; try lia. f_equal; lia.
Qed.

Lemma struct_sound input count tuple d rest :
  small_count count -> struct_type_details decode input count tuple = Ret (Some (d, rest)) ->
  exists name fs, input = print_name name ++ print_count count (num_fields fs) ++ print_fields tuple fs ++ rest /\
    name_ok name /\ count_ok count (num_fields fs) /\ fields_wf tuple fs /\ fields_fit fs /\
    d = details (fields_capacity fs) (fields_alignment fs).
Proof.
  intros Hs (input1 & Hn & H)%try_inv. apply try_inv in H as ([n input2] & Hc & H).
  apply skip_name_inv in Hn as (name & -> & Hn). apply read_count_inv in Hc as [-> Hc]; [|done].
  apply struct_fields_sound in H as (fs & Hf & -> & Hw & Hfit & _ & ->); [|lia..].
  exists name, fs. rewrite <- Hf in *. pose proof (fields_alignment_pos fs).
  split_and!; try done. f_equal; lia.
Qed.

Lemma enum_variants_sound n has_fields input current a d rest :
  (1 <= a)%N -> enum_variants decode n has_fields input current a = Ret (Some (d, rest)) ->
  exists vs capacity, num_variants vs = n /\ input = print_variants has_fields vs ++ rest /\
    variants_wf has_fields vs /\ variants_fit capacity vs /\
    (current = Some capacity \/ current = None /\ capacity = capacity_of (TEnum Enum [] vs)) /\
    d = details capacity (N.max a (variants_alignment vs)).
Proof.
  revert input current a. induction n as [|n IH]; intros input current a Ha; cbn [enum_variants].
  - intros [= <- <-]. exists VNil, (default 0%N current). cbn. rewrite N.max_l by done.
    split_and!; try done. destruct current; [by left|by right].
  - intros (? & _ & H)%try_inv. apply bind_try_inv in H as ([d' input'] & Hd & H).
    apply struct_sound in Hd as (name & fs & -> & Hn & Hc & Hw & Hf & ->); [|by destruct has_fields].
    cbn [recommended_capacity alignment details] in H. unfold add_u32 in H. case_decide as Hlt; [|done].
    cbn [obind] in H. rewrite larger_alignment_max in H. cbn [alignment details] in H.
    pose proof (fields_alignment_pos fs).
    assert (exists vs, num_variants vs = n /\ input' = print_variants has_fields vs ++ rest /\
        variants_wf has_fields vs /\ variants_fit (fields_capacity fs + 1) vs /\
        (current = Some (fields_capacity fs + 1)%N \/ current = None) /\
        d = details (fields_capacity fs + 1) (N.max (N.max a (fields_alignment fs)) (variants_alignment vs)))
      as (vs & <- & -> & Hws & Hfs & Hcur & ->).
    { destruct current as [c|]; [case_decide as Hne; [done|]; subst c|];
        apply IH in H as (vs & c & Hvs & Hi & Hws & Hfs & Hcur & Hd); [|lia| |lia];
        (destruct Hcur as [[= <-]|[Hcur _]]; [|done]); exists vs; split_and!; eauto. }
    exists (VCons name fs vs), (fields_capacity fs + 1)%N.
    cbn [num_variants print_variants variants_wf variants_fit variants_alignment capacity_of].
    rewrite <- !app_assoc. split_and!; try done; [|f_equal; lia].
    destruct Hcur as [-> | ->]; [by left|by right].
Qed.

Lemma decode_form_sound kind metadata d rest :
  decode_form decode (form_of kind) metadata = Ret (Some (d, rest)) ->
  exists t, kind_byte kind :: metadata = print t ++ rest /\ type_wf t /\ type_fits t /\ d = type_details_of t.
Proof.
  pose proof (form_small kind) as Hs. unfold count_of in Hs.
  destruct (form_of kind) as [c a|count tuple|count hf|w|w o a| |] eqn:E; cbn [decode_form]; intros H.
  - injection H as <- <-. exists (TPlain kind). unfold type_details_of. cbn. by rewrite E.
  - apply struct_sound in H as (name & fs & -> & Hn & Hc & Hw & Hf & ->); [|done].
    exists (TStruct kind name fs). unfold type_details_of. cbn. unfold count_of, flag_of. rewrite E. by rewrite <- !app_assoc.
  - apply try_inv in H as (input1 & Hn & H). apply try_inv in H as ([n input2] & Hc & H).
    apply skip_name_inv in Hn as (name & -> & Hn). apply read_count_inv in Hc as [-> Hc]; [|done].
    apply enum_variants_sound in H as (vs & c & Hv & -> & Hw & Hf & Hcap & ->); [|done].
    destruct Hcap as [?|[_ ->]]; [done|]. rewrite <- Hv in *. exists (TEnum kind name vs).
    unfold type_details_of. cbn. unfold count_of, flag_of. rewrite E. rewrite <- !app_assoc.
    split_and!; try done. by rewrite N.max_r by (apply variants_alignment_pos).
  - apply try_inv in H as ([n input] & Hn & H). apply bind_try_inv in H as ([d' input2] & Hd & H).
    apply try_inv in H as (c & Hm & H). unfold checked_mul_u32 in Hm. case_decide; [|done]. injection Hm as <-.
    injection H as <- <-. apply read_le_inv in Hn as [-> Hn]. apply Hdecode in Hd as (t & -> & Hw & Hf & ->).
    exists (TSequence kind n t). unfold type_details_of. cbn. unfold width_of. rewrite E. by rewrite <- app_assoc.
  - apply try_inv in H as ([n input] & Hn & H). injection H as <- <-. apply read_le_inv in Hn as [-> Hn].
    exists (TSized kind n). unfold type_details_of. cbn. unfold width_of. by rewrite E.
  - apply bind_try_inv in H as ([d' input2] & Hd & H). injection H as <- <-.
    apply Hdecode in Hd as (t & -> & Hw & Hf & ->). exists (TNested kind t). unfold type_details_of. cbn. by rewrite E.
  - apply bind_try_inv in H as ([d' input2] & Hd & H). injection H as <- <-.
    apply Hdecode in Hd as (t & -> & Hw & Hf & ->). exists (TNested kind t). unfold type_details_of. cbn. by rewrite E.
Qed.
End sound.

Lemma decode_sound fuel : decodes_only (decode_type_details fuel).
Proof.
  induction fuel as [|fuel IH]; intros metadata d rest H; [done|]. destruct metadata as [|b metadata]; [done|].
  cbn [decode_type_details read_u8 otry] in H. destruct (try_from (Byte.to_N b)) as [kind|] eqn:E; [|done].
  apply kind_byte_inv in E as ->. apply (decode_form_sound (decode_type_details fuel) IH).
  rewrite <- H, <- decode_by_form. cbn [decode_type_details read_u8 otry]. by rewrite kind_of_byte.
Qed.

Lemma type_details_iff metadata d rest :
  type_details metadata = Ret (Some (d, rest)) <->
  exists t, metadata = print t ++ rest /\ type_wf t /\ type_fits t /\ d = type_details_of t.
Proof.
  split; [apply decode_sound|]. intros (t & -> & Hw & Hf & ->). apply decode_complete; [lia|done..].
Qed.

(** C15. Metadata decodes to details and a rest if and only if it is the documented encoding of
    a type whose sizes fit 32 bits and whose enum variants have the same size, followed by the
    rest; the details are the sum over the parts and the largest alignment the decoder knows of.
    They are size and alignment in the layout Rust gives to the type, or to the recommended
    number of elements, when no struct or enum in it is padded, which the derive macro asserts,
    and when it has neither of two kinds of types whose layout the decoder gets wrong: elements
    of which none are recommended, with an alignment above that of bytes, and an odd capacity of
    bytes with a length of two bytes. *)
Theorem type_details_exact metadata d rest :
  (type_details metadata = Ret (Some (d, rest)) <->
   exists t, metadata = print t ++ rest /\ type_wf t /\ type_fits t /\ d = type_details_of t) /\
  (forall t, metadata = print t ++ rest -> type_wf t -> type_fits t -> unpadded t ->
    let '(size, alignment) := layout_of t in type_details metadata = Ret (Some (details size alignment, rest))).
Proof.
  split; [apply type_details_iff|]. intros t -> Hw Hf Hu. rewrite (proj1 layout_details) by done.
  apply type_details_iff. by exists t.
Qed.

(** A balance, then bytes with their length in an array, without padding *)
Definition sample_layout : io_type :=
  TStruct Struct2 [] (FCons [] (TPlain U128)
    (FCons [] (TSequence Array8b 2 (TSized FixedCapacityBytes16b 6)) FNil)).

Lemma type_details_exact_witness :
  layout_of sample_layout = (32, 16)%N /\ type_details (print sample_layout) = Ret (Some (details 32 16, [])).
Proof.
  split; [reflexivity|].
  apply (proj2 (type_details_exact (print sample_layout) (details 32 16) []) sample_layout).
  1: by rewrite app_nil_r. all: vm_compute; intuition lia.
Defined.

(** The two exceptions *)
Example elements_alignment_unknown :
  layout_of (TNested VariableElements0 (TPlain U64)) = (0, 8)%N /\
  type_details (print (TNested VariableElements0 (TPlain U64))) = Ret (Some (details 0 1, [])).
Proof. split; reflexivity. Qed.

Example odd_capacity_padded :
  layout_of (TSized FixedCapacityBytes16b 3) = (6, 2)%N /\
  type_details (print (TSized FixedCapacityBytes16b 3)) = Ret (Some (details 5 2, [])).
Proof. split; reflexivity. Qed.

(** ** The fuel is enough *)

Section agree.
Variables decode decode' : list byte -> parsed.
Variable bound : nat.
Hypothesis Hagree : forall metadata, length metadata < bound -> decode metadata = decode' metadata.
Hypothesis Hsound : decodes_only decode.

Lemma skip_name_shorter input rest : skip_name input = Some rest -> length rest < length input.
Proof. intros (name & -> & _)%skip_name_inv. rewrite length_app. cbn. lia. Qed.

Lemma read_count_shorter count input n rest : read_count count input = Some (n, rest) -> length rest <= length input.
Proof. destruct count; [by intros [= _ <-]|]. destruct input; [done|]. cbn. intros [= _ <-]. lia. Qed.

Lemma decode_shorter metadata d rest : decode metadata = Ret (Some (d, rest)) -> length rest <= length metadata.
Proof. intros (t & -> & _)%Hsound. rewrite length_app. lia. Qed.

Lemma struct_fields_agree n tuple input capacity a :
  length input < bound ->
  struct_fields decode n tuple input capacity a = struct_fields decode' n tuple input capacity a.
Proof.
  revert input capacity a. induction n as [|n IH]; intros input capacity a Hl; [done|]. cbn [struct_fields].
  destruct (if tuple then Some input else skip_name input) as [input'|] eqn:E; [|done]. cbn [otry].
  assert (length input' <= length input).
  { destruct tuple; [by injection E as <-|]. apply skip_name_shorter in E. lia. }
  rewrite <- Hagree by lia. destruct (decode input') as [[[d rest]|]|] eqn:Hd; [|done..]. cbn [obind otry].
  apply decode_shorter in Hd. destruct (checked_add_u32 _ _); [|done]. cbn [otry]. apply IH. lia.
Qed.

Lemma struct_agree input count tuple :
  length input <= bound -> struct_type_details decode input count tuple = struct_type_details decode' input count tuple.
Proof.
  intros Hl. unfold struct_type_details. destruct (skip_name input) as [input1|] eqn:E; [|done]. cbn [otry].
  apply skip_name_shorter in E. destruct (read_count count input1) as [[n input2]|] eqn:E2; [|done]. cbn [otry].
  apply read_count_shorter in E2. apply struct_fields_agree. lia.
Qed.

Lemma enum_variants_agree n has_fields input current a :
  length input <= bound ->
  enum_variants decode n has_fields input current a = enum_variants decode' n has_fields input current a.
Proof.
  revert input current a. induction n as [|n IH]; intros input current a Hl; [done|]. cbn [enum_variants].
  destruct input as [|b input]; [done|]. cbn [otry]. rewrite <- struct_agree by done.
  destruct (struct_type_details decode _ _ _) as [[[d rest]|]|] eqn:Hd; [|done..]. cbn [obind otry].
  apply (struct_sound decode Hsound) in Hd as (name & fs & Hi & _); [|by destruct has_fields].
  assert (length rest <= length (b :: input)) by (rewrite Hi, !length_app; lia).
  destruct (add_u32 _ _); [|done]. cbn [obind].
  destruct current; [case_decide; [done|]|]; apply IH; lia.
Qed.

Lemma decode_form_agree f metadata :
  length metadata < bound -> decode_form decode f metadata = decode_form decode' f metadata.
Proof.
  intros Hl. destruct f; cbn [decode_form]; try done.
  - apply struct_agree. lia.
  - unfold enum_capacity. destruct (skip_name metadata) as [input1|] eqn:E; [|done]. cbn [otry].
    apply skip_name_shorter in E. destruct (read_count count input1) as [[n input2]|] eqn:E2; [|done]. cbn [otry].
    apply read_count_shorter in E2. apply enum_variants_agree. lia.
  - unfold sequence_details. destruct (read_le width metadata) as [[n input]|] eqn:E; [|done]. cbn [otry].
    apply read_le_inv in E as [-> _]. rewrite length_app in Hl. by rewrite Hagree by lia.
  - by rewrite Hagree.
  - by rewrite Hagree.
Qed.
End agree.

Lemma decode_fuel fuel fuel' metadata :
  length metadata < fuel -> length metadata < fuel' ->
  decode_type_details fuel metadata = decode_type_details fuel' metadata.
Proof.
  revert fuel' metadata. induction fuel as [|fuel IH]; intros [|fuel'] metadata Hl Hl'; try lia.
  destruct metadata as [|b metadata]; [done|]. cbn [length] in *.
  destruct (try_from (Byte.to_N b)) as [kind|] eqn:E; [|cbn; by rewrite E].
  apply kind_byte_inv in E as ->. rewrite !decode_by_form.
  apply (decode_form_agree _ _ (S (length metadata))); [|apply decode_sound|lia]. intros m Hm. apply IH; lia.
Qed.

(** The size of a variant is computed with an addition that may overflow: bytes of an enum
    with one variant of [2 ^ 32 - 1] bytes. *)
Example enum_size_overflows :
  type_details [kind_byte Enum1; x00; x00; x01; x00; kind_byte VariableBytes32b; xff; xff; xff; xff] = Fault.
Proof. reflexivity. Qed.

(** ** Decoding returns

    The addition of the byte for the variant is the only one that is not checked. *)

(** No fields described in [l], with a name and their number before them as in the variants
    of an enum, take [2 ^ 32 - 1] bytes. *)
Definition no_full_variant (l : list byte) : Prop := forall name fs rest,
  print_name name ++ print_count None (num_fields fs) ++ print_fields false fs ++ rest `suffix_of` l ->
  name_ok name -> count_ok None (num_fields fs) -> fields_wf false fs -> fields_fit fs ->
  fields_capacity fs <> (2 ^ 32 - 1)%N.

Lemma no_full_variant_suffix l l' : no_full_variant l -> l' `suffix_of` l -> no_full_variant l'.
Proof. intros H Hs name fs rest Hl. apply (H name fs rest). by transitivity l'. Qed.

Section returns.
Variable decode : list byte -> parsed.
Variable l : list byte.
Hypothesis Hsound : decodes_only decode.
Hypothesis Hreturns : forall l', l' `suffix_of` l -> exists r, decode l' = Ret r.
Hypothesis Hvariants : no_full_variant l.

Lemma skip_name_suffix input rest : skip_name input = Some rest -> rest `suffix_of` input.
Proof. intros (name & -> & _)%skip_name_inv. by exists (print_name name). Qed.

Lemma read_count_suffix count input n rest : read_count count input = Some (n, rest) -> rest `suffix_of` input.
Proof.
  destruct count; [by intros [= _ <-]|]. destruct input as [|b input]; [done|]. intros [= _ <-]. by exists [b].
Qed.

Lemma struct_fields_returns n tuple input capacity a :
  input `suffix_of` l -> exists r, struct_fields decode n tuple input capacity a = Ret r.
Proof.
  revert input capacity a. induction n as [|n IH]; intros input capacity a Hl; cbn [struct_fields]; [eauto|].
  destruct (if tuple then Some input else skip_name input) as [input'|] eqn:E; cbn [otry]; [|eauto].
  assert (Hl' : input' `suffix_of` l).
  { destruct tuple; [by injection E as <-|]. etrans; [by eapply skip_name_suffix|done]. }
  destruct (Hreturns input' Hl') as [[[d rest]|] Hd]; rewrite Hd; cbn [obind otry]; [|eauto].
  destruct (checked_add_u32 _ _); cbn [otry]; [|eauto]. apply IH.
  apply Hsound in Hd as (t & -> & _). etrans; [|done]. by exists (print t).
Qed.

Lemma struct_returns input count tuple :
  input `suffix_of` l -> exists r, struct_type_details decode input count tuple = Ret r.
Proof.
  intros Hl. unfold struct_type_details. destruct (skip_name input) as [input1|] eqn:E; cbn [otry]; [|eauto].
  destruct (read_count count input1) as [[n input2]|] eqn:E2; cbn [otry]; [|eauto]. apply struct_fields_returns.
  etrans; [by eapply read_count_suffix|]. etrans; [by eapply skip_name_suffix|done].
Qed.

Lemma enum_variants_returns n has_fields input current a :
  input `suffix_of` l -> exists r, enum_variants decode n has_fields input current a = Ret r.
Proof.
  revert input current a. induction n as [|n IH]; intros input current a Hl; cbn [enum_variants]; [eauto|].
  destruct (match input with [] => None | _ => Some tt end); cbn [otry]; [|eauto].
  destruct (struct_returns input (if has_fields then None else Some 0%N) false Hl) as [[[d rest]|] Hd];
    rewrite Hd; cbn [obind otry]; [|eauto].
  apply (struct_sound decode Hsound) in Hd as (name & fs & -> & Hn & Hc & Hw & Hf & ->); [|by destruct has_fields].
  cbn [recommended_capacity details].
  assert (Hrest : rest `suffix_of` l).
  { etrans; [|exact Hl]. rewrite !app_assoc. by eexists. }
  assert (Hlt : (fields_capacity fs + 1 < 2 ^ 32)%N).
  { destruct has_fields.
    - pose proof (Hvariants name fs rest Hl Hn Hc Hw Hf). destruct fs, Hf; lia.
    - destruct Hc as [_ Hc]. destruct fs; [done|]. cbn in Hc. lia. }
  unfold add_u32. rewrite decide_True by done. cbn [obind].
  destruct current; [case_decide; [eauto|]|]; by apply IH.
Qed.

Lemma decode_form_returns f metadata : metadata `suffix_of` l -> exists r, decode_form decode f metadata = Ret r.
Proof.
  intros Hl. destruct f; cbn [decode_form]; [eauto|by apply struct_returns|..].
  - unfold enum_capacity. destruct (skip_name metadata) as [input1|] eqn:E; cbn [otry]; [|eauto].
    destruct (read_count count input1) as [[n input2]|] eqn:E2; cbn [otry]; [|eauto]. apply enum_variants_returns.
    etrans; [by eapply read_count_suffix|]. etrans; [by eapply skip_name_suffix|done].
  - unfold sequence_details. destruct (read_le width metadata) as [[n input]|] eqn:E; cbn [otry]; [|eauto].
    apply read_le_inv in E as [-> _]. destruct (Hreturns input) as [[[d rest]|] ->]; cbn [obind otry]; [|eauto|eauto].
    + etrans; [|exact Hl]. by eexists.
    + destruct (checked_mul_u32 _ _); cbn [otry]; eauto.
  - unfold bytes_details. destruct (read_le width metadata) as [[n input]|]; cbn [otry]; eauto.
  - destruct (Hreturns metadata Hl) as [[[d rest]|] ->]; cbn [obind otry]; eauto.
  - destruct (Hreturns metadata Hl) as [[[d rest]|] ->]; cbn [obind otry]; eauto.
Qed.
End returns.

Lemma decode_returns fuel metadata :
  length metadata < fuel -> no_full_variant metadata -> exists r, decode_type_details fuel metadata = Ret r.
Proof.
  revert metadata. induction fuel as [|fuel IH]; intros metadata Hl Hv; [lia|].
  destruct metadata as [|b metadata]; [by eexists|].
  destruct (try_from (Byte.to_N b)) as [kind|] eqn:E; [|cbn; rewrite E; by eexists].
  apply kind_byte_inv in E as ->. rewrite decode_by_form.
  assert (Hv' : no_full_variant metadata) by (eapply no_full_variant_suffix; [exact Hv|by eexists [_]]).
  apply (decode_form_returns _ metadata); [apply decode_sound| |done|done].
  intros l' Hs. apply IH; [apply suffix_length in Hs; cbn in Hl; lia|by eapply no_full_variant_suffix].
Qed.

(** Decoding returns on all bytes but those. *)
Lemma type_details_returns metadata : no_full_variant metadata -> exists r, type_details metadata = Ret r.
Proof. intros H. apply decode_returns; [lia|done]. Qed.

(** Whether there are such fields can be found out with the decoder. *)
Definition full_variant_at (l : list byte) : bool :=
  match struct_type_details (decode_type_details (S (length l))) l None false with
  | Ret (Some (d, _)) => (recommended_capacity d =? 2 ^ 32 - 1)%N
  | _ => false
  end.

Lemma no_full_variant_by_drop l :
  forallb (fun k => negb (full_variant_at (drop k l))) (seq 0 (S (length l))) = true -> no_full_variant l.
Proof.
  intros H name fs rest [k Hk] Hn Hc Hw Hf Hcap. rewrite forallb_forall in H. specialize (H (length k)).
  rewrite Hk, drop_app_length, in_seq, length_app in H. specialize (H ltac:(lia)). unfold full_variant_at in H.
  set (m := print_name name ++ _) in *.
  unfold m at 2 in H. rewrite (struct_print _ (S (length m))) in H; [|apply decode_complete|done..|].
  - cbn [recommended_capacity details] in H. rewrite Hcap in H. done.
  - unfold m. rewrite !length_app. lia.
Qed.

(** ** Compacting is exact *)

Abbreviation compacted := (outcome (option (list byte * output))).

(** [compact_metadata], by the form of the kind *)
Definition compact_form (compact : list byte -> output -> compacted) (f : form) (input : list byte) (o : output)
    : compacted :=
  match f with
  | Plain _ _ => Ret (Some (input, o))
  | Structure count tuple => compact_struct compact input o count tuple
  | Enumeration count has_fields => compact_enum compact input o count has_fields
  | Sequence w => try? (input, o) := copy_n_bytes input o w in compact input o
  | Sized w _ _ => Ret (copy_n_bytes input o w)
  | Elements | Packed => compact input o
  end.

Lemma compact_by_form fuel kind input o :
  compact_metadata (S fuel) (kind_byte kind :: input) o =
  try? o := write_u8 (as_u8 (compact_kind kind)) o in
  compact_form (compact_metadata fuel) (form_of kind) input o.
Proof.
  cbn [compact_metadata read_u8 otry]. rewrite kind_of_byte, as_u8_kind_byte. cbn [otry]. by destruct kind.
Qed.

(** The compact form of a type *)
Fixpoint compact_print (t : io_type) : list byte :=
  match t with
  | TPlain kind => [kind_byte (compact_kind kind)]
  | TStruct kind _ fs =>
      kind_byte (compact_kind kind) :: x00 :: print_count (count_of kind) (num_fields fs) ++ compact_print_fields fs
  | TEnum kind _ vs =>
      kind_byte (compact_kind kind) :: x00 :: print_count (count_of kind) (num_variants vs) ++
        compact_print_variants (flag_of kind) vs
  | TSequence kind n t => kind_byte (compact_kind kind) :: le_split (width_of kind) n ++ compact_print t
  | TSized kind n => kind_byte (compact_kind kind) :: le_split (width_of kind) n
  | TNested kind t => kind_byte (compact_kind kind) :: compact_print t
  end
with compact_print_fields (fs : fields) : list byte :=
  match fs with FNil => [] | FCons _ t fs => compact_print t ++ compact_print_fields fs end
with compact_print_variants (has_fields : bool) (vs : variants) : list byte :=
  match vs with
  | VNil => []
  | VCons _ fs vs =>
      x00 :: print_count (if has_fields then None else Some 0%N) (num_fields fs) ++
        compact_print_fields fs ++ compact_print_variants has_fields vs
  end.

(** The output after [l] has been written *)
Definition after (o : output) (l : list byte) : output := Output (written o ++ l) (room o - length l).

Lemma after_nil o : after o [] = o.
Proof. destruct o. unfold after. cbn. by rewrite app_nil_r, Nat.sub_0_r. Qed.

Lemma after_app o l l' : after (after o l) l' = after o (l ++ l').
Proof. unfold after. cbn. rewrite <- app_assoc, length_app. f_equal. lia. Qed.

Lemma write_u8_after n o : 1 <= room o -> write_u8 n o = Some (after o [byte_of n]).
Proof. unfold write_u8, after. destruct (room o); [lia|]. intros _. cbn. by rewrite Nat.sub_0_r. Qed.

Lemma write_u8_inv n o o' : write_u8 n o = Some o' -> 1 <= room o /\ o' = after o [byte_of n].
Proof.
  unfold write_u8, after. destruct (room o); [done|]. intros [= <-]. cbn. rewrite Nat.sub_0_r. split; [lia|done].
Qed.

Lemma copy_n_bytes_after l rest o :
  length l <= room o -> copy_n_bytes (l ++ rest) o (length l) = Some (rest, after o l).
Proof. intros Hr. unfold copy_n_bytes. rewrite split_at_checked_app by done. by rewrite decide_True. Qed.

Lemma copy_n_bytes_inv input o n rest o' :
  copy_n_bytes input o n = Some (rest, o') ->
  exists l, input = l ++ rest /\ length l = n /\ n <= room o /\ o' = after o l.
Proof.
  unfold copy_n_bytes. destruct (split_at_checked n input) as [[l r]|] eqn:E; [|done]. case_decide; [|done].
  intros [= <- <-]. apply split_at_checked_inv in E as [-> <-]. by exists l.
Qed.

Lemma copy_count_after count n rest o :
  count_ok count n -> length (print_count count n) <= room o ->
  copy_count count (print_count count n ++ rest) o = Some (N.of_nat n, rest, after o (print_count count n)).
Proof.
  intros [Hn Hc] Hr. destruct count as [c|]; cbn [copy_count print_count app read_u8 length] in *.
  - by rewrite after_nil, Hc.
  - rewrite small_byte by done. by rewrite write_u8_after.
Qed.

Lemma copy_count_inv count input o n rest o' :
  small_count count -> copy_count count input o = Some (n, rest, o') ->
  input = print_count count (N.to_nat n) ++ rest /\ count_ok count (N.to_nat n) /\
  length (print_count count (N.to_nat n)) <= room o /\ o' = after o (print_count count (N.to_nat n)).
Proof.
  intros Hs. unfold copy_count, count_ok. destruct count as [c|]; cbn [print_count small_count length] in *.
  - intros [= <- <- <-]. rewrite after_nil. split_and!; try done; lia.
  - destruct input as [|b input]; [done|]. cbn [read_u8].
    destruct (write_u8 _ o) as [o1|] eqn:E; [|done]. intros [= <- <- <-]. apply write_u8_inv in E as [Hr ->].
    rewrite byte_of_nat, byte_of_to_N. split_and!; try done. apply byte_small.
Qed.

Section compact_complete.
Variable compact : list byte -> output -> compacted.
Variable bound : nat.

Definition compacts (t : io_type) : Prop :=
  forall rest o, length (print t ++ rest) < bound -> type_wf t -> length (compact_print t) <= room o ->
  compact (print t ++ rest) o = Ret (Some (rest, after o (compact_print t))).

Fixpoint fields_compact (fs : fields) : Prop :=
  match fs with FNil => True | FCons _ t fs => compacts t /\ fields_compact fs end.
Fixpoint variants_compact (vs : variants) : Prop :=
  match vs with VNil => True | VCons _ fs vs => fields_compact fs /\ variants_compact vs end.

Lemma compact_fields_print fs tuple rest o :
  fields_compact fs -> fields_wf tuple fs -> length (print_fields tuple fs ++ rest) < bound ->
  length (compact_print_fields fs) <= room o ->
  compact_fields compact (num_fields fs) tuple (print_fields tuple fs ++ rest) o =
    Ret (Some (rest, after o (compact_print_fields fs))).
Proof.
  revert o. induction fs as [|name t fs IH]; intros o Hd Hwf Hl Hr; [cbn; by rewrite after_nil|].
  destruct Hd as [Hd Hds], Hwf as (Hn & Hwf & Hwfs). cbn [num_fields compact_fields print_fields compact_print_fields] in *.
  rewrite !length_app in *. rewrite <- !app_assoc.
  replace (if tuple then Some _ else skip_name _) with (Some (print t ++ print_fields tuple fs ++ rest))
    by (destruct tuple; [done|by rewrite skip_name_print]).
  cbn [otry]. rewrite Hd by (done || rewrite ?length_app; lia). cbn [obind otry].
  rewrite IH by (done || (rewrite ?length_app; cbn [room after]; lia)). by rewrite after_app.
Qed.

Lemma compact_struct_print name count tuple fs rest o :
  fields_compact fs -> name_ok name -> count_ok count (num_fields fs) -> fields_wf tuple fs ->
  length (print_fields tuple fs ++ rest) < bound ->
  length (x00 :: print_count count (num_fields fs) ++ compact_print_fields fs) <= room o ->
  compact_struct compact
    (print_name name ++ print_count count (num_fields fs) ++ print_fields tuple fs ++ rest) o count tuple =
    Ret (Some (rest, after o (x00 :: print_count count (num_fields fs) ++ compact_print_fields fs))).
Proof.
  intros Hd Hn Hc Hwf Hl Hr. cbn [length] in Hr. rewrite length_app in Hr.
  unfold compact_struct. cbn [print_name app read_u8 otry]. rewrite small_byte, Nat2N.id by done.
  rewrite write_u8_after by lia. cbn [otry]. rewrite get_from_app. cbn [otry].
  rewrite copy_count_after by (done || (cbn; lia)). cbn [otry]. rewrite Nat2N.id.
  rewrite compact_fields_print by (done || (cbn; lia)). by rewrite !after_app.
Qed.

Lemma compact_variants_print vs has_fields rest o :
  variants_compact vs -> variants_wf has_fields vs -> length (print_variants has_fields vs ++ rest) <= bound ->
  length (compact_print_variants has_fields vs) <= room o ->
  compact_variants compact (num_variants vs) has_fields (print_variants has_fields vs ++ rest) o =
    Ret (Some (rest, after o (compact_print_variants has_fields vs))).
Proof.
  revert o. induction vs as [|name fs vs IH]; intros o Hd Hwf Hl Hr; [cbn; by rewrite after_nil|].
  destruct Hd as [Hd Hds], Hwf as (Hn & Hcount & Hwf & Hwfs).
  cbn [num_variants compact_variants print_variants compact_print_variants length] in *.
  rewrite !length_app in *. cbn [print_name length] in Hl. rewrite <- !app_assoc.
  rewrite compact_struct_print by (done || (cbn [length]; rewrite ?length_app; lia)). cbn [obind otry].
  rewrite IH by (done || (rewrite ?length_app; cbn [room after length]; rewrite ?length_app; lia)).
  rewrite after_app. cbn [app]. by rewrite <- app_assoc.
Qed.
End compact_complete.

Ltac compact_kind_of kind :=
  rewrite compact_by_form, write_u8_after by (cbn [length] in *; lia); cbn [otry];
  unfold count_of, flag_of, width_of in *; destruct (form_of kind); try done; cbn [compact_form].

Lemma compact_complete :
  (forall t fuel, compacts (compact_metadata fuel) fuel t) /\
  (forall fs fuel, fields_compact (compact_metadata fuel) fuel fs) /\
  (forall vs fuel, variants_compact (compact_metadata fuel) fuel vs).
Proof.
  apply io_type_mutind; try (intros; cbn; by auto).
  - intros kind fuel rest o Hl Hwf Hr. destruct fuel; [lia|]. cbn [print app compact_print type_wf] in *.
    by compact_kind_of kind.
  - intros kind name fs IH fuel rest o Hl Hwf Hr. destruct fuel as [|fuel]; [lia|]. cbn [print app compact_print type_wf] in *.
    compact_kind_of kind. destruct Hwf as (Hn & Hc & Hw). cbn [length] in *. rewrite !length_app in *. rewrite <- !app_assoc.
    rewrite (compact_struct_print _ fuel) by (done || (cbn [length room after]; rewrite ?length_app; lia)).
    by rewrite after_app.
  - intros kind name vs IH fuel rest o Hl Hwf Hr. destruct fuel as [|fuel]; [lia|]. cbn [print app compact_print type_wf] in *.
    compact_kind_of kind. destruct Hwf as (Hn & Hc & Hw). cbn [length] in *. rewrite !length_app in *. rewrite <- !app_assoc.
    unfold compact_enum. cbn [print_name app read_u8 otry]. rewrite small_byte, Nat2N.id by done.
    rewrite write_u8_after by (cbn; lia). cbn [otry]. rewrite get_from_app. cbn [otry].
    rewrite copy_count_after by (done || (cbn; lia)). cbn [otry]. rewrite Nat2N.id.
    rewrite (compact_variants_print _ fuel) by (done || (cbn [length room after]; rewrite ?length_app; lia)).
    by rewrite !after_app.
  - intros kind n t IH fuel rest o Hl Hwf Hr. destruct fuel as [|fuel]; [lia|]. cbn [print app compact_print type_wf] in *.
    compact_kind_of kind. destruct Hwf as [Hn Hw]. cbn [length] in *. rewrite !length_app in *. rewrite <- !app_assoc.
    rewrite <- (length_le_split width n) at 2. rewrite copy_n_bytes_after by (cbn; lia). cbn [otry].
    rewrite IH by (done || (rewrite ?length_app; cbn; lia)). by rewrite !after_app.
  - intros kind n fuel rest o Hl Hwf Hr. destruct fuel as [|fuel]; [lia|]. cbn [print app compact_print type_wf] in *.
    compact_kind_of kind. cbn [length] in *. rewrite <- (length_le_split width n) at 2.
    rewrite copy_n_bytes_after by (cbn; lia). by rewrite after_app.
  - intros kind t IH fuel rest o Hl Hwf Hr. destruct fuel as [|fuel]; [lia|]. cbn [print app compact_print type_wf] in *.
    compact_kind_of kind; cbn [length] in *; rewrite IH by (done || (cbn; lia)); by rewrite after_app.
Qed.

Section compact_sound.
Variable compact : list byte -> output -> compacted.

Definition compacts_only : Prop := forall input o rest o',
  compact input o = Ret (Some (rest, o')) ->
  exists t, input = print t ++ rest /\ type_wf t /\ length (compact_print t) <= room o /\ o' = after o (compact_print t).

Hypothesis Hcompact : compacts_only.

Lemma compact_fields_sound n tuple input o rest o' :
  compact_fields compact n tuple input o = Ret (Some (rest, o')) ->
  exists fs, num_fields fs = n /\ input = print_fields tuple fs ++ rest /\ fields_wf tuple fs /\
    length (compact_print_fields fs) <= room o /\ o' = after o (compact_print_fields fs).
Proof.
  revert input o. induction n as [|n IH]; intros input o; cbn [compact_fields].
  - intros [= <- <-]. exists FNil. cbn. rewrite after_nil. split_and!; try done. lia.
  - intros (input' & Hi & H)%try_inv. apply bind_try_inv in H as ([input2 o2] & Hd & H).
    apply Hcompact in Hd as (t & -> & Hw & Hr & ->). apply IH in H as (fs & <- & -> & Hws & Hrs & ->).
    assert (exists name, (if tuple then name = [] else name_ok name) /\
        input = (if tuple then [] else print_name name) ++ print t ++ print_fields tuple fs ++ rest) as (name & Hn & ->).
    { destruct tuple; [by exists []; injection Hi as <-|]. apply skip_name_inv in Hi as (name & -> & Hn). eauto. }
    exists (FCons name t fs). cbn [num_fields print_fields fields_wf compact_print_fields room after] in *.
    rewrite <- !app_assoc, after_app, length_app. split_and!; try done. lia.
Qed.

Lemma compact_struct_sound input o count tuple rest o' :
  small_count count -> compact_struct compact input o count tuple = Ret (Some (rest, o')) ->
  exists name fs, input = print_name name ++ print_count count (num_fields fs) ++ print_fields tuple fs ++ rest /\
    name_ok name /\ count_ok count (num_fields fs) /\ fields_wf tuple fs /\
    length (x00 :: print_count count (num_fields fs) ++ compact_print_fields fs) <= room o /\
    o' = after o (x00 :: print_count count (num_fields fs) ++ compact_print_fields fs).
Proof.
  intros Hs ([l input1] & Hl & H)%try_inv. apply try_inv in H as (o1 & Ho & H). apply write_u8_inv in Ho as [Hr ->].
  apply try_inv in H as (input2 & Hg & H). apply try_inv in H as ([[n input3] o3] & Hc & H).
  assert (Hn : skip_name input = Some input2) by (unfold skip_name; by rewrite Hl).
  apply skip_name_inv in Hn as (name & -> & Hn). apply copy_count_inv in Hc as (-> & Hc & Hr1 & ->); [|done].
  apply compact_fields_sound in H as (fs & Hf & -> & Hw & Hr2 & ->). rewrite <- Hf in *.
  exists name, fs. rewrite !after_app. cbn [room after length] in *. rewrite length_app. split_and!; try done. lia.
Qed.

Lemma compact_variants_sound n has_fields input o rest o' :
  compact_variants compact n has_fields input o = Ret (Some (rest, o')) ->
  exists vs, num_variants vs = n /\ input = print_variants has_fields vs ++ rest /\ variants_wf has_fields vs /\
    length (compact_print_variants has_fields vs) <= room o /\ o' = after o (compact_print_variants has_fields vs).
Proof.
  revert input o. induction n as [|n IH]; intros input o; cbn [compact_variants].
  - intros [= <- <-]. exists VNil. cbn. rewrite after_nil. split_and!; try done. lia.
  - intros ([input' o1] & Hd & H)%bind_try_inv.
    apply compact_struct_sound in Hd as (name & fs & -> & Hn & Hc & Hw & Hr & ->); [|by destruct has_fields].
    apply IH in H as (vs & <- & -> & Hws & Hrs & ->). exists (VCons name fs vs).
    cbn [num_variants print_variants variants_wf compact_print_variants room after length] in *.
    rewrite <- !app_assoc, after_app. cbn [app]. rewrite <- app_assoc. rewrite !length_app in *. split_and!; try done. lia.
Qed.

Lemma compact_form_sound kind input o rest o' :
  1 <= room o -> compact_form compact (form_of kind) input (after o [kind_byte (compact_kind kind)]) = Ret (Some (rest, o')) ->
  exists t, kind_byte kind :: input = print t ++ rest /\ type_wf t /\
    length (compact_print t) <= room o /\ o' = after o (compact_print t).
Proof.
  intros Hroom. pose proof (form_small kind) as Hs. unfold count_of in Hs.
  destruct (form_of kind) as [c a|count tuple|count hf|w|w ov a| |] eqn:E; cbn [compact_form]; intros H.
  - injection H as <- <-. exists (TPlain kind). cbn. rewrite E. done.
  - apply compact_struct_sound in H as (name & fs & -> & Hn & Hc & Hw & Hr & ->); [|done].
    exists (TStruct kind name fs). cbn in *. unfold count_of, flag_of. rewrite E, after_app. rewrite <- !app_assoc.
    split_and!; try done. lia.
  - apply try_inv in H as ([l input1] & Hl & H). apply try_inv in H as (o1 & Ho & H). apply write_u8_inv in Ho as [Hr ->].
    apply try_inv in H as (input2 & Hg & H). apply try_inv in H as ([[n input3] o3] & Hc & H).
    assert (Hn : skip_name input = Some input2) by (unfold skip_name; by rewrite Hl).
    apply skip_name_inv in Hn as (name & -> & Hn). apply copy_count_inv in Hc as (-> & Hc & Hr1 & ->); [|done].
    apply compact_variants_sound in H as (vs & Hv & -> & Hw & Hr2 & ->). rewrite <- Hv in *.
    exists (TEnum kind name vs). cbn in *. unfold count_of, flag_of. rewrite E, !after_app. rewrite <- !app_assoc, length_app.
    split_and!; try done. lia.
  - apply try_inv in H as ([input1 o1] & Hc & H). apply copy_n_bytes_inv in Hc as (l & -> & Hl & Hr & ->).
    apply Hcompact in H as (t & -> & Hw & Hr2 & ->). exists (TSequence kind (le_value l) t).
    cbn in *. unfold width_of. rewrite E, <- Hl, le_split_value, !after_app. rewrite <- app_assoc, length_app.
    split_and!; try done; [apply le_value_lt|lia].
  - injection H as H. apply copy_n_bytes_inv in H as (l & -> & Hl & Hr & ->). exists (TSized kind (le_value l)).
    cbn in *. unfold width_of. rewrite E, <- Hl, le_split_value, !after_app. split_and!; try done; [apply le_value_lt|lia].
  - apply Hcompact in H as (t & -> & Hw & Hr & ->). exists (TNested kind t). cbn in *. rewrite E, after_app.
    split_and!; try done. lia.
  - apply Hcompact in H as (t & -> & Hw & Hr & ->). exists (TNested kind t). cbn in *. rewrite E, after_app.
    split_and!; try done. lia.
Qed.
End compact_sound.

Lemma compact_sound fuel : compacts_only (compact_metadata fuel).
Proof.
  induction fuel as [|fuel IH]; intros input o rest o' H; [done|]. destruct input as [|b input]; [done|].
  destruct (try_from (Byte.to_N b)) as [kind|] eqn:E; [|cbn in H; by rewrite E in H].
  apply kind_byte_inv in E as ->. rewrite compact_by_form in H. apply try_inv in H as (o1 & Ho & H).
  apply write_u8_inv in Ho as [Hr ->]. by apply (compact_form_sound (compact_metadata fuel) IH).
Qed.

Lemma compact_exact input o rest o' :
  compact input o = Ret (Some (rest, o')) <->
  exists t, input = print t ++ rest /\ type_wf t /\ length (compact_print t) <= room o /\ o' = after o (compact_print t).
Proof.
  split; [apply compact_sound|]. intros (t & -> & Hw & Hr & ->). apply compact_complete; [lia|done..].
Qed.

(** ** What compact metadata says of a type *)

(** A type without names, in which structs of up to ten fields are tuples *)
Fixpoint erase (t : io_type) : io_type :=
  match t with
  | TPlain kind => TPlain kind
  | TStruct kind _ fs => TStruct (compact_kind kind) [] (erase_fields fs)
  | TEnum kind _ vs => TEnum kind [] (erase_variants vs)
  | TSequence kind n t => TSequence kind n (erase t)
  | TSized kind n => TSized kind n
  | TNested kind t => TNested kind (erase t)
  end
with erase_fields (fs : fields) : fields :=
  match fs with FNil => FNil | FCons _ t fs => FCons [] (erase t) (erase_fields fs) end
with erase_variants (vs : variants) : variants :=
  match vs with VNil => VNil | VCons _ fs vs => VCons [] (erase_fields fs) (erase_variants vs) end.

Lemma compact_kind_idem kind : compact_kind (compact_kind kind) = compact_kind kind.
Proof. by destruct kind. Qed.

Lemma compact_kind_other kind :
  match form_of kind with Structure _ _ => False | _ => True end -> compact_kind kind = kind.
Proof. by destruct kind. Qed.

Lemma compact_kind_form kind :
  match form_of kind with
  | Structure count tuple => exists tuple', form_of (compact_kind kind) = Structure count tuple'
  | f => form_of (compact_kind kind) = f
  end.
Proof. destruct kind; cbn; eauto. Qed.

Lemma num_erase_fields fs : num_fields (erase_fields fs) = num_fields fs.
Proof. induction fs; cbn; congruence. Qed.

Lemma num_erase_variants vs : num_variants (erase_variants vs) = num_variants vs.
Proof. induction vs; cbn; congruence. Qed.

Lemma compact_print_cons t : exists l, compact_print t = kind_byte (compact_kind match t with
  TPlain k | TStruct k _ _ | TEnum k _ _ | TSequence k _ _ | TSized k _ | TNested k _ => k end) :: l.
Proof. destruct t; cbn; eauto. Qed.

(** Two wellformed types whose compact forms begin with the same byte are of the same form. *)
Definition same_form (t t' : io_type) : Prop :=
  match t, t' with
  | TPlain k, TPlain k' => compact_kind k = compact_kind k'
  | TStruct k _ _, TStruct k' _ _ => compact_kind k = compact_kind k' /\ count_of k = count_of k'
  | TEnum k _ _, TEnum k' _ _ => k = k'
  | TSequence k _ _, TSequence k' _ _ => k = k'
  | TSized k _, TSized k' _ => k = k'
  | TNested k _, TNested k' _ => k = k'
  | _, _ => False
  end.

Lemma compact_print_same_form t t' r r' :
  type_wf t -> type_wf t' -> compact_print t ++ r = compact_print t' ++ r' -> same_form t t'.
Proof.
  intros Hw Hw' E.
  assert (Hk : kind_byte (compact_kind match t with
    TPlain k | TStruct k _ _ | TEnum k _ _ | TSequence k _ _ | TSized k _ | TNested k _ => k end) =
    kind_byte (compact_kind match t' with
    TPlain k | TStruct k _ _ | TEnum k _ _ | TSequence k _ _ | TSized k _ | TNested k _ => k end)).
  { destruct (compact_print_cons t) as [l Hl], (compact_print_cons t') as [l' Hl']. rewrite Hl, Hl' in E.
    by injection E. }
  apply kind_byte_inj in Hk. unfold same_form, count_of.
  destruct t as [k|k ? ?|k ? ?|k ? ?|k ?|k ?], t' as [k'|k' ? ?|k' ? ?|k' ? ?|k' ?|k' ?]; cbn [type_wf] in Hw, Hw';
    pose proof (compact_kind_form k) as F; pose proof (compact_kind_form k') as F';
    pose proof (compact_kind_other k) as O; pose proof (compact_kind_other k') as O'; rewrite Hk in F;
    destruct (form_of k), (form_of k'); try done; repeat match goal with H : exists _, _ |- _ => destruct H end; try congruence;
    rewrite ?(O Logic.I), ?(O' Logic.I) in Hk; try (split; congruence); congruence.
Qed.

Lemma print_count_erased k k' n l n' l' :
  count_of k = count_of k' -> print_count (count_of k) n ++ l = print_count (count_of k') n' ++ l' ->
  count_ok (count_of k) n -> count_ok (count_of k') n' -> n = n' /\ l = l'.
Proof.
  intros <- E [Hn Hc] [Hn' Hc']. destruct (count_of k) as [c|]; cbn [print_count app] in E.
  - split; [lia|done].
  - injection E as Eb El. split; [|done]. apply (f_equal Byte.to_N) in Eb. rewrite !small_byte in Eb by done. lia.
Qed.

Lemma type_wf_count t :
  type_wf t ->
  match t with
  | TStruct k _ fs => count_ok (count_of k) (num_fields fs) /\ exists tuple, fields_wf tuple fs
  | TEnum k _ vs => count_ok (count_of k) (num_variants vs) /\ variants_wf (flag_of k) vs
  | TSequence k n t => (n < 256 ^ N.of_nat (width_of k))%N /\ type_wf t
  | TSized k n => (n < 256 ^ N.of_nat (width_of k))%N
  | TNested k t => type_wf t
  | TPlain _ => True
  end.
Proof.
  destruct t as [k|k ? ?|k ? ?|k ? ?|k ?|k ?]; cbn; unfold count_of, flag_of, width_of; destruct (form_of k); try done;
    intros (? & ? & ?); eauto.
Qed.

Lemma compact_print_prefix :
  (forall t t' r r', type_wf t -> type_wf t' -> compact_print t ++ r = compact_print t' ++ r' ->
    erase t = erase t' /\ r = r') /\
  (forall fs fs' tuple tuple' r r', fields_wf tuple fs -> fields_wf tuple' fs' -> num_fields fs = num_fields fs' ->
    compact_print_fields fs ++ r = compact_print_fields fs' ++ r' -> erase_fields fs = erase_fields fs' /\ r = r') /\
  (forall vs vs' has_fields r r', variants_wf has_fields vs -> variants_wf has_fields vs' ->
    num_variants vs = num_variants vs' ->
    compact_print_variants has_fields vs ++ r = compact_print_variants has_fields vs' ++ r' ->
    erase_variants vs = erase_variants vs' /\ r = r').
Proof.
  apply io_type_mutind.
  - intros k t' r r' Hw Hw' E. pose proof (compact_print_same_form _ _ _ _ Hw Hw' E) as S.
    destruct t' as [k'| | | | |]; try done. cbn in S, E. injection E as _ ->. cbn [erase type_wf] in *.
    rewrite (compact_kind_other k) in S by (by destruct (form_of k)).
    rewrite (compact_kind_other k') in S by (by destruct (form_of k')). by rewrite S.
  - intros k name fs IH t' r r' Hw Hw' E. pose proof (compact_print_same_form _ _ _ _ Hw Hw' E) as S.
    destruct t' as [|k' name' fs'| | | |]; try done. destruct S as [Sk Sc]. cbn in E. injection E as _ E.
    apply type_wf_count in Hw as (Hc & tuple & Hf), Hw' as (Hc' & tuple' & Hf'). rewrite <- !app_assoc in E.
    apply (print_count_erased k k') in E as [En E]; [|done..].
    destruct (IH fs' tuple tuple' r r' Hf Hf' En E) as [Ef ->]. cbn. by rewrite Sk, Ef.
  - intros k name vs IH t' r r' Hw Hw' E. pose proof (compact_print_same_form _ _ _ _ Hw Hw' E) as S.
    destruct t' as [| |k' name' vs'| | |]; try done. cbn in S. subst k'. cbn in E. injection E as E.
    apply type_wf_count in Hw as (Hc & Hf), Hw' as (Hc' & Hf'). rewrite <- !app_assoc in E.
    apply (print_count_erased k k) in E as [En E]; [|done..].
    destruct (IH vs' _ r r' Hf Hf' En E) as [Ev ->]. cbn. by rewrite Ev.
  - intros k n t IH t' r r' Hw Hw' E. pose proof (compact_print_same_form _ _ _ _ Hw Hw' E) as S.
    destruct t' as [| | |k' n' t'| |]; try done. cbn in S. subst k'. cbn in E. injection E as E.
    apply type_wf_count in Hw as (Hn & Hf), Hw' as (Hn' & Hf'). rewrite <- !app_assoc in E.
    apply le_split_inj in E as [-> E]; [|done..]. destruct (IH t' r r' Hf Hf' E) as [Et ->]. cbn. by rewrite Et.
  - intros k n t' r r' Hw Hw' E. pose proof (compact_print_same_form _ _ _ _ Hw Hw' E) as S.
    destruct t' as [| | | |k' n'|]; try done. cbn in S. subst k'. cbn in E. injection E as E.
    apply type_wf_count in Hw, Hw'. by apply le_split_inj in E as [-> ->].
  - intros k t IH t' r r' Hw Hw' E. pose proof (compact_print_same_form _ _ _ _ Hw Hw' E) as S.
    destruct t' as [| | | | |k' t']; try done. cbn in S. subst k'. cbn in E. injection E as E.
    apply type_wf_count in Hw, Hw'. destruct (IH t' r r' Hw Hw' E) as [Et ->]. cbn. by rewrite Et.
  - intros [|] tuple tuple' r r' _ _ Hn E; [done|cbn in Hn; lia].
  - intros name t IHt fs IH [|name' t' fs'] tuple tuple' r r' (_ & Hw & Hf) Hwf Hn E; [cbn in Hn; lia|].
    destruct Hwf as (_ & Hw' & Hf').
    cbn in Hn, E. rewrite <- !app_assoc in E. destruct (IHt t' _ _ Hw Hw' E) as [Et E'].
    destruct (IH fs' tuple tuple' r r' Hf Hf' ltac:(lia) E') as [Ef ->]. cbn. by rewrite Et, Ef.
  - intros [|] hf r r' _ _ Hn E; [done|cbn in Hn; lia].
  - intros name fs IHf vs IH [|name' fs' vs'] hf r r' (_ & Hc & Hf & Hv) Hwf Hn E; [cbn in Hn; lia|].
    destruct Hwf as (_ & Hc' & Hf' & Hv').
    cbn [compact_print_variants app] in E. injection E as E. rewrite <- !app_assoc in E. cbn in Hn.
    assert (num_fields fs = num_fields fs' /\
      compact_print_fields fs ++ compact_print_variants hf vs ++ r =
      compact_print_fields fs' ++ compact_print_variants hf vs' ++ r') as [En E'].
    { destruct hf; [apply (print_count_erased Enum Enum)|apply (print_count_erased Struct0 Struct0)]; done. }
    destruct (IHf fs' false false _ _ Hf Hf' En E') as [Ef Ev].
    destruct (IH vs' hf r r' Hv Hv' ltac:(lia) Ev) as [Ev' ->]. cbn. by rewrite Ef, Ev'.
Qed.

Lemma compact_print_erase :
  (forall t, type_wf t -> compact_print (erase t) = compact_print t) /\
  (forall fs tuple, fields_wf tuple fs -> compact_print_fields (erase_fields fs) = compact_print_fields fs) /\
  (forall vs hf, variants_wf hf vs -> compact_print_variants hf (erase_variants vs) = compact_print_variants hf vs).
Proof.
  apply io_type_mutind; try (intros; cbn; done).
  - intros k name fs IH Hw. pose proof (type_wf_count _ Hw) as (_ & tuple & Hf). cbn [erase compact_print].
    rewrite compact_kind_idem, num_erase_fields, (IH tuple Hf). do 3 f_equal.
    unfold count_of. cbn [type_wf] in Hw. pose proof (compact_kind_form k) as F. destruct (form_of k); try done.
    by destruct F as [? ->].
  - intros k name vs IH Hw. pose proof (type_wf_count _ Hw) as (_ & Hv). cbn [erase compact_print].
    by rewrite num_erase_variants, (IH _ Hv).
  - intros k n t IH Hw. apply type_wf_count in Hw as [_ Hw]. cbn. by rewrite IH.
  - intros k t IH Hw. apply type_wf_count in Hw. cbn. by rewrite IH.
  - intros name t IHt fs IH tuple (_ & Hw & Hf). cbn. by rewrite IHt, (IH tuple).
  - intros name fs IHf vs IH hf (_ & _ & Hf & Hv). cbn. by rewrite num_erase_fields, (IHf false Hf), IH.
Qed.

(** Compact metadata identifies types up to names.  What is compacted are the encodings of
    two types, and the compact forms are the same if and only if the types are the same once
    the names of types, fields and variants are removed and structs of up to ten named fields
    are taken for tuples; no compact form is the beginning of another one. *)
Theorem compact_same_shape input input' n rest rest' o o' :
  compact input (Output [] n) = Ret (Some (rest, o)) -> compact input' (Output [] n) = Ret (Some (rest', o')) ->
  exists t t', input = print t ++ rest /\ input' = print t' ++ rest' /\ type_wf t /\ type_wf t' /\
    (written o = written o' <-> erase t = erase t') /\
    (written o `prefix_of` written o' -> written o = written o').
Proof.
  intros (t & -> & Hw & _ & ->)%compact_exact (t' & -> & Hw' & _ & ->)%compact_exact.
  exists t, t'. cbn [written after app]. destruct compact_print_prefix as [Hp _], compact_print_erase as [He _].
  split_and!; try done.
  - split; intros E; [|by rewrite <- He, E, He].
    destruct (Hp t t' [] [] Hw Hw') as [? _]; [by rewrite E|done].
  - intros [l E]. destruct (Hp t t' l [] Hw Hw') as [_ ->]; [by rewrite app_nil_r|]. by rewrite app_nil_r in E.
Qed.

Lemma compact_same_shape_witness :
  exists t t', [kind_byte Struct1; x01; x41; x01; x62; kind_byte U32] = print t ++ [] /\
    [kind_byte TupleStruct1; x01; x43; kind_byte U32] = print t' ++ [] /\ type_wf t /\ type_wf t' /\
    ([kind_byte TupleStruct1; x00; kind_byte U32] = [kind_byte TupleStruct1; x00; kind_byte U32] <-> erase t = erase t') /\
    ([kind_byte TupleStruct1; x00; kind_byte U32] `prefix_of` [kind_byte TupleStruct1; x00; kind_byte U32] ->
      [kind_byte TupleStruct1; x00; kind_byte U32] = [kind_byte TupleStruct1; x00; kind_byte U32]).
Proof.
  apply (compact_same_shape [kind_byte Struct1; x01; x41; x01; x62; kind_byte U32]
    [kind_byte TupleStruct1; x01; x43; kind_byte U32] 10 [] []
    (Output [kind_byte TupleStruct1; x00; kind_byte U32] 7) (Output [kind_byte TupleStruct1; x00; kind_byte U32] 7));
    reflexivity.
Defined.

(** ** Compact metadata of a type is metadata of a type *)

Fixpoint regular_variants (vs : variants) : Prop :=
  match vs with VNil => True | VCons _ fs vs => fs = FNil /\ regular_variants vs end.

(** No struct with a written number of named fields and no variant with fields *)
Fixpoint regular (t : io_type) : Prop :=
  match t with
  | TStruct kind _ fs => (kind = Struct -> fs = FNil) /\ regular_fields fs
  | TEnum _ _ vs => regular_variants vs
  | TSequence _ _ t | TNested _ t => regular t
  | TPlain _ | TSized _ _ => True
  end
with regular_fields (fs : fields) : Prop :=
  match fs with FNil => True | FCons _ t fs => regular t /\ regular_fields fs end.

Lemma erase_details :
  (forall t, capacity_of (erase t) = capacity_of t /\ alignment_of (erase t) = alignment_of t /\
    (type_fits t -> type_fits (erase t))) /\
  (forall fs, fields_capacity (erase_fields fs) = fields_capacity fs /\
    fields_alignment (erase_fields fs) = fields_alignment fs /\ (fields_fit fs -> fields_fit (erase_fields fs))) /\
  (forall vs, variants_alignment (erase_variants vs) = variants_alignment vs /\
    match erase_variants vs with VNil => 0%N | VCons _ fs _ => (fields_capacity fs + 1)%N end =
    match vs with VNil => 0%N | VCons _ fs _ => (fields_capacity fs + 1)%N end /\
    forall c, variants_fit c vs -> variants_fit c (erase_variants vs)).
Proof.
  apply io_type_mutind; intros; cbn in *; repeat match goal with H : _ /\ _ |- _ => destruct H end;
    split_and!; try done; try congruence; try (by intros [? ?]; split_and!; auto; congruence).
  - match goal with H : match erase_variants _ with _ => _ end = _ |- _ => rewrite H end. auto.
  - by destruct (form_of kind).
  - intros (? & ? & ?). split_and!; auto. congruence.
  - intros c (? & ? & ? & ?). split_and!; auto. congruence.
Qed.

Lemma erase_wf :
  (forall t, type_wf t -> regular t -> type_wf (erase t) /\ compact_print t = print (erase t)) /\
  (forall fs tuple, fields_wf tuple fs -> regular_fields fs ->
    fields_wf true (erase_fields fs) /\ compact_print_fields fs = print_fields true (erase_fields fs)) /\
  (forall vs hf, variants_wf hf vs -> regular_variants vs ->
    variants_wf hf (erase_variants vs) /\ compact_print_variants hf vs = print_variants hf (erase_variants vs)).
Proof.
  apply io_type_mutind.
  - intros k Hw _. split; [done|]. cbn. f_equal. f_equal. apply compact_kind_other. cbn in Hw. by destruct (form_of k).
  - intros k name fs IH Hw [Hk Hr]. pose proof (compact_kind_form k) as F. cbn [type_wf erase compact_print print] in *.
    unfold count_of, flag_of. destruct (form_of k) as [|count tuple| | | | |] eqn:Ek; try done. destruct Hw as (Hn & Hc & Hf).
    destruct F as [tuple' F]. rewrite F, num_erase_fields. destruct (IH tuple Hf Hr) as [Hf' E].
    assert (Ht : tuple' = true \/ fs = FNil).
    { destruct k; cbn in Ek, F; try discriminate; try (injection F as _ <-; by left); right; [by apply Hk|].
      destruct Hc as [_ Hc]. injection Ek as <- _. by destruct fs. }
    unfold name_ok. destruct Ht as [-> | ->]; [|by split_and!; try done; cbn; lia].
    split; [by split_and!; try done; cbn; lia|]. by rewrite E.
  - intros k name vs IH Hw Hr. cbn [type_wf erase compact_print print regular] in *. unfold count_of, flag_of.
    destruct (form_of k) as [|? ?|count hf| | | |] eqn:Ek; try done. destruct Hw as (Hn & Hc & Hv).
    destruct (IH hf Hv Hr) as [Hv' E]. rewrite num_erase_variants, E. unfold name_ok.
    split; [by split_and!; try done; cbn; lia|]. f_equal. f_equal. apply compact_kind_other. by rewrite Ek.
  - intros k n t IH Hw Hr. cbn [type_wf erase compact_print print regular] in *. unfold width_of.
    destruct (form_of k) eqn:Ek; try done. destruct Hw as [Hn Hw]. destruct (IH Hw Hr) as [Hw' ->].
    split; [done|]. f_equal. f_equal. apply compact_kind_other. by rewrite Ek.
  - intros k n Hw _. cbn [type_wf erase compact_print print] in *. split; [done|]. f_equal. f_equal.
    apply compact_kind_other. by destruct (form_of k).
  - intros k t IH Hw Hr. cbn [type_wf erase compact_print print regular] in *.
    assert (Hk : compact_kind k = k) by (apply compact_kind_other; by destruct (form_of k)). rewrite Hk.
    destruct (form_of k); try done; destruct (IH Hw Hr) as [Hw' ->]; done.
  - done.
  - intros name t IHt fs IH tuple (Hn & Hw & Hf) [Hr Hrs]. cbn. destruct (IHt Hw Hr) as [Hw' ->], (IH tuple Hf Hrs) as [Hf' ->].
    done.
  - done.
  - intros name fs _ vs IH hf (Hn & Hc & Hf & Hv) [-> Hr]. cbn. destruct (IH hf Hv Hr) as [Hv' ->].
    unfold name_ok. split_and!; try done. cbn. lia.
Qed.

(** The compact metadata of a type is itself metadata, of the type without names, and it
    gives the same size and alignment; this is so for all types but those with a struct of
    more than ten named fields or an enum with fields. *)
Theorem compact_readable input rest o n :
  compact input (Output [] n) = Ret (Some (rest, o)) ->
  exists t, input = print t ++ rest /\ type_wf t /\
    (regular t -> type_fits t ->
      type_details (written o) = Ret (Some (type_details_of t, [])) /\
      type_details input = Ret (Some (type_details_of t, rest))).
Proof.
  intros (t & -> & Hw & _ & ->)%compact_exact. exists t. split_and!; [done..|]. intros Hr Hf.
  split; [|apply type_details_iff; eauto]. cbn [written after app].
  destruct erase_wf as [He _], erase_details as [Hd _]. destruct (He t Hw Hr) as [Hw' ->], (Hd t) as (Hc & Ha & Hf').
  apply type_details_iff. exists (erase t). rewrite app_nil_r. unfold type_details_of. rewrite Hc, Ha. auto.
Qed.

Lemma compact_readable_witness :
  exists t, [kind_byte Struct1; x01; x41; x01; x62; kind_byte U32] = print t ++ [] /\ type_wf t /\
    (regular t -> type_fits t ->
      type_details [kind_byte TupleStruct1; x00; kind_byte U32] = Ret (Some (type_details_of t, [])) /\
      type_details [kind_byte Struct1; x01; x41; x01; x62; kind_byte U32] = Ret (Some (type_details_of t, []))).
Proof.
  apply (compact_readable [kind_byte Struct1; x01; x41; x01; x62; kind_byte U32] []
    (Output [kind_byte TupleStruct1; x00; kind_byte U32] 7) 10). reflexivity.
Defined.

(** A struct whose number of fields is written loses the names of its fields but stays a struct
    with named fields, and so do the variants of an enum: their compact metadata cannot be
    decoded. *)
Example compact_struct_unreadable :
  let metadata := [kind_byte Struct; x01; x41; x01; x01; x62; kind_byte U32] in
  type_details metadata = Ret (Some (details 4 4, [])) /\
  compact metadata (Output [] 10) = Ret (Some ([], Output [kind_byte Struct; x00; x01; kind_byte U32] 6)) /\
  type_details [kind_byte Struct; x00; x01; kind_byte U32] = Ret None.
Proof. done. Qed.

Example compact_enum_unreadable :
  let metadata := [kind_byte Enum1; x01; x41; x01; x42; x01; x01; x62; kind_byte U32] in
  type_details metadata = Ret (Some (details 5 4, [])) /\
  compact metadata (Output [] 10) = Ret (Some ([], Output [kind_byte Enum1; x00; x00; x01; kind_byte U32] 5)) /\
  type_details [kind_byte Enum1; x00; x00; x01; kind_byte U32] = Ret None.
Proof. done. Qed.

(** ** Compacting returns *)

Lemma copy_count_shorter count input o n rest o' :
  copy_count count input o = Some (n, rest, o') -> length rest <= length input.
Proof.
  unfold copy_count. destruct count; [by intros [= _ <- _]|]. destruct input; [done|]. cbn.
  destruct (write_u8 _ _); [|done]. intros [= _ <- _]. lia.
Qed.

Section compact_returns.
Variable compact : list byte -> output -> compacted.
Variable bound : nat.
Hypothesis Hreturns : forall input o, length input < bound -> exists r, compact input o = Ret r.
Hypothesis Hsound : compacts_only compact.

Lemma compact_fields_returns n tuple input o :
  length input < bound -> exists r, compact_fields compact n tuple input o = Ret r.
Proof.
  revert input o. induction n as [|n IH]; intros input o Hl; cbn [compact_fields]; [eauto|].
  destruct (if tuple then Some input else skip_name input) as [input'|] eqn:E; cbn [otry]; [|eauto].
  assert (length input' <= length input).
  { destruct tuple; [by injection E as <-|]. apply skip_name_shorter in E. lia. }
  destruct (Hreturns input' o) as [[[rest o']|] Hr]; [lia| |]; rewrite Hr; cbn [obind otry]; [|eauto].
  apply Hsound in Hr as (t & -> & _). rewrite length_app in *. apply IH. lia.
Qed.

Lemma compact_struct_returns input o count tuple :
  length input <= bound -> exists r, compact_struct compact input o count tuple = Ret r.
Proof.
  intros Hl. unfold compact_struct. destruct input as [|b input]; cbn [read_u8 otry]; [eauto|]. cbn [length] in Hl.
  destruct (write_u8 0 o) as [o1|]; cbn [otry]; [|eauto].
  destruct (get_from _ input) as [input1|] eqn:E; cbn [otry]; [|eauto].
  apply get_from_inv in E as (l & -> & _). rewrite length_app in Hl.
  destruct (copy_count count input1 o1) as [[[n input2] o2]|] eqn:E; cbn [otry]; [|eauto].
  apply compact_fields_returns. apply copy_count_shorter in E. lia.
Qed.

Lemma compact_variants_returns n has_fields input o :
  length input <= bound -> exists r, compact_variants compact n has_fields input o = Ret r.
Proof.
  revert input o. induction n as [|n IH]; intros input o Hl; cbn [compact_variants]; [eauto|].
  destruct (compact_struct_returns input o (if has_fields then None else Some 0%N) false) as [[[rest o']|] Hr]; [lia| |];
    rewrite Hr; cbn [obind otry]; [|eauto]. apply IH.
  apply (compact_struct_sound compact Hsound) in Hr as (? & ? & -> & _); [|by destruct has_fields].
  rewrite !length_app in Hl. lia.
Qed.

Lemma compact_form_returns f input o : length input < bound -> exists r, compact_form compact f input o = Ret r.
Proof.
  intros Hl. destruct f; cbn [compact_form]; eauto.
  - apply compact_struct_returns. lia.
  - unfold compact_enum. destruct input as [|b input]; cbn [read_u8 otry]; [eauto|]. cbn [length] in Hl.
    destruct (write_u8 0 o) as [o1|]; cbn [otry]; [|eauto].
    destruct (get_from _ input) as [input1|] eqn:E; cbn [otry]; [|eauto].
    apply get_from_inv in E as (l & -> & _). rewrite length_app in Hl.
    destruct (copy_count count input1 o1) as [[[n input2] o2]|] eqn:E; cbn [otry]; [|eauto].
    apply compact_variants_returns. apply copy_count_shorter in E. lia.
  - destruct (copy_n_bytes input o width) as [[input1 o1]|] eqn:E; cbn [otry]; [|eauto].
    apply copy_n_bytes_inv in E as (l & -> & _). rewrite length_app in Hl. apply Hreturns. lia.
Qed.
End compact_returns.

Lemma compact_returns fuel input o : length input < fuel -> exists r, compact_metadata fuel input o = Ret r.
Proof.
  revert input o. induction fuel as [|fuel IH]; intros input o Hl; [lia|].
  destruct input as [|b input]; [eexists; reflexivity|]. cbn [length] in Hl.
  destruct (try_from (Byte.to_N b)) as [kind|] eqn:E; [|exists None; cbn; by rewrite E].
  apply kind_byte_inv in E as ->. rewrite compact_by_form. destruct (write_u8 _ o) as [o1|]; cbn [otry]; [|eauto].
  apply (compact_form_returns _ fuel); [|apply compact_sound|lia]. apply IH.
Qed.

(** ** Metadata of the types themselves *)

(** [metadata.0.split_at(metadata.1).0] *)
Definition metadata_slice (sources : list (list byte)) : outcome (list byte) :=
  let! (scratch, size) := concat_metadata_sources sources in
  let! (metadata, _) := split_at scratch size in Ret metadata.

(** [array_metadata], from which [TrivialType::METADATA] of arrays is *)
Definition array_metadata (size : N) (inner_metadata : list byte) : outcome (list byte) :=
  let sized :=
    if decide (size < 2 ^ 8)%N then metadata_slice [[kind_byte Array8b]; le_split 1 size; inner_metadata]
    else if decide (size < 2 ^ 16)%N then metadata_slice [[kind_byte Array16b]; le_split 2 size; inner_metadata]
    else metadata_slice [[kind_byte Array32b]; le_split 4 size; inner_metadata] in
  if decide (inner_metadata = [kind_byte U8]) then
    match size with
    | 8 => metadata_slice [[kind_byte ArrayU8x8]]
    | 16 => metadata_slice [[kind_byte ArrayU8x16]]
    | 32 => metadata_slice [[kind_byte ArrayU8x32]]
    | 64 => metadata_slice [[kind_byte ArrayU8x64]]
    | 128 => metadata_slice [[kind_byte ArrayU8x128]]
    | 256 => metadata_slice [[kind_byte ArrayU8x256]]
    | 512 => metadata_slice [[kind_byte ArrayU8x512]]
    | 1024 => metadata_slice [[kind_byte ArrayU8x1024]]
    | 2028 => metadata_slice [[kind_byte ArrayU8x2028]]
    | 4096 => metadata_slice [[kind_byte ArrayU8x4096]]
    | _ => sized
    end%N
  else sized.

(** [IoType::METADATA] of [VariableBytes] *)
Definition variable_bytes_metadata (recommended_allocation : N) : outcome (list byte) :=
  match recommended_allocation with
  | 0 => metadata_slice [[kind_byte VariableBytes0]]
  | 512 => metadata_slice [[kind_byte VariableBytes512]]
  | 1024 => metadata_slice [[kind_byte VariableBytes1024]]
  | 2028 => metadata_slice [[kind_byte VariableBytes2028]]
  | 4096 => metadata_slice [[kind_byte VariableBytes4096]]
  | 8192 => metadata_slice [[kind_byte VariableBytes8192]]
  | 16384 => metadata_slice [[kind_byte VariableBytes16384]]
  | 32768 => metadata_slice [[kind_byte VariableBytes32768]]
  | 65536 => metadata_slice [[kind_byte VariableBytes65536]]
  | 131072 => metadata_slice [[kind_byte VariableBytes131072]]
  | 262144 => metadata_slice [[kind_byte VariableBytes262144]]
  | 524288 => metadata_slice [[kind_byte VariableBytes524288]]
  | 1048576 => metadata_slice [[kind_byte VariableBytes1048576]]
  | _ =>
      if decide (recommended_allocation < 2 ^ 8)%N
      then metadata_slice [[kind_byte VariableBytes8b]; le_split 1 recommended_allocation]
      else if decide (recommended_allocation < 2 ^ 16)%N
      then metadata_slice [[kind_byte VariableBytes16b]; le_split 2 recommended_allocation]
      else metadata_slice [[kind_byte VariableBytes32b]; le_split 4 recommended_allocation]
  end%N.

(** [IoType::METADATA] of [VariableElements] *)
Definition variable_elements_metadata (recommended_allocation : N) (inner_metadata : list byte) : outcome (list byte) :=
  if decide (recommended_allocation = 0)%N then metadata_slice [[kind_byte VariableElements0]; inner_metadata]
  else if decide (recommended_allocation < 2 ^ 8)%N
  then metadata_slice [[kind_byte VariableElements8b]; le_split 1 recommended_allocation; inner_metadata]
  else if decide (recommended_allocation < 2 ^ 16)%N
  then metadata_slice [[kind_byte VariableElements16b]; le_split 2 recommended_allocation; inner_metadata]
  else metadata_slice [[kind_byte VariableElements32b]; le_split 4 recommended_allocation; inner_metadata].

(** [TrivialType::METADATA] of [FixedCapacityBytesU8] and [FixedCapacityBytesU16] *)
Definition fixed_capacity_bytes_u8_metadata (capacity : N) : outcome (list byte) :=
  if decide (capacity <= 255)%N then metadata_slice [[kind_byte FixedCapacityBytes8b; byte_of capacity]] else Fault.
Definition fixed_capacity_bytes_u16_metadata (capacity : N) : outcome (list byte) :=
  if decide (capacity <= 65535)%N then metadata_slice [[kind_byte FixedCapacityBytes16b]; le_split 2 capacity] else Fault.

(** [TrivialType::METADATA] of [Unaligned] *)
Definition unaligned_metadata (inner_metadata : list byte) : outcome (list byte) :=
  metadata_slice [[kind_byte Unaligned]; inner_metadata].

Lemma concat_sources_app sources o :
  length (concat sources) <= room o -> concat_sources sources o = Ret (after o (concat sources)).
Proof.
  revert o. induction sources as [|source sources IH]; intros o Hr; cbn [concat_sources concat]; [by rewrite after_nil|].
  cbn [concat] in Hr. rewrite length_app in Hr. rewrite decide_True by lia.
  change (Output (written o ++ source) (room o - length source)) with (after o source).
  rewrite IH by (cbn [room after]; lia). by rewrite after_app.
Qed.

Lemma metadata_slice_concat sources :
  length (concat sources) <= MAX_METADATA_CAPACITY -> metadata_slice sources = Ret (concat sources).
Proof.
  intros Hl. unfold metadata_slice, concat_metadata_sources. rewrite concat_sources_app by done.
  cbn [obind scratch_of after written room app]. rewrite split_at_app; [done|]. lia.
Qed.

(** The encoding of a type that is a number of elements, of bytes, or wraps another one *)
Lemma metadata_decodes sources t :
  length (print t) <= MAX_METADATA_CAPACITY -> concat sources = print t -> type_wf t -> type_fits t ->
  (let! metadata := metadata_slice sources in type_details metadata) = Ret (Some (type_details_of t, [])).
Proof.
  intros Hl E Hw Hf. rewrite metadata_slice_concat by (by rewrite E). cbn [obind]. rewrite E.
  apply type_details_iff. exists t. by rewrite app_nil_r.
Qed.

Lemma array_metadata_correct size inner d :
  (size < 2 ^ 32)%N -> length inner + 5 <= MAX_METADATA_CAPACITY ->
  type_details inner = Ret (Some (d, [])) -> (recommended_capacity d * size < 2 ^ 32)%N ->
  (let! metadata := array_metadata size inner in type_details metadata) =
    Ret (Some (details (recommended_capacity d * size) (alignment d), [])).
Proof.
  intros Hs Hl (t & -> & Hw & Hf & ->)%type_details_iff Hc. rewrite app_nil_r in *.
  cbn [recommended_capacity alignment type_details_of details] in *.
  assert (Hsized : forall kind w, form_of kind = Sequence w -> w <= 4 -> (size < 256 ^ N.of_nat w)%N ->
    (let! metadata := metadata_slice [[kind_byte kind]; le_split w size; print t] in type_details metadata) =
    Ret (Some (details (capacity_of t * size) (alignment_of t), []))).
  { intros kind w E Hw4 Hlt. apply (metadata_decodes _ (TSequence kind size t)); cbn; unfold width_of; rewrite ?E; try done.
    - rewrite length_app, length_le_split. lia.
    - by rewrite app_nil_r. }
  unfold array_metadata.
  set (sized := if decide (size < 2 ^ 8)%N then _ else _).
  assert (Hz : (let! metadata := sized in type_details metadata) =
    Ret (Some (details (capacity_of t * size) (alignment_of t), []))).
  { unfold sized. repeat case_decide; (apply Hsized; [done|lia|cbn; lia]). }
  case_decide as Hu; [|done].
  assert (Ht : capacity_of t = 1%N /\ alignment_of t = 1%N).
  { assert (E : type_details (print t) = Ret (Some (type_details_of t, []))).
    { apply type_details_iff. exists t. by rewrite app_nil_r. }
    rewrite Hu in E. injection E as E1 E2. by rewrite <- E1, <- E2. }
  destruct Ht as [Ec Ea]. rewrite Ec, Ea, N.mul_1_l in *. clear - Hz. clearbody sized.
  repeat match goal with |- context [match ?n with _ => _ end] => is_var n; destruct n as [|?n] || destruct n as [?n|?n|] end;
    try exact Hz; reflexivity.
Qed.

Lemma variable_bytes_metadata_correct n :
  (n < 2 ^ 32)%N ->
  (let! metadata := variable_bytes_metadata n in type_details metadata) = Ret (Some (details n 1, [])).
Proof.
  intros Hn. unfold variable_bytes_metadata. set (sized := if decide (n < 2 ^ 8)%N then _ else _).
  assert (Hz : (let! metadata := sized in type_details metadata) = Ret (Some (details n 1, []))).
  { assert (Hs : forall kind w, form_of kind = Sized w 0 1 -> w <= 4 -> (n < 256 ^ N.of_nat w)%N ->
      (let! metadata := metadata_slice [[kind_byte kind]; le_split w n] in type_details metadata) =
      Ret (Some (details n 1, []))).
    { intros kind w E Hw Hlt.
      assert (Ed : details n 1 = type_details_of (TSized kind n))
        by (unfold type_details_of; cbn; by rewrite E, N.add_0_r).
      rewrite Ed. apply metadata_decodes; cbn; unfold width_of; rewrite ?E; try done.
      - rewrite length_le_split. unfold MAX_METADATA_CAPACITY. lia.
      - by rewrite app_nil_r. }
    unfold sized. repeat case_decide; (apply Hs; [done|lia|cbn; lia]). }
  clear - Hz. clearbody sized.
  repeat match goal with |- context [match ?n with _ => _ end] => is_var n; destruct n as [|?n] || destruct n as [?n|?n|] end;
    try exact Hz; reflexivity.
Qed.

(** The metadata that types declare is what the decoder reads from it: arrays of any type,
    bytes, elements, bytes of fixed capacity and unaligned values decode to the size of their
    contents, with the alignment of the elements; variable elements that recommend no
    allocation decode with the alignment of a byte. *)
Theorem declared_metadata_correct n inner d :
  (n < 2 ^ 32)%N -> length inner + 5 <= MAX_METADATA_CAPACITY ->
  type_details inner = Ret (Some (d, [])) -> (recommended_capacity d * n < 2 ^ 32)%N ->
  (let! m := array_metadata n inner in type_details m) =
    Ret (Some (details (recommended_capacity d * n) (alignment d), [])) /\
  (let! m := variable_elements_metadata n inner in type_details m) =
    Ret (Some (details (recommended_capacity d * n) (if decide (n = 0)%N then 1 else alignment d), [])) /\
  (let! m := unaligned_metadata inner in type_details m) = Ret (Some (details (recommended_capacity d) 1, [])) /\
  (let! m := variable_bytes_metadata n in type_details m) = Ret (Some (details n 1, [])) /\
  (n < 2 ^ 8 -> (let! m := fixed_capacity_bytes_u8_metadata n in type_details m) = Ret (Some (details (n + 1) 1, [])))%N /\
  (n < 2 ^ 16 -> (let! m := fixed_capacity_bytes_u16_metadata n in type_details m) = Ret (Some (details (n + 2) 2, [])))%N.
Proof.
  intros Hn Hl Hi Hc. assert (Hi' := Hi). apply type_details_iff in Hi as (t & Ei & Hw & Hf & Ed).
  rewrite app_nil_r in Ei. split_and!.
  - by apply array_metadata_correct.
  - unfold variable_elements_metadata. rewrite Ei, Ed in *. cbn [recommended_capacity alignment type_details_of details] in *.
    case_decide as H0.
    + subst n. rewrite N.mul_0_r. apply (metadata_decodes _ (TNested VariableElements0 t)); cbn; try done; [lia|by rewrite app_nil_r].
    + repeat case_decide;
        match goal with |- context [kind_byte ?k] => apply (metadata_decodes _ (TSequence k n t)) end;
        cbn [print concat app type_wf form_of type_fits width_of length]; rewrite ?length_app, ?length_le_split, ?app_nil_r;
        try done; try (split; [cbn; lia|done]); lia.
  - unfold unaligned_metadata. rewrite Ei, Ed in *.
    apply (metadata_decodes _ (TNested Unaligned t)); cbn; try done; [lia|by rewrite app_nil_r].
  - by apply variable_bytes_metadata_correct.
  - intros Hlt. unfold fixed_capacity_bytes_u8_metadata. rewrite decide_True by lia.
    apply (metadata_decodes _ (TSized FixedCapacityBytes8b n)); cbn; try done; unfold MAX_METADATA_CAPACITY; lia.
  - intros Hlt. unfold fixed_capacity_bytes_u16_metadata. rewrite decide_True by lia.
    apply (metadata_decodes _ (TSized FixedCapacityBytes16b n)); cbn; try done; unfold MAX_METADATA_CAPACITY; lia.
Qed.

Lemma declared_metadata_correct_witness :
  (let! m := array_metadata 32 [kind_byte U8] in type_details m) = Ret (Some (details (1 * 32) 1, [])).
Proof.
  apply (declared_metadata_correct 32 [kind_byte U8] (details 1 1)); [lia|cbn; unfold MAX_METADATA_CAPACITY; lia|reflexivity|cbn; lia].
Defined.

End IoMetadata.
