(* ===== verification/ContractMetadata.v ===== *)
(** * Metadata of contracts

    Model of [crates/contracts/core/ab-contracts-common/src/metadata.rs], [metadata/decode.rs],
    [metadata/compact.rs] and [method.rs]: contracts and traits list their methods, and methods
    their arguments, as bytes, which are decoded step by step, and the hash of whose compact
    form is the fingerprint by which methods are called.

    The decoders of the source share a mutable slice; here they take the slice and return what
    is left of it, also where they fail.  What happens when a decoder goes out of scope is a
    definition of its own.  A slice of metadata is shorter than [2 ^ 64] bytes. *)
From S2P Require Import Prelude Slices Blake3Tree NativeExecutor WalletPayload IoMetadata.
From stdpp Require Import prelude strings.
From Stdlib Require Import NArith Lia.
From Stdlib Require Import Strings.Byte.

Module ContractMetadata.
Import WalletPayload.WalletPayload.Builder IoMetadata.IoMetadata.
Local Open Scope rust_scope.

(** [MethodKind] and [ArgumentKind] *)
Abbreviation MethodKind := NativeExecutor.method_kind.
Abbreviation ArgumentKind := NativeExecutor.argument_kind.

Inductive ContractMetadataKind : Type :=
| Contract | Trait
| Init | UpdateStateless | UpdateStatefulRo | UpdateStatefulRw | ViewStateless | ViewStateful
| EnvRo | EnvRw | TmpRo | TmpRw | SlotRo | SlotRw | Input | Output | Return.

(** [ContractMetadataKind::try_from] *)
Definition contract_kind_try_from (byte : N) : option ContractMetadataKind :=
  match byte with
  | 0 => Some Contract | 1 => Some Trait | 2 => Some Init | 3 => Some UpdateStateless
  | 4 => Some UpdateStatefulRo | 5 => Some UpdateStatefulRw | 6 => Some ViewStateless
  | 7 => Some ViewStateful | 8 => Some EnvRo | 9 => Some EnvRw | 10 => Some TmpRo | 11 => Some TmpRw
  | 12 => Some SlotRo | 13 => Some SlotRw | 14 => Some Input | 15 => Some Output | 16 => Some Return
  | _ => None
  end%N.

(** [kind as u8] *)
Definition contract_kind_as_u8 (kind : ContractMetadataKind) : N :=
  match kind with
  | Contract => 0 | Trait => 1 | Init => 2 | UpdateStateless => 3 | UpdateStatefulRo => 4
  | UpdateStatefulRw => 5 | ViewStateless => 6 | ViewStateful => 7 | EnvRo => 8 | EnvRw => 9
  | TmpRo => 10 | TmpRw => 11 | SlotRo => 12 | SlotRw => 13 | Input => 14 | Output => 15 | Return => 16
  end%N.

Inductive MethodsContainerKind : Type := InContract | InTrait | InUnknown.

Inductive MetadataDecodingError : Type :=
| NotEnoughMetadata
| InvalidFirstMetadataByte (byte : N)
| MultipleContractsFound
| ExpectedContractOrTrait (metadata_kind : ContractMetadataKind)
| FailedToDecodeStateTypeName
| InvalidStateIoType
| UnexpectedMethodKind (method_kind : MethodKind) (container_kind : MethodsContainerKind)
| ExpectedMethodKind (metadata_kind : ContractMetadataKind)
| ExpectedArgumentKind (metadata_kind : ContractMetadataKind)
| UnexpectedArgumentKind (argument_kind : ArgumentKind) (method_kind : MethodKind)
| InvalidArgumentIoType (argument_name : list byte) (argument_kind : ArgumentKind).

(** ** Reading the shared slice *)

Definition reader (A : Type) : Type := list byte -> outcome (list byte * result A MetadataDecodingError).

Definition rret {A} (a : A) : reader A := fun metadata => Ret (metadata, Ok a).
Definition rfail {A} (e : MetadataDecodingError) : reader A := fun metadata => Ret (metadata, Err e).
Definition rbind {A B} (m : reader A) (k : A -> reader B) : reader B := fun metadata =>
  let! (metadata, r) := m metadata in
  match r with Ok a => k a metadata | Err e => Ret (metadata, Err e) end.

Notation "'read!' x := m 'in' k" := (rbind m (fun x => k))
  (at level 10, x pattern, m at level 100, k at level 200) : rust_scope.

(** [*metadata.split_off_first().ok_or(NotEnoughMetadata)?] *)
Definition split_off_first : reader N := fun metadata =>
  match metadata with
  | [] => Ret ([], Err NotEnoughMetadata)
  | b :: metadata => Ret (metadata, Ok (Byte.to_N b))
  end.

(** [metadata.split_off(..n).ok_or(NotEnoughMetadata)?] *)
Definition split_off (n : nat) : reader (list byte) := fun metadata =>
  match split_at_checked n metadata with
  | Some (l, metadata) => Ret (metadata, Ok l)
  | None => Ret (metadata, Err NotEnoughMetadata)
  end.

Definition read_kind : reader ContractMetadataKind :=
  read! byte := split_off_first in
  match contract_kind_try_from byte with
  | Some kind => rret kind
  | None => rfail (InvalidFirstMetadataByte byte)
  end.

(** A length and as many bytes *)
Definition read_name : reader (list byte) :=
  read! length := split_off_first in split_off (N.to_nat length).

(** [(details, metadata) = IoTypeMetadataKind::type_details(metadata).ok_or(e)?] *)
Definition read_type_details (e : MetadataDecodingError) : reader IoTypeDetails := fun metadata =>
  let! r := type_details metadata in
  Ret (match r with Some (d, metadata) => (metadata, Ok d) | None => (metadata, Err e) end).

(** ** Arguments *)

Record ArgumentMetadataItem : Type := {
  argument_name : list byte;
  argument_kind : ArgumentKind;
  argument_type_details : option IoTypeDetails
}.

Definition to_argument_kind (kind : ContractMetadataKind) : option ArgumentKind :=
  match kind with
  | EnvRo => Some NativeExecutor.EnvRo | EnvRw => Some NativeExecutor.EnvRw
  | TmpRo => Some NativeExecutor.TmpRo | TmpRw => Some NativeExecutor.TmpRw
  | SlotRo => Some NativeExecutor.SlotRo | SlotRw => Some NativeExecutor.SlotRw
  | Input => Some NativeExecutor.Input | Output => Some NativeExecutor.Output
  | Return => Some NativeExecutor.Return
  | Contract | Trait | Init | UpdateStateless | UpdateStatefulRo | UpdateStatefulRw | ViewStateless | ViewStateful =>
      None
  end.

Definition argument_allowed (method_kind : MethodKind) (argument_kind : ArgumentKind) : bool :=
  match method_kind with
  | NativeExecutor.Init | NativeExecutor.UpdateStateless | NativeExecutor.UpdateStatefulRo
  | NativeExecutor.UpdateStatefulRw => true
  | NativeExecutor.ViewStateless | NativeExecutor.ViewStateful =>
      match argument_kind with
      | NativeExecutor.EnvRo | NativeExecutor.SlotRo | NativeExecutor.Input | NativeExecutor.Output
      | NativeExecutor.Return => true
      | NativeExecutor.EnvRw | NativeExecutor.TmpRo | NativeExecutor.TmpRw | NativeExecutor.SlotRw => false
      end
  end.

(** [ArgumentsMetadataDecoder::decode_argument]; [remaining] is what follows the argument. *)
Definition decode_argument (method_kind : MethodKind) (remaining : nat) : reader ArgumentMetadataItem :=
  read! metadata_kind := read_kind in
  match to_argument_kind metadata_kind with
  | None => rfail (ExpectedArgumentKind metadata_kind)
  | Some argument_kind =>
      if argument_allowed method_kind argument_kind then
        let item name details :=
          {| argument_name := name; argument_kind := argument_kind; argument_type_details := details |} in
        let with_details name :=
          read! d := read_type_details (InvalidArgumentIoType name argument_kind) in rret (item name (Some d)) in
        match argument_kind with
        | NativeExecutor.EnvRo | NativeExecutor.EnvRw => rret (item (bytes_of "env") None)
        | NativeExecutor.TmpRo | NativeExecutor.TmpRw | NativeExecutor.SlotRo | NativeExecutor.SlotRw =>
            read! name := read_name in rret (item name None)
        | NativeExecutor.Input => read! name := read_name in with_details name
        | NativeExecutor.Output | NativeExecutor.Return =>
            read! name := read_name in
            match method_kind, remaining with
            | NativeExecutor.Init, O => rret (item name None)
            | _, _ => with_details name
            end
        end
      else rfail (UnexpectedArgumentKind argument_kind method_kind)
  end.

Record ArgumentsMetadataDecoder : Type := {
  arguments_method_kind : MethodKind;
  arguments_remaining : nat
}.

(** [ArgumentsMetadataDecoder::decode_next] *)
Definition arguments_decode_next (d : ArgumentsMetadataDecoder)
    : option (ArgumentsMetadataDecoder * reader ArgumentMetadataItem) :=
  match arguments_remaining d with
  | O => None
  | S remaining =>
      Some ({| arguments_method_kind := arguments_method_kind d; arguments_remaining := remaining |},
            decode_argument (arguments_method_kind d) remaining)
  end.

(** The loop of [ArgumentsMetadataDecoder::drop]: an argument that fails to decode restores
    what was there before. *)
Fixpoint drop_arguments_loop (method_kind : MethodKind) (remaining : nat) (metadata_before metadata : list byte)
    : outcome (list byte) :=
  match remaining with
  | O => Ret metadata
  | S remaining =>
      let! (metadata, r) := decode_argument method_kind remaining metadata in
      match r with
      | Ok _ => drop_arguments_loop method_kind remaining metadata_before metadata
      | Err _ => Ret metadata_before
      end
  end.

Definition drop_arguments (d : ArgumentsMetadataDecoder) (metadata : list byte) : outcome (list byte) :=
  drop_arguments_loop (arguments_method_kind d) (arguments_remaining d) metadata metadata.

(** ** Methods *)

Record MethodMetadataItem : Type := {
  method_name : list byte;
  item_method_kind : MethodKind;
  num_arguments : N
}.

Definition to_method_kind (kind : ContractMetadataKind) : option MethodKind :=
  match kind with
  | Init => Some NativeExecutor.Init
  | UpdateStateless => Some NativeExecutor.UpdateStateless
  | UpdateStatefulRo => Some NativeExecutor.UpdateStatefulRo
  | UpdateStatefulRw => Some NativeExecutor.UpdateStatefulRw
  | ViewStateless => Some NativeExecutor.ViewStateless
  | ViewStateful => Some NativeExecutor.ViewStateful
  | Contract | Trait | EnvRo | EnvRw | TmpRo | TmpRw | SlotRo | SlotRw | Input | Output | Return => None
  end.

Definition method_allowed (container_kind : MethodsContainerKind) (method_kind : MethodKind) : bool :=
  match container_kind with
  | InContract | InUnknown => true
  | InTrait =>
      match method_kind with
      | NativeExecutor.Init | NativeExecutor.UpdateStatefulRo | NativeExecutor.UpdateStatefulRw
      | NativeExecutor.ViewStateful => false
      | NativeExecutor.UpdateStateless | NativeExecutor.ViewStateless => true
      end
  end.

(** [MethodMetadataDecoder::decode_next] *)
Definition method_decode_next (container_kind : MethodsContainerKind)
    : reader (ArgumentsMetadataDecoder * MethodMetadataItem) :=
  read! metadata_kind := read_kind in
  match to_method_kind metadata_kind with
  | None => rfail (ExpectedMethodKind metadata_kind)
  | Some method_kind =>
      if method_allowed container_kind method_kind then
        read! name := read_name in
        read! n := split_off_first in
        rret ({| arguments_method_kind := method_kind; arguments_remaining := N.to_nat n |},
              {| method_name := name; item_method_kind := method_kind; num_arguments := n |})
      else rfail (UnexpectedMethodKind method_kind container_kind)
  end.

(** [MethodMetadataDecoder::drop]: decodes a method that was not decoded, unless it fails *)
Definition drop_method (container_kind : MethodsContainerKind) (metadata : list byte) : outcome (list byte) :=
  let! (metadata', r) := method_decode_next container_kind metadata in
  match r with
  | Ok (arguments, _) => drop_arguments arguments metadata'
  | Err _ => Ret metadata
  end.

Record MethodsMetadataDecoder : Type := {
  methods_container_kind : MethodsContainerKind;
  methods_remaining : nat
}.

(** [MethodsMetadataDecoder::decode_next]; a [MethodMetadataDecoder] is its container kind. *)
Definition methods_decode_next (d : MethodsMetadataDecoder) : option (MethodsMetadataDecoder * MethodsContainerKind) :=
  match methods_remaining d with
  | O => None
  | S remaining =>
      Some ({| methods_container_kind := methods_container_kind d; methods_remaining := remaining |},
            methods_container_kind d)
  end.

(** [MethodsMetadataDecoder::drop] *)
Fixpoint drop_methods_loop (container_kind : MethodsContainerKind) (remaining : nat) (metadata : list byte)
    : outcome (list byte) :=
  match remaining with
  | O => Ret metadata
  | S remaining => let! metadata := drop_method container_kind metadata in drop_methods_loop container_kind remaining metadata
  end.

Definition drop_methods (d : MethodsMetadataDecoder) (metadata : list byte) : outcome (list byte) :=
  drop_methods_loop (methods_container_kind d) (methods_remaining d) metadata.

(** ** Contracts and traits *)

Inductive MetadataItem : Type :=
| ContractItem (state_type_name : list byte) (state_type_details slot_type_details tmp_type_details : IoTypeDetails)
    (num_methods : N)
| TraitItem (trait_name : list byte) (num_methods : N).

(** [MetadataItem::num_methods] *)
Definition item_num_methods (item : MetadataItem) : N :=
  match item with ContractItem _ _ _ _ n | TraitItem _ n => n end.

(** [MetadataItem::into_decoder] *)
Definition into_decoder (item : MetadataItem) : MethodsMetadataDecoder :=
  {| methods_container_kind := match item with ContractItem _ _ _ _ _ => InContract | TraitItem _ _ => InTrait end;
     methods_remaining := N.to_nat (item_num_methods item) |}.

Record MetadataDecoder : Type := {
  metadata : list byte;
  found_contract : bool;
  found_something : bool
}.

(** [MetadataDecoder::new] *)
Definition new_decoder (metadata : list byte) : MetadataDecoder :=
  {| metadata := metadata; found_contract := false; found_something := false |}.

(** [MetadataDecoder::decode_contract] *)
Definition decode_contract : reader MetadataItem := fun metadata =>
  match type_name metadata with
  | None => Ret (metadata, Err FailedToDecodeStateTypeName)
  | Some state_type_name =>
      (read! state := read_type_details InvalidStateIoType in
       read! slot := read_type_details InvalidStateIoType in
       read! tmp := read_type_details InvalidStateIoType in
       read! n := split_off_first in
       rret (ContractItem state_type_name state slot tmp n)) metadata
  end.

(** [MetadataDecoder::decode_trait] *)
Definition decode_trait : reader MetadataItem :=
  read! name := read_name in
  read! n := split_off_first in
  rret (TraitItem name n).

(** [MetadataDecoder::decode_next] *)
Definition metadata_decode_next (d : MetadataDecoder)
    : outcome (MetadataDecoder * option (result MetadataItem MetadataDecodingError)) :=
  match metadata d with
  | [] => Ret (d, None)
  | b :: rest =>
      let d' contract something rest :=
        {| metadata := rest; found_contract := contract; found_something := something |} in
      let run contract (m : reader MetadataItem) :=
        let! (rest, r) := m rest in Ret (d' contract true rest, Some r) in
      match contract_kind_try_from (Byte.to_N b) with
      | None => Ret (d' (found_contract d) (found_something d) rest, Some (Err (InvalidFirstMetadataByte (Byte.to_N b))))
      | Some Contract =>
          if found_contract d
          then Ret (d' (found_contract d) true rest, Some (Err MultipleContractsFound))
          else run true decode_contract
      | Some Trait => run (found_contract d) decode_trait
      | Some kind => Ret (d' (found_contract d) true rest, Some (Err (ExpectedContractOrTrait kind)))
      end
  end.

(** ** Compact metadata *)

(** [compact_method_argument] *)
Definition compact_method_argument (input : list byte) (o : output) (method_kind : ContractMetadataKind)
    (last_argument for_external_args : bool) : outcome (option (list byte * output)) :=
  try? (byte, input) := read_u8 input in
  try? kind := contract_kind_try_from byte in
  (* Writes the name as empty and skips it *)
  let remove_name input o :=
    match read_u8 input with
    | Some (argument_name_length, input) =>
        match write_u8 0 o with
        | Some o => (fun input => (input, o)) <$> get_from (N.to_nat argument_name_length) input
        | None => None
        end
    | None => None
    end in
  match kind with
  | Contract | Trait | Init | UpdateStateless | UpdateStatefulRo | UpdateStatefulRw | ViewStateless | ViewStateful =>
      Ret None
  | EnvRo | EnvRw =>
      if for_external_args then Ret (Some (input, o))
      else try? o := write_u8 byte o in Ret (Some (input, o))
  | TmpRo | TmpRw =>
      try? o := (if for_external_args then Some o else write_u8 byte o) in Ret (remove_name input o)
  | SlotRo | SlotRw =>
      try? o := write_u8 (if for_external_args then contract_kind_as_u8 SlotRo else byte) o in
      Ret (remove_name input o)
  | Input | Output | Return =>
      try? o := write_u8 byte o in
      try? (input, o) := remove_name input o in
      match method_kind, kind, last_argument with
      | Init, Output, true | Init, Return, true => Ret (Some (input, o))
      | _, _, _ => IoMetadata.compact input o
      end
  end.

(** The loop over the arguments of a method *)
Fixpoint compact_arguments (num_arguments : nat) (input : list byte) (o : output) (method_kind : ContractMetadataKind)
    (for_external_args : bool) : outcome (option (list byte * output)) :=
  match num_arguments with
  | O => Ret (Some (input, o))
  | S num_arguments =>
      try! (input, o) :=
        compact_method_argument input o method_kind (Nat.eqb num_arguments 0) for_external_args in
      compact_arguments num_arguments input o method_kind for_external_args
  end.

(** The kind that is written for a method *)
Definition compact_method_kind (kind : ContractMetadataKind) (for_external_args : bool) : ContractMetadataKind :=
  if for_external_args then
    match kind with
    | UpdateStateless | UpdateStatefulRo | UpdateStatefulRw => UpdateStateless
    | ViewStateless | ViewStateful => ViewStateless
    | kind => kind
    end
  else kind.

(** The branch of [compact_metadata_inner] for methods *)
Definition compact_method (input : list byte) (o : output) (kind : ContractMetadataKind) (for_external_args : bool)
    : outcome (option (list byte * output)) :=
  try? (method_name_length, _) := read_u8 input in
  try? (input, o) := copy_n_bytes input o (1 + N.to_nat method_name_length) in
  try? (num_arguments, input) := read_u8 input in
  try? o := write_u8 num_arguments o in
  compact_arguments (N.to_nat num_arguments) input o kind for_external_args.

Section compact_methods.
Variable compact : list byte -> output -> outcome (option (list byte * output)).

(** The loop over the methods of a contract or trait *)
Fixpoint compact_methods (num_methods : nat) (input : list byte) (o : output) : outcome (option (list byte * output)) :=
  match num_methods with
  | O => Ret (Some (input, o))
  | S num_methods => try! (input, o) := compact input o in compact_methods num_methods input o
  end.

Definition compact_num_methods (input : list byte) (o : output) : outcome (option (list byte * output)) :=
  try? (num_methods, input) := read_u8 input in
  try? o := write_u8 num_methods o in
  compact_methods (N.to_nat num_methods) input o.
End compact_methods.

(** [compact_metadata_inner] *)
Fixpoint compact_metadata_inner (fuel : nat) (for_external_args : bool) (input : list byte) (o : output)
    : outcome (option (list byte * output)) :=
  match fuel with
  | O => Fault
  | S fuel =>
      let compact := compact_metadata_inner fuel for_external_args in
      try? (byte, input) := read_u8 input in
      try? kind := contract_kind_try_from byte in
      match kind with
      | Contract =>
          try? o := write_u8 byte o in
          try! (input, o) := IoMetadata.compact input o in
          try! (input, o) := IoMetadata.compact input o in
          try! (input, o) := IoMetadata.compact input o in
          compact_num_methods compact input o
      | Trait =>
          try? o := write_u8 byte o in
          try? (trait_name_length, input) := read_u8 input in
          try? o := write_u8 0 o in
          try? input := get_from (N.to_nat trait_name_length) input in
          compact_num_methods compact input o
      | Init | UpdateStateless | UpdateStatefulRo | UpdateStatefulRw | ViewStateless | ViewStateful =>
          try? o := write_u8 (contract_kind_as_u8 (compact_method_kind kind for_external_args)) o in
          compact_method input o kind for_external_args
      | EnvRo | EnvRw | TmpRo | TmpRw | SlotRo | SlotRw | Input | Output | Return => Ret None
      end
  end.

(** [compact_metadata] *)
Definition compact_contract_metadata (metadata : list byte) (for_external_args : bool)
    : outcome (option (list byte * nat)) :=
  try! (rest, o) := compact_metadata_inner (S (length metadata)) for_external_args metadata (IoMetadata.Output [] MAX_METADATA_CAPACITY) in
  Ret (match rest with [] => Some (scratch_of o) | _ => None end).

(** [ContractMetadataKind::compact] and [ContractMetadataKind::compact_external_args] *)
Definition compact (metadata : list byte) : outcome (option (list byte * nat)) := compact_contract_metadata metadata false.
Definition compact_external_args (metadata : list byte) : outcome (option (list byte * nat)) :=
  compact_contract_metadata metadata true.

(** [MethodFingerprint::new] *)
Definition fingerprint (method_metadata : list byte) : outcome (option (list byte)) :=
  try! (scratch, size) := compact_external_args method_metadata in
  try? (compact_metadata, _) := split_at_checked size scratch in
  let! hash := Blake3Tree.const_hash compact_metadata in Ret (Some hash).

(** ** The syntax of methods, contracts and traits *)

Record argument : Type := { arg_kind : ArgumentKind; arg_name : list byte; arg_type : option io_type }.

Record method : Type := { meth_kind : MethodKind; meth_name : list byte; meth_args : list argument }.

Definition of_argument_kind (kind : ArgumentKind) : ContractMetadataKind :=
  match kind with
  | NativeExecutor.EnvRo => EnvRo | NativeExecutor.EnvRw => EnvRw
  | NativeExecutor.TmpRo => TmpRo | NativeExecutor.TmpRw => TmpRw
  | NativeExecutor.SlotRo => SlotRo | NativeExecutor.SlotRw => SlotRw
  | NativeExecutor.Input => Input | NativeExecutor.Output => Output | NativeExecutor.Return => Return
  end.

Definition of_method_kind (kind : MethodKind) : ContractMetadataKind :=
  match kind with
  | NativeExecutor.Init => Init
  | NativeExecutor.UpdateStateless => UpdateStateless
  | NativeExecutor.UpdateStatefulRo => UpdateStatefulRo
  | NativeExecutor.UpdateStatefulRw => UpdateStatefulRw
  | NativeExecutor.ViewStateless => ViewStateless
  | NativeExecutor.ViewStateful => ViewStateful
  end.

Definition ckind_byte (kind : ContractMetadataKind) : byte := byte_of (contract_kind_as_u8 kind).

Definition is_env (kind : ArgumentKind) : bool :=
  match kind with NativeExecutor.EnvRo | NativeExecutor.EnvRw => true | _ => false end.

(** The encoding that the documentation of [ContractMetadataKind] gives *)
Definition print_argument (a : argument) : list byte :=
  ckind_byte (of_argument_kind (arg_kind a)) ::
    if is_env (arg_kind a) then [] else print_name (arg_name a) ++ match arg_type a with Some t => print t | None => [] end.

Definition print_method (m : method) : list byte :=
  ckind_byte (of_method_kind (meth_kind m)) :: print_name (meth_name m) ++
    byte_of (N.of_nat (length (meth_args m))) :: concat (print_argument <$> meth_args m).

Definition fitting (t : option io_type) : Prop :=
  match t with Some t => type_wf t /\ type_fits t | None => False end.

(** Arguments are allowed for the method, and have a type if they are inputs, outputs or the
    result, except for the last output or result of an initializer. *)
Definition argument_wf (kind : MethodKind) (remaining : nat) (a : argument) : Prop :=
  argument_allowed kind (arg_kind a) = true /\
  match arg_kind a with
  | NativeExecutor.EnvRo | NativeExecutor.EnvRw => arg_name a = bytes_of "env" /\ arg_type a = None
  | NativeExecutor.TmpRo | NativeExecutor.TmpRw | NativeExecutor.SlotRo | NativeExecutor.SlotRw =>
      name_ok (arg_name a) /\ arg_type a = None
  | NativeExecutor.Input => name_ok (arg_name a) /\ fitting (arg_type a)
  | NativeExecutor.Output | NativeExecutor.Return =>
      name_ok (arg_name a) /\
      match kind, remaining with NativeExecutor.Init, O => arg_type a = None | _, _ => fitting (arg_type a) end
  end.

Fixpoint arguments_wf (kind : MethodKind) (args : list argument) : Prop :=
  match args with
  | [] => True
  | a :: args => argument_wf kind (length args) a /\ arguments_wf kind args
  end.

Definition method_wf (container : MethodsContainerKind) (m : method) : Prop :=
  method_allowed container (meth_kind m) = true /\ name_ok (meth_name m) /\ length (meth_args m) < 256 /\
  arguments_wf (meth_kind m) (meth_args m).

Definition argument_item (a : argument) : ArgumentMetadataItem :=
  {| argument_name := arg_name a; argument_kind := arg_kind a;
     argument_type_details := type_details_of <$> arg_type a |}.

Definition method_item (m : method) : MethodMetadataItem :=
  {| method_name := meth_name m; item_method_kind := meth_kind m; num_arguments := N.of_nat (length (meth_args m)) |}.

Definition method_arguments (m : method) : ArgumentsMetadataDecoder :=
  {| arguments_method_kind := meth_kind m; arguments_remaining := length (meth_args m) |}.

(** Calling [decode_next] until there are no more arguments *)
Fixpoint read_arguments (kind : MethodKind) (remaining : nat) : reader (list ArgumentMetadataItem) :=
  match remaining with
  | O => rret []
  | S remaining =>
      read! item := decode_argument kind remaining in
      read! items := read_arguments kind remaining in rret (item :: items)
  end.

(** A method with its arguments *)
Definition read_method (container : MethodsContainerKind) : reader (MethodMetadataItem * list ArgumentMetadataItem) :=
  read! (arguments, item) := method_decode_next container in
  read! items := read_arguments (arguments_method_kind arguments) (arguments_remaining arguments) in rret (item, items).

(** ** Lemmas on readers *)

Lemma rbind_inv {A B} (m : reader A) (k : A -> reader B) l rest b :
  rbind m k l = Ret (rest, Ok b) -> exists a l', m l = Ret (l', Ok a) /\ k a l' = Ret (rest, Ok b).
Proof. unfold rbind. destruct (m l) as [[l' [a|e]]|]; cbn; [|done..]. eauto. Qed.

Lemma rbind_ret {A B} (m : reader A) (k : A -> reader B) l l' a : m l = Ret (l', Ok a) -> rbind m k l = k a l'.
Proof. unfold rbind. by intros ->. Qed.

Lemma ckind_of_byte kind : contract_kind_try_from (Byte.to_N (ckind_byte kind)) = Some kind.
Proof. by destruct kind. Qed.

Lemma ckind_byte_inv b kind : contract_kind_try_from (Byte.to_N b) = Some kind -> b = ckind_byte kind.
Proof. destruct b; cbv [Byte.to_N contract_kind_try_from]; intros [= <-]; reflexivity. Qed.

Lemma ckind_byte_inj k k' : ckind_byte k = ckind_byte k' -> k = k'.
Proof. intros E. pose proof (ckind_of_byte k) as H. rewrite E, ckind_of_byte in H. by injection H. Qed.

Lemma ckind_as_u8 kind : Byte.to_N (ckind_byte kind) = contract_kind_as_u8 kind.
Proof. by destruct kind. Qed.

Lemma to_of_argument_kind k : to_argument_kind (of_argument_kind k) = Some k.
Proof. by destruct k. Qed.

Lemma of_to_argument_kind k k' : to_argument_kind k = Some k' -> k = of_argument_kind k'.
Proof. destruct k; cbn; intros [= <-]; done. Qed.

Lemma to_of_method_kind k : to_method_kind (of_method_kind k) = Some k.
Proof. by destruct k. Qed.

Lemma of_to_method_kind k k' : to_method_kind k = Some k' -> k = of_method_kind k'.
Proof. destruct k; cbn; intros [= <-]; done. Qed.

Lemma read_kind_print kind rest : read_kind (ckind_byte kind :: rest) = Ret (rest, Ok kind).
Proof. unfold read_kind, rbind. cbn [split_off_first obind]. by rewrite ckind_of_byte. Qed.

Lemma read_kind_inv l rest kind : read_kind l = Ret (rest, Ok kind) -> l = ckind_byte kind :: rest.
Proof.
  unfold read_kind, rbind. destruct l as [|b l]; [done|]. cbn [split_off_first obind].
  destruct (contract_kind_try_from _) as [k|] eqn:E; [|done]. intros [= <- <-]. by rewrite (ckind_byte_inv _ _ E).
Qed.

Lemma read_name_print name rest : name_ok name -> read_name (print_name name ++ rest) = Ret (rest, Ok name).
Proof.
  intros Hn. unfold read_name, rbind, print_name. cbn [app split_off_first obind].
  rewrite small_byte, Nat2N.id by done. unfold split_off. by rewrite split_at_checked_app.
Qed.

Lemma read_name_inv l rest name : read_name l = Ret (rest, Ok name) -> l = print_name name ++ rest /\ name_ok name.
Proof.
  unfold read_name, rbind. destruct l as [|b l]; [done|]. cbn [split_off_first obind]. unfold split_off.
  destruct (split_at_checked _ l) as [[n l']|] eqn:E; [|done]. intros [= <- <-].
  apply split_at_checked_inv in E as [-> Hl]. unfold print_name, name_ok. rewrite Hl, byte_of_nat.
  split; [done|apply byte_small].
Qed.

Lemma read_type_print e t rest :
  type_wf t -> type_fits t -> read_type_details e (print t ++ rest) = Ret (rest, Ok (type_details_of t)).
Proof.
  intros Hw Hf. unfold read_type_details.
  by rewrite (proj2 (type_details_iff (print t ++ rest) (type_details_of t) rest)) by eauto.
Qed.

Lemma read_type_inv e l rest d :
  read_type_details e l = Ret (rest, Ok d) -> exists t, l = print t ++ rest /\ type_wf t /\ type_fits t /\ d = type_details_of t.
Proof.
  unfold read_type_details. destruct (type_details l) as [[[d' l']|]|] eqn:E; cbn [obind]; [|done..].
  intros [= <- <-]. by apply type_details_iff.
Qed.

Lemma read_byte_inv l rest n : split_off_first l = Ret (rest, Ok n) -> exists b, l = b :: rest /\ n = Byte.to_N b.
Proof. destruct l as [|b l]; [done|]. intros [= <- <-]. eauto. Qed.

(** ** Decoding is exact *)

Lemma decode_argument_print kind remaining a rest :
  argument_wf kind remaining a -> decode_argument kind remaining (print_argument a ++ rest) = Ret (rest, Ok (argument_item a)).
Proof.
  destruct a as [k name t]. intros [Ha Hw]. cbn [arg_kind arg_name arg_type] in *. unfold decode_argument, print_argument.
  cbn [arg_kind arg_name arg_type app]. rewrite (rbind_ret _ _ _ _ _ (read_kind_print _ _)), to_of_argument_kind, Ha.
  assert (Hin : forall (f : list byte -> reader ArgumentMetadataItem) l,
    name_ok name -> rbind read_name f ((print_name name ++ l) ++ rest) = f name (l ++ rest)).
  { intros f l Hn. rewrite <- app_assoc. apply rbind_ret. by apply read_name_print. }
  assert (Ht : forall e k, fitting t ->
    (read! d := read_type_details e in rret {| argument_name := name; argument_kind := k; argument_type_details := Some d |})
      (match t with Some t => print t | None => [] end ++ rest) =
    Ret (rest, Ok {| argument_name := name; argument_kind := k; argument_type_details := type_details_of <$> t |})).
  { intros e k' Hf. destruct t as [t|]; [|done]. destruct Hf as [Hw' Hf].
    by rewrite (rbind_ret _ _ _ _ _ (read_type_print e t rest Hw' Hf)). }
  unfold argument_item. cbn [arg_kind arg_name arg_type].
  destruct k; cbn [is_env]; destruct Hw as [Hn Ht']; subst; rewrite ?Hin by done; cbn; try done; try (by apply Ht).
  - destruct kind, remaining; subst; cbn; try done; by apply Ht.
  - destruct kind, remaining; subst; cbn; try done; by apply Ht.
Qed.

Lemma decode_argument_inv kind remaining l rest item :
  decode_argument kind remaining l = Ret (rest, Ok item) ->
  exists a, l = print_argument a ++ rest /\ argument_wf kind remaining a /\ item = argument_item a.
Proof.
  intros (ck & l1 & Hk & H)%rbind_inv. apply read_kind_inv in Hk as ->.
  destruct (to_argument_kind ck) as [k|] eqn:Ek; [|done]. apply of_to_argument_kind in Ek as ->.
  destruct (argument_allowed kind k) eqn:Ha; [|done].
  assert (Hname : forall f : list byte -> reader ArgumentMetadataItem, rbind read_name f l1 = Ret (rest, Ok item) ->
    exists name l2, l1 = print_name name ++ l2 /\ name_ok name /\ f name l2 = Ret (rest, Ok item)).
  { intros f (name & l2 & Hn & Hf)%rbind_inv. apply read_name_inv in Hn as [-> Hn]. eauto. }
  assert (Htype : forall name e l2,
    (read! d := read_type_details e in rret {| argument_name := name; argument_kind := k; argument_type_details := Some d |})
      l2 = Ret (rest, Ok item) ->
    exists t, l2 = print t ++ rest /\ fitting (Some t) /\
      item = argument_item {| arg_kind := k; arg_name := name; arg_type := Some t |}).
  { intros name e l2 (d & l3 & Hd & Hr)%rbind_inv. injection Hr as <- <-.
    apply read_type_inv in Hd as (t & -> & Hw & Hf & ->). by exists t. }
  assert (Hfin : forall name t l2, l1 = (if is_env k then [] else print_name name ++ match t with Some t => print t | None => [] end) ++ l2 ->
    l2 = rest -> argument_wf kind remaining {| arg_kind := k; arg_name := name; arg_type := t |} ->
    item = argument_item {| arg_kind := k; arg_name := name; arg_type := t |} ->
    exists a, ckind_byte (of_argument_kind k) :: l1 = print_argument a ++ rest /\ argument_wf kind remaining a /\ item = argument_item a).
  { intros name t l2 -> -> Hw Hi. by exists {| arg_kind := k; arg_name := name; arg_type := t |}. }
  unfold argument_wf in Hfin. cbn [arg_kind arg_name arg_type] in Hfin.
  destruct k; cbn [is_env app] in Hfin;
    try (injection H as -> <-; by apply (Hfin (bytes_of "env") None rest));
    apply Hname in H as (name & l2 & -> & Hn & H);
    try (injection H as -> <-; apply (Hfin name None rest); [by rewrite app_nil_r|done..]).
  - apply Htype in H as (t & -> & Hf & Hi). apply (Hfin name (Some t) rest); [by rewrite <- app_assoc|done..].
  - destruct kind, remaining; first [injection H as -> <-; apply (Hfin name None rest); [by rewrite app_nil_r|done..]
      |apply Htype in H as (t & -> & Hf & Hi); apply (Hfin name (Some t) rest); [by rewrite <- app_assoc|done..]].
  - destruct kind, remaining; first [injection H as -> <-; apply (Hfin name None rest); [by rewrite app_nil_r|done..]
      |apply Htype in H as (t & -> & Hf & Hi); apply (Hfin name (Some t) rest); [by rewrite <- app_assoc|done..]].
Qed.

Lemma read_arguments_iff kind n l rest items :
  read_arguments kind n l = Ret (rest, Ok items) <->
  exists args, length args = n /\ l = concat (print_argument <$> args) ++ rest /\ arguments_wf kind args /\
    items = argument_item <$> args.
Proof.
  split.
  - revert l items. induction n as [|n IH]; intros l items; cbn [read_arguments].
    + intros [= <- <-]. by exists [].
    + intros (item & l1 & Hi & H)%rbind_inv. apply rbind_inv in H as (items' & l2 & Hs & H). injection H as -> <-.
      apply decode_argument_inv in Hi as (a & -> & Hw & ->). apply IH in Hs as (args & <- & -> & Hws & ->).
      exists (a :: args). cbn. by rewrite <- app_assoc.
  - intros (args & <- & -> & Hw & ->). induction args as [|a args IH]; [done|]. destruct Hw as [Hw Hws].
    cbn [length read_arguments fmap list_fmap concat]. rewrite <- app_assoc.
    rewrite (rbind_ret _ _ _ _ _ (decode_argument_print _ _ _ _ Hw)). by rewrite (rbind_ret _ _ _ _ _ (IH Hws)).
Qed.

Lemma method_decode_next_iff container l rest arguments item :
  method_decode_next container l = Ret (rest, Ok (arguments, item)) <->
  exists kind name n, l = ckind_byte (of_method_kind kind) :: print_name name ++ byte_of (N.of_nat n) :: rest /\
    method_allowed container kind = true /\ name_ok name /\ n < 256 /\
    arguments = {| arguments_method_kind := kind; arguments_remaining := n |} /\
    item = {| method_name := name; item_method_kind := kind; num_arguments := N.of_nat n |}.
Proof.
  split.
  - intros (ck & l1 & Hk & H)%rbind_inv. apply read_kind_inv in Hk as ->.
    destruct (to_method_kind ck) as [kind|] eqn:Ek; [|done]. apply of_to_method_kind in Ek as ->.
    destruct (method_allowed container kind) eqn:Ha; [|done]. apply rbind_inv in H as (name & l2 & Hn & H).
    apply read_name_inv in Hn as [-> Hn]. apply rbind_inv in H as (n & l3 & Hb & H). injection H as -> <- <-.
    apply read_byte_inv in Hb as (b & -> & ->). exists kind, name, (N.to_nat (Byte.to_N b)).
    rewrite byte_of_nat, N2Nat.id. split_and!; try done. apply byte_small.
  - intros (kind & name & n & -> & Ha & Hn & Hlt & -> & ->). unfold method_decode_next.
    rewrite (rbind_ret _ _ _ _ _ (read_kind_print _ _)), to_of_method_kind, Ha.
    rewrite (rbind_ret _ _ _ _ _ (read_name_print _ _ Hn)). unfold rbind. cbn [split_off_first obind rret].
    by rewrite small_byte, Nat2N.id.
Qed.

Lemma read_method_iff container l rest item items :
  read_method container l = Ret (rest, Ok (item, items)) <->
  exists m, l = print_method m ++ rest /\ method_wf container m /\ item = method_item m /\
    items = argument_item <$> meth_args m.
Proof.
  split.
  - intros ([arguments item'] & l1 & Hm & H)%rbind_inv. apply rbind_inv in H as (items' & l2 & Ha & H).
    injection H as -> <- <-. apply method_decode_next_iff in Hm as (kind & name & n & -> & Hal & Hn & Hlt & -> & ->).
    cbn [arguments_method_kind arguments_remaining] in Ha.
    apply read_arguments_iff in Ha as (args & <- & -> & Hw & ->).
    exists {| meth_kind := kind; meth_name := name; meth_args := args |}. unfold print_method. cbn.
    split_and!; try done. by rewrite <- app_assoc.
  - intros (m & -> & (Ha & Hn & Hlt & Hw) & -> & ->). unfold read_method.
    assert (Hd : method_decode_next container (print_method m ++ rest) =
      Ret (concat (print_argument <$> meth_args m) ++ rest, Ok (method_arguments m, method_item m))).
    { apply method_decode_next_iff. exists (meth_kind m), (meth_name m), (length (meth_args m)).
      split_and!; try done. unfold print_method. cbn. by rewrite <- app_assoc. }
    assert (Hr : read_arguments (meth_kind m) (length (meth_args m)) (concat (print_argument <$> meth_args m) ++ rest) =
      Ret (rest, Ok (argument_item <$> meth_args m))) by (apply read_arguments_iff; eauto).
    rewrite (rbind_ret _ _ _ _ _ Hd). by rewrite (rbind_ret _ _ _ _ _ Hr).
Qed.

(** ** Contracts and traits *)

Inductive item : Type :=
| AContract (state slot tmp : io_type) (methods : list method)
| ATrait (name : list byte) (methods : list method).

Definition item_methods (i : item) : list method :=
  match i with AContract _ _ _ methods | ATrait _ methods => methods end.

Definition item_container (i : item) : MethodsContainerKind :=
  match i with AContract _ _ _ _ => InContract | ATrait _ _ => InTrait end.

(** What precedes the methods *)
Definition print_head (i : item) : list byte :=
  match i with
  | AContract state slot tmp _ => ckind_byte Contract :: print state ++ print slot ++ print tmp
  | ATrait name _ => ckind_byte Trait :: print_name name
  end ++ [byte_of (N.of_nat (length (item_methods i)))].

Definition print_item (i : item) : list byte := print_head i ++ concat (print_method <$> item_methods i).

Definition head_wf (i : item) : Prop :=
  match i with
  | AContract state slot tmp _ =>
      (type_wf state /\ type_fits state) /\ (type_wf slot /\ type_fits slot) /\ (type_wf tmp /\ type_fits tmp)
  | ATrait name _ => name_ok name
  end /\ length (item_methods i) < 256.

Definition item_wf (i : item) : Prop := head_wf i /\ Forall (method_wf (item_container i)) (item_methods i).

Definition is_contract (i : item) : bool := match i with AContract _ _ _ _ => true | ATrait _ _ => false end.

(** At most one contract, none if one was found before *)
Fixpoint single_contract (found : bool) (items : list item) : Prop :=
  match items with
  | [] => True
  | i :: items => (found && is_contract i = false) /\ single_contract (found || is_contract i) items
  end.

(** The name of a type, for which the decoder looks again *)
Definition name_of (t : io_type) : option (list byte) := type_name (print t).

Definition view_head (i : item) (m : MetadataItem) : Prop :=
  match i with
  | AContract state slot tmp methods =>
      exists name, name_of state = Some name /\
      m = ContractItem name (type_details_of state) (type_details_of slot) (type_details_of tmp) (N.of_nat (length methods))
  | ATrait name methods => m = TraitItem name (N.of_nat (length methods))
  end.

Lemma kind_name_app kind l rest name : kind_name kind l = Some name -> kind_name kind (l ++ rest) = Some name.
Proof.
  destruct kind; try done; cbn [kind_name]; destruct l as [|b l]; try done; cbn [read_u8 app]; unfold split_at_checked;
    repeat case_decide; try done; rewrite length_app in *; try lia; cbn; intros [= <-]; by rewrite take_app_le by lia.
Qed.

Lemma type_name_print t rest : type_wf t -> exists name, name_of t = Some name /\ type_name (print t ++ rest) = Some name.
Proof.
  intros Hw. enough (exists name, type_name (print t) = Some name) as [name E].
  { exists name. split; [done|]. revert E. unfold type_name. destruct (print t) as [|b l]; [done|]. cbn [read_u8 app].
    destruct (try_from _); [|done]. apply kind_name_app. }
  destruct t as [k|k name fs|k name vs|k n t|k n|k t]; cbn [print type_wf] in *; unfold type_name; cbn [read_u8];
    rewrite kind_of_byte.
  1,4,5,6: destruct k; cbn in Hw; try done; cbn [kind_name]; eauto.
  - assert (Hn : name_ok name) by (destruct (form_of k); try done; apply Hw).
    exists name. unfold print_name. destruct k; try done; cbn [kind_name app read_u8]; rewrite small_byte, Nat2N.id by done;
      unfold split_at_checked; rewrite length_app, decide_True by lia; cbn; by rewrite take_app_length.
  - assert (Hn : name_ok name) by (destruct (form_of k); try done; apply Hw).
    exists name. unfold print_name. destruct k; try done; cbn [kind_name app read_u8]; rewrite small_byte, Nat2N.id by done;
      unfold split_at_checked; rewrite length_app, decide_True by lia; cbn; by rewrite take_app_length.
Qed.

Definition with_rest (d : MetadataDecoder) (found : bool) (rest : list byte) : MetadataDecoder :=
  {| metadata := rest; found_contract := found; found_something := true |}.

(** The head of a contract or trait, up to the number of its methods *)
Lemma metadata_decode_next_print d i rest :
  metadata d = print_head i ++ rest -> head_wf i -> found_contract d && is_contract i = false ->
  exists m, view_head i m /\
    metadata_decode_next d = Ret (with_rest d (found_contract d || is_contract i) rest, Some (Ok m)).
Proof.
  intros E [Hw Hl] Hf. unfold metadata_decode_next. rewrite E. destruct i as [state slot tmp methods|name methods];
    unfold print_head in *; cbn [is_contract item_methods app] in *; rewrite ckind_of_byte.
  - destruct Hw as ([Hw1 Hf1] & [Hw2 Hf2] & [Hw3 Hf3]). rewrite andb_true_r in Hf. rewrite Hf. cbn [orb].
    unfold decode_contract. rewrite <- !app_assoc. destruct (type_name_print state
      (print slot ++ print tmp ++ [byte_of (N.of_nat (length methods))] ++ rest) Hw1) as (name & En & ->).
    rewrite !(rbind_ret _ _ _ _ _ (read_type_print _ _ _ Hw1 Hf1)), !(rbind_ret _ _ _ _ _ (read_type_print _ _ _ Hw2 Hf2)),
      !(rbind_ret _ _ _ _ _ (read_type_print _ _ _ Hw3 Hf3)).
    unfold rbind. cbn [split_off_first app obind rret]. rewrite small_byte by done. eexists. split; [|done]. by exists name.
  - unfold decode_trait. rewrite <- !app_assoc. rewrite (rbind_ret _ _ _ _ _ (read_name_print _ _ Hw)).
    unfold rbind. cbn [split_off_first app obind rret]. rewrite small_byte by done. rewrite orb_false_r.
    eexists. by split.
Qed.

Lemma metadata_decode_next_inv d d' m :
  metadata_decode_next d = Ret (d', Some (Ok m)) ->
  exists i rest, metadata d = print_head i ++ rest /\ head_wf i /\ found_contract d && is_contract i = false /\
    view_head i m /\ d' = with_rest d (found_contract d || is_contract i) rest /\
    methods_container_kind (into_decoder m) = item_container i /\ methods_remaining (into_decoder m) = length (item_methods i).
Proof.
  unfold metadata_decode_next. destruct (metadata d) as [|b l]; [done|].
  destruct (contract_kind_try_from _) as [kind|] eqn:E; [|done]. apply ckind_byte_inv in E as ->. destruct kind; try done.
  - destruct (found_contract d) eqn:Ef; [done|]. destruct (decode_contract l) as [[rest r]|] eqn:Hd; [|done].
    cbn [obind]. intros [= <- ->]. unfold decode_contract in Hd. destruct (type_name l) as [name|] eqn:En; [|done].
    apply rbind_inv in Hd as (d1 & l1 & H1 & Hd). apply rbind_inv in Hd as (d2 & l2 & H2 & Hd).
    apply rbind_inv in Hd as (d3 & l3 & H3 & Hd). apply rbind_inv in Hd as (n & l4 & Hn & Hd). injection Hd as -> <-.
    apply read_type_inv in H1 as (t1 & -> & Hw1 & Hf1 & ->), H2 as (t2 & -> & Hw2 & Hf2 & ->), H3 as (t3 & -> & Hw3 & Hf3 & ->).
    apply read_byte_inv in Hn as (b & -> & ->).
    set (dummy := {| meth_kind := NativeExecutor.Init; meth_name := []; meth_args := [] |}).
    exists (AContract t1 t2 t3 (replicate (N.to_nat (Byte.to_N b)) dummy)), rest. unfold head_wf, print_head.
    cbn [item_methods is_contract view_head into_decoder methods_container_kind methods_remaining item_num_methods item_container].
    rewrite !length_replicate, !byte_of_nat, N2Nat.id.
    destruct (type_name_print t1 (print t2 ++ print t3 ++ b :: rest) Hw1) as (name' & En' & En''). rewrite En in En''. injection En'' as <-.
    split_and!; try done; [cbn; by rewrite <- !app_assoc|apply byte_small|by exists name].
  - destruct (decode_trait l) as [[rest r]|] eqn:Hd; [|done]. cbn [obind]. intros [= <- ->]. unfold decode_trait in Hd.
    apply rbind_inv in Hd as (name & l1 & Hn & Hd). apply read_name_inv in Hn as [-> Hn].
    apply rbind_inv in Hd as (n & l2 & Hb & Hd). injection Hd as -> <-. apply read_byte_inv in Hb as (b & -> & ->).
    set (dummy := {| meth_kind := NativeExecutor.Init; meth_name := []; meth_args := [] |}).
    exists (ATrait name (replicate (N.to_nat (Byte.to_N b)) dummy)), rest. unfold head_wf, print_head.
    cbn [item_methods is_contract view_head into_decoder methods_container_kind methods_remaining item_num_methods item_container].
    rewrite !length_replicate, !byte_of_nat, N2Nat.id, andb_false_r, orb_false_r.
    split_and!; try done; [cbn; by rewrite <- !app_assoc|apply byte_small].
Qed.

Definition with_methods (i : item) (methods : list method) : item :=
  match i with AContract state slot tmp _ => AContract state slot tmp methods | ATrait name _ => ATrait name methods end.

Lemma with_methods_head i methods m :
  length methods = length (item_methods i) ->
  print_head (with_methods i methods) = print_head i /\ (head_wf (with_methods i methods) <-> head_wf i) /\
  (view_head (with_methods i methods) m <-> view_head i m) /\ is_contract (with_methods i methods) = is_contract i /\
  item_container (with_methods i methods) = item_container i /\ item_methods (with_methods i methods) = methods.
Proof. intros E. destruct i; unfold print_head, head_wf; cbn in *; by rewrite E. Qed.

Abbreviation method_view := (MethodMetadataItem * list ArgumentMetadataItem)%type.

Definition view_method (m : method) : method_view := (method_item m, argument_item <$> meth_args m).

(** Calling [decode_next] until there are no more methods, reading their arguments *)
Fixpoint read_methods (container : MethodsContainerKind) (remaining : nat) : reader (list method_view) :=
  match remaining with
  | O => rret []
  | S remaining => read! m := read_method container in read! ms := read_methods container remaining in rret (m :: ms)
  end.

(** Calling [decode_next] until there are no more contracts and traits *)
Fixpoint decode_all (fuel : nat) (d : MetadataDecoder)
    : outcome (result (list (MetadataItem * list method_view)) MetadataDecodingError) :=
  match fuel with
  | O => Fault
  | S fuel =>
      let! (d, next) := metadata_decode_next d in
      match next with
      | None => Ret (Ok [])
      | Some (Err e) => Ret (Err e)
      | Some (Ok m) =>
          let methods := into_decoder m in
          let! (rest, r) := read_methods (methods_container_kind methods) (methods_remaining methods) (metadata d) in
          match r with
          | Err e => Ret (Err e)
          | Ok views =>
              let! r := decode_all fuel {| metadata := rest; found_contract := found_contract d; found_something := found_something d |} in
              Ret (match r with Ok l => Ok ((m, views) :: l) | Err e => Err e end)
          end
      end
  end.

Definition view_item (i : item) (v : MetadataItem * list method_view) : Prop :=
  view_head i (fst v) /\ snd v = view_method <$> item_methods i.

Lemma read_methods_iff container n l rest views :
  read_methods container n l = Ret (rest, Ok views) <->
  exists ms, length ms = n /\ l = concat (print_method <$> ms) ++ rest /\ Forall (method_wf container) ms /\
    views = view_method <$> ms.
Proof.
  split.
  - revert l views. induction n as [|n IH]; intros l views; cbn [read_methods].
    + intros [= <- <-]. by exists [].
    + intros ([item items] & l1 & Hi & H)%rbind_inv. apply rbind_inv in H as (views' & l2 & Hs & H). injection H as -> <-.
      apply read_method_iff in Hi as (m & -> & Hw & -> & ->). apply IH in Hs as (ms & <- & -> & Hws & ->).
      exists (m :: ms). cbn [length fmap list_fmap concat]. rewrite <- app_assoc. split_and!; try done. by constructor.
  - intros (ms & <- & -> & Hw & ->). induction Hw as [|m ms Hw Hws IH]; [done|].
    cbn [length read_methods fmap list_fmap concat]. rewrite <- app_assoc.
    assert (Hm : read_method container (print_method m ++ concat (print_method <$> ms) ++ rest) =
      Ret (concat (print_method <$> ms) ++ rest, Ok (view_method m))) by (apply read_method_iff; eauto).
    rewrite (rbind_ret _ _ _ _ _ Hm). by rewrite (rbind_ret _ _ _ _ _ IH).
Qed.

Lemma print_item_length i : 1 <= length (print_item i).
Proof. unfold print_item, print_head. rewrite !length_app. cbn. lia. Qed.

Lemma decode_all_sound fuel d views :
  decode_all fuel d = Ret (Ok views) ->
  exists items, metadata d = concat (print_item <$> items) /\ Forall item_wf items /\
    single_contract (found_contract d) items /\ Forall2 view_item items views.
Proof.
  revert d views. induction fuel as [|fuel IH]; intros d views H; [done|]. cbn [decode_all] in H.
  destruct (metadata_decode_next d) as [[d' [[m|e]|]]|] eqn:Hn; cbn [obind] in H; try done.
  - apply metadata_decode_next_inv in Hn as (i & rest & Em & Hh & Hf & Hv & -> & Ec & En). rewrite Ec, En in H.
    cbn [metadata with_rest found_contract found_something] in H.
    destruct (read_methods _ _ rest) as [[rest' [ms|e]]|] eqn:Hr; cbn [obind] in H; try done.
    apply read_methods_iff in Hr as (methods & El & -> & Hws & ->).
    destruct (decode_all fuel _) as [[l|e]|] eqn:Hd; cbn [obind] in H; try done. injection H as <-.
    apply IH in Hd as (items & Er & Hwf & Hs & Hvs). cbn [metadata found_contract] in *.
    destruct (with_methods_head i methods m El) as (E1 & E2 & E3 & E4 & E5 & E6).
    exists (with_methods i methods :: items). cbn [fmap list_fmap concat single_contract]. unfold print_item at 1.
    rewrite E1, E4, E6, <- app_assoc, <- Er. split_and!; try done.
    + constructor; [|done]. split; [by apply E2|]. by rewrite E5, E6.
    + constructor; [|done]. split; [by apply E3|]. cbn. by rewrite E6.
  - injection H as <-. exists []. unfold metadata_decode_next in Hn. destruct (metadata d) as [|b l] eqn:E; [by split_and!|].
    exfalso. destruct (contract_kind_try_from _) as [[]|]; try done; [destruct (found_contract d); [done|]|];
      repeat match goal with H : context [obind ?x _] |- _ => destruct x as [[]|]; cbn [obind] in H; try done end.
Qed.

Lemma decode_all_complete fuel d items :
  metadata d = concat (print_item <$> items) -> length (metadata d) < fuel -> Forall item_wf items ->
  single_contract (found_contract d) items ->
  exists views, decode_all fuel d = Ret (Ok views) /\ Forall2 view_item items views.
Proof.
  revert d items. induction fuel as [|fuel IH]; intros d items Em Hl Hw Hs; [lia|]. cbn [decode_all].
  destruct items as [|i items].
  { exists []. unfold metadata_decode_next. cbn in Em. rewrite Em. cbn. split; [done|constructor]. }
  apply Forall_cons in Hw as [[Hh Hm] Hw]. destruct Hs as [Hf Hs]. cbn [fmap list_fmap concat] in Em.
  unfold print_item in Em at 1. rewrite <- app_assoc in Em.
  destruct (metadata_decode_next_print d i _ Em Hh Hf) as (m & Hv & ->). cbn [obind].
  assert (Ei : methods_container_kind (into_decoder m) = item_container i /\ methods_remaining (into_decoder m) = length (item_methods i)).
  { destruct i; cbn in Hv; [destruct Hv as (? & _ & ->)|subst m]; cbn; by rewrite Nat2N.id. }
  destruct Ei as [-> ->]. cbn [metadata with_rest found_contract found_something].
  rewrite (proj2 (read_methods_iff _ _ _ (concat (print_item <$> items)) (view_method <$> item_methods i))) by eauto.
  cbn [obind].
  destruct (IH {| metadata := concat (print_item <$> items); found_contract := found_contract d || is_contract i;
    found_something := true |} items) as (views & -> & Hvs); [done| |done..|].
  - cbn [metadata]. rewrite Em, app_assoc, length_app in Hl. pose proof (print_item_length i) as Hp.
    unfold print_item in Hp. lia.
  - exists ((m, view_method <$> item_methods i) :: views). split; [done|]. by constructor.
Qed.

(** C14. Calling the decoders of metadata until it ends succeeds if and only if the metadata is
    a sequence of traits and at most one contract, with allowed methods and arguments and types
    whose sizes fit 32 bits and whose enum variants have the same size; what is read are their
    names, kinds and type details, in order. *)
Theorem metadata_decoding_exact m views :
  decode_all (S (length m)) (new_decoder m) = Ret (Ok views) <->
  exists items, m = concat (print_item <$> items) /\ Forall item_wf items /\ single_contract false items /\
    Forall2 view_item items views.
Proof.
  split; [apply decode_all_sound|]. intros (items & -> & Hw & Hs & Hv).
  destruct (decode_all_complete (S (length (concat (print_item <$> items)))) (new_decoder (concat (print_item <$> items))) items)
    as (views' & -> & Hv'); [done|cbn; lia|done..|]. do 2 f_equal. clear - Hv Hv'.
  revert views Hv. induction Hv' as [|i [m ms] items views' [Hh Hm] _ IH]; intros views Hv.
  - by apply Forall2_nil_inv_l in Hv as ->.
  - apply Forall2_cons_inv_l in Hv as ([m' ms'] & views'' & [Hh' Hm'] & Hvs & ->). cbn in *. f_equal; [|by apply IH].
    subst ms ms'. f_equal. destruct i; cbn in *; [|congruence]. destruct Hh as (? & E & ->), Hh' as (? & E' & ->). congruence.
Qed.

(** ** The compact form of methods, contracts and traits *)

(** What is kept of an argument, in general and in the fingerprint of a method *)
Definition compact_print_argument (external : bool) (a : argument) : list byte :=
  let kind := ckind_byte (of_argument_kind (arg_kind a)) in
  match arg_kind a with
  | NativeExecutor.EnvRo | NativeExecutor.EnvRw => if external then [] else [kind]
  | NativeExecutor.TmpRo | NativeExecutor.TmpRw => if external then [x00] else [kind; x00]
  | NativeExecutor.SlotRo | NativeExecutor.SlotRw => [if external then ckind_byte SlotRo else kind; x00]
  | NativeExecutor.Input | NativeExecutor.Output | NativeExecutor.Return =>
      kind :: x00 :: match arg_type a with Some t => compact_print t | None => [] end
  end.

Definition compact_print_method (external : bool) (m : method) : list byte :=
  ckind_byte (compact_method_kind (of_method_kind (meth_kind m)) external) :: print_name (meth_name m) ++
    byte_of (N.of_nat (length (meth_args m))) :: concat (compact_print_argument external <$> meth_args m).

Definition compact_print_item (external : bool) (i : item) : list byte :=
  match i with
  | AContract state slot tmp methods =>
      ckind_byte Contract :: compact_print state ++ compact_print slot ++ compact_print tmp
  | ATrait _ _ => [ckind_byte Trait; x00]
  end ++ byte_of (N.of_nat (length (item_methods i))) :: concat (compact_print_method external <$> item_methods i).

Lemma write_kind kind o : 1 <= room o -> write_u8 (contract_kind_as_u8 kind) o = Some (after o [ckind_byte kind]).
Proof. apply write_u8_after. Qed.

(** Skips a name, having written an empty one *)
Lemma remove_name_after name rest o :
  name_ok name -> 1 <= room o ->
  match read_u8 (print_name name ++ rest) with
  | Some (length, input) =>
      match write_u8 0 o with
      | Some o => (fun input => (input, o)) <$> get_from (N.to_nat length) input
      | None => None
      end
  | None => None
  end = Some (rest, after o [x00]).
Proof.
  intros Hn Hr. cbn [print_name app read_u8]. rewrite write_u8_after, small_byte, Nat2N.id, get_from_app by done. done.
Qed.

Lemma compact_type_after t rest o :
  type_wf t -> length (compact_print t) <= room o ->
  IoMetadata.compact (print t ++ rest) o = Ret (Some (rest, after o (compact_print t))).
Proof. intros. apply compact_exact. eauto 10. Qed.

Lemma compact_argument_after external kind remaining a rest o :
  argument_wf kind remaining a -> length (compact_print_argument external a) <= room o ->
  compact_method_argument (print_argument a ++ rest) o (of_method_kind kind) (Nat.eqb remaining 0) external =
    Ret (Some (rest, after o (compact_print_argument external a))).
Proof.
  intros [_ Hw] Hr. unfold compact_method_argument, print_argument, compact_print_argument in *.
  cbn [app read_u8 otry]. rewrite ckind_of_byte, ckind_as_u8.
  destruct (arg_kind a) eqn:Ek; cbn [is_env of_argument_kind otry length app] in *;
    try (destruct external; cbn [length] in Hr; rewrite ?write_kind by lia; cbn [otry]; by rewrite ?after_nil).
  1-4: destruct Hw as [Hn ->]; destruct external; cbn [length] in Hr; rewrite ?write_kind by lia; cbn [otry];
    rewrite <- app_assoc; cbn [app]; rewrite remove_name_after by (done || (cbn; lia)); by rewrite ?after_app.
  all: destruct Hw as [Hn Ht]; rewrite write_kind by lia; cbn [otry]; rewrite <- app_assoc;
    rewrite remove_name_after by (done || (cbn; lia)); cbn [otry]; rewrite after_app; cbn [app].
  1: destruct (arg_type a) as [t|]; [|done]; destruct Ht as [Ht _]; destruct kind; cbn [of_method_kind];
    rewrite compact_type_after by (done || (cbn; lia)); by rewrite after_app.
  all: destruct kind, remaining; cbn [of_method_kind Nat.eqb] in *; try (rewrite Ht; done);
    destruct (arg_type a) as [t|]; try done; destruct Ht as [Ht _];
    rewrite compact_type_after by (done || (cbn; lia)); by rewrite after_app.
Qed.

Lemma compact_arguments_after external kind args rest o :
  arguments_wf kind args -> length (concat (compact_print_argument external <$> args)) <= room o ->
  compact_arguments (length args) (concat (print_argument <$> args) ++ rest) o (of_method_kind kind) external =
    Ret (Some (rest, after o (concat (compact_print_argument external <$> args)))).
Proof.
  revert o. induction args as [|a args IH]; intros o Hw Hr; [cbn; by rewrite after_nil|]. destruct Hw as [Hw Hws].
  cbn [length fmap list_fmap concat compact_arguments] in *. rewrite length_app in Hr. rewrite <- app_assoc.
  rewrite compact_argument_after by (done || lia). cbn [obind otry].
  rewrite IH by (done || (cbn; lia)). by rewrite after_app.
Qed.

Lemma compact_method_after fuel external container m rest o :
  method_wf container m -> length (compact_print_method external m) <= room o ->
  compact_metadata_inner (S fuel) external (print_method m ++ rest) o =
    Ret (Some (rest, after o (compact_print_method external m))).
Proof.
  intros (_ & Hn & Hl & Ha) Hr. unfold compact_print_method, print_method in *. cbn [compact_metadata_inner app read_u8 otry].
  rewrite ckind_of_byte. cbn [otry length app] in *. rewrite length_app in Hr. cbn [length] in Hr.
  assert (E : forall (k : ContractMetadataKind) (X Y Z : outcome (option (list byte * output))), k = of_method_kind (meth_kind m) ->
    match k with Contract => X | Trait => Y | Init | UpdateStateless | UpdateStatefulRo | UpdateStatefulRw
    | ViewStateless | ViewStateful => Z | _ => Ret None end = Z) by (intros k X Y Z ->; by destruct (meth_kind m)).
  rewrite E by done. clear E. rewrite write_kind by lia. cbn [otry]. unfold compact_method.
  cbn [print_name app read_u8 otry]. rewrite small_byte, Nat2N.id by done. rewrite <- app_assoc.
  change (?b :: ?l ++ ?r) with ((b :: l) ++ r). change (1 + length ?l) with (length (x00 :: l)).
  change (length (x00 :: meth_name m)) with (length (byte_of (N.of_nat (length (meth_name m))) :: meth_name m)).
  rewrite copy_n_bytes_after by (cbn in *; lia). cbn [otry app read_u8]. rewrite small_byte by done.
  rewrite write_u8_after by (cbn in *; lia). cbn [otry]. rewrite Nat2N.id.
  rewrite compact_arguments_after by (done || (cbn in *; lia)). by rewrite !after_app.
Qed.

Lemma compact_methods_after fuel external container methods rest o :
  Forall (method_wf container) methods -> length methods < 256 ->
  S (length (concat (compact_print_method external <$> methods))) <= room o ->
  compact_num_methods (compact_metadata_inner (S fuel) external)
    (byte_of (N.of_nat (length methods)) :: concat (print_method <$> methods) ++ rest) o =
    Ret (Some (rest, after o (byte_of (N.of_nat (length methods)) :: concat (compact_print_method external <$> methods)))).
Proof.
  intros Hw Hl Hr. unfold compact_num_methods. cbn [read_u8 otry]. rewrite small_byte by done.
  rewrite write_u8_after by lia. cbn [otry]. rewrite Nat2N.id.
  change (?b :: concat (compact_print_method external <$> methods)) with
    ([b] ++ concat (compact_print_method external <$> methods)). rewrite <- after_app.
  assert (Hr' : length (concat (compact_print_method external <$> methods)) <=
    room (after o [byte_of (N.of_nat (length methods))])) by (cbn; lia).
  revert Hr'. generalize (after o [byte_of (N.of_nat (length methods))]). clear Hr Hl o.
  induction Hw as [|m methods Hm Hw IH]; intros o Hr; [cbn; by rewrite after_nil|].
  cbn [length fmap list_fmap concat compact_methods] in *. rewrite length_app in Hr. rewrite <- app_assoc.
  rewrite (compact_method_after _ _ container) by (done || lia). cbn [obind otry].
  rewrite IH by (cbn [room after]; lia). by rewrite after_app.
Qed.

Lemma compact_item_after fuel external i rest o :
  item_wf i -> length (compact_print_item external i) <= room o ->
  compact_metadata_inner (S (S fuel)) external (print_item i ++ rest) o =
    Ret (Some (rest, after o (compact_print_item external i))).
Proof.
  intros [Hh Hw] Hr. unfold compact_print_item, print_item, print_head, head_wf in *.
  remember (S fuel) as f eqn:Ef. cbn [compact_metadata_inner].
  destruct i as [state slot tmp methods|name methods]; cbn [item_methods item_container app read_u8 otry length] in *;
    rewrite ckind_of_byte, ckind_as_u8; cbn [otry]; rewrite ?length_app in Hr; cbn [length] in Hr;
    rewrite write_kind by lia; cbn [otry]; rewrite <- !app_assoc.
  - destruct Hh as (((Hs & _) & (Hl & _) & (Ht & _)) & Hn).
    do 3 (rewrite compact_type_after by (done || (cbn; lia)); cbn [obind otry]). cbn [app].
    subst f. rewrite (compact_methods_after _ _ InContract) by (done || (cbn; lia)). by rewrite !after_app.
  - destruct Hh as [Hn Hl]. cbn [print_name app read_u8 otry]. rewrite small_byte, Nat2N.id by done.
    rewrite write_u8_after by (cbn; lia). cbn [otry]. rewrite get_from_app. cbn [otry].
    subst f. rewrite (compact_methods_after _ _ InTrait) by (done || (cbn; lia)). by rewrite !after_app.
Qed.

Lemma scratch_after l :
  length l <= MAX_METADATA_CAPACITY ->
  scratch_of (after (IoMetadata.Output [] MAX_METADATA_CAPACITY) l) =
    (l ++ replicate (MAX_METADATA_CAPACITY - length l) x00, length l).
Proof. intros Hl. unfold scratch_of. cbn [written room after app]. f_equal. lia. Qed.

(** ** Fingerprints *)

(** What the compact form has of an argument: nothing of the environment, that there is a
    temporary or a slot, whether it is read or written, and the types of inputs, outputs and the
    result *)
Definition listed_argument (a : argument) : option (ArgumentKind * option io_type) :=
  match arg_kind a with
  | NativeExecutor.EnvRo | NativeExecutor.EnvRw => None
  | NativeExecutor.TmpRo | NativeExecutor.TmpRw => Some (NativeExecutor.TmpRo, None)
  | NativeExecutor.SlotRo | NativeExecutor.SlotRw => Some (NativeExecutor.SlotRo, None)
  | kind => Some (kind, arg_type a)
  end.

Definition print_external (e : ArgumentKind * option io_type) : list byte :=
  match fst e with
  | NativeExecutor.TmpRo => []
  | kind => [ckind_byte (of_argument_kind kind)]
  end ++ x00 :: match snd e with Some t => compact_print t | None => [] end.

Fixpoint externals_wf (es : list (ArgumentKind * option io_type)) : Prop :=
  match es with
  | [] => True
  | (kind, t) :: es =>
      match kind, t with
      | NativeExecutor.TmpRo, None | NativeExecutor.SlotRo, None => True
      | NativeExecutor.Input, Some t | NativeExecutor.Output, Some t | NativeExecutor.Return, Some t => type_wf t
      | NativeExecutor.Output, None | NativeExecutor.Return, None => es = []
      | _, _ => False
      end /\ externals_wf es
  end.

Definition erase_external (e : ArgumentKind * option io_type) : ArgumentKind * option io_type :=
  (fst e, erase <$> snd e).

(** What the fingerprint depends on: the name of the method, whether it initializes, updates or
    views, its number of arguments, those of the environment included, and the arguments that
    are listed, temporaries included, without names *)
Definition signature (m : method) : ContractMetadataKind * list byte * nat * list (ArgumentKind * option io_type) :=
  (compact_method_kind (of_method_kind (meth_kind m)) true, meth_name m, length (meth_args m),
   erase_external <$> omap listed_argument (meth_args m)).

(** What the documentation says it depends on: the arguments that callers pass, and these are
    neither the environment nor temporaries. *)
Definition not_temporary (e : ArgumentKind * option io_type) : bool :=
  match fst e with NativeExecutor.TmpRo => false | _ => true end.

Definition external_signature (m : method) : ContractMetadataKind * list byte * list (ArgumentKind * option io_type) :=
  (compact_method_kind (of_method_kind (meth_kind m)) true, meth_name m,
   filter not_temporary (erase_external <$> omap listed_argument (meth_args m))).

Definition no_temporaries (m : method) : Prop :=
  Forall (fun a => arg_kind a <> NativeExecutor.TmpRo /\ arg_kind a <> NativeExecutor.TmpRw) (meth_args m).

Lemma filter_no_temporaries m :
  no_temporaries m ->
  filter not_temporary (erase_external <$> omap listed_argument (meth_args m)) = erase_external <$> omap listed_argument (meth_args m).
Proof.
  unfold no_temporaries. induction 1 as [|a args [Ha Ha'] _ IH]; [done|]. cbn [omap list_omap].
  destruct (listed_argument a) as [e|] eqn:E; [|done]. cbn [fmap list_fmap]. rewrite filter_cons_True; [by rewrite IH|].
  unfold listed_argument in E. destruct (arg_kind a); simplify_eq; done.
Qed.

(** Methods with the same fingerprint look the same to callers; the converse holds for methods
    without temporaries that have as many arguments. *)
Lemma signature_external m m' :
  (signature m = signature m' -> external_signature m = external_signature m') /\
  (no_temporaries m -> no_temporaries m' -> length (meth_args m) = length (meth_args m') ->
   external_signature m = external_signature m' -> signature m = signature m').
Proof.
  unfold signature, external_signature. split.
  - generalize (compact_method_kind (of_method_kind (meth_kind m)) true) as k. intros k E.
    apply pair_equal_spec in E as [E ->]. apply pair_equal_spec in E as [E _]. by apply pair_equal_spec in E as [-> ->].
  - intros Hm Hm' -> E. rewrite !filter_no_temporaries in E by done.
    apply pair_equal_spec in E as [E ->]. by apply pair_equal_spec in E as [-> ->].
Qed.

Lemma compact_print_externals kind args :
  arguments_wf kind args ->
  concat (compact_print_argument true <$> args) = concat (print_external <$> omap listed_argument args) /\
  externals_wf (omap listed_argument args).
Proof.
  induction args as [|a args IH]; [done|]. intros [[_ Hw] [E Hws]%IH]. cbn [fmap list_fmap concat omap list_omap]. rewrite E.
  unfold compact_print_argument, listed_argument. destruct (arg_kind a) eqn:Ek; [done..| | | | | | |].
  1-4: by cbn.
  1: destruct Hw as [_ Ht]; destruct (arg_type a) as [t|]; [|done]; cbn; by destruct Ht.
  all: destruct Hw as [_ Ht]; split; [done|]; cbn [externals_wf]; split; [|done];
    destruct (arg_type a) as [t|] eqn:Et; [destruct kind, (length args); try done; by apply proj1 in Ht|];
    destruct args; [done|]; by destruct kind.
Qed.

Lemma print_external_erase es : externals_wf es -> concat (print_external <$> (erase_external <$> es)) = concat (print_external <$> es).
Proof.
  induction es as [|[kind t] es IH]; [done|]. intros [Hk Hw]. cbn [fmap list_fmap concat]. rewrite IH by done. f_equal.
  destruct compact_print_erase as [He _]. unfold print_external, erase_external. cbn [fst snd].
  destruct t as [t|]; [|done]. cbn [fmap option_fmap option_map]. rewrite He; [done|]. by destruct kind.
Qed.

Lemma compact_print_nonempty t l : compact_print t ++ l <> [].
Proof. destruct (compact_print_cons t) as [r ->]. done. Qed.

Lemma print_external_inj es es' :
  externals_wf es -> externals_wf es' -> concat (print_external <$> es) = concat (print_external <$> es') ->
  erase_external <$> es = erase_external <$> es'.
Proof.
  revert es'. induction es as [|[k t] es IH]; intros [|[k' t'] es'] Hw Hw' E; [done| | |].
  - exfalso. unfold print_external in E. cbn in E. by destruct k'.
  - exfalso. unfold print_external in E. cbn in E. by destruct k.
  - destruct Hw as [Hk Hw], Hw' as [Hk' Hw']. cbn [fmap list_fmap concat] in *. unfold print_external in E at 1 3.
    cbn [fst snd] in E.
    assert (k = k') as <- by (destruct k, t; try done; destruct k', t'; try done; by injection E).
    assert (E' : match t with Some t => compact_print t | None => [] end ++ concat (print_external <$> es) =
      match t' with Some t => compact_print t | None => [] end ++ concat (print_external <$> es'))
      by (destruct k; cbn in E; by injection E). clear E.
    destruct t as [t|], t' as [t'|]; cbn [app] in E'.
    + assert (type_wf t /\ type_wf t') as [Ht Ht'] by (by destruct k).
      destruct compact_print_prefix as [Hp _]. destruct (Hp _ _ _ _ Ht Ht' E') as [Hs Hr]. f_equal; [|by apply IH].
      unfold erase_external. cbn. by rewrite Hs.
    + assert (es' = []) as -> by (by destruct k). by apply compact_print_nonempty in E'.
    + assert (es = []) as -> by (by destruct k). symmetry in E'. by apply compact_print_nonempty in E'.
    + f_equal. by apply IH.
Qed.

Lemma name_prefix name name' l l' :
  name_ok name -> name_ok name' -> print_name name ++ l = print_name name' ++ l' -> name = name' /\ l = l'.
Proof.
  intros Hn Hn' E. cbn in E. injection E as Eb E. apply (f_equal Byte.to_N) in Eb. rewrite !small_byte in Eb by done.
  apply app_inj_1 in E; [done|lia].
Qed.

Lemma compact_print_signature c c' m m' :
  method_wf c m -> method_wf c' m' -> compact_print_method true m = compact_print_method true m' <-> signature m = signature m'.
Proof.
  intros (_ & Hn & Hl & Ha) (_ & Hn' & Hl' & Ha'). unfold compact_print_method, signature.
  destruct (compact_print_externals _ _ Ha) as [-> He], (compact_print_externals _ _ Ha') as [-> He']. split; intros E.
  - injection E as Ek E. destruct (name_prefix (meth_name m) (meth_name m') _ _ Hn Hn' ltac:(cbn; by f_equal))
      as [-> E2]. injection E2 as El E2.
    apply (f_equal Byte.to_N) in El. rewrite !small_byte in El by done.
    rewrite (print_external_inj _ _ He He' E2). f_equal. f_equal; [f_equal|lia]. by apply ckind_byte_inj.
  - assert (compact_method_kind (of_method_kind (meth_kind m)) true = compact_method_kind (of_method_kind (meth_kind m')) true /\
      meth_name m = meth_name m' /\ length (meth_args m) = length (meth_args m') /\
      erase_external <$> omap listed_argument (meth_args m) = erase_external <$> omap listed_argument (meth_args m'))
      as (-> & -> & -> & Ee) by (split_and!; congruence).
    rewrite <- (print_external_erase _ He), Ee. by rewrite print_external_erase.
Qed.

Lemma hash_of_compact l :
  length l <= MAX_METADATA_CAPACITY -> Blake3Tree.const_hash l = Ret (Blake3Tree.blake3 l).
Proof.
  intros Hl. unfold Blake3Tree.const_hash, Blake3Tree.blake3.
  apply Blake3Tree.const_hash_all_at_once_spec; [apply Blake3Tree.IV_ok|done|].
  unfold MAX_METADATA_CAPACITY in Hl. lia.
Qed.

Lemma fingerprint_after method_metadata l :
  length l <= MAX_METADATA_CAPACITY ->
  compact_metadata_inner (S (length method_metadata)) true method_metadata (IoMetadata.Output [] MAX_METADATA_CAPACITY) =
    Ret (Some ([], after (IoMetadata.Output [] MAX_METADATA_CAPACITY) l)) ->
  fingerprint method_metadata = Ret (Some (Blake3Tree.blake3 l)).
Proof.
  intros Hl E. unfold fingerprint, compact_external_args, compact_contract_metadata. rewrite E. cbn [obind otry].
  rewrite scratch_after by done. cbn [obind otry]. unfold split_at_checked.
  rewrite decide_True by (rewrite length_app; lia). cbn [otry]. rewrite take_app_length, hash_of_compact by done. done.
Qed.

(** C13. For methods that follow the format and whose compact form is within the capacity for
    metadata, the fingerprint is the BLAKE3 hash of the compact form, which is the same for two
    methods if and only if they have the same name and class (initializer, update, view), as
    many arguments, those of the environment included, and the same sequence of temporaries,
    slots, inputs and outputs with their types, up to names and whether slots are written. So
    equal forms mean equal external arguments; the converse, which the documentation suggests,
    holds for methods without temporaries that have as many arguments. *)
Theorem fingerprint_identifies c c' m m' :
  method_wf c m -> method_wf c' m' ->
  length (compact_print_method true m) <= MAX_METADATA_CAPACITY ->
  length (compact_print_method true m') <= MAX_METADATA_CAPACITY ->
  fingerprint (print_method m) = Ret (Some (Blake3Tree.blake3 (compact_print_method true m))) /\
  fingerprint (print_method m') = Ret (Some (Blake3Tree.blake3 (compact_print_method true m'))) /\
  (compact_print_method true m = compact_print_method true m' <-> signature m = signature m') /\
  (compact_print_method true m = compact_print_method true m' -> external_signature m = external_signature m') /\
  (no_temporaries m -> no_temporaries m' -> length (meth_args m) = length (meth_args m') ->
   external_signature m = external_signature m' -> compact_print_method true m = compact_print_method true m').
Proof.
  intros Hm Hm' Hl Hl'. pose proof (compact_print_signature c c' m m' Hm Hm') as Hs.
  destruct (signature_external m m') as [He He']. split_and!; [| |done|by rewrite Hs|rewrite Hs; auto].
  all: apply fingerprint_after; [done|].
  - rewrite <- (app_nil_r (print_method m)) at 2. by apply (compact_method_after _ _ c).
  - rewrite <- (app_nil_r (print_method m')) at 2. by apply (compact_method_after _ _ c').
Qed.

Definition sample_method (kind : MethodKind) (slot : ArgumentKind) (input : byte) : method :=
  {| meth_kind := kind; meth_name := [x66];
     meth_args := [{| arg_kind := slot; arg_name := [x73]; arg_type := None |};
                   {| arg_kind := NativeExecutor.Input; arg_name := [input]; arg_type := Some (TPlain U32) |}] |}.

Lemma fingerprint_identifies_witness :
  let m := sample_method NativeExecutor.UpdateStateless NativeExecutor.SlotRo x61 in
  let m' := sample_method NativeExecutor.UpdateStatefulRw NativeExecutor.SlotRw x62 in
  signature m = signature m' /\
  (compact_print_method true m = compact_print_method true m' <-> signature m = signature m').
Proof.
  intros m m'. split; [reflexivity|]. refine (proj1 (proj2 (proj2 (fingerprint_identifies InTrait InContract m m' _ _ _ _)))).
  1-2: unfold method_wf, arguments_wf, argument_wf, name_ok; cbn; split_and!; try reflexivity; try lia; done.
  all: apply Nat.leb_le; reflexivity.
Defined.

(** Arguments that callers do not see matter all the same: a method that has the environment or a
    temporary as an argument has another fingerprint than one that has not, and looks the same
    to callers. *)
Example environment_changes_fingerprint :
  let arg := {| arg_kind := NativeExecutor.Input; arg_name := [x61]; arg_type := Some (TPlain U32) |} in
  let env := {| arg_kind := NativeExecutor.EnvRo; arg_name := bytes_of "env"; arg_type := None |} in
  let tmp := {| arg_kind := NativeExecutor.TmpRo; arg_name := [x74]; arg_type := None |} in
  let m args := {| meth_kind := NativeExecutor.ViewStateless; meth_name := [x66]; meth_args := args |} in
  external_signature (m [env; arg]) = external_signature (m [arg]) /\
  external_signature (m [tmp; arg]) = external_signature (m [arg]) /\
  compact_print_method true (m [env; arg]) <> compact_print_method true (m [arg]) /\
  compact_print_method true (m [tmp; arg]) <> compact_print_method true (m [env; arg]).
Proof. done. Qed.

(** The compact form of methods, traits and contracts with well-formed arguments is theirs
    without the names of types, traits and arguments, but not read by the decoders where
    a temporary leaves an empty name without a kind. *)
Lemma compact_contract_metadata_item external i :
  item_wf i -> length (compact_print_item external i) <= MAX_METADATA_CAPACITY ->
  compact_contract_metadata (print_item i) external =
    Ret (Some (compact_print_item external i ++
      replicate (MAX_METADATA_CAPACITY - length (compact_print_item external i)) x00, length (compact_print_item external i))).
Proof.
  intros Hw Hl. unfold compact_contract_metadata. pose proof (print_item_length i) as Hp.
  destruct (length (print_item i)) as [|n] eqn:E; [lia|]. rewrite <- (app_nil_r (print_item i)).
  rewrite compact_item_after by done. cbn [obind otry]. by rewrite scratch_after.
Qed.

(** ** Compacting returns on all bytes *)

(** Returns, and what is left is not longer *)
Definition compacted (input : list byte) (r : outcome (option (list byte * output))) : Prop :=
  exists r', r = Ret r' /\ forall rest o, r' = Some (rest, o) -> length rest <= length input.

Lemma compacted_none input : compacted input (Ret None).
Proof. by exists None. Qed.

Lemma compacted_some input rest o : length rest <= length input -> compacted input (Ret (Some (rest, o))).
Proof. intros H. exists (Some (rest, o)). split; [done|]. by intros ? ? [= <- <-]. Qed.

Lemma compacted_try {A} input (m : option A) k :
  (forall x, m = Some x -> compacted input (k x)) -> compacted input (otry m k).
Proof. destruct m; cbn; intros H; [by apply H|apply compacted_none]. Qed.

Lemma compacted_bind input input' m k :
  compacted input' m -> (forall rest o, length rest <= length input' -> compacted input (k (rest, o))) ->
  compacted input (obind m (fun r => otry r k)).
Proof.
  intros (r & -> & Hr) Hk. cbn. apply compacted_try. intros [rest o] ->. apply Hk. by eapply Hr.
Qed.

Lemma compacted_le input input' m : length input' <= length input -> compacted input' m -> compacted input m.
Proof. intros Hl (r & -> & Hr). exists r. split; [done|]. intros rest o E. specialize (Hr rest o E). lia. Qed.

Lemma compact_type_returns input o : compacted input (IoMetadata.compact input o).
Proof.
  destruct (compact_returns (S (length input)) input o ltac:(lia)) as [r Hr]. unfold compacted, IoMetadata.compact.
  rewrite Hr. exists r. split; [done|]. intros rest o' ->. apply compact_exact in Hr as (t & -> & _). rewrite length_app. lia.
Qed.

Lemma read_u8_shorter input n rest : read_u8 input = Some (n, rest) -> length input = S (length rest).
Proof. destruct input; [done|]. by intros [= _ <-]. Qed.

Lemma get_from_shorter n input rest : get_from n input = Some rest -> length rest <= length input.
Proof. intros (l & -> & _)%get_from_inv. rewrite length_app. lia. Qed.

Lemma compact_argument_returns input o kind last external : compacted input (compact_method_argument input o kind last external).
Proof.
  apply compacted_try. intros [byte rest] Hb. apply read_u8_shorter in Hb. apply compacted_try. intros k _. cbv zeta.
  assert (Hn : forall o', compacted input (Ret match read_u8 rest with
    | Some (l, input) => match write_u8 0 o' with
        | Some o => (fun input => (input, o)) <$> get_from (N.to_nat l) input | None => None end
    | None => None end)).
  { intros o'. destruct (read_u8 rest) as [[l rest']|] eqn:Er; [|apply compacted_none]. apply read_u8_shorter in Er.
    destruct (write_u8 0 o'); [|apply compacted_none].
    destruct (get_from (N.to_nat l) rest') eqn:Eg; [|apply compacted_none]. apply get_from_shorter in Eg.
    apply compacted_some. lia. }
  destruct k; try apply compacted_none.
  1-2: destruct external; [apply compacted_some; lia|]; apply compacted_try; intros; apply compacted_some; lia.
  1-4: apply compacted_try; intros; apply Hn.
  all: apply compacted_try; intros o1 _; destruct (Hn o1) as (r & [= ->] & Hr); apply compacted_try;
    intros [rest' o2] Hs; apply Hr in Hs;
    destruct kind; try (apply (compacted_le _ rest'); [done|]; apply compact_type_returns);
    destruct last; try (apply (compacted_le _ rest'); [done|]; apply compact_type_returns); by apply compacted_some.
Qed.

Lemma compact_arguments_returns n input o kind external : compacted input (compact_arguments n input o kind external).
Proof.
  revert input o. induction n as [|n IH]; intros input o; cbn [compact_arguments]; [by apply compacted_some|].
  eapply compacted_bind; [apply compact_argument_returns|]. intros rest o' Hr. by apply (compacted_le _ rest).
Qed.

Lemma compact_method_returns input o kind external : compacted input (compact_method input o kind external).
Proof.
  unfold compact_method. apply compacted_try. intros [l ?] _. apply compacted_try. intros [rest o1] Hc.
  apply copy_n_bytes_inv in Hc as (name & -> & _). apply compacted_try. intros [n rest'] Hn. apply read_u8_shorter in Hn.
  apply compacted_try. intros o2 _. apply (compacted_le _ rest'); [rewrite length_app; lia|]. apply compact_arguments_returns.
Qed.

Lemma compact_num_methods_returns compact bound input o :
  (forall input o, length input < bound -> compacted input (compact input o)) -> length input < S bound ->
  compacted input (compact_num_methods compact input o).
Proof.
  intros Hc Hl. unfold compact_num_methods. apply compacted_try. intros [n rest] Hn. apply read_u8_shorter in Hn.
  apply compacted_try. intros o' _. apply (compacted_le _ rest); [lia|]. assert (Hr : length rest < bound) by lia. clear Hn Hl.
  revert rest o' Hr. induction (N.to_nat n) as [|k IH]; intros rest o' Hr; cbn [compact_methods]; [by apply compacted_some|].
  eapply compacted_bind; [by apply Hc|]. intros rest' o2 Hr'. apply (compacted_le _ rest'); [done|]. apply IH. lia.
Qed.

Lemma compact_inner_returns fuel external input o :
  length input < fuel -> compacted input (compact_metadata_inner fuel external input o).
Proof.
  revert input o. induction fuel as [|fuel IH]; intros input o Hl; [lia|]. cbn [compact_metadata_inner].
  apply compacted_try. intros [byte rest] Hb. apply read_u8_shorter in Hb. apply compacted_try. intros kind _.
  assert (Hm : forall rest' o', length rest' <= length rest ->
    compacted input (compact_num_methods (compact_metadata_inner fuel external) rest' o')).
  { intros rest' o' Hr. apply (compacted_le _ rest'); [lia|]. apply (compact_num_methods_returns _ fuel); [done|lia]. }
  destruct kind; try apply compacted_none.
  3-8: apply compacted_try; intros; apply (compacted_le _ rest); [lia|]; apply compact_method_returns.
  - apply compacted_try. intros o1 _. eapply compacted_bind; [apply compact_type_returns|]. intros rest1 o2 H1.
    eapply compacted_bind; [apply compact_type_returns|]. intros rest2 o3 H2.
    eapply compacted_bind; [apply compact_type_returns|]. intros rest3 o4 H3. apply Hm. lia.
  - apply compacted_try. intros o1 _. apply compacted_try. intros [l rest1] Hr%read_u8_shorter.
    apply compacted_try. intros o2 _. apply compacted_try. intros rest2 Hg%get_from_shorter. apply Hm. lia.
Qed.

(** Neither the capacity of the output nor a deeply nested description makes the computation of
    a fingerprint panic. *)
Lemma fingerprint_returns method_metadata : exists r, fingerprint method_metadata = Ret r.
Proof.
  unfold fingerprint, compact_external_args, compact_contract_metadata.
  destruct (compact_inner_returns (S (length method_metadata)) true method_metadata
    (IoMetadata.Output [] MAX_METADATA_CAPACITY)) as (r & -> & _); [lia|]. cbn [obind].
  destruct r as [[[|b rest] o]|]; cbn [obind otry]; [|eauto..].
  destruct (scratch_of o) as [scratch size] eqn:E. unfold split_at_checked. case_decide; cbn [otry]; [|eauto].
  rewrite hash_of_compact; [by eexists|]. rewrite length_take. unfold scratch_of in E. injection E as _ <-. lia.
Qed.

(** ** Decoders that go out of scope *)

Lemma drop_arguments_spec kind n before l :
  drop_arguments_loop kind n before l =
    let! (rest, r) := read_arguments kind n l in Ret (match r with Ok _ => rest | Err _ => before end).
Proof.
  revert l. induction n as [|n IH]; intros l; [done|]. cbn [drop_arguments_loop read_arguments]. unfold rbind at 1.
  destruct (decode_argument kind n l) as [[l' [a|e]]|]; cbn [obind]; [|done..]. rewrite IH. unfold rbind.
  destruct (read_arguments kind n l') as [[l2 [args|e]]|]; done.
Qed.

Lemma drop_method_print container m rest : method_wf container m -> drop_method container (print_method m ++ rest) = Ret rest.
Proof.
  intros Hw. assert (Hr : read_method container (print_method m ++ rest) = Ret (rest, Ok (view_method m)))
    by (apply read_method_iff; eauto).
  unfold read_method in Hr. apply rbind_inv in Hr as ([arguments item] & l & Hm & Hr). unfold drop_method. rewrite Hm.
  cbn [obind]. apply rbind_inv in Hr as (items & l' & Ha & [= -> _ _]). unfold drop_arguments.
  by rewrite drop_arguments_spec, Ha.
Qed.

Lemma drop_methods_print container methods rest :
  Forall (method_wf container) methods ->
  drop_methods_loop container (length methods) (concat (print_method <$> methods) ++ rest) = Ret rest.
Proof.
  induction 1 as [|m methods Hm Hw IH]; [done|]. cbn [length drop_methods_loop fmap list_fmap concat].
  rewrite <- app_assoc, drop_method_print by done. apply IH.
Qed.

(** Calling [decode_next] until there are no more contracts and traits, without decoding their
    methods *)
Fixpoint decode_items (fuel : nat) (d : MetadataDecoder) : outcome (result (list MetadataItem) MetadataDecodingError) :=
  match fuel with
  | O => Fault
  | S fuel =>
      let! (d, next) := metadata_decode_next d in
      match next with
      | None => Ret (Ok [])
      | Some (Err e) => Ret (Err e)
      | Some (Ok m) =>
          let! rest := drop_methods (into_decoder m) (metadata d) in
          let! r := decode_items fuel {| metadata := rest; found_contract := found_contract d; found_something := found_something d |} in
          Ret (match r with Ok l => Ok (m :: l) | Err e => Err e end)
      end
  end.

Lemma decode_items_views fuel d views :
  decode_all fuel d = Ret (Ok views) -> decode_items fuel d = Ret (Ok (fst <$> views)).
Proof.
  revert d views. induction fuel as [|fuel IH]; intros d views H; [done|]. cbn [decode_all decode_items] in *.
  destruct (metadata_decode_next d) as [[d' [[m|e]|]]|]; cbn [obind] in *; try done; [|by injection H as <-].
  destruct (read_methods _ _ (metadata d')) as [[rest [ms|e]]|] eqn:Hr; cbn [obind] in H; try done.
  apply read_methods_iff in Hr as (methods & El & Em & Hw & ->).
  destruct (decode_all fuel _) as [[l|e]|] eqn:Hd; cbn [obind] in H; try done. injection H as <-. apply IH in Hd.
  unfold drop_methods. rewrite Em, <- El, drop_methods_print by done. cbn [obind]. by rewrite Hd.
Qed.

(** Decoders may be dropped before they are done: a caller that looks at contracts and traits
    only, and drops the decoders of their methods, finds those that a caller finds who decodes
    every method and argument. *)
Theorem dropped_decoders_skip m views :
  decode_all (S (length m)) (new_decoder m) = Ret (Ok views) ->
  decode_items (S (length m)) (new_decoder m) = Ret (Ok (fst <$> views)).
Proof. apply decode_items_views. Qed.

Lemma dropped_decoders_skip_witness :
  let m := print_item (ATrait [x54] [sample_method NativeExecutor.UpdateStateless NativeExecutor.SlotRo x61]) ++
    print_item (ATrait [x55] []) in
  decode_items (S (length m)) (new_decoder m) = Ret (Ok [TraitItem [x54] 1; TraitItem [x55] 0]).
Proof.
  intros m.
  apply (dropped_decoders_skip m
    [(TraitItem [x54] 1, [view_method (sample_method NativeExecutor.UpdateStateless NativeExecutor.SlotRo x61)]);
     (TraitItem [x55] 0, [])]).
  reflexivity.
Defined.

(** Dropping the decoder of arguments that do not decode leaves them for what follows, which need
    not fail: a method that declares an argument and has none is skipped, though decoding it
    fails. *)
Example missing_argument_dropped :
  let m := [ckind_byte Trait; x01; x54; x01; ckind_byte UpdateStateless; x01; x66; x01; ckind_byte Trait; x01; x55; x00] in
  decode_items (S (length m)) (new_decoder m) = Ret (Ok [TraitItem [x54] 1; TraitItem [x55] 0]) /\
  decode_all (S (length m)) (new_decoder m) = Ret (Err (ExpectedArgumentKind Trait)).
Proof. done. Qed.

(** ** Decoding returns on all bytes *)

(** The readers only go on to suffixes, so that what is asked of types holds for the rest. *)
Definition reads {A} (m : reader A) : Prop :=
  forall l, no_full_variant l -> exists rest r, m l = Ret (rest, r) /\ rest `suffix_of` l.

Lemma reads_ret {A} (a : A) : reads (rret a).
Proof. intros l _. by eexists _, _. Qed.

Lemma reads_fail {A} e : reads (rfail (A := A) e).
Proof. intros l _. by eexists _, _. Qed.

Lemma reads_bind {A B} (m : reader A) (k : A -> reader B) : reads m -> (forall a, reads (k a)) -> reads (rbind m k).
Proof.
  intros Hm Hk l Hl. unfold rbind. destruct (Hm l Hl) as (rest & [a|e] & -> & Hs); cbn [obind]; [|by eexists _, _].
  destruct (Hk a rest) as (rest' & r & -> & Hs'); [by eapply no_full_variant_suffix|]. eexists _, _. split; [done|].
  by transitivity rest.
Qed.

Lemma reads_first : reads split_off_first.
Proof. intros [|b l] _; eexists _, _; (split; [done|]); [done|apply suffix_cons_r; done]. Qed.

Lemma reads_split_off n : reads (split_off n).
Proof.
  intros l _. unfold split_off. destruct (split_at_checked n l) as [[a rest]|] eqn:E; [|by eexists _, _].
  apply split_at_checked_inv in E as [-> _]. eexists _, _. split; [done|]. by exists a.
Qed.

Lemma reads_type e : reads (read_type_details e).
Proof.
  intros l Hl. unfold read_type_details. destruct (type_details_returns l Hl) as [r Hr]. rewrite Hr. cbn [obind].
  destruct r as [[d rest]|]; [|by eexists _, _]. eexists _, _. split; [done|].
  apply type_details_iff in Hr as (t & -> & _). by exists (print t).
Qed.

Create HintDb reads.
#[export] Hint Resolve reads_ret reads_fail reads_bind reads_first reads_split_off reads_type : reads.

Ltac reads := repeat (case_match || (apply reads_bind; [|intros ?]) || (eauto with reads; fail)); eauto with reads.

Lemma reads_kind : reads read_kind.
Proof. unfold read_kind. reads. Qed.
#[export] Hint Resolve reads_kind : reads.

Lemma reads_name : reads read_name.
Proof. unfold read_name. reads. Qed.
#[export] Hint Resolve reads_name : reads.

Lemma reads_argument kind remaining : reads (decode_argument kind remaining).
Proof. unfold decode_argument. reads. Qed.
#[export] Hint Resolve reads_argument : reads.

Lemma reads_method container : reads (method_decode_next container).
Proof. unfold method_decode_next. reads. Qed.

Lemma reads_contract : reads decode_contract.
Proof.
  intros l Hl. unfold decode_contract. destruct (type_name l) as [name|]; [|by eexists _, _].
  match goal with |- context [rbind ?m ?k l] => assert (Hr : reads (rbind m k)) by reads end. by apply Hr.
Qed.

Lemma reads_trait : reads decode_trait.
Proof. unfold decode_trait. reads. Qed.

Lemma drop_arguments_returns arguments l :
  no_full_variant l -> exists rest, drop_arguments arguments l = Ret rest /\ rest `suffix_of` l.
Proof.
  intros Hl. unfold drop_arguments. rewrite drop_arguments_spec.
  assert (Hr : forall kind n, reads (read_arguments kind n)) by (intros kind n; induction n; cbn [read_arguments]; reads).
  destruct (Hr (arguments_method_kind arguments) (arguments_remaining arguments) l Hl) as (rest & r & -> & Hs). cbn [obind].
  destruct r; eauto.
Qed.

Lemma drop_methods_returns container n l :
  no_full_variant l -> exists rest, drop_methods_loop container n l = Ret rest /\ rest `suffix_of` l.
Proof.
  revert l. induction n as [|n IH]; intros l Hl; cbn [drop_methods_loop]; [eauto|].
  assert (Hm : exists rest, drop_method container l = Ret rest /\ rest `suffix_of` l).
  { unfold drop_method. destruct (reads_method container l Hl) as (rest & r & -> & Hs). cbn [obind].
    destruct r as [[arguments item]|e]; [|eauto].
    destruct (drop_arguments_returns arguments rest) as (rest' & -> & Hs'); [by eapply no_full_variant_suffix|].
    exists rest'. split; [done|]. by transitivity rest. }
  destruct Hm as (rest & -> & Hs). cbn [obind]. destruct (IH rest) as (rest' & -> & Hs'); [by eapply no_full_variant_suffix|].
  exists rest'. split; [done|]. by transitivity rest.
Qed.

Lemma metadata_decode_next_returns d :
  no_full_variant (metadata d) ->
  exists d' next, metadata_decode_next d = Ret (d', next) /\ metadata d' `suffix_of` metadata d /\
    (next <> None -> length (metadata d') < length (metadata d)).
Proof.
  intros Hl. unfold metadata_decode_next. destruct (metadata d) as [|b l] eqn:E.
  { exists d, None. rewrite E. done. }
  assert (Hsl : l `suffix_of` b :: l) by (by apply suffix_cons_r).
  assert (Hlt : forall l', l' `suffix_of` l -> length l' < length (b :: l)).
  { intros l' Hs%suffix_length. cbn. lia. }
  assert (Hrun : forall c (m : reader MetadataItem), reads m -> exists d' next,
    (let! (rest, r) := m l in Ret ({| metadata := rest; found_contract := c; found_something := true |}, Some r)) =
      Ret (d', next) /\ metadata d' `suffix_of` b :: l /\ (next <> None -> length (metadata d') < length (b :: l))).
  { intros c m Hm. destruct (Hm l) as (rest & r & -> & Hs); [by eapply no_full_variant_suffix|]. eexists _, _. split; [done|].
    cbn [metadata]. split; [by transitivity l|]. intros _. by apply Hlt. }
  destruct (contract_kind_try_from _) as [[]|]; try (eexists _, _; split; [done|]; by auto);
    [destruct (found_contract d); [eexists _, _; split; [done|]; by auto|]|]; apply Hrun; [apply reads_contract|apply reads_trait].
Qed.

End ContractMetadata.
