(* ===== verification/RvInt.v ===== *)
(** * Integers of the RISC-V crates

    Fixed-width integers as [Z] with Rust's casts and shifts written out, and the
    24-bit containers of [crates/execution/ab-riscv-primitives/src/instructions/utils.rs]
    that the decoded instructions use for their immediates. *)

From S2P Require Import Prelude.
From stdpp Require Import prelude.
From Stdlib Require Import ZArith Lia.
Local Open Scope Z_scope.

Module RvInt.

(** [x as uW] and [x as iW] (also [cast_unsigned] and [cast_signed]). *)
Definition wrap (w x : Z) : Z := x mod 2 ^ w.

Definition signed (w x : Z) : Z :=
  let u := wrap w x in if u <? 2 ^ (w - 1) then u else u - 2 ^ w.

(** [x << n] and [x >> n] on [iW]; [n] is less than the width. *)
Definition shl_signed (w x n : Z) : Z := signed w (Z.shiftl x n).
Definition shr_signed (x n : Z) : Z := Z.shiftr x n.

(** [to_le_bytes] and [from_le_bytes], and bytes to store. *)
Definition le_byte (x k : Z) : Z := (x / 2 ^ (8 * k)) mod 256.

Fixpoint to_le_bytes (n : nat) (x : Z) : list Z :=
  match n with
  | O => []
  | S n => (x mod 256) :: to_le_bytes n (x / 256)
  end.

Fixpoint from_le_bytes (l : list Z) : Z :=
  match l with [] => 0 | b :: l => b + 256 * from_le_bytes l end.

Record I24 : Type := mkI24 { i24_0 : Z; i24_1 : Z; i24_2 : Z }.

Definition i24_from_i32 (v : Z) : I24 := mkI24 (le_byte v 0) (le_byte v 1) (le_byte v 2).

(** The [debug_assert!] of [I24::from_i32]. *)
Definition i24_debug_assert (v : Z) : bool := shr_signed (shl_signed 32 v 8) 8 =? v.

Definition i24_to_i32 (i : I24) : Z :=
  shr_signed (shl_signed 32 (signed 32 (from_le_bytes [i24_0 i; i24_1 i; i24_2 i; 0])) 8) 8.

(** [I24WithZeroedBits<LOW_ZEROED_BITS>] *)
Record I24Zeroed : Type := mkI24Zeroed { i24z_0 : Z; i24z_1 : Z; i24z_2 : Z }.

Definition i24z_from_i32 (low_zeroed_bits v_original : Z) : I24Zeroed :=
  let v := shr_signed v_original low_zeroed_bits in
  mkI24Zeroed (le_byte v 0) (le_byte v 1) (le_byte v 2).

Definition i24z_to_i32 (low_zeroed_bits : Z) (i : I24Zeroed) : Z :=
  let v := shr_signed (shl_signed 32 (signed 32 (from_le_bytes [i24z_0 i; i24z_1 i; i24z_2 i; 0])) 8) 8 in
  signed 32 (Z.land (wrap 32 (shl_signed 32 v low_zeroed_bits))
                    (wrap 32 (Z.shiftl (2 ^ 32 - 1) low_zeroed_bits))).

(** ** Casts *)

Lemma pow2_pos w : 0 <= w -> 0 < 2 ^ w.
Proof. intros. lia. Qed.

Lemma wrap_range w x : 0 <= w -> 0 <= wrap w x < 2 ^ w.
Proof. intros Hw. pose proof (pow2_pos w Hw). apply Z.mod_pos_bound. lia. Qed.

Lemma wrap_small w x : 0 <= x < 2 ^ w -> wrap w x = x.
Proof. intros. by apply Z.mod_small. Qed.

Lemma wrap_add_period w x k : wrap w (x + k * 2 ^ w) = wrap w x.
Proof. apply Z_mod_plus_full. Qed.

Lemma pow2_split w : 0 < w -> 2 ^ w = 2 * 2 ^ (w - 1).
Proof. intros Hw. replace w with (Z.succ (w - 1)) at 1 by lia. rewrite Z.pow_succ_r by lia. done. Qed.

Lemma signed_range w x : 0 < w -> - 2 ^ (w - 1) <= signed w x < 2 ^ (w - 1).
Proof.
  intros Hw. pose proof (wrap_range w x ltac:(lia)). pose proof (pow2_split w Hw).
  unfold signed. destruct (Z.ltb_spec (wrap w x) (2 ^ (w - 1))); lia.
Qed.

Lemma signed_offset w x : exists k, signed w x = x + k * 2 ^ w.
Proof.
  unfold signed, wrap. pose proof (Z.mod_eq x (2 ^ w)) as H.
  destruct (decide (2 ^ w = 0)) as [Hz|Hz].
  - exists 0. rewrite Hz, Z.mod_0_r. destruct (_ <? _); lia.
  - specialize (H Hz). destruct (_ <? _); [exists (- (x / 2 ^ w))|exists (- (x / 2 ^ w) - 1)]; lia.
Qed.

(** The representative of a residue in the signed range is unique. *)
Lemma signed_unique w x k :
  0 < w -> - 2 ^ (w - 1) <= x + k * 2 ^ w < 2 ^ (w - 1) -> signed w x = x + k * 2 ^ w.
Proof.
  intros Hw Hr. pose proof (pow2_split w Hw). pose proof (signed_range w x Hw).
  destruct (signed_offset w x) as [k' Hk]. rewrite Hk in *. enough (k = k') by congruence. nia.
Qed.

Lemma signed_small w x : 0 < w -> - 2 ^ (w - 1) <= x < 2 ^ (w - 1) -> signed w x = x.
Proof. intros Hw Hr. rewrite (signed_unique w x 0 Hw); lia. Qed.

Lemma wrap_signed w x : wrap w (signed w x) = wrap w x.
Proof. destruct (signed_offset w x) as [k ->]. apply wrap_add_period. Qed.

Lemma wrap_offset w x : 0 <= w -> exists k, wrap w x = x + k * 2 ^ w.
Proof.
  intros Hw. exists (- (x / 2 ^ w)). unfold wrap. rewrite Z.mod_eq by (pose proof (pow2_pos w Hw); lia). lia.
Qed.

Lemma signed_cong w x k : 0 < w -> signed w (x + k * 2 ^ w) = signed w x.
Proof. intros Hw. unfold signed. by rewrite wrap_add_period. Qed.

Lemma signed_wrap w x : 0 < w -> signed w (wrap w x) = signed w x.
Proof. intros Hw. destruct (wrap_offset w x) as [k ->]; [lia|]. by apply signed_cong. Qed.

(** Truncating in two steps. *)
Lemma signed_wrap_le w v x : 0 < w <= v -> signed w (wrap v x) = signed w x.
Proof.
  intros Hw. destruct (wrap_offset v x) as [k ->]; [lia|].
  replace (k * 2 ^ v) with (k * 2 ^ (v - w) * 2 ^ w); [apply signed_cong; lia|].
  rewrite <- Z.mul_assoc, <- Z.pow_add_r by lia. do 2 f_equal. lia.
Qed.

Lemma signed_signed_le w v x : 0 < w <= v -> signed w (signed v x) = signed w x.
Proof.
  intros Hw. rewrite <- (signed_wrap_le w v (signed v x)), wrap_signed by lia. by apply signed_wrap_le.
Qed.

Lemma wrap_wrap_le w v x : 0 <= w <= v -> wrap w (wrap v x) = wrap w x.
Proof.
  intros Hw. destruct (wrap_offset v x) as [k ->]; [lia|].
  replace (k * 2 ^ v) with (k * 2 ^ (v - w) * 2 ^ w); [apply wrap_add_period|].
  rewrite <- Z.mul_assoc, <- Z.pow_add_r by lia. do 2 f_equal. lia.
Qed.

(** Shifting left and back right extends the sign of the low bits. *)
Lemma sign_extend w x n :
  0 <= n < w -> shr_signed (shl_signed w x n) n = signed (w - n) x.
Proof.
  intros Hn. unfold shr_signed, shl_signed. rewrite Z.shiftl_mul_pow2, Z.shiftr_div_pow2 by lia.
  pose proof (signed_range (w - n) x ltac:(lia)) as Hr. destruct (signed_offset (w - n) x) as [k Hk].
  assert (Hp : 2 ^ w = 2 ^ (w - n) * 2 ^ n) by (rewrite <- Z.pow_add_r by lia; f_equal; lia).
  assert (Hp1 : 2 ^ (w - 1) = 2 ^ (w - n - 1) * 2 ^ n) by (rewrite <- Z.pow_add_r by lia; f_equal; lia).
  pose proof (pow2_pos n ltac:(lia)) as Hpn.
  rewrite (signed_unique w (x * 2 ^ n) k) by (lia || (rewrite Hp, Hp1; nia)).
  replace (x * 2 ^ n + k * 2 ^ w) with ((x + k * 2 ^ (w - n)) * 2 ^ n) by (rewrite Hp; lia).
  rewrite Z.div_mul by lia. lia.
Qed.

(** ** Bit fields *)

Lemma land_ones_mod x n : 0 <= n -> Z.land x (Z.ones n) = x mod 2 ^ n.
Proof. apply Z.land_ones. Qed.

Lemma field_mod x lo n : 0 <= lo -> 0 <= n -> Z.land (Z.shiftr x lo) (Z.ones n) = (x / 2 ^ lo) mod 2 ^ n.
Proof. intros. by rewrite Z.land_ones, Z.shiftr_div_pow2. Qed.

Lemma field_mask x lo n mask :
  0 <= lo -> 0 <= n -> mask = Z.ones n -> Z.land (Z.shiftr x lo) mask = (x / 2 ^ lo) mod 2 ^ n.
Proof. intros ? ? ->. by apply field_mod. Qed.

Lemma lor_add a b n : 0 <= n -> 0 <= b < 2 ^ n -> Z.lor (a * 2 ^ n) b = a * 2 ^ n + b.
Proof.
  intros Hn Hb. rewrite <- Z.add_lor_land.
  replace (Z.land (a * 2 ^ n) b) with 0; [lia|]. symmetry. apply Z.bits_inj'. intros i Hi.
  rewrite Z.land_spec, Z.bits_0. destruct (Z.lt_ge_cases i n).
  - by rewrite Z.mul_pow2_bits_low by lia.
  - rewrite <- (Z.mod_small b (2 ^ n)) by lia. rewrite Z.mod_pow2_bits_high by lia. apply andb_false_r.
Qed.

(** ** The 24-bit containers *)

Definition is_byte (b : Z) : Prop := 0 <= b < 256.

Definition i24_wf (i : I24) : Prop := is_byte (i24_0 i) /\ is_byte (i24_1 i) /\ is_byte (i24_2 i).

Lemma le_byte_is_byte x k : is_byte (le_byte x k).
Proof. apply Z.mod_pos_bound. lia. Qed.

Lemma le_bytes3 x : from_le_bytes [le_byte x 0; le_byte x 1; le_byte x 2; 0] = x mod 2 ^ 24.
Proof.
  unfold le_byte. cbn [from_le_bytes]. change (2 ^ (8 * 0)) with 1.
  change (2 ^ (8 * 1)) with 256. change (2 ^ (8 * 2)) with 65536. change (2 ^ 24) with 16777216.
  Z.to_euclidean_division_equations. lia.
Qed.

Lemma i24_to_i32_signed i : i24_wf i -> i24_to_i32 i = signed 24 (from_le_bytes [i24_0 i; i24_1 i; i24_2 i]).
Proof.
  intros (H0 & H1 & H2). unfold i24_to_i32. unfold is_byte in *. cbn [from_le_bytes].
  rewrite (signed_small 32) by (change (2 ^ (32 - 1)) with 2147483648; lia).
  by rewrite (sign_extend 32) by lia.
Qed.

Lemma i24_roundtrip v : i24_to_i32 (i24_from_i32 v) = signed 24 v.
Proof.
  rewrite i24_to_i32_signed by (split_and!; apply le_byte_is_byte). cbn [i24_from_i32 i24_0 i24_1 i24_2].
  pose proof (le_bytes3 v) as H. cbn [from_le_bytes] in H |- *. rewrite !Z.mul_0_r in *.
  rewrite H. apply (signed_wrap 24). lia.
Qed.

Lemma i24_from_to i : i24_wf i -> i24_from_i32 (i24_to_i32 i) = i.
Proof.
  intros Hwf. pose proof Hwf as (H0 & H1 & H2). rewrite i24_to_i32_signed by done.
  destruct i as [a b c]. cbn [i24_0 i24_1 i24_2 from_le_bytes] in *. unfold is_byte in *.
  destruct (signed_offset 24 (a + 256 * (b + 256 * (c + 256 * 0)))) as [k ->].
  unfold i24_from_i32, le_byte. change (2 ^ (8 * 0)) with 1. change (2 ^ 24) with 16777216.
  change (2 ^ (8 * 1)) with 256. change (2 ^ (8 * 2)) with 65536.
  f_equal; Z.to_euclidean_division_equations; lia.
Qed.

Lemma i24_debug_assert_spec v :
  i24_debug_assert v = true <-> - 2 ^ 23 <= v < 2 ^ 23.
Proof.
  unfold i24_debug_assert. rewrite Z.eqb_eq, (sign_extend 32) by lia. change (32 - 8) with 24.
  split; [|by apply (signed_small 24)]. intros <-. by apply (signed_range 24).
Qed.
Lemma land_high_mask x : 0 <= x < 2 ^ 32 -> Z.land x 0xfffff000 = (x / 2 ^ 12) * 2 ^ 12.
Proof.
  intros Hx. change 0xfffff000 with (Z.shiftl (Z.ones 20) 12).
  rewrite <- Z.shiftr_div_pow2, <- Z.shiftl_mul_pow2 by lia. apply Z.bits_inj'. intros i Hi.
  rewrite Z.land_spec, !Z.shiftl_spec by lia. destruct (Z.lt_ge_cases i 12).
  - rewrite !(Z.testbit_neg_r _ (i - 12)) by lia. apply andb_false_r.
  - rewrite Z.shiftr_spec, Z.testbit_ones by lia. replace (i - 12 + 12) with i by lia.
    destruct (Z.lt_ge_cases i 32).
    + replace ((0 <=? i - 12) && (i - 12 <? 20)) with true; [apply andb_true_r|].
      symmetry. apply andb_true_iff. split; [apply Z.leb_le|apply Z.ltb_lt]; lia.
    + rewrite <- (Z.mod_small x (2 ^ 32)) by lia. by rewrite Z.mod_pow2_bits_high by lia.
Qed.

(** The value of the stored bytes before they are shifted back. *)
Definition i24z_value (i : I24Zeroed) : Z := signed 24 (from_le_bytes [i24z_0 i; i24z_1 i; i24z_2 i]).

(** Containers [from_i32] makes of a 32-bit value. *)
Definition i24z_wf (i : I24Zeroed) : Prop :=
  is_byte (i24z_0 i) /\ is_byte (i24z_1 i) /\ is_byte (i24z_2 i) /\
  - 2 ^ 19 <= i24z_value i < 2 ^ 19.

Lemma i24z_to_i32_value i : i24z_wf i -> i24z_to_i32 12 i = i24z_value i * 2 ^ 12.
Proof.
  intros (H0 & H1 & H2 & Hr). unfold i24z_to_i32. unfold is_byte in *. cbn [from_le_bytes].
  rewrite (signed_small 32 (_ + _)) by (change (2 ^ (32 - 1)) with 2147483648; lia).
  rewrite (sign_extend 32) by lia. change (32 - 8) with 24.
  change (signed 24 _) with (i24z_value i). set (q := i24z_value i) in *.
  change (2 ^ 19) with 524288 in Hr. change (2 ^ 12) with 4096.
  unfold shl_signed. rewrite Z.shiftl_mul_pow2 by lia. change (2 ^ 12) with 4096.
  rewrite (signed_small 32 (q * 4096)) by (change (2 ^ (32 - 1)) with 2147483648; lia).
  change (wrap 32 (Z.shiftl (2 ^ 32 - 1) 12)) with 0xfffff000.
  rewrite land_high_mask by (by apply wrap_range).
  replace (wrap 32 (q * 4096) / 2 ^ 12 * 2 ^ 12) with (wrap 32 (q * 4096)).
  - rewrite signed_wrap, signed_small; change (2 ^ (32 - 1)) with 2147483648; lia.
  - unfold wrap. change (2 ^ 32) with 4294967296. change (2 ^ 12) with 4096.
    Z.to_euclidean_division_equations. lia.
Qed.

Lemma i24z_from_value q :
  - 2 ^ 19 <= q < 2 ^ 19 ->
  i24z_wf (i24z_from_i32 12 (q * 2 ^ 12)) /\ i24z_value (i24z_from_i32 12 (q * 2 ^ 12)) = q.
Proof.
  intros Hq. assert (Hv : i24z_value (i24z_from_i32 12 (q * 2 ^ 12)) = q).
  { unfold i24z_value, i24z_from_i32, shr_signed. rewrite Z.shiftr_div_pow2, Z.div_mul by lia.
    cbn [i24z_0 i24z_1 i24z_2]. pose proof (le_bytes3 q) as H. cbn [from_le_bytes] in H |- *.
    rewrite !Z.mul_0_r in *. rewrite H. change (q mod 2 ^ 24) with (wrap 24 q).
    rewrite signed_wrap, signed_small; change (2 ^ (24 - 1)) with 8388608; change (2 ^ 19) with 524288 in Hq; lia. }
  split; [|done]. split_and!; [apply le_byte_is_byte..| |]; rewrite Hv; lia.
Qed.

Lemma i24z_from_to i : i24z_wf i -> i24z_from_i32 12 (i24z_to_i32 12 i) = i.
Proof.
  intros Hwf. rewrite i24z_to_i32_value by done. destruct Hwf as (H0 & H1 & H2 & Hr).
  unfold i24z_from_i32, shr_signed. rewrite Z.shiftr_div_pow2, Z.div_mul by lia. unfold i24z_value.
  destruct i as [a b c]. cbn [i24z_0 i24z_1 i24z_2 from_le_bytes] in *. unfold is_byte in *.
  destruct (signed_offset 24 (a + 256 * (b + 256 * (c + 256 * 0)))) as [k ->].
  unfold le_byte. change (2 ^ (8 * 0)) with 1. change (2 ^ 24) with 16777216.
  change (2 ^ (8 * 1)) with 256. change (2 ^ (8 * 2)) with 65536.
  f_equal; Z.to_euclidean_division_equations; lia.
Qed.
End RvInt.
