(* ===== verification/RvRegisters.v ===== *)
(** * General purpose registers and the register file

    Model of [crates/execution/ab-riscv-primitives/src/registers/general_purpose.rs]
    ([Register], [EReg], [Reg]) and of [BasicRegister]/[BasicRegisters] in
    [crates/execution/ab-riscv-interpreter/src/basic.rs].  The two traits the interpreter
    is generic over, [Register] and [RegisterFile], are type classes; what they promise
    is stated by a second class each, which the instances discharge. *)

From S2P Require Import Prelude RvInt.
From stdpp Require Import prelude.
From Stdlib Require Import ZArith Lia.
Local Open Scope Z_scope.

Module RvRegisters.
Import RvInt.

(** [Register] with [BasicRegister]; [num_regs] is [N], and the constants [A0] and [A1]
    have a prefix as the constructors of the register types have their names. *)
Class Register (R : Type) : Type := {
  #[global] reg_eq_dec :: EqDecision R;
  ZERO : R;
  SP : R;
  RA : R;
  REG_A0 : R;
  REG_A1 : R;
  from_bits : Z -> option R;
  num_regs : Z;
  offset : R -> Z
}.

Class RegisterLaws (R : Type) `{Register R} : Prop := {
  offset_range : forall r : R, 0 <= offset r < num_regs;
  num_regs_32 : num_regs <= 32;
  from_bits_offset : forall r : R, from_bits (offset r) = Some r;
  from_bits_Some : forall b (r : R), from_bits b = Some r -> b = offset r;
  offset_ZERO : offset ZERO = 0;
  offset_RA : offset RA = 1;
  offset_SP : offset SP = 2;
  offset_A0 : offset REG_A0 = 10;
  offset_A1 : offset REG_A1 = 11
}.

(** RV32E and RV64E *)
Inductive EReg : Type :=
| EZero
| ERa
| ESp
| EGp
| ETp
| ET0
| ET1
| ET2
| ES0
| ES1
| EA0
| EA1
| EA2
| EA3
| EA4
| EA5.

(** RV32I and RV64I *)
Inductive Reg : Type :=
| Zero
| Ra
| Sp
| Gp
| Tp
| T0
| T1
| T2
| S0
| S1
| A0
| A1
| A2
| A3
| A4
| A5
| A6
| A7
| S2
| S3
| S4
| S5
| S6
| S7
| S8
| S9
| S10
| S11
| T3
| T4
| T5
| T6.

#[export] Instance EReg_eq_dec : EqDecision EReg.
Proof. solve_decision. Defined.

#[export] Instance Reg_eq_dec : EqDecision Reg.
Proof. solve_decision. Defined.

Definition ereg_from_bits (bits : Z) : option EReg :=
  match bits with
  | 0 => Some EZero
  | 1 => Some ERa
  | 2 => Some ESp
  | 3 => Some EGp
  | 4 => Some ETp
  | 5 => Some ET0
  | 6 => Some ET1
  | 7 => Some ET2
  | 8 => Some ES0
  | 9 => Some ES1
  | 10 => Some EA0
  | 11 => Some EA1
  | 12 => Some EA2
  | 13 => Some EA3
  | 14 => Some EA4
  | 15 => Some EA5
  | _ => None
  end.

Definition reg_from_bits (bits : Z) : option Reg :=
  match bits with
  | 0 => Some Zero
  | 1 => Some Ra
  | 2 => Some Sp
  | 3 => Some Gp
  | 4 => Some Tp
  | 5 => Some T0
  | 6 => Some T1
  | 7 => Some T2
  | 8 => Some S0
  | 9 => Some S1
  | 10 => Some A0
  | 11 => Some A1
  | 12 => Some A2
  | 13 => Some A3
  | 14 => Some A4
  | 15 => Some A5
  | 16 => Some A6
  | 17 => Some A7
  | 18 => Some S2
  | 19 => Some S3
  | 20 => Some S4
  | 21 => Some S5
  | 22 => Some S6
  | 23 => Some S7
  | 24 => Some S8
  | 25 => Some S9
  | 26 => Some S10
  | 27 => Some S11
  | 28 => Some T3
  | 29 => Some T4
  | 30 => Some T5
  | 31 => Some T6
  | _ => None
  end.

(** The discriminants of the [repr(u8)] enums. *)
Definition ereg_offset (r : EReg) : Z :=
  match r with
  | EZero => 0
  | ERa => 1
  | ESp => 2
  | EGp => 3
  | ETp => 4
  | ET0 => 5
  | ET1 => 6
  | ET2 => 7
  | ES0 => 8
  | ES1 => 9
  | EA0 => 10
  | EA1 => 11
  | EA2 => 12
  | EA3 => 13
  | EA4 => 14
  | EA5 => 15
  end.

Definition reg_offset (r : Reg) : Z :=
  match r with
  | Zero => 0
  | Ra => 1
  | Sp => 2
  | Gp => 3
  | Tp => 4
  | T0 => 5
  | T1 => 6
  | T2 => 7
  | S0 => 8
  | S1 => 9
  | A0 => 10
  | A1 => 11
  | A2 => 12
  | A3 => 13
  | A4 => 14
  | A5 => 15
  | A6 => 16
  | A7 => 17
  | S2 => 18
  | S3 => 19
  | S4 => 20
  | S5 => 21
  | S6 => 22
  | S7 => 23
  | S8 => 24
  | S9 => 25
  | S10 => 26
  | S11 => 27
  | T3 => 28
  | T4 => 29
  | T5 => 30
  | T6 => 31
  end.

(** [From<EReg<u64>> for Reg<Type>] *)
Definition reg_from_ereg (r : EReg) : Reg :=
  match r with
  | EZero => Zero
  | ERa => Ra
  | ESp => Sp
  | EGp => Gp
  | ETp => Tp
  | ET0 => T0
  | ET1 => T1
  | ET2 => T2
  | ES0 => S0
  | ES1 => S1
  | EA0 => A0
  | EA1 => A1
  | EA2 => A2
  | EA3 => A3
  | EA4 => A4
  | EA5 => A5
  end.

#[export] Instance EReg_Register : Register EReg :=
  {| ZERO := EZero; SP := ESp; RA := ERa; REG_A0 := EA0; REG_A1 := EA1;
     from_bits := ereg_from_bits; num_regs := 16; offset := ereg_offset |}.

#[export] Instance Reg_Register : Register Reg :=
  {| ZERO := Zero; SP := Sp; RA := Ra; REG_A0 := A0; REG_A1 := A1;
     from_bits := reg_from_bits; num_regs := 32; offset := reg_offset |}.

#[export] Instance EReg_laws : RegisterLaws EReg.
Proof.
  split.
  - intros r. destruct r; cbn; lia.
  - cbn. lia.
  - intros r. by destruct r.
  - intros b r. cbn. unfold ereg_from_bits. intros H. repeat case_match; by simplify_eq.
  - done.
  - done.
  - done.
  - done.
  - done.
Qed.

#[export] Instance Reg_laws : RegisterLaws Reg.
Proof.
  split.
  - intros r. destruct r; cbn; lia.
  - cbn. lia.
  - intros r. by destruct r.
  - intros b r. cbn. unfold reg_from_bits. intros H. repeat case_match; by simplify_eq.
  - done.
  - done.
  - done.
  - done.
  - done.
Qed.

(** Both register sets number the registers they share alike. *)
Lemma reg_from_ereg_bits b r :
  ereg_from_bits b = Some r -> reg_from_bits b = Some (reg_from_ereg r).
Proof.
  intros Hb. change (from_bits b = Some r) in Hb. apply from_bits_Some in Hb as ->. by destruct r.
Qed.

Lemma offset_inj {R} `{RegisterLaws R} (r r' : R) : offset r = offset r' -> r = r'.
Proof.
  intros Heq. pose proof (from_bits_offset r) as H1. rewrite Heq, from_bits_offset in H1. by simplify_eq.
Qed.

(** ** The register file *)

(** [RegisterFile<Reg>] with 64-bit registers. *)
Class RegisterFile (R Regs : Type) : Type := {
  reg_read : Regs -> R -> outcome Z;
  reg_write : Regs -> R -> Z -> outcome Regs
}.

(** What an interpreter relies on. *)
Class RegisterFileLaws (R Regs : Type) `{Register R} `{!RegisterFile R Regs} : Type := {
  regs_ok : Regs -> Prop;
  reg_value : Regs -> R -> Z;
  reg_read_spec : forall rs r, regs_ok rs -> reg_read rs r = Ret (reg_value rs r);
  reg_value_range : forall rs r, regs_ok rs -> 0 <= reg_value rs r < 2 ^ 64;
  reg_value_zero : forall rs, reg_value rs ZERO = 0;
  reg_write_spec : forall rs r v, regs_ok rs -> 0 <= v < 2 ^ 64 ->
    exists rs', reg_write rs r v = Ret rs' /\ regs_ok rs' /\
      forall r', reg_value rs' r' =
        if decide (r' = ZERO) then 0 else if decide (r' = r) then v else reg_value rs r'
}.

(** [BasicRegisters] *)
Definition BasicRegisters : Type := list Z.

Section basic_registers.
Context {R : Type} `{Register R}.

Definition basic_registers_default : BasicRegisters := replicate (Z.to_nat num_regs) 0.

Definition basic_read (regs : list Z) (reg : R) : outcome Z :=
  if decide (reg = ZERO) then Ret 0 else arr_get regs (Z.to_nat (offset reg)).

Definition basic_write (regs : list Z) (reg : R) (value : Z) : outcome BasicRegisters :=
  arr_set regs (Z.to_nat (offset reg)) value.
End basic_registers.

#[export] Instance BasicRegisters_file {R} `{Register R} : RegisterFile R BasicRegisters :=
  {| reg_read := basic_read; reg_write := basic_write |}.

(** As many registers as the set has, of 64 bits each. *)
Definition basic_ok {R} `{Register R} (regs : list Z) : Prop :=
  Z.of_nat (length regs) = num_regs /\ Forall (fun v => 0 <= v < 2 ^ 64) regs.

Definition basic_value {R} `{Register R} (regs : list Z) (r : R) : Z :=
  if decide (r = ZERO) then 0 else default 0 (regs !! Z.to_nat (offset r)).

Lemma basic_lookup {R} `{RegisterLaws R} (regs : list Z) (r : R) :
  basic_ok (R := R) regs -> is_Some (regs !! Z.to_nat (offset r)).
Proof. intros [Hl _]. apply lookup_lt_is_Some. pose proof (offset_range r). lia. Qed.

Lemma basic_write_spec {R} `{RegisterLaws R} (regs : list Z) (r : R) v :
  basic_ok (R := R) regs -> 0 <= v < 2 ^ 64 ->
  exists regs', basic_write regs r v = Ret regs' /\ basic_ok (R := R) regs' /\
    forall r', basic_value regs' r' =
      if decide (r' = ZERO) then 0 else if decide (r' = r) then v else basic_value regs r'.
Proof.
  intros Hok Hv. destruct (basic_lookup regs r Hok) as [x Hx]. pose proof Hok as [Hl Hall].
  pose proof (lookup_lt_Some _ _ _ Hx) as Hlt. unfold basic_write. rewrite arr_set_lt by done.
  eexists. split; [done|]. split.
  - split; [by rewrite length_insert|]. by apply Forall_insert.
  - intros r'. unfold basic_value. destruct (decide (r' = ZERO)); [done|].
    destruct (decide (r' = r)) as [->|Hne]; [by rewrite list_lookup_insert_eq|].
    rewrite list_lookup_insert_ne; [done|]. intros Heq. apply Hne, offset_inj.
    pose proof (offset_range r). pose proof (offset_range r'). lia.
Qed.

#[export] Instance BasicRegisters_laws {R} `{RegisterLaws R} : RegisterFileLaws R BasicRegisters.
Proof.
  refine {| regs_ok := basic_ok (R := R); reg_value := basic_value |}.
  - intros rs r Hok. cbn. unfold basic_read, basic_value. case_decide; [done|].
    destruct (basic_lookup rs r Hok) as [x Hx]. by rewrite (arr_get_Some _ _ _ Hx), Hx.
  - intros rs r Hok. unfold basic_value. case_decide; [lia|].
    destruct (basic_lookup rs r Hok) as [x Hx]. rewrite Hx. cbn. destruct Hok as [_ Hall].
    rewrite Forall_lookup in Hall. by apply (Hall _ _ Hx).
  - intros rs. unfold basic_value. by rewrite decide_True.
  - apply basic_write_spec.
Defined.

Lemma basic_registers_default_ok {R} `{RegisterLaws R} :
  basic_ok (R := R) (basic_registers_default (R := R)).
Proof.
  pose proof (offset_range ZERO). split.
  - unfold basic_registers_default. rewrite length_replicate. lia.
  - apply Forall_replicate. lia.
Qed.
End RvRegisters.
