(* ===== verification/RvMemory.v ===== *)
(** * Memory of the RISC-V interpreter

    [VirtualMemory] of [crates/execution/ab-riscv-interpreter/src/lib.rs] as a type class
    over an access width in bytes (the integer types it is used at), what it promises,
    and [BasicMemory] of [crates/execution/ab-riscv-interpreter/src/basic.rs], a flat array
    of bytes at a base address.  Integers are stored little-endian, the byte order of
    the hosts the crate is built for. *)

From S2P Require Import Prelude RvInt.
From stdpp Require Import prelude.
From Stdlib Require Import ZArith Lia.
Local Open Scope Z_scope.

Module RvMemory.
Import RvInt.

(** [VirtualMemoryError] *)
Inductive memory_error : Type :=
| OutOfBoundsRead (address : Z)
| OutOfBoundsWrite (address : Z).

(** [read::<T>] and [write::<T>] for an unsigned [T] of [n] bytes. *)
Class VirtualMemory (Mem : Type) : Type := {
  mem_read : nat -> Mem -> Z -> outcome (result Z memory_error);
  mem_write : nat -> Mem -> Z -> Z -> outcome (result Mem memory_error)
}.

(** The bytes at an address, if all are there. *)
Definition bytes_at {Mem} (byte_at : Mem -> Z -> option Z) (m : Mem) (address : Z) (n : nat)
    : option (list Z) := mapM (byte_at m) (seqZ address (Z.of_nat n)).

(** What the interpreter relies on: memory is a partial map from addresses to bytes,
    a read gives the bytes or an error, a write changes the bytes it covers and
    nothing else, or is refused without any effect. *)
Class VirtualMemoryLaws (Mem : Type) `{VirtualMemory Mem} : Type := {
  mem_ok : Mem -> Prop;
  byte_at : Mem -> Z -> option Z;
  byte_at_range : forall m a b, mem_ok m -> byte_at m a = Some b -> is_byte b;
  mem_read_spec : forall n m a, mem_ok m -> (0 < n <= 8)%nat -> 0 <= a < 2 ^ 64 ->
    mem_read n m a = Ret (match bytes_at byte_at m a n with
                          | Some bytes => Ok (from_le_bytes bytes)
                          | None => Err (OutOfBoundsRead a)
                          end);
  mem_write_spec : forall n m a v, mem_ok m -> (0 < n <= 8)%nat -> 0 <= a < 2 ^ 64 ->
    match bytes_at byte_at m a n with
    | None => mem_write n m a v = Ret (Err (OutOfBoundsWrite a))
    | Some _ => exists m', mem_write n m a v = Ret (Ok m') /\ mem_ok m' /\
        forall x, byte_at m' x = if decide (a <= x < a + Z.of_nat n)
                                 then Some (le_byte v (x - a)) else byte_at m x
    end
}.

(** ** [BasicMemory] *)

(** The bytes [n] past [offset]; outside of the array this is undefined behaviour. *)
Definition raw_read (data : list Z) (offset : Z) (n : nat) : outcome (list Z) :=
  if decide (0 <= offset /\ offset + Z.of_nat n <= Z.of_nat (length data))
  then Ret (take n (drop (Z.to_nat offset) data)) else Fault.

Definition raw_write (data : list Z) (offset : Z) (bytes : list Z) : outcome (list Z) :=
  if decide (0 <= offset /\ offset + Z.of_nat (length bytes) <= Z.of_nat (length data))
  then Ret (take (Z.to_nat offset) data ++ bytes ++ drop (Z.to_nat offset + length bytes) data)
  else Fault.

Definition saturating_add_u64 (a b : Z) : Z := Z.min (a + b) (2 ^ 64 - 1).

(** [data.get(offset..).and_then(|data| data.get(..len))] *)
Definition get_range (data : list Z) (offset len : Z) : option (list Z) :=
  if decide (offset + len <= Z.of_nat (length data))
  then Some (take (Z.to_nat len) (drop (Z.to_nat offset) data)) else None.

(** [BasicMemory<BASE_ADDR, SIZE>]; [SIZE] is the length of [data]. *)
Record BasicMemory (BASE_ADDR : Z) : Type := mkBasicMemory { data : list Z }.
Arguments mkBasicMemory {BASE_ADDR} data.
Arguments data {BASE_ADDR} b.

Section basic_memory.
Context {BASE_ADDR : Z}.

Definition basic_memory_default (size : nat) : BasicMemory BASE_ADDR :=
  mkBasicMemory (replicate size 0).

Definition basic_mem_read (n : nat) (m : BasicMemory BASE_ADDR) (address : Z)
    : outcome (result Z memory_error) :=
  if address <? BASE_ADDR then Ret (Err (OutOfBoundsRead address))
  else
    let offset := address - BASE_ADDR in
    if Z.of_nat (length (data m)) <? saturating_add_u64 offset (Z.of_nat n)
    then Ret (Err (OutOfBoundsRead address))
    else let! bytes := raw_read (data m) offset n in Ret (Ok (from_le_bytes bytes)).

(** The caller promises that the address is in bounds. *)
Definition read_unchecked (n : nat) (m : BasicMemory BASE_ADDR) (address : Z) : outcome Z :=
  let! bytes := raw_read (data m) (address - BASE_ADDR) n in Ret (from_le_bytes bytes).

Definition read_slice (m : BasicMemory BASE_ADDR) (address len : Z)
    : result (list Z) memory_error :=
  if address <? BASE_ADDR then Err (OutOfBoundsRead address)
  else
    let offset := address - BASE_ADDR in
    if Z.of_nat (length (data m)) <? offset then Err (OutOfBoundsRead address)
    else match get_range (data m) offset len with
         | Some bytes => Ok bytes
         | None => Err (OutOfBoundsRead address)
         end.

Definition read_slice_up_to (m : BasicMemory BASE_ADDR) (address len : Z) : list Z :=
  if address <? BASE_ADDR then []
  else
    let offset := address - BASE_ADDR in
    if Z.of_nat (length (data m)) <? offset then []
    else
      let remaining := drop (Z.to_nat offset) (data m) in
      if decide (len <= Z.of_nat (length remaining)) then take (Z.to_nat len) remaining
      else remaining.

Definition basic_mem_write (n : nat) (m : BasicMemory BASE_ADDR) (address value : Z)
    : outcome (result (BasicMemory BASE_ADDR) memory_error) :=
  if address <? BASE_ADDR then Ret (Err (OutOfBoundsWrite address))
  else
    let offset := address - BASE_ADDR in
    if Z.of_nat (length (data m)) <? saturating_add_u64 offset (Z.of_nat n)
    then Ret (Err (OutOfBoundsWrite address))
    else
      let! d := raw_write (data m) offset (to_le_bytes n value) in
      Ret (Ok (mkBasicMemory d)).

Definition write_slice (m : BasicMemory BASE_ADDR) (address : Z) (bytes : list Z)
    : outcome (result (BasicMemory BASE_ADDR) memory_error) :=
  if address <? BASE_ADDR then Ret (Err (OutOfBoundsWrite address))
  else
    let offset := address - BASE_ADDR in
    if Z.of_nat (length (data m)) <? offset then Ret (Err (OutOfBoundsWrite address))
    else match get_range (data m) offset (Z.of_nat (length bytes)) with
         | None => Ret (Err (OutOfBoundsWrite address))
         | Some _ => let! d := raw_write (data m) offset bytes in Ret (Ok (mkBasicMemory d))
         end.

(** The bytes that are lent for setting up a program. *)
Definition get_mut_bytes (m : BasicMemory BASE_ADDR) (address size : Z)
    : result (list Z) memory_error :=
  if address <? BASE_ADDR then Err (OutOfBoundsRead address)
  else match get_range (data m) (address - BASE_ADDR) size with
       | Some bytes => Ok bytes
       | None => Err (OutOfBoundsRead address)
       end.
End basic_memory.

#[export] Instance BasicMemory_virtual BASE_ADDR : VirtualMemory (BasicMemory BASE_ADDR) :=
  {| mem_read := basic_mem_read; mem_write := basic_mem_write |}.

(** ** Bytes *)

Lemma length_to_le_bytes n x : length (to_le_bytes n x) = n.
Proof. revert x. induction n as [|n IH]; intros x; [done|]. cbn. by rewrite IH. Qed.

Lemma to_le_bytes_lookup n x k :
  (k < n)%nat -> to_le_bytes n x !! k = Some (le_byte x (Z.of_nat k)).
Proof.
  revert x k. induction n as [|n IH]; intros x k Hk; [lia|]. destruct k as [|k]; cbn.
  - unfold le_byte. change (2 ^ (8 * Z.of_nat 0)) with 1. by rewrite Z.div_1_r.
  - rewrite IH by lia. unfold le_byte. rewrite Z.div_div by lia. do 3 f_equal.
    replace (8 * Z.of_nat (S k)) with (8 + 8 * Z.of_nat k) by lia. rewrite Z.pow_add_r by lia. done.
Qed.

Lemma from_to_le_bytes n x : from_le_bytes (to_le_bytes n x) = wrap (8 * Z.of_nat n) x.
Proof.
  revert x. induction n as [|n IH]; intros x; cbn [to_le_bytes from_le_bytes].
  - unfold wrap. by rewrite Z.mod_1_r.
  - rewrite IH. unfold wrap. replace (8 * Z.of_nat (S n)) with (8 + 8 * Z.of_nat n) by lia.
    rewrite Z.pow_add_r by lia. change (2 ^ 8) with 256.
    rewrite Z.rem_mul_r by lia. lia.
Qed.

Lemma from_le_bytes_range l :
  Forall is_byte l -> 0 <= from_le_bytes l < 2 ^ (8 * Z.of_nat (length l)).
Proof.
  induction 1 as [|b l Hb Hl IH]; cbn [from_le_bytes length]; [lia|].
  replace (8 * Z.of_nat (S (length l))) with (8 + 8 * Z.of_nat (length l)) by lia.
  rewrite Z.pow_add_r by lia. change (2 ^ 8) with 256. unfold is_byte in Hb. lia.
Qed.

(** ** [BasicMemory] keeps the promise *)

Section basic_memory_laws.
Context {BASE_ADDR : Z}.

Definition basic_byte_at (m : BasicMemory BASE_ADDR) (a : Z) : option Z :=
  if decide (BASE_ADDR <= a) then data m !! Z.to_nat (a - BASE_ADDR) else None.

(** Arrays are at most [isize::MAX] bytes. *)
Definition basic_mem_ok (m : BasicMemory BASE_ADDR) : Prop :=
  Z.of_nat (length (data m)) < 2 ^ 63 /\ Forall is_byte (data m).

Definition in_bounds (m : BasicMemory BASE_ADDR) (a : Z) (n : nat) : Prop :=
  BASE_ADDR <= a /\ a + Z.of_nat n <= BASE_ADDR + Z.of_nat (length (data m)).

Lemma bytes_at_in m a n :
  in_bounds m a n ->
  bytes_at basic_byte_at m a n = Some (take n (drop (Z.to_nat (a - BASE_ADDR)) (data m))).
Proof.
  intros [Hlo Hhi]. apply mapM_Some, Forall2_same_length_lookup_2.
  - rewrite length_seqZ, length_take, length_drop. lia.
  - intros i x y [-> Hi]%lookup_seqZ Hy. apply lookup_take_Some in Hy as [Hy _].
    rewrite lookup_drop in Hy. unfold basic_byte_at. rewrite decide_True by lia.
    rewrite <- Hy. f_equal. lia.
Qed.

Lemma bytes_at_out m a n :
  (0 < n)%nat -> ~ in_bounds m a n -> bytes_at basic_byte_at m a n = None.
Proof.
  intros Hn Hout. apply mapM_None, Exists_exists. unfold basic_byte_at, in_bounds in *.
  destruct (decide (BASE_ADDR <= a)) as [Hlo|Hlo].
  - exists (a + Z.of_nat n - 1). split; [apply elem_of_seqZ; lia|].
    rewrite decide_True by lia. apply lookup_ge_None. lia.
  - exists a. split; [apply elem_of_seqZ; lia|]. by rewrite decide_False.
Qed.

Lemma guard_in_bounds m a n :
  basic_mem_ok m -> (0 < n <= 8)%nat -> a < 2 ^ 64 ->
  (a <? BASE_ADDR) || (Z.of_nat (length (data m)) <? saturating_add_u64 (a - BASE_ADDR) (Z.of_nat n)) = false <->
  in_bounds m a n.
Proof.
  intros [Hlen _] Hn Ha. unfold saturating_add_u64, in_bounds.
  rewrite orb_false_iff, Z.ltb_ge, Z.ltb_ge. lia.
Qed.

Lemma if_orb {A} (b c : bool) (x y : A) : (if b then x else if c then x else y) = if b || c then x else y.
Proof. by destruct b, c. Qed.

Lemma basic_mem_read_spec n m a :
  basic_mem_ok m -> (0 < n <= 8)%nat -> 0 <= a < 2 ^ 64 ->
  basic_mem_read n m a = Ret (match bytes_at basic_byte_at m a n with
                              | Some bytes => Ok (from_le_bytes bytes)
                              | None => Err (OutOfBoundsRead a)
                              end).
Proof.
  intros Hok Hn Ha. unfold basic_mem_read. rewrite if_orb.
  pose proof (guard_in_bounds m a n Hok Hn ltac:(lia)) as Hg. destruct (_ || _) eqn:E.
  - rewrite bytes_at_out; [done|lia|]. intros Hin%Hg. done.
  - destruct Hg as [Hg _]. specialize (Hg eq_refl). rewrite (bytes_at_in m a n Hg).
    destruct Hg as [Hlo Hhi]. unfold raw_read. rewrite decide_True by lia. done.
Qed.

Lemma raw_write_lookup (d : list Z) off bytes d' k :
  raw_write d off bytes = Ret d' ->
  length d' = length d /\
  d' !! k = if decide (off <= Z.of_nat k < off + Z.of_nat (length bytes))
            then bytes !! (k - Z.to_nat off)%nat else d !! k.
Proof.
  unfold raw_write. case_decide as Hb; [|done]. intros [= <-]. split.
  { rewrite !length_app, length_take, length_drop. lia. }
  case_decide as Hk.
  - rewrite lookup_app_r by (rewrite length_take; lia). rewrite length_take, Nat.min_l by lia.
    rewrite lookup_app_l by lia. done.
  - destruct (decide (Z.of_nat k < off)).
    + rewrite lookup_app_l by (rewrite length_take; lia). rewrite lookup_take_lt by lia. done.
    + rewrite lookup_app_r, lookup_app_r by (rewrite ?length_take; lia).
      rewrite lookup_drop. f_equal. rewrite length_take. lia.
Qed.

Lemma raw_write_bytes d off bytes d' :
  raw_write d off bytes = Ret d' -> Forall is_byte d -> Forall is_byte bytes -> Forall is_byte d'.
Proof.
  unfold raw_write. case_decide; [|done]. intros [= <-] Hd Hb.
  rewrite !Forall_app. split_and!; [by apply Forall_take|done|by apply Forall_drop].
Qed.

Lemma to_le_bytes_are_bytes n x : Forall is_byte (to_le_bytes n x).
Proof.
  apply Forall_lookup. intros k b Hk. pose proof (lookup_lt_Some _ _ _ Hk) as Hlt.
  rewrite length_to_le_bytes in Hlt. rewrite to_le_bytes_lookup in Hk by done.
  simplify_eq. apply le_byte_is_byte.
Qed.

Lemma basic_mem_write_spec n m a v :
  basic_mem_ok m -> (0 < n <= 8)%nat -> 0 <= a < 2 ^ 64 ->
  match bytes_at basic_byte_at m a n with
  | None => basic_mem_write n m a v = Ret (Err (OutOfBoundsWrite a))
  | Some _ => exists m', basic_mem_write n m a v = Ret (Ok m') /\ basic_mem_ok m' /\
      length (data m') = length (data m) /\
      forall x, basic_byte_at m' x = if decide (a <= x < a + Z.of_nat n)
                                     then Some (le_byte v (x - a)) else basic_byte_at m x
  end.
Proof.
  intros Hok Hn Ha. unfold basic_mem_write. rewrite if_orb.
  pose proof (guard_in_bounds m a n Hok Hn ltac:(lia)) as Hg. destruct (_ || _) eqn:E.
  { rewrite bytes_at_out; [done|lia|]. intros Hin%Hg. done. }
  destruct Hg as [Hg _]. specialize (Hg eq_refl). rewrite (bytes_at_in m a n Hg).
  destruct Hg as [Hlo Hhi], Hok as [Hlen Hbytes].
  destruct (raw_write (data m) (a - BASE_ADDR) (to_le_bytes n v)) as [d|] eqn:Hw.
  2:{ unfold raw_write in Hw. rewrite length_to_le_bytes, decide_True in Hw by lia. done. }
  cbn [obind]. eexists. split; [done|]. unfold basic_mem_ok. cbn [data].
  pose proof (fun k => raw_write_lookup _ _ _ _ k Hw) as Hl. rewrite length_to_le_bytes in Hl.
  split_and!; [rewrite (proj1 (Hl 0%nat)); done| |apply (Hl 0%nat)|].
  { eapply raw_write_bytes; [done|done|apply to_le_bytes_are_bytes]. }
  intros x. unfold basic_byte_at. cbn [data]. destruct (decide (BASE_ADDR <= x)) as [Hx|Hx].
  - rewrite (proj2 (Hl _)). destruct (decide (a <= x < a + Z.of_nat n)) as [Hr|Hr].
    + rewrite decide_True by lia. rewrite to_le_bytes_lookup by lia. do 2 f_equal. lia.
    + rewrite decide_False by lia. done.
  - rewrite decide_False by lia. done.
Qed.

(** The separate check of the offset in [read_slice] is implied by the other one. *)
Lemma get_mut_bytes_read_slice (m : BasicMemory BASE_ADDR) a size :
  0 <= size -> get_mut_bytes m a size = read_slice m a size.
Proof.
  intros Hs. unfold get_mut_bytes, read_slice, get_range.
  destruct (a <? BASE_ADDR); [done|].
  destruct (Z.ltb_spec (Z.of_nat (length (data m))) (a - BASE_ADDR)); [|done].
  by rewrite decide_False by lia.
Qed.
End basic_memory_laws.

#[export] Instance BasicMemory_laws BASE_ADDR : VirtualMemoryLaws (BasicMemory BASE_ADDR).
Proof.
  refine {| mem_ok := basic_mem_ok; byte_at := basic_byte_at |}.
  - intros m a b [_ Hb]. unfold basic_byte_at. case_decide; [|done]. intros Hl.
    rewrite Forall_lookup in Hb. by eapply Hb.
  - apply basic_mem_read_spec.
  - intros n m a v Hok Hn Ha. pose proof (basic_mem_write_spec n m a v Hok Hn Ha) as H.
    destruct (bytes_at _ m a n); [|done]. destruct H as (m' & Hw & Hok' & _ & Hb). eauto.
Defined.

(** ** Consequences for any memory *)

Lemma mapM_ext_in {A B} (f g : A -> option B) (l : list A) :
  (forall x, x ∈ l -> f x = g x) -> mapM f l = mapM g l.
Proof.
  induction l as [|x l IH]; intros Hfg; [done|]. cbn. rewrite Hfg by (by left).
  rewrite IH; [done|]. intros y Hy. apply Hfg. by right.
Qed.

Section written_bytes.
Context {Mem : Type} (byte_at : Mem -> Z -> option Z).

Lemma bytes_at_written m m' a n v :
  (forall x, byte_at m' x = if decide (a <= x < a + Z.of_nat n)
                            then Some (le_byte v (x - a)) else byte_at m x) ->
  bytes_at byte_at m' a n = Some (to_le_bytes n v).
Proof.
  intros Hb. apply mapM_Some, Forall2_same_length_lookup_2.
  - rewrite length_seqZ, length_to_le_bytes. lia.
  - intros i x y [-> Hi]%lookup_seqZ Hy. rewrite to_le_bytes_lookup in Hy by lia. simplify_eq.
    rewrite Hb, decide_True by lia. do 2 f_equal. lia.
Qed.

Lemma bytes_at_disjoint m m' a n v a' n' :
  (forall x, byte_at m' x = if decide (a <= x < a + Z.of_nat n)
                            then Some (le_byte v (x - a)) else byte_at m x) ->
  a' + Z.of_nat n' <= a \/ a + Z.of_nat n <= a' ->
  bytes_at byte_at m' a' n' = bytes_at byte_at m a' n'.
Proof.
  intros Hb Hd. unfold bytes_at. apply mapM_ext_in. intros x Hx%elem_of_seqZ.
  rewrite Hb, decide_False by lia. done.
Qed.

End written_bytes.

Section virtual_memory.
Context {Mem : Type} `{VirtualMemoryLaws Mem}.

Lemma bytes_at_bytes m a n bytes :
  mem_ok m -> bytes_at byte_at m a n = Some bytes -> Forall is_byte bytes /\ length bytes = n.
Proof.
  intros Hok Hb. unfold bytes_at in Hb. apply mapM_Some in Hb. split.
  - apply Forall_lookup. intros i b Hi.
    destruct (Forall2_lookup_r _ _ _ _ _ Hb Hi) as (x & _ & Hx). by eapply byte_at_range.
  - apply Forall2_length in Hb. rewrite length_seqZ in Hb. lia.
Qed.

Lemma mem_read_range n m a v :
  mem_ok m -> (0 < n <= 8)%nat -> 0 <= a < 2 ^ 64 ->
  mem_read n m a = Ret (Ok v) -> 0 <= v < 2 ^ (8 * Z.of_nat n).
Proof.
  intros Hok Hn Ha. rewrite mem_read_spec by done. destruct (bytes_at _ m a n) as [bytes|] eqn:Hb; [|done].
  intros [= <-]. destruct (bytes_at_bytes m a n bytes Hok Hb) as [Hall Hl]. rewrite <- Hl.
  by apply from_le_bytes_range.
Qed.
End virtual_memory.

(** ** Properties *)

(** An access of 1 to 8 bytes that lies in the memory succeeds, a read after a
    write gives the value truncated to the width, and a write leaves every disjoint
    access unchanged; an access that lies outside in part or in full is refused with
    the address, whatever the address and the base, including at the end of the
    64-bit address space. *)
Theorem basic_memory_store_load BASE_ADDR (m : BasicMemory BASE_ADDR) n a v :
  basic_mem_ok m -> (0 < n <= 8)%nat -> 0 <= a < 2 ^ 64 ->
  (in_bounds m a n -> exists m', mem_write n m a v = Ret (Ok m') /\ basic_mem_ok m' /\
     length (data m') = length (data m) /\
     mem_read n m' a = Ret (Ok (wrap (8 * Z.of_nat n) v)) /\
     forall n' a', (0 < n' <= 8)%nat -> 0 <= a' < 2 ^ 64 ->
       a' + Z.of_nat n' <= a \/ a + Z.of_nat n <= a' -> mem_read n' m' a' = mem_read n' m a') /\
  (~ in_bounds m a n -> mem_write n m a v = Ret (Err (OutOfBoundsWrite a)) /\
     mem_read n m a = Ret (Err (OutOfBoundsRead a))).
Proof.
  intros Hok Hn Ha. pose proof (basic_mem_write_spec n m a v Hok Hn Ha) as Hw. split.
  - intros Hin. rewrite (bytes_at_in m a n Hin) in Hw. destruct Hw as (m' & Hw & Hok' & Hlen & Hb).
    exists m'. split_and!; [done|done|done| |].
    + cbn [mem_read BasicMemory_virtual]. rewrite basic_mem_read_spec by done.
      rewrite (bytes_at_written basic_byte_at m m' a n v Hb). by rewrite from_to_le_bytes.
    + intros n' a' Hn' Ha' Hd. cbn [mem_read BasicMemory_virtual]. rewrite !basic_mem_read_spec by done.
      by rewrite (bytes_at_disjoint basic_byte_at m m' a n v a' n' Hb Hd).
  - intros Hout. rewrite bytes_at_out in Hw by (done || lia). split; [done|].
    cbn [mem_read BasicMemory_virtual]. rewrite basic_mem_read_spec by done.
    by rewrite bytes_at_out by (done || lia).
Qed.

(** Slices: writing bytes and reading as many back gives them, when they fit, and
    both are refused when they do not; [read_slice_up_to] gives the longest prefix
    that is there. *)
Theorem basic_memory_slices BASE_ADDR (m : BasicMemory BASE_ADDR) a bytes :
  BASE_ADDR <= a ->
  let len := Z.of_nat (length bytes) in
  (in_bounds m a (length bytes) -> exists m', write_slice m a bytes = Ret (Ok m') /\
     length (data m') = length (data m) /\
     read_slice m' a len = Ok bytes /\ read_slice_up_to m' a len = bytes) /\
  (~ in_bounds m a (length bytes) -> write_slice m a bytes = Ret (Err (OutOfBoundsWrite a)) /\
     read_slice m a len = Err (OutOfBoundsRead a) /\
     read_slice_up_to m a len = drop (Z.to_nat (a - BASE_ADDR)) (data m)).
Proof.
  intros Ha len. unfold in_bounds. split.
  - intros [_ Hin]. destruct (raw_write (data m) (a - BASE_ADDR) bytes) as [d|] eqn:Hw.
    2:{ unfold raw_write in Hw. rewrite decide_True in Hw by lia. done. }
    pose proof (raw_write_lookup _ _ _ _ 0 Hw) as [Hlen _]. exists (mkBasicMemory d).
    unfold write_slice, read_slice, read_slice_up_to, get_range. cbn [data]. rewrite Hlen.
    rewrite (proj2 (Z.ltb_ge a BASE_ADDR)), (proj2 (Z.ltb_ge _ (a - BASE_ADDR))) by lia.
    rewrite !decide_True by (rewrite ?length_drop; lia). rewrite Hw.
    assert (Ht : take (Z.to_nat len) (drop (Z.to_nat (a - BASE_ADDR)) d) = bytes).
    { unfold raw_write in Hw. rewrite decide_True in Hw by lia. injection Hw as <-.
      rewrite drop_app_length' by (rewrite length_take; lia). by rewrite take_app_length' by lia. }
    by rewrite Ht.
  - intros Hout. unfold write_slice, read_slice, read_slice_up_to, get_range. cbn [data].
    rewrite (proj2 (Z.ltb_ge a BASE_ADDR)) by lia.
    destruct (Z.ltb_spec (Z.of_nat (length (data m))) (a - BASE_ADDR)).
    + split_and!; [done|done|]. rewrite drop_ge by lia. done.
    + rewrite !decide_False by (rewrite ?length_drop; lia). done.
Qed.

Definition sample_memory : BasicMemory 0x1000 := basic_memory_default 64.

Lemma sample_memory_ok : basic_mem_ok sample_memory.
Proof. split; [by vm_compute|]. apply Forall_replicate. done. Qed.

Lemma basic_memory_store_load_witness :
  (in_bounds sample_memory 0x1038 8 -> exists m', mem_write 8 sample_memory 0x1038 0x0102030405060708 = Ret (Ok m') /\
     basic_mem_ok m' /\ length (data m') = length (data sample_memory) /\
     mem_read 8 m' 0x1038 = Ret (Ok (wrap (8 * Z.of_nat 8) 0x0102030405060708)) /\
     forall n' a', (0 < n' <= 8)%nat -> 0 <= a' < 2 ^ 64 ->
       a' + Z.of_nat n' <= 0x1038 \/ 0x1038 + Z.of_nat 8 <= a' ->
       mem_read n' m' a' = mem_read n' sample_memory a') /\
  (~ in_bounds sample_memory 0x1038 8 ->
     mem_write 8 sample_memory 0x1038 0x0102030405060708 = Ret (Err (OutOfBoundsWrite 0x1038)) /\
     mem_read 8 sample_memory 0x1038 = Ret (Err (OutOfBoundsRead 0x1038))).
Proof.
  apply (basic_memory_store_load 0x1000 sample_memory 8 0x1038 0x0102030405060708);
    [apply sample_memory_ok|lia|lia].
Defined.
End RvMemory.
