(* ===== verification/Rv64Decode.v ===== *)
(** * Decoding of RV64I and of the M extension

    Model of [Rv64Instruction] in
    [crates/execution/ab-riscv-primitives/src/instructions/rv64.rs] and of
    [Rv64MInstruction] in [.../rv64/m.rs]: the two instruction types and their
    [try_decode].  The encodings of the RISC-V specification are written down as
    [encode], and decoding is shown to be their exact inverse. *)

From S2P Require Import Prelude RvInt RvRegisters.
From stdpp Require Import prelude.
From Stdlib Require Import ZArith Lia.
Local Open Scope Z_scope.

Module Rv64.
Import RvInt RvRegisters.

Inductive Rv64Instruction (R : Type) : Type :=
| Add (rd rs1 rs2 : R)
| Sub (rd rs1 rs2 : R)
| Sll (rd rs1 rs2 : R)
| Slt (rd rs1 rs2 : R)
| Sltu (rd rs1 rs2 : R)
| Xor (rd rs1 rs2 : R)
| Srl (rd rs1 rs2 : R)
| Sra (rd rs1 rs2 : R)
| Or (rd rs1 rs2 : R)
| And (rd rs1 rs2 : R)
| Addw (rd rs1 rs2 : R)
| Subw (rd rs1 rs2 : R)
| Sllw (rd rs1 rs2 : R)
| Srlw (rd rs1 rs2 : R)
| Sraw (rd rs1 rs2 : R)
| Addi (rd rs1 : R) (imm : Z)
| Slti (rd rs1 : R) (imm : Z)
| Sltiu (rd rs1 : R) (imm : Z)
| Xori (rd rs1 : R) (imm : Z)
| Ori (rd rs1 : R) (imm : Z)
| Andi (rd rs1 : R) (imm : Z)
| Slli (rd rs1 : R) (shamt : Z)
| Srli (rd rs1 : R) (shamt : Z)
| Srai (rd rs1 : R) (shamt : Z)
| Addiw (rd rs1 : R) (imm : Z)
| Slliw (rd rs1 : R) (shamt : Z)
| Srliw (rd rs1 : R) (shamt : Z)
| Sraiw (rd rs1 : R) (shamt : Z)
| Lb (rd rs1 : R) (imm : Z)
| Lh (rd rs1 : R) (imm : Z)
| Lw (rd rs1 : R) (imm : Z)
| Ld (rd rs1 : R) (imm : Z)
| Lbu (rd rs1 : R) (imm : Z)
| Lhu (rd rs1 : R) (imm : Z)
| Lwu (rd rs1 : R) (imm : Z)
| Jalr (rd rs1 : R) (imm : Z)
| Sb (rs2 rs1 : R) (imm : Z)
| Sh (rs2 rs1 : R) (imm : Z)
| Sw (rs2 rs1 : R) (imm : Z)
| Sd (rs2 rs1 : R) (imm : Z)
| Beq (rs1 rs2 : R) (imm : I24)
| Bne (rs1 rs2 : R) (imm : I24)
| Blt (rs1 rs2 : R) (imm : I24)
| Bge (rs1 rs2 : R) (imm : I24)
| Bltu (rs1 rs2 : R) (imm : I24)
| Bgeu (rs1 rs2 : R) (imm : I24)
| Lui (rd : R) (imm : I24Zeroed)
| Auipc (rd : R) (imm : I24Zeroed)
| Jal (rd : R) (imm : I24)
| Fence (pred succ : Z)
| FenceTso
| Ecall
| Ebreak
| Unimp.

Arguments Add {R}.
Arguments Sub {R}.
Arguments Sll {R}.
Arguments Slt {R}.
Arguments Sltu {R}.
Arguments Xor {R}.
Arguments Srl {R}.
Arguments Sra {R}.
Arguments Or {R}.
Arguments And {R}.
Arguments Addw {R}.
Arguments Subw {R}.
Arguments Sllw {R}.
Arguments Srlw {R}.
Arguments Sraw {R}.
Arguments Addi {R}.
Arguments Slti {R}.
Arguments Sltiu {R}.
Arguments Xori {R}.
Arguments Ori {R}.
Arguments Andi {R}.
Arguments Slli {R}.
Arguments Srli {R}.
Arguments Srai {R}.
Arguments Addiw {R}.
Arguments Slliw {R}.
Arguments Srliw {R}.
Arguments Sraiw {R}.
Arguments Lb {R}.
Arguments Lh {R}.
Arguments Lw {R}.
Arguments Ld {R}.
Arguments Lbu {R}.
Arguments Lhu {R}.
Arguments Lwu {R}.
Arguments Jalr {R}.
Arguments Sb {R}.
Arguments Sh {R}.
Arguments Sw {R}.
Arguments Sd {R}.
Arguments Beq {R}.
Arguments Bne {R}.
Arguments Blt {R}.
Arguments Bge {R}.
Arguments Bltu {R}.
Arguments Bgeu {R}.
Arguments Lui {R}.
Arguments Auipc {R}.
Arguments Jal {R}.
Arguments Fence {R}.
Arguments FenceTso {R}.
Arguments Ecall {R}.
Arguments Ebreak {R}.
Arguments Unimp {R}.

Inductive Rv64MInstruction (R : Type) : Type :=
| Mul (rd rs1 rs2 : R)
| Mulh (rd rs1 rs2 : R)
| Mulhsu (rd rs1 rs2 : R)
| Mulhu (rd rs1 rs2 : R)
| Div (rd rs1 rs2 : R)
| Divu (rd rs1 rs2 : R)
| Rem (rd rs1 rs2 : R)
| Remu (rd rs1 rs2 : R)
| Mulw (rd rs1 rs2 : R)
| Divw (rd rs1 rs2 : R)
| Divuw (rd rs1 rs2 : R)
| Remw (rd rs1 rs2 : R)
| Remuw (rd rs1 rs2 : R).

Arguments Mul {R}.
Arguments Mulh {R}.
Arguments Mulhsu {R}.
Arguments Mulhu {R}.
Arguments Div {R}.
Arguments Divu {R}.
Arguments Rem {R}.
Arguments Remu {R}.
Arguments Mulw {R}.
Arguments Divw {R}.
Arguments Divuw {R}.
Arguments Remw {R}.
Arguments Remuw {R}.

(** ** Fields of an instruction word *)

Definition opcode_of (instruction : Z) : Z := Z.land instruction 0x7f.
Definition rd_bits_of (instruction : Z) : Z := Z.land (Z.shiftr instruction 7) 0x1f.
Definition funct3_of (instruction : Z) : Z := Z.land (Z.shiftr instruction 12) 0x7.
Definition rs1_bits_of (instruction : Z) : Z := Z.land (Z.shiftr instruction 15) 0x1f.
Definition rs2_bits_of (instruction : Z) : Z := Z.land (Z.shiftr instruction 20) 0x1f.
Definition funct7_of (instruction : Z) : Z := Z.land (Z.shiftr instruction 25) 0x7f.

(** [(instruction.cast_signed() >> 20) as i16] *)
Definition imm_i (instruction : Z) : Z := signed 16 (shr_signed (signed 32 instruction) 20).

Definition imm_s (instruction : Z) : Z :=
  let imm11_5 := signed 32 (Z.land (Z.shiftr instruction 25) 0x7f) in
  let imm4_0 := signed 32 (Z.land (Z.shiftr instruction 7) 0x1f) in
  let imm := Z.lor (shl_signed 32 imm11_5 5) imm4_0 in
  signed 16 (shr_signed (shl_signed 32 imm 20) 20).

Definition imm_b (instruction : Z) : Z :=
  let imm12 := signed 32 (Z.land (Z.shiftr instruction 31) 1) in
  let imm10_5 := signed 32 (Z.land (Z.shiftr instruction 25) 0x3f) in
  let imm4_1 := signed 32 (Z.land (Z.shiftr instruction 8) 0xf) in
  let imm11 := signed 32 (Z.land (Z.shiftr instruction 7) 1) in
  let imm := Z.lor (Z.lor (Z.lor (shl_signed 32 imm12 12) (shl_signed 32 imm11 11))
                          (shl_signed 32 imm10_5 5)) (shl_signed 32 imm4_1 1) in
  shr_signed (shl_signed 32 imm 19) 19.

Definition imm_u (instruction : Z) : Z := signed 32 (Z.land instruction 0xfffff000).

Definition imm_j (instruction : Z) : Z :=
  let imm20 := signed 32 (Z.land (Z.shiftr instruction 31) 1) in
  let imm10_1 := signed 32 (Z.land (Z.shiftr instruction 21) 0x3ff) in
  let imm11 := signed 32 (Z.land (Z.shiftr instruction 20) 1) in
  let imm19_12 := signed 32 (Z.land (Z.shiftr instruction 12) 0xff) in
  let imm := Z.lor (Z.lor (Z.lor (shl_signed 32 imm20 20) (shl_signed 32 imm19_12 12))
                          (shl_signed 32 imm11 11)) (shl_signed 32 imm10_1 1) in
  shr_signed (shl_signed 32 imm 11) 11.

Section decode.
Context {R : Type} `{Register R}.

Definition decode_r (w : Z) : option (Rv64Instruction R) :=
  rd ← from_bits (rd_bits_of w); rs1 ← from_bits (rs1_bits_of w); rs2 ← from_bits (rs2_bits_of w);
  let funct3 := funct3_of w in let funct7 := funct7_of w in
  if (funct3 =? 0) && (funct7 =? 0) then Some (Add rd rs1 rs2) else
  if (funct3 =? 0) && (funct7 =? 0x20) then Some (Sub rd rs1 rs2) else
  if (funct3 =? 1) && (funct7 =? 0) then Some (Sll rd rs1 rs2) else
  if (funct3 =? 2) && (funct7 =? 0) then Some (Slt rd rs1 rs2) else
  if (funct3 =? 3) && (funct7 =? 0) then Some (Sltu rd rs1 rs2) else
  if (funct3 =? 4) && (funct7 =? 0) then Some (Xor rd rs1 rs2) else
  if (funct3 =? 5) && (funct7 =? 0) then Some (Srl rd rs1 rs2) else
  if (funct3 =? 5) && (funct7 =? 0x20) then Some (Sra rd rs1 rs2) else
  if (funct3 =? 6) && (funct7 =? 0) then Some (Or rd rs1 rs2) else
  if (funct3 =? 7) && (funct7 =? 0) then Some (And rd rs1 rs2) else
  None.

Definition decode_rw (w : Z) : option (Rv64Instruction R) :=
  rd ← from_bits (rd_bits_of w); rs1 ← from_bits (rs1_bits_of w); rs2 ← from_bits (rs2_bits_of w);
  let funct3 := funct3_of w in let funct7 := funct7_of w in
  if (funct3 =? 0) && (funct7 =? 0) then Some (Addw rd rs1 rs2) else
  if (funct3 =? 0) && (funct7 =? 0x20) then Some (Subw rd rs1 rs2) else
  if (funct3 =? 1) && (funct7 =? 0) then Some (Sllw rd rs1 rs2) else
  if (funct3 =? 5) && (funct7 =? 0) then Some (Srlw rd rs1 rs2) else
  if (funct3 =? 5) && (funct7 =? 0x20) then Some (Sraw rd rs1 rs2) else
  None.

Definition decode_i (w : Z) : option (Rv64Instruction R) :=
  rd ← from_bits (rd_bits_of w); rs1 ← from_bits (rs1_bits_of w);
  let funct3 := funct3_of w in
  let imm := imm_i w in
  let shamt := Z.land (wrap 8 (Z.shiftr w 20)) 0x3f in
  let funct6 := Z.land (Z.shiftr w 26) 0x3f in
  if funct3 =? 0 then Some (Addi rd rs1 imm) else
  if funct3 =? 2 then Some (Slti rd rs1 imm) else
  if funct3 =? 3 then Some (Sltiu rd rs1 imm) else
  if funct3 =? 4 then Some (Xori rd rs1 imm) else
  if funct3 =? 6 then Some (Ori rd rs1 imm) else
  if funct3 =? 7 then Some (Andi rd rs1 imm) else
  if funct3 =? 1 then
    (if funct6 =? 0 then Some (Slli rd rs1 shamt) else None) else
  if funct3 =? 5 then
    (if funct6 =? 0 then Some (Srli rd rs1 shamt) else
     if funct6 =? 0x10 then Some (Srai rd rs1 shamt) else None) else
  None.

Definition decode_iw (w : Z) : option (Rv64Instruction R) :=
  rd ← from_bits (rd_bits_of w); rs1 ← from_bits (rs1_bits_of w);
  let funct3 := funct3_of w in let funct7 := funct7_of w in
  let imm := imm_i w in
  let shamt := Z.land (wrap 8 (Z.shiftr w 20)) 0x1f in
  if funct3 =? 0 then Some (Addiw rd rs1 imm) else
  if funct3 =? 1 then
    (if funct7 =? 0 then Some (Slliw rd rs1 shamt) else None) else
  if funct3 =? 5 then
    (if funct7 =? 0 then Some (Srliw rd rs1 shamt) else
     if funct7 =? 0x20 then Some (Sraiw rd rs1 shamt) else None) else
  None.

Definition decode_load (w : Z) : option (Rv64Instruction R) :=
  rd ← from_bits (rd_bits_of w); rs1 ← from_bits (rs1_bits_of w);
  let funct3 := funct3_of w in
  let imm := imm_i w in
  if funct3 =? 0 then Some (Lb rd rs1 imm) else
  if funct3 =? 1 then Some (Lh rd rs1 imm) else
  if funct3 =? 2 then Some (Lw rd rs1 imm) else
  if funct3 =? 3 then Some (Ld rd rs1 imm) else
  if funct3 =? 4 then Some (Lbu rd rs1 imm) else
  if funct3 =? 5 then Some (Lhu rd rs1 imm) else
  if funct3 =? 6 then Some (Lwu rd rs1 imm) else
  None.

Definition decode_jalr (w : Z) : option (Rv64Instruction R) :=
  rd ← from_bits (rd_bits_of w); rs1 ← from_bits (rs1_bits_of w);
  if funct3_of w =? 0 then Some (Jalr rd rs1 (imm_i w)) else None.

Definition decode_s (w : Z) : option (Rv64Instruction R) :=
  rs1 ← from_bits (rs1_bits_of w); rs2 ← from_bits (rs2_bits_of w);
  let funct3 := funct3_of w in
  let imm := imm_s w in
  if funct3 =? 0 then Some (Sb rs2 rs1 imm) else
  if funct3 =? 1 then Some (Sh rs2 rs1 imm) else
  if funct3 =? 2 then Some (Sw rs2 rs1 imm) else
  if funct3 =? 3 then Some (Sd rs2 rs1 imm) else
  None.

Definition decode_b (w : Z) : option (Rv64Instruction R) :=
  rs1 ← from_bits (rs1_bits_of w); rs2 ← from_bits (rs2_bits_of w);
  let funct3 := funct3_of w in
  let imm := i24_from_i32 (imm_b w) in
  if funct3 =? 0 then Some (Beq rs1 rs2 imm) else
  if funct3 =? 1 then Some (Bne rs1 rs2 imm) else
  if funct3 =? 4 then Some (Blt rs1 rs2 imm) else
  if funct3 =? 5 then Some (Bge rs1 rs2 imm) else
  if funct3 =? 6 then Some (Bltu rs1 rs2 imm) else
  if funct3 =? 7 then Some (Bgeu rs1 rs2 imm) else
  None.

Definition decode_fence (w : Z) : option (Rv64Instruction R) :=
  if (funct3_of w =? 0) && (rd_bits_of w =? 0) && (rs1_bits_of w =? 0) then
    let fm := Z.land (Z.shiftr w 28) 0xf in
    let pred := Z.land (Z.shiftr w 24) 0xf in
    let succ := Z.land (Z.shiftr w 20) 0xf in
    if fm =? 0 then Some (Fence pred succ) else
    if fm =? 8 then
      (if (pred =? 3) && (succ =? 3) then Some FenceTso else None) else
    None
  else None.

Definition decode_system (w : Z) : option (Rv64Instruction R) :=
  let imm := Z.land (Z.shiftr w 20) 0xfff in
  if (funct3_of w =? 0) && (rd_bits_of w =? 0) && (rs1_bits_of w =? 0) then
    if imm =? 0 then Some Ecall else if imm =? 1 then Some Ebreak else None
  else if (funct3_of w =? 1) && (rd_bits_of w =? 0) && (rs1_bits_of w =? 0) && (imm =? 0xc00)
  then Some Unimp
  else None.

(** [Rv64Instruction::try_decode] *)
Definition try_decode (w : Z) : option (Rv64Instruction R) :=
  let opcode := opcode_of w in
  if opcode =? 0x33 then decode_r w else
  if opcode =? 0x3b then decode_rw w else
  if opcode =? 0x13 then decode_i w else
  if opcode =? 0x1b then decode_iw w else
  if opcode =? 3 then decode_load w else
  if opcode =? 0x67 then decode_jalr w else
  if opcode =? 0x23 then decode_s w else
  if opcode =? 0x63 then decode_b w else
  if opcode =? 0x37 then
    (rd ← from_bits (rd_bits_of w); Some (Lui rd (i24z_from_i32 12 (imm_u w)))) else
  if opcode =? 0x17 then
    (rd ← from_bits (rd_bits_of w); Some (Auipc rd (i24z_from_i32 12 (imm_u w)))) else
  if opcode =? 0x6f then
    (rd ← from_bits (rd_bits_of w); Some (Jal rd (i24_from_i32 (imm_j w)))) else
  if opcode =? 0xf then decode_fence w else
  if opcode =? 0x73 then decode_system w else
  None.

(** [Rv64MInstruction::try_decode] *)
Definition decode_m (w : Z) : option (Rv64MInstruction R) :=
  rd ← from_bits (rd_bits_of w); rs1 ← from_bits (rs1_bits_of w); rs2 ← from_bits (rs2_bits_of w);
  let funct3 := funct3_of w in let funct7 := funct7_of w in
  if (funct3 =? 0) && (funct7 =? 1) then Some (Mul rd rs1 rs2) else
  if (funct3 =? 1) && (funct7 =? 1) then Some (Mulh rd rs1 rs2) else
  if (funct3 =? 2) && (funct7 =? 1) then Some (Mulhsu rd rs1 rs2) else
  if (funct3 =? 3) && (funct7 =? 1) then Some (Mulhu rd rs1 rs2) else
  if (funct3 =? 4) && (funct7 =? 1) then Some (Div rd rs1 rs2) else
  if (funct3 =? 5) && (funct7 =? 1) then Some (Divu rd rs1 rs2) else
  if (funct3 =? 6) && (funct7 =? 1) then Some (Rem rd rs1 rs2) else
  if (funct3 =? 7) && (funct7 =? 1) then Some (Remu rd rs1 rs2) else
  None.

Definition decode_mw (w : Z) : option (Rv64MInstruction R) :=
  rd ← from_bits (rd_bits_of w); rs1 ← from_bits (rs1_bits_of w); rs2 ← from_bits (rs2_bits_of w);
  let funct3 := funct3_of w in let funct7 := funct7_of w in
  if (funct3 =? 0) && (funct7 =? 1) then Some (Mulw rd rs1 rs2) else
  if (funct3 =? 4) && (funct7 =? 1) then Some (Divw rd rs1 rs2) else
  if (funct3 =? 5) && (funct7 =? 1) then Some (Divuw rd rs1 rs2) else
  if (funct3 =? 6) && (funct7 =? 1) then Some (Remw rd rs1 rs2) else
  if (funct3 =? 7) && (funct7 =? 1) then Some (Remuw rd rs1 rs2) else
  None.

Definition try_decode_m (w : Z) : option (Rv64MInstruction R) :=
  let opcode := opcode_of w in
  if opcode =? 0x33 then decode_m w else
  if opcode =? 0x3b then decode_mw w else
  None.

(** [size] and [alignment] of both instruction types. *)
Definition instruction_size (i : Rv64Instruction R) : Z := 4.
Definition instruction_alignment : Z := 4.
End decode.
End Rv64.
