(* ===== verification/Rv64Encoding.v ===== *)
(** * Decoding is the inverse of the specified encoding

    The instruction formats of the RISC-V unprivileged specification (R, I, S, B, U and J)
    as functions from fields to words, and the proof that [try_decode] of
    [Rv64Decode] accepts exactly the words they produce. *)

From S2P Require Import Prelude RvInt RvRegisters Rv64Decode.
From stdpp Require Import prelude.
From Stdlib Require Import ZArith Lia.
Local Open Scope Z_scope.

Module Rv64Encoding.
Import RvInt RvRegisters Rv64.

(** ** Formats *)

Definition word (op rd f3 rs1 rs2 f7 : Z) : Z :=
  op + 2 ^ 7 * rd + 2 ^ 12 * f3 + 2 ^ 15 * rs1 + 2 ^ 20 * rs2 + 2 ^ 25 * f7.

(** [imm[11:0]] in bits 31..20. *)
Definition i_type (op f3 rd rs1 imm : Z) : Z :=
  let u := wrap 12 imm in word op rd f3 rs1 (u mod 32) (u / 32).

(** [imm[11:5]] in bits 31..25 and [imm[4:0]] in bits 11..7. *)
Definition s_type (op f3 rs1 rs2 imm : Z) : Z :=
  let u := wrap 12 imm in word op (u mod 32) f3 rs1 rs2 (u / 32).

(** [imm[12|10:5]] in bits 31..25 and [imm[4:1|11]] in bits 11..7. *)
Definition b_type (op f3 rs1 rs2 imm : Z) : Z :=
  let u := wrap 13 imm in
  word op ((u / 2048) mod 2 + 2 * ((u / 2) mod 16)) f3 rs1 rs2 ((u / 32) mod 64 + 64 * (u / 4096)).

(** [imm[31:12]] in bits 31..12. *)
Definition u_type (op rd imm : Z) : Z :=
  let u := wrap 32 imm in
  word op rd ((u / 4096) mod 8) ((u / 32768) mod 32) ((u / 2 ^ 20) mod 32) (u / 2 ^ 25).

(** [imm[20|10:1|11|19:12]] in bits 31..12. *)
Definition j_type (op rd imm : Z) : Z :=
  let u := wrap 21 imm in
  word op rd ((u / 4096) mod 8) ((u / 32768) mod 32)
    ((u / 2048) mod 2 + 2 * ((u / 2) mod 16)) ((u / 32) mod 64 + 64 * (u / 2 ^ 20)).

Section encode.
Context {R : Type} `{Register R}.

Definition r_type (op f3 f7 : Z) (rd rs1 rs2 : R) : Z :=
  word op (offset rd) f3 (offset rs1) (offset rs2) f7.

(** Shifts by an immediate of 6 bits. *)
Definition sh_type (op f3 f6 : Z) (rd rs1 : R) (shamt : Z) : Z :=
  word op (offset rd) f3 (offset rs1) (shamt mod 32) (shamt / 32 + 2 * f6).

Definition encode (i : Rv64Instruction R) : Z :=
  match i with
  | Add rd rs1 rs2 => r_type 0x33 0 0 rd rs1 rs2
  | Sub rd rs1 rs2 => r_type 0x33 0 0x20 rd rs1 rs2
  | Sll rd rs1 rs2 => r_type 0x33 1 0 rd rs1 rs2
  | Slt rd rs1 rs2 => r_type 0x33 2 0 rd rs1 rs2
  | Sltu rd rs1 rs2 => r_type 0x33 3 0 rd rs1 rs2
  | Xor rd rs1 rs2 => r_type 0x33 4 0 rd rs1 rs2
  | Srl rd rs1 rs2 => r_type 0x33 5 0 rd rs1 rs2
  | Sra rd rs1 rs2 => r_type 0x33 5 0x20 rd rs1 rs2
  | Or rd rs1 rs2 => r_type 0x33 6 0 rd rs1 rs2
  | And rd rs1 rs2 => r_type 0x33 7 0 rd rs1 rs2
  | Addw rd rs1 rs2 => r_type 0x3b 0 0 rd rs1 rs2
  | Subw rd rs1 rs2 => r_type 0x3b 0 0x20 rd rs1 rs2
  | Sllw rd rs1 rs2 => r_type 0x3b 1 0 rd rs1 rs2
  | Srlw rd rs1 rs2 => r_type 0x3b 5 0 rd rs1 rs2
  | Sraw rd rs1 rs2 => r_type 0x3b 5 0x20 rd rs1 rs2
  | Addi rd rs1 imm => i_type 0x13 0 (offset rd) (offset rs1) imm
  | Slti rd rs1 imm => i_type 0x13 2 (offset rd) (offset rs1) imm
  | Sltiu rd rs1 imm => i_type 0x13 3 (offset rd) (offset rs1) imm
  | Xori rd rs1 imm => i_type 0x13 4 (offset rd) (offset rs1) imm
  | Ori rd rs1 imm => i_type 0x13 6 (offset rd) (offset rs1) imm
  | Andi rd rs1 imm => i_type 0x13 7 (offset rd) (offset rs1) imm
  | Slli rd rs1 shamt => sh_type 0x13 1 0 rd rs1 shamt
  | Srli rd rs1 shamt => sh_type 0x13 5 0 rd rs1 shamt
  | Srai rd rs1 shamt => sh_type 0x13 5 0x10 rd rs1 shamt
  | Addiw rd rs1 imm => i_type 0x1b 0 (offset rd) (offset rs1) imm
  | Slliw rd rs1 shamt => word 0x1b (offset rd) 1 (offset rs1) shamt 0
  | Srliw rd rs1 shamt => word 0x1b (offset rd) 5 (offset rs1) shamt 0
  | Sraiw rd rs1 shamt => word 0x1b (offset rd) 5 (offset rs1) shamt 0x20
  | Lb rd rs1 imm => i_type 3 0 (offset rd) (offset rs1) imm
  | Lh rd rs1 imm => i_type 3 1 (offset rd) (offset rs1) imm
  | Lw rd rs1 imm => i_type 3 2 (offset rd) (offset rs1) imm
  | Ld rd rs1 imm => i_type 3 3 (offset rd) (offset rs1) imm
  | Lbu rd rs1 imm => i_type 3 4 (offset rd) (offset rs1) imm
  | Lhu rd rs1 imm => i_type 3 5 (offset rd) (offset rs1) imm
  | Lwu rd rs1 imm => i_type 3 6 (offset rd) (offset rs1) imm
  | Jalr rd rs1 imm => i_type 0x67 0 (offset rd) (offset rs1) imm
  | Sb rs2 rs1 imm => s_type 0x23 0 (offset rs1) (offset rs2) imm
  | Sh rs2 rs1 imm => s_type 0x23 1 (offset rs1) (offset rs2) imm
  | Sw rs2 rs1 imm => s_type 0x23 2 (offset rs1) (offset rs2) imm
  | Sd rs2 rs1 imm => s_type 0x23 3 (offset rs1) (offset rs2) imm
  | Beq rs1 rs2 imm => b_type 0x63 0 (offset rs1) (offset rs2) (i24_to_i32 imm)
  | Bne rs1 rs2 imm => b_type 0x63 1 (offset rs1) (offset rs2) (i24_to_i32 imm)
  | Blt rs1 rs2 imm => b_type 0x63 4 (offset rs1) (offset rs2) (i24_to_i32 imm)
  | Bge rs1 rs2 imm => b_type 0x63 5 (offset rs1) (offset rs2) (i24_to_i32 imm)
  | Bltu rs1 rs2 imm => b_type 0x63 6 (offset rs1) (offset rs2) (i24_to_i32 imm)
  | Bgeu rs1 rs2 imm => b_type 0x63 7 (offset rs1) (offset rs2) (i24_to_i32 imm)
  | Lui rd imm => u_type 0x37 (offset rd) (i24z_to_i32 12 imm)
  | Auipc rd imm => u_type 0x17 (offset rd) (i24z_to_i32 12 imm)
  | Jal rd imm => j_type 0x6f (offset rd) (i24_to_i32 imm)
  | Fence pred succ => i_type 0xf 0 0 0 (16 * pred + succ)
  | FenceTso => i_type 0xf 0 0 0 0x833
  | Ecall => i_type 0x73 0 0 0 0
  | Ebreak => i_type 0x73 0 0 0 1
  | Unimp => i_type 0x73 1 0 0 0xc00
  end.

Definition encode_m (i : Rv64MInstruction R) : Z :=
  match i with
  | Mul rd rs1 rs2 => r_type 0x33 0 1 rd rs1 rs2
  | Mulh rd rs1 rs2 => r_type 0x33 1 1 rd rs1 rs2
  | Mulhsu rd rs1 rs2 => r_type 0x33 2 1 rd rs1 rs2
  | Mulhu rd rs1 rs2 => r_type 0x33 3 1 rd rs1 rs2
  | Div rd rs1 rs2 => r_type 0x33 4 1 rd rs1 rs2
  | Divu rd rs1 rs2 => r_type 0x33 5 1 rd rs1 rs2
  | Rem rd rs1 rs2 => r_type 0x33 6 1 rd rs1 rs2
  | Remu rd rs1 rs2 => r_type 0x33 7 1 rd rs1 rs2
  | Mulw rd rs1 rs2 => r_type 0x3b 0 1 rd rs1 rs2
  | Divw rd rs1 rs2 => r_type 0x3b 4 1 rd rs1 rs2
  | Divuw rd rs1 rs2 => r_type 0x3b 5 1 rd rs1 rs2
  | Remw rd rs1 rs2 => r_type 0x3b 6 1 rd rs1 rs2
  | Remuw rd rs1 rs2 => r_type 0x3b 7 1 rd rs1 rs2
  end.

(** Operands that have an encoding. *)
Definition wf (i : Rv64Instruction R) : Prop :=
  match i with
  | Addi _ _ imm | Slti _ _ imm | Sltiu _ _ imm | Xori _ _ imm | Ori _ _ imm | Andi _ _ imm
  | Addiw _ _ imm | Lb _ _ imm | Lh _ _ imm | Lw _ _ imm | Ld _ _ imm | Lbu _ _ imm
  | Lhu _ _ imm | Lwu _ _ imm | Jalr _ _ imm
  | Sb _ _ imm | Sh _ _ imm | Sw _ _ imm | Sd _ _ imm => - 2 ^ 11 <= imm < 2 ^ 11
  | Slli _ _ shamt | Srli _ _ shamt | Srai _ _ shamt => 0 <= shamt < 64
  | Slliw _ _ shamt | Srliw _ _ shamt | Sraiw _ _ shamt => 0 <= shamt < 32
  | Beq _ _ imm | Bne _ _ imm | Blt _ _ imm | Bge _ _ imm | Bltu _ _ imm | Bgeu _ _ imm =>
      i24_wf imm /\ - 2 ^ 12 <= i24_to_i32 imm < 2 ^ 12 /\ i24_to_i32 imm mod 2 = 0
  | Lui _ imm | Auipc _ imm => i24z_wf imm
  | Jal _ imm => i24_wf imm /\ - 2 ^ 20 <= i24_to_i32 imm < 2 ^ 20 /\ i24_to_i32 imm mod 2 = 0
  | Fence pred succ => 0 <= pred < 16 /\ 0 <= succ < 16
  | _ => True
  end.
End encode.

(** ** Fields *)

Record fields_range (op rd f3 rs1 rs2 f7 : Z) : Prop := {
  range_op : 0 <= op < 128;
  range_rd : 0 <= rd < 32;
  range_f3 : 0 <= f3 < 8;
  range_rs1 : 0 <= rs1 < 32;
  range_rs2 : 0 <= rs2 < 32;
  range_f7 : 0 <= f7 < 128
}.

Lemma opcode_mod w : opcode_of w = w mod 128.
Proof. unfold opcode_of. change 0x7f with (Z.ones 7). by rewrite Z.land_ones. Qed.
Lemma rd_bits_mod w : rd_bits_of w = (w / 128) mod 32.
Proof. apply (field_mod w 7 5); lia. Qed.
Lemma funct3_mod w : funct3_of w = (w / 4096) mod 8.
Proof. apply (field_mod w 12 3); lia. Qed.
Lemma rs1_bits_mod w : rs1_bits_of w = (w / 32768) mod 32.
Proof. apply (field_mod w 15 5); lia. Qed.
Lemma rs2_bits_mod w : rs2_bits_of w = (w / 1048576) mod 32.
Proof. apply (field_mod w 20 5); lia. Qed.
Lemma funct7_mod w : funct7_of w = (w / 33554432) mod 128.
Proof. apply (field_mod w 25 7); lia. Qed.

Lemma word_fields w :
  0 <= w < 2 ^ 32 ->
  fields_range (opcode_of w) (rd_bits_of w) (funct3_of w) (rs1_bits_of w) (rs2_bits_of w) (funct7_of w) /\
  w = word (opcode_of w) (rd_bits_of w) (funct3_of w) (rs1_bits_of w) (rs2_bits_of w) (funct7_of w).
Proof.
  intros Hw. rewrite opcode_mod, rd_bits_mod, funct3_mod, rs1_bits_mod, rs2_bits_mod, funct7_mod.
  split; [split; apply Z.mod_pos_bound; lia|]. unfold word.
  Z.to_euclidean_division_equations. lia.
Qed.

Lemma fields_word op rd f3 rs1 rs2 f7 :
  fields_range op rd f3 rs1 rs2 f7 ->
  let w := word op rd f3 rs1 rs2 f7 in
  0 <= w < 2 ^ 32 /\ opcode_of w = op /\ rd_bits_of w = rd /\ funct3_of w = f3 /\
  rs1_bits_of w = rs1 /\ rs2_bits_of w = rs2 /\ funct7_of w = f7.
Proof.
  intros [Hop Hrd Hf3 Hrs1 Hrs2 Hf7] w.
  rewrite opcode_mod, rd_bits_mod, funct3_mod, rs1_bits_mod, rs2_bits_mod, funct7_mod.
  unfold w, word. split_and!; Z.to_euclidean_division_equations; lia.
Qed.

(** ** Immediates *)

(** Small values are their own casts, and a shift left within the width is a product. *)
Lemma signed_32_small x : 0 <= x < 2 ^ 31 -> signed 32 x = x.
Proof. intros Hx. apply signed_small; [lia|]. change (2 ^ (32 - 1)) with (2 ^ 31). lia. Qed.

Lemma shl_small x n : 0 <= n -> 0 <= x * 2 ^ n < 2 ^ 31 -> shl_signed 32 x n = x * 2 ^ n.
Proof. intros Hn Hx. unfold shl_signed. rewrite Z.shiftl_mul_pow2 by done. by apply signed_32_small. Qed.

Lemma imm_i_fields w :
  0 <= w < 2 ^ 32 -> imm_i w = signed 12 (rs2_bits_of w + 32 * funct7_of w).
Proof.
  intros Hw. unfold imm_i, shr_signed. rewrite rs2_bits_mod, funct7_mod, Z.shiftr_div_pow2 by lia.
  pose proof (signed_range 32 w ltac:(lia)) as Hr. destruct (signed_offset 32 w) as [k Hk]. rewrite Hk in *.
  change (2 ^ (32 - 1)) with 2147483648 in Hr. change (2 ^ 32) with 4294967296 in *. change (2 ^ 20) with 1048576.
  rewrite (signed_small 16) by (change (2 ^ (16 - 1)) with 32768; Z.to_euclidean_division_equations; lia).
  rewrite (signed_unique 12 _ k); change (2 ^ 12) with 4096; change (2 ^ (12 - 1)) with 2048;
    Z.to_euclidean_division_equations; lia.
Qed.

Lemma imm_s_fields w :
  0 <= w < 2 ^ 32 -> imm_s w = signed 12 (rd_bits_of w + 32 * funct7_of w).
Proof.
  intros Hw. unfold imm_s. fold (funct7_of w). fold (rd_bits_of w).
  destruct (word_fields w Hw) as [[_ Hrd _ _ _ Hf7] _].
  rewrite (signed_32_small (funct7_of w)), (signed_32_small (rd_bits_of w)) by lia.
  rewrite (shl_small (funct7_of w) 5), lor_add by lia. rewrite (sign_extend 32) by lia. change (32 - 20) with 12.
  rewrite (signed_small 16).
  - f_equal. lia.
  - lia.
  - pose proof (signed_range 12 (funct7_of w * 2 ^ 5 + rd_bits_of w) ltac:(lia)).
    change (2 ^ (12 - 1)) with 2048 in *. change (2 ^ (16 - 1)) with 32768. lia.
Qed.

Lemma imm_b_fields w :
  0 <= w < 2 ^ 32 ->
  imm_b w = signed 13 (2 * (rd_bits_of w / 2) + 32 * (funct7_of w mod 64) +
                       2048 * (rd_bits_of w mod 2) + 4096 * (funct7_of w / 64)).
Proof.
  intros Hw. unfold imm_b.
  rewrite (field_mask w 31 1 1) by done.
  rewrite (field_mask w 25 6 0x3f) by done.
  rewrite (field_mask w 8 4 0xf) by done.
  rewrite (field_mask w 7 1 1) by done.
  rewrite rd_bits_mod, funct7_mod.
  change (2 ^ 1) with 2. change (2 ^ 6) with 64. change (2 ^ 4) with 16.
  set (a := (w / 2 ^ 31) mod 2). set (b := (w / 2 ^ 7) mod 2).
  set (c := (w / 2 ^ 25) mod 64). set (d := (w / 2 ^ 8) mod 16).
  assert (Ha : 0 <= a < 2) by (apply Z.mod_pos_bound; lia).
  assert (Hb : 0 <= b < 2) by (apply Z.mod_pos_bound; lia).
  assert (Hc : 0 <= c < 64) by (apply Z.mod_pos_bound; lia).
  assert (Hd : 0 <= d < 16) by (apply Z.mod_pos_bound; lia).
  rewrite !signed_32_small by lia.
  rewrite (shl_small a 12), (shl_small b 11), (shl_small c 5), (shl_small d 1) by lia.
  rewrite (lor_add a) by lia. replace (a * 2 ^ 12 + b * 2 ^ 11) with ((2 * a + b) * 2 ^ 11) by lia.
  rewrite (lor_add (2 * a + b)) by lia.
  replace ((2 * a + b) * 2 ^ 11 + c * 2 ^ 5) with ((64 * (2 * a + b) + c) * 2 ^ 5) by lia.
  rewrite (lor_add (64 * (2 * a + b) + c)) by lia. rewrite (sign_extend 32) by lia.
  change (32 - 19) with 13. f_equal. unfold a, b, c, d. clear -Hw.
  change (2 ^ 31) with 2147483648. change (2 ^ 25) with 33554432. change (2 ^ 8) with 256.
  change (2 ^ 7) with 128. change (2 ^ 5) with 32.
  Z.to_euclidean_division_equations. lia.
Qed.

Lemma imm_j_fields w :
  0 <= w < 2 ^ 32 ->
  imm_j w = signed 21 (2 * (rs2_bits_of w / 2) + 32 * (funct7_of w mod 64) +
                       2048 * (rs2_bits_of w mod 2) + 4096 * (funct3_of w + 8 * rs1_bits_of w) +
                       2 ^ 20 * (funct7_of w / 64)).
Proof.
  intros Hw. unfold imm_j.
  rewrite (field_mask w 31 1 1) by done. rewrite (field_mask w 21 10 0x3ff) by done.
  rewrite (field_mask w 20 1 1) by done. rewrite (field_mask w 12 8 0xff) by done.
  rewrite rs2_bits_mod, funct7_mod, funct3_mod, rs1_bits_mod.
  change (2 ^ 1) with 2. change (2 ^ 10) with 1024. change (2 ^ 8) with 256.
  set (a := (w / 2 ^ 31) mod 2). set (b := (w / 2 ^ 20) mod 2).
  set (c := (w / 2 ^ 21) mod 1024). set (d := (w / 2 ^ 12) mod 256).
  assert (Ha : 0 <= a < 2) by (apply Z.mod_pos_bound; lia).
  assert (Hb : 0 <= b < 2) by (apply Z.mod_pos_bound; lia).
  assert (Hc : 0 <= c < 1024) by (apply Z.mod_pos_bound; lia).
  assert (Hd : 0 <= d < 256) by (apply Z.mod_pos_bound; lia).
  rewrite !signed_32_small by lia.
  rewrite (shl_small a 20), (shl_small d 12), (shl_small b 11), (shl_small c 1) by lia.
  rewrite (lor_add a) by lia. replace (a * 2 ^ 20 + d * 2 ^ 12) with ((256 * a + d) * 2 ^ 12) by lia.
  rewrite (lor_add (256 * a + d)) by lia.
  replace ((256 * a + d) * 2 ^ 12 + b * 2 ^ 11) with ((2 * (256 * a + d) + b) * 2 ^ 11) by lia.
  rewrite (lor_add (2 * (256 * a + d) + b)) by lia. rewrite (sign_extend 32) by lia.
  change (32 - 11) with 21. f_equal. unfold a, b, c, d. clear -Hw.
  change (2 ^ 31) with 2147483648. change (2 ^ 20) with 1048576. change (2 ^ 21) with 2097152.
  change (2 ^ 12) with 4096. change (2 ^ 11) with 2048.
  Z.to_euclidean_division_equations. lia.
Qed.

(** The upper immediate, without the twelve zero bits. *)
Lemma imm_u_fields w :
  0 <= w < 2 ^ 32 ->
  imm_u w = signed 20 (funct3_of w + 8 * rs1_bits_of w + 256 * rs2_bits_of w + 8192 * funct7_of w) * 2 ^ 12.
Proof.
  intros Hw. unfold imm_u. rewrite land_high_mask by done.
  replace (funct3_of w + 8 * rs1_bits_of w + 256 * rs2_bits_of w + 8192 * funct7_of w) with (w / 2 ^ 12).
  - pose proof (sign_extend 32 (w / 2 ^ 12) 12 ltac:(lia)) as Hs. change (32 - 12) with 20 in Hs. rewrite <- Hs.
    unfold shr_signed, shl_signed. rewrite Z.shiftl_mul_pow2, Z.shiftr_div_pow2 by lia.
    destruct (signed_offset 32 (w / 2 ^ 12 * 2 ^ 12)) as [k ->].
    change (2 ^ 32) with (2 ^ 20 * 2 ^ 12).
    replace (w / 2 ^ 12 * 2 ^ 12 + k * (2 ^ 20 * 2 ^ 12)) with ((w / 2 ^ 12 + k * 2 ^ 20) * 2 ^ 12) by lia.
    by rewrite Z.div_mul by lia.
  - rewrite funct3_mod, rs1_bits_mod, rs2_bits_mod, funct7_mod. change (2 ^ 12) with 4096.
    clear -Hw. Z.to_euclidean_division_equations. lia.
Qed.

(** ** Words from their immediates *)

Lemma wrap_of_signed w x : 0 < w -> 0 <= x < 2 ^ w -> wrap w (signed w x) = x.
Proof. intros Hw Hx. by rewrite wrap_signed, wrap_small. Qed.

Lemma i_type_imm w :
  0 <= w < 2 ^ 32 ->
  - 2 ^ 11 <= imm_i w < 2 ^ 11 /\
  i_type (opcode_of w) (funct3_of w) (rd_bits_of w) (rs1_bits_of w) (imm_i w) = w.
Proof.
  intros Hw. destruct (word_fields w Hw) as [[_ _ _ _ Hrs2 Hf7] Heq]. rewrite imm_i_fields by done.
  split; [by apply (signed_range 12)|]. unfold i_type. rewrite wrap_of_signed by lia.
  etransitivity; [|symmetry; exact Heq]. f_equal; Z.to_euclidean_division_equations; lia.
Qed.

Lemma s_type_imm w :
  0 <= w < 2 ^ 32 ->
  - 2 ^ 11 <= imm_s w < 2 ^ 11 /\
  s_type (opcode_of w) (funct3_of w) (rs1_bits_of w) (rs2_bits_of w) (imm_s w) = w.
Proof.
  intros Hw. destruct (word_fields w Hw) as [[_ Hrd _ _ _ Hf7] Heq]. rewrite imm_s_fields by done.
  split; [by apply (signed_range 12)|]. unfold s_type. rewrite wrap_of_signed by lia.
  etransitivity; [|symmetry; exact Heq]. f_equal; Z.to_euclidean_division_equations; lia.
Qed.

(** Signed values of even residues are even. *)
Lemma signed_even w x : 0 < w -> x mod 2 = 0 -> signed w x mod 2 = 0.
Proof.
  intros Hw Hx. destruct (signed_offset w x) as [k ->]. rewrite pow2_split by done.
  replace (x + k * (2 * 2 ^ (w - 1))) with (x + (k * 2 ^ (w - 1)) * 2) by lia. by rewrite Z.mod_add.
Qed.

Lemma b_type_imm w :
  0 <= w < 2 ^ 32 ->
  (- 2 ^ 12 <= imm_b w < 2 ^ 12 /\ imm_b w mod 2 = 0) /\
  b_type (opcode_of w) (funct3_of w) (rs1_bits_of w) (rs2_bits_of w) (imm_b w) = w.
Proof.
  intros Hw. destruct (word_fields w Hw) as [[_ Hrd _ _ _ Hf7] Heq]. rewrite imm_b_fields by done.
  split; [split; [by apply (signed_range 13)|]|].
  - apply signed_even; [lia|]. clear. Z.to_euclidean_division_equations. lia.
  - unfold b_type. rewrite wrap_of_signed by (clear -Hrd Hf7; Z.to_euclidean_division_equations; lia).
    etransitivity; [|symmetry; exact Heq]. clear -Hrd Hf7. f_equal; Z.to_euclidean_division_equations; lia.
Qed.

Lemma j_type_imm w :
  0 <= w < 2 ^ 32 ->
  (- 2 ^ 20 <= imm_j w < 2 ^ 20 /\ imm_j w mod 2 = 0) /\
  j_type (opcode_of w) (rd_bits_of w) (imm_j w) = w.
Proof.
  intros Hw. destruct (word_fields w Hw) as [[_ Hrd Hf3 Hrs1 Hrs2 Hf7] Heq]. rewrite imm_j_fields by done.
  split; [split; [by apply (signed_range 21)|]|].
  - apply signed_even; [lia|]. clear. Z.to_euclidean_division_equations. lia.
  - unfold j_type. rewrite wrap_of_signed by (clear -Hf3 Hrs1 Hrs2 Hf7; Z.to_euclidean_division_equations; lia).
    etransitivity; [|symmetry; exact Heq]. clear -Hf3 Hrs1 Hrs2 Hf7. f_equal; Z.to_euclidean_division_equations; lia.
Qed.

Lemma u_type_imm w :
  0 <= w < 2 ^ 32 ->
  let imm := i24z_from_i32 12 (imm_u w) in
  i24z_wf imm /\ i24z_to_i32 12 imm = imm_u w /\
  u_type (opcode_of w) (rd_bits_of w) (imm_u w) = w.
Proof.
  intros Hw imm. subst imm. destruct (word_fields w Hw) as [[_ Hrd Hf3 Hrs1 Hrs2 Hf7] Heq].
  rewrite imm_u_fields by done.
  set (x := funct3_of w + 8 * rs1_bits_of w + 256 * rs2_bits_of w + 8192 * funct7_of w).
  assert (Hx : 0 <= x < 2 ^ 20) by (unfold x; lia).
  destruct (i24z_from_value (signed 20 x) (signed_range 20 x ltac:(lia))) as [Hwf Hv].
  split_and!; [done|by rewrite i24z_to_i32_value, Hv|].
  unfold u_type. replace (wrap 32 (signed 20 x * 2 ^ 12)) with (x * 2 ^ 12).
  - etransitivity; [|symmetry; exact Heq]. unfold x. clear -Hf3 Hrs1 Hrs2 Hf7.
    f_equal; Z.to_euclidean_division_equations; lia.
  - destruct (signed_offset 20 x) as [k ->].
    replace ((x + k * 2 ^ 20) * 2 ^ 12) with (x * 2 ^ 12 + k * 2 ^ 32) by lia.
    rewrite wrap_add_period, wrap_small; lia.
Qed.

Lemma shamt_fields w n mask :
  0 <= w < 2 ^ 32 -> 0 <= n <= 8 -> mask = Z.ones n ->
  Z.land (wrap 8 (Z.shiftr w 20)) mask = (w / 2 ^ 20) mod 2 ^ n.
Proof.
  intros Hw Hn ->. rewrite Z.land_ones, Z.shiftr_div_pow2 by lia. apply (wrap_wrap_le n 8). lia.
Qed.

Lemma shamt6_fields w :
  0 <= w < 2 ^ 32 ->
  Z.land (wrap 8 (Z.shiftr w 20)) 0x3f = rs2_bits_of w + 32 * (funct7_of w mod 2) /\
  Z.land (Z.shiftr w 26) 0x3f = funct7_of w / 2.
Proof.
  intros Hw. rewrite (shamt_fields w 6), (field_mask w 26 6) by done. rewrite rs2_bits_mod, funct7_mod.
  change (2 ^ 20) with 1048576. change (2 ^ 26) with 67108864. change (2 ^ 6) with 64. clear -Hw.
  split; Z.to_euclidean_division_equations; lia.
Qed.

Lemma shamt5_fields w :
  0 <= w < 2 ^ 32 -> Z.land (wrap 8 (Z.shiftr w 20)) 0x1f = rs2_bits_of w.
Proof. intros Hw. rewrite (shamt_fields w 5) by done. by rewrite rs2_bits_mod. Qed.

Lemma fence_fields w :
  0 <= w < 2 ^ 32 ->
  Z.land (Z.shiftr w 28) 0xf = funct7_of w / 8 /\
  Z.land (Z.shiftr w 24) 0xf = rs2_bits_of w / 16 + 2 * (funct7_of w mod 8) /\
  Z.land (Z.shiftr w 20) 0xf = rs2_bits_of w mod 16.
Proof.
  intros Hw. rewrite (field_mask w 28 4), (field_mask w 24 4), (field_mask w 20 4) by done.
  rewrite rs2_bits_mod, funct7_mod. change (2 ^ 20) with 1048576. change (2 ^ 28) with 268435456.
  change (2 ^ 24) with 16777216. change (2 ^ 4) with 16. clear -Hw.
  split_and!; Z.to_euclidean_division_equations; lia.
Qed.

Lemma system_fields w :
  0 <= w < 2 ^ 32 -> Z.land (Z.shiftr w 20) 0xfff = rs2_bits_of w + 32 * funct7_of w.
Proof.
  intros Hw. rewrite (field_mask w 20 12) by done. rewrite rs2_bits_mod, funct7_mod.
  change (2 ^ 20) with 1048576. change (2 ^ 12) with 4096. clear -Hw.
  Z.to_euclidean_division_equations; lia.
Qed.

(** ** Fields of the words of each format *)

Lemma i_type_fields op f3 rd rs1 imm :
  0 <= op < 128 -> 0 <= f3 < 8 -> 0 <= rd < 32 -> 0 <= rs1 < 32 ->
  let w := i_type op f3 rd rs1 imm in
  0 <= w < 2 ^ 32 /\ opcode_of w = op /\ rd_bits_of w = rd /\ funct3_of w = f3 /\
  rs1_bits_of w = rs1 /\ rs2_bits_of w = wrap 12 imm mod 32 /\ funct7_of w = wrap 12 imm / 32.
Proof.
  intros Hop Hf3 Hrd Hrs1. apply fields_word. pose proof (wrap_range 12 imm ltac:(lia)).
  split; try done; Z.to_euclidean_division_equations; lia.
Qed.

Lemma imm_of_wrap n imm :
  0 < n -> - 2 ^ (n - 1) <= imm < 2 ^ (n - 1) -> signed n (wrap n imm) = imm.
Proof. intros Hn Hr. rewrite signed_wrap by done. by apply signed_small. Qed.

Lemma i_type_decode op f3 rd rs1 imm :
  0 <= op < 128 -> 0 <= f3 < 8 -> 0 <= rd < 32 -> 0 <= rs1 < 32 -> - 2 ^ 11 <= imm < 2 ^ 11 ->
  imm_i (i_type op f3 rd rs1 imm) = imm.
Proof.
  intros Hop Hf3 Hrd Hrs1 Himm.
  destruct (i_type_fields op f3 rd rs1 imm) as (Hw & _ & _ & _ & _ & Hrs2 & Hf7); [done..|].
  rewrite imm_i_fields, Hrs2, Hf7 by done.
  replace (_ mod 32 + 32 * (_ / 32)) with (wrap 12 imm) by (Z.to_euclidean_division_equations; lia).
  by apply imm_of_wrap.
Qed.

Lemma s_type_decode op f3 rs1 rs2 imm :
  0 <= op < 128 -> 0 <= f3 < 8 -> 0 <= rs1 < 32 -> 0 <= rs2 < 32 -> - 2 ^ 11 <= imm < 2 ^ 11 ->
  let w := s_type op f3 rs1 rs2 imm in
  0 <= w < 2 ^ 32 /\ opcode_of w = op /\ funct3_of w = f3 /\
  rs1_bits_of w = rs1 /\ rs2_bits_of w = rs2 /\ imm_s w = imm.
Proof.
  intros Hop Hf3 Hrs1 Hrs2 Himm. pose proof (wrap_range 12 imm ltac:(lia)) as Hu. unfold s_type. cbv zeta.
  destruct (fields_word op (wrap 12 imm mod 32) f3 rs1 rs2 (wrap 12 imm / 32)) as (Hw & Ho & Hr & H3 & H1 & H2 & H7).
  { split; try done; Z.to_euclidean_division_equations; lia. }
  split_and!; [lia|lia|done|done|done|done|]. rewrite imm_s_fields, Hr, H7 by done.
  replace (_ mod 32 + 32 * (_ / 32)) with (wrap 12 imm) by (Z.to_euclidean_division_equations; lia).
  by apply imm_of_wrap.
Qed.

Lemma wrap_even n imm : 0 < n -> imm mod 2 = 0 -> wrap n imm mod 2 = 0.
Proof.
  intros Hn He. destruct (wrap_offset n imm) as [k ->]; [lia|]. rewrite pow2_split by done.
  replace (imm + k * (2 * 2 ^ (n - 1))) with (imm + (k * 2 ^ (n - 1)) * 2) by lia. by rewrite Z.mod_add.
Qed.

Lemma b_type_decode op f3 rs1 rs2 imm :
  0 <= op < 128 -> 0 <= f3 < 8 -> 0 <= rs1 < 32 -> 0 <= rs2 < 32 ->
  - 2 ^ 12 <= imm < 2 ^ 12 -> imm mod 2 = 0 ->
  let w := b_type op f3 rs1 rs2 imm in
  0 <= w < 2 ^ 32 /\ opcode_of w = op /\ funct3_of w = f3 /\
  rs1_bits_of w = rs1 /\ rs2_bits_of w = rs2 /\ imm_b w = imm.
Proof.
  intros Hop Hf3 Hrs1 Hrs2 Himm He. pose proof (wrap_range 13 imm ltac:(lia)) as Hu.
  pose proof (wrap_even 13 imm ltac:(lia) He) as Hev. unfold b_type. cbv zeta.
  pose proof (imm_of_wrap 13 imm ltac:(lia) Himm) as Hback. set (u := wrap 13 imm) in *.
  destruct (fields_word op ((u / 2048) mod 2 + 2 * ((u / 2) mod 16)) f3 rs1 rs2
    ((u / 32) mod 64 + 64 * (u / 4096))) as (Hw & Ho & Hr & H3 & H1 & H2 & H7).
  { clear -Hop Hf3 Hrs1 Hrs2 Hu. split; try done; Z.to_euclidean_division_equations; lia. }
  split_and!; [lia|lia|done|done|done|done|]. rewrite imm_b_fields, Hr, H7 by done.
  etransitivity; [|exact Hback]. f_equal. clear -Hu Hev. Z.to_euclidean_division_equations; lia.
Qed.

Lemma j_type_decode op rd imm :
  0 <= op < 128 -> 0 <= rd < 32 -> - 2 ^ 20 <= imm < 2 ^ 20 -> imm mod 2 = 0 ->
  let w := j_type op rd imm in
  0 <= w < 2 ^ 32 /\ opcode_of w = op /\ rd_bits_of w = rd /\ imm_j w = imm.
Proof.
  intros Hop Hrd Himm He. pose proof (wrap_range 21 imm ltac:(lia)) as Hu.
  pose proof (wrap_even 21 imm ltac:(lia) He) as Hev. unfold j_type. cbv zeta.
  pose proof (imm_of_wrap 21 imm ltac:(lia) Himm) as Hback. set (u := wrap 21 imm) in *.
  destruct (fields_word op rd ((u / 4096) mod 8) ((u / 32768) mod 32)
    ((u / 2048) mod 2 + 2 * ((u / 2) mod 16)) ((u / 32) mod 64 + 64 * (u / 2 ^ 20)))
    as (Hw & Ho & Hr & H3 & H1 & H2 & H7).
  { clear -Hop Hrd Hu. split; try done; Z.to_euclidean_division_equations; lia. }
  split_and!; [lia|lia|done|done|]. rewrite imm_j_fields, H3, H1, H2, H7 by done.
  etransitivity; [|exact Hback]. f_equal. clear -Hu Hev. Z.to_euclidean_division_equations; lia.
Qed.

Lemma u_type_decode op rd imm :
  0 <= op < 128 -> 0 <= rd < 32 -> i24z_wf imm ->
  let w := u_type op rd (i24z_to_i32 12 imm) in
  0 <= w < 2 ^ 32 /\ opcode_of w = op /\ rd_bits_of w = rd /\ imm_u w = i24z_to_i32 12 imm.
Proof.
  intros Hop Hrd Hwf. rewrite i24z_to_i32_value by done. destruct Hwf as (_ & _ & _ & Hq).
  set (q := i24z_value imm) in *. unfold u_type. cbv zeta. set (u := wrap 32 (q * 2 ^ 12)).
  assert (Hu : u = wrap 20 q * 2 ^ 12).
  { unfold u, wrap. change (2 ^ 32) with (2 ^ 20 * 2 ^ 12). by rewrite Zmult_mod_distr_r. }
  pose proof (wrap_range 20 q ltac:(lia)) as Hx. set (x := wrap 20 q) in *.
  destruct (fields_word op rd ((u / 4096) mod 8) ((u / 32768) mod 32) ((u / 2 ^ 20) mod 32) (u / 2 ^ 25))
    as (Hw & Ho & Hr & H3 & H1 & H2 & H7).
  { rewrite Hu. clear -Hop Hrd Hx. split; try done; Z.to_euclidean_division_equations; lia. }
  split_and!; [lia|lia|done|done|]. rewrite imm_u_fields, H3, H1, H2, H7 by done.
  replace (_ + _ + _ + _) with x.
  - unfold x. by rewrite imm_of_wrap by done.
  - rewrite Hu. clear -Hx. Z.to_euclidean_division_equations. lia.
Qed.

(** ** What is decoded was encoded *)

(** Reads off the tests that led to a result. *)
Ltac decided H :=
  repeat match type of H with
  | context [?a =? ?b] => destruct (Z.eqb_spec a b); cbn [andb] in H
  end; try discriminate H; injection H as <-.

Ltac registers H :=
  repeat match type of H with
  | context [from_bits ?b] =>
      let E := fresh "Hreg" in
      destruct (from_bits b) eqn:E; [apply from_bits_Some in E|discriminate H];
      cbn [mbind option_bind] in H
  end.

Section sound.
Context {R : Type} `{RegisterLaws R}.
Implicit Types i : Rv64Instruction R.

Lemma offset_32 (r : R) : 0 <= offset r < 32.
Proof. pose proof (offset_range r). pose proof num_regs_32. lia. Qed.

Lemma decode_r_sound w i :
  0 <= w < 2 ^ 32 -> opcode_of w = 0x33 -> decode_r w = Some i -> wf i /\ encode i = w.
Proof.
  intros Hw Hop Hd. destruct (word_fields w Hw) as [_ Heq]. unfold decode_r in Hd. registers Hd.
  decided Hd; (split; [done|]); (etransitivity; [|symmetry; exact Heq]); cbn; unfold r_type; congruence.
Qed.

Lemma decode_rw_sound w i :
  0 <= w < 2 ^ 32 -> opcode_of w = 0x3b -> decode_rw w = Some i -> wf i /\ encode i = w.
Proof.
  intros Hw Hop Hd. destruct (word_fields w Hw) as [_ Heq]. unfold decode_rw in Hd. registers Hd.
  decided Hd; (split; [done|]); (etransitivity; [|symmetry; exact Heq]); cbn; unfold r_type; congruence.
Qed.

Lemma decode_load_sound w i :
  0 <= w < 2 ^ 32 -> opcode_of w = 3 -> decode_load w = Some i -> wf i /\ encode i = w.
Proof.
  intros Hw Hop Hd. destruct (i_type_imm w Hw) as [Hr Heq]. unfold decode_load in Hd. registers Hd.
  decided Hd; (split; [done|]); (etransitivity; [|exact Heq]); cbn [encode]; congruence.
Qed.

Lemma decode_jalr_sound w i :
  0 <= w < 2 ^ 32 -> opcode_of w = 0x67 -> decode_jalr w = Some i -> wf i /\ encode i = w.
Proof.
  intros Hw Hop Hd. destruct (i_type_imm w Hw) as [Hr Heq]. unfold decode_jalr in Hd. registers Hd.
  decided Hd; (split; [done|]); (etransitivity; [|exact Heq]); cbn [encode]; congruence.
Qed.

Lemma sh_type_word w f6 (rd rs1 : R) :
  0 <= w < 2 ^ 32 -> rd_bits_of w = offset rd -> rs1_bits_of w = offset rs1 ->
  Z.land (Z.shiftr w 26) 0x3f = f6 ->
  let shamt := Z.land (wrap 8 (Z.shiftr w 20)) 0x3f in
  0 <= shamt < 64 /\ sh_type (opcode_of w) (funct3_of w) f6 rd rs1 shamt = w.
Proof.
  intros Hw Hrd Hrs1 Hf6. destruct (word_fields w Hw) as [[_ _ _ _ Hrs2 Hf7] Heq].
  destruct (shamt6_fields w Hw) as [-> Hf]. rewrite Hf in Hf6. clear Hf. cbv zeta. split.
  { clear -Hrs2 Hf7. Z.to_euclidean_division_equations. lia. }
  etransitivity; [|symmetry; exact Heq]. unfold sh_type. rewrite <- Hrd, <- Hrs1, <- Hf6. clear -Hrs2 Hf7.
  f_equal; Z.to_euclidean_division_equations; lia.
Qed.

Lemma decode_i_sound w i :
  0 <= w < 2 ^ 32 -> opcode_of w = 0x13 -> decode_i w = Some i -> wf i /\ encode i = w.
Proof.
  intros Hw Hop Hd. destruct (i_type_imm w Hw) as [Hr Heq]. unfold decode_i in Hd. registers Hd.
  cbv zeta in Hd. decided Hd;
    first [split; [done|]; etransitivity; [|exact Heq]; cbn [encode]; congruence
          |cbn [wf encode]; rewrite <- Hop;
           match goal with E : funct3_of w = _ |- _ => rewrite <- E end; by apply sh_type_word].
Qed.

Lemma decode_iw_sound w i :
  0 <= w < 2 ^ 32 -> opcode_of w = 0x1b -> decode_iw w = Some i -> wf i /\ encode i = w.
Proof.
  intros Hw Hop Hd. destruct (i_type_imm w Hw) as [Hr Heq]. unfold decode_iw in Hd. registers Hd.
  cbv zeta in Hd. rewrite (shamt5_fields w Hw) in Hd. destruct (word_fields w Hw) as [[_ _ _ _ Hrs2 _] Hword].
  decided Hd; (split; [done|]);
    first [etransitivity; [|exact Heq]; cbn [encode]; congruence
          |etransitivity; [|symmetry; exact Hword]; cbn [encode]; congruence].
Qed.

Lemma decode_s_sound w i :
  0 <= w < 2 ^ 32 -> opcode_of w = 0x23 -> decode_s w = Some i -> wf i /\ encode i = w.
Proof.
  intros Hw Hop Hd. destruct (s_type_imm w Hw) as [Hr Heq]. unfold decode_s in Hd. registers Hd.
  decided Hd; (split; [done|]); (etransitivity; [|exact Heq]); cbn [encode]; congruence.
Qed.

Lemma i24_of_imm n imm :
  0 < n <= 24 -> - 2 ^ (n - 1) <= imm < 2 ^ (n - 1) ->
  i24_wf (i24_from_i32 imm) /\ i24_to_i32 (i24_from_i32 imm) = imm.
Proof.
  intros Hn Himm. split; [split_and!; apply le_byte_is_byte|]. rewrite i24_roundtrip.
  apply signed_small; [lia|]. pose proof (Z.pow_le_mono_r 2 (n - 1) (24 - 1) ltac:(lia) ltac:(lia)). lia.
Qed.

Lemma decode_b_sound w i :
  0 <= w < 2 ^ 32 -> opcode_of w = 0x63 -> decode_b w = Some i -> wf i /\ encode i = w.
Proof.
  intros Hw Hop Hd. destruct (b_type_imm w Hw) as [[Hr He] Heq].
  destruct (i24_of_imm 13 (imm_b w) ltac:(lia) Hr) as [Hwf Hi]. unfold decode_b in Hd. registers Hd.
  decided Hd; cbn [wf encode]; rewrite Hi; (split; [done|]);
    (etransitivity; [|exact Heq]); congruence.
Qed.

Lemma i_type_word w imm :
  0 <= w < 2 ^ 32 -> rs2_bits_of w + 32 * funct7_of w = imm ->
  i_type (opcode_of w) (funct3_of w) (rd_bits_of w) (rs1_bits_of w) imm = w.
Proof.
  intros Hw Himm. destruct (word_fields w Hw) as [[_ _ _ _ Hrs2 Hf7] Heq].
  etransitivity; [|symmetry; exact Heq]. unfold i_type. rewrite wrap_small by lia.
  f_equal; Z.to_euclidean_division_equations; lia.
Qed.

Lemma decode_fence_sound w i :
  0 <= w < 2 ^ 32 -> opcode_of w = 0xf -> decode_fence w = Some i -> wf i /\ encode i = w.
Proof.
  intros Hw Hop Hd. destruct (word_fields w Hw) as [[_ _ _ _ Hrs2 Hf7] _].
  destruct (fence_fields w Hw) as (Hfm & Hpred & Hsucc). unfold decode_fence in Hd. cbv zeta in Hd.
  rewrite Hfm, Hpred, Hsucc in Hd.
  decided Hd; cbn [wf encode];
    (split; [split || done; clear -Hrs2 Hf7; Z.to_euclidean_division_equations; lia|]);
    (etransitivity; [|apply (i_type_word w _ Hw eq_refl)]); f_equal; try congruence;
    clear Hfm Hpred Hsucc Hop Hw; Z.to_euclidean_division_equations; lia.
Qed.

Lemma decode_system_sound w i :
  0 <= w < 2 ^ 32 -> opcode_of w = 0x73 -> decode_system w = Some i -> wf i /\ encode i = w.
Proof.
  intros Hw Hop Hd. unfold decode_system in Hd. cbv zeta in Hd. rewrite (system_fields w Hw) in Hd.
  decided Hd; (split; [done|]); 
    match goal with E : rs2_bits_of w + _ = _ |- _ => rewrite <- (i_type_word w _ Hw E) end;
    cbn [encode]; congruence.
Qed.

Lemma try_decode_sound w i :
  0 <= w < 2 ^ 32 -> try_decode w = Some i -> wf i /\ encode i = w.
Proof.
  intros Hw. unfold try_decode. cbv zeta.
  repeat case_match; rewrite ?Z.eqb_eq in *; try done;
    eauto using decode_r_sound, decode_rw_sound, decode_i_sound, decode_iw_sound, decode_load_sound,
      decode_jalr_sound, decode_s_sound, decode_b_sound, decode_fence_sound, decode_system_sound;
    intros Hd; registers Hd; injection Hd as <-; cbn [wf encode].
  - destruct (u_type_imm w Hw) as (Hwf & Hto & Heq). rewrite Hto. split; [done|congruence].
  - destruct (u_type_imm w Hw) as (Hwf & Hto & Heq). rewrite Hto. split; [done|congruence].
  - destruct (j_type_imm w Hw) as [[Hr He] Heq].
    destruct (i24_of_imm 21 (imm_j w) ltac:(lia) Hr) as [Hwf Hi]. rewrite Hi. split; [done|congruence].
Qed.
End sound.

(** ** What is encoded is decoded *)

Section complete.
Context {R : Type} `{RegisterLaws R}.

Definition decodes (w : Z) (i : Rv64Instruction R) : Prop := 0 <= w < 2 ^ 32 /\ try_decode w = Some i.

Lemma r_type_fields op f3 f7 (rd rs1 rs2 : R) :
  0 <= op < 128 -> 0 <= f3 < 8 -> 0 <= f7 < 128 ->
  let w := r_type op f3 f7 rd rs1 rs2 in
  0 <= w < 2 ^ 32 /\ opcode_of w = op /\ rd_bits_of w = offset rd /\ funct3_of w = f3 /\
  rs1_bits_of w = offset rs1 /\ rs2_bits_of w = offset rs2 /\ funct7_of w = f7.
Proof. intros. apply fields_word. split; done || apply offset_32. Qed.

Ltac decode_with Ho Hr H3 H1 H2 H7 :=
  unfold try_decode; rewrite Ho; cbn [Z.eqb Pos.eqb];
  unfold decode_r, decode_rw, decode_i, decode_iw, decode_load, decode_jalr, decode_s, decode_b;
  rewrite ?Hr, ?H3, ?H1, ?H2, ?H7, ?from_bits_offset; cbn [mbind option_bind].

Lemma r_type_complete op f3 f7 (rd rs1 rs2 : R) i :
  0 <= op < 128 -> 0 <= f3 < 8 -> 0 <= f7 < 128 ->
  (forall w, opcode_of w = op -> rd_bits_of w = offset rd -> funct3_of w = f3 ->
     rs1_bits_of w = offset rs1 -> rs2_bits_of w = offset rs2 -> funct7_of w = f7 ->
     try_decode w = Some i) ->
  decodes (r_type op f3 f7 rd rs1 rs2) i.
Proof.
  intros Hop Hf3 Hf7 Hd.
  destruct (r_type_fields op f3 f7 rd rs1 rs2 Hop Hf3 Hf7) as (Hw & Ho & Hr & H3 & H1 & H2 & H7).
  split; [done|by apply Hd].
Qed.

Lemma i_type_complete op f3 (rd rs1 : R) imm i :
  0 <= op < 128 -> 0 <= f3 < 8 -> - 2 ^ 11 <= imm < 2 ^ 11 ->
  (forall w, opcode_of w = op -> rd_bits_of w = offset rd -> funct3_of w = f3 ->
     rs1_bits_of w = offset rs1 -> imm_i w = imm -> try_decode w = Some i) ->
  decodes (i_type op f3 (offset rd) (offset rs1) imm) i.
Proof.
  intros Hop Hf3 Himm Hd. pose proof (offset_32 rd) as Hoff_rd. pose proof (offset_32 rs1) as Hoff_rs1.
  destruct (i_type_fields op f3 (offset rd) (offset rs1) imm) as (Hw & Ho & Hr & H3 & H1 & _); [done..|].
  split; [done|]. apply Hd; try done. by apply i_type_decode.
Qed.

Lemma sh_type_complete f3 f6 (rd rs1 : R) shamt i :
  0 <= f3 < 8 -> 0 <= f6 < 64 -> 0 <= shamt < 64 ->
  (forall w, opcode_of w = 0x13 -> rd_bits_of w = offset rd -> funct3_of w = f3 ->
     rs1_bits_of w = offset rs1 -> Z.land (Z.shiftr w 26) 0x3f = f6 ->
     Z.land (wrap 8 (Z.shiftr w 20)) 0x3f = shamt -> try_decode w = Some i) ->
  decodes (sh_type 0x13 f3 f6 rd rs1 shamt) i.
Proof.
  intros Hf3 Hf6 Hsh Hd. pose proof (offset_32 rd) as Hoff_rd. pose proof (offset_32 rs1) as Hoff_rs1.
  destruct (fields_word 0x13 (offset rd) f3 (offset rs1) (shamt mod 32) (shamt / 32 + 2 * f6))
    as (Hw & Ho & Hr & H3 & H1 & H2 & H7).
  { split; try lia; Z.to_euclidean_division_equations; lia. }
  split; [done|]. destruct (shamt6_fields _ Hw) as [Hs Hf]. rewrite H2, H7 in Hs. rewrite H7 in Hf.
  unfold sh_type. apply Hd; try done.
  - rewrite Hf. clear -Hsh Hf6. Z.to_euclidean_division_equations. lia.
  - rewrite Hs. clear -Hsh Hf6. Z.to_euclidean_division_equations. lia.
Qed.

Lemma shw_type_complete f3 f7 (rd rs1 : R) shamt i :
  0 <= f3 < 8 -> 0 <= f7 < 128 -> 0 <= shamt < 32 ->
  (forall w, opcode_of w = 0x1b -> rd_bits_of w = offset rd -> funct3_of w = f3 ->
     rs1_bits_of w = offset rs1 -> funct7_of w = f7 ->
     Z.land (wrap 8 (Z.shiftr w 20)) 0x1f = shamt -> try_decode w = Some i) ->
  decodes (word 0x1b (offset rd) f3 (offset rs1) shamt f7) i.
Proof.
  intros Hf3 Hf7 Hsh Hd. pose proof (offset_32 rd) as Hoff_rd. pose proof (offset_32 rs1) as Hoff_rs1.
  destruct (fields_word 0x1b (offset rd) f3 (offset rs1) shamt f7) as (Hw & Ho & Hr & H3 & H1 & H2 & H7).
  { by split. }
  split; [done|]. apply Hd; try done. by rewrite shamt5_fields.
Qed.

Lemma s_type_complete f3 (rs2 rs1 : R) imm i :
  0 <= f3 < 8 -> - 2 ^ 11 <= imm < 2 ^ 11 ->
  (forall w, opcode_of w = 0x23 -> funct3_of w = f3 -> rs1_bits_of w = offset rs1 ->
     rs2_bits_of w = offset rs2 -> imm_s w = imm -> try_decode w = Some i) ->
  decodes (s_type 0x23 f3 (offset rs1) (offset rs2) imm) i.
Proof.
  intros Hf3 Himm Hd. pose proof (offset_32 rs1) as Hoff_rs1. pose proof (offset_32 rs2) as Hoff_rs2.
  destruct (s_type_decode 0x23 f3 (offset rs1) (offset rs2) imm) as (Hw & Ho & H3 & H1 & H2 & Hi); [done..|].
  split; [done|]. by apply Hd.
Qed.

Lemma b_type_complete f3 (rs1 rs2 : R) (imm : I24) i :
  0 <= f3 < 8 -> i24_wf imm -> - 2 ^ 12 <= i24_to_i32 imm < 2 ^ 12 -> i24_to_i32 imm mod 2 = 0 ->
  (forall w, opcode_of w = 0x63 -> funct3_of w = f3 -> rs1_bits_of w = offset rs1 ->
     rs2_bits_of w = offset rs2 -> i24_from_i32 (imm_b w) = imm -> try_decode w = Some i) ->
  decodes (b_type 0x63 f3 (offset rs1) (offset rs2) (i24_to_i32 imm)) i.
Proof.
  intros Hf3 Hwf Himm He Hd. pose proof (offset_32 rs1) as Hoff_rs1. pose proof (offset_32 rs2) as Hoff_rs2.
  destruct (b_type_decode 0x63 f3 (offset rs1) (offset rs2) (i24_to_i32 imm))
    as (Hw & Ho & H3 & H1 & H2 & Hi); [done..|].
  split; [done|]. apply Hd; try done. rewrite Hi. by apply i24_from_to.
Qed.

Lemma u_type_complete op (rd : R) (imm : I24Zeroed) i :
  0 <= op < 128 -> i24z_wf imm ->
  (forall w, opcode_of w = op -> rd_bits_of w = offset rd -> i24z_from_i32 12 (imm_u w) = imm ->
     try_decode w = Some i) ->
  decodes (u_type op (offset rd) (i24z_to_i32 12 imm)) i.
Proof.
  intros Hop Hwf Hd. destruct (u_type_decode op (offset rd) imm Hop (offset_32 rd) Hwf) as (Hw & Ho & Hr & Hi).
  split; [done|]. apply Hd; try done. rewrite Hi. by apply i24z_from_to.
Qed.

Lemma jal_complete (rd : R) (imm : I24) :
  wf (Jal rd imm) -> decodes (j_type 0x6f (offset rd) (i24_to_i32 imm)) (Jal rd imm).
Proof.
  intros (Hwf & Hr & He).
  destruct (j_type_decode 0x6f (offset rd) (i24_to_i32 imm) ltac:(lia) (offset_32 rd) Hr He)
    as (Hw & Ho & Hrd & Hi).
  split; [done|]. decode_with Ho Hrd Hi Hi Hi Hi. by rewrite i24_from_to.
Qed.

Lemma fence_complete pred succ :
  wf (Fence (R := R) pred succ) -> decodes (i_type 0xf 0 0 0 (16 * pred + succ)) (Fence pred succ).
Proof.
  intros [Hp Hs]. destruct (i_type_fields 0xf 0 0 0 (16 * pred + succ)) as (Hw & Ho & Hr & H3 & H1 & H2 & H7);
    [lia..|].
  split; [done|]. unfold try_decode. rewrite Ho. cbn [Z.eqb Pos.eqb]. unfold decode_fence.
  destruct (fence_fields _ Hw) as (-> & -> & ->). rewrite Hr, H3, H1, H2, H7, wrap_small by lia.
  cbn [Z.eqb andb]. replace ((16 * pred + succ) / 32 / 8) with 0 by (Z.to_euclidean_division_equations; lia).
  cbn [Z.eqb]. do 2 f_equal; Z.to_euclidean_division_equations; lia.
Qed.

Lemma encode_decodes (i : Rv64Instruction R) : wf i -> decodes (encode i) i.
Proof.
  intros Hwf. destruct i; cbn [encode]; cbn [wf] in Hwf;
    first
    [ apply r_type_complete; [done..|]; intros w Ho Hr H3 H1 H2 H7; by decode_with Ho Hr H3 H1 H2 H7
    | apply i_type_complete; [done..|]; intros w Ho Hr H3 H1 Hi; by decode_with Ho Hr H3 H1 Hi Hi
    | apply sh_type_complete; [done..|]; intros w Ho Hr H3 H1 H6 Hs; by decode_with Ho Hr H3 H1 H6 Hs
    | apply shw_type_complete; [done..|]; intros w Ho Hr H3 H1 H7 Hs; by decode_with Ho Hr H3 H1 H7 Hs
    | apply s_type_complete; [done..|]; intros w Ho H3 H1 H2 Hi; by decode_with Ho H3 H1 H2 Hi Hi
    | destruct Hwf as (Hwf & Hr & He);
      apply b_type_complete; [done..|]; intros w Ho H3 H1 H2 Hi; by decode_with Ho H3 H1 H2 Hi Hi
    | by apply (u_type_complete 0x37); [lia|done|intros w Ho Hr Hi; decode_with Ho Hr Hi Hi Hi Hi]
    | by apply (u_type_complete 0x17); [lia|done|intros w Ho Hr Hi; decode_with Ho Hr Hi Hi Hi Hi]
    | by apply jal_complete
    | by apply fence_complete
    | by split; [|reflexivity] ].
Qed.

Lemma try_decode_m_sound w (i : Rv64MInstruction R) :
  0 <= w < 2 ^ 32 -> try_decode_m w = Some i -> encode_m i = w /\ funct7_of w = 1.
Proof.
  intros Hw. destruct (word_fields w Hw) as [_ Heq]. unfold try_decode_m. cbv zeta.
  case_match eqn:Ho; [|case_match eqn:Ho'; [|done]]; intros Hd; rewrite ?Z.eqb_eq in *;
    unfold decode_m, decode_mw in Hd; registers Hd; decided Hd;
    (split; [|done]); (etransitivity; [|symmetry; exact Heq]); cbn; unfold r_type; congruence.
Qed.

Lemma encode_m_decodes (i : Rv64MInstruction R) :
  0 <= encode_m i < 2 ^ 32 /\ try_decode_m (encode_m i) = Some i.
Proof.
  destruct i; cbn [encode_m];
    match goal with |- context [r_type ?op ?f3 ?f7 ?rd ?rs1 ?rs2] =>
      destruct (r_type_fields op f3 f7 rd rs1 rs2) as (Hw & Ho & Hr & H3 & H1 & H2 & H7); [done..|]
    end;
    (split; [done|]); unfold try_decode_m; rewrite Ho; cbn [Z.eqb Pos.eqb]; unfold decode_m, decode_mw;
    rewrite Hr, H3, H1, H2, H7, !from_bits_offset; done.
Qed.

Lemma decoders_disjoint w (i : Rv64Instruction R) (j : Rv64MInstruction R) :
  0 <= w < 2 ^ 32 -> try_decode w = Some i -> try_decode_m w = Some j -> False.
Proof.
  intros Hw Hi Hm. destruct (try_decode_m_sound w j Hw Hm) as [_ H7].
  unfold try_decode_m in Hm. unfold try_decode in Hi. cbv zeta in Hm, Hi.
  case_match eqn:Ho; [|case_match eqn:Ho'; [|done]];
    unfold decode_r, decode_rw in Hi; registers Hi; decided Hi; lia.
Qed.

(** C6. Decoding of RV64I and of the M extension is exact: a 32-bit word decodes to an
    instruction if and only if it is the encoding that the specification gives to that
    instruction with operands in range, for the full register set and for the reduced
    one; and no word is an instruction of both. *)
Theorem try_decode_exact w (i : Rv64Instruction R) (j : Rv64MInstruction R) :
  0 <= w < 2 ^ 32 ->
  (try_decode w = Some i <-> wf i /\ encode i = w) /\
  (try_decode_m w = Some j <-> encode_m j = w) /\
  ~ (try_decode w = Some i /\ try_decode_m w = Some j).
Proof.
  intros Hw. split_and!; [split|split|].
  - by apply try_decode_sound.
  - intros [Hwf <-]. by apply encode_decodes.
  - intros Hd. by apply try_decode_m_sound.
  - intros <-. apply encode_m_decodes.
  - intros [Hi Hj]. by apply (decoders_disjoint w i j).
Qed.
End complete.

(** ** Witnesses *)

(** [addi a0, a0, -1] against [remu a0, a1, a2] *)
Lemma try_decode_exact_witness :
  (try_decode 0xfff50513 = Some (Addi A0 A0 (-1)) <->
     wf (Addi A0 A0 (-1)) /\ encode (Addi A0 A0 (-1)) = 0xfff50513) /\
  (try_decode_m 0xfff50513 = Some (Remu A0 A1 A2) <-> encode_m (Remu A0 A1 A2) = 0xfff50513) /\
  ~ (try_decode 0xfff50513 = Some (Addi A0 A0 (-1)) /\ try_decode_m 0xfff50513 = Some (Remu A0 A1 A2)).
Proof. apply (try_decode_exact (R := Reg) 0xfff50513 (Addi A0 A0 (-1)) (Remu A0 A1 A2)). lia. Defined.
End Rv64Encoding.
