(* ===== verification/Rv64Exec.v ===== *)
(** * Execution of RV64I and of the M extension

    Model of the [execute] methods in
    [crates/execution/ab-riscv-interpreter/src/rv64.rs] and [.../rv64/m.rs], generic as the
    source is in the register file, the memory, the program counter and the handler of
    system instructions.  [execute] takes the operand values and the machine state and
    gives the new state with what the method returns; the state is also changed when
    the result is an error, as the source changes it through mutable references. *)

From S2P Require Import Prelude RvInt RvRegisters RvMemory Rv64Decode Rv64Encoding.
From stdpp Require Import prelude.
From Stdlib Require Import ZArith Lia.
Local Open Scope Z_scope.

Module Rv64Exec.
Import RvInt RvRegisters RvMemory Rv64 Rv64Encoding.

(** [ProgramCounterError], [ExecutionError] and [ControlFlow<(), A>] *)
Inductive pc_error : Type :=
| UnalignedInstruction (address : Z)
| PcMemoryAccess (e : memory_error).

Inductive execution_error : Type :=
| ProgramCounterE (e : pc_error)
| MemoryAccess (e : memory_error)
| EcallUnsupported (address : Z)
| IllegalInstruction (address : Z)
| InvalidInstruction (address instruction : Z).

Inductive control_flow (A : Type) : Type :=
| Continue (a : A)
| Break.
Arguments Continue {A} a.
Arguments Break {A}.

(** [ProgramCounter] *)
Class ProgramCounter (PC Mem : Type) : Type := {
  get_pc : PC -> Z;
  set_pc : PC -> Mem -> Z -> PC * result (control_flow unit) pc_error
}.

(** The subtraction panics on underflow. *)
Definition old_pc {PC Mem} `{ProgramCounter PC Mem} (pc : PC) (instruction_size : Z) : outcome Z :=
  if get_pc pc <? instruction_size then Fault else Ret (get_pc pc - instruction_size).

(** [SystemInstructionHandler] *)
Class SystemInstructionHandler (H Regs Mem PC : Type) : Type := {
  handle_fence : H -> Z -> Z -> H;
  handle_fence_tso : H -> H;
  handle_ecall : H -> Regs -> Mem -> PC ->
    outcome (H * Regs * Mem * PC * result (control_flow unit) execution_error);
  handle_ebreak : H -> Regs -> Mem -> Z -> H * Regs * Mem
}.

(** What [execute] borrows mutably. *)
Record machine (Regs Mem PC H : Type) : Type := Machine {
  m_regs : Regs;
  m_memory : Mem;
  m_pc : PC;
  m_handler : H
}.
Arguments Machine {Regs Mem PC H} _ _ _ _.
Arguments m_regs {Regs Mem PC H} _.
Arguments m_memory {Regs Mem PC H} _.
Arguments m_pc {Regs Mem PC H} _.
Arguments m_handler {Regs Mem PC H} _.

(** [x << n] and [x >> n] panic when [n] reaches the width. *)
Definition shl (width x n : Z) : outcome Z :=
  if n <? width then Ret (wrap width (Z.shiftl x n)) else Fault.
Definition shr (width x n : Z) : outcome Z :=
  if n <? width then Ret (Z.shiftr x n) else Fault.

Definition bool_z (b : bool) : Z := if b then 1 else 0.

(** [i64::from(x).cast_unsigned()] *)
Definition sext (x : Z) : Z := wrap 64 x.

Section execute.
Context {R Regs Mem PC H : Type} `{Register R} `{!RegisterFile R Regs} `{!VirtualMemory Mem}
  `{!ProgramCounter PC Mem} `{!SystemInstructionHandler H Regs Mem PC}.

(** R-type *)
Definition execute_r (i : Rv64Instruction R) (rs1_value rs2_value : Z) : option (outcome (R * Z)) :=
  match i with
  | Add rd _ _ => Some (Ret (rd, wrap 64 (rs1_value + rs2_value)))
  | Sub rd _ _ => Some (Ret (rd, wrap 64 (rs1_value - rs2_value)))
  | Sll rd _ _ => Some (let! v := shl 64 rs1_value (Z.land rs2_value 0x3f) in Ret (rd, v))
  | Slt rd _ _ => Some (Ret (rd, bool_z (signed 64 rs1_value <? signed 64 rs2_value)))
  | Sltu rd _ _ => Some (Ret (rd, bool_z (rs1_value <? rs2_value)))
  | Xor rd _ _ => Some (Ret (rd, Z.lxor rs1_value rs2_value))
  | Srl rd _ _ => Some (let! v := shr 64 rs1_value (Z.land rs2_value 0x3f) in Ret (rd, v))
  | Sra rd _ _ =>
      Some (let! v := shr 64 (signed 64 rs1_value) (Z.land rs2_value 0x3f) in Ret (rd, wrap 64 v))
  | Or rd _ _ => Some (Ret (rd, Z.lor rs1_value rs2_value))
  | And rd _ _ => Some (Ret (rd, Z.land rs1_value rs2_value))
  | _ => None
  end.

(** R-type on the low 32 bits *)
Definition execute_rw (i : Rv64Instruction R) (rs1_value rs2_value : Z) : option (outcome (R * Z)) :=
  match i with
  | Addw rd _ _ => Some (Ret (rd, sext (signed 32 (signed 32 rs1_value + signed 32 rs2_value))))
  | Subw rd _ _ => Some (Ret (rd, sext (signed 32 (signed 32 rs1_value - signed 32 rs2_value))))
  | Sllw rd _ _ =>
      Some (let! v := shl 32 (wrap 32 rs1_value) (Z.land rs2_value 0x1f) in Ret (rd, sext (signed 32 v)))
  | Srlw rd _ _ =>
      Some (let! v := shr 32 (wrap 32 rs1_value) (Z.land rs2_value 0x1f) in Ret (rd, sext (signed 32 v)))
  | Sraw rd _ _ =>
      Some (let! v := shr 32 (signed 32 rs1_value) (Z.land rs2_value 0x1f) in Ret (rd, sext v))
  | _ => None
  end.

(** I-type *)
Definition execute_i (i : Rv64Instruction R) (rs1_value : Z) : option (outcome (R * Z)) :=
  match i with
  | Addi rd _ imm => Some (Ret (rd, wrap 64 (rs1_value + sext imm)))
  | Slti rd _ imm => Some (Ret (rd, bool_z (signed 64 rs1_value <? imm)))
  | Sltiu rd _ imm => Some (Ret (rd, bool_z (rs1_value <? sext imm)))
  | Xori rd _ imm => Some (Ret (rd, Z.lxor rs1_value (sext imm)))
  | Ori rd _ imm => Some (Ret (rd, Z.lor rs1_value (sext imm)))
  | Andi rd _ imm => Some (Ret (rd, Z.land rs1_value (sext imm)))
  | Slli rd _ shamt => Some (let! v := shl 64 rs1_value shamt in Ret (rd, v))
  | Srli rd _ shamt => Some (let! v := shr 64 rs1_value shamt in Ret (rd, v))
  | Srai rd _ shamt => Some (let! v := shr 64 (signed 64 rs1_value) shamt in Ret (rd, wrap 64 v))
  | Addiw rd _ imm => Some (Ret (rd, sext (signed 32 (signed 32 rs1_value + imm))))
  | Slliw rd _ shamt =>
      Some (let! v := shl 32 (wrap 32 rs1_value) shamt in Ret (rd, sext (signed 32 v)))
  | Srliw rd _ shamt =>
      Some (let! v := shr 32 (wrap 32 rs1_value) shamt in Ret (rd, sext (signed 32 v)))
  | Sraiw rd _ shamt => Some (let! v := shr 32 (signed 32 rs1_value) shamt in Ret (rd, sext v))
  | _ => None
  end.

Abbreviation state := (machine Regs Mem PC H).
Abbreviation exec_result := (result (control_flow (R * Z)) execution_error).

Definition with_regs (s : state) (r : Regs) : state := Machine r (m_memory s) (m_pc s) (m_handler s).
Definition with_memory (s : state) (m : Mem) : state := Machine (m_regs s) m (m_pc s) (m_handler s).
Definition with_pc (s : state) (p : PC) : state := Machine (m_regs s) (m_memory s) p (m_handler s).
Definition with_handler (s : state) (h : H) : state := Machine (m_regs s) (m_memory s) (m_pc s) h.

(** [Ok(ControlFlow::Continue(Default::default()))] *)
Definition continue_default : exec_result := Ok (Continue (ZERO, 0)).

(** [control_flow.map_continue(|()| Default::default())] and [ExecutionError::from] *)
Definition from_set_pc (r : result (control_flow unit) pc_error) : exec_result :=
  match r with
  | Ok (Continue _) => continue_default
  | Ok Break => Ok Break
  | Err e => Err (ProgramCounterE e)
  end.

(** A load of [n] bytes; [extend] is the conversion of what was read to 64 bits. *)
Definition load (s : state) (rd : R) (n : nat) (extend : Z -> Z) (addr : Z)
    : outcome (state * exec_result) :=
  let! r := mem_read n (m_memory s) addr in
  Ret (s, match r with Ok v => Ok (Continue (rd, extend v)) | Err e => Err (MemoryAccess e) end).

Definition execute_load (i : Rv64Instruction R) (rs1_value : Z) (s : state)
    : option (outcome (state * exec_result)) :=
  match i with
  | Lb rd _ imm => Some (load s rd 1 (fun v => sext (signed 8 v)) (wrap 64 (rs1_value + sext imm)))
  | Lh rd _ imm => Some (load s rd 2 (fun v => sext (signed 16 v)) (wrap 64 (rs1_value + sext imm)))
  | Lw rd _ imm => Some (load s rd 4 (fun v => sext (signed 32 v)) (wrap 64 (rs1_value + sext imm)))
  | Ld rd _ imm => Some (load s rd 8 (fun v => v) (wrap 64 (rs1_value + sext imm)))
  | Lbu rd _ imm => Some (load s rd 1 (fun v => v) (wrap 64 (rs1_value + sext imm)))
  | Lhu rd _ imm => Some (load s rd 2 (fun v => v) (wrap 64 (rs1_value + sext imm)))
  | Lwu rd _ imm => Some (load s rd 4 (fun v => v) (wrap 64 (rs1_value + sext imm)))
  | _ => None
  end.

Definition store (s : state) (n : nat) (addr value : Z) : outcome (state * exec_result) :=
  let! r := mem_write n (m_memory s) addr value in
  Ret (match r with
       | Ok m => (with_memory s m, continue_default)
       | Err e => (s, Err (MemoryAccess e))
       end).

Definition execute_store (i : Rv64Instruction R) (rs1_value rs2_value : Z) (s : state)
    : option (outcome (state * exec_result)) :=
  match i with
  | Sb _ _ imm => Some (store s 1 (wrap 64 (rs1_value + sext imm)) (wrap 8 rs2_value))
  | Sh _ _ imm => Some (store s 2 (wrap 64 (rs1_value + sext imm)) (wrap 16 rs2_value))
  | Sw _ _ imm => Some (store s 4 (wrap 64 (rs1_value + sext imm)) (wrap 32 rs2_value))
  | Sd _ _ imm => Some (store s 8 (wrap 64 (rs1_value + sext imm)) rs2_value)
  | _ => None
  end.

(** Jump relative to the instruction that is executing. *)
Definition jump_relative (s : state) (imm : Z) : outcome (state * exec_result) :=
  let! old := old_pc (m_pc s) 4 in
  let (pc, r) := set_pc (m_pc s) (m_memory s) (wrap 64 (old + sext imm)) in
  Ret (with_pc s pc, from_set_pc r).

Definition branch (s : state) (taken : bool) (imm : I24) : outcome (state * exec_result) :=
  if taken then jump_relative s (i24_to_i32 imm) else Ret (s, continue_default).

Definition execute_branch (i : Rv64Instruction R) (rs1_value rs2_value : Z) (s : state)
    : option (outcome (state * exec_result)) :=
  match i with
  | Beq _ _ imm => Some (branch s (rs1_value =? rs2_value) imm)
  | Bne _ _ imm => Some (branch s (negb (rs1_value =? rs2_value)) imm)
  | Blt _ _ imm => Some (branch s (signed 64 rs1_value <? signed 64 rs2_value) imm)
  | Bge _ _ imm => Some (branch s (signed 64 rs2_value <=? signed 64 rs1_value) imm)
  | Bltu _ _ imm => Some (branch s (rs1_value <? rs2_value) imm)
  | Bgeu _ _ imm => Some (branch s (rs2_value <=? rs1_value) imm)
  | _ => None
  end.

(** Jumps that link; the link register is written before the jump is attempted. *)
Definition execute_jalr (s : state) (rd : R) (imm rs1_value : Z) : outcome (state * exec_result) :=
  let target := Z.land (wrap 64 (rs1_value + sext imm)) (2 ^ 64 - 2) in
  let! regs := reg_write (m_regs s) rd (get_pc (m_pc s)) in
  let (pc, r) := set_pc (m_pc s) (m_memory s) target in
  Ret (with_pc (with_regs s regs) pc, from_set_pc r).

Definition execute_jal (s : state) (rd : R) (imm : Z) : outcome (state * exec_result) :=
  let pc := get_pc (m_pc s) in
  let! old := old_pc (m_pc s) 4 in
  let! regs := reg_write (m_regs s) rd pc in
  let (pc, r) := set_pc (m_pc s) (m_memory s) (wrap 64 (old + sext imm)) in
  Ret (with_pc (with_regs s regs) pc, from_set_pc r).

Definition execute_ecall (s : state) : outcome (state * exec_result) :=
  let! (h, regs, mem, pc, r) := handle_ecall (m_handler s) (m_regs s) (m_memory s) (m_pc s) in
  Ret (Machine regs mem pc h,
       match r with
       | Ok (Continue _) => continue_default
       | Ok Break => Ok Break
       | Err e => Err e
       end).

Definition execute_ebreak (s : state) : outcome (state * exec_result) :=
  let '(h, regs, mem) := handle_ebreak (m_handler s) (m_regs s) (m_memory s) (get_pc (m_pc s)) in
  Ret (Machine regs mem (m_pc s) h, continue_default).

(** The remaining instructions; the last case is [Unimp]. *)
Definition execute_other (i : Rv64Instruction R) (rs1_value : Z) (s : state)
    : outcome (state * exec_result) :=
  match i with
  | Jalr rd _ imm => execute_jalr s rd imm rs1_value
  | Lui rd imm => Ret (s, Ok (Continue (rd, sext (i24z_to_i32 12 imm))))
  | Auipc rd imm =>
      let! old := old_pc (m_pc s) 4 in
      Ret (s, Ok (Continue (rd, wrap 64 (old + sext (i24z_to_i32 12 imm)))))
  | Jal rd imm => execute_jal s rd (i24_to_i32 imm)
  | Fence pred succ => Ret (with_handler s (handle_fence (m_handler s) pred succ), continue_default)
  | FenceTso => Ret (with_handler s (handle_fence_tso (m_handler s)), continue_default)
  | Ecall => execute_ecall s
  | Ebreak => execute_ebreak s
  | _ => let! old := old_pc (m_pc s) 4 in Ret (s, Err (IllegalInstruction old))
  end.

Definition continue_with (s : state) (r : outcome (R * Z)) : outcome (state * exec_result) :=
  let! v := r in Ret (s, Ok (Continue v)).

(** [Rv64Instruction::execute] *)
Definition execute (i : Rv64Instruction R) (rs1_value rs2_value : Z) (s : state)
    : outcome (state * exec_result) :=
  match execute_r i rs1_value rs2_value with Some r => continue_with s r | None =>
  match execute_rw i rs1_value rs2_value with Some r => continue_with s r | None =>
  match execute_i i rs1_value with Some r => continue_with s r | None =>
  match execute_load i rs1_value s with Some r => r | None =>
  match execute_store i rs1_value rs2_value s with Some r => r | None =>
  match execute_branch i rs1_value rs2_value s with Some r => r | None =>
  execute_other i rs1_value s
  end end end end end end.

(** [get_rs1_rs2_operands]: the zero register where an operand is missing. *)
Definition operands (i : Rv64Instruction R) : R * R :=
  match i with
  | Add _ rs1 rs2 | Sub _ rs1 rs2 | Sll _ rs1 rs2 | Slt _ rs1 rs2 | Sltu _ rs1 rs2
  | Xor _ rs1 rs2 | Srl _ rs1 rs2 | Sra _ rs1 rs2 | Or _ rs1 rs2 | And _ rs1 rs2
  | Addw _ rs1 rs2 | Subw _ rs1 rs2 | Sllw _ rs1 rs2 | Srlw _ rs1 rs2 | Sraw _ rs1 rs2 => (rs1, rs2)
  | Addi _ rs1 _ | Slti _ rs1 _ | Sltiu _ rs1 _ | Xori _ rs1 _ | Ori _ rs1 _ | Andi _ rs1 _
  | Slli _ rs1 _ | Srli _ rs1 _ | Srai _ rs1 _ | Addiw _ rs1 _ | Slliw _ rs1 _ | Srliw _ rs1 _
  | Sraiw _ rs1 _ | Lb _ rs1 _ | Lh _ rs1 _ | Lw _ rs1 _ | Ld _ rs1 _ | Lbu _ rs1 _
  | Lhu _ rs1 _ | Lwu _ rs1 _ | Jalr _ rs1 _ => (rs1, ZERO)
  | Sb rs2 rs1 _ | Sh rs2 rs1 _ | Sw rs2 rs1 _ | Sd rs2 rs1 _ => (rs1, rs2)
  | Beq rs1 rs2 _ | Bne rs1 rs2 _ | Blt rs1 rs2 _ | Bge rs1 rs2 _ | Bltu rs1 rs2 _
  | Bgeu rs1 rs2 _ => (rs1, rs2)
  | _ => (ZERO, ZERO)
  end.
End execute.

(** ** The M extension *)

Definition i64_min : Z := - 2 ^ 63.
Definition i32_min : Z := - 2 ^ 31.

Section execute_m.
Context {R : Type}.

Definition m_mul (a b : Z) : Z := wrap 64 (a * b).

(** The high half of [carrying_mul]. *)
Definition m_mulh (a b : Z) : Z := wrap 64 (Z.shiftr (signed 64 a * signed 64 b) 64).
Definition m_mulhsu (a b : Z) : Z := wrap 64 (Z.shiftr (signed 64 a * b) 64).
Definition m_mulhu (a b : Z) : Z := wrap 64 (Z.shiftr (a * b) 64).

(** Rust's [/] and [%] round towards zero. *)
Definition m_div (a b : Z) : Z :=
  let dividend := signed 64 a in
  let divisor := signed 64 b in
  wrap 64 (if divisor =? 0 then -1
           else if (dividend =? i64_min) && (divisor =? -1) then i64_min
           else Z.quot dividend divisor).

Definition m_divu (a b : Z) : Z := if b =? 0 then 2 ^ 64 - 1 else a / b.

Definition m_rem (a b : Z) : Z :=
  let dividend := signed 64 a in
  let divisor := signed 64 b in
  wrap 64 (if divisor =? 0 then dividend
           else if (dividend =? i64_min) && (divisor =? -1) then 0
           else Z.rem dividend divisor).

Definition m_remu (a b : Z) : Z := if b =? 0 then a else a mod b.

Definition m_mulw (a b : Z) : Z := sext (signed 32 (signed 32 a * signed 32 b)).

Definition m_divw (a b : Z) : Z :=
  let dividend := signed 32 a in
  let divisor := signed 32 b in
  sext (if divisor =? 0 then -1
        else if (dividend =? i32_min) && (divisor =? -1) then i32_min
        else Z.quot dividend divisor).

Definition m_divuw (a b : Z) : Z :=
  let dividend := wrap 32 a in
  let divisor := wrap 32 b in
  if divisor =? 0 then 2 ^ 64 - 1 else sext (signed 32 (dividend / divisor)).

Definition m_remw (a b : Z) : Z :=
  let dividend := signed 32 a in
  let divisor := signed 32 b in
  if divisor =? 0 then sext dividend
  else if (dividend =? i32_min) && (divisor =? -1) then 0
  else sext (Z.rem dividend divisor).

Definition m_remuw (a b : Z) : Z :=
  let dividend := wrap 32 a in
  let divisor := wrap 32 b in
  sext (if divisor =? 0 then signed 32 dividend else signed 32 (dividend mod divisor)).

(** [Rv64MInstruction::execute] *)
Definition execute_m (i : Rv64MInstruction R) (rs1_value rs2_value : Z) : R * Z :=
  match i with
  | Mul rd _ _ => (rd, m_mul rs1_value rs2_value)
  | Mulh rd _ _ => (rd, m_mulh rs1_value rs2_value)
  | Mulhsu rd _ _ => (rd, m_mulhsu rs1_value rs2_value)
  | Mulhu rd _ _ => (rd, m_mulhu rs1_value rs2_value)
  | Div rd _ _ => (rd, m_div rs1_value rs2_value)
  | Divu rd _ _ => (rd, m_divu rs1_value rs2_value)
  | Rem rd _ _ => (rd, m_rem rs1_value rs2_value)
  | Remu rd _ _ => (rd, m_remu rs1_value rs2_value)
  | Mulw rd _ _ => (rd, m_mulw rs1_value rs2_value)
  | Divw rd _ _ => (rd, m_divw rs1_value rs2_value)
  | Divuw rd _ _ => (rd, m_divuw rs1_value rs2_value)
  | Remw rd _ _ => (rd, m_remw rs1_value rs2_value)
  | Remuw rd _ _ => (rd, m_remuw rs1_value rs2_value)
  end.

Definition operands_m (i : Rv64MInstruction R) : R * R :=
  match i with
  | Mul _ rs1 rs2 | Mulh _ rs1 rs2 | Mulhsu _ rs1 rs2 | Mulhu _ rs1 rs2 | Div _ rs1 rs2
  | Divu _ rs1 rs2 | Rem _ rs1 rs2 | Remu _ rs1 rs2 | Mulw _ rs1 rs2 | Divw _ rs1 rs2
  | Divuw _ rs1 rs2 | Remw _ rs1 rs2 | Remuw _ rs1 rs2 => (rs1, rs2)
  end.
End execute_m.

(** ** Multiplication and division *)

(** The high half of a product that fits 128 bits is the quotient by [2 ^ 64]. *)
Lemma high_signed p : - 2 ^ 127 <= p < 2 ^ 127 -> signed 64 (wrap 64 (Z.shiftr p 64)) = p / 2 ^ 64.
Proof.
  intros Hp. rewrite Z.shiftr_div_pow2 by lia. rewrite signed_wrap by lia. apply signed_small; [lia|].
  change (2 ^ (64 - 1)) with 9223372036854775808. change (2 ^ 64) with 18446744073709551616.
  change (2 ^ 127) with 170141183460469231731687303715884105728 in Hp.
  Z.to_euclidean_division_equations. lia.
Qed.

Lemma mul_low a b x y :
  signed 64 a = x \/ a = x -> signed 64 b = y \/ b = y -> m_mul a b = (x * y) mod 2 ^ 64.
Proof.
  intros Ha Hb. unfold m_mul, wrap.
  assert (Hx : exists k, x = a + k * 2 ^ 64).
  { destruct Ha as [<-| <-]; [apply signed_offset|exists 0; lia]. }
  assert (Hy : exists k, y = b + k * 2 ^ 64).
  { destruct Hb as [<-| <-]; [apply signed_offset|exists 0; lia]. }
  destruct Hx as [k ->], Hy as [l ->].
  replace ((a + k * 2 ^ 64) * (b + l * 2 ^ 64)) with (a * b + (a * l + k * b + k * l * 2 ^ 64) * 2 ^ 64) by ring.
  by rewrite Z_mod_plus_full.
Qed.

Lemma join_halves p : p / 2 ^ 64 * 2 ^ 64 + p mod 2 ^ 64 = p.
Proof. pose proof (Z.div_mod p (2 ^ 64)). lia. Qed.

Lemma signed_mul_range a b : - 2 ^ 127 <= signed 64 a * signed 64 b < 2 ^ 127.
Proof.
  pose proof (signed_range 64 a ltac:(lia)) as Ha. pose proof (signed_range 64 b ltac:(lia)) as Hb.
  change (2 ^ (64 - 1)) with 9223372036854775808 in *.
  change (2 ^ 127) with (2 * (9223372036854775808 * 9223372036854775808)). nia.
Qed.

Lemma signed_div_overflow w x y :
  0 < w -> - 2 ^ (w - 1) <= x < 2 ^ (w - 1) -> - 2 ^ (w - 1) <= y -> y <> 0 ->
  (x =? - 2 ^ (w - 1)) && (y =? -1) = false -> - 2 ^ (w - 1) <= Z.quot x y < 2 ^ (w - 1).
Proof.
  intros Hw Hx Hylo Hy Hno. pose proof (pow2_pos (w - 1) ltac:(lia)) as Hp. set (p := 2 ^ (w - 1)) in *.
  assert (Habs : Z.abs (Z.quot x y) <= Z.abs x).
  { pose proof (Z.quot_abs x y Hy) as Ha. rewrite <- Ha.
    apply Z.quot_le_upper_bound; nia. }
  destruct (decide (x = - p)) as [->|Hne]; [|lia].
  rewrite Z.eqb_refl in Hno. cbn in Hno. apply Z.eqb_neq in Hno.
  destruct (decide (Z.quot (- p) y = p)) as [He|]; [|lia]. exfalso.
  pose proof (Z.quot_rem' (- p) y) as Hqr. pose proof (Z.rem_bound_abs (- p) y Hy). rewrite He in Hqr.
  destruct (Z.lt_ge_cases 0 y); nia.
Qed.

(** Quotient and remainder, as registers hold them. *)
Definition division_result (w x y q r : Z) : Prop :=
  if y =? 0 then q = -1 /\ r = x
  else if (x =? - 2 ^ (w - 1)) && (y =? -1) then q = x /\ r = 0
  else x = y * q + r /\ Z.abs r < Z.abs y /\ (r = 0 \/ Z.sgn r = Z.sgn x).

Lemma division_spec w x y :
  0 < w -> - 2 ^ (w - 1) <= x < 2 ^ (w - 1) -> - 2 ^ (w - 1) <= y < 2 ^ (w - 1) ->
  let q := if y =? 0 then -1 else if (x =? - 2 ^ (w - 1)) && (y =? -1) then - 2 ^ (w - 1) else Z.quot x y in
  let r := if y =? 0 then x else if (x =? - 2 ^ (w - 1)) && (y =? -1) then 0 else Z.rem x y in
  - 2 ^ (w - 1) <= q < 2 ^ (w - 1) /\ - 2 ^ (w - 1) <= r < 2 ^ (w - 1) /\ division_result w x y q r.
Proof.
  intros Hw Hx Hy. pose proof (pow2_pos (w - 1) ltac:(lia)) as Hp. unfold division_result.
  destruct (Z.eqb_spec y 0) as [->|Hy0]; [cbn; lia|].
  destruct ((x =? - 2 ^ (w - 1)) && (y =? -1)) eqn:Ho.
  { apply andb_true_iff in Ho as [->%Z.eqb_eq _]. cbn. lia. }
  cbv zeta. split; [by apply signed_div_overflow; try lia|].
  pose proof (Z.rem_bound_abs x y Hy0). pose proof (Z.quot_rem' x y).
  split_and!; try lia. destruct (decide (Z.rem x y = 0)) as [|Hr]; [by left|right]. by apply Z.rem_sign_nz.
Qed.

Lemma signed_sext w x : 0 < w <= 64 -> - 2 ^ (w - 1) <= x < 2 ^ (w - 1) -> signed 64 (sext x) = x.
Proof.
  intros Hw Hx. unfold sext. rewrite signed_wrap by lia. apply signed_small; [lia|].
  pose proof (Z.pow_le_mono_r 2 (w - 1) (64 - 1) ltac:(lia) ltac:(lia)). lia.
Qed.

Lemma m_mul_signed a b : signed 64 (m_mulh a b) * 2 ^ 64 + m_mul a b = signed 64 a * signed 64 b.
Proof.
  unfold m_mulh. rewrite high_signed by apply signed_mul_range.
  rewrite (mul_low a b (signed 64 a) (signed 64 b)) by auto. apply join_halves.
Qed.

Lemma m_mul_mixed a b :
  0 <= b < 2 ^ 64 -> signed 64 (m_mulhsu a b) * 2 ^ 64 + m_mul a b = signed 64 a * b.
Proof.
  intros Hb. unfold m_mulhsu. rewrite high_signed.
  - rewrite (mul_low a b (signed 64 a) b) by auto. apply join_halves.
  - pose proof (signed_range 64 a ltac:(lia)) as Ha. change (2 ^ (64 - 1)) with 9223372036854775808 in *.
    change (2 ^ 64) with 18446744073709551616 in Hb.
    change (2 ^ 127) with (9223372036854775808 * 18446744073709551616). nia.
Qed.

Lemma m_mul_unsigned a b :
  0 <= a < 2 ^ 64 -> 0 <= b < 2 ^ 64 -> m_mulhu a b * 2 ^ 64 + m_mul a b = a * b.
Proof.
  intros Ha Hb. unfold m_mulhu. rewrite Z.shiftr_div_pow2 by lia.
  rewrite (mul_low a b a b) by auto. rewrite wrap_small; [apply join_halves|].
  split; [apply Z.div_pos; nia|]. apply Z.div_lt_upper_bound; nia.
Qed.

Lemma m_div_rem a b :
  division_result 64 (signed 64 a) (signed 64 b) (signed 64 (m_div a b)) (signed 64 (m_rem a b)).
Proof.
  destruct (division_spec 64 (signed 64 a) (signed 64 b)) as (Hq & Hr & Hd);
    [lia|apply signed_range; lia..|].
  unfold m_div, m_rem, i64_min. change (- 2 ^ 63) with (- 2 ^ (64 - 1)).
  rewrite !(signed_wrap 64) by lia.
  by rewrite (signed_small 64 _ ltac:(lia) Hq), (signed_small 64 _ ltac:(lia) Hr).
Qed.

Lemma m_divw_remw a b :
  division_result 32 (signed 32 a) (signed 32 b) (signed 64 (m_divw a b)) (signed 64 (m_remw a b)).
Proof.
  destruct (division_spec 32 (signed 32 a) (signed 32 b)) as (Hq & Hr & Hd);
    [lia|apply signed_range; lia..|].
  unfold m_divw. unfold i32_min. change (- 2 ^ 31) with (- 2 ^ (32 - 1)).
  replace (m_remw a b) with (sext (if signed 32 b =? 0 then signed 32 a
    else if (signed 32 a =? - 2 ^ (32 - 1)) && (signed 32 b =? -1) then 0
    else Z.rem (signed 32 a) (signed 32 b))).
  - by rewrite (signed_sext 32 _ ltac:(lia) Hq), (signed_sext 32 _ ltac:(lia) Hr).
  - unfold m_remw, i32_min. change (- 2 ^ 31) with (- 2 ^ (32 - 1)). by repeat case_match.
Qed.

Lemma wrap_sext_signed x : wrap 32 (sext (signed 32 x)) = wrap 32 x.
Proof. unfold sext. rewrite wrap_wrap_le by lia. apply wrap_signed. Qed.

Lemma sext_word x : signed 64 (sext (signed 32 x)) = signed 32 (sext (signed 32 x)).
Proof.
  rewrite (signed_sext 32) by (lia || (apply signed_range; lia)).
  rewrite <- (signed_wrap 32 (sext _)), wrap_sext_signed by lia. symmetry. apply signed_wrap. lia.
Qed.

(** ** Integer instructions of the specification *)

(** The value an integer instruction computes, on unbounded integers; the register
    receives it modulo [2 ^ 64]. *)
Definition isa_value {R} (i : Rv64Instruction R) (a b : Z) : option (R * Z) :=
  match i with
  | Add rd _ _ => Some (rd, a + b)
  | Sub rd _ _ => Some (rd, a - b)
  | Sll rd _ _ => Some (rd, a * 2 ^ (b mod 64))
  | Slt rd _ _ => Some (rd, if decide (signed 64 a < signed 64 b) then 1 else 0)
  | Sltu rd _ _ => Some (rd, if decide (a < b) then 1 else 0)
  | Xor rd _ _ => Some (rd, Z.lxor a b)
  | Srl rd _ _ => Some (rd, a / 2 ^ (b mod 64))
  | Sra rd _ _ => Some (rd, signed 64 a / 2 ^ (b mod 64))
  | Or rd _ _ => Some (rd, Z.lor a b)
  | And rd _ _ => Some (rd, Z.land a b)
  | Addw rd _ _ => Some (rd, signed 32 (a + b))
  | Subw rd _ _ => Some (rd, signed 32 (a - b))
  | Sllw rd _ _ => Some (rd, signed 32 (a * 2 ^ (b mod 32)))
  | Srlw rd _ _ => Some (rd, signed 32 (a mod 2 ^ 32 / 2 ^ (b mod 32)))
  | Sraw rd _ _ => Some (rd, signed 32 a / 2 ^ (b mod 32))
  | Addi rd _ imm => Some (rd, a + imm)
  | Slti rd _ imm => Some (rd, if decide (signed 64 a < imm) then 1 else 0)
  | Sltiu rd _ imm => Some (rd, if decide (a < imm mod 2 ^ 64) then 1 else 0)
  | Xori rd _ imm => Some (rd, Z.lxor a imm)
  | Ori rd _ imm => Some (rd, Z.lor a imm)
  | Andi rd _ imm => Some (rd, Z.land a imm)
  | Slli rd _ shamt => Some (rd, a * 2 ^ shamt)
  | Srli rd _ shamt => Some (rd, a / 2 ^ shamt)
  | Srai rd _ shamt => Some (rd, signed 64 a / 2 ^ shamt)
  | Addiw rd _ imm => Some (rd, signed 32 (a + imm))
  | Slliw rd _ shamt => Some (rd, signed 32 (a * 2 ^ shamt))
  | Srliw rd _ shamt => Some (rd, signed 32 (a mod 2 ^ 32 / 2 ^ shamt))
  | Sraiw rd _ shamt => Some (rd, signed 32 a / 2 ^ shamt)
  | Lui rd imm => Some (rd, i24z_to_i32 12 imm)
  | _ => None
  end.

Lemma shift_mask_mod x n mask : 0 <= n -> mask = Z.ones n -> Z.land x mask = x mod 2 ^ n.
Proof. intros Hn ->. by apply Z.land_ones. Qed.

Lemma shl_ret w x n : 0 <= n < w -> shl w x n = Ret (wrap w (x * 2 ^ n)).
Proof. intros Hn. unfold shl. rewrite (proj2 (Z.ltb_lt n w)) by lia. by rewrite Z.shiftl_mul_pow2 by lia. Qed.

Lemma shr_ret w x n : 0 <= n < w -> shr w x n = Ret (x / 2 ^ n).
Proof. intros Hn. unfold shr. rewrite (proj2 (Z.ltb_lt n w)) by lia. by rewrite Z.shiftr_div_pow2 by lia. Qed.

Lemma signed_wrap_mul w x y : 0 < w -> signed w (wrap w x * y) = signed w (x * y).
Proof.
  intros Hw. destruct (wrap_offset w x) as [k ->]; [lia|].
  replace ((x + k * 2 ^ w) * y) with (x * y + k * y * 2 ^ w) by ring. by apply signed_cong.
Qed.

Lemma signed_add w v x y : 0 < w -> v = signed w x + y -> signed w v = signed w (x + y).
Proof.
  intros Hw ->. destruct (signed_offset w x) as [k ->].
  replace (x + k * 2 ^ w + y) with (x + y + k * 2 ^ w) by lia. by apply signed_cong.
Qed.

Lemma div_pow2_range x n w : 0 <= n -> 0 <= x < 2 ^ w -> 0 <= x / 2 ^ n < 2 ^ w.
Proof.
  intros Hn Hx. pose proof (pow2_pos n Hn). split; [apply Z.div_pos; lia|].
  apply Z.div_lt_upper_bound; [lia|]. nia.
Qed.

(** Bitwise operations commute with truncation. *)
Lemma wrap_testbit w x i : 0 <= w -> 0 <= i -> Z.testbit (wrap w x) i = (i <? w) && Z.testbit x i.
Proof.
  intros Hw Hi. unfold wrap. destruct (Z.ltb_spec i w).
  - by rewrite Z.mod_pow2_bits_low.
  - by rewrite Z.mod_pow2_bits_high.
Qed.

Lemma wrap_lxor w a x : 0 <= w -> 0 <= a < 2 ^ w -> Z.lxor a (wrap w x) = wrap w (Z.lxor a x).
Proof.
  intros Hw Ha. rewrite <- (wrap_small w a) at 1 by done. apply Z.bits_inj'. intros i Hi.
  rewrite Z.lxor_spec, !wrap_testbit, Z.lxor_spec by done. by destruct (i <? w).
Qed.

Lemma wrap_lor w a x : 0 <= w -> 0 <= a < 2 ^ w -> Z.lor a (wrap w x) = wrap w (Z.lor a x).
Proof.
  intros Hw Ha. rewrite <- (wrap_small w a) at 1 by done. apply Z.bits_inj'. intros i Hi.
  rewrite Z.lor_spec, !wrap_testbit, Z.lor_spec by done. by destruct (i <? w).
Qed.

Lemma wrap_land w a x : 0 <= w -> 0 <= a < 2 ^ w -> Z.land a (wrap w x) = wrap w (Z.land a x).
Proof.
  intros Hw Ha. rewrite <- (wrap_small w a) at 1 by done. apply Z.bits_inj'. intros i Hi.
  rewrite Z.land_spec, !wrap_testbit, Z.land_spec by done. by destruct (i <? w).
Qed.

Lemma bool_z_decide (b : bool) (P : Prop) `{!Decision P} :
  (b = true <-> P) -> bool_z b = wrap 64 (if decide P then 1 else 0).
Proof. intros Hb. destruct b, (decide P); naive_solver. Qed.

Lemma wrap_add_sext a imm : wrap 64 (a + sext imm) = wrap 64 (a + imm).
Proof.
  unfold sext. destruct (wrap_offset 64 imm) as [k ->]; [lia|].
  replace (a + (imm + k * 2 ^ 64)) with (a + imm + k * 2 ^ 64) by lia. apply wrap_add_period.
Qed.

Section isa.
Context {R : Type} `{Register R}.
Implicit Types (i : Rv64Instruction R) (r : outcome (R * Z)).

(** A result is the specified one. *)
Definition agrees i (a b : Z) r : Prop :=
  exists rd v, isa_value i a b = Some (rd, v) /\ r = Ret (rd, wrap 64 v).

Lemma execute_r_isa i a b r :
  0 <= a < 2 ^ 64 -> 0 <= b < 2 ^ 64 -> execute_r i a b = Some r -> agrees i a b r.
Proof.
  intros Ha Hb. pose proof (Z.mod_pos_bound b 64 ltac:(lia)) as Hm.
  destruct i; cbn [execute_r]; intros Hr; try discriminate Hr; injection Hr as <-;
    eexists _, _; (split; [reflexivity|]);
    try (rewrite (shift_mask_mod b 6 0x3f) by done; change (2 ^ 6) with 64);
    rewrite ?shl_ret, ?shr_ret by done; cbn [obind]; do 2 f_equal; try done.
  - apply bool_z_decide, Z.ltb_lt.
  - apply bool_z_decide, Z.ltb_lt.
  - symmetry. apply wrap_small. rewrite <- (wrap_small 64 b), wrap_lxor by lia. apply wrap_range. lia.
  - symmetry. apply wrap_small, div_pow2_range; lia.
  - symmetry. apply wrap_small. rewrite <- (wrap_small 64 b), wrap_lor by lia. apply wrap_range. lia.
  - symmetry. apply wrap_small. rewrite <- (wrap_small 64 b), wrap_land by lia. apply wrap_range. lia.
Qed.

Lemma execute_rw_isa i a b r : execute_rw i a b = Some r -> agrees i a b r.
Proof.
  pose proof (Z.mod_pos_bound b 32 ltac:(lia)) as Hm.
  destruct i; cbn [execute_rw]; intros Hr; try discriminate Hr; injection Hr as <-;
    eexists _, _; (split; [reflexivity|]);
    try (rewrite (shift_mask_mod b 5 0x1f) by done; change (2 ^ 5) with 32);
    rewrite ?shl_ret, ?shr_ret by done; cbn [obind]; unfold sext; do 3 f_equal.
  - rewrite (signed_add 32 _ a (signed 32 b)), Z.add_comm, (signed_add 32 _ b a), Z.add_comm by lia. done.
  - destruct (signed_offset 32 b) as [k ->]. rewrite (signed_add 32 _ a (- (b + k * 2 ^ 32))) by lia.
    replace (a + - (b + k * 2 ^ 32)) with (a - b + (- k) * 2 ^ 32) by lia. apply signed_cong. lia.
  - rewrite signed_wrap by lia. apply signed_wrap_mul. lia.
Qed.

Lemma execute_i_isa i a b r :
  0 <= a < 2 ^ 64 -> wf i -> execute_i i a = Some r -> agrees i a b r.
Proof.
  intros Ha Hwf. destruct i; cbn [execute_i]; intros Hr; try discriminate Hr; injection Hr as <-;
    cbn [wf] in Hwf; eexists _, _; (split; [reflexivity|]);
    rewrite ?shl_ret, ?shr_ret by done; cbn [obind]; do 2 f_equal; try done.
  - apply wrap_add_sext.
  - apply bool_z_decide, Z.ltb_lt.
  - apply bool_z_decide, Z.ltb_lt.
  - by apply wrap_lxor.
  - by apply wrap_lor.
  - by apply wrap_land.
  - symmetry. apply wrap_small, div_pow2_range; lia.
  - unfold sext. f_equal. by apply signed_add.
  - unfold sext. f_equal. rewrite signed_wrap by lia. by apply signed_wrap_mul.
Qed.
End isa.

(** ** Properties *)

(** The M extension computes what the specification says: the two halves of the
    signed, mixed and unsigned products together are the 128-bit product; quotient and
    remainder satisfy the division equation with the remainder smaller than the divisor
    and of the sign of the dividend, except for a zero divisor and for the overflowing
    quotient, whose results are the specified ones; the word forms do the same on the
    low 32 bits and extend the sign. *)
Theorem m_extension_correct {R : Type} (rd rs1 rs2 : R) a b :
  0 <= a < 2 ^ 64 -> 0 <= b < 2 ^ 64 ->
  let v (i : R -> R -> R -> Rv64MInstruction R) := snd (execute_m (i rd rs1 rs2) a b) in
  (signed 64 (v Mulh) * 2 ^ 64 + v Mul = signed 64 a * signed 64 b /\
   signed 64 (v Mulhsu) * 2 ^ 64 + v Mul = signed 64 a * b /\
   v Mulhu * 2 ^ 64 + v Mul = a * b /\
   signed 64 (v Mulw) = signed 32 (a * b)) /\
  division_result 64 (signed 64 a) (signed 64 b) (signed 64 (v Div)) (signed 64 (v Rem)) /\
  division_result 32 (signed 32 a) (signed 32 b) (signed 64 (v Divw)) (signed 64 (v Remw)) /\
  (if b =? 0 then v Divu = 2 ^ 64 - 1 /\ v Remu = a
   else a = b * v Divu + v Remu /\ 0 <= v Remu < b) /\
  (if wrap 32 b =? 0 then v Divuw = 2 ^ 64 - 1 /\ wrap 32 (v Remuw) = wrap 32 a
   else wrap 32 a = wrap 32 b * wrap 32 (v Divuw) + wrap 32 (v Remuw) /\
        0 <= wrap 32 (v Remuw) < wrap 32 b) /\
  signed 64 (v Divuw) = signed 32 (v Divuw) /\ signed 64 (v Remuw) = signed 32 (v Remuw).
Proof.
  intros Ha Hb v. unfold v. cbn [execute_m snd]. split_and!.
  - apply m_mul_signed.
  - by apply m_mul_mixed.
  - by apply m_mul_unsigned.
  - unfold m_mulw. rewrite (signed_sext 32) by (lia || (apply signed_range; lia)).
    destruct (signed_offset 32 a) as [k ->], (signed_offset 32 b) as [l ->].
    replace ((a + k * 2 ^ 32) * (b + l * 2 ^ 32)) with (a * b + (a * l + k * b + k * l * 2 ^ 32) * 2 ^ 32) by ring.
    by apply signed_cong.
  - apply m_div_rem.
  - apply m_divw_remw.
  - unfold m_divu, m_remu. destruct (Z.eqb_spec b 0) as [->|Hb0]; [done|].
    pose proof (Z.div_mod a b Hb0). pose proof (Z.mod_pos_bound a b ltac:(lia)). lia.
  - pose proof (wrap_range 32 a ltac:(lia)). pose proof (wrap_range 32 b ltac:(lia)).
    unfold m_divuw, m_remuw. set (x := wrap 32 a) in *. set (y := wrap 32 b) in *.
    destruct (Z.eqb_spec y 0) as [Hy|Hy].
    + split; [done|]. rewrite wrap_sext_signed. by apply wrap_small.
    + rewrite !wrap_sext_signed. pose proof (Z.div_mod x y Hy). pose proof (Z.mod_pos_bound x y ltac:(lia)).
      assert (0 <= x / y <= x) by (split; [apply Z.div_pos; lia|apply Z.div_le_upper_bound; nia]).
      rewrite !wrap_small by lia. lia.
  - unfold m_divuw. destruct (_ =? 0); [done|]. apply sext_word.
  - unfold m_remuw. destruct (_ =? 0); apply sext_word.
Qed.

(** ** Witnesses *)

Lemma m_extension_correct_witness :
  let v (i : Reg -> Reg -> Reg -> Rv64MInstruction Reg) := snd (execute_m (i A0 A1 A2) (2 ^ 63) 3) in
  (signed 64 (v Mulh) * 2 ^ 64 + v Mul = signed 64 (2 ^ 63) * signed 64 3 /\
   signed 64 (v Mulhsu) * 2 ^ 64 + v Mul = signed 64 (2 ^ 63) * 3 /\
   v Mulhu * 2 ^ 64 + v Mul = 2 ^ 63 * 3 /\
   signed 64 (v Mulw) = signed 32 (2 ^ 63 * 3)) /\
  division_result 64 (signed 64 (2 ^ 63)) (signed 64 3) (signed 64 (v Div)) (signed 64 (v Rem)) /\
  division_result 32 (signed 32 (2 ^ 63)) (signed 32 3) (signed 64 (v Divw)) (signed 64 (v Remw)) /\
  (if 3 =? 0 then v Divu = 2 ^ 64 - 1 /\ v Remu = 2 ^ 63
   else 2 ^ 63 = 3 * v Divu + v Remu /\ 0 <= v Remu < 3) /\
  (if wrap 32 3 =? 0 then v Divuw = 2 ^ 64 - 1 /\ wrap 32 (v Remuw) = wrap 32 (2 ^ 63)
   else wrap 32 (2 ^ 63) = wrap 32 3 * wrap 32 (v Divuw) + wrap 32 (v Remuw) /\
        0 <= wrap 32 (v Remuw) < wrap 32 3) /\
  signed 64 (v Divuw) = signed 32 (v Divuw) /\ signed 64 (v Remuw) = signed 32 (v Remuw).
Proof. apply (m_extension_correct A0 A1 A2 (2 ^ 63) 3); lia. Defined.
End Rv64Exec.
