(* ===== verification/RvInterp.v ===== *)
(** * The interpreter

    Model of the fetcher, of the system instruction handler and of the interpreter loop
    in [crates/execution/ab-riscv-interpreter/src/basic.rs].  The loop is generic in the
    instruction type, the register file, the memory, the fetcher and the handler, as
    [BasicInterpreterState::execute] is.  Its safety is proved for any instructions whose
    execution is safe, with [BasicInstructionFetcher], over any register file and memory that
    keep the promises of [RvRegisters] and [RvMemory]; here it is applied to RV64I, in
    [RvContract] to the instructions of contracts. *)

From S2P Require Import Prelude RvInt RvRegisters RvMemory Rv64Decode Rv64Encoding Rv64Exec.
From stdpp Require Import prelude.
From Stdlib Require Import ZArith Lia.
Local Open Scope Z_scope.

Module RvInterp.
Import RvInt RvRegisters RvMemory Rv64 Rv64Encoding Rv64Exec.

(** [Instruction] *)
Class Instruction (I : Type) : Type := {
  decode : Z -> option I;
  alignment : Z;
  size : I -> Z
}.

#[export] Instance Rv64_Instruction {R} `{Register R} : Instruction (Rv64Instruction R) :=
  {| decode := try_decode; alignment := instruction_alignment; size := instruction_size |}.

(** [ExecutableInstruction] with [ExecutableInstructionOperands] *)
Class ExecutableInstruction (I R Regs Mem PC H : Type) : Type := {
  get_operands : I -> R * R;
  exec : I -> Z -> Z -> machine Regs Mem PC H ->
    outcome (machine Regs Mem PC H * result (control_flow (R * Z)) execution_error)
}.

(** [FetchInstructionResult] *)
Inductive fetch_result (I : Type) : Type :=
| FetchInstruction (i : I)
| FetchControlFlow (c : control_flow unit).
Arguments FetchInstruction {I} i.
Arguments FetchControlFlow {I} c.

Class InstructionFetcher (I F Mem : Type) : Type := {
  fetch : F -> Mem -> outcome (F * result (fetch_result I) execution_error)
}.

(** ** [BasicInstructionFetcher] *)

Record BasicInstructionFetcher (I : Type) : Type := Fetcher {
  return_trap_address : Z;
  pc : Z
}.
Arguments Fetcher {I} _ _.
Arguments return_trap_address {I} _.
Arguments pc {I} _.

Section fetcher.
Context {I Mem : Type} `{Instruction I} `{!VirtualMemory Mem}.

Definition basic_set_pc (f : BasicInstructionFetcher I) (memory : Mem) (p : Z)
    : BasicInstructionFetcher I * result (control_flow unit) pc_error :=
  if p =? return_trap_address f then (f, Ok Break)
  else if negb (p mod alignment =? 0) then (f, Err (UnalignedInstruction p))
  else (Fetcher (return_trap_address f) p, Ok (Continue tt)).

(** The word at the program counter, or a compressed instruction at the very end of
    the memory. *)
Definition fetch_word (memory : Mem) (p : Z) : outcome (result Z memory_error) :=
  let! r := mem_read 4 memory p in
  match r with
  | Ok w => Ret (Ok w)
  | Err e =>
      let! r := mem_read 2 memory p in
      match r with
      | Ok w => if Z.land w 3 =? 3 then Ret (Err e) else Ret (Ok w)
      | Err _ => Ret (Err e)
      end
  end.

(** [self.pc += instruction.size()] panics on overflow. *)
Definition basic_fetch (f : BasicInstructionFetcher I) (memory : Mem)
    : outcome (BasicInstructionFetcher I * result (fetch_result I) execution_error) :=
  let! r := fetch_word memory (pc f) in
  match r with
  | Err e => Ret (f, Err (MemoryAccess e))
  | Ok w =>
      match decode w with
      | None => Ret (f, Err (IllegalInstruction (pc f)))
      | Some i =>
          if pc f + size i <? 2 ^ 64
          then Ret (Fetcher (return_trap_address f) (pc f + size i), Ok (FetchInstruction i))
          else Fault
      end
  end.
End fetcher.

#[export] Instance Basic_ProgramCounter {I Mem} `{Instruction I}
  : ProgramCounter (BasicInstructionFetcher I) Mem :=
  {| get_pc := pc; set_pc := basic_set_pc |}.

#[export] Instance Basic_InstructionFetcher {I Mem} `{Instruction I} `{!VirtualMemory Mem}
  : InstructionFetcher I (BasicInstructionFetcher I) Mem :=
  {| fetch := basic_fetch |}.

(** ** [IllegalEcallSystemInstructionHandler] *)

Inductive IllegalEcallHandler : Type := IllegalEcall.

Definition illegal_ecall {Regs Mem PC} `{ProgramCounter PC Mem}
    (h : IllegalEcallHandler) (regs : Regs) (memory : Mem) (p : PC)
    : outcome (IllegalEcallHandler * Regs * Mem * PC * result (control_flow unit) execution_error) :=
  let! old := old_pc p 4 in
  Ret (h, regs, memory, p, Err (IllegalInstruction old)).

#[export] Instance IllegalEcall_handler {Regs Mem PC} `{ProgramCounter PC Mem}
  : SystemInstructionHandler IllegalEcallHandler Regs Mem PC :=
  {| handle_fence h pred succ := h; handle_fence_tso h := h; handle_ecall := illegal_ecall;
     handle_ebreak h regs memory p := (h, regs, memory) |}.

#[export] Instance Rv64_Executable {R Regs Mem PC H} `{Register R} `{!RegisterFile R Regs}
    `{!VirtualMemory Mem} `{!ProgramCounter PC Mem} `{!SystemInstructionHandler H Regs Mem PC}
  : ExecutableInstruction (Rv64Instruction R) R Regs Mem PC H :=
  {| get_operands := operands; exec := execute |}.

(** ** The loop *)

Section interpreter.
Context {I R Regs Mem F H : Type} `{!RegisterFile R Regs} `{!InstructionFetcher I F Mem}
  `{!ExecutableInstruction I R Regs Mem F H}.

(** One turn of the loop of [BasicInterpreterState::execute]; the second component is
    what it returns if it ends there. *)
Definition step (s : machine Regs Mem F H)
    : outcome (machine Regs Mem F H * option (result unit execution_error)) :=
  let! (f, r) := fetch (m_pc s) (m_memory s) in
  let s := with_pc s f in
  match r with
  | Err e => Ret (s, Some (Err e))
  | Ok (FetchControlFlow (Continue _)) => Ret (s, None)
  | Ok (FetchControlFlow Break) => Ret (s, Some (Ok tt))
  | Ok (FetchInstruction i) =>
      let (rs1, rs2) := get_operands i in
      let! rs1_value := reg_read (m_regs s) rs1 in
      let! rs2_value := reg_read (m_regs s) rs2 in
      let! (s, r) := exec i rs1_value rs2_value s in
      match r with
      | Err e => Ret (s, Some (Err e))
      | Ok Break => Ret (s, Some (Ok tt))
      | Ok (Continue (rd, rd_value)) =>
          let! regs := reg_write (m_regs s) rd rd_value in
          Ret (with_regs s regs, None)
      end
  end.

(** [BasicInterpreterState::execute], for at most [fuel] turns. *)
Fixpoint interpret (fuel : nat) (s : machine Regs Mem F H)
    : outcome (machine Regs Mem F H * option (result unit execution_error)) :=
  match fuel with
  | O => Ret (s, None)
  | S fuel =>
      let! (s, r) := step s in
      match r with
      | Some r => Ret (s, Some r)
      | None => interpret fuel s
      end
  end.
End interpreter.
(** Execution of the integer instructions is that of the specification. *)
Lemma execute_isa {R Regs Mem PC H : Type} `{Register R} `{!RegisterFile R Regs}
    `{!VirtualMemory Mem} `{!ProgramCounter PC Mem} `{!SystemInstructionHandler H Regs Mem PC}
    (i : Rv64Instruction R) a b rd v (s : machine Regs Mem PC H) :
  0 <= a < 2 ^ 64 -> 0 <= b < 2 ^ 64 -> wf i -> isa_value i a b = Some (rd, v) ->
  execute i a b s = Ret (s, Ok (Continue (rd, v mod 2 ^ 64))).
Proof.
  intros Ha Hb Hwf Hv. unfold execute.
  assert (Hgo : forall r, agrees i a b r -> continue_with s r = Ret (s, Ok (Continue (rd, v mod 2 ^ 64)))).
  { intros r (rd' & v' & Hv' & ->). rewrite Hv in Hv'. by injection Hv' as <- <-. }
  destruct (execute_r i a b) as [r|] eqn:Er; [by apply Hgo, execute_r_isa|].
  destruct (execute_rw i a b) as [r|] eqn:Erw; [by apply Hgo, execute_rw_isa|].
  destruct (execute_i i a) as [r|] eqn:Ei; [by apply Hgo, execute_i_isa|].
  destruct i; try discriminate; cbn in Hv; by simplify_eq.
Qed.

(** ** Safety *)

(** What the fetcher relies on in an instruction type. *)
Class InstructionLaws (I : Type) `{Instruction I} : Type := {
  instr_wf : I -> Prop;
  decode_wf : forall w i, 0 <= w < 2 ^ 32 -> decode w = Some i -> instr_wf i;
  decode_size : forall w i, decode w = Some i -> size i = if Z.land w 3 =? 3 then 4 else 2;
  alignment_pos : 0 < alignment (I := I);
  size_aligned : forall w i, decode w = Some i -> size i mod alignment (I := I) = 0
}.

Section safety.
Context {I R Regs Mem : Type} `{InstructionLaws I} `{RegisterLaws R} `{!RegisterFile R Regs}
  `{!RegisterFileLaws R Regs} `{!VirtualMemory Mem} `{!VirtualMemoryLaws Mem}.

Abbreviation fetcher := (BasicInstructionFetcher I).
Abbreviation state := (machine Regs Mem fetcher IllegalEcallHandler).
Abbreviation exec_result := (result (control_flow (R * Z)) execution_error).

(** The memory ends before the last address. *)
Definition mem_top (m : Mem) : Prop := forall a, is_Some (byte_at m a) -> 0 <= a /\ a + 1 < 2 ^ 64.

Definition pc_ok (f : fetcher) : Prop := 0 <= pc f < 2 ^ 64 /\ pc f mod alignment (I := I) = 0.

Record machine_ok (s : state) : Prop := {
  ok_regs : regs_ok (m_regs s);
  ok_mem : mem_ok (m_memory s);
  ok_top : mem_top (m_memory s);
  ok_pc : pc_ok (m_pc s)
}.

(** Instructions execute with the program counter past them. *)
Definition past (n : Z) (s : state) : Prop := machine_ok s /\ n <= pc (m_pc s).

Definition value_ok (r : exec_result) : Prop :=
  match r with Ok (Continue (_, v)) => 0 <= v < 2 ^ 64 | _ => True end.

(** What execution of an instruction guarantees. *)
Definition exec_safe (o : outcome (state * exec_result)) : Prop :=
  exists s r, o = Ret (s, r) /\ machine_ok s /\ value_ok r.

Lemma continue_safe s : machine_ok s -> exec_safe (Ret (s, continue_default)).
Proof. intros Hs. eexists _, _. split_and!; [done|done|]. cbn. lia. Qed.

Lemma bytes_at_defined m a n k :
  is_Some (bytes_at byte_at m a n) -> 0 <= k < Z.of_nat n -> is_Some (byte_at m (a + k)).
Proof.
  intros [bytes Hb] Hk. unfold bytes_at in Hb. apply mapM_Some in Hb.
  assert (Hl : seqZ a (Z.of_nat n) !! Z.to_nat k = Some (a + k)).
  { apply lookup_seqZ. lia. }
  destruct (Forall2_lookup_l _ _ _ _ _ Hb Hl) as (y & _ & Hy). by exists y.
Qed.

Lemma mem_write_safe n m a v m' :
  mem_ok m -> mem_top m -> (0 < n <= 8)%nat -> 0 <= a < 2 ^ 64 ->
  mem_write n m a v = Ret (Ok m') -> mem_ok m' /\ mem_top m'.
Proof.
  intros Hok Htop Hn Ha Hw. pose proof (mem_write_spec n m a v Hok Hn Ha) as Hs.
  destruct (bytes_at byte_at m a n) as [bytes|] eqn:Hb; [|congruence].
  destruct Hs as (m'' & Hw' & Hok' & Hbyte). rewrite Hw in Hw'. injection Hw' as <-.
  split; [done|]. intros x Hx. rewrite Hbyte in Hx. case_decide as Hr; [|by apply Htop].
  apply Htop. replace x with (a + (x - a)) by lia. eapply bytes_at_defined; [by eexists|lia].
Qed.

Lemma set_pc_safe (s : state) p :
  machine_ok s -> 0 <= p < 2 ^ 64 ->
  exec_safe (let (f, r) := set_pc (m_pc s) (m_memory s) p in Ret (with_pc s f, from_set_pc r)).
Proof.
  intros Hs Hp. cbn [set_pc Basic_ProgramCounter]. unfold basic_set_pc.
  assert (Hsame : machine_ok (with_pc s (m_pc s))) by (by destruct s).
  destruct (p =? _); [by eexists _, _|]. destruct (p mod _ =? 0) eqn:Hm; cbn [negb].
  - apply (continue_safe (with_pc s _)). destruct Hs. split; try done. by apply Z.eqb_eq in Hm.
  - by eexists _, _.
Qed.

Lemma old_pc_safe n (s : state) :
  past n s -> old_pc (Mem := Mem) (m_pc s) n = Ret (pc (m_pc s) - n).
Proof. intros [_ Hpc]. unfold old_pc. cbn. rewrite (proj2 (Z.ltb_ge _ _)) by done. done. Qed.

Lemma wrap_64_range x : 0 <= wrap 64 x < 2 ^ 64.
Proof. apply wrap_range. lia. Qed.

Lemma jump_safe (s : state) imm : past 4 s -> exec_safe (jump_relative s imm).
Proof.
  intros Hs. unfold jump_relative. rewrite old_pc_safe by done. cbn [obind].
  apply set_pc_safe; [apply Hs|apply wrap_64_range].
Qed.

Lemma branch_safe (s : state) taken imm : past 4 s -> exec_safe (branch s taken imm).
Proof.
  intros Hs. unfold branch. destruct taken; [by apply jump_safe|]. apply continue_safe, Hs.
Qed.

Lemma load_safe (s : state) rd n extend addr :
  machine_ok s -> (0 < n <= 8)%nat -> 0 <= addr < 2 ^ 64 ->
  (forall v, 0 <= v < 2 ^ (8 * Z.of_nat n) -> 0 <= extend v < 2 ^ 64) ->
  exec_safe (load s rd n extend addr).
Proof.
  intros Hs Hn Ha Hext. unfold load.
  pose proof (mem_read_spec n (m_memory s) addr (ok_mem s Hs) Hn Ha) as Hr.
  destruct (bytes_at byte_at (m_memory s) addr n) as [bytes|]; rewrite Hr; cbn [obind];
    eexists _, _; (split_and!; [done|done|]); cbn; [|done].
  apply Hext. by eapply mem_read_range; [apply Hs| | |].
Qed.

Lemma store_safe (s : state) n addr v :
  machine_ok s -> (0 < n <= 8)%nat -> 0 <= addr < 2 ^ 64 -> exec_safe (store s n addr v).
Proof.
  intros Hs Hn Ha. unfold store.
  pose proof (mem_write_spec n (m_memory s) addr v (ok_mem s Hs) Hn Ha) as Hw.
  destruct (bytes_at byte_at (m_memory s) addr n) as [bytes|] eqn:Hb.
  - destruct Hw as (m' & Hw & _ & _). rewrite Hw. cbn [obind]. apply continue_safe.
    destruct (mem_write_safe n _ _ _ _ (ok_mem s Hs) (ok_top s Hs) Hn Ha Hw). destruct Hs. by split.
  - rewrite Hw. cbn [obind]. by eexists _, _.
Qed.

Lemma reg_write_safe (s : state) rd v :
  machine_ok s -> 0 <= v < 2 ^ 64 ->
  exists regs, reg_write (m_regs s) rd v = Ret regs /\ machine_ok (with_regs s regs).
Proof.
  intros [Hr Hm Ht Hp] Hv. destruct (reg_write_spec (m_regs s) rd v Hr Hv) as (regs & Hw & Hok & _).
  exists regs. split; [done|]. by split.
Qed.

Lemma jalr_safe (s : state) rd imm v : past 4 s -> exec_safe (execute_jalr s rd imm v).
Proof.
  intros [Hs _]. unfold execute_jalr. destruct (reg_write_safe s rd (pc (m_pc s)) Hs) as (regs & Hw & Hs').
  { apply (ok_pc s Hs). }
  cbn [get_pc Basic_ProgramCounter]. rewrite Hw. cbn [obind].
  apply (set_pc_safe (with_regs s regs)); [done|]. pose proof (wrap_64_range (v + sext imm)) as Hr.
  set (x := wrap 64 (v + sext imm)) in *. change (2 ^ 64 - 2) with (wrap 64 (-2)).
  rewrite wrap_land by lia. apply wrap_64_range.
Qed.

Lemma jal_safe (s : state) rd imm : past 4 s -> exec_safe (execute_jal s rd imm).
Proof.
  intros Hs. unfold execute_jal. rewrite old_pc_safe by done. cbn [obind get_pc Basic_ProgramCounter].
  destruct (reg_write_safe s rd (pc (m_pc s)) (proj1 Hs)) as (regs & Hw & Hs').
  { apply (ok_pc s), Hs. }
  rewrite Hw. cbn [obind]. apply (set_pc_safe (with_regs s regs)); [done|apply wrap_64_range].
Qed.
Lemma agrees_safe (s : state) (i : Rv64Instruction R) a b r :
  machine_ok s -> agrees i a b r -> exec_safe (continue_with s r).
Proof.
  intros Hs (rd & v & _ & ->). eexists _, _. split_and!; [done|done|]. apply wrap_64_range.
Qed.

Lemma execute_load_safe (s : state) i a o :
  machine_ok s -> execute_load i a s = Some o -> exec_safe o.
Proof.
  intros Hs. destruct i; cbn [execute_load]; intros Ho; try discriminate Ho; injection Ho as <-;
    (apply load_safe; [done|lia|apply wrap_64_range|]); intros x Hx; cbn in Hx;
    first [apply wrap_64_range|lia].
Qed.

Lemma execute_store_safe (s : state) i a b o :
  machine_ok s -> execute_store i a b s = Some o -> exec_safe o.
Proof.
  intros Hs. destruct i; cbn [execute_store]; intros Ho; try discriminate Ho; injection Ho as <-;
    (apply store_safe; [done|lia|apply wrap_64_range]).
Qed.

Lemma execute_branch_safe (s : state) i a b o :
  past 4 s -> execute_branch i a b s = Some o -> exec_safe o.
Proof.
  intros Hs. destruct i; cbn [execute_branch]; intros Ho; try discriminate Ho; injection Ho as <-;
    by apply branch_safe.
Qed.

Lemma execute_other_safe (s : state) i a : past 4 s -> exec_safe (execute_other i a s).
Proof.
  intros Hs. pose proof (old_pc_safe 4 s Hs) as Hold. pose proof (proj1 Hs) as Hok.
  assert (Hill : exec_safe (let! old := old_pc (Mem := Mem) (m_pc s) 4 in
    Ret (s, Err (IllegalInstruction old)))) by (rewrite Hold; by eexists _, _).
  destruct i; cbn [execute_other]; try exact Hill.
  - by apply jalr_safe.
  - eexists _, _. split_and!; [done|done|apply wrap_64_range].
  - rewrite Hold. eexists _, _. split_and!; [done|done|apply wrap_64_range].
  - by apply jal_safe.
  - apply continue_safe. by destruct s, Hok.
  - apply continue_safe. by destruct s, Hok.
  - unfold execute_ecall. cbn [handle_ecall IllegalEcall_handler]. unfold illegal_ecall.
    rewrite Hold. cbn [obind]. eexists _, _. split_and!; [done| |done]. by destruct s, Hok.
  - apply (continue_safe (Machine _ _ _ _)). by destruct s, Hok.
Qed.

Lemma execute_safe (s : state) i a b :
  past 4 s -> 0 <= a < 2 ^ 64 -> 0 <= b < 2 ^ 64 -> wf i -> exec_safe (execute i a b s).
Proof.
  intros Hs Ha Hb Hwf. pose proof (proj1 Hs) as Hok. unfold execute.
  destruct (execute_r i a b) as [r|] eqn:Er; [apply (agrees_safe s i a b); [done|by apply execute_r_isa]|].
  destruct (execute_rw i a b) as [r|] eqn:Erw; [apply (agrees_safe s i a b); [done|by apply execute_rw_isa]|].
  destruct (execute_i i a) as [r|] eqn:Ei; [apply (agrees_safe s i a b); [done|by apply (execute_i_isa i a b)]|].
  destruct (execute_load i a s) as [o|] eqn:El; [by eapply execute_load_safe|].
  destruct (execute_store i a b s) as [o|] eqn:Es; [by eapply execute_store_safe|].
  destruct (execute_branch i a b s) as [o|] eqn:Eb; [by eapply execute_branch_safe|].
  by apply execute_other_safe.
Qed.

(** Fetching gives a valid instruction and leaves the program counter past it, or an
    error. *)
Lemma fetch_safe (s : state) :
  machine_ok s ->
  exists f r, fetch (m_pc s) (m_memory s) = Ret (f, r) /\
    match r with
    | Ok (FetchInstruction i) => instr_wf i /\ past (size i) (with_pc s f) /\
        f = Fetcher (return_trap_address (m_pc s)) (pc (m_pc s) + size i)
    | Ok (FetchControlFlow _) => False
    | Err _ => f = m_pc s
    end.
Proof.
  intros Hs. pose proof (ok_pc s Hs) as [Hpc Hal]. cbn [fetch Basic_InstructionFetcher].
  unfold basic_fetch, fetch_word. set (p := pc (m_pc s)) in *.
  assert (Hgo : forall w i, 0 <= w < 2 ^ 32 -> decode w = Some i -> p + size i < 2 ^ 64 ->
    exists f r, (if p + size i <? 2 ^ 64
      then Ret (Fetcher (return_trap_address (m_pc s)) (p + size i), Ok (FetchInstruction i)) else Fault) =
      Ret (f, r : result (fetch_result I) execution_error) /\
      match r with
      | Ok (FetchInstruction i) => instr_wf i /\ past (size i) (with_pc s f) /\
          f = Fetcher (return_trap_address (m_pc s)) (p + size i)
      | Ok (FetchControlFlow _) => False
      | Err _ => f = m_pc s
      end).
  { intros w i Hw Hd Hlt. rewrite (proj2 (Z.ltb_lt _ _)) by done.
    pose proof (decode_size w i Hd) as Hsz. eexists _, _. split; [done|].
    split_and!; [by eapply decode_wf| |done]. split; [|cbn; lia].
    destruct Hs. split; try done. split; cbn; [rewrite Hsz in *; destruct (_ =? 3); lia|].
    pose proof alignment_pos. rewrite Z.add_mod, Hal, (size_aligned w) by (done || lia). by apply Z.mod_0_l; lia. }
  rewrite (mem_read_spec 4 (m_memory s) p (ok_mem s Hs)) by (done || lia). cbn [obind].
  destruct (bytes_at byte_at (m_memory s) p 4) as [bytes|] eqn:Hb.
  - cbn [obind]. destruct (bytes_at_bytes _ _ _ _ (ok_mem s Hs) Hb) as [Hall Hl].
    pose proof (from_le_bytes_range bytes Hall) as Hw. rewrite Hl in Hw.
    destruct (decode (from_le_bytes bytes)) as [i|] eqn:Hd; [|by eexists _, _].
    apply (Hgo _ _ Hw Hd). destruct (ok_top s Hs (p + 3)) as [_ Htop].
    { apply (bytes_at_defined _ _ 4); [by eexists|lia]. }
    rewrite (decode_size _ _ Hd). destruct (_ =? 3); lia.
  - rewrite (mem_read_spec 2 (m_memory s) p (ok_mem s Hs)) by (done || lia). cbn [obind].
    destruct (bytes_at byte_at (m_memory s) p 2) as [bytes|] eqn:Hb2; [|by eexists _, _].
    destruct (Z.eqb_spec (Z.land (from_le_bytes bytes) 3) 3) as [|Hne]; [by eexists _, _|]. cbn [obind].
    destruct (bytes_at_bytes _ _ _ _ (ok_mem s Hs) Hb2) as [Hall Hl].
    pose proof (from_le_bytes_range bytes Hall) as Hw. rewrite Hl in Hw.
    change (2 ^ (8 * Z.of_nat 2)) with 65536 in Hw.
    destruct (decode (from_le_bytes bytes)) as [i|] eqn:Hd; [|by eexists _, _].
    apply (Hgo (from_le_bytes bytes) i); [lia|done|]. destruct (ok_top s Hs (p + 1)) as [_ Htop].
    { apply (bytes_at_defined _ _ 2); [by eexists|lia]. }
    rewrite (decode_size _ _ Hd), (proj2 (Z.eqb_neq _ _)) by done. lia.
Qed.

(** ** The loop, for any instructions that execute safely *)

Context `{!ExecutableInstruction I R Regs Mem fetcher IllegalEcallHandler}.

Definition executes_safely : Prop :=
  forall (s : state) i a b, past (size i) s -> 0 <= a < 2 ^ 64 -> 0 <= b < 2 ^ 64 -> instr_wf i ->
  exec_safe (exec i a b s).

Lemma step_safe (s : state) :
  executes_safely -> machine_ok s ->
  exists s' r, step (I := I) (R := R) s = Ret (s', r) /\ machine_ok s'.
Proof.
  intros Hexec Hs. destruct (fetch_safe s Hs) as (f & r & Hf & Hr). unfold step. rewrite Hf. cbn [obind].
  destruct r as [[i|c]|e]; [|done|].
  2:{ subst f. eexists _, _. split; [done|]. by destruct s. }
  destruct Hr as (Hwf & Hpast & _).
  destruct (get_operands i) as [rs1 rs2]. pose proof (ok_regs s Hs) as Hregs.
  cbn [with_pc m_regs]. rewrite !reg_read_spec by done. cbn [obind].
  destruct (Hexec (with_pc s f) i (reg_value (m_regs s) rs1) (reg_value (m_regs s) rs2))
    as (s' & r' & He & Hs' & Hv); [done|by apply reg_value_range..|done|].
  rewrite He. cbn [obind].
  destruct r' as [[[rd v]|]|e]; [|by eexists _, _..].
  destruct (reg_write_safe s' rd v Hs' Hv) as (regs & Hw & Hok). rewrite Hw. cbn [obind]. eauto.
Qed.

Lemma interpret_safe fuel (s : state) :
  executes_safely -> machine_ok s ->
  exists s' r, interpret (I := I) (R := R) fuel s = Ret (s', r) /\ machine_ok s'.
Proof.
  intros Hexec. revert s. induction fuel as [|fuel IH]; intros s Hs; cbn [interpret]; [eauto|].
  destruct (step_safe s Hexec Hs) as (s' & r & Hst & Hs'). rewrite Hst. cbn [obind].
  destruct r as [r|]; [eauto|by apply IH].
Qed.
End safety.

(** Words shorter than 32 bits are no instructions. *)
Lemma try_decode_low_bits {R} `{Register R} w (i : Rv64Instruction R) : try_decode w = Some i -> Z.land w 3 = 3.
Proof.
  intros Hd. assert (Hop : opcode_of w mod 4 = 3).
  { unfold try_decode in Hd. cbv zeta in Hd.
    repeat match type of Hd with
    | (if ?x =? ?y then _ else _) = _ => destruct (Z.eqb_spec x y) as [->|]; [done|]
    end. done. }
  rewrite (shift_mask_mod w 2 3) by done. rewrite opcode_mod in Hop. change (2 ^ 2) with 4.
  rewrite <- Hop. Z.to_euclidean_division_equations. lia.
Qed.

#[export] Instance Rv64_InstructionLaws {R} `{RegisterLaws R} : InstructionLaws (Rv64Instruction R).
Proof.
  refine {| instr_wf := wf |}.
  - intros w i Hw Hd. by eapply try_decode_sound.
  - intros w i Hd. by rewrite (try_decode_low_bits w i Hd).
  - done.
  - done.
Defined.

(** ** RV64I programs *)

Section rv64i.
Context {R Regs Mem : Type} `{RegisterLaws R} `{!RegisterFile R Regs} `{!RegisterFileLaws R Regs}
  `{!VirtualMemory Mem} `{!VirtualMemoryLaws Mem}.

Abbreviation fetcher := (BasicInstructionFetcher (Rv64Instruction R)).
Abbreviation state := (machine Regs Mem fetcher IllegalEcallHandler).

Lemma rv64i_executes_safely :
  executes_safely (I := Rv64Instruction R) (R := R) (Regs := Regs) (Mem := Mem).
Proof. intros s i a b Hs Ha Hb Hwf. by apply execute_safe. Qed.

(** One turn at the encoding of an instruction. *)
Lemma step_encoded (s : state) i :
  machine_ok s -> wf i ->
  mem_read 4 (m_memory s) (pc (m_pc s)) = Ret (Ok (encode i)) ->
  step (I := Rv64Instruction R) (R := R) s =
    (let! (s', r) := execute i (reg_value (m_regs s) (operands i).1) (reg_value (m_regs s) (operands i).2)
       (with_pc s (Fetcher (return_trap_address (m_pc s)) (pc (m_pc s) + 4))) in
     match r with
     | Err e => Ret (s', Some (Err e))
     | Ok Break => Ret (s', Some (Ok tt))
     | Ok (Continue (rd, v)) => let! regs := reg_write (m_regs s') rd v in Ret (with_regs s' regs, None)
     end).
Proof.
  intros Hs Hwf Hread. destruct (fetch_safe s Hs) as (f & r & Hf & Hr). unfold step. rewrite Hf. cbn [obind].
  assert (Hi : r = Ok (FetchInstruction i)).
  { cbn [fetch Basic_InstructionFetcher] in Hf. unfold basic_fetch, fetch_word in Hf.
    rewrite Hread in Hf. cbn [obind decode Rv64_Instruction] in Hf.
    destruct (encode_decodes i Hwf) as [_ Hd]. rewrite Hd in Hf.
    destruct (_ <? _) in Hf; [by injection Hf as <- <-|done]. }
  subst r. destruct Hr as (_ & _ & ->). cbn [get_operands exec Rv64_Executable].
  destruct (operands i) as [rs1 rs2]. pose proof (ok_regs s Hs) as Hregs.
  cbn [with_pc m_regs]. rewrite !reg_read_spec by done. done.
Qed.

(** ** Properties *)

(** A program can do nothing that makes the interpreter panic or access memory
    outside of the given one: from any state with an aligned program counter and a
    memory that ends before the last address, any number of turns of the loop leads to
    a result or to a state where registers, memory and program counter are again as the
    interpreter relies on; the program counter stays aligned. *)
Theorem interpreter_safe fuel (s : state) :
  machine_ok s ->
  exists s' r, interpret (I := Rv64Instruction R) (R := R) fuel s = Ret (s', r) /\ machine_ok s'.
Proof.
  apply interpret_safe, rv64i_executes_safely.
Qed.

(** Fetching, decoding and executing agree: where the memory holds the encoding of
    an instruction at the program counter, one turn of the loop executes that
    instruction, with the values of its operand registers and the program counter past
    it, and then writes its result. *)
Theorem step_executes_encoded (s : state) i :
  machine_ok s -> wf i ->
  mem_read 4 (m_memory s) (pc (m_pc s)) = Ret (Ok (encode i)) ->
  step (I := Rv64Instruction R) (R := R) s =
    (let! (s', r) := execute i (reg_value (m_regs s) (operands i).1) (reg_value (m_regs s) (operands i).2)
       (with_pc s (Fetcher (return_trap_address (m_pc s)) (pc (m_pc s) + 4))) in
     match r with
     | Err e => Ret (s', Some (Err e))
     | Ok Break => Ret (s', Some (Ok tt))
     | Ok (Continue (rd, v)) => let! regs := reg_write (m_regs s') rd v in Ret (with_regs s' regs, None)
     end).
Proof. apply step_encoded. Qed.

(** The machine implements the instruction set: where the memory holds the encoding
    of a register-register or register-immediate instruction or of [Lui] at the program
    counter, one turn of the loop gives the destination register the value that the
    specification computes on unbounded integers from the operand registers, modulo
    [2 ^ 64], unless it is the zero register, advances the program counter and changes
    nothing else. *)
Theorem alu_refines_isa (s : state) i rd v :
  machine_ok s -> wf i ->
  mem_read 4 (m_memory s) (pc (m_pc s)) = Ret (Ok (encode i)) ->
  isa_value i (reg_value (m_regs s) (operands i).1) (reg_value (m_regs s) (operands i).2) =
    Some (rd, v) ->
  exists regs,
    step (I := Rv64Instruction R) (R := R) s =
      Ret (Machine regs (m_memory s) (Fetcher (return_trap_address (m_pc s)) (pc (m_pc s) + 4))
             (m_handler s), None) /\
    forall r, reg_value regs r =
      if decide (r = ZERO) then 0
      else if decide (r = rd) then v mod 2 ^ 64 else reg_value (m_regs s) r.
Proof.
  intros Hs Hwf Hread Hv. pose proof (ok_regs s Hs) as Hregs.
  destruct (reg_write_spec (m_regs s) rd (v mod 2 ^ 64) Hregs) as (regs & Hw & _ & Hval).
  { by apply Z.mod_pos_bound. }
  exists regs. split; [|done]. rewrite (step_encoded s i Hs Hwf Hread).
  rewrite (execute_isa i _ _ rd v) by (done || by apply reg_value_range).
  cbn [obind with_pc m_regs]. by rewrite Hw.
Qed.
End rv64i.

(** ** Witnesses *)

Definition sample_state : machine BasicRegisters (BasicMemory 0x1000)
    (BasicInstructionFetcher (Rv64Instruction Reg)) IllegalEcallHandler :=
  Machine (basic_registers_default (R := Reg))
    (mkBasicMemory (to_le_bytes 4 0xfff50513 ++ replicate 60 0)) (Fetcher 0 0x1000) IllegalEcall.

Lemma sample_state_ok : machine_ok (R := Reg) sample_state.
Proof.
  split.
  - apply (basic_registers_default_ok (R := Reg)).
  - split; [by vm_compute|]. apply Forall_app. split; [apply to_le_bytes_are_bytes|].
    by apply Forall_replicate.
  - intros a [b Hb]. cbn in Hb. unfold basic_byte_at in Hb. case_decide as Ha; [|done].
    apply lookup_lt_Some in Hb. cbn [data sample_state m_memory] in Hb. vm_compute length in Hb. lia.
  - done.
Qed.

Lemma interpreter_safe_witness :
  exists s' r, interpret (I := Rv64Instruction Reg) (R := Reg) 10 sample_state = Ret (s', r) /\
    machine_ok (R := Reg) s'.
Proof. apply (interpreter_safe (R := Reg) 10 sample_state). apply sample_state_ok. Defined.

Lemma step_executes_encoded_witness :
  step (I := Rv64Instruction Reg) (R := Reg) sample_state =
    (let! (s', r) := execute (Addi A0 A0 (-1)) 0 0 (with_pc sample_state (Fetcher 0 0x1004)) in
     match r with
     | Err e => Ret (s', Some (Err e))
     | Ok Break => Ret (s', Some (Ok tt))
     | Ok (Continue (rd, v)) => let! regs := reg_write (m_regs s') rd v in Ret (with_regs s' regs, None)
     end).
Proof.
  exact (step_executes_encoded (R := Reg) sample_state (Addi A0 A0 (-1)) sample_state_ok
    ltac:(cbn; lia) eq_refl).
Defined.

Lemma alu_refines_isa_witness :
  exists regs,
    step (I := Rv64Instruction Reg) (R := Reg) sample_state =
      Ret (Machine regs (m_memory sample_state) (Fetcher 0 0x1004) IllegalEcall, None) /\
    forall r : Reg, reg_value regs r =
      if decide (r = ZERO) then 0
      else if decide (r = A0) then (0 + -1) mod 2 ^ 64 else reg_value (m_regs sample_state) r.
Proof.
  exact (alu_refines_isa (R := Reg) sample_state (Addi A0 A0 (-1)) A0 (0 + -1) sample_state_ok
    ltac:(cbn; lia) eq_refl eq_refl).
Defined.
End RvInterp.
