(* ===== verification/Rv64Bits.v ===== *)
(** * Bit manipulation: the Zba, Zbb, Zbs, Zbc and Zicond extensions

    Model of the instruction types, decoders and [execute] methods of
    [instructions/rv64/b/zba.rs], [zbb.rs], [zbs.rs], [zbc.rs] and [instructions/zicond.rs]
    of [crates/execution/ab-riscv-primitives] and of the files of the same names in
    [crates/execution/ab-riscv-interpreter].  None of these instructions touches anything
    but its destination register, so [execute] gives the register and its value.  The
    hardware intrinsics some targets select instead of the generic code of
    [rv64_zbb_helpers.rs] and [rv64_zbc_helpers.rs] are not modelled. *)

From S2P Require Import Prelude RvInt RvRegisters RvMemory Rv64Decode Rv64Encoding Rv64Exec.
From stdpp Require Import prelude.
From Stdlib Require Import ZArith Lia.
Local Open Scope Z_scope.

Module Rv64Bits.
Import RvInt RvRegisters RvMemory Rv64 Rv64Encoding Rv64Exec.

(** ** Integer methods of Rust's standard library *)

(** [!x] *)
Definition not_ (w x : Z) : Z := Z.lxor x (2 ^ w - 1).

(** [count_ones], [trailing_zeros] and [leading_zeros] of the low [n] bits. *)
Fixpoint count_ones (n : nat) (x : Z) : Z :=
  match n with
  | O => 0
  | S n => bool_z (Z.testbit x (Z.of_nat n)) + count_ones n x
  end.

Fixpoint leading_zeros (n : nat) (x : Z) : Z :=
  match n with
  | O => 0
  | S n => if Z.testbit x (Z.of_nat n) then 0 else 1 + leading_zeros n x
  end.

Fixpoint trailing_zeros (n : nat) (x : Z) : Z :=
  match n with
  | O => 0
  | S n => if Z.testbit x 0 then 0 else 1 + trailing_zeros n (Z.shiftr x 1)
  end.

(** [rotate_left] and [rotate_right] by less than the width. *)
Definition rotate_left (w x n : Z) : Z :=
  Z.lor (wrap w (Z.shiftl x n)) (Z.shiftr x (w - n)).
Definition rotate_right (w x n : Z) : Z :=
  Z.lor (Z.shiftr x n) (wrap w (Z.shiftl x (w - n))).

Definition swap_bytes (x : Z) : Z := from_le_bytes (reverse (to_le_bytes 8 x)).

(** [rv64_zbb_helpers::orc_b] *)
Definition orc_b (src : Z) : Z :=
  from_le_bytes ((fun byte => if byte =? 0 then 0 else 0xff) <$> to_le_bytes 8 src).

(** [rv64_zbc_helpers::clmul_internal], the generic implementation: [b] is shifted right
    from turn to turn, and [mask] is zero minus its lowest bit. *)
Fixpoint clmul_loop (count : nat) (i : Z) (a b result : Z) : Z :=
  match count with
  | O => result
  | S count =>
      let mask := wrap 128 (0 - Z.land b 1) in
      clmul_loop count (i + 1) a (Z.shiftr b 1)
        (Z.lxor result (Z.land (wrap 128 (Z.shiftl a i)) mask))
  end.

Definition clmul_internal (a b : Z) : Z := clmul_loop 64 0 a b 0.

Definition clmul (a b : Z) : Z := wrap 64 (clmul_internal a b).
Definition clmulh (a b : Z) : Z := wrap 64 (Z.shiftr (clmul_internal a b) 64).
Definition clmulr (a b : Z) : Z := wrap 64 (Z.shiftr (clmul_internal a b) 63).

(** ** Instructions *)

Inductive Rv64ZbaInstruction (R : Type) : Type :=
| AddUw (rd rs1 rs2 : R)
| Sh1add (rd rs1 rs2 : R)
| Sh1addUw (rd rs1 rs2 : R)
| Sh2add (rd rs1 rs2 : R)
| Sh2addUw (rd rs1 rs2 : R)
| Sh3add (rd rs1 rs2 : R)
| Sh3addUw (rd rs1 rs2 : R)
| SlliUw (rd rs1 : R) (shamt : Z).
#[global] Arguments AddUw {R}.
#[global] Arguments Sh1add {R}.
#[global] Arguments Sh1addUw {R}.
#[global] Arguments Sh2add {R}.
#[global] Arguments Sh2addUw {R}.
#[global] Arguments Sh3add {R}.
#[global] Arguments Sh3addUw {R}.
#[global] Arguments SlliUw {R}.

Inductive Rv64ZbbInstruction (R : Type) : Type :=
| Andn (rd rs1 rs2 : R)
| Orn (rd rs1 rs2 : R)
| Xnor (rd rs1 rs2 : R)
| Clz (rd rs1 : R)
| Clzw (rd rs1 : R)
| Ctz (rd rs1 : R)
| Ctzw (rd rs1 : R)
| Cpop (rd rs1 : R)
| Cpopw (rd rs1 : R)
| Max (rd rs1 rs2 : R)
| Maxu (rd rs1 rs2 : R)
| Min (rd rs1 rs2 : R)
| Minu (rd rs1 rs2 : R)
| Sextb (rd rs1 : R)
| Sexth (rd rs1 : R)
| Zexth (rd rs1 : R)
| Rol (rd rs1 rs2 : R)
| Rolw (rd rs1 rs2 : R)
| Ror (rd rs1 rs2 : R)
| Rori (rd rs1 : R) (shamt : Z)
| Roriw (rd rs1 : R) (shamt : Z)
| Rorw (rd rs1 rs2 : R)
| Orcb (rd rs1 : R)
| Rev8 (rd rs1 : R).
#[global] Arguments Andn {R}.
#[global] Arguments Orn {R}.
#[global] Arguments Xnor {R}.
#[global] Arguments Clz {R}.
#[global] Arguments Clzw {R}.
#[global] Arguments Ctz {R}.
#[global] Arguments Ctzw {R}.
#[global] Arguments Cpop {R}.
#[global] Arguments Cpopw {R}.
#[global] Arguments Max {R}.
#[global] Arguments Maxu {R}.
#[global] Arguments Min {R}.
#[global] Arguments Minu {R}.
#[global] Arguments Sextb {R}.
#[global] Arguments Sexth {R}.
#[global] Arguments Zexth {R}.
#[global] Arguments Rol {R}.
#[global] Arguments Rolw {R}.
#[global] Arguments Ror {R}.
#[global] Arguments Rori {R}.
#[global] Arguments Roriw {R}.
#[global] Arguments Rorw {R}.
#[global] Arguments Orcb {R}.
#[global] Arguments Rev8 {R}.

Inductive Rv64ZbsInstruction (R : Type) : Type :=
| Bset (rd rs1 rs2 : R)
| Bseti (rd rs1 : R) (shamt : Z)
| Bclr (rd rs1 rs2 : R)
| Bclri (rd rs1 : R) (shamt : Z)
| Binv (rd rs1 rs2 : R)
| Binvi (rd rs1 : R) (shamt : Z)
| Bext (rd rs1 rs2 : R)
| Bexti (rd rs1 : R) (shamt : Z).
#[global] Arguments Bset {R}.
#[global] Arguments Bseti {R}.
#[global] Arguments Bclr {R}.
#[global] Arguments Bclri {R}.
#[global] Arguments Binv {R}.
#[global] Arguments Binvi {R}.
#[global] Arguments Bext {R}.
#[global] Arguments Bexti {R}.

Inductive Rv64ZbcInstruction (R : Type) : Type :=
| Clmul (rd rs1 rs2 : R)
| Clmulh (rd rs1 rs2 : R)
| Clmulr (rd rs1 rs2 : R).
#[global] Arguments Clmul {R}.
#[global] Arguments Clmulh {R}.
#[global] Arguments Clmulr {R}.

Inductive ZicondInstruction (R : Type) : Type :=
| CzeroEqz (rd rs1 rs2 : R)
| CzeroNez (rd rs1 rs2 : R).
#[global] Arguments CzeroEqz {R}.
#[global] Arguments CzeroNez {R}.

(** [Rv64BInstruction] inherits from three enums. *)
Inductive Rv64BInstruction (R : Type) : Type :=
| InZba (i : Rv64ZbaInstruction R)
| InZbb (i : Rv64ZbbInstruction R)
| InZbs (i : Rv64ZbsInstruction R).
#[global] Arguments InZba {R}.
#[global] Arguments InZbb {R}.
#[global] Arguments InZbs {R}.

(** ** Decoding *)

Definition funct6_of (instruction : Z) : Z := Z.land (Z.shiftr instruction 26) 0x3f.
Definition low6_of (instruction : Z) : Z := Z.land (Z.shiftr instruction 20) 0x3f.
Definition funct12_of (instruction : Z) : Z := Z.land (Z.shiftr instruction 20) 0xfff.

Section decode.
Context {R : Type} `{Register R}.

Definition decode_zba_op (w : Z) : option (Rv64ZbaInstruction R) :=
  rd ← from_bits (rd_bits_of w); rs1 ← from_bits (rs1_bits_of w); rs2 ← from_bits (rs2_bits_of w);
  let funct3 := funct3_of w in let funct7 := funct7_of w in
  if (funct3 =? 2) && (funct7 =? 0x10) then Some (Sh1add rd rs1 rs2) else
  if (funct3 =? 4) && (funct7 =? 0x10) then Some (Sh2add rd rs1 rs2) else
  if (funct3 =? 6) && (funct7 =? 0x10) then Some (Sh3add rd rs1 rs2) else
  None.

Definition decode_zba_op_32 (w : Z) : option (Rv64ZbaInstruction R) :=
  rd ← from_bits (rd_bits_of w); rs1 ← from_bits (rs1_bits_of w);
  let funct3 := funct3_of w in let funct7 := funct7_of w in
  if funct3 =? 0 then
    (rs2 ← from_bits (rs2_bits_of w); if funct7 =? 4 then Some (AddUw rd rs1 rs2) else None) else
  if funct3 =? 2 then
    (rs2 ← from_bits (rs2_bits_of w); if funct7 =? 0x10 then Some (Sh1addUw rd rs1 rs2) else None) else
  if funct3 =? 4 then
    (rs2 ← from_bits (rs2_bits_of w); if funct7 =? 0x10 then Some (Sh2addUw rd rs1 rs2) else None) else
  if funct3 =? 6 then
    (rs2 ← from_bits (rs2_bits_of w); if funct7 =? 0x10 then Some (Sh3addUw rd rs1 rs2) else None) else
  None.

(** [Rv64ZbaInstruction::try_decode] *)
Definition try_decode_zba (w : Z) : option (Rv64ZbaInstruction R) :=
  let opcode := opcode_of w in
  if opcode =? 0x33 then decode_zba_op w else
  if opcode =? 0x1b then
    (rd ← from_bits (rd_bits_of w); rs1 ← from_bits (rs1_bits_of w);
     if (funct3_of w =? 1) && (funct6_of w =? 2) then Some (SlliUw rd rs1 (low6_of w)) else None) else
  if opcode =? 0x3b then decode_zba_op_32 w else
  None.

Definition decode_zbb_op_imm (w : Z) : option (Rv64ZbbInstruction R) :=
  rd ← from_bits (rd_bits_of w); rs1 ← from_bits (rs1_bits_of w);
  let funct3 := funct3_of w in
  let low6 := low6_of w in
  if funct3 =? 1 then
    (if funct6_of w =? 0x18 then
       if low6 =? 0 then Some (Clz rd rs1) else
       if low6 =? 1 then Some (Ctz rd rs1) else
       if low6 =? 2 then Some (Cpop rd rs1) else
       if low6 =? 4 then Some (Sextb rd rs1) else
       if low6 =? 5 then Some (Sexth rd rs1) else None
     else None) else
  if funct3 =? 5 then
    (if funct12_of w =? 0x287 then Some (Orcb rd rs1) else
     if funct12_of w =? 0x6b8 then Some (Rev8 rd rs1) else
     if funct6_of w =? 0x18 then Some (Rori rd rs1 low6) else None) else
  None.

Definition decode_zbb_op (w : Z) : option (Rv64ZbbInstruction R) :=
  rd ← from_bits (rd_bits_of w); rs1 ← from_bits (rs1_bits_of w); rs2 ← from_bits (rs2_bits_of w);
  let funct3 := funct3_of w in let funct7 := funct7_of w in
  if funct3 =? 1 then (if funct7 =? 0x30 then Some (Rol rd rs1 rs2) else None) else
  if funct3 =? 4 then
    (if funct7 =? 0x20 then Some (Xnor rd rs1 rs2) else
     if funct7 =? 5 then Some (Min rd rs1 rs2) else None) else
  if funct3 =? 5 then
    (if funct7 =? 0x30 then Some (Ror rd rs1 rs2) else
     if funct7 =? 5 then Some (Minu rd rs1 rs2) else None) else
  if funct3 =? 6 then
    (if funct7 =? 0x20 then Some (Orn rd rs1 rs2) else
     if funct7 =? 5 then Some (Max rd rs1 rs2) else None) else
  if funct3 =? 7 then
    (if funct7 =? 0x20 then Some (Andn rd rs1 rs2) else
     if funct7 =? 5 then Some (Maxu rd rs1 rs2) else None) else
  None.

Definition decode_zbb_op_imm_32 (w : Z) : option (Rv64ZbbInstruction R) :=
  rd ← from_bits (rd_bits_of w); rs1 ← from_bits (rs1_bits_of w);
  let funct3 := funct3_of w in let funct7 := funct7_of w in
  let rs2_bits := rs2_bits_of w in
  if funct3 =? 1 then
    (if funct7 =? 0x30 then
       if rs2_bits =? 0 then Some (Clzw rd rs1) else
       if rs2_bits =? 1 then Some (Ctzw rd rs1) else
       if rs2_bits =? 2 then Some (Cpopw rd rs1) else None
     else None) else
  if funct3 =? 5 then (if funct7 =? 0x30 then Some (Roriw rd rs1 rs2_bits) else None) else
  None.

Definition decode_zbb_op_32 (w : Z) : option (Rv64ZbbInstruction R) :=
  rd ← from_bits (rd_bits_of w); rs1 ← from_bits (rs1_bits_of w); rs2 ← from_bits (rs2_bits_of w);
  let funct3 := funct3_of w in let funct7 := funct7_of w in
  if funct3 =? 1 then (if funct7 =? 0x30 then Some (Rolw rd rs1 rs2) else None) else
  if funct3 =? 4 then
    (if (funct7 =? 4) && (rs2_bits_of w =? 0) then Some (Zexth rd rs1) else None) else
  if funct3 =? 5 then (if funct7 =? 0x30 then Some (Rorw rd rs1 rs2) else None) else
  None.

(** [Rv64ZbbInstruction::try_decode] *)
Definition try_decode_zbb (w : Z) : option (Rv64ZbbInstruction R) :=
  let opcode := opcode_of w in
  if opcode =? 0x13 then decode_zbb_op_imm w else
  if opcode =? 0x33 then decode_zbb_op w else
  if opcode =? 0x1b then decode_zbb_op_imm_32 w else
  if opcode =? 0x3b then decode_zbb_op_32 w else
  None.

Definition decode_zbs_op (w : Z) : option (Rv64ZbsInstruction R) :=
  rd ← from_bits (rd_bits_of w); rs1 ← from_bits (rs1_bits_of w); rs2 ← from_bits (rs2_bits_of w);
  let funct3 := funct3_of w in let funct7 := funct7_of w in
  if (funct3 =? 1) && (funct7 =? 0x14) then Some (Bset rd rs1 rs2) else
  if (funct3 =? 1) && (funct7 =? 0x24) then Some (Bclr rd rs1 rs2) else
  if (funct3 =? 1) && (funct7 =? 0x34) then Some (Binv rd rs1 rs2) else
  if (funct3 =? 5) && (funct7 =? 0x24) then Some (Bext rd rs1 rs2) else
  None.

Definition decode_zbs_op_imm (w : Z) : option (Rv64ZbsInstruction R) :=
  rd ← from_bits (rd_bits_of w); rs1 ← from_bits (rs1_bits_of w);
  let funct3 := funct3_of w in let funct6 := funct6_of w in
  let shamt := low6_of w in
  if (funct3 =? 1) && (funct6 =? 0xa) then Some (Bseti rd rs1 shamt) else
  if (funct3 =? 1) && (funct6 =? 0x12) then Some (Bclri rd rs1 shamt) else
  if (funct3 =? 1) && (funct6 =? 0x1a) then Some (Binvi rd rs1 shamt) else
  if (funct3 =? 5) && (funct6 =? 0x12) then Some (Bexti rd rs1 shamt) else
  None.

(** [Rv64ZbsInstruction::try_decode] *)
Definition try_decode_zbs (w : Z) : option (Rv64ZbsInstruction R) :=
  let opcode := opcode_of w in
  if opcode =? 0x33 then decode_zbs_op w else
  if opcode =? 0x13 then decode_zbs_op_imm w else
  None.

(** [Rv64ZbcInstruction::try_decode] *)
Definition try_decode_zbc (w : Z) : option (Rv64ZbcInstruction R) :=
  if opcode_of w =? 0x33 then
    rd ← from_bits (rd_bits_of w); rs1 ← from_bits (rs1_bits_of w); rs2 ← from_bits (rs2_bits_of w);
    let funct3 := funct3_of w in let funct7 := funct7_of w in
    if (funct3 =? 1) && (funct7 =? 5) then Some (Clmul rd rs1 rs2) else
    if (funct3 =? 3) && (funct7 =? 5) then Some (Clmulh rd rs1 rs2) else
    if (funct3 =? 2) && (funct7 =? 5) then Some (Clmulr rd rs1 rs2) else
    None
  else None.

(** [ZicondInstruction::try_decode] *)
Definition try_decode_zicond (w : Z) : option (ZicondInstruction R) :=
  if (opcode_of w =? 0x33) && (funct7_of w =? 7) then
    rd ← from_bits (rd_bits_of w); rs1 ← from_bits (rs1_bits_of w); rs2 ← from_bits (rs2_bits_of w);
    if funct3_of w =? 5 then Some (CzeroEqz rd rs1 rs2) else
    if funct3_of w =? 7 then Some (CzeroNez rd rs1 rs2) else
    None
  else None.

(** The inherited decoders are tried in order. *)
Definition try_decode_b (w : Z) : option (Rv64BInstruction R) :=
  match try_decode_zba w with Some i => Some (InZba i) | None =>
  match try_decode_zbb w with Some i => Some (InZbb i) | None =>
  match try_decode_zbs w with Some i => Some (InZbs i) | None => None end end end.
End decode.

(** ** Execution *)

Section execute.
Context {R : Type}.

(** [Rv64ZbaInstruction::execute] *)
Definition execute_zba (i : Rv64ZbaInstruction R) (rs1_value rs2_value : Z) : outcome (R * Z) :=
  match i with
  | AddUw rd _ _ => Ret (rd, wrap 64 (wrap 32 rs1_value + rs2_value))
  | Sh1add rd _ _ => let! v := shl 64 rs1_value 1 in Ret (rd, wrap 64 (v + rs2_value))
  | Sh1addUw rd _ _ => let! v := shl 64 (wrap 32 rs1_value) 1 in Ret (rd, wrap 64 (v + rs2_value))
  | Sh2add rd _ _ => let! v := shl 64 rs1_value 2 in Ret (rd, wrap 64 (v + rs2_value))
  | Sh2addUw rd _ _ => let! v := shl 64 (wrap 32 rs1_value) 2 in Ret (rd, wrap 64 (v + rs2_value))
  | Sh3add rd _ _ => let! v := shl 64 rs1_value 3 in Ret (rd, wrap 64 (v + rs2_value))
  | Sh3addUw rd _ _ => let! v := shl 64 (wrap 32 rs1_value) 3 in Ret (rd, wrap 64 (v + rs2_value))
  | SlliUw rd _ shamt => let! v := shl 64 (wrap 32 rs1_value) (Z.land shamt 0x3f) in Ret (rd, v)
  end.

(** [i64::from(x.cast_signed()).cast_unsigned()] of a [u32] *)
Definition sext_word (x : Z) : Z := sext (signed 32 x).

(** [Rv64ZbbInstruction::execute] *)
Definition execute_zbb (i : Rv64ZbbInstruction R) (rs1_value rs2_value : Z) : R * Z :=
  match i with
  | Andn rd _ _ => (rd, Z.land rs1_value (not_ 64 rs2_value))
  | Orn rd _ _ => (rd, Z.lor rs1_value (not_ 64 rs2_value))
  | Xnor rd _ _ => (rd, not_ 64 (Z.lxor rs1_value rs2_value))
  | Clz rd _ => (rd, leading_zeros 64 rs1_value)
  | Clzw rd _ => (rd, leading_zeros 32 (wrap 32 rs1_value))
  | Ctz rd _ => (rd, trailing_zeros 64 rs1_value)
  | Ctzw rd _ => (rd, trailing_zeros 32 (wrap 32 rs1_value))
  | Cpop rd _ => (rd, count_ones 64 rs1_value)
  | Cpopw rd _ => (rd, count_ones 32 (wrap 32 rs1_value))
  | Max rd _ _ => (rd, wrap 64 (Z.max (signed 64 rs1_value) (signed 64 rs2_value)))
  | Maxu rd _ _ => (rd, Z.max rs1_value rs2_value)
  | Min rd _ _ => (rd, wrap 64 (Z.min (signed 64 rs1_value) (signed 64 rs2_value)))
  | Minu rd _ _ => (rd, Z.min rs1_value rs2_value)
  | Sextb rd _ => (rd, sext (signed 8 rs1_value))
  | Sexth rd _ => (rd, sext (signed 16 rs1_value))
  | Zexth rd _ => (rd, wrap 16 rs1_value)
  | Rol rd _ _ => (rd, rotate_left 64 rs1_value (Z.land rs2_value 0x3f))
  | Rolw rd _ _ => (rd, sext_word (rotate_left 32 (wrap 32 rs1_value) (Z.land rs2_value 0x1f)))
  | Ror rd _ _ => (rd, rotate_right 64 rs1_value (Z.land rs2_value 0x3f))
  | Rori rd _ shamt => (rd, rotate_right 64 rs1_value (Z.land shamt 0x3f))
  | Roriw rd _ shamt => (rd, sext_word (rotate_right 32 (wrap 32 rs1_value) (Z.land shamt 0x1f)))
  | Rorw rd _ _ => (rd, sext_word (rotate_right 32 (wrap 32 rs1_value) (Z.land rs2_value 0x1f)))
  | Orcb rd _ => (rd, orc_b rs1_value)
  | Rev8 rd _ => (rd, swap_bytes rs1_value)
  end.

(** [Rv64ZbsInstruction::execute] *)
Definition execute_zbs (i : Rv64ZbsInstruction R) (rs1_value rs2_value : Z) : outcome (R * Z) :=
  match i with
  | Bset rd _ _ =>
      let! bit := shl 64 1 (Z.land rs2_value 0x3f) in Ret (rd, Z.lor rs1_value bit)
  | Bseti rd _ shamt => let! bit := shl 64 1 shamt in Ret (rd, Z.lor rs1_value bit)
  | Bclr rd _ _ =>
      let! bit := shl 64 1 (Z.land rs2_value 0x3f) in Ret (rd, Z.land rs1_value (not_ 64 bit))
  | Bclri rd _ shamt => let! bit := shl 64 1 shamt in Ret (rd, Z.land rs1_value (not_ 64 bit))
  | Binv rd _ _ =>
      let! bit := shl 64 1 (Z.land rs2_value 0x3f) in Ret (rd, Z.lxor rs1_value bit)
  | Binvi rd _ shamt => let! bit := shl 64 1 shamt in Ret (rd, Z.lxor rs1_value bit)
  | Bext rd _ _ => let! v := shr 64 rs1_value (Z.land rs2_value 0x3f) in Ret (rd, Z.land v 1)
  | Bexti rd _ shamt => let! v := shr 64 rs1_value shamt in Ret (rd, Z.land v 1)
  end.

(** [Rv64BInstruction::execute]: the inherited arms. *)
Definition execute_b (i : Rv64BInstruction R) (rs1_value rs2_value : Z) : outcome (R * Z) :=
  match i with
  | InZba i => execute_zba i rs1_value rs2_value
  | InZbb i => Ret (execute_zbb i rs1_value rs2_value)
  | InZbs i => execute_zbs i rs1_value rs2_value
  end.

(** [Rv64ZbcInstruction::execute] *)
Definition execute_zbc (i : Rv64ZbcInstruction R) (rs1_value rs2_value : Z) : R * Z :=
  match i with
  | Clmul rd _ _ => (rd, clmul rs1_value rs2_value)
  | Clmulh rd _ _ => (rd, clmulh rs1_value rs2_value)
  | Clmulr rd _ _ => (rd, clmulr rs1_value rs2_value)
  end.

(** [ZicondInstruction::execute] *)
Definition execute_zicond (i : ZicondInstruction R) (rs1_value rs2_value : Z) : R * Z :=
  match i with
  | CzeroEqz rd _ _ => (rd, if rs2_value =? 0 then 0 else rs1_value)
  | CzeroNez rd _ _ => (rd, if rs2_value =? 0 then rs1_value else 0)
  end.
End execute.

(** [get_rs1_rs2_operands]: the zero register where an operand is missing. *)
Section operands.
Context {R : Type} `{Register R}.

Definition operands_zba (i : Rv64ZbaInstruction R) : R * R :=
  match i with
  | AddUw _ rs1 rs2 | Sh1add _ rs1 rs2 | Sh1addUw _ rs1 rs2 | Sh2add _ rs1 rs2
  | Sh2addUw _ rs1 rs2 | Sh3add _ rs1 rs2 | Sh3addUw _ rs1 rs2 => (rs1, rs2)
  | SlliUw _ rs1 _ => (rs1, ZERO)
  end.

Definition operands_zbb (i : Rv64ZbbInstruction R) : R * R :=
  match i with
  | Andn _ rs1 rs2 | Orn _ rs1 rs2 | Xnor _ rs1 rs2 | Max _ rs1 rs2 | Maxu _ rs1 rs2
  | Min _ rs1 rs2 | Minu _ rs1 rs2 | Rol _ rs1 rs2 | Rolw _ rs1 rs2 | Ror _ rs1 rs2
  | Rorw _ rs1 rs2 => (rs1, rs2)
  | Rori _ rs1 _ | Roriw _ rs1 _ | Clz _ rs1 | Clzw _ rs1 | Ctz _ rs1 | Ctzw _ rs1 | Cpop _ rs1
  | Cpopw _ rs1 | Sextb _ rs1 | Sexth _ rs1 | Zexth _ rs1 | Orcb _ rs1 | Rev8 _ rs1 => (rs1, ZERO)
  end.

Definition operands_zbs (i : Rv64ZbsInstruction R) : R * R :=
  match i with
  | Bset _ rs1 rs2 | Bclr _ rs1 rs2 | Binv _ rs1 rs2 | Bext _ rs1 rs2 => (rs1, rs2)
  | Bseti _ rs1 _ | Bclri _ rs1 _ | Binvi _ rs1 _ | Bexti _ rs1 _ => (rs1, ZERO)
  end.

Definition operands_b (i : Rv64BInstruction R) : R * R :=
  match i with InZba i => operands_zba i | InZbb i => operands_zbb i | InZbs i => operands_zbs i end.

Definition operands_zbc (i : Rv64ZbcInstruction R) : R * R :=
  match i with Clmul _ rs1 rs2 | Clmulh _ rs1 rs2 | Clmulr _ rs1 rs2 => (rs1, rs2) end.

Definition operands_zicond (i : ZicondInstruction R) : R * R :=
  match i with CzeroEqz _ rs1 rs2 | CzeroNez _ rs1 rs2 => (rs1, rs2) end.
End operands.

(** ** Bits *)

Lemma testbit_wrap w x k : 0 <= w -> 0 <= k -> Z.testbit (wrap w x) k = (k <? w) && Z.testbit x k.
Proof.
  intros Hw Hk. unfold wrap. destruct (Z.ltb_spec k w).
  - by rewrite Z.mod_pow2_bits_low by lia.
  - by rewrite Z.mod_pow2_bits_high by lia.
Qed.

Lemma testbit_above w x k : 0 <= x < 2 ^ w -> w <= k -> Z.testbit x k = false.
Proof.
  intros Hx Hk. destruct (Z.lt_ge_cases w 0); [rewrite Z.pow_neg_r in Hx by done; lia|].
  rewrite <- (wrap_small w x Hx), testbit_wrap by lia. by rewrite (proj2 (Z.ltb_ge k w)).
Qed.

Lemma testbit_not w x k : 0 <= k < w -> Z.testbit (not_ w x) k = negb (Z.testbit x k).
Proof.
  intros Hk. unfold not_. rewrite Z.lxor_spec. replace (2 ^ w - 1) with (Z.ones w) by (rewrite Z.ones_equiv; lia).
  rewrite Z.ones_spec_low by done. apply xorb_true_r.
Qed.

Lemma testbit_neg x k : 0 <= k -> - 2 ^ k <= x < 2 ^ k -> Z.testbit x k = (x <? 0).
Proof.
  intros Hk Hx. destruct (Z.ltb_spec x 0).
  - rewrite <- (Z.lnot_involutive x), Z.lnot_spec by done. unfold Z.lnot.
    rewrite (testbit_above k); [done| |lia]. lia.
  - apply (testbit_above k); lia.
Qed.

(** Sign extension repeats the bit at the top. *)
Lemma testbit_signed w x k : 0 < w -> 0 <= k -> Z.testbit (signed w x) k = Z.testbit x (Z.min k (w - 1)).
Proof.
  intros Hw Hk.
  assert (Hlow : forall j, 0 <= j < w -> Z.testbit (signed w x) j = Z.testbit x j).
  { intros j Hj. pose proof (testbit_wrap w (signed w x) j) as H1. pose proof (testbit_wrap w x j) as H2.
    rewrite (proj2 (Z.ltb_lt j w)) in H1, H2 by lia. cbn in H1, H2.
    rewrite <- H1, <- H2, wrap_signed by lia. done. }
  destruct (Z.lt_ge_cases k w).
  - rewrite Hlow by lia. destruct (Z.lt_ge_cases k (w - 1)); [by rewrite Z.min_l by lia|].
    by replace k with (w - 1) by lia; rewrite Z.min_id.
  - rewrite Z.min_r by lia. rewrite <- Hlow by lia. pose proof (signed_range w x Hw) as Hr.
    rewrite (testbit_neg _ (w - 1)) by lia. apply testbit_neg; [lia|].
    pose proof (Z.pow_le_mono_r 2 (w - 1) k ltac:(lia) ltac:(lia)). lia.
Qed.

Lemma testbit_sext w x k : 0 < w -> 0 <= k < 64 -> Z.testbit (sext (signed w x)) k = Z.testbit x (Z.min k (w - 1)).
Proof.
  intros Hw Hk. unfold sext. rewrite testbit_wrap, testbit_signed by lia. by rewrite (proj2 (Z.ltb_lt k 64)) by lia.
Qed.

Lemma testbit_rotate_left w x n k :
  0 <= x < 2 ^ w -> 0 <= n < w -> 0 <= k < w -> Z.testbit (rotate_left w x n) k = Z.testbit x ((k - n) mod w).
Proof.
  intros Hx Hn Hk. unfold rotate_left. rewrite Z.lor_spec, testbit_wrap, Z.shiftl_spec, Z.shiftr_spec by lia.
  rewrite (proj2 (Z.ltb_lt k w)) by lia. cbn [andb]. destruct (Z.lt_ge_cases k n).
  - rewrite (Z.testbit_neg_r x (k - n)) by lia. cbn [orb]. f_equal.
    rewrite <- (Z.mod_add (k - n) 1 w), Z.mod_small; lia.
  - rewrite (testbit_above w x (k + (w - n))), orb_false_r by lia. by rewrite Z.mod_small by lia.
Qed.

Lemma testbit_rotate_right w x n k :
  0 <= x < 2 ^ w -> 0 <= n < w -> 0 <= k < w -> Z.testbit (rotate_right w x n) k = Z.testbit x ((k + n) mod w).
Proof.
  intros Hx Hn Hk. unfold rotate_right. rewrite Z.lor_spec, testbit_wrap, Z.shiftl_spec, Z.shiftr_spec by lia.
  rewrite (proj2 (Z.ltb_lt k w)) by lia. cbn [andb]. destruct (Z.lt_ge_cases (k + n) w).
  - rewrite (Z.testbit_neg_r x (k - _)), orb_false_r by lia. by rewrite Z.mod_small by lia.
  - rewrite (testbit_above w x (k + n)) by lia. cbn [orb]. f_equal.
    rewrite <- (Z.mod_add (k + n) (-1) w), Z.mod_small; lia.
Qed.

(** A value whose bits end below [w]. *)
Lemma bits_range w x : 0 <= w -> (forall k, w <= k -> Z.testbit x k = false) -> 0 <= x < 2 ^ w.
Proof.
  intros Hw Hx. replace x with (wrap w x); [by apply wrap_range|]. apply Z.bits_inj'. intros k Hk.
  rewrite testbit_wrap by done. destruct (Z.ltb_spec k w); [done|]. by rewrite Hx.
Qed.

Lemma lor_range_bits w a b : 0 <= w -> 0 <= a < 2 ^ w -> 0 <= b < 2 ^ w -> 0 <= Z.lor a b < 2 ^ w.
Proof. intros Hw Ha Hb. apply bits_range; [done|]. intros k Hk. by rewrite Z.lor_spec, !(testbit_above w) by done. Qed.

Lemma lxor_range_bits w a b : 0 <= w -> 0 <= a < 2 ^ w -> 0 <= b < 2 ^ w -> 0 <= Z.lxor a b < 2 ^ w.
Proof. intros Hw Ha Hb. apply bits_range; [done|]. intros k Hk. by rewrite Z.lxor_spec, !(testbit_above w) by done. Qed.

Lemma land_range_bits w a b : 0 <= w -> 0 <= a < 2 ^ w -> 0 <= Z.land a b < 2 ^ w.
Proof. intros Hw Ha. apply bits_range; [done|]. intros k Hk. by rewrite Z.land_spec, (testbit_above w a) by done. Qed.

Lemma not_range w x : 0 <= w -> 0 <= x < 2 ^ w -> 0 <= not_ w x < 2 ^ w.
Proof. intros Hw Hx. apply lxor_range_bits; [done..|]. pose proof (pow2_pos w Hw). lia. Qed.

Lemma shiftr_range w x n : 0 <= w -> 0 <= n -> 0 <= x < 2 ^ w -> 0 <= Z.shiftr x n < 2 ^ w.
Proof.
  intros Hw Hn Hx. apply bits_range; [done|]. intros k Hk. rewrite Z.shiftr_spec by lia.
  apply (testbit_above w); lia.
Qed.

Lemma rotate_left_range w x n : 0 <= x < 2 ^ w -> 0 <= n < w -> 0 <= rotate_left w x n < 2 ^ w.
Proof. intros Hx Hn. apply lor_range_bits; [lia|apply wrap_range; lia|apply shiftr_range; lia]. Qed.

Lemma rotate_right_range w x n : 0 <= x < 2 ^ w -> 0 <= n < w -> 0 <= rotate_right w x n < 2 ^ w.
Proof. intros Hx Hn. apply lor_range_bits; [lia|apply shiftr_range; lia|apply wrap_range; lia]. Qed.

(** Bytes of a value in little endian. *)
Lemma testbit_le_byte x j k : 0 <= j -> 0 <= k < 8 -> Z.testbit (le_byte x j) k = Z.testbit x (8 * j + k).
Proof.
  intros Hj Hk. unfold le_byte. change 256 with (2 ^ 8). rewrite Z.mod_pow2_bits_low, Z.div_pow2_bits by lia.
  f_equal; lia.
Qed.

Lemma from_le_bytes_bits l j b k :
  Forall is_byte l -> l !! j = Some b -> 0 <= k < 8 ->
  Z.testbit (from_le_bytes l) (8 * Z.of_nat j + k) = Z.testbit b k.
Proof.
  intros Hl. revert j. induction Hl as [|c l Hc Hl IH]; intros j Hj Hk; [done|].
  assert (Heq : c + 256 * from_le_bytes l = Z.lor (from_le_bytes l * 2 ^ 8) c).
  { unfold is_byte in Hc. rewrite lor_add by lia. change (2 ^ 8) with 256. lia. }
  cbn [from_le_bytes]. rewrite Heq, Z.lor_spec. destruct j as [|j].
  - injection Hj as ->. rewrite Z.mul_pow2_bits_low by lia. cbn [orb]. f_equal; lia.
  - cbn in Hj. rewrite (testbit_above 8 c), orb_false_r by (unfold is_byte in Hc; lia).
    rewrite Z.mul_pow2_bits by lia. rewrite <- (IH j Hj Hk). f_equal; lia.
Qed.

(** A value made byte by byte from another. *)
Lemma bytes_map_bits (l : list Z) (f : Z -> bool) k :
  Forall is_byte l -> length l = 8%nat -> 0 <= k < 64 ->
  (forall j b, (j < 8)%nat -> l !! j = Some b -> Z.testbit b (k mod 8) = f (8 * Z.of_nat j + k mod 8)) ->
  Z.testbit (from_le_bytes l) k = f k.
Proof.
  intros Hl Hlen Hk Hb.
  assert (Hq : 0 <= k / 8 < 8) by (split; [apply Z.div_pos|apply Z.div_lt_upper_bound]; lia).
  assert (Hr : 0 <= k mod 8 < 8) by (apply Z.mod_pos_bound; lia).
  assert (Heq : k = 8 * Z.of_nat (Z.to_nat (k / 8)) + k mod 8) by (pose proof (Z.div_mod k 8); lia).
  destruct (lookup_lt_is_Some_2 l (Z.to_nat (k / 8))) as [b Hlb]; [lia|].
  rewrite Heq at 1. rewrite (from_le_bytes_bits l _ b) by done.
  rewrite (Hb (Z.to_nat (k / 8)) b) by (done || lia). f_equal. lia.
Qed.

Lemma testbit_swap_bytes x k : 0 <= k < 64 -> Z.testbit (swap_bytes x) k = Z.testbit x (8 * (7 - k / 8) + k mod 8).
Proof.
  intros Hk. apply (bytes_map_bits _ (fun k => Z.testbit x (8 * (7 - k / 8) + k mod 8))).
  - apply Forall_reverse, to_le_bytes_are_bytes.
  - by rewrite length_reverse, length_to_le_bytes.
  - done.
  - assert (Hr : 0 <= k mod 8 < 8) by (apply Z.mod_pos_bound; lia).
    intros j b Hj Hb. rewrite reverse_lookup in Hb by (rewrite length_to_le_bytes; lia).
    rewrite length_to_le_bytes, to_le_bytes_lookup in Hb by lia. injection Hb as <-.
    rewrite testbit_le_byte by lia. f_equal.
    rewrite (Z.mul_comm 8 (Z.of_nat j)), Z.div_add_l, (Z.div_small (k mod 8)) by lia.
    rewrite (Z.add_comm (Z.of_nat j * 8)), Z.mod_add, Z.mod_mod by lia. lia.
Qed.

(** Whether a byte has a bit that is set. *)
Definition byte_nonzero (x j : Z) : bool := existsb (fun k => Z.testbit x (8 * j + k)) [0; 1; 2; 3; 4; 5; 6; 7].

Lemma byte_zero_bits b : is_byte b -> (b =? 0) = negb (byte_nonzero b 0).
Proof.
  intros Hb. unfold is_byte in Hb. destruct (Z.eqb_spec b 0) as [->|Hne]; [done|].
  destruct (byte_nonzero b 0) eqn:E; [done|]. exfalso. apply Hne. apply Z.bits_inj'. intros k Hk. rewrite Z.bits_0.
  destruct (Z.lt_ge_cases k 8); [|apply (testbit_above 8); lia].
  unfold byte_nonzero in E. cbn [existsb] in E. repeat (apply orb_false_iff in E as [?E E]).
  assert (k = 0 \/ k = 1 \/ k = 2 \/ k = 3 \/ k = 4 \/ k = 5 \/ k = 6 \/ k = 7) as Hcases by lia.
  by destruct Hcases as [->|[->|[->|[->|[->|[->|[->| ->]]]]]]].
Qed.

Lemma testbit_orc_b x k : 0 <= k < 64 -> Z.testbit (orc_b x) k = byte_nonzero x (k / 8).
Proof.
  intros Hk. apply (bytes_map_bits _ (fun k => byte_nonzero x (k / 8))).
  - apply Forall_fmap, Forall_true. intros b. cbn. destruct (b =? 0); unfold is_byte; lia.
  - by rewrite length_fmap, length_to_le_bytes.
  - done.
  - assert (Hr : 0 <= k mod 8 < 8) by (apply Z.mod_pos_bound; lia).
    intros j b Hj Hb. rewrite list_lookup_fmap, to_le_bytes_lookup in Hb by done. cbn in Hb. injection Hb as <-.
    rewrite (Z.mul_comm 8 (Z.of_nat j)), Z.div_add_l, (Z.div_small (k mod 8)), Z.add_0_r by lia.
    rewrite byte_zero_bits by apply le_byte_is_byte.
    replace (byte_nonzero (le_byte x (Z.of_nat j)) 0) with (byte_nonzero x (Z.of_nat j)).
    + destruct (byte_nonzero x (Z.of_nat j)); cbn [negb]; [|apply Z.bits_0]. change 255 with (Z.ones 8).
      by rewrite Z.ones_spec_low by lia.
    + unfold byte_nonzero. cbn [existsb]. rewrite !testbit_le_byte by lia. done.
Qed.

(** ** Counting bits *)

Lemma count_ones_spec n x :
  count_ones n x = Z.of_nat (length (List.filter (fun k => Z.testbit x k) (seqZ 0 (Z.of_nat n)))).
Proof.
  induction n as [|n IH]; [done|]. cbn [count_ones]. rewrite IH.
  replace (Z.of_nat (S n)) with (Z.of_nat n + 1) by lia. rewrite seqZ_app by lia.
  rewrite List.filter_app, length_app. change (seqZ (0 + Z.of_nat n) 1) with [0 + Z.of_nat n]. cbn [List.filter].
  rewrite Z.add_0_l. destruct (Z.testbit x (Z.of_nat n)); cbn [bool_z length]; lia.
Qed.

(** The [r] highest of [w] bits are clear and the next is set, if there is one. *)
Lemma leading_zeros_spec n x :
  let r := leading_zeros n x in
  0 <= r <= Z.of_nat n /\ (forall k, Z.of_nat n - r <= k < Z.of_nat n -> Z.testbit x k = false) /\
  (r < Z.of_nat n -> Z.testbit x (Z.of_nat n - r - 1) = true).
Proof.
  cbv zeta. induction n as [|n (Hr & Hz & Ho)]; [cbn; split_and!; intros; lia|]. cbn [leading_zeros].
  destruct (Z.testbit x (Z.of_nat n)) eqn:E.
  - split_and!; [lia|lia|intros; lia|]. intros _. rewrite <- E. f_equal. lia.
  - split_and!; [lia|lia| |].
    + intros k Hk. destruct (decide (k = Z.of_nat n)) as [->|]; [done|]. apply Hz. lia.
    + intros Hlt. rewrite <- Ho by lia. f_equal. lia.
Qed.

Lemma trailing_zeros_spec n x :
  let r := trailing_zeros n x in
  0 <= r <= Z.of_nat n /\ (forall k, 0 <= k < r -> Z.testbit x k = false) /\
  (r < Z.of_nat n -> Z.testbit x r = true).
Proof.
  cbv zeta. revert x. induction n as [|n IH]; intros x; [cbn; split_and!; intros; lia|]. cbn [trailing_zeros].
  destruct (Z.testbit x 0) eqn:E; [split_and!; intros; lia || done|].
  destruct (IH (Z.shiftr x 1)) as (Hr & Hz & Ho). split_and!; [lia|lia| |].
  - intros k Hk. destruct (decide (k = 0)) as [->|]; [done|].
    rewrite <- (Hz (k - 1)), Z.shiftr_spec by lia. f_equal. lia.
  - intros Hlt. rewrite <- Ho, Z.shiftr_spec by lia. f_equal. lia.
Qed.

(** ** Carry-less products *)

(** Coefficient [k] of the product of two polynomials over the field of two elements. *)
Fixpoint product_bit (n : nat) (a b k : Z) : bool :=
  match n with
  | O => false
  | S n => xorb (product_bit n a b k) (Z.testbit b (Z.of_nat n) && Z.testbit a (k - Z.of_nat n))
  end.

Lemma clmul_mask b k : 0 <= k < 128 -> Z.testbit (wrap 128 (0 - Z.land b 1)) k = Z.testbit b 0.
Proof.
  intros Hk. rewrite testbit_wrap, (proj2 (Z.ltb_lt k 128)) by lia. cbn [andb]. change 1 with (Z.ones 1).
  rewrite Z.land_ones by lia. change (2 ^ 1) with 2. rewrite <- Z.bit0_mod.
  destruct (Z.testbit b 0); cbn [Z.b2z]; [|apply Z.bits_0]. change (0 - 1) with (-1). apply Z.bits_m1. lia.
Qed.

Lemma clmul_loop_spec count n a b k :
  0 <= a < 2 ^ 64 -> (n + count <= 64)%nat -> 0 <= k < 128 ->
  forall r, Z.testbit r k = product_bit n a b k ->
  Z.testbit (clmul_loop count (Z.of_nat n) a (Z.shiftr b (Z.of_nat n)) r) k = product_bit (n + count) a b k.
Proof.
  intros Ha. revert n. induction count as [|count IH]; intros n Hn Hk r Hr; [by rewrite Nat.add_0_r|].
  cbn [clmul_loop]. rewrite Z.shiftr_shiftr by lia.
  replace (Z.of_nat n + 1) with (Z.of_nat (S n)) by lia. replace (n + S count)%nat with (S n + count)%nat by lia.
  apply IH; [lia|lia|]. cbn [product_bit].
  rewrite Z.lxor_spec, Z.land_spec, clmul_mask, testbit_wrap, Z.shiftl_spec, Z.shiftr_spec, Hr by lia.
  rewrite (proj2 (Z.ltb_lt k 128)) by lia. cbn [andb]. by rewrite Z.add_0_l, andb_comm.
Qed.

Lemma clmul_internal_spec a b k :
  0 <= a < 2 ^ 64 -> 0 <= k < 128 -> Z.testbit (clmul_internal a b) k = product_bit 64 a b k.
Proof.
  intros Ha Hk. unfold clmul_internal. rewrite <- (Z.shiftr_0_r b) at 1.
  by apply (clmul_loop_spec 64 0 a b k Ha); [lia|done|rewrite Z.bits_0].
Qed.

(** ** The specification *)

(** The value of a register given bit by bit. *)
Definition bits_are (v : Z) (f : Z -> bool) : Prop :=
  0 <= v < 2 ^ 64 /\ forall k, 0 <= k < 64 -> Z.testbit v k = f k.

Definition leading_run (w x r : Z) : Prop :=
  0 <= r <= w /\ (forall k, w - r <= k < w -> Z.testbit x k = false) /\
  (r < w -> Z.testbit x (w - r - 1) = true).

Definition trailing_run (w x r : Z) : Prop :=
  0 <= r <= w /\ (forall k, 0 <= k < r -> Z.testbit x k = false) /\ (r < w -> Z.testbit x r = true).

Definition set_bits (w x : Z) : Z :=
  Z.of_nat (length (List.filter (fun k => Z.testbit x k) (seqZ 0 w))).

Section specification.
Context {R : Type}.

Definition zba_spec (i : Rv64ZbaInstruction R) (a b v : Z) : Prop :=
  let a_low := a mod 2 ^ 32 in
  match i with
  | AddUw _ _ _ => v = (a_low + b) mod 2 ^ 64
  | Sh1add _ _ _ => v = (2 * a + b) mod 2 ^ 64
  | Sh1addUw _ _ _ => v = (2 * a_low + b) mod 2 ^ 64
  | Sh2add _ _ _ => v = (4 * a + b) mod 2 ^ 64
  | Sh2addUw _ _ _ => v = (4 * a_low + b) mod 2 ^ 64
  | Sh3add _ _ _ => v = (8 * a + b) mod 2 ^ 64
  | Sh3addUw _ _ _ => v = (8 * a_low + b) mod 2 ^ 64
  | SlliUw _ _ n => v = (2 ^ n * a_low) mod 2 ^ 64
  end.

Definition zbb_spec (i : Rv64ZbbInstruction R) (a b v : Z) : Prop :=
  let bit_a := Z.testbit a in
  let bit_b := Z.testbit b in
  match i with
  | Andn _ _ _ => bits_are v (fun k => bit_a k && negb (bit_b k))
  | Orn _ _ _ => bits_are v (fun k => bit_a k || negb (bit_b k))
  | Xnor _ _ _ => bits_are v (fun k => eqb (bit_a k) (bit_b k))
  | Clz _ _ => leading_run 64 a v
  | Clzw _ _ => leading_run 32 a v
  | Ctz _ _ => trailing_run 64 a v
  | Ctzw _ _ => trailing_run 32 a v
  | Cpop _ _ => v = set_bits 64 a
  | Cpopw _ _ => v = set_bits 32 a
  | Max _ _ _ => signed 64 v = Z.max (signed 64 a) (signed 64 b)
  | Maxu _ _ _ => v = Z.max a b
  | Min _ _ _ => signed 64 v = Z.min (signed 64 a) (signed 64 b)
  | Minu _ _ _ => v = Z.min a b
  | Sextb _ _ => bits_are v (fun k => bit_a (Z.min k 7))
  | Sexth _ _ => bits_are v (fun k => bit_a (Z.min k 15))
  | Zexth _ _ => bits_are v (fun k => (k <? 16) && bit_a k)
  | Rol _ _ _ => bits_are v (fun k => bit_a ((k - b) mod 64))
  | Rolw _ _ _ => bits_are v (fun k => bit_a ((Z.min k 31 - b) mod 32))
  | Ror _ _ _ => bits_are v (fun k => bit_a ((k + b) mod 64))
  | Rori _ _ n => bits_are v (fun k => bit_a ((k + n) mod 64))
  | Roriw _ _ n => bits_are v (fun k => bit_a ((Z.min k 31 + n) mod 32))
  | Rorw _ _ _ => bits_are v (fun k => bit_a ((Z.min k 31 + b) mod 32))
  | Orcb _ _ => bits_are v (fun k => byte_nonzero a (k / 8))
  | Rev8 _ _ => bits_are v (fun k => bit_a (8 * (7 - k / 8) + k mod 8))
  end.

Definition zbs_spec (i : Rv64ZbsInstruction R) (a b v : Z) : Prop :=
  match i with
  | Bset _ _ _ => bits_are v (fun k => (k =? b mod 64) || Z.testbit a k)
  | Bseti _ _ n => bits_are v (fun k => (k =? n) || Z.testbit a k)
  | Bclr _ _ _ => bits_are v (fun k => negb (k =? b mod 64) && Z.testbit a k)
  | Bclri _ _ n => bits_are v (fun k => negb (k =? n) && Z.testbit a k)
  | Binv _ _ _ => bits_are v (fun k => xorb (k =? b mod 64) (Z.testbit a k))
  | Binvi _ _ n => bits_are v (fun k => xorb (k =? n) (Z.testbit a k))
  | Bext _ _ _ => v = Z.b2z (Z.testbit a (b mod 64))
  | Bexti _ _ n => v = Z.b2z (Z.testbit a n)
  end.

Definition b_spec (i : Rv64BInstruction R) : Z -> Z -> Z -> Prop :=
  match i with InZba i => zba_spec i | InZbb i => zbb_spec i | InZbs i => zbs_spec i end.

(** Shift amounts as they are encoded. *)
Definition b_wf (i : Rv64BInstruction R) : Prop :=
  match i with
  | InZba (SlliUw _ _ n) | InZbb (Rori _ _ n)
  | InZbs (Bseti _ _ n) | InZbs (Bclri _ _ n) | InZbs (Binvi _ _ n) | InZbs (Bexti _ _ n) => 0 <= n < 64
  | InZbb (Roriw _ _ n) => 0 <= n < 32
  | _ => True
  end.

Definition zba_rd (i : Rv64ZbaInstruction R) : R :=
  match i with
  | AddUw rd _ _ | Sh1add rd _ _ | Sh1addUw rd _ _ | Sh2add rd _ _ | Sh2addUw rd _ _
  | Sh3add rd _ _ | Sh3addUw rd _ _ | SlliUw rd _ _ => rd
  end.

Definition zbb_rd (i : Rv64ZbbInstruction R) : R :=
  match i with
  | Andn rd _ _ | Orn rd _ _ | Xnor rd _ _ | Max rd _ _ | Maxu rd _ _ | Min rd _ _ | Minu rd _ _
  | Rol rd _ _ | Rolw rd _ _ | Ror rd _ _ | Rorw rd _ _ | Rori rd _ _ | Roriw rd _ _
  | Clz rd _ | Clzw rd _ | Ctz rd _ | Ctzw rd _ | Cpop rd _ | Cpopw rd _
  | Sextb rd _ | Sexth rd _ | Zexth rd _ | Orcb rd _ | Rev8 rd _ => rd
  end.

Definition zbs_rd (i : Rv64ZbsInstruction R) : R :=
  match i with
  | Bset rd _ _ | Bseti rd _ _ | Bclr rd _ _ | Bclri rd _ _ | Binv rd _ _ | Binvi rd _ _
  | Bext rd _ _ | Bexti rd _ _ => rd
  end.

Definition b_rd (i : Rv64BInstruction R) : R :=
  match i with InZba i => zba_rd i | InZbb i => zbb_rd i | InZbs i => zbs_rd i end.

Lemma land_mask x n mask : 0 <= n -> mask = Z.ones n -> 0 <= Z.land x mask < 2 ^ n /\ Z.land x mask = x mod 2 ^ n.
Proof. intros Hn ->. rewrite Z.land_ones by done. split; [by apply wrap_range|done]. Qed.

Lemma zba_correct i a b :
  0 <= a < 2 ^ 64 -> 0 <= b < 2 ^ 64 -> b_wf (InZba i) ->
  exists v, execute_zba i a b = Ret (zba_rd i, v) /\ 0 <= v < 2 ^ 64 /\ zba_spec i a b v.
Proof.
  intros Ha Hb Hwf. destruct i; cbn [execute_zba zba_rd zba_spec b_wf] in *; unfold shl;
    try (cbn [Z.ltb Z.compare Pos.compare Pos.compare_cont obind]; eexists; split; [done|]; split; [apply wrap_range; lia|];
         unfold wrap; rewrite ?Z.shiftl_mul_pow2 by lia; rewrite ?Zplus_mod_idemp_l; f_equal; lia).
  destruct (land_mask shamt 6 0x3f) as [Hr Heq]; [lia|done|]. rewrite Heq in *.
  rewrite (proj2 (Z.ltb_lt _ 64)) by lia. cbn [obind]. eexists. split; [done|]. split; [apply wrap_range; lia|].
  change (2 ^ 6) with 64 in *. rewrite Z.mod_small by done. unfold wrap. rewrite Z.shiftl_mul_pow2 by lia.
  f_equal. lia.
Qed.

(** The single bit that [1 << n] sets. *)
Lemma one_bit n :
  0 <= n < 64 ->
  exists bit, shl 64 1 n = Ret bit /\ 0 <= bit < 2 ^ 64 /\
    forall k, 0 <= k < 64 -> Z.testbit bit k = (k =? n).
Proof.
  intros Hn. unfold shl. rewrite (proj2 (Z.ltb_lt n 64)) by lia. eexists. split; [done|].
  split; [apply wrap_range; lia|]. intros k Hk. rewrite testbit_wrap, Z.shiftl_spec by lia.
  rewrite (proj2 (Z.ltb_lt k 64)) by lia. cbn [andb]. destruct (Z.eqb_spec k n) as [->|Hne].
  - by rewrite Z.sub_diag.
  - destruct (Z.lt_ge_cases k n); [by apply Z.testbit_neg_r; lia|]. apply (testbit_above 1); lia.
Qed.

Lemma extract_bit a n :
  0 <= n < 64 -> exists v, shr 64 a n = Ret v /\ Z.land v 1 = Z.b2z (Z.testbit a n).
Proof.
  intros Hn. unfold shr. rewrite (proj2 (Z.ltb_lt n 64)) by lia. eexists. split; [done|].
  change 1 with (Z.ones 1). rewrite Z.land_ones by lia. rewrite <- Z.bit0_mod, Z.shiftr_spec by lia.
  by rewrite Z.add_0_l.
Qed.

Lemma b2z_range x : 0 <= Z.b2z x < 2 ^ 64.
Proof. destruct x; cbn; lia. Qed.

Lemma zbs_correct i a b :
  0 <= a < 2 ^ 64 -> 0 <= b < 2 ^ 64 -> b_wf (InZbs i) ->
  exists v, execute_zbs i a b = Ret (zbs_rd i, v) /\ 0 <= v < 2 ^ 64 /\ zbs_spec i a b v.
Proof.
  intros Ha Hb Hwf. destruct (land_mask b 6 0x3f) as [Hr Heq]; [lia|done|]. change (2 ^ 6) with 64 in *.
  assert (H64 : 0 <= b mod 64 < 64) by (apply Z.mod_pos_bound; lia).
  destruct i; cbn [execute_zbs zbs_rd zbs_spec b_wf] in *; rewrite ?Heq;
    try (match goal with |- context [shl 64 1 ?n] => destruct (one_bit n) as (bit & -> & Hbit & Hk); [done|] end;
         cbn [obind]; eexists; split; [done|]);
    try (match goal with |- context [shr 64 a ?n] => destruct (extract_bit a n) as (v & -> & Hv); [done|] end;
         cbn [obind]; eexists; split; [done|]; rewrite Hv; split; [apply b2z_range|done]).
  - split; [by apply lor_range_bits|]. split; [by apply lor_range_bits|]. intros k Hk'.
    by rewrite Z.lor_spec, Hk, orb_comm.
  - split; [by apply lor_range_bits|]. split; [by apply lor_range_bits|]. intros k Hk'.
    by rewrite Z.lor_spec, Hk, orb_comm.
  - split; [by apply land_range_bits|]. split; [by apply land_range_bits|]. intros k Hk'.
    by rewrite Z.land_spec, testbit_not, Hk, andb_comm.
  - split; [by apply land_range_bits|]. split; [by apply land_range_bits|]. intros k Hk'.
    by rewrite Z.land_spec, testbit_not, Hk, andb_comm.
  - split; [by apply lxor_range_bits|]. split; [by apply lxor_range_bits|]. intros k Hk'.
    by rewrite Z.lxor_spec, Hk, xorb_comm.
  - split; [by apply lxor_range_bits|]. split; [by apply lxor_range_bits|]. intros k Hk'.
    by rewrite Z.lxor_spec, Hk, xorb_comm.
Qed.

Lemma bits_are_range v f : bits_are v f -> 0 <= v < 2 ^ 64 /\ bits_are v f.
Proof. intros H. split; [apply H|done]. Qed.

Lemma sext_range x : 0 <= sext x < 2 ^ 64.
Proof. by apply wrap_range. Qed.

Lemma count_range n x : 0 <= count_ones n x <= Z.of_nat n.
Proof. induction n as [|n IH]; cbn [count_ones]; [lia|]. destruct (Z.testbit x _); cbn [bool_z]; lia. Qed.

Lemma testbit_low w x k : 0 <= k < w -> Z.testbit (wrap w x) k = Z.testbit x k.
Proof. intros Hk. rewrite testbit_wrap by lia. by rewrite (proj2 (Z.ltb_lt k w)) by lia. Qed.

Lemma leading_run_low n x : leading_run (Z.of_nat n) x (leading_zeros n (wrap (Z.of_nat n) x)).
Proof.
  destruct (leading_zeros_spec n (wrap (Z.of_nat n) x)) as (Hr & Hz & Ho). split_and!; [lia|lia| |].
  - intros k Hk. rewrite <- (testbit_low (Z.of_nat n)) by lia. by apply Hz.
  - intros Hlt. rewrite <- (testbit_low (Z.of_nat n)) by lia. by apply Ho.
Qed.

Lemma trailing_run_low n x : trailing_run (Z.of_nat n) x (trailing_zeros n (wrap (Z.of_nat n) x)).
Proof.
  destruct (trailing_zeros_spec n (wrap (Z.of_nat n) x)) as (Hr & Hz & Ho). split_and!; [lia|lia| |].
  - intros k Hk. rewrite <- (testbit_low (Z.of_nat n)) by lia. by apply Hz.
  - intros Hlt. rewrite <- (testbit_low (Z.of_nat n)) by lia. by apply Ho.
Qed.

Lemma set_bits_low n x : count_ones n (wrap (Z.of_nat n) x) = set_bits (Z.of_nat n) x.
Proof.
  rewrite count_ones_spec. unfold set_bits. do 2 f_equal. apply List.filter_ext_in. intros k Hk.
  apply list_elem_of_In, elem_of_seqZ in Hk. apply testbit_low. lia.
Qed.

Lemma rotate_left_bits a n :
  0 <= a < 2 ^ 64 -> bits_are (rotate_left 64 a (Z.land n 0x3f)) (fun k => Z.testbit a ((k - n) mod 64)).
Proof.
  intros Ha. destruct (land_mask n 6 0x3f) as [Hr Heq]; [lia|done|]. change (2 ^ 6) with 64 in *.
  split; [by apply rotate_left_range|]. intros k Hk. rewrite testbit_rotate_left by done. rewrite Heq.
  by rewrite Zminus_mod_idemp_r.
Qed.

Lemma rotate_right_bits a n :
  0 <= a < 2 ^ 64 -> bits_are (rotate_right 64 a (Z.land n 0x3f)) (fun k => Z.testbit a ((k + n) mod 64)).
Proof.
  intros Ha. destruct (land_mask n 6 0x3f) as [Hr Heq]; [lia|done|]. change (2 ^ 6) with 64 in *.
  split; [by apply rotate_right_range|]. intros k Hk. rewrite testbit_rotate_right by done. rewrite Heq.
  by rewrite Zplus_mod_idemp_r.
Qed.

Lemma rotate_left_word_bits a n :
  bits_are (sext_word (rotate_left 32 (wrap 32 a) (Z.land n 0x1f))) (fun k => Z.testbit a ((Z.min k 31 - n) mod 32)).
Proof.
  destruct (land_mask n 5 0x1f) as [Hr Heq]; [lia|done|]. change (2 ^ 5) with 32 in *.
  split; [apply sext_range|]. intros k Hk. unfold sext_word. rewrite testbit_sext by lia.
  rewrite testbit_rotate_left by (lia || by apply wrap_range). rewrite Heq, Zminus_mod_idemp_r.
  apply testbit_low. apply Z.mod_pos_bound. lia.
Qed.

Lemma rotate_right_word_bits a n :
  bits_are (sext_word (rotate_right 32 (wrap 32 a) (Z.land n 0x1f))) (fun k => Z.testbit a ((Z.min k 31 + n) mod 32)).
Proof.
  destruct (land_mask n 5 0x1f) as [Hr Heq]; [lia|done|]. change (2 ^ 5) with 32 in *.
  split; [apply sext_range|]. intros k Hk. unfold sext_word. rewrite testbit_sext by lia.
  rewrite testbit_rotate_right by (lia || by apply wrap_range). rewrite Heq, Zplus_mod_idemp_r.
  apply testbit_low. apply Z.mod_pos_bound. lia.
Qed.

Lemma signed_max_range (f : Z -> Z -> Z) a b :
  (f = Z.max \/ f = Z.min) ->
  signed 64 (wrap 64 (f (signed 64 a) (signed 64 b))) = f (signed 64 a) (signed 64 b).
Proof.
  intros Hf. pose proof (signed_range 64 a ltac:(lia)). pose proof (signed_range 64 b ltac:(lia)).
  rewrite signed_wrap by lia. apply signed_small; [lia|]. change (2 ^ (64 - 1)) with 9223372036854775808 in *. destruct Hf as [-> | ->]; lia.
Qed.

Lemma zbb_correct i a b :
  0 <= a < 2 ^ 64 -> 0 <= b < 2 ^ 64 ->
  exists v, execute_zbb i a b = (zbb_rd i, v) /\ 0 <= v < 2 ^ 64 /\ zbb_spec i a b v.
Proof.
  intros Ha Hb. pose proof (not_range 64 b ltac:(lia) Hb) as Hnb.
  destruct i; cbn [execute_zbb zbb_rd zbb_spec]; (eexists; split; [done|]);
    try (apply bits_are_range);
    try (by apply rotate_left_bits || apply rotate_right_bits);
    try (apply rotate_left_word_bits || apply rotate_right_word_bits).
  - split; [by apply land_range_bits|]. intros k Hk. by rewrite Z.land_spec, testbit_not.
  - split; [by apply lor_range_bits|]. intros k Hk. by rewrite Z.lor_spec, testbit_not.
  - split; [by apply not_range, lxor_range_bits|]. intros k Hk. rewrite testbit_not, Z.lxor_spec by done.
    by destruct (Z.testbit a k), (Z.testbit b k).
  - pose proof (leading_run_low 64 a) as Hl. rewrite wrap_small in Hl by done. split; [|done].
    destruct Hl as [? _]. lia.
  - pose proof (leading_run_low 32 a) as Hl. change (Z.of_nat 32) with 32 in Hl. split; [|done]. destruct Hl as [? _]. lia.
  - pose proof (trailing_run_low 64 a) as Hl. rewrite wrap_small in Hl by done. split; [|done].
    destruct Hl as [? _]. lia.
  - pose proof (trailing_run_low 32 a) as Hl. change (Z.of_nat 32) with 32 in Hl. split; [|done]. destruct Hl as [? _]. lia.
  - pose proof (set_bits_low 64 a) as Hl. rewrite wrap_small in Hl by done. split; [|done].
    pose proof (count_range 64 a). lia.
  - pose proof (set_bits_low 32 a) as Hl. change (Z.of_nat 32) with 32 in Hl. split; [|done]. pose proof (count_range 32 (wrap 32 a)). lia.
  - split; [by apply wrap_range|]. apply signed_max_range. by left.
  - split; [lia|done].
  - split; [by apply wrap_range|]. apply signed_max_range. by right.
  - split; [lia|done].
  - split; [apply sext_range|]. intros k Hk. by apply testbit_sext.
  - split; [apply sext_range|]. intros k Hk. by apply testbit_sext.
  - split; [pose proof (wrap_range 16 a ltac:(lia)); change (2 ^ 16) with 65536 in *; lia|]. intros k Hk. apply testbit_wrap; lia.
  - split; [|by apply testbit_orc_b].
    pose proof (from_le_bytes_range ((fun byte => if byte =? 0 then 0 else 0xff) <$> to_le_bytes 8 a)) as Hr.
    rewrite length_fmap, length_to_le_bytes in Hr. apply Hr, Forall_fmap, Forall_true. intros x. cbn.
    destruct (x =? 0); unfold is_byte; lia.
  - split; [|by apply testbit_swap_bytes].
    pose proof (from_le_bytes_range (reverse (to_le_bytes 8 a))) as Hr.
    rewrite length_reverse, length_to_le_bytes in Hr. apply Hr, Forall_reverse, to_le_bytes_are_bytes.
Qed.

Lemma b_correct i a b :
  0 <= a < 2 ^ 64 -> 0 <= b < 2 ^ 64 -> b_wf i ->
  exists v, execute_b i a b = Ret (b_rd i, v) /\ 0 <= v < 2 ^ 64 /\ b_spec i a b v.
Proof.
  intros Ha Hb Hwf. destruct i as [i|i|i].
  - by apply zba_correct.
  - destruct (zbb_correct i a b Ha Hb) as (v & Hv & Hs). exists v. cbn. by rewrite Hv.
  - by apply zbs_correct.
Qed.

(** Every instruction of the B extension (Zba, Zbb and Zbs) executes without a panic and
    writes to its destination the value the RISC-V specification gives bit by bit, or as
    an integer modulo [2 ^ 64] for the instructions that add. *)
Theorem bitmanip_correct i a b :
  0 <= a < 2 ^ 64 -> 0 <= b < 2 ^ 64 -> b_wf i ->
  exists v, execute_b i a b = Ret (b_rd i, v) /\ 0 <= v < 2 ^ 64 /\ b_spec i a b v.
Proof. apply b_correct. Qed.

(** The three carry-less multiplications write the low half, the high half and the middle
    of the product of the operands as polynomials over the field of two elements. *)
Theorem carryless_correct (i : Rv64ZbcInstruction R) a b :
  0 <= a < 2 ^ 64 ->
  exists v, match i with
            | Clmul rd _ _ => execute_zbc i a b = (rd, v) /\ bits_are v (product_bit 64 a b)
            | Clmulh rd _ _ => execute_zbc i a b = (rd, v) /\ bits_are v (fun k => product_bit 64 a b (k + 64))
            | Clmulr rd _ _ => execute_zbc i a b = (rd, v) /\ bits_are v (fun k => product_bit 64 a b (k + 63))
            end.
Proof.
  intros Ha.
  destruct i; cbn [execute_zbc]; (eexists; split; [done|]); (split; [by apply wrap_range|]); intros k Hk;
    unfold clmul, clmulh, clmulr; rewrite testbit_low by done; rewrite ?Z.shiftr_spec by lia;
    apply clmul_internal_spec; (done || lia).
Qed.
End specification.

(** ** Encodings *)

Section encoding.
Context {R : Type} `{RegisterLaws R}.

(** Instructions with one source have a fixed [funct12] in the place of the immediate. *)
Definition unary_type (op f3 f12 : Z) (rd rs1 : R) : Z :=
  word op (offset rd) f3 (offset rs1) (f12 mod 32) (f12 / 32).

Definition encode_zba (i : Rv64ZbaInstruction R) : Z :=
  match i with
  | AddUw rd rs1 rs2 => r_type 0x3b 0 4 rd rs1 rs2
  | Sh1add rd rs1 rs2 => r_type 0x33 2 0x10 rd rs1 rs2
  | Sh1addUw rd rs1 rs2 => r_type 0x3b 2 0x10 rd rs1 rs2
  | Sh2add rd rs1 rs2 => r_type 0x33 4 0x10 rd rs1 rs2
  | Sh2addUw rd rs1 rs2 => r_type 0x3b 4 0x10 rd rs1 rs2
  | Sh3add rd rs1 rs2 => r_type 0x33 6 0x10 rd rs1 rs2
  | Sh3addUw rd rs1 rs2 => r_type 0x3b 6 0x10 rd rs1 rs2
  | SlliUw rd rs1 shamt => sh_type 0x1b 1 2 rd rs1 shamt
  end.

Definition encode_zbb (i : Rv64ZbbInstruction R) : Z :=
  match i with
  | Andn rd rs1 rs2 => r_type 0x33 7 0x20 rd rs1 rs2
  | Orn rd rs1 rs2 => r_type 0x33 6 0x20 rd rs1 rs2
  | Xnor rd rs1 rs2 => r_type 0x33 4 0x20 rd rs1 rs2
  | Clz rd rs1 => unary_type 0x13 1 0x600 rd rs1
  | Clzw rd rs1 => unary_type 0x1b 1 0x600 rd rs1
  | Ctz rd rs1 => unary_type 0x13 1 0x601 rd rs1
  | Ctzw rd rs1 => unary_type 0x1b 1 0x601 rd rs1
  | Cpop rd rs1 => unary_type 0x13 1 0x602 rd rs1
  | Cpopw rd rs1 => unary_type 0x1b 1 0x602 rd rs1
  | Max rd rs1 rs2 => r_type 0x33 6 5 rd rs1 rs2
  | Maxu rd rs1 rs2 => r_type 0x33 7 5 rd rs1 rs2
  | Min rd rs1 rs2 => r_type 0x33 4 5 rd rs1 rs2
  | Minu rd rs1 rs2 => r_type 0x33 5 5 rd rs1 rs2
  | Sextb rd rs1 => unary_type 0x13 1 0x604 rd rs1
  | Sexth rd rs1 => unary_type 0x13 1 0x605 rd rs1
  | Zexth rd rs1 => unary_type 0x3b 4 0x080 rd rs1
  | Rol rd rs1 rs2 => r_type 0x33 1 0x30 rd rs1 rs2
  | Rolw rd rs1 rs2 => r_type 0x3b 1 0x30 rd rs1 rs2
  | Ror rd rs1 rs2 => r_type 0x33 5 0x30 rd rs1 rs2
  | Rori rd rs1 shamt => sh_type 0x13 5 0x18 rd rs1 shamt
  | Roriw rd rs1 shamt => word 0x1b (offset rd) 5 (offset rs1) shamt 0x30
  | Rorw rd rs1 rs2 => r_type 0x3b 5 0x30 rd rs1 rs2
  | Orcb rd rs1 => unary_type 0x13 5 0x287 rd rs1
  | Rev8 rd rs1 => unary_type 0x13 5 0x6b8 rd rs1
  end.

Definition encode_zbs (i : Rv64ZbsInstruction R) : Z :=
  match i with
  | Bset rd rs1 rs2 => r_type 0x33 1 0x14 rd rs1 rs2
  | Bseti rd rs1 shamt => sh_type 0x13 1 0xa rd rs1 shamt
  | Bclr rd rs1 rs2 => r_type 0x33 1 0x24 rd rs1 rs2
  | Bclri rd rs1 shamt => sh_type 0x13 1 0x12 rd rs1 shamt
  | Binv rd rs1 rs2 => r_type 0x33 1 0x34 rd rs1 rs2
  | Binvi rd rs1 shamt => sh_type 0x13 1 0x1a rd rs1 shamt
  | Bext rd rs1 rs2 => r_type 0x33 5 0x24 rd rs1 rs2
  | Bexti rd rs1 shamt => sh_type 0x13 5 0x12 rd rs1 shamt
  end.

Definition encode_b (i : Rv64BInstruction R) : Z :=
  match i with InZba i => encode_zba i | InZbb i => encode_zbb i | InZbs i => encode_zbs i end.

(** The six bits above [rs2] and the twelve above [rs1], as parts of the fields. *)
Lemma wide_fields w :
  0 <= w < 2 ^ 32 ->
  low6_of w = rs2_bits_of w + 32 * (funct7_of w mod 2) /\ funct6_of w = funct7_of w / 2 /\
  funct12_of w = rs2_bits_of w + 32 * funct7_of w.
Proof.
  intros Hw. unfold low6_of, funct6_of, funct12_of.
  rewrite (field_mask w 20 6), (field_mask w 26 6), (field_mask w 20 12) by done.
  rewrite rs2_bits_mod, funct7_mod. change (2 ^ 20) with 1048576. change (2 ^ 26) with 67108864.
  change (2 ^ 6) with 64. change (2 ^ 12) with 4096. clear -Hw.
  split_and!; Z.to_euclidean_division_equations; lia.
Qed.

(** The words with given fields. *)
Lemma word_sound w f3 rs2 f7 (rd rs1 : R) op :
  0 <= w < 2 ^ 32 -> opcode_of w = op -> funct3_of w = f3 -> rs2_bits_of w = rs2 -> funct7_of w = f7 ->
  rd_bits_of w = offset rd -> rs1_bits_of w = offset rs1 ->
  word op (offset rd) f3 (offset rs1) rs2 f7 = w.
Proof. intros Hw <- <- <- <- <- <-. symmetry. by apply word_fields. Qed.

Lemma sh_word_sound w f3 f6 (rd rs1 : R) op :
  0 <= w < 2 ^ 32 -> opcode_of w = op -> funct3_of w = f3 -> funct6_of w = f6 ->
  rd_bits_of w = offset rd -> rs1_bits_of w = offset rs1 ->
  0 <= low6_of w < 64 /\ sh_type op f3 f6 rd rs1 (low6_of w) = w.
Proof.
  intros Hw Hop Hf3 Hf6 Hrd Hrs1. destruct (wide_fields w Hw) as (-> & Hf & _).
  destruct (word_fields w Hw) as [[_ _ _ _ Hrs2 Hf7] _]. rewrite Hf in Hf6. split.
  { clear -Hrs2 Hf7. Z.to_euclidean_division_equations. lia. }
  unfold sh_type. apply word_sound; try done; clear -Hrs2 Hf7 Hf6; Z.to_euclidean_division_equations; lia.
Qed.

Lemma unary_word_sound w f3 f12 (rd rs1 : R) op :
  0 <= w < 2 ^ 32 -> opcode_of w = op -> funct3_of w = f3 -> funct12_of w = f12 ->
  rd_bits_of w = offset rd -> rs1_bits_of w = offset rs1 -> unary_type op f3 f12 rd rs1 = w.
Proof.
  intros Hw Hop Hf3 Hf12 Hrd Hrs1. destruct (wide_fields w Hw) as (_ & _ & Hf).
  destruct (word_fields w Hw) as [[_ _ _ _ Hrs2 Hf7] _]. rewrite Hf in Hf12.
  unfold unary_type. apply word_sound; try done; clear -Hrs2 Hf7 Hf12; Z.to_euclidean_division_equations; lia.
Qed.

Lemma funct12_split w :
  0 <= w < 2 ^ 32 -> funct12_of w = low6_of w + 64 * funct6_of w.
Proof.
  intros Hw. destruct (wide_fields w Hw) as (-> & -> & ->). clear. Z.to_euclidean_division_equations. lia.
Qed.

(** The tests and registers that led to a result, in any order. *)
Ltac tests H :=
  repeat match type of H with
  | context [?a =? ?b] => destruct (Z.eqb_spec a b); cbn [andb] in H; try discriminate H
  end.
Ltac decoded H := tests H; try discriminate H; registers H; try discriminate H; injection H as <-.

Lemma try_decode_zba_sound w i :
  0 <= w < 2 ^ 32 -> try_decode_zba w = Some i -> b_wf (InZba i) /\ encode_zba i = w.
Proof.
  intros Hw Hd. unfold try_decode_zba, decode_zba_op, decode_zba_op_32 in Hd. cbv zeta in Hd.
  decoded Hd; cbn; first [by apply sh_word_sound|split; [done|by apply word_sound]].
Qed.

Lemma try_decode_zbb_sound w i :
  0 <= w < 2 ^ 32 -> try_decode_zbb w = Some i -> b_wf (InZbb i) /\ encode_zbb i = w.
Proof.
  intros Hw Hd. pose proof (funct12_split w Hw) as H12.
  destruct (wide_fields w Hw) as (_ & _ & H12'). destruct (word_fields w Hw) as [[_ _ _ _ Hrs2 _] _].
  unfold try_decode_zbb, decode_zbb_op_imm, decode_zbb_op, decode_zbb_op_imm_32, decode_zbb_op_32 in Hd.
  cbv zeta in Hd.
  decoded Hd; cbn;
    first [by apply sh_word_sound|split; [done|by apply word_sound]
          |split; [done|]; apply unary_word_sound; (done || lia)].
Qed.

Lemma try_decode_zbs_sound w i :
  0 <= w < 2 ^ 32 -> try_decode_zbs w = Some i -> b_wf (InZbs i) /\ encode_zbs i = w.
Proof.
  intros Hw Hd. unfold try_decode_zbs, decode_zbs_op, decode_zbs_op_imm in Hd. cbv zeta in Hd.
  decoded Hd; cbn; first [by apply sh_word_sound|split; [done|by apply word_sound]].
Qed.

Lemma try_decode_b_sound w i : 0 <= w < 2 ^ 32 -> try_decode_b w = Some i -> b_wf i /\ encode_b i = w.
Proof.
  intros Hw. unfold try_decode_b. intros Hd. destruct (try_decode_zba w) eqn:E1.
  { injection Hd as <-. by apply try_decode_zba_sound. }
  destruct (try_decode_zbb w) eqn:E2; [injection Hd as <-; by apply try_decode_zbb_sound|].
  destruct (try_decode_zbs w) eqn:E3; [|done]. injection Hd as <-. by apply try_decode_zbs_sound.
Qed.

(** ** Every encoding decodes *)

Record decodes_as (w op f3 : Z) (rd rs1 : R) (rs2 f7 low6 f6 f12 : Z) : Prop := {
  da_range : 0 <= w < 2 ^ 32;
  da_op : opcode_of w = op;
  da_f3 : funct3_of w = f3;
  da_rd : from_bits (rd_bits_of w) = Some rd;
  da_rs1 : from_bits (rs1_bits_of w) = Some rs1;
  da_rs2 : rs2_bits_of w = rs2;
  da_f7 : funct7_of w = f7;
  da_low6 : low6_of w = low6;
  da_f6 : funct6_of w = f6;
  da_f12 : funct12_of w = f12
}.

Lemma word_decodes op f3 (rd rs1 : R) rs2 f7 :
  0 <= op < 128 -> 0 <= f3 < 8 -> 0 <= rs2 < 32 -> 0 <= f7 < 128 ->
  decodes_as (word op (offset rd) f3 (offset rs1) rs2 f7) op f3 rd rs1 rs2 f7
    (rs2 + 32 * (f7 mod 2)) (f7 / 2) (rs2 + 32 * f7).
Proof.
  intros Hop Hf3 Hrs2 Hf7. pose proof (offset_32 rd). pose proof (offset_32 rs1).
  destruct (fields_word op (offset rd) f3 (offset rs1) rs2 f7) as (Hw & E1 & E2 & E3 & E4 & E5 & E6); [done|].
  destruct (wide_fields _ Hw) as (E7 & E8 & E9). rewrite E5, E6 in E7. rewrite E6 in E8. rewrite E5, E6 in E9.
  split; try done; [by rewrite E2, from_bits_offset|by rewrite E4, from_bits_offset].
Qed.

(** Evaluates the decoders on a word with known fields. *)
Ltac evaluate H :=
  destruct H as [_ Hop Hf3 Hrd Hrs1 Hrs2 Hf7 Hlow6 Hf6 Hf12];
  unfold try_decode_b, try_decode_zba, try_decode_zbb, try_decode_zbs, decode_zba_op, decode_zba_op_32,
    decode_zbb_op_imm, decode_zbb_op, decode_zbb_op_imm_32, decode_zbb_op_32, decode_zbs_op, decode_zbs_op_imm;
  rewrite ?Hop, ?Hf3, ?Hrd, ?Hrs1, ?Hlow6, ?Hf6, ?Hf12, ?Hf7, ?Hrs2, ?from_bits_offset.

Lemma sh_decodes op f3 f6 (rd rs1 : R) shamt :
  0 <= op < 128 -> 0 <= f3 < 8 -> 0 <= f6 < 64 -> 0 <= shamt < 64 ->
  decodes_as (sh_type op f3 f6 rd rs1 shamt) op f3 rd rs1 (shamt mod 32) (shamt / 32 + 2 * f6)
    shamt f6 (shamt + 64 * f6).
Proof.
  intros Hop Hf3 Hf6 Hs. unfold sh_type.
  assert (Hd : 0 <= shamt / 32 < 2) by (clear -Hs; Z.to_euclidean_division_equations; lia).
  assert (Hm : 0 <= shamt mod 32 < 32) by (apply Z.mod_pos_bound; lia).
  destruct (word_decodes op f3 rd rs1 (shamt mod 32) (shamt / 32 + 2 * f6)) as [H1 H2 H3 H4 H5 H6 H7 H8 H9 H10];
    [lia..|]. split; try done; [rewrite H8|rewrite H9|rewrite H10]; clear -Hs; Z.to_euclidean_division_equations; lia.
Qed.

Lemma try_decode_b_complete i :
  b_wf i -> 0 <= encode_b i < 2 ^ 32 /\ try_decode_b (encode_b i) = Some i.
Proof.
  intros Hwf. assert (Hzero : from_bits 0 = Some (ZERO (R := R))) by (rewrite <- offset_ZERO; apply from_bits_offset).
  destruct i as [i|i|i]; destruct i; cbn [encode_b encode_zba encode_zbb encode_zbs b_wf] in *;
    unfold r_type, unary_type;
    match goal with
    | |- context [word ?op (offset ?rd) ?f3 (offset ?rs1) (offset ?rs2) ?f7] =>
        pose proof (word_decodes op f3 rd rs1 (offset rs2) f7 ltac:(lia) ltac:(lia) (offset_32 rs2) ltac:(lia)) as Hd
    | |- context [word ?op (offset ?rd) ?f3 (offset ?rs1) ?rs2 ?f7] =>
        pose proof (word_decodes op f3 rd rs1 rs2 f7 ltac:(lia) ltac:(lia) ltac:(done) ltac:(done)) as Hd
    | |- context [sh_type ?op ?f3 ?f6 ?rd ?rs1 ?shamt] =>
        pose proof (sh_decodes op f3 f6 rd rs1 shamt ltac:(lia) ltac:(lia) ltac:(lia) Hwf) as Hd
    end.
  all: split; [apply Hd|]; evaluate Hd; cbn; try done.
  - change (128 mod 32) with 0. by rewrite Hzero.
  - rewrite !(proj2 (Z.eqb_neq _ _)) by lia. done.
  - rewrite !(proj2 (Z.eqb_neq _ _)) by lia. done.
Qed.

(** The decoders of the B extension, tried in the order in which they are inherited,
    accept exactly the words that encode an instruction of the extension, and decode each
    to the instruction it encodes. *)
Theorem bitmanip_decode_exact w i :
  0 <= w < 2 ^ 32 -> (try_decode_b w = Some i <-> b_wf i /\ encode_b i = w).
Proof.
  intros Hw. split; [by apply try_decode_b_sound|].
  intros [Hwf <-]. by apply try_decode_b_complete.
Qed.
End encoding.

(** ** Examples *)

Lemma bitmanip_correct_witness :
  exists v, execute_b (InZbb (Rolw A0 A1 A2)) 0x80000001 4 = Ret (A0, v) /\ 0 <= v < 2 ^ 64 /\
    b_spec (InZbb (Rolw A0 A1 A2)) 0x80000001 4 v.
Proof. apply (bitmanip_correct (InZbb (Rolw A0 A1 A2)) 0x80000001 4); [lia|lia|done]. Defined.

Lemma carryless_correct_witness :
  exists v, execute_zbc (Clmulh A0 A1 A2) 0xffffffffffffffff 3 = (A0, v) /\
    bits_are v (fun k => product_bit 64 0xffffffffffffffff 3 (k + 64)).
Proof. apply (carryless_correct (Clmulh A0 A1 A2) 0xffffffffffffffff 3). lia. Defined.

Lemma bitmanip_decode_exact_witness :
  try_decode_b 0x6b85d513 = Some (InZbb (Rev8 A0 A1)) <->
  b_wf (InZbb (Rev8 A0 A1)) /\ encode_b (InZbb (Rev8 A0 A1)) = 0x6b85d513.
Proof. apply (bitmanip_decode_exact 0x6b85d513 (InZbb (Rev8 A0 A1))). lia. Defined.

Example bits_examples :
  try_decode_b 0x6b85d513 = Some (InZbb (Rev8 A0 A1)) /\
  execute_b (InZbb (Rev8 A0 A1)) 0x0102030405060708 0 = Ret (A0, 0x0807060504030201) /\
  execute_b (InZbb (Orcb A0 A1)) 0x0100000000002000 0 = Ret (A0, 0xff0000000000ff00) /\
  execute_b (InZbb (Ror A0 A1 A2)) 1 1 = Ret (A0, 0x8000000000000000) /\
  execute_zbc (Clmul A0 A1 A2) 0x13 0x13 = (A0, 0x105).
Proof. by vm_compute. Qed.

End Rv64Bits.
