(* ===== verification/RvZca.v ===== *)
(** * Compressed instructions: the Zca and Zcb extensions

    Model of [instructions/rv64/c/zca.rs] and [instructions/rv64/zce/zcb.rs] of
    [crates/execution/ab-riscv-primitives] (instruction types and decoders) and of the files
    of the same names in [crates/execution/ab-riscv-interpreter] (execution).  A compressed
    instruction is the low half of the word that was fetched.  The encodings of the RISC-V
    specification are written down as [encode_zca] and [encode_zcb]; [RvZcaEncoding] shows
    that decoding is their inverse, and [RvZcaExpansion] that every compressed instruction
    executes as the instruction it abbreviates. *)

From S2P Require Import Prelude RvInt RvRegisters RvMemory Rv64Decode Rv64Encoding Rv64Exec.
From stdpp Require Import prelude.
From Stdlib Require Import ZArith Lia.
Local Open Scope Z_scope.

Module RvZca.
Import RvInt RvRegisters RvMemory Rv64 Rv64Encoding Rv64Exec.

Inductive Rv64ZcaInstruction (R : Type) : Type :=
| CAddi4spn (rd : R) (nzuimm : Z)
| CLw (rd rs1 : R) (uimm : Z)
| CLd (rd rs1 : R) (uimm : Z)
| CSw (rs1 rs2 : R) (uimm : Z)
| CSd (rs1 rs2 : R) (uimm : Z)
| CNop
| CAddi (rd : R) (nzimm : Z)
| CAddiw (rd : R) (imm : Z)
| CLi (rd : R) (imm : Z)
| CAddi16sp (nzimm : Z)
| CLui (rd : R) (nzimm : I24)
| CSrli (rd : R) (shamt : Z)
| CSrai (rd : R) (shamt : Z)
| CAndi (rd : R) (imm : Z)
| CSub (rd rs2 : R)
| CXor (rd rs2 : R)
| COr (rd rs2 : R)
| CAnd (rd rs2 : R)
| CSubw (rd rs2 : R)
| CAddw (rd rs2 : R)
| CJ (imm : Z)
| CBeqz (rs1 : R) (imm : Z)
| CBnez (rs1 : R) (imm : Z)
| CSlli (rd : R) (shamt : Z)
| CLwsp (rd : R) (uimm : Z)
| CLdsp (rd : R) (uimm : Z)
| CJr (rs1 : R)
| CMv (rd rs2 : R)
| CEbreak
| CJalr (rs1 : R)
| CAdd (rd rs2 : R)
| CSwsp (rs2 : R) (uimm : Z)
| CSdsp (rs2 : R) (uimm : Z)
| CUnimp.
#[global] Arguments CAddi4spn {R}.
#[global] Arguments CLw {R}.
#[global] Arguments CLd {R}.
#[global] Arguments CSw {R}.
#[global] Arguments CSd {R}.
#[global] Arguments CNop {R}.
#[global] Arguments CAddi {R}.
#[global] Arguments CAddiw {R}.
#[global] Arguments CLi {R}.
#[global] Arguments CAddi16sp {R}.
#[global] Arguments CLui {R}.
#[global] Arguments CSrli {R}.
#[global] Arguments CSrai {R}.
#[global] Arguments CAndi {R}.
#[global] Arguments CSub {R}.
#[global] Arguments CXor {R}.
#[global] Arguments COr {R}.
#[global] Arguments CAnd {R}.
#[global] Arguments CSubw {R}.
#[global] Arguments CAddw {R}.
#[global] Arguments CJ {R}.
#[global] Arguments CBeqz {R}.
#[global] Arguments CBnez {R}.
#[global] Arguments CSlli {R}.
#[global] Arguments CLwsp {R}.
#[global] Arguments CLdsp {R}.
#[global] Arguments CJr {R}.
#[global] Arguments CMv {R}.
#[global] Arguments CEbreak {R}.
#[global] Arguments CJalr {R}.
#[global] Arguments CAdd {R}.
#[global] Arguments CSwsp {R}.
#[global] Arguments CSdsp {R}.
#[global] Arguments CUnimp {R}.

(** [Rv64ZcbOnlyInstruction]; with Zca it makes [Rv64ZcbInstruction]. *)
Inductive Rv64ZcbOnlyInstruction (R : Type) : Type :=
| CLbu (rd rs1 : R) (uimm : Z)
| CLh (rd rs1 : R) (uimm : Z)
| CLhu (rd rs1 : R) (uimm : Z)
| CSb (rs1 rs2 : R) (uimm : Z)
| CSh (rs1 rs2 : R) (uimm : Z)
| CZextB (rd : R)
| CSextB (rd : R)
| CZextH (rd : R)
| CSextH (rd : R)
| CZextW (rd : R)
| CNot (rd : R)
| CMul (rd rs2 : R).
#[global] Arguments CLbu {R}.
#[global] Arguments CLh {R}.
#[global] Arguments CLhu {R}.
#[global] Arguments CSb {R}.
#[global] Arguments CSh {R}.
#[global] Arguments CZextB {R}.
#[global] Arguments CSextB {R}.
#[global] Arguments CZextH {R}.
#[global] Arguments CSextH {R}.
#[global] Arguments CZextW {R}.
#[global] Arguments CNot {R}.
#[global] Arguments CMul {R}.

(** ** Decoding *)

(** [(inst >> lo) & mask] *)
Definition field (inst lo mask : Z) : Z := Z.land (Z.shiftr inst lo) mask.

(** [x << n] on [u8] and [u16], and [x << n >> n] on [i8], [i16] and [i32]. *)
Definition shl_u8 (x n : Z) : Z := wrap 8 (Z.shiftl x n).
Definition shl_u16 (x n : Z) : Z := wrap 16 (Z.shiftl x n).
Definition extend (w x n : Z) : Z := shr_signed (shl_signed w x n) n.

Definition prime_reg_bits (bits : Z) : Z := bits + 8.

Definition decode_cb_branch_imm (inst : Z) : Z :=
  let imm8 := signed 16 (field inst 12 1) in
  let imm4_3 := signed 16 (field inst 10 3) in
  let imm7_6 := signed 16 (field inst 5 3) in
  let imm2_1 := signed 16 (field inst 3 3) in
  let imm5 := signed 16 (field inst 2 1) in
  let raw :=
    Z.lor (Z.lor (Z.lor (Z.lor (shl_signed 16 imm8 8) (shl_signed 16 imm7_6 6)) (shl_signed 16 imm5 5))
      (shl_signed 16 imm4_3 3)) (shl_signed 16 imm2_1 1) in
  extend 16 raw 7.

Definition decode_cj_imm (inst : Z) : Z :=
  let imm11 := signed 16 (field inst 12 1) in
  let imm4 := signed 16 (field inst 11 1) in
  let imm9_8 := signed 16 (field inst 9 3) in
  let imm10 := signed 16 (field inst 8 1) in
  let imm6 := signed 16 (field inst 7 1) in
  let imm7 := signed 16 (field inst 6 1) in
  let imm3_1 := signed 16 (field inst 3 7) in
  let imm5 := signed 16 (field inst 2 1) in
  let raw :=
    Z.lor (Z.lor (Z.lor (Z.lor (Z.lor (Z.lor (Z.lor (shl_signed 16 imm11 11) (shl_signed 16 imm10 10))
      (shl_signed 16 imm9_8 8)) (shl_signed 16 imm7 7)) (shl_signed 16 imm6 6)) (shl_signed 16 imm5 5))
      (shl_signed 16 imm4 4)) (shl_signed 16 imm3_1 1) in
  extend 16 raw 4.

(** The other immediates, which the source computes where they are used. *)
Definition addi4spn_imm (inst : Z) : Z :=
  let imm5_4 := field inst 11 3 in
  let imm9_6 := field inst 7 0xf in
  let imm2 := field inst 6 1 in
  let imm3 := field inst 5 1 in
  Z.lor (Z.lor (Z.lor (shl_u16 imm9_6 6) (shl_u16 imm5_4 4)) (shl_u16 imm3 3)) (shl_u16 imm2 2).

Definition lw_imm (inst : Z) : Z :=
  let uimm5_3 := field inst 10 7 in
  let uimm2 := field inst 6 1 in
  let uimm6 := field inst 5 1 in
  Z.lor (Z.lor (shl_u8 uimm6 6) (shl_u8 uimm5_3 3)) (shl_u8 uimm2 2).

Definition ld_imm (inst : Z) : Z :=
  let uimm5_3 := field inst 10 7 in
  let uimm7_6 := field inst 5 3 in
  Z.lor (shl_u8 uimm7_6 6) (shl_u8 uimm5_3 3).

(** Six bits, as a shift amount and as a signed immediate. *)
Definition ci_shamt (inst : Z) : Z := Z.lor (shl_u8 (field inst 12 1) 5) (field inst 2 0x1f).
Definition ci_imm (inst : Z) : Z := extend 8 (signed 8 (ci_shamt inst)) 2.

Definition addi16sp_raw (inst : Z) : Z :=
  let imm9 := signed 16 (field inst 12 1) in
  let imm4 := signed 16 (field inst 6 1) in
  let imm6 := signed 16 (field inst 5 1) in
  let imm8_7 := signed 16 (field inst 3 3) in
  let imm5 := signed 16 (field inst 2 1) in
  Z.lor (Z.lor (Z.lor (Z.lor (shl_signed 16 imm9 9) (shl_signed 16 imm8_7 7)) (shl_signed 16 imm6 6))
    (shl_signed 16 imm5 5)) (shl_signed 16 imm4 4).

Definition lui_raw (inst : Z) : Z :=
  Z.lor (shl_signed 32 (field inst 12 1) 17) (shl_signed 32 (field inst 2 0x1f) 12).

Definition lwsp_imm (inst : Z) : Z :=
  let uimm5 := field inst 12 1 in
  let uimm42 := field inst 4 7 in
  let uimm76 := field inst 2 3 in
  Z.lor (Z.lor (shl_u8 uimm76 6) (shl_u8 uimm5 5)) (shl_u8 uimm42 2).

Definition ldsp_imm (inst : Z) : Z :=
  let uimm5 := field inst 12 1 in
  let uimm43 := field inst 5 3 in
  let uimm86 := field inst 2 7 in
  Z.lor (Z.lor (shl_u16 uimm86 6) (shl_u16 uimm5 5)) (shl_u16 uimm43 3).

Definition swsp_imm (inst : Z) : Z :=
  Z.lor (shl_u8 (field inst 7 3) 6) (shl_u8 (field inst 9 0xf) 2).

Definition sdsp_imm (inst : Z) : Z :=
  Z.lor (shl_u16 (field inst 7 7) 6) (shl_u16 (field inst 10 7) 3).

Section decode.
Context {R : Type} `{Register R}.

(** Quadrant 00 *)
Definition decode_q0 (inst : Z) : option (Rv64ZcaInstruction R) :=
  let funct3 := field inst 13 7 in
  let low_bits := prime_reg_bits (field inst 2 7) in
  let rs1_bits := prime_reg_bits (field inst 7 7) in
  if funct3 =? 0 then
    (let nzuimm := addi4spn_imm inst in
     if nzuimm =? 0 then (if inst =? 0 then Some CUnimp else None)
     else rd ← from_bits low_bits; Some (CAddi4spn rd nzuimm)) else
  if funct3 =? 2 then
    (rs1 ← from_bits rs1_bits; rd ← from_bits low_bits; Some (CLw rd rs1 (lw_imm inst))) else
  if funct3 =? 3 then
    (rs1 ← from_bits rs1_bits; rd ← from_bits low_bits; Some (CLd rd rs1 (ld_imm inst))) else
  if funct3 =? 6 then
    (rs1 ← from_bits rs1_bits; rs2 ← from_bits low_bits; Some (CSw rs1 rs2 (lw_imm inst))) else
  if funct3 =? 7 then
    (rs1 ← from_bits rs1_bits; rs2 ← from_bits low_bits; Some (CSd rs1 rs2 (ld_imm inst))) else
  None.

(** C.ADDI16SP when the destination is the stack pointer, C.LUI otherwise. *)
Definition decode_lui_addi16sp (inst : Z) : option (Rv64ZcaInstruction R) :=
  let rd_bits := field inst 7 0x1f in
  if rd_bits =? 2 then
    let raw := addi16sp_raw inst in
    if raw =? 0 then None else Some (CAddi16sp (extend 16 raw 6))
  else
    rd ← from_bits rd_bits;
    let raw := lui_raw inst in
    if raw =? 0 then None else Some (CLui rd (i24_from_i32 (extend 32 raw 14))).

(** C.SRLI, C.SRAI, C.ANDI and the arithmetic pairs *)
Definition decode_q1_alu (inst : Z) : option (Rv64ZcaInstruction R) :=
  let funct2 := field inst 10 3 in
  let rd_bits := prime_reg_bits (field inst 7 7) in
  if funct2 =? 0 then (rd ← from_bits rd_bits; Some (CSrli rd (ci_shamt inst))) else
  if funct2 =? 1 then (rd ← from_bits rd_bits; Some (CSrai rd (ci_shamt inst))) else
  if funct2 =? 2 then (rd ← from_bits rd_bits; Some (CAndi rd (ci_imm inst))) else
  if funct2 =? 3 then
    (let funct2b := field inst 5 3 in
     rd ← from_bits rd_bits; rs2 ← from_bits (prime_reg_bits (field inst 2 7));
     if field inst 12 1 =? 0 then
       if funct2b =? 0 then Some (CSub rd rs2) else
       if funct2b =? 1 then Some (CXor rd rs2) else
       if funct2b =? 2 then Some (COr rd rs2) else
       if funct2b =? 3 then Some (CAnd rd rs2) else None
     else
       if funct2b =? 0 then Some (CSubw rd rs2) else
       if funct2b =? 1 then Some (CAddw rd rs2) else None) else
  None.

(** Quadrant 01 *)
Definition decode_q1 (inst : Z) : option (Rv64ZcaInstruction R) :=
  let funct3 := field inst 13 7 in
  let rd_bits := field inst 7 0x1f in
  if funct3 =? 0 then
    (let nzimm := ci_imm inst in
     if (rd_bits =? 0) && (nzimm =? 0) then Some CNop
     else rd ← from_bits rd_bits; Some (CAddi rd nzimm)) else
  if funct3 =? 1 then
    (if rd_bits =? 0 then None else rd ← from_bits rd_bits; Some (CAddiw rd (ci_imm inst))) else
  if funct3 =? 2 then (rd ← from_bits rd_bits; Some (CLi rd (ci_imm inst))) else
  if funct3 =? 3 then decode_lui_addi16sp inst else
  if funct3 =? 4 then decode_q1_alu inst else
  if funct3 =? 5 then Some (CJ (decode_cj_imm inst)) else
  if funct3 =? 6 then
    (rs1 ← from_bits (prime_reg_bits (field inst 7 7)); Some (CBeqz rs1 (decode_cb_branch_imm inst))) else
  if funct3 =? 7 then
    (rs1 ← from_bits (prime_reg_bits (field inst 7 7)); Some (CBnez rs1 (decode_cb_branch_imm inst))) else
  None.

(** C.JR, C.MV, C.EBREAK, C.JALR and C.ADD *)
Definition decode_q2_jumps (inst : Z) : option (Rv64ZcaInstruction R) :=
  let rs1_bits := field inst 7 0x1f in
  let rs2_bits := field inst 2 0x1f in
  if field inst 12 1 =? 0 then
    if rs2_bits =? 0 then
      (if rs1_bits =? 0 then None else rs1 ← from_bits rs1_bits; Some (CJr rs1))
    else rd ← from_bits rs1_bits; rs2 ← from_bits rs2_bits; Some (CMv rd rs2)
  else
    if rs2_bits =? 0 then
      (if rs1_bits =? 0 then Some CEbreak else rs1 ← from_bits rs1_bits; Some (CJalr rs1))
    else rd ← from_bits rs1_bits; rs2 ← from_bits rs2_bits; Some (CAdd rd rs2).

(** Quadrant 10 *)
Definition decode_q2 (inst : Z) : option (Rv64ZcaInstruction R) :=
  let funct3 := field inst 13 7 in
  let rd_bits := field inst 7 0x1f in
  let rs2_bits := field inst 2 0x1f in
  if funct3 =? 0 then (rd ← from_bits rd_bits; Some (CSlli rd (ci_shamt inst))) else
  if funct3 =? 2 then
    (if rd_bits =? 0 then None else rd ← from_bits rd_bits; Some (CLwsp rd (lwsp_imm inst))) else
  if funct3 =? 3 then
    (if rd_bits =? 0 then None else rd ← from_bits rd_bits; Some (CLdsp rd (ldsp_imm inst))) else
  if funct3 =? 4 then decode_q2_jumps inst else
  if funct3 =? 6 then (rs2 ← from_bits rs2_bits; Some (CSwsp rs2 (swsp_imm inst))) else
  if funct3 =? 7 then (rs2 ← from_bits rs2_bits; Some (CSdsp rs2 (sdsp_imm inst))) else
  None.

(** [Rv64ZcaInstruction::try_decode] *)
Definition try_decode_zca (instruction : Z) : option (Rv64ZcaInstruction R) :=
  let inst := wrap 16 instruction in
  let quadrant := Z.land inst 3 in
  if quadrant =? 0 then decode_q0 inst else
  if quadrant =? 1 then decode_q1 inst else
  if quadrant =? 2 then decode_q2 inst else
  None.

Definition decode_zcb_memory (inst : Z) : option (Rv64ZcbOnlyInstruction R) :=
  let sub := field inst 10 7 in
  let rs1_bits := prime_reg_bits (field inst 7 7) in
  let rd_rs2_bits := prime_reg_bits (field inst 2 7) in
  let byte_imm := wrap 8 (Z.lor (shl_u16 (field inst 5 1) 1) (field inst 6 1)) in
  let half_imm := shl_u8 (field inst 5 1) 1 in
  if sub =? 0 then
    (rs1 ← from_bits rs1_bits; rd ← from_bits rd_rs2_bits; Some (CLbu rd rs1 byte_imm)) else
  if sub =? 1 then
    (rs1 ← from_bits rs1_bits; rd ← from_bits rd_rs2_bits;
     if field inst 6 1 =? 0 then Some (CLhu rd rs1 half_imm) else Some (CLh rd rs1 half_imm)) else
  if sub =? 2 then
    (rs1 ← from_bits rs1_bits; rs2 ← from_bits rd_rs2_bits; Some (CSb rs1 rs2 byte_imm)) else
  if sub =? 3 then
    (if field inst 6 1 =? 0 then
       rs1 ← from_bits rs1_bits; rs2 ← from_bits rd_rs2_bits; Some (CSh rs1 rs2 half_imm)
     else None) else
  None.

Definition decode_zcb_alu (inst : Z) : option (Rv64ZcbOnlyInstruction R) :=
  if negb (field inst 10 3 =? 3) || (field inst 12 1 =? 0) then None
  else
    let rd_rs1_bits := prime_reg_bits (field inst 7 7) in
    let funct2b := field inst 5 3 in
    let rs2_sub := field inst 2 7 in
    if funct2b =? 3 then
      (rd ← from_bits rd_rs1_bits;
       if rs2_sub =? 0 then Some (CZextB rd) else
       if rs2_sub =? 1 then Some (CSextB rd) else
       if rs2_sub =? 2 then Some (CZextH rd) else
       if rs2_sub =? 3 then Some (CSextH rd) else
       if rs2_sub =? 4 then Some (CZextW rd) else
       if rs2_sub =? 5 then Some (CNot rd) else None) else
    if funct2b =? 2 then
      (rd ← from_bits rd_rs1_bits; rs2 ← from_bits (prime_reg_bits rs2_sub); Some (CMul rd rs2)) else
    None.

(** [Rv64ZcbOnlyInstruction::try_decode] *)
Definition try_decode_zcb (instruction : Z) : option (Rv64ZcbOnlyInstruction R) :=
  let inst := wrap 16 instruction in
  let quadrant := Z.land inst 3 in
  let funct3 := field inst 13 7 in
  if (quadrant =? 0) && (funct3 =? 4) then decode_zcb_memory inst else
  if (quadrant =? 1) && (funct3 =? 4) then decode_zcb_alu inst else
  None.

(** [size] and [alignment] of both instruction types. *)
Definition zca_size : Z := 2.
Definition zca_alignment : Z := 2.
End decode.

(** ** Execution *)

Section execute.
Context {R Regs Mem PC H : Type} `{Register R} `{!RegisterFile R Regs} `{!VirtualMemory Mem}
  `{!ProgramCounter PC Mem} `{!SystemInstructionHandler H Regs Mem PC}.

Abbreviation state := (machine Regs Mem PC H).
Abbreviation exec_result := (result (control_flow (R * Z)) execution_error).

(** [Ok(ControlFlow::Continue((rd, f(regs.read(r)))))] *)
Definition with_read (s : state) (r : R) (k : Z -> outcome (R * Z)) : outcome (state * exec_result) :=
  let! v := reg_read (m_regs s) r in continue_with s (k v).

(** Jump relative to the compressed instruction that is executing. *)
Definition jump_relative_c (s : state) (imm : Z) : outcome (state * exec_result) :=
  let! old := old_pc (m_pc s) 2 in
  let (pc, r) := set_pc (m_pc s) (m_memory s) (wrap 64 (old + sext imm)) in
  Ret (with_pc s pc, from_set_pc r).

Definition jump_to (s : state) (target : Z) : outcome (state * exec_result) :=
  let (pc, r) := set_pc (m_pc s) (m_memory s) target in Ret (with_pc s pc, from_set_pc r).

(** [x & !1] *)
Definition clear_lowest (x : Z) : Z := Z.land x (2 ^ 64 - 2).

(** Quadrant 00 *)
Definition execute_q0 (i : Rv64ZcaInstruction R) (rs1_value rs2_value : Z) (s : state)
    : option (outcome (state * exec_result)) :=
  match i with
  | CAddi4spn rd nzuimm => Some (with_read s SP (fun sp_val => Ret (rd, wrap 64 (sp_val + nzuimm))))
  | CLw rd _ uimm => Some (load s rd 4 (fun v => sext (signed 32 v)) (wrap 64 (rs1_value + uimm)))
  | CLd rd _ uimm => Some (load s rd 8 (fun v => v) (wrap 64 (rs1_value + uimm)))
  | CSw _ _ uimm => Some (store s 4 (wrap 64 (rs1_value + uimm)) (wrap 32 rs2_value))
  | CSd _ _ uimm => Some (store s 8 (wrap 64 (rs1_value + uimm)) rs2_value)
  | _ => None
  end.

(** Quadrant 01 *)
Definition execute_q1 (i : Rv64ZcaInstruction R) (rs1_value rs2_value : Z) (s : state)
    : option (outcome (state * exec_result)) :=
  match i with
  | CNop => Some (Ret (s, continue_default))
  | CAddi rd nzimm => Some (with_read s rd (fun v => Ret (rd, wrap 64 (v + sext nzimm))))
  | CAddiw rd imm =>
      Some (with_read s rd (fun v => Ret (rd, sext (signed 32 (signed 32 v + imm)))))
  | CLi rd imm => Some (continue_with s (Ret (rd, sext imm)))
  | CAddi16sp nzimm => Some (with_read s SP (fun v => Ret (SP, wrap 64 (v + sext nzimm))))
  | CLui rd nzimm => Some (continue_with s (Ret (rd, sext (i24_to_i32 nzimm))))
  | CSrli rd shamt => Some (with_read s rd (fun v => let! x := shr 64 v shamt in Ret (rd, x)))
  | CSrai rd shamt =>
      Some (with_read s rd (fun v => let! x := shr 64 (signed 64 v) shamt in Ret (rd, wrap 64 x)))
  | CAndi rd imm => Some (with_read s rd (fun v => Ret (rd, Z.land v (sext imm))))
  | CSub rd _ => Some (with_read s rd (fun v => Ret (rd, wrap 64 (v - rs2_value))))
  | CXor rd _ => Some (with_read s rd (fun v => Ret (rd, Z.lxor v rs2_value)))
  | COr rd _ => Some (with_read s rd (fun v => Ret (rd, Z.lor v rs2_value)))
  | CAnd rd _ => Some (with_read s rd (fun v => Ret (rd, Z.land v rs2_value)))
  | CSubw rd _ =>
      Some (with_read s rd (fun v => Ret (rd, sext (signed 32 (signed 32 v - signed 32 rs2_value)))))
  | CAddw rd _ =>
      Some (with_read s rd (fun v => Ret (rd, sext (signed 32 (signed 32 v + signed 32 rs2_value)))))
  | CJ imm => Some (jump_relative_c s imm)
  | CBeqz _ imm =>
      Some (if rs1_value =? 0 then jump_relative_c s imm else Ret (s, continue_default))
  | CBnez _ imm =>
      Some (if negb (rs1_value =? 0) then jump_relative_c s imm else Ret (s, continue_default))
  | _ => None
  end.

(** Quadrant 10; the last case is [CUnimp]. *)
Definition execute_q2 (i : Rv64ZcaInstruction R) (rs1_value rs2_value : Z) (s : state)
    : outcome (state * exec_result) :=
  match i with
  | CSlli rd shamt => with_read s rd (fun v => let! x := shl 64 v shamt in Ret (rd, x))
  | CLwsp rd uimm =>
      let! sp := reg_read (m_regs s) SP in
      load s rd 4 (fun v => sext (signed 32 v)) (wrap 64 (sp + uimm))
  | CLdsp rd uimm =>
      let! sp := reg_read (m_regs s) SP in load s rd 8 (fun v => v) (wrap 64 (sp + uimm))
  | CJr _ => jump_to s (clear_lowest rs1_value)
  | CMv rd _ => continue_with s (Ret (rd, rs2_value))
  | CEbreak => execute_ebreak s
  | CJalr _ =>
      let! regs := reg_write (m_regs s) RA (get_pc (m_pc s)) in
      jump_to (with_regs s regs) (clear_lowest rs1_value)
  | CAdd rd _ => with_read s rd (fun v => Ret (rd, wrap 64 (v + rs2_value)))
  | CSwsp _ uimm =>
      let! sp := reg_read (m_regs s) SP in store s 4 (wrap 64 (sp + uimm)) (wrap 32 rs2_value)
  | CSdsp _ uimm =>
      let! sp := reg_read (m_regs s) SP in store s 8 (wrap 64 (sp + uimm)) rs2_value
  | _ => let! old := old_pc (m_pc s) 2 in Ret (s, Err (IllegalInstruction old))
  end.

(** [Rv64ZcaInstruction::execute] *)
Definition execute_zca (i : Rv64ZcaInstruction R) (rs1_value rs2_value : Z) (s : state)
    : outcome (state * exec_result) :=
  match execute_q0 i rs1_value rs2_value s with Some r => r | None =>
  match execute_q1 i rs1_value rs2_value s with Some r => r | None =>
  execute_q2 i rs1_value rs2_value s
  end end.

Definition operands_zca (i : Rv64ZcaInstruction R) : R * R :=
  match i with
  | CLw _ rs1 _ | CLd _ rs1 _ | CBeqz rs1 _ | CBnez rs1 _ | CJr rs1 | CJalr rs1 => (rs1, ZERO)
  | CSw rs1 rs2 _ | CSd rs1 rs2 _ => (rs1, rs2)
  | CSub _ rs2 | CXor _ rs2 | COr _ rs2 | CAnd _ rs2 | CSubw _ rs2 | CAddw _ rs2
  | CMv _ rs2 | CAdd _ rs2 | CSwsp rs2 _ | CSdsp rs2 _ => (ZERO, rs2)
  | _ => (ZERO, ZERO)
  end.

(** [Rv64ZcbOnlyInstruction::execute] *)
Definition execute_zcb (i : Rv64ZcbOnlyInstruction R) (rs1_value rs2_value : Z) (s : state)
    : outcome (state * exec_result) :=
  match i with
  | CLbu rd _ uimm => load s rd 1 (fun v => v) (wrap 64 (rs1_value + uimm))
  | CLh rd _ uimm => load s rd 2 (fun v => sext (signed 16 v)) (wrap 64 (rs1_value + uimm))
  | CLhu rd _ uimm => load s rd 2 (fun v => v) (wrap 64 (rs1_value + uimm))
  | CSb _ _ uimm => store s 1 (wrap 64 (rs1_value + uimm)) (wrap 8 rs2_value)
  | CSh _ _ uimm => store s 2 (wrap 64 (rs1_value + uimm)) (wrap 16 rs2_value)
  | CZextB rd => with_read s rd (fun v => Ret (rd, Z.land v 0xff))
  | CSextB rd => with_read s rd (fun v => Ret (rd, sext (signed 8 v)))
  | CZextH rd => with_read s rd (fun v => Ret (rd, Z.land v 0xffff))
  | CSextH rd => with_read s rd (fun v => Ret (rd, sext (signed 16 v)))
  | CZextW rd => with_read s rd (fun v => Ret (rd, Z.land v 0xffffffff))
  | CNot rd => with_read s rd (fun v => Ret (rd, Z.lxor v (2 ^ 64 - 1)))
  | CMul rd _ => with_read s rd (fun v => Ret (rd, wrap 64 (v * rs2_value)))
  end.

Definition operands_zcb (i : Rv64ZcbOnlyInstruction R) : R * R :=
  match i with
  | CLbu _ rs1 _ | CLh _ rs1 _ | CLhu _ rs1 _ => (rs1, ZERO)
  | CSb rs1 rs2 _ | CSh rs1 rs2 _ => (rs1, rs2)
  | CMul _ rs2 => (ZERO, rs2)
  | _ => (ZERO, ZERO)
  end.
End execute.
End RvZca.
