(* ===== verification/RvZcaEncoding.v ===== *)
(** * Decoding of compressed instructions is the inverse of their encoding

    The encodings of the RISC-V specification (C and Zcb chapters) for the instructions of
    [RvZca], and the proof that the two decoders accept exactly the halfwords they produce.
    A halfword is cut at the boundaries that all formats share: bits 1-0, 4-2, 6-5, 9-7,
    11-10, 12 and 15-13. *)

From S2P Require Import Prelude RvInt RvRegisters Rv64Decode Rv64Encoding Rv64Exec RvZca.
From stdpp Require Import prelude.
From Stdlib Require Import ZArith Lia.
Local Open Scope Z_scope.

Module RvZcaEncoding.
Import RvInt RvRegisters Rv64 Rv64Encoding RvZca.

(** Bits [hi] to [lo] of an immediate. *)
Definition bits (u hi lo : Z) : Z := (u / 2 ^ lo) mod 2 ^ (hi - lo + 1).

Definition half (op x4_2 x6_5 x9_7 x11_10 x12 f3 : Z) : Z :=
  op + 4 * x4_2 + 32 * x6_5 + 128 * x9_7 + 1024 * x11_10 + 4096 * x12 + 8192 * f3.

(** A field of five bits in the place of two. *)
Definition half5 (op x6_2 x11_7 x12 f3 : Z) : Z :=
  half op (x6_2 mod 8) (x6_2 / 8) (x11_7 mod 8) (x11_7 / 8) x12 f3.

Section encode.
Context {R : Type} `{Register R}.

(** The three bits of a register between 8 and 15. *)
Definition prime (r : R) : Z := offset r - 8.

(** The six bits of a CI immediate or a shift amount. *)
Definition ci_type (op f3 rd u : Z) : Z := half5 op (bits u 4 0) rd (bits u 5 5) f3.
Definition cb_type (f2 rd u : Z) : Z :=
  half 1 (bits u 2 0) (bits u 4 3) rd f2 (bits u 5 5) 4.

Definition lw_type (f3 rs1 x u : Z) : Z :=
  half 0 x (bits u 6 6 + 2 * bits u 2 2) rs1 (bits u 4 3) (bits u 5 5) f3.
Definition ld_type (f3 rs1 x u : Z) : Z :=
  half 0 x (bits u 7 6) rs1 (bits u 4 3) (bits u 5 5) f3.

Definition branch_type (f3 rs1 u : Z) : Z :=
  half 1 (bits u 5 5 + 2 * bits u 2 1) (bits u 7 6) rs1 (bits u 4 3) (bits u 8 8) f3.

Definition encode_zca (i : Rv64ZcaInstruction R) : Z :=
  match i with
  | CAddi4spn rd u =>
      half 0 (prime rd) (bits u 3 3 + 2 * bits u 2 2) (bits u 8 6)
        (bits u 9 9 + 2 * bits u 4 4) (bits u 5 5) 0
  | CLw rd rs1 u => lw_type 2 (prime rs1) (prime rd) u
  | CLd rd rs1 u => ld_type 3 (prime rs1) (prime rd) u
  | CSw rs1 rs2 u => lw_type 6 (prime rs1) (prime rs2) u
  | CSd rs1 rs2 u => ld_type 7 (prime rs1) (prime rs2) u
  | CNop => ci_type 1 0 0 0
  | CAddi rd imm => ci_type 1 0 (offset rd) imm
  | CAddiw rd imm => ci_type 1 1 (offset rd) imm
  | CLi rd imm => ci_type 1 2 (offset rd) imm
  | CAddi16sp imm =>
      half 1 (bits imm 5 5 + 2 * bits imm 8 7) (bits imm 6 6 + 2 * bits imm 4 4) 2 0 (bits imm 9 9) 3
  | CLui rd imm =>
      half5 1 (bits (i24_to_i32 imm) 16 12) (offset rd) (bits (i24_to_i32 imm) 17 17) 3
  | CSrli rd u => cb_type 0 (prime rd) u
  | CSrai rd u => cb_type 1 (prime rd) u
  | CAndi rd imm => cb_type 2 (prime rd) imm
  | CSub rd rs2 => half 1 (prime rs2) 0 (prime rd) 3 0 4
  | CXor rd rs2 => half 1 (prime rs2) 1 (prime rd) 3 0 4
  | COr rd rs2 => half 1 (prime rs2) 2 (prime rd) 3 0 4
  | CAnd rd rs2 => half 1 (prime rs2) 3 (prime rd) 3 0 4
  | CSubw rd rs2 => half 1 (prime rs2) 0 (prime rd) 3 1 4
  | CAddw rd rs2 => half 1 (prime rs2) 1 (prime rd) 3 1 4
  | CJ imm =>
      half 1 (bits imm 5 5 + 2 * bits imm 2 1) (bits imm 3 3 + 2 * bits imm 7 7)
        (bits imm 6 6 + 2 * bits imm 10 10 + 4 * bits imm 8 8) (bits imm 9 9 + 2 * bits imm 4 4)
        (bits imm 11 11) 5
  | CBeqz rs1 imm => branch_type 6 (prime rs1) imm
  | CBnez rs1 imm => branch_type 7 (prime rs1) imm
  | CSlli rd u => ci_type 2 0 (offset rd) u
  | CLwsp rd u => half5 2 (bits u 7 6 + 4 * bits u 4 2) (offset rd) (bits u 5 5) 2
  | CLdsp rd u => half5 2 (bits u 8 6 + 8 * bits u 4 3) (offset rd) (bits u 5 5) 3
  | CJr rs1 => half5 2 0 (offset rs1) 0 4
  | CMv rd rs2 => half5 2 (offset rs2) (offset rd) 0 4
  | CEbreak => half5 2 0 0 1 4
  | CJalr rs1 => half5 2 0 (offset rs1) 1 4
  | CAdd rd rs2 => half5 2 (offset rs2) (offset rd) 1 4
  | CSwsp rs2 u => half5 2 (offset rs2) (bits u 7 6 + 4 * bits u 4 2) (bits u 5 5) 6
  | CSdsp rs2 u => half5 2 (offset rs2) (bits u 8 6 + 8 * bits u 4 3) (bits u 5 5) 7
  | CUnimp => half 0 0 0 0 0 0 0
  end.

Definition encode_zcb (i : Rv64ZcbOnlyInstruction R) : Z :=
  match i with
  | CLbu rd rs1 u => half 0 (prime rd) (bits u 1 1 + 2 * bits u 0 0) (prime rs1) 0 0 4
  | CLhu rd rs1 u => half 0 (prime rd) (bits u 1 1) (prime rs1) 1 0 4
  | CLh rd rs1 u => half 0 (prime rd) (bits u 1 1 + 2) (prime rs1) 1 0 4
  | CSb rs1 rs2 u => half 0 (prime rs2) (bits u 1 1 + 2 * bits u 0 0) (prime rs1) 2 0 4
  | CSh rs1 rs2 u => half 0 (prime rs2) (bits u 1 1) (prime rs1) 3 0 4
  | CZextB rd => half 1 0 3 (prime rd) 3 1 4
  | CSextB rd => half 1 1 3 (prime rd) 3 1 4
  | CZextH rd => half 1 2 3 (prime rd) 3 1 4
  | CSextH rd => half 1 3 3 (prime rd) 3 1 4
  | CZextW rd => half 1 4 3 (prime rd) 3 1 4
  | CNot rd => half 1 5 3 (prime rd) 3 1 4
  | CMul rd rs2 => half 1 (prime rs2) 2 (prime rd) 3 1 4
  end.

Definition is_prime (r : R) : Prop := 8 <= offset r < 16.

(** An unsigned multiple of [2 ^ k] below [2 ^ n], and a signed one of [n] bits. *)
Definition aligned (n k u : Z) : Prop := 0 <= u < 2 ^ n /\ u mod 2 ^ k = 0.
Definition aligned_signed (n k u : Z) : Prop := - 2 ^ (n - 1) <= u < 2 ^ (n - 1) /\ u mod 2 ^ k = 0.

(** Operands that have an encoding; the others are reserved or belong to another
    instruction. *)
Definition zca_wf (i : Rv64ZcaInstruction R) : Prop :=
  match i with
  | CAddi4spn rd u => is_prime rd /\ aligned 10 2 u /\ u <> 0
  | CLw rd rs1 u | CSw rs1 rd u => is_prime rd /\ is_prime rs1 /\ aligned 7 2 u
  | CLd rd rs1 u | CSd rs1 rd u => is_prime rd /\ is_prime rs1 /\ aligned 8 3 u
  | CAddi rd imm => aligned_signed 6 0 imm /\ (rd <> ZERO \/ imm <> 0)
  | CAddiw rd imm => aligned_signed 6 0 imm /\ rd <> ZERO
  | CLi rd imm => aligned_signed 6 0 imm
  | CAddi16sp imm => aligned_signed 10 4 imm /\ imm <> 0
  | CLui rd imm =>
      i24_wf imm /\ aligned_signed 18 12 (i24_to_i32 imm) /\ i24_to_i32 imm <> 0 /\ rd <> SP
  | CSrli rd u | CSrai rd u => is_prime rd /\ aligned 6 0 u
  | CAndi rd imm => is_prime rd /\ aligned_signed 6 0 imm
  | CSub rd rs2 | CXor rd rs2 | COr rd rs2 | CAnd rd rs2 | CSubw rd rs2 | CAddw rd rs2 =>
      is_prime rd /\ is_prime rs2
  | CJ imm => aligned_signed 12 1 imm
  | CBeqz rs1 imm | CBnez rs1 imm => is_prime rs1 /\ aligned_signed 9 1 imm
  | CSlli rd u => aligned 6 0 u
  | CLwsp rd u => aligned 8 2 u /\ rd <> ZERO
  | CLdsp rd u => aligned 9 3 u /\ rd <> ZERO
  | CJr rs1 | CJalr rs1 => rs1 <> ZERO
  | CMv rd rs2 | CAdd rd rs2 => rs2 <> ZERO
  | CSwsp rs2 u => aligned 8 2 u
  | CSdsp rs2 u => aligned 9 3 u
  | CNop | CEbreak | CUnimp => True
  end.

Definition zcb_wf (i : Rv64ZcbOnlyInstruction R) : Prop :=
  match i with
  | CLbu rd rs1 u | CSb rs1 rd u => is_prime rd /\ is_prime rs1 /\ aligned 2 0 u
  | CLh rd rs1 u | CLhu rd rs1 u | CSh rs1 rd u => is_prime rd /\ is_prime rs1 /\ aligned 2 1 u
  | CZextB rd | CSextB rd | CZextH rd | CSextH rd | CZextW rd | CNot rd => is_prime rd
  | CMul rd rs2 => is_prime rd /\ is_prime rs2
  end.
End encode.

(** ** The parts of a halfword *)

Record parts (op a b c d e f : Z) : Prop := {
  part_op : 0 <= op < 4;
  part_a : 0 <= a < 8;
  part_b : 0 <= b < 4;
  part_c : 0 <= c < 8;
  part_d : 0 <= d < 4;
  part_e : 0 <= e < 2;
  part_f : 0 <= f < 8
}.

Lemma half_parts w :
  0 <= w < 2 ^ 16 ->
  exists op a b c d e f, parts op a b c d e f /\ w = half op a b c d e f.
Proof.
  intros Hw. exists (w mod 4), ((w / 4) mod 8), ((w / 32) mod 4), ((w / 128) mod 8), ((w / 1024) mod 4),
    ((w / 4096) mod 2), (w / 8192).
  change (2 ^ 16) with 65536 in Hw. split.
  - split; try (apply Z.mod_pos_bound; lia). split; [apply Z.div_pos|apply Z.div_lt_upper_bound]; lia.
  - unfold half. clear -Hw. Z.to_euclidean_division_equations. lia.
Qed.

Section fields.
Context {op a b c d e f : Z} (P : parts op a b c d e f).
Local Abbreviation w := (half op a b c d e f).

Lemma half_range : 0 <= w < 2 ^ 16.
Proof using P. destruct P. unfold half. lia. Qed.

Lemma half_quadrant : Z.land w 3 = op.
Proof using P.
  destruct P. change 3 with (Z.ones 2). rewrite Z.land_ones by lia. unfold half. change (2 ^ 2) with 4.
  Z.to_euclidean_division_equations. lia.
Qed.

(** A field that starts in a part and ends in a part, with what is left of both. *)
Ltac solve_field :=
  destruct P; unfold field;
  match goal with |- Z.land (Z.shiftr ?x ?lo) ?m = _ =>
    let n := eval vm_compute in (Z.log2 (m + 1)) in rewrite (field_mask x lo n m) by done
  end;
  unfold half; simpl (2 ^ _); Z.to_euclidean_division_equations; lia.

Lemma field_13_3 : field w 13 7 = f.
Proof using P. solve_field. Qed.
Lemma field_12_1 : field w 12 1 = e.
Proof using P. solve_field. Qed.
Lemma field_11_2 : field w 11 3 = d / 2 + 2 * e.
Proof using P. solve_field. Qed.
Lemma field_11_1 : field w 11 1 = d / 2.
Proof using P. solve_field. Qed.
Lemma field_10_3 : field w 10 7 = d + 4 * e.
Proof using P. solve_field. Qed.
Lemma field_10_2 : field w 10 3 = d.
Proof using P. solve_field. Qed.
Lemma field_9_4 : field w 9 15 = c / 4 + 2 * d + 8 * e.
Proof using P. solve_field. Qed.
Lemma field_9_2 : field w 9 3 = c / 4 + 2 * (d mod 2).
Proof using P. solve_field. Qed.
Lemma field_8_1 : field w 8 1 = (c / 2) mod 2.
Proof using P. solve_field. Qed.
Lemma field_7_5 : field w 7 31 = c + 8 * d.
Proof using P. solve_field. Qed.
Lemma field_7_4 : field w 7 15 = c + 8 * (d mod 2).
Proof using P. solve_field. Qed.
Lemma field_7_3 : field w 7 7 = c.
Proof using P. solve_field. Qed.
Lemma field_7_2 : field w 7 3 = c mod 4.
Proof using P. solve_field. Qed.
Lemma field_7_1 : field w 7 1 = c mod 2.
Proof using P. solve_field. Qed.
Lemma field_6_1 : field w 6 1 = b / 2.
Proof using P. solve_field. Qed.
Lemma field_5_2 : field w 5 3 = b.
Proof using P. solve_field. Qed.
Lemma field_5_1 : field w 5 1 = b mod 2.
Proof using P. solve_field. Qed.
Lemma field_4_3 : field w 4 7 = a / 4 + 2 * b.
Proof using P. solve_field. Qed.
Lemma field_3_3 : field w 3 7 = a / 2 + 4 * (b mod 2).
Proof using P. solve_field. Qed.
Lemma field_3_2 : field w 3 3 = a / 2.
Proof using P. solve_field. Qed.
Lemma field_2_5 : field w 2 31 = a + 8 * b.
Proof using P. solve_field. Qed.
Lemma field_2_3 : field w 2 7 = a.
Proof using P. solve_field. Qed.
Lemma field_2_2 : field w 2 3 = a mod 4.
Proof using P. solve_field. Qed.
Lemma field_2_1 : field w 2 1 = a mod 2.
Proof using P. solve_field. Qed.

(** ** Immediates *)

Lemma lor_disjoint x y n : 0 <= n -> x mod 2 ^ n = 0 -> 0 <= y < 2 ^ n -> Z.lor x y = x + y.
Proof.
  intros Hn Hx Hy. pose proof (pow2_pos n Hn). apply Z.mod_divide in Hx as [q ->]; [|lia]. by apply lor_add.
Qed.

Lemma shl_u8_small x n : 0 <= n -> 0 <= x * 2 ^ n < 2 ^ 8 -> shl_u8 x n = x * 2 ^ n.
Proof. intros Hn Hx. unfold shl_u8. rewrite Z.shiftl_mul_pow2 by done. by apply wrap_small. Qed.

Lemma shl_u16_small x n : 0 <= n -> 0 <= x * 2 ^ n < 2 ^ 16 -> shl_u16 x n = x * 2 ^ n.
Proof. intros Hn Hx. unfold shl_u16. rewrite Z.shiftl_mul_pow2 by done. by apply wrap_small. Qed.

Lemma shl_i16_small x n : 0 <= n -> 0 <= x -> x * 2 ^ n < 2 ^ 15 -> shl_signed 16 (signed 16 x) n = x * 2 ^ n.
Proof.
  intros Hn Hx Hlt. pose proof (pow2_pos n Hn).
  rewrite (signed_small 16) by (change (2 ^ (16 - 1)) with (2 ^ 15); nia).
  unfold shl_signed. rewrite Z.shiftl_mul_pow2 by done. apply signed_small; [lia|].
  change (2 ^ (16 - 1)) with (2 ^ 15). nia.
Qed.

Ltac ranges :=
  destruct P as [Pop Pa Pb Pc Pd Pe Pf];
  assert (0 <= a / 2 < 4) by (clear -Pa; Z.to_euclidean_division_equations; lia);
  assert (0 <= a / 4 < 2) by (clear -Pa; Z.to_euclidean_division_equations; lia);
  assert (0 <= a mod 2 < 2) by (apply Z.mod_pos_bound; lia);
  assert (0 <= a mod 4 < 4) by (apply Z.mod_pos_bound; lia);
  assert (0 <= b / 2 < 2) by (clear -Pb; Z.to_euclidean_division_equations; lia);
  assert (0 <= b mod 2 < 2) by (apply Z.mod_pos_bound; lia);
  assert (0 <= c / 4 < 2) by (clear -Pc; Z.to_euclidean_division_equations; lia);
  assert (0 <= (c / 2) mod 2 < 2) by (apply Z.mod_pos_bound; lia);
  assert (0 <= c mod 4 < 4) by (apply Z.mod_pos_bound; lia);
  assert (0 <= c mod 2 < 2) by (apply Z.mod_pos_bound; lia);
  assert (0 <= d / 2 < 2) by (clear -Pd; Z.to_euclidean_division_equations; lia);
  assert (0 <= d mod 2 < 2) by (apply Z.mod_pos_bound; lia).

(** Joins shifted fields that are written from the highest to the lowest. *)
Ltac join_fields :=
  rewrite ?shl_u8_small, ?shl_u16_small, ?shl_i16_small by lia;
  repeat match goal with
  | |- context [Z.lor (?x * 2 ^ ?k) ?y] => rewrite (lor_disjoint (x * 2 ^ k) y k)
      by (lia || (rewrite Z.mod_mul by lia; lia))
  | |- context [Z.lor (?x + ?z * 2 ^ ?k) ?y] => rewrite (lor_disjoint (x + z * 2 ^ k) y k)
      by (lia || (simpl (2 ^ _); Z.to_euclidean_division_equations; lia))
  end.

Ltac rewrite_fields :=
  rewrite ?field_13_3, ?field_12_1, ?field_11_2, ?field_11_1, ?field_10_3, ?field_10_2, ?field_9_4, ?field_9_2,
    ?field_8_1, ?field_7_5, ?field_7_4, ?field_7_3, ?field_7_2, ?field_7_1, ?field_6_1, ?field_5_2, ?field_5_1,
    ?field_4_3, ?field_3_3, ?field_3_2, ?field_2_5, ?field_2_3, ?field_2_2, ?field_2_1, ?half_quadrant.

Lemma cb_branch_half :
  decode_cb_branch_imm w = signed 9 (256 * e + 64 * b + 32 * (a mod 2) + 8 * d + 2 * (a / 2)).
Proof using P.
  unfold decode_cb_branch_imm. rewrite_fields. ranges. join_fields.
  unfold extend. rewrite sign_extend by lia. change (16 - 7) with 9. f_equal. lia.
Qed.
Lemma cj_half : decode_cj_imm w = signed 12 (2048 * e + 1024 * ((c / 2) mod 2) + 256 * (c / 4 + 2 * (d mod 2))
    + 128 * (b / 2) + 64 * (c mod 2) + 32 * (a mod 2) + 16 * (d / 2) + 2 * (a / 2 + 4 * (b mod 2))).
Proof using P.
  unfold decode_cj_imm. rewrite_fields. ranges. join_fields. 
  unfold extend. rewrite sign_extend by lia. change (16 - 4) with 12. f_equal. lia.
Qed.

Lemma addi4spn_half : addi4spn_imm w = 64 * (c + 8 * (d mod 2)) + 16 * (d / 2 + 2 * e) + 8 * (b mod 2) + 4 * (b / 2).
Proof using P.
  unfold addi4spn_imm. rewrite_fields. ranges. join_fields. lia.
Qed.

Lemma lw_half : lw_imm w = 64 * (b mod 2) + 8 * (d + 4 * e) + 4 * (b / 2).
Proof using P.
  unfold lw_imm. rewrite_fields. ranges. join_fields. lia.
Qed.

Lemma ld_half : ld_imm w = 64 * b + 8 * (d + 4 * e).
Proof using P.
  unfold ld_imm. rewrite_fields. ranges. join_fields. lia.
Qed.

Lemma shamt_half : ci_shamt w = 32 * e + (a + 8 * b).
Proof using P.
  unfold ci_shamt. rewrite_fields. ranges. join_fields. lia.
Qed.

Lemma addi16sp_half : addi16sp_raw w = 512 * e + 128 * (a / 2) + 64 * (b mod 2) + 32 * (a mod 2) + 16 * (b / 2).
Proof using P.
  unfold addi16sp_raw. rewrite_fields. ranges. join_fields. lia.
Qed.

Lemma lwsp_half : lwsp_imm w = 64 * (a mod 4) + 32 * e + 4 * (a / 4 + 2 * b).
Proof using P.
  unfold lwsp_imm. rewrite_fields. ranges. join_fields. lia.
Qed.

Lemma ldsp_half : ldsp_imm w = 64 * a + 32 * e + 8 * b.
Proof using P.
  unfold ldsp_imm. rewrite_fields. ranges. join_fields. lia.
Qed.

Lemma swsp_half : swsp_imm w = 64 * (c mod 4) + 4 * (c / 4 + 2 * d + 8 * e).
Proof using P.
  unfold swsp_imm. rewrite_fields. ranges. join_fields. lia.
Qed.

Lemma sdsp_half : sdsp_imm w = 64 * c + 8 * (d + 4 * e).
Proof using P.
  unfold sdsp_imm. rewrite_fields. ranges. join_fields. lia.
Qed.

Lemma lui_half : lui_raw w = 131072 * e + 4096 * (a + 8 * b).
Proof using P.
  unfold lui_raw. rewrite_fields. ranges. rewrite !shl_small by lia. join_fields. lia.
Qed.

Lemma ci_imm_half : ci_imm w = signed 6 (32 * e + (a + 8 * b)).
Proof using P.
  unfold ci_imm, extend. rewrite shamt_half, sign_extend by lia. by rewrite signed_signed_le by lia.
Qed.

Lemma zcb_byte_half : wrap 8 (Z.lor (shl_u16 (field w 5 1) 1) (field w 6 1)) = 2 * (b mod 2) + b / 2.
Proof using P. rewrite_fields. ranges. join_fields. rewrite wrap_small by lia. lia. Qed.

Lemma zcb_half_half : shl_u8 (field w 5 1) 1 = 2 * (b mod 2).
Proof using P. rewrite_fields. ranges. join_fields. lia. Qed.
End fields.

(** ** What is decoded was encoded *)

Ltac rewrite_half P H :=
  rewrite ?(zcb_byte_half P), ?(zcb_half_half P),
    ?(cb_branch_half P), ?(cj_half P), ?(addi4spn_half P), ?(lw_half P), ?(ld_half P), ?(ci_imm_half P),
    ?(shamt_half P), ?(addi16sp_half P), ?(lwsp_half P), ?(ldsp_half P), ?(swsp_half P), ?(sdsp_half P),
    ?(lui_half P), ?(field_13_3 P), ?(field_12_1 P), ?(field_10_3 P), ?(field_10_2 P), ?(field_7_5 P),
    ?(field_7_3 P), ?(field_6_1 P), ?(field_5_2 P), ?(field_2_5 P), ?(field_2_3 P), ?(half_quadrant P) in H.

Ltac tests H :=
  repeat match type of H with
  | context [?a =? ?b] => destruct (Z.eqb_spec a b); cbn [andb orb negb] in H; try discriminate H
  end.
Ltac decoded H := tests H; try discriminate H; registers H; try discriminate H; injection H as <-.

Ltac arith := try simpl (2 ^ _) in *; Z.to_euclidean_division_equations; lia.

Section sound.
Context {R : Type} `{RegisterLaws R}.

Lemma rd_nonzero (r : R) x : x = offset r -> x <> 0 -> r <> ZERO.
Proof. intros Hx Hn ->. rewrite offset_ZERO in Hx. done. Qed.

(** Operands and encoding of a decoded instruction, part by part. *)
Ltac finish :=
  unfold prime_reg_bits in *; cbn [zca_wf encode_zca];
  unfold ci_type, lw_type, ld_type, cb_type, branch_type, half5, is_prime, aligned, aligned_signed;
  split; [try split_and!; first [by eapply rd_nonzero|by left; eapply rd_nonzero|by right|arith|done]|f_equal; unfold bits, prime; arith].

Lemma decode_q0_sound a b c d e f i :
  parts 0 a b c d e f -> decode_q0 (R := R) (half 0 a b c d e f) = Some i ->
  zca_wf i /\ encode_zca i = half 0 a b c d e f.
Proof.
  intros P Hd. unfold decode_q0 in Hd. cbv zeta in Hd. rewrite_half P Hd. destruct P. decoded Hd; subst.
  - split; [done|]. by rewrite e2.
  - finish.
  - finish.
  - finish.
  - finish.
  - finish.
Qed.

(** Immediates of six bits. *)
Lemma ci_imm_sound (rd : R) a b c d e f op :
  parts op a b c d e f -> c + 8 * d = offset rd ->
  let imm := signed 6 (32 * e + (a + 8 * b)) in
  aligned_signed 6 0 imm /\ ci_type op f (offset rd) imm = half op a b c d e f.
Proof.
  intros P Hrd imm. split.
  - split; [by apply (signed_range 6)|]. change (2 ^ 0) with 1. apply Z.mod_1_r.
  - destruct (signed_offset 6 (32 * e + (a + 8 * b))) as [k Hk]. fold imm in Hk. rewrite Hk, <- Hrd. destruct P.
    unfold ci_type, half5, bits. f_equal; arith.
Qed.

Lemma decode_q2_sound a b c d e f i :
  parts 2 a b c d e f -> decode_q2 (R := R) (half 2 a b c d e f) = Some i ->
  zca_wf i /\ encode_zca i = half 2 a b c d e f.
Proof.
  intros P Hd. unfold decode_q2, decode_q2_jumps in Hd. cbv zeta in Hd. rewrite_half P Hd. destruct P.
  decoded Hd; subst.
  all: finish.
Qed.

(** A signed immediate of [n] bits and its bits. *)
Lemma signed_residue n u : 0 < n -> exists k, signed n u = u + k * 2 ^ n /\ - 2 ^ (n - 1) <= signed n u < 2 ^ (n - 1).
Proof. intros Hn. destruct (signed_offset n u) as [k Hk]. exists k. split; [done|]. by apply signed_range. Qed.

Ltac finish_signed :=
  match goal with
  | |- context [signed ?n ?u] =>
      destruct (signed_residue n u) as (k & Hk & Hrange); [lia|]; set (imm := signed n u) in *; clearbody imm
  end; finish.

Lemma decode_alu_sound a b c d e i :
  parts 1 a b c d e 4 -> decode_q1_alu (R := R) (half 1 a b c d e 4) = Some i ->
  zca_wf i /\ encode_zca i = half 1 a b c d e 4.
Proof.
  intros P Hd. unfold decode_q1_alu in Hd. cbv zeta in Hd. rewrite_half P Hd. destruct P.
  decoded Hd; subst; first [finish_signed|finish].
Qed.

Lemma extend_signed w n x : 0 <= n < w -> extend w x n = signed (w - n) x.
Proof. apply sign_extend. Qed.

Lemma decode_lui_sound a b c d e i :
  parts 1 a b c d e 3 -> decode_lui_addi16sp (R := R) (half 1 a b c d e 3) = Some i ->
  zca_wf i /\ encode_zca i = half 1 a b c d e 3.
Proof.
  intros P Hd. unfold decode_lui_addi16sp in Hd. cbv zeta in Hd. rewrite_half P Hd.
  rewrite (extend_signed 16 6), (extend_signed 32 14) in Hd by lia. replace (16 - 6) with 10 in Hd by lia.
  replace (32 - 14) with 18 in Hd by lia.
  destruct P.
  decoded Hd; subst.
  - finish_signed.
  - destruct (signed_residue 18 (131072 * e + 4096 * (a + 8 * b))) as (k & Hk & Hrange); [lia|].
    destruct (i24_of_imm 18 _ ltac:(lia) Hrange) as [Hwf Hto].
    cbn [zca_wf encode_zca]. rewrite Hto. split; [split_and!; try done|].
    + unfold aligned_signed. split; [done|]. rewrite Hk. arith.
    + rewrite Hk. arith.
    + intros ->. rewrite offset_SP in *. done.
    + rewrite Hk. unfold half5. f_equal; unfold bits; arith.
Qed.

Lemma decode_q1_sound a b c d e f i :
  parts 1 a b c d e f -> decode_q1 (R := R) (half 1 a b c d e f) = Some i ->
  zca_wf i /\ encode_zca i = half 1 a b c d e f.
Proof.
  intros P Hd. unfold decode_q1 in Hd. cbv zeta in Hd. rewrite_half P Hd.
  destruct (Z.eqb_spec f 3) as [->|]; [by apply decode_lui_sound|].
  destruct (Z.eqb_spec f 4) as [->|]; [by apply decode_alu_sound|]. destruct P.
  decoded Hd; subst; try finish_signed.
  split; [done|]. destruct (signed_residue 6 (32 * e + (a + 8 * b))) as (k & Hk & _); [lia|].
  cbn [encode_zca]. unfold ci_type, half5. f_equal; unfold bits; arith.
Qed.

Lemma try_decode_zca_sound w i :
  0 <= w < 2 ^ 16 -> try_decode_zca w = Some i -> zca_wf i /\ encode_zca (R := R) i = w.
Proof.
  intros Hw. destruct (half_parts w Hw) as (op & a & b & c & d & e & f & P & ->).
  unfold try_decode_zca. rewrite (wrap_small 16) by done. cbv zeta. rewrite (half_quadrant P). intros Hd.
  destruct (Z.eqb_spec op 0) as [->|]; [by apply decode_q0_sound|].
  destruct (Z.eqb_spec op 1) as [->|]; [by apply decode_q1_sound|].
  destruct (Z.eqb_spec op 2) as [->|]; [by apply decode_q2_sound|done].
Qed.

Lemma try_decode_zcb_sound w i :
  0 <= w < 2 ^ 16 -> try_decode_zcb w = Some i -> zcb_wf i /\ encode_zcb (R := R) i = w.
Proof.
  intros Hw. destruct (half_parts w Hw) as (op & a & b & c & d & e & f & P & ->).
  unfold try_decode_zcb, decode_zcb_memory, decode_zcb_alu. rewrite (wrap_small 16) by done. cbv zeta. intros Hd.
  rewrite_half P Hd. destruct P. decoded Hd; subst.
  all: unfold prime_reg_bits in *; cbn [zcb_wf encode_zcb]; unfold is_prime, aligned.
  all: split; [try split_and!; first [arith|done]|f_equal; unfold bits, prime; arith].
Qed.
End sound.

(** ** Every encoding decodes *)

Lemma mod_div_8 x : x mod 8 + 8 * (x / 8) = x.
Proof. Z.to_euclidean_division_equations. lia. Qed.

(** Signed immediates from their bits. *)
Lemma signed_from n k imm u : 0 < n -> aligned_signed n k imm -> u = imm mod 2 ^ n -> signed n u = imm.
Proof. intros Hn [Hr _] ->. by apply imm_of_wrap. Qed.

Section complete.
Context {R : Type} `{RegisterLaws R}.

Lemma prime_bits (r : R) : prime_reg_bits (prime r) = offset r.
Proof. unfold prime_reg_bits, prime. lia. Qed.

Lemma offset_nonzero (r : R) : r <> ZERO -> offset r <> 0.
Proof. intros Hr Ho. apply Hr, offset_inj. by rewrite offset_ZERO. Qed.

Lemma offset_not_sp (r : R) : r <> SP -> offset r <> 2.
Proof. intros Hr Ho. apply Hr, offset_inj. by rewrite offset_SP. Qed.

(** The quadrant and the fields of a halfword whose parts are known. *)
Ltac evaluate P :=
  unfold try_decode_zca, decode_q0, decode_q1, decode_q2, decode_lui_addi16sp, decode_q1_alu, decode_q2_jumps;
  rewrite (wrap_small 16) by apply (half_range P);
  rewrite ?(cb_branch_half P), ?(cj_half P), ?(addi4spn_half P), ?(lw_half P), ?(ld_half P), ?(ci_imm_half P),
    ?(shamt_half P), ?(addi16sp_half P), ?(lwsp_half P), ?(ldsp_half P), ?(swsp_half P), ?(sdsp_half P),
    ?(lui_half P), ?(field_13_3 P), ?(field_12_1 P), ?(field_10_3 P), ?(field_10_2 P), ?(field_7_5 P),
    ?(field_7_3 P), ?(field_6_1 P), ?(field_5_2 P), ?(field_2_5 P), ?(field_2_3 P), ?(half_quadrant P),
    ?prime_bits, ?mod_div_8.

Ltac known_parts :=
  match goal with
  | |- context [half ?op ?a ?b ?c ?d ?e ?f] =>
      assert (P : parts op a b c d e f) by (unfold bits, prime; split; arith)
  end.

(** Decoding of the encoding of one instruction; what remains are the immediates. *)
Ltac decode_one :=
  intros Hwf; cbn [zca_wf encode_zca] in *;
  unfold is_prime, aligned, lw_type, ld_type, ci_type, cb_type, branch_type, half5 in *;
  repeat match goal with
  | r : R |- _ => lazymatch goal with H : 0 <= offset r < 32 |- _ => fail | _ => pose proof (offset_32 r) end
  end;
  known_parts;
  match goal with P : parts _ _ _ _ _ _ _ |- _ => split; [apply (half_range P)|]; evaluate P end;
  cbn [Z.eqb Pos.eqb andb negb]; rewrite ?from_bits_offset; cbn [mbind option_bind].

Definition decodes_back (i : Rv64ZcaInstruction R) : Prop :=
  zca_wf i -> 0 <= encode_zca i < 2 ^ 16 /\ try_decode_zca (encode_zca i) = Some i.

Lemma complete_unsigned i :
  match i with
  | CLw _ _ _ | CLd _ _ _ | CSw _ _ _ | CSd _ _ _ | CSrli _ _ | CSrai _ _ | CSlli _ _
  | CSub _ _ | CXor _ _ | COr _ _ | CAnd _ _ | CSubw _ _ | CAddw _ _ | CSwsp _ _ | CSdsp _ _ => decodes_back i
  | _ => True
  end.
Proof.
  destruct i; try done; unfold decodes_back; decode_one; try done; do 2 f_equal; unfold bits; arith.
Qed.

(** Registers that are tested before they are used. *)
Ltac nonzero :=
  repeat match goal with
  | Hr : ?r <> ZERO |- context [offset ?r =? 0] =>
      rewrite (proj2 (Z.eqb_neq (offset r) 0)) by (by apply offset_nonzero)
  end; rewrite ?from_bits_offset; cbn [mbind option_bind].

Lemma complete_tested i :
  match i with
  | CLwsp _ _ | CLdsp _ _ | CJr _ | CJalr _ | CMv _ _ | CAdd _ _ | CEbreak | CUnimp => decodes_back i
  | _ => True
  end.
Proof.
  destruct i; try done; unfold decodes_back; decode_one; try done; destruct_and?; nonzero;
    try done; do 2 f_equal; unfold bits; arith.
Qed.

Lemma complete_addi4spn rd u : decodes_back (CAddi4spn rd u).
Proof.
  unfold decodes_back. decode_one. destruct Hwf as (Hrd & Hu & Hne).
  match goal with |- context [if ?x =? 0 then _ else _] => replace x with u by (unfold bits; arith) end.
  by rewrite (proj2 (Z.eqb_neq u 0)) by done.
Qed.

(** Signed immediates *)
Lemma signed_6 imm :
  aligned_signed 6 0 imm ->
  signed 6 (32 * bits imm 5 5 + bits imm 4 0) = imm /\
  signed 6 (32 * bits imm 5 5 + (bits imm 2 0 + 8 * bits imm 4 3)) = imm.
Proof.
  intros Hi. split; apply (signed_from 6 0); try done; unfold bits; destruct Hi as [Hr _]; arith.
Qed.

Lemma complete_signed i :
  match i with
  | CNop | CAddi _ _ | CAddiw _ _ | CLi _ _ | CAndi _ _ => decodes_back i
  | _ => True
  end.
Proof.
  destruct i; try done; unfold decodes_back; decode_one; try done; destruct_and?; nonzero;
    try match goal with Hi : aligned_signed 6 0 ?imm |- _ => destruct (signed_6 imm Hi) as [E1 E2]; rewrite ?E1, ?E2 end;
    try done.
  destruct (Z.eqb_spec (offset rd) 0) as [Ho|]; [|done]. destruct (Z.eqb_spec nzimm 0); [|done]. exfalso.
  match goal with Hor : _ \/ _ |- _ => destruct Hor as [Hrd|]; [|done] end. by apply offset_nonzero in Hrd.
Qed.

Lemma complete_jumps i :
  match i with CJ _ | CBeqz _ _ | CBnez _ _ => decodes_back i | _ => True end.
Proof.
  destruct i; try done; unfold decodes_back; decode_one; do 2 f_equal;
    match goal with Hwf : context [aligned_signed ?n ?k ?imm] |- _ => apply (signed_from n k) end;
    try lia; try tauto; unfold aligned_signed in Hwf; unfold bits; arith.
Qed.

Lemma complete_addi16sp imm : decodes_back (CAddi16sp imm).
Proof.
  unfold decodes_back. decode_one. destruct Hwf as [Hi Hne].
  rewrite (extend_signed 16 6) by lia. replace (16 - 6) with 10 by lia.
  match goal with |- context [?x =? 0] => assert (E : x = imm mod 2 ^ 10) end.
  { destruct Hi as [Hr Hm]. unfold bits. arith. }
  rewrite E, (signed_from 10 4 imm) by done.
  destruct (Z.eqb_spec (imm mod 2 ^ 10) 0); [|done]. exfalso. apply Hne. destruct Hi as [Hr _]. arith.
Qed.

Lemma complete_lui rd imm : decodes_back (CLui rd imm).
Proof.
  unfold decodes_back. decode_one. destruct Hwf as (Hwf & Hi & Hne & Hsp).
  rewrite (proj2 (Z.eqb_neq (offset rd) 2)) by (by apply offset_not_sp).
  rewrite (extend_signed 32 14) by lia. replace (32 - 14) with 18 by lia.
  match goal with |- context [?x =? 0] => assert (E : x = i24_to_i32 imm mod 2 ^ 18) end.
  { destruct Hi as [Hr Hm]. unfold bits. arith. }
  rewrite E, (signed_from 18 12 (i24_to_i32 imm)), i24_from_to by done.
  destruct (Z.eqb_spec (i24_to_i32 imm mod 2 ^ 18) 0); [|done]. exfalso. apply Hne. destruct Hi as [Hr _]. arith.
Qed.

Lemma try_decode_zca_complete i : decodes_back i.
Proof.
  pose proof (complete_unsigned i) as H1. pose proof (complete_tested i) as H2.
  pose proof (complete_signed i) as H3. pose proof (complete_jumps i) as H4.
  destruct i; try done; [apply complete_addi4spn|apply complete_addi16sp|apply complete_lui].
Qed.

Lemma try_decode_zcb_complete i :
  zcb_wf i -> 0 <= encode_zcb (R := R) i < 2 ^ 16 /\ try_decode_zcb (encode_zcb i) = Some i.
Proof.
  intros Hwf. destruct i; cbn [zcb_wf encode_zcb] in *; unfold is_prime, aligned in *; known_parts;
    match goal with P : parts _ _ _ _ _ _ _ |- _ => 
      split; [apply (half_range P)|];
      unfold try_decode_zcb, decode_zcb_memory, decode_zcb_alu; rewrite (wrap_small 16) by apply (half_range P);
      rewrite ?(zcb_byte_half P), ?(zcb_half_half P), ?(field_13_3 P), ?(field_12_1 P), ?(field_10_3 P),
        ?(field_10_2 P), ?(field_7_3 P), ?(field_6_1 P), ?(field_5_2 P), ?(field_2_3 P), ?(half_quadrant P), ?prime_bits
    end;
    change (0 + 4 * 0) with 0; change (1 + 4 * 0) with 1; change (2 + 4 * 0) with 2; change (3 + 4 * 0) with 3;
    cbn [Z.eqb Pos.eqb andb orb negb]; rewrite ?from_bits_offset; cbn [mbind option_bind]; try done;
    try match goal with
    | |- context [?x =? 0] =>
        (rewrite (proj2 (Z.eqb_eq x 0)) by (unfold bits; arith)) || (rewrite (proj2 (Z.eqb_neq x 0)) by (unfold bits; arith))
    end; do 2 f_equal; unfold bits; arith.
Qed.

(** The decoder of the Zca extension accepts exactly the halfwords that encode one of its
    instructions, hints included and reserved encodings excluded, and decodes each to the
    instruction it encodes. *)
Theorem zca_decode_exact w (i : Rv64ZcaInstruction R) :
  0 <= w < 2 ^ 16 -> (try_decode_zca w = Some i <-> zca_wf i /\ encode_zca i = w).
Proof.
  intros Hw. split; [by apply try_decode_zca_sound|]. intros [Hwf <-]. by apply try_decode_zca_complete.
Qed.

(** The same for Zcb. *)
Theorem zcb_decode_exact w (i : Rv64ZcbOnlyInstruction R) :
  0 <= w < 2 ^ 16 -> (try_decode_zcb w = Some i <-> zcb_wf i /\ encode_zcb i = w).
Proof.
  intros Hw. split; [by apply try_decode_zcb_sound|]. intros [Hwf <-]. by apply try_decode_zcb_complete.
Qed.
End complete.

(** ** Examples *)

Lemma zca_decode_exact_witness :
  try_decode_zca 0x4188 = Some (CLw A0 A1 0) <->
  zca_wf (CLw A0 A1 0) /\ encode_zca (CLw A0 A1 0) = 0x4188.
Proof. apply (zca_decode_exact 0x4188 (CLw A0 A1 0)). lia. Defined.

Lemma zcb_decode_exact_witness :
  try_decode_zcb 0x9d75 = Some (CNot A0) <-> zcb_wf (CNot A0) /\ encode_zcb (CNot A0) = 0x9d75.
Proof. apply (zcb_decode_exact 0x9d75 (CNot A0)). lia. Defined.

Example zca_examples :
  try_decode_zca 0x4188 = Some (CLw A0 A1 0) /\ try_decode_zcb 0x9d75 = Some (CNot A0) /\
  try_decode_zca 0x8082 = Some (CJr Ra) /\ try_decode_zca 0x0000 = Some (CUnimp (R := Reg)).
Proof. by vm_compute. Qed.

End RvZcaEncoding.
