(* ===== verification/RvZcaExpansion.v ===== *)
(** * Compressed instructions execute as what they abbreviate

    Every instruction of Zca and Zcb abbreviates an instruction of RV64I, of the M extension
    or of the B extension, given by [expand_zca] and [expand_zcb] as in the tables of the
    RISC-V specification.  The theorems state that both have the same effect on any machine
    in which registers behave as [RegisterFileLaws] promises. *)

From S2P Require Import Prelude RvInt RvRegisters RvMemory Rv64Decode Rv64Encoding Rv64Exec Rv64Bits.
From S2P Require Import RvInterp RvZca RvZcaEncoding.
From stdpp Require Import prelude.
From Stdlib Require Import ZArith Lia.
Local Open Scope Z_scope.

Module RvZcaExpansion.
Import RvInt RvRegisters RvMemory Rv64 Rv64Encoding Rv64Exec Rv64Bits RvInterp RvZca RvZcaEncoding.

(** An instruction of 32 bits that has abbreviations. *)
Inductive base_instruction (R : Type) : Type :=
| BaseI (i : Rv64Instruction R)
| BaseM (i : Rv64MInstruction R)
| BaseB (i : Rv64BInstruction R).
Arguments BaseI {R} i.
Arguments BaseM {R} i.
Arguments BaseB {R} i.

Section expansion.
Context {R : Type} `{Register R}.

(** Jumps are relative to the address of the instruction, which the interpreter computes
    from a program counter that is past it.  After a compressed instruction this is two
    bytes closer, so the offset of the instruction it abbreviates is two larger in the
    same state. *)
Definition offset_past (imm : Z) : I24 := i24_from_i32 (imm + 2).

(** [C.UNIMP] abbreviates nothing. *)
Definition expand_zca (c : Rv64ZcaInstruction R) : option (Rv64Instruction R) :=
  match c with
  | CAddi4spn rd u => Some (Addi rd SP u)
  | CLw rd rs1 u => Some (Lw rd rs1 u)
  | CLd rd rs1 u => Some (Ld rd rs1 u)
  | CSw rs1 rs2 u => Some (Sw rs2 rs1 u)
  | CSd rs1 rs2 u => Some (Sd rs2 rs1 u)
  | CNop => Some (Addi ZERO ZERO 0)
  | CAddi rd imm => Some (Addi rd rd imm)
  | CAddiw rd imm => Some (Addiw rd rd imm)
  | CLi rd imm => Some (Addi rd ZERO imm)
  | CAddi16sp imm => Some (Addi SP SP imm)
  | CLui rd imm => Some (Lui rd (i24z_from_i32 12 (i24_to_i32 imm)))
  | CSrli rd u => Some (Srli rd rd u)
  | CSrai rd u => Some (Srai rd rd u)
  | CAndi rd imm => Some (Andi rd rd imm)
  | CSub rd rs2 => Some (Sub rd rd rs2)
  | CXor rd rs2 => Some (Xor rd rd rs2)
  | COr rd rs2 => Some (Or rd rd rs2)
  | CAnd rd rs2 => Some (And rd rd rs2)
  | CSubw rd rs2 => Some (Subw rd rd rs2)
  | CAddw rd rs2 => Some (Addw rd rd rs2)
  | CJ imm => Some (Jal ZERO (offset_past imm))
  | CBeqz rs1 imm => Some (Beq rs1 ZERO (offset_past imm))
  | CBnez rs1 imm => Some (Bne rs1 ZERO (offset_past imm))
  | CSlli rd u => Some (Slli rd rd u)
  | CLwsp rd u => Some (Lw rd SP u)
  | CLdsp rd u => Some (Ld rd SP u)
  | CJr rs1 => Some (Jalr ZERO rs1 0)
  | CMv rd rs2 => Some (Add rd ZERO rs2)
  | CEbreak => Some Ebreak
  | CJalr rs1 => Some (Jalr RA rs1 0)
  | CAdd rd rs2 => Some (Add rd rd rs2)
  | CSwsp rs2 u => Some (Sw rs2 SP u)
  | CSdsp rs2 u => Some (Sd rs2 SP u)
  | CUnimp => None
  end.

Definition expand_zcb (c : Rv64ZcbOnlyInstruction R) : base_instruction R :=
  match c with
  | CLbu rd rs1 u => BaseI (Lbu rd rs1 u)
  | CLh rd rs1 u => BaseI (Lh rd rs1 u)
  | CLhu rd rs1 u => BaseI (Lhu rd rs1 u)
  | CSb rs1 rs2 u => BaseI (Sb rs2 rs1 u)
  | CSh rs1 rs2 u => BaseI (Sh rs2 rs1 u)
  | CZextB rd => BaseI (Andi rd rd 0xff)
  | CSextB rd => BaseB (InZbb (Sextb rd rd))
  | CZextH rd => BaseB (InZbb (Zexth rd rd))
  | CSextH rd => BaseB (InZbb (Sexth rd rd))
  | CZextW rd => BaseB (InZba (AddUw rd rd ZERO))
  | CNot rd => BaseI (Xori rd rd (-1))
  | CMul rd rs2 => BaseM (Mul rd rd rs2)
  end.
End expansion.

(** ** Running an instruction *)

Section run.
Context {R Regs Mem PC H : Type} `{Register R} `{!RegisterFile R Regs} `{!VirtualMemory Mem}
  `{!ProgramCounter PC Mem} `{!SystemInstructionHandler H Regs Mem PC}.

Abbreviation state := (machine Regs Mem PC H).
Abbreviation exec_result := (result (control_flow (R * Z)) execution_error).

(** The operands are read and the instruction is executed, as the loop of [basic.rs] does. *)
Definition with_operands (rs : R * R) (execute : Z -> Z -> state -> outcome (state * exec_result)) (s : state)
    : outcome (state * exec_result) :=
  let! rs1_value := reg_read (m_regs s) rs.1 in
  let! rs2_value := reg_read (m_regs s) rs.2 in
  execute rs1_value rs2_value s.

Definition run_zca (c : Rv64ZcaInstruction R) : state -> outcome (state * exec_result) :=
  with_operands (operands_zca c) (execute_zca c).
Definition run_zcb (c : Rv64ZcbOnlyInstruction R) : state -> outcome (state * exec_result) :=
  with_operands (operands_zcb c) (execute_zcb c).
Definition run_i (i : Rv64Instruction R) : state -> outcome (state * exec_result) :=
  with_operands (operands i) (execute i).
Definition run_base (i : base_instruction R) : state -> outcome (state * exec_result) :=
  match i with
  | BaseI i => run_i i
  | BaseM i => with_operands (operands_m i) (fun a b s => continue_with s (Ret (execute_m i a b)))
  | BaseB i => with_operands (operands_b i) (fun a b s => continue_with s (execute_b i a b))
  end.

(** Machines that no program tells apart: what was written to the zero register does not
    count. *)
Record machine_equiv (s s' : state) : Prop := {
  equiv_regs : forall r : R, reg_read (m_regs s) r = reg_read (m_regs s') r;
  equiv_memory : m_memory s = m_memory s';
  equiv_pc : m_pc s = m_pc s';
  equiv_handler : m_handler s = m_handler s'
}.

#[export] Instance machine_equiv_equivalence : Equivalence machine_equiv.
Proof.
  split.
  - intros s. done.
  - intros s s' []. split; intros; by symmetry.
  - intros s1 s2 s3 [] []. split; intros; etransitivity; eauto.
Qed.

Definition outcome_equiv (o o' : outcome (state * exec_result)) : Prop :=
  match o, o' with
  | Ret (s, r), Ret (s', r') => machine_equiv s s' /\ r = r'
  | Fault, Fault => True
  | _, _ => False
  end.

Lemma outcome_equiv_refl o : outcome_equiv o o.
Proof. destruct o as [[s r]|]; cbn; [|done]. split; [reflexivity|done]. Qed.
End run.

(** ** Arithmetic *)

(** The offset fits the 24 bits of an immediate. *)
Lemma offset_past_value imm :
  - 2 ^ 22 <= imm < 2 ^ 22 -> i24_to_i32 (offset_past imm) = imm + 2.
Proof.
  intros Hi. unfold offset_past. rewrite i24_roundtrip. apply signed_small; [lia|].
  change (2 ^ (24 - 1)) with (2 * 2 ^ 22). lia.
Qed.

Lemma offset_past_wf imm n :
  aligned_signed n 1 imm -> 1 < n <= 20 ->
  i24_wf (offset_past imm) /\ - 2 ^ n <= i24_to_i32 (offset_past imm) < 2 ^ n /\
  i24_to_i32 (offset_past imm) mod 2 = 0.
Proof.
  intros [Hr Hm] Hn. change (2 ^ 1) with 2 in Hm.
  pose proof (Z.pow_le_mono_r 2 (n - 1) 22 ltac:(lia) ltac:(lia)).
  pose proof (Z.pow_le_mono_r 2 1 (n - 1) ltac:(lia) ltac:(lia)).
  rewrite offset_past_value by lia. split_and!.
  - unfold offset_past, i24_from_i32. split_and!; apply le_byte_is_byte.
  - rewrite (pow2_split n) by lia. lia.
  - rewrite (pow2_split n) by lia. lia.
  - Z.to_euclidean_division_equations. lia.
Qed.

Lemma lui_container imm :
  aligned_signed 18 12 imm ->
  i24z_wf (i24z_from_i32 12 imm) /\ i24z_to_i32 12 (i24z_from_i32 12 imm) = imm.
Proof.
  intros [Hr Hm]. change (2 ^ (18 - 1)) with 131072 in Hr.
  assert (Hq : imm = imm / 2 ^ 12 * 2 ^ 12) by (Z.to_euclidean_division_equations; lia).
  destruct (i24z_from_value (imm / 2 ^ 12)) as [Hwf Hv].
  { change (2 ^ 19) with 524288. change (2 ^ 12) with 4096. Z.to_euclidean_division_equations. lia. }
  rewrite <- Hq in Hwf, Hv. split; [done|]. rewrite i24z_to_i32_value by done. by rewrite Hv, <- Hq.
Qed.

(** ** The expansions are instructions *)

Section expansion_wf.
Context {R : Type} `{Register R}.

Lemma expand_zca_wf (c : Rv64ZcaInstruction R) i :
  zca_wf c -> expand_zca c = Some i -> wf i.
Proof.
  intros Hc Hi. destruct c; cbn in Hi; simplify_eq; cbn [zca_wf wf] in *; try done;
    try (unfold aligned, aligned_signed in Hc; cbn in Hc; lia).
  - apply lui_container, Hc.
  - destruct (offset_past_wf imm 12 Hc ltac:(lia)) as (? & ? & ?). split_and!; [done|lia..].
  - destruct (offset_past_wf imm 9 (proj2 Hc) ltac:(lia)) as (? & ? & ?). split_and!; [done|lia..].
  - destruct (offset_past_wf imm 9 (proj2 Hc) ltac:(lia)) as (? & ? & ?). split_and!; [done|lia..].
Qed.

Definition base_wf (i : base_instruction R) : Prop :=
  match i with BaseI i => wf i | BaseM _ => True | BaseB i => b_wf i end.

Lemma expand_zcb_wf (c : Rv64ZcbOnlyInstruction R) : zcb_wf c -> base_wf (expand_zcb c).
Proof.
  intros Hc. destruct c; cbn [zcb_wf expand_zcb base_wf wf b_wf] in *; try done;
    try (unfold aligned, aligned_signed in Hc; cbn in Hc; lia).
Qed.
End expansion_wf.

(** ** The effects agree *)

Section expansion_correct.
Context {R Regs Mem PC H : Type} `{RegisterLaws R} `{!RegisterFile R Regs} `{!RegisterFileLaws R Regs}
  `{!VirtualMemory Mem} `{!ProgramCounter PC Mem} `{!SystemInstructionHandler H Regs Mem PC}.

Abbreviation state := (machine Regs Mem PC H).
Abbreviation exec_result := (result (control_flow (R * Z)) execution_error).

(** The program counter is a value of 64 bits past an instruction of 32 bits. *)
Definition runnable (s : state) : Prop := regs_ok (m_regs s) /\ 4 <= get_pc (m_pc s) < 2 ^ 64.

Lemma jump_relative_past (s : state) imm :
  runnable s -> - 2 ^ 22 <= imm < 2 ^ 22 ->
  jump_relative (R := R) s (i24_to_i32 (offset_past imm)) = jump_relative_c s imm.
Proof.
  intros [_ Hpc] Hi. unfold jump_relative, jump_relative_c, old_pc. rewrite offset_past_value by done.
  rewrite !(proj2 (Z.ltb_ge _ _)) by lia. cbn [obind]. rewrite !wrap_add_sext.
  replace (get_pc (m_pc s) - 4 + (imm + 2)) with (get_pc (m_pc s) - 2 + imm) by lia. done.
Qed.

(** A write to the zero register is not seen. *)
Lemma write_zero_equiv (s : state) v :
  regs_ok (m_regs s) -> 0 <= v < 2 ^ 64 ->
  exists regs, reg_write (m_regs s) ZERO v = Ret regs /\ machine_equiv (R := R) s (with_regs s regs).
Proof.
  intros Hok Hv. destruct (reg_write_spec (m_regs s) ZERO v Hok Hv) as (regs & Hw & Hok' & Hval).
  exists regs. split; [done|]. split; try done. intros r. cbn [with_regs m_regs].
  rewrite !reg_read_spec, Hval by done. destruct (decide (r = ZERO)) as [->|]; [|done].
  by rewrite reg_value_zero.
Qed.

Lemma jump_zero_equiv (s : state) v target :
  regs_ok (m_regs s) -> 0 <= v < 2 ^ 64 ->
  outcome_equiv (R := R)
    (let (pc, r) := set_pc (m_pc s) (m_memory s) target in Ret (with_pc s pc, from_set_pc r))
    (let! regs := reg_write (m_regs s) ZERO v in
     let (pc, r) := set_pc (m_pc s) (m_memory s) target in
     Ret (with_pc (with_regs s regs) pc, from_set_pc r)).
Proof.
  intros Hok Hv. destruct (write_zero_equiv s v Hok Hv) as (regs & Hw & Heq). rewrite Hw. cbn [obind].
  destruct (set_pc _ _ _) as [pc r]. cbn. split; [|done]. by destruct Heq.
Qed.

Lemma jal_equiv (s : state) imm :
  runnable s -> - 2 ^ 22 <= imm < 2 ^ 22 ->
  outcome_equiv (R := R) (jump_relative_c s imm) (execute_jal s ZERO (i24_to_i32 (offset_past imm))).
Proof.
  intros [Hok Hpc] Hi. unfold execute_jal, jump_relative_c, old_pc. rewrite offset_past_value by done.
  rewrite !(proj2 (Z.ltb_ge _ _)) by lia. cbn [obind]. rewrite !wrap_add_sext.
  replace (get_pc (m_pc s) - 4 + (imm + 2)) with (get_pc (m_pc s) - 2 + imm) by lia.
  apply jump_zero_equiv; [done|lia].
Qed.

Lemma branch_equiv (s : state) (taken : bool) imm r :
  runnable s -> is_prime r /\ aligned_signed 9 1 imm ->
  outcome_equiv (R := R) (if taken then jump_relative_c s imm else Ret (s, continue_default))
    (branch s taken (offset_past imm)).
Proof.
  intros Hs [_ [Hi _]]. cbn in Hi. unfold branch. destruct taken; [|apply outcome_equiv_refl].
  rewrite jump_relative_past by (done || lia). apply outcome_equiv_refl.
Qed.

Lemma jalr_target a : 0 <= a < 2 ^ 64 -> Z.land (wrap 64 (a + sext 0)) (2 ^ 64 - 2) = clear_lowest a.
Proof. intros Ha. rewrite wrap_add_sext, Z.add_0_r, wrap_small by done. done. Qed.

Ltac run_both :=
  unfold with_operands; cbn [operands operands_zca operands_zcb operands_m operands_b operands_zba operands_zbb fst snd];
  rewrite ?reg_read_spec by done; cbn [obind];
  unfold execute_zca, execute, with_read;
  cbn [execute_q0 execute_q1 execute_q2 execute_zcb execute_r execute_rw execute_i execute_load execute_store
       execute_branch execute_other execute_m execute_b execute_zba execute_zbb];
  unfold with_read; rewrite ?reg_read_spec by done; cbn [obind];
  rewrite ?wrap_add_sext, ?reg_value_zero.

Lemma zca_runs_as_expansion (c : Rv64ZcaInstruction R) (s : state) :
  zca_wf c -> runnable s ->
  match expand_zca c with
  | Some i => wf i /\ outcome_equiv (R := R) (run_zca c s) (run_i i s)
  | None => run_zca c s = Ret (s, Err (IllegalInstruction (get_pc (m_pc s) - 2)))
  end.
Proof.
  intros Hc Hs. pose proof Hs as [Hok Hpc]. destruct (expand_zca c) as [i|] eqn:Hi.
  - split; [by eapply expand_zca_wf|].
    destruct c; cbn in Hi; simplify_eq; cbn [zca_wf] in Hc; unfold run_zca, run_i; run_both;
      try apply outcome_equiv_refl.
    + rewrite (proj2 (lui_container _ (proj1 (proj2 Hc)))). apply outcome_equiv_refl.
    + apply jal_equiv; [done|]. destruct Hc as [Hr _]. cbn in Hr. lia.
    + by apply (branch_equiv _ _ _ rs1).
    + by apply (branch_equiv _ _ _ rs1).
    + unfold execute_jalr, jump_to. rewrite jalr_target by by apply reg_value_range.
      apply jump_zero_equiv; [done|lia].
    + rewrite Z.add_0_l, wrap_small by by apply reg_value_range. apply outcome_equiv_refl.
    + unfold execute_jalr, jump_to. rewrite jalr_target by by apply reg_value_range.
      apply outcome_equiv_refl.
  - destruct c; try discriminate Hi. unfold run_zca. run_both. unfold old_pc.
    by rewrite (proj2 (Z.ltb_ge _ _)) by lia.
Qed.

Lemma zcb_runs_as_expansion (c : Rv64ZcbOnlyInstruction R) (s : state) :
  zcb_wf c -> runnable s ->
  base_wf (expand_zcb c) /\ outcome_equiv (R := R) (run_zcb c s) (run_base (expand_zcb c) s).
Proof.
  intros Hc [Hok Hpc]. split; [by apply expand_zcb_wf|].
  destruct c; cbn [expand_zcb run_base]; unfold run_zcb, run_i; run_both;
    try apply outcome_equiv_refl.
  - change 0xffff with (Z.ones 16). rewrite Z.land_ones by lia. apply outcome_equiv_refl.
  - change 0xffffffff with (Z.ones 32). rewrite Z.land_ones, Z.add_0_r by lia.
    rewrite (wrap_small 64); [apply outcome_equiv_refl|].
    pose proof (wrap_range 32 (reg_value (m_regs s) rd)). lia.
Qed.

(** C25. A compressed instruction does what the instruction it abbreviates does, which is a
    valid one of RV64I, of the M or of the B extension: from any state with the program
    counter past it, reading the operands and executing gives the same memory, program
    counter, handler, value to write back or error, and registers that read alike.
    [C.UNIMP] alone abbreviates nothing and is illegal. *)
Theorem compressed_runs_as_expansion (s : state) :
  runnable s ->
  (forall c : Rv64ZcaInstruction R, zca_wf c ->
    match expand_zca c with
    | Some i => wf i /\ outcome_equiv (R := R) (run_zca c s) (run_i i s)
    | None => run_zca c s = Ret (s, Err (IllegalInstruction (get_pc (m_pc s) - 2)))
    end) /\
  (forall c : Rv64ZcbOnlyInstruction R, zcb_wf c ->
    base_wf (expand_zcb c) /\ outcome_equiv (R := R) (run_zcb c s) (run_base (expand_zcb c) s)).
Proof.
  intros Hs. split; intros c Hc; [by apply zca_runs_as_expansion|by apply zcb_runs_as_expansion].
Qed.
End expansion_correct.

(** ** Witnesses *)

(** [c.jr ra] and [c.mul a0, a1] in the state of the witnesses of the interpreter. *)
Lemma compressed_runs_as_expansion_witness :
  outcome_equiv (R := Reg) (run_zca (CJr Ra) sample_state) (run_i (Jalr Zero Ra 0) sample_state) /\
  outcome_equiv (R := Reg) (run_zcb (CMul A0 A1) sample_state) (run_base (BaseM (Mul A0 A0 A1)) sample_state).
Proof.
  assert (Hs : runnable (R := Reg) sample_state) by (split; [apply sample_state_ok|cbn; lia]).
  destruct (compressed_runs_as_expansion (R := Reg) sample_state Hs) as [Ha Hb]. split.
  - apply (Ha (CJr Ra)). done.
  - apply (Hb (CMul A0 A1)). by split; vm_compute.
Defined.

End RvZcaExpansion.
