(* ===== verification/RvZcmp.v ===== *)
(** * Push and pop instructions: Zcmp

    Model of [instructions/rv64/zce/zcmp.rs] and of [ZcmpRegister] and [ZcmpUrlist] in
    [instructions/rv32/zce/zcmp.rs] of [crates/execution/ab-riscv-primitives], and of
    [rv64/zce/zcmp.rs] with [rv64/zce/zcmp/rv64_zcmp_helpers.rs] of
    [crates/execution/ab-riscv-interpreter]: the instructions that open and close the stack
    frame of a function.  The theorems: decoding is the inverse of encoding, the frame is
    large enough for the registers it keeps, and closing a frame gives back the registers
    that were saved when it was opened. *)

From S2P Require Import Prelude RvInt RvRegisters RvMemory Rv64Decode Rv64Encoding Rv64Exec.
From S2P Require Import RvInterp RvZca RvZcaEncoding.
From stdpp Require Import prelude.
From Stdlib Require Import ZArith Lia.
Local Open Scope Z_scope.

Module RvZcmp.
Import RvInt RvRegisters RvMemory Rv64 Rv64Encoding Rv64Exec RvInterp RvZca RvZcaEncoding.

(** [ZcmpRegister]; its safety contract is a class of its own. *)
Class ZcmpRegister (R : Type) : Type := { RVE : bool }.

Class ZcmpRegisterLaws (R : Type) `{Register R} `{!ZcmpRegister R} : Prop := {
  zcmp_from_bits : forall b, b ∈ [1; 8; 9] -> is_Some (from_bits (R := R) b);
  zcmp_from_bits_saved : forall b, RVE = false -> 18 <= b <= 27 -> is_Some (from_bits (R := R) b)
}.

#[export] Instance Reg_Zcmp : ZcmpRegister Reg := {| RVE := false |}.
#[export] Instance EReg_Zcmp : ZcmpRegister EReg := {| RVE := true |}.

(** [ZcmpUrlist], with the variants of [ZcmpUrlistInner] *)
Inductive ZcmpUrlist : Type :=
| UrRa
| UrRaS0
| UrRaS0S1
| UrRaS0S2
| UrRaS0S3
| UrRaS0S4
| UrRaS0S5
| UrRaS0S6
| UrRaS0S7
| UrRaS0S8
| UrRaS0S9
| UrRaS0S11.

#[export] Instance ZcmpUrlist_eq_dec : EqDecision ZcmpUrlist.
Proof. solve_decision. Defined.

(** The first three lists are the ones of RVE as well. *)
Definition try_from_raw (rve : bool) (raw : Z) : option ZcmpUrlist :=
  if rve then
    match raw with
    | 4 => Some UrRa
    | 5 => Some UrRaS0
    | 6 => Some UrRaS0S1
    | _ => None
    end
  else
    match raw with
    | 4 => Some UrRa
    | 5 => Some UrRaS0
    | 6 => Some UrRaS0S1
    | 7 => Some UrRaS0S2
    | 8 => Some UrRaS0S3
    | 9 => Some UrRaS0S4
    | 10 => Some UrRaS0S5
    | 11 => Some UrRaS0S6
    | 12 => Some UrRaS0S7
    | 13 => Some UrRaS0S8
    | 14 => Some UrRaS0S9
    | 15 => Some UrRaS0S11
    | _ => None
    end.

Definition as_u8 (u : ZcmpUrlist) : Z :=
  match u with
  | UrRa => 4
  | UrRaS0 => 5
  | UrRaS0S1 => 6
  | UrRaS0S2 => 7
  | UrRaS0S3 => 8
  | UrRaS0S4 => 9
  | UrRaS0S5 => 10
  | UrRaS0S6 => 11
  | UrRaS0S7 => 12
  | UrRaS0S8 => 13
  | UrRaS0S9 => 14
  | UrRaS0S11 => 15
  end.

(** The register numbers [reg_list] goes over. *)
Definition reg_list_bits (u : ZcmpUrlist) : list Z :=
  match u with
  | UrRa => [1]
  | UrRaS0 => [1; 8]
  | UrRaS0S1 => [1; 8; 9]
  | UrRaS0S2 => [1; 8; 9; 18]
  | UrRaS0S3 => [1; 8; 9; 18; 19]
  | UrRaS0S4 => [1; 8; 9; 18; 19; 20]
  | UrRaS0S5 => [1; 8; 9; 18; 19; 20; 21]
  | UrRaS0S6 => [1; 8; 9; 18; 19; 20; 21; 22]
  | UrRaS0S7 => [1; 8; 9; 18; 19; 20; 21; 22; 23]
  | UrRaS0S8 => [1; 8; 9; 18; 19; 20; 21; 22; 23; 24]
  | UrRaS0S9 => [1; 8; 9; 18; 19; 20; 21; 22; 23; 24; 25]
  | UrRaS0S11 => [1; 8; 9; 18; 19; 20; 21; 22; 23; 24; 25; 26; 27]
  end.

(** [stack_adj_base] for registers of 64 bits *)
Definition stack_adj_base (u : ZcmpUrlist) : Z :=
  match u with
  | UrRa | UrRaS0 => 16
  | UrRaS0S1 | UrRaS0S2 => 32
  | UrRaS0S3 | UrRaS0S4 => 48
  | UrRaS0S5 | UrRaS0S6 => 64
  | UrRaS0S7 | UrRaS0S8 => 80
  | UrRaS0S9 => 96
  | UrRaS0S11 => 112
  end.

(** [Rv64ZcmpOnlyInstruction] *)
Inductive Rv64ZcmpOnlyInstruction (R : Type) : Type :=
| CmPush (urlist : ZcmpUrlist) (stack_adj : Z)
| CmPop (urlist : ZcmpUrlist) (stack_adj : Z)
| CmPopretz (urlist : ZcmpUrlist) (stack_adj : Z)
| CmPopret (urlist : ZcmpUrlist) (stack_adj : Z)
| CmMva01s (rs1 rs2 : R)
| CmMvsa01 (rs1 rs2 : R).
#[global] Arguments CmPush {R}.
#[global] Arguments CmPop {R}.
#[global] Arguments CmPopretz {R}.
#[global] Arguments CmPopret {R}.
#[global] Arguments CmMva01s {R}.
#[global] Arguments CmMvsa01 {R}.

(** ** Decoding *)

Definition sreg_bits (f : Z) : Z := if f =? 0 then 8 else if f =? 1 then 9 else f + 16.

(** [urlist.stack_adj_base() + spimm * 16] on [u8]; by [frame_bounds] it does not overflow. *)
Definition stack_adj_of (u : ZcmpUrlist) (spimm : Z) : Z :=
  wrap 8 (stack_adj_base u + wrap 8 (spimm * 16)).

Section decode.
Context {R : Type} `{Register R} `{!ZcmpRegister R}.

Definition decode_frame (inst : Z) : option (Rv64ZcmpOnlyInstruction R) :=
  let op_sel := field inst 9 3 in
  urlist ← try_from_raw RVE (field inst 4 0xf);
  let stack_adj := stack_adj_of urlist (field inst 2 3) in
  if op_sel =? 0 then Some (CmPush urlist stack_adj)
  else if op_sel =? 1 then Some (CmPop urlist stack_adj)
  else if op_sel =? 2 then Some (CmPopretz urlist stack_adj)
  else if op_sel =? 3 then Some (CmPopret urlist stack_adj)
  else None.

Definition decode_moves (inst : Z) : option (Rv64ZcmpOnlyInstruction R) :=
  if negb (field inst 10 1 =? 1) then None
  else
    let r1s_bits := field inst 7 7 in
    let funct2 := field inst 5 3 in
    let r2s_bits := field inst 2 7 in
    r1s ← from_bits (sreg_bits r1s_bits);
    r2s ← from_bits (sreg_bits r2s_bits);
    if funct2 =? 3 then Some (CmMva01s r1s r2s)
    else if funct2 =? 1 then (if r1s_bits =? r2s_bits then None else Some (CmMvsa01 r1s r2s))
    else None.

(** [Rv64ZcmpOnlyInstruction::try_decode] *)
Definition try_decode_zcmp (instruction : Z) : option (Rv64ZcmpOnlyInstruction R) :=
  let inst := wrap 16 instruction in
  let quadrant := Z.land inst 3 in
  let funct3 := field inst 13 7 in
  if negb (quadrant =? 2) || negb (funct3 =? 5) then None
  else
    let funct2_12_11 := field inst 11 3 in
    if funct2_12_11 =? 3 then decode_frame inst
    else if funct2_12_11 =? 1 then decode_moves inst
    else None.

(** [size] and [alignment] *)
Definition zcmp_size : Z := 2.
Definition zcmp_alignment : Z := 2.
End decode.

(** ** Execution *)

Section execute.
Context {R Regs Mem PC H : Type} `{Register R} `{!RegisterFile R Regs} `{!VirtualMemory Mem}
  `{!ProgramCounter PC Mem}.

Abbreviation state := (machine Regs Mem PC H).
Abbreviation exec_result := (result (control_flow (R * Z)) execution_error).

(** [Reg::from_bits(bits).unwrap_unchecked()] *)
Definition listed_register (bits : Z) : outcome R :=
  match from_bits bits with Some r => Ret r | None => Fault end.

(** The loop of [do_push]; the memory keeps what was written before an error. *)
Fixpoint push_loop (regs : Regs) (memory : Mem) (list : list Z) (store_addr : Z)
    : outcome (Mem * result unit memory_error) :=
  match list with
  | [] => Ret (memory, Ok tt)
  | bits :: list =>
      let! reg := listed_register bits in
      let! value := reg_read regs reg in
      let! r := mem_write 8 memory store_addr value in
      match r with
      | Err e => Ret (memory, Err e)
      | Ok memory => push_loop regs memory list (wrap 64 (store_addr - 8))
      end
  end.

Definition do_push (s : state) (urlist : ZcmpUrlist) (stack_adj : Z) : outcome (state * exec_result) :=
  let! sp := reg_read (m_regs s) SP in
  let! (memory, r) := push_loop (m_regs s) (m_memory s) (reg_list_bits urlist) (wrap 64 (sp - 8)) in
  Ret (with_memory s memory,
       match r with
       | Err e => Err (MemoryAccess e)
       | Ok _ => Ok (Continue (SP, wrap 64 (sp - stack_adj)))
       end).

(** The loop of [do_pop]; the registers keep what was read before an error. *)
Fixpoint pop_loop (regs : Regs) (memory : Mem) (list : list Z) (load_addr : Z)
    : outcome (Regs * result unit memory_error) :=
  match list with
  | [] => Ret (regs, Ok tt)
  | bits :: list =>
      let! reg := listed_register bits in
      let! r := mem_read 8 memory load_addr in
      match r with
      | Err e => Ret (regs, Err e)
      | Ok value =>
          let! regs := reg_write regs reg value in
          pop_loop regs memory list (wrap 64 (load_addr - 8))
      end
  end.

Definition do_pop (s : state) (urlist : ZcmpUrlist) (stack_adj : Z)
    : outcome (state * result Z execution_error) :=
  let! sp := reg_read (m_regs s) SP in
  let new_sp := wrap 64 (sp + stack_adj) in
  let! (regs, r) := pop_loop (m_regs s) (m_memory s) (reg_list_bits urlist) (wrap 64 (new_sp - 8)) in
  match r with
  | Err e => Ret (with_regs s regs, Err (MemoryAccess e))
  | Ok _ =>
      let! regs := reg_write regs SP new_sp in
      let! ra := reg_read regs RA in
      Ret (with_regs s regs, Ok ra)
  end.

(** [Rv64ZcmpOnlyInstruction::execute] *)
Definition execute_zcmp (i : Rv64ZcmpOnlyInstruction R) (rs1_value rs2_value : Z) (s : state)
    : outcome (state * exec_result) :=
  match i with
  | CmPush urlist stack_adj => do_push s urlist stack_adj
  | CmPop urlist stack_adj =>
      let! (s, r) := do_pop s urlist stack_adj in
      Ret (s, match r with Ok _ => continue_default | Err e => Err e end)
  | CmPopretz urlist stack_adj =>
      let! (s, r) := do_pop s urlist stack_adj in
      match r with
      | Err e => Ret (s, Err e)
      | Ok ra_val =>
          let! regs := reg_write (m_regs s) REG_A0 0 in
          jump_to (with_regs s regs) (clear_lowest ra_val)
      end
  | CmPopret urlist stack_adj =>
      let! (s, r) := do_pop s urlist stack_adj in
      match r with
      | Err e => Ret (s, Err e)
      | Ok ra_val => jump_to s (clear_lowest ra_val)
      end
  | CmMva01s _ _ =>
      let! regs := reg_write (m_regs s) REG_A0 rs1_value in
      Ret (with_regs s regs, Ok (Continue (REG_A1, rs2_value)))
  | CmMvsa01 rs1 rs2 =>
      let! a0_val := reg_read (m_regs s) REG_A0 in
      let! a1_val := reg_read (m_regs s) REG_A1 in
      let! regs := reg_write (m_regs s) rs1 a0_val in
      Ret (with_regs s regs, Ok (Continue (rs2, a1_val)))
  end.

(** The macro takes the operands from the names of the fields. *)
Definition operands_zcmp (i : Rv64ZcmpOnlyInstruction R) : R * R :=
  match i with
  | CmMva01s rs1 rs2 | CmMvsa01 rs1 rs2 => (rs1, rs2)
  | _ => (ZERO, ZERO)
  end.
End execute.

(** ** Encoding *)

#[export] Instance Reg_ZcmpLaws : ZcmpRegisterLaws Reg.
Proof.
  split.
  - intros b Hb. rewrite !elem_of_cons, elem_of_nil in Hb. destruct Hb as [-> |[-> |[-> |[]]]]; by eexists.
  - intros b _ Hb. cbn. unfold reg_from_bits.
    assert (Hin : b = 18 \/ b = 19 \/ b = 20 \/ b = 21 \/ b = 22 \/ b = 23 \/ b = 24 \/ b = 25 \/ b = 26 \/ b = 27) by lia.
    repeat destruct Hin as [-> |Hin]; try subst b; by eexists.
Qed.

#[export] Instance EReg_ZcmpLaws : ZcmpRegisterLaws EReg.
Proof.
  split; [|done]. intros b Hb. rewrite !elem_of_cons, elem_of_nil in Hb.
  destruct Hb as [-> |[-> |[-> |[]]]]; by eexists.
Qed.

(** The table of the specification: the frame has room for the registers, is a multiple of
    16 bytes and has no 16 bytes more than necessary. *)
Lemma stack_adj_base_spec u :
  let n := 8 * Z.of_nat (length (reg_list_bits u)) in
  n <= stack_adj_base u < n + 16 /\ stack_adj_base u mod 16 = 0 /\ 16 <= stack_adj_base u <= 112.
Proof. destruct u; cbn; repeat split; lia. Qed.

Section encoding.
Context {R : Type} `{RegisterLaws R} `{!ZcmpRegister R}.

(** The lists that can be named: three with RVE. *)
Definition urlist_wf (u : ZcmpUrlist) : Prop := RVE (R := R) = true -> as_u8 u <= 6.

(** The number of the field for a saved register. *)
Definition sreg_field (r : R) : Z := if offset r <=? 9 then offset r - 8 else offset r - 16.
Definition is_sreg (r : R) : Prop := 8 <= offset r <= 9 \/ 18 <= offset r <= 23.

Definition frame_wf (u : ZcmpUrlist) (adj : Z) : Prop :=
  urlist_wf u /\ exists spimm, 0 <= spimm < 4 /\ adj = stack_adj_base u + 16 * spimm.

Definition zcmp_wf (i : Rv64ZcmpOnlyInstruction R) : Prop :=
  match i with
  | CmPush u adj | CmPop u adj | CmPopretz u adj | CmPopret u adj => frame_wf u adj
  | CmMva01s rs1 rs2 => is_sreg rs1 /\ is_sreg rs2
  | CmMvsa01 rs1 rs2 => is_sreg rs1 /\ is_sreg rs2 /\ rs1 <> rs2
  end.

(** [101 11 op 0 urlist spimm 10] *)
Definition frame_type (op : Z) (u : ZcmpUrlist) (adj : Z) : Z :=
  2 + 4 * ((adj - stack_adj_base u) / 16) + 16 * as_u8 u + 512 * op + 2048 * 3 + 8192 * 5.

Definition encode_zcmp (i : Rv64ZcmpOnlyInstruction R) : Z :=
  match i with
  | CmPush u adj => frame_type 0 u adj
  | CmPop u adj => frame_type 1 u adj
  | CmPopretz u adj => frame_type 2 u adj
  | CmPopret u adj => frame_type 3 u adj
  | CmMva01s rs1 rs2 => half 2 (sreg_field rs2) 3 (sreg_field rs1) 3 0 5
  | CmMvsa01 rs1 rs2 => half 2 (sreg_field rs2) 1 (sreg_field rs1) 3 0 5
  end.

Definition is_frame (i : Rv64ZcmpOnlyInstruction R) : Prop :=
  match i with CmMva01s _ _ | CmMvsa01 _ _ => False | _ => True end.

Lemma try_from_raw_spec raw u :
  try_from_raw (RVE (R := R)) raw = Some u <-> urlist_wf u /\ raw = as_u8 u.
Proof.
  unfold urlist_wf, try_from_raw. destruct (RVE (R := R)); split.
  - intros Hd. repeat case_match; simplify_eq; split; cbn; (done || lia).
  - intros [Hu ->]. destruct u; cbn in *; try done; specialize (Hu eq_refl); lia.
  - intros Hd. repeat case_match; simplify_eq; split; cbn; (done || lia).
  - intros [_ ->]. by destruct u.
Qed.

Lemma stack_adj_of_spec u spimm : 0 <= spimm < 4 -> stack_adj_of u spimm = stack_adj_base u + 16 * spimm.
Proof.
  intros Hs. unfold stack_adj_of. destruct (stack_adj_base_spec u) as (_ & _ & Hb).
  rewrite (wrap_small 8 (spimm * 16)) by (change (2 ^ 8) with 256; lia).
  rewrite wrap_small by (change (2 ^ 8) with 256; lia). lia.
Qed.

Lemma sreg_bits_spec f (r : R) : 0 <= f < 8 -> from_bits (sreg_bits f) = Some r -> is_sreg r /\ sreg_field r = f.
Proof.
  intros Hf Hr. apply from_bits_Some in Hr. unfold sreg_bits in Hr. unfold is_sreg, sreg_field. rewrite <- Hr.
  destruct (Z.eqb_spec f 0) as [->|]; [split; [lia|done]|].
  destruct (Z.eqb_spec f 1) as [->|]; [split; [lia|done]|].
  split; [lia|]. rewrite (proj2 (Z.leb_gt _ _)) by lia. lia.
Qed.

Lemma sreg_field_spec (r : R) :
  is_sreg r -> 0 <= sreg_field r < 8 /\ from_bits (sreg_bits (sreg_field r)) = Some r.
Proof.
  intros Hr. unfold is_sreg, sreg_field in *. 
  destruct (Z.leb_spec (offset r) 9); (split; [lia|]); rewrite <- (from_bits_offset r); f_equal;
    unfold sreg_bits; repeat match goal with |- context [?a =? ?b] => destruct (Z.eqb_spec a b) end; lia.
Qed.

(** A halfword that is read as a frame instruction, with the bit that none of its fields
    covers. *)
Definition frame_half (bit8 op spimm raw : Z) : Z :=
  half 2 (spimm + 4 * (raw mod 2)) ((raw / 2) mod 4) (raw / 8 + 2 * bit8 + 4 * (op mod 2)) (op / 2 + 2) 1 5.

Lemma frame_half_type bit8 op spimm u :
  0 <= op < 4 -> 0 <= spimm < 4 ->
  frame_half bit8 op spimm (as_u8 u) = frame_type op u (stack_adj_base u + 16 * spimm) + 256 * bit8.
Proof.
  intros Hop Hs. unfold frame_half, frame_type, half.
  replace (stack_adj_base u + 16 * spimm - stack_adj_base u) with (spimm * 16) by lia.
  rewrite Z.div_mul by lia. assert (0 <= as_u8 u < 16) by (destruct u; cbn; lia).
  Z.to_euclidean_division_equations. lia.
Qed.

Section frame_fields.
Context {op a b c d e f : Z} (P : parts op a b c d e f).

Lemma field_4_4 : field (half op a b c d e f) 4 15 = a / 4 + 2 * b + 8 * (c mod 2).
Proof using P.
  destruct P. unfold field. rewrite (field_mask _ 4 4 15) by done. unfold half. simpl (2 ^ _).
  Z.to_euclidean_division_equations. lia.
Qed.

Lemma field_10_1 : field (half op a b c d e f) 10 1 = d mod 2.
Proof using P.
  destruct P. unfold field. rewrite (field_mask _ 10 1 1) by done. unfold half. simpl (2 ^ _).
  Z.to_euclidean_division_equations. lia.
Qed.
End frame_fields.

Lemma decode_zcmp_parts a b c d e f :
  parts 2 a b c d e f ->
  try_decode_zcmp (half 2 a b c d e f) =
    if negb (f =? 5) then None
    else if d / 2 + 2 * e =? 3 then
      urlist ← try_from_raw (RVE (R := R)) (a / 4 + 2 * b + 8 * (c mod 2));
      let adj := stack_adj_base urlist + 16 * (a mod 4) in
      let op := c / 4 + 2 * (d mod 2) in
      if op =? 0 then Some (CmPush urlist adj)
      else if op =? 1 then Some (CmPop urlist adj)
      else if op =? 2 then Some (CmPopretz urlist adj)
      else if op =? 3 then Some (CmPopret urlist adj)
      else None
    else if d / 2 + 2 * e =? 1 then
      if negb (d mod 2 =? 1) then None
      else
        r1s ← from_bits (sreg_bits c);
        r2s ← from_bits (sreg_bits a);
        if b =? 3 then Some (CmMva01s r1s r2s)
        else if b =? 1 then (if c =? a then None else Some (CmMvsa01 r1s r2s))
        else None
    else None.
Proof.
  intros P. unfold try_decode_zcmp, decode_frame, decode_moves. rewrite (wrap_small 16) by apply (half_range P).
  rewrite (half_quadrant P), (field_13_3 P), (field_11_2 P), (field_9_2 P), (field_4_4 P), (field_2_2 P),
    (field_10_1 P), (field_7_3 P), (field_5_2 P), (field_2_3 P). cbn [Z.eqb Pos.eqb negb orb].
  destruct (negb (f =? 5)); [done|]. destruct (_ =? 3); [|done].
  destruct (try_from_raw _ _) as [u|]; [|done]. cbn [mbind option_bind].
  by rewrite stack_adj_of_spec by (apply Z.mod_pos_bound; lia).
Qed.

Lemma frame_half_decodes bit8 op spimm u :
  0 <= bit8 < 2 -> 0 <= op < 4 -> 0 <= spimm < 4 -> urlist_wf u ->
  0 <= frame_half bit8 op spimm (as_u8 u) < 2 ^ 16 /\
  try_decode_zcmp (frame_half bit8 op spimm (as_u8 u)) =
    let adj := stack_adj_base u + 16 * spimm in
    if op =? 0 then Some (CmPush (R := R) u adj)
    else if op =? 1 then Some (CmPop u adj)
    else if op =? 2 then Some (CmPopretz u adj)
    else Some (CmPopret u adj).
Proof.
  intros H8 Hop Hs Hu. assert (Hraw : 0 <= as_u8 u < 16) by (destruct u; cbn; lia).
  assert (P : parts 2 (spimm + 4 * (as_u8 u mod 2)) ((as_u8 u / 2) mod 4)
    (as_u8 u / 8 + 2 * bit8 + 4 * (op mod 2)) (op / 2 + 2) 1 5) by (split; arith).
  split; [apply (half_range P)|]. unfold frame_half. rewrite (decode_zcmp_parts _ _ _ _ _ _ P).
  cbn [Z.eqb Pos.eqb negb].
  replace ((op / 2 + 2) / 2 + 2 * 1) with 3 by (clear -Hop; arith). cbn [Z.eqb Pos.eqb].
  match goal with |- context [try_from_raw _ ?x] => replace x with (as_u8 u) by (clear -H8 Hop Hs Hraw; arith) end.
  rewrite (proj2 (try_from_raw_spec (as_u8 u) u)) by done. cbn [mbind option_bind].
  replace ((spimm + 4 * (as_u8 u mod 2)) mod 4) with spimm by (clear -Hs; arith).
  replace ((as_u8 u / 8 + 2 * bit8 + 4 * (op mod 2)) / 4 + 2 * ((op / 2 + 2) mod 2)) with op
    by (clear -H8 Hop Hs Hraw; arith).
  cbv zeta. assert (Hc : op = 0 \/ op = 1 \/ op = 2 \/ op = 3) by lia.
  by destruct Hc as [-> |[-> |[-> | ->]]].
Qed.

Lemma moves_decode i :
  ~ is_frame i -> zcmp_wf i -> 0 <= encode_zcmp i < 2 ^ 16 /\ try_decode_zcmp (encode_zcmp i) = Some i.
Proof.
  intros Hf Hwf. destruct i as [| | | |rs1 rs2|rs1 rs2]; try (by destruct Hf); cbn [encode_zcmp zcmp_wf] in *.
  all: destruct Hwf as [H1 Hwf].
  2: destruct Hwf as [H2 Hne].
  all: destruct (sreg_field_spec rs1) as [? E1]; [done|]; destruct (sreg_field_spec rs2) as [? E2]; [done|].
  all: match goal with |- context [half ?op ?a ?b ?c ?d ?e ?f] => assert (P : parts op a b c d e f) by (split; lia) end.
  all: split; [apply (half_range P)|]; rewrite (decode_zcmp_parts _ _ _ _ _ _ P).
  all: change (3 / 2 + 2 * 0) with 1; change (3 mod 2) with 1; cbn [Z.eqb Pos.eqb negb].
  all: rewrite E1, E2; cbn [mbind option_bind]; try done.
  destruct (Z.eqb_spec (sreg_field rs1) (sreg_field rs2)) as [He|]; [|done].
  rewrite He, E2 in E1. by injection E1 as ->.
Qed.

Lemma frame_sound a b c d e u i :
  parts 2 a b c d e 5 -> d / 2 + 2 * e = 3 -> urlist_wf u -> a / 4 + 2 * b + 8 * (c mod 2) = as_u8 u ->
  (let adj := stack_adj_base u + 16 * (a mod 4) in
   let op := c / 4 + 2 * (d mod 2) in
   if op =? 0 then Some (CmPush u adj)
   else if op =? 1 then Some (CmPop u adj)
   else if op =? 2 then Some (CmPopretz u adj)
   else if op =? 3 then Some (CmPopret u adj)
   else None) = Some i ->
  zcmp_wf i /\ is_frame i /\ (half 2 a b c d e 5 = encode_zcmp i \/ half 2 a b c d e 5 = encode_zcmp i + 256).
Proof.
  intros [_ Pa Pb Pc Pd Pe _] H3 Hu Hraw. cbv zeta. intros Hd.
  pose proof (frame_half_type ((c / 2) mod 2) (c / 4 + 2 * (d mod 2)) (a mod 4) u
    ltac:(clear -Pc Pd; arith) ltac:(apply Z.mod_pos_bound; lia)) as Hh.
  assert (Heq : half 2 a b c d e 5 = frame_half ((c / 2) mod 2) (c / 4 + 2 * (d mod 2)) (a mod 4) (as_u8 u)).
  { rewrite <- Hraw. unfold frame_half, half. clear -Pa Pb Pc Pd Pe H3. arith. }
  rewrite Heq, Hh.
  assert (Hwf : frame_wf u (stack_adj_base u + 16 * (a mod 4))).
  { split; [done|]. exists (a mod 4). split; [apply Z.mod_pos_bound; lia|done]. }
  assert (Hb : (c / 2) mod 2 = 0 \/ (c / 2) mod 2 = 1).
  { pose proof (Z.mod_pos_bound (c / 2) 2). lia. }
  repeat match type of Hd with
  | (if ?x =? ?y then _ else _) = _ => destruct (Z.eqb_spec x y) as [E|]; [rewrite E|]
  end; simplify_eq; (split; [done|]); (split; [done|]); cbn [encode_zcmp]; lia.
Qed.

Lemma try_decode_zcmp_sound w i :
  0 <= w < 2 ^ 16 -> try_decode_zcmp w = Some i ->
  zcmp_wf i /\ (w = encode_zcmp i \/ is_frame i /\ w = encode_zcmp i + 256).
Proof.
  intros Hw Hd. destruct (half_parts w Hw) as (op & a & b & c & d & e & f & P & ->).
  assert (op = 2) as ->.
  { unfold try_decode_zcmp in Hd. rewrite (wrap_small 16) in Hd by done. rewrite (half_quadrant P) in Hd.
    by destruct (Z.eqb_spec op 2). }
  rewrite (decode_zcmp_parts _ _ _ _ _ _ P) in Hd. destruct (Z.eqb_spec f 5) as [->|]; [|done].
  cbn [negb] in Hd. destruct (Z.eqb_spec (d / 2 + 2 * e) 3) as [H3|_].
  - destruct (try_from_raw _ _) as [u|] eqn:Hraw; [|done]. apply try_from_raw_spec in Hraw as [Hu Hraw].
    destruct (frame_sound _ _ _ _ _ _ _ P H3 Hu Hraw Hd) as (? & ? & ?). tauto.
  - destruct (Z.eqb_spec (d / 2 + 2 * e) 1) as [H1|]; [|done].
    destruct (Z.eqb_spec (d mod 2) 1) as [Hm|]; [|done]. cbn [negb] in Hd. destruct P as [_ Pa Pb Pc Pd Pe _].
    destruct (from_bits (sreg_bits c)) as [r1|] eqn:E1; [|done].
    destruct (from_bits (sreg_bits a)) as [r2|] eqn:E2; [|done]. cbn [mbind option_bind] in Hd.
    destruct (sreg_bits_spec c r1 Pc E1) as [Hr1 F1]. destruct (sreg_bits_spec a r2 Pa E2) as [Hr2 F2].
    assert (d = 3 /\ e = 0) as [-> ->] by (clear -Pd Pe H1 Hm; arith).
    destruct (Z.eqb_spec b 3) as [->|]; [by simplify_eq; split; [|left]|].
    destruct (Z.eqb_spec b 1) as [->|]; [|done]. destruct (Z.eqb_spec c a) as [|Hne]; [done|].
    simplify_eq. split; [|by left]. split_and!; [done..|]. by intros ->.
Qed.

Lemma frame_complete op u adj i bit8 :
  frame_wf u adj -> 0 <= op < 4 -> 0 <= bit8 < 2 ->
  i = (if op =? 0 then CmPush u adj else if op =? 1 then CmPop u adj
       else if op =? 2 then CmPopretz u adj else CmPopret u adj) ->
  try_decode_zcmp (frame_type op u adj + 256 * bit8) = Some i.
Proof.
  intros [Hu (spimm & Hs & ->)] Hop H8 ->. rewrite <- frame_half_type by done.
  destruct (frame_half_decodes bit8 op spimm u H8 Hop Hs Hu) as [_ ->]. cbv zeta.
  by repeat case_match.
Qed.

Lemma try_decode_zcmp_complete i :
  zcmp_wf i -> try_decode_zcmp (encode_zcmp i) = Some i /\
    (is_frame i -> try_decode_zcmp (encode_zcmp i + 256) = Some i).
Proof.
  intros Hwf. destruct i as [u adj|u adj|u adj|u adj|rs1 rs2|rs1 rs2]; cbn [encode_zcmp zcmp_wf] in *.
  5: split; [by apply (moves_decode (CmMva01s rs1 rs2)); [intros []|]|done].
  5: split; [by apply (moves_decode (CmMvsa01 rs1 rs2)); [intros []|]|done].
  1: pose proof (frame_complete 0 u adj (CmPush u adj)) as Hc.
  2: pose proof (frame_complete 1 u adj (CmPop u adj)) as Hc.
  3: pose proof (frame_complete 2 u adj (CmPopretz u adj)) as Hc.
  4: pose proof (frame_complete 3 u adj (CmPopret u adj)) as Hc.
  all: split; [rewrite <- (Hc 0) by (done || lia); f_equal; lia|intros _].
  all: rewrite <- (Hc 1) by (done || lia); f_equal; lia.
Qed.

(** The decoder of the Zcmp extension accepts the halfwords that encode one of its
    instructions, and decodes each to the instruction it encodes.  It does not look at
    bit 8 of the instructions that open and close a frame, which the encoding has as zero:
    it also accepts the halfwords where it is set, and nothing else. *)
Theorem zcmp_decode_exact w (i : Rv64ZcmpOnlyInstruction R) :
  0 <= w < 2 ^ 16 ->
  (try_decode_zcmp w = Some i <->
   zcmp_wf i /\ (w = encode_zcmp i \/ is_frame i /\ w = encode_zcmp i + 256)).
Proof.
  intros Hw. split; [by apply try_decode_zcmp_sound|]. intros [Hwf Hor].
  destruct (try_decode_zcmp_complete i Hwf) as [Hc Hf]. destruct Hor as [-> |[Hi ->]]; [done|by apply Hf].
Qed.

(** The stack frames of decoded instructions: the stack adjustment fits its byte, is a
    multiple of 16 and leaves room for the registers of the list, with fewer than 16 bytes
    to spare beyond the up to 48 the instruction asks for. *)
Theorem frame_bounds w u adj (i : Rv64ZcmpOnlyInstruction R) :
  0 <= w < 2 ^ 16 -> try_decode_zcmp w = Some i ->
  i = CmPush u adj \/ i = CmPop u adj \/ i = CmPopretz u adj \/ i = CmPopret u adj ->
  let saved := 8 * Z.of_nat (length (reg_list_bits u)) in
  saved <= adj < saved + 16 + 48 /\ 16 <= adj <= 160 /\ adj mod 16 = 0.
Proof.
  intros Hw Hd Hi saved. destruct (try_decode_zcmp_sound w i Hw Hd) as [Hwf _].
  assert (Hf : frame_wf u adj) by (by destruct Hi as [-> |[-> |[-> | ->]]]).
  destruct Hf as [_ (spimm & Hs & ->)]. destruct (stack_adj_base_spec u) as (H1 & H2 & H3).
  split_and!; try (unfold saved; lia). rewrite Z.add_mod, H2, Z.mul_comm, Z.mod_mul by lia. done.
Qed.
End encoding.

Lemma zcmp_decode_exact_witness :
  try_decode_zcmp 0xb852 = Some (CmPush (R := Reg) UrRaS0 16) <->
  zcmp_wf (CmPush (R := Reg) UrRaS0 16) /\
  (0xb852 = encode_zcmp (CmPush (R := Reg) UrRaS0 16) \/
   is_frame (CmPush (R := Reg) UrRaS0 16) /\ 0xb852 = encode_zcmp (CmPush (R := Reg) UrRaS0 16) + 256).
Proof. apply (zcmp_decode_exact 0xb852 (CmPush (R := Reg) UrRaS0 16)). lia. Defined.

Lemma frame_bounds_witness : 16 <= 32 < 16 + 16 + 48 /\ 16 <= 32 <= 160 /\ 32 mod 16 = 0.
Proof.
  apply (frame_bounds (R := Reg) 0xb856 UrRaS0 32 (CmPush UrRaS0 32)); [lia|reflexivity|by left].
Defined.

(** A reserved halfword that is taken for an instruction. *)
Example zcmp_reserved_bit :
  try_decode_zcmp 0xb852 = Some (CmPush (R := Reg) UrRaS0 16) /\
  try_decode_zcmp 0xb952 = Some (CmPush (R := Reg) UrRaS0 16).
Proof. by vm_compute. Qed.

(** ** Stack frames *)

Section frames.
Context {R Regs Mem PC H : Type} `{RegisterLaws R} `{!ZcmpRegister R} `{!ZcmpRegisterLaws R}
  `{!RegisterFile R Regs} `{!RegisterFileLaws R Regs}
  `{!VirtualMemory Mem} `{!VirtualMemoryLaws Mem} `{!ProgramCounter PC Mem}.

Abbreviation state := (machine Regs Mem PC H).

(** Where the [k]-th register goes. *)
Definition slot (addr : Z) (k : nat) : Z := wrap 64 (addr - 8 * Z.of_nat k).

Definition in_slot (addr : Z) (k : nat) (x : Z) : Prop := slot addr k <= x < slot addr k + 8.

(** The slots of a list of values hold them. *)
Definition slots_hold (m : Mem) (addr : Z) (values : list Z) : Prop :=
  forall k v, values !! k = Some v -> bytes_at byte_at m (slot addr k) 8 = Some (to_le_bytes 8 v).

Definition slots_mapped (m : Mem) (addr : Z) (n : nat) : Prop :=
  forall k x, (k < n)%nat -> in_slot addr k x -> is_Some (byte_at m x).

Lemma slot_range addr k : 0 <= slot addr k < 2 ^ 64.
Proof. apply wrap_range. lia. Qed.

Lemma slot_0 addr : 0 <= addr < 2 ^ 64 -> slot addr 0 = addr.
Proof. intros Ha. unfold slot. rewrite Z.mul_0_r, Z.sub_0_r. by apply wrap_small. Qed.

Lemma slot_S addr k : slot (wrap 64 (addr - 8)) k = slot addr (S k).
Proof.
  unfold slot, wrap. rewrite Zminus_mod_idemp_l. f_equal. lia.
Qed.

(** Slots do not overlap. *)
Lemma slot_disjoint addr k x :
  0 <= addr < 2 ^ 64 -> (0 < k < 100)%nat -> in_slot addr k x -> ~ (addr <= x < addr + 8).
Proof.
  intros Ha Hk. unfold in_slot, slot, wrap. change (2 ^ 64) with 18446744073709551616 in *.
  intros Hx. Z.to_euclidean_division_equations. lia.
Qed.

(** All registers of a list exist. *)
Definition listed (bs : list Z) : Prop := Forall (fun b => is_Some (from_bits (R := R) b)) bs.

Definition values_of (regs : Regs) (bs : list Z) : list Z :=
  map (fun b => match from_bits (R := R) b with Some r => reg_value regs r | None => 0 end) bs.

Lemma bytes_at_ext m m' a n :
  (forall x, a <= x < a + Z.of_nat n -> byte_at m' x = byte_at m x) ->
  bytes_at byte_at m' a n = bytes_at byte_at m a n.
Proof.
  intros Heq. unfold bytes_at. apply mapM_ext_in. intros x Hx. apply elem_of_seqZ in Hx. apply Heq. lia.
Qed.

Lemma bytes_at_mapped m a n :
  (forall x, a <= x < a + Z.of_nat n -> is_Some (byte_at m x)) -> is_Some (bytes_at byte_at m a n).
Proof.
  intros Hx. apply mapM_is_Some_2, Forall_forall. intros x Hin%elem_of_seqZ. cbn. apply Hx. lia.
Qed.

Lemma push_loop_spec regs m bs addr :
  regs_ok regs -> mem_ok m -> listed bs -> 0 <= addr < 2 ^ 64 -> (length bs < 100)%nat ->
  exists m' r, push_loop (R := R) regs m bs addr = Ret (m', r) /\ mem_ok m' /\
    (forall x, is_Some (byte_at m' x) <-> is_Some (byte_at m x)) /\
    (slots_mapped m addr (length bs) ->
     r = Ok tt /\ slots_hold m' addr (values_of regs bs) /\
     forall x, (forall k, (k < length bs)%nat -> ~ in_slot addr k x) -> byte_at m' x = byte_at m x).
Proof.
  intros Hregs Hm Hbs Ha Hlen. revert m addr Hm Ha. induction Hbs as [|b bs [r Hr] _ IH]; intros m addr Hm Ha.
  { exists m, (Ok tt). by split_and!. }
  cbn [push_loop length] in *. unfold listed_register. rewrite Hr. cbn [obind].
  rewrite reg_read_spec by done. cbn [obind].
  pose proof (mem_write_spec 8 m addr (reg_value regs r) Hm ltac:(lia) Ha) as Hw.
  destruct (bytes_at byte_at m addr 8) as [old|] eqn:Hold.
  2:{ rewrite Hw. exists m, (Err (OutOfBoundsWrite addr)). split_and!; try done. intros Hmap. exfalso.
      destruct (bytes_at_mapped m addr 8) as [x Hx]; [|congruence].
      intros x Hx. apply (Hmap 0%nat); [lia|]. unfold in_slot. by rewrite slot_0. }
  destruct Hw as (m1 & Hw & Hm1 & Hb1). rewrite Hw. cbn [obind].
  assert (Hdom : forall x, is_Some (byte_at m1 x) <-> is_Some (byte_at m x)).
  { intros x. rewrite Hb1. case_decide as Hx; [|done]. split; [|by eexists]. intros _.
    replace x with (addr + (x - addr)) by lia. eapply bytes_at_defined; [by eexists|lia]. }
  destruct (IH ltac:(lia) m1 (wrap 64 (addr - 8)) Hm1 ltac:(apply wrap_range; lia))
    as (m' & r' & Hl & Hm' & Hd' & Hok).
  exists m', r'. split_and!; [done|done|intros x; by rewrite Hd', Hdom|]. intros Hmap.
  destruct Hok as (-> & Hh & Hout).
  { intros k x Hk Hx. apply Hdom, (Hmap (S k)); [lia|]. unfold in_slot in *. by rewrite slot_S in Hx. }
  split_and!; [done| |].
  - intros [|k] v Hk; cbn in Hk.
    + rewrite slot_0 by done. rewrite Hr in Hk. injection Hk as <-.
      rewrite (bytes_at_ext m1); [by apply (bytes_at_written byte_at m m1)|].
      intros x Hx. apply Hout. intros k Hk Hin. unfold in_slot in Hin. rewrite slot_S in Hin.
      by apply (slot_disjoint addr (S k) x Ha ltac:(lia) Hin).
    + rewrite <- slot_S. by apply Hh.
  - intros x Hx. rewrite Hout, Hb1, decide_False; [done| |].
    + specialize (Hx 0%nat ltac:(lia)). unfold in_slot in Hx. rewrite slot_0 in Hx by done. done.
    + intros k Hk Hin. apply (Hx (S k) ltac:(lia)). unfold in_slot in *. by rewrite slot_S in Hin.
Qed.

Lemma pop_loop_spec regs m bs addr :
  regs_ok regs -> mem_ok m -> listed bs -> 0 <= addr < 2 ^ 64 ->
  exists regs' r, pop_loop (R := R) regs m bs addr = Ret (regs', r) /\ regs_ok regs' /\
    (forall values, length values = length bs -> slots_hold m addr values ->
     Forall (fun v => 0 <= v < 2 ^ 64) values -> NoDup bs -> 0 ∉ bs ->
     r = Ok tt /\
     (forall r : R, offset r ∉ bs -> reg_value regs' r = reg_value regs r) /\
     (forall k (r : R), bs !! k = Some (offset r) -> values !! k = Some (reg_value regs' r))).
Proof.
  intros Hregs Hm Hbs. revert regs addr Hregs.
  induction Hbs as [|b bs [r Hr] _ IH]; intros regs addr Hregs Ha.
  { exists regs, (Ok tt). by split_and!. }
  cbn [pop_loop]. unfold listed_register. rewrite Hr. cbn [obind].
  rewrite mem_read_spec by (done || lia). cbn [obind].
  destruct (bytes_at byte_at m addr 8) as [bytes|] eqn:Hb.
  2:{ exists regs, (Err (OutOfBoundsRead addr)). split_and!; [done..|]. intros [|v values] Hl Hh; [done|].
      specialize (Hh 0%nat v eq_refl). rewrite slot_0 in Hh by done. congruence. }
  destruct (bytes_at_bytes m addr 8 bytes Hm Hb) as [Hall Hl8].
  pose proof (from_le_bytes_range bytes Hall) as Hv. rewrite Hl8 in Hv.
  destruct (reg_write_spec regs r (from_le_bytes bytes) Hregs Hv) as (regs1 & Hw & Hok1 & Hval1).
  rewrite Hw. cbn [obind].
  destruct (IH regs1 (wrap 64 (addr - 8)) Hok1 ltac:(apply wrap_range; lia)) as (regs' & r' & Hp & Hok' & Hrest).
  exists regs', r'. split_and!; [done..|].
  intros [|v values] Hl Hh Hvs Hnd Hz; [done|]. apply from_bits_Some in Hr as ->.
  apply NoDup_cons in Hnd as [Hnin Hnd]. apply not_elem_of_cons in Hz as [Hne Hz].
  inversion_clear Hvs as [|? ? Hv0 Hvs']. cbn [length] in Hl.
  assert (Hr0 : r <> ZERO) by (intros ->; by rewrite offset_ZERO in Hne).
  destruct (Hrest values) as (-> & Hkeep & Hset); [lia| |done..|].
  { intros k x Hk. rewrite slot_S. by apply Hh. }
  split_and!; [done| |].
  - intros x [Hx Hx']%not_elem_of_cons. rewrite Hkeep, Hval1 by done.
    destruct (decide (x = ZERO)) as [->|]; [by rewrite reg_value_zero|].
    by rewrite decide_False by congruence.
  - intros [|k] x Hk; cbn in Hk; [|by apply Hset]. injection Hk as Hx. apply offset_inj in Hx as <-.
    rewrite Hkeep, Hval1, decide_False, decide_True by done. cbn. f_equal.
    specialize (Hh 0%nat v eq_refl). rewrite slot_0, Hb in Hh by done.
    assert (bytes = to_le_bytes 8 v) as -> by congruence. rewrite from_to_le_bytes. symmetry. by apply wrap_small.
Qed.

(** What a saved register list is made of. *)
Lemma reg_list_ok u :
  urlist_wf (R := R) u ->
  listed (reg_list_bits u) /\ NoDup (reg_list_bits u) /\ (0 ∉ reg_list_bits u) /\ (2 ∉ reg_list_bits u) /\
  reg_list_bits u !! 0%nat = Some 1 /\ (length (reg_list_bits u) < 100)%nat.
Proof.
  intros Hu. split_and!.
  - assert (Hb : Forall (fun b => b ∈ [1; 8; 9] \/ 18 <= b <= 27 /\ 6 < as_u8 u) (reg_list_bits u)).
    { destruct u; cbn [reg_list_bits as_u8];
        repeat first [apply Forall_nil_2|apply Forall_cons_2; [first [right; lia|left; rewrite !elem_of_cons; tauto]|]]. }
    eapply Forall_impl; [exact Hb|]. intros b [Hin|[Hin Hu6]]; [by apply zcmp_from_bits|].
    apply zcmp_from_bits_saved; [|done]. unfold urlist_wf in Hu. destruct RVE; [|done].
    specialize (Hu eq_refl). lia.
  - apply (bool_decide_unpack _). by destruct u.
  - apply (bool_decide_unpack _). by destruct u.
  - apply (bool_decide_unpack _). by destruct u.
  - by destruct u.
  - destruct u; cbn; lia.
Qed.

Definition sp_of (s : state) : Z := reg_value (m_regs s) SP.

(** The addresses below the stack pointer where the registers of the list are kept. *)
Definition frame_address (s : state) (u : ZcmpUrlist) (x : Z) : Prop :=
  exists k, (k < length (reg_list_bits u))%nat /\ in_slot (wrap 64 (sp_of s - 8)) k x.

(** Two states with the registers of the list as in the first, and the others as in the
    second. *)
Definition restored (u : ZcmpUrlist) (regs regs' : Regs) (r : R) : Z :=
  if decide (r = SP \/ offset r ∈ reg_list_bits u) then reg_value regs r else reg_value regs' r.

Lemma values_of_lookup regs bs k (r : R) :
  bs !! k = Some (offset r) -> values_of regs bs !! k = Some (reg_value regs r).
Proof. intros Hk. unfold values_of. rewrite list_lookup_fmap, Hk. cbn. by rewrite from_bits_offset. Qed.

Lemma values_of_range regs bs : regs_ok regs -> Forall (fun v => 0 <= v < 2 ^ 64) (values_of regs bs).
Proof.
  intros Hok. apply Forall_fmap, Forall_true. intros b. cbn. destruct (from_bits b) as [r|]; [|lia].
  by apply reg_value_range.
Qed.

Lemma do_push_spec (s : state) u adj :
  regs_ok (m_regs s) -> mem_ok (m_memory s) -> urlist_wf (R := R) u ->
  (forall x, frame_address s u x -> is_Some (byte_at (m_memory s) x)) ->
  exists m, do_push s u adj = Ret (with_memory s m, Ok (Continue (SP, wrap 64 (sp_of s - adj)))) /\
    mem_ok m /\
    slots_hold m (wrap 64 (sp_of s - 8)) (values_of (m_regs s) (reg_list_bits u)) /\
    (forall x, ~ frame_address s u x -> byte_at m x = byte_at (m_memory s) x).
Proof.
  intros Hregs Hm Hu Hmap. destruct (reg_list_ok u Hu) as (Hl & _ & _ & _ & _ & Hlen).
  unfold do_push. rewrite reg_read_spec by done. cbn [obind]. fold (sp_of s).
  destruct (push_loop_spec (m_regs s) (m_memory s) (reg_list_bits u) (wrap 64 (sp_of s - 8)))
    as (m & r & Hp & Hm' & _ & Hok); [done..|apply wrap_range; lia|done|].
  destruct Hok as (-> & Hh & Hout).
  { intros k x Hk Hx. apply Hmap. by exists k. }
  rewrite Hp. cbn [obind]. exists m. split_and!; try done. intros x Hx. apply Hout. intros k Hk Hin.
  apply Hx. by exists k.
Qed.

Lemma do_pop_spec (s : state) u adj sp regs0 :
  regs_ok (m_regs s) -> mem_ok (m_memory s) -> urlist_wf (R := R) u -> regs_ok regs0 ->
  0 <= sp < 2 ^ 64 -> sp = reg_value regs0 SP -> sp_of s = wrap 64 (sp - adj) ->
  slots_hold (m_memory s) (wrap 64 (sp - 8)) (values_of regs0 (reg_list_bits u)) ->
  exists regs, do_pop s u adj = Ret (with_regs s regs, Ok (reg_value regs0 RA)) /\ regs_ok regs /\
    forall r, reg_value regs r = restored u regs0 (m_regs s) r.
Proof.
  intros Hregs Hm Hu Hok0 Hsp Hsp0 Hs Hh.
  destruct (reg_list_ok u Hu) as (Hl & Hnd & Hz & _ & Hra & _).
  unfold do_pop. rewrite reg_read_spec by done. cbn [obind]. fold (sp_of s). rewrite Hs.
  replace (wrap 64 (wrap 64 (sp - adj) + adj)) with sp.
  2:{ unfold wrap. rewrite Z.add_mod_idemp_l by lia. replace (sp - adj + adj) with sp by lia. by rewrite Z.mod_small. }
  destruct (pop_loop_spec (m_regs s) (m_memory s) (reg_list_bits u) (wrap 64 (sp - 8)))
    as (regs & r & Hp & Hok & Hrest); [done..|apply wrap_range; lia|].
  destruct (Hrest (values_of regs0 (reg_list_bits u))) as (-> & Hkeep & Hset);
    [by unfold values_of; rewrite length_map|done|by apply values_of_range|done|done|].
  rewrite Hp. cbn [obind]. destruct (reg_write_spec regs SP sp Hok Hsp) as (regs' & Hw & Hok' & Hval).
  assert (Hsp_ra : SP <> RA :> R).
  { intros He. pose proof (offset_SP (R := R)). rewrite He, offset_RA in *. lia. }
  assert (Hall : forall r, reg_value regs' r = restored u regs0 (m_regs s) r).
  { intros r. rewrite Hval. unfold restored. destruct (decide (r = ZERO)) as [->|Hr0].
    { rewrite !reg_value_zero. by case_decide. }
    destruct (decide (r = SP)) as [->|Hrsp]; [by rewrite decide_True by (by left)|].
    case_decide as Hin.
    - destruct Hin as [|Hin]; [done|]. apply list_elem_of_lookup in Hin as [k Hk].
      specialize (Hset k r Hk). rewrite (values_of_lookup _ _ _ r Hk) in Hset. by injection Hset.
    - apply Hkeep. tauto. }
  assert (Hsaved : reg_value regs' RA = reg_value regs0 RA).
  { rewrite Hall. unfold restored. rewrite decide_True; [done|]. right. rewrite offset_RA.
    by eapply list_elem_of_lookup_2. }
  rewrite Hw. cbn [obind]. rewrite reg_read_spec, Hsaved by done. by exists regs'.
Qed.

(** C33. Where the slots below the stack pointer are mapped, CM.PUSH succeeds, writes only these
    slots and lowers the stack pointer; from any later state with that stack pointer and these
    slots unchanged, CM.POP and CM.POPRET with the same list leave the memory alone, restore the
    registers of the list and the stack pointer and no other register changes; CM.POPRET jumps
    to the return address of that time. *)
Theorem frame_restored (s : state) u adj a b :
  regs_ok (m_regs s) -> mem_ok (m_memory s) -> urlist_wf (R := R) u ->
  (forall x, frame_address s u x -> is_Some (byte_at (m_memory s) x)) ->
  exists m,
    execute_zcmp (CmPush u adj) a b s =
      Ret (with_memory s m, Ok (Continue (SP, wrap 64 (sp_of s - adj)))) /\
    mem_ok m /\ (forall x, ~ frame_address s u x -> byte_at m x = byte_at (m_memory s) x) /\
    forall (s' : state) c d,
      regs_ok (m_regs s') -> mem_ok (m_memory s') -> sp_of s' = wrap 64 (sp_of s - adj) ->
      (forall x, frame_address s u x -> byte_at (m_memory s') x = byte_at m x) ->
      exists regs,
        execute_zcmp (CmPop u adj) c d s' = Ret (with_regs s' regs, continue_default) /\
        execute_zcmp (CmPopret u adj) c d s' =
          jump_to (with_regs s' regs) (clear_lowest (reg_value (m_regs s) RA)) /\
        regs_ok regs /\ forall r, reg_value regs r = restored u (m_regs s) (m_regs s') r.
Proof.
  intros Hregs Hm Hu Hmap. destruct (do_push_spec s u adj Hregs Hm Hu Hmap) as (m & Hp & Hm' & Hh & Hout).
  exists m. split_and!; [done..|]. intros s' c d Hregs' Hmem' Hsp' Hsame.
  destruct (do_pop_spec s' u adj (sp_of s) (m_regs s)) as (regs & Hpop & Hok & Hval); try done.
  - by apply reg_value_range.
  - intros k v Hk. rewrite (bytes_at_ext m); [by apply Hh|]. intros x Hx. apply Hsame. exists k. split; [|done].
    apply lookup_lt_Some in Hk. unfold values_of in Hk. by rewrite length_map in Hk.
  - exists regs. cbn [execute_zcmp]. rewrite Hpop. cbn [obind]. by split_and!.
Qed.
End frames.

Definition sample_frame_state : machine BasicRegisters (BasicMemory 0x1000)
    (BasicInstructionFetcher (Rv64Instruction Reg)) IllegalEcallHandler :=
  with_regs sample_state
    (<[1%nat := 0x1004]> (<[2%nat := 0x1040]> (<[8%nat := 77]> (basic_registers_default (R := Reg))))).

(** Push, a function body that changes [s0], and pop. *)
Lemma frame_restored_witness :
  exists m,
    execute_zcmp (R := Reg) (CmPush UrRaS0 16) 0 0 sample_frame_state =
      Ret (with_memory sample_frame_state m, Ok (Continue (Sp, 0x1030))) /\
    exists regs,
      execute_zcmp (R := Reg) (CmPop UrRaS0 16) 0 0
        (with_regs (with_memory sample_frame_state m)
           (<[2%nat := 0x1030]> (<[8%nat := 5]> (m_regs sample_frame_state)))) =
        Ret (with_regs (with_memory sample_frame_state m) regs, continue_default) /\
      reg_value (R := Reg) regs S0 = 77.
Proof.
  assert (Hok : basic_ok (R := Reg) (m_regs sample_frame_state)).
  { split; [done|]. by repeat constructor. }
  destruct (frame_restored (R := Reg) sample_frame_state UrRaS0 16 0 0) as (m & Hp & Hm & _ & Hpop);
    [exact Hok|apply (ok_mem (R := Reg) sample_state sample_state_ok)|done| |].
  - intros x (k & Hk & Hx). cbn. unfold basic_byte_at. cbn in Hk.
    assert (Hr : 0x1030 <= x < 0x1040).
    { destruct k as [|[|k]]; [| |lia]; unfold in_slot in Hx; vm_compute slot in Hx; lia. }
    rewrite decide_True by lia. apply lookup_lt_is_Some. vm_compute length. lia.
  - exists m. split; [exact Hp|].
    destruct (Hpop (with_regs (with_memory sample_frame_state m)
      (<[2%nat := 0x1030]> (<[8%nat := 5]> (m_regs sample_frame_state)))) 0 0) as (regs & H1 & _ & _ & H4);
      [|exact Hm|done|done|].
    + split; [done|]. by repeat constructor.
    + exists regs. split; [exact H1|]. by rewrite H4.
Defined.

End RvZcmp.
