(* ===== verification/Rv64Zkn.v ===== *)
(** * Cryptography instructions: Zkn

    Model of [instructions/rv64/zk/zbkb.rs], [zbkx.rs] and [zkn/zknd.rs], [zkne.rs], [zknh.rs]
    of [crates/execution/ab-riscv-primitives] and of the files of the same names in
    [crates/execution/ab-riscv-interpreter] with their helpers: packing and permutation of
    bytes, the rounds and the key schedule of AES and the functions of SHA-2.  Of the helpers
    the portable implementations are modelled; the others use instructions of the machine
    they run on.

    The theorems: the S-boxes are those of the AES standard, a round of decryption undoes a
    round of encryption, and the bit instructions move the bits they should. *)

From S2P Require Import Prelude RvInt RvRegisters RvMemory Rv64Decode Rv64Encoding Rv64Exec Rv64Bits.
From stdpp Require Import prelude.
From Stdlib Require Import ZArith Lia.
Local Open Scope Z_scope.

Module Rv64Zkn.
Import RvInt RvRegisters RvMemory Rv64 Rv64Encoding Rv64Exec Rv64Bits.

(** ** AES *)

Definition SBOX : list Z :=
  [
   0x63; 0x7c; 0x77; 0x7b; 0xf2; 0x6b; 0x6f; 0xc5; 0x30; 0x01; 0x67; 0x2b; 0xfe; 0xd7; 0xab; 0x76;
   0xca; 0x82; 0xc9; 0x7d; 0xfa; 0x59; 0x47; 0xf0; 0xad; 0xd4; 0xa2; 0xaf; 0x9c; 0xa4; 0x72; 0xc0;
   0xb7; 0xfd; 0x93; 0x26; 0x36; 0x3f; 0xf7; 0xcc; 0x34; 0xa5; 0xe5; 0xf1; 0x71; 0xd8; 0x31; 0x15;
   0x04; 0xc7; 0x23; 0xc3; 0x18; 0x96; 0x05; 0x9a; 0x07; 0x12; 0x80; 0xe2; 0xeb; 0x27; 0xb2; 0x75;
   0x09; 0x83; 0x2c; 0x1a; 0x1b; 0x6e; 0x5a; 0xa0; 0x52; 0x3b; 0xd6; 0xb3; 0x29; 0xe3; 0x2f; 0x84;
   0x53; 0xd1; 0x00; 0xed; 0x20; 0xfc; 0xb1; 0x5b; 0x6a; 0xcb; 0xbe; 0x39; 0x4a; 0x4c; 0x58; 0xcf;
   0xd0; 0xef; 0xaa; 0xfb; 0x43; 0x4d; 0x33; 0x85; 0x45; 0xf9; 0x02; 0x7f; 0x50; 0x3c; 0x9f; 0xa8;
   0x51; 0xa3; 0x40; 0x8f; 0x92; 0x9d; 0x38; 0xf5; 0xbc; 0xb6; 0xda; 0x21; 0x10; 0xff; 0xf3; 0xd2;
   0xcd; 0x0c; 0x13; 0xec; 0x5f; 0x97; 0x44; 0x17; 0xc4; 0xa7; 0x7e; 0x3d; 0x64; 0x5d; 0x19; 0x73;
   0x60; 0x81; 0x4f; 0xdc; 0x22; 0x2a; 0x90; 0x88; 0x46; 0xee; 0xb8; 0x14; 0xde; 0x5e; 0x0b; 0xdb;
   0xe0; 0x32; 0x3a; 0x0a; 0x49; 0x06; 0x24; 0x5c; 0xc2; 0xd3; 0xac; 0x62; 0x91; 0x95; 0xe4; 0x79;
   0xe7; 0xc8; 0x37; 0x6d; 0x8d; 0xd5; 0x4e; 0xa9; 0x6c; 0x56; 0xf4; 0xea; 0x65; 0x7a; 0xae; 0x08;
   0xba; 0x78; 0x25; 0x2e; 0x1c; 0xa6; 0xb4; 0xc6; 0xe8; 0xdd; 0x74; 0x1f; 0x4b; 0xbd; 0x8b; 0x8a;
   0x70; 0x3e; 0xb5; 0x66; 0x48; 0x03; 0xf6; 0x0e; 0x61; 0x35; 0x57; 0xb9; 0x86; 0xc1; 0x1d; 0x9e;
   0xe1; 0xf8; 0x98; 0x11; 0x69; 0xd9; 0x8e; 0x94; 0x9b; 0x1e; 0x87; 0xe9; 0xce; 0x55; 0x28; 0xdf;
   0x8c; 0xa1; 0x89; 0x0d; 0xbf; 0xe6; 0x42; 0x68; 0x41; 0x99; 0x2d; 0x0f; 0xb0; 0x54; 0xbb; 0x16].

Definition INV_SBOX : list Z :=
  [
   0x52; 0x09; 0x6a; 0xd5; 0x30; 0x36; 0xa5; 0x38; 0xbf; 0x40; 0xa3; 0x9e; 0x81; 0xf3; 0xd7; 0xfb;
   0x7c; 0xe3; 0x39; 0x82; 0x9b; 0x2f; 0xff; 0x87; 0x34; 0x8e; 0x43; 0x44; 0xc4; 0xde; 0xe9; 0xcb;
   0x54; 0x7b; 0x94; 0x32; 0xa6; 0xc2; 0x23; 0x3d; 0xee; 0x4c; 0x95; 0x0b; 0x42; 0xfa; 0xc3; 0x4e;
   0x08; 0x2e; 0xa1; 0x66; 0x28; 0xd9; 0x24; 0xb2; 0x76; 0x5b; 0xa2; 0x49; 0x6d; 0x8b; 0xd1; 0x25;
   0x72; 0xf8; 0xf6; 0x64; 0x86; 0x68; 0x98; 0x16; 0xd4; 0xa4; 0x5c; 0xcc; 0x5d; 0x65; 0xb6; 0x92;
   0x6c; 0x70; 0x48; 0x50; 0xfd; 0xed; 0xb9; 0xda; 0x5e; 0x15; 0x46; 0x57; 0xa7; 0x8d; 0x9d; 0x84;
   0x90; 0xd8; 0xab; 0x00; 0x8c; 0xbc; 0xd3; 0x0a; 0xf7; 0xe4; 0x58; 0x05; 0xb8; 0xb3; 0x45; 0x06;
   0xd0; 0x2c; 0x1e; 0x8f; 0xca; 0x3f; 0x0f; 0x02; 0xc1; 0xaf; 0xbd; 0x03; 0x01; 0x13; 0x8a; 0x6b;
   0x3a; 0x91; 0x11; 0x41; 0x4f; 0x67; 0xdc; 0xea; 0x97; 0xf2; 0xcf; 0xce; 0xf0; 0xb4; 0xe6; 0x73;
   0x96; 0xac; 0x74; 0x22; 0xe7; 0xad; 0x35; 0x85; 0xe2; 0xf9; 0x37; 0xe8; 0x1c; 0x75; 0xdf; 0x6e;
   0x47; 0xf1; 0x1a; 0x71; 0x1d; 0x29; 0xc5; 0x89; 0x6f; 0xb7; 0x62; 0x0e; 0xaa; 0x18; 0xbe; 0x1b;
   0xfc; 0x56; 0x3e; 0x4b; 0xc6; 0xd2; 0x79; 0x20; 0x9a; 0xdb; 0xc0; 0xfe; 0x78; 0xcd; 0x5a; 0xf4;
   0x1f; 0xdd; 0xa8; 0x33; 0x88; 0x07; 0xc7; 0x31; 0xb1; 0x12; 0x10; 0x59; 0x27; 0x80; 0xec; 0x5f;
   0x60; 0x51; 0x7f; 0xa9; 0x19; 0xb5; 0x4a; 0x0d; 0x2d; 0xe5; 0x7a; 0x9f; 0x93; 0xc9; 0x9c; 0xef;
   0xa0; 0xe0; 0x3b; 0x4d; 0xae; 0x2a; 0xf5; 0xb0; 0xc8; 0xeb; 0xbb; 0x3c; 0x83; 0x53; 0x99; 0x61;
   0x17; 0x2b; 0x04; 0x7e; 0xba; 0x77; 0xd6; 0x26; 0xe1; 0x69; 0x14; 0x63; 0x55; 0x21; 0x0c; 0x7d].

(** Indexing with a byte does not leave the table. *)
Definition table (t : list Z) (x : Z) : Z := nth (Z.to_nat x) t 0.

(** One turn of the loop of [gmul], which multiplies in the field of AES. *)
Definition gmul_step (apb : Z * Z * Z) : Z * Z * Z :=
  let '(a, b, p) := apb in
  let p := if Z.land b 1 =? 0 then p else Z.lxor p a in
  let carry := Z.shiftr a 7 in
  let a := wrap 8 (Z.shiftl a 1) in
  let a := if carry =? 0 then a else Z.lxor a 0x1b in
  (a, Z.shiftr b 1, p).

Definition gmul (a b : Z) : Z := (Nat.iter 8 gmul_step (a, b, 0)).2.

(** [u32::from(r0) | u32::from(r1) << 8 | u32::from(r2) << 16 | u32::from(r3) << 24] *)
Definition join4 (r0 r1 r2 r3 : Z) : Z :=
  Z.lor (Z.lor (Z.lor r0 (wrap 32 (Z.shiftl r1 8))) (wrap 32 (Z.shiftl r2 16))) (wrap 32 (Z.shiftl r3 24)).

Definition inv_mix_col (col : Z) : Z :=
  let s0 := wrap 8 col in
  let s1 := wrap 8 (Z.shiftr col 8) in
  let s2 := wrap 8 (Z.shiftr col 16) in
  let s3 := wrap 8 (Z.shiftr col 24) in
  let r0 := Z.lxor (Z.lxor (Z.lxor (gmul s0 0x0e) (gmul s1 0x0b)) (gmul s2 0x0d)) (gmul s3 0x09) in
  let r1 := Z.lxor (Z.lxor (Z.lxor (gmul s0 0x09) (gmul s1 0x0e)) (gmul s2 0x0b)) (gmul s3 0x0d) in
  let r2 := Z.lxor (Z.lxor (Z.lxor (gmul s0 0x0d) (gmul s1 0x09)) (gmul s2 0x0e)) (gmul s3 0x0b) in
  let r3 := Z.lxor (Z.lxor (Z.lxor (gmul s0 0x0b) (gmul s1 0x0d)) (gmul s2 0x09)) (gmul s3 0x0e) in
  join4 r0 r1 r2 r3.

Definition mix_col (col : Z) : Z :=
  let s0 := wrap 8 col in
  let s1 := wrap 8 (Z.shiftr col 8) in
  let s2 := wrap 8 (Z.shiftr col 16) in
  let s3 := wrap 8 (Z.shiftr col 24) in
  let r0 := Z.lxor (Z.lxor (Z.lxor (gmul s0 0x02) (gmul s1 0x03)) s2) s3 in
  let r1 := Z.lxor (Z.lxor (Z.lxor s0 (gmul s1 0x02)) (gmul s2 0x03)) s3 in
  let r2 := Z.lxor (Z.lxor (Z.lxor s0 s1) (gmul s2 0x02)) (gmul s3 0x03) in
  let r3 := Z.lxor (Z.lxor (Z.lxor (gmul s0 0x03) s1) s2) (gmul s3 0x02) in
  join4 r0 r1 r2 r3.

(** The closure [state_byte] *)
Definition state_byte (rs1 rs2 col row : Z) : Z :=
  let word := if col <? 2 then rs1 else rs2 in
  wrap 8 (Z.shiftr word ((col mod 2) * 32 + row * 8)).

(** The two loops over the columns and rows of the output, with the byte put at each place. *)
Definition half_state (byte : Z -> Z -> Z) : Z :=
  fold_left (fun out c =>
    fold_left (fun out r => Z.lor out (wrap 64 (Z.shiftl (byte c r) (c * 32 + r * 8)))) [0; 1; 2; 3] out)
    [0; 1] 0.

Definition aes64ds (rs1 rs2 : Z) : Z :=
  half_state (fun c r => table INV_SBOX (state_byte rs1 rs2 (Z.land (c + 4 - r) 3) r)).

Definition aes64es (rs1 rs2 : Z) : Z :=
  half_state (fun c r => table SBOX (state_byte rs1 rs2 (Z.land (c + r) 3) r)).

(** Both columns of a half of the state. *)
Definition both_columns (f : Z -> Z) (x : Z) : Z :=
  Z.lor (f (wrap 32 x)) (wrap 64 (Z.shiftl (f (wrap 32 (Z.shiftr x 32))) 32)).

Definition aes64dsm (rs1 rs2 : Z) : Z := both_columns inv_mix_col (aes64ds rs1 rs2).
Definition aes64esm (rs1 rs2 : Z) : Z := both_columns mix_col (aes64es rs1 rs2).
Definition aes64im (rs1 : Z) : Z := both_columns inv_mix_col rs1.

(** [Rv64ZkndKsRnum], a number up to 10, the last of which is [Final] *)
Definition RCON : list Z := [0x01; 0x02; 0x04; 0x08; 0x10; 0x20; 0x40; 0x80; 0x1b; 0x36].
Definition rnum_from_bits (bits : Z) : option Z := if bits <=? 0xa then Some bits else None.
Definition rnum_constant (rnum : Z) : option Z :=
  if rnum =? 0xa then None else Some (table RCON rnum).

Definition aes64ks1i (rs1 rnum : Z) : Z :=
  let w := wrap 32 (Z.shiftr rs1 32) in
  let rotated := if rnum =? 0xa then w else rotate_right 32 w 8 in
  let b0 := table SBOX (Z.land rotated 0xff) in
  let b1 := table SBOX (Z.land (Z.shiftr rotated 8) 0xff) in
  let b2 := table SBOX (Z.land (Z.shiftr rotated 16) 0xff) in
  let b3 := table SBOX (Z.land (Z.shiftr rotated 24) 0xff) in
  let subbed := join4 b0 b1 b2 b3 in
  let result := match rnum_constant rnum with Some c => Z.lxor subbed c | None => subbed end in
  Z.lor result (wrap 64 (Z.shiftl result 32)).

Definition aes64ks2 (rs1 rs2 : Z) : Z :=
  let w0 := Z.lxor (wrap 32 (Z.shiftr rs1 32)) (wrap 32 rs2) in
  let w1 := Z.lxor w0 (wrap 32 (Z.shiftr rs2 32)) in
  Z.lor w0 (wrap 64 (Z.shiftl w1 32)).

(** ** SHA-2 *)

Definition sha256sig0 (x : Z) : Z := Z.lxor (Z.lxor (rotate_right 32 x 7) (rotate_right 32 x 18)) (Z.shiftr x 3).
Definition sha256sig1 (x : Z) : Z := Z.lxor (Z.lxor (rotate_right 32 x 17) (rotate_right 32 x 19)) (Z.shiftr x 10).
Definition sha256sum0 (x : Z) : Z :=
  Z.lxor (Z.lxor (rotate_right 32 x 2) (rotate_right 32 x 13)) (rotate_right 32 x 22).
Definition sha256sum1 (x : Z) : Z :=
  Z.lxor (Z.lxor (rotate_right 32 x 6) (rotate_right 32 x 11)) (rotate_right 32 x 25).
Definition sha512sig0 (x : Z) : Z := Z.lxor (Z.lxor (rotate_right 64 x 1) (rotate_right 64 x 8)) (Z.shiftr x 7).
Definition sha512sig1 (x : Z) : Z := Z.lxor (Z.lxor (rotate_right 64 x 19) (rotate_right 64 x 61)) (Z.shiftr x 6).
Definition sha512sum0 (x : Z) : Z :=
  Z.lxor (Z.lxor (rotate_right 64 x 28) (rotate_right 64 x 34)) (rotate_right 64 x 39).
Definition sha512sum1 (x : Z) : Z :=
  Z.lxor (Z.lxor (rotate_right 64 x 14) (rotate_right 64 x 18)) (rotate_right 64 x 41).

(** ** Permutations *)

(** The lanes of a vector of sixteen nibbles. *)
Definition nibbles_of (x : Z) : list Z :=
  (fun shift => Z.land (Z.shiftr x shift) 0xf) <$>
  [0; 4; 8; 12; 16; 20; 24; 28; 32; 36; 40; 44; 48; 52; 56; 60].

(** [swizzle_dyn]: zero for an index outside of the vector. *)
Definition swizzle_dyn (lut idx : list Z) : list Z := table lut <$> idx.

(** [simd_swizzle!] *)
Definition simd_swizzle (v : list Z) (idx : list nat) : list Z := (fun i => nth i v 0) <$> idx.

Definition xperm4 (rs1 rs2 : Z) : Z :=
  let nibbles := swizzle_dyn (nibbles_of rs1) (nibbles_of rs2) in
  let lo := simd_swizzle nibbles [0; 2; 4; 6; 8; 10; 12; 14]%nat in
  let hi := simd_swizzle nibbles [1; 3; 5; 7; 9; 11; 13; 15]%nat in
  from_le_bytes (zip_with (fun l h => Z.lor l (wrap 8 (Z.shiftl h 4))) lo hi).

Definition xperm8 (rs1 rs2 : Z) : Z :=
  from_le_bytes (swizzle_dyn (to_le_bytes 8 rs1) (to_le_bytes 8 rs2)).

(** [reverse_bits] of a byte *)
Definition reverse_byte (x : Z) : Z :=
  fold_left (fun r k => Z.lor r (Z.shiftl (Z.land (Z.shiftr x k) 1) (7 - k))) [0; 1; 2; 3; 4; 5; 6; 7] 0.

Definition brev8 (src : Z) : Z := from_le_bytes (reverse_byte <$> to_le_bytes 8 src).

(** ** Instructions *)

(** [Rv64ZbkbInstruction] without the variants it shares with [Rv64ZbbInstruction] *)
Inductive Rv64ZbkbInstruction (R : Type) : Type :=
| Pack (rd rs1 rs2 : R)
| Packh (rd rs1 rs2 : R)
| Packw (rd rs1 rs2 : R)
| Brev8 (rd rs1 : R).
#[global] Arguments Pack {R}.
#[global] Arguments Packh {R}.
#[global] Arguments Packw {R}.
#[global] Arguments Brev8 {R}.

Inductive Rv64ZbkxInstruction (R : Type) : Type :=
| Xperm4 (rd rs1 rs2 : R)
| Xperm8 (rd rs1 rs2 : R).
#[global] Arguments Xperm4 {R}.
#[global] Arguments Xperm8 {R}.

Inductive Rv64ZkndInstruction (R : Type) : Type :=
| Aes64Ds (rd rs1 rs2 : R)
| Aes64Dsm (rd rs1 rs2 : R)
| Aes64Im (rd rs1 : R)
| Aes64Ks1i (rd rs1 : R) (rnum : Z)
| Aes64Ks2 (rd rs1 rs2 : R).
#[global] Arguments Aes64Ds {R}.
#[global] Arguments Aes64Dsm {R}.
#[global] Arguments Aes64Im {R}.
#[global] Arguments Aes64Ks1i {R}.
#[global] Arguments Aes64Ks2 {R}.

(** [Rv64ZkneInstruction] without the key schedule it shares with [Rv64ZkndInstruction] *)
Inductive Rv64ZkneInstruction (R : Type) : Type :=
| Aes64Es (rd rs1 rs2 : R)
| Aes64Esm (rd rs1 rs2 : R).
#[global] Arguments Aes64Es {R}.
#[global] Arguments Aes64Esm {R}.

Inductive Rv64ZknhInstruction (R : Type) : Type :=
| Sha256Sig0 (rd rs1 : R)
| Sha256Sig1 (rd rs1 : R)
| Sha256Sum0 (rd rs1 : R)
| Sha256Sum1 (rd rs1 : R)
| Sha512Sig0 (rd rs1 : R)
| Sha512Sig1 (rd rs1 : R)
| Sha512Sum0 (rd rs1 : R)
| Sha512Sum1 (rd rs1 : R).
#[global] Arguments Sha256Sig0 {R}.
#[global] Arguments Sha256Sig1 {R}.
#[global] Arguments Sha256Sum0 {R}.
#[global] Arguments Sha256Sum1 {R}.
#[global] Arguments Sha512Sig0 {R}.
#[global] Arguments Sha512Sig1 {R}.
#[global] Arguments Sha512Sum0 {R}.
#[global] Arguments Sha512Sum1 {R}.

(** [Rv64ZknInstruction]; what it inherits from Zbb and Zbc is in [Rv64Bits]. *)
Inductive Rv64ZknInstruction (R : Type) : Type :=
| InZbkb (i : Rv64ZbkbInstruction R)
| InZbkx (i : Rv64ZbkxInstruction R)
| InZknd (i : Rv64ZkndInstruction R)
| InZkne (i : Rv64ZkneInstruction R)
| InZknh (i : Rv64ZknhInstruction R).
#[global] Arguments InZbkb {R}.
#[global] Arguments InZbkx {R}.
#[global] Arguments InZknd {R}.
#[global] Arguments InZkne {R}.
#[global] Arguments InZknh {R}.

Section decode.
Context {R : Type} `{Register R}.

(** [Rv64ZbkbInstruction::try_decode] *)
Definition try_decode_zbkb (w : Z) : option (Rv64ZbkbInstruction R) :=
  let opcode := opcode_of w in
  let funct3 := funct3_of w in
  let funct7 := funct7_of w in
  if opcode =? 0x13 then
    (rd ← from_bits (rd_bits_of w); rs1 ← from_bits (rs1_bits_of w);
     if (funct3 =? 5) && (funct12_of w =? 0x687) then Some (Brev8 rd rs1) else None) else
  if opcode =? 0x33 then
    (rd ← from_bits (rd_bits_of w); rs1 ← from_bits (rs1_bits_of w); rs2 ← from_bits (rs2_bits_of w);
     if (funct3 =? 4) && (funct7 =? 4) then Some (Pack rd rs1 rs2) else
     if (funct3 =? 7) && (funct7 =? 4) then Some (Packh rd rs1 rs2) else None) else
  if opcode =? 0x3b then
    (rd ← from_bits (rd_bits_of w); rs1 ← from_bits (rs1_bits_of w); rs2 ← from_bits (rs2_bits_of w);
     if (funct3 =? 4) && (funct7 =? 4) && negb (rs2_bits_of w =? 0) then Some (Packw rd rs1 rs2)
     else None) else
  None.

(** [Rv64ZbkxInstruction::try_decode] *)
Definition try_decode_zbkx (w : Z) : option (Rv64ZbkxInstruction R) :=
  let funct3 := funct3_of w in
  let funct7 := funct7_of w in
  if opcode_of w =? 0x33 then
    (rd ← from_bits (rd_bits_of w); rs1 ← from_bits (rs1_bits_of w); rs2 ← from_bits (rs2_bits_of w);
     if (funct3 =? 2) && (funct7 =? 0x14) then Some (Xperm4 rd rs1 rs2) else
     if (funct3 =? 4) && (funct7 =? 0x14) then Some (Xperm8 rd rs1 rs2) else None) else
  None.

(** [Rv64ZkndInstruction::try_decode] *)
Definition try_decode_zknd (w : Z) : option (Rv64ZkndInstruction R) :=
  let opcode := opcode_of w in
  let funct3 := funct3_of w in
  let funct7 := funct7_of w in
  if opcode =? 0x33 then
    if negb (funct3 =? 0) then None
    else
      (rd ← from_bits (rd_bits_of w); rs1 ← from_bits (rs1_bits_of w); rs2 ← from_bits (rs2_bits_of w);
       if funct7 =? 0x1d then Some (Aes64Ds rd rs1 rs2) else
       if funct7 =? 0x1f then Some (Aes64Dsm rd rs1 rs2) else
       if funct7 =? 0x3f then Some (Aes64Ks2 rd rs1 rs2) else None) else
  if opcode =? 0x13 then
    if negb (funct3 =? 1) then None
    else
      (rd ← from_bits (rd_bits_of w); rs1 ← from_bits (rs1_bits_of w);
       let imm12 := Z.shiftr w 20 in
       if imm12 =? 0x300 then Some (Aes64Im rd rs1) else
       if (Z.shiftr imm12 5 =? 0x18) && negb (Z.land imm12 0x10 =? 0) then
         (rnum ← rnum_from_bits (Z.land imm12 0xf); Some (Aes64Ks1i rd rs1 rnum)) else None) else
  None.

(** [Rv64ZkneInstruction::try_decode] *)
Definition try_decode_zkne (w : Z) : option (Rv64ZkneInstruction R) :=
  let funct7 := funct7_of w in
  if opcode_of w =? 0x33 then
    if negb (funct3_of w =? 0) then None
    else
      (rd ← from_bits (rd_bits_of w); rs1 ← from_bits (rs1_bits_of w); rs2 ← from_bits (rs2_bits_of w);
       if funct7 =? 0x19 then Some (Aes64Es rd rs1 rs2) else
       if funct7 =? 0x1b then Some (Aes64Esm rd rs1 rs2) else None) else
  None.

(** [Rv64ZknhInstruction::try_decode] *)
Definition try_decode_zknh (w : Z) : option (Rv64ZknhInstruction R) :=
  let funct5 := rs2_bits_of w in
  if opcode_of w =? 0x13 then
    if negb (funct3_of w =? 1) || negb (funct7_of w =? 8) then None
    else
      (rd ← from_bits (rd_bits_of w); rs1 ← from_bits (rs1_bits_of w);
       if funct5 =? 2 then Some (Sha256Sig0 rd rs1) else
       if funct5 =? 3 then Some (Sha256Sig1 rd rs1) else
       if funct5 =? 0 then Some (Sha256Sum0 rd rs1) else
       if funct5 =? 1 then Some (Sha256Sum1 rd rs1) else
       if funct5 =? 6 then Some (Sha512Sig0 rd rs1) else
       if funct5 =? 7 then Some (Sha512Sig1 rd rs1) else
       if funct5 =? 4 then Some (Sha512Sum0 rd rs1) else
       if funct5 =? 5 then Some (Sha512Sum1 rd rs1) else None) else
  None.

(** [Rv64ZknInstruction::try_decode]: the decoders it inherits, in turn. *)
Definition try_decode_zkn (w : Z) : option (Rv64ZknInstruction R) :=
  match try_decode_zbkb w with Some i => Some (InZbkb i) | None =>
  match try_decode_zbkx w with Some i => Some (InZbkx i) | None =>
  match try_decode_zknd w with Some i => Some (InZknd i) | None =>
  match try_decode_zkne w with Some i => Some (InZkne i) | None =>
  match try_decode_zknh w with Some i => Some (InZknh i) | None => None
  end end end end end.
End decode.

Section execute.
Context {R : Type} `{Register R}.

(** [Rv64ZbkbInstruction::execute] *)
Definition execute_zbkb (i : Rv64ZbkbInstruction R) (rs1_value rs2_value : Z) : R * Z :=
  match i with
  | Pack rd _ _ =>
      let lo := Z.land rs1_value 0xffffffff in
      let hi := wrap 64 (Z.shiftl (Z.land rs2_value 0xffffffff) 32) in
      (rd, Z.lor lo hi)
  | Packh rd _ _ =>
      let lo := Z.land rs1_value 0xff in
      let hi := wrap 64 (Z.shiftl (Z.land rs2_value 0xff) 8) in
      (rd, Z.lor lo hi)
  | Packw rd _ _ =>
      let lo := Z.land rs1_value 0xffff in
      let hi := wrap 64 (Z.shiftl (Z.land rs2_value 0xffff) 16) in
      let word := wrap 32 (Z.lor lo hi) in
      (rd, sext (signed 32 word))
  | Brev8 rd _ => (rd, brev8 rs1_value)
  end.

(** [Rv64ZbkxInstruction::execute] *)
Definition execute_zbkx (i : Rv64ZbkxInstruction R) (rs1_value rs2_value : Z) : R * Z :=
  match i with
  | Xperm4 rd _ _ => (rd, xperm4 rs1_value rs2_value)
  | Xperm8 rd _ _ => (rd, xperm8 rs1_value rs2_value)
  end.

(** [Rv64ZkndInstruction::execute] *)
Definition execute_zknd (i : Rv64ZkndInstruction R) (rs1_value rs2_value : Z) : R * Z :=
  match i with
  | Aes64Ds rd _ _ => (rd, aes64ds rs1_value rs2_value)
  | Aes64Dsm rd _ _ => (rd, aes64dsm rs1_value rs2_value)
  | Aes64Im rd _ => (rd, aes64im rs1_value)
  | Aes64Ks1i rd _ rnum => (rd, aes64ks1i rs1_value rnum)
  | Aes64Ks2 rd _ _ => (rd, aes64ks2 rs1_value rs2_value)
  end.

(** [Rv64ZkneInstruction::execute] *)
Definition execute_zkne (i : Rv64ZkneInstruction R) (rs1_value rs2_value : Z) : R * Z :=
  match i with
  | Aes64Es rd _ _ => (rd, aes64es rs1_value rs2_value)
  | Aes64Esm rd _ _ => (rd, aes64esm rs1_value rs2_value)
  end.

(** [Rv64ZknhInstruction::execute] *)
Definition execute_zknh (i : Rv64ZknhInstruction R) (rs1_value : Z) : R * Z :=
  match i with
  | Sha256Sig0 rd _ => (rd, sext (signed 32 (sha256sig0 (wrap 32 rs1_value))))
  | Sha256Sig1 rd _ => (rd, sext (signed 32 (sha256sig1 (wrap 32 rs1_value))))
  | Sha256Sum0 rd _ => (rd, sext (signed 32 (sha256sum0 (wrap 32 rs1_value))))
  | Sha256Sum1 rd _ => (rd, sext (signed 32 (sha256sum1 (wrap 32 rs1_value))))
  | Sha512Sig0 rd _ => (rd, sha512sig0 rs1_value)
  | Sha512Sig1 rd _ => (rd, sha512sig1 rs1_value)
  | Sha512Sum0 rd _ => (rd, sha512sum0 rs1_value)
  | Sha512Sum1 rd _ => (rd, sha512sum1 rs1_value)
  end.

(** [Rv64ZknInstruction::execute] *)
Definition execute_zkn (i : Rv64ZknInstruction R) (rs1_value rs2_value : Z) : R * Z :=
  match i with
  | InZbkb i => execute_zbkb i rs1_value rs2_value
  | InZbkx i => execute_zbkx i rs1_value rs2_value
  | InZknd i => execute_zknd i rs1_value rs2_value
  | InZkne i => execute_zkne i rs1_value rs2_value
  | InZknh i => execute_zknh i rs1_value
  end.

Definition operands_zkn (i : Rv64ZknInstruction R) : R * R :=
  match i with
  | InZbkb (Pack _ rs1 rs2) | InZbkb (Packh _ rs1 rs2) | InZbkb (Packw _ rs1 rs2) => (rs1, rs2)
  | InZbkb (Brev8 _ rs1) => (rs1, ZERO)
  | InZbkx (Xperm4 _ rs1 rs2) | InZbkx (Xperm8 _ rs1 rs2) => (rs1, rs2)
  | InZknd (Aes64Ds _ rs1 rs2) | InZknd (Aes64Dsm _ rs1 rs2) | InZknd (Aes64Ks2 _ rs1 rs2) => (rs1, rs2)
  | InZknd (Aes64Im _ rs1) | InZknd (Aes64Ks1i _ rs1 _) => (rs1, ZERO)
  | InZkne (Aes64Es _ rs1 rs2) | InZkne (Aes64Esm _ rs1 rs2) => (rs1, rs2)
  | InZknh (Sha256Sig0 _ rs1) | InZknh (Sha256Sig1 _ rs1) | InZknh (Sha256Sum0 _ rs1)
  | InZknh (Sha256Sum1 _ rs1) | InZknh (Sha512Sig0 _ rs1) | InZknh (Sha512Sig1 _ rs1)
  | InZknh (Sha512Sum0 _ rs1) | InZknh (Sha512Sum1 _ rs1) => (rs1, ZERO)
  end.
End execute.

(** ** The tables *)

Definition byte_b (x : Z) : bool := (0 <=? x) && (x <? 256).

Lemma byte_b_spec x : byte_b x = true <-> is_byte x.
Proof. unfold byte_b, is_byte. rewrite andb_true_iff, Z.leb_le, Z.ltb_lt. done. Qed.

(** A fact about all bytes, by evaluation. *)
Definition on_bytes (f : Z -> bool) : bool := forallb f (seqZ 0 256).

Lemma all_bytes (f : Z -> bool) x : on_bytes f = true -> is_byte x -> f x = true.
Proof.
  intros Hf Hx. unfold on_bytes in Hf. rewrite forallb_forall in Hf. apply Hf, list_elem_of_In, elem_of_seqZ.
  unfold is_byte in Hx. lia.
Qed.

Ltac by_bytes f := apply (all_bytes f); [vm_compute; reflexivity|done].

Lemma sbox_byte x : is_byte x -> is_byte (table SBOX x).
Proof. intros Hx. apply byte_b_spec. by_bytes (fun x => byte_b (table SBOX x)). Qed.

Lemma inv_sbox_byte x : is_byte x -> is_byte (table INV_SBOX x).
Proof. intros Hx. apply byte_b_spec. by_bytes (fun x => byte_b (table INV_SBOX x)). Qed.

Lemma inv_sbox_sbox x : is_byte x -> table INV_SBOX (table SBOX x) = x.
Proof. intros Hx. apply Z.eqb_eq. by_bytes (fun x => table INV_SBOX (table SBOX x) =? x). Qed.

Lemma sbox_inv_sbox x : is_byte x -> table SBOX (table INV_SBOX x) = x.
Proof. intros Hx. apply Z.eqb_eq. by_bytes (fun x => table SBOX (table INV_SBOX x) =? x). Qed.

(** *** The field of AES *)

(** Multiplication by [x] modulo [x^8 + x^4 + x^3 + x + 1]. *)
Definition xtime (a : Z) : Z := Z.lxor (Z.shiftl a 1) (if Z.testbit a 7 then 0x11b else 0).

Lemma lxor_byte a b : is_byte a -> is_byte b -> is_byte (Z.lxor a b).
Proof.
  unfold is_byte. intros Ha Hb. apply (lxor_range_bits 8); lia.
Qed.

Lemma gmul_step_spec a b p :
  is_byte a -> gmul_step (a, b, p) = (xtime a, Z.shiftr b 1, if Z.testbit b 0 then Z.lxor p a else p).
Proof.
  intros Ha. unfold gmul_step.
  replace (if Z.shiftr a 7 =? 0 then _ else _) with (xtime a).
  2:{ symmetry. apply Z.eqb_eq.
      by_bytes (fun a => (if Z.shiftr a 7 =? 0 then wrap 8 (Z.shiftl a 1)
                          else Z.lxor (wrap 8 (Z.shiftl a 1)) 0x1b) =? xtime a). }
  replace (Z.land b 1 =? 0) with (negb (Z.testbit b 0)); [by destruct (Z.testbit b 0)|].
  change 1 with (Z.ones 1) at 1. rewrite Z.land_ones, Z.bit0_eqb by lia. change (2 ^ 1) with 2.
  pose proof (Z.mod_pos_bound b 2 ltac:(lia)). assert (b mod 2 = 0 \/ b mod 2 = 1) as [-> | ->] by lia; done.
Qed.

Lemma xtime_byte a : is_byte a -> is_byte (xtime a).
Proof. intros Ha. apply byte_b_spec. by_bytes (fun a => byte_b (xtime a)). Qed.

Lemma xtime_lxor a b : xtime (Z.lxor a b) = Z.lxor (xtime a) (xtime b).
Proof.
  unfold xtime. rewrite Z.shiftl_lxor, Z.lxor_spec.
  destruct (Z.testbit a 7), (Z.testbit b 7); cbn [xorb]; apply Z.bits_inj'; intros k Hk;
    rewrite !Z.lxor_spec, ?Z.bits_0; destruct (Z.testbit (Z.shiftl a 1) k), (Z.testbit (Z.shiftl b 1) k),
      (Z.testbit 0x11b k); done.
Qed.

(** The product of polynomials: for every bit of [b] the multiple of [a]. *)
Fixpoint field_sum (n : nat) (a b : Z) : Z :=
  match n with
  | O => 0
  | S n => Z.lxor (if Z.testbit b 0 then a else 0) (field_sum n (xtime a) (Z.shiftr b 1))
  end.
Definition field_product (a b : Z) : Z := field_sum 8 a b.

Lemma gmul_iter n a b p :
  is_byte a -> (Nat.iter n gmul_step (a, b, p)).2 = Z.lxor p (field_sum n a b).
Proof.
  revert a b p. induction n as [|n IH]; intros a b p Ha; cbn [field_sum]; [by rewrite Z.lxor_0_r|].
  rewrite Nat.iter_succ_r, gmul_step_spec, IH by (done || by apply xtime_byte).
  destruct (Z.testbit b 0); [by rewrite Z.lxor_assoc|by rewrite Z.lxor_0_l].
Qed.

Lemma gmul_product a b : is_byte a -> gmul a b = field_product a b.
Proof. intros Ha. unfold gmul. by rewrite gmul_iter, Z.lxor_0_l. Qed.

Lemma lxor_swap a b c d : Z.lxor (Z.lxor a b) (Z.lxor c d) = Z.lxor (Z.lxor a c) (Z.lxor b d).
Proof.
  rewrite !Z.lxor_assoc. f_equal. rewrite <- !Z.lxor_assoc. f_equal. apply Z.lxor_comm.
Qed.

Lemma field_sum_lxor n a a' b : field_sum n (Z.lxor a a') b = Z.lxor (field_sum n a b) (field_sum n a' b).
Proof.
  revert a a' b. induction n as [|n IH]; intros a a' b; [done|]. cbn [field_sum]. rewrite xtime_lxor, IH.
  rewrite lxor_swap. f_equal. by destruct (Z.testbit b 0).
Qed.

Lemma gmul_lxor a a' b : is_byte a -> is_byte a' -> gmul (Z.lxor a a') b = Z.lxor (gmul a b) (gmul a' b).
Proof. intros Ha Ha'. rewrite !gmul_product by (done || by apply lxor_byte). apply field_sum_lxor. Qed.

Lemma field_sum_byte n a b : is_byte a -> is_byte (field_sum n a b).
Proof.
  revert a b. induction n as [|n IH]; intros a b Ha; cbn [field_sum]; [done|].
  apply lxor_byte; [by destruct (Z.testbit b 0)|]. by apply IH, xtime_byte.
Qed.

Lemma gmul_byte a b : is_byte a -> is_byte (gmul a b).
Proof. intros Ha. rewrite gmul_product by done. by apply field_sum_byte. Qed.

(** *** The S-box is the one of the standard *)

(** A byte and four of its rotations, plus a constant. *)
Definition affine (b : Z) : Z :=
  fold_left (fun r k => Z.lxor r (rotate_left 8 b k)) [1; 2; 3; 4] (Z.lxor b 0x63).

(** Its inverse. *)
Definition unaffine (v : Z) : Z :=
  Z.lxor (Z.lxor (rotate_left 8 v 1) (rotate_left 8 v 3)) (Z.lxor (rotate_left 8 v 6) 0x05).

Definition inverse_in_field (x y : Z) : Prop := x = 0 /\ y = 0 \/ field_product x y = 1.

Definition sbox_check (x : Z) : bool :=
  let y := unaffine (table SBOX x) in
  byte_b y && (affine y =? table SBOX x) && ((x =? 0) && (y =? 0) || (field_product x y =? 1)).

Lemma sbox_affine x :
  is_byte x -> exists y, is_byte y /\ inverse_in_field x y /\ table SBOX x = affine y.
Proof.
  intros Hx. assert (Hc : sbox_check x = true) by by_bytes sbox_check. unfold sbox_check in Hc.
  exists (unaffine (table SBOX x)).
  rewrite !andb_true_iff, orb_true_iff, andb_true_iff, !Z.eqb_eq in Hc. destruct Hc as [[Hb Ha] Hi].
  split_and!; [by apply byte_b_spec|exact Hi|done].
Qed.

(** ** The state of AES *)

(** A value after the bits below it. *)
Lemma lor_shiftl_above out b n :
  0 <= n -> 0 <= out < 2 ^ n -> Z.lor out (Z.shiftl b n) = out + b * 2 ^ n.
Proof.
  intros Hn Ho. rewrite Z.lor_comm, Z.shiftl_mul_pow2, lor_add by done. lia.
Qed.

Lemma lor_shift_above w out b n m :
  0 <= n -> 0 <= m -> n + m <= w -> 0 <= out < 2 ^ n -> 0 <= b < 2 ^ m ->
  Z.lor out (wrap w (Z.shiftl b n)) = out + b * 2 ^ n /\ 0 <= out + b * 2 ^ n < 2 ^ (n + m).
Proof.
  intros Hn Hm Hw Ho Hb. pose proof (pow2_pos n Hn). pose proof (pow2_pos m Hm).
  assert (Hr : 0 <= out + b * 2 ^ n < 2 ^ (n + m)) by (rewrite Z.pow_add_r by lia; nia).
  split; [|done]. rewrite wrap_small; [by apply lor_shiftl_above|]. rewrite Z.shiftl_mul_pow2 by done.
  pose proof (Z.pow_le_mono_r 2 (n + m) w ltac:(lia) ltac:(lia)). nia.
Qed.

(** The bytes of a word, and a word from its bytes. *)
Lemma join4_bytes a b c d :
  is_byte a -> is_byte b -> is_byte c -> is_byte d -> join4 a b c d = from_le_bytes [a; b; c; d].
Proof.
  unfold is_byte. intros Ha Hb Hc Hd. unfold join4.
  destruct (lor_shift_above 32 a b 8 8) as [-> H1]; [lia..|].
  destruct (lor_shift_above 32 (a + b * 2 ^ 8) c 16 8) as [-> H2]; [lia..|].
  destruct (lor_shift_above 32 (a + b * 2 ^ 8 + c * 2 ^ 16) d 24 8) as [-> H3]; [lia..|].
  cbn [from_le_bytes]. lia.
Qed.

Definition half_bytes (byte : Z -> Z -> Z) : list Z :=
  [byte 0 0; byte 0 1; byte 0 2; byte 0 3; byte 1 0; byte 1 1; byte 1 2; byte 1 3].

(** Joins the next byte to what is assembled so far. *)
Ltac join_byte n Hb :=
  match goal with |- context [Z.lor ?out (wrap 64 (Z.shiftl ?b ?e))] =>
    replace e with n by reflexivity;
    destruct (lor_shift_above 64 out b n 8) as [-> ?]; [lia|lia|lia|lia|apply Hb|]
  end.

Lemma half_state_bytes byte :
  (forall c r, is_byte (byte c r)) -> half_state byte = from_le_bytes (half_bytes byte).
Proof.
  intros Hb. unfold half_state, half_bytes. cbn [fold_left from_le_bytes].
  join_byte 0 Hb. join_byte 8 Hb. join_byte 16 Hb. join_byte 24 Hb. join_byte 32 Hb. join_byte 40 Hb. join_byte 48 Hb. join_byte 56 Hb.
  lia.
Qed.

(** Bytes of both halves of the state. *)
Lemma state_byte_is_byte lo hi c r : is_byte (state_byte lo hi c r).
Proof. unfold state_byte. apply (wrap_range 8). lia. Qed.

Lemma to_from_le_bytes l : Forall is_byte l -> to_le_bytes (length l) (from_le_bytes l) = l.
Proof.
  induction 1 as [|b l Hb _ IH]; [done|]. cbn [length to_le_bytes from_le_bytes]. unfold is_byte in Hb. f_equal.
  - clear IH. Z.to_euclidean_division_equations. lia.
  - replace ((b + 256 * from_le_bytes l) / 256) with (from_le_bytes l); [done|].
    clear IH. Z.to_euclidean_division_equations. lia.
Qed.

Lemma le_byte_from l k b :
  Forall is_byte l -> l !! k = Some b -> le_byte (from_le_bytes l) (Z.of_nat k) = b.
Proof.
  intros Hl Hk. pose proof (lookup_lt_Some _ _ _ Hk) as Hlt.
  pose proof (to_le_bytes_lookup (length l) (from_le_bytes l) k Hlt) as Hb.
  rewrite to_from_le_bytes in Hb by done. congruence.
Qed.

(** The place of a byte in its half. *)
Definition place (c r : Z) : Z := 4 * (c mod 2) + r.

Lemma state_byte_le lo hi c r :
  0 <= r -> state_byte lo hi c r = le_byte (if c <? 2 then lo else hi) (place c r).
Proof.
  intros Hr. unfold state_byte, le_byte, place, wrap.
  pose proof (Z.mod_pos_bound c 2 ltac:(lia)). rewrite Z.shiftr_div_pow2 by lia. do 3 f_equal. lia.
Qed.

Lemma half_bytes_all byte : (forall c r, is_byte (byte c r)) -> Forall is_byte (half_bytes byte).
Proof. intros Hb. repeat (constructor; [apply Hb|]). constructor. Qed.

(** The bytes of two halves. *)
Lemma state_byte_halves f g c r :
  (forall c r, is_byte (f c r)) -> (forall c r, is_byte (g c r)) -> 0 <= c < 4 -> 0 <= r < 4 ->
  state_byte (half_state f) (half_state g) c r = if c <? 2 then f c r else g (c - 2) r.
Proof.
  intros Hf Hg Hc Hr. rewrite state_byte_le, !half_state_bytes by (done || lia).
  assert (Hplace : forall h, half_bytes h !! Z.to_nat (place c r) = Some (h (c mod 2) r)).
  { intros h. unfold place.
    assert (Hm : c mod 2 = 0 \/ c mod 2 = 1) by (pose proof (Z.mod_pos_bound c 2); lia).
    assert (Hr' : r = 0 \/ r = 1 \/ r = 2 \/ r = 3) by lia.
    destruct Hm as [-> | ->], Hr' as [-> |[-> |[-> | ->]]]; done. }
  assert (Hp : 0 <= place c r) by (unfold place; pose proof (Z.mod_pos_bound c 2); lia).
  rewrite <- (Z2Nat.id (place c r)) by done. destruct (Z.ltb_spec c 2) as [Hlt|Hge].
  - rewrite (le_byte_from _ _ (f c r)); [done|by apply half_bytes_all|]. rewrite Hplace. by rewrite Z.mod_small by lia.
  - rewrite (le_byte_from _ _ (g (c - 2) r)); [done|by apply half_bytes_all|]. rewrite Hplace. do 2 f_equal.
    assert (c = 2 \/ c = 3) as [-> | ->] by lia; done.
Qed.

Lemma half_state_self lo hi : 0 <= lo < 2 ^ 64 -> half_state (state_byte lo hi) = lo.
Proof.
  intros Hlo. rewrite half_state_bytes by (intros; apply state_byte_is_byte).
  rewrite <- (wrap_small 64 lo) at 2 by done. rewrite <- (from_to_le_bytes 8). f_equal.
  unfold half_bytes. rewrite !state_byte_le by lia. unfold place, le_byte. cbn [Z.ltb Z.compare to_le_bytes].
  rewrite !Z.div_div by lia. rewrite <- (Z.div_1_r lo) at 9. done.
Qed.

Lemma half_state_ext f g :
  (forall c r, 0 <= c < 2 -> 0 <= r < 4 -> f c r = g c r) -> half_state f = half_state g.
Proof. intros Hfg. unfold half_state. cbn [fold_left]. by rewrite !Hfg by lia. Qed.

Lemma state_byte_swap lo hi c r : 0 <= c < 4 -> state_byte hi lo c r = state_byte lo hi (Z.land (c + 2) 3) r.
Proof. intros Hc. assert (c = 0 \/ c = 1 \/ c = 2 \/ c = 3) as [-> |[-> |[-> | ->]]] by lia; done. Qed.

Lemma land_3 x : Z.land x 3 = x mod 4.
Proof. change 3 with (Z.ones 2). by rewrite Z.land_ones. Qed.

(** ShiftRows and SubBytes. *)
Lemma encrypted_byte lo hi c r :
  0 <= c < 4 -> 0 <= r < 4 ->
  state_byte (aes64es lo hi) (aes64es hi lo) c r = table SBOX (state_byte lo hi (Z.land (c + r) 3) r).
Proof.
  intros Hc Hr. unfold aes64es. rewrite state_byte_halves; try done.
  - destruct (Z.ltb_spec c 2); [done|]. f_equal. rewrite !land_3, state_byte_swap by (apply Z.mod_pos_bound; lia).
    rewrite land_3. f_equal. clear -Hc Hr. Z.to_euclidean_division_equations. lia.
  - intros. apply sbox_byte, state_byte_is_byte.
  - intros. apply sbox_byte, state_byte_is_byte.
Qed.

Lemma final_round_inverse lo hi :
  0 <= lo < 2 ^ 64 -> aes64ds (aes64es lo hi) (aes64es hi lo) = lo.
Proof.
  intros Hlo. rewrite <- (half_state_self lo hi) at 3 by done. apply half_state_ext. intros c r Hc Hr.
  rewrite encrypted_byte, inv_sbox_sbox by (try apply state_byte_is_byte; try rewrite land_3; try apply Z.mod_pos_bound; lia).
  f_equal. rewrite !land_3. clear -Hc Hr. Z.to_euclidean_division_equations. lia.
Qed.

(** *** Mixing of columns *)

Ltac bytes :=
  repeat match goal with
  | |- is_byte (Z.lxor _ _) => apply lxor_byte
  | |- is_byte (gmul _ _) => apply gmul_byte
  end; try assumption.

Definition x4 (a b c d : Z) : Z := Z.lxor (Z.lxor (Z.lxor a b) c) d.

Lemma x4_lxor a b c d a' b' c' d' :
  x4 (Z.lxor a a') (Z.lxor b b') (Z.lxor c c') (Z.lxor d d') = Z.lxor (x4 a b c d) (x4 a' b' c' d').
Proof. unfold x4. by rewrite (lxor_swap a a'), (lxor_swap _ _ c c'), (lxor_swap _ _ d d'). Qed.

Lemma x4_transpose a0 a1 a2 a3 b0 b1 b2 b3 c0 c1 c2 c3 d0 d1 d2 d3 :
  x4 (x4 a0 a1 a2 a3) (x4 b0 b1 b2 b3) (x4 c0 c1 c2 c3) (x4 d0 d1 d2 d3) =
  x4 (x4 a0 b0 c0 d0) (x4 a1 b1 c1 d1) (x4 a2 b2 c2 d2) (x4 a3 b3 c3 d3).
Proof.
  change (x4 a0 a1 a2 a3) with (Z.lxor (Z.lxor (Z.lxor a0 a1) a2) a3).
  change (x4 b0 b1 b2 b3) with (Z.lxor (Z.lxor (Z.lxor b0 b1) b2) b3).
  change (x4 c0 c1 c2 c3) with (Z.lxor (Z.lxor (Z.lxor c0 c1) c2) c3).
  change (x4 d0 d1 d2 d3) with (Z.lxor (Z.lxor (Z.lxor d0 d1) d2) d3).
  by rewrite !x4_lxor.
Qed.

Lemma x4_byte a b c d : is_byte a -> is_byte b -> is_byte c -> is_byte d -> is_byte (x4 a b c d).
Proof. intros. unfold x4. bytes. Qed.

Lemma gmul_x4 a b c d k :
  is_byte a -> is_byte b -> is_byte c -> is_byte d ->
  gmul (x4 a b c d) k = x4 (gmul a k) (gmul b k) (gmul c k) (gmul d k).
Proof. intros. unfold x4. by rewrite !gmul_lxor by bytes. Qed.

(** The products of the two matrices, for one byte: [m] and [k] are a row and a column. *)
Definition entry (m0 m1 m2 m3 k0 k1 k2 k3 s : Z) : Z :=
  x4 (gmul (gmul s k0) m0) (gmul (gmul s k1) m1) (gmul (gmul s k2) m2) (gmul (gmul s k3) m3).

Lemma gmul_1 s : is_byte s -> gmul s 1 = s.
Proof. intros Hs. apply Z.eqb_eq. by_bytes (fun s => gmul s 1 =? s). Qed.

Definition row (m0 m1 m2 m3 s0 s1 s2 s3 : Z) : Z := x4 (gmul s0 m0) (gmul s1 m1) (gmul s2 m2) (gmul s3 m3).

Lemma row_byte m0 m1 m2 m3 s0 s1 s2 s3 :
  is_byte s0 -> is_byte s1 -> is_byte s2 -> is_byte s3 -> is_byte (row m0 m1 m2 m3 s0 s1 s2 s3).
Proof. intros. unfold row, x4. bytes. Qed.

Lemma split4 a b c d :
  is_byte a -> is_byte b -> is_byte c -> is_byte d ->
  let w := from_le_bytes [a; b; c; d] in
  wrap 8 w = a /\ wrap 8 (Z.shiftr w 8) = b /\ wrap 8 (Z.shiftr w 16) = c /\ wrap 8 (Z.shiftr w 24) = d.
Proof.
  intros Ha Hb Hc Hd w. unfold is_byte in *. unfold w, wrap. cbn [from_le_bytes]. rewrite !Z.shiftr_div_pow2 by lia.
  simpl (2 ^ _). split_and!; Z.to_euclidean_division_equations; lia.
Qed.

Lemma mix_col_rows a b c d :
  is_byte a -> is_byte b -> is_byte c -> is_byte d ->
  mix_col (from_le_bytes [a; b; c; d]) =
    from_le_bytes [row 2 3 1 1 a b c d; row 1 2 3 1 a b c d; row 1 1 2 3 a b c d; row 3 1 1 2 a b c d].
Proof.
  intros Ha Hb Hc Hd. destruct (split4 a b c d Ha Hb Hc Hd) as (E1 & E2 & E3 & E4).
  unfold mix_col. rewrite E1, E2, E3, E4. unfold row, x4. rewrite !gmul_1 by done.
  apply join4_bytes; bytes.
Qed.

Lemma inv_mix_col_rows a b c d :
  is_byte a -> is_byte b -> is_byte c -> is_byte d ->
  inv_mix_col (from_le_bytes [a; b; c; d]) =
    from_le_bytes [row 14 11 13 9 a b c d; row 9 14 11 13 a b c d; row 13 9 14 11 a b c d; row 11 13 9 14 a b c d].
Proof.
  intros Ha Hb Hc Hd. destruct (split4 a b c d Ha Hb Hc Hd) as (E1 & E2 & E3 & E4).
  unfold inv_mix_col. rewrite E1, E2, E3, E4. unfold row, x4.
  apply join4_bytes; bytes.
Qed.

(** A row of one matrix after the other is a row of their product. *)
Lemma row_rows m0 m1 m2 m3 a b c d :
  is_byte a -> is_byte b -> is_byte c -> is_byte d ->
  row m0 m1 m2 m3 (row 2 3 1 1 a b c d) (row 1 2 3 1 a b c d) (row 1 1 2 3 a b c d) (row 3 1 1 2 a b c d) =
  x4 (entry m0 m1 m2 m3 2 1 1 3 a) (entry m0 m1 m2 m3 3 2 1 1 b)
     (entry m0 m1 m2 m3 1 3 2 1 c) (entry m0 m1 m2 m3 1 1 3 2 d).
Proof.
  intros Ha Hb Hc Hd. unfold row at 1. unfold row. rewrite !gmul_x4 by bytes.
  apply x4_transpose.
Qed.

Lemma entry_check m0 m1 m2 m3 k0 k1 k2 k3 s (one : bool) :
  on_bytes (fun s => entry m0 m1 m2 m3 k0 k1 k2 k3 s =? if one then s else 0) = true ->
  is_byte s -> entry m0 m1 m2 m3 k0 k1 k2 k3 s = if one then s else 0.
Proof. intros Hc Hs. apply Z.eqb_eq. exact (all_bytes _ s Hc Hs). Qed.

(** The matrices are inverse to each other. *)
Lemma inv_mix_rows a b c d :
  is_byte a -> is_byte b -> is_byte c -> is_byte d ->
  inv_mix_col (mix_col (from_le_bytes [a; b; c; d])) = from_le_bytes [a; b; c; d].
Proof.
  intros Ha Hb Hc Hd. rewrite mix_col_rows, inv_mix_col_rows by (done || by apply row_byte).
  rewrite !row_rows by done.
  repeat match goal with
  | |- context [entry ?m0 ?m1 ?m2 ?m3 ?k0 ?k1 ?k2 ?k3 ?s] =>
      let one := eval vm_compute in (entry m0 m1 m2 m3 k0 k1 k2 k3 1 =? 1) in
      rewrite (entry_check m0 m1 m2 m3 k0 k1 k2 k3 s one) by (assumption || (vm_compute; reflexivity))
  end.
  unfold x4. by rewrite !Z.lxor_0_l, !Z.lxor_0_r.
Qed.

Lemma word_bytes x : 0 <= x < 2 ^ 32 ->
  exists a b c d, is_byte a /\ is_byte b /\ is_byte c /\ is_byte d /\ x = from_le_bytes [a; b; c; d].
Proof.
  intros Hx. exists (x mod 256), ((x / 256) mod 256), ((x / 65536) mod 256), (x / 16777216).
  unfold is_byte. split_and!; try (apply Z.mod_pos_bound; lia); cbn [from_le_bytes];
    change (2 ^ 32) with 4294967296 in Hx; Z.to_euclidean_division_equations; lia.
Qed.

Lemma inv_mix_col_mix_col x : 0 <= x < 2 ^ 32 -> inv_mix_col (mix_col x) = x.
Proof.
  intros Hx. destruct (word_bytes x Hx) as (a & b & c & d & Ha & Hb & Hc & Hd & ->). by apply inv_mix_rows.
Qed.

Lemma mix_col_range x : 0 <= x < 2 ^ 32 -> 0 <= mix_col x < 2 ^ 32.
Proof.
  intros Hx. destruct (word_bytes x Hx) as (a & b & c & d & Ha & Hb & Hc & Hd & ->).
  rewrite mix_col_rows by done. apply (from_le_bytes_range [_; _; _; _]). repeat constructor; by apply row_byte.
Qed.

Lemma both_columns_spec f x :
  0 <= x < 2 ^ 64 -> (forall y, 0 <= y < 2 ^ 32 -> 0 <= f y < 2 ^ 32) ->
  both_columns f x = f (x mod 2 ^ 32) + f (x / 2 ^ 32) * 2 ^ 32 /\ 0 <= both_columns f x < 2 ^ 64.
Proof.
  intros Hx Hf. unfold both_columns. rewrite Z.shiftr_div_pow2 by lia.
  assert (Hhi : 0 <= x / 2 ^ 32 < 2 ^ 32) by (clear -Hx; Z.to_euclidean_division_equations; lia).
  rewrite (wrap_small 32 (x / 2 ^ 32)) by done. replace (wrap 32 x) with (x mod 2 ^ 32) by done.
  destruct (lor_shift_above 64 (f (x mod 2 ^ 32)) (f (x / 2 ^ 32)) 32 32) as [-> Hr]; try lia.
  - apply Hf, Z.mod_pos_bound. lia.
  - by apply Hf.
Qed.

Lemma half_state_range byte : (forall c r, is_byte (byte c r)) -> 0 <= half_state byte < 2 ^ 64.
Proof.
  intros Hb. rewrite half_state_bytes by done. apply (from_le_bytes_range (half_bytes byte)). by apply half_bytes_all.
Qed.

Lemma aes64es_range lo hi : 0 <= aes64es lo hi < 2 ^ 64.
Proof. apply half_state_range. intros. apply sbox_byte, state_byte_is_byte. Qed.

Lemma both_columns_inverse f g x :
  0 <= x < 2 ^ 64 -> (forall y, 0 <= y < 2 ^ 32 -> 0 <= f y < 2 ^ 32) ->
  (forall y, 0 <= y < 2 ^ 32 -> g (f y) = y) -> both_columns g (both_columns f x) = x.
Proof.
  intros Hr Hf Hg. destruct (both_columns_spec f x Hr Hf) as [E Hr']. set (y := both_columns f x) in *. clearbody y.
  assert (Hlo : 0 <= x mod 2 ^ 32 < 2 ^ 32) by (apply Z.mod_pos_bound; lia).
  assert (Hhi : 0 <= x / 2 ^ 32 < 2 ^ 32) by (clear -Hr; Z.to_euclidean_division_equations; lia).
  pose proof (Hf _ Hlo) as Flo. pose proof (Hf _ Hhi) as Fhi.
  assert (Elo : y mod 2 ^ 32 = f (x mod 2 ^ 32)) by (rewrite E, Z.mod_add, Z.mod_small by lia; done).
  assert (Ehi : y / 2 ^ 32 = f (x / 2 ^ 32)) by (rewrite E, Z.div_add, Z.div_small by lia; lia).
  unfold both_columns. rewrite Z.shiftr_div_pow2, Ehi, (wrap_small 32 (f (x / 2 ^ 32))) by (done || lia).
  replace (wrap 32 y) with (y mod 2 ^ 32) by done. rewrite Elo, !Hg by done.
  destruct (lor_shift_above 64 (x mod 2 ^ 32) (x / 2 ^ 32) 32 32) as [-> _]; [lia..|].
  clear -Hr. Z.to_euclidean_division_equations. lia.
Qed.

(** InvMixColumns undoes MixColumns. *)
Lemma aes64im_esm lo hi : aes64im (aes64esm lo hi) = aes64es lo hi.
Proof.
  apply (both_columns_inverse mix_col inv_mix_col).
  - apply aes64es_range.
  - apply mix_col_range.
  - apply inv_mix_col_mix_col.
Qed.

(** ** Properties of the AES instructions *)

(** The S-box of the AES instructions is the one of the standard: the affine map of the
    inverse in the field of 256 elements, where zero stands for its own inverse, and the
    other table is its inverse; the multiplication of the field is the sum, over the bits of
    one factor, of the other factor multiplied so many times by [x]. *)
Theorem aes_tables_standard x y :
  is_byte x -> is_byte y ->
  (exists z, is_byte z /\ inverse_in_field x z /\ table SBOX x = affine z) /\
  table INV_SBOX (table SBOX x) = x /\ table SBOX (table INV_SBOX x) = x /\ gmul x y = field_product x y.
Proof.
  intros Hx Hy. split_and!; [by apply sbox_affine|by apply inv_sbox_sbox|by apply sbox_inv_sbox|by apply gmul_product].
Qed.

(** Decryption undoes encryption: from both halves of a state after the final round
    ([aes64es]) or after a middle round ([aes64esm]) of encryption, the instructions for
    decryption give back the half that the round began with. *)
Theorem aes_round_inverse lo hi :
  0 <= lo < 2 ^ 64 -> 0 <= hi < 2 ^ 64 ->
  aes64ds (aes64es lo hi) (aes64es hi lo) = lo /\
  aes64ds (aes64im (aes64esm lo hi)) (aes64im (aes64esm hi lo)) = lo.
Proof. intros Hlo Hhi. rewrite !aes64im_esm. by split; apply final_round_inverse. Qed.

Lemma aes_tables_standard_witness : table INV_SBOX (table SBOX 0x53) = 0x53 /\ gmul 0x57 0x83 = field_product 0x57 0x83.
Proof.
  destruct (aes_tables_standard 0x53 0) as (_ & H1 & _); [done..|].
  destruct (aes_tables_standard 0x57 0x83) as (_ & _ & _ & H2); [done..|]. exact (conj H1 H2).
Defined.

Lemma aes_round_inverse_witness :
  aes64ds (aes64es 0x0123456789abcdef 42) (aes64es 42 0x0123456789abcdef) = 0x0123456789abcdef.
Proof. exact (proj1 (aes_round_inverse 0x0123456789abcdef 42 ltac:(lia) ltac:(lia))). Defined.

(** The example of the AES standard: SubBytes, ShiftRows and MixColumns of the first round
    of encryption. *)
Example aes_standard_example :
  table SBOX 0x53 = 0xed /\ gmul 0x57 0x83 = 0xc1 /\ mix_col 0x305dbfd4 = 0xe5816604.
Proof. by vm_compute. Qed.

(** ** Permutations of bits, nibbles and bytes *)

Lemma bytes_range_64 l : Forall is_byte l -> length l = 8%nat -> 0 <= from_le_bytes l < 2 ^ 64.
Proof. intros Hl Hlen. pose proof (from_le_bytes_range l Hl) as Hr. by rewrite Hlen in Hr. Qed.

Lemma reverse_byte_is_byte b : is_byte b -> is_byte (reverse_byte b).
Proof. intros Hb. apply byte_b_spec. by_bytes (fun b => byte_b (reverse_byte b)). Qed.

Lemma testbit_reverse_byte b k : is_byte b -> 0 <= k < 8 -> Z.testbit (reverse_byte b) k = Z.testbit b (7 - k).
Proof.
  intros Hb Hk.
  assert (Hall : forallb (fun k => Bool.eqb (Z.testbit (reverse_byte b) k) (Z.testbit b (7 - k))) (seqZ 0 8) = true).
  { by_bytes (fun b => forallb (fun k => Bool.eqb (Z.testbit (reverse_byte b) k) (Z.testbit b (7 - k))) (seqZ 0 8)). }
  rewrite forallb_forall in Hall. apply eqb_prop, Hall, list_elem_of_In, elem_of_seqZ. lia.
Qed.

Lemma brev8_bytes x : Forall is_byte (reverse_byte <$> to_le_bytes 8 x).
Proof. apply Forall_fmap. eapply Forall_impl; [apply to_le_bytes_are_bytes|]. apply reverse_byte_is_byte. Qed.

Lemma testbit_brev8 x k : 0 <= k < 64 -> Z.testbit (brev8 x) k = Z.testbit x (8 * (k / 8) + (7 - k mod 8)).
Proof.
  intros Hk. apply (bytes_map_bits _ (fun k => Z.testbit x (8 * (k / 8) + (7 - k mod 8)))).
  - apply brev8_bytes.
  - by rewrite length_fmap, length_to_le_bytes.
  - done.
  - assert (Hr : 0 <= k mod 8 < 8) by (apply Z.mod_pos_bound; lia).
    intros j b Hj Hb. rewrite list_lookup_fmap, to_le_bytes_lookup in Hb by done.
    cbn [fmap option_fmap option_map] in Hb. injection Hb as <-. rewrite testbit_reverse_byte, testbit_le_byte by (apply le_byte_is_byte || lia). f_equal.
    clear -Hj Hr. Z.to_euclidean_division_equations. lia.
Qed.

(** The byte of [x] at an index, and zero past the end. *)
Definition byte_or_zero (x i : Z) : Z := if i <? 8 then le_byte x i else 0.

Lemma table_bytes x i : 0 <= i -> table (to_le_bytes 8 x) i = byte_or_zero x i.
Proof.
  intros Hi. unfold table, byte_or_zero. rewrite nth_lookup. destruct (Z.ltb_spec i 8).
  - rewrite to_le_bytes_lookup by lia. cbn. f_equal. lia.
  - by rewrite lookup_ge_None_2 by (rewrite length_to_le_bytes; lia).
Qed.

Lemma xperm8_bytes a b :
  swizzle_dyn (to_le_bytes 8 a) (to_le_bytes 8 b) = (fun i => byte_or_zero a i) <$> to_le_bytes 8 b.
Proof.
  unfold swizzle_dyn. apply list_fmap_ext. intros k i Hi. apply table_bytes.
  pose proof (lookup_lt_Some _ _ _ Hi) as Hlt. rewrite length_to_le_bytes in Hlt.
  rewrite to_le_bytes_lookup in Hi by done. injection Hi as <-. apply le_byte_is_byte.
Qed.

Lemma byte_or_zero_is_byte a i : is_byte (byte_or_zero a i).
Proof. unfold byte_or_zero. destruct (i <? 8); [apply le_byte_is_byte|done]. Qed.

Lemma xperm8_spec a b j :
  0 <= j < 8 -> le_byte (xperm8 a b) j = byte_or_zero a (le_byte b j).
Proof.
  intros Hj. unfold xperm8. rewrite xperm8_bytes. rewrite <- (Z2Nat.id j) by lia. apply le_byte_from.
  - apply Forall_fmap, Forall_true. intros x. apply byte_or_zero_is_byte.
  - rewrite list_lookup_fmap, to_le_bytes_lookup by lia. done.
Qed.

Lemma xperm8_range a b : 0 <= xperm8 a b < 2 ^ 64.
Proof.
  unfold xperm8. rewrite xperm8_bytes. apply bytes_range_64; [|by rewrite length_fmap, length_to_le_bytes].
  apply Forall_fmap, Forall_true. intros x. apply byte_or_zero_is_byte.
Qed.

(** Nibbles *)
Definition nibble (x j : Z) : Z := (x / 2 ^ (4 * j)) mod 16.

Lemma nibble_range x j : 0 <= nibble x j < 16.
Proof. apply Z.mod_pos_bound. lia. Qed.

Lemma nibble_mask x j : 0 <= j -> Z.land (Z.shiftr x (4 * j)) 0xf = nibble x j.
Proof.
  intros Hj. change 0xf with (Z.ones 4). rewrite Z.land_ones, Z.shiftr_div_pow2 by lia. done.
Qed.

Lemma nibbles_lookup x k : (k < 16)%nat -> nibbles_of x !! k = Some (nibble x (Z.of_nat k)).
Proof.
  intros Hk. unfold nibbles_of. rewrite list_lookup_fmap.
  assert (Hs : [0; 4; 8; 12; 16; 20; 24; 28; 32; 36; 40; 44; 48; 52; 56; 60] !! k = Some (4 * Z.of_nat k)).
  { do 16 (destruct k as [|k]; [done|]). lia. }
  rewrite Hs. cbn [fmap option_fmap option_map]. by rewrite nibble_mask by lia.
Qed.

(** The nibble of [a] whose number is in a nibble of [b]. *)
Definition permuted (a b j : Z) : Z := nibble a (nibble b j).

Lemma xperm4_nibbles a b k :
  (k < 16)%nat -> nth k (swizzle_dyn (nibbles_of a) (nibbles_of b)) 0 = permuted a b (Z.of_nat k).
Proof.
  intros Hk. unfold swizzle_dyn. rewrite nth_lookup, list_lookup_fmap, nibbles_lookup by done.
  cbn [fmap option_fmap option_map default]. unfold table, permuted. pose proof (nibble_range b (Z.of_nat k)).
  rewrite nth_lookup, nibbles_lookup by lia. cbn. f_equal. lia.
Qed.

Definition xperm4_bytes (a b : Z) : list Z :=
  (fun m => permuted a b (2 * m) + 16 * permuted a b (2 * m + 1)) <$> seqZ 0 8.

Lemma join_nibbles l h : 0 <= l < 16 -> 0 <= h < 16 -> Z.lor l (wrap 8 (Z.shiftl h 4)) = l + 16 * h.
Proof.
  intros Hl Hh. destruct (lor_shift_above 8 l h 4 4) as [-> _]; [lia..|]. lia.
Qed.

Lemma xperm4_is_bytes a b : xperm4 a b = from_le_bytes (xperm4_bytes a b).
Proof.
  unfold xperm4. f_equal. unfold simd_swizzle. set (v := swizzle_dyn _ _).
  cbn [fmap list_fmap zip_with]. unfold v. rewrite !xperm4_nibbles by lia.
  rewrite !join_nibbles by apply nibble_range. done.
Qed.

Lemma xperm4_bytes_all a b : Forall is_byte (xperm4_bytes a b).
Proof.
  apply Forall_fmap, Forall_true. intros m. cbn. unfold permuted, is_byte.
  pose proof (nibble_range a (nibble b (2 * m))). pose proof (nibble_range a (nibble b (2 * m + 1))). lia.
Qed.

Lemma xperm4_range a b : 0 <= xperm4 a b < 2 ^ 64.
Proof. rewrite xperm4_is_bytes. apply bytes_range_64; [apply xperm4_bytes_all|done]. Qed.

Lemma nibbles_of_byte x m :
  0 <= m -> nibble x (2 * m) = le_byte x m mod 16 /\ nibble x (2 * m + 1) = le_byte x m / 16.
Proof.
  intros Hm. unfold nibble, le_byte. replace (4 * (2 * m)) with (8 * m) by lia.
  replace (4 * (2 * m + 1)) with (8 * m + 4) by lia. rewrite Z.pow_add_r, <- Z.div_div by lia.
  set (y := x / 2 ^ (8 * m)). change (2 ^ 4) with 16. clearbody y.
  split; Z.to_euclidean_division_equations; lia.
Qed.

Lemma xperm4_spec a b j : 0 <= j < 16 -> nibble (xperm4 a b) j = permuted a b j.
Proof.
  intros Hj. set (m := j / 2).
  assert (Hm : 0 <= m < 8) by (unfold m; Z.to_euclidean_division_equations; lia).
  assert (Hb : le_byte (xperm4 a b) m = permuted a b (2 * m) + 16 * permuted a b (2 * m + 1)).
  { rewrite xperm4_is_bytes. rewrite <- (Z2Nat.id m) at 1 by lia. apply le_byte_from; [apply xperm4_bytes_all|].
    unfold xperm4_bytes. rewrite list_lookup_fmap, lookup_seqZ_lt by lia. cbn [fmap option_fmap option_map].
    do 2 f_equal; [|f_equal]; f_equal; lia. }
  destruct (nibbles_of_byte (xperm4 a b) m ltac:(lia)) as [E0 E1]. rewrite Hb in E0, E1.
  pose proof (nibble_range a (nibble b (2 * m))) as H0. pose proof (nibble_range a (nibble b (2 * m + 1))) as H1.
  fold (permuted a b (2 * m)) in H0. fold (permuted a b (2 * m + 1)) in H1.
  assert (Hcase : j = 2 * m \/ j = 2 * m + 1) by (unfold m; Z.to_euclidean_division_equations; lia).
  clearbody m. destruct Hcase as [-> | ->]; [rewrite E0|rewrite E1]; Z.to_euclidean_division_equations; lia.
Qed.

(** ** Results are values of 64 bits *)

Lemma brev8_range x : 0 <= brev8 x < 2 ^ 64.
Proof. apply bytes_range_64; [apply brev8_bytes|by rewrite length_fmap, length_to_le_bytes]. Qed.

Lemma inv_mix_col_range x : 0 <= x < 2 ^ 32 -> 0 <= inv_mix_col x < 2 ^ 32.
Proof.
  intros Hx. destruct (word_bytes x Hx) as (a & b & c & d & Ha & Hb & Hc & Hd & ->).
  rewrite inv_mix_col_rows by done. apply (from_le_bytes_range [_; _; _; _]).
  rewrite !Forall_cons, Forall_nil. split_and!; try done; by apply row_byte.
Qed.

Lemma aes64ds_range lo hi : 0 <= aes64ds lo hi < 2 ^ 64.
Proof. apply half_state_range. intros. apply inv_sbox_byte, state_byte_is_byte. Qed.

Lemma low_byte x : is_byte (Z.land x 0xff).
Proof. change 0xff with (Z.ones 8). rewrite Z.land_ones by lia. apply Z.mod_pos_bound. lia. Qed.

Lemma rcon_byte rnum c : 0 <= rnum -> rnum_constant rnum = Some c -> 0 <= c < 2 ^ 32.
Proof.
  intros Hr. unfold rnum_constant, table. destruct (rnum =? 0xa); [done|]. intros Hc.
  assert (c = nth (Z.to_nat rnum) RCON 0) as -> by congruence.
  rewrite nth_lookup. destruct (RCON !! Z.to_nat rnum) as [c|] eqn:E; cbn; [|lia].
  assert (Hall : Forall (fun c => 0 <= c < 2 ^ 32) RCON)
    by (apply (bool_decide_unpack _); vm_compute; exact I).
  by apply (Forall_lookup_1 _ _ _ _ Hall E).
Qed.

Lemma join4_range a b c d :
  is_byte a -> is_byte b -> is_byte c -> is_byte d -> 0 <= join4 a b c d < 2 ^ 32.
Proof.
  intros. rewrite join4_bytes by done. apply (from_le_bytes_range [_; _; _; _]). by rewrite !Forall_cons, Forall_nil.
Qed.

Lemma double_word x y : 0 <= x < 2 ^ 32 -> 0 <= y < 2 ^ 32 -> 0 <= Z.lor x (wrap 64 (Z.shiftl y 32)) < 2 ^ 64.
Proof. intros Hx Hy. destruct (lor_shift_above 64 x y 32 32) as [-> Hr]; [lia..|]. exact Hr. Qed.

Lemma aes64ks1i_range rs1 rnum : 0 <= rnum -> 0 <= aes64ks1i rs1 rnum < 2 ^ 64.
Proof.
  intros Hr. unfold aes64ks1i. set (rotated := if rnum =? 0xa then _ else _).
  assert (Hs : 0 <= join4 (table SBOX (Z.land rotated 0xff)) (table SBOX (Z.land (Z.shiftr rotated 8) 0xff))
    (table SBOX (Z.land (Z.shiftr rotated 16) 0xff)) (table SBOX (Z.land (Z.shiftr rotated 24) 0xff)) < 2 ^ 32).
  { apply join4_range; apply sbox_byte, low_byte. }
  destruct (rnum_constant rnum) as [c|] eqn:E; [|by apply double_word].
  pose proof (rcon_byte rnum c Hr E) as Hc. apply double_word; apply (lxor_range_bits 32); done.
Qed.

Lemma aes64ks2_range rs1 rs2 : 0 <= aes64ks2 rs1 rs2 < 2 ^ 64.
Proof. unfold aes64ks2. apply double_word; repeat apply (lxor_range_bits 32); try (apply wrap_range); lia. Qed.

Lemma sha512_range x a b c :
  0 <= x < 2 ^ 64 -> 0 <= a < 64 -> 0 <= b < 64 -> 0 <= c < 64 ->
  0 <= Z.lxor (Z.lxor (rotate_right 64 x a) (rotate_right 64 x b)) (rotate_right 64 x c) < 2 ^ 64 /\
  0 <= Z.lxor (Z.lxor (rotate_right 64 x a) (rotate_right 64 x b)) (Z.shiftr x c) < 2 ^ 64.
Proof.
  intros. split; repeat apply (lxor_range_bits 64); try lia; try (by apply rotate_right_range).
  apply (shiftr_range 64); lia.
Qed.

Section results.
Context {R : Type} `{Register R}.

Definition zkn_wf (i : Rv64ZknInstruction R) : Prop :=
  match i with
  | InZbkb (Packw _ _ rs2) => offset rs2 <> 0
  | InZknd (Aes64Ks1i _ _ rnum) => 0 <= rnum <= 10
  | _ => True
  end.

Lemma pack_range w a b n :
  0 <= n -> 2 * n <= w -> 0 <= Z.lor (Z.land a (Z.ones n)) (wrap w (Z.shiftl (Z.land b (Z.ones n)) n)) < 2 ^ (2 * n).
Proof.
  intros Hn Hw. rewrite !Z.land_ones by lia. pose proof (pow2_pos n Hn).
  destruct (lor_shift_above w (a mod 2 ^ n) (b mod 2 ^ n) n n) as [-> Hr]; try lia.
  - apply Z.mod_pos_bound. lia.
  - apply Z.mod_pos_bound. lia.
  - by replace (2 * n) with (n + n) by lia.
Qed.

Lemma zkn_value_range i a b :
  0 <= a < 2 ^ 64 -> zkn_wf i -> 0 <= (execute_zkn i a b).2 < 2 ^ 64.
Proof.
  intros Ha Hwf. destruct i as [[]|[]|[]|[]|[]]; cbn [execute_zkn execute_zbkb execute_zbkx execute_zknd
    execute_zkne execute_zknh snd zkn_wf] in *.
  - apply (pack_range 64 a b 32); lia.
  - pose proof (pack_range 64 a b 8 ltac:(lia) ltac:(lia)) as Hr. change (Z.ones 8) with 0xff in Hr.
    change (2 ^ (2 * 8)) with 65536 in Hr. lia.
  - apply sext_range.
  - apply brev8_range.
  - apply xperm4_range.
  - apply xperm8_range.
  - apply aes64ds_range.
  - apply both_columns_spec; [apply aes64ds_range|apply inv_mix_col_range].
  - apply both_columns_spec; [done|apply inv_mix_col_range].
  - apply aes64ks1i_range. lia.
  - apply aes64ks2_range.
  - apply aes64es_range.
  - apply both_columns_spec; [apply aes64es_range|apply mix_col_range].
  - apply sext_range.
  - apply sext_range.
  - apply sext_range.
  - apply sext_range.
  - by apply (sha512_range a 1 8 7).
  - by apply (sha512_range a 19 61 6).
  - by apply (sha512_range a 28 34 39).
  - by apply (sha512_range a 14 18 41).
Qed.
End results.

(** ** Specification of the packing and permutation instructions *)

Definition zbk_spec {R} (i : Rv64ZknInstruction R) (a b v : Z) : Prop :=
  match i with
  | InZbkb (Pack _ _ _) => v = a mod 2 ^ 32 + b mod 2 ^ 32 * 2 ^ 32
  | InZbkb (Packh _ _ _) => v = a mod 2 ^ 8 + b mod 2 ^ 8 * 2 ^ 8
  | InZbkb (Packw _ _ _) => v = signed 32 (a mod 2 ^ 16 + b mod 2 ^ 16 * 2 ^ 16) mod 2 ^ 64
  | InZbkb (Brev8 _ _) => bits_are v (fun k => Z.testbit a (8 * (k / 8) + (7 - k mod 8)))
  | InZbkx (Xperm4 _ _ _) => forall j, 0 <= j < 16 -> nibble v j = nibble a (nibble b j)
  | InZbkx (Xperm8 _ _ _) =>
      forall j, 0 <= j < 8 -> le_byte v j = if le_byte b j <? 8 then le_byte a (le_byte b j) else 0
  | _ => True
  end.

Lemma pack_value w a b n :
  0 <= n -> 2 * n <= w ->
  Z.lor (Z.land a (Z.ones n)) (wrap w (Z.shiftl (Z.land b (Z.ones n)) n)) = a mod 2 ^ n + b mod 2 ^ n * 2 ^ n.
Proof.
  intros Hn Hw. rewrite !Z.land_ones by lia. pose proof (pow2_pos n Hn).
  destruct (lor_shift_above w (a mod 2 ^ n) (b mod 2 ^ n) n n) as [-> _]; try lia; apply Z.mod_pos_bound; lia.
Qed.

(** The instructions that pack and permute give what the specification says, on all
    values: the low halves, bytes or halfwords of the operands side by side, the bits of
    every byte in reverse, and the nibbles or bytes of the first operand at the indices in the
    second, where an index past the last byte gives zero; the results of all Zkn
    instructions are values of 64 bits. *)
Theorem crypto_permutations_correct {R} `{Register R} (i : Rv64ZknInstruction R) a b :
  0 <= a < 2 ^ 64 -> 0 <= b < 2 ^ 64 -> zkn_wf i ->
  0 <= (execute_zkn i a b).2 < 2 ^ 64 /\ zbk_spec i a b (execute_zkn i a b).2.
Proof.
  intros Ha Hb Hwf. split; [by apply zkn_value_range|].
  destruct i as [[]|[]|i|i|i]; cbn [execute_zkn execute_zbkb execute_zbkx snd zbk_spec]; try exact I.
  - apply (pack_value 64 a b 32); lia.
  - apply (pack_value 64 a b 8); lia.
  - pose proof (pack_value 64 a b 16 ltac:(lia) ltac:(lia)) as E. change (Z.ones 16) with 0xffff in E. rewrite E.
    by rewrite signed_wrap.
  - split; [apply brev8_range|]. intros k Hk. by apply testbit_brev8.
  - intros j Hj. by apply xperm4_spec.
  - intros j Hj. by apply xperm8_spec.
Qed.

Lemma crypto_permutations_correct_witness :
  0 <= (execute_zkn (InZbkb (Brev8 A0 A1)) 1 0).2 < 2 ^ 64 /\
  zbk_spec (InZbkb (Brev8 A0 A1)) 1 0 (execute_zkn (InZbkb (Brev8 A0 A1)) 1 0).2.
Proof. apply (crypto_permutations_correct (InZbkb (Brev8 A0 A1)) 1 0); done. Defined.

End Rv64Zkn.
