(* ===== verification/RvContract.v ===== *)
(** * The instruction set of contracts

    Model of [crates/contracts/core/ab-contract-file/src/instruction.rs]: the registers a
    contract may use, and its instruction type, which inherits the compressed instructions,
    RV64I without [Ecall], and the M, B, Zbc, Zkn and Zicond extensions.  The macro of
    [crates/execution/ab-riscv-macros] tries the inherited decoders in the order in which they
    are listed and takes the first result; instructions that are inherited twice are the same
    variant and listed here once.

    The theorems: no word is decoded in two ways, and no program of a contract makes the
    interpreter panic. *)

From S2P Require Import Prelude RvInt RvRegisters RvMemory Rv64Decode Rv64Encoding Rv64Exec RvInterp.
From S2P Require Import Rv64Bits RvZca RvZcaEncoding RvZcmp Rv64Zkn.
From stdpp Require Import prelude.
From Stdlib Require Import ZArith Lia.
Local Open Scope Z_scope.

Module RvContract.
Import RvInt RvRegisters RvMemory Rv64 Rv64Encoding Rv64Exec RvInterp Rv64Bits RvZca RvZcaEncoding RvZcmp Rv64Zkn.

(** ** Registers *)

(** [gp] and [tp] are missing. *)
Inductive ContractRegister : Type :=
| CrZero
| CrRa
| CrSp
| CrT0
| CrT1
| CrT2
| CrS0
| CrS1
| CrA0
| CrA1
| CrA2
| CrA3
| CrA4
| CrA5
| CrA6
| CrA7
| CrS2
| CrS3
| CrS4
| CrS5
| CrS6
| CrS7
| CrS8
| CrS9
| CrS10
| CrS11
| CrT3
| CrT4
| CrT5
| CrT6.

#[export] Instance ContractRegister_eq_dec : EqDecision ContractRegister.
Proof. solve_decision. Defined.

Definition contract_from_bits (bits : Z) : option ContractRegister :=
  match bits with
  | 0 => Some CrZero
  | 1 => Some CrRa
  | 2 => Some CrSp
  | 5 => Some CrT0
  | 6 => Some CrT1
  | 7 => Some CrT2
  | 8 => Some CrS0
  | 9 => Some CrS1
  | 10 => Some CrA0
  | 11 => Some CrA1
  | 12 => Some CrA2
  | 13 => Some CrA3
  | 14 => Some CrA4
  | 15 => Some CrA5
  | 16 => Some CrA6
  | 17 => Some CrA7
  | 18 => Some CrS2
  | 19 => Some CrS3
  | 20 => Some CrS4
  | 21 => Some CrS5
  | 22 => Some CrS6
  | 23 => Some CrS7
  | 24 => Some CrS8
  | 25 => Some CrS9
  | 26 => Some CrS10
  | 27 => Some CrS11
  | 28 => Some CrT3
  | 29 => Some CrT4
  | 30 => Some CrT5
  | 31 => Some CrT6
  | _ => None
  end.

(** The discriminants. *)
Definition contract_offset (r : ContractRegister) : Z :=
  match r with
  | CrZero => 0
  | CrRa => 1
  | CrSp => 2
  | CrT0 => 5
  | CrT1 => 6
  | CrT2 => 7
  | CrS0 => 8
  | CrS1 => 9
  | CrA0 => 10
  | CrA1 => 11
  | CrA2 => 12
  | CrA3 => 13
  | CrA4 => 14
  | CrA5 => 15
  | CrA6 => 16
  | CrA7 => 17
  | CrS2 => 18
  | CrS3 => 19
  | CrS4 => 20
  | CrS5 => 21
  | CrS6 => 22
  | CrS7 => 23
  | CrS8 => 24
  | CrS9 => 25
  | CrS10 => 26
  | CrS11 => 27
  | CrT3 => 28
  | CrT4 => 29
  | CrT5 => 30
  | CrT6 => 31
  end.

(** [num_regs] is the length of the array of [ContractRegisters]. *)
#[export] Instance ContractRegister_Register : Register ContractRegister :=
  {| ZERO := CrZero; SP := CrSp; RA := CrRa; REG_A0 := CrA0; REG_A1 := CrA1;
     from_bits := contract_from_bits; num_regs := 32; offset := contract_offset |}.

#[export] Instance ContractRegister_Zcmp : ZcmpRegister ContractRegister := {| RVE := false |}.

(** [ContractRegisters] *)
Record ContractRegisters : Type := mkContractRegisters { regs : list Z }.

Definition contract_registers_default : ContractRegisters := mkContractRegisters (replicate 32 0).

Definition contract_read (rs : ContractRegisters) (reg : ContractRegister) : outcome Z :=
  if decide (reg = CrZero) then Ret 0 else arr_get (regs rs) (Z.to_nat (contract_offset reg)).

Definition contract_write (rs : ContractRegisters) (reg : ContractRegister) (value : Z)
    : outcome ContractRegisters :=
  let! l := arr_set (regs rs) (Z.to_nat (contract_offset reg)) value in Ret (mkContractRegisters l).

#[export] Instance ContractRegisters_file : RegisterFile ContractRegister ContractRegisters :=
  {| reg_read := contract_read; reg_write := contract_write |}.

(** ** Instructions *)

Inductive ContractInstruction (R : Type) : Type :=
| CiZca (i : Rv64ZcaInstruction R)
| CiZcb (i : Rv64ZcbOnlyInstruction R)
| CiZcmp (i : Rv64ZcmpOnlyInstruction R)
| CiI (i : Rv64Instruction R)
| CiM (i : Rv64MInstruction R)
| CiB (i : Rv64BInstruction R)
| CiZbc (i : Rv64ZbcInstruction R)
| CiZkn (i : Rv64ZknInstruction R)
| CiZicond (i : ZicondInstruction R).
#[global] Arguments CiZca {R}.
#[global] Arguments CiZcb {R}.
#[global] Arguments CiZcmp {R}.
#[global] Arguments CiI {R}.
#[global] Arguments CiM {R}.
#[global] Arguments CiB {R}.
#[global] Arguments CiZbc {R}.
#[global] Arguments CiZkn {R}.
#[global] Arguments CiZicond {R}.

Section instruction.
Context {R : Type} `{Register R} `{!ZcmpRegister R}.

(** The decoder of RV64I with [ignore = [Ecall]]. *)
Definition decode_without_ecall (w : Z) : option (Rv64Instruction R) :=
  match try_decode w with Some Ecall => None | r => r end.

Definition contract_decode (w : Z) : option (ContractInstruction R) :=
  match try_decode_zca w with Some i => Some (CiZca i) | None =>
  match try_decode_zcb w with Some i => Some (CiZcb i) | None =>
  match try_decode_zcmp w with Some i => Some (CiZcmp i) | None =>
  match decode_without_ecall w with Some i => Some (CiI i) | None =>
  match try_decode_m w with Some i => Some (CiM i) | None =>
  match try_decode_b w with Some i => Some (CiB i) | None =>
  match try_decode_zbc w with Some i => Some (CiZbc i) | None =>
  match try_decode_zkn w with Some i => Some (CiZkn i) | None =>
  match try_decode_zicond w with Some i => Some (CiZicond i) | None => None
  end end end end end end end end end.

Definition contract_size (i : ContractInstruction R) : Z :=
  match i with CiZca _ | CiZcb _ => zca_size | CiZcmp _ => zcmp_size | _ => 4 end.

(** The least alignment of what is inherited. *)
Definition contract_alignment : Z := Z.min 4 (Z.min zca_alignment zcmp_alignment).

Definition is_jump (i : ContractInstruction R) : bool :=
  match i with
  | CiZca (CJ _) | CiZca (CBeqz _ _) | CiZca (CBnez _ _) | CiZca (CJr _) | CiZca (CJalr _)
  | CiZcmp (CmPopretz _ _) | CiZcmp (CmPopret _ _)
  | CiI (Jalr _ _ _) | CiI (Beq _ _ _) | CiI (Bne _ _ _) | CiI (Blt _ _ _) | CiI (Bge _ _ _)
  | CiI (Bltu _ _ _) | CiI (Bgeu _ _ _) | CiI (Jal _ _) => true
  | _ => false
  end.

Definition contract_operands (i : ContractInstruction R) : R * R :=
  match i with
  | CiZca i => operands_zca i
  | CiZcb i => operands_zcb i
  | CiZcmp i => operands_zcmp i
  | CiI i => operands i
  | CiM i => operands_m i
  | CiB i => operands_b i
  | CiZbc i => operands_zbc i
  | CiZkn i => operands_zkn i
  | CiZicond i => operands_zicond i
  end.
End instruction.

Section execute.
Context {R Regs Mem PC H : Type} `{Register R} `{!RegisterFile R Regs} `{!VirtualMemory Mem}
  `{!ProgramCounter PC Mem} `{!SystemInstructionHandler H Regs Mem PC}.

Definition contract_execute (i : ContractInstruction R) (a b : Z) (s : machine Regs Mem PC H)
    : outcome (machine Regs Mem PC H * result (control_flow (R * Z)) execution_error) :=
  match i with
  | CiZca i => execute_zca i a b s
  | CiZcb i => execute_zcb i a b s
  | CiZcmp i => execute_zcmp i a b s
  | CiI i => execute i a b s
  | CiM i => continue_with s (Ret (execute_m i a b))
  | CiB i => continue_with s (execute_b i a b)
  | CiZbc i => continue_with s (Ret (execute_zbc i a b))
  | CiZkn i => continue_with s (Ret (execute_zkn i a b))
  | CiZicond i => continue_with s (Ret (execute_zicond i a b))
  end.
End execute.

#[export] Instance Contract_Instruction {R} `{Register R} `{!ZcmpRegister R}
  : Instruction (ContractInstruction R) :=
  {| decode := contract_decode; alignment := contract_alignment; size := contract_size |}.

#[export] Instance Contract_Executable {R Regs Mem PC H} `{Register R} `{!RegisterFile R Regs}
    `{!VirtualMemory Mem} `{!ProgramCounter PC Mem} `{!SystemInstructionHandler H Regs Mem PC}
  : ExecutableInstruction (ContractInstruction R) R Regs Mem PC H :=
  {| get_operands := contract_operands; exec := contract_execute |}.

(** ** The registers keep their promises *)

#[export] Instance ContractRegister_laws : RegisterLaws ContractRegister.
Proof.
  split.
  - intros r. destruct r; cbn; lia.
  - cbn. lia.
  - intros r. by destruct r.
  - intros b r. cbn. unfold contract_from_bits. intros Hb. repeat case_match; by simplify_eq.
  - done.
  - done.
  - done.
  - done.
  - done.
Qed.

#[export] Instance ContractRegister_ZcmpLaws : ZcmpRegisterLaws ContractRegister.
Proof.
  split.
  - intros b Hb. rewrite !elem_of_cons, elem_of_nil in Hb. destruct Hb as [-> |[-> |[-> |[]]]]; by eexists.
  - intros b _ Hb.
    assert (Hin : b = 18 \/ b = 19 \/ b = 20 \/ b = 21 \/ b = 22 \/ b = 23 \/ b = 24 \/ b = 25 \/ b = 26 \/ b = 27) by lia.
    repeat destruct Hin as [-> |Hin]; try subst b; by eexists.
Qed.

(** They are the registers of [BasicRegisters] in a record. *)
#[export] Instance ContractRegisters_laws : RegisterFileLaws ContractRegister ContractRegisters.
Proof.
  refine {| regs_ok := fun rs => basic_ok (R := ContractRegister) (regs rs);
            reg_value := fun rs => basic_value (R := ContractRegister) (regs rs) |}.
  - intros rs r Hok. exact (reg_read_spec (R := ContractRegister) (regs rs) r Hok).
  - intros rs r Hok. exact (reg_value_range (R := ContractRegister) (regs rs) r Hok).
  - intros rs. exact (reg_value_zero (R := ContractRegister) (regs rs)).
  - intros rs r v Hok Hv. destruct (basic_write_spec (R := ContractRegister) (regs rs) r v Hok Hv) as (l & Hw & Hl & Hval).
    exists (mkContractRegisters l). split_and!; [|done|done]. cbn. unfold contract_write.
    change (arr_set _ _ v) with (basic_write (R := ContractRegister) (regs rs) r v). by rewrite Hw.
Defined.

Lemma contract_registers_default_ok : regs_ok (R := ContractRegister) contract_registers_default.
Proof. exact (basic_registers_default_ok (R := ContractRegister)). Qed.

(** ** Instructions and their lengths *)

Section laws.
Context {R : Type} `{RegisterLaws R} `{!ZcmpRegister R}.

Definition contract_wf (i : ContractInstruction R) : Prop :=
  match i with
  | CiZca i => zca_wf i
  | CiZcb i => zcb_wf i
  | CiZcmp i => zcmp_wf i
  | CiI i => wf i /\ i <> Ecall
  | CiB i => b_wf i
  | CiZkn i => zkn_wf i
  | CiM _ | CiZbc _ | CiZicond _ => True
  end.

(** Whether a word is the start of an instruction of 32 bits. *)
Definition is_long (w : Z) : bool := Z.land w 3 =? 3.

Lemma is_long_opcode w : is_long w = (opcode_of w mod 4 =? 3).
Proof.
  unfold is_long. rewrite opcode_mod, (shift_mask_mod w 2 3) by done. change (2 ^ 2) with 4. f_equal.
  Z.to_euclidean_division_equations. lia.
Qed.

Lemma is_long_half w : is_long (wrap 16 w) = is_long w.
Proof.
  unfold is_long, wrap. rewrite !(shift_mask_mod _ 2 3) by done. change (2 ^ 2) with 4. change (2 ^ 16) with 65536.
  f_equal. Z.to_euclidean_division_equations. lia.
Qed.

Lemma zca_short w i : try_decode_zca (R := R) w = Some i -> is_long w = false.
Proof.
  rewrite <- is_long_half. unfold try_decode_zca, is_long. cbv zeta. intros Hd.
  destruct (Z.eqb_spec (Z.land (wrap 16 w) 3) 3) as [E|]; [|done]. by rewrite E in Hd.
Qed.

Lemma zcb_short w i : try_decode_zcb (R := R) w = Some i -> is_long w = false.
Proof.
  rewrite <- is_long_half. unfold try_decode_zcb, is_long. cbv zeta. intros Hd.
  destruct (Z.eqb_spec (Z.land (wrap 16 w) 3) 3) as [E|]; [|done]. by rewrite E in Hd.
Qed.

Lemma zcmp_short w i : try_decode_zcmp (R := R) w = Some i -> is_long w = false.
Proof.
  rewrite <- is_long_half. unfold try_decode_zcmp, is_long. cbv zeta. intros Hd.
  destruct (Z.eqb_spec (Z.land (wrap 16 w) 3) 3) as [E|]; [|done]. by rewrite E in Hd.
Qed.

(** The opcodes of the other decoders. *)
Ltac long Hd :=
  rewrite is_long_opcode; cbv zeta in Hd;
  repeat match type of Hd with
  | context [opcode_of ?w =? ?y] => destruct (Z.eqb_spec (opcode_of w) y) as [->|]; [done|]
  end; discriminate Hd.

Lemma base_long w i : decode_without_ecall (R := R) w = Some i -> is_long w = true.
Proof.
  unfold decode_without_ecall. intros Hd. destruct (try_decode w) as [j|] eqn:E; [|done].
  unfold is_long. by rewrite (try_decode_low_bits w j E).
Qed.

Lemma m_long w i : try_decode_m (R := R) w = Some i -> is_long w = true.
Proof. intros Hd. unfold try_decode_m in Hd. long Hd. Qed.

Lemma b_long w i : try_decode_b (R := R) w = Some i -> is_long w = true.
Proof. intros Hd. unfold try_decode_b, try_decode_zba, try_decode_zbb, try_decode_zbs in Hd. long Hd. Qed.

Lemma zbc_long w i : try_decode_zbc (R := R) w = Some i -> is_long w = true.
Proof. intros Hd. unfold try_decode_zbc in Hd. long Hd. Qed.

Lemma zkn_long w i : try_decode_zkn (R := R) w = Some i -> is_long w = true.
Proof.
  intros Hd. unfold try_decode_zkn, try_decode_zbkb, try_decode_zbkx, try_decode_zknd, try_decode_zkne,
    try_decode_zknh in Hd. long Hd.
Qed.

Lemma zicond_long w i : try_decode_zicond (R := R) w = Some i -> is_long w = true.
Proof. intros Hd. unfold try_decode_zicond in Hd. long Hd. Qed.

(** The length of an instruction is in the lowest bits of its first halfword. *)
Lemma contract_decode_size w i :
  contract_decode w = Some i -> contract_size (R := R) i = if is_long w then 4 else 2.
Proof.
  unfold contract_decode. intros Hd.
  destruct (try_decode_zca w) eqn:E; [injection Hd as <-; by rewrite (zca_short _ _ E)|clear E].
  destruct (try_decode_zcb w) eqn:E; [injection Hd as <-; by rewrite (zcb_short _ _ E)|clear E].
  destruct (try_decode_zcmp w) eqn:E; [injection Hd as <-; by rewrite (zcmp_short _ _ E)|clear E].
  destruct (decode_without_ecall w) eqn:E; [injection Hd as <-; by rewrite (base_long _ _ E)|clear E].
  destruct (try_decode_m w) eqn:E; [injection Hd as <-; by rewrite (m_long _ _ E)|clear E].
  destruct (try_decode_b w) eqn:E; [injection Hd as <-; by rewrite (b_long _ _ E)|clear E].
  destruct (try_decode_zbc w) eqn:E; [injection Hd as <-; by rewrite (zbc_long _ _ E)|clear E].
  destruct (try_decode_zkn w) eqn:E; [injection Hd as <-; by rewrite (zkn_long _ _ E)|clear E].
  destruct (try_decode_zicond w) eqn:E; [injection Hd as <-; by rewrite (zicond_long _ _ E)|done].
Qed.

Lemma try_decode_zkn_wf w i : try_decode_zkn (R := R) w = Some i -> zkn_wf i.
Proof.
  unfold try_decode_zkn. intros Hd.
  destruct (try_decode_zbkb w) as [j|] eqn:E.
  { injection Hd as <-. destruct j; try exact I. cbn. unfold try_decode_zbkb in E. cbv zeta in E.
    tests E; registers E; simplify_eq. congruence. }
  clear E. destruct (try_decode_zbkx w) as [j|] eqn:E; [by injection Hd as <-|clear E].
  destruct (try_decode_zknd w) as [j|] eqn:E.
  { injection Hd as <-. destruct j; try exact I. cbn. unfold try_decode_zknd, rnum_from_bits in E. cbv zeta in E.
    destruct (Z.leb_spec (Z.land (Z.shiftr w 20) 0xf) 0xa); tests E; registers E; cbn in E; simplify_eq.
    split; [|lia]. apply Z.land_nonneg. lia. }
  clear E. destruct (try_decode_zkne w) as [j|] eqn:E; [by injection Hd as <-|clear E].
  destruct (try_decode_zknh w) as [j|] eqn:E; by simplify_eq.
Qed.

Lemma contract_decode_wf w i : 0 <= w < 2 ^ 32 -> contract_decode w = Some i -> contract_wf i.
Proof.
  intros Hw Hd. assert (Hh : 0 <= wrap 16 w < 2 ^ 16) by (apply wrap_range; lia).
  unfold contract_decode in Hd.
  destruct (try_decode_zca w) as [j|] eqn:E; [injection Hd as <-|clear E].
  { apply (try_decode_zca_sound (wrap 16 w) j Hh). unfold try_decode_zca in *. by rewrite (wrap_small 16 (wrap 16 w)). }
  destruct (try_decode_zcb w) as [j|] eqn:E; [injection Hd as <-|clear E].
  { apply (try_decode_zcb_sound (wrap 16 w) j Hh). unfold try_decode_zcb in *. by rewrite (wrap_small 16 (wrap 16 w)). }
  destruct (try_decode_zcmp w) as [j|] eqn:E; [injection Hd as <-|clear E].
  { apply (try_decode_zcmp_sound (wrap 16 w) j Hh). unfold try_decode_zcmp in *. by rewrite (wrap_small 16 (wrap 16 w)). }
  destruct (decode_without_ecall w) as [j|] eqn:E; [injection Hd as <-|clear E].
  { unfold decode_without_ecall in E. destruct (try_decode w) as [k|] eqn:E'; [|done].
    destruct (try_decode_sound w k Hw E') as [Hwf _]. split; [|intros ->]; by destruct k; simplify_eq. }
  destruct (try_decode_m w) as [j|] eqn:E; [by injection Hd as <-|clear E].
  destruct (try_decode_b w) as [j|] eqn:E; [injection Hd as <-|clear E].
  { by apply (try_decode_b_sound w j Hw). }
  destruct (try_decode_zbc w) as [j|] eqn:E; [by injection Hd as <-|clear E].
  destruct (try_decode_zkn w) as [j|] eqn:E; [injection Hd as <-; by eapply try_decode_zkn_wf|clear E].
  destruct (try_decode_zicond w) as [j|] eqn:E; by simplify_eq.
Qed.
End laws.

#[export] Instance Contract_InstructionLaws {R} `{RegisterLaws R} `{!ZcmpRegister R}
  : InstructionLaws (ContractInstruction R).
Proof.
  refine {| instr_wf := contract_wf |}.
  - apply contract_decode_wf.
  - intros w i Hd. by apply contract_decode_size.
  - done.
  - intros w i Hd. cbn [size Contract_Instruction]. rewrite (contract_decode_size w i Hd). by destruct (is_long w).
Defined.

(** ** Execution of contract instructions is safe *)

Section safety.
Context {R Regs Mem : Type} `{RegisterLaws R} `{!ZcmpRegister R} `{!ZcmpRegisterLaws R}
  `{!RegisterFile R Regs} `{!RegisterFileLaws R Regs} `{!VirtualMemory Mem} `{!VirtualMemoryLaws Mem}.

Abbreviation fetcher := (BasicInstructionFetcher (ContractInstruction R)).
Abbreviation state := (machine Regs Mem fetcher IllegalEcallHandler).

Lemma value_safe (s : state) rd v :
  machine_ok (R := R) s -> 0 <= v < 2 ^ 64 -> exec_safe (continue_with s (Ret (rd : R, v))).
Proof. intros Hs Hv. by eexists _, _. Qed.

Lemma read_safe (s : state) (r : R) k :
  machine_ok (R := R) s ->
  (forall v, 0 <= v < 2 ^ 64 -> exists rd x, k v = Ret (rd, x) /\ 0 <= x < 2 ^ 64) -> exec_safe (with_read s r k).
Proof.
  intros Hs Hk. unfold with_read. rewrite reg_read_spec by apply Hs. cbn [obind].
  destruct (Hk (reg_value (m_regs s) r)) as (rd & x & -> & Hx); [apply reg_value_range, Hs|]. by apply value_safe.
Qed.

Lemma clear_lowest_range x : 0 <= x < 2 ^ 64 -> 0 <= clear_lowest x < 2 ^ 64.
Proof. intros Hx. by apply (land_range_bits 64). Qed.

Lemma jump_to_safe (s : state) target :
  machine_ok (R := R) s -> 0 <= target < 2 ^ 64 -> exec_safe (R := R) (jump_to s target).
Proof. intros Hs Ht. by apply set_pc_safe. Qed.

Lemma jump_relative_c_safe (s : state) imm : past (R := R) 2 s -> exec_safe (R := R) (jump_relative_c s imm).
Proof.
  intros Hs. unfold jump_relative_c. rewrite (old_pc_safe 2 s Hs). cbn [obind].
  apply set_pc_safe; [apply Hs|apply wrap_64_range].
Qed.

Lemma shr_safe w x n : n < w -> exists v, shr w x n = Ret v /\ v = Z.shiftr x n.
Proof. intros Hn. unfold shr. rewrite (proj2 (Z.ltb_lt _ _)) by done. eauto. Qed.

(** An operation on a register. *)
Ltac operation :=
  apply read_safe; [done|]; intros v Hv; unfold shl, shr;
  rewrite ?(proj2 (Z.ltb_lt _ _)) by lia; cbn [obind];
  eexists _, _; split; [reflexivity|];
  try first [apply wrap_64_range|apply sext_range].

Lemma execute_q0_safe (s : state) i a b o :
  past (R := R) 2 s -> zca_wf i -> execute_q0 (R := R) i a b s = Some o -> exec_safe o.
Proof.
  intros [Hs Hpc] Hwf Ho. destruct i; cbn [execute_q0] in Ho; simplify_eq.
  - operation.
  - apply load_safe; [done|lia|apply wrap_64_range|]. intros. apply sext_range.
  - apply load_safe; [done|lia|apply wrap_64_range|done].
  - apply store_safe; [done|lia|apply wrap_64_range].
  - apply store_safe; [done|lia|apply wrap_64_range].
Qed.

Lemma execute_q1_safe (s : state) i a b o :
  past (R := R) 2 s -> zca_wf i -> 0 <= b < 2 ^ 64 -> execute_q1 (R := R) i a b s = Some o -> exec_safe o.
Proof.
  intros Hpast Hwf Hb Ho. pose proof (proj1 Hpast) as Hs.
  destruct i; cbn [execute_q1 zca_wf] in *; simplify_eq; unfold aligned in *.
  all: try (by apply continue_safe); try (by apply jump_relative_c_safe).
  all: try (by case_match; [apply jump_relative_c_safe|apply continue_safe]).
  all: try (apply value_safe; [done|apply sext_range]).
  all: operation.
  - apply (shiftr_range 64); lia.
  - by apply (land_range_bits 64).
  - by apply (lxor_range_bits 64).
  - by apply (lor_range_bits 64).
  - by apply (land_range_bits 64).
Qed.

Lemma sp_read_safe (s : state) (k : Z -> outcome (state * result (control_flow (R * Z)) execution_error)) :
  machine_ok (R := R) s -> (forall v, 0 <= v < 2 ^ 64 -> exec_safe (k v)) ->
  exec_safe (let! sp := reg_read (m_regs s) (SP (R := R)) in k sp).
Proof.
  intros Hs Hk. rewrite reg_read_spec by apply Hs. cbn [obind]. apply Hk, reg_value_range, Hs.
Qed.

Lemma execute_q2_safe (s : state) i a b :
  past (R := R) 2 s -> zca_wf i -> 0 <= a < 2 ^ 64 -> 0 <= b < 2 ^ 64 -> exec_safe (execute_q2 (R := R) i a b s).
Proof.
  intros Hpast Hwf Ha Hb. pose proof (proj1 Hpast) as Hs.
  assert (Hill : exec_safe (R := R) (let! old := old_pc (Mem := Mem) (m_pc s) 2 in
    Ret (s, Err (IllegalInstruction old)))) by (rewrite (old_pc_safe 2 s Hpast); by eexists _, _).
  destruct i; cbn [execute_q2 zca_wf] in *; try exact Hill; unfold aligned in *.
  - operation.
  - apply sp_read_safe; [done|]. intros sp _. apply load_safe; [done|lia|apply wrap_64_range|]. intros. apply sext_range.
  - apply sp_read_safe; [done|]. intros sp _. apply load_safe; [done|lia|apply wrap_64_range|done].
  - apply jump_to_safe; [done|by apply clear_lowest_range].
  - by apply value_safe.
  - apply (continue_safe (Machine _ _ _ _)). by destruct s, Hs.
  - destruct (reg_write_safe s RA (pc (m_pc s)) Hs) as (regs & Hw & Hs'); [apply (ok_pc s Hs)|].
    cbn [get_pc Basic_ProgramCounter]. rewrite Hw. cbn [obind]. apply jump_to_safe; [done|by apply clear_lowest_range].
  - operation.
  - apply sp_read_safe; [done|]. intros sp _. apply store_safe; [done|lia|apply wrap_64_range].
  - apply sp_read_safe; [done|]. intros sp _. apply store_safe; [done|lia|apply wrap_64_range].
Qed.

Lemma execute_zca_safe (s : state) i a b :
  past (R := R) 2 s -> zca_wf i -> 0 <= a < 2 ^ 64 -> 0 <= b < 2 ^ 64 -> exec_safe (execute_zca (R := R) i a b s).
Proof.
  intros Hs Hwf Ha Hb. unfold execute_zca.
  destruct (execute_q0 i a b s) as [o|] eqn:E; [by eapply execute_q0_safe|].
  destruct (execute_q1 i a b s) as [o|] eqn:E'; [by eapply execute_q1_safe|]. by apply execute_q2_safe.
Qed.

Lemma execute_zcb_safe (s : state) i a b :
  past (R := R) 2 s -> zcb_wf i -> exec_safe (execute_zcb (R := R) i a b s).
Proof.
  intros [Hs _] Hwf. destruct i; cbn [execute_zcb].
  1-3: apply load_safe; [done|lia|apply wrap_64_range|]; intros x Hx; cbn in Hx; first [apply sext_range|lia].
  1-2: apply store_safe; [done|lia|apply wrap_64_range].
  all: operation; first [by apply (land_range_bits 64)|by apply (lxor_range_bits 64)].
Qed.

(** *** Stack frames *)

Lemma do_push_safe (s : state) u adj :
  machine_ok (R := R) s -> urlist_wf (R := R) u -> exec_safe (R := R) (do_push s u adj).
Proof.
  intros Hs Hu. destruct (reg_list_ok u Hu) as (Hl & _ & _ & _ & _ & Hlen). unfold do_push.
  rewrite reg_read_spec by apply Hs. cbn [obind].
  destruct (push_loop_spec (m_regs s) (m_memory s) (reg_list_bits u) (wrap 64 (reg_value (m_regs s) SP - 8)))
    as (m & r & Hp & Hm & Hdom & _); [apply Hs|apply Hs|done|apply wrap_64_range|done|].
  rewrite Hp. cbn [obind]. eexists _, _. split; [done|]. split.
  - destruct Hs as [Hr Hmem Htop Hpc]. split; try done. intros x Hx. apply Htop. by apply Hdom.
  - destruct r; cbn; [apply wrap_64_range|done].
Qed.

(** Popping gives a state that is fine, with the return address or an error. *)
Lemma do_pop_safe (s : state) u adj :
  machine_ok (R := R) s -> urlist_wf (R := R) u ->
  exists s' r, do_pop (R := R) s u adj = Ret (s', r) /\ machine_ok (R := R) s' /\
    match r with Ok ra => 0 <= ra < 2 ^ 64 | Err _ => True end.
Proof.
  intros Hs Hu. destruct (reg_list_ok u Hu) as (Hl & _). unfold do_pop. rewrite reg_read_spec by apply Hs. cbn [obind].
  set (sp := wrap 64 (reg_value (m_regs s) SP + adj)).
  destruct (pop_loop_spec (m_regs s) (m_memory s) (reg_list_bits u) (wrap 64 (sp - 8)))
    as (regs & r & Hp & Hok & _); [apply Hs|apply Hs|done|apply wrap_64_range|].
  rewrite Hp. cbn [obind].
  assert (Hs' : machine_ok (R := R) (with_regs s regs)) by (destruct Hs; by split).
  destruct r as [[]|e]; [|by eexists _, _].
  destruct (reg_write_safe (with_regs s regs) SP sp Hs') as (regs' & Hw & Hok'); [apply wrap_64_range|].
  cbn [with_regs m_regs] in Hw. rewrite Hw. cbn [obind]. pose proof (ok_regs _ Hok') as Hregs'.
  cbn [with_regs m_regs] in Hregs'. rewrite reg_read_spec by done. cbn [obind].
  eexists _, _. split; [done|]. split; [done|by apply reg_value_range].
Qed.

Lemma execute_zcmp_safe (s : state) i a b :
  machine_ok (R := R) s -> zcmp_wf i -> 0 <= a < 2 ^ 64 -> 0 <= b < 2 ^ 64 ->
  exec_safe (execute_zcmp (R := R) i a b s).
Proof.
  intros Hs Hwf Ha Hb. destruct i as [u adj|u adj|u adj|u adj|rs1 rs2|rs1 rs2]; cbn [execute_zcmp zcmp_wf] in *.
  - apply do_push_safe; [done|apply Hwf].
  - destruct (do_pop_safe s u adj Hs (proj1 Hwf)) as (s' & r & -> & Hs' & Hr). cbn [obind].
    destruct r; [by apply continue_safe|by eexists _, _].
  - destruct (do_pop_safe s u adj Hs (proj1 Hwf)) as (s' & r & -> & Hs' & Hr). cbn [obind].
    destruct r as [ra|]; [|by eexists _, _].
    destruct (reg_write_safe s' REG_A0 0 Hs' ltac:(lia)) as (regs & Hw & Hok). rewrite Hw. cbn [obind].
    apply jump_to_safe; [done|by apply clear_lowest_range].
  - destruct (do_pop_safe s u adj Hs (proj1 Hwf)) as (s' & r & -> & Hs' & Hr). cbn [obind].
    destruct r as [ra|]; [|by eexists _, _]. apply jump_to_safe; [done|by apply clear_lowest_range].
  - destruct (reg_write_safe s REG_A0 a Hs Ha) as (regs & Hw & Hok). rewrite Hw. cbn [obind]. by eexists _, _.
  - pose proof (ok_regs s Hs) as Hregs. rewrite !reg_read_spec by done. cbn [obind].
    destruct (reg_write_safe s rs1 (reg_value (m_regs s) REG_A0) Hs) as (regs & Hw & Hok);
      [by apply reg_value_range|]. rewrite Hw. cbn [obind]. eexists _, _. split; [done|].
    split; [done|by apply reg_value_range].
Qed.
End safety.

(** ** Contract programs *)

Lemma quotient_range a b : 0 <= a < 2 ^ 64 -> 0 < b -> 0 <= a / b < 2 ^ 64 /\ 0 <= a mod b < 2 ^ 64 \/ b > 2 ^ 64.
Proof.
  intros Ha Hb. destruct (Z.le_gt_cases b (2 ^ 64)); [left|right; lia]. split.
  - split; [apply Z.div_pos; lia|]. apply Z.div_lt_upper_bound; nia.
  - pose proof (Z.mod_pos_bound a b Hb). lia.
Qed.

Lemma m_value_range {R} (i : Rv64MInstruction R) a b :
  0 <= a < 2 ^ 64 -> 0 <= b < 2 ^ 64 -> 0 <= (execute_m i a b).2 < 2 ^ 64.
Proof.
  intros Ha Hb. destruct i; cbn [execute_m snd]; try (apply wrap_64_range).
  - unfold m_divu. destruct (Z.eqb_spec b 0); [lia|]. destruct (quotient_range a b) as [[]|]; lia.
  - unfold m_remu. destruct (Z.eqb_spec b 0); [lia|]. destruct (quotient_range a b) as [[]|]; lia.
  - unfold m_divuw. destruct (_ =? 0); [lia|apply wrap_64_range].
  - unfold m_remw. destruct (_ =? 0); [apply wrap_64_range|]. destruct (_ && _); [lia|apply wrap_64_range].
Qed.

Section programs.
Context {R Regs Mem : Type} `{RegisterLaws R} `{!ZcmpRegister R} `{!ZcmpRegisterLaws R}
  `{!RegisterFile R Regs} `{!RegisterFileLaws R Regs} `{!VirtualMemory Mem} `{!VirtualMemoryLaws Mem}.

Abbreviation fetcher := (BasicInstructionFetcher (ContractInstruction R)).
Abbreviation state := (machine Regs Mem fetcher IllegalEcallHandler).

Lemma contract_executes_safely :
  executes_safely (I := ContractInstruction R) (R := R) (Regs := Regs) (Mem := Mem).
Proof.
  intros s i a b Hs Ha Hb Hwf. cbn [exec Contract_Executable]. pose proof (proj1 Hs) as Hok.
  destruct i as [i|i|i|i|i|i|i|i|i]; cbn [contract_execute].
  - by apply execute_zca_safe.
  - by apply execute_zcb_safe.
  - by apply execute_zcmp_safe.
  - apply execute_safe; try done. apply Hwf.
  - pose proof (m_value_range i a b Ha Hb). destruct (execute_m i a b) as [rd v]. by apply value_safe.
  - destruct (b_correct i a b Ha Hb Hwf) as (v & -> & Hv & _). by apply value_safe.
  - destruct i; apply value_safe; try done; apply wrap_64_range.
  - pose proof (zkn_value_range i a b Ha Hwf). destruct (execute_zkn i a b) as [rd v]. by apply value_safe.
  - destruct i; cbn [execute_zicond]; apply value_safe; try done; destruct (b =? 0); lia.
Qed.

(** C5. No program of a contract makes the interpreter panic, underflow an address or access
    memory outside of the given one: from any state with a program counter at an even
    address and a memory that ends before the last address, any number of turns of the
    loop, over all instructions a contract may use, leads to a result or to a state where
    registers, memory and program counter are again as the interpreter relies on. *)
Theorem contract_programs_safe fuel (s : state) :
  machine_ok (I := ContractInstruction R) (R := R) s ->
  exists s' r, interpret (I := ContractInstruction R) (R := R) fuel s = Ret (s', r) /\
    machine_ok (I := ContractInstruction R) (R := R) s'.
Proof. apply interpret_safe, contract_executes_safely. Qed.
End programs.

(** ** Witnesses *)

(** [cm.push {ra, s0}, -16; c.li a0, 5; add a0, a0, a0; cm.popret {ra, s0}, 16], with the
    stack at the end of the memory and a return address that ends the program. *)
Definition sample_program : list Z :=
  [0x52; 0xb8; 0x15; 0x45; 0x33; 0x05; 0xa5; 0x00; 0x52; 0xbe].

Definition sample_contract_state : machine ContractRegisters (BasicMemory 0x1000)
    (BasicInstructionFetcher (ContractInstruction ContractRegister)) IllegalEcallHandler :=
  Machine (mkContractRegisters (<[2%nat := 0x1040]> (regs contract_registers_default)))
    (mkBasicMemory (sample_program ++ replicate 54 0)) (Fetcher 0 0x1000) IllegalEcall.

Lemma sample_contract_state_ok :
  machine_ok (I := ContractInstruction ContractRegister) (R := ContractRegister) sample_contract_state.
Proof.
  split.
  - split; [done|]. repeat (apply Forall_cons; split; [lia|]). apply Forall_nil. exact I.
  - split; [by vm_compute|]. apply Forall_app. split; [|by apply Forall_replicate].
    repeat (apply Forall_cons; split; [done|]). by apply Forall_nil.
  - intros a [b Hb]. cbn in Hb. unfold basic_byte_at in Hb. case_decide as Ha; [|done].
    apply lookup_lt_Some in Hb. cbn [data sample_contract_state m_memory] in Hb. vm_compute length in Hb. lia.
  - done.
Qed.

Lemma contract_programs_safe_witness :
  exists s' r, interpret (I := ContractInstruction ContractRegister) (R := ContractRegister) 10
      sample_contract_state = Ret (s', r) /\
    machine_ok (I := ContractInstruction ContractRegister) (R := ContractRegister) s'.
Proof. apply (contract_programs_safe (R := ContractRegister) 10 sample_contract_state), sample_contract_state_ok. Defined.

(** The program ends with 10 in [a0] and the stack as it was. *)
Example sample_program_runs :
  match interpret (I := ContractInstruction ContractRegister) (R := ContractRegister) 10 sample_contract_state with
  | Ret (s, Some (Ok _)) => regs (m_regs s) !! 10%nat = Some 10 /\ regs (m_regs s) !! 2%nat = Some 0x1040
  | _ => False
  end.
Proof. by vm_compute. Qed.

(** ** No word has two meanings *)

(** The words of 32 bits that an extension decodes, by opcode, [funct3], [funct7], [funct6],
    [funct12] and [rs2]. *)
Definition region_i (op f3 f7 f6 : Z) : Prop :=
  op <> 0x33 /\ op <> 0x3b /\ op <> 0x13 /\ op <> 0x1b \/
  (op = 0x33 \/ op = 0x3b) /\ (f7 = 0 \/ f7 = 0x20 /\ (f3 = 0 \/ f3 = 5)) \/
  op = 0x13 /\ (f3 = 0 \/ f3 = 2 \/ f3 = 3 \/ f3 = 4 \/ f3 = 6 \/ f3 = 7 \/ f6 = 0 \/ f3 = 5 /\ f6 = 0x10) \/
  op = 0x1b /\ (f3 = 0 \/ f7 = 0 \/ f3 = 5 /\ f7 = 0x20).

Definition region_m (op f7 : Z) : Prop := (op = 0x33 \/ op = 0x3b) /\ f7 = 1.

Definition region_b (op f3 f7 f6 f12 rs2 : Z) : Prop :=
  op = 0x33 /\ (f7 = 0x10 \/ f7 = 0x30 \/ f7 = 5 /\ (f3 = 4 \/ f3 = 5 \/ f3 = 6 \/ f3 = 7) \/
    f7 = 0x20 /\ (f3 = 4 \/ f3 = 6 \/ f3 = 7) \/
    f3 = 1 /\ (f7 = 0x14 \/ f7 = 0x24 \/ f7 = 0x34) \/ f3 = 5 /\ f7 = 0x24) \/
  op = 0x3b /\ (f7 = 0x10 \/ f7 = 0x30 \/ f3 = 0 /\ f7 = 4 \/ f3 = 4 /\ f7 = 4 /\ rs2 = 0) \/
  op = 0x1b /\ (f3 = 1 /\ f6 = 2 \/ (f3 = 1 \/ f3 = 5) /\ f7 = 0x30) \/
  op = 0x13 /\ (f3 = 1 /\ (f6 = 0x18 \/ f6 = 0xa \/ f6 = 0x12 \/ f6 = 0x1a) \/
    f3 = 5 /\ (f12 = 0x287 \/ f12 = 0x6b8 \/ f6 = 0x18 \/ f6 = 0x12)).

Definition region_zbc (op f3 f7 : Z) : Prop := op = 0x33 /\ f7 = 5 /\ (f3 = 1 \/ f3 = 2 \/ f3 = 3).

Definition region_zkn (op f3 f7 f12 rs2 : Z) : Prop :=
  op = 0x33 /\ (f7 = 4 /\ (f3 = 4 \/ f3 = 7) \/ f7 = 0x14 /\ (f3 = 2 \/ f3 = 4) \/
    f3 = 0 /\ (f7 = 0x1d \/ f7 = 0x1f \/ f7 = 0x3f \/ f7 = 0x19 \/ f7 = 0x1b)) \/
  op = 0x3b /\ f3 = 4 /\ f7 = 4 /\ rs2 <> 0 \/
  op = 0x13 /\ (f3 = 5 /\ f12 = 0x687 \/ f3 = 1 /\ (f12 = 0x300 \/ f7 = 0x18 \/ f7 = 8)).

Definition region_zicond (op f7 : Z) : Prop := op = 0x33 /\ f7 = 7.

Section regions.
Context {R : Type} `{RegisterLaws R} `{!ZcmpRegister R}.

(** The tests that led to a result, each evaluated where its field is known. *)
Ltac known a := lazymatch a with Zpos _ => idtac | Z0 => idtac end.
Ltac region Hd :=
  cbv zeta in Hd;
  repeat match type of Hd with
  | context [?a =? ?b] =>
      known a; let t := eval compute in (a =? b) in change (a =? b) with t in Hd; cbn [andb orb negb] in Hd
  | context [?a =? ?b] =>
      let E := fresh "E" in
      destruct (Z.eqb_spec a b) as [E|E]; [try rewrite E in Hd|]; cbn [andb orb negb] in Hd;
      try discriminate Hd
  end;
  registers Hd; try discriminate Hd; clear Hd;
  unfold region_i, region_m, region_b, region_zbc, region_zkn, region_zicond; tauto.

Lemma m_region w i : try_decode_m (R := R) w = Some i -> region_m (opcode_of w) (funct7_of w).
Proof. intros Hd. unfold try_decode_m, decode_m, decode_mw in Hd. region Hd. Qed.

Lemma zbc_region w i : try_decode_zbc (R := R) w = Some i -> region_zbc (opcode_of w) (funct3_of w) (funct7_of w).
Proof. intros Hd. unfold try_decode_zbc in Hd. region Hd. Qed.

Lemma zicond_region w i : try_decode_zicond (R := R) w = Some i -> region_zicond (opcode_of w) (funct7_of w).
Proof. intros Hd. unfold try_decode_zicond in Hd. region Hd. Qed.

Lemma zba_region w i :
  try_decode_zba (R := R) w = Some i ->
  region_b (opcode_of w) (funct3_of w) (funct7_of w) (funct6_of w) (funct12_of w) (rs2_bits_of w).
Proof. intros Hd. unfold try_decode_zba, decode_zba_op, decode_zba_op_32 in Hd. region Hd. Qed.

Lemma zbb_region w i :
  try_decode_zbb (R := R) w = Some i ->
  region_b (opcode_of w) (funct3_of w) (funct7_of w) (funct6_of w) (funct12_of w) (rs2_bits_of w).
Proof.
  intros Hd. unfold try_decode_zbb, decode_zbb_op_imm, decode_zbb_op, decode_zbb_op_imm_32, decode_zbb_op_32 in Hd.
  region Hd.
Qed.

Lemma zbs_region w i :
  try_decode_zbs (R := R) w = Some i ->
  region_b (opcode_of w) (funct3_of w) (funct7_of w) (funct6_of w) (funct12_of w) (rs2_bits_of w).
Proof. intros Hd. unfold try_decode_zbs, decode_zbs_op, decode_zbs_op_imm in Hd. region Hd. Qed.

Lemma b_region w i :
  try_decode_b (R := R) w = Some i ->
  region_b (opcode_of w) (funct3_of w) (funct7_of w) (funct6_of w) (funct12_of w) (rs2_bits_of w).
Proof.
  intros Hd. unfold try_decode_b in Hd. destruct (try_decode_zba w) eqn:E; [by eapply zba_region|].
  destruct (try_decode_zbb w) eqn:E'; [by eapply zbb_region|].
  destruct (try_decode_zbs w) eqn:E''; [by eapply zbs_region|done].
Qed.

Lemma high_bits w : 0 <= w < 2 ^ 32 -> Z.shiftr w 20 = funct12_of w /\ Z.shiftr (funct12_of w) 5 = funct7_of w.
Proof.
  intros Hw. destruct (wide_fields w Hw) as (_ & _ & ->). rewrite rs2_bits_mod, funct7_mod, !Z.shiftr_div_pow2 by lia.
  change (2 ^ 20) with 1048576. change (2 ^ 5) with 32. change (2 ^ 32) with 4294967296 in Hw.
  split; Z.to_euclidean_division_equations; lia.
Qed.

Lemma zkn_region w i :
  0 <= w < 2 ^ 32 -> try_decode_zkn (R := R) w = Some i ->
  region_zkn (opcode_of w) (funct3_of w) (funct7_of w) (funct12_of w) (rs2_bits_of w).
Proof.
  intros Hw Hd. destruct (high_bits w Hw) as [E12 E5]. clear Hw. unfold try_decode_zkn in Hd.
  destruct (try_decode_zbkb w) eqn:E; [unfold try_decode_zbkb in E; region E|clear E].
  destruct (try_decode_zbkx w) eqn:E; [unfold try_decode_zbkx in E; region E|clear E].
  destruct (try_decode_zknd w) eqn:E.
  { unfold try_decode_zknd in E. rewrite E12, E5 in E. region E. }
  clear E. destruct (try_decode_zkne w) eqn:E; [unfold try_decode_zkne in E; region E|clear E].
  destruct (try_decode_zknh w) eqn:E; [unfold try_decode_zknh in E; region E|done].
Qed.

Lemma base_region w i :
  decode_without_ecall (R := R) w = Some i ->
  region_i (opcode_of w) (funct3_of w) (funct7_of w) (funct6_of w).
Proof.
  intros Hd. unfold decode_without_ecall in Hd. destruct (try_decode w) as [j|] eqn:E; [clear Hd|done].
  unfold try_decode in E. cbv zeta in E.
  destruct (Z.eqb_spec (opcode_of w) 0x33); [unfold decode_r in E; region E|].
  destruct (Z.eqb_spec (opcode_of w) 0x3b); [unfold decode_rw in E; region E|].
  destruct (Z.eqb_spec (opcode_of w) 0x13).
  { unfold decode_i in E. fold (funct6_of w) in E. region E. }
  destruct (Z.eqb_spec (opcode_of w) 0x1b); [unfold decode_iw in E; region E|].
  by left.
Qed.

(** Halfwords, by quadrant, [funct3] and the bits below it. *)
Definition region_zca (q f3 f2 e f2b : Z) : Prop :=
  q = 0 /\ (f3 = 0 \/ f3 = 2 \/ f3 = 3 \/ f3 = 6 \/ f3 = 7) \/
  q = 1 /\ (f3 = 0 \/ f3 = 1 \/ f3 = 2 \/ f3 = 3 \/ f3 = 5 \/ f3 = 6 \/ f3 = 7 \/
    f3 = 4 /\ (f2 = 0 \/ f2 = 1 \/ f2 = 2 \/ e = 0 \/ f2b = 0 \/ f2b = 1)) \/
  q = 2 /\ (f3 = 0 \/ f3 = 2 \/ f3 = 3 \/ f3 = 4 \/ f3 = 6 \/ f3 = 7).

Definition region_zcb (q f3 f2 e f2b : Z) : Prop :=
  q = 0 /\ f3 = 4 \/ q = 1 /\ f3 = 4 /\ f2 = 3 /\ e <> 0 /\ (f2b = 3 \/ f2b = 2).

Definition region_zcmp (q f3 : Z) : Prop := q = 2 /\ f3 = 5.

Definition in_region_zca (inst : Z) : Prop :=
  region_zca (Z.land inst 3) (field inst 13 7) (field inst 10 3) (field inst 12 1) (field inst 5 3).
Definition in_region_zcb (inst : Z) : Prop :=
  region_zcb (Z.land inst 3) (field inst 13 7) (field inst 10 3) (field inst 12 1) (field inst 5 3).

Ltac half_region Hd :=
  unfold in_region_zca, in_region_zcb, region_zca, region_zcb, region_zcmp;
  cbv zeta in Hd;
  repeat match type of Hd with
  | (if ?c then _ else _) = _ =>
      match c with context [?a =? ?b] =>
        first [known a; let t := eval compute in (a =? b) in change (a =? b) with t in Hd; cbn [andb orb negb] in Hd
              |let E := fresh "E" in
               destruct (Z.eqb_spec a b) as [E|E]; cbn [andb orb negb] in Hd; try discriminate Hd]
      end
  end; try tauto.

Lemma zca_region w i : try_decode_zca (R := R) w = Some i -> in_region_zca (wrap 16 w).
Proof.
  unfold try_decode_zca. cbv zeta. set (inst := wrap 16 w). clearbody inst. intros Hd.
  destruct (Z.eqb_spec (Z.land inst 3) 0); [unfold decode_q0 in Hd; half_region Hd|].
  destruct (Z.eqb_spec (Z.land inst 3) 1).
  - unfold decode_q1 in Hd. half_region Hd. unfold decode_q1_alu in Hd. half_region Hd.
    registers Hd. half_region Hd.
  - destruct (Z.eqb_spec (Z.land inst 3) 2); [unfold decode_q2 in Hd; half_region Hd|done].
Qed.

Lemma zcb_region w i : try_decode_zcb (R := R) w = Some i -> in_region_zcb (wrap 16 w).
Proof.
  unfold try_decode_zcb. cbv zeta. set (inst := wrap 16 w). clearbody inst. intros Hd. half_region Hd.
  unfold decode_zcb_alu in Hd. half_region Hd.
Qed.

Lemma zcmp_region w i :
  try_decode_zcmp (R := R) w = Some i -> region_zcmp (Z.land (wrap 16 w) 3) (field (wrap 16 w) 13 7).
Proof. unfold try_decode_zcmp. cbv zeta. set (inst := wrap 16 w). clearbody inst. intros Hd. half_region Hd. Qed.

(** *** The order of the decoders does not matter *)

(** Which of the decoders accept a word. *)
Definition meanings (w : Z) : list (ContractInstruction R) :=
  option_list (CiZca <$> try_decode_zca w) ++ option_list (CiZcb <$> try_decode_zcb w) ++
  option_list (CiZcmp <$> try_decode_zcmp w) ++ option_list (CiI <$> decode_without_ecall w) ++
  option_list (CiM <$> try_decode_m w) ++ option_list (CiB <$> try_decode_b w) ++
  option_list (CiZbc <$> try_decode_zbc w) ++ option_list (CiZkn <$> try_decode_zkn w) ++
  option_list (CiZicond <$> try_decode_zicond w).

Lemma short_regions inst :
  ~ (in_region_zca inst /\ in_region_zcb inst) /\
  ~ (in_region_zca inst /\ region_zcmp (Z.land inst 3) (field inst 13 7)) /\
  ~ (in_region_zcb inst /\ region_zcmp (Z.land inst 3) (field inst 13 7)).
Proof.
  unfold in_region_zca, in_region_zcb, region_zca, region_zcb, region_zcmp.
  generalize (Z.land inst 3), (field inst 13 7), (field inst 10 3), (field inst 12 1), (field inst 5 3).
  intros. lia.
Qed.

Lemma long_regions op f3 f7 f6 f12 rs2 :
  f6 = f7 / 2 -> f12 = rs2 + 32 * f7 -> 0 <= rs2 < 32 ->
  ~ (region_i op f3 f7 f6 /\ region_m op f7) /\
  ~ (region_i op f3 f7 f6 /\ region_b op f3 f7 f6 f12 rs2) /\
  ~ (region_i op f3 f7 f6 /\ region_zbc op f3 f7) /\
  ~ (region_i op f3 f7 f6 /\ region_zkn op f3 f7 f12 rs2) /\
  ~ (region_i op f3 f7 f6 /\ region_zicond op f7) /\
  ~ (region_m op f7 /\ region_b op f3 f7 f6 f12 rs2) /\
  ~ (region_m op f7 /\ region_zbc op f3 f7) /\
  ~ (region_m op f7 /\ region_zkn op f3 f7 f12 rs2) /\
  ~ (region_m op f7 /\ region_zicond op f7) /\
  ~ (region_b op f3 f7 f6 f12 rs2 /\ region_zbc op f3 f7) /\
  ~ (region_b op f3 f7 f6 f12 rs2 /\ region_zkn op f3 f7 f12 rs2) /\
  ~ (region_b op f3 f7 f6 f12 rs2 /\ region_zicond op f7) /\
  ~ (region_zbc op f3 f7 /\ region_zkn op f3 f7 f12 rs2) /\
  ~ (region_zbc op f3 f7 /\ region_zicond op f7) /\
  ~ (region_zkn op f3 f7 f12 rs2 /\ region_zicond op f7).
Proof.
  intros H6 H12 Hrs2. unfold region_i, region_m, region_b, region_zbc, region_zkn, region_zicond.
  assert (Hf : 2 * f6 <= f7 < 2 * f6 + 2) by (subst; Z.to_euclidean_division_equations; lia). clear H6.
  split_and!; lia.
Qed.

Ltac meaning F :=
  let i := fresh "i" in
  match type of F with
  | forall i, ?d = Some i -> _ => destruct d as [i|]; [destruct (F i eq_refl) as [? ?]|]
  end; clear F.
Ltac impossible := try done; try (exfalso; (congruence || tauto)).

(** C32. No word has two meanings: of the decoders that the instruction type of contracts
    inherits at most one accepts a word, and what it gives is what the word decodes to, so
    the order in which they are tried does not matter and no extension hides an
    instruction of another. *)
Theorem contract_decode_unambiguous w :
  0 <= w < 2 ^ 32 -> meanings w = option_list (contract_decode w).
Proof.
  intros Hw. destruct (wide_fields w Hw) as (_ & H6 & H12). destruct (word_fields w Hw) as [[_ _ _ _ Hrs2 _] _].
  pose proof (short_regions (wrap 16 w)) as Hs. pose proof (long_regions (opcode_of w) (funct3_of w) _ _ _ _ H6 H12 Hrs2) as Hl.
  pose proof (fun i (E : try_decode_zca w = Some i) => conj (zca_region w i E) (zca_short w i E)) as F1.
  pose proof (fun i (E : try_decode_zcb w = Some i) => conj (zcb_region w i E) (zcb_short w i E)) as F2.
  pose proof (fun i (E : try_decode_zcmp w = Some i) => conj (zcmp_region w i E) (zcmp_short w i E)) as F3.
  pose proof (fun i (E : decode_without_ecall w = Some i) => conj (base_region w i E) (base_long w i E)) as F4.
  pose proof (fun i (E : try_decode_m w = Some i) => conj (m_region w i E) (m_long w i E)) as F5.
  pose proof (fun i (E : try_decode_b w = Some i) => conj (b_region w i E) (b_long w i E)) as F6.
  pose proof (fun i (E : try_decode_zbc w = Some i) => conj (zbc_region w i E) (zbc_long w i E)) as F7.
  pose proof (fun i (E : try_decode_zkn w = Some i) => conj (zkn_region w i Hw E) (zkn_long w i E)) as F8.
  pose proof (fun i (E : try_decode_zicond w = Some i) => conj (zicond_region w i E) (zicond_long w i E)) as F9.
  clear H6 H12 Hrs2 Hw. unfold meanings, contract_decode.
  meaning F1; meaning F2; impossible; meaning F3; impossible; meaning F4; impossible; meaning F5; impossible;
  meaning F6; impossible; meaning F7; impossible; meaning F8; impossible; meaning F9; impossible.
Qed.
End regions.

Lemma contract_decode_unambiguous_witness :
  meanings (R := ContractRegister) 0x02a50533 = [CiM (Mul CrA0 CrA0 CrA0)].
Proof. exact (contract_decode_unambiguous (R := ContractRegister) 0x02a50533 ltac:(lia)). Defined.

(** ** Only jumps change the program counter *)

Section jumps.
Context {R Regs Mem PC H : Type} `{Register R} `{!RegisterFile R Regs} `{!VirtualMemory Mem}
  `{!ProgramCounter PC Mem} `{!SystemInstructionHandler H Regs Mem PC}.

Abbreviation state := (machine Regs Mem PC H).
Abbreviation exec_result := (result (control_flow (R * Z)) execution_error).

Definition keeps_pc (s : state) (o : outcome (state * exec_result)) : Prop :=
  match o with Ret (s', _) => m_pc s' = m_pc s | Fault => True end.

Lemma continue_keeps s v : keeps_pc s (continue_with s v).
Proof. by destruct v. Qed.

Lemma bind_keeps {A} s (m : outcome A) k : (forall x, keeps_pc s (k x)) -> keeps_pc s (obind m k).
Proof. intros Hk. destruct m; [apply Hk|done]. Qed.

Lemma load_keeps s rd n extend addr : keeps_pc s (load s rd n extend addr).
Proof. by apply bind_keeps. Qed.

Lemma store_keeps s n addr v : keeps_pc s (store s n addr v).
Proof. apply bind_keeps. by intros [m|e]. Qed.

Lemma ebreak_keeps s : keeps_pc s (execute_ebreak s).
Proof. unfold execute_ebreak. by destruct (handle_ebreak _ _ _ _) as [[h r] m]. Qed.

Lemma with_read_keeps s (r : R) k : keeps_pc s (with_read s r k).
Proof. apply bind_keeps. intros v. apply continue_keeps. Qed.

Lemma pop_keeps (s : state) u adj s' r : do_pop (R := R) s u adj = Ret (s', r) -> m_pc s' = m_pc s.
Proof.
  unfold do_pop. destruct (reg_read _ _) as [sp|]; [|done]. cbn [obind].
  destruct (pop_loop _ _ _ _) as [[regs [x|e]]|]; [|by intros [= <- _]|done]. cbn [obind].
  destruct (reg_write _ _ _); [|done]. cbn [obind]. destruct (reg_read _ _); [|done]. by intros [= <- _].
Qed.

Ltac keeps :=
  first [apply continue_keeps|apply load_keeps|apply store_keeps|apply with_read_keeps|apply ebreak_keeps
        |done|apply bind_keeps; intros; keeps].

Lemma zca_keeps (s : state) i a b : is_jump (R := R) (CiZca i) = false -> keeps_pc s (execute_zca i a b s).
Proof.
  intros Hj. unfold execute_zca.
  destruct i; cbn [is_jump execute_q0 execute_q1 execute_q2] in *; try discriminate Hj; keeps.
Qed.

Lemma zcmp_keeps (s : state) i a b : is_jump (R := R) (CiZcmp i) = false -> keeps_pc s (execute_zcmp i a b s).
Proof.
  intros Hj. destruct i; cbn [is_jump execute_zcmp] in *; try discriminate Hj.
  - apply bind_keeps. intros sp. apply bind_keeps. by intros [m r].
  - destruct (do_pop s urlist stack_adj) as [[s' r]|] eqn:E; [|done]. cbn. by eapply pop_keeps.
  - keeps.
  - keeps.
Qed.

Lemma base_keeps (s : state) i a b :
  is_jump (R := R) (CiI i) = false -> i <> Ecall -> keeps_pc s (execute i a b s).
Proof.
  intros Hj He. unfold execute.
  destruct i; cbn [is_jump execute_r execute_rw execute_i execute_load execute_store execute_branch execute_other] in *;
    try discriminate Hj; try done; keeps.
Qed.

(** Only the instructions that [is_jump] names change the program counter: executing any
    other instruction of a contract leaves it at the next instruction, also where it fails. *)
Theorem only_jumps_jump (i : ContractInstruction R) a b (s s' : state) r :
  is_jump i = false -> (forall j, i = CiI j -> j <> Ecall) ->
  contract_execute i a b s = Ret (s', r) -> m_pc s' = m_pc s.
Proof.
  intros Hj He Hx. assert (Hk : keeps_pc s (contract_execute i a b s)).
  { destruct i as [i|i|i|i|i|i|i|i|i]; cbn [contract_execute].
    - by apply zca_keeps.
    - destruct i; cbn [execute_zcb]; keeps.
    - by apply zcmp_keeps.
    - apply base_keeps; [done|by apply He].
    - keeps.
    - keeps.
    - keeps.
    - keeps.
    - keeps. }
  by rewrite Hx in Hk.
Qed.
End jumps.

Lemma only_jumps_jump_witness :
  m_pc (with_regs sample_contract_state (m_regs sample_contract_state)) = m_pc sample_contract_state.
Proof.
  apply (only_jumps_jump (R := ContractRegister) (CiM (Mul CrA0 CrA0 CrA0)) 3 4 sample_contract_state _
    (Ok (Continue (CrA0, 12)))); [reflexivity|discriminate|reflexivity].
Defined.

(** C39. Decoding is typed: whatever the decoder of contracts accepts is well formed (each
    immediate fits its field, each register list its encoding), is no environment call, and has
    the size that the low bits of the word announce, which is a multiple of the alignment. *)
Theorem contract_decode_typed {R} `{RegisterLaws R} `{!ZcmpRegister R} `{!ZcmpRegisterLaws R} w
    (i : ContractInstruction R) :
  0 <= w < 2 ^ 32 -> contract_decode w = Some i ->
  contract_wf i /\ i <> CiI Ecall /\ contract_size i = (if is_long w then 4 else 2) /\
  contract_size i mod contract_alignment = 0.
Proof.
  intros Hw Hd. pose proof (contract_decode_wf w i Hw Hd) as Hwf.
  pose proof (contract_decode_size w i Hd) as Hs. split_and!; [done| |done|].
  - intros ->. by destruct Hwf.
  - rewrite Hs. by destruct (is_long w).
Qed.

Lemma contract_decode_typed_witness :
  contract_wf (CiM (Mul CrA0 CrA0 CrA0)) /\ CiM (Mul CrA0 CrA0 CrA0) <> CiI Ecall /\
  contract_size (CiM (Mul CrA0 CrA0 CrA0)) = 4 /\
  contract_size (CiM (Mul CrA0 CrA0 CrA0)) mod contract_alignment = 0.
Proof. apply (contract_decode_typed (R := ContractRegister) 0x02a50533); [lia|reflexivity]. Defined.

End RvContract.
