(* ===== verification/ContractFile.v ===== *)
(** * Contract files

    Model of [crates/contracts/core/ab-contract-file/src/lib.rs]: the format in which contracts
    are stored, its parser, which checks the header, the table of methods against the metadata
    of the contract and the instructions of its code, and what is read from a parsed file: its
    metadata, its code, the memory of the contract and its methods.

    Integers are [N]; arithmetic on [u32] and [usize] that overflows is [Fault], as are unchecked
    accesses out of bounds.  The callback of the parser is a function that changes a state of
    the caller and may fail.  Messages to the log are not modelled.

    The theorems: what the parser accepts satisfies what the unchecked accesses rely on; what it
    is meant to accept it accepts, and beyond that only code whose last jump is cut off; the
    memory that is initialized holds the sections of the file; and from every instruction that
    the parser has seen, execution goes on to the next one it has seen, or jumps. *)
From S2P Require Import Prelude Slices NativeExecutor WalletPayload IoMetadata ContractMetadata.
From S2P Require Import RvInt RvRegisters RvMemory Rv64Decode Rv64Encoding Rv64Exec RvInterp.
From S2P Require Import Rv64Bits RvZca RvZcaEncoding RvZcmp Rv64Zkn RvContract.
From stdpp Require Import prelude.
From Stdlib Require Import NArith ZArith Lia.
From Stdlib Require Import Strings.Byte.

Module ContractFile.
Import RvRegisters.RvRegisters RvMemory.RvMemory Rv64Exec.Rv64Exec RvInterp.RvInterp.
Import IoMetadata.IoMetadata ContractMetadata.ContractMetadata.
Import RvContract.RvContract.
Local Open Scope rust_scope.
Local Open Scope N_scope.

Abbreviation instruction := (ContractInstruction ContractRegister).

(** ** Data *)

(** [CONTRACT_FILE_MAGIC] *)
Definition CONTRACT_FILE_MAGIC : list byte := [x41; x42; x43; x30].

Record ContractFileHeader : Type := {
  magic : list byte;
  header_read_only_section_file_size : N;
  header_read_only_section_memory_size : N;
  metadata_offset : N;
  metadata_size : N;
  header_num_methods : N;
  host_call_fn_offset : N
}.

Definition HEADER_SIZE : N := 24.

Record ContractFileMethodMetadata : Type := { offset : N; size : N }.

Definition METHOD_METADATA_SIZE : N := 8.

Record ContractFileMethod : Type := {
  address : N;
  method_metadata_item : MethodMetadataItem;
  method_metadata_bytes : list byte
}.

Inductive ContractFileParseError : Type :=
| FileTooLarge (file_size : N)
| NoHeader
| WrongMagicBytes
| MetadataOutOfRange (offset size file_size : N)
| MetadataDecoding
| FileTooSmall (num_methods read_only_section_size file_size : N)
| MethodUnaligned (file_offset memory_address : N)
| MethodOutOfRange (offset code_section_offset file_size : N)
| HostCallFnUnaligned (file_offset memory_address : N)
| HostCallFnOutOfRange (offset code_section_offset file_size : N)
| InvalidHostCallFnPattern (i : instruction)
| InvalidReadOnlySizes (file_size memory_size : N)
| InsufficientHeaderMethods (num_methods metadata_method_index : N)
| MetadataNumMethodsMismatch (num_methods metadata_num_methods : N)
| InvalidInstruction (word : Z)
| CodeEmpty
| UnexpectedTrailingCodeBytes (num_bytes : N)
| LastInstructionMustBeJump (i : instruction).

Record ContractFile : Type := {
  read_only_section_file_size : N;
  read_only_section_memory_size : N;
  num_methods : N;
  bytes : list byte
}.

(** ** Machine integers and slices *)

Definition usize (l : list byte) : N := N.of_nat (length l).

Definition add_u16 (a b : N) : outcome N := if a + b <? 2 ^ 16 then Ret (a + b) else Fault.
Definition sub (a b : N) : outcome N := if b <=? a then Ret (a - b) else Fault.
Definition saturating_add_u32 (a b : N) : N := N.min (a + b) (2 ^ 32 - 1).

(** [bytes.get_unchecked(n..)] and [bytes.get_unchecked(..n)] *)
Definition get_unchecked_from (n : N) (l : list byte) : outcome (list byte) :=
  if n <=? usize l then Ret (drop (N.to_nat n) l) else Fault.
Definition get_unchecked_to (n : N) (l : list byte) : outcome (list byte) :=
  if n <=? usize l then Ret (take (N.to_nat n) l) else Fault.

(** A field of a [repr(C)] struct *)
Definition field (off len : nat) (l : list byte) : N := le_value (take len (drop off l)).

(** [ContractFileHeader::read_unaligned_unchecked] *)
Definition read_header (l : list byte) : outcome ContractFileHeader :=
  if HEADER_SIZE <=? usize l then
    Ret {| magic := take 4 l;
           header_read_only_section_file_size := field 4 4 l;
           header_read_only_section_memory_size := field 8 4 l;
           metadata_offset := field 12 4 l;
           metadata_size := field 16 2 l;
           header_num_methods := field 18 2 l;
           host_call_fn_offset := field 20 4 l |}
  else Fault.

(** [ContractFileMethodMetadata::read_unaligned_unchecked] *)
Definition read_method_metadata (l : list byte) : outcome ContractFileMethodMetadata :=
  if METHOD_METADATA_SIZE <=? usize l
  then Ret {| offset := field 0 4 l; size := field 4 4 l |} else Fault.

(** [Unaligned::<u32>::from_bytes], and likewise for [u16] *)
Definition unaligned_from_bytes (width : nat) (l : list byte) : option Z :=
  if decide (width <= length l)%nat then Some (Z.of_N (le_value (take width l))) else None.

(** ** Parsing *)

Section parse.
Context {St : Type} (contract_method : ContractFileMethod -> St -> St * result unit ContractFileParseError).

Section header.
Variable h : ContractFileHeader.
Variable file_size : N.

Definition read_only_section_offset : N := HEADER_SIZE + header_num_methods h * METHOD_METADATA_SIZE.
Definition code_section_offset : N :=
  saturating_add_u32 read_only_section_offset (header_read_only_section_file_size h).
Definition read_only_padding_size : N :=
  header_read_only_section_memory_size h - header_read_only_section_file_size h.

Definition file_too_small : ContractFileParseError :=
  FileTooSmall (header_num_methods h) (header_read_only_section_file_size h) file_size.

(** [contract_file_methods_metadata_iter], before [take] *)
Definition next_method_metadata (table : list byte)
    : outcome (result (ContractFileMethodMetadata * list byte) ContractFileParseError) :=
  match split_at_checked (N.to_nat METHOD_METADATA_SIZE) table with
  | None => Ret (Err file_too_small)
  | Some (entry, table) =>
      let! m := read_method_metadata entry in
      let! end_offset := add_u32 (offset m) (size m) in
      if file_size <? end_offset then Ret (Err file_too_small)
      else if offset m <? code_section_offset
      then Ret (Err (MethodOutOfRange (offset m) code_section_offset file_size))
      else Ret (Ok (m, table))
  end.

(** [contract_file_method_metadata.offset - read_only_section_offset + read_only_padding_size] *)
Definition memory_address (file_offset : N) : outcome N :=
  let! a := sub file_offset read_only_section_offset in add_u32 a read_only_padding_size.

(** What the loop over the metadata changes: the metadata that is left to decode, and to give to
    the callback, the number of methods found, and what is left of the table of methods *)
Record walk : Type := Walk {
  to_decode : list byte;
  remaining_metadata_bytes : list byte;
  metadata_num_methods : N;
  table_left : nat;
  table : list byte
}.

(** The body of the inner loop; also returns the metadata that is left where it fails.  The
    decoder of arguments is dropped right away. *)
Definition parse_method (container : MethodsContainerKind) (w : walk) (st : St)
    : outcome (St * list byte * result walk ContractFileParseError) :=
  let before_remaining_bytes := usize (to_decode w) in
  let! (rest, r) := method_decode_next container (to_decode w) in
  match r with
  | Err _ => Ret (st, rest, Err MetadataDecoding)
  | Ok (arguments, item) =>
      let! rest := drop_arguments arguments rest in
      let fail e := Ret (st, rest, Err e) in
      let! n := add_u16 (metadata_num_methods w) 1 in
      let! len := sub before_remaining_bytes (usize rest) in
      match split_at_checked (N.to_nat len) (remaining_metadata_bytes w) with
      | None => fail MetadataDecoding
      | Some (method_bytes, remaining) =>
          match table_left w with
          | O => fail (InsufficientHeaderMethods (header_num_methods h) (n - 1))
          | S table_left =>
              let! entry := next_method_metadata (table w) in
              match entry with
              | Err e => fail e
              | Ok (m, table) =>
                  let! a := memory_address (offset m) in
                  if negb (a mod 2 =? 0) then fail (MethodUnaligned (offset m) a)
                  else
                    match contract_method {| address := a; method_metadata_item := item; method_metadata_bytes := method_bytes |} st with
                    | (st, Err e) => Ret (st, rest, Err e)
                    | (st, Ok _) => Ret (st, rest, Ok (Walk rest remaining n table_left table))
                    end
              end
          end
      end
  end.

(** The inner loop; where it returns early, the decoder of methods is dropped. *)
Fixpoint parse_methods (container : MethodsContainerKind) (remaining : nat) (w : walk) (st : St)
    : outcome (St * result walk ContractFileParseError) :=
  match remaining with
  | O => Ret (st, Ok w)
  | S remaining =>
      let! (st, rest, r) := parse_method container w st in
      match r with
      | Ok w => parse_methods container remaining w st
      | Err e => let! _ := drop_methods_loop container remaining rest in Ret (st, Err e)
      end
  end.

(** The outer loop *)
Fixpoint parse_items (fuel : nat) (d : MetadataDecoder) (w : walk) (st : St)
    : outcome (St * result walk ContractFileParseError) :=
  match fuel with
  | O => Fault
  | S fuel =>
      let! (d, next) := metadata_decode_next d in
      match next with
      | None => Ret (st, Ok w)
      | Some (Err _) => Ret (st, Err MetadataDecoding)
      | Some (Ok item) =>
          let decoder := into_decoder item in
          let! (st, r) :=
            parse_methods (methods_container_kind decoder) (methods_remaining decoder)
              (Walk (metadata d) (remaining_metadata_bytes w) (metadata_num_methods w) (table_left w) (table w)) st in
          match r with
          | Err e => Ret (st, Err e)
          | Ok w =>
              parse_items fuel
                {| metadata := to_decode w; found_contract := found_contract d; found_something := found_something d |} w st
          end
      end
  end.

(** The instruction is an unconditional relative jump: [jal x0, offset]. *)
Definition matches_expected_pattern (i : instruction) : bool :=
  match i with
  | CiI (Rv64Decode.Rv64.Jal rd _) => bool_decide (rd = CrZero)
  | CiZca (RvZca.RvZca.CJ _) => true
  | _ => false
  end.

(** The check of the host call function *)
Definition parse_host_call (file_bytes : list byte) : outcome (result unit ContractFileParseError) :=
  let offset := host_call_fn_offset h in
  let out_of_range := HostCallFnOutOfRange offset code_section_offset file_size in
  if offset =? 0 then Ret (Ok tt)
  else if (file_size <=? offset) || (offset <? code_section_offset) then Ret (Err out_of_range)
  else
    match get_from (N.to_nat offset) file_bytes with
    | None => Ret (Err out_of_range)
    | Some instruction_bytes =>
        match
          match unaligned_from_bytes 4 instruction_bytes with
          | Some w => Some w
          | None => unaligned_from_bytes 2 instruction_bytes
          end
        with
        | None => Ret (Err out_of_range)
        | Some word =>
            match contract_decode word with
            | None => Ret (Err (InvalidInstruction word))
            | Some i =>
                if matches_expected_pattern i then
                  let! a := memory_address offset in
                  if negb (a mod 2 =? 0) then Ret (Err (HostCallFnUnaligned offset a)) else Ret (Ok tt)
                else Ret (Err (InvalidHostCallFnPattern i))
            end
        end
    end.
End header.

(** The word at the start of what remains of the code *)
Definition instruction_word (remaining : list byte) : option Z :=
  if decide (4 <= length remaining)%nat then Some (Z.of_N (le_value (take 4 remaining)))
  else if decide (2 <= length remaining)%nat then Some (Z.of_N (le_value (take 2 remaining)))
  else None.

(** The loop over the code *)
Fixpoint scan_code (fuel : nat) (file_bytes : list byte) (offset : nat) (last : instruction)
    : outcome (result instruction ContractFileParseError) :=
  if decide (offset < length file_bytes)%nat then
    match fuel with
    | O => Fault
    | S fuel =>
        let remaining := drop offset file_bytes in
        match instruction_word remaining with
        | None => Ret (Err (UnexpectedTrailingCodeBytes (usize remaining)))
        | Some word =>
            match contract_decode word with
            | None => Ret (Err (InvalidInstruction word))
            | Some i => scan_code fuel file_bytes (offset + Z.to_nat (contract_size i)) i
            end
        end
    end
  else Ret (Ok last).

Definition parse_code (file_bytes : list byte) (code_section_offset : N)
    : outcome (result unit ContractFileParseError) :=
  let! r := scan_code (S (length file_bytes)) file_bytes (N.to_nat code_section_offset) (CiI Rv64Decode.Rv64.Unimp) in
  Ret (match r with
       | Err e => Err e
       | Ok i => if is_jump i then Ok tt else Err (LastInstructionMustBeJump i)
       end).

(** [ContractFile::parse] *)
Definition parse (file_bytes : list byte) (st : St) : outcome (St * result ContractFile ContractFileParseError) :=
  let file_size := usize file_bytes in
  let fail st e := Ret (st, Err e) in
  if 2 ^ 32 <=? file_size then fail st (FileTooLarge file_size)
  else
  match split_at_checked (N.to_nat HEADER_SIZE) file_bytes with
  | None => fail st NoHeader
  | Some (header_bytes, after_header_bytes) =>
      let! h := read_header header_bytes in
      if negb (bool_decide (magic h = CONTRACT_FILE_MAGIC)) then fail st WrongMagicBytes
      else if header_read_only_section_memory_size h <? header_read_only_section_file_size h
      then fail st (InvalidReadOnlySizes (header_read_only_section_file_size h) (header_read_only_section_memory_size h))
      else
      match
        match get_from (N.to_nat (metadata_offset h)) file_bytes with
        | Some l => fst <$> split_at_checked (N.to_nat (metadata_size h)) l
        | None => None
        end
      with
      | None => fail st (MetadataOutOfRange (metadata_offset h) (metadata_size h) file_size)
      | Some metadata_bytes =>
          let! (st, r) :=
            parse_items h file_size (S (length metadata_bytes)) (new_decoder metadata_bytes)
              (Walk metadata_bytes metadata_bytes 0 (N.to_nat (header_num_methods h)) after_header_bytes) st in
          match r with
          | Err e => fail st e
          | Ok w =>
              if negb (metadata_num_methods w =? header_num_methods h)
              then fail st (MetadataNumMethodsMismatch (header_num_methods h) (metadata_num_methods w))
              else if file_size <=? code_section_offset h then fail st (file_too_small h file_size)
              else
                let! r := parse_host_call h file_size file_bytes in
                match r with
                | Err e => fail st e
                | Ok _ =>
                    let! r := parse_code file_bytes (code_section_offset h) in
                    match r with
                    | Err e => fail st e
                    | Ok _ =>
                        Ret (st, Ok {| read_only_section_file_size := header_read_only_section_file_size h;
                                       read_only_section_memory_size := header_read_only_section_memory_size h;
                                       num_methods := header_num_methods h;
                                       bytes := file_bytes |})
                    end
                end
          end
      end
  end.
End parse.

(** [ContractFile::parse_unchecked] *)
Definition parse_unchecked (file_bytes : list byte) : outcome ContractFile :=
  let! h := read_header file_bytes in
  Ret {| read_only_section_file_size := header_read_only_section_file_size h;
         read_only_section_memory_size := header_read_only_section_memory_size h;
         num_methods := header_num_methods h;
         bytes := file_bytes |}.

(** ** Reading a parsed file *)

(** [ContractFile::header] *)
Definition header (f : ContractFile) : outcome ContractFileHeader := read_header (bytes f).

(** [ContractFile::metadata_bytes] *)
Definition metadata_bytes (f : ContractFile) : outcome (list byte) :=
  let! h := header f in
  let! l := get_unchecked_from (metadata_offset h) (bytes f) in
  get_unchecked_to (metadata_size h) l.

Definition file_read_only_section_offset (f : ContractFile) : N := HEADER_SIZE + num_methods f * METHOD_METADATA_SIZE.

(** [ContractFile::contract_memory_size] *)
Definition contract_memory_size (f : ContractFile) : outcome N :=
  let! padding := sub (read_only_section_memory_size f) (read_only_section_file_size f) in
  let! size := sub (usize (bytes f) mod 2 ^ 32) (file_read_only_section_offset f) in
  add_u32 size padding.

(** [source_bytes] *)
Definition source_bytes (f : ContractFile) : outcome (list byte) :=
  get_unchecked_from (file_read_only_section_offset f) (bytes f).

(** Memory of which some may not be initialized, and [write_copy_of_slice] *)
Abbreviation memory := (list (option byte)).

Definition write_copy_of_slice (target : memory) (source : list byte) : outcome memory :=
  if decide (length target = length source) then Ret (Some <$> source) else Fault.

(** [memory.split_off_mut(..n)] *)
Definition split_off_mut (n : N) (m : memory) : option (memory * memory) :=
  if n <=? N.of_nat (length m) then Some (take (N.to_nat n) m, drop (N.to_nat n) m) else None.

(** [source_bytes.split_at_unchecked(n)] *)
Definition split_at_unchecked (n : N) (l : list byte) : outcome (list byte * list byte) :=
  if n <=? usize l then Ret (take (N.to_nat n) l, drop (N.to_nat n) l) else Fault.

(** [ContractFile::initialize_contract_memory] *)
Definition initialize_contract_memory (f : ContractFile) (contract_memory : memory) : outcome (memory * bool) :=
  let! padding := sub (read_only_section_memory_size f) (read_only_section_file_size f) in
  let! source := source_bytes f in
  if decide (length contract_memory = length source) then
    let! m := write_copy_of_slice contract_memory source in Ret (m, true)
  else
    match split_off_mut (read_only_section_file_size f) contract_memory with
    | None => Ret (contract_memory, false)
    | Some (read_only_target, contract_memory) =>
        let! (read_only_source, code_source) := split_at_unchecked (read_only_section_file_size f) source in
        let! read_only := write_copy_of_slice read_only_target read_only_source in
        match split_off_mut padding contract_memory with
        | None => Ret (read_only ++ contract_memory, false)
        | Some (padding_bytes, contract_memory) =>
            let padding_bytes := replicate (length padding_bytes) (Some x00) in
            if decide (length code_source = length contract_memory) then
              let! code := write_copy_of_slice contract_memory code_source in
              Ret (read_only ++ padding_bytes ++ code, true)
            else Ret (read_only ++ padding_bytes ++ contract_memory, false)
        end
    end.

(** [ContractFile::get_code] *)
Definition get_code (f : ContractFile) : outcome (list byte) :=
  let! source := source_bytes f in
  let! (_, code) := split_at_unchecked (read_only_section_file_size f) source in
  Ret code.

(** ** Iteration over methods *)

(** [MethodsMetadataIterState]: the decoder of the metadata and that of the methods of the
    current contract or trait, which share what is left of the metadata *)
Record MethodsMetadataIterState : Type := {
  metadata_decoder : MetadataDecoder;
  methods_metadata_decoder : option MethodsMetadataDecoder
}.

(** [MethodsMetadataIterState::new] as it is called *)
Definition next_methods_decoder (d : MetadataDecoder) : outcome MethodsMetadataIterState :=
  let! (d, next) := metadata_decode_next d in
  Ret {| metadata_decoder := d;
         methods_metadata_decoder := match next with Some (Ok item) => Some (into_decoder item) | _ => None end |}.

(** The closure that gives the next method of the current contract or trait *)
Definition next_in_container (metadata_bytes : list byte) (s : MethodsMetadataIterState)
    : outcome (MethodsMetadataIterState * option (MethodMetadataItem * list byte)) :=
  match methods_metadata_decoder s with
  | None => Ret (s, None)
  | Some d =>
      match methods_decode_next d with
      | None => Ret (s, None)
      | Some (d, container) =>
          let left := metadata (metadata_decoder s) in
          let! (rest, r) := method_decode_next container left in
          match r with
          | Err _ => Fault
          | Ok (arguments, item) =>
              let! rest := drop_arguments arguments rest in
              let! start := sub (usize metadata_bytes) (usize left) in
              let! l := get_unchecked_from start metadata_bytes in
              let! len := sub (usize left) (usize rest) in
              let! l := get_unchecked_to len l in
              Ret ({| metadata_decoder := {| metadata := rest; found_contract := found_contract (metadata_decoder s);
                                             found_something := found_something (metadata_decoder s) |};
                      methods_metadata_decoder := Some d |}, Some (item, l))
          end
      end
  end.

(** [metadata_methods_iter] *)
Fixpoint next_method (fuel : nat) (metadata_bytes : list byte) (s : MethodsMetadataIterState)
    : outcome (MethodsMetadataIterState * option (MethodMetadataItem * list byte)) :=
  match fuel with
  | O => Fault
  | S fuel =>
      let! (s, next) := next_in_container metadata_bytes s in
      match next with
      | Some m => Ret (s, Some m)
      | None =>
          let! s := next_methods_decoder (metadata_decoder s) in
          match methods_metadata_decoder s with
          | None => Ret (s, None)
          | Some _ => next_method fuel metadata_bytes s
          end
      end
  end.

(** The items of the iterator, from [method_index] on *)
Fixpoint iterate_from (metadata_bytes : list byte) (padding : N) (table : list byte)
    (remaining : nat) (method_index : N) (s : MethodsMetadataIterState) : outcome (list ContractFileMethod) :=
  match remaining with
  | O => Ret []
  | S remaining =>
      let! l := get_unchecked_from (method_index * METHOD_METADATA_SIZE) table in
      let! l := get_unchecked_to METHOD_METADATA_SIZE l in
      let! m := read_method_metadata l in
      let! (s, next) := next_method (S (length metadata_bytes)) metadata_bytes s in
      match next with
      | None => Fault
      | Some (item, method_bytes) =>
          let! a := add_u32 (offset m) padding in
          let! rest := iterate_from metadata_bytes padding table remaining (method_index + 1) s in
          Ret ({| address := a; method_metadata_item := item; method_metadata_bytes := method_bytes |} :: rest)
      end
  end.

(** [ContractFile::iterate_methods], run to its end *)
Definition iterate_methods (f : ContractFile) : outcome (list ContractFileMethod) :=
  let! l := metadata_bytes f in
  let! s := next_methods_decoder (new_decoder l) in
  let! padding := sub (read_only_section_memory_size f) (read_only_section_file_size f) in
  let! table := get_unchecked_from HEADER_SIZE (bytes f) in
  iterate_from l padding table (N.to_nat (num_methods f)) 0 s.

(** ** What the parser accepts *)

Definition print_entry (m : ContractFileMethodMetadata) : list byte := le_split 4 (offset m) ++ le_split 4 (size m).

(** The method is in the code section, and at an even address of the memory *)
Definition entry_ok (h : ContractFileHeader) (file_size : N) (m : ContractFileMethodMetadata) : Prop :=
  code_section_offset h <= offset m /\ offset m + size m <= file_size /\
  exists a, memory_address h (offset m) = Ret a /\ a mod 2 = 0.

(** The instructions that the bytes are read as, of which the last may be cut off *)
Inductive instructions_of : list byte -> list instruction -> Prop :=
| last_instruction l w i :
    instruction_word l = Some w -> contract_decode w = Some i -> (length l <= Z.to_nat (contract_size i))%nat ->
    instructions_of l [i]
| next_instruction l w i tail :
    instruction_word l = Some w -> contract_decode w = Some i -> (Z.to_nat (contract_size i) < length l)%nat ->
    instructions_of (drop (Z.to_nat (contract_size i)) l) tail -> instructions_of l (i :: tail).

Definition code_size (ins : list instruction) : nat := list_sum ((fun i => Z.to_nat (contract_size i)) <$> ins).

(** What the documentation asks for: instructions, all of them complete, the last of which is a jump *)
Definition ends_with_jump (code : list byte) : Prop :=
  exists init i, instructions_of code (init ++ [i]) /\ is_jump i = true /\ code_size (init ++ [i]) = length code.

(** What is accepted as well: the last two or three bytes are the start of a jump of four. *)
Definition ends_with_cut_jump (code : list byte) : Prop :=
  exists init i, instructions_of code (init ++ [i]) /\ is_jump i = true /\ contract_size i = 4%Z /\
    (code_size init + 2 <= length code < code_size init + 4)%nat.

Definition code_ok (code : list byte) : Prop := ends_with_jump code \/ ends_with_cut_jump code.

(** The host call function is an unconditional jump that does not store the return address. *)
Definition host_call_ok (h : ContractFileHeader) (file_bytes : list byte) : Prop :=
  host_call_fn_offset h = 0 \/
  code_section_offset h <= host_call_fn_offset h < usize file_bytes /\
  (exists a, memory_address h (host_call_fn_offset h) = Ret a /\ a mod 2 = 0) /\
  exists w, instruction_word (drop (N.to_nat (host_call_fn_offset h)) file_bytes) = Some w /\
    ((exists imm, contract_decode w = Some (CiI (Rv64Decode.Rv64.Jal CrZero imm))) \/
     (exists imm, contract_decode w = Some (CiZca (RvZca.RvZca.CJ imm)))).

Definition table_of (file_bytes : list byte) : list byte := drop (N.to_nat HEADER_SIZE) file_bytes.

Record file_ok (file_bytes : list byte) (h : ContractFileHeader) : Prop := {
  ok_size : usize file_bytes < 2 ^ 32;
  ok_header : read_header file_bytes = Ret h;
  ok_magic : magic h = CONTRACT_FILE_MAGIC;
  ok_read_only : header_read_only_section_file_size h <= header_read_only_section_memory_size h;
  ok_metadata : metadata_offset h + metadata_size h <= usize file_bytes;
  ok_code_offset : code_section_offset h = read_only_section_offset h + header_read_only_section_file_size h;
  ok_code_size : code_section_offset h < usize file_bytes;
  ok_methods : exists ms rest, N.of_nat (length ms) = header_num_methods h /\
    table_of file_bytes = concat (print_entry <$> ms) ++ rest /\ Forall (entry_ok h (usize file_bytes)) ms;
  ok_host_call : host_call_ok h file_bytes;
  ok_code : code_ok (drop (N.to_nat (code_section_offset h)) file_bytes)
}.

Lemma obind_inv {A B} (m : outcome A) (k : A -> outcome B) b :
  obind m k = Ret b -> exists a, m = Ret a /\ k a = Ret b.
Proof. destruct m; [|done]. cbn. eauto. Qed.

Lemma add_u32_inv a b c : add_u32 a b = Ret c -> c = a + b /\ a + b < 2 ^ 32.
Proof. unfold add_u32. case_decide; [|done]. by intros [= <-]. Qed.

Lemma sub_inv a b c : sub a b = Ret c -> c = a - b /\ b <= a.
Proof. unfold sub. destruct (N.leb_spec b a); [|done]. by intros [= <-]. Qed.

Lemma sub_ok a b : b <= a -> sub a b = Ret (a - b).
Proof. intros H. unfold sub. by rewrite (proj2 (N.leb_le _ _) H). Qed.

Lemma add_u16_inv a b c : add_u16 a b = Ret c -> c = a + b /\ a + b < 2 ^ 16.
Proof. unfold add_u16. destruct (N.ltb_spec (a + b) (2 ^ 16)); [|done]. by intros [= <-]. Qed.

Lemma usize_app l l' : usize (l ++ l') = usize l + usize l'.
Proof. unfold usize. rewrite length_app. lia. Qed.

Lemma to_nat_usize l : N.to_nat (usize l) = length l.
Proof. apply Nat2N.id. Qed.

Lemma field_lt off len l : field off len l < 256 ^ N.of_nat len.
Proof.
  unfold field. eapply N.lt_le_trans; [apply le_value_lt|]. apply N.pow_le_mono_r; [done|]. rewrite length_take. lia.
Qed.

Lemma header_small l h :
  read_header l = Ret h -> header_num_methods h < 2 ^ 16 /\ header_read_only_section_memory_size h < 2 ^ 32.
Proof.
  unfold read_header. destruct (_ <=? _); [|done]. intros [= <-]. cbn [header_num_methods header_read_only_section_memory_size].
  split; apply field_lt.
Qed.

Lemma length_print_entry m : length (print_entry m) = 8%nat.
Proof. unfold print_entry. by rewrite length_app, !length_le_split. Qed.

Lemma read_print_entry m l :
  offset m < 2 ^ 32 -> size m < 2 ^ 32 -> read_method_metadata (print_entry m ++ l) = Ret m.
Proof.
  intros Ho Hs. unfold read_method_metadata, METHOD_METADATA_SIZE. rewrite usize_app. unfold usize at 1.
  rewrite length_print_entry, (proj2 (N.leb_le _ _)) by lia. unfold field, print_entry. rewrite drop_0.
  rewrite <- !app_assoc, take_app_length' by (by rewrite length_le_split).
  rewrite drop_app_length', take_app_length' by (by rewrite length_le_split).
  rewrite !le_value_split, !N.mod_small by done. by destruct m.
Qed.

Lemma read_entry_inv l m : length l = 8%nat -> read_method_metadata l = Ret m ->
  l = print_entry m /\ offset m < 2 ^ 32 /\ size m < 2 ^ 32.
Proof.
  intros Hl. unfold read_method_metadata. destruct (_ <=? _); [|done]. intros [= <-]. unfold print_entry, field. cbn [offset size].
  assert (H4 : length (take 4 (drop 0 l)) = 4%nat) by (rewrite length_take, length_drop; lia).
  assert (H4' : length (take 4 (drop 4 l)) = 4%nat) by (rewrite length_take, length_drop; lia).
  pose proof (le_value_lt (take 4 (drop 0 l))) as Hb. pose proof (le_value_lt (take 4 (drop 4 l))) as Hb'.
  rewrite H4 in Hb. rewrite H4' in Hb'. split_and!; [|done..].
  pose proof (le_split_value (take 4 (drop 0 l))) as V. pose proof (le_split_value (take 4 (drop 4 l))) as V'.
  rewrite H4 in V. rewrite H4' in V'. rewrite V, V', drop_0, (take_ge (drop 4 l)) by (rewrite length_drop; lia).
  by rewrite take_drop.
Qed.

Lemma next_method_metadata_inv h file_size l m rest :
  next_method_metadata h file_size l = Ret (Ok (m, rest)) ->
  l = print_entry m ++ rest /\ code_section_offset h <= offset m /\ offset m + size m <= file_size /\ offset m + size m < 2 ^ 32.
Proof.
  unfold next_method_metadata. destruct (split_at_checked _ l) as [[entry l']|] eqn:E; [|done].
  apply split_at_checked_inv in E as [-> El]. intros (c & Er & H)%obind_inv. apply obind_inv in H as (e & Ea & H).
  apply add_u32_inv in Ea as [-> Hlt]. destruct (N.ltb_spec file_size (offset c + size c)); [done|].
  destruct (N.ltb_spec (offset c) (code_section_offset h)); [done|]. injection H as <- <-.
  apply read_entry_inv in Er as (-> & _); [|done]. split_and!; try done; lia.
Qed.

(** ** The methods that are found in metadata *)

(** One method is decoded and the decoder of its arguments dropped, which takes [used]. *)
Definition method_step (container : MethodsContainerKind) (l : list byte) (item : MethodMetadataItem)
    (used rest : list byte) : Prop :=
  exists arguments rest', method_decode_next container l = Ret (rest', Ok (arguments, item)) /\
    drop_arguments arguments rest' = Ret rest /\ l = used ++ rest.

Inductive methods_found (container : MethodsContainerKind)
    : list byte -> list (MethodMetadataItem * list byte) -> list byte -> Prop :=
| no_methods l : methods_found container l [] l
| one_method l item used rest found rest' :
    method_step container l item used rest -> methods_found container rest found rest' ->
    methods_found container l ((item, used) :: found) rest'.

(** [d] with the methods of an item taken *)
Definition with_metadata (d : MetadataDecoder) (rest : list byte) : MetadataDecoder :=
  {| metadata := rest; found_contract := found_contract d; found_something := found_something d |}.

Inductive items_found : MetadataDecoder -> list (MethodMetadataItem * list byte) -> Prop :=
| no_items d d' : metadata_decode_next d = Ret (d', None) -> items_found d []
| one_item d d' item found rest found' :
    metadata_decode_next d = Ret (d', Some (Ok item)) ->
    methods_found (methods_container_kind (into_decoder item)) (metadata d') found rest ->
    length found = methods_remaining (into_decoder item) ->
    items_found (with_metadata d' rest) found' -> items_found d (found ++ found').

(** The callback accepts the methods, one after the other. *)
Fixpoint accepts {St E} (callback : ContractFileMethod -> St -> St * result unit E) (calls : list ContractFileMethod)
    (st st' : St) : Prop :=
  match calls with
  | [] => st = st'
  | call :: calls => exists st1, callback call st = (st1, Ok tt) /\ accepts callback calls st1 st'
  end.

(** What the callback is given for an entry of the table and a method of the metadata *)
Definition call_of (h : ContractFileHeader) (m : ContractFileMethodMetadata) (found : MethodMetadataItem * list byte)
    (call : ContractFileMethod) : Prop :=
  memory_address h (offset m) = Ret (address call) /\ method_metadata_item call = fst found /\
  length (method_metadata_bytes call) = length (snd found).

(** The entries of the table and the calls for the methods that are found, from [w] to [w'] *)
Record walked (h : ContractFileHeader) (file_size : N) (found : list (MethodMetadataItem * list byte))
    (w w' : walk) (ms : list ContractFileMethodMetadata) (calls : list ContractFileMethod) : Prop := {
  walked_calls : Forall3 (call_of h) ms found calls;
  walked_entries : Forall (entry_ok h file_size) ms;
  walked_table : table w = concat (print_entry <$> ms) ++ table w' /\ table_left w = (length ms + table_left w')%nat;
  walked_number : metadata_num_methods w' = metadata_num_methods w + N.of_nat (length ms);
  walked_bytes : remaining_metadata_bytes w = concat (method_metadata_bytes <$> calls) ++ remaining_metadata_bytes w'
}.

Lemma walked_nil h file_size w : walked h file_size [] w w [] [].
Proof. split; try done; [constructor|]. cbn. lia. Qed.

Lemma walked_app h file_size found found' w w1 w' ms ms' calls calls' :
  walked h file_size found w w1 ms calls -> walked h file_size found' w1 w' ms' calls' ->
  walked h file_size (found ++ found') w w' (ms ++ ms') (calls ++ calls').
Proof.
  intros [C E [T L] M B] [C' E' [T' L'] M' B']. split.
  - by apply Forall3_app.
  - by apply Forall_app.
  - rewrite fmap_app, concat_app, <- app_assoc, <- T', length_app. split; [done|lia].
  - rewrite length_app. lia.
  - by rewrite fmap_app, concat_app, <- app_assoc, <- B'.
Qed.

Lemma accepts_app {St E} (callback : ContractFileMethod -> St -> St * result unit E) calls calls' st st1 st' :
  accepts callback calls st st1 -> accepts callback calls' st1 st' -> accepts callback (calls ++ calls') st st'.
Proof.
  revert st. induction calls as [|c calls IH]; intros st; cbn; [by intros ->|].
  intros (st2 & Hc & H) H'. eauto.
Qed.

Lemma drop_arguments_suffix arguments l rest : drop_arguments arguments l = Ret rest -> exists used, l = used ++ rest.
Proof.
  unfold drop_arguments. rewrite drop_arguments_spec. intros ([rest' r] & Hr & [= <-])%obind_inv.
  destruct r as [items|e]; [|by exists []]. apply read_arguments_iff in Hr as (args & _ & -> & _). eauto.
Qed.

Lemma method_step_of container l rest' arguments item rest :
  method_decode_next container l = Ret (rest', Ok (arguments, item)) -> drop_arguments arguments rest' = Ret rest ->
  exists used, method_step container l item used rest.
Proof.
  intros Hm Hd. destruct (drop_arguments_suffix _ _ _ Hd) as [used ->].
  pose proof Hm as (kind & name & n & -> & _)%method_decode_next_iff.
  exists (ckind_byte (of_method_kind kind) :: print_name name ++ byte_of (N.of_nat n) :: used), arguments, (used ++ rest).
  split_and!; [done..|]. cbn. by rewrite <- app_assoc.
Qed.

Section parsed.
Context {St : Type} (callback : ContractFileMethod -> St -> St * result unit ContractFileParseError).
Variable h : ContractFileHeader.
Variable file_size : N.

Lemma parse_method_inv container w st st' rest w' :
  parse_method callback h file_size container w st = Ret (st', rest, Ok w') ->
  exists item used m call, method_step container (to_decode w) item used (to_decode w') /\
    walked h file_size [(item, used)] w w' [m] [call] /\ accepts callback [call] st st'.
Proof.
  unfold parse_method. intros ([rest1 [[arguments item]|]] & Hm & H)%obind_inv; [|done].
  apply obind_inv in H as (rest2 & Hd & H). apply obind_inv in H as (n & Hn & H). apply obind_inv in H as (len & Hlen & H).
  destruct (split_at_checked _ _) as [[b remaining]|] eqn:Hs; [|done]. destruct (table_left w) as [|k] eqn:Hk; [done|].
  apply obind_inv in H as ([[m table']|e] & Ht & H); [|done]. apply obind_inv in H as (a & Ha & H).
  destruct (N.eqb_spec (a mod 2) 0) as [Hev|]; cbn [negb] in H; [|done].
  destruct (callback _ st) as [st1 [[]|e]] eqn:Hc; [|done]. injection H as <- <- <-.
  destruct (method_step_of _ _ _ _ _ _ Hm Hd) as [used Hu]. apply add_u16_inv in Hn as [-> _]. apply sub_inv in Hlen as [-> _].
  apply split_at_checked_inv in Hs as [Hr Hb]. apply next_method_metadata_inv in Ht as (Ht & Hlo & Hhi & _).
  pose proof Hu as (_ & _ & _ & _ & El). rewrite El, usize_app in Hb. unfold usize in Hb.
  exists item, used, m, {| address := a; method_metadata_item := item; method_metadata_bytes := b |}.
  split_and!; [done| |by exists st1]. split; cbn [table table_left metadata_num_methods remaining_metadata_bytes fmap list_fmap concat length].
  - repeat constructor; cbn; [done..|lia].
  - repeat constructor; try done. by exists a.
  - rewrite app_nil_r. split; [done|lia].
  - lia.
  - by rewrite app_nil_r.
Qed.

Lemma parse_methods_inv container n w st st' w' :
  parse_methods callback h file_size container n w st = Ret (st', Ok w') ->
  exists found ms calls, methods_found container (to_decode w) found (to_decode w') /\ length found = n /\
    walked h file_size found w w' ms calls /\ accepts callback calls st st'.
Proof.
  revert w st. induction n as [|n IH]; intros w st; cbn [parse_methods].
  - intros [= <- <-]. exists [], [], []. split_and!; try done; [constructor|apply walked_nil].
  - intros ([[st1 rest] [w1|e]] & Hm & H)%obind_inv; [|by apply obind_inv in H as (? & _ & ?)].
    apply parse_method_inv in Hm as (item & used & m & call & Hs & Hw & Hc).
    apply IH in H as (found & ms & calls & Hf & <- & Hws & Hcs).
    exists ((item, used) :: found), (m :: ms), (call :: calls). split_and!; [by econstructor|done| |].
    + by apply (walked_app _ _ [_] found _ w1 _ [_] ms [_] calls).
    + by apply (accepts_app _ [_] calls _ st1).
Qed.

Lemma parse_items_inv fuel d w st st' w' :
  parse_items callback h file_size fuel d w st = Ret (st', Ok w') ->
  exists found ms calls, items_found d found /\ walked h file_size found w w' ms calls /\ accepts callback calls st st'.
Proof.
  revert d w st. induction fuel as [|fuel IH]; intros d w st; [done|]. cbn [parse_items].
  intros ([d' [[item|e]|]] & Hn & H)%obind_inv; [|done|].
  - apply obind_inv in H as ([st1 [w1|e]] & Hm & H); [|done].
    apply parse_methods_inv in Hm as (found & ms & calls & Hf & Hl & Hw & Hc).
    apply IH in H as (found' & ms' & calls' & Hf' & Hw' & Hc').
    exists (found ++ found'), (ms ++ ms'), (calls ++ calls'). split_and!.
    + by econstructor.
    + apply (walked_app _ _ _ _ _ w1); [|done]. destruct Hw as [? ? ? ? ?]. by split.
    + by eapply accepts_app.
  - injection H as <- <-. exists [], [], []. split_and!; [by econstructor|apply walked_nil|done].
Qed.
End parsed.

Lemma contract_size_pos w (i : instruction) : contract_decode w = Some i -> (2 <= Z.to_nat (contract_size i))%nat.
Proof. intros H. rewrite (contract_decode_size w i H). destruct (is_long w); lia. Qed.

Lemma instruction_word_length l w : instruction_word l = Some w -> (2 <= length l)%nat.
Proof. unfold instruction_word. repeat case_decide; [lia..|done]. Qed.

Lemma instructions_of_inv l ins :
  instructions_of l ins ->
  exists w i tail, instruction_word l = Some w /\ contract_decode w = Some i /\ ins = i :: tail /\
    ((length l <= Z.to_nat (contract_size i))%nat /\ tail = [] \/
     (Z.to_nat (contract_size i) < length l)%nat /\ instructions_of (drop (Z.to_nat (contract_size i)) l) tail).
Proof. destruct 1 as [l w i Hw Hd Hl|l w i tail Hw Hd Hl Ht]; [exists w, i, []|exists w, i, tail]; split_and!; auto. Qed.

Lemma instructions_of_length l ins : instructions_of l ins -> (2 <= length l)%nat.
Proof. intros (w & i & tail & Hw & _)%instructions_of_inv. by eapply instruction_word_length. Qed.

Lemma no_instructions l off ins : (length l <= off)%nat -> ~ instructions_of (drop off l) ins.
Proof. intros Hl H%instructions_of_length. rewrite length_drop in H. lia. Qed.

(** The scan reads instructions to the end of the file. *)
Lemma scan_code_iff fuel file_bytes off last i :
  (length file_bytes < off + fuel)%nat ->
  scan_code fuel file_bytes off last = Ret (Ok i) <->
  (length file_bytes <= off)%nat /\ i = last \/
  exists init, instructions_of (drop off file_bytes) (init ++ [i]).
Proof.
  revert off last. induction fuel as [|fuel IH]; intros off last Hf; cbn [scan_code]; case_decide as Hoff; [lia| | |].
  1, 3: split; [intros [= <-]; left; split; [lia|done]|]; intros [[_ ->]|[init H]]; [done|];
    apply no_instructions in H; [done|lia].
  cbv zeta. destruct (instruction_word (drop off file_bytes)) as [w|] eqn:Hw; last first.
  { split; [done|]. intros [[? _]|[init H]]; [lia|]. apply instructions_of_inv in H as (? & ? & ? & ? & _). congruence. }
  destruct (contract_decode w) as [j|] eqn:Hd; last first.
  { split; [done|]. intros [[? _]|[init H]]; [lia|]. apply instructions_of_inv in H as (? & ? & ? & ? & ? & _). congruence. }
  pose proof (contract_size_pos w j Hd) as Hp. rewrite IH by lia. split.
  - intros [[Hl ->]|[init H]]; right.
    + exists []. eapply last_instruction; [done..|]. rewrite length_drop. lia.
    + exists (j :: init). eapply next_instruction; [done..| |by rewrite drop_drop].
      apply instructions_of_length in H. rewrite length_drop in *. lia.
  - intros [[? _]|[init H]]; [lia|]. apply instructions_of_inv in H as (w' & j' & tail & Hw' & Hd' & E & H).
    assert (j' = j) as -> by congruence. rewrite length_drop, drop_drop in H.
    destruct init as [|x init]; injection E as -> E; [subst tail|].
    + left. destruct H as [[Hl _]|[_ H]]; [split; [lia|done]|by apply instructions_of_inv in H as (? & ? & ? & _ & _ & ? & _)].
    + right. subst tail. destruct H as [[_ E]|[_ H]]; [by destruct init|eauto].
Qed.

Lemma code_size_app a b : code_size (a ++ b) = (code_size a + code_size b)%nat.
Proof. unfold code_size. by rewrite fmap_app, list_sum_app. Qed.

Lemma code_size_one i : code_size [i] = Z.to_nat (contract_size i).
Proof. unfold code_size. cbn. lia. Qed.

(** Only the last instruction can be cut off, and only one of four bytes. *)
Lemma instructions_cover l init i :
  instructions_of l (init ++ [i]) ->
  code_size (init ++ [i]) = length l \/
  contract_size i = 4%Z /\ (code_size init + 2 <= length l < code_size init + 4)%nat.
Proof.
  revert l. induction init as [|j init IH]; intros l H.
  - apply instructions_of_inv in H as (w & i' & tail & Hw & Hd & [= <- <-] & [[Hl _]|[_ H]]);
      [|by apply instructions_of_inv in H as (? & ? & ? & _ & _ & ? & _)].
    pose proof (instruction_word_length _ _ Hw). pose proof (contract_decode_size w i Hd) as Hz.
    cbn [app]. rewrite code_size_one. change (code_size []) with 0%nat. destruct (is_long w); lia.
  - apply instructions_of_inv in H as (w & j' & tail & Hw & Hd & [= <- <-] & [[_ E]|[Hl H]]); [by destruct init|].
    apply IH in H. rewrite length_drop in H. change (j :: init) with ([j] ++ init).
    rewrite <- app_assoc, !(code_size_app [j]), code_size_one. lia.
Qed.

(** The code is accepted when the last of the instructions it is read as is a jump. *)
Lemma code_ok_iff code : code_ok code <-> exists init i, instructions_of code (init ++ [i]) /\ is_jump i = true.
Proof.
  split; [intros [(init & i & ? & ? & _)|(init & i & ? & ? & _)]; by exists init, i|].
  intros (init & i & H & Hj). destruct (instructions_cover _ _ _ H) as [Hs|[Hs Hl]]; [left|right]; by exists init, i.
Qed.

Lemma parse_code_iff file_bytes off :
  off < usize file_bytes ->
  parse_code file_bytes off = Ret (Ok tt) <-> code_ok (drop (N.to_nat off) file_bytes).
Proof.
  intros Hoff. rewrite code_ok_iff. unfold parse_code, usize in *. split.
  - intros ([i|e] & H & [= E])%obind_inv. apply scan_code_iff in H; [|lia].
    destruct H as [[? _]|[init H]]; [lia|]. exists init, i. split; [done|]. by destruct (is_jump i).
  - intros (init & i & H & Hj). assert (Hs : scan_code (S (length file_bytes)) file_bytes (N.to_nat off) (CiI Rv64Decode.Rv64.Unimp) = Ret (Ok i))
      by (apply scan_code_iff; [lia|eauto]).
    rewrite Hs. cbn [obind]. by rewrite Hj.
Qed.

Lemma unaligned_word l :
  match unaligned_from_bytes 4 l with Some w => Some w | None => unaligned_from_bytes 2 l end = instruction_word l.
Proof. unfold unaligned_from_bytes, instruction_word. by repeat case_decide. Qed.

Lemma expected_pattern_iff i :
  matches_expected_pattern i = true <->
  (exists imm, i = CiI (Rv64Decode.Rv64.Jal CrZero imm)) \/ (exists imm, i = CiZca (RvZca.RvZca.CJ imm)).
Proof.
  split; [|by intros [[imm ->]|[imm ->]]].
  destruct i as [j| | |j| | | | |]; try done; destruct j; try done; cbn; [eauto|]. intros ->%bool_decide_eq_true_1. eauto.
Qed.

Lemma parse_host_call_iff h file_bytes :
  parse_host_call h (usize file_bytes) file_bytes = Ret (Ok tt) <-> host_call_ok h file_bytes.
Proof.
  unfold parse_host_call, host_call_ok. cbv zeta. destruct (N.eqb_spec (host_call_fn_offset h) 0) as [E|E].
  { split; [by left|done]. }
  destruct (N.leb_spec (usize file_bytes) (host_call_fn_offset h)); cbn [orb].
  { split; [done|]. intros [?|[? _]]; [done|lia]. }
  destruct (N.ltb_spec (host_call_fn_offset h) (code_section_offset h)).
  { split; [done|]. intros [?|[? _]]; [done|lia]. }
  unfold get_from. rewrite decide_True by (unfold usize in *; lia). rewrite unaligned_word.
  destruct (instruction_word _) as [w|]; [|split; [done|intros [?|(_ & _ & ? & ? & _)]; done]].
  destruct (contract_decode w) as [i|] eqn:Hd; last first.
  { split; [done|]. intros [?|(_ & _ & ? & [= <-] & [[? ?]|[? ?]])]; congruence. }
  pose proof (expected_pattern_iff i) as Hp.
  destruct (matches_expected_pattern i).
  - split.
    + intros (a & Ha & H2)%obind_inv. destruct (N.eqb_spec (a mod 2) 0); [|done]. right. split_and!; [lia..|eauto|].
      exists w. split; [done|]. destruct (proj1 Hp eq_refl) as [[imm ->]|[imm ->]]; [left|right]; by exists imm.
    + intros [?|(_ & (a & -> & Hev) & _)]; [done|]. cbn [obind]. by rewrite Hev.
  - split; [done|]. intros [?|(_ & _ & w' & [= <-] & Hi)]; [done|]. exfalso.
    enough (false = true) by done. apply Hp. destruct Hi as [[imm Hi]|[imm Hi]]; [left|right]; exists imm; congruence.
Qed.

Lemma file_header l : (24 <= length l)%nat -> read_header (take (N.to_nat HEADER_SIZE) l) = read_header l.
Proof.
  intros Hl. change (N.to_nat HEADER_SIZE) with 24%nat. unfold read_header, HEADER_SIZE, usize.
  rewrite length_take, !(proj2 (N.leb_le _ _)) by lia. unfold field. rewrite !skipn_firstn_comm, !take_take. done.
Qed.

Lemma get_metadata off len l m :
  (match get_from off l with Some l => fst <$> split_at_checked len l | None => None end = Some m) <->
  (off + len <= length l)%nat /\ m = take len (drop off l).
Proof.
  unfold get_from, split_at_checked. split.
  - case_decide; [|done]. case_decide as Hl; [|done]. rewrite length_drop in Hl. intros [= <-]. split; [lia|done].
  - intros [Hl ->]. rewrite decide_True by lia. rewrite decide_True by (rewrite length_drop; lia). done.
Qed.

Section parsed_file.
Context {St : Type} (callback : ContractFileMethod -> St -> St * result unit ContractFileParseError).

(** The metadata of a file *)
Definition metadata_of (h : ContractFileHeader) (file_bytes : list byte) : list byte :=
  take (N.to_nat (metadata_size h)) (drop (N.to_nat (metadata_offset h)) file_bytes).

Definition file_of (h : ContractFileHeader) (file_bytes : list byte) : ContractFile :=
  {| read_only_section_file_size := header_read_only_section_file_size h;
     read_only_section_memory_size := header_read_only_section_memory_size h;
     num_methods := header_num_methods h; bytes := file_bytes |}.

Lemma parse_inv file_bytes st st' f :
  parse callback file_bytes st = Ret (st', Ok f) ->
  exists h found ms calls w, file_ok file_bytes h /\ f = file_of h file_bytes /\
    items_found (new_decoder (metadata_of h file_bytes)) found /\ N.of_nat (length ms) = header_num_methods h /\
    walked h (usize file_bytes) found
      (Walk (metadata_of h file_bytes) (metadata_of h file_bytes) 0 (N.to_nat (header_num_methods h)) (table_of file_bytes)) w ms calls /\
    accepts callback calls st st'.
Proof.
  unfold parse. cbv zeta. destruct (N.leb_spec (2 ^ 32) (usize file_bytes)) as [|Hsize]; [done|].
  destruct (split_at_checked _ file_bytes) as [[hb tb]|] eqn:Hs; [|done]. apply split_at_checked_inv in Hs as [Ef Hl].
  intros (h & Hh & H)%obind_inv.
  assert (Hh' : read_header file_bytes = Ret h).
  { rewrite <- Hh. rewrite Ef, <- file_header by (rewrite length_app; unfold HEADER_SIZE in Hl; lia). by rewrite take_app_length'. }
  destruct (bool_decide_reflect (magic h = CONTRACT_FILE_MAGIC)) as [Hm|]; cbn [negb] in H; [|done].
  destruct (N.ltb_spec (header_read_only_section_memory_size h) (header_read_only_section_file_size h)) as [|Hro]; [done|].
  destruct (match get_from _ _ with Some l => _ | None => _ end) as [md|] eqn:Hmd; [|done].
  apply get_metadata in Hmd as [Hmd ->]. fold (metadata_of h file_bytes) in H.
  apply obind_inv in H as ([st1 [w|e]] & Hi & H); [|done]. apply parse_items_inv in Hi as (found & ms & calls & Hf & Hw & Hc).
  destruct (N.eqb_spec (metadata_num_methods w) (header_num_methods h)) as [Hn|]; cbn [negb] in H; [|done].
  destruct (N.leb_spec (usize file_bytes) (code_section_offset h)) as [|Hcode]; [done|].
  apply obind_inv in H as ([[]|e] & Hhost & H); [|done]. apply obind_inv in H as ([[]|e] & Hpc & H); [|done].
  injection H as <- <-. apply parse_host_call_iff in Hhost. apply parse_code_iff in Hpc; [|done].
  assert (Et : tb = table_of file_bytes) by (unfold table_of; rewrite Ef; by rewrite drop_app_length').
  rewrite Et in Hw.
  assert (En : N.of_nat (length ms) = header_num_methods h).
  { rewrite <- Hn. by rewrite (walked_number _ _ _ _ _ _ _ Hw). }
  exists h, found, ms, calls, w. split_and!; try done. split; try done.
  - unfold usize. lia.
  - unfold code_section_offset, saturating_add_u32 in *. lia.
  - exists ms, (table w). split_and!; [done| |by apply Hw]. by apply Hw.
Qed.
End parsed_file.

Lemma get_unchecked_from_ok n l : n <= usize l -> get_unchecked_from n l = Ret (drop (N.to_nat n) l).
Proof. intros H. unfold get_unchecked_from. by rewrite (proj2 (N.leb_le _ _) H). Qed.

Lemma get_unchecked_to_ok n l : n <= usize l -> get_unchecked_to n l = Ret (take (N.to_nat n) l).
Proof. intros H. unfold get_unchecked_to. by rewrite (proj2 (N.leb_le _ _) H). Qed.

(** The sections of a file, and how its memory is laid out *)
Definition read_only_of (h : ContractFileHeader) (file_bytes : list byte) : list byte :=
  take (N.to_nat (header_read_only_section_file_size h)) (drop (N.to_nat (read_only_section_offset h)) file_bytes).
Definition code_of (h : ContractFileHeader) (file_bytes : list byte) : list byte :=
  drop (N.to_nat (code_section_offset h)) file_bytes.
Definition image_of (h : ContractFileHeader) (file_bytes : list byte) : list byte :=
  read_only_of h file_bytes ++ replicate (N.to_nat (read_only_padding_size h)) x00 ++ code_of h file_bytes.

Section sections.
Variable file_bytes : list byte.
Variable h : ContractFileHeader.
Hypothesis Hok : file_ok file_bytes h.

Lemma source_bytes_ok : source_bytes (file_of h file_bytes) = Ret (read_only_of h file_bytes ++ code_of h file_bytes).
Proof.
  pose proof (ok_code_offset _ _ Hok) as Ho. pose proof (ok_code_size _ _ Hok) as Hs.
  unfold source_bytes. rewrite get_unchecked_from_ok.
  - unfold read_only_of, code_of. rewrite Ho, N2Nat.inj_add, <- drop_drop. by rewrite take_drop.
  - change (file_read_only_section_offset _) with (read_only_section_offset h). cbn [bytes file_of]. lia.
Qed.

Lemma length_read_only : length (read_only_of h file_bytes) = N.to_nat (header_read_only_section_file_size h).
Proof.
  pose proof (ok_code_offset _ _ Hok). pose proof (ok_code_size _ _ Hok). unfold read_only_of, usize in *.
  rewrite length_take, length_drop. lia.
Qed.

Lemma split_source_ok :
  split_at_unchecked (header_read_only_section_file_size h) (read_only_of h file_bytes ++ code_of h file_bytes) =
    Ret (read_only_of h file_bytes, code_of h file_bytes).
Proof.
  unfold split_at_unchecked. rewrite usize_app, (proj2 (N.leb_le _ _)) by (unfold usize; rewrite length_read_only; lia).
  rewrite take_app_length', drop_app_length' by (by rewrite length_read_only). done.
Qed.

Lemma padding_ok :
  sub (read_only_section_memory_size (file_of h file_bytes)) (read_only_section_file_size (file_of h file_bytes)) =
    Ret (read_only_padding_size h).
Proof. apply sub_ok, (ok_read_only _ _ Hok). Qed.

Lemma length_image :
  length (image_of h file_bytes) =
    (length (read_only_of h file_bytes ++ code_of h file_bytes) + N.to_nat (read_only_padding_size h))%nat.
Proof. unfold image_of. rewrite !length_app, length_replicate. lia. Qed.

Lemma contract_memory_size_ok n :
  contract_memory_size (file_of h file_bytes) = Ret n -> length (image_of h file_bytes) = N.to_nat n.
Proof.
  unfold contract_memory_size. rewrite padding_ok. cbn [obind]. intros (s & Hs & Hn)%obind_inv.
  apply sub_inv in Hs as [-> Hle]. apply add_u32_inv in Hn as [-> _]. rewrite length_image, length_app, length_read_only.
  pose proof (ok_size _ _ Hok). pose proof (ok_code_offset _ _ Hok). pose proof (ok_code_size _ _ Hok).
  change (file_read_only_section_offset _) with (read_only_section_offset h) in *. cbn [bytes file_of] in *.
  rewrite N.mod_small in * by done. unfold code_of, usize in *. rewrite length_drop. lia.
Qed.

Lemma write_copy_ok m l : length m = length l -> write_copy_of_slice m l = Ret (Some <$> l).
Proof. intros H. unfold write_copy_of_slice. by rewrite decide_True. Qed.

Lemma split_off_mut_inv n m a b : split_off_mut n m = Some (a, b) -> m = a ++ b /\ length a = N.to_nat n.
Proof.
  unfold split_off_mut. destruct (N.leb_spec n (N.of_nat (length m))); [|done]. intros [= <- <-].
  rewrite take_drop, length_take. split; [done|lia].
Qed.

Lemma split_off_mut_none n m : split_off_mut n m = None -> (length m < N.to_nat n)%nat.
Proof. unfold split_off_mut. destruct (N.leb_spec n (N.of_nat (length m))); [done|lia]. Qed.

(** Memory of the size of the image is initialized with it; any other is refused, but for
    memory of the size of the sections in the file. *)
Lemma initialize_spec m :
  exists m' b, initialize_contract_memory (file_of h file_bytes) m = Ret (m', b) /\ length m' = length m /\
    (length m = length (image_of h file_bytes) -> m' = Some <$> image_of h file_bytes /\ b = true) /\
    (b = true <-> length m = length (image_of h file_bytes) \/
      length m = length (read_only_of h file_bytes ++ code_of h file_bytes)).
Proof.
  pose proof length_image as Hi. pose proof length_read_only as Hr.
  unfold initialize_contract_memory. rewrite padding_ok, source_bytes_ok. cbn [obind].
  case_decide as Hd.
  { rewrite write_copy_ok by done. cbn [obind]. eexists _, true. split; [done|]. rewrite length_fmap. split_and!; [done| |tauto].
    intros E. split; [|done]. assert (E0 : N.to_nat (read_only_padding_size h) = 0%nat) by lia.
    unfold image_of. by rewrite E0. }
  cbn [read_only_section_file_size file_of]. rewrite length_app in Hi, Hd.
  destruct (split_off_mut _ m) as [[a m1]|] eqn:Ha; last first.
  { apply split_off_mut_none in Ha. exists m, false. split_and!; [done..|intros; lia|]. split; [done|]. rewrite length_app. lia. }
  apply split_off_mut_inv in Ha as [-> Ha]. rewrite split_source_ok. cbn [obind].
  rewrite write_copy_ok by (by rewrite Hr). cbn [obind]. rewrite length_app in Hd |- *.
  destruct (split_off_mut (read_only_padding_size h) m1) as [[p m2]|] eqn:Hp; last first.
  { apply split_off_mut_none in Hp. eexists _, false. split; [done|]. rewrite !length_app, length_fmap. split_and!; [lia..|].
    split; [done|]. lia. }
  apply split_off_mut_inv in Hp as [-> Hp]. rewrite !length_app in *. case_decide as Hc.
  - rewrite write_copy_ok by done. cbn [obind]. eexists _, true. split; [done|].
    rewrite !length_app, !length_fmap, length_replicate. split_and!; [lia| |split; [lia|done]].
    intros _. split; [|done]. unfold image_of. by rewrite !fmap_app, fmap_replicate, Hp.
  - eexists _, false. split; [done|]. rewrite !length_app, !length_fmap, length_replicate.
    split_and!; [lia..|]. split; [done|]. lia.
Qed.

Lemma image_address o a :
  code_section_offset h <= o -> memory_address h o = Ret a -> image_of h file_bytes !! N.to_nat a = file_bytes !! N.to_nat o.
Proof.
  pose proof (ok_code_offset _ _ Hok) as Ho. pose proof length_read_only as Hr. intros Hlo Ha.
  apply obind_inv in Ha as (s & Hs & Ha). apply sub_inv in Hs as [-> Hle]. apply add_u32_inv in Ha as [-> _].
  unfold image_of. rewrite lookup_app_r by lia. rewrite lookup_app_r by (rewrite length_replicate; lia).
  unfold code_of. rewrite lookup_drop, Hr, length_replicate. f_equal. lia.
Qed.
End sections.

(** C16. Memory of the size that a parsed file asks for is initialized completely, with the
    read-only section, zeroes up to its size in memory, and the code; every offset in the code
    section is found at the address that the parser computes for it.  Memory of any other size
    is refused, but for memory of the size of the sections in the file. *)
Theorem memory_holds_sections {St} (callback : ContractFileMethod -> St -> St * result unit ContractFileParseError)
    file_bytes st st' f n :
  parse callback file_bytes st = Ret (st', Ok f) -> contract_memory_size f = Ret n ->
  exists h, header f = Ret h /\
    length (image_of h file_bytes) = N.to_nat n /\
    (forall o a, code_section_offset h <= o -> memory_address h o = Ret a ->
      image_of h file_bytes !! N.to_nat a = file_bytes !! N.to_nat o) /\
    forall m, exists m' b, initialize_contract_memory f m = Ret (m', b) /\
      (length m = N.to_nat n -> m' = Some <$> image_of h file_bytes /\ b = true) /\
      (b = true <-> length m = N.to_nat n \/ length m = length (read_only_of h file_bytes ++ code_of h file_bytes)).
Proof.
  intros (h & found & ms & calls & w & Hok & -> & _)%parse_inv Hn. exists h.
  pose proof (contract_memory_size_ok _ _ Hok n Hn) as Hl. split_and!; [apply (ok_header _ _ Hok)|done|by apply image_address|].
  intros m. destruct (initialize_spec _ _ Hok m) as (m' & b & Hi & _ & He & Hb). rewrite Hl in *. eauto.
Qed.

(** ** Progress of the parser *)

Lemma method_step_length container l item used rest : method_step container l item used rest -> (3 <= length used)%nat.
Proof.
  intros (arguments & rest' & Hm & Hd & E). apply drop_arguments_suffix in Hd as [u ->].
  apply method_decode_next_iff in Hm as (kind & name & n & E' & _). rewrite E in E'.
  apply (f_equal length) in E'. cbn in E'. rewrite !length_app in E'. cbn in E'. rewrite length_app in E'. lia.
Qed.

Lemma methods_found_length container l found rest :
  methods_found container l found rest -> length l = (length (concat found.*2) + length rest)%nat.
Proof.
  induction 1 as [|l item used rest found rest' Hs _ IH]; [done|]. destruct Hs as (_ & _ & _ & _ & ->). cbn.
  rewrite !length_app. lia.
Qed.

Lemma metadata_next_shorter d d' item :
  metadata_decode_next d = Ret (d', Some (Ok item)) -> (length (metadata d') < length (metadata d))%nat.
Proof.
  intros (i & rest & -> & _ & _ & _ & -> & _)%metadata_decode_next_inv. cbn [metadata with_rest].
  rewrite length_app. unfold print_head. rewrite length_app. cbn. lia.
Qed.

Lemma items_found_length d found : items_found d found -> (length (concat found.*2) <= length (metadata d))%nat.
Proof.
  induction 1 as [|d d' item found rest found' Hn Hf _ _ IH]; [cbn; lia|].
  apply metadata_next_shorter in Hn. apply methods_found_length in Hf. cbn [metadata with_metadata] in IH.
  rewrite fmap_app, concat_app, length_app. lia.
Qed.

Lemma next_method_metadata_ok h file_size m rest :
  file_size < 2 ^ 32 -> entry_ok h file_size m -> next_method_metadata h file_size (print_entry m ++ rest) = Ret (Ok (m, rest)).
Proof.
  intros Hf (Hlo & Hhi & _). unfold next_method_metadata. rewrite split_at_checked_app by apply length_print_entry.
  rewrite <- (app_nil_r (print_entry m)), read_print_entry by lia. cbn [obind].
  unfold add_u32. rewrite decide_True by lia. cbn [obind].
  rewrite (proj2 (N.ltb_ge _ _)) by lia. by rewrite (proj2 (N.ltb_ge _ _)) by lia.
Qed.

Section accepted.
Context {St : Type} (callback : ContractFileMethod -> St -> St * result unit ContractFileParseError).
Variable h : ContractFileHeader.
Variable file_size : N.
Hypothesis Hsize : file_size < 2 ^ 32.
Hypothesis Hcallback : forall call st, exists st', callback call st = (st', Ok tt).

(** What the methods that are found need of the state of the loop *)
Definition ready (found : list (MethodMetadataItem * list byte)) (ms : list ContractFileMethodMetadata) (w : walk) : Prop :=
  length ms = length found /\ Forall (entry_ok h file_size) ms /\ (exists rest, table w = concat (print_entry <$> ms) ++ rest) /\
  (length ms <= table_left w)%nat /\ metadata_num_methods w + N.of_nat (length ms) < 2 ^ 16 /\
  (length (concat found.*2) <= length (remaining_metadata_bytes w))%nat.

Lemma parse_method_ok container w st item used rest found m ms :
  method_step container (to_decode w) item used rest -> ready ((item, used) :: found) (m :: ms) w ->
  exists st' w', parse_method callback h file_size container w st = Ret (st', rest, Ok w') /\ to_decode w' = rest /\
    ready found ms w' /\ metadata_num_methods w' = metadata_num_methods w + 1.
Proof.
  intros (arguments & rest' & Hm & Hd & El) ([= Hl] & [He Hes]%Forall_cons & [t Ht] & Hleft & Hnum & Hrem).
  cbn [length fmap list_fmap concat fst snd] in Hleft, Hrem, Ht. rewrite length_app in Hrem. rewrite <- app_assoc in Ht.
  unfold parse_method. rewrite Hm. cbn [obind]. rewrite Hd. cbn [obind].
  unfold add_u16. rewrite (proj2 (N.ltb_lt _ _)) by (cbn [length] in Hnum; lia). cbn [obind].
  rewrite El, usize_app, sub_ok by lia. cbn [obind]. unfold usize at 1 2 3. rewrite N.add_sub, Nat2N.id.
  unfold split_at_checked. rewrite decide_True by lia. destruct (table_left w) as [|k] eqn:Ek; [lia|].
  rewrite Ht, next_method_metadata_ok by done. cbn [obind]. destruct He as (_ & _ & a & -> & Hev). cbn [obind].
  rewrite Hev. cbn [negb N.eqb].
  destruct (Hcallback {| address := a; method_metadata_item := item;
    method_metadata_bytes := take (length used) (remaining_metadata_bytes w) |} st) as [st' ->].
  eexists _, _. split; [done|]. cbn [to_decode metadata_num_methods]. split_and!; try done.
  unfold ready. cbn [table table_left metadata_num_methods remaining_metadata_bytes]. cbn [length] in Hnum.
  rewrite length_drop. split_and!; [done..|eauto|lia|lia|lia].
Qed.

Lemma parse_methods_ok container n w st found found' rest ms :
  methods_found container (to_decode w) found rest -> length found = n -> ready (found ++ found') ms w ->
  exists st' w', parse_methods callback h file_size container n w st = Ret (st', Ok w') /\ to_decode w' = rest /\
    ready found' (drop n ms) w' /\ metadata_num_methods w' = metadata_num_methods w + N.of_nat n.
Proof.
  intros Hf. remember (to_decode w) as l eqn:El. revert n w st ms El.
  induction Hf as [l|l item used rest found rest' Hs Hf IH]; intros n w st ms El Hn Hr; subst n l; cbn [length parse_methods].
  - exists st, w. rewrite drop_0. split_and!; [done..|lia].
  - destruct ms as [|m ms]; [by destruct Hr as [? _]|].
    destruct (parse_method_ok container w st item used rest (found ++ found') m ms Hs Hr) as (st1 & w1 & -> & E1 & Hr1 & N1).
    cbn [obind]. destruct (IH (length found) w1 st1 ms) as (st2 & w2 & -> & E2 & Hr2 & N2); [done..|].
    exists st2, w2. split_and!; [done..|lia].
Qed.

Lemma ready_to_decode found ms w l :
  ready found ms w -> ready found ms (Walk l (remaining_metadata_bytes w) (metadata_num_methods w) (table_left w) (table w)).
Proof. done. Qed.

Lemma parse_items_ok fuel d found w st ms :
  items_found d found -> (length (metadata d) < fuel)%nat -> ready found ms w ->
  exists st' w', parse_items callback h file_size fuel d w st = Ret (st', Ok w') /\
    metadata_num_methods w' = metadata_num_methods w + N.of_nat (length found).
Proof.
  intros Hf. revert fuel w st ms. induction Hf as [d d' Hn|d d' item found rest found' Hn Hf Hl Hf' IH];
    intros fuel w st ms Hfuel Hr; (destruct fuel as [|fuel]; [lia|]); cbn [parse_items]; rewrite Hn; cbn [obind].
  - exists st, w. split; [done|]. cbn. lia.
  - pose proof (metadata_next_shorter _ _ _ Hn) as Hs. pose proof (methods_found_length _ _ _ _ Hf) as Hml.
    apply (ready_to_decode _ _ _ (metadata d')) in Hr.
    edestruct (parse_methods_ok (methods_container_kind (into_decoder item)) (methods_remaining (into_decoder item)))
      as (st1 & w1 & -> & E1 & Hr1 & N1); [done..|]. cbn [obind]. rewrite E1.
    destruct (IH fuel w1 st1 (drop (methods_remaining (into_decoder item)) ms)) as (st2 & w2 & E2 & N2);
      [cbn [metadata with_metadata]; lia|done|]. unfold with_metadata in E2. rewrite E2.
    exists st2, w2. split; [done|]. rewrite length_app. cbn [metadata_num_methods] in N1. lia.
Qed.
End accepted.

(** ** Metadata that follows the format *)

(** The methods of contracts and traits, with the bytes that describe them *)
Definition methods_of (items : list item) : list (MethodMetadataItem * list byte) :=
  (fun m => (method_item m, print_method m)) <$> concat (item_methods <$> items).

Lemma method_step_print container m rest :
  method_wf container m -> method_step container (print_method m ++ rest) (method_item m) (print_method m) rest.
Proof.
  intros Hw. assert (Hr : read_method container (print_method m ++ rest) = Ret (rest, Ok (view_method m)))
    by (apply read_method_iff; eauto).
  unfold read_method in Hr. apply rbind_inv in Hr as ([arguments item] & l & Hm & Hr).
  apply rbind_inv in Hr as (items & l' & Ha & [= -> -> _]). exists arguments, l. split_and!; [done| |done].
  unfold drop_arguments. by rewrite drop_arguments_spec, Ha.
Qed.

Lemma methods_found_print container methods rest :
  Forall (method_wf container) methods ->
  methods_found container (concat (print_method <$> methods) ++ rest)
    ((fun m => (method_item m, print_method m)) <$> methods) rest.
Proof.
  induction 1 as [|m methods Hm Hw IH]; [constructor|]. cbn [fmap list_fmap concat]. rewrite <- app_assoc.
  econstructor; [by apply method_step_print|done].
Qed.

Lemma into_decoder_view i m :
  view_head i m -> methods_container_kind (into_decoder m) = item_container i /\
    methods_remaining (into_decoder m) = length (item_methods i).
Proof. destruct i; cbn; [intros (? & _ & ->)|intros ->]; cbn; by rewrite Nat2N.id. Qed.

Lemma items_found_print items d :
  metadata d = concat (print_item <$> items) -> Forall item_wf items -> single_contract (found_contract d) items ->
  items_found d (methods_of items).
Proof.
  revert d. induction items as [|i items IH]; intros d Em Hw Hs.
  { apply (no_items d d). unfold metadata_decode_next. cbn in Em. by rewrite Em. }
  apply Forall_cons in Hw as [[Hh Hm] Hw]. destruct Hs as [Hf Hs]. cbn [fmap list_fmap concat] in Em.
  unfold print_item in Em at 1. rewrite <- app_assoc in Em.
  destruct (metadata_decode_next_print d i _ Em Hh Hf) as (m & Hv & Hn). apply into_decoder_view in Hv as [Ec Er].
  unfold methods_of. cbn [fmap list_fmap concat]. rewrite fmap_app.
  eapply one_item; [done| | |]; rewrite ?Ec, ?Er; [|by rewrite length_fmap|].
  - cbn [metadata with_rest]. by apply methods_found_print.
  - by apply IH.
Qed.

Lemma method_step_fun container l item item' used used' rest rest' :
  method_step container l item used rest -> method_step container l item' used' rest' ->
  item = item' /\ used = used' /\ rest = rest'.
Proof.
  intros (args & r & Hm & Hd & El) (args' & r' & Hm' & Hd' & El'). rewrite Hm in Hm'. injection Hm' as <- <- <-.
  rewrite Hd in Hd'. injection Hd' as <-. rewrite El in El'. apply app_inj_2 in El' as [-> _]; done.
Qed.

Lemma methods_found_fun container l found found' rest rest' :
  methods_found container l found rest -> methods_found container l found' rest' -> length found = length found' ->
  found = found' /\ rest = rest'.
Proof.
  intros Hf. revert found'. induction Hf as [l|l item used rest found rest1 Hs Hf IH]; intros found' Hf' Hl.
  - destruct found'; [|done]. by inversion Hf'.
  - destruct found' as [|[item' used'] found']; [done|]. inversion Hf' as [|? ? ? r ? ? Hs' Hf'']; subst.
    destruct (method_step_fun _ _ _ _ _ _ _ _ Hs Hs') as (-> & -> & ->). injection Hl as Hl.
    by destruct (IH _ Hf'' Hl) as [-> ->].
Qed.

Lemma items_found_fun d found found' : items_found d found -> items_found d found' -> found = found'.
Proof.
  intros Hf. revert found'. induction Hf as [d d' Hn|d d' item found rest found1 Hn Hf Hl _ IH]; intros found' Hf'.
  - inversion Hf' as [|? ? ? ? ? ? Hn']; [done|]. congruence.
  - inversion Hf' as [? ? Hn'|? d2 item' found2 rest2 found3 Hn' Hf2 Hl2 Hf3]; subst; [congruence|].
    rewrite Hn in Hn'. injection Hn' as <- <-.
    destruct (methods_found_fun _ _ _ _ _ _ Hf Hf2) as [-> ->]; [congruence|]. by rewrite (IH _ Hf3).
Qed.

Lemma methods_of_length items : length (methods_of items) = length (concat (item_methods <$> items)).
Proof. apply length_fmap. Qed.

Lemma parse_complete {St} (callback : ContractFileMethod -> St -> St * result unit ContractFileParseError)
    file_bytes h found st :
  (forall call st, exists st', callback call st = (st', Ok tt)) -> file_ok file_bytes h ->
  items_found (new_decoder (metadata_of h file_bytes)) found -> N.of_nat (length found) = header_num_methods h ->
  exists st', parse callback file_bytes st = Ret (st', Ok (file_of h file_bytes)).
Proof.
  intros Hcb Hok Hf Hn. pose proof (ok_size _ _ Hok) as Hsize. pose proof (ok_header _ _ Hok) as Hh.
  destruct (header_small _ _ Hh) as [Hsmall _]. destruct (ok_methods _ _ Hok) as (ms & rest & Hms & Ht & Hes).
  pose proof Hh as Hh'. unfold read_header in Hh. destruct (N.leb_spec HEADER_SIZE (usize file_bytes)) as [Hl|]; [|done]. clear Hh.
  unfold parse. cbv zeta. rewrite (proj2 (N.leb_gt _ _)) by done. unfold split_at_checked at 1.
  rewrite decide_True by (unfold usize in Hl; lia). rewrite file_header by (unfold usize, HEADER_SIZE in Hl; lia). rewrite Hh'.
  cbn [obind]. rewrite bool_decide_true by apply (ok_magic _ _ Hok). cbn [negb].
  rewrite (proj2 (N.ltb_ge _ _)) by apply (ok_read_only _ _ Hok).
  pose proof (ok_metadata _ _ Hok) as Hmd. rewrite (proj2 (get_metadata _ _ file_bytes (metadata_of h file_bytes)))
    by (split; [unfold usize in Hmd; lia|done]).
  fold (table_of file_bytes).
  destruct (parse_items_ok callback h (usize file_bytes) Hsize Hcb (S (length (metadata_of h file_bytes)))
    (new_decoder (metadata_of h file_bytes)) found
    (Walk (metadata_of h file_bytes) (metadata_of h file_bytes) 0 (N.to_nat (header_num_methods h)) (table_of file_bytes)) st ms Hf)
    as (st' & w' & -> & En).
  { cbn. lia. }
  { pose proof (items_found_length _ _ Hf) as Hfl. cbn [metadata new_decoder] in Hfl.
    unfold ready. cbn [table table_left metadata_num_methods remaining_metadata_bytes].
    split_and!; [lia|done|by exists rest|lia|lia|done]. }
  cbn [obind]. rewrite En. cbn [metadata_num_methods]. rewrite N.add_0_l, Hn, N.eqb_refl. cbn [negb].
  pose proof (ok_code_size _ _ Hok). rewrite (proj2 (N.leb_gt _ _)) by done.
  rewrite (proj2 (parse_host_call_iff h file_bytes)) by apply (ok_host_call _ _ Hok). cbn [obind].
  rewrite (proj2 (parse_code_iff file_bytes _ ltac:(done))) by apply (ok_code _ _ Hok). cbn [obind]. by exists st'.
Qed.

(** C12. For a file whose metadata follows the format and a callback that accepts every method,
    parsing succeeds if and only if size and header are valid, the sections are in the file, the
    table has as many methods as the metadata, all in the code at even addresses, the host call
    function is absent or a plain jump in the code, and the code is supported instructions
    ending with a jump, or, what the documentation does not say, with the first two or three
    bytes of a four-byte jump. *)
Theorem parse_exact {St} (callback : ContractFileMethod -> St -> St * result unit ContractFileParseError)
    file_bytes h items st :
  (forall call st, exists st', callback call st = (st', Ok tt)) ->
  metadata_of h file_bytes = concat (print_item <$> items) -> Forall item_wf items -> single_contract false items ->
  read_header file_bytes = Ret h ->
  (exists st' f, parse callback file_bytes st = Ret (st', Ok f)) <->
  file_ok file_bytes h /\ N.of_nat (length (concat (item_methods <$> items))) = header_num_methods h.
Proof.
  intros Hcb Hm Hw Hs Hh. pose proof (items_found_print items (new_decoder (metadata_of h file_bytes)) Hm Hw Hs) as Hf. split.
  - intros (st' & f & (h' & found & ms & calls & w & Hok & -> & Hf' & Hl & Hws & _)%parse_inv).
    assert (h' = h) as -> by (pose proof (ok_header _ _ Hok); congruence). split; [done|].
    pose proof (Forall3_length_lm _ _ _ _ (walked_calls _ _ _ _ _ _ _ Hws)) as E.
    assert (found = methods_of items) as -> by (by eapply items_found_fun). rewrite <- Hl, E, methods_of_length. done.
  - intros [Hok Hn]. destruct (parse_complete callback file_bytes h (methods_of items) st Hcb Hok Hf) as [st' Hp]; [|eauto].
    by rewrite methods_of_length.
Qed.

(** ** Iteration *)

(** The methods that the iterator is going to return *)
Definition upcoming (metadata_bytes : list byte) (s : MethodsMetadataIterState)
    (found : list (MethodMetadataItem * list byte)) : Prop :=
  (exists before, metadata_bytes = before ++ metadata (metadata_decoder s)) /\
  match methods_metadata_decoder s with
  | None => found = []
  | Some d => exists found1 rest found2, found = found1 ++ found2 /\ methods_remaining d = length found1 /\
      methods_found (methods_container_kind d) (metadata (metadata_decoder s)) found1 rest /\
      items_found (with_metadata (metadata_decoder s) rest) found2
  end.

Lemma metadata_next_suffix d d' item :
  metadata_decode_next d = Ret (d', Some (Ok item)) -> exists used, metadata d = used ++ metadata d'.
Proof. intros (i & rest & -> & _ & _ & _ & -> & _)%metadata_decode_next_inv. cbn [metadata with_rest]. eauto. Qed.

Lemma next_methods_decoder_found metadata_bytes d found before :
  metadata_bytes = before ++ metadata d -> items_found d found ->
  exists s, next_methods_decoder d = Ret s /\
    match methods_metadata_decoder s with
    | None => found = []
    | Some _ => upcoming metadata_bytes s found /\ (length (metadata (metadata_decoder s)) < length (metadata d))%nat
    end.
Proof.
  intros Em Hf. unfold next_methods_decoder. destruct Hf as [d d' Hn|d d' item found rest found' Hn Hf Hl Hf'].
  - rewrite Hn. by eexists.
  - rewrite Hn. cbn [obind]. eexists. split; [done|]. cbn [methods_metadata_decoder metadata_decoder].
    split; [|by eapply metadata_next_shorter]. apply metadata_next_suffix in Hn as [used Hu]. split; cbn [metadata_decoder methods_metadata_decoder].
    + exists (before ++ used). by rewrite Em, Hu, app_assoc.
    + by exists found, rest, found'.
Qed.

Lemma next_in_container_found metadata_bytes s d n item used found1 rest found2 :
  (exists before, metadata_bytes = before ++ metadata (metadata_decoder s)) ->
  methods_metadata_decoder s = Some d -> methods_remaining d = S n -> length found1 = n ->
  methods_found (methods_container_kind d) (metadata (metadata_decoder s)) ((item, used) :: found1) rest ->
  items_found (with_metadata (metadata_decoder s) rest) found2 ->
  exists s', next_in_container metadata_bytes s = Ret (s', Some (item, used)) /\ upcoming metadata_bytes s' (found1 ++ found2).
Proof.
  intros [before Em] Ed En Hl Hf Hf2. inversion Hf as [|? ? ? rest1 ? ? Hs Hf1]; subst. unfold next_in_container, methods_decode_next.
  rewrite Ed, En. destruct Hs as (arguments & rest' & -> & Hd & El). cbn [obind]. rewrite Hd. cbn [obind].
  assert (Eb : usize (before ++ metadata (metadata_decoder s)) - usize (metadata (metadata_decoder s)) = usize before)
    by (rewrite usize_app; lia).
  rewrite sub_ok, Eb by (rewrite usize_app; lia). cbn [obind]. rewrite get_unchecked_from_ok by (rewrite usize_app; lia).
  cbn [obind]. rewrite to_nat_usize, drop_app_length.
  assert (Eu : usize (metadata (metadata_decoder s)) - usize rest1 = usize used) by (rewrite El, usize_app; lia).
  rewrite sub_ok, Eu by (rewrite El, usize_app; lia). cbn [obind]. rewrite get_unchecked_to_ok by (rewrite El, usize_app; lia).
  cbn [obind]. rewrite to_nat_usize, El, take_app_length. eexists. split; [done|].
  split; cbn [metadata_decoder methods_metadata_decoder metadata].
  - exists (before ++ used). by rewrite <- app_assoc.
  - exists found1, rest, found2. split_and!; try done.
Qed.

Lemma next_method_found fuel metadata_bytes s item used found :
  (length (metadata (metadata_decoder s)) < fuel)%nat -> upcoming metadata_bytes s ((item, used) :: found) ->
  exists s', next_method fuel metadata_bytes s = Ret (s', Some (item, used)) /\ upcoming metadata_bytes s' found.
Proof.
  revert s. induction fuel as [|fuel IH]; intros s Hl [Hb Hu]; [lia|]. cbn [next_method].
  destruct (methods_metadata_decoder s) as [d|] eqn:Ed; [|done].
  destruct Hu as ([|[item' used'] found1] & rest & found2 & E & En & Hf & Hf2).
  - assert (rest = metadata (metadata_decoder s)) as -> by (by inversion Hf).
    assert (En' : next_in_container metadata_bytes s = Ret (s, None)).
    { unfold next_in_container, methods_decode_next. by rewrite Ed, En. }
    rewrite En'. cbn [obind]. destruct Hb as [before Hb].
    assert (Es : with_metadata (metadata_decoder s) (metadata (metadata_decoder s)) = metadata_decoder s)
      by (by destruct (metadata_decoder s)).
    rewrite Es in Hf2. destruct (next_methods_decoder_found metadata_bytes (metadata_decoder s) found2 before) as (s' & -> & Hs'); [done..|].
    cbn [obind]. cbn in E. subst found2. destruct (methods_metadata_decoder s') eqn:Ed'; [|done]. destruct Hs' as [Hu Hlt].
    apply IH; [lia|done].
  - injection E as <- <- ->.
    destruct (next_in_container_found metadata_bytes s d (length found1) item used found1 rest found2) as (s' & -> & Hs'); try done.
    by exists s'.
Qed.

Lemma upcoming_length metadata_bytes s found :
  upcoming metadata_bytes s found -> (length (metadata (metadata_decoder s)) <= length metadata_bytes)%nat.
Proof. intros [[before ->] _]. rewrite length_app. lia. Qed.

Definition method_of (padding : N) (m : ContractFileMethodMetadata) (found : MethodMetadataItem * list byte) : ContractFileMethod :=
  {| address := offset m + padding; method_metadata_item := fst found; method_metadata_bytes := snd found |}.

Lemma iterate_from_found metadata_bytes padding before ms rest s found :
  upcoming metadata_bytes s found -> length ms = length found ->
  Forall (fun m => offset m + padding < 2 ^ 32 /\ offset m < 2 ^ 32 /\ size m < 2 ^ 32) ms ->
  iterate_from metadata_bytes padding (concat (print_entry <$> before) ++ concat (print_entry <$> ms) ++ rest)
    (length ms) (N.of_nat (length before)) s = Ret (zip_with (method_of padding) ms found).
Proof.
  intros Hu Hl Hms. revert s before found Hu Hl. induction Hms as [|m ms (Ha & Ho & Hz) _ IH]; intros s before found Hu Hl.
  { by destruct found. }
  destruct found as [|[item used] found]; [done|]. cbn [length iterate_from].
  assert (Hlen : forall l, length (concat (print_entry <$> l)) = (8 * length l)%nat).
  { induction l as [|x l IHl]; [done|]. cbn [fmap list_fmap concat length]. rewrite length_app, length_print_entry. lia. }
  rewrite get_unchecked_from_ok; [|unfold usize, METHOD_METADATA_SIZE; rewrite length_app, Hlen; lia]. cbn [obind].
  rewrite drop_app_length' by (unfold METHOD_METADATA_SIZE; rewrite Hlen; lia).
  cbn [fmap list_fmap concat]. rewrite <- app_assoc.
  rewrite get_unchecked_to_ok; [|unfold usize, METHOD_METADATA_SIZE; rewrite length_app, length_print_entry; lia]. cbn [obind].
  rewrite take_app_length' by (by rewrite length_print_entry). rewrite <- (app_nil_r (print_entry m)), read_print_entry by done.
  cbn [obind]. pose proof (upcoming_length _ _ _ Hu).
  destruct (next_method_found (S (length metadata_bytes)) metadata_bytes s item used found) as (s' & -> & Hu'); [lia|done|].
  cbn [obind]. unfold add_u32. rewrite decide_True by done. cbn [obind]. injection Hl as Hl.
  specialize (IH s' (before ++ [m]) found Hu' Hl).
  rewrite fmap_app, concat_app in IH. cbn [fmap list_fmap concat] in IH. rewrite <- !app_assoc in IH. cbn [app] in IH.
  rewrite length_app, Nat2N.inj_add in IH. cbn [length N.of_nat] in IH. rewrite app_nil_r.
  change (N.of_nat 1) with 1 in IH. by rewrite IH.
Qed.

Lemma zip_items padding ms (found : list (MethodMetadataItem * list byte)) :
  length ms = length found ->
  (fun c => (method_metadata_item c, method_metadata_bytes c)) <$> zip_with (method_of padding) ms found = found.
Proof.
  revert found. induction ms as [|m ms IH]; intros [|[item used] found] Hl; try done. cbn. f_equal. apply IH. by injection Hl.
Qed.

(** The addresses of the iterator are those of the parser, plus the offset of the read-only
    section, which the iterator does not subtract. *)
Lemma zip_addresses h file_size ms found calls :
  code_section_offset h = read_only_section_offset h + header_read_only_section_file_size h ->
  Forall3 (call_of h) ms found calls -> Forall (entry_ok h file_size) ms ->
  Forall2 (fun m c => method_metadata_item m = method_metadata_item c /\ address m = address c + read_only_section_offset h)
    (zip_with (method_of (read_only_padding_size h)) ms found) calls.
Proof.
  intros Ho H. induction H as [|m f c ms found calls (Ha & Hi & _) _ IH]; [constructor|].
  intros [(Hlo & _) He]%Forall_cons. cbn [zip_with]. constructor; [|by apply IH]. cbn [method_of method_metadata_item address].
  split; [done|]. apply obind_inv in Ha as (x & Hx & Ha). apply sub_inv in Hx as [-> _]. apply add_u32_inv in Ha as [-> _]. lia.
Qed.

(** The iterator finds the methods that the parser has found. *)
Lemma iterate_found h file_bytes found ms calls w w' :
  file_ok file_bytes h -> items_found (new_decoder (metadata_of h file_bytes)) found ->
  N.of_nat (length ms) = header_num_methods h ->
  walked h (usize file_bytes) found w w' ms calls -> table w = table_of file_bytes ->
  usize file_bytes + read_only_padding_size h < 2 ^ 32 ->
  iterate_methods (file_of h file_bytes) = Ret (zip_with (method_of (read_only_padding_size h)) ms found).
Proof.
  intros Hok Hf Hn Hws Etable Hp.
  pose proof (Forall3_length_lm _ _ _ _ (walked_calls _ _ _ _ _ _ _ Hws)) as El.
  pose proof (ok_metadata _ _ Hok) as Hmd. pose proof (ok_code_size _ _ Hok) as Hcs.
  destruct Hws as [Hcalls He [Ht _] _ _]. rewrite Etable in Ht.
  unfold iterate_methods, metadata_bytes, header. cbn [bytes file_of]. rewrite (ok_header _ _ Hok). cbn [obind].
  rewrite get_unchecked_from_ok by lia. cbn [obind].
  rewrite get_unchecked_to_ok by (unfold usize in *; rewrite length_drop; lia). cbn [obind].
  fold (metadata_of h file_bytes).
  destruct (next_methods_decoder_found (metadata_of h file_bytes) (new_decoder (metadata_of h file_bytes)) found [])
    as (s & -> & Hu); [done..|]. cbn [obind]. rewrite padding_ok by done. cbn [obind].
  rewrite get_unchecked_from_ok by (unfold code_section_offset, read_only_section_offset, saturating_add_u32, usize in *; lia).
  cbn [obind num_methods file_of]. fold (table_of file_bytes). rewrite Ht, <- Hn, Nat2N.id.
  destruct (methods_metadata_decoder s) as [d|] eqn:Ed.
  - destruct Hu as [Hu _]. apply (iterate_from_found _ _ [] ms _ s); [done|done|].
    eapply Forall_impl; [exact He|]. intros m (_ & Hhi & _). pose proof (ok_size _ _ Hok). lia.
  - rewrite Hu in *. by destruct ms.
Qed.

(** C11. A file that the parser accepts has its metadata inside the file, the code right after
    the read-only section to the end of the file, every method and the host call function at
    even addresses in the code, and code that is supported instructions ending with a jump or
    with the first two or three bytes of a four-byte jump, which the parser takes for a jump.
    The file returned is that of [parse_unchecked]; reading its header, metadata and code and
    initializing memory are free of undefined behaviour, and so is iterating over its methods,
    as many as the header says, when file size and padding of the read-only section fit 32 bits.
    *)
Theorem parse_sound {St} (callback : ContractFileMethod -> St -> St * result unit ContractFileParseError)
    file_bytes st st' f :
  parse callback file_bytes st = Ret (st', Ok f) ->
  exists h, file_ok file_bytes h /\ parse_unchecked file_bytes = Ret f /\ header f = Ret h /\
    metadata_bytes f = Ret (metadata_of h file_bytes) /\ get_code f = Ret (code_of h file_bytes) /\
    (forall m, exists m' b, initialize_contract_memory f m = Ret (m', b) /\ length m' = length m) /\
    (usize file_bytes + read_only_padding_size h < 2 ^ 32 ->
     exists methods, iterate_methods f = Ret methods /\ N.of_nat (length methods) = header_num_methods h).
Proof.
  intros (h & found & ms & calls & w & Hok & -> & Hf & Hn & Hws & _)%parse_inv. exists h.
  pose proof (ok_header _ _ Hok) as Hh. pose proof (ok_metadata _ _ Hok) as Hm. split_and!; [done|..].
  - unfold parse_unchecked. by rewrite Hh.
  - done.
  - unfold metadata_bytes, header. cbn [bytes file_of]. rewrite Hh. cbn [obind].
    rewrite get_unchecked_from_ok by lia. cbn [obind]. rewrite get_unchecked_to_ok; [done|].
    unfold usize in *. rewrite length_drop. lia.
  - unfold get_code. rewrite source_bytes_ok by done. cbn [obind read_only_section_file_size file_of].
    by rewrite split_source_ok.
  - intros m. destruct (initialize_spec _ _ Hok m) as (m' & b & Hi & Hl & _). eauto.
  - intros Hp. eexists. split; [by apply (iterate_found h file_bytes found ms calls _ _ Hok Hf Hn Hws eq_refl)|].
    pose proof (Forall3_length_lm _ _ _ _ (walked_calls _ _ _ _ _ _ _ Hws)) as El.
    rewrite length_zip_with, <- El, Nat.min_id. done.
Qed.

(** C20. Iterating over a parsed file, when file size and padding of the read-only section fit
    32 bits, returns the methods for which the parser called its callback, in that order, with
    the same items but addresses that are larger by the offset of the read-only section, against
    the documentation of both. When the metadata follows the format, these are all methods of
    its contracts and traits, each with exactly the bytes that describe it (the bytes given to
    the callback are others). *)
Theorem iterate_returns_methods {St} (callback : ContractFileMethod -> St -> St * result unit ContractFileParseError)
    file_bytes st st' f h :
  parse callback file_bytes st = Ret (st', Ok f) -> header f = Ret h ->
  usize file_bytes + read_only_padding_size h < 2 ^ 32 ->
  exists methods calls, iterate_methods f = Ret methods /\ accepts callback calls st st' /\
    Forall2 (fun m c => method_metadata_item m = method_metadata_item c /\ address m = address c + read_only_section_offset h)
      methods calls /\
    forall items,
      metadata_of h file_bytes = concat (print_item <$> items) -> Forall item_wf items -> single_contract false items ->
      (fun c => (method_metadata_item c, method_metadata_bytes c)) <$> methods = methods_of items.
Proof.
  intros (h' & found & ms & calls & w & Hok & -> & Hf & Hn & Hws & Hc)%parse_inv Hh Hp.
  assert (h' = h) as -> by (pose proof (ok_header _ _ Hok); unfold header in Hh; cbn in Hh; congruence).
  pose proof (iterate_found h file_bytes found ms calls _ _ Hok Hf Hn Hws eq_refl Hp) as Hi.
  pose proof (Forall3_length_lm _ _ _ _ (walked_calls _ _ _ _ _ _ _ Hws)) as El.
  exists (zip_with (method_of (read_only_padding_size h)) ms found), calls. split_and!; [done..| |].
  - destruct Hws. eapply zip_addresses; [apply (ok_code_offset _ _ Hok)|done..].
  - intros items Hm Hw Hs. rewrite zip_items by done.
    eapply items_found_fun; [done|by apply items_found_print].
Qed.

(** ** Running the code *)

Definition z_of_byte (b : byte) : Z := Z.of_N (Byte.to_N b).

Lemma from_le_bytes_value l : RvInt.from_le_bytes (z_of_byte <$> l) = Z.of_N (le_value l).
Proof. induction l as [|b l IH]; [done|]. cbn [fmap list_fmap RvInt.from_le_bytes le_value]. rewrite IH. unfold z_of_byte. lia. Qed.

Lemma z_of_byte_range l : Forall RvInt.is_byte (z_of_byte <$> l).
Proof.
  apply Forall_fmap, Forall_forall. intros b _. cbn. unfold RvInt.is_byte, z_of_byte. pose proof (to_N_lt b). lia.
Qed.

(** The memory of the interpreter, with the memory of a contract at its base *)
Definition memory_of {BASE : Z} (image : list byte) : RvMemory.BasicMemory BASE := RvMemory.mkBasicMemory (z_of_byte <$> image).

Section fetch.
Context {BASE : Z}.
Variable before code : list byte.
Hypothesis Hbase : (0 <= BASE)%Z.
Hypothesis Hend : (BASE + Z.of_nat (length (before ++ code)) < 2 ^ 64)%Z.
Hypothesis Hsize : (Z.of_nat (length (before ++ code)) < 2 ^ 63)%Z.

Lemma read_code n off :
  (0 < n <= 8)%nat -> (off <= length code)%nat ->
  RvMemory.basic_mem_read n (memory_of (BASE := BASE) (before ++ code)) (BASE + Z.of_nat (length before + off)) =
    Ret (if decide (n <= length (drop off code))%nat then Ok (Z.of_N (le_value (take n (drop off code))))
         else Err (RvMemory.OutOfBoundsRead (BASE + Z.of_nat (length before + off)))).
Proof.
  intros Hn Hoff. rewrite length_app in *.
  rewrite RvMemory.basic_mem_read_spec; [|split; cbn; [rewrite length_fmap, length_app; lia|apply z_of_byte_range]|done|lia].
  rewrite length_drop. case_decide as Hd.
  - rewrite RvMemory.bytes_at_in by (split; cbn; [lia|rewrite length_fmap, length_app; lia]). cbn [RvMemory.data memory_of].
    do 2 f_equal. rewrite <- fmap_drop, <- fmap_take, from_le_bytes_value. do 3 f_equal.
    replace (Z.to_nat (BASE + Z.of_nat (length before + off) - BASE)) with (length before + off)%nat by lia.
    by rewrite <- drop_drop, drop_app_length.
  - rewrite RvMemory.bytes_at_out; [done|lia|]. intros [_ H]. cbn in H. rewrite length_fmap, length_app in H. lia.
Qed.

Lemma fetch_code trap off w (i : instruction) :
  instruction_word (drop off code) = Some w -> contract_decode w = Some i ->
  (Z.to_nat (contract_size i) <= length (drop off code))%nat ->
  RvInterp.basic_fetch (RvInterp.Fetcher (I := instruction) trap (BASE + Z.of_nat (length before + off)))
    (memory_of (BASE := BASE) (before ++ code)) =
  Ret (RvInterp.Fetcher trap (BASE + Z.of_nat (length before + off) + contract_size i), Ok (RvInterp.FetchInstruction i)).
Proof.
  intros Hw Hd Hs. pose proof (instruction_word_length _ _ Hw) as Hl. pose proof (contract_decode_size w i Hd) as Hz.
  rewrite length_drop in Hl. assert (Hoff : (off <= length code)%nat) by lia.
  assert (Hgo : forall m, RvInterp.fetch_word m (BASE + Z.of_nat (length before + off)) = Ret (Ok w) ->
    RvInterp.basic_fetch (RvInterp.Fetcher (I := instruction) trap (BASE + Z.of_nat (length before + off))) (m : RvMemory.BasicMemory BASE) =
    Ret (RvInterp.Fetcher trap (BASE + Z.of_nat (length before + off) + contract_size i), Ok (RvInterp.FetchInstruction i))).
  { intros m Hm. unfold RvInterp.basic_fetch. cbn [RvInterp.pc RvInterp.return_trap_address]. rewrite Hm. cbn [obind].
    cbn [RvInterp.decode RvInterp.size Contract_Instruction]. rewrite Hd.
    rewrite (proj2 (Z.ltb_lt _ _)); [done|]. rewrite length_drop in Hs. rewrite length_app in Hend. lia. }
  apply Hgo. clear Hgo. unfold RvInterp.fetch_word. cbn [RvMemory.mem_read RvMemory.BasicMemory_virtual].
  rewrite !read_code by (done || lia). cbn [obind]. unfold instruction_word in Hw. case_decide; [by injection Hw as <-|].
  case_decide; [|done]. injection Hw as <-. cbn [obind].
  unfold is_long in Hz. destruct (Z.land _ 3 =? 3)%Z; [|done]. rewrite Hz in Hs. lia.
Qed.

(** A longer instruction at the end of the memory is not fetched. *)
Lemma fetch_cut trap off w (i : instruction) :
  instruction_word (drop off code) = Some w -> contract_decode w = Some i ->
  (length (drop off code) < Z.to_nat (contract_size i))%nat ->
  let p := (BASE + Z.of_nat (length before + off))%Z in
  RvInterp.basic_fetch (RvInterp.Fetcher (I := instruction) trap p) (memory_of (BASE := BASE) (before ++ code)) =
  Ret (RvInterp.Fetcher trap p, Err (Rv64Exec.MemoryAccess (RvMemory.OutOfBoundsRead p))).
Proof.
  intros Hw Hd Hs p. pose proof (instruction_word_length _ _ Hw) as Hl. pose proof (contract_decode_size w i Hd) as Hz.
  assert (Hoff : (off <= length code)%nat) by (rewrite length_drop in Hl; lia).
  unfold RvInterp.basic_fetch, RvInterp.fetch_word. cbn [RvInterp.pc RvMemory.mem_read RvMemory.BasicMemory_virtual].
  unfold p. rewrite !read_code by (done || lia). cbn [obind].
  assert (H4 : ~ (4 <= length (drop off code))%nat) by (destruct (is_long w); lia).
  unfold instruction_word in Hw. rewrite (decide_False _ _ H4) in Hw. rewrite (decide_True _ _ Hl) in Hw. injection Hw as <-.
  rewrite (decide_False _ _ H4), (decide_True _ _ Hl). cbn [obind].
  unfold is_long in Hz. destruct (Z.land _ 3 =? 3)%Z; [done|lia].
Qed.
End fetch.

Lemma instructions_at l init i tail :
  instructions_of l (init ++ i :: tail) ->
  exists w, instruction_word (drop (code_size init) l) = Some w /\ contract_decode w = Some i /\
    (tail <> [] -> Z.to_nat (contract_size i) < length (drop (code_size init) l))%nat.
Proof.
  revert l. induction init as [|j init IH]; intros l H.
  - apply instructions_of_inv in H as (w & i' & tail' & Hw & Hd & [= -> ->] & H). cbn. rewrite drop_0.
    exists w. split_and!; [done..|]. intros Ht. by destruct H as [[_ ->]|[H _]].
  - apply instructions_of_inv in H as (w & j' & tail' & Hw & Hd & [= -> <-] & H).
    destruct H as [[_ E]|[_ H]]; [by destruct init|]. apply IH in H. unfold code_size in *. cbn. by rewrite drop_drop in H.
Qed.

Lemma instructions_of_fun l a b : instructions_of l a -> instructions_of l b -> a = b.
Proof.
  intros Ha. revert b. induction Ha as [l w i Hw Hd Hl|l w i tail Hw Hd Hl Ht IH]; intros b Hb;
    apply instructions_of_inv in Hb as (w' & i' & tail' & Hw' & Hd' & -> & H); assert (w' = w) as -> by congruence;
    assert (i' = i) as -> by congruence.
  - destruct H as [[_ ->]|[H _]]; [done|lia].
  - destruct H as [[H _]|[_ H]]; [lia|]. by rewrite (IH _ H).
Qed.

(** The word is shorter than 32 bits. *)
Lemma instruction_word_range l w : instruction_word l = Some w -> (0 <= w < 2 ^ 32)%Z.
Proof.
  assert (Hb : forall n, (n <= 4)%nat -> (0 <= Z.of_N (le_value (take n l)) < 2 ^ 32)%Z).
  { intros n Hn. pose proof (le_value_lt (take n l)) as Hlt. pose proof (length_take l n) as Hl.
    assert (256 ^ N.of_nat (length (take n l)) <= 256 ^ 4) by (apply N.pow_le_mono_r; lia). lia. }
  unfold instruction_word. repeat case_decide; [intros [= <-]; apply Hb; lia..|done].
Qed.

Section run.
Context {H : Type} {BASE : Z}.
Context `{!SystemInstructionHandler H ContractRegisters (BasicMemory BASE) (BasicInstructionFetcher instruction)}.

Abbreviation state := (machine ContractRegisters (BasicMemory BASE) (BasicInstructionFetcher instruction) H).

(** The address of the code after [init], in a memory at [BASE] *)
Definition address_after (h : ContractFileHeader) (init : list instruction) : Z :=
  BASE + Z.of_N (header_read_only_section_memory_size h) + Z.of_nat (code_size init).

Lemma fetch_checked file_bytes h init i (s : state) w :
  file_ok file_bytes h -> (0 <= BASE)%Z -> (BASE + Z.of_nat (length (image_of h file_bytes)) < 2 ^ 64)%Z ->
  m_memory s = memory_of (image_of h file_bytes) -> pc (m_pc s) = address_after h init ->
  instruction_word (drop (code_size init) (code_of h file_bytes)) = Some w -> contract_decode w = Some i ->
  fetch (m_pc s) (m_memory s) =
    Ret (if decide (code_size (init ++ [i]) <= length (code_of h file_bytes))%nat
         then (Fetcher (return_trap_address (m_pc s)) (address_after h (init ++ [i])), Ok (FetchInstruction i))
         else (m_pc s, Err (MemoryAccess (OutOfBoundsRead (pc (m_pc s)))))).
Proof.
  intros Hok Hb Hend Hmem Hpc Hw Hd.
  pose proof (ok_read_only _ _ Hok) as Hro. pose proof (length_read_only _ _ Hok) as Hlro.
  set (before := read_only_of h file_bytes ++ replicate (N.to_nat (read_only_padding_size h)) x00).
  assert (Eimage : image_of h file_bytes = before ++ code_of h file_bytes) by (unfold image_of, before; by rewrite <- app_assoc).
  assert (Hbefore : Z.of_nat (length before) = Z.of_N (header_read_only_section_memory_size h)).
  { unfold before. rewrite length_app, length_replicate, Hlro. unfold read_only_padding_size in *. lia. }
  assert (Hsmall : (Z.of_nat (length (before ++ code_of h file_bytes)) < 2 ^ 63)%Z).
  { pose proof (ok_size _ _ Hok) as Hs. destruct (header_small _ _ (ok_header _ _ Hok)) as [_ Hm].
    unfold code_of, usize in *. rewrite length_app, length_drop. lia. }
  assert (Epc : forall l, address_after h l = (BASE + Z.of_nat (length before + code_size l))%Z)
    by (intros l; unfold address_after; lia).
  assert (Hend' : (BASE + Z.of_nat (length (before ++ code_of h file_bytes)) < 2 ^ 64)%Z) by (by rewrite <- Eimage).
  cbn [fetch Basic_InstructionFetcher]. rewrite Hmem, Eimage.
  pose proof (contract_size_pos w i Hd). pose proof (instruction_word_length _ _ Hw) as Hl. rewrite length_drop in Hl.
  destruct (m_pc s) as [trap p] eqn:Ep. cbn [pc return_trap_address] in *. subst p. rewrite !Epc, code_size_app, code_size_one.
  case_decide as Hfit.
  - rewrite (fetch_code before _ Hb Hend' Hsmall trap (code_size init) w i) by (done || rewrite length_drop; lia).
    do 3 f_equal. lia.
  - by rewrite (fetch_cut before _ Hb Hend' Hsmall trap (code_size init) w i) by (done || rewrite length_drop; lia).
Qed.

Lemma last_is_jump code init i : code_ok code -> instructions_of code (init ++ [i]) -> is_jump i = true.
Proof.
  intros (init' & i' & Hi' & Hj)%code_ok_iff Hins. pose proof (instructions_of_fun _ _ _ Hins Hi') as E.
  by apply app_inj_2 in E as [_ [= ->]].
Qed.

Lemma cut_at_end code init i :
  code_ok code -> instructions_of code (init ++ [i]) -> (length code < code_size (init ++ [i]))%nat -> ends_with_cut_jump code.
Proof.
  intros Hc Hins Hlt. exists init, i. split_and!; [done|by eapply last_is_jump|..];
    destruct (instructions_cover _ _ _ Hins) as [?|[??]]; (done || lia).
Qed.

(** Instructions that are not jumps leave the program counter after them. *)
Lemma step_in_line h init i (s s' : state) r l w :
  instruction_word l = Some w -> contract_decode w = Some i -> is_jump i = false ->
  fetch (m_pc s) (m_memory s) =
    Ret (Fetcher (return_trap_address (m_pc s)) (address_after h (init ++ [i])), Ok (FetchInstruction i)) ->
  step (I := instruction) (R := ContractRegister) s = Ret (s', r) -> pc (m_pc s') = address_after h (init ++ [i]).
Proof.
  intros Hw Hd Hj Hfetch Hstep. unfold step in Hstep. rewrite Hfetch in Hstep. cbn [obind] in Hstep.
  destruct (get_operands i) as [rs1 rs2]. apply obind_inv in Hstep as (a & _ & Hstep). apply obind_inv in Hstep as (b & _ & Hstep).
  apply obind_inv in Hstep as ([s1 r1] & Hx & Hstep).
  assert (Hp1 : m_pc s1 = Fetcher (return_trap_address (m_pc s)) (address_after h (init ++ [i]))).
  { eapply only_jumps_jump in Hx; [exact Hx|done|]. intros j -> ->.
    by pose proof (contract_decode_wf w _ (instruction_word_range _ _ Hw) Hd) as [_ ?]. }
  destruct r1 as [[[rd v]|]|e]; [apply obind_inv in Hstep as (rs & _ & Hstep)|..]; injection Hstep as <- <-; cbn; by rewrite Hp1.
Qed.

(** C19. In the memory of a parsed file, at each of the instructions that the parser has seen,
    the interpreter fetches this instruction when it is whole; only the last one, a jump, can be
    cut off, and fetching that is an out of bounds error. After an instruction that is not a
    jump there is another one, and the machine is at it when a step returns: execution does not
    run off the end of the code or into the middle of an instruction without a jump. *)
Theorem checked_code_runs {St} (callback : ContractFileMethod -> St -> St * result unit ContractFileParseError)
    file_bytes st st' f h init i tail (s : state) :
  parse callback file_bytes st = Ret (st', Ok f) -> header f = Ret h ->
  instructions_of (code_of h file_bytes) (init ++ i :: tail) ->
  (0 <= BASE /\ BASE + Z.of_nat (length (image_of h file_bytes)) < 2 ^ 64)%Z ->
  m_memory s = memory_of (image_of h file_bytes) -> pc (m_pc s) = address_after h init ->
  fetch (m_pc s) (m_memory s) =
    Ret (if decide (code_size (init ++ [i]) <= length (code_of h file_bytes))%nat
         then (Fetcher (return_trap_address (m_pc s)) (address_after h (init ++ [i])), Ok (FetchInstruction i))
         else (m_pc s, Err (MemoryAccess (OutOfBoundsRead (pc (m_pc s)))))) /\
  (length (code_of h file_bytes) < code_size (init ++ [i]) -> tail = [] /\ ends_with_cut_jump (code_of h file_bytes))%nat /\
  (is_jump i = false ->
    tail <> [] /\ forall s' r, step (I := instruction) (R := ContractRegister) s = Ret (s', r) ->
      pc (m_pc s') = address_after h (init ++ [i])).
Proof.
  intros (h' & found & ms & calls & w0 & Hok & -> & _)%parse_inv Hh Hins [Hb Hend] Hmem Hpc.
  assert (h' = h) as -> by (pose proof (ok_header _ _ Hok); unfold header in Hh; cbn in Hh; congruence).
  destruct (instructions_at _ _ _ _ Hins) as (w & Hw & Hd & Hnext).
  pose proof (fetch_checked file_bytes h init i s w Hok Hb Hend Hmem Hpc Hw Hd) as Hfetch.
  assert (Hin : tail <> [] -> (code_size (init ++ [i]) <= length (code_of h file_bytes))%nat)
    by (intros Ht; specialize (Hnext Ht); rewrite length_drop in Hnext; rewrite code_size_app, code_size_one; lia).
  split_and!; [done| |].
  - intros Hcut. destruct tail; [|by specialize (Hin ltac:(done)); lia]. split; [done|].
    by apply (cut_at_end _ init i (ok_code _ _ Hok)).
  - intros Hj. assert (Ht : tail <> []) by (intros ->; by rewrite (last_is_jump _ _ _ (ok_code _ _ Hok) Hins) in Hj).
    split; [done|]. rewrite decide_True in Hfetch by auto. intros s' r. by eapply step_in_line.
Qed.
End run.

(** ** A file *)

Definition print_header (h : ContractFileHeader) : list byte :=
  magic h ++ le_split 4 (header_read_only_section_file_size h) ++ le_split 4 (header_read_only_section_memory_size h) ++
  le_split 4 (metadata_offset h) ++ le_split 2 (metadata_size h) ++ le_split 2 (header_num_methods h) ++
  le_split 4 (host_call_fn_offset h).

(** A trait with a method, whose code is [c.nop; c.j 0]; the latter is the host call function. *)
Definition sample_items : list item :=
  [ATrait [x54] [{| meth_kind := NativeExecutor.UpdateStateless; meth_name := [x66]; meth_args := [] |}]].

Definition header_with (memory_size host_call : N) : ContractFileHeader :=
  {| magic := CONTRACT_FILE_MAGIC; header_read_only_section_file_size := 8;
     header_read_only_section_memory_size := memory_size; metadata_offset := 32; metadata_size := 8;
     header_num_methods := 1; host_call_fn_offset := host_call |}.

Definition sample_header (memory_size : N) : ContractFileHeader := header_with memory_size 42.

Definition sample_file (h : ContractFileHeader) (m : ContractFileMethodMetadata) (code : list byte) : list byte :=
  print_header h ++ print_entry m ++ concat (print_item <$> sample_items) ++ code.

Definition sample_code : list byte := [x01; x00; x01; xa0].
Definition sample_bytes : list byte := sample_file (sample_header 10) {| offset := 40; size := 4 |} sample_code.

(** A callback that collects the methods *)
Definition collect (m : ContractFileMethod) (st : list ContractFileMethod)
    : list ContractFileMethod * result unit ContractFileParseError := (st ++ [m], Ok tt).

Definition sample_method_item : MethodMetadataItem :=
  {| method_name := [x66]; item_method_kind := NativeExecutor.UpdateStateless; num_arguments := 0 |}.

Definition sample_call (a : N) (l : list byte) : ContractFileMethod :=
  {| address := a; method_metadata_item := sample_method_item; method_metadata_bytes := l |}.

(** The parser gives the callback the first bytes of the metadata, here of the trait, for those of
    the method, which the iterator returns; the iterator returns another address. *)
Example sample_parsed :
  parse collect sample_bytes [] =
    Ret ([sample_call 10 [x01; x01; x54; x01]], Ok (file_of (sample_header 10) sample_bytes)) /\
  iterate_methods (file_of (sample_header 10) sample_bytes) = Ret [sample_call 42 [x03; x01; x66; x00]].
Proof. by vm_compute. Qed.

Lemma parse_sound_witness :
  exists h, file_ok sample_bytes h /\ parse_unchecked sample_bytes = Ret (file_of (sample_header 10) sample_bytes) /\
    header (file_of (sample_header 10) sample_bytes) = Ret h /\
    metadata_bytes (file_of (sample_header 10) sample_bytes) = Ret (metadata_of h sample_bytes) /\
    get_code (file_of (sample_header 10) sample_bytes) = Ret (code_of h sample_bytes) /\
    (forall m, exists m' b, initialize_contract_memory (file_of (sample_header 10) sample_bytes) m = Ret (m', b) /\ length m' = length m) /\
    (usize sample_bytes + read_only_padding_size h < 2 ^ 32 ->
     exists methods, iterate_methods (file_of (sample_header 10) sample_bytes) = Ret methods /\
       N.of_nat (length methods) = header_num_methods h).
Proof.
  apply (parse_sound collect sample_bytes [] [sample_call 10 [x01; x01; x54; x01]]). vm_compute. reflexivity.
Defined.

Lemma memory_holds_sections_witness :
  exists h, header (file_of (sample_header 10) sample_bytes) = Ret h /\ length (image_of h sample_bytes) = 14%nat.
Proof.
  destruct (memory_holds_sections collect sample_bytes [] [sample_call 10 [x01; x01; x54; x01]]
    (file_of (sample_header 10) sample_bytes) 14) as (h & Hh & Hl & _); [vm_compute; reflexivity..|]. exists h. split; assumption.
Defined.

Lemma sample_items_wf : Forall item_wf sample_items.
Proof.
  constructor; [|constructor]. split; [split; unfold name_ok; cbn; lia|]. constructor; [|constructor].
  unfold method_wf, name_ok. cbn. split_and!; try done; lia.
Qed.

Lemma parse_exact_witness :
  (exists st' f, parse collect sample_bytes [] = Ret (st', Ok f)) <->
  file_ok sample_bytes (sample_header 10) /\ N.of_nat (length (concat (item_methods <$> sample_items))) = 1.
Proof.
  apply (parse_exact collect sample_bytes (sample_header 10) sample_items).
  - intros call st. eexists. reflexivity.
  - vm_compute. reflexivity.
  - apply sample_items_wf.
  - split; done.
  - vm_compute. reflexivity.
Defined.

Lemma iterate_returns_methods_witness :
  exists methods calls, iterate_methods (file_of (sample_header 10) sample_bytes) = Ret methods /\
    accepts collect calls [] [sample_call 10 [x01; x01; x54; x01]] /\
    Forall2 (fun m c => method_metadata_item m = method_metadata_item c /\ address m = address c + 32) methods calls /\
    (fun c => (method_metadata_item c, method_metadata_bytes c)) <$> methods = methods_of sample_items.
Proof.
  destruct (iterate_returns_methods collect sample_bytes [] [sample_call 10 [x01; x01; x54; x01]]
    (file_of (sample_header 10) sample_bytes) (sample_header 10)) as (methods & calls & Hi & Hc & Ha & Hm);
    [vm_compute; reflexivity..|].
  exists methods, calls. split_and!; [exact Hi|exact Hc|exact Ha|].
  apply Hm; [vm_compute; reflexivity|apply sample_items_wf|split; done].
Defined.

Definition sample_instructions : list instruction := [CiZca (RvZca.RvZca.CNop); CiZca (RvZca.RvZca.CJ 0)].

Lemma sample_instructions_of : instructions_of (code_of (sample_header 10) sample_bytes) sample_instructions.
Proof.
  eapply (next_instruction _ 0xa0010001); [vm_compute; reflexivity..|apply Nat.ltb_lt; vm_compute; reflexivity|].
  eapply (last_instruction _ 0xa001); [vm_compute; reflexivity..|apply Nat.leb_le; vm_compute; reflexivity].
Qed.

Definition sample_machine : machine ContractRegisters (BasicMemory 0x1000) (BasicInstructionFetcher instruction) IllegalEcallHandler :=
  Machine contract_registers_default (memory_of (image_of (sample_header 10) sample_bytes)) (Fetcher 0 0x100a) IllegalEcall.

Lemma checked_code_runs_witness :
  ([CiZca (RvZca.RvZca.CJ 0)] : list instruction) <> [] /\
  forall s' r, step (I := instruction) (R := ContractRegister) sample_machine = Ret (s', r) -> pc (m_pc s') = 0x100c%Z.
Proof.
  refine (proj2 (proj2 (checked_code_runs collect sample_bytes [] [sample_call 10 [x01; x01; x54; x01]]
    (file_of (sample_header 10) sample_bytes) (sample_header 10) [] (CiZca RvZca.RvZca.CNop) [CiZca (RvZca.RvZca.CJ 0)]
    sample_machine _ _ _ _ _ _)) _); try (vm_compute; reflexivity).
  - apply sample_instructions_of.
  - split; [lia|]. apply Z.ltb_lt. vm_compute. reflexivity.
Defined.

(** ** Files that are not handled as documented *)

(** The end of a method, its address and the size of the memory are computed without checks for
    overflow; the last of these for a file that is accepted. *)
Example method_end_overflows :
  parse collect (sample_file (sample_header 10) {| offset := 2 ^ 32 - 1; size := 1 |} sample_code) [] = Fault.
Proof. by vm_compute. Qed.

Example method_address_overflows :
  parse collect (sample_file (sample_header (2 ^ 32 - 1)) {| offset := 42; size := 2 |} sample_code) [] = Fault.
Proof. by vm_compute. Qed.

Example memory_size_overflows :
  let h := header_with (2 ^ 32 - 2) 0 in
  let file := sample_file h {| offset := 40; size := 4 |} sample_code in
  match parse collect file [] with Ret (_, Ok f) => contract_memory_size f = Fault | _ => False end.
Proof. by vm_compute. Qed.

(** A jump of 32 bits of which only the first half is in the file is accepted as the last
    instruction, and cannot be fetched. *)
Example truncated_jump_accepted :
  let h := header_with 10 0 in
  let file := sample_file h {| offset := 40; size := 4 |} [x01; x00; x6f; x00] in
  match parse collect file [] with Ret (_, Ok f) => f = file_of h file | _ => False end /\
  fetch (Fetcher (I := instruction) 0 12) (memory_of (BASE := 0) (image_of h file)) =
    Ret (Fetcher 0 12, Err (MemoryAccess (OutOfBoundsRead 12))).
Proof. by vm_compute. Qed.

(** Memory that is too small is taken for initialized if it has the size of the sections in the
    file: the code is not where the padding puts it. *)
Example short_memory_accepted :
  let f := file_of (sample_header 10) sample_bytes in
  contract_memory_size f = Ret 14 /\
  initialize_contract_memory f (replicate 12 None) = Ret (Some <$> (concat (print_item <$> sample_items) ++ sample_code), true).
Proof. by vm_compute. Qed.

(** ** Parsing returns *)

(** The ends of the methods in the table fit into a [u32]. *)
Definition table_small (n : nat) (table : list byte) : Prop :=
  forall k m, (k < n)%nat -> read_method_metadata (take 8 (drop (8 * k) table)) = Ret m -> offset m + size m < 2 ^ 32.

Section returns.
Context {St : Type} (callback : ContractFileMethod -> St -> St * result unit ContractFileParseError).
Variable h : ContractFileHeader.
Variable file_size : N.
Hypothesis Hnum : header_num_methods h < 2 ^ 16.
Hypothesis Hpadding : file_size + read_only_padding_size h < 2 ^ 32.

(** Enough to go on from [w] *)
Definition sane (w : walk) : Prop :=
  no_full_variant (to_decode w) /\ metadata_num_methods w + usize (to_decode w) < 2 ^ 16 /\ table_small (table_left w) (table w).

Lemma memory_address_returns o : code_section_offset h <= o -> o <= file_size -> exists a, memory_address h o = Ret a.
Proof.
  intros Hlo Hhi. unfold memory_address. rewrite sub_ok.
  - cbn [obind]. unfold add_u32. rewrite decide_True by lia. eauto.
  - unfold code_section_offset, saturating_add_u32, read_only_section_offset, HEADER_SIZE, METHOD_METADATA_SIZE in *. lia.
Qed.

Lemma next_method_metadata_returns n l :
  table_small (S n) l ->
  exists r, next_method_metadata h file_size l = Ret r /\
    match r with
    | Ok (m, rest) => table_small n rest /\ exists a, memory_address h (offset m) = Ret a
    | Err _ => True
    end.
Proof.
  intros Ht. unfold next_method_metadata. destruct (split_at_checked _ l) as [[entry rest]|] eqn:E; [|by eexists].
  apply split_at_checked_inv in E as [-> Hl]. change (N.to_nat METHOD_METADATA_SIZE) with 8%nat in Hl.
  assert (Hr : exists m, read_method_metadata entry = Ret m).
  { unfold read_method_metadata, usize, METHOD_METADATA_SIZE. rewrite Hl. by eexists. }
  destruct Hr as [m Hm]. rewrite Hm. cbn [obind].
  assert (Hs : offset m + size m < 2 ^ 32).
  { apply (Ht 0%nat m); [lia|]. rewrite drop_0, take_app_length' by done. done. }
  unfold add_u32. rewrite decide_True by done. cbn [obind].
  destruct (N.ltb_spec file_size (offset m + size m)); [by eexists|].
  destruct (N.ltb_spec (offset m) (code_section_offset h)); [by eexists|].
  exists (Ok (m, rest)). split; [done|]. split; [|apply memory_address_returns; lia].
  intros k m' Hk Hm'. apply (Ht (S k) m'); [lia|].
  replace (8 * S k)%nat with (length entry + 8 * k)%nat by lia. by rewrite <- drop_drop, drop_app_length.
Qed.

Lemma parse_method_returns container w st :
  sane w -> exists st' rest r, parse_method callback h file_size container w st = Ret (st', rest, r) /\
    rest `suffix_of` to_decode w /\ match r with Ok w' => sane w' /\ to_decode w' = rest | Err _ => True end.
Proof.
  intros (Ht & Hn & Htab). unfold parse_method.
  destruct (reads_method container (to_decode w) Ht) as (rest & r & Hm & Hs). rewrite Hm. cbn [obind].
  destruct r as [[arguments item]|e]; [|by eexists _, _, _].
  destruct (drop_arguments_returns arguments rest) as (rest' & Hd & Hs'); [by eapply no_full_variant_suffix|]. rewrite Hd. cbn [obind].
  destruct (method_step_of _ _ _ _ _ _ Hm Hd) as [used Hu]. pose proof (method_step_length _ _ _ _ _ Hu) as Hlen.
  destruct Hu as (_ & _ & _ & _ & El). assert (Hsr : rest' `suffix_of` to_decode w) by (by transitivity rest).
  assert (Hlu : usize (to_decode w) = usize used + usize rest') by (by rewrite El, usize_app).
  assert (3 <= usize used) by (unfold usize; lia).
  unfold add_u16. rewrite (proj2 (N.ltb_lt _ _)) by lia. cbn [obind]. rewrite sub_ok by lia. cbn [obind].
  destruct (split_at_checked _ _) as [[b remaining]|]; [|by eexists _, _, _].
  destruct (table_left w) as [|k]; [by eexists _, _, _|].
  destruct (next_method_metadata_returns k (table w) Htab) as (entry & -> & Hentry). cbn [obind].
  destruct entry as [[m table']|e]; [|by eexists _, _, _]. destruct Hentry as [Htab' [a ->]]. cbn [obind].
  destruct (negb _); [by eexists _, _, _|]. destruct (callback _ st) as [st' [[]|e]]; [|by eexists _, _, _].
  eexists _, _, _. split; [done|]. split; [done|]. split; [|done]. unfold sane.
  cbn [to_decode metadata_num_methods table_left table]. split_and!; [by eapply no_full_variant_suffix|lia|done].
Qed.

Lemma parse_methods_returns container n w st :
  sane w -> exists st' r, parse_methods callback h file_size container n w st = Ret (st', r) /\
    match r with Ok w' => sane w' /\ to_decode w' `suffix_of` to_decode w | Err _ => True end.
Proof.
  revert w st. induction n as [|n IH]; intros w st Hs; cbn [parse_methods]; [by eexists _, _|].
  destruct (parse_method_returns container w st Hs) as (st' & rest & r & -> & Hsuf & Hr). cbn [obind]. destruct r as [w'|e].
  - destruct Hr as [Hs' E]. destruct (IH w' st' Hs') as (st2 & r2 & -> & H2). eexists _, _. split; [done|].
    destruct r2; [|done]. destruct H2 as [? ?]. split; [done|]. transitivity (to_decode w'); [done|by rewrite E].
  - destruct (drop_methods_returns container n rest) as (? & -> & _); [|by eexists _, _].
    eapply no_full_variant_suffix; [apply Hs|done].
Qed.

Lemma parse_items_returns fuel d w st :
  (length (metadata d) < fuel)%nat -> no_full_variant (metadata d) ->
  metadata_num_methods w + usize (metadata d) < 2 ^ 16 -> table_small (table_left w) (table w) ->
  exists st' r, parse_items callback h file_size fuel d w st = Ret (st', r).
Proof.
  revert d w st. induction fuel as [|fuel IH]; intros d w st Hl Ht Hn Htab; [lia|]. cbn [parse_items].
  destruct (metadata_decode_next_returns d Ht) as (d' & next & -> & Hsuf & Hlt). cbn [obind].
  destruct next as [[item|e]|]; [|eauto..]. pose proof (suffix_length _ _ Hsuf) as Hsl. cbv zeta.
  destruct (parse_methods_returns (methods_container_kind (into_decoder item)) (methods_remaining (into_decoder item))
    (Walk (metadata d') (remaining_metadata_bytes w) (metadata_num_methods w) (table_left w) (table w)) st)
    as (st' & r & -> & Hr).
  { split_and!; [by eapply no_full_variant_suffix|cbn; unfold usize in *; lia|done]. }
  cbn [obind]. destruct r as [w'|e]; [|eauto]. destruct Hr as [(Ht' & Hn' & Htab') Hs']. cbn [to_decode] in *.
  pose proof (suffix_length _ _ Hs'). apply IH; cbn [metadata]; [|done..]. specialize (Hlt ltac:(done)). lia.
Qed.

Lemma parse_host_call_returns file_bytes : exists r, parse_host_call h file_size file_bytes = Ret r.
Proof.
  unfold parse_host_call. cbv zeta. destruct (_ =? 0); [eauto|].
  destruct (N.leb_spec file_size (host_call_fn_offset h)); cbn [orb]; [eauto|].
  destruct (N.ltb_spec (host_call_fn_offset h) (code_section_offset h)); [eauto|].
  destruct (get_from _ _); [|eauto]. case_match; [|eauto]. destruct (contract_decode _) as [i|]; [|eauto].
  destruct (matches_expected_pattern i); [|eauto].
  destruct (memory_address_returns (host_call_fn_offset h)) as [a ->]; [lia..|]. cbn [obind]. destruct (negb _); eauto.
Qed.
End returns.

Lemma scan_code_returns fuel file_bytes off last :
  (length file_bytes < off + fuel)%nat -> exists r, scan_code fuel file_bytes off last = Ret r.
Proof.
  revert off last. induction fuel as [|fuel IH]; intros off last Hf; cbn [scan_code]; case_decide; [lia|eauto| |eauto].
  cbv zeta. destruct (instruction_word _) as [w|]; [|eauto]. destruct (contract_decode w) as [i|] eqn:Hd; [|eauto].
  pose proof (contract_size_pos w i Hd). apply IH. lia.
Qed.

(** C34. Parsing returns a file or an error, and does not panic or loop, for every sequence of
    bytes in which file size plus padding of the read-only section and the end of each method of
    the table are below 2^32, and no fields described anywhere in the metadata take 2^32 - 1
    bytes. *)
Theorem parse_returns {St} (callback : ContractFileMethod -> St -> St * result unit ContractFileParseError) file_bytes st :
  (forall h, read_header file_bytes = Ret h ->
    usize file_bytes + read_only_padding_size h < 2 ^ 32 /\ no_full_variant (metadata_of h file_bytes) /\
    table_small (N.to_nat (header_num_methods h)) (table_of file_bytes)) ->
  exists st' r, parse callback file_bytes st = Ret (st', r).
Proof.
  intros Hs. unfold parse. cbv zeta. destruct (2 ^ 32 <=? usize file_bytes); [eauto|].
  destruct (split_at_checked _ file_bytes) as [[hb tb]|] eqn:E; [|eauto]. apply split_at_checked_inv in E as [Ef Hl].
  assert (Hr : read_header hb = read_header file_bytes).
  { rewrite Ef, <- (file_header (hb ++ tb)) by (rewrite length_app; unfold HEADER_SIZE in Hl; lia). by rewrite take_app_length'. }
  assert (Hh : exists h, read_header hb = Ret h).
  { unfold read_header. rewrite (proj2 (N.leb_le _ _)) by (unfold usize; lia). by eexists. }
  destruct Hh as [h Hh]. rewrite Hh. rewrite Hr in Hh. cbn [obind].
  destruct (Hs h Hh) as (Hp & Ht & Htab). destruct (negb _); [eauto|]. destruct (_ <? _); [eauto|].
  destruct (match get_from _ _ with Some l => _ | None => _ end) as [md|] eqn:Hmd; [|eauto].
  apply get_metadata in Hmd as [Hmd ->]. fold (metadata_of h file_bytes).
  destruct (header_small _ _ Hh) as [Hnum _].
  assert (Et : tb = table_of file_bytes) by (unfold table_of; rewrite Ef; by rewrite drop_app_length').
  destruct (parse_items_returns callback h (usize file_bytes) Hnum Hp (S (length (metadata_of h file_bytes)))
    (new_decoder (metadata_of h file_bytes))
    (Walk (metadata_of h file_bytes) (metadata_of h file_bytes) 0 (N.to_nat (header_num_methods h)) tb) st)
    as (st' & r & ->).
  { cbn. lia. } { done. }
  { cbn [metadata_num_methods metadata new_decoder]. unfold usize, metadata_of. rewrite length_take.
    assert (metadata_size h < 2 ^ 16); [|lia]. unfold read_header in Hh. destruct (_ <=? _); [|done]. injection Hh as <-. apply field_lt. }
  { cbn [table_left table]. by rewrite Et. }
  cbn [obind]. destruct r as [w|e]; [|eauto]. destruct (negb _); [eauto|].
  destruct (N.leb_spec (usize file_bytes) (code_section_offset h)); [eauto|].
  destruct (parse_host_call_returns h (usize file_bytes) Hnum Hp file_bytes) as [r ->]. cbn [obind]. destruct r; [|eauto].
  unfold parse_code. destruct (scan_code_returns (S (length file_bytes)) file_bytes (N.to_nat (code_section_offset h))
    (CiI Rv64Decode.Rv64.Unimp)) as [r ->]; [lia|]. cbn [obind]. destruct r as [i|]; [|eauto]. destruct (is_jump i); eauto.
Qed.

Lemma parse_returns_witness : exists st' r, parse collect sample_bytes [] = Ret (st', r).
Proof.
  apply (parse_returns collect sample_bytes []). intros h [= <-]. split_and!.
  - reflexivity.
  - apply no_full_variant_by_drop. vm_compute. reflexivity.
  - intros k m Hk. destruct k as [|k]; [|vm_compute in Hk; lia]. intros Hm. vm_compute in Hm. injection Hm as <-. reflexivity.
Defined.

End ContractFile.
