(* ===== verification/Segments.v ===== *)
(** * Segments of the archival history

    Model of the parts of [crates/shared/ab-core-primitives/src/segments.rs] and
    [pieces.rs] that say where a piece of history is and prove that it is there: indexes
    of pieces and segments, [HistorySize], super segments with the proofs of their
    segments, [SegmentRoot::is_valid], [RecordRoot::is_valid] and [InnerPiece::is_valid].
    The hashes are the BLAKE3 functions and Merkle trees of the other files. *)

From S2P Require Import Prelude Slices MerkleSpec Unbalanced Balanced Blake3 Blake3Tree Blake3Short.
From stdpp Require Import prelude.
From Stdlib Require Import NArith Lia.
From Stdlib Require Import Strings.Byte.

Module Segments.
Import Blake3 Blake3Tree Blake3Short.

(** ** Arithmetic on [u64] *)

Definition u64_max : N := 2 ^ 64 - 1.

(** Operators panic on overflow and division by zero. *)
Definition mul_u64 (a b : N) : outcome N := if decide (a * b < 2 ^ 64)%N then Ret (a * b)%N else Fault.
Definition sub_u64 (a b : N) : outcome N := if decide (b <= a)%N then Ret (a - b)%N else Fault.
Definition div_unsigned (a b : N) : outcome N := if decide (b = 0)%N then Fault else Ret (a / b)%N.

Definition checked_add_u64 (a b : N) : option N := if decide (a + b < 2 ^ 64)%N then Some (a + b)%N else None.
Definition checked_mul_u64 (a b : N) : option N := if decide (a * b < 2 ^ 64)%N then Some (a * b)%N else None.
Definition checked_sub_u64 (a b : N) : option N := if decide (b <= a)%N then Some (a - b)%N else None.
Definition saturating_add_u64 (a b : N) : N := N.min (a + b) u64_max.
Definition saturating_mul_u64 (a b : N) : N := N.min (a * b) u64_max.

(** ** Pieces and segments by index *)

Definition NUM_RAW_RECORDS : N := 128.
Definition ERASURE_CODING_RATE : N * N := (1, 2)%N.
(** [RecordedHistorySegment::NUM_PIECES] *)
Definition NUM_PIECES : N := NUM_RAW_RECORDS * ERASURE_CODING_RATE.2 / ERASURE_CODING_RATE.1.

(** [PieceIndex] and [SegmentIndex] are [u64], [PiecePosition] is [u8]. *)
Definition segment_index_of (piece_index : N) : N := (piece_index / NUM_PIECES)%N.
Definition position (piece_index : N) : N := (piece_index mod NUM_PIECES mod 2 ^ 8)%N.

Definition first_piece_index (segment_index : N) : outcome N := mul_u64 segment_index NUM_PIECES.

Definition last_piece_index (segment_index : N) : outcome N :=
  let! next_segment := add_u64 segment_index 1 in
  let! end_index := mul_u64 next_segment NUM_PIECES in
  sub_u64 end_index 1.

(** [first..=last] *)
Definition range_inclusive (first last : N) : list N :=
  if decide (first <= last)%N then (fun i => first + N.of_nat i)%N <$> seq 0 (N.to_nat (last - first + 1)) else [].

(** The range zipped with the array of [NUM_PIECES] zeroes. *)
Definition segment_piece_indexes (segment_index : N) : outcome (list N) :=
  let! first := first_piece_index segment_index in
  let! last := last_piece_index segment_index in
  let range := take (N.to_nat NUM_PIECES) (range_inclusive first last) in
  Ret (range ++ drop (length range) (replicate (N.to_nat NUM_PIECES) 0%N)).

(** ** [HistorySize], stored as the index of the last segment *)

Definition history_size_new (value : N) : outcome N := sub_u64 value 1.
Definition as_non_zero_u64 (history_size : N) : N := saturating_add_u64 history_size 1.

Definition in_pieces (history_size : N) : N :=
  saturating_mul_u64 (saturating_add_u64 history_size 1) NUM_PIECES.

Definition sector_expiration_check (history_size min_sector_lifetime : N) : outcome (option N) :=
  match checked_add_u64 (as_non_zero_u64 history_size) (as_non_zero_u64 min_sector_lifetime) with
  | None => Ret None
  | Some value => let! h := history_size_new value in Ret (Some h)
  end.

Section Hashed.
Context `{P : Platform}.
#[local] Existing Instance blake3_hasher.

(** ** Hashes as arrays *)

(** The functions return [[u8; OUT_LEN]], see [block_hash_spec]. *)
Definition array32 (h : list byte) : outcome hash32 :=
  match decide (length h = OUT_LEN) with left Hl => Ret (exist _ h Hl) | right _ => Fault end.

(** The hash of an input that the code expects to fit a block or chunk. *)
Definition block_hash (input : list byte) : outcome hash32 :=
  let! h := expect (single_block_hash input) in array32 h.

Definition block_keyed_hash (key input : list byte) : outcome hash32 :=
  let! h := expect (single_block_keyed_hash key input) in array32 h.

Definition chunk_hash (input : list byte) : outcome hash32 :=
  let! h := expect (single_chunk_hash input) in array32 h.

(** ** Super segments *)

(** [ShardSegmentRootWithPosition] *)
Record shard_segment_root : Type := ShardSegmentRoot {
  ssr_shard_index : N;
  ssr_segment_position : N;
  ssr_local_segment_index : N;
  ssr_segment_root : hash32
}.

(** [#[repr(C)]], without padding: [u32], [u32], [u64], [[u8; 32]] *)
Definition ssr_as_bytes (s : shard_segment_root) : list byte :=
  le_split 4 (ssr_shard_index s) ++ le_split 4 (ssr_segment_position s) ++
  le_split 8 (ssr_local_segment_index s) ++ val32 (ssr_segment_root s).

Definition ssr_hash (s : shard_segment_root) : outcome hash32 := block_hash (ssr_as_bytes s).

Record super_segment_header : Type := SuperSegmentHeader {
  ssh_index : N;
  ssh_root : hash32;
  ssh_prev_super_segment_header_hash : hash32;
  ssh_max_segment_index : N;
  ssh_target_beacon_chain_block_number : N;
  ssh_num_segments : N
}.

Definition ssh_as_bytes (h : super_segment_header) : list byte :=
  le_split 8 (ssh_index h) ++ val32 (ssh_root h) ++ val32 (ssh_prev_super_segment_header_hash h) ++
  le_split 8 (ssh_max_segment_index h) ++ le_split 8 (ssh_target_beacon_chain_block_number h) ++
  le_split 4 (ssh_num_segments h).

Record super_segment : Type := SuperSegment {
  ss_header : super_segment_header;
  ss_segment_roots : list shard_segment_root
}.

(** [SuperSegmentRoot::MAX_SEGMENTS] and [SegmentProof::NUM_HASHES] *)
Definition MAX_SEGMENTS : N := 2 ^ 20 - 1.
Definition SEGMENT_PROOF_NUM_HASHES : nat := ilog2 (next_power_of_two MAX_SEGMENTS).

(** [SuperSegment::new] *)
Definition new_super_segment (previous_header : super_segment_header)
    (target_beacon_chain_block_number : N) (segment_roots : list shard_segment_root)
    : outcome (option super_segment) :=
  let num_segments := N.of_nat (length segment_roots) in
  if decide (2 ^ 32 <= num_segments)%N then Ret None
  else
    let! max_segment_index := add_u64 (ssh_max_segment_index previous_header) num_segments in
    let! hashes := omapM ssr_hash segment_roots in
    let! maybe_super_segment_root := Unbalanced.compute_root_only MAX_SEGMENTS hashes in
    match maybe_super_segment_root with
    | None => Ret None
    | Some root =>
        let! index := add_u64 (ssh_index previous_header) 1 in
        let! previous_hash := chunk_hash (ssh_as_bytes previous_header) in
        Ret (Some {|
          ss_header := {|
            ssh_index := index;
            ssh_root := root;
            ssh_prev_super_segment_header_hash := previous_hash;
            ssh_max_segment_index := max_segment_index;
            ssh_target_beacon_chain_block_number := target_beacon_chain_block_number;
            ssh_num_segments := num_segments |};
          ss_segment_roots := segment_roots |})
    end.

(** The proof is written to the start of a zeroed [SegmentProof]. *)
Definition proof_for_segment (s : super_segment) (segment_position : N) : outcome (option (list hash32)) :=
  let! hashes := omapM (fun r => block_hash (ssr_as_bytes r)) (ss_segment_roots s) in
  let! result := Unbalanced.compute_root_and_proof_in MAX_SEGMENTS hashes segment_position in
  match result with
  | None => Ret None
  | Some (_, proof) =>
      let! segment_proof := copy_at (replicate SEGMENT_PROOF_NUM_HASHES zero32) 0 proof in
      Ret (Some segment_proof)
  end.

(** [split_once(|hash| hash == &[0; _])]: what is before the first zero hash, all if there is none *)
Fixpoint before_zero (proof : list hash32) : list hash32 :=
  match proof with
  | [] => []
  | h :: proof => if decide (h = zero32) then [] else h :: before_zero proof
  end.

(** [SegmentRoot::is_valid] *)
Definition segment_root_is_valid (segment_root : hash32) (shard_index local_segment_index segment_position : N)
    (segment_proof : list hash32) (num_segments : N) (super_segment_root : hash32) : outcome bool :=
  let! leaf := ssr_hash {| ssr_shard_index := shard_index;
                           ssr_segment_position := segment_position;
                           ssr_local_segment_index := local_segment_index;
                           ssr_segment_root := segment_root |} in
  Unbalanced.verify super_segment_root (before_zero segment_proof) segment_position leaf num_segments.

(** ** Headers of segments *)

(** [ArchivedBlockProgress] is the number of bytes, 0 for a complete block. *)
Definition new_complete : N := 0.
Definition new_partial (new_partial : N) : N := new_partial.
Definition partial (bytes : N) : option N := if decide (bytes = 0)%N then None else Some bytes.

Record last_archived_block : Type := LastArchivedBlock {
  lab_number : N;
  lab_archived_progress : N
}.

Definition partial_archived (b : last_archived_block) : option N := partial (lab_archived_progress b).

Definition set_partial_archived (b : last_archived_block) (bytes : N) : last_archived_block :=
  {| lab_number := lab_number b; lab_archived_progress := new_partial bytes |}.

Definition set_complete (b : last_archived_block) : last_archived_block :=
  {| lab_number := lab_number b; lab_archived_progress := new_complete |}.

Record segment_header : Type := SegmentHeader {
  sh_index : N;
  sh_root : hash32;
  sh_prev_segment_header_hash : hash32;
  sh_last_archived_block : last_archived_block
}.

Definition sh_as_bytes (h : segment_header) : list byte :=
  le_split 8 (sh_index h) ++ val32 (sh_root h) ++ val32 (sh_prev_segment_header_hash h) ++
  le_split 8 (lab_number (sh_last_archived_block h)) ++ le_split 4 (lab_archived_progress (sh_last_archived_block h)).

(** [SegmentHeader::hash] *)
Definition segment_header_hash (h : segment_header) : outcome hash32 := chunk_hash (sh_as_bytes h).

(** ** Records and pieces *)

(** [Record::NUM_CHUNKS]; the chunks of a record are [[u8; 32]]. *)
Definition NUM_CHUNKS : nat := 2 ^ 15.

(** [RecordRoot::is_valid] *)
Definition record_root_is_valid (record_root segment_root : hash32) (record_proof : list hash32)
    (piece_position : N) : bool :=
  Balanced.verify (N.to_nat NUM_PIECES) segment_root record_proof (N.to_nat piece_position) record_root.

Record piece_header : Type := PieceHeader {
  ph_shard_index : N;
  ph_local_segment_index : N;
  ph_super_segment_index : N;
  ph_segment_position : N;
  ph_segment_root : hash32;
  ph_segment_proof : list hash32;
  ph_parity_chunks_root : hash32;
  ph_record_proof : list hash32
}.

(** [InnerPiece], with the chunks of its record *)
Record inner_piece : Type := InnerPiece {
  piece_header_of : piece_header;
  piece_record : list hash32
}.

Definition source_chunks_root (record : list hash32) : outcome hash32 :=
  Balanced.compute_root_only NUM_CHUNKS record.

Definition record_root (p : inner_piece) : outcome hash32 :=
  let! source := source_chunks_root (piece_record p) in
  Balanced.compute_root_only 2 [source; ph_parity_chunks_root (piece_header_of p)].

(** [InnerPiece::is_valid] *)
Definition piece_is_valid (p : inner_piece) (super_segment_root : hash32) (num_segments piece_position : N)
    : outcome bool :=
  let h := piece_header_of p in
  let! segment_valid :=
    segment_root_is_valid (ph_segment_root h) (ph_shard_index h) (ph_local_segment_index h)
      (ph_segment_position h) (ph_segment_proof h) num_segments super_segment_root in
  if negb segment_valid then Ret false
  else
    let! root := record_root p in
    Ret (record_root_is_valid root (ph_segment_root h) (ph_record_proof h) piece_position).
End Hashed.

(** ** Hashes *)

Lemma length_spec_mode key flags l :
  cv_ok key -> (flags < 256)%N -> length l <= CHUNK_LEN -> length (spec_mode key flags l) = OUT_LEN.
Proof.
  intros Hk Hf Hl. unfold spec_mode. apply length_out.
  change (tree_node (length l) key flags 0 l) with (tree key flags 0 l). rewrite tree_chunk by done.
  by destruct (chunk_node_ok key 0 flags l) as ((Hc & _) & _).
Qed.

Section Spec.
Context {P : Platform} {PS : PlatformSpec P}.
#[local] Existing Instance blake3_hasher.

Lemma array32_ok h : length h = OUT_LEN -> exists a, array32 h = Ret a /\ val32 a = h.
Proof. intros Hl. unfold array32. destruct (decide _) as [E|]; [|done]. by exists (exist _ h E). Qed.

Lemma block_fits {A} (l : list A) : length l <= BLOCK_LEN -> length l <= CHUNK_LEN.
Proof. unfold BLOCK_LEN, CHUNK_LEN. lia. Qed.

Lemma block_hash_spec input :
  length input <= BLOCK_LEN -> exists h, block_hash input = Ret h /\ val32 h = blake3 input.
Proof.
  intros Hl. unfold block_hash, single_block_hash, blake3. rewrite hash_block_spec, decide_True by done.
  cbn [expect obind]. apply array32_ok, length_spec_mode; [apply IV_ok|done|by apply block_fits].
Qed.

Lemma block_keyed_hash_spec key input :
  length input <= BLOCK_LEN -> exists h, block_keyed_hash key input = Ret h /\ val32 h = blake3_keyed key input.
Proof.
  intros Hl. unfold block_keyed_hash, single_block_keyed_hash, blake3_keyed.
  rewrite hash_block_spec, decide_True by (done || apply words_32_ok).
  cbn [expect obind]. apply array32_ok, length_spec_mode; [apply words_32_ok|done|by apply block_fits].
Qed.

Lemma chunk_hash_spec input :
  length input <= CHUNK_LEN -> exists h, chunk_hash input = Ret h /\ val32 h = blake3 input.
Proof.
  intros Hl. unfold chunk_hash, single_chunk_hash, blake3. rewrite hash_chunk_spec, decide_True by done.
  cbn [expect obind]. apply array32_ok, length_spec_mode; [apply IV_ok|done..].
Qed.

Lemma length_val32 (h : hash32) : length (val32 h) = OUT_LEN.
Proof. by destruct h. Qed.

Lemma val32_inj (a b : hash32) : val32 a = val32 b -> a = b.
Proof. destruct a as [a Ha], b as [b Hb]. cbn. intros ->. by apply sig_eq_pi; [apply _|]. Qed.

(** ** Leaves of a super segment *)

(** The BLAKE3 hash of the bytes. *)
Definition leaf_of (s : shard_segment_root) : hash32 := to_hash32 (Ret (blake3 (ssr_as_bytes s))).

Lemma length_ssr s : length (ssr_as_bytes s) = 48.
Proof. unfold ssr_as_bytes. by rewrite !length_app, !length_le_split, length_val32. Qed.

Lemma ssr_hash_leaf s : ssr_hash s = Ret (leaf_of s) /\ val32 (leaf_of s) = blake3 (ssr_as_bytes s).
Proof.
  destruct (block_hash_spec (ssr_as_bytes s)) as (h & Hh & Hv); [rewrite length_ssr; unfold BLOCK_LEN; lia|].
  unfold ssr_hash. rewrite Hh. pose proof (length_val32 h) as Hl. rewrite Hv in Hl.
  assert (E : val32 (leaf_of s) = blake3 (ssr_as_bytes s)).
  { unfold leaf_of, to_hash32. by destruct (decide _). }
  split; [|done]. f_equal. apply val32_inj. by rewrite E.
Qed.

Lemma omapM_leaves roots : omapM ssr_hash roots = Ret (leaf_of <$> roots).
Proof. apply omapM_Ret, Forall_true. intros s. apply ssr_hash_leaf. Qed.

(** The widths of the fields. *)
Definition ssr_ok (s : shard_segment_root) : Prop :=
  (ssr_shard_index s < 2 ^ 32 /\ ssr_segment_position s < 2 ^ 32 /\ ssr_local_segment_index s < 2 ^ 64)%N.

Lemma ssr_as_bytes_inj s t : ssr_ok s -> ssr_ok t -> ssr_as_bytes s = ssr_as_bytes t -> s = t.
Proof.
  destruct s as [a b c d], t as [a' b' c' d']. unfold ssr_ok, ssr_as_bytes.
  cbn [ssr_shard_index ssr_segment_position ssr_local_segment_index ssr_segment_root]. intros Hs Ht E.
  do 3 (apply le_split_inj in E as [-> E]; [|cbn; lia..]). apply val32_inj in E. congruence.
Qed.

(** ** Zero padding *)

Lemma before_zero_app p n : zero32 ∉ p -> before_zero (p ++ replicate n zero32) = p.
Proof.
  induction p as [|h p IH]; intros Hz; cbn.
  - destruct n; cbn; [done|by rewrite decide_True].
  - apply not_elem_of_cons in Hz as [Hne Hz]. rewrite decide_False by done. by rewrite IH.
Qed.

Lemma path_length_le {A} (op : A -> A -> A) k (l : list A) i :
  length l <= 2 ^ k -> i < length l -> length (merkle_path op l i) <= k.
Proof.
  revert l i. induction k as [|k IH]; intros l i Hl Hi.
  { by rewrite merkle_path_short. }
  rewrite merkle_path_next, length_app by done. rewrite Nat.pow_succ_r' in Hl.
  pose proof (length_next_level op l) as Hn. pose proof (Nat.div2_odd (S (length l))) as Hd.
  pose proof (Nat.div2_odd i) as Hdi.
  assert (length (option_list (sibling l i)) <= 1) by (destruct (sibling l i); cbn; lia).
  enough (length (merkle_path op (next_level op l) (Nat.div2 i)) <= k) by lia.
  destruct (Nat.odd i), (Nat.odd (S (length l))); cbn [Nat.b2n] in *; apply IH; lia.
Qed.
End Spec.

(** ** Super segments *)

Section Super.
Context {P : Platform} {PS : PlatformSpec P}.
#[local] Existing Instance blake3_hasher.

Lemma max_segments_fit : (MAX_SEGMENTS <= 2 ^ 63)%N.
Proof. done. Qed.

Lemma proof_hashes : SEGMENT_PROOF_NUM_HASHES = 20.
Proof. reflexivity. Qed.

(** What [new_super_segment] returns when the numbers do not overflow. *)
Lemma new_super_segment_spec previous_header target roots :
  (ssh_max_segment_index previous_header + N.of_nat (length roots) < 2 ^ 64)%N ->
  (ssh_index previous_header + 1 < 2 ^ 64)%N ->
  exists previous_hash, val32 previous_hash = blake3 (ssh_as_bytes previous_header) /\
    new_super_segment previous_header target roots =
      Ret (if decide (N.of_nat (length roots) <= MAX_SEGMENTS)%N
           then root ← merkle_root hash_pair (leaf_of <$> roots);
                Some {| ss_header := {|
                          ssh_index := ssh_index previous_header + 1;
                          ssh_root := root;
                          ssh_prev_super_segment_header_hash := previous_hash;
                          ssh_max_segment_index :=
                            ssh_max_segment_index previous_header + N.of_nat (length roots);
                          ssh_target_beacon_chain_block_number := target;
                          ssh_num_segments := N.of_nat (length roots) |};
                        ss_segment_roots := roots |}
           else None).
Proof.
  intros Hm Hi. destruct (chunk_hash_spec (ssh_as_bytes previous_header)) as (h & Hh & Hv).
  { unfold ssh_as_bytes. rewrite !length_app, !length_le_split, !length_val32. unfold OUT_LEN, CHUNK_LEN. lia. }
  exists h. split; [done|]. unfold new_super_segment, add_u64. rewrite (decide_True _ _ Hm), (decide_True _ _ Hi).
  destruct (decide (2 ^ 32 <= N.of_nat (length roots))%N) as [Hl|Hl].
  { rewrite decide_False; [done|]. unfold MAX_SEGMENTS. lia. }
  cbn [obind]. rewrite omapM_leaves. cbn [obind].
  rewrite Unbalanced.compute_root_only_spec, length_fmap by apply max_segments_fit.
  destruct (decide (N.of_nat (length roots) <= MAX_SEGMENTS)%N); [|done]. cbn [obind].
  destruct (merkle_root hash_pair (leaf_of <$> roots)) as [root|]; [|done]. cbn [obind]. by rewrite Hh.
Qed.

(** A super segment as [new_super_segment] makes it. *)
Record super_segment_ok (s : super_segment) : Prop := {
  ok_num_segments : ssh_num_segments (ss_header s) = N.of_nat (length (ss_segment_roots s));
  ok_max : (N.of_nat (length (ss_segment_roots s)) <= MAX_SEGMENTS)%N;
  ok_root : merkle_root hash_pair (leaf_of <$> ss_segment_roots s) = Some (ssh_root (ss_header s))
}.

Lemma new_super_segment_ok previous_header target roots s :
  new_super_segment previous_header target roots = Ret (Some s) ->
  super_segment_ok s /\ ss_segment_roots s = roots.
Proof.
  intros E. destruct (decide (ssh_max_segment_index previous_header + N.of_nat (length roots) < 2 ^ 64)%N) as [Hm|Hm].
  2:{ unfold new_super_segment, add_u64 in E. rewrite (decide_False _ _ Hm) in E. by destruct (decide _). }
  destruct (decide (ssh_index previous_header + 1 < 2 ^ 64)%N) as [Hi|Hi].
  2:{ unfold new_super_segment in E. destruct (decide _); [done|].
      destruct (add_u64 _ (N.of_nat _)), (omapM _ _); try done. cbn [obind] in E.
      destruct (Unbalanced.compute_root_only _ _) as [[]|]; try done. cbn [obind] in E.
      unfold add_u64 in E. by rewrite (decide_False _ _ Hi) in E. }
  destruct (new_super_segment_spec previous_header target roots Hm Hi) as (h & _ & Hn).
  rewrite Hn in E. clear Hn. case_decide; [|done].
  destruct (merkle_root hash_pair (leaf_of <$> roots)) as [r|] eqn:Hr; [|done].
  cbn [mbind option_bind] in E. injection E as <-.
  split; [by constructor|done].
Qed.

Lemma segments_u64 (s : super_segment) :
  super_segment_ok s -> (N.of_nat (length (leaf_of <$> ss_segment_roots s)) <= 2 ^ 64)%N.
Proof. intros Hs. rewrite length_fmap. pose proof (ok_max s Hs). unfold MAX_SEGMENTS in *. lia. Qed.

Lemma proof_for_segment_spec s i :
  super_segment_ok s ->
  proof_for_segment s i =
    Ret (if decide (i < N.of_nat (length (ss_segment_roots s)))%N
         then let path := merkle_path hash_pair (leaf_of <$> ss_segment_roots s) (N.to_nat i) in
              Some (path ++ replicate (20 - length path) zero32)
         else None).
Proof.
  intros [_ Hmax Hroot]. unfold proof_for_segment. change (omapM _ _) with (omapM ssr_hash (ss_segment_roots s)).
  rewrite omapM_leaves. cbn [obind]. unfold Unbalanced.compute_root_and_proof_in.
  rewrite Unbalanced.compute_root_and_proof_inner_spec, length_fmap, Hroot by apply max_segments_fit.
  destruct (decide (i < _)%N) as [Hi|Hi]; [|by rewrite decide_False by tauto].
  rewrite decide_True by done. cbn [mbind option_bind obind].
  assert (Hp : length (merkle_path hash_pair (leaf_of <$> ss_segment_roots s) (N.to_nat i)) <= 20).
  { apply path_length_le; rewrite length_fmap; [|lia]. pose proof (of_nat_pow2 20). unfold MAX_SEGMENTS in Hmax.
    change (N.of_nat 20) with 20%N in *. lia. }
  rewrite copy_at_start by (rewrite length_replicate, proof_hashes; done). cbn [obind]. rewrite proof_hashes.
  by rewrite drop_replicate.
Qed.
End Super.

(** ** Merkle roots bind their leaves *)

Section Binding.
Context {H : Type} {hasher : NodeHasher H}.

Lemma next_level_binding (l l' : list H) :
  length l = length l' -> next_level hash_pair l = next_level hash_pair l' ->
  l = l' \/ collision_between (pair_inputs l) (pair_inputs l').
Proof.
  revert l'. induction l as [|x|a b r IH] using list_pair_ind; intros [|a' [|b' r']] Hl E; try done; [by left..|].
  cbn in Hl. cbn [next_level] in E. injection E as Eh Er.
  destruct (hash_pair_inj_or (a, b) (a', b') (pair_inputs (a :: b :: r)) (pair_inputs (a' :: b' :: r')))
    as [Ep|]; [by left..|done| |by right]. injection Ep as -> ->.
  destruct (IH r') as [->|Hc]; [lia|done|by left|right].
  eapply collision_between_mono; [| |exact Hc]; cbn; set_solver.
Qed.

Lemma merkle_root_binding (l l' : list H) r :
  length l = length l' -> merkle_root hash_pair l = Some r -> merkle_root hash_pair l' = Some r ->
  l = l' \/ collision_between (tree_inputs hash_pair l) (tree_inputs hash_pair l').
Proof.
  remember (length l) as n eqn:Hn. revert l l' Hn.
  induction n as [n IH] using (well_founded_induction lt_wf). intros l l' Hn Hl Hr Hr'.
  destruct (decide (length l <= 1)) as [Hs|Hs].
  { destruct l as [|x [|]], l' as [|x' [|]]; cbn in *; try lia; try done. left. congruence. }
  rewrite merkle_root_next in Hr, Hr'. destruct (tree_inputs_next hash_pair l) as [Hp Ht]; [lia|].
  destruct (tree_inputs_next hash_pair l') as [Hp' Ht']; [lia|].
  destruct (IH (length (next_level hash_pair l))) with (l := next_level hash_pair l)
    (l' := next_level hash_pair l') as [E|Hc]; try done.
  - pose proof (length_next_level_lt hash_pair l). lia.
  - rewrite !length_next_level. congruence.
  - destruct (next_level_binding l l') as [|Hc]; [congruence|done|by left|right].
    by eapply collision_between_mono; [| |exact Hc].
  - right. by eapply collision_between_mono; [| |exact Hc].
Qed.

(** The root of two subtrees of the same size. *)
Lemma merkle_root_halves k (a b : list H) ra rb :
  length a = 2 ^ k -> length b = 2 ^ k -> merkle_root hash_pair a = Some ra -> merkle_root hash_pair b = Some rb ->
  merkle_root hash_pair (a ++ b) = Some (hash_pair ra rb).
Proof.
  revert a b. induction k as [|k IH]; intros a b Ha Hb Hra Hrb.
  { destruct a as [|x [|]], b as [|y [|]]; try done. cbn in *. congruence. }
  rewrite (merkle_root_pow2 _ _ (S k)) by (rewrite length_app, Ha, Hb; cbn; lia).
  rewrite pairs_app_even by (by rewrite Ha, Nat.pow_succ_r', even_double).
  rewrite (merkle_root_pow2 _ a k) in Hra by done. rewrite (merkle_root_pow2 _ b k) in Hrb by done.
  apply IH; [by apply length_pairs_pow2..|done|done].
Qed.
End Binding.

(** ** Membership proofs *)

(** Two inputs that show that BLAKE3 has a collision. *)
Definition block_collision (x y : list byte) : Prop := x <> y /\ blake3 x = blake3 y.

(** Two Merkle tree nodes with the same hash, one of each list *)
Definition node_collision (ps qs : list (hash32 * hash32)) : Prop :=
  exists p q, p ∈ ps /\ q ∈ qs /\ val32 p.1 ++ val32 p.2 <> val32 q.1 ++ val32 q.2 /\
    node_hash (val32 p.1) (val32 p.2) = node_hash (val32 q.1) (val32 q.2).

Section Membership.
Context {P : Platform} {PS : PlatformSpec P}.
#[local] Existing Instance blake3_hasher.

Lemma node_collision_of ps qs : collision_between ps qs -> node_collision ps qs.
Proof.
  intros ([a b] & [c d] & Hp & Hq & Hne & He). exists (a, b), (c, d). split_and!; [done..|by apply hash32_ne|].
  cbn [fst snd] in *. apply (f_equal val32) in He. by rewrite !(proj2 (hash32_pair_bytes _ _)) in He.
Qed.

Definition segment_collision (s : super_segment) (r : shard_segment_root) (proof : list hash32) : Prop :=
  (exists r', r' ∈ ss_segment_roots s /\ block_collision (ssr_as_bytes r') (ssr_as_bytes r)) \/
  node_collision (tree_inputs hash_pair (leaf_of <$> ss_segment_roots s))
    (path_inputs (length (ss_segment_roots s)) (N.to_nat (ssr_segment_position r)) (leaf_of r) (before_zero proof)).

Lemma segment_root_is_valid_leaf segment_root shard_index local_segment_index pos proof n root :
  segment_root_is_valid segment_root shard_index local_segment_index pos proof n root =
    Unbalanced.verify root (before_zero proof) pos
      (leaf_of (ShardSegmentRoot shard_index pos local_segment_index segment_root)) n.
Proof. unfold segment_root_is_valid. by rewrite (proj1 (ssr_hash_leaf _)). Qed.

Lemma segment_root_is_valid_returns segment_root shard_index local_segment_index pos proof n root :
  (n < 2 ^ 32)%N -> exists b, segment_root_is_valid segment_root shard_index local_segment_index pos proof n root = Ret b.
Proof. intros Hn. rewrite segment_root_is_valid_leaf. apply Unbalanced.verify_returns. lia. Qed.

Lemma segment_valid_sound s r proof :
  super_segment_ok s -> Forall ssr_ok (ss_segment_roots s) -> ssr_ok r ->
  segment_root_is_valid (ssr_segment_root r) (ssr_shard_index r) (ssr_local_segment_index r)
    (ssr_segment_position r) proof (ssh_num_segments (ss_header s)) (ssh_root (ss_header s)) = Ret true ->
  ss_segment_roots s !! N.to_nat (ssr_segment_position r) = Some r \/ segment_collision s r proof.
Proof.
  intros Hs Hall Hr Hv. rewrite segment_root_is_valid_leaf, (ok_num_segments s Hs) in Hv.
  rewrite <- (length_fmap leaf_of) in Hv. replace (ShardSegmentRoot _ _ _ _) with r in Hv by (by destruct r).
  apply Unbalanced.verify_accepts_only_path in Hv as [[Hl _]|Hc]; [| |by apply segments_u64|by apply ok_root].
  - apply list_lookup_fmap_Some in Hl as (r' & Hr' & Hl).
    destruct (decide (ssr_as_bytes r' = ssr_as_bytes r)) as [E|E].
    + left. rewrite Hl. f_equal. apply ssr_as_bytes_inj; [|done..]. by eapply Forall_lookup_1.
    + right. left. exists r'. split; [by eapply list_elem_of_lookup_2|]. split; [done|].
      by rewrite <- (proj2 (ssr_hash_leaf r)), <- (proj2 (ssr_hash_leaf r')), Hr'.
  - right. right. rewrite length_fmap in Hc. by apply node_collision_of.
Qed.

Lemma record_root_valid_sound (records : list hash32) root segment_root proof i :
  length records = N.to_nat NUM_PIECES -> length proof = 8 -> merkle_root hash_pair records = Some segment_root ->
  record_root_is_valid root segment_root proof i = true ->
  records !! N.to_nat i = Some root \/
  node_collision (tree_inputs hash_pair records) (path_inputs (length records) (N.to_nat i) root proof).
Proof.
  intros Hl Hp Hr Hv. change (N.to_nat NUM_PIECES) with (2 ^ 8) in *. 
  destruct (Balanced.balanced_verify_sound 8 records segment_root proof (N.to_nat i) root) as [_ Hs]; [lia|done..|].
  destruct (Hs Hv) as [[? _]|Hc]; [by left|]. right. by apply node_collision_of.
Qed.
End Membership.

(** ** Properties *)

Lemma segment_indexes_range s :
  (s < 2 ^ 56 - 1)%N ->
  segment_piece_indexes s = Ret ((fun i => s * NUM_PIECES + N.of_nat i)%N <$> seq 0 256).
Proof.
  intros Hs. unfold segment_piece_indexes, first_piece_index, last_piece_index, mul_u64, add_u64, sub_u64.
  change NUM_PIECES with 256%N.
  rewrite (decide_True (P := (s * 256 < 2 ^ 64)%N)), (decide_True (P := (s + 1 < 2 ^ 64)%N)) by lia. cbn [obind].
  rewrite (decide_True (P := ((s + 1) * 256 < 2 ^ 64)%N)) by lia. cbn [obind].
  rewrite decide_True by lia. cbn [obind]. f_equal. unfold range_inclusive. rewrite decide_True by lia.
  replace (N.to_nat ((s + 1) * 256 - 1 - s * 256 + 1)) with 256 by lia. change (N.to_nat 256) with 256.
  rewrite take_ge by (by rewrite length_fmap, length_seq). rewrite drop_ge, app_nil_r; [done|].
  by rewrite length_replicate, length_fmap, length_seq.
Qed.

(** The pieces of a segment: for every segment but the last of those with 64-bit piece indexes,
    [segment_piece_indexes] lists, each at its [position], exactly the piece indexes whose
    [segment_index] is the segment. *)
Theorem segment_piece_indexes_exact s :
  (s < 2 ^ 56 - 1)%N ->
  exists l, segment_piece_indexes s = Ret l /\ length l = N.to_nat NUM_PIECES /\
    forall p i, l !! i = Some p <-> segment_index_of p = s /\ N.to_nat (position p) = i.
Proof.
  intros Hs. rewrite segment_indexes_range by done. eexists. split; [done|].
  split; [by rewrite length_fmap, length_seq|]. intros p i. rewrite list_lookup_fmap_Some.
  unfold segment_index_of, position. change NUM_PIECES with 256%N.
  rewrite (N.mod_small (p mod 256)) by (apply N.mod_lt; lia).
  pose proof (N.Div0.div_mod p 256). pose proof (N.mod_lt p 256 ltac:(lia)). split.
  - intros (j & -> & [-> Hi]%lookup_seq). cbn [Nat.add]. rewrite N.add_comm, N.div_add, N.Div0.mod_add by lia.
    rewrite N.div_small, N.mod_small by lia. split; lia.
  - intros [<- <-]. exists (N.to_nat (p mod 256)). split; [lia|]. apply lookup_seq. split; lia.
Qed.

Section Properties.
Context {P : Platform} {PS : PlatformSpec P}.
#[local] Existing Instance blake3_hasher.

Lemma segment_proof_accepted s r :
  super_segment_ok s -> ss_segment_roots s !! N.to_nat (ssr_segment_position r) = Some r ->
  exists proof, proof_for_segment s (ssr_segment_position r) = Ret (Some proof) /\
    length proof = SEGMENT_PROOF_NUM_HASHES /\
    (zero32 ∉ merkle_path hash_pair (leaf_of <$> ss_segment_roots s) (N.to_nat (ssr_segment_position r)) ->
     segment_root_is_valid (ssr_segment_root r) (ssr_shard_index r) (ssr_local_segment_index r)
       (ssr_segment_position r) proof (ssh_num_segments (ss_header s)) (ssh_root (ss_header s)) = Ret true).
Proof.
  intros Hs Hr. pose proof (lookup_lt_Some _ _ _ Hr) as Hlt.
  rewrite proof_for_segment_spec, decide_True by (done || lia). eexists. split; [done|]. split.
  - rewrite length_app, length_replicate, proof_hashes.
    enough (length (merkle_path hash_pair (leaf_of <$> ss_segment_roots s) (N.to_nat (ssr_segment_position r))) <= 20) by lia.
    apply path_length_le; rewrite length_fmap; [|done]. pose proof (ok_max s Hs). pose proof (of_nat_pow2 20).
    unfold MAX_SEGMENTS in *. change (N.of_nat 20) with 20%N in *. lia.
  - intros Hz. rewrite segment_root_is_valid_leaf, before_zero_app, (ok_num_segments s Hs) by done.
    replace (ShardSegmentRoot _ _ _ _) with r by (by destruct r). rewrite <- (length_fmap leaf_of).
    rewrite <- (N2Nat.id (ssr_segment_position r)) at 2.
    apply Unbalanced.verify_accepts_path; [by apply segments_u64|by apply ok_root|]. by rewrite list_lookup_fmap, Hr.
Qed.

(** C36. For every super segment that [SuperSegment::new] makes and every segment root in it
    that is listed at the position it names, which [SuperSegment::new] does not check,
    [proof_for_segment] returns a proof of the length of the type, with which [is_valid] accepts
    the segment root unless a hash of the path is zero, which is taken for padding. *)
Theorem segment_proofs_accepted previous_header target roots s r :
  new_super_segment previous_header target roots = Ret (Some s) ->
  roots !! N.to_nat (ssr_segment_position r) = Some r ->
  exists proof, proof_for_segment s (ssr_segment_position r) = Ret (Some proof) /\
    length proof = SEGMENT_PROOF_NUM_HASHES /\
    (zero32 ∉ merkle_path hash_pair (leaf_of <$> roots) (N.to_nat (ssr_segment_position r)) ->
     segment_root_is_valid (ssr_segment_root r) (ssr_shard_index r) (ssr_local_segment_index r)
       (ssr_segment_position r) proof (ssh_num_segments (ss_header s)) (ssh_root (ss_header s)) = Ret true).
Proof.
  intros [Hs <-]%new_super_segment_ok Hr. by apply segment_proof_accepted.
Qed.

(** Only archived segments are valid: a segment root that [is_valid] accepts with some proof
    against the root of a super segment is in it, with this shard, position and local
    index, or the proof exhibits two inputs that BLAKE3 hashes to the same value. *)
Theorem valid_segment_archived previous_header target roots s r proof :
  new_super_segment previous_header target roots = Ret (Some s) -> Forall ssr_ok roots -> ssr_ok r ->
  segment_root_is_valid (ssr_segment_root r) (ssr_shard_index r) (ssr_local_segment_index r)
    (ssr_segment_position r) proof (ssh_num_segments (ss_header s)) (ssh_root (ss_header s)) = Ret true ->
  roots !! N.to_nat (ssr_segment_position r) = Some r \/ segment_collision s r proof.
Proof. intros [Hs <-]%new_super_segment_ok Hall Hr. by apply segment_valid_sound. Qed.

(** How a valid piece can differ from the archived one. *)
Definition piece_collision (s : super_segment) (records chunks : list hash32) (p : inner_piece) (i : N) : Prop :=
  let h := piece_header_of p in
  let r := ShardSegmentRoot (ph_shard_index h) (ph_segment_position h) (ph_local_segment_index h) (ph_segment_root h) in
  segment_collision s r (ph_segment_proof h) \/
  (exists root, record_root p = Ret root /\
    node_collision (tree_inputs hash_pair records) (path_inputs (length records) (N.to_nat i) root (ph_record_proof h))) \/
  (exists a b source, source_chunks_root (piece_record p) = Ret source /\
    merkle_root hash_pair (take NUM_CHUNKS chunks) = Some a /\ merkle_root hash_pair (drop NUM_CHUNKS chunks) = Some b /\
    node_collision [(a, b)] [(source, ph_parity_chunks_root h)]) \/
  node_collision (tree_inputs hash_pair (take NUM_CHUNKS chunks)) (tree_inputs hash_pair (piece_record p)).

(** The trees of the archived history that a piece with this header belongs to: the record
    roots of its segment, and the source and parity chunks of its record *)
Record archived (roots : list shard_segment_root) (pos i : N) (records chunks : list hash32) : Prop := {
  archived_records : length records = N.to_nat NUM_PIECES;
  archived_segment : forall r, roots !! N.to_nat pos = Some r -> merkle_root hash_pair records = Some (ssr_segment_root r);
  archived_chunks : length chunks = 2 * NUM_CHUNKS;
  archived_record : forall root, records !! N.to_nat i = Some root -> merkle_root hash_pair chunks = Some root
}.

Lemma record_root_spec p :
  length (piece_record p) = NUM_CHUNKS ->
  exists source, source_chunks_root (piece_record p) = Ret source /\
    merkle_root hash_pair (piece_record p) = Some source /\
    record_root p = Ret (hash_pair source (ph_parity_chunks_root (piece_header_of p))).
Proof.
  intros Hl. unfold record_root, source_chunks_root, NUM_CHUNKS in *.
  destruct (Balanced.balanced_root_only_spec 15 (piece_record p)) as (source & Hc & Hm); [lia|done|].
  exists source. rewrite Hc. split_and!; [done..|]. cbn [obind].
  destruct (Balanced.balanced_root_only_spec 1 [source; ph_parity_chunks_root (piece_header_of p)]) as (r & Hr & Hm'); [lia|done|].
  change (2 ^ 1) with 2 in Hr. rewrite Hr. f_equal. unfold merkle_root in Hm'. cbn [length root_at next_level] in Hm'.
  injection Hm' as <-. done.
Qed.

(** The two halves of the chunks under a record root. *)
Lemma record_root_halves (chunks : list hash32) root :
  length chunks = 2 * NUM_CHUNKS -> merkle_root hash_pair chunks = Some root ->
  exists a b, merkle_root hash_pair (take NUM_CHUNKS chunks) = Some a /\
    merkle_root hash_pair (drop NUM_CHUNKS chunks) = Some b /\ root = hash_pair a b.
Proof.
  intros Hl Hr. assert (Ht : length (take NUM_CHUNKS chunks) = 2 ^ 15) by (rewrite length_take; unfold NUM_CHUNKS in *; lia).
  assert (Hd : length (drop NUM_CHUNKS chunks) = 2 ^ 15) by (rewrite length_drop; unfold NUM_CHUNKS in *; lia).
  destruct (Balanced.balanced_root_only_spec 15 (take NUM_CHUNKS chunks) ltac:(lia) Ht) as (a & _ & Ha).
  destruct (Balanced.balanced_root_only_spec 15 (drop NUM_CHUNKS chunks) ltac:(lia) Hd) as (b & _ & Hb).
  exists a, b. split_and!; [done..|]. pose proof (merkle_root_halves 15 _ _ a b Ht Hd Ha Hb) as E.
  rewrite take_drop, Hr in E. congruence.
Qed.

(** C17. Only archived pieces are valid: a piece that [InnerPiece::is_valid] accepts against the root
    of a super segment, at some position of a segment, has the source chunks and the root of
    the parity chunks of the record archived there, in the segment of this shard with this
    local index, or it exhibits two inputs that BLAKE3 hashes to the same value. *)
Theorem valid_piece_archived previous_header target roots s p i records chunks :
  let h := piece_header_of p in
  let r := ShardSegmentRoot (ph_shard_index h) (ph_segment_position h) (ph_local_segment_index h) (ph_segment_root h) in
  new_super_segment previous_header target roots = Ret (Some s) -> Forall ssr_ok roots -> ssr_ok r ->
  length (piece_record p) = NUM_CHUNKS -> length (ph_record_proof h) = 8 ->
  archived roots (ph_segment_position h) i records chunks ->
  piece_is_valid p (ssh_root (ss_header s)) (ssh_num_segments (ss_header s)) i = Ret true ->
  (roots !! N.to_nat (ph_segment_position h) = Some r /\ piece_record p = take NUM_CHUNKS chunks /\
   merkle_root hash_pair (drop NUM_CHUNKS chunks) = Some (ph_parity_chunks_root h)) \/
  piece_collision s records chunks p i.
Proof.
  intros h r [Hs <-]%new_super_segment_ok Hall Hok Hlen Hproof [Hrecords Hsegment Hchunks Hrecord] Hv.
  unfold piece_is_valid in Hv. fold h in Hv. destruct (record_root_spec p Hlen) as (source & Hsrc & Hms & Hroot).
  destruct (segment_root_is_valid _ _ _ _ _ _ _) as [[]|] eqn:Hseg; [|done..]. cbn [obind negb] in Hv.
  rewrite Hroot in Hv. cbn [obind] in Hv.
  destruct (segment_valid_sound s r (ph_segment_proof h) Hs Hall Hok Hseg) as [Hr|]; [|by right; left].
  apply Hsegment in Hr as Hmr. cbn [ssr_segment_root r] in Hmr.
  assert (Hrv : record_root_is_valid (hash_pair source (ph_parity_chunks_root h)) (ph_segment_root h) (ph_record_proof h) i = true)
    by (by injection Hv).
  destruct (record_root_valid_sound records _ _ _ i Hrecords Hproof Hmr Hrv) as [Hi|Hc].
  2:{ right. right. left. eexists. split; [exact Hroot|exact Hc]. }
  destruct (record_root_halves chunks _ Hchunks (Hrecord _ Hi)) as (a & b & Ha & Hb & Hab).
  destruct (hash_pair_inj_or (a, b) (source, ph_parity_chunks_root h) [(a, b)] [(source, ph_parity_chunks_root h)])
    as [E|Hc]; [by left..|by symmetry| |].
  2:{ right. right. right. left. exists a, b, source. split_and!; [done..|]. by apply node_collision_of. }
  injection E as -> ->.
  destruct (merkle_root_binding (take NUM_CHUNKS chunks) (piece_record p) source) as [E|Hc]; [|done..| |].
  - rewrite length_take, Hlen. lia.
  - left. split_and!; [done|by symmetry|done].
  - right. do 3 right. by apply node_collision_of.
Qed.
End Properties.

(** ** Witnesses *)

Section Uniform.
Context {H : Type} {hasher : NodeHasher H}.

(** A tree whose leaves are the same *)
Fixpoint uniform_root (k : nat) (x : H) : H :=
  match k with O => x | S k => uniform_root k (hash_pair x x) end.

Lemma pairs_replicate n (x : H) : pairs hash_pair (replicate (2 * n) x) = replicate n (hash_pair x x).
Proof.
  induction n as [|n IH]; [done|]. replace (2 * S n) with (S (S (2 * n))) by lia. cbn [replicate pairs]. by rewrite IH.
Qed.

Lemma uniform_merkle_root k (x : H) : merkle_root hash_pair (replicate (2 ^ k) x) = Some (uniform_root k x).
Proof.
  revert x. induction k as [|k IH]; intros x; [done|].
  rewrite (merkle_root_pow2 _ _ k) by apply length_replicate.
  rewrite Nat.pow_succ_r', pairs_replicate, IH. done.
Qed.

Lemma uniform_root_node k (x : H) : hash_pair (uniform_root k x) (uniform_root k x) = uniform_root (S k) x.
Proof. revert x. induction k as [|k IH]; intros x; [done|]. exact (IH (hash_pair x x)). Qed.

Lemma balanced_verify_complete k (leaves : list H) root i leaf :
  k < 64 -> length leaves = 2 ^ k -> merkle_root hash_pair leaves = Some root -> leaves !! i = Some leaf ->
  Balanced.verify (2 ^ k) root (merkle_path hash_pair leaves i) i leaf = true.
Proof.
  intros Hk Hl Hr Hi. pose proof (lookup_lt_Some _ _ _ Hi).
  pose proof (Balanced.verify_unbalanced k root (merkle_path hash_pair leaves i) i leaf ltac:(lia)) as E.
  rewrite <- Hl, Unbalanced.verify_accepts_path in E; [|rewrite Hl, of_nat_pow2; apply N.pow_le_mono_r; lia|done..].
  rewrite <- Hl. symmetry. enough (Ret true = Ret (Balanced.verify (length leaves) root (merkle_path hash_pair leaves i) i leaf))
    as Hv by (by injection Hv).
  apply E. by apply Balanced.path_length_pow2.
Qed.
End Uniform.

Section Sample.
#[local] Existing Instance portable_platform.
#[local] Existing Instance blake3_hasher.

#[local] Opaque uniform_root merkle_path merkle_root.

(** A history of one segment, all of whose chunks are zero *)
Definition sample_record_root : hash32 := uniform_root 16 zero32.
Definition sample_records : list hash32 := replicate (2 ^ 8) sample_record_root.
Definition sample_segment : shard_segment_root := ShardSegmentRoot 0 0 0 (uniform_root 8 sample_record_root).
Definition sample_previous : super_segment_header := SuperSegmentHeader 0 zero32 zero32 0 0 0.
Definition sample_super_segment : super_segment :=
  match new_super_segment sample_previous 5 [sample_segment] with
  | Ret (Some s) => s
  | _ => SuperSegment sample_previous []
  end.

Definition sample_piece : inner_piece :=
  InnerPiece (PieceHeader 0 0 0 0 (ssr_segment_root sample_segment) (replicate 20 zero32) (uniform_root 15 zero32)
    (merkle_path hash_pair sample_records 3)) (replicate NUM_CHUNKS zero32).

Lemma sample_super_segment_new :
  new_super_segment sample_previous 5 [sample_segment] = Ret (Some sample_super_segment).
Proof.
  unfold sample_super_segment.
  destruct (new_super_segment_spec sample_previous 5 [sample_segment]) as (h & _ & ->); [reflexivity..|].
  rewrite decide_True by done. done.
Qed.

Lemma sample_segment_ok : Forall ssr_ok [sample_segment].
Proof. repeat constructor. Qed.

Lemma segment_piece_indexes_exact_witness :
  exists l, segment_piece_indexes 3 = Ret l /\ length l = N.to_nat NUM_PIECES /\
    forall p i, l !! i = Some p <-> segment_index_of p = 3%N /\ N.to_nat (position p) = i.
Proof. apply (segment_piece_indexes_exact 3). reflexivity. Defined.

Lemma segment_proofs_accepted_witness :
  exists proof, proof_for_segment sample_super_segment 0 = Ret (Some proof) /\
    length proof = SEGMENT_PROOF_NUM_HASHES /\
    segment_root_is_valid (ssr_segment_root sample_segment) 0 0 0 proof
      (ssh_num_segments (ss_header sample_super_segment)) (ssh_root (ss_header sample_super_segment)) = Ret true.
Proof.
  destruct (segment_proofs_accepted sample_previous 5 [sample_segment] sample_super_segment sample_segment)
    as (proof & Hp & Hl & Hv); [apply sample_super_segment_new|done|].
  exists proof. split; [exact Hp|]. split; [exact Hl|]. apply Hv. rewrite merkle_path_short by (cbn; lia). apply not_elem_of_nil.
Defined.

Lemma sample_segment_valid :
  segment_root_is_valid (ssr_segment_root sample_segment) 0 0 0 (replicate 20 zero32)
    (ssh_num_segments (ss_header sample_super_segment)) (ssh_root (ss_header sample_super_segment)) = Ret true.
Proof.
  destruct (new_super_segment_ok _ _ _ _ sample_super_segment_new) as [[Hn Hm Hr] Hs].
  rewrite segment_root_is_valid_leaf, Hn, Hs. rewrite Hs in Hr.
  change (before_zero (replicate 20 zero32)) with (@nil hash32).
  change (ShardSegmentRoot 0 0 0 _) with sample_segment. change (leaf_of <$> [sample_segment]) with [leaf_of sample_segment] in Hr.
  generalize dependent (leaf_of sample_segment). intros leaf Hr.
  pose proof (Unbalanced.verify_accepts_path [leaf] _ 0 leaf ltac:(done) Hr eq_refl) as Hv.
  by rewrite merkle_path_short in Hv by (cbn; lia).
Qed.

Lemma valid_segment_archived_witness :
  [sample_segment] !! 0 = Some sample_segment \/
  segment_collision sample_super_segment sample_segment (replicate 20 zero32).
Proof.
  apply (valid_segment_archived sample_previous 5 [sample_segment] sample_super_segment sample_segment).
  - apply sample_super_segment_new.
  - apply sample_segment_ok.
  - repeat constructor.
  - apply sample_segment_valid.
Defined.

Lemma sample_archived : archived [sample_segment] 0 3 sample_records (replicate (2 * NUM_CHUNKS) zero32).
Proof.
  constructor.
  - apply length_replicate.
  - intros r [= <-]. apply uniform_merkle_root.
  - apply length_replicate.
  - intros root [-> _]%lookup_replicate. change (2 * NUM_CHUNKS) with (2 * 2 ^ 15). rewrite <- Nat.pow_succ_r'.
    apply uniform_merkle_root.
Qed.

Lemma sample_records_lookup : sample_records !! 3 = Some sample_record_root.
Proof. apply lookup_replicate_2. cbn. lia. Qed.

Lemma sample_record_proof : length (merkle_path hash_pair sample_records 3) = 8.
Proof. apply Balanced.path_length_pow2; unfold sample_records; rewrite length_replicate; cbn; lia. Qed.

Lemma sample_piece_valid :
  piece_is_valid sample_piece (ssh_root (ss_header sample_super_segment))
    (ssh_num_segments (ss_header sample_super_segment)) 3 = Ret true.
Proof.
  unfold piece_is_valid. cbn [piece_header_of sample_piece ph_segment_root ph_shard_index ph_local_segment_index
    ph_segment_position ph_segment_proof ph_record_proof].
  rewrite sample_segment_valid. cbn [obind negb].
  destruct (record_root_spec sample_piece) as (source & _ & Hm & ->); [apply length_replicate|]. cbn [obind]. f_equal.
  cbn [piece_record sample_piece] in Hm. unfold NUM_CHUNKS in Hm. rewrite uniform_merkle_root in Hm. apply (inj Some) in Hm as <-.
  cbn [piece_header_of sample_piece ph_parity_chunks_root].
  apply (balanced_verify_complete 8 sample_records _ 3); [lia|apply length_replicate|apply uniform_merkle_root|].
  rewrite uniform_root_node. exact sample_records_lookup.
Qed.

Lemma valid_piece_archived_witness :
  ([sample_segment] !! 0 = Some sample_segment /\
   piece_record sample_piece = take NUM_CHUNKS (replicate (2 * NUM_CHUNKS) zero32) /\
   merkle_root hash_pair (drop NUM_CHUNKS (replicate (2 * NUM_CHUNKS) zero32)) = Some (uniform_root 15 zero32)) \/
  piece_collision sample_super_segment sample_records (replicate (2 * NUM_CHUNKS) zero32) sample_piece 3.
Proof.
  apply (valid_piece_archived sample_previous 5 [sample_segment] sample_super_segment sample_piece 3 sample_records
    (replicate (2 * NUM_CHUNKS) zero32)).
  - apply sample_super_segment_new.
  - apply sample_segment_ok.
  - repeat constructor.
  - apply length_replicate.
  - apply sample_record_proof.
  - apply sample_archived.
  - apply sample_piece_valid.
Defined.
End Sample.

(** ** Headers of segments *)

Section Headers.
Context {P : Platform} {PS : PlatformSpec P}.

Definition sh_ok (h : segment_header) : Prop :=
  (sh_index h < 2 ^ 64 /\ lab_number (sh_last_archived_block h) < 2 ^ 64 /\
   lab_archived_progress (sh_last_archived_block h) < 2 ^ 32)%N.

Lemma sh_as_bytes_inj h h' : sh_ok h -> sh_ok h' -> sh_as_bytes h = sh_as_bytes h' -> h = h'.
Proof.
  destruct h as [i r p [n b]], h' as [i' r' p' [n' b']]. unfold sh_ok, sh_as_bytes.
  cbn [sh_index sh_root sh_prev_segment_header_hash sh_last_archived_block lab_number lab_archived_progress].
  intros Hh Hh' E. apply le_split_inj in E as [-> E]; [|cbn; lia..].
  apply app_inj_1 in E as [Er E]; [|by rewrite !length_val32].
  apply app_inj_1 in E as [Ep E]; [|by rewrite !length_val32].
  apply le_split_inj in E as [-> E]; [|cbn; lia..].
  rewrite <- (app_nil_r (le_split 4 b)), <- (app_nil_r (le_split 4 b')) in E.
  apply le_split_inj in E as [-> _]; [|cbn; lia..]. apply val32_inj in Er, Ep. congruence.
Qed.

(** The hash of a header identifies the segment, the last archived block with its progress, and
    through the hash of the previous header all headers before it, unless two inputs collide. *)
Theorem segment_header_hash_binding h h' :
  sh_ok h -> sh_ok h' ->
  exists x, segment_header_hash h = Ret x /\
    (segment_header_hash h' = Ret x -> h = h' \/ block_collision (sh_as_bytes h) (sh_as_bytes h')).
Proof.
  intros Hh Hh'. assert (Hlen : forall h, length (sh_as_bytes h) <= CHUNK_LEN).
  { intros [i r p [n b]]. unfold sh_as_bytes. rewrite !length_app, !length_le_split, !length_val32. unfold OUT_LEN, CHUNK_LEN. lia. }
  unfold segment_header_hash. destruct (chunk_hash_spec _ (Hlen h)) as (x & Hx & Ex).
  destruct (chunk_hash_spec _ (Hlen h')) as (y & Hy & Ey). exists x. split; [done|]. rewrite Hy. intros [= ->].
  destruct (decide (sh_as_bytes h = sh_as_bytes h')) as [E|E]; [left; by apply sh_as_bytes_inj|right].
  split; [done|]. congruence.
Qed.

Lemma partial_archived_set b bytes :
  (0 < bytes)%N -> partial_archived (set_partial_archived b bytes) = Some bytes /\ partial_archived (set_complete b) = None /\
  lab_number (set_partial_archived b bytes) = lab_number b.
Proof. intros Hb. unfold partial_archived, partial. cbn. unfold new_partial. rewrite decide_False by lia. done. Qed.
End Headers.

End Segments.
