(* ===== verification/Solutions.v ===== *)
(** * Solutions of farmers

    Model of [crates/shared/ab-core-primitives/src/solutions.rs] and [sectors.rs], with the
    functions of [pot.rs], [pos.rs] and [shard.rs] that verification of a solution calls:
    solution ranges and distances, what a sector stores and when it expires, and
    [Solution::verify_full], [verify_stateless] and [verify_piece].  The verifier of proofs
    of space, a trait in the source, is a class. *)

From S2P Require Import Prelude Slices MerkleSpec Unbalanced Balanced Blake3 Blake3Tree Blake3Short Shards Segments.
From stdpp Require Import prelude.
From Stdlib Require Import NArith Lia.
From Stdlib Require Import Strings.Byte.

Module Solutions.
Import Blake3 Blake3Tree Blake3Short Shard Segments.

(** ** Distances and ranges, [u64] *)

Definition wrapping_sub_u64 (a b : N) : N := ((a + 2 ^ 64 - b) mod 2 ^ 64)%N.

(** [SolutionDistance::MAX] *)
Definition DISTANCE_MAX : N := u64_max / 2.

Definition bidirectional_distance (a b : N) : N :=
  let diff := wrapping_sub_u64 a b in
  let diff2 := wrapping_sub_u64 b a in
  if (diff <? diff2)%N then diff else diff2.

Definition is_within (distance solution_range : N) : bool := (distance <=? solution_range / 2)%N.

(** [Record::NUM_CHUNKS as u64] and [Record::NUM_S_BUCKETS] *)
Definition NUM_CHUNKS_U64 : N := 2 ^ 15.
Definition NUM_S_BUCKETS : N := NUM_CHUNKS_U64 * ERASURE_CODING_RATE.2 / ERASURE_CODING_RATE.1.

(** The part that [from_pieces] and [to_pieces] share. *)
Definition range_of_one_piece (slot_probability : N * N) : outcome N :=
  let! x := div_unsigned u64_max slot_probability.2 in
  let! x := mul_u64 x slot_probability.1 in
  let! x := div_unsigned x NUM_CHUNKS_U64 in
  mul_u64 x NUM_S_BUCKETS.

Definition from_pieces (pieces : N) (slot_probability : N * N) : outcome N :=
  let! solution_range := range_of_one_piece slot_probability in
  div_unsigned solution_range pieces.

Definition to_pieces (solution_range : N) (slot_probability : N * N) : outcome N :=
  let! pieces := range_of_one_piece slot_probability in
  div_unsigned pieces solution_range.

Definition to_leaf_shard (solution_range : N) (n : num_shards) : N :=
  saturating_mul_u64 solution_range (leaf_shards n).

Definition to_intermediate_shard (solution_range : N) (n : num_shards) : N :=
  saturating_mul_u64 solution_range (intermediate_shards n).

Definition saturating_mul_u128 (a b : N) : N := N.min (a * b) (2 ^ 128 - 1).

(** [clamp], whose assertion is that the bounds are ordered *)
Definition clamp (x low high : N) : outcome N :=
  if decide (high < low)%N then Fault else Ret (if (x <? low)%N then low else if (high <? x)%N then high else x).

Definition derive_next (solution_range slots_in_last_interval : N) (slot_probability : N * N)
    (retarget_interval : N) : outcome N :=
  let product :=
    saturating_mul_u128 (saturating_mul_u128 solution_range slots_in_last_interval) slot_probability.1 in
  let! quotient := div_unsigned product retarget_interval in
  let! quotient := div_unsigned quotient slot_probability.2 in
  let next_solution_range := if decide (quotient < 2 ^ 64)%N then quotient else u64_max in
  clamp next_solution_range (solution_range / 4) (saturating_mul_u64 solution_range 4).

(** ** Sectors *)

(** Bytewise [^] of two arrays *)
Definition xor_byte (a b : byte) : byte := byte_of (N.lxor (Byte.to_N a) (Byte.to_N b)).

Lemma xor32_length (a b : hash32) : length (zip_with xor_byte (val32 a) (val32 b)) = OUT_LEN.
Proof. by rewrite length_zip_with, !length_val32. Qed.

Definition xor32 (a b : hash32) : hash32 := exist _ (zip_with xor_byte (val32 a) (val32 b)) (xor32_length a b).

Definition u256_of (h : hash32) : NanoU256.u256 := NanoU256.from_le_bytes (Byte.to_N <$> val32 h).

(** [SectorSlotChallenge::s_bucket_audit_index] *)
Definition s_bucket_audit_index (sector_slot_challenge : hash32) : N := le_value (take 2 (val32 sector_slot_challenge)).

(** [SectorId::derive_sector_slot_challenge] *)
Definition derive_sector_slot_challenge (sector_id global_challenge : hash32) : hash32 :=
  xor32 sector_id global_challenge.

Section Hashed.
Context `{P : Platform}.
#[local] Existing Instance blake3_hasher.

(** [SectorId::new]; the key is the hash of the public key. *)
Definition new_sector_id (public_key_hash shard_commitments_root : hash32) (sector_index history_size : N)
    : outcome hash32 :=
  block_keyed_hash (val32 public_key_hash)
    (le_split 2 sector_index ++ le_split 8 (as_non_zero_u64 history_size) ++ val32 shard_commitments_root).

Definition derive_piece_index (sector_id : hash32) (piece_offset history_size max_pieces_in_sector recent_segments : N)
    (recent_history_fraction : N * N) : outcome N :=
  let recent_segments_in_pieces := in_pieces recent_segments in
  let! x := mul_u64 recent_segments_in_pieces (in_pieces recent_history_fraction.2) in
  let! min_history_size_in_pieces := div_unsigned x (in_pieces recent_history_fraction.1) in
  let! input_hash := block_keyed_hash (le_split 2 piece_offset ++ replicate 30 x00) (val32 sector_id) in
  let history_size_in_pieces := in_pieces history_size in
  let! x := mul_u64 max_pieces_in_sector (in_pieces recent_history_fraction.1) in
  let! x := div_unsigned x (in_pieces recent_history_fraction.2) in
  let! x := mul_u64 x 2 in
  let num_interleaved_pieces := N.max 1 x in
  if (min_history_size_in_pieces <? history_size_in_pieces)%N &&
     (piece_offset <? num_interleaved_pieces)%N && (piece_offset mod 2 =? 1)%N then
    let! r := NanoU256.rem (u256_of input_hash) recent_segments_in_pieces in
    let! d := sub_u64 history_size_in_pieces recent_segments_in_pieces in
    add_u64 r d
  else NanoU256.rem (u256_of input_hash) history_size_in_pieces.

Definition derive_evaluation_seed (sector_id : hash32) (piece_offset : N) : outcome hash32 :=
  block_hash (val32 sector_id ++ le_split 2 piece_offset).

(** [None] is the [?] on an overflow. *)
Definition derive_expiration_history_size (sector_id : hash32) (history_size : N)
    (sector_expiration_check_super_segment_root : hash32) (min_sector_lifetime : N) : outcome (option N) :=
  let! check := sector_expiration_check history_size min_sector_lifetime in
  match check with
  | None => Ret None
  | Some check_history_size =>
      let sector_expiration_check_history_size := as_non_zero_u64 check_history_size in
      let! input_hash := block_hash (val32 sector_id ++ val32 sector_expiration_check_super_segment_root) in
      match (x ← checked_mul_u64 (as_non_zero_u64 history_size) 4;
             last_possible_expiration ← checked_add_u64 (as_non_zero_u64 min_sector_lifetime) x;
             checked_sub_u64 last_possible_expiration sector_expiration_check_history_size) with
      | None => Ret None
      | Some span =>
          let! expires_in := NanoU256.rem (u256_of input_hash) span in
          let! expiration_history_size := add_u64 sector_expiration_check_history_size expires_in in
          let! h := history_size_new expiration_history_size in
          Ret (Some h)
      end
  end.

(** ** Challenges and proofs of space *)

(** [PotOutput::derive_global_challenge] *)
Definition derive_global_challenge (proof_of_time : list byte) (slot : N) : outcome hash32 :=
  block_hash (proof_of_time ++ le_split 8 slot).

(** [PosProof::hash] *)
Definition pos_proof_hash (proof : list byte) : outcome hash32 := chunk_hash proof.

(** [SolutionDistance::calculate] *)
Definition calculate_distance (global_challenge chunk sector_slot_challenge : hash32) : outcome N :=
  let! audit_chunk := block_keyed_hash (val32 sector_slot_challenge) (val32 chunk) in
  let audit_chunk_as_solution_range := le_value (take 8 (val32 audit_chunk)) in
  let global_challenge_as_solution_range := le_value (take 8 (val32 global_challenge)) in
  Ret (bidirectional_distance global_challenge_as_solution_range audit_chunk_as_solution_range).

(** [NumShards::derive_shard_index_and_shard_commitment_index], from the hashed inputs *)
Definition derive_shard_and_commitment (n : num_shards) (public_key_hash shard_commitments_root : hash32)
    (shard_membership_entropy : list byte) (history_size : N) : outcome (N * N) :=
  let! hash :=
    block_keyed_hash (val32 public_key_hash)
      (val32 shard_commitments_root ++ shard_membership_entropy ++ le_split 8 history_size) in
  derive_shard_index_and_shard_commitment_index n (Byte.to_N <$> val32 hash).
End Hashed.

(** ** Verification *)

Inductive SolutionVerifyError : Type :=
| InvalidPieceOffset (piece_offset max_pieces_in_sector : N)
| FutureHistorySize (current solution : N)
| SectorExpired (expiration_history_size current_history_size : N)
| RecordNotInSegment
| SegmentNotInSuperSegment
| OutsideSolutionRange (solution_range solution_distance : N)
| InvalidProofOfSpace
| InvalidShardCommitment
| InvalidInputShard (shard_index : N) (kind : option shard_kind)
| InvalidSolutionShard (solution_shard_index : N) (solution_parent_shard_index : option N)
    (expected_shard_index : N) (expected_shard_kind : real_shard_kind)
| InvalidChunkProof
| InvalidHistorySize.

Record SolutionVerifyStatelessParams : Type := StatelessParams {
  p_shard_index : N;
  p_proof_of_time : list byte;
  p_solution_range : N;
  p_shard_membership_entropy : list byte;
  p_num_shards : num_shards
}.

Record SolutionVerifyPieceParams : Type := PieceParams {
  p_max_pieces_in_sector : N;
  p_super_segment_root : hash32;
  p_num_segments : N;
  p_recent_segments : N;
  p_recent_history_fraction : N * N;
  p_min_sector_lifetime : N;
  p_current_history_size : N;
  p_sector_expiration_check_super_segment_root : option hash32
}.

Record SolutionVerifyFullParams : Type := FullParams {
  p_stateless : SolutionVerifyStatelessParams;
  p_piece : SolutionVerifyPieceParams
}.

(** [is_proof_valid] takes the seed, the s-bucket and the proof. *)
Class SolutionPotVerifier : Type := is_proof_valid : hash32 -> N -> list byte -> bool.

Record SolutionShardCommitment : Type := ShardCommitment {
  sc_root : hash32;
  sc_proof : list hash32;
  sc_leaf : hash32
}.

Record Solution : Type := MkSolution {
  s_public_key_hash : hash32;
  s_shard_commitment : SolutionShardCommitment;
  s_piece_local_segment_index : N;
  s_piece_super_segment_index : N;
  s_segment_root : hash32;
  s_segment_proof : list hash32;
  s_record_root : hash32;
  s_record_proof : list hash32;
  s_chunk : hash32;
  s_chunk_proof : list hash32;
  s_proof_of_space : list byte;
  s_history_size : N;
  s_sector_index : N;
  s_piece_offset : N;
  s_segment_position : N;
  s_piece_shard_index : N;
  s_padding : list byte
}.

Section Verify.
Context `{P : Platform} `{V : SolutionPotVerifier}.
#[local] Existing Instance blake3_hasher.

Definition sector_id_of (s : Solution) : outcome hash32 :=
  new_sector_id (s_public_key_hash s) (sc_root (s_shard_commitment s)) (s_sector_index s) (s_history_size s).

(** The solution range for the kind of shard, or the error of a solution for another shard *)
Definition adjusted_range (kind : real_shard_kind) (shard_index solution_shard_index solution_range : N) (n : num_shards)
    : result N SolutionVerifyError :=
  match kind with
  | RealBeaconChain => Ok solution_range
  | RealIntermediateShard =>
      if negb (bool_decide (parent_shard solution_shard_index = Some shard_index)) then
        Err (InvalidSolutionShard solution_shard_index (parent_shard solution_shard_index) shard_index
               RealIntermediateShard)
      else Ok (to_intermediate_shard solution_range n)
  | RealLeafShard =>
      if negb (solution_shard_index =? shard_index)%N then
        Err (InvalidSolutionShard solution_shard_index (parent_shard solution_shard_index) shard_index RealLeafShard)
      else Ok (to_leaf_shard solution_range n)
  end.

(** From the shard commitment on *)
Definition verify_challenge (s : Solution) (sector_id : hash32) (slot : N) (proof_of_time : list byte)
    (solution_range shard_commitment_index : N) : outcome (result unit SolutionVerifyError) :=
  let c := s_shard_commitment s in
  if negb (Balanced.verify (2 ^ 20) (sc_root c) (sc_proof c) (N.to_nat shard_commitment_index) (sc_leaf c)) then
    Ret (Err InvalidShardCommitment)
  else
    let! global_challenge := derive_global_challenge proof_of_time slot in
    let sector_slot_challenge := derive_sector_slot_challenge sector_id global_challenge in
    let s_bucket := s_bucket_audit_index sector_slot_challenge in
    let! seed := derive_evaluation_seed sector_id (s_piece_offset s) in
    if negb (is_proof_valid seed s_bucket (s_proof_of_space s)) then Ret (Err InvalidProofOfSpace)
    else
      let! mask := pos_proof_hash (s_proof_of_space s) in
      let masked_chunk := xor32 (s_chunk s) mask in
      let! solution_distance := calculate_distance global_challenge masked_chunk sector_slot_challenge in
      if negb (is_within solution_distance solution_range) then
        Ret (Err (OutsideSolutionRange solution_range solution_distance))
      else if negb (Balanced.verify (2 ^ 16) (s_record_root s) (s_chunk_proof s) (N.to_nat s_bucket) (s_chunk s)) then
        Ret (Err InvalidChunkProof)
      else Ret (Ok tt).

Definition verify_stateless_inner (s : Solution) (sector_id : hash32) (slot : N)
    (params : SolutionVerifyStatelessParams) : outcome (result unit SolutionVerifyError) :=
  let shard_index := p_shard_index params in
  match get_shard_kind shard_index ≫= to_real with
  | None => Ret (Err (InvalidInputShard shard_index (get_shard_kind shard_index)))
  | Some kind =>
      let! (solution_shard_index, shard_commitment_index) :=
        derive_shard_and_commitment (p_num_shards params) (s_public_key_hash s) (sc_root (s_shard_commitment s))
          (p_shard_membership_entropy params) (s_history_size s) in
      match adjusted_range kind shard_index solution_shard_index (p_solution_range params) (p_num_shards params) with
      | Err e => Ret (Err e)
      | Ok solution_range =>
          verify_challenge s sector_id slot (p_proof_of_time params) solution_range shard_commitment_index
      end
  end.

(** The check that the sector has not expired; [None] is no error. *)
Definition check_expiration (s : Solution) (sector_id : hash32) (params : SolutionVerifyPieceParams)
    : outcome (option SolutionVerifyError) :=
  match p_sector_expiration_check_super_segment_root params with
  | None => Ret None
  | Some root =>
      let! expiration := derive_expiration_history_size sector_id (s_history_size s) root (p_min_sector_lifetime params) in
      match expiration with
      | None => Ret (Some InvalidHistorySize)
      | Some expiration_history_size =>
          if (expiration_history_size <=? p_current_history_size params)%N then
            Ret (Some (SectorExpired expiration_history_size (p_current_history_size params)))
          else Ret None
      end
  end.

Definition verify_piece_inner (s : Solution) (sector_id : hash32) (params : SolutionVerifyPieceParams)
    : outcome (result unit SolutionVerifyError) :=
  if (p_current_history_size params <? s_history_size s)%N then
    Ret (Err (FutureHistorySize (p_current_history_size params) (s_history_size s)))
  else if (p_max_pieces_in_sector params <=? s_piece_offset s)%N then
    Ret (Err (InvalidPieceOffset (s_piece_offset s) (p_max_pieces_in_sector params)))
  else
    let! expired := check_expiration s sector_id params in
    match expired with
    | Some e => Ret (Err e)
    | None =>
        let! piece_index :=
          derive_piece_index sector_id (s_piece_offset s) (s_history_size s) (p_max_pieces_in_sector params)
            (p_recent_segments params) (p_recent_history_fraction params) in
        if negb (record_root_is_valid (s_record_root s) (s_segment_root s) (s_record_proof s) (position piece_index)) then
          Ret (Err RecordNotInSegment)
        else
          let! in_super_segment :=
            segment_root_is_valid (s_segment_root s) (s_piece_shard_index s) (s_piece_local_segment_index s)
              (s_segment_position s) (s_segment_proof s) (p_num_segments params) (p_super_segment_root params) in
          if negb in_super_segment then Ret (Err SegmentNotInSuperSegment) else Ret (Ok tt)
    end.

Definition verify_stateless (s : Solution) (slot : N) (params : SolutionVerifyStatelessParams)
    : outcome (result unit SolutionVerifyError) :=
  let! sector_id := sector_id_of s in verify_stateless_inner s sector_id slot params.

Definition verify_piece (s : Solution) (params : SolutionVerifyPieceParams) : outcome (result unit SolutionVerifyError) :=
  let! sector_id := sector_id_of s in verify_piece_inner s sector_id params.

Definition verify_full (s : Solution) (slot : N) (params : SolutionVerifyFullParams)
    : outcome (result unit SolutionVerifyError) :=
  let! sector_id := sector_id_of s in
  let! r := verify_stateless_inner s sector_id slot (p_stateless params) in
  match r with
  | Err e => Ret (Err e)
  | Ok _ => verify_piece_inner s sector_id (p_piece params)
  end.
End Verify.

(** ** Distances *)

Lemma wrapping_sub_cases a b :
  (a < 2 ^ 64)%N -> (b < 2 ^ 64)%N ->
  wrapping_sub_u64 a b = (if decide (b <= a)%N then a - b else 2 ^ 64 - (b - a))%N.
Proof.
  intros Ha Hb. unfold wrapping_sub_u64. case_decide.
  - replace (a + 2 ^ 64 - b)%N with (a - b + 1 * 2 ^ 64)%N by lia. rewrite N.Div0.mod_add. apply N.mod_small. lia.
  - rewrite N.mod_small by lia. lia.
Qed.

Lemma distance_cases a b :
  (a < 2 ^ 64)%N -> (b < 2 ^ 64)%N ->
  bidirectional_distance a b = N.min (N.max a b - N.min a b) (2 ^ 64 - (N.max a b - N.min a b)).
Proof.
  intros Ha Hb. unfold bidirectional_distance. rewrite !wrapping_sub_cases by done.
  repeat case_decide; destruct (N.ltb_spec (a - b) (b - a)); try lia;
    repeat match goal with |- context [(?x <? ?y)%N] => destruct (N.ltb_spec x y) end; lia.
Qed.

(** The distance of two 64-bit values is their distance on the circle of [2^64] values: it is
    the shorter way round, the same in both directions, zero only between equal values, and
    satisfies the triangle inequality. *)
Theorem distance_is_circular a b c :
  (a < 2 ^ 64)%N -> (b < 2 ^ 64)%N -> (c < 2 ^ 64)%N ->
  bidirectional_distance a b = N.min (N.max a b - N.min a b) (2 ^ 64 - (N.max a b - N.min a b)) /\
  bidirectional_distance a b = bidirectional_distance b a /\
  (bidirectional_distance a b = 0%N <-> a = b) /\ (bidirectional_distance a b <= 2 ^ 63)%N /\
  (bidirectional_distance a c <= bidirectional_distance a b + bidirectional_distance b c)%N.
Proof. intros. rewrite !distance_cases by done. split_and!; lia. Qed.

(** Opposite values are further apart than [SolutionDistance::MAX], and so outside of every
    solution range. *)
Example antipodal_distance :
  bidirectional_distance 0 (2 ^ 63) = (DISTANCE_MAX + 1)%N /\
  is_within (bidirectional_distance 0 (2 ^ 63)) u64_max = false.
Proof. split; reflexivity. Qed.

(** ** Ranges *)

Lemma div_unsigned_Ret a b : (0 < b)%N -> div_unsigned a b = Ret (a / b)%N.
Proof. intros. unfold div_unsigned. by rewrite decide_False by lia. Qed.

Lemma mul_u64_Ret a b : (a * b < 2 ^ 64)%N -> mul_u64 a b = Ret (a * b)%N.
Proof. intros. unfold mul_u64. by rewrite decide_True. Qed.

(** [K / (K / n)] is [n] for [n] up to the root of [K]. *)
Lemma div_div_small K n : (0 < n)%N -> (n * n <= K)%N -> (0 < K / n)%N /\ (K / (K / n) = n)%N.
Proof.
  intros Hn HK. pose proof (N.Div0.div_mod K n). pose proof (N.mod_lt K n ltac:(lia)).
  assert (Hq : (n <= K / n)%N) by (apply N.div_le_lower_bound; lia). split; [lia|].
  symmetry. apply N.div_unique with (K mod n)%N; [lia|]. rewrite (N.mul_comm (K / n)). done.
Qed.

(** [from_pieces] and [to_pieces] are inverse of each other up to the square root of the range
    of a single piece; beyond, the number of pieces that comes back is at least the one that
    went in. *)
Theorem pieces_roundtrip n slot_probability one r :
  range_of_one_piece slot_probability = Ret one -> from_pieces n slot_probability = Ret r ->
  ((n * n <= one)%N -> to_pieces r slot_probability = Ret n) /\
  ((n <= one)%N -> exists m, to_pieces r slot_probability = Ret m /\ (n <= m)%N).
Proof.
  unfold from_pieces, to_pieces. intros -> Hr. cbn [obind] in *. unfold div_unsigned in Hr. case_decide; [done|].
  assert (r = one / n)%N as -> by congruence. split.
  - intros Hn. destruct (div_div_small one n) as [Hp E]; [lia|done|]. by rewrite div_unsigned_Ret, E by done.
  - intros Hn. pose proof (N.div_str_pos one n ltac:(lia)) as Hp. rewrite div_unsigned_Ret by done. eexists. split; [done|].
    apply N.div_le_lower_bound; [lia|]. rewrite N.mul_comm. apply N.Div0.mul_div_le.
Qed.

(** For slot probabilities above one half the range of a piece does not fit. *)
Example certain_slot_overflows : from_pieces 1 (1, 1)%N = Fault /\ exists r, from_pieces 1 (1, 2)%N = Ret r.
Proof. split; [reflexivity|eexists; reflexivity]. Qed.

#[export] Instance Ret_inj {A} : Inj (=) (=) (@Ret A).
Proof. by intros x y [= ->]. Qed.

(** ** Retargeting *)

Lemma clamp_spec x low high : (low <= high)%N -> clamp x low high = Ret (N.max low (N.min x high)).
Proof.
  intros. unfold clamp. rewrite decide_False by lia. f_equal.
  destruct (N.ltb_spec x low), (N.ltb_spec high x); lia.
Qed.

Lemma quarter_le_four r : (r < 2 ^ 64)%N -> (r / 4 <= saturating_mul_u64 r 4)%N.
Proof.
  intros. unfold saturating_mul_u64, u64_max. pose proof (N.Div0.div_le_upper_bound r 4 r ltac:(lia)). lia.
Qed.

(** The quotient that is clamped *)
Definition retargeted (range slots : N) (probability : N * N) (interval : N) : N :=
  (saturating_mul_u128 (saturating_mul_u128 range slots) probability.1 / (interval * probability.2))%N.

Lemma derive_next_spec range slots probability interval :
  (range < 2 ^ 64)%N -> interval <> 0%N -> probability.2 <> 0%N ->
  derive_next range slots probability interval =
    Ret (N.max (range / 4) (N.min (N.min (retargeted range slots probability interval) u64_max) (N.min (4 * range) u64_max))).
Proof.
  intros Hr Hi Hp. unfold derive_next. rewrite !div_unsigned_Ret by lia. cbn [obind].
  rewrite div_unsigned_Ret by lia. cbn [obind]. rewrite N.Div0.div_div. fold (retargeted range slots probability interval).
  rewrite clamp_spec by (by apply quarter_le_four). f_equal. unfold saturating_mul_u64. rewrite (N.mul_comm range 4). f_equal.
  generalize (retargeted range slots probability interval). intros q. unfold u64_max. case_decide; lia.
Qed.

Lemma retargeted_exact range slots probability interval :
  retargeted range slots probability interval =
    (N.min (range * slots * probability.1) (2 ^ 128 - 1) / (interval * probability.2))%N.
Proof.
  unfold retargeted, saturating_mul_u128. f_equal. destruct (decide (probability.1 = 0)%N) as [->|]; [lia|].
  destruct (decide (range * slots <= 2 ^ 128 - 1)%N) as [Hm|Hm]; [by rewrite (N.min_l (range * slots)) by lia|].
  rewrite (N.min_r (range * slots)) by lia.
  assert (range * slots <= range * slots * probability.1)%N by nia.
  assert (2 ^ 128 - 1 <= (2 ^ 128 - 1) * probability.1)%N by nia. lia.
Qed.

(** C40. The next solution range is the product of the current one, the slots of the last
    interval and the first part of the slot probability, saturated at 2^128 - 1, over the
    interval times the second part, rounded down once and clamped between a quarter and four
    times the current range, at most 2^64 - 1. It is the exact ratio rounded down while the
    product is below 2^128; a saturated product makes it too small, but still in the range. It
    panics exactly for an interval or second part of zero. *)
Theorem derive_next_exact range slots probability interval :
  (range < 2 ^ 64)%N ->
  let clamped q := N.max (range / 4) (N.min q (N.min (4 * range) u64_max)) in
  let product := (range * slots * probability.1)%N in
  let divisor := (interval * probability.2)%N in
  (derive_next range slots probability interval = Fault <-> interval = 0%N \/ probability.2 = 0%N) /\
  (forall next, derive_next range slots probability interval = Ret next ->
     (range / 4 <= next <= N.min (4 * range) u64_max)%N /\
     next = clamped (N.min product (2 ^ 128 - 1) / divisor)%N /\
     ((product < 2 ^ 128)%N -> next = clamped (product / divisor)%N)).
Proof.
  intros Hr clamped product divisor. destruct (decide (interval = 0)%N) as [->|Hi]; [split; [by split; auto|done]|].
  destruct (decide (probability.2 = 0)%N) as [Hp|Hp].
  { unfold derive_next. rewrite div_unsigned_Ret, Hp by lia. split; [by split; auto|done]. }
  rewrite derive_next_spec by done. split; [split; [done|tauto]|]. intros next E. apply (inj Ret) in E as <-.
  pose proof (quarter_le_four range Hr) as Hq. unfold saturating_mul_u64 in Hq. rewrite (N.mul_comm range 4) in Hq.
  rewrite retargeted_exact. fold product divisor.
  assert (forall q, N.max (range / 4) (N.min (N.min q u64_max) (N.min (4 * range) u64_max)) = clamped q) as Hc
    by (intros q; unfold clamped, u64_max; lia).
  rewrite Hc. split; [unfold clamped; lia|]. split; [done|]. intros Hfit. by rewrite N.min_l by lia.
Qed.

(** The product can saturate while the quotient is small: here nothing is to change. *)
Example saturated_retarget : derive_next (2 ^ 63) (2 ^ 63) (8, 8)%N (2 ^ 63) = Ret (2 ^ 62 - 1)%N.
Proof. reflexivity. Qed.

(** ** Pieces of a sector *)

Lemma u256_rem (h : hash32) n :
  (0 < n < 2 ^ 64)%N -> exists r, NanoU256.rem (u256_of h) n = Ret r /\ (r < n)%N.
Proof.
  intros Hn. rewrite NanoU256.rem_spec; [| |done].
  - eexists. split; [done|]. apply N.mod_lt. lia.
  - cbn [u256_of NanoU256.from_le_bytes NanoU256.lo].
    pose proof (le_bytes_bound (take 16 (Byte.to_N <$> val32 h))) as Hb.
    rewrite length_take, length_fmap, length_val32 in Hb. apply Hb. apply Forall_take, Forall_fmap, Forall_true.
    intros b. apply to_N_lt.
Qed.

Lemma in_pieces_bounds h : (256 <= in_pieces h < 2 ^ 64)%N.
Proof.
  unfold in_pieces, saturating_mul_u64, saturating_add_u64, u64_max. change NUM_PIECES with 256%N. lia.
Qed.

Lemma in_pieces_mono a b : (a <= b)%N -> (in_pieces a <= in_pieces b)%N.
Proof. unfold in_pieces, saturating_mul_u64, saturating_add_u64, u64_max. change NUM_PIECES with 256%N. lia. Qed.

(** Every piece below the size of the history is in one of its segments. *)
Lemma in_pieces_segment p h : (p < in_pieces h)%N -> (segment_index_of p <= h)%N.
Proof.
  unfold in_pieces, saturating_mul_u64, saturating_add_u64, segment_index_of, u64_max. change NUM_PIECES with 256%N.
  intros Hp. apply N.lt_succ_r, N.Div0.div_lt_upper_bound. lia.
Qed.

Section Sectors.
Context {P : Platform} {PS : PlatformSpec P}.

(** The pieces of a sector that come from recent history: those at odd offsets at the start
    of the sector, once the history is long enough *)
Definition from_recent_history (piece_offset history_size max_pieces_in_sector recent_segments : N)
    (recent_history_fraction : N * N) : bool :=
  (in_pieces recent_segments * in_pieces recent_history_fraction.2 / in_pieces recent_history_fraction.1
     <? in_pieces history_size)%N &&
  (piece_offset <? N.max 1 (max_pieces_in_sector * in_pieces recent_history_fraction.1 / in_pieces recent_history_fraction.2 * 2))%N &&
  (piece_offset mod 2 =? 1)%N.

Lemma derive_piece_index_spec sector_id piece_offset history_size max_pieces_in_sector recent_segments fraction :
  (fraction.1 <= fraction.2)%N -> (in_pieces recent_segments * in_pieces fraction.2 < 2 ^ 64)%N ->
  (max_pieces_in_sector < 2 ^ 16)%N -> (in_pieces fraction.1 < 2 ^ 48)%N ->
  exists i, derive_piece_index sector_id piece_offset history_size max_pieces_in_sector recent_segments fraction = Ret i /\
    (i < in_pieces history_size)%N /\
    (from_recent_history piece_offset history_size max_pieces_in_sector recent_segments fraction = true ->
     (in_pieces history_size - in_pieces recent_segments <= i)%N).
Proof.
  intros Hf Hover Hmax Hf1. unfold derive_piece_index, from_recent_history.
  pose proof (in_pieces_bounds fraction.1). pose proof (in_pieces_bounds fraction.2).
  pose proof (in_pieces_bounds history_size). pose proof (in_pieces_bounds recent_segments).
  pose proof (in_pieces_mono _ _ Hf) as Hm. rewrite mul_u64_Ret by done. cbn [obind].
  rewrite div_unsigned_Ret by lia. cbn [obind].
  destruct (block_keyed_hash_spec (le_split 2 piece_offset ++ replicate 30 x00) (val32 sector_id)) as (h & -> & _).
  { rewrite length_val32. unfold OUT_LEN, BLOCK_LEN. lia. }
  cbn [obind]. assert (Hx : (max_pieces_in_sector * in_pieces fraction.1 < 2 ^ 64)%N) by nia.
  rewrite mul_u64_Ret by done. cbn [obind]. rewrite div_unsigned_Ret by lia. cbn [obind].
  assert (Hd : (max_pieces_in_sector * in_pieces fraction.1 / in_pieces fraction.2 < 2 ^ 56)%N)
    by (apply N.Div0.div_lt_upper_bound; nia).
  rewrite mul_u64_Ret by lia. cbn [obind]. destruct (_ && _ && _) eqn:Hc.
  - apply andb_prop in Hc as [[Hc%N.ltb_lt _]%andb_prop _].
    destruct (u256_rem h (in_pieces recent_segments)) as (r & -> & Hr); [lia|]. cbn [obind].
    assert (in_pieces recent_segments <= in_pieces history_size)%N as Hle.
    { transitivity (in_pieces recent_segments * in_pieces fraction.2 / in_pieces fraction.1)%N; [|lia].
      apply N.div_le_lower_bound; [lia|]. nia. }
    unfold sub_u64. rewrite decide_True by done. cbn [obind]. unfold add_u64. rewrite decide_True by lia.
    eexists. split; [done|]. split; [lia|]. intros _. lia.
  - destruct (u256_rem h (in_pieces history_size)) as (r & -> & Hr); [lia|]. exists r. split_and!; done.
Qed.
End Sectors.

Section Lifetimes.
Context {P : Platform} {PS : PlatformSpec P}.

(** C37. For a recent history fraction of at most one, with a numerator of less than 2^48 pieces
    and recent segments that times the denominator, both in pieces, fit 64 bits, and a number of
    pieces in a sector of 16 bits, the piece of a sector at any offset is derived without
    overflow and is in the history of the size the sector was created at, in one of its
    segments; at the odd offsets for recent history, in a history longer than that, it is in the
    most recent segments. *)
Theorem sector_pieces_in_history sector_id piece_offset history_size max_pieces_in_sector recent_segments fraction :
  (fraction.1 <= fraction.2)%N -> (in_pieces recent_segments * in_pieces fraction.2 < 2 ^ 64)%N ->
  (max_pieces_in_sector < 2 ^ 16)%N -> (in_pieces fraction.1 < 2 ^ 48)%N ->
  exists i, derive_piece_index sector_id piece_offset history_size max_pieces_in_sector recent_segments fraction = Ret i /\
    (i < in_pieces history_size)%N /\ (segment_index_of i <= history_size)%N /\ (position i < NUM_PIECES)%N /\
    (from_recent_history piece_offset history_size max_pieces_in_sector recent_segments fraction = true ->
     (in_pieces history_size - in_pieces recent_segments <= i)%N).
Proof.
  intros Hf Hover Hmax Hf1.
  destruct (derive_piece_index_spec sector_id piece_offset history_size max_pieces_in_sector recent_segments fraction)
    as (i & Hi & Hlt & Hrec); [done..|].
  exists i. split_and!; [done..|by apply in_pieces_segment| |done].
  unfold position. change NUM_PIECES with 256%N. apply N.mod_lt. lia.
Qed.

Lemma checked_add_u64_Some a b c : checked_add_u64 a b = Some c <-> (a + b < 2 ^ 64)%N /\ c = (a + b)%N.
Proof. unfold checked_add_u64. case_decide; naive_solver. Qed.

(** A history size, as the number of its segments, fits [u64]. *)
Definition size_ok (history_size : N) : Prop := (history_size + 1 < 2 ^ 64)%N.

Lemma as_non_zero_ok h : size_ok h -> as_non_zero_u64 h = (h + 1)%N.
Proof. unfold size_ok, as_non_zero_u64, saturating_add_u64, u64_max. lia. Qed.

Lemma expiration_spec sector_id history_size root min_sector_lifetime :
  size_ok history_size -> size_ok min_sector_lifetime ->
  exists r, derive_expiration_history_size sector_id history_size root min_sector_lifetime = Ret r /\
    match r with
    | None => (2 ^ 64 <= min_sector_lifetime + 1 + 4 * (history_size + 1))%N
    | Some e =>
        (history_size + 1 + (min_sector_lifetime + 1) <= e + 1 < min_sector_lifetime + 1 + 4 * (history_size + 1))%N /\
        (min_sector_lifetime + 1 + 4 * (history_size + 1) < 2 ^ 64)%N
    end.
Proof.
  intros Hh Hm. unfold derive_expiration_history_size, sector_expiration_check. rewrite !as_non_zero_ok by done.
  unfold size_ok in Hh, Hm. unfold checked_add_u64 at 1. case_decide as Hs; cbn [obind].
  2:{ exists None. split; [done|]. lia. }
  unfold history_size_new at 1, sub_u64 at 1. rewrite decide_True by lia. cbn [obind].
  destruct (block_hash_spec (val32 sector_id ++ val32 root)) as (h & -> & _).
  { rewrite length_app, !length_val32. unfold OUT_LEN, BLOCK_LEN. lia. }
  cbn [obind]. rewrite as_non_zero_ok by (unfold size_ok; lia).
  unfold checked_mul_u64. case_decide as H4; cbn [mbind option_bind].
  2:{ exists None. split; [done|]. lia. }
  unfold checked_add_u64. case_decide as Hl; cbn [mbind option_bind].
  2:{ exists None. split; [done|]. lia. }
  unfold checked_sub_u64. rewrite decide_True by lia.
  destruct (u256_rem h (min_sector_lifetime + 1 + (history_size + 1) * 4 -
    (history_size + 1 + (min_sector_lifetime + 1) - 1 + 1))) as (r & -> & Hr); [lia|]. cbn [obind].
  unfold add_u64. rewrite decide_True by lia. cbn [obind]. unfold history_size_new, sub_u64. rewrite decide_True by lia.
  cbn [obind]. eexists. split; [done|]. split; lia.
Qed.

(** C38. For a history and a minimum lifetime of at most 2^64 - 1 segments each, the expiration
    of a sector never panics and is None exactly when minimum lifetime plus four times the
    history does not fit 64 bits; otherwise it is at least the history plus the minimum
    lifetime, and less than the minimum lifetime plus four times the history. *)
Theorem expiration_bounds sector_id history_size root min_sector_lifetime :
  size_ok history_size -> size_ok min_sector_lifetime ->
  exists r, derive_expiration_history_size sector_id history_size root min_sector_lifetime = Ret r /\
    (r = None <-> (2 ^ 64 <= min_sector_lifetime + 1 + 4 * (history_size + 1))%N) /\
    forall e, r = Some e ->
      (as_non_zero_u64 history_size + as_non_zero_u64 min_sector_lifetime <= as_non_zero_u64 e)%N /\
      (as_non_zero_u64 e < as_non_zero_u64 min_sector_lifetime + 4 * as_non_zero_u64 history_size)%N.
Proof.
  intros Hh Hm. destruct (expiration_spec sector_id history_size root min_sector_lifetime Hh Hm) as (r & Hr & Hs).
  exists r. split; [done|]. rewrite !as_non_zero_ok by done. destruct r as [e|].
  - destruct Hs as [He Hok]. split; [split; [done|lia]|].
    intros e' [= <-]. rewrite as_non_zero_ok by (unfold size_ok; lia). lia.
  - split; [done|]. done.
Qed.
End Lifetimes.

(** ** Verification returns *)

(** The sizes of the arrays of a solution, and the widths of its numbers *)
Record solution_ok (s : Solution) : Prop := {
  sol_commitment_proof : length (sc_proof (s_shard_commitment s)) = 20;
  sol_chunk_proof : length (s_chunk_proof s) = 16;
  sol_record_proof : length (s_record_proof s) = 8;
  sol_proof_of_space : length (s_proof_of_space s) = 160;
  sol_segment_position : (s_segment_position s < 2 ^ 32)%N;
  sol_shard_index : (s_piece_shard_index s < 2 ^ 32)%N;
  sol_local_index : (s_piece_local_segment_index s < 2 ^ 64)%N
}.

Record stateless_params_ok (p : SolutionVerifyStatelessParams) : Prop := {
  par_proof_of_time : length (p_proof_of_time p) = 16;
  par_entropy : length (p_shard_membership_entropy p) = 16;
  par_num_shards : exists a b, num_shards_try_from a b = Some (p_num_shards p) /\ (a < 2 ^ 16)%N /\ (b < 2 ^ 16)%N
}.

(** What [verify_piece] needs of the parameters of the consensus. *)
Record piece_params_ok (p : SolutionVerifyPieceParams) : Prop := {
  par_max_pieces : (p_max_pieces_in_sector p < 2 ^ 16)%N;
  par_num_segments : (p_num_segments p < 2 ^ 32)%N;
  par_fraction : ((p_recent_history_fraction p).1 <= (p_recent_history_fraction p).2)%N;
  par_recent : (in_pieces (p_recent_segments p) * in_pieces (p_recent_history_fraction p).2 < 2 ^ 64)%N;
  par_fraction_small : (in_pieces (p_recent_history_fraction p).1 < 2 ^ 48)%N;
  par_lifetime : size_ok (p_min_sector_lifetime p);
  par_current : size_ok (p_current_history_size p)
}.

Section Returns.
Context {P : Platform} {PS : PlatformSpec P} {V : SolutionPotVerifier}.
#[local] Existing Instance blake3_hasher.

Lemma sector_id_returns s : exists sector_id, sector_id_of s = Ret sector_id.
Proof.
  unfold sector_id_of, new_sector_id.
  edestruct block_keyed_hash_spec as (h & Hh & _); [|by exists h].
  rewrite !length_app, !length_le_split, length_val32. unfold OUT_LEN, BLOCK_LEN. lia.
Qed.

(** The shard of a solution is a leaf shard of the network. *)
Lemma derive_shard_spec a b n public_key_hash root entropy history_size :
  num_shards_try_from a b = Some n -> (a < 2 ^ 16)%N -> (b < 2 ^ 16)%N -> length entropy = 16 ->
  exists i c, derive_shard_and_commitment n public_key_hash root entropy history_size = Ret (i, c) /\
    i ∈ iter_leaf_shards n /\ (c < NUM_LEAVES)%N.
Proof.
  intros Hn Ha Hb He. unfold derive_shard_and_commitment.
  edestruct (block_keyed_hash_spec (val32 public_key_hash) (val32 root ++ entropy ++ le_split 8 history_size))
    as (h & -> & _).
  { rewrite !length_app, length_le_split, length_val32, He. unfold OUT_LEN, BLOCK_LEN. lia. }
  cbn [obind]. destruct (derive_shard_index_in_range a b n (Byte.to_N <$> val32 h)) as (i & c & E & Hi & Hc); try done.
  - by rewrite length_fmap, length_val32.
  - apply Forall_fmap, Forall_true. intros x. apply to_N_lt.
  - exists i, c. split_and!; [done|by eapply list_elem_of_lookup_2|done].
Qed.

Lemma global_challenge_returns pot slot : length pot = 16 -> exists h, derive_global_challenge pot slot = Ret h.
Proof.
  intros Hl. unfold derive_global_challenge. edestruct block_hash_spec as (h & Hh & _); [|by exists h].
  rewrite length_app, length_le_split, Hl. unfold BLOCK_LEN. lia.
Qed.

Lemma evaluation_seed_returns sector_id offset : exists h, derive_evaluation_seed sector_id offset = Ret h.
Proof.
  unfold derive_evaluation_seed. edestruct block_hash_spec as (h & Hh & _); [|by exists h].
  rewrite length_app, length_le_split, length_val32. unfold OUT_LEN, BLOCK_LEN. lia.
Qed.

Lemma pos_proof_hash_returns proof : length proof = 160 -> exists h, pos_proof_hash proof = Ret h.
Proof.
  intros Hl. unfold pos_proof_hash. edestruct chunk_hash_spec as (h & Hh & _); [|by exists h].
  rewrite Hl. unfold CHUNK_LEN. lia.
Qed.

Lemma calculate_distance_returns global_challenge chunk challenge :
  exists d, calculate_distance global_challenge chunk challenge = Ret d.
Proof.
  unfold calculate_distance. edestruct (block_keyed_hash_spec (val32 challenge) (val32 chunk)) as (h & -> & _); [|by eexists].
  rewrite length_val32. unfold OUT_LEN, BLOCK_LEN. lia.
Qed.

Lemma verify_challenge_returns s sector_id slot pot range index :
  solution_ok s -> length pot = 16 -> exists r, verify_challenge s sector_id slot pot range index = Ret r.
Proof.
  intros Hs Hpot. unfold verify_challenge. case_match; [by eexists|].
  destruct (global_challenge_returns pot slot Hpot) as [g ->]. cbn [obind].
  destruct (evaluation_seed_returns sector_id (s_piece_offset s)) as [seed ->]. cbn [obind].
  destruct (negb (is_proof_valid _ _ _)); [by eexists|].
  destruct (pos_proof_hash_returns _ (sol_proof_of_space s Hs)) as [m ->]. cbn [obind].
  edestruct calculate_distance_returns as [d ->]. cbn [obind].
  destruct (negb (is_within _ _)); [by eexists|]. case_match; by eexists.
Qed.

Lemma verify_stateless_returns s sector_id slot params :
  solution_ok s -> stateless_params_ok params -> exists r, verify_stateless_inner s sector_id slot params = Ret r.
Proof.
  intros Hs [Hpot He (a & b & Hn & Ha & Hb)]. unfold verify_stateless_inner.
  destruct (get_shard_kind _ ≫= to_real) as [kind|]; [|by eexists].
  edestruct derive_shard_spec as (i & c & -> & _); [exact Hn|exact Ha|exact Hb|exact He|]. cbn [obind].
  destruct (adjusted_range _ _ _ _ _) as [range|e]; [|by eexists]. by apply verify_challenge_returns.
Qed.

Lemma check_expiration_returns s sector_id params :
  piece_params_ok params -> (s_history_size s <= p_current_history_size params)%N ->
  exists r, check_expiration s sector_id params = Ret r.
Proof.
  intros Hp Hh. unfold check_expiration.
  destruct (p_sector_expiration_check_super_segment_root params) as [root|]; [|by eexists].
  edestruct expiration_spec as (r & -> & _); [|by apply par_lifetime|cbn [obind]; destruct r; [|by eexists]].
  - pose proof (par_current params Hp). unfold size_ok in *. lia.
  - destruct (_ <=? _)%N; by eexists.
Qed.

Lemma verify_piece_returns s sector_id params :
  piece_params_ok params -> exists r, verify_piece_inner s sector_id params = Ret r.
Proof.
  intros Hp. unfold verify_piece_inner. destruct (N.ltb_spec (p_current_history_size params) (s_history_size s)) as [|Hh]; [by eexists|].
  destruct (_ <=? _)%N; [by eexists|]. destruct (check_expiration_returns s sector_id params Hp Hh) as [[e|] ->]; [by eexists|].
  cbn [obind]. destruct Hp.
  edestruct derive_piece_index_spec as (i & -> & _); [done..|]. cbn [obind].
  destruct (negb (record_root_is_valid _ _ _ _)); [by eexists|].
  edestruct segment_root_is_valid_returns as [b ->]; [done|]. destruct b; by eexists.
Qed.

(** C35. For every solution with fields of their lengths and widths, and parameters with a valid
    number of shards, a recent history fraction of at most one with a numerator of less than
    2^48 pieces, recent segments that times its denominator, both in pieces, fit 64 bits, and
    history and minimum lifetime of at most 2^64 - 1 segments, [verify_full] gives a verdict or
    an error and nothing in it panics; the verdict is that of [verify_stateless] followed by
    [verify_piece]. *)
Theorem verify_full_returns s slot params :
  solution_ok s -> stateless_params_ok (p_stateless params) -> piece_params_ok (p_piece params) ->
  exists stateless piece, verify_stateless s slot (p_stateless params) = Ret stateless /\
    verify_piece s (p_piece params) = Ret piece /\
    verify_full s slot params = Ret (match stateless with Err e => Err e | Ok _ => piece end).
Proof.
  intros Hs Hst Hp. destruct (sector_id_returns s) as [sector_id E].
  destruct (verify_stateless_returns s sector_id slot _ Hs Hst) as [r Hr].
  destruct (verify_piece_returns s sector_id _ Hp) as [r' Hr']. exists r, r'.
  unfold verify_stateless, verify_piece, verify_full. rewrite E. cbn [obind]. rewrite Hr, Hr'. cbn [obind].
  split_and!; [done..|]. by destruct r.
Qed.
End Returns.

(** ** What an accepted solution satisfies *)

(** For which shards a solution of a leaf shard counts, and with which range *)
Inductive shard_accepts (shard_index solution_shard range : N) (n : num_shards) : N -> Prop :=
| accepts_beacon_chain :
    get_shard_kind shard_index = Some BeaconChain -> shard_accepts shard_index solution_shard range n range
| accepts_intermediate :
    get_shard_kind shard_index = Some IntermediateShard -> parent_shard solution_shard = Some shard_index ->
    shard_accepts shard_index solution_shard range n (saturating_mul_u64 range (intermediate_shards n))
| accepts_leaf :
    get_shard_kind shard_index = Some LeafShard -> solution_shard = shard_index ->
    shard_accepts shard_index solution_shard range n (saturating_mul_u64 range (leaf_shards n)).

Lemma adjusted_range_accepts shard_index solution_shard range n r :
  shard_accepts shard_index solution_shard range n r <->
  exists kind, get_shard_kind shard_index ≫= to_real = Some kind /\
    adjusted_range kind shard_index solution_shard range n = Ok r.
Proof.
  split.
  - intros [Hk|Hk Hp|Hk ->]; rewrite Hk; eexists; (split; [done|]); cbn; [done| |].
    + by rewrite bool_decide_eq_true_2 by done.
    + by rewrite N.eqb_refl.
  - intros (kind & Hk & Ha). destruct (get_shard_kind shard_index) as [k|] eqn:E; [|done].
    destruct k; cbn in Hk; try discriminate Hk; injection Hk as <-; cbn in Ha.
    + injection Ha as <-. by constructor.
    + case_bool_decide; [|done]. injection Ha as <-. by constructor.
    + destruct (N.eqb_spec solution_shard shard_index); [|done]. injection Ha as <-. by constructor.
Qed.

Section Accepted.
Context {P : Platform} {PS : PlatformSpec P} {V : SolutionPotVerifier}.
#[local] Existing Instance blake3_hasher.

(** The values that verification computes and the checks that they pass, but for Merkle proofs *)
Record answers (s : Solution) (slot : N) (params : SolutionVerifyFullParams) (sector_id global_challenge : hash32)
    (solution_shard commitment_index range distance piece_index : N) : Prop := {
  acc_sector : sector_id_of s = Ret sector_id;
  acc_shard :
    derive_shard_and_commitment (p_num_shards (p_stateless params)) (s_public_key_hash s) (sc_root (s_shard_commitment s))
      (p_shard_membership_entropy (p_stateless params)) (s_history_size s) = Ret (solution_shard, commitment_index);
  acc_range :
    shard_accepts (p_shard_index (p_stateless params)) solution_shard (p_solution_range (p_stateless params))
      (p_num_shards (p_stateless params)) range;
  acc_challenge : derive_global_challenge (p_proof_of_time (p_stateless params)) slot = Ret global_challenge;
  acc_space : exists seed, derive_evaluation_seed sector_id (s_piece_offset s) = Ret seed /\
    is_proof_valid seed (s_bucket_audit_index (xor32 sector_id global_challenge)) (s_proof_of_space s) = true;
  acc_distance : exists mask, pos_proof_hash (s_proof_of_space s) = Ret mask /\
    calculate_distance global_challenge (xor32 (s_chunk s) mask) (xor32 sector_id global_challenge) = Ret distance;
  acc_within : (distance <= range / 2)%N;
  acc_history : (s_history_size s <= p_current_history_size (p_piece params))%N;
  acc_offset : (s_piece_offset s < p_max_pieces_in_sector (p_piece params))%N;
  acc_expiration : forall root, p_sector_expiration_check_super_segment_root (p_piece params) = Some root ->
    exists e, derive_expiration_history_size sector_id (s_history_size s) root (p_min_sector_lifetime (p_piece params)) =
      Ret (Some e) /\ (p_current_history_size (p_piece params) < e)%N;
  acc_piece :
    derive_piece_index sector_id (s_piece_offset s) (s_history_size s) (p_max_pieces_in_sector (p_piece params))
      (p_recent_segments (p_piece params)) (p_recent_history_fraction (p_piece params)) = Ret piece_index
}.

(** The checks of all proofs *)
Record accepted (s : Solution) (slot : N) (params : SolutionVerifyFullParams) (sector_id global_challenge : hash32)
    (solution_shard commitment_index range distance piece_index : N) : Prop := {
  acc_answers :
    answers s slot params sector_id global_challenge solution_shard commitment_index range distance piece_index;
  acc_commitment :
    Balanced.verify (2 ^ 20) (sc_root (s_shard_commitment s)) (sc_proof (s_shard_commitment s))
      (N.to_nat commitment_index) (sc_leaf (s_shard_commitment s)) = true;
  acc_chunk :
    Balanced.verify (2 ^ 16) (s_record_root s) (s_chunk_proof s)
      (N.to_nat (s_bucket_audit_index (xor32 sector_id global_challenge))) (s_chunk s) = true;
  acc_record : record_root_is_valid (s_record_root s) (s_segment_root s) (s_record_proof s) (position piece_index) = true;
  acc_segment :
    segment_root_is_valid (s_segment_root s) (s_piece_shard_index s) (s_piece_local_segment_index s)
      (s_segment_position s) (s_segment_proof s) (p_num_segments (p_piece params)) (p_super_segment_root (p_piece params)) =
      Ret true
}.

Lemma check_expiration_passes s sector_id params :
  check_expiration s sector_id params = Ret None <->
  forall root, p_sector_expiration_check_super_segment_root params = Some root ->
    exists e, derive_expiration_history_size sector_id (s_history_size s) root (p_min_sector_lifetime params) =
      Ret (Some e) /\ (p_current_history_size params < e)%N.
Proof.
  unfold check_expiration. destruct (p_sector_expiration_check_super_segment_root params) as [root|].
  - split.
    + intros E root' [= <-]. destruct (derive_expiration_history_size _ _ _ _) as [[e|]|]; [|done..].
      cbn [obind] in E. destruct (N.leb_spec e (p_current_history_size params)); [done|]. by exists e.
    + intros Hr. destruct (Hr root eq_refl) as (e & -> & He). cbn [obind].
      by destruct (N.leb_spec e (p_current_history_size params)); [lia|].
  - split; [|done]. intros _ root [=].
Qed.

Lemma verify_challenge_passes s sector_id slot pot range index :
  verify_challenge s sector_id slot pot range index = Ret (Ok tt) <->
  exists g distance,
    Balanced.verify (2 ^ 20) (sc_root (s_shard_commitment s)) (sc_proof (s_shard_commitment s))
      (N.to_nat index) (sc_leaf (s_shard_commitment s)) = true /\
    derive_global_challenge pot slot = Ret g /\
    (exists seed, derive_evaluation_seed sector_id (s_piece_offset s) = Ret seed /\
      is_proof_valid seed (s_bucket_audit_index (xor32 sector_id g)) (s_proof_of_space s) = true) /\
    (exists mask, pos_proof_hash (s_proof_of_space s) = Ret mask /\
      calculate_distance g (xor32 (s_chunk s) mask) (xor32 sector_id g) = Ret distance) /\
    (distance <= range / 2)%N /\
    Balanced.verify (2 ^ 16) (s_record_root s) (s_chunk_proof s)
      (N.to_nat (s_bucket_audit_index (xor32 sector_id g))) (s_chunk s) = true.
Proof.
  unfold verify_challenge, derive_sector_slot_challenge, is_within. split.
  - intros E. case_match eqn:Hc; [done|]. apply negb_false_iff in Hc.
    destruct (derive_global_challenge pot slot) as [g|]; [|done]. cbn [obind] in E.
    destruct (derive_evaluation_seed sector_id (s_piece_offset s)) as [seed|]; [|done]. cbn [obind] in E.
    case_match eqn:Hv; [done|]. apply negb_false_iff in Hv.
    destruct (pos_proof_hash (s_proof_of_space s)) as [mask|]; [|done]. cbn [obind] in E.
    destruct (calculate_distance _ _ _) as [d|] eqn:Hd; [|done]. cbn [obind] in E.
    case_match eqn:Hw; [done|]. apply negb_false_iff, N.leb_le in Hw.
    case_match eqn:Hk; [done|]. apply negb_false_iff in Hk.
    exists g, d. split_and!; [done..| | |done|done]; eauto.
  - intros (g & d & -> & -> & (seed & -> & Hv) & (mask & -> & Hd) & Hw & Hk). cbn [obind negb]. rewrite Hv. cbn [obind negb].
    rewrite Hd. cbn [obind]. rewrite (proj2 (N.leb_le _ _) Hw). cbn [negb]. by rewrite Hk.
Qed.

Lemma verify_piece_passes s sector_id params :
  verify_piece_inner s sector_id params = Ret (Ok tt) <->
  exists piece_index,
    (s_history_size s <= p_current_history_size params)%N /\ (s_piece_offset s < p_max_pieces_in_sector params)%N /\
    (forall root, p_sector_expiration_check_super_segment_root params = Some root ->
      exists e, derive_expiration_history_size sector_id (s_history_size s) root (p_min_sector_lifetime params) =
        Ret (Some e) /\ (p_current_history_size params < e)%N) /\
    derive_piece_index sector_id (s_piece_offset s) (s_history_size s) (p_max_pieces_in_sector params)
      (p_recent_segments params) (p_recent_history_fraction params) = Ret piece_index /\
    record_root_is_valid (s_record_root s) (s_segment_root s) (s_record_proof s) (position piece_index) = true /\
    segment_root_is_valid (s_segment_root s) (s_piece_shard_index s) (s_piece_local_segment_index s)
      (s_segment_position s) (s_segment_proof s) (p_num_segments params) (p_super_segment_root params) = Ret true.
Proof.
  setoid_rewrite <- check_expiration_passes. unfold verify_piece_inner. split.
  - intros E. destruct (N.ltb_spec (p_current_history_size params) (s_history_size s)); [done|].
    destruct (N.leb_spec (p_max_pieces_in_sector params) (s_piece_offset s)); [done|].
    destruct (check_expiration s sector_id params) as [[|]|]; [done| |done]. cbn [obind] in E.
    destruct (derive_piece_index _ _ _ _ _ _) as [i|]; [|done]. cbn [obind] in E.
    case_match eqn:Hr; [done|]. apply negb_false_iff in Hr.
    destruct (segment_root_is_valid _ _ _ _ _ _ _) as [[]|] eqn:Hs; [|done..]. by exists i.
  - intros (i & Hh & Ho & -> & -> & Hr & ->).
    destruct (N.ltb_spec (p_current_history_size params) (s_history_size s)); [lia|].
    destruct (N.leb_spec (p_max_pieces_in_sector params) (s_piece_offset s)); [lia|]. cbn [obind]. by rewrite Hr.
Qed.

(** [verify_full] accepts exactly the solutions that pass the checks. *)
Lemma verify_full_accepts s slot params :
  verify_full s slot params = Ret (Ok tt) <->
  exists sector_id g shard index range distance piece_index,
    accepted s slot params sector_id g shard index range distance piece_index.
Proof.
  unfold verify_full, verify_stateless_inner. split.
  - intros E. destruct (sector_id_of s) as [sector_id|] eqn:Hs; [|done]. cbn [obind] in E.
    destruct (get_shard_kind _ ≫= to_real) as [kind|] eqn:Hk; [|done].
    destruct (derive_shard_and_commitment _ _ _ _ _) as [[shard index]|] eqn:Hd; [|done]. cbn [obind] in E.
    destruct (adjusted_range _ _ _ _ _) as [range|e] eqn:Ha; [|done].
    destruct (verify_challenge _ _ _ _ _ _) as [[[]|e]|] eqn:Hc; [|done..]. cbn [obind] in E.
    apply verify_challenge_passes in Hc as (g & distance & H1 & H2 & H3 & H4 & H5 & H6).
    apply verify_piece_passes in E as (i & H7 & H8 & H9 & H10 & H11 & H12).
    exists sector_id, g, shard, index, range, distance, i. constructor; try done.
    constructor; try done. apply adjusted_range_accepts. by exists kind.
  - intros (sector_id & g & shard & index & range & distance & i & [[] ? ? ? ?]). rewrite acc_sector0. cbn [obind].
    apply adjusted_range_accepts in acc_range0 as (kind & -> & Ha). rewrite acc_shard0. cbn [obind]. rewrite Ha.
    assert (verify_challenge s sector_id slot (p_proof_of_time (p_stateless params)) range index = Ret (Ok tt)) as ->.
    { apply verify_challenge_passes. by exists g, distance. }
    cbn [obind]. apply verify_piece_passes. by exists i.
Qed.
End Accepted.

(** ** Solutions and the archived history *)

Section Archived.
Context {P : Platform} {PS : PlatformSpec P} {V : SolutionPotVerifier}.
#[local] Existing Instance blake3_hasher.

(** The record roots of a segment of the history, and the chunks, source and parity, of each record *)
Record segment_archive (segment_root : hash32) (records : list hash32) (chunks : list (list hash32)) : Prop := {
  archive_records : length records = N.to_nat NUM_PIECES;
  archive_segment : merkle_root hash_pair records = Some segment_root;
  archive_chunks : Forall2 (fun root cs => length cs = 2 ^ 16 /\ merkle_root hash_pair cs = Some root) records chunks
}.

Definition solution_segment (s : Solution) : shard_segment_root :=
  ShardSegmentRoot (s_piece_shard_index s) (s_segment_position s) (s_piece_local_segment_index s) (s_segment_root s).

(** Two inputs with the same hash, one in the history and one that verification hashes *)
Definition solution_collision (ss : super_segment) (records : list hash32) (chunks : list (list hash32)) (s : Solution)
    (piece_position s_bucket : N) : Prop :=
  segment_collision ss (solution_segment s) (s_segment_proof s) \/
  node_collision (tree_inputs hash_pair records)
    (path_inputs (length records) (N.to_nat piece_position) (s_record_root s) (s_record_proof s)) \/
  exists cs, chunks !! N.to_nat piece_position = Some cs /\
    node_collision (tree_inputs hash_pair cs) (path_inputs (length cs) (N.to_nat s_bucket) (s_chunk s) (s_chunk_proof s)).

Lemma balanced_sound k (leaves : list hash32) root proof i leaf :
  k < 64 -> length leaves = 2 ^ k -> length proof = k -> merkle_root hash_pair leaves = Some root ->
  Balanced.verify (2 ^ k) root proof i leaf = true ->
  leaves !! i = Some leaf \/ node_collision (tree_inputs hash_pair leaves) (path_inputs (length leaves) i leaf proof).
Proof.
  intros Hk Hl Hp Hr Hv. destruct (Balanced.balanced_verify_sound k leaves root proof i leaf Hk Hl Hp Hr) as [_ Hs].
  destruct (Hs Hv) as [[? _]|Hc]; [by left|right; by apply node_collision_of].
Qed.

(** C8. When [verify_full] accepts a solution against a super segment whose segments, records
    and chunks are given, its proof of space is valid for sector and challenge, the distance is
    in the range of the shard, the sector has not expired where there is a super segment root to
    check that with, the segment that the solution names is in the super segment at the position
    it names, and its chunk is at the challenged s-bucket of the record at the position of the
    sector's piece index within that segment; or two inputs with the same BLAKE3 hash are
    exhibited. Of the piece index only the position within a segment matters: neither the code
    nor the theorem ties the named segment to the segment of the piece index. *)
Theorem accepted_solution_archived previous_header target roots ss s slot params records chunks :
  new_super_segment previous_header target roots = Ret (Some ss) -> Forall ssr_ok roots -> solution_ok s ->
  p_super_segment_root (p_piece params) = ssh_root (ss_header ss) ->
  p_num_segments (p_piece params) = ssh_num_segments (ss_header ss) ->
  (forall r, roots !! N.to_nat (s_segment_position s) = Some r -> segment_archive (ssr_segment_root r) records chunks) ->
  verify_full s slot params = Ret (Ok tt) ->
  exists sector_id g shard index range distance piece_index,
    accepted s slot params sector_id g shard index range distance piece_index /\
    let s_bucket := s_bucket_audit_index (xor32 sector_id g) in
    ((roots !! N.to_nat (s_segment_position s) = Some (solution_segment s) /\
      records !! N.to_nat (position piece_index) = Some (s_record_root s) /\
      exists cs, chunks !! N.to_nat (position piece_index) = Some cs /\ cs !! N.to_nat s_bucket = Some (s_chunk s)) \/
     solution_collision ss records chunks s (position piece_index) s_bucket).
Proof.
  intros [Hss <-]%new_super_segment_ok Hall Hs Hroot Hnum Harch
    (sector_id & g & shard & index & range & distance & i & Hacc)%verify_full_accepts.
  exists sector_id, g, shard, index, range, distance, i. split; [done|]. intros s_bucket. unfold solution_collision.
  destruct Hacc. destruct Hs. rewrite Hroot, Hnum in acc_segment0.
  destruct (segment_valid_sound ss (solution_segment s) (s_segment_proof s) Hss Hall) as [Hr|Hc]; [done|done| |by right; left].
  destruct (Harch _ Hr) as [Hlen Hseg Hchunks].
  destruct (record_root_valid_sound records (s_record_root s) (s_segment_root s) (s_record_proof s) (position i))
    as [Hi|Hc]; [done..| |by right; right; left].
  destruct (Forall2_lookup_l _ _ _ _ _ Hchunks Hi) as (cs & Hcs & Hl & Hm).
  destruct (balanced_sound 16 cs _ _ (N.to_nat s_bucket) (s_chunk s) ltac:(lia) Hl sol_chunk_proof0 Hm acc_chunk0) as [Hk|Hc].
  - left. split_and!; [done..|]. by exists cs.
  - right. do 2 right. by exists cs.
Qed.

(** A solution with the Merkle proofs of the archived history and of the farmer's commitments *)
Record honest (ss : super_segment) (records : list hash32) (chunks : list (list hash32)) (commitments : list hash32)
    (s : Solution) (commitment_index piece_position s_bucket : N) : Prop := {
  honest_commitments :
    length commitments = 2 ^ 20 /\ merkle_root hash_pair commitments = Some (sc_root (s_shard_commitment s));
  honest_commitment :
    commitments !! N.to_nat commitment_index = Some (sc_leaf (s_shard_commitment s)) /\
    sc_proof (s_shard_commitment s) = merkle_path hash_pair commitments (N.to_nat commitment_index);
  honest_segment :
    ss_segment_roots ss !! N.to_nat (s_segment_position s) = Some (solution_segment s) /\
    proof_for_segment ss (s_segment_position s) = Ret (Some (s_segment_proof s)) /\
    zero32 ∉ merkle_path hash_pair (leaf_of <$> ss_segment_roots ss) (N.to_nat (s_segment_position s));
  honest_archive : segment_archive (s_segment_root s) records chunks;
  honest_record :
    records !! N.to_nat piece_position = Some (s_record_root s) /\
    s_record_proof s = merkle_path hash_pair records (N.to_nat piece_position);
  honest_chunk : exists cs, chunks !! N.to_nat piece_position = Some cs /\ cs !! N.to_nat s_bucket = Some (s_chunk s) /\
    s_chunk_proof s = merkle_path hash_pair cs (N.to_nat s_bucket)
}.

Lemma honest_accepted ss records chunks commitments s slot params sector_id g shard index range distance piece_index :
  super_segment_ok ss ->
  p_super_segment_root (p_piece params) = ssh_root (ss_header ss) ->
  p_num_segments (p_piece params) = ssh_num_segments (ss_header ss) ->
  answers s slot params sector_id g shard index range distance piece_index ->
  honest ss records chunks commitments s index (position piece_index) (s_bucket_audit_index (xor32 sector_id g)) ->
  verify_full s slot params = Ret (Ok tt).
Proof.
  intros Hss Hroot Hnum Hans [[Hcl Hcr] [Hci Hcp] (Hseg & Hsp & Hz) [Hrl Hrr Hrc] [Hri Hrp] (cs & Hcs & Hck & Hcsp)].
  apply verify_full_accepts. exists sector_id, g, shard, index, range, distance, piece_index. constructor; [done|..].
  - rewrite Hcp. by apply (balanced_verify_complete 20); [lia|..].
  - rewrite Hcsp. destruct (Forall2_lookup_lr _ _ _ _ _ _ Hrc Hri Hcs) as [Hl Hm].
    by apply (balanced_verify_complete 16); [lia|..].
  - unfold record_root_is_valid. rewrite Hrp. change (N.to_nat NUM_PIECES) with (2 ^ 8) in *.
    by apply (balanced_verify_complete 8); [lia|..].
  - rewrite Hroot, Hnum. destruct (segment_proof_accepted ss (solution_segment s)) as (proof & Hp & _ & Hv); [done..|].
    cbn [ssr_segment_position solution_segment] in *. assert (proof = s_segment_proof s) as -> by congruence. by apply Hv.
Qed.

(** C18. A solution passes [verify_full] when it is for a shard that the verifying one accepts,
    with a valid proof of space, a distance in the solution range, a history size that is not in
    the future, a piece offset below the number of pieces in a sector, not expired where there
    is a super segment root to check that with, and with the Merkle proofs of its commitment, of
    the chunk at the challenged s-bucket, of the record at the position of the sector's piece
    index and of an archived segment, on whose path no hash is zero. Any archived segment will
    do, also another than that of the piece index. *)
Theorem honest_solution_accepted previous_header target roots ss records chunks commitments s slot params
    sector_id g shard index range distance piece_index :
  new_super_segment previous_header target roots = Ret (Some ss) ->
  p_super_segment_root (p_piece params) = ssh_root (ss_header ss) ->
  p_num_segments (p_piece params) = ssh_num_segments (ss_header ss) ->
  answers s slot params sector_id g shard index range distance piece_index ->
  honest ss records chunks commitments s index (position piece_index) (s_bucket_audit_index (xor32 sector_id g)) ->
  verify_full s slot params = Ret (Ok tt).
Proof. intros [Hss _]%new_super_segment_ok. by apply honest_accepted. Qed.
End Archived.

(** ** Witnesses *)

Section Sample.
#[local] Existing Instance portable_platform.
#[local] Existing Instance blake3_hasher.

(** A verifier that accepts proofs of the right size, and the history of the sample piece *)
#[local] Instance sample_verifier : SolutionPotVerifier := fun _ _ proof => length proof =? 160.

Definition value_of {A} (d : A) (o : outcome A) : A := match o with Ret x => x | Fault => d end.

Definition sample_key : hash32 := sample32 x01.
Definition sample_commitments : list hash32 := replicate (2 ^ 20) zero32.
Definition sample_commitment_root : hash32 := uniform_root 20 zero32.
Definition sample_num_shards : num_shards := NumShards 1 1.
Definition sample_stateless : SolutionVerifyStatelessParams :=
  StatelessParams 0 (replicate 16 x02) u64_max (replicate 16 x03) sample_num_shards.
Definition sample_piece_params : SolutionVerifyPieceParams :=
  PieceParams 1000 (ssh_root (ss_header sample_super_segment)) (ssh_num_segments (ss_header sample_super_segment))
    4 (0, 9)%N 3 0 None.

Definition sample_sector : hash32 := value_of zero32 (new_sector_id sample_key sample_commitment_root 0 0).
Definition sample_challenge : hash32 := value_of zero32 (derive_global_challenge (replicate 16 x02) 7).
Definition sample_shard : N * N :=
  value_of (0, 0)%N (derive_shard_and_commitment sample_num_shards sample_key sample_commitment_root (replicate 16 x03) 0).
Definition sample_piece_index : N := value_of 0%N (derive_piece_index sample_sector 2 0 1000 4 (0, 9)%N).
Definition sample_proof_of_space : list byte := replicate 160 x00.
Definition sample_bucket : N := s_bucket_audit_index (xor32 sample_sector sample_challenge).
Definition sample_distance : N :=
  value_of 0%N (let! mask := pos_proof_hash sample_proof_of_space in
    calculate_distance sample_challenge (xor32 zero32 mask) (xor32 sample_sector sample_challenge)).

Definition sample_solution : Solution := {|
  s_public_key_hash := sample_key;
  s_shard_commitment :=
    ShardCommitment sample_commitment_root (merkle_path hash_pair sample_commitments (N.to_nat sample_shard.2)) zero32;
  s_piece_local_segment_index := 0;
  s_piece_super_segment_index := 0;
  s_segment_root := ssr_segment_root sample_segment;
  s_segment_proof := replicate 20 zero32;
  s_record_root := sample_record_root;
  s_record_proof := merkle_path hash_pair sample_records (N.to_nat (position sample_piece_index));
  s_chunk := zero32;
  s_chunk_proof := merkle_path hash_pair (replicate (2 ^ 16) zero32) (N.to_nat sample_bucket);
  s_proof_of_space := sample_proof_of_space;
  s_history_size := 0;
  s_sector_index := 0;
  s_piece_offset := 2;
  s_segment_position := 0;
  s_piece_shard_index := 0;
  s_padding := replicate 4 x00
|}.

Lemma sample_distance_small : (sample_distance <=? u64_max / 2)%N = true.
Proof. vm_compute. reflexivity. Qed.

#[local] Opaque uniform_root merkle_path merkle_root block_hash block_keyed_hash chunk_hash xor32.

Lemma value_of_Ret {A} (d : A) o : (exists x, o = Ret x) -> o = Ret (value_of d o).
Proof. by intros [x ->]. Qed.

Lemma sample_num_shards_ok : num_shards_try_from 1 1 = Some sample_num_shards.
Proof. reflexivity. Qed.

Lemma sample_shard_spec :
  derive_shard_and_commitment sample_num_shards sample_key sample_commitment_root (replicate 16 x03) 0 = Ret sample_shard /\
  (sample_shard.2 < NUM_LEAVES)%N.
Proof.
  unfold sample_shard.
  destruct (derive_shard_spec 1 1 sample_num_shards sample_key sample_commitment_root (replicate 16 x03) 0)
    as (i & c & -> & _ & Hc); done.
Qed.

Lemma sample_piece_spec :
  derive_piece_index sample_sector 2 0 1000 4 (0, 9)%N = Ret sample_piece_index.
Proof.
  unfold sample_piece_index. apply value_of_Ret.
  destruct (derive_piece_index_spec sample_sector 2 0 1000 4 (0, 9)%N) as (i & -> & _); [done..|by eexists].
Qed.

Lemma sample_sector_spec : new_sector_id sample_key sample_commitment_root 0 0 = Ret sample_sector.
Proof. apply value_of_Ret, (sector_id_returns sample_solution). Qed.

Lemma sample_answers :
  answers sample_solution 7 (FullParams sample_stateless sample_piece_params) sample_sector sample_challenge
    sample_shard.1 sample_shard.2 u64_max sample_distance sample_piece_index.
Proof.
  destruct (pos_proof_hash_returns sample_proof_of_space eq_refl) as [mask Hmask]. constructor.
  - apply sample_sector_spec.
  - destruct sample_shard_spec as [E _]. rewrite <- surjective_pairing. exact E.
  - apply accepts_beacon_chain. reflexivity.
  - apply value_of_Ret, global_challenge_returns. done.
  - destruct (evaluation_seed_returns sample_sector 2) as [seed Hs]. exists seed. split; [exact Hs|]. reflexivity.
  - exists mask. split; [exact Hmask|]. unfold sample_distance. rewrite Hmask. cbn [obind].
    apply value_of_Ret, calculate_distance_returns.
  - apply N.leb_le, sample_distance_small.
  - reflexivity.
  - reflexivity.
  - intros root [=].
  - apply sample_piece_spec.
Qed.

Lemma sample_bucket_lt : (sample_bucket < 2 ^ 16)%N.
Proof.
  unfold sample_bucket, s_bucket_audit_index. pose proof (le_value_lt (take 2 (val32 (xor32 sample_sector sample_challenge)))) as Hl.
  by rewrite length_take, length_val32 in Hl.
Qed.

Lemma position_lt i : N.to_nat (position i) < 2 ^ 8.
Proof. unfold position. change NUM_PIECES with 256%N. pose proof (N.mod_lt (i mod 256) (2 ^ 8)). cbn in *. lia. Qed.

Lemma sample_archive :
  segment_archive (ssr_segment_root sample_segment) sample_records (replicate (2 ^ 8) (replicate (2 ^ 16) zero32)).
Proof.
  constructor.
  - apply length_replicate.
  - apply uniform_merkle_root.
  - unfold sample_records. apply Forall2_replicate. split; [apply length_replicate|apply uniform_merkle_root].
Qed.

Lemma sample_honest :
  honest sample_super_segment sample_records (replicate (2 ^ 8) (replicate (2 ^ 16) zero32)) sample_commitments
    sample_solution sample_shard.2 (position sample_piece_index) sample_bucket.
Proof.
  destruct (new_super_segment_ok _ _ _ _ sample_super_segment_new) as [Hok Hroots]. pose proof sample_bucket_lt as Hb.
  destruct sample_shard_spec as [_ Hc]. unfold NUM_LEAVES in Hc. pose proof (of_nat_pow2 20) as E20. pose proof (of_nat_pow2 16) as E16.
  change (N.of_nat 20) with 20%N in E20. change (N.of_nat 16) with 16%N in E16.
  constructor; cbn [sample_solution s_shard_commitment sc_root sc_leaf sc_proof s_segment_position s_segment_proof
    s_segment_root s_record_root s_record_proof s_chunk s_chunk_proof].
  - split; [apply length_replicate|apply uniform_merkle_root].
  - split; [|reflexivity]. apply lookup_replicate_2. lia.
  - rewrite Hroots. split_and!; [done| |].
    + rewrite proof_for_segment_spec, Hroots, merkle_path_short by (done || cbn; lia). done.
    + rewrite merkle_path_short by (cbn; lia). apply not_elem_of_nil.
  - apply sample_archive.
  - split; [|reflexivity]. apply lookup_replicate_2, position_lt.
  - eexists. split_and!; [apply lookup_replicate_2, position_lt| |reflexivity]. apply lookup_replicate_2. lia.
Qed.

Lemma sample_solution_ok : solution_ok sample_solution.
Proof.
  pose proof sample_bucket_lt as Hb. destruct sample_shard_spec as [_ Hc]. unfold NUM_LEAVES in Hc.
  pose proof (of_nat_pow2 20) as E20. pose proof (of_nat_pow2 16) as E16.
  change (N.of_nat 20) with 20%N in E20. change (N.of_nat 16) with 16%N in E16.
  constructor; cbn [sample_solution s_shard_commitment sc_proof s_segment_position s_piece_shard_index
    s_piece_local_segment_index s_record_proof s_chunk_proof s_proof_of_space];
    [| | |reflexivity..].
  - apply Balanced.path_length_pow2; unfold sample_commitments; rewrite length_replicate; [reflexivity|lia].
  - apply Balanced.path_length_pow2; rewrite length_replicate; [reflexivity|lia].
  - apply Balanced.path_length_pow2; unfold sample_records; rewrite length_replicate; [reflexivity|apply position_lt].
Qed.

Lemma sample_stateless_ok : stateless_params_ok sample_stateless.
Proof. constructor; [reflexivity|reflexivity|]. exists 1%N, 1%N. split; [apply sample_num_shards_ok|]. split; reflexivity. Qed.

Lemma sample_piece_params_ok : piece_params_ok sample_piece_params.
Proof.
  destruct (new_super_segment_ok _ _ _ _ sample_super_segment_new) as [Hok Hroots].
  constructor; cbn [sample_piece_params p_num_segments]; [reflexivity| |discriminate|reflexivity..].
  by rewrite (ok_num_segments _ Hok), Hroots.
Qed.

Lemma honest_solution_accepted_witness :
  verify_full sample_solution 7 (FullParams sample_stateless sample_piece_params) = Ret (Ok tt).
Proof.
  apply (honest_solution_accepted sample_previous 5 [sample_segment] sample_super_segment sample_records
    (replicate (2 ^ 8) (replicate (2 ^ 16) zero32)) sample_commitments sample_solution 7
    (FullParams sample_stateless sample_piece_params) sample_sector sample_challenge sample_shard.1 sample_shard.2
    u64_max sample_distance sample_piece_index).
  - apply sample_super_segment_new.
  - reflexivity.
  - reflexivity.
  - apply sample_answers.
  - apply sample_honest.
Defined.

Lemma sample_solution_accepted :
  verify_full sample_solution 7 (FullParams sample_stateless sample_piece_params) = Ret (Ok tt).
Proof.
  destruct (new_super_segment_ok _ _ _ _ sample_super_segment_new) as [Hok _].
  eapply honest_accepted; [exact Hok|reflexivity|reflexivity|apply sample_answers|apply sample_honest].
Qed.

Lemma accepted_solution_archived_witness :
  exists sector_id g shard index range distance piece_index,
    accepted sample_solution 7 (FullParams sample_stateless sample_piece_params) sector_id g shard index range distance
      piece_index /\
    let s_bucket := s_bucket_audit_index (xor32 sector_id g) in
    let chunks := replicate (2 ^ 8) (replicate (2 ^ 16) zero32) in
    (([sample_segment] !! N.to_nat (s_segment_position sample_solution) = Some (solution_segment sample_solution) /\
      sample_records !! N.to_nat (position piece_index) = Some (s_record_root sample_solution) /\
      exists cs, chunks !! N.to_nat (position piece_index) = Some cs /\
        cs !! N.to_nat s_bucket = Some (s_chunk sample_solution)) \/
     solution_collision sample_super_segment sample_records chunks sample_solution (position piece_index) s_bucket).
Proof.
  apply (accepted_solution_archived sample_previous 5 [sample_segment] sample_super_segment sample_solution 7
    (FullParams sample_stateless sample_piece_params) sample_records (replicate (2 ^ 8) (replicate (2 ^ 16) zero32))).
  - apply sample_super_segment_new.
  - apply sample_segment_ok.
  - apply sample_solution_ok.
  - reflexivity.
  - reflexivity.
  - intros r [= <-]. apply sample_archive.
  - apply sample_solution_accepted.
Defined.

Lemma verify_full_returns_witness :
  exists stateless piece, verify_stateless sample_solution 7 sample_stateless = Ret stateless /\
    verify_piece sample_solution sample_piece_params = Ret piece /\
    verify_full sample_solution 7 (FullParams sample_stateless sample_piece_params) =
      Ret (match stateless with Err e => Err e | Ok _ => piece end).
Proof.
  apply (verify_full_returns sample_solution 7 (FullParams sample_stateless sample_piece_params)).
  - apply sample_solution_ok.
  - apply sample_stateless_ok.
  - apply sample_piece_params_ok.
Defined.

Lemma sector_pieces_in_history_witness :
  exists i, derive_piece_index zero32 1 100 1000 4 (0, 9)%N = Ret i /\
    (i < in_pieces 100)%N /\ (segment_index_of i <= 100)%N /\ (position i < NUM_PIECES)%N /\
    (from_recent_history 1 100 1000 4 (0, 9)%N = true -> (in_pieces 100 - in_pieces 4 <= i)%N).
Proof. apply (sector_pieces_in_history zero32 1 100 1000 4 (0, 9)%N); [discriminate|reflexivity..]. Defined.

Lemma expiration_bounds_witness :
  exists r, derive_expiration_history_size zero32 10 zero32 3 = Ret r /\
    (r = None <-> (2 ^ 64 <= 3 + 1 + 4 * (10 + 1))%N) /\
    forall e, r = Some e ->
      (as_non_zero_u64 10 + as_non_zero_u64 3 <= as_non_zero_u64 e)%N /\
      (as_non_zero_u64 e < as_non_zero_u64 3 + 4 * as_non_zero_u64 10)%N.
Proof. apply (expiration_bounds zero32 10 zero32 3); reflexivity. Defined.
End Sample.

Lemma distance_is_circular_witness :
  bidirectional_distance 1 u64_max = 2%N /\
  bidirectional_distance 1 u64_max = bidirectional_distance u64_max 1.
Proof.
  destruct (distance_is_circular 1 u64_max 5) as (E & S & _); [reflexivity..|]. split; [rewrite E; reflexivity|exact S].
Defined.

Lemma pieces_roundtrip_witness :
  exists r, from_pieces 1000 (1, 6)%N = Ret r /\ to_pieces r (1, 6)%N = Ret 1000%N.
Proof.
  exists (value_of 0 (from_pieces 1000 (1, 6)%N))%N. split; [reflexivity|].
  apply (pieces_roundtrip 1000 (1, 6)%N (value_of 0 (range_of_one_piece (1, 6)%N))%N); [reflexivity|reflexivity|discriminate].
Defined.

Lemma derive_next_exact_witness :
  (derive_next 100 2000 (1, 6)%N 500 = Fault <-> 500%N = 0%N \/ 6%N = 0%N) /\
  derive_next 100 2000 (1, 6)%N 500 = Ret 66%N /\
  66%N = N.max (100 / 4) (N.min (100 * 2000 * 1 / (500 * 6)) (N.min (4 * 100) u64_max)).
Proof.
  destruct (derive_next_exact 100 2000 (1, 6)%N 500) as [H1 H2]; [reflexivity|].
  split; [exact H1|]. split; [reflexivity|]. apply (H2 66%N); reflexivity.
Defined.

(** ** Leaf shards without solutions *)

(** The first leaf shard of each intermediate shard, whose index is that of the intermediate shard,
    can be the shard of a solution, but no leaf and no intermediate shard accepts the solution:
    it counts on the beacon chain only. *)
Theorem first_leaf_shards_rejected n m shard_index range kind :
  (1 <= m <= N.min (intermediate_shards n) 1023)%N -> (0 < leaf_shards_per_intermediate_shard n)%N ->
  get_shard_kind shard_index ≫= to_real = Some kind ->
  m ∈ iter_leaf_shards n /\ get_shard_kind m = Some IntermediateShard /\
  adjusted_range kind shard_index m range n =
    match kind with
    | RealBeaconChain => Ok range
    | _ => Err (InvalidSolutionShard m (Some BEACON_CHAIN) shard_index kind)
    end.
Proof.
  intros Hm Hl Hk. assert (get_shard_kind m = Some IntermediateShard) as Hkm.
  { pose proof (leaf_index_kind m 0 ltac:(lia)) as E. unfold leaf_index in E. by rewrite N.mul_0_l, N.add_0_l in E. }
  split_and!; [|done|].
  - apply elem_of_iter_leaf. exists m, 0%N. split_and!; [lia..|]. unfold leaf_index. lia.
  - destruct kind; cbn; [done| |].
    + unfold parent_shard. rewrite Hkm, bool_decide_eq_false_2; [done|]. intros [= <-]. by vm_compute in Hk.
    + destruct (N.eqb_spec m shard_index) as [<-|]; [by rewrite Hkm in Hk|]. cbn. unfold parent_shard. by rewrite Hkm.
Qed.

Lemma first_leaf_shards_rejected_witness :
  1%N ∈ iter_leaf_shards (NumShards 2 3) /\ get_shard_kind 1 = Some IntermediateShard /\
  adjusted_range RealIntermediateShard 1 1 100 (NumShards 2 3) =
    Err (InvalidSolutionShard 1 (Some BEACON_CHAIN) 1 RealIntermediateShard).
Proof. apply (first_leaf_shards_rejected (NumShards 2 3) 1 1 100 RealIntermediateShard); [split; discriminate|reflexivity..]. Defined.

(** The pieces of the last segment have indexes that fit, but the end of the segment does not. *)
Example last_segment_overflows :
  segment_index_of u64_max = (2 ^ 56 - 1)%N /\ last_piece_index (2 ^ 56 - 1) = Fault.
Proof. split; reflexivity. Qed.

(** For a fraction above one the recent history can be longer than the history. *)
Example recent_history_underflows :
  derive_piece_index (P := portable_platform) zero32 1 4 1000 9 (9, 0)%N = Fault.
Proof. vm_compute. reflexivity. Qed.

End Solutions.
